(* ===== verification/_CoqProject ===== *)
-Q . S2P
Prelude.v
Share.v
Tiers.v
Refusal.v
Queue.v
QueueSim.v
FloatFmt.v
SoloSched.v
Retry.v
LoginThrottle.v
VaultModel.v
VaultPolicy.v
FrameRing.v
Utf8.v
TermWire.v
Ptyd.v
Heartbeat.v
BoolCoder.v
Permission.v
ClientHello.v
FrontDoor.v
Floats.v
Jitter.v
AppFraming.v
JobFrames.v
Ledger.v
QueueStore.v
FairQ.v
NodeQueue.v
NodeTick.v
NodeFrames.v
Redact.v
Journal.v
LogCopy.v
Ship.v
Allow.v
JobTable.v
JobLife.v
JobSweep.v
JobTurns.v
JobEnds.v
JobRun.v
JobDelivery.v
