(* ===== verification/Prelude.v ===== *)
(** * K2: a verification development

    K2 is a daemon ([src/crates/k2-daemon], [k2-core]) that runs agents in
    workspaces, with the programs around it: compute nodes that run build
    and test jobs for one or several servers ([k2-node], [k2-node-proto]),
    a vault of secrets ([k2-vault]), terminals kept alive by a PTY daemon
    and shown over a wire format ([k2-ptyd], [k2-term-grid],
    [k2-term-wire]), a front on port 443, and calls: audio ([kessel-audio]),
    and video through a shared-memory ring ([kessel-frame-ring]) and a VP8
    codec ([vp8-decoder], [vp8-encoder]).
    The repository is far larger than what is modelled: the development
    takes the parts whose correctness is a matter of logic and leaves the
    parts that are operating-system effects.

    ** The files

    - [Prelude] (this file): machine integers, text as bytes and scalar
      values, sorted containers, [Result], the tactics and the hint database
      [k2] the other files share.

    Jobs on compute nodes.  A server's request reaches a node as an offer;
    the node refuses it or queues it, and at every change decides what starts.
    - [Share] (k2-node-proto/src/share.rs): tenants' limits, the owner's
      servers file and its checks, what counts as widening a limit.
    - [Tiers] (k2-node-proto/src/tiers.rs): the tiers, the lines they stand
      in and the alternation between the priority and the standard line.
    - [Refusal] (k2-node-proto/src/refusal.rs, frames.rs): the one refusal
      rule of node and controller, [refusal], over a node's state and a job.
    - [Queue], [QueueSim] (k2-node-proto/src/queue.rs): the node's fair
      queue.  [order] is the start order; [fit] the admission test;
      [simulate] plays the queue forward; [queue_decide] ([decide] in the
      code) says what starts now, what every job waits for and its ETAs;
      [view] is what each server is shown.
    - [FloatFmt], [SoloSched] (k2-core/src/compute/scheduler.rs): the
      controller's scheduler of a node that serves it alone: [decide_with],
      [order_with], [pick_any].
    - [Retry] (k2-core/src/compute/retry.rs): retries, backoff and the
      quarantine of a failing node.
    - [JobFrames] (k2-node-proto/src/frames.rs): the plan and the fence of an
      attempt, its states, and the names a node may use as folders.
    - [Ledger] (k2-node/src/ledger.rs): the table of attempts a node keeps
      for a server, statement by statement, any of which may fail.
    - [QueueStore] (k2-node/src/queue_store.rs): what the queue keeps on
      disk: usage, run times, job sizes and the marks of the rotation.
    - [FairQ], [NodeQueue] (k2-node/src/fairq.rs, node/assign.rs, with parts
      of node/mod.rs and node/tenant.rs): the queue at run time.  [FairQ] has
      its state, the accounting and the snapshot; [NodeQueue] the node around
      it: the handlers of [assign], [cancel] and an attach, and [tick], which
      decides on a snapshot with [queue_decide] and starts what it says.
    - [NodeTick], [NodeFrames]: the theorems on [tick] and on the handlers.
    - [Redact] (k2-redact/src/lib.rs): the patterns of a secret value, the
      redactor over an automaton that is an interface with its law
      ([AhoCorasick], [AhoCorasickLaw]) and whose building may fail, and its
      streams.
    - [Journal] (k2-node/src/journal.rs): an attempt's log: the writer with
      its redaction and caps, the reader that resumes, over the bytes of a
      file whose writes may fail part-way.
    - [LogCopy] (k2-core/src/compute/logs.rs, k2-daemon/src/compute_ws.rs):
      the server's copy of a log: appends in sequence, the cache of tails and
      its scan after a restart, the paging readers.
    - [Ship] (k2-node/src/session.rs, [ship_pass]): what a session sends of an
      attempt, the closing pass of an ended server included.  [proto] is the
      protocol it follows, a step relation on frames; [run_sessions] joins
      [Ledger]'s rows, [Journal]'s files and [LogCopy].
    - [JobTable] (k2-core/src/compute/store.rs): the server's rows of jobs,
      statement by statement, each of which may fail ([w_faults]), and what
      a handler does besides (frames sent, kicks, events, messages).
    - [JobLife] (k2-daemon/src/compute_ws.rs, compute_place.rs,
      compute_views.rs, compute_routes.rs): what nodes and people do to those
      rows: [on_state], [on_snapshot], [on_receipt], [cancel_one],
      [retry_one], [after_attempt], the loss of a node.
    - [Allow] (k2-core/src/compute/allow.rs, k2-daemon/src/compute_allow.rs):
      the list of nodes a workspace's jobs may go to, and who may change it.
    - [JobSweep] (compute_place.rs, compute_ws.rs, compute_routes.rs): the
      ticker's passes [sweep], placement [kick], [assign_job], re-sends, newer
      jobs that replace older ones, a node's removal, attach and detach.
    - [JobTurns]: the ticker's pass, and a job that a node gives back, section
      by section, with the handlers of [JobLife] and [JobSweep] in any order
      in between: a run is a list of [ServerMove]s.
    - [JobEnds]: the theorems on single handlers.  [JobRun]: those on runs.
      [JobDelivery]: [handle_frame] and the way of an end from the node's
      ledger to the server's row.

    Who may do what.
    - [VaultModel], [VaultPolicy] (k2-vault/src/model.rs, error.rs,
      policy.rs): the vocabulary of the vault behind the interface
      [StrEnum], and the policy: [can_create], [can_see], [can_manage],
      [can_loosen], [can_grant], [can_reveal_secret].
    - [LoginThrottle] (k2-daemon/src/login_throttle.rs): the sliding-window
      limiter of sign-ins and the ceiling of anonymous failures.
    - [Permission] (k2-core/src/permission/request.rs,
      k2-daemon/src/permission/store.rs, limits.rs, answer.rs, ...): the
      table of permission requests, the limits on asking, who may answer,
      and the handlers as step machines over that table.
    - [Heartbeat] (k2-core/src/scheduler.rs, workspace/scheduler.rs): when
      a project's schedule fires, over an interface [Chrono] of calendar
      and clock with its laws [ChronoLaws], discharged by [Gregorian].

    Bytes and shared memory.
    - [TermWire] (k2-term-wire/src/k1.rs, k2-term-grid/src/grid_snapshot.rs):
      the binary format of terminal snapshots and deltas.
    - [Ptyd] (k2-ptyd/src/ring.rs, proto.rs): the output ring of a terminal
      and the framing of the daemon's socket.
    - [FrameRing] (kessel-frame-ring/src): the sequence-locked ring of video
      frames two processes share, with any interleaving of their accesses.
    - [BoolCoder] (vp8-decoder/src/bool_encoder.rs, bool_decoder.rs): the
      arithmetic coder of VP8.
    - [Utf8]: the standard library's UTF-8 validation, lossy decoding and
      [trim], on bytes.

    - [Floats], [Jitter] (kessel-audio/src/jitter.rs, pipeline.rs): the
      jitter buffer of a call's audio, its target delay in binary32 and
      binary64 arithmetic, and the decoding of one tick.

    - [AppFraming] (k2-core/src/deploy/framing.rs): what an App printed, as
      text for agents and through the filter of an interactive shell, with the
      grammar of its output ([draws]) as the specification.

    The public port 443.  A connection's first bytes say where it goes.
    - [ClientHello] (k2-daemon/src/front443/client_hello.rs): the parser of
      a TLS ClientHello that may be cut into records and reads.
    - [FrontDoor] (k2-daemon/src/front443/proxy_v2.rs, routes.rs, server.rs,
      k2-daemon/src/client_ip.rs): the route table, the PROXY v2 header and
      its reader, reading the hello, forwarding, and the permits and slots
      as a step relation.

    ** How the code is modelled

    A definition has the name of the function it translates where the name
    is free (a method [T::f] is [T_f]).  An integer is a [Z]; where the code
    wraps or saturates the definition says so ([u64], [u64_sat_add]), and the
    theorems have the ranges they need as hypotheses.  A [String] is Rocq's
    [string] of bytes, or its scalar values where the code works on [chars].
    A [BTreeMap] or [HashMap] is a [gmap], iterated in key order or in an
    order that is a parameter.  A panic of the code is [None].  A loop whose
    recursion is not structural has fuel, and a lemma or theorem says that
    the fuel is enough: the queue's [order] has one turn per job and the
    theorem is that every job is in the result; [simulate] has the code's
    own bound on its rounds; the entropy coder's loops shift at least one bit
    a turn and have 8 turns or the 32 of a word; the frame decoder and
    the loops of the ClientHello parser have one turn per byte, the journal's
    reader one more than that ([read_loop_spec]), the copy's readers too
    ([scan_loop_spec], [page_loop_spec]); the shipper's loop ends with fuel
    for more turns than the log has records ([log_loop_all]), and what it
    sends obeys the protocol with any.  A lock, or one SQL statement, makes a step atomic, and what
    runs between steps is any interleaving ([FrameRing.step],
    [Permission.step], [NodeQueue.section]).  The handlers of a node are also
    whole functions on its state, and a lemma says they are made of such
    steps ([NodeQueue.sections_call]).  An SQL statement is the function it
    means on a list of rows, and fails when [Ledger.db_faults] says so.  The
    server's handlers read the clock as a supply of any values; the choice of
    a node, what its schedulers decide, the check of a signature and the text
    of messages are arguments.  In a run of the server a handler is
    one step, except those that act on rows they read before they let the
    lock go: the ticker's pass and a job given back are taken in sections
    ([JobTurns]), each with one row.

    ** What the theorems show

    - Safety of starts: jobs started together fit the node and every cap, and
      the queue's discipline (aged jobs first, fair shares, lines) holds; a
      job that waits is told a true reason.
    - Agreement: the refusal rule refuses exactly what is not ready or does
      not fit; [widens] lists exactly the limits that grow; the ask limits
      are exactly the caps they name; the throttle is exactly the sliding
      window.
    - A node's attempts: an attempt is launched at most once and only while it
      waits or is new, and its end is written whole or not at all; it goes
      forward only and keeps its end, as long as the caller of the statement
      without a guard ([set_running]) does ([Ledger.set_running_reopens]) and
      [prune] leaves its row; while the ledger can be read, a known attempt is
      never run again ([NodeFrames.replay_after_fault] is what reads that fail
      do); an attach leaves in the queue what the server lists; what a tick
      starts fits beside what runs, and was named in the open session.
    - Output: a held secret, in each form it is looked for, is replaced at
      least in part, and whole when no other pattern crosses it
      ([Redact.adjacent_base64_kept]), in a text as in a stream of any
      chunks; a job's log is delivered in order and once, survives a crash at
      any byte, and keeps what its caps say.  What a failed write does to it
      is exhibited ([Journal.torn_write_hides]).  Over sessions cut anywhere,
      with appends that go through or fail before they write, the server's
      copy is the first records of the log, and complete when a final state
      sent before a closing pass counts them ([Ship.Examples.closing_ahead] is a
      closing pass); an append cut in the middle is exhibited
      ([LogCopy.torn_copy_counted]).
    - A server's jobs: over any run, and whichever statements fail, a
      generation never falls and an attempt that ended keeps its end, unless a
      pass or a job given back that had read the row before writes over it
      ([JobRun.RunExamples.end_overtaken]); an end is recorded as the node says it, or as
      an owed cancel turns it, or the job is queued again exactly when it may
      be (rows from before retries were options apart,
      [JobEnds.Examples.legacy_retry_lost]); frames of other attempts change nothing.
      A job is assigned only to a node on its workspace's list, and asked back
      by the ticker at most twice, and once more for each statement that
      fails; a pass that no statement fails leaves no deadline of a queued job
      unkept.  A whole pass of the shipper leaves the server with the whole
      log and the end.  Where a cancel is lost is exhibited
      ([JobEnds.Examples.cancel_lost_in_snapshot]).
    - Policy: agents cannot widen what people gave, nor the list of nodes
      (but for a race of two changes, [Allow.Examples.judged_on_older_list]); the system namespace is
      closed; a higher rank can do no less.
    - State machines: an approved request is applied once however handlers
      race and stop; a frame read from the ring is one frame that was written.
    - Round trips and refinements: terminal frames, the daemon's framing and
      the entropy coder decode what was encoded; the output ring is a window
      of the whole stream.
    - Calls: each packet is played at most once as long as none comes 256
      numbers late ([Jitter.old_copy_again]) and, but for one case the model
      exhibits ([Jitter.late_packet_rewinds]), in order; every tick is
      accounted for; the buffer drains.
    - Untrusted output: what an App prints leaves the filter without string
      sequences and C1 bytes, and drawing passes unchanged; escapes of two
      bytes pass too, the one that leaves UTF-8 among them
      ([AppFraming.leaving_utf8_passes]); an agent's text is clean and capped.
    - The front: a ClientHello is the same however it is cut; what is
      forwarded goes to a backend on this machine and nothing is lost, added
      or spoofed on the way; permits and slots are given back.

    ** What is not modelled

    SQLite itself, HTTP, TLS, process management, sandboxes, devices, the agents'
    model providers and everything that is text for a screen.  The catalog of
    permission actions is an input of the handlers; dates, JSON and
    cryptography are third-party code and stay parameters.  Loads and stores
    of the frame ring are sequentially consistent.  The half-life decay of
    the queue's usage ([powf]) is a parameter.  Of the controller, jobs split
    into parts, the candidates of a placement, and the tables of nodes,
    grants and usage are left out.  The front end and the command line are
    not Rust. *)

From Stdlib Require Export ZArith Lia Ascii.
From stdpp Require Export base tactics option list gmap strings sorting.

(** ** Notations *)

Declare Scope k2_scope.
Delimit Scope k2_scope with k2.

(** Rust's [Result<T, E>]. *)
Inductive Result (T E : Type) : Type :=
| Ok (v : T)
| Err (e : E).
Arguments Ok {T E} v.
Arguments Err {T E} e.

(** Rust's [e?] on a [Result]: bind, stopping at the first error. *)
Definition result_bind {T U E} (r : Result T E) (k : T → Result U E) : Result U E :=
  match r with Ok v => k v | Err e => Err e end.

Notation "'let?' x ':=' r 'in' k" := (result_bind r (fun x => k))
  (at level 10, x pattern, r at level 100, k at level 200) : k2_scope.

(** Rust's early [return]: the first guard that fires decides. *)
Notation "'guard' c 'ret' e ';' k" := (if c then e else k)
  (at level 10, c at level 100, e at level 100, k at level 200, only parsing) : k2_scope.

Open Scope k2_scope.
Open Scope Z_scope.

(** ** Machine integers

    A fixed-width integer is a [Z]; its operations write out what release
    builds do (wrap around), and the [saturating_*] methods saturate. *)

Definition u8 (x : Z) : Z := x mod 2 ^ 8.
Definition u16 (x : Z) : Z := x mod 2 ^ 16.
Definition u32 (x : Z) : Z := x mod 2 ^ 32.
Definition u64 (x : Z) : Z := x mod 2 ^ 64.
Definition u128 (x : Z) : Z := x mod 2 ^ 128.
Definition i64 (x : Z) : Z := (x + 2 ^ 63) mod 2 ^ 64 - 2 ^ 63.

Definition u64_max : Z := 2 ^ 64 - 1.
Definition i64_max : Z := 2 ^ 63 - 1.
Definition i64_min : Z := - 2 ^ 63.

(** [u64::saturating_add], [_sub], [_mul]; [i64::saturating_add], [_sub], [_mul]. *)
Definition u64_sat_add (a b : Z) : Z := Z.min u64_max (a + b).
Definition u64_sat_sub (a b : Z) : Z := Z.max 0 (a - b).
Definition u64_sat_mul (a b : Z) : Z := Z.min u64_max (a * b).
Definition i64_sat (x : Z) : Z := Z.max i64_min (Z.min i64_max x).

Lemma u32_small x : 0 ≤ x < 2 ^ 32 → u32 x = x.
Proof. intros. unfold u32. by apply Z.mod_small. Qed.
Lemma u64_small x : 0 ≤ x < 2 ^ 64 → u64 x = x.
Proof. intros. unfold u64. by apply Z.mod_small. Qed.
Lemma u128_small x : 0 ≤ x < 2 ^ 128 → u128 x = x.
Proof. intros. unfold u128. by apply Z.mod_small. Qed.
Lemma u64_range x : 0 ≤ u64 x < 2 ^ 64.
Proof. unfold u64. apply Z.mod_pos_bound. lia. Qed.
Lemma i64_small x : i64_min ≤ x ≤ i64_max → i64 x = x.
Proof.
  unfold i64, i64_min, i64_max. intros.
  rewrite Z.mod_small by lia. lia.
Qed.

(** Or-ing in low bits adds them. *)
Lemma lor_low q b k : 0 ≤ k → 0 ≤ b < 2 ^ k → Z.lor (q * 2 ^ k) b = q * 2 ^ k + b.
Proof.
  intros Hk Hb. rewrite <- Z.shiftl_mul_pow2 by done. symmetry.
  apply Z.add_nocarry_lor. apply Z.bits_inj'. intros i Hi.
  rewrite Z.land_spec, Z.bits_0. destruct (Z.lt_ge_cases i k).
  - by rewrite Z.shiftl_spec_low.
  - rewrite (proj2 (Z.testbit_false b i Hi)); [by rewrite andb_false_r|].
    rewrite Z.div_small; [done|]. split; [lia|].
    eapply Z.lt_le_trans; [apply Hb|]. apply Z.pow_le_mono_r; lia.
Qed.

(** ** Tactics *)

(** Split on every [if]/[match] of the goal and close what computes. *)
Ltac case_all := repeat case_match; simplify_eq/=; try done.

(** Turn boolean tests in the context into propositions. *)
Ltac bool_props :=
  repeat match goal with
  | H : _ && _ = true |- _ => apply andb_true_iff in H as [??]
  | H : _ || _ = false |- _ => apply orb_false_iff in H as [??]
  | H : negb _ = true |- _ => apply negb_true_iff in H
  | H : negb _ = false |- _ => apply negb_false_iff in H
  | H : (_ =? _)%string = true |- _ => apply String.eqb_eq in H
  | H : (_ =? _)%string = false |- _ => apply String.eqb_neq in H
  | H : (_ =? _)%Z = true |- _ => apply Z.eqb_eq in H
  | H : (_ =? _)%Z = false |- _ => apply Z.eqb_neq in H
  | H : (_ <? _)%Z = true |- _ => apply Z.ltb_lt in H
  | H : (_ <? _)%Z = false |- _ => apply Z.ltb_ge in H
  | H : (_ <=? _)%Z = true |- _ => apply Z.leb_le in H
  | H : (_ <=? _)%Z = false |- _ => apply Z.leb_gt in H
  end.

(** ** Strings as bytes and as Unicode scalar values *)

Definition byte_of (a : ascii) : Z := Z.of_nat (nat_of_ascii a).
Definition bytes (s : string) : list Z := byte_of <$> String.list_ascii_of_string s.
Definition str_len (s : string) : Z := Z.of_nat (String.length s).

(** The scalar values of a (valid) UTF-8 byte sequence: [str::chars]. *)
Fixpoint utf8_chars (bs : list Z) : list Z :=
  match bs with
  | [] => []
  | b0 :: r =>
    if b0 <? 128 then b0 :: utf8_chars r
    else if b0 <? 224 then
      match r with
      | b1 :: r => ((b0 - 192) * 64 + (b1 - 128)) :: utf8_chars r
      | _ => []
      end
    else if b0 <? 240 then
      match r with
      | b1 :: b2 :: r => ((b0 - 224) * 4096 + (b1 - 128) * 64 + (b2 - 128)) :: utf8_chars r
      | _ => []
      end
    else
      match r with
      | b1 :: b2 :: b3 :: r =>
        ((b0 - 240) * 262144 + (b1 - 128) * 4096 + (b2 - 128) * 64 + (b3 - 128)) :: utf8_chars r
      | _ => []
      end
  end.

Definition chars (s : string) : list Z := utf8_chars (bytes s).

(** [char::is_control] (general category Cc) and [char::is_whitespace]. *)
Definition char_is_control (c : Z) : bool :=
  (c <? 32) || ((127 <=? c) && (c <? 160)).
Definition char_is_whitespace (c : Z) : bool :=
  ((9 <=? c) && (c <=? 13)) || (c =? 32) || (c =? 0x85) || (c =? 0xA0) || (c =? 0x1680)
  || ((0x2000 <=? c) && (c <=? 0x200A)) || (c =? 0x2028) || (c =? 0x2029)
  || (c =? 0x202F) || (c =? 0x205F) || (c =? 0x3000).

Fixpoint drop_while {A} (p : A → bool) (l : list A) : list A :=
  match l with
  | [] => []
  | x :: r => if p x then drop_while p r else l
  end.

(** [str::trim], on the scalar values. *)
Definition trim_chars (cs : list Z) : list Z :=
  reverse (drop_while char_is_whitespace (reverse (drop_while char_is_whitespace cs))).

Definition is_ascii_digit (b : Z) : bool := (48 <=? b) && (b <=? 57).
Definition is_ascii_lowercase (b : Z) : bool := (97 <=? b) && (b <=? 122).
Definition is_ascii_uppercase (b : Z) : bool := (65 <=? b) && (b <=? 90).
Definition is_ascii_alphanumeric (b : Z) : bool :=
  is_ascii_digit b || is_ascii_lowercase b || is_ascii_uppercase b.

Definition mem_z (x : Z) (l : list Z) : bool := existsb (Z.eqb x) l.
Definition mem_str (x : string) (l : list string) : bool := existsb (String.eqb x) l.

(** [str::starts_with] and [str::strip_prefix]. *)
Fixpoint strip_prefix (p s : string) : option string :=
  match p, s with
  | EmptyString, _ => Some s
  | String a p, String b s => if Ascii.eqb a b then strip_prefix p s else None
  | String _ _, EmptyString => None
  end.
Definition starts_with (s p : string) : bool :=
  if strip_prefix p s is Some _ then true else false.

(** [<uN>::from_str] (radix 10): an optional [+], at least one digit, no
    overflow of [max]. *)
Fixpoint parse_digits (max acc : Z) (bs : list Z) : option Z :=
  match bs with
  | [] => Some acc
  | b :: r =>
    if is_ascii_digit b then
      let acc := acc * 10 + (b - 48) in
      if acc <=? max then parse_digits max acc r else None
    else None
  end.
Definition parse_unsigned_bytes (max : Z) (bs : list Z) : option Z :=
  match bs with
  | [] => None
  | 43 :: [] => None
  | 43 :: r => parse_digits max 0 r
  | _ => parse_digits max 0 bs
  end.
Definition parse_unsigned (max : Z) (s : string) : option Z := parse_unsigned_bytes max (bytes s).

(** [i64::from_str]: like the unsigned parse, or [-] and digits. *)
Definition parse_i64_bytes (bs : list Z) : option Z :=
  match bs with
  | 45 :: [] => None
  | 45 :: r => option_map Z.opp (parse_digits (2 ^ 63) 0 r)
  | _ => parse_unsigned_bytes i64_max bs
  end.

Lemma parse_digits_bounds max acc bs v :
  0 ≤ acc ≤ max → parse_digits max acc bs = Some v → 0 ≤ v ≤ max.
Proof.
  revert acc. induction bs as [|b bs IH]; intros acc Hacc; simpl; [congruence|].
  unfold is_ascii_digit. repeat case_match; [|done..].
  bool_props. apply IH. lia.
Qed.

(** ** Options *)

Definition opt_eqb {A} (eqb : A → A → bool) (x y : option A) : bool :=
  match x, y with
  | Some a, Some b => eqb a b
  | None, None => true
  | _, _ => false
  end.
Definition opt_or {A} (x y : option A) : option A := if x is Some _ then x else y.
Definition opt_is_some_and {A} (p : A → bool) (x : option A) : bool :=
  if x is Some a then p a else false.
Definition opt_unwrap_or {A} (x : option A) (d : A) : A := default d x.

Lemma opt_is_some_and_false {A} (p : A → bool) x :
  opt_is_some_and p x = false ↔ ∀ a, x = Some a → p a = false.
Proof. destruct x; simpl; naive_solver. Qed.

(** ** Ordered containers

    A [BTreeMap] is a [gmap] iterated in key order, a [BTreeSet<&str>] its
    sorted list of distinct keys; [slice::sort_by] is a stable insertion
    sort (the result of a stable sort is unique). *)

Section isort.
Context {A : Type} (le : A → A → bool).

Fixpoint insert_by (x : A) (l : list A) : list A :=
  match l with
  | [] => [x]
  | y :: r => if le x y then x :: l else y :: insert_by x r
  end.
Definition isort (l : list A) : list A := foldr insert_by [] l.

Lemma insert_by_Permutation x l : insert_by x l ≡ₚ x :: l.
Proof.
  induction l as [|y r IH]; simpl; [done|]. case_match; [done|].
  rewrite IH. apply Permutation_swap.
Qed.
Lemma isort_Permutation l : isort l ≡ₚ l.
Proof. induction l as [|x l IH]; simpl; [done|]. by rewrite insert_by_Permutation, IH. Qed.

Lemma isort_StronglySorted l :
  (∀ x y, le x y = true ∨ le y x = true) →
  (∀ x y z, le x y = true → le y z = true → le x z = true) →
  StronglySorted (λ x y, le x y = true) (isort l).
Proof.
  intros Htot Htr. induction l as [|x l IH]; simpl; [constructor|].
  induction IH as [|y r Hr IHr Hy]; simpl; [by repeat constructor|].
  destruct (le x y) eqn:Hxy.
  - constructor; [by constructor|]. constructor; [done|].
    eapply Forall_impl; [done|]. simpl. eauto.
  - constructor; [done|]. rewrite Forall_forall in Hy |- *. intros z Hz.
    rewrite insert_by_Permutation in Hz. apply elem_of_cons in Hz as [->|Hz]; [|by apply Hy].
    destruct (Htot x y) as [?|?]; [congruence|done].
Qed.
End isort.

Definition bt_entries {A} (m : gmap Z A) : list (Z * A) :=
  isort (λ x y, x.1 <=? y.1) (map_to_list m).
Definition bt_set (l : list string) : list string := isort String.leb (remove_dups l).

Lemma elem_of_bt_entries {A} (m : gmap Z A) k x : (k, x) ∈ bt_entries m ↔ m !! k = Some x.
Proof. unfold bt_entries. by rewrite isort_Permutation, elem_of_map_to_list. Qed.
Lemma elem_of_bt_set l s : s ∈ bt_set l ↔ s ∈ l.
Proof. unfold bt_set. by rewrite isort_Permutation, elem_of_remove_dups. Qed.
Lemma NoDup_bt_set l : NoDup (bt_set l).
Proof. unfold bt_set. rewrite isort_Permutation. apply NoDup_remove_dups. Qed.

(** [Iterator::min_by]: the first of the minimal elements. *)
Definition min_by {A} (le : A → A → bool) (l : list A) : option A :=
  fold_left (λ best x, match best with
    | None => Some x
    | Some b => if le b x then Some b else Some x
    end) l None.

Section min_by.
Context {A : Type} (le : A → A → bool).
Hypothesis le_total : ∀ x y, le x y = true ∨ le y x = true.
Hypothesis le_trans : ∀ x y z, le x y = true → le y z = true → le x z = true.

Lemma min_by_step l b :
  ∃ x, fold_left (λ best x, match best with
    | None => Some x
    | Some b => if le b x then Some b else Some x
    end) l (Some b) = Some x
    ∧ x ∈ b :: l ∧ ∀ y, y ∈ b :: l → le x y = true.
Proof.
  revert b. induction l as [|y l IH]; intros b; simpl.
  - exists b. split_and!; [done|set_solver|]. intros y Hy.
    apply list_elem_of_singleton in Hy as ->. destruct (le_total b b); done.
  - destruct (le b y) eqn:Hby.
    + destruct (IH b) as (x&Hx&Hin&Hle). exists x. split_and!; [done|set_solver|].
      intros z. rewrite !elem_of_cons. intros [->|[->|Hz]].
      * apply Hle. set_solver.
      * apply (le_trans _ b); [apply Hle; set_solver|done].
      * apply Hle. set_solver.
    + destruct (IH y) as (x&Hx&Hin&Hle). exists x. split_and!; [done|set_solver|].
      intros z. rewrite !elem_of_cons. intros [->|[->|Hz]].
      * apply (le_trans _ y); [apply Hle; set_solver|].
        destruct (le_total b y); congruence.
      * apply Hle. set_solver.
      * apply Hle. set_solver.
Qed.

Lemma min_by_Some l x :
  min_by le l = Some x → x ∈ l ∧ ∀ y, y ∈ l → le x y = true.
Proof.
  destruct l as [|b l]; [done|]. unfold min_by. simpl.
  destruct (min_by_step l b) as (x'&->&?&?). naive_solver.
Qed.
Lemma min_by_is_Some l : l ≠ [] → is_Some (min_by le l).
Proof.
  destruct l as [|b l]; [done|]. intros _. unfold min_by. simpl.
  destruct (min_by_step l b) as (x'&->&?). eauto.
Qed.
End min_by.

(** ** Lists *)

Lemma list_find_Some_elem {A} (f : A → bool) l x : List.find f l = Some x → x ∈ l ∧ f x = true.
Proof. intros [H ?]%find_some. by rewrite <- list_elem_of_In in H. Qed.
Lemma elem_of_filter_bool {A} (f : A → bool) l x : x ∈ List.filter f l ↔ x ∈ l ∧ f x = true.
Proof. by rewrite !list_elem_of_In, filter_In. Qed.
Lemma NoDup_filter_bool {A} (f : A → bool) (l : list A) : NoDup l → NoDup (List.filter f l).
Proof. rewrite !NoDup_ListNoDup. apply List.NoDup_filter. Qed.
#[export] Instance filter_bool_Permutation {A} (f : A → bool) : Proper (Permutation ==> Permutation) (List.filter f).
Proof.
  induction 1; cbn; [done|destruct (f x); by try constructor|destruct (f x), (f y); by try constructor|by etrans].
Qed.
Lemma filter_fmap_bool {A B} (f : A → B) (p : B → bool) (l : list A) :
  List.filter p (f <$> l) = f <$> List.filter (λ x, p (f x)) l.
Proof. induction l as [|x l IH]; cbn; [done|]. destruct (p (f x)); cbn; by rewrite <- IH. Qed.
Lemma filter_filter_bool {A} (p q : A → bool) (l : list A) :
  List.filter p (List.filter q l) = List.filter (λ x, p x && q x) l.
Proof. induction l as [|x l IH]; cbn; [done|]. destruct (q x); cbn; rewrite IH; by destruct (p x). Qed.
Lemma NoDup_fmap_filter {A B} (f : A → B) (p : A → bool) (l : list A) : NoDup (f <$> l) → NoDup (f <$> List.filter p l).
Proof.
  induction l as [|x l IH]; cbn; [done|]. intros [Hx Hl]%NoDup_cons. destruct (p x); [|by apply IH].
  cbn. constructor; [|by apply IH]. intros (y&Hy&[? _]%elem_of_filter_bool)%list_elem_of_fmap.
  apply Hx. rewrite Hy. by apply list_elem_of_fmap_2.
Qed.
Lemma existsb_true {A} (f : A → bool) l : existsb f l = true ↔ ∃ x, x ∈ l ∧ f x = true.
Proof. rewrite existsb_exists. by setoid_rewrite list_elem_of_In. Qed.
Lemma existsb_false {A} (f : A → bool) l : existsb f l = false ↔ ∀ x, x ∈ l → f x = false.
Proof.
  rewrite <- not_true_iff_false, existsb_true. split.
  - intros H x Hx. apply not_true_iff_false. eauto.
  - intros H (x&Hx&?). rewrite H in *; congruence.
Qed.
Lemma forallb_true {A} (f : A → bool) l : forallb f l = true ↔ ∀ x, x ∈ l → f x = true.
Proof. rewrite forallb_forall. by setoid_rewrite list_elem_of_In. Qed.

Lemma string_app_assoc (a b c : string) : (a +:+ b) +:+ c = a +:+ b +:+ c.
Proof. induction a as [|x a IH]; [done|]. exact (f_equal (String x) IH). Qed.

(** ** Strings in byte order *)

Lemma ascii_compare_lt_trans a b c :
  Ascii.compare a b = Lt → Ascii.compare b c = Lt → Ascii.compare a c = Lt.
Proof. unfold Ascii.compare. rewrite !N.compare_lt_iff. lia. Qed.
Lemma ascii_compare_refl a : Ascii.compare a a = Eq.
Proof. apply N.compare_refl. Qed.

Lemma string_compare_trans s t u :
  String.compare s t ≠ Gt → String.compare t u ≠ Gt → String.compare s u ≠ Gt.
Proof.
  revert t u. induction s as [|a s IH]; intros [|b t] [|c u]; simpl; try done.
  destruct (Ascii.compare a b) eqn:Hab; [|intros _|done].
  - apply Ascii.compare_eq_iff in Hab as ->. destruct (Ascii.compare b c); [apply IH|done..].
  - destruct (Ascii.compare b c) eqn:Hbc; [|intros _|done].
    + apply Ascii.compare_eq_iff in Hbc as ->. by rewrite Hab.
    + by rewrite (ascii_compare_lt_trans a b c).
Qed.
Lemma string_compare_refl s : String.compare s s = Eq.
Proof. induction s; simpl; [done|]. by rewrite ascii_compare_refl. Qed.

(** ** Byte lists and their [Z] lengths *)

Definition zlen {A} (l : list A) : Z := Z.of_nat (length l).
Definition zdrop {A} (n : Z) (l : list A) : list A := drop (Z.to_nat n) l.
Definition ztake {A} (n : Z) (l : list A) : list A := take (Z.to_nat n) l.
Definition is_byte (b : Z) : Prop := 0 ≤ b < 256.

(** [&l[a..b]]: [None] is the panic. *)
Definition slice {A} (l : list A) (a b : Z) : option (list A) :=
  if (0 <=? a) && (a <=? b) && (b <=? zlen l) then Some (ztake (b - a) (zdrop a l)) else None.

(** [u16::to_be_bytes] and back. *)
Definition be16 (x : Z) : list Z := [Z.shiftr x 8 mod 256; x mod 256].
Definition of_be16 (a b : Z) : Z := a * 256 + b.

Lemma zlen_app {A} (l k : list A) : zlen (l ++ k) = zlen l + zlen k.
Proof. unfold zlen. rewrite length_app. lia. Qed.
Lemma zlen_cons {A} (x : A) l : zlen (x :: l) = 1 + zlen l.
Proof. unfold zlen. cbn [length]. lia. Qed.
Lemma zlen_rev {A} (l : list A) : zlen (rev l) = zlen l.
Proof. unfold zlen. by rewrite length_rev. Qed.
Lemma zlen_nonneg {A} (l : list A) : 0 ≤ zlen l.
Proof. unfold zlen. lia. Qed.
Lemma zlen_zdrop {A} n (l : list A) : 0 ≤ n ≤ zlen l → zlen (zdrop n l) = zlen l - n.
Proof. unfold zlen, zdrop. intros. rewrite length_drop. lia. Qed.
Lemma zdrop_zdrop {A} a b (l : list A) : 0 ≤ a → 0 ≤ b → zdrop a (zdrop b l) = zdrop (b + a) l.
Proof. intros. unfold zdrop. rewrite drop_drop. f_equal. lia. Qed.
Lemma zdrop_app {A} n (l k : list A) : 0 ≤ n ≤ zlen l → zdrop n (l ++ k) = zdrop n l ++ k.
Proof. unfold zdrop, zlen. intros. apply drop_app_le. lia. Qed.
Lemma zdrop_app_ge {A} n (l k : list A) : zlen l ≤ n → zdrop n (l ++ k) = zdrop (n - zlen l) k.
Proof. unfold zdrop, zlen. intros. rewrite drop_app_ge by lia. f_equal. lia. Qed.
Lemma zdrop_0 {A} (l : list A) : zdrop 0 l = l.
Proof. done. Qed.
Lemma Forall_rev_byte l : Forall is_byte l → Forall is_byte (rev l).
Proof. apply List.Forall_rev. Qed.

Lemma slice_app {A} (pre xs post : list A) a b :
  a = zlen pre → b = zlen pre + zlen xs → slice (pre ++ xs ++ post) a b = Some xs.
Proof.
  intros -> ->. pose proof (zlen_nonneg pre). pose proof (zlen_nonneg xs). pose proof (zlen_nonneg post).
  unfold slice. rewrite !zlen_app.
  rewrite (proj2 (Z.leb_le _ _)), (proj2 (Z.leb_le (zlen pre) _)), (proj2 (Z.leb_le (zlen pre + zlen xs) _)) by lia.
  cbn [andb]. rewrite zdrop_app_ge, Z.sub_diag, zdrop_0 by lia. unfold ztake.
  rewrite Z.add_simpl_l. unfold zlen. rewrite Nat2Z.id. by rewrite take_app_length.
Qed.
Lemma slice_Some {A} (l s : list A) a b :
  slice l a b = Some s → 0 ≤ a ≤ b ∧ b ≤ zlen l ∧ zlen s = b - a ∧ l = ztake a l ++ s ++ zdrop b l.
Proof.
  unfold slice, ztake, zdrop, zlen. destruct (Z.leb_spec 0 a), (Z.leb_spec a b),
    (Z.leb_spec b (Z.of_nat (length l))); cbn [andb]; try done. intros [= <-].
  split; [lia|]. split; [lia|]. split; [rewrite length_take, length_drop; lia|].
  rewrite <- (take_drop (Z.to_nat a) l) at 1. f_equal.
  rewrite <- (take_drop (Z.to_nat (b - a)) (drop (Z.to_nat a) l)) at 1. f_equal.
  rewrite drop_drop. f_equal. lia.
Qed.
Lemma slice_is_Some {A} (l : list A) a b : 0 ≤ a ≤ b → b ≤ zlen l → ∃ s, slice l a b = Some s.
Proof.
  intros. unfold slice. rewrite !(proj2 (Z.leb_le _ _)) by lia. by eexists.
Qed.
Lemma slice_mono {A} (l k s : list A) a b : slice l a b = Some s → slice (l ++ k) a b = Some s.
Proof.
  intros H. pose proof H as (Ha&Hb&Hs&Hl)%slice_Some. rewrite Hl, <- !app_assoc.
  assert (zlen (ztake a l) = a) as Ht
    by (unfold ztake, zlen in *; rewrite length_take; lia).
  apply slice_app; [done|]. rewrite Ht. lia.
Qed.
Lemma slice_Forall {A} (P : A → Prop) l s a b : slice l a b = Some s → Forall P l → Forall P s.
Proof. intros (_&_&_&->)%slice_Some. by rewrite !Forall_app; intros (_&?&_). Qed.

Lemma of_be16_be16 x : 0 ≤ x < 2 ^ 16 → ∃ a b, be16 x = [a; b] ∧ of_be16 a b = x ∧ is_byte a ∧ is_byte b.
Proof.
  intros Hx. eexists _, _. split; [reflexivity|]. unfold of_be16, is_byte.
  rewrite Z.shiftr_div_pow2 by lia. change (2 ^ 8) with 256.
  pose proof (Z.div_mod x 256 ltac:(lia)). pose proof (Z.mod_pos_bound x 256 ltac:(lia)).
  assert (0 ≤ x / 256 < 256) by (split; [apply Z.div_pos; lia|apply Z.div_lt_upper_bound; lia]).
  rewrite (Z.mod_small (x / 256)) by lia. lia.
Qed.

(** [slice::split] on one separator. *)
Fixpoint split_on (sep : Z) (l : list Z) : list (list Z) :=
  match l with
  | [] => [[]]
  | c :: r =>
    if c =? sep then [] :: split_on sep r
    else match split_on sep r with
         | w :: ws => (c :: w) :: ws
         | [] => [[c]]
         end
  end.

(** ** Hints

    [k2]: the ranges, the lengths and the [NoDup]s the components keep asking
    for; as a rewrite database, what [zlen] and membership compute to. *)

Create HintDb k2.
#[export] Hint Resolve u64_range zlen_nonneg NoDup_bt_set NoDup_filter_bool
  string_compare_refl Forall_rev_byte : k2.
#[export] Hint Resolve list_elem_of_here list_elem_of_further : k2.
#[export] Hint Rewrite @zlen_app @zlen_cons @zlen_rev @elem_of_filter_bool @existsb_true
  @existsb_false @forallb_true : k2.
