(* ===== verification/Share.v ===== *)
(** * One node, many servers: shares and [servers.toml]

    [crates/k2-node-proto/src/share.rs]: slots, job classes, networks, a
    tenant's limits with the narrow/widen rule, partial changes, and the
    owner's decisions file with its structural checks. *)

From S2P Require Import Prelude.

(** ** Slots and constants *)

Definition OWNER_SLOT : Z := 0.
Definition MAX_SLOTS : Z := 8.
Definition DEFAULT_MAX_SERVERS : Z := 3.
Definition MAC_DISK_GB : Z := 20.
Definition DEFAULT_DISK_GB : Z := 40.
Definition PENDING_SECS : Z := 600.
Definition MAX_QUOTES : Z := 4.

Definition valid_slot (s : Z) : bool := s <? MAX_SLOTS.

(** ** Reason codes *)

Definition codes_NODE_QUEUED : string := "node_queued".
Definition codes_SHARE_PAUSED : string := "share_paused".
Definition codes_SHARE_EXPIRED : string := "share_expired".
Definition codes_SHARE_REVOKED : string := "share_revoked".
Definition codes_INSTALLING_TOOLS : string := "installing_tools".
Definition codes_SERVER_NOT_APPROVED : string := "server_not_approved".
Definition codes_NODE_UPDATE : string := "node_update".

Definition blocked_SERVER_OFFLINE : string := "server_offline".
Definition blocked_OVER_QUOTA : string := "over_quota".
Definition blocked_EXCEEDS_NODE_CAPS : string := "exceeds_node_caps".
Definition blocked_WORKSPACE_RUNNING_FULL : string := "workspace_running_full".
Definition blocked_SERVER_RUNNING_FULL : string := "server_running_full".
Definition blocked_SUBMITTER_RUNNING_FULL : string := "submitter_running_full".
Definition blocked_WAITING_FOR_ROOM : string := "waiting_for_room".
Definition blocked_WAITING_FOR_IDLE : string := "waiting_for_idle".
Definition blocked_TIER_HOLD : string := "tier_hold".
Definition blocked_BACKFILL_HOLD : string := "backfill_hold".
Definition blocked_TURN : string := "turn".
Definition blocked_BATCH_WINDOW : string := "batch_window".
Definition blocked_LINGERING : string := "lingering".

Definition lets_others_pass (code : string) : bool :=
  mem_str code [blocked_WORKSPACE_RUNNING_FULL; blocked_SERVER_RUNNING_FULL;
                blocked_SUBMITTER_RUNNING_FULL; blocked_BATCH_WINDOW].

(** ** Small enums *)

Inductive JobClass := JobClass_Batch | JobClass_Interactive | JobClass_Gate.

#[export] Instance JobClass_eq_dec : EqDecision JobClass.
Proof. solve_decision. Defined.

Definition JobClass_as_str (c : JobClass) : string :=
  match c with
  | JobClass_Batch => "batch"
  | JobClass_Interactive => "interactive"
  | JobClass_Gate => "gate"
  end.

Definition JobClass_parse (s : string) : option JobClass :=
  guard (s =? "batch")%string ret Some JobClass_Batch;
  guard (s =? "interactive")%string ret Some JobClass_Interactive;
  guard (s =? "gate")%string ret Some JobClass_Gate;
  None.

Definition JobClass_rank (c : JobClass) : Z :=
  match c with JobClass_Batch => 0 | JobClass_Interactive => 1 | JobClass_Gate => 2 end.

Inductive Role := Role_Owner | Role_Tenant.

Definition Role_of (slot : Z) : Role := if slot =? OWNER_SLOT then Role_Owner else Role_Tenant.

Inductive Trust := Trust_Own | Trust_Team.

#[export] Instance Trust_eq_dec : EqDecision Trust.
Proof. solve_decision. Defined.

Definition Trust_as_str (t : Trust) : string :=
  match t with Trust_Own => "own" | Trust_Team => "team" end.

Definition Trust_parse (s : string) : option Trust :=
  guard (s =? "own")%string ret Some Trust_Own;
  guard (s =? "team")%string ret Some Trust_Team;
  None.

Inductive Network := Network_None | Network_NoLan | Network_On.

#[export] Instance Network_eq_dec : EqDecision Network.
Proof. solve_decision. Defined.

Definition Network_as_str (n : Network) : string :=
  match n with Network_None => "none" | Network_NoLan => "no-lan" | Network_On => "on" end.

Definition Network_parse (s : string) : option Network :=
  guard (s =? "none")%string ret Some Network_None;
  guard (s =? "no-lan")%string ret Some Network_NoLan;
  guard (s =? "on")%string ret Some Network_On;
  None.

Definition Network_of_policy (s : string) : Network := default Network_On (Network_parse s).

(** [self as u64]: the declaration order, narrowest first. *)
Definition Network_rank (n : Network) : Z :=
  match n with Network_None => 0 | Network_NoLan => 1 | Network_On => 2 end.

Inductive ShareState := ShareState_Pending | ShareState_Active | ShareState_Paused | ShareState_Revoked.

#[export] Instance ShareState_eq_dec : EqDecision ShareState.
Proof. solve_decision. Defined.

Definition ShareState_as_str (s : ShareState) : string :=
  match s with
  | ShareState_Pending => "pending"
  | ShareState_Active => "active"
  | ShareState_Paused => "paused"
  | ShareState_Revoked => "revoked"
  end.

Inductive ServerStatus :=
| ServerStatus_Pending
| ServerStatus_Active
| ServerStatus_Paused
| ServerStatus_Expired
| ServerStatus_Revoked
| ServerStatus_Refused.

#[export] Instance ServerStatus_eq_dec : EqDecision ServerStatus.
Proof. solve_decision. Defined.

Definition ServerStatus_as_str (s : ServerStatus) : string :=
  match s with
  | ServerStatus_Pending => "pending"
  | ServerStatus_Active => "active"
  | ServerStatus_Paused => "paused"
  | ServerStatus_Expired => "expired"
  | ServerStatus_Revoked => "revoked"
  | ServerStatus_Refused => "refused"
  end.

(** ** Shares *)

Record ShareLimits := mk_ShareLimits {
  sl_weight : Z;
  sl_top_class : JobClass;
  sl_gate : bool;
  sl_exclusive : bool;
  sl_max_running : Z;
  sl_max_queued : Z;
  sl_cpu_hours_day : Z;
  sl_max_job_secs : Z;
  sl_max_cpus : Z;
  sl_max_mem_gb : Z;
  sl_disk_gb : Z;
  sl_network : Network;
}.

#[export] Instance ShareLimits_eq_dec : EqDecision ShareLimits.
Proof. solve_decision. Defined.

Definition ShareLimits_new_server (trust : Trust) (macos : bool) : ShareLimits := {|
  sl_weight := 1;
  sl_top_class := JobClass_Interactive;
  sl_gate := false;
  sl_exclusive := false;
  sl_max_running := 1;
  sl_max_queued := 10;
  sl_cpu_hours_day := 8;
  sl_max_job_secs := 7200;
  sl_max_cpus := 4;
  sl_max_mem_gb := 8;
  sl_disk_gb := if macos then MAC_DISK_GB else DEFAULT_DISK_GB;
  sl_network := match trust, macos with
                | Trust_Own, _ => Network_On
                | Trust_Team, false => Network_NoLan
                | Trust_Team, true => Network_None
                end;
|}.

Definition ShareLimits_owner (max_running max_cpus max_mem_gb disk_gb : Z) (network : Network) : ShareLimits := {|
  sl_weight := 1;
  sl_top_class := JobClass_Gate;
  sl_gate := true;
  sl_exclusive := true;
  sl_max_running := max_running;
  sl_max_queued := 1000;
  sl_cpu_hours_day := 24 * 1024;
  sl_max_job_secs := 7 * 24 * 3600;
  sl_max_cpus := max_cpus;
  sl_max_mem_gb := max_mem_gb;
  sl_disk_gb := disk_gb;
  sl_network := network;
|}.

Definition allows_class (l : ShareLimits) (class : JobClass) : bool :=
  match class with
  | JobClass_Gate => sl_gate l && bool_decide (sl_top_class l = JobClass_Gate)
  | c => JobClass_rank c <=? JobClass_rank (sl_top_class l)
  end.

(** The [Err(String)] values of [validate] and [check_ranges]: which check
    failed, with the values its message shows. *)
Inductive ShareError :=
| RangeError (name : string) (lo hi got : Z)
| GateNeedsGateClass.

Definition in_range (name : string) (v lo hi : Z) : Result unit ShareError :=
  if (lo <=? v) && (v <=? hi) then Ok tt else Err (RangeError name lo hi v).

Definition ShareLimits_validate (l : ShareLimits) : Result unit ShareError :=
  let? _ := in_range "weight" (sl_weight l) 1 100 in
  let? _ := in_range "max_running" (sl_max_running l) 1 64 in
  let? _ := in_range "max_queued" (sl_max_queued l) 1 1000 in
  let? _ := in_range "cpu_hours_day" (sl_cpu_hours_day l) 1 (24 * 1024) in
  let? _ := in_range "max_job_secs" (sl_max_job_secs l) 60 (7 * 24 * 3600) in
  let? _ := in_range "max_cpus" (sl_max_cpus l) 1 1024 in
  let? _ := in_range "max_mem_gb" (sl_max_mem_gb l) 1 4096 in
  let? _ := in_range "disk_gb" (sl_disk_gb l) 1 65536 in
  guard sl_gate l && negb (bool_decide (sl_top_class l = JobClass_Gate))
    ret Err GateNeedsGateClass;
  Ok tt.

Definition bool_rank (b : bool) : Z := if b then 1 else 0.

(** [more(name, now, before)] pushes [name] when [now > before]. *)
Definition more (name : string) (now before : Z) (w : list string) : list string :=
  if before <? now then w ++ [name] else w.

Definition widens (l from : ShareLimits) : list string :=
  more "network" (Network_rank (sl_network l)) (Network_rank (sl_network from)) $
  more "disk_gb" (sl_disk_gb l) (sl_disk_gb from) $
  more "max_mem_gb" (sl_max_mem_gb l) (sl_max_mem_gb from) $
  more "max_cpus" (sl_max_cpus l) (sl_max_cpus from) $
  more "max_job_secs" (sl_max_job_secs l) (sl_max_job_secs from) $
  more "cpu_hours_day" (sl_cpu_hours_day l) (sl_cpu_hours_day from) $
  more "max_queued" (sl_max_queued l) (sl_max_queued from) $
  more "max_running" (sl_max_running l) (sl_max_running from) $
  more "exclusive" (bool_rank (sl_exclusive l)) (bool_rank (sl_exclusive from)) $
  more "gate" (bool_rank (sl_gate l)) (bool_rank (sl_gate from)) $
  more "top_class" (JobClass_rank (sl_top_class l)) (JobClass_rank (sl_top_class from)) $
  more "weight" (sl_weight l) (sl_weight from) [].

(** ** Partial changes *)

Record ShareOverrides := mk_ShareOverrides {
  so_weight : option Z;
  so_top_class : option JobClass;
  so_gate : option bool;
  so_exclusive : option bool;
  so_max_running : option Z;
  so_max_queued : option Z;
  so_cpu_hours_day : option Z;
  so_max_job_secs : option Z;
  so_max_cpus : option Z;
  so_max_mem_gb : option Z;
  so_disk_gb : option Z;
  so_network : option Network;
}.

#[export] Instance ShareOverrides_eq_dec : EqDecision ShareOverrides.
Proof. solve_decision. Defined.

Definition ShareOverrides_default : ShareOverrides :=
  mk_ShareOverrides None None None None None None None None None None None None.

Definition ShareOverrides_is_empty (o : ShareOverrides) : bool :=
  bool_decide (o = ShareOverrides_default).

Definition in_range_opt (name : string) (v : option Z) (lo hi : Z) : Result unit ShareError :=
  match v with
  | Some v => in_range name v lo hi
  | None => Ok tt
  end.

Definition check_ranges (o : ShareOverrides) : Result unit ShareError :=
  let? _ := in_range_opt "weight" (so_weight o) 1 100 in
  let? _ := in_range_opt "max_running" (so_max_running o) 1 64 in
  let? _ := in_range_opt "max_queued" (so_max_queued o) 1 1000 in
  let? _ := in_range_opt "cpu_hours_day" (so_cpu_hours_day o) 1 (24 * 1024) in
  let? _ := in_range_opt "max_job_secs" (so_max_job_secs o) 60 (7 * 24 * 3600) in
  let? _ := in_range_opt "max_cpus" (so_max_cpus o) 1 1024 in
  let? _ := in_range_opt "max_mem_gb" (so_max_mem_gb o) 1 4096 in
  in_range_opt "disk_gb" (so_disk_gb o) 1 65536.

(** [apply]: every given field replaces the base's. *)
Definition apply (o : ShareOverrides) (base : ShareLimits) : ShareLimits := {|
  sl_weight := default (sl_weight base) (so_weight o);
  sl_top_class := default (sl_top_class base) (so_top_class o);
  sl_gate := default (sl_gate base) (so_gate o);
  sl_exclusive := default (sl_exclusive base) (so_exclusive o);
  sl_max_running := default (sl_max_running base) (so_max_running o);
  sl_max_queued := default (sl_max_queued base) (so_max_queued o);
  sl_cpu_hours_day := default (sl_cpu_hours_day base) (so_cpu_hours_day o);
  sl_max_job_secs := default (sl_max_job_secs base) (so_max_job_secs o);
  sl_max_cpus := default (sl_max_cpus base) (so_max_cpus o);
  sl_max_mem_gb := default (sl_max_mem_gb base) (so_max_mem_gb o);
  sl_disk_gb := default (sl_disk_gb base) (so_disk_gb o);
  sl_network := default (sl_network base) (so_network o);
|}.

(** ** [servers.toml] *)

Definition SERVERS_FILE_VERSION : Z := 1.

Record ServerEntry := mk_ServerEntry {
  se_fp_prefix : string;
  se_label : string;
  se_state : ShareState;
  se_trust : Trust;
  se_slot : Z;
  se_uid : option Z;
  se_weight : Z;
  se_top_class : JobClass;
  se_gate : bool;
  se_exclusive : bool;
  se_max_running : Z;
  se_max_queued : Z;
  se_cpu_hours_day : Z;
  se_max_job_secs : Z;
  se_max_cpus : Z;
  se_max_mem_gb : Z;
  se_disk_gb : Z;
  se_network : Network;
  se_expires_at : option Z;
  se_pending_until : Z;
  se_added_at : Z;
  se_added_by : string;
}.

Record ServersFile := mk_ServersFile {
  sf_version : Z;
  sf_owner : string;
  sf_max_servers : Z;
  sf_servers : list ServerEntry;
}.

Definition limits (e : ServerEntry) : ShareLimits := {|
  sl_weight := se_weight e;
  sl_top_class := se_top_class e;
  sl_gate := se_gate e;
  sl_exclusive := se_exclusive e;
  sl_max_running := se_max_running e;
  sl_max_queued := se_max_queued e;
  sl_cpu_hours_day := se_cpu_hours_day e;
  sl_max_job_secs := se_max_job_secs e;
  sl_max_cpus := se_max_cpus e;
  sl_max_mem_gb := se_max_mem_gb e;
  sl_disk_gb := se_disk_gb e;
  sl_network := se_network e;
|}.

Definition set_limits (e : ServerEntry) (l : ShareLimits) : ServerEntry := {|
  se_fp_prefix := se_fp_prefix e;
  se_label := se_label e;
  se_state := se_state e;
  se_trust := se_trust e;
  se_slot := se_slot e;
  se_uid := se_uid e;
  se_weight := sl_weight l;
  se_top_class := sl_top_class l;
  se_gate := sl_gate l;
  se_exclusive := sl_exclusive l;
  se_max_running := sl_max_running l;
  se_max_queued := sl_max_queued l;
  se_cpu_hours_day := sl_cpu_hours_day l;
  se_max_job_secs := sl_max_job_secs l;
  se_max_cpus := sl_max_cpus l;
  se_max_mem_gb := sl_max_mem_gb l;
  se_disk_gb := sl_disk_gb l;
  se_network := sl_network l;
  se_expires_at := se_expires_at e;
  se_pending_until := se_pending_until e;
  se_added_at := se_added_at e;
  se_added_by := se_added_by e;
|}.

Definition status (e : ServerEntry) (now : Z) : ServerStatus :=
  match se_state e with
  | ShareState_Revoked => ServerStatus_Revoked
  | st =>
    guard opt_is_some_and (λ x, x <=? now) (se_expires_at e) ret ServerStatus_Expired;
    match st with
    | ShareState_Pending =>
      if se_pending_until e <=? now then ServerStatus_Expired else ServerStatus_Pending
    | ShareState_Paused => ServerStatus_Paused
    | _ => ServerStatus_Active
    end
  end.

Definition usable (e : ServerEntry) (now : Z) : bool :=
  bool_decide (status e now = ServerStatus_Active).

Definition may_attach (e : ServerEntry) (now : Z) : bool :=
  match status e now with
  | ServerStatus_Active | ServerStatus_Paused | ServerStatus_Pending => true
  | _ => false
  end.

Definition matches_fp (e : ServerEntry) (fp : string) : bool :=
  negb (se_fp_prefix e =? "")%string && (str_len fp =? 64) && starts_with fp (se_fp_prefix e).

Definition valid_label (label : string) : bool :=
  (1 <=? str_len label) && (str_len label <=? 64)
  && forallb (λ c, is_ascii_alphanumeric c || mem_z c (bytes "-_.")) (chars label).

Definition lower_hex (s : string) : bool :=
  forallb (λ b, is_ascii_digit b || ((97 <=? b) && (b <=? 102))) (bytes s).

Definition valid_fp_prefix (s : string) : bool := (str_len s =? 16) && lower_hex s.

Definition ServersFile_new (owner_fp owner_label : string) (owner : ShareLimits)
    (max_servers now : Z) (by_ : string) : ServersFile :=
  let e := {|
    se_fp_prefix := owner_fp; se_label := owner_label;
    se_state := ShareState_Active; se_trust := Trust_Own;
    se_slot := OWNER_SLOT; se_uid := None;
    se_weight := 0; se_top_class := JobClass_Gate; se_gate := true; se_exclusive := true;
    se_max_running := 0; se_max_queued := 0; se_cpu_hours_day := 0; se_max_job_secs := 0;
    se_max_cpus := 0; se_max_mem_gb := 0; se_disk_gb := 0; se_network := Network_On;
    se_expires_at := None; se_pending_until := 0; se_added_at := now; se_added_by := by_;
  |} in
  {| sf_version := SERVERS_FILE_VERSION; sf_owner := owner_fp;
     sf_max_servers := max_servers; sf_servers := [set_limits e owner] |}.

Definition entry (f : ServersFile) (slot : Z) : option ServerEntry :=
  List.find (λ e, se_slot e =? slot) (sf_servers f).

Definition by_label (f : ServersFile) (label : string) : option ServerEntry :=
  List.find (λ e, (se_label e =? label)%string
                  && negb (bool_decide (se_state e = ShareState_Revoked))) (sf_servers f).

(** [Iterator::max_by_key]: the last of the maximal elements. *)
Definition max_by_key {A} (key : A → Z) (l : list A) : option A :=
  fold_left (λ best x, match best with
    | None => Some x
    | Some b => if key b <=? key x then Some x else Some b
    end) l None.

Definition find_server (f : ServersFile) (server : string) : option ServerEntry :=
  match strip_prefix "slot:" server ≫= parse_unsigned 255 with
  | Some n => entry f n
  | None =>
    opt_or (by_label f server)
      (max_by_key se_added_at
        (List.filter (λ e, (se_label e =? server)%string
                           && bool_decide (se_state e = ShareState_Revoked)) (sf_servers f)))
  end.

Definition live_pending (f : ServersFile) (now : Z) : option ServerEntry :=
  List.find (λ e, bool_decide (status e now = ServerStatus_Pending)) (sf_servers f).

Definition active_count (f : ServersFile) (now : Z) : nat :=
  length (List.filter (λ e, match status e now with
    | ServerStatus_Active | ServerStatus_Paused => true | _ => false end) (sf_servers f)).

Definition file_shared (f : ServersFile) (now : Z) : bool := (2 <=? active_count f now)%nat.

Definition free_slot (f : ServersFile) : option Z :=
  List.find (λ s, if entry f s is None then true else false) (seqZ 1 (MAX_SLOTS - 1)).

(** [ServersFile::validate]'s [Err(String)] values. *)
Inductive ServersFileError :=
| BadVersion (v : Z)
| BadOwnerFingerprint
| BadMaxServers
| SlotOutOfRange (label : string) (slot : Z)
| SlotTwice (slot : Z)
| BadLabel (label : string)
| SlotZeroNotOwner
| BadFpPrefix (label : string)
| BadLimits (label : string) (e : ShareError)
| NoOwnerLine
| ManyPendings.

(** One line's checks; [seen] are the slots already used. *)
Definition validate_entry (owner : string) (seen : list bool) (e : ServerEntry)
    : Result (list bool) ServersFileError :=
  guard negb (valid_slot (se_slot e)) ret Err (SlotOutOfRange (se_label e) (se_slot e));
  let i := Z.to_nat (se_slot e) in
  guard default false (seen !! i) ret Err (SlotTwice (se_slot e));
  let seen := <[i := true]> seen in
  guard negb (valid_label (se_label e)) ret Err (BadLabel (se_label e));
  let? _ :=
    if se_slot e =? OWNER_SLOT then
      if negb (se_fp_prefix e =? owner)%string || negb (bool_decide (se_trust e = Trust_Own))
      then Err SlotZeroNotOwner else Ok tt
    else if negb (valid_fp_prefix (se_fp_prefix e)) then Err (BadFpPrefix (se_label e))
    else Ok tt in
  match ShareLimits_validate (limits e) with
  | Ok _ => Ok seen
  | Err m => Err (BadLimits (se_label e) m)
  end.

Fixpoint validate_entries (owner : string) (seen : list bool) (es : list ServerEntry)
    : Result (list bool) ServersFileError :=
  match es with
  | [] => Ok seen
  | e :: es => let? seen := validate_entry owner seen e in validate_entries owner seen es
  end.

Definition ServersFile_validate (f : ServersFile) : Result unit ServersFileError :=
  guard negb (sf_version f =? SERVERS_FILE_VERSION) ret Err (BadVersion (sf_version f));
  guard negb (str_len (sf_owner f) =? 64) || negb (lower_hex (sf_owner f))
    ret Err BadOwnerFingerprint;
  guard negb ((1 <=? sf_max_servers f) && (sf_max_servers f <=? MAX_SLOTS)) ret Err BadMaxServers;
  let? _ := validate_entries (sf_owner f) (replicate (Z.to_nat MAX_SLOTS) false) (sf_servers f) in
  guard (if entry f OWNER_SLOT is None then true else false) ret Err NoOwnerLine;
  let pendings := length (List.filter (λ e, bool_decide (se_state e = ShareState_Pending)) (sf_servers f)) in
  guard (1 <? pendings)%nat ret Err ManyPendings;
  Ok tt.

(** ** Wire views *)

Record Quote := mk_Quote {
  qt_cpu_millis : Z;
  qt_mem_bytes : Z;
  qt_starts_now : bool;
  qt_eta_secs : option Z;
  qt_eta_p90_secs : option Z;
  qt_blocked_by : option string;
}.

(** [u64::div_ceil]. *)
Definition div_ceil (a b : Z) : Z := (a + b - 1) / b.

Definition round_eta (secs : Z) : Z :=
  let step := if secs <? 600 then 60 else 300 in
  u64 (Z.max (div_ceil secs step) 1 * step).

(** ** Lemmas *)

Lemma in_range_ok name v lo hi : in_range name v lo hi = Ok tt ↔ lo ≤ v ≤ hi.
Proof. unfold in_range. case_match; bool_props; [|rewrite andb_false_iff, !Z.leb_gt in H]; intuition (try done; lia). Qed.

Lemma result_bind_ok {T U E} (r : Result T E) (k : T → Result U E) u :
  result_bind r k = Ok u ↔ ∃ t, r = Ok t ∧ k t = Ok u.
Proof. destruct r; simpl; naive_solver. Qed.

Lemma result_bind_ok_unit {U E} (r : Result unit E) (k : unit → Result U E) u :
  result_bind r k = Ok u ↔ r = Ok tt ∧ k tt = Ok u.
Proof. destruct r as [[]|]; simpl; naive_solver. Qed.

(** The ranges [validate] enforces, as a predicate. *)
Definition limits_in_range (l : ShareLimits) : Prop :=
  1 ≤ sl_weight l ≤ 100 ∧ 1 ≤ sl_max_running l ≤ 64 ∧ 1 ≤ sl_max_queued l ≤ 1000 ∧
  1 ≤ sl_cpu_hours_day l ≤ 24576 ∧ 60 ≤ sl_max_job_secs l ≤ 604800 ∧
  1 ≤ sl_max_cpus l ≤ 1024 ∧ 1 ≤ sl_max_mem_gb l ≤ 4096 ∧ 1 ≤ sl_disk_gb l ≤ 65536.

Lemma ShareLimits_validate_ok l :
  ShareLimits_validate l = Ok tt ↔
  limits_in_range l ∧ (sl_gate l = true → sl_top_class l = JobClass_Gate).
Proof.
  unfold ShareLimits_validate. rewrite !result_bind_ok_unit, !in_range_ok.
  unfold limits_in_range.
  destruct (sl_gate l); simpl; [case_bool_decide; simpl|]; intuition (try done; lia).
Qed.

(** [l] gives nothing more than [from]. *)
Record narrower (l from : ShareLimits) : Prop := {
  nar_weight : sl_weight l ≤ sl_weight from;
  nar_top_class : JobClass_rank (sl_top_class l) ≤ JobClass_rank (sl_top_class from);
  nar_gate : sl_gate l = true → sl_gate from = true;
  nar_exclusive : sl_exclusive l = true → sl_exclusive from = true;
  nar_max_running : sl_max_running l ≤ sl_max_running from;
  nar_max_queued : sl_max_queued l ≤ sl_max_queued from;
  nar_cpu_hours_day : sl_cpu_hours_day l ≤ sl_cpu_hours_day from;
  nar_max_job_secs : sl_max_job_secs l ≤ sl_max_job_secs from;
  nar_max_cpus : sl_max_cpus l ≤ sl_max_cpus from;
  nar_max_mem_gb : sl_max_mem_gb l ≤ sl_max_mem_gb from;
  nar_disk_gb : sl_disk_gb l ≤ sl_disk_gb from;
  nar_network : Network_rank (sl_network l) ≤ Network_rank (sl_network from);
}.

Lemma more_nil name now before w : more name now before w = [] ↔ now ≤ before ∧ w = [].
Proof.
  unfold more. case_match; bool_props; split.
  - intros Hw. by apply app_nil in Hw as [? ?].
  - lia.
  - done.
  - naive_solver.
Qed.

Lemma bool_rank_le a b : bool_rank a ≤ bool_rank b ↔ (a = true → b = true).
Proof. destruct a, b; simpl; naive_solver lia. Qed.

Lemma widens_nil l from : widens l from = [] ↔ narrower l from.
Proof.
  unfold widens. rewrite !more_nil, !bool_rank_le. split.
  - intros. destruct_and!. by constructor.
  - intros []. by repeat split.
Qed.

Lemma JobClass_rank_gate c : JobClass_rank JobClass_Gate ≤ JobClass_rank c → c = JobClass_Gate.
Proof. destruct c; simpl; naive_solver lia. Qed.

Lemma narrower_allows_class l from c :
  narrower l from → allows_class l c = true → allows_class from c = true.
Proof.
  intros [] Ha. destruct c; simpl in *.
  - apply Z.leb_le in Ha. apply Z.leb_le. lia.
  - apply Z.leb_le in Ha. apply Z.leb_le. lia.
  - apply andb_true_iff in Ha as [Hg Ht]. apply bool_decide_eq_true in Ht.
    apply andb_true_iff. split; [auto|]. apply bool_decide_eq_true.
    apply JobClass_rank_gate. rewrite <- Ht. done.
Qed.

(** ** Lemmas on [servers.toml] *)

(** [seen] marks exactly the slots of [es]. *)
Definition marks (seen : list bool) (es : list ServerEntry) : Prop :=
  length seen = 8%nat ∧
  ∀ s, 0 ≤ s < 8 → seen !! Z.to_nat s = Some (bool_decide (s ∈ se_slot <$> es)).

(** What one line must satisfy. *)
Record entry_ok (owner : string) (e : ServerEntry) : Prop := {
  eo_slot : se_slot e < MAX_SLOTS;
  eo_label : valid_label (se_label e) = true;
  eo_owner : se_slot e = OWNER_SLOT → se_fp_prefix e = owner ∧ se_trust e = Trust_Own;
  eo_prefix : se_slot e ≠ OWNER_SLOT → valid_fp_prefix (se_fp_prefix e) = true;
  eo_limits : ShareLimits_validate (limits e) = Ok tt;
}.

Lemma marks_nil : marks (replicate 8 false) [].
Proof.
  split; [done|]. intros s Hs. rewrite lookup_replicate_2 by lia.
  by rewrite bool_decide_eq_false_2 by set_solver.
Qed.

Lemma marks_insert seen es e :
  marks seen es → 0 ≤ se_slot e < 8 →
  marks (<[Z.to_nat (se_slot e) := true]> seen) (es ++ [e]).
Proof.
  intros [Hlen Hm] He. split; [by rewrite length_insert|].
  intros s Hs. destruct (decide (s = se_slot e)) as [->|Hne].
  - rewrite list_lookup_insert_eq by lia. f_equal. symmetry.
    apply bool_decide_eq_true_2. rewrite fmap_app. set_solver.
  - rewrite list_lookup_insert_ne by lia. rewrite Hm by done. f_equal.
    apply bool_decide_ext. rewrite fmap_app. set_solver.
Qed.

Lemma validate_entry_ok owner seen e seen' :
  0 ≤ se_slot e →
  validate_entry owner seen e = Ok seen' ↔
  default false (seen !! Z.to_nat (se_slot e)) = false ∧ entry_ok owner e
  ∧ seen' = <[Z.to_nat (se_slot e) := true]> seen.
Proof.
  intros Hpos. unfold validate_entry, valid_slot.
  destruct (se_slot e <? MAX_SLOTS) eqn:Hs; simpl; bool_props;
    [|split; [done|intros (_&[]&_); lia]].
  destruct (default false _) eqn:Hseen; [naive_solver|].
  destruct (valid_label _) eqn:Hl; simpl; [|split; [done|intros (_&[]&_); congruence]].
  rewrite result_bind_ok.
  destruct (ShareLimits_validate (limits e)) as [[]|] eqn:Hlim;
    [|split; [naive_solver|intros (_&[]&_); congruence]].
  destruct (Z.eqb_spec (se_slot e) OWNER_SLOT) as [H0|H0].
  - destruct (String.eqb_spec (se_fp_prefix e) owner) as [Ho|Ho]; simpl;
      [|split; [naive_solver|intros (_&[? ? Hx ? ?]&_); naive_solver]].
    case_bool_decide as Ht; simpl;
      [|split; [naive_solver|intros (_&[? ? Hx ? ?]&_); naive_solver]].
    split; [|naive_solver]. intros (?&_&[= <-]). split_and!; [done| |done]. by constructor.
  - destruct (valid_fp_prefix _) eqn:Hp; simpl;
      [|split; [naive_solver|intros (_&[? ? ? Hx ?]&_); specialize (Hx H0); congruence]].
    split; [|naive_solver]. intros (?&_&[= <-]). split_and!; [done| |done]. by constructor.
Qed.

Lemma validate_entries_ok owner seen pre es :
  marks seen pre → Forall (λ e, 0 ≤ se_slot e) es →
  (∃ seen', validate_entries owner seen es = Ok seen') ↔
  Forall (entry_ok owner) es ∧ NoDup (se_slot <$> es)
  ∧ (∀ e, e ∈ es → se_slot e ∉ se_slot <$> pre).
Proof.
  revert seen pre. induction es as [|e es IH]; intros seen pre Hm Hpos; simpl.
  { split; [|naive_solver]. intros _. split_and!; [constructor|constructor|set_solver]. }
  apply Forall_cons in Hpos as [He Hpos].
  assert (∀ s, 0 ≤ s < 8 → default false (seen !! Z.to_nat s) = false ↔ s ∉ se_slot <$> pre) as Hd.
  { intros s Hs. rewrite (proj2 Hm) by done. simpl. by rewrite bool_decide_eq_false. }
  setoid_rewrite result_bind_ok. rewrite Forall_cons, NoDup_cons. split.
  - intros (seen'&s1&H1&H2).
    apply validate_entry_ok in H1 as (Hs&Hok&->); [|done].
    assert (0 ≤ se_slot e < 8) by (destruct Hok; unfold MAX_SLOTS in *; lia).
    pose proof (proj1 (IH _ (pre ++ [e]) (marks_insert _ _ _ Hm ltac:(done)) Hpos)
      (ex_intro _ _ H2)) as (Hf&Hnd&Hni).
    split_and!; [done..| | |]; [|done|].
    + intros (e'&Heq&Hin)%list_elem_of_fmap.
      apply (Hni e' Hin). rewrite fmap_app. set_solver.
    + intros e' [->|Hin]%elem_of_cons; [by apply Hd|].
      specialize (Hni e' Hin). rewrite fmap_app in Hni. set_solver.
  - intros ([Hok Hf]&[Hni Hnd]&Hpre).
    assert (0 ≤ se_slot e < 8) by (destruct Hok; unfold MAX_SLOTS in *; lia).
    destruct (proj2 (IH (<[Z.to_nat (se_slot e) := true]> seen) (pre ++ [e])
      (marks_insert _ _ _ Hm ltac:(done)) Hpos)) as [seen' Hs'].
    { split_and!; [done..|]. intros e' Hin. rewrite fmap_app, elem_of_app. intros [Hi|Hi].
      - apply (Hpre e'); set_solver.
      - apply list_elem_of_singleton in Hi. apply Hni.
        apply list_elem_of_fmap. exists e'. naive_solver. }
    exists seen', (<[Z.to_nat (se_slot e) := true]> seen). split; [|done].
    apply validate_entry_ok; [done|]. split_and!; [|done..].
    apply Hd; [lia|]. apply Hpre. set_solver.
Qed.

(** What [validate] promises of a file. *)
Record file_ok (f : ServersFile) : Prop := {
  fo_version : sf_version f = SERVERS_FILE_VERSION;
  fo_owner : str_len (sf_owner f) = 64 ∧ lower_hex (sf_owner f) = true;
  fo_max_servers : 1 ≤ sf_max_servers f ≤ MAX_SLOTS;
  fo_entries : Forall (entry_ok (sf_owner f)) (sf_servers f);
  fo_slots : NoDup (se_slot <$> sf_servers f);
  fo_has_owner : OWNER_SLOT ∈ se_slot <$> sf_servers f;
  fo_pendings : (length (List.filter (λ e, bool_decide (se_state e = ShareState_Pending)) (sf_servers f)) ≤ 1)%nat;
}.

Lemma entry_None f s : entry f s = None ↔ s ∉ se_slot <$> sf_servers f.
Proof.
  unfold entry. induction (sf_servers f) as [|e es IH]; simpl; [set_solver|].
  destruct (Z.eqb_spec (se_slot e) s); [set_solver|]. rewrite IH. set_solver.
Qed.

Lemma entry_Some f s : (if entry f s is None then true else false) = false ↔ s ∈ se_slot <$> sf_servers f.
Proof.
  destruct (entry f s) eqn:He.
  - split; [|done]. intros _. destruct (decide (s ∈ se_slot <$> sf_servers f)) as [|Hn]; [done|].
    apply entry_None in Hn. congruence.
  - apply entry_None in He. naive_solver.
Qed.

Lemma validate_iff f :
  Forall (λ e, 0 ≤ se_slot e) (sf_servers f) →
  ServersFile_validate f = Ok tt ↔ file_ok f.
Proof.
  intros Hpos. unfold ServersFile_validate.
  destruct (Z.eqb_spec (sf_version f) SERVERS_FILE_VERSION) as [Hv|Hv]; simpl;
    [|split; [done|by intros []]].
  destruct (Z.eqb_spec (str_len (sf_owner f)) 64) as [Hl|Hl]; simpl;
    [|split; [done|intros [? [??] ? ? ? ? ?]; congruence]].
  destruct (lower_hex (sf_owner f)) eqn:Hh; simpl;
    [|split; [done|intros [? [??] ? ? ? ? ?]; congruence]].
  destruct ((1 <=? sf_max_servers f) && (sf_max_servers f <=? MAX_SLOTS)) eqn:Hm; simpl;
    [|split; [done|intros []; apply andb_false_iff in Hm; rewrite !Z.leb_gt in Hm; lia]].
  bool_props. rewrite result_bind_ok.
  pose proof (validate_entries_ok (sf_owner f) (replicate 8 false) [] (sf_servers f) marks_nil Hpos) as Hes.
  split.
  - intros (seen&Hseen&Hrest).
    destruct (proj1 Hes (ex_intro _ _ Hseen)) as (Hf&Hnd&_).
    destruct (if entry f OWNER_SLOT is None then true else false) eqn:Ho; [done|].
    destruct (1 <? _)%nat eqn:Hp in Hrest; [done|].
    apply Nat.ltb_ge in Hp. apply entry_Some in Ho. by constructor.
  - intros []. destruct (proj2 Hes) as [seen Hseen]; [set_solver|].
    exists seen. split; [done|].
    rewrite (proj2 (entry_Some f OWNER_SLOT)) by done.
    by rewrite (proj2 (Nat.ltb_ge 1 _)).
Qed.

Lemma free_slot_spec f s :
  free_slot f = Some s → 1 ≤ s < MAX_SLOTS ∧ s ∉ se_slot <$> sf_servers f.
Proof.
  unfold free_slot. intros Hf. apply find_some in Hf as [Hin Hs].
  apply list_elem_of_In, elem_of_seqZ in Hin. split; [lia|].
  apply entry_None. by destruct (entry f s).
Qed.

(** [f] with one more line. *)
Definition add_line (f : ServersFile) (e : ServerEntry) : ServersFile :=
  {| sf_version := sf_version f; sf_owner := sf_owner f;
     sf_max_servers := sf_max_servers f; sf_servers := sf_servers f ++ [e] |}.

(** ** Properties *)

(** (C39) A share change is a pure narrowing (no name in [widens]) exactly when no
    limit grew, and then every job class it allows was allowed before. *)
Theorem widens_complete (l from : ShareLimits) :
  (widens l from = [] ↔ narrower l from)
  ∧ (widens l from = [] → ∀ c, allows_class l c = true → allows_class from c = true).
Proof.
  split; [apply widens_nil|]. intros Hw c. apply narrower_allows_class. by apply widens_nil.
Qed.

Lemma widens_complete_witness :
  let l := ShareLimits_new_server Trust_Team true in
  let from := ShareLimits_owner 4 8 32 100 Network_On in
  widens l from = [] ∧ allows_class from JobClass_Interactive = true.
Proof.
  split; [reflexivity|].
  apply (proj2 (widens_complete (ShareLimits_new_server Trust_Team true)
    (ShareLimits_owner 4 8 32 100 Network_On))); reflexivity.
Defined.

(** [servers.toml] passes [validate] exactly when its slots are in range and
    distinct, slot 0 is there and is the owner's own server, every label,
    prefix and limit is in range and at most one line is pending; and a new
    line put at [free_slot] keeps a valid file valid. *)
Theorem servers_file_validate_sound (f : ServersFile) (e : ServerEntry) :
  Forall (λ e, 0 ≤ se_slot e) (sf_servers f) →
  (ServersFile_validate f = Ok tt ↔ file_ok f)
  ∧ (ServersFile_validate f = Ok tt → free_slot f = Some (se_slot e) →
     entry_ok (sf_owner f) e → se_state e ≠ ShareState_Pending →
     ServersFile_validate (add_line f e) = Ok tt).
Proof.
  intros Hpos. split; [by apply validate_iff|].
  intros Hv Hfree He Hst. apply validate_iff in Hv as Hok; [|done].
  apply free_slot_spec in Hfree as [Hr Hni].
  destruct Hok as [Hver Hown Hmax Hent Hnd Hhas Hpend].
  apply validate_iff; simpl.
  { apply Forall_app. split; [done|]. apply Forall_singleton. lia. }
  constructor; simpl; [done|done|done| | | |].
  - apply Forall_app. split; [done|]. by apply Forall_singleton.
  - rewrite fmap_app. apply NoDup_app. split_and!; [done| |apply NoDup_singleton].
    intros x Hx Hx'. apply list_elem_of_singleton in Hx'. by subst.
  - rewrite fmap_app. set_solver.
  - rewrite List.filter_app, length_app. simpl. rewrite bool_decide_eq_false_2 by done. simpl. lia.
Qed.

Definition example_owner_fp : string :=
  "0123456789abcdef0123456789abcdef0123456789abcdef0123456789abcdef".
Definition example_limits : ShareLimits := ShareLimits_owner 4 8 32 100 Network_On.
Definition example_file : ServersFile :=
  ServersFile_new example_owner_fp "hq" example_limits 3 1000 "local:root".
Definition example_line : ServerEntry :=
  set_limits (mk_ServerEntry "fedcba9876543210" "lab" ShareState_Active Trust_Team 1 (Some 61001)
    0 JobClass_Batch false false 0 0 0 0 0 0 0 Network_None None 0 1000 "local:root")
    (ShareLimits_new_server Trust_Team false).

Lemma servers_file_validate_sound_witness :
  ServersFile_validate (add_line example_file example_line) = Ok tt.
Proof.
  refine (proj2 (servers_file_validate_sound example_file example_line _) _ _ _ _).
  - by repeat constructor.
  - vm_compute. reflexivity.
  - vm_compute. reflexivity.
  - constructor; vm_compute; done.
  - done.
Defined.
