(* ===== verification/Tiers.v ===== *)
(** * Compute job tiers: the airport model

    [crates/k2-node-proto/src/tiers.rs]: tiers, the lines they stand in, the
    Priority/Standard alternation, aging, and what a node lets a server use. *)

From S2P Require Import Prelude Share.

Definition AGE_SECS : Z := 3600.
Definition SUPERSEDE_MAX : Z := 120.
Definition SUBMITTER_NAME_MAX : Z := 40.
Definition WHY_MAX : Z := 200.
Definition PRIORITY_CAP : Z := 2.
Definition BATCH_QUEUE_TIMEOUT_SECS : Z := 48 * 3600.

Definition tier_codes_TIER_HOLD : string := "tier_hold".

(** ** Tiers and lines *)

Inductive Tier := Tier_Batch | Tier_Normal | Tier_Priority | Tier_Ci.

#[export] Instance Tier_eq_dec : EqDecision Tier.
Proof. solve_decision. Defined.

Inductive Line := Line_Batch | Line_Standard | Line_Priority | Line_Ci.

#[export] Instance Line_eq_dec : EqDecision Line.
Proof. solve_decision. Defined.

#[export] Instance Line_countable : Countable Line.
Proof.
  refine (inj_countable'
    (λ l, match l with Line_Batch => 0%nat | Line_Standard => 1%nat | Line_Priority => 2%nat | Line_Ci => 3%nat end)
    (λ n, match n with 0%nat => Line_Batch | 1%nat => Line_Standard | 2%nat => Line_Priority | _ => Line_Ci end) _).
  by intros [].
Defined.

Definition Tier_ALL : list Tier := [Tier_Ci; Tier_Priority; Tier_Normal; Tier_Batch].

Definition Tier_as_str (t : Tier) : string :=
  match t with
  | Tier_Batch => "batch"
  | Tier_Normal => "normal"
  | Tier_Priority => "priority"
  | Tier_Ci => "ci"
  end.

Definition Tier_parse (s : string) : option Tier :=
  guard (s =? "batch")%string ret Some Tier_Batch;
  guard (s =? "normal")%string || (s =? "standard")%string ret Some Tier_Normal;
  guard (s =? "priority")%string ret Some Tier_Priority;
  guard (s =? "ci")%string ret Some Tier_Ci;
  None.

Definition Tier_word (t : Tier) : string :=
  match t with
  | Tier_Batch => "Batch"
  | Tier_Normal => "Standard"
  | Tier_Priority => "Priority"
  | Tier_Ci => "CI"
  end.

Definition Tier_from_class (c : JobClass) : Tier :=
  match c with
  | JobClass_Gate => Tier_Ci
  | JobClass_Interactive | JobClass_Batch => Tier_Normal
  end.

Definition Tier_class (t : Tier) : JobClass :=
  match t with
  | Tier_Ci => JobClass_Gate
  | Tier_Batch => JobClass_Batch
  | Tier_Priority | Tier_Normal => JobClass_Interactive
  end.

Definition Tier_for_peer (t : Tier) (tiers2 : bool) : Tier :=
  if bool_decide (t = Tier_Batch) && negb tiers2 then Tier_Normal else t.

Definition Tier_tag (t : Tier) : string :=
  match t with
  | Tier_Ci => "CI"
  | Tier_Priority => "P"
  | Tier_Batch => "B"
  | Tier_Normal => ""
  end.

Definition Tier_line (t : Tier) : Line :=
  match t with
  | Tier_Ci => Line_Ci
  | Tier_Priority => Line_Priority
  | Tier_Normal => Line_Standard
  | Tier_Batch => Line_Batch
  end.

Definition holds (l : Line) : bool :=
  match l with Line_Priority | Line_Ci => true | _ => false end.

Definition backfill_holds (l : Line) : bool := negb (bool_decide (l = Line_Batch)).

Definition Line_as_str (l : Line) : string :=
  match l with
  | Line_Batch => "batch"
  | Line_Standard => "standard"
  | Line_Priority => "priority"
  | Line_Ci => "ci"
  end.

Definition Line_parse (s : string) : option Line :=
  guard (s =? "batch")%string ret Some Line_Batch;
  guard (s =? "standard")%string ret Some Line_Standard;
  guard (s =? "priority")%string ret Some Line_Priority;
  guard (s =? "ci")%string ret Some Line_Ci;
  None.

(** ** Ordering rules *)

Definition alternate_after (last : option Line) : Line :=
  if bool_decide (last = Some Line_Priority) then Line_Standard else Line_Priority.

Definition next_line (has : Line → bool) (last : option Line) : option Line :=
  guard has Line_Ci ret Some Line_Ci;
  let first := alternate_after last in
  let second := if bool_decide (first = Line_Priority) then Line_Standard else Line_Priority in
  List.find has [first; second; Line_Batch].

Definition tiers_aged (waited_secs age_secs : Z) : bool := age_secs <=? waited_secs.

Definition effective (tier : Tier) (may_ci may_priority : bool) : Tier :=
  match tier with
  | Tier_Ci => if may_ci then Tier_Ci else Tier_Normal
  | Tier_Priority => if may_priority then Tier_Priority else Tier_Normal
  | Tier_Batch => Tier_Batch
  | Tier_Normal => Tier_Normal
  end.

(** ** Input checks *)

Definition valid_supersede (key : string) : bool :=
  let n := Z.of_nat (length (chars key)) in
  (1 <=? n) && (n <=? SUPERSEDE_MAX)
  && forallb (λ c, negb (char_is_control c)) (chars key)
  && bool_decide (trim_chars (chars key) = chars key).

Definition valid_submitter_name (name : string) : bool :=
  (1 <=? str_len name) && (str_len name <=? SUBMITTER_NAME_MAX)
  && forallb (λ c, is_ascii_lowercase c || is_ascii_digit c || mem_z c (bytes "._-")) (bytes name).

Definition valid_why (why : string) : bool :=
  let t := trim_chars (chars why) in
  let n := Z.of_nat (length t) in
  (3 <=? n) && (n <=? WHY_MAX) && negb (existsb char_is_control t).

(** ** Lemmas *)

Lemma next_line_has has last l : next_line has last = Some l → has l = true.
Proof.
  unfold next_line. destruct (has Line_Ci) eqn:?; [by intros [= <-]|].
  intros Hf. by apply find_some in Hf as [_ ?].
Qed.

Lemma next_line_None has last : next_line has last = None ↔ ∀ l, has l = false.
Proof.
  unfold next_line, alternate_after. split.
  - destruct (has Line_Ci) eqn:Hc; [done|].
    case_bool_decide; simpl; repeat case_match; try done; intros _ []; done.
  - intros H. rewrite !H. case_bool_decide; simpl; by rewrite !H.
Qed.

(** CI first: another line is picked only when no CI job waits. *)
Lemma next_line_ci has last l :
  next_line has last = Some l → l ≠ Line_Ci → has Line_Ci = false.
Proof. unfold next_line. destruct (has Line_Ci); [naive_solver|done]. Qed.

(** Batch last: it is picked only when nothing else waits. *)
Lemma next_line_batch has last :
  next_line has last = Some Line_Batch →
  has Line_Ci = false ∧ has Line_Priority = false ∧ has Line_Standard = false.
Proof.
  unfold next_line, alternate_after. destruct (has Line_Ci) eqn:?; [done|].
  case_bool_decide; simpl; repeat case_match; naive_solver.
Qed.

(** Priority and Standard alternate: the line of the last start is picked
    again only when the other one is empty. *)
Lemma next_line_alternates has last l :
  next_line has last = Some l →
  (l = Line_Priority → last = Some Line_Priority → has Line_Standard = false)
  ∧ (l = Line_Standard → last ≠ Some Line_Priority → has Line_Priority = false).
Proof.
  unfold next_line, alternate_after. destruct (has Line_Ci) eqn:?; [naive_solver|].
  case_bool_decide as Hl; simpl; repeat case_match; naive_solver.
Qed.

Lemma Tier_parse_as_str t : Tier_parse (Tier_as_str t) = Some t.
Proof. by destruct t. Qed.
Lemma Line_parse_as_str l : Line_parse (Line_as_str l) = Some l.
Proof. by destruct l. Qed.

(** ** Properties *)

(** The next line to start from: none exactly when nothing waits; always a
    line with work; never past a waiting CI job; Batch only when nothing else
    waits; and the line that got the last start again only when the other of
    Priority and Standard is empty, so neither starves the other. *)
Theorem next_line_spec (has : Line → bool) (last : option Line) :
  (next_line has last = None ↔ ∀ l, has l = false)
  ∧ ∀ l, next_line has last = Some l →
    has l = true
    ∧ (l ≠ Line_Ci → has Line_Ci = false)
    ∧ (l = Line_Batch → has Line_Priority = false ∧ has Line_Standard = false)
    ∧ (l = Line_Priority → last = Some Line_Priority → has Line_Standard = false)
    ∧ (l = Line_Standard → last ≠ Some Line_Priority → has Line_Priority = false).
Proof.
  split; [apply next_line_None|]. intros l Hl. split_and!.
  - by eapply next_line_has.
  - by eapply next_line_ci.
  - intros ->. by apply next_line_batch in Hl as (_&?&?).
  - by apply (next_line_alternates _ _ _ Hl).
  - by apply (next_line_alternates _ _ _ Hl).
Qed.

Lemma next_line_spec_witness :
  let has l := bool_decide (l = Line_Standard) in
  has Line_Ci = false ∧ next_line has (Some Line_Standard) = Some Line_Standard.
Proof.
  set (has l := bool_decide (l = Line_Standard)).
  split; [|reflexivity].
  destruct (proj2 (next_line_spec has (Some Line_Standard)) Line_Standard) as (_&H&_);
    [reflexivity|by apply H].
Defined.
