(* ===== verification/Refusal.v ===== *)
(** * The refusal rule, shared by the node and the controller

    [crates/k2-node-proto/src/refusal.rs], and the wire types it reads from
    [crates/k2-node-proto/src/frames.rs]. *)

From S2P Require Import Prelude Share.

(** ** Wire types ([frames.rs]) *)

Definition JOBS_MIN_PROTOCOL : Z := 2.

(** A stable code plus a short sentence. *)
Record Refusal := mk_Refusal {
  rf_code : string;
  rf_message : string;
}.

#[export] Instance Refusal_eq_dec : EqDecision Refusal.
Proof. solve_decision. Defined.

Definition Refusal_new (code message : string) : Refusal := mk_Refusal code message.

Inductive Control := Control_Active | Control_Paused | Control_Draining | Control_Stopped.

Record Availability := mk_Availability {
  av_ok : bool;
  av_reasons : list string;
}.

Record FramesCaps := mk_FramesCaps {
  fc_cpu_millis : Z;
  fc_mem_bytes : Z;
  fc_disk_budget_bytes : Z;
  fc_hard : bool;
}.

Record Free := mk_Free {
  fr_cpu_millis : Z;
  fr_mem_bytes : Z;
  fr_disk_free_bytes : Z;
}.

Record SlotInfo := mk_SlotInfo {
  si_project_key : string;
  si_slot : Z;
  si_busy : bool;
  si_last_sha : option string;
}.

(** [Offer], without its three optional protocol-3 and protocol-7 views
    ([share], [host], [pkg]), which no rule here reads. *)
Record Offer := mk_Offer {
  of_revision : Z;
  of_control : Control;
  of_control_by : option string;
  of_control_at : option Z;
  of_availability : Availability;
  of_caps : FramesCaps;
  of_free : Free;
  of_slots : list SlotInfo;
  of_running : Z;
  of_parallel_max : Z;
  of_refusal : option Refusal;
  of_labels : gmap string string;
  of_tools : gmap string string;
  of_protocol : Z;
  of_boot_id : string;
  of_ledger_id : string;
  of_node_version : string;
  of_features : list string;
}.

Inductive JobState :=
| JobState_Queued | JobState_Assigned | JobState_Preparing | JobState_Running
| JobState_Finishing | JobState_Done | JobState_Failed | JobState_Cancelled
| JobState_Timeout | JobState_Interrupted | JobState_Unknown.

#[export] Instance JobState_eq_dec : EqDecision JobState.
Proof. solve_decision. Defined.

(** ** Codes *)

Definition refusal_LOCAL_PAUSED : string := "local_paused".
Definition refusal_LOCAL_DRAINING : string := "local_draining".
Definition refusal_LOCAL_STOPPED : string := "local_stopped".
Definition refusal_LOCAL_RESOURCE_LIMIT : string := "local_resource_limit".
Definition refusal_OUTSIDE_WINDOW : string := "outside_window".
Definition refusal_OWNER_ACTIVE : string := "owner_active".
Definition refusal_ON_BATTERY : string := "on_battery".
Definition refusal_WORKSPACE_REFUSED : string := "workspace_refused".
Definition refusal_DISK_LOW : string := "disk_low".
Definition refusal_FOREIGN_LOCK : string := "foreign_lock".
Definition refusal_UPGRADE_REQUIRED : string := "upgrade_required".
Definition refusal_TOOL_MISSING : string := "tool_missing".
Definition refusal_PARALLEL_FULL : string := "parallel_full".
Definition refusal_EXCLUSIVE_RUNNING : string := "exclusive_running".
Definition refusal_WAITING_FOR_IDLE : string := "waiting_for_idle".
Definition refusal_NETWORK_NONE_NOT_ENFORCED : string := "network_none_not_enforced_yet".
Definition refusal_NETWORK_NONE_MESSAGE : string :=
  "network = none isn't enforced on this node: it needs k2-node 0.46.3+ with the job wall (sudo k2-node setup)".

Definition refusal_ALL_CODES : list string := [
  refusal_LOCAL_PAUSED; refusal_LOCAL_DRAINING; refusal_LOCAL_STOPPED;
  refusal_LOCAL_RESOURCE_LIMIT; refusal_OUTSIDE_WINDOW; refusal_OWNER_ACTIVE;
  refusal_ON_BATTERY; refusal_WORKSPACE_REFUSED; refusal_DISK_LOW;
  refusal_FOREIGN_LOCK; refusal_UPGRADE_REQUIRED; refusal_TOOL_MISSING;
  refusal_PARALLEL_FULL; refusal_EXCLUSIVE_RUNNING; refusal_WAITING_FOR_IDLE;
  refusal_NETWORK_NONE_NOT_ENFORCED].

(** [tiers::waits_for_room]: the codes a held head may wait with. *)
Definition waits_for_room (code : string) : bool :=
  mem_str code [refusal_PARALLEL_FULL; refusal_LOCAL_RESOURCE_LIMIT;
                refusal_WAITING_FOR_IDLE; refusal_EXCLUSIVE_RUNNING].

(** ** The node's view and a job's ask *)

Record NodeView := mk_NodeView {
  nv_control : Control;
  nv_unavailable : list string;
  nv_foreign_lock : option string;
  nv_disk_free_bytes : Z;
  nv_disk_floor_bytes : Z;
  nv_workspaces_allow : list string;
  nv_tools : gmap string string;
  nv_running : Z;
  nv_parallel_max : Z;
  nv_exclusive_running : bool;
  nv_free_cpu_millis : Z;
  nv_free_mem_bytes : Z;
  nv_network_none : bool;
  nv_network_none_enforced : bool;
}.

Record JobAsk := mk_JobAsk {
  ja_workspace_id : string;
  ja_cpu_millis : option Z;
  ja_mem_bytes : option Z;
  ja_disk_bytes : Z;
  ja_exclusive : bool;
  ja_needs_git : bool;
}.

Definition control_refusal (c : Control) : option Refusal :=
  match c with
  | Control_Active => None
  | Control_Paused => Some (Refusal_new refusal_LOCAL_PAUSED "the machine's owner paused this node")
  | Control_Draining => Some (Refusal_new refusal_LOCAL_DRAINING "the machine's owner is draining this node")
  | Control_Stopped => Some (Refusal_new refusal_LOCAL_STOPPED "the machine's owner stopped this node")
  end.

Definition availability_refusal (reasons : list string) : option Refusal :=
  match reasons with
  | [] => None
  | first :: _ =>
    let msg :=
      guard (first =? refusal_OUTSIDE_WINDOW)%string ret "outside the node's availability window";
      guard (first =? refusal_OWNER_ACTIVE)%string ret "the machine's owner is using it";
      guard (first =? refusal_ON_BATTERY)%string ret "the machine is on battery";
      "the node is not available right now" in
    Some (Refusal_new first msg)
  end.

Definition node_refusal (v : NodeView) : option Refusal :=
  match control_refusal (nv_control v) with
  | Some r => Some r
  | None =>
    guard nv_network_none v && negb (nv_network_none_enforced v)
      ret Some (Refusal_new refusal_NETWORK_NONE_NOT_ENFORCED refusal_NETWORK_NONE_MESSAGE);
    match availability_refusal (nv_unavailable v) with
    | Some r => Some r
    | None =>
      match nv_foreign_lock v with
      | Some lock => Some (Refusal_new refusal_FOREIGN_LOCK ("another tool holds " +:+ lock))
      | None =>
        guard nv_disk_free_bytes v <? nv_disk_floor_bytes v
          ret Some (Refusal_new refusal_DISK_LOW "free disk is under the node's floor");
        None
      end
    end
  end.

Definition refusal (v : NodeView) (ask : JobAsk) : option Refusal :=
  match node_refusal v with
  | Some r => Some r
  | None =>
    guard negb (bool_decide (nv_workspaces_allow v = []))
          && negb (mem_str (ja_workspace_id ask) (nv_workspaces_allow v))
      ret Some (Refusal_new refusal_WORKSPACE_REFUSED "the machine's owner doesn't allow this workspace");
    guard ja_needs_git ask && (if nv_tools v !! "git" is Some _ then false else true)
      ret Some (Refusal_new refusal_TOOL_MISSING "git is not installed on the node");
    guard u64_sat_sub (nv_disk_free_bytes v) (nv_disk_floor_bytes v) <? ja_disk_bytes ask
      ret Some (Refusal_new refusal_DISK_LOW "not enough free disk above the floor for this job");
    guard nv_exclusive_running v
      ret Some (Refusal_new refusal_EXCLUSIVE_RUNNING "an exclusive job is running");
    guard ja_exclusive ask && (0 <? nv_running v)
      ret Some (Refusal_new refusal_WAITING_FOR_IDLE "an exclusive job waits until the node is idle");
    guard nv_parallel_max v <=? nv_running v
      ret Some (Refusal_new refusal_PARALLEL_FULL "the node is running as many jobs as it allows");
    guard opt_is_some_and (λ c, nv_free_cpu_millis v <? c) (ja_cpu_millis ask)
          || opt_is_some_and (λ m, nv_free_mem_bytes v <? m) (ja_mem_bytes ask)
      ret Some (Refusal_new refusal_LOCAL_RESOURCE_LIMIT "not enough free CPU or memory under the node's caps");
    None
  end.

(** The view [offer_refusal] builds from the last offer. *)
Definition offer_view (o : Offer) (running : Z) (exclusive_running : bool) : NodeView := {|
  nv_control := of_control o;
  nv_unavailable := [];
  nv_foreign_lock := None;
  nv_disk_free_bytes := fr_disk_free_bytes (of_free o);
  nv_disk_floor_bytes := 0;
  nv_workspaces_allow := [];
  nv_tools := of_tools o;
  nv_running := running;
  nv_parallel_max := of_parallel_max o;
  nv_exclusive_running := exclusive_running;
  nv_free_cpu_millis := fr_cpu_millis (of_free o);
  nv_free_mem_bytes := fr_mem_bytes (of_free o);
  nv_network_none := false;
  nv_network_none_enforced := false;
|}.

Definition offer_refusal (o : Offer) (running : Z) (exclusive_running : bool) (ask : JobAsk) : option Refusal :=
  guard of_protocol o <? JOBS_MIN_PROTOCOL
    ret Some (Refusal_new refusal_UPGRADE_REQUIRED "the node runs an older protocol; update K2 on it");
  match control_refusal (of_control o) with
  | Some r => Some r
  | None =>
    guard negb (av_ok (of_availability o))
      ret match availability_refusal (av_reasons (of_availability o)) with
          | Some r => Some r
          | None => Some (Refusal_new refusal_OUTSIDE_WINDOW "the node is not available right now")
          end;
    match of_refusal o with
    | Some r => Some r
    | None => refusal (offer_view o running exclusive_running) ask
    end
  end.

(** ** What an acceptance means *)

(** The node-wide conditions under which any job may start. *)
Record node_ready (v : NodeView) : Prop := {
  nr_control : nv_control v = Control_Active;
  nr_network : nv_network_none v = true → nv_network_none_enforced v = true;
  nr_available : nv_unavailable v = [];
  nr_lock : nv_foreign_lock v = None;
  nr_disk : nv_disk_floor_bytes v ≤ nv_disk_free_bytes v;
}.

(** The conditions on one job. *)
Record job_fits (v : NodeView) (ask : JobAsk) : Prop := {
  jf_workspace : nv_workspaces_allow v = [] ∨ ja_workspace_id ask ∈ nv_workspaces_allow v;
  jf_git : ja_needs_git ask = true → is_Some (nv_tools v !! "git");
  jf_disk : ja_disk_bytes ask ≤ u64_sat_sub (nv_disk_free_bytes v) (nv_disk_floor_bytes v);
  jf_no_exclusive : nv_exclusive_running v = false;
  jf_exclusive : ja_exclusive ask = true → nv_running v ≤ 0;
  jf_parallel : nv_running v < nv_parallel_max v;
  jf_cpu : ∀ c, ja_cpu_millis ask = Some c → c ≤ nv_free_cpu_millis v;
  jf_mem : ∀ m, ja_mem_bytes ask = Some m → m ≤ nv_free_mem_bytes v;
}.

Lemma if_some_none {A} (b : bool) (x : A) (k : option A) :
  (if b then Some x else k) = None ↔ b = false ∧ k = None.
Proof. destruct b; naive_solver. Qed.

Lemma mem_str_elem x l : mem_str x l = true ↔ x ∈ l.
Proof.
  unfold mem_str. rewrite existsb_exists. setoid_rewrite String.eqb_eq.
  setoid_rewrite <- list_elem_of_In. naive_solver.
Qed.

Lemma mem_str_not_elem x l : mem_str x l = false ↔ x ∉ l.
Proof. rewrite <- not_true_iff_false. by rewrite mem_str_elem. Qed.

Lemma control_refusal_None c : control_refusal c = None ↔ c = Control_Active.
Proof. by destruct c. Qed.

Lemma availability_refusal_None l : availability_refusal l = None ↔ l = [].
Proof. by destruct l. Qed.

Lemma node_refusal_None v : node_refusal v = None ↔ node_ready v.
Proof.
  unfold node_refusal. split.
  - destruct (control_refusal _) eqn:Hc; [done|].
    rewrite if_some_none. intros [Hn Hrest].
    destruct (availability_refusal _) eqn:Ha; [done|].
    destruct (nv_foreign_lock v) eqn:Hl; [done|].
    apply if_some_none in Hrest as [Hd _]. apply control_refusal_None in Hc.
    apply availability_refusal_None in Ha. bool_props. constructor; try done.
    by destruct (nv_network_none v), (nv_network_none_enforced v).
  - intros [Hc Hn Ha Hl Hd]. rewrite Hc, Ha, Hl. simpl.
    rewrite (proj2 (Z.ltb_ge _ _)) by lia.
    destruct (nv_network_none v); simpl; [by rewrite Hn|done].
Qed.

Lemma refusal_None v ask : refusal v ask = None ↔ node_ready v ∧ job_fits v ask.
Proof.
  unfold refusal. destruct (node_refusal v) eqn:Hnode.
  { split; [done|]. intros [Hr _]. apply node_refusal_None in Hr. congruence. }
  apply node_refusal_None in Hnode. rewrite !if_some_none. split.
  - intros (Hw&Hg&Hd&He&Hx&Hp&Hr&_). split; [done|].
    apply orb_false_iff in Hr as [Hcpu Hmem].
    rewrite opt_is_some_and_false in Hcpu, Hmem. constructor.
    + apply andb_false_iff in Hw as [Hw|Hw]; apply negb_false_iff in Hw.
      * left. by apply bool_decide_eq_true in Hw.
      * right. by apply mem_str_elem.
    + intros Hgit. rewrite Hgit in Hg. by destruct (nv_tools v !! "git").
    + bool_props. lia.
    + done.
    + intros Hex. rewrite Hex in Hx. simpl in Hx. bool_props. lia.
    + bool_props. lia.
    + intros c Hc. specialize (Hcpu c Hc). bool_props. lia.
    + intros m Hm. specialize (Hmem m Hm). bool_props. lia.
  - intros [_ [Hw Hg Hd He Hx Hp Hcpu Hmem]]. split_and!; [| | |done| | | |done].
    + apply andb_false_iff. destruct Hw as [Hw|Hw]; [left|right]; apply negb_false_iff.
      * by apply bool_decide_eq_true.
      * by apply mem_str_elem.
    + destruct (ja_needs_git ask); simpl; [|done]. by destruct Hg as [? ->].
    + apply Z.ltb_ge. lia.
    + destruct (ja_exclusive ask); simpl; [|done]. apply Z.ltb_ge. by apply Hx.
    + apply Z.leb_gt. lia.
    + apply orb_false_iff. rewrite !opt_is_some_and_false.
      split; intros a Ha; apply Z.ltb_ge; auto.
Qed.

Lemma offer_refusal_None o running ex ask :
  offer_refusal o running ex ask = None ↔
  JOBS_MIN_PROTOCOL ≤ of_protocol o ∧ of_control o = Control_Active
  ∧ av_ok (of_availability o) = true ∧ of_refusal o = None
  ∧ refusal (offer_view o running ex) ask = None.
Proof.
  unfold offer_refusal. rewrite if_some_none, Z.ltb_ge.
  destruct (control_refusal (of_control o)) eqn:Hc.
  { split; [naive_solver|]. intros (_&Hact&_). rewrite Hact in Hc. done. }
  apply control_refusal_None in Hc.
  destruct (av_ok (of_availability o)); simpl.
  - destruct (of_refusal o); naive_solver.
  - destruct (availability_refusal _); naive_solver.
Qed.

Lemma if_some_inv {A} (b : bool) (x r : A) (k : option A) :
  (if b then Some x else k) = Some r → x = r ∨ k = Some r.
Proof. destruct b; naive_solver. Qed.

Lemma control_refusal_code c r : control_refusal c = Some r → rf_code r ∈ refusal_ALL_CODES.
Proof. destruct c; intros [= <-]; by apply mem_str_elem. Qed.

Lemma node_refusal_code v r :
  node_refusal v = Some r → rf_code r ∈ refusal_ALL_CODES ∨ rf_code r ∈ nv_unavailable v.
Proof.
  unfold node_refusal. destruct (control_refusal _) eqn:Hc.
  { intros [= <-]. left. by eapply control_refusal_code. }
  intros [<-|Hr]%if_some_inv; [left; by apply mem_str_elem|]. revert Hr.
  unfold availability_refusal. destruct (nv_unavailable v) as [|a l]; simpl.
  - destruct (nv_foreign_lock v); [intros [= <-]; left; by apply mem_str_elem|].
    intros [<-|?]%if_some_inv; [left; by apply mem_str_elem|done].
  - intros [= <-]. right. apply elem_of_cons. by left.
Qed.

(** ** Properties *)

(** The node starts a job exactly when every rule of the refusal list holds:
    active, available, unlocked, above the disk floor, and the job's
    workspace, tools, disk, exclusivity, parallel slot, CPU and memory fit. *)
Theorem refusal_sound_complete (v : NodeView) (ask : JobAsk) :
  refusal v ask = None ↔ node_ready v ∧ job_fits v ask.
Proof. apply refusal_None. Qed.

(** Every refusal the node gives for one job carries a documented code, or
    the availability reason it was given. *)
Theorem refusal_codes (v : NodeView) (ask : JobAsk) (r : Refusal) :
  refusal v ask = Some r →
  rf_code r ∈ refusal_ALL_CODES ∨ rf_code r ∈ nv_unavailable v.
Proof.
  unfold refusal. destruct (node_refusal v) eqn:Hn; [intros [= <-]; by apply node_refusal_code|].
  intros Hr. left. revert Hr.
  repeat (intros [<-|Hr]%if_some_inv; [by apply mem_str_elem|]; revert Hr). done.
Qed.

Definition example_view : NodeView :=
  mk_NodeView Control_Active ["on_battery"] None 100 10 [] ∅ 0 4 false 4000 1000 false false.
Definition example_ask : JobAsk := mk_JobAsk "w1" (Some 1000) None 0 false false.

Lemma refusal_codes_witness :
  refusal example_view example_ask = Some (mk_Refusal "on_battery" "the machine is on battery")
  ∧ ("on_battery" ∈ refusal_ALL_CODES ∨ "on_battery" ∈ nv_unavailable example_view).
Proof.
  split; [reflexivity|].
  apply (refusal_codes example_view example_ask (mk_Refusal "on_battery" "the machine is on battery")).
  reflexivity.
Defined.
