(* ===== verification/Queue.v ===== *)
(** * The node queue: data and start order

    [crates/k2-node-proto/src/queue.rs], first half: the snapshot the node
    feeds in, and [order], the start order over every server it serves. The
    simulation and the decision are in [QueueSim]. *)

From S2P Require Import Prelude Share Tiers.

(** ** Data *)

Record Config := mk_Config {
  cf_half_life_secs : Z;
  cf_aging_secs : Z;
  cf_backfill_hold_secs : Z;
  cf_default_est_secs : Z;
  cf_one_uid : bool;
}.

Definition Config_default : Config := {|
  cf_half_life_secs := 24 * 3600;
  cf_aging_secs := AGE_SECS;
  cf_backfill_hold_secs := 20 * 60;
  cf_default_est_secs := 600;
  cf_one_uid := false;
|}.

Record Caps := mk_Caps {
  cp_cpu_millis : Z;
  cp_mem_bytes : Z;
  cp_parallel_max : Z;
  cp_blocked : option string;
}.

Definition default_cpu (c : Caps) : Z := cp_cpu_millis c / Z.max (cp_parallel_max c) 1.
Definition default_mem (c : Caps) : Z := cp_mem_bytes c / Z.max (cp_parallel_max c) 1.

Record Tenant := mk_Tenant {
  tn_slot : Z;
  tn_limits : ShareLimits;
  tn_usage : Z;
  tn_cpu_secs_today : Z;
  tn_blocked : option string;
  tn_priority : bool;
}.

Definition over_quota (t : Tenant) : bool :=
  sl_cpu_hours_day (tn_limits t) * 3600 <=? tn_cpu_secs_today t.

Definition effective_tier (t : Tenant) (tier : Tier) : Tier :=
  effective tier (allows_class (tn_limits t) JobClass_Gate) (tn_priority t).

Record Running := mk_Running {
  rn_slot : Z;
  rn_job_id : string;
  rn_generation : Z;
  rn_workspace_id : string;
  rn_session_id : option string;
  rn_class : JobClass;
  rn_tier : Tier;
  rn_cpu_millis : Z;
  rn_mem_bytes : Z;
  rn_exclusive : bool;
  rn_left_p50 : option Z;
  rn_left_p90 : option Z;
  rn_secret : bool;
  rn_submitter : option string;
}.

Record Queued := mk_Queued {
  qd_slot : Z;
  qd_job_id : string;
  qd_generation : Z;
  qd_workspace_id : string;
  qd_session_id : option string;
  qd_class : JobClass;
  qd_tier : Tier;
  qd_cpu_millis : option Z;
  qd_mem_bytes : option Z;
  qd_exclusive : bool;
  qd_enqueued_at : Z;
  qd_arrival : Z;
  qd_est_p50 : option Z;
  qd_est_p90 : option Z;
  qd_ws_max_running : option Z;
  qd_eligible : bool;
  qd_secret : bool;
  qd_submitter : option string;
  qd_submitter_max_running : option Z;
}.

#[export] Instance Queued_inhabited : Inhabited Queued :=
  populate (mk_Queued 0 "" 0 "" None JobClass_Interactive Tier_Normal None None false 0 0
    None None None false false None None).

Definition turn_key (q : Queued) : string :=
  default "" (opt_or (qd_submitter q) (qd_session_id q)).

Record Rotation := mk_Rotation {
  ro_last_slot : option Z;
  ro_last_ws : gmap Z string;
  ro_last_submitter : gmap (Z * string) string;
  ro_last_line : option Line;
}.

Definition Rotation_default : Rotation := mk_Rotation None ∅ ∅ None.

(** Only Priority and Standard starts turn the alternation. *)
Definition line_after (last : option Line) (line : Line) : option Line :=
  match line with
  | Line_Priority | Line_Standard => Some line
  | _ => last
  end.

Definition served (rot : Rotation) (q : Queued) (line : Line) : Rotation := {|
  ro_last_slot := Some (qd_slot q);
  ro_last_ws := <[qd_slot q := qd_workspace_id q]> (ro_last_ws rot);
  ro_last_submitter := <[(qd_slot q, qd_workspace_id q) := turn_key q]> (ro_last_submitter rot);
  ro_last_line := line_after (ro_last_line rot) line;
|}.

Record Input := mk_Input {
  in_now : Z;
  in_cfg : Config;
  in_caps : Caps;
  in_tenants : list Tenant;
  in_running : list Running;
  in_queued : list Queued;
  in_rotation : Rotation;
}.

Record Info := mk_Info {
  if_pos : Z;
  if_of : Z;
  if_starts_now : bool;
  if_eta_secs : option Z;
  if_eta_p90_secs : option Z;
  if_blocked_by : option string;
}.

#[export] Instance Info_inhabited : Inhabited Info := populate (mk_Info 0 0 false None None None).

Record Decision := mk_Decision {
  dc_order : list nat;
  dc_start : list nat;
  dc_info : list Info;
  dc_rotation : Rotation;
}.

(** SE26: may a job start beside [running] under its uid? [running] holds
    (slot, workspace, secret). *)
Definition isolation_blocks (one_uid : bool) (slot : Z) (ws : string) (secret : bool)
    (running : list (Z * string * bool)) : bool :=
  existsb (λ r, (one_uid || (r.1.1 =? slot)) && negb (r.1.2 =? ws)%string && (secret || r.2)) running.

Definition LINGER_JOB_PREFIX : string := "lingering:".

(** ** Order *)

(** [q[i]]: an index of [queued]. *)
Definition at_ (input : Input) (i : nat) : Queued := in_queued input !!! i.

Definition tenant_of (tenants : list Tenant) (slot : Z) : option Tenant :=
  List.find (λ t, tn_slot t =? slot) tenants.

Definition line_of (q : Queued) (t : Tenant) : Line := Tier_line (effective_tier t (qd_tier q)).

Definition is_aged (q : Queued) (now : Z) (cfg : Config) : bool :=
  tiers_aged (i64 (now - qd_enqueued_at q)) (cf_aging_secs cfg).

Definition rotate_after (keys : list string) (last : option string) : option string :=
  match last with
  | None => head keys
  | Some l => opt_or (List.find (λ k, String.ltb l k) keys) (head keys)
  end.

(** The comparison of [(enqueued_at, arrival, job_id)]. *)
Definition arrival_cmp (a b : Queued) : comparison :=
  match qd_enqueued_at a ?= qd_enqueued_at b with
  | Eq => match qd_arrival a ?= qd_arrival b with
          | Eq => String.compare (qd_job_id a) (qd_job_id b)
          | c => c
          end
  | c => c
  end.
Definition arrival_le (a b : Queued) : bool := if arrival_cmp a b is Gt then false else true.
Definition arrival_lt (a b : Queued) : bool := if arrival_cmp a b is Lt then true else false.

Definition by_arrival (input : Input) (v : list nat) : option nat :=
  min_by (λ a b, arrival_le (at_ input a) (at_ input b)) v.

(** The body of [tenant_head] once the tenant's jobs of the line are
    filtered out as [mine]. *)
Definition pick_head (input : Input) (t : Tenant) (rot : Rotation) (line : Line) (mine : list nat) : option nat :=
  if bool_decide (line = Line_Ci) then by_arrival input mine
  else
    let aged := List.filter (λ i, is_aged (at_ input i) (in_now input) (in_cfg input)) mine in
    match aged with
    | _ :: _ => by_arrival input aged
    | [] =>
      let wss := bt_set ((λ i, qd_workspace_id (at_ input i)) <$> mine) in
      ws ← rotate_after wss (ro_last_ws rot !! tn_slot t);
      let in_ws := List.filter (λ i, (qd_workspace_id (at_ input i) =? ws)%string) mine in
      let subs := bt_set ((λ i, turn_key (at_ input i)) <$> in_ws) in
      let last_s := ro_last_submitter rot !! (tn_slot t, ws) in
      s ← rotate_after subs last_s;
      by_arrival input (List.filter (λ i, (turn_key (at_ input i) =? s)%string) in_ws)
    end.

(** [tenant_head]; [None] is one of its [expect]s failing. *)
Definition tenant_head (pending : list nat) (input : Input) (t : Tenant) (rot : Rotation) (line : Line) : option nat :=
  pick_head input t rot line
    (List.filter (λ i, bool_decide (line_of (at_ input i) t = line)) pending).

(** [before]: does candidate [a] (index, slot) go before [b]? [None] is an
    [expect] failing. *)
Definition before (input : Input) (a b : nat * Z) (usage today : gmap Z Z) (rot : Rotation) : option bool :=
  ta ← tenant_of (in_tenants input) a.2;
  tb ← tenant_of (in_tenants input) b.2;
  let qa := at_ input a.1 in
  let qb := at_ input b.1 in
  let aa := is_aged qa (in_now input) (in_cfg input) in
  let ab := is_aged qb (in_now input) (in_cfg input) in
  guard negb (eqb aa ab) ret Some aa;
  guard aa && ab ret Some (arrival_lt qa qb);
  let over (t : Tenant) := sl_cpu_hours_day (tn_limits t) * 3600 <=? default 0 (today !! tn_slot t) in
  guard negb (eqb (over ta) (over tb)) ret Some (negb (over ta));
  let ua := default 0 (usage !! a.2) in
  let ub := default 0 (usage !! b.2) in
  let wa := Z.max (sl_weight (tn_limits ta)) 1 in
  let wb := Z.max (sl_weight (tn_limits tb)) 1 in
  guard negb (u128 (ua * wb) =? u128 (ub * wa)) ret Some (u128 (ua * wb) <? u128 (ub * wa));
  let dist (s : Z) := match ro_last_slot rot with
    | Some l => (s - l - 1) mod MAX_SLOTS
    | None => s
    end in
  Some (dist a.2 <? dist b.2).

(** One candidate tenant of the [for (slot, list) in &pending] loop. *)
Definition best_step (input : Input) (usage today : gmap Z Z) (rot : Rotation) (line : Line)
    (best : option (option (nat * Z))) (e : Z * list nat) : option (option (nat * Z)) :=
  best ← best;
  let '(slot, list) := e in
  t ← tenant_of (in_tenants input) slot;
  guard negb (existsb (λ i, bool_decide (line_of (at_ input i) t = line)) list) ret Some best;
  head ← tenant_head list input t rot line;
  match best with
  | None => Some (Some (head, slot))
  | Some b =>
    is_before ← before input (head, slot) b usage today rot;
    Some (Some (if (is_before : bool) then (head, slot) else b))
  end.

(** Does some pending job stand in [l]? *)
Definition line_has (input : Input) (pending : gmap Z (list nat)) (l : Line) : bool :=
  existsb (λ e : Z * list nat,
    match tenant_of (in_tenants input) e.1 with
    | Some t => existsb (λ i, bool_decide (line_of (at_ input i) t = l)) e.2
    | None => false
    end) (bt_entries pending).

(** The [while !pending.is_empty()] loop; [fuel] bounds its turns and
    [None] is a failed [expect] or no fuel left. *)
Fixpoint order_loop (fuel : nat) (input : Input) (usage today : gmap Z Z) (rot : Rotation)
    (pending : gmap Z (list nat)) (out : list nat) : option (list nat) :=
  if bool_decide (pending = ∅) then Some out
  else match fuel with
  | O => None
  | S fuel =>
    line ← next_line (line_has input pending) (ro_last_line rot);
    best ← fold_left (best_step input usage today rot line) (bt_entries pending) (Some None);
    '(pick, slot) ← best;
    let e := at_ input pick in
    let cpu := default (default_cpu (in_caps input)) (qd_cpu_millis e) in
    let est := default (cf_default_est_secs (in_cfg input)) (qd_est_p50 e) in
    let usage := <[slot := u128 (default 0 (usage !! slot) + u128 (cpu * est))]> usage in
    let today := <[slot := u64 (default 0 (today !! slot) + u64_sat_mul cpu est / 1000)]> today in
    let rot := served rot e line in
    list ← pending !! slot;
    let list := List.filter (λ i, negb (i =? pick)%nat) list in
    let pending := if bool_decide (list = []) then delete slot pending else <[slot := list]> pending in
    order_loop fuel input usage today rot pending (out ++ [pick])
  end.

Definition is_pending (input : Input) (i : nat) : bool :=
  qd_eligible (at_ input i)
  && (if tenant_of (in_tenants input) (qd_slot (at_ input i)) is Some _ then true else false).

(** [pending.entry(slot).or_default().push(i)]. *)
Definition push_pending (input : Input) (m : gmap Z (list nat)) (i : nat) : gmap Z (list nat) :=
  let slot := qd_slot (at_ input i) in
  <[slot := default [] (m !! slot) ++ [i]]> m.

Definition collect_slots (f : Tenant → Z) (tenants : list Tenant) : gmap Z Z :=
  fold_left (λ m t, <[tn_slot t := f t]> m) tenants ∅.

Definition order (input : Input) : option (list nat) :=
  let idx := seq 0 (length (in_queued input)) in
  let usage := collect_slots tn_usage (in_tenants input) in
  let today := collect_slots tn_cpu_secs_today (in_tenants input) in
  let pending := fold_left (push_pending input) (List.filter (is_pending input) idx) ∅ in
  let away := List.filter (λ i, negb (is_pending input i)) idx in
  out ← order_loop (length idx) input usage today (in_rotation input) pending [];
  Some (out ++ isort (λ a b, arrival_le (at_ input a) (at_ input b)) away).

(** ** The arrival order is total *)

Lemma arrival_le_total a b : arrival_le a b = true ∨ arrival_le b a = true.
Proof.
  unfold arrival_le, arrival_cmp.
  rewrite (Z.compare_antisym (qd_enqueued_at a)). destruct (qd_enqueued_at a ?= _); simpl; auto.
  rewrite (Z.compare_antisym (qd_arrival a)). destruct (qd_arrival a ?= _); simpl; auto.
  rewrite (String.compare_antisym (qd_job_id a)). destruct (String.compare _ _); simpl; auto.
Qed.

Lemma arrival_le_trans a b c :
  arrival_le a b = true → arrival_le b c = true → arrival_le a c = true.
Proof.
  unfold arrival_le, arrival_cmp.
  destruct (Z.compare_spec (qd_enqueued_at a) (qd_enqueued_at b)),
    (Z.compare_spec (qd_enqueued_at b) (qd_enqueued_at c)),
    (Z.compare_spec (qd_enqueued_at a) (qd_enqueued_at c)); try done; try lia.
  destruct (Z.compare_spec (qd_arrival a) (qd_arrival b)),
    (Z.compare_spec (qd_arrival b) (qd_arrival c)),
    (Z.compare_spec (qd_arrival a) (qd_arrival c)); try done; try lia.
  pose proof (string_compare_trans (qd_job_id a) (qd_job_id b) (qd_job_id c)).
  repeat case_match; naive_solver.
Qed.

Lemma arrival_lt_le a b : arrival_lt a b = true → arrival_le a b = true.
Proof. unfold arrival_lt, arrival_le. by destruct (arrival_cmp a b). Qed.
Lemma arrival_nlt_le a b : arrival_lt a b = false → arrival_le b a = true.
Proof.
  destruct (arrival_le_total a b) as [Hab|]; [|done]. intros Hlt.
  unfold arrival_lt, arrival_le in *. destruct (arrival_cmp a b) eqn:E; try done.
  revert E. unfold arrival_cmp.
  rewrite (Z.compare_antisym (qd_enqueued_at a)). destruct (qd_enqueued_at a ?= _); simpl; try done.
  rewrite (Z.compare_antisym (qd_arrival a)). destruct (qd_arrival a ?= _); simpl; try done.
  rewrite (String.compare_antisym (qd_job_id a)). by destruct (String.compare _ _).
Qed.
Lemma arrival_le_enqueued a b : arrival_le a b = true → qd_enqueued_at a ≤ qd_enqueued_at b.
Proof.
  unfold arrival_le, arrival_cmp.
  destruct (Z.compare_spec (qd_enqueued_at a) (qd_enqueued_at b)); try done; lia.
Qed.

Section by_arrival.
Context (input : Input).

Lemma by_arrival_spec v i :
  by_arrival input v = Some i →
  i ∈ v ∧ ∀ j, j ∈ v → arrival_le (at_ input i) (at_ input j) = true.
Proof.
  apply (min_by_Some (λ a b, arrival_le (at_ input a) (at_ input b))).
  - intros. apply arrival_le_total.
  - intros ???. apply arrival_le_trans.
Qed.
Lemma by_arrival_is_Some v : v ≠ [] → is_Some (by_arrival input v).
Proof.
  apply (min_by_is_Some (λ a b, arrival_le (at_ input a) (at_ input b))).
  - intros. apply arrival_le_total.
  - intros ???. apply arrival_le_trans.
Qed.
End by_arrival.

Lemma rotate_after_Some keys last : keys ≠ [] → ∃ k, rotate_after keys last = Some k ∧ k ∈ keys.
Proof.
  intros Hk. destruct keys as [|k0 keys]; [done|]. unfold rotate_after.
  destruct last as [l|]; [|exists k0; set_solver].
  destruct (List.find (λ k, String.ltb l k) (k0 :: keys)) as [k|] eqn:Hf; simpl.
  - exists k. split; [done|]. by apply list_find_Some_elem in Hf as [].
  - exists k0. set_solver.
Qed.

(** ** A tenant's head *)

(** The node clock is not so far from an arrival that [now - enqueued_at]
    leaves [i64]. *)
Definition clock_ok (input : Input) : Prop :=
  ∀ i, i64_min ≤ in_now input - qd_enqueued_at (at_ input i) ≤ i64_max.

Definition aged_at (input : Input) (i : nat) : bool :=
  is_aged (at_ input i) (in_now input) (in_cfg input).

(** [h] is a head with respect to an aged [j]: aged too, and not after it. *)
Definition heads (input : Input) (h j : nat) : Prop :=
  aged_at input j = true →
  aged_at input h = true ∧ arrival_le (at_ input h) (at_ input j) = true.

Lemma aged_earlier input i j :
  clock_ok input → arrival_le (at_ input i) (at_ input j) = true →
  aged_at input j = true → aged_at input i = true.
Proof.
  intros Hc Hle%arrival_le_enqueued. unfold aged_at, is_aged, tiers_aged.
  rewrite !i64_small by apply Hc. rewrite !Z.leb_le. lia.
Qed.

Section tenant_head.
Context (input : Input) (Hclock : clock_ok input).

Lemma pick_head_spec t rot line mine :
  mine ≠ [] →
  ∃ h, pick_head input t rot line mine = Some h ∧ h ∈ mine ∧ ∀ j, j ∈ mine → heads input h j.
Proof.
  intros Hne. unfold pick_head.
  case_bool_decide.
  { destruct (by_arrival_is_Some input mine Hne) as [h Hh]. exists h.
    apply by_arrival_spec in Hh as Hs. destruct Hs as [? Hle]. split_and!; [done..|].
    intros j Hj Ha. split; [|by apply Hle]. eapply aged_earlier; [done|by apply Hle|done]. }
  set (aged := List.filter _ mine).
  assert (Haged : ∀ i, i ∈ aged ↔ i ∈ mine ∧ aged_at input i = true).
  { intros i. apply elem_of_filter_bool. }
  destruct aged as [|a0 aged'] eqn:Ea.
  - set (wss := bt_set _).
    destruct (rotate_after_Some wss (ro_last_ws rot !! tn_slot t)) as (ws&->&Hws).
    { intros E. destruct mine as [|m mine]; [done|].
      apply (not_elem_of_nil (qd_workspace_id (at_ input m))). rewrite <- E.
      apply elem_of_bt_set. set_solver. }
    simpl. set (in_ws := List.filter _ mine).
    apply elem_of_bt_set, list_elem_of_fmap in Hws as (m&->&Hm).
    assert (m ∈ in_ws) as Hmw by (apply elem_of_filter_bool; split; [done|apply String.eqb_refl]).
    destruct (rotate_after_Some (bt_set ((λ i, turn_key (at_ input i)) <$> in_ws))
      (ro_last_submitter rot !! (tn_slot t, qd_workspace_id (at_ input m)))) as (s&->&Hs).
    { intros E. apply (not_elem_of_nil (turn_key (at_ input m))). rewrite <- E.
      apply elem_of_bt_set. set_solver. }
    simpl. apply elem_of_bt_set, list_elem_of_fmap in Hs as (k&->&Hk).
    set (last := List.filter _ in_ws).
    assert (k ∈ last) as Hkl by (apply elem_of_filter_bool; split; [done|apply String.eqb_refl]).
    destruct (by_arrival_is_Some input last) as [h Hh].
    { intros E. rewrite E in Hkl. by apply not_elem_of_nil in Hkl. }
    exists h. split; [done|]. apply by_arrival_spec in Hh as [Hh _].
    apply elem_of_filter_bool in Hh as [Hh _]. apply elem_of_filter_bool in Hh as [Hh _].
    split; [done|]. intros j Hj Ha. exfalso. apply (not_elem_of_nil j). by apply Haged.
  - destruct (by_arrival_is_Some input (a0 :: aged')) as [h Hh]; [done|]. exists h.
    apply by_arrival_spec in Hh as Hs. destruct Hs as [Hin Hle]. apply Haged in Hin as Hin'.
    split_and!; [done|tauto|]. intros j Hj Ha. split; [tauto|]. apply Hle. by apply Haged.
Qed.
Lemma tenant_head_spec pending t rot line :
  (∃ i, i ∈ pending ∧ line_of (at_ input i) t = line) →
  ∃ h, tenant_head pending input t rot line = Some h
    ∧ h ∈ pending ∧ line_of (at_ input h) t = line
    ∧ ∀ j, j ∈ pending → line_of (at_ input j) t = line → heads input h j.
Proof.
  intros (i0&Hi0&Hl0). unfold tenant_head.
  set (mine := List.filter _ pending).
  assert (Hmine : ∀ i, i ∈ mine ↔ i ∈ pending ∧ line_of (at_ input i) t = line).
  { intros i. unfold mine. by rewrite elem_of_filter_bool, bool_decide_eq_true. }
  assert (mine ≠ []) as Hne.
  { intros E. apply (not_elem_of_nil i0). rewrite <- E. by apply Hmine. }
  destruct (pick_head_spec t rot line mine Hne) as (h&->&[]%Hmine&Hh).
  exists h. split_and!; try done. intros j ??. apply Hh. by apply Hmine.
Qed.
End tenant_head.

(** ** One turn of the loop: the best head of the line *)

Section best.
Context (input : Input) (Hclock : clock_ok input).
Context (usage today : gmap Z Z) (rot : Rotation) (line : Line).

(** An entry of [pending]: a known tenant and some of its jobs. *)
Definition entry_ok (e : Z * list nat) : Prop := is_Some (tenant_of (in_tenants input) e.1).

(** The entries hold job [j] of the line. *)
Definition holds_job (es : list (Z * list nat)) (s : Z) (j : nat) : Prop :=
  ∃ l t, (s, l) ∈ es ∧ tenant_of (in_tenants input) s = Some t ∧ j ∈ l
    ∧ line_of (at_ input j) t = line.

Definition best_ok (es : list (Z * list nat)) (best : option (nat * Z)) : Prop :=
  match best with
  | None => ∀ s j, ¬ holds_job es s j
  | Some (h, s) => holds_job es s h ∧ ∀ s' j, holds_job es s' j → heads input h j
  end.

Lemma holds_job_app es es' s j :
  holds_job (es ++ es') s j ↔ holds_job es s j ∨ holds_job es' s j.
Proof. unfold holds_job. setoid_rewrite elem_of_app. naive_solver. Qed.

Lemma before_spec a b :
  is_Some (tenant_of (in_tenants input) a.2) → is_Some (tenant_of (in_tenants input) b.2) →
  ∃ r, before input a b usage today rot = Some r
    ∧ heads input (if (r : bool) then a.1 else b.1) (if r then b.1 else a.1).
Proof.
  intros [ta Ha] [tb Hb]. unfold before. rewrite Ha, Hb. simpl.
  fold (aged_at input a.1) (aged_at input b.1). unfold heads.
  destruct (aged_at input a.1) eqn:Haa, (aged_at input b.1) eqn:Hab; simpl.
  - destruct (arrival_lt _ _) eqn:Hlt; eexists; (split; [done|]); intros _; (split; [done|]).
    + by apply arrival_lt_le.
    + by apply arrival_nlt_le.
  - exists true. split; [done|]. congruence.
  - exists false. split; [done|]. congruence.
  - repeat case_match; eexists; (split; [done|]); case_match; congruence.
Qed.

Lemma heads_trans i j k : heads input i j → heads input j k → heads input i k.
Proof.
  intros H1 H2 Hk. destruct (H2 Hk) as [Hj Hjk]. destruct (H1 Hj) as [Hi Hij].
  split; [done|]. by eapply arrival_le_trans.
Qed.

Lemma best_step_spec seen best e :
  entry_ok e → best_ok seen best → Forall entry_ok seen →
  ∃ best', best_step input usage today rot line (Some best) e = Some best' ∧ best_ok (seen ++ [e]) best'.
Proof.
  intros [t Ht] Hb Hseen. destruct e as [slot list]. simpl in Ht.
  unfold best_step. simpl. rewrite Ht. simpl.
  assert (Hone : ∀ s j, holds_job [(slot, list)] s j ↔ s = slot ∧ j ∈ list ∧ line_of (at_ input j) t = line).
  { intros s j. unfold holds_job. setoid_rewrite list_elem_of_singleton. split.
    - intros (l&t'&[= -> ->]&Ht'&?&?). by simplify_eq.
    - intros (->&?&?). eauto 6. }
  destruct (existsb _ list) eqn:Hex; simpl.
  - apply existsb_true in Hex as (i&Hi&Hli%bool_decide_eq_true).
    destruct (tenant_head_spec input Hclock list t rot line) as (h&Hh&Hhl&Hhline&Hheads); [eauto|].
    rewrite Hh. simpl. destruct best as [[b bs]|].
    + destruct Hb as [Hbs Hbh].
      destruct (before_spec (h, slot) (b, bs)) as (r&Hr&Hh2); [by eexists|..].
      { destruct Hbs as (?&t'&?&?&_). by eexists. }
      rewrite Hr. simpl. eexists. split; [done|]. destruct r; simpl in *.
      * split; [apply holds_job_app; right; by apply Hone|]. intros s' j [Hj|Hj]%holds_job_app.
        -- eapply heads_trans; [done|]. by eapply Hbh.
        -- apply Hone in Hj as (->&?&?). by apply Hheads.
      * split; [apply holds_job_app; by left|]. intros s' j [Hj|Hj]%holds_job_app.
        -- by eapply Hbh.
        -- apply Hone in Hj as (->&?&?). eapply heads_trans; [done|]. by apply Hheads.
    + eexists. split; [done|]. split; [apply holds_job_app; right; by apply Hone|].
      intros s' j [Hj|Hj]%holds_job_app; [by destruct (Hb _ _ Hj)|].
      apply Hone in Hj as (->&?&?). by apply Hheads.
  - eexists. split; [done|]. rewrite existsb_false in Hex.
    assert (Hno : ∀ s j, ¬ holds_job [(slot, list)] s j).
    { intros s j (->&Hj&Hl)%Hone. specialize (Hex j Hj). by rewrite bool_decide_eq_false in Hex. }
    destruct best as [[b bs]|]; simpl in *.
    + destruct Hb as [Hbs Hbh]. split; [apply holds_job_app; by left|].
      intros s' j [Hj|Hj]%holds_job_app; [by eapply Hbh|]. by destruct (Hno _ _ Hj).
    + intros s j [Hj|Hj]%holds_job_app; [by eapply Hb|]. by destruct (Hno _ _ Hj).
Qed.

Lemma best_fold_spec es seen best :
  Forall entry_ok es → best_ok seen best → Forall entry_ok seen →
  ∃ best', fold_left (best_step input usage today rot line) es (Some best) = Some best'
    ∧ best_ok (seen ++ es) best'.
Proof.
  revert seen best. induction es as [|e es IH]; intros seen best Hes Hb Hseen; cbn [fold_left].
  - exists best. by rewrite app_nil_r.
  - apply Forall_cons in Hes as [He Hes].
    destruct (best_step_spec seen best e He Hb Hseen) as (b'&->&Hb').
    destruct (IH (seen ++ [e]) b') as (b''&->&Hb''); [done..| |].
    { apply Forall_app; split; [done|]. by apply Forall_singleton. }
    exists b''. by rewrite <- app_assoc in Hb''.
Qed.
End best.

(** ** The loop *)

(** The line job [i] stands in: that of the tier its server may use. *)
Definition job_line (input : Input) (i : nat) : option Line :=
  t ← tenant_of (in_tenants input) (qd_slot (at_ input i)); Some (line_of (at_ input i) t).

Definition waits_in (input : Input) (jobs : list nat) (l : Line) : bool :=
  existsb (λ j, bool_decide (job_line input j = Some l)) jobs.

(** What the start order promises of [jobs] after a start from line
    [last]: each job is of the line whose turn it is among what still waits,
    and no aged job of its line stands behind it unless it is aged and
    arrived first. *)
Fixpoint order_ok (input : Input) (last : option Line) (jobs : list nat) : Prop :=
  match jobs with
  | [] => True
  | i :: rest =>
    ∃ line, job_line input i = Some line
      ∧ next_line (waits_in input jobs) last = Some line
      ∧ (∀ j, j ∈ rest → job_line input j = Some line → heads input i j)
      ∧ order_ok input (line_after last line) rest
  end.

Lemma next_line_ext has has' last :
  (∀ l, has l = has' l) → next_line has last = next_line has' last.
Proof. intros H. unfold next_line. simpl. by rewrite !H. Qed.

Section loop.
Context (input : Input) (Hclock : clock_ok input).

(** [pending] holds exactly [jobs], each under its own slot. *)
Record pending_ok (pending : gmap Z (list nat)) (jobs : list nat) : Prop := {
  po_nodup : NoDup jobs;
  po_jobs : ∀ i, i ∈ jobs ↔ ∃ l, pending !! qd_slot (at_ input i) = Some l ∧ i ∈ l;
  po_slot : ∀ s l, pending !! s = Some l → ∀ i, i ∈ l → qd_slot (at_ input i) = s;
  po_entry : ∀ s l, pending !! s = Some l → l ≠ [] ∧ NoDup l ∧ is_Some (tenant_of (in_tenants input) s);
}.

Lemma pending_entries_ok pending jobs :
  pending_ok pending jobs → Forall (entry_ok input) (bt_entries pending).
Proof.
  intros Hp. apply Forall_forall. intros [s l] Hin%elem_of_bt_entries.
  by apply (po_entry _ _ Hp) in Hin as (_&_&?).
Qed.

Lemma pending_holds_job pending jobs line s j :
  pending_ok pending jobs →
  holds_job input line (bt_entries pending) s j ↔
  j ∈ jobs ∧ s = qd_slot (at_ input j) ∧ job_line input j = Some line.
Proof.
  intros Hp. unfold holds_job, job_line. setoid_rewrite elem_of_bt_entries. split.
  - intros (l&t&Hl&Ht&Hj&Hline). pose proof (po_slot _ _ Hp _ _ Hl _ Hj) as Hs. subst s.
    rewrite Ht. simpl. split_and!; [|done|congruence]. apply (po_jobs _ _ Hp). eauto.
  - intros (Hj&->&Hline). apply (po_jobs _ _ Hp) in Hj as (l&Hl&Hj).
    destruct (tenant_of _ _) as [t|] eqn:Ht; [|done]. simplify_eq/=. eauto 6.
Qed.

Lemma pending_line_has pending jobs l :
  pending_ok pending jobs → line_has input pending l = waits_in input jobs l.
Proof.
  intros Hp. apply eq_true_iff_eq. unfold line_has, waits_in. rewrite !existsb_true. split.
  - intros ([s js]&Hin&Hex). simpl in Hex. destruct (tenant_of _ s) as [t|] eqn:Ht; [|done].
    apply existsb_true in Hex as (j&Hj&Hl%bool_decide_eq_true). exists j.
    destruct (proj1 (pending_holds_job pending jobs l s j Hp)) as (?&->&?); [|by rewrite bool_decide_eq_true].
    unfold holds_job. eauto 6.
  - intros (j&Hj&Hl%bool_decide_eq_true).
    destruct (proj2 (pending_holds_job pending jobs l (qd_slot (at_ input j)) j Hp))
      as (js&t&Hin&Ht&Hjs&Hline); [done|].
    eexists. split; [done|]. simpl. rewrite Ht. apply existsb_true. exists j.
    by rewrite bool_decide_eq_true.
Qed.

Lemma pending_empty pending jobs : pending_ok pending jobs → pending = ∅ ↔ jobs = [].
Proof.
  intros Hp. split.
  - intros ->. destruct jobs as [|j js]; [done|].
    destruct (proj1 (po_jobs _ _ Hp j)) as (l&Hl&_); [set_solver|]. by rewrite lookup_empty in Hl.
  - intros ->. apply map_eq. intros s. rewrite lookup_empty.
    destruct (pending !! s) as [l|] eqn:Hl; [|done].
    destruct (po_entry _ _ Hp _ _ Hl) as (Hne&_). destruct l as [|i l]; [done|].
    destruct (not_elem_of_nil i). apply (po_jobs _ _ Hp). exists (i :: l).
    rewrite (po_slot _ _ Hp _ _ Hl i) by set_solver. set_solver.
Qed.

(** Taking job [i] out. *)
Lemma pending_remove pending jobs i l :
  pending_ok pending jobs → i ∈ jobs → pending !! qd_slot (at_ input i) = Some l →
  let l' := List.filter (λ j, negb (j =? i)%nat) l in
  pending_ok (if bool_decide (l' = []) then delete (qd_slot (at_ input i)) pending
              else <[qd_slot (at_ input i) := l']> pending)
    (List.filter (λ j, negb (j =? i)%nat) jobs).
Proof.
  intros Hp Hi Hl l'. set (s := qd_slot (at_ input i)) in *.
  match goal with |- pending_ok ?p _ => set (pending' := p) end.
  assert (Hl' : ∀ j, j ∈ l' ↔ j ∈ l ∧ j ≠ i).
  { intros j. unfold l'. rewrite elem_of_filter_bool, negb_true_iff, Nat.eqb_neq. done. }
  assert (Hlook : ∀ s' k, pending' !! s' = Some k ↔
    (s' ≠ s ∧ pending !! s' = Some k) ∨ (s' = s ∧ k = l' ∧ l' ≠ [])).
  { intros s' k. unfold pending'. case_bool_decide.
    - rewrite lookup_delete_Some. naive_solver.
    - rewrite lookup_insert_Some. naive_solver. }
  destruct (po_entry _ _ Hp _ _ Hl) as (_&Hnd&Ht).
  constructor.
  - apply NoDup_filter_bool, (po_nodup _ _ Hp).
  - intros j. rewrite elem_of_filter_bool, negb_true_iff, Nat.eqb_neq, (po_jobs _ _ Hp). split.
    + intros [(k&Hk&Hj) Hne]. destruct (decide (qd_slot (at_ input j) = s)) as [Hs|Hs].
      * rewrite Hs in *. exists l'. simplify_eq. rewrite Hlook, Hl'. split; [|done].
        right. split_and!; [done..|]. intros E. apply (not_elem_of_nil j). rewrite <- E. by apply Hl'.
      * exists k. rewrite Hlook. auto.
    + intros (k&Hk&Hj). apply Hlook in Hk as [[Hs Hk]|(Hs&->&_)].
      * split; [eauto|]. intros ->. done.
      * apply Hl' in Hj as []. rewrite Hs. eauto.
  - intros s' k Hk j Hj. apply Hlook in Hk as [[Hs Hk]|(->&->&_)].
    + by eapply (po_slot _ _ Hp).
    + apply Hl' in Hj as []. by eapply (po_slot _ _ Hp).
  - intros s' k Hk. apply Hlook in Hk as [[Hs Hk]|(->&->&?)].
    + by eapply (po_entry _ _ Hp).
    + split_and!; [done|by apply NoDup_filter_bool|done].
Qed.

Lemma pending_job_line pending jobs i :
  pending_ok pending jobs → i ∈ jobs → is_Some (job_line input i).
Proof.
  intros Hp Hi. apply (po_jobs _ _ Hp) in Hi as (l&Hl&_).
  apply (po_entry _ _ Hp) in Hl as (_&_&[t Ht]). unfold job_line. rewrite Ht. by eexists.
Qed.

Lemma waits_in_Permutation jobs jobs' l :
  jobs ≡ₚ jobs' → waits_in input jobs l = waits_in input jobs' l.
Proof.
  intros Hp. apply eq_true_iff_eq. unfold waits_in. rewrite !existsb_true. by setoid_rewrite Hp.
Qed.

Lemma remove_one_Permutation (jobs : list nat) i :
  NoDup jobs → i ∈ jobs → jobs ≡ₚ i :: List.filter (λ j, negb (j =? i)%nat) jobs.
Proof.
  intros Hnd Hi. apply NoDup_Permutation; [done| |].
  - constructor; [|by apply NoDup_filter_bool].
    rewrite elem_of_filter_bool, negb_true_iff, Nat.eqb_neq. tauto.
  - intros j. rewrite elem_of_cons, elem_of_filter_bool, negb_true_iff, Nat.eqb_neq.
    destruct (decide (j = i)); naive_solver.
Qed.

Lemma next_pick pending jobs usage today rot :
  pending_ok pending jobs → jobs ≠ [] →
  ∃ line h, next_line (line_has input pending) (ro_last_line rot) = Some line
    ∧ fold_left (best_step input usage today rot line) (bt_entries pending) (Some None)
      = Some (Some (h, qd_slot (at_ input h)))
    ∧ h ∈ jobs ∧ job_line input h = Some line
    ∧ next_line (waits_in input jobs) (ro_last_line rot) = Some line
    ∧ ∀ j, j ∈ jobs → job_line input j = Some line → heads input h j.
Proof.
  intros Hp Hne.
  rewrite (next_line_ext _ (waits_in input jobs)) by (intros; by apply pending_line_has).
  destruct (next_line (waits_in input jobs) (ro_last_line rot)) as [line|] eqn:Hnext.
  2:{ rewrite next_line_None in Hnext. destruct jobs as [|j js]; [done|].
      destruct (pending_job_line _ _ j Hp) as [l Hl]; [set_solver|].
      specialize (Hnext l). unfold waits_in in Hnext. rewrite existsb_false in Hnext.
      specialize (Hnext j ltac:(set_solver)). by rewrite bool_decide_eq_false in Hnext. }
  exists line.
  destruct (best_fold_spec input Hclock usage today rot line (bt_entries pending) [] None)
    as (best&Hbest&Hok); [by eapply pending_entries_ok|by intros s j (?&?&[]%not_elem_of_nil&_)|done|].
  simpl in Hok. destruct best as [[h s]|].
  - destruct Hok as [Hh Hheads]. apply (pending_holds_job _ _ _ _ _ Hp) in Hh as (Hh&->&Hline).
    exists h. split_and!; try done. intros j Hj Hjl. eapply Hheads.
    apply (pending_holds_job _ _ _ _ _ Hp). eauto.
  - apply next_line_has, existsb_true in Hnext as (j&Hj&Hjl%bool_decide_eq_true).
    destruct (Hok (qd_slot (at_ input j)) j). by apply (pending_holds_job _ _ _ _ _ Hp).
Qed.

Lemma order_loop_spec fuel usage today rot pending jobs out :
  pending_ok pending jobs → (length jobs ≤ fuel)%nat →
  ∃ picks, order_loop fuel input usage today rot pending out = Some (out ++ picks)
    ∧ picks ≡ₚ jobs ∧ order_ok input (ro_last_line rot) picks.
Proof.
  revert usage today rot pending jobs out.
  induction fuel as [|fuel IH]; intros usage today rot pending jobs out Hp Hfuel.
  - destruct jobs; [|simpl in Hfuel; lia]. exists []. simpl.
    rewrite bool_decide_eq_true_2 by (by eapply (pending_empty _ _ Hp)).
    by rewrite app_nil_r.
  - cbn [order_loop]. case_bool_decide as Hemp.
    { apply (pending_empty _ _ Hp) in Hemp as ->. exists []. by rewrite app_nil_r. }
    assert (jobs ≠ []) as Hne by (by rewrite <- (pending_empty _ _ Hp)).
    destruct (next_pick pending jobs usage today rot Hp Hne) as (line&h&->&Hbest&Hh&Hline&Hnext&Hheads).
    cbn. rewrite Hbest. cbn.
    apply (po_jobs _ _ Hp) in Hh as Hh'. destruct Hh' as (l&Hl&Hhl). rewrite Hl. cbn.
    pose proof (pending_remove pending jobs h l Hp Hh Hl) as Hp'. cbn in Hp'.
    pose proof (remove_one_Permutation jobs h (po_nodup _ _ Hp) Hh) as Hperm.
    edestruct IH as (picks&->&Hpicks&Hok); [exact Hp'| |].
    { rewrite Hperm in Hfuel. simpl in Hfuel. lia. }
    exists (h :: picks). rewrite <- app_assoc. split; [done|].
    assert (h :: picks ≡ₚ jobs) as Hall by (by rewrite Hperm, Hpicks).
    split; [done|]. exists line. split_and!; [done| | |done].
    + rewrite <- Hnext. apply next_line_ext. intros. by apply waits_in_Permutation.
    + intros j Hj. apply Hheads. rewrite <- Hall. set_solver.
Qed.
End loop.

Lemma push_pending_ok input pending jobs i :
  pending_ok input pending jobs → i ∉ jobs → is_pending input i = true →
  pending_ok input (push_pending input pending i) (jobs ++ [i]).
Proof.
  intros Hp Hi Hpend. unfold push_pending. set (s := qd_slot (at_ input i)).
  assert (Hold : ∀ j, j ∈ default [] (pending !! s) → j ∈ jobs).
  { intros j. destruct (pending !! s) as [l|] eqn:Hl; simpl; [|by intros ?%not_elem_of_nil].
    intros Hj. apply (po_jobs _ _ _ Hp). exists l. by rewrite (po_slot _ _ _ Hp _ _ Hl _ Hj). }
  constructor.
  - apply NoDup_app. split_and!; [apply (po_nodup _ _ _ Hp)| |apply NoDup_singleton].
    intros j Hj ->%list_elem_of_singleton. done.
  - intros j. rewrite elem_of_app, list_elem_of_singleton, (po_jobs _ _ _ Hp).
    setoid_rewrite lookup_insert_Some. split.
    + intros [(l&Hl&Hj)| ->].
      * destruct (decide (s = qd_slot (at_ input j))) as [E|E]; [|eauto].
        eexists. split; [left; eauto|]. rewrite E, Hl. simpl. set_solver.
      * eexists. split; [left; eauto|]. set_solver.
    + intros (l&[[Hs <-]|[Hs Hl]]&Hj); [|eauto].
      apply elem_of_app in Hj as [Hj%Hold| ->%list_elem_of_singleton]; [|auto].
      left. by apply (po_jobs _ _ _ Hp).
  - intros s' l. rewrite lookup_insert_Some. intros [[<- <-]|[Hne Hl]] j Hj.
    + apply elem_of_app in Hj as [Hj| ->%list_elem_of_singleton]; [|done].
      destruct (pending !! s) as [l|] eqn:Hl; simpl in Hj; [|by apply not_elem_of_nil in Hj].
      by eapply (po_slot _ _ _ Hp).
    + by eapply (po_slot _ _ _ Hp).
  - intros s' l. rewrite lookup_insert_Some. intros [[<- <-]|[Hne Hl]].
    + split_and!.
      * by destruct (default [] _).
      * apply NoDup_app. split_and!; [| |apply NoDup_singleton].
        -- destruct (pending !! s) as [l|] eqn:Hl; simpl; [|constructor].
           by apply (po_entry _ _ _ Hp) in Hl as (_&?&_).
        -- intros j Hj%Hold ->%list_elem_of_singleton. done.
      * unfold is_pending in Hpend. apply andb_true_iff in Hpend as [_ Ht]. fold s in Ht.
        destruct (tenant_of _ s); [by eexists|done].
    + by eapply (po_entry _ _ _ Hp).
Qed.

Lemma pending_init_ok input jobs :
  NoDup jobs → (∀ i, i ∈ jobs → is_pending input i = true) →
  pending_ok input (fold_left (push_pending input) jobs ∅) jobs.
Proof.
  induction jobs as [|i jobs IH] using rev_ind; intros Hnd Hall.
  - constructor; simpl.
    + constructor.
    + intros i. setoid_rewrite lookup_empty. split; [by intros ?%not_elem_of_nil|naive_solver].
    + intros s l. by rewrite lookup_empty.
    + intros s l. by rewrite lookup_empty.
  - rewrite fold_left_app. simpl. apply NoDup_app in Hnd as (Hnd&Hni&_).
    apply push_pending_ok; [apply IH; set_solver| |apply Hall; set_solver].
    intros Hi. by apply (Hni i Hi), list_elem_of_singleton.
Qed.

Lemma order_spec input :
  clock_ok input →
  ∃ el aw, order input = Some (el ++ aw)
    ∧ el ≡ₚ List.filter (is_pending input) (seq 0 (length (in_queued input)))
    ∧ aw ≡ₚ List.filter (λ i, negb (is_pending input i)) (seq 0 (length (in_queued input)))
    ∧ order_ok input (ro_last_line (in_rotation input)) el
    ∧ StronglySorted (λ i j, arrival_le (at_ input i) (at_ input j) = true) aw.
Proof.
  intros Hc. unfold order. set (idx := seq 0 _).
  destruct (order_loop_spec input Hc (length idx) (collect_slots tn_usage (in_tenants input))
    (collect_slots tn_cpu_secs_today (in_tenants input)) (in_rotation input)
    (fold_left (push_pending input) (List.filter (is_pending input) idx) ∅)
    (List.filter (is_pending input) idx) []) as (el&Hel&Hperm&Hok).
  - apply pending_init_ok.
    + apply NoDup_filter_bool, NoDup_seq.
    + by intros i [_ ?]%elem_of_filter_bool.
  - apply List.filter_length_le.
  - rewrite Hel. simpl. eexists el, _. split_and!; [done|done|apply isort_Permutation|done|].
    apply isort_StronglySorted.
    + intros. apply arrival_le_total.
    + intros ???. apply arrival_le_trans.
Qed.

Lemma filter_Permutation_split {A} (f : A → bool) l :
  List.filter f l ++ List.filter (λ x, negb (f x)) l ≡ₚ l.
Proof.
  induction l as [|x l IH]; simpl; [done|]. destruct (f x); simpl.
  - by rewrite IH.
  - by rewrite <- Permutation_middle, IH.
Qed.

Lemma order_ok_tail input last l1 l2 :
  order_ok input last (l1 ++ l2) → ∃ last', order_ok input last' l2.
Proof.
  revert last. induction l1 as [|i l1 IH]; intros last; simpl; [eauto|].
  intros (?&_&_&_&H). by eapply IH.
Qed.

Lemma waits_in_true input jobs l j :
  j ∈ jobs → job_line input j = Some l → waits_in input jobs l = true.
Proof. intros. apply existsb_true. exists j. by rewrite bool_decide_eq_true. Qed.

Lemma waits_in_false input jobs l j :
  waits_in input jobs l = false → j ∈ jobs → job_line input j ≠ Some l.
Proof. intros Hw Hj Hl. by rewrite (waits_in_true _ _ _ _ Hj Hl) in Hw. Qed.

(** The discipline of [order_ok], unfolded at two positions of the order. *)
Lemma order_ok_pair input last l1 i l2 j :
  order_ok input last (l1 ++ i :: l2) → j ∈ l2 →
  (job_line input j = Some Line_Ci → job_line input i = Some Line_Ci)
  ∧ (job_line input i = Some Line_Batch → job_line input j = Some Line_Batch)
  ∧ (job_line input i = job_line input j → heads input i j).
Proof.
  intros [last' (line&Hi&Hnext&Hheads&Hrest)]%order_ok_tail Hj.
  assert (j ∈ i :: l2) as Hj' by set_solver.
  assert (∃ line', job_line input j = Some line') as [line' Hjl].
  { apply list_elem_of_split in Hj as (m1&m2&->).
    apply order_ok_tail in Hrest as [? (line'&?&_)]. eauto. }
  split_and!.
  - intros Hc. destruct (decide (line = Line_Ci)) as [->|Hne]; [done|].
    apply next_line_ci in Hnext; [|done]. by destruct (waits_in_false _ _ _ _ Hnext Hj').
  - rewrite Hi. intros [= ->]. apply next_line_batch in Hnext as (H1&H2&H3).
    apply (waits_in_false _ _ _ _ H1) in Hj' as ?.
    apply (waits_in_false _ _ _ _ H2) in Hj' as ?.
    apply (waits_in_false _ _ _ _ H3) in Hj' as ?. destruct line'; congruence.
  - rewrite Hi. intros E. by apply Hheads.
Qed.

Lemma order_ok_adjacent input last l1 i j l2 :
  order_ok input last (l1 ++ i :: j :: l2) →
  (job_line input i = Some Line_Priority → job_line input j = Some Line_Priority →
     ∀ k, k ∈ l2 → job_line input k ≠ Some Line_Standard)
  ∧ (job_line input i = Some Line_Standard → job_line input j = Some Line_Standard →
     ∀ k, k ∈ l2 → job_line input k ≠ Some Line_Priority).
Proof.
  intros [last' (line&Hi&_&_&(line'&Hj&Hnext&_&_))]%order_ok_tail.
  apply next_line_alternates in Hnext as [Hp Hs]. rewrite Hi, Hj.
  split; intros [= ->] [= ->] k Hk; eapply waits_in_false.
  - by apply Hp.
  - set_solver.
  - apply Hs; done.
  - set_solver.
Qed.

(** ** Properties *)

(** (C40) The order function never hits one of its [expect]s, ends (its loop takes
    one turn per job), and lists every queued job exactly once: no job is
    lost from the queue and none is listed twice. *)
Theorem order_permutation (input : Input) :
  clock_ok input →
  ∃ out, order input = Some out ∧ out ≡ₚ seq 0 (length (in_queued input)).
Proof.
  intros Hc. destruct (order_spec input Hc) as (el&aw&->&Hel&Haw&_&_).
  exists (el ++ aw). split; [done|]. rewrite Hel, Haw. apply filter_Permutation_split.
Qed.

(** (C25) The start order's discipline: the jobs that may start come first, then
    the ones whose server is away by arrival; among the first, every CI job
    precedes every other job and every Batch job follows every other job;
    two Priority (Standard) starts are adjacent only when no Standard
    (Priority) job is left; and inside a line an aged job is preceded only
    by aged jobs that arrived no later. *)
Theorem order_discipline (input : Input) :
  clock_ok input →
  ∃ el aw, order input = Some (el ++ aw)
    ∧ (∀ i, i ∈ el → is_pending input i = true)
    ∧ (∀ i, i ∈ aw → is_pending input i = false)
    ∧ StronglySorted (λ i j, arrival_le (at_ input i) (at_ input j) = true) aw
    ∧ (∀ l1 i l2 j, el = l1 ++ i :: l2 → j ∈ l2 →
        (job_line input j = Some Line_Ci → job_line input i = Some Line_Ci)
        ∧ (job_line input i = Some Line_Batch → job_line input j = Some Line_Batch)
        ∧ (job_line input i = job_line input j → heads input i j))
    ∧ (∀ l1 i j l2, el = l1 ++ i :: j :: l2 →
        (job_line input i = Some Line_Priority → job_line input j = Some Line_Priority →
           ∀ k, k ∈ l2 → job_line input k ≠ Some Line_Standard)
        ∧ (job_line input i = Some Line_Standard → job_line input j = Some Line_Standard →
           ∀ k, k ∈ l2 → job_line input k ≠ Some Line_Priority)).
Proof.
  intros Hc. destruct (order_spec input Hc) as (el&aw&->&Hel&Haw&Hok&Hs).
  exists el, aw. split_and!; [done| | |done| |].
  - intros i. rewrite Hel. by intros [_ ?]%elem_of_filter_bool.
  - intros i. rewrite Haw. intros [_ ?]%elem_of_filter_bool. by apply negb_true_iff.
  - intros l1 i l2 j -> Hj. by eapply order_ok_pair.
  - intros l1 i j l2 ->. by eapply order_ok_adjacent.
Qed.

(** ** A concrete queue *)

Definition example_tenant (slot : Z) (prio : bool) : Tenant :=
  mk_Tenant slot (ShareLimits_owner 4 8 32 100 Network_On) 0 0 None prio.
Definition example_caps : Caps := mk_Caps 4000 (8 * 2 ^ 30) 4 None.
Definition example_job (slot : Z) (id ws : string) (tier : Tier) (at' arrival : Z) (eligible : bool) : Queued :=
  mk_Queued slot id 1 ws None JobClass_Interactive tier (Some 1000) (Some (2 ^ 30)) false at' arrival
    (Some 60) (Some 120) None eligible false (Some "u1") None.
Definition example_input : Input := {|
  in_now := 1000;
  in_cfg := Config_default;
  in_caps := example_caps;
  in_tenants := [example_tenant 0 true; example_tenant 1 true];
  in_running := [];
  in_queued := [
    example_job 0 "batch" "w" Tier_Batch 10 0 true;
    example_job 0 "normal" "w" Tier_Normal 20 1 true;
    example_job 1 "away" "w" Tier_Normal 5 0 false;
    example_job 1 "priority" "w" Tier_Priority 30 1 true;
    example_job 0 "ci" "w" Tier_Ci 40 2 true;
    example_job 1 "normal2" "w" Tier_Normal 50 2 true];
  in_rotation := Rotation_default;
|}.

Lemma clock_ok_intro input :
  i64_min ≤ in_now input ≤ i64_max →
  Forall (λ q, i64_min ≤ in_now input - qd_enqueued_at q ≤ i64_max) (in_queued input) → clock_ok input.
Proof.
  intros Hn Hall i. unfold at_. destruct (in_queued input !! i) as [q|] eqn:Hq.
  - rewrite (list_lookup_total_correct _ _ _ Hq). by eapply (Forall_lookup_1 _ _ _ _ Hall).
  - rewrite list_lookup_total_alt, Hq. simpl. lia.
Qed.

Lemma example_clock_ok : clock_ok example_input.
Proof. apply clock_ok_intro; [|repeat apply Forall_cons_2; try apply Forall_nil_2]; vm_compute; split; congruence. Qed.

Lemma order_permutation_witness :
  order example_input = Some [4; 3; 1; 5; 0; 2]%nat
  ∧ ∃ out, order example_input = Some out ∧ out ≡ₚ seq 0 (length (in_queued example_input)).
Proof. split; [vm_compute; reflexivity|]. apply order_permutation, example_clock_ok. Defined.

Lemma order_discipline_witness :
  ∃ el aw, order example_input = Some (el ++ aw)
    ∧ (∀ i, i ∈ el → is_pending example_input i = true)
    ∧ (∀ i, i ∈ aw → is_pending example_input i = false).
Proof.
  destruct (order_discipline example_input example_clock_ok) as (el&aw&?&?&?&_). eauto.
Defined.
