(* ===== verification/QueueSim.v ===== *)
(** * The node queue: starts, ETAs and views

    [crates/k2-node-proto/src/queue.rs], second half: [fit], the forward
    simulation [simulate], the decision [decide], quotes and what each server
    may see of the queue. *)

From S2P Require Import Prelude Share Tiers Refusal Queue.

Definition secret_ISOLATION_WAIT : string := "secret_isolation_wait".

(** ** Fit *)

Record SimRun := mk_SimRun {
  sr_slot : Z;
  sr_ws : string;
  sr_secret : bool;
  sr_cpu : Z;
  sr_mem : Z;
  sr_exclusive : bool;
  sr_end : option Z;
  sr_lingering : bool;
  sr_submitter : option string;
  sr_counts_for_submitter : bool;
}.

Inductive Fit :=
| Fit_Now
| Fit_Wait (code : string)
| Fit_Capacity (code : string)
| Fit_Never.

(** [iter().filter(p).count() as u32], [iter().map(f).sum::<u64>()]. *)
Definition count_u32 {A} (p : A → bool) (l : list A) : Z := u32 (Z.of_nat (length (List.filter p l))).
Definition sum_u64 {A} (f : A → Z) (l : list A) : Z := u64 (foldr (λ x acc, f x + acc) 0 l).

Definition cpu_of (input : Input) (e : Queued) : Z := default (default_cpu (in_caps input)) (qd_cpu_millis e).
Definition mem_of (input : Input) (e : Queued) : Z := default (default_mem (in_caps input)) (qd_mem_bytes e).

(** The tenant's, the workspace's and the submitter's own limits (L3: CI never
    counts and is never capped). *)
Definition over_server (e : Queued) (t : Tenant) (run : list SimRun) : bool :=
  sl_max_running (tn_limits t) <=? count_u32 (λ r, sr_slot r =? qd_slot e) run.
Definition over_workspace (e : Queued) (run : list SimRun) : bool :=
  opt_is_some_and (λ m, Z.max m 1 <=?
    count_u32 (λ r, (sr_slot r =? qd_slot e) && (sr_ws r =? qd_workspace_id e)%string) run)
    (qd_ws_max_running e).
Definition over_submitter (e : Queued) (line : Line) (run : list SimRun) : bool :=
  opt_is_some_and (λ m,
    (0 <? m) && negb (bool_decide (line = Line_Ci))
    && (m <=? count_u32 (λ r, sr_counts_for_submitter r && (sr_slot r =? qd_slot e)
          && (sr_ws r =? qd_workspace_id e)%string
          && (default "" (sr_submitter r) =? turn_key e)%string) run))
    (qd_submitter_max_running e).

(** The running jobs and leftovers that isolation (SE26) keeps [e] away from. *)
Definition blockers (input : Input) (e : Queued) (run : list SimRun) : list SimRun :=
  List.filter (λ r, isolation_blocks (cf_one_uid (in_cfg input)) (qd_slot e) (qd_workspace_id e)
    (qd_secret e) [(sr_slot r, sr_ws r, sr_secret r)]) run.

Definition fit (input : Input) (e : Queued) (t : Tenant) (run : list SimRun) : Fit :=
  let caps := in_caps input in
  let cpu := cpu_of input e in
  let mem := mem_of input e in
  guard (cp_cpu_millis caps <? cpu) || (cp_mem_bytes caps <? mem) ret Fit_Never;
  guard over_server e t run ret Fit_Wait blocked_SERVER_RUNNING_FULL;
  guard over_workspace e run ret Fit_Wait blocked_WORKSPACE_RUNNING_FULL;
  let line := line_of e t in
  guard over_submitter e line run ret Fit_Wait blocked_SUBMITTER_RUNNING_FULL;
  guard bool_decide (line = Line_Batch) && negb (bool_decide (length run = 0%nat))
    ret Fit_Wait blocked_BATCH_WINDOW;
  let bl := blockers input e run in
  guard negb (bool_decide (length bl = 0%nat)) ret
    (let code := if forallb sr_lingering bl then blocked_LINGERING else secret_ISOLATION_WAIT in
     if holds line then Fit_Capacity code else Fit_Wait code);
  let used_cpu := sum_u64 sr_cpu run in
  let used_mem := sum_u64 sr_mem run in
  guard existsb sr_exclusive run || (qd_exclusive e && negb (bool_decide (length run = 0%nat)))
    ret Fit_Capacity blocked_WAITING_FOR_IDLE;
  guard cp_parallel_max caps <=? u32 (Z.of_nat (length run)) ret
    Fit_Capacity (if forallb sr_lingering run then blocked_LINGERING else blocked_WAITING_FOR_ROOM);
  guard (cp_cpu_millis caps <? u64_sat_add used_cpu cpu) || (cp_mem_bytes caps <? u64_sat_add used_mem mem)
    ret Fit_Capacity blocked_WAITING_FOR_ROOM;
  Fit_Now.

(** ** The simulation *)

Definition sim_running (p90 : bool) (r : Running) : SimRun := {|
  sr_slot := rn_slot r;
  sr_ws := rn_workspace_id r;
  sr_secret := rn_secret r;
  sr_cpu := rn_cpu_millis r;
  sr_mem := rn_mem_bytes r;
  sr_exclusive := rn_exclusive r;
  sr_end := if p90 then opt_or (rn_left_p90 r) (rn_left_p50 r) else rn_left_p50 r;
  sr_lingering := starts_with (rn_job_id r) LINGER_JOB_PREFIX;
  sr_submitter := opt_or (rn_submitter r) (rn_session_id r);
  sr_counts_for_submitter := negb (bool_decide (rn_tier r = Tier_Ci));
|}.

(** The job [e] started at [now]. *)
Definition sim_started (input : Input) (p90 : bool) (now : Z) (e : Queued) (t : Tenant) : SimRun :=
  let est := if p90 then opt_or (qd_est_p90 e) (qd_est_p50 e) else qd_est_p50 e in {|
  sr_slot := qd_slot e;
  sr_ws := qd_workspace_id e;
  sr_secret := qd_secret e;
  sr_cpu := cpu_of input e;
  sr_mem := mem_of input e;
  sr_exclusive := qd_exclusive e;
  sr_end := (λ d, u64 (now + Z.max d 1)) <$> est;
  sr_lingering := false;
  sr_submitter := Some (turn_key e);
  sr_counts_for_submitter := negb (bool_decide (line_of e t = Line_Ci));
|}.

(** Why a job isn't in the simulation at all. *)
Definition out_of_queue (input : Input) (e : Queued) : option string :=
  match tenant_of (in_tenants input) (qd_slot e) with
  | None => Some codes_SERVER_NOT_APPROVED
  | Some t =>
    guard negb (qd_eligible e) ret Some blocked_SERVER_OFFLINE;
    opt_or (cp_blocked (in_caps input)) (tn_blocked t)
  end.

Record Sim := mk_Sim {
  sm_start_at : list (option Z);
  sm_blocked : list (option string);
  sm_why_now : list (option string);
}.

(** The state of the start pass: the simulation's answer so far, what runs,
    the jobs started in this pass, the hold, and (round 0) the submitters
    already waiting ahead per (server, workspace, line). *)
Record Pass := mk_Pass {
  ps_sim : Sim;
  ps_run : list SimRun;
  ps_started : list nat;
  ps_held : option string;
  ps_head_seen : bool;
  ps_ahead : gmap (Z * string * Line) (list string);
}.

Definition set_start (i : nat) (now : Z) (s : Sim) : Sim :=
  mk_Sim (<[i := Some now]> (sm_start_at s)) (sm_blocked s) (sm_why_now s).
Definition set_blocked (i : nat) (code : string) (s : Sim) : Sim :=
  mk_Sim (sm_start_at s) (<[i := Some code]> (sm_blocked s)) (sm_why_now s).
Definition set_why (i : nat) (why : option string) (s : Sim) : Sim :=
  mk_Sim (sm_start_at s) (sm_blocked s) (<[i := why]> (sm_why_now s)).

Definition ahead_key (e : Queued) (t : Tenant) : Z * string * Line :=
  (qd_slot e, qd_workspace_id e, line_of e t).

(** Round 0: why the job doesn't start now. *)
Definition why_of (f : Fit) (held : option string) (turn : bool) : option string :=
  match f, held with
  | Fit_Now, None | Fit_Never, _ => None
  | Fit_Now, Some h | Fit_Capacity _, Some h => Some h
  | Fit_Capacity c, None =>
    if (c =? blocked_WAITING_FOR_ROOM)%string && turn then Some blocked_TURN else Some c
  | Fit_Wait c, _ => Some c
  end.

(** The round-0 bookkeeping of one job. *)
Definition note_why (e : Queued) (t : Tenant) (i : nat) (f : Fit) (p : Pass) : Pass :=
  let key := ahead_key e t in
  let turn := opt_is_some_and (existsb (λ x, negb (x =? turn_key e)%string)) (ps_ahead p !! key) in
  let ahead := match f, ps_held p with
    | Fit_Now, None => ps_ahead p
    | _, _ => <[key := default [] (ps_ahead p !! key) ++ [turn_key e]]> (ps_ahead p)
    end in
  mk_Pass (set_why i (why_of f (ps_held p) turn) (ps_sim p)) (ps_run p) (ps_started p)
    (ps_held p) (ps_head_seen p) ahead.

(** A job waiting for capacity: does it hold every later start? *)
Definition hold_of (input : Input) (now : Z) (e : Queued) (t : Tenant) (head_seen : bool) : option string :=
  let waited := i64 (i64 (in_now input - qd_enqueued_at e) + i64 now) in
  let line := line_of e t in
  guard holds line ret Some blocked_TIER_HOLD;
  guard negb head_seen && backfill_holds line && (cf_backfill_hold_secs (in_cfg input) <=? waited)
    ret Some blocked_BACKFILL_HOLD;
  None.

(** One job of the start pass at [now]; [None] is the [expect] failing. *)
Definition pass_step (input : Input) (p90 : bool) (round : nat) (now : Z)
    (p : option Pass) (i : nat) : option Pass :=
  p ← p;
  let e := at_ input i in
  t ← tenant_of (in_tenants input) (qd_slot e);
  let f := fit input e t (ps_run p) in
  let p := if (round =? 0)%nat then note_why e t i f p else p in
  Some match f, ps_held p with
  | Fit_Now, None =>
    mk_Pass (set_start i now (ps_sim p)) (ps_run p ++ [sim_started input p90 now e t])
      (ps_started p ++ [i]) None (ps_head_seen p) (ps_ahead p)
  | Fit_Capacity _, None =>
    mk_Pass (ps_sim p) (ps_run p) (ps_started p)
      (hold_of input now e t (ps_head_seen p)) true (ps_ahead p)
  | Fit_Never, _ =>
    mk_Pass (set_blocked i blocked_EXCEEDS_NODE_CAPS (ps_sim p)) (ps_run p) (ps_started p)
      (ps_held p) (ps_head_seen p) (ps_ahead p)
  | _, _ => p
  end.

(** The start pass of one round. *)
Definition start_pass (input : Input) (p90 : bool) (round : nat) (now : Z) (pending : list nat)
    (ahead : gmap (Z * string * Line) (list string)) (run : list SimRun) (s : Sim) : option Pass :=
  fold_left (pass_step input p90 round now) pending (Some (mk_Pass s run [] None false ahead)).

Definition list_min (l : list Z) : option Z :=
  match l with [] => None | x :: r => Some (foldr Z.min x r) end.

(** [for round in 0..(4 * q.len() + 8)]. *)
Fixpoint sim_rounds (rounds : nat) (input : Input) (p90 : bool) (round : nat) (now : Z)
    (pending : list nat) (ahead : gmap (Z * string * Line) (list string)) (run : list SimRun) (s : Sim) : option Sim :=
  match rounds with
  | O => Some s
  | S rounds =>
    p ← start_pass input p90 round now pending ahead run s;
    let s := ps_sim p in
    let pending := List.filter (λ i,
      negb (bool_decide (i ∈ ps_started p)) && bool_decide (sm_blocked s !!! i = None)) pending in
    guard bool_decide (pending = []) ret Some s;
    match list_min (omap sr_end (ps_run p)) with
    | None => Some s
    | Some next =>
      let now := Z.max next now in
      let run := List.filter (λ r, match sr_end r with None => true | Some e => now <? e end) (ps_run p) in
      sim_rounds rounds input p90 (S round) now pending (ps_ahead p) run s
    end
  end.

(** The jobs that stay out of the simulation get their reason first. *)
Definition sim_init (input : Input) (ord : list nat) : Sim * list nat :=
  fold_left (λ '(s, pending) i,
    match out_of_queue input (at_ input i) with
    | Some b => (set_blocked i b s, pending)
    | None => (s, pending ++ [i])
    end) ord
    (let n := length (in_queued input) in
     (mk_Sim (replicate n None) (replicate n None) (replicate n None), [])).

Definition simulate (input : Input) (ord : list nat) (p90 : bool) : option Sim :=
  let '(s, pending) := sim_init input ord in
  sim_rounds (4 * length (in_queued input) + 8) input p90 0 0 pending ∅
    (sim_running p90 <$> in_running input) s.

(** ** The decision *)

(** One job of the [for (pos, i) in ord] loop. *)
Definition info_of (input : Input) (fast slow : Sim) (total pos : Z) (i : nat) : Info :=
  let e := at_ input i in
  let now := bool_decide (sm_start_at fast !!! i = Some 0) in
  let over := match tenant_of (in_tenants input) (qd_slot e) with Some t => over_quota t | None => false end in
  let blocked_by := sm_blocked fast !!! i in
  let blocked_by :=
    if bool_decide (blocked_by = None) && negb now && over then Some blocked_OVER_QUOTA else blocked_by in
  let blocked_by :=
    if bool_decide (blocked_by = None) && negb now then sm_why_now fast !!! i else blocked_by in
  mk_Info (u32 (pos + 1)) total now (sm_start_at fast !!! i)
    (opt_or (sm_start_at slow !!! i) (sm_start_at fast !!! i)) blocked_by.

Definition start_line (input : Input) (e : Queued) : Line :=
  match tenant_of (in_tenants input) (qd_slot e) with Some t => line_of e t | None => Line_Standard end.

Definition decide_step (input : Input) (fast slow : Sim) (total : Z) (acc : list nat * list Info * Rotation)
    (pi : nat * nat) : list nat * list Info * Rotation :=
  let '(start, info, rotation) := acc in
  let '(pos, i) := pi in
  let inf := info_of input fast slow total (Z.of_nat pos) i in
  let start' := if if_starts_now inf then start ++ [i] else start in
  let rotation' := if if_starts_now inf
    then served rotation (at_ input i) (start_line input (at_ input i)) else rotation in
  (start', <[i := inf]> info, rotation').

Definition enumerate {A} (l : list A) : list (nat * A) := zip (seq 0 (length l)) l.

Definition queue_decide (input : Input) : option Decision :=
  ord ← order input;
  fast ← simulate input ord false;
  slow ← simulate input ord true;
  let total := u32 (Z.of_nat (length ord)) in
  let '(start, info, rotation) := fold_left (decide_step input fast slow total) (enumerate ord)
    ([], replicate (length (in_queued input)) (mk_Info 0 0 false None None None), in_rotation input) in
  Some (mk_Decision ord start info rotation).

(** ** Quotes *)

(** The probe's job and workspace id: a NUL byte and [quote]. *)
Definition quote_id : string := String (ascii_of_nat 0) "quote".

Definition quote_job (input : Input) (slot cpu_millis mem_bytes : Z) : Queued := {|
  qd_slot := slot;
  qd_job_id := quote_id;
  qd_generation := 0;
  qd_workspace_id := quote_id;
  qd_session_id := None;
  qd_class := JobClass_Interactive;
  qd_tier := Tier_Normal;
  qd_cpu_millis := if 0 <? cpu_millis then Some cpu_millis else None;
  qd_mem_bytes := if 0 <? mem_bytes then Some mem_bytes else None;
  qd_exclusive := false;
  qd_enqueued_at := in_now input;
  qd_arrival := u64_max;
  qd_est_p50 := None;
  qd_est_p90 := None;
  qd_ws_max_running := None;
  qd_eligible := true;
  qd_secret := false;
  qd_submitter := None;
  qd_submitter_max_running := None;
|}.

Definition with_queued (input : Input) (queued : list Queued) : Input := {|
  in_now := in_now input;
  in_cfg := in_cfg input;
  in_caps := in_caps input;
  in_tenants := in_tenants input;
  in_running := in_running input;
  in_queued := queued;
  in_rotation := in_rotation input;
|}.

Definition queue_quote (input : Input) (slot cpu_millis mem_bytes : Z) : option Quote :=
  let queued := in_queued input ++ [quote_job input slot cpu_millis mem_bytes] in
  d ← queue_decide (with_queued input queued);
  let i := dc_info d !!! (length queued - 1)%nat in
  let eta (x : option Z) := if if_starts_now i then None else round_eta <$> x in
  Some (mk_Quote cpu_millis mem_bytes (if_starts_now i) (eta (if_eta_secs i)) (eta (if_eta_p90_secs i))
    (if_blocked_by i)).

(** ** What each viewer sees *)

Record QueueEntry := mk_QueueEntry {
  qe_pos : Z;
  qe_mine : bool;
  qe_class : JobClass;
  qe_tier : option Tier;
  qe_state : JobState;
  qe_cpu_millis : Z;
  qe_mem_bytes : Z;
  qe_eta_secs : option Z;
  qe_eta_p90_secs : option Z;
  qe_blocked_by : option string;
  qe_job_id : option string;
  qe_generation : option Z;
  qe_workspace_id : option string;
  qe_session_id : option string;
  qe_server_label : option string;
}.

Record TenantTotals := mk_TenantTotals {
  tt_slot : Z;
  tt_label : string;
  tt_running : Z;
  tt_queued : Z;
  tt_cpu_secs_today : Z;
}.

Record QueueView := mk_QueueView {
  qv_request_id : string;
  qv_at : Z;
  qv_entries : list QueueEntry;
  qv_totals : list TenantTotals;
}.

Record Viewer := mk_Viewer {
  vw_slot : Z;
  vw_owner : bool;
  vw_labels : gmap Z string;
  vw_tiers : bool;
  vw_tiers2 : bool;
}.

(** The closure [push]: numbers the entry and fills in or strips what is its
    server's business. [id] is (job, generation, workspace, session). *)
Definition push_entry (viewer : Viewer) (entries : list QueueEntry) (mine : bool) (slot : Z) (e : QueueEntry)
    (id : string * Z * string * option string) : list QueueEntry :=
  let pos := u32 (Z.of_nat (length entries) + 1) in
  let '(job, generation, ws, session) := id in
  entries ++ [
    if mine then
      mk_QueueEntry pos (qe_mine e) (qe_class e) (qe_tier e) (qe_state e) (qe_cpu_millis e) (qe_mem_bytes e)
        (qe_eta_secs e) (qe_eta_p90_secs e) (qe_blocked_by e)
        (Some job) (Some generation) (Some ws) session (qe_server_label e)
    else
      mk_QueueEntry pos (qe_mine e) (qe_class e) (qe_tier e) (qe_state e) (qe_cpu_millis e) (qe_mem_bytes e)
        (round_eta <$> qe_eta_secs e) (round_eta <$> qe_eta_p90_secs e)
        (if vw_owner viewer then qe_blocked_by e else None)
        (qe_job_id e) (qe_generation e) (qe_workspace_id e) (qe_session_id e)
        (if vw_owner viewer then vw_labels viewer !! slot else qe_server_label e)].

(** The tier an entry carries, as the viewer's protocol lets it be named. *)
Definition shown_tier (input : Input) (viewer : Viewer) (slot : Z) (tier : Tier) : option Tier :=
  if vw_tiers viewer
  then Some (Tier_for_peer
    (match tenant_of (in_tenants input) slot with Some t => effective_tier t tier | None => Tier_Normal end)
    (vw_tiers2 viewer))
  else None.

Definition push_running (input : Input) (viewer : Viewer) (entries : list QueueEntry) (r : Running) : list QueueEntry :=
  let mine := rn_slot r =? vw_slot viewer in
  push_entry viewer entries mine (rn_slot r)
    (mk_QueueEntry 0 mine (rn_class r) (shown_tier input viewer (rn_slot r) (rn_tier r)) JobState_Running
      (rn_cpu_millis r) (rn_mem_bytes r) (rn_left_p50 r) (opt_or (rn_left_p90 r) (rn_left_p50 r))
      None None None None None None)
    (rn_job_id r, rn_generation r, rn_workspace_id r, rn_session_id r).

Definition push_queued (input : Input) (d : Decision) (viewer : Viewer) (entries : list QueueEntry) (i : nat) : list QueueEntry :=
  let q := at_ input i in
  let info := dc_info d !!! i in
  let mine := qd_slot q =? vw_slot viewer in
  push_entry viewer entries mine (qd_slot q)
    (mk_QueueEntry 0 mine (qd_class q) (shown_tier input viewer (qd_slot q) (qd_tier q)) JobState_Queued
      (cpu_of input q) (mem_of input q) (if_eta_secs info) (if_eta_p90_secs info) (if_blocked_by info)
      None None None None None)
    (qd_job_id q, qd_generation q, qd_workspace_id q, qd_session_id q).

Definition totals_of (input : Input) (viewer : Viewer) (t : Tenant) : TenantTotals := {|
  tt_slot := tn_slot t;
  tt_label := default "" (vw_labels viewer !! tn_slot t);
  tt_running := count_u32 (λ r, rn_slot r =? tn_slot t) (in_running input);
  tt_queued := count_u32 (λ q, qd_slot q =? tn_slot t) (in_queued input);
  tt_cpu_secs_today := tn_cpu_secs_today t;
|}.

Definition view (input : Input) (d : Decision) (viewer : Viewer) (request_id : string) : QueueView :=
  let entries := fold_left (push_running input viewer) (in_running input) [] in
  let entries := fold_left (push_queued input d viewer) (dc_order d) entries in
  let totals := if vw_owner viewer then totals_of input viewer <$> in_tenants input else [] in
  mk_QueueView request_id (in_now input) entries totals.

(** ** Usage *)

(** [decay]; the scaling by [0.5f64.powf(dt / half_life)] is the platform's
    floating point, the parameter [scale usage dt half_life]. *)
Definition decay (scale : Z → Z → Z → Z) (usage dt_secs half_life_secs : Z) : Z :=
  guard (dt_secs <=? 0) || (usage =? 0) ret usage;
  scale usage dt_secs (Z.max half_life_secs 1).

(** ** What [fit] admits *)

Section fit.
Context (input : Input) (e : Queued) (t : Tenant) (run : list SimRun).

Record admitted : Prop := {
  ad_server : count_u32 (λ r, sr_slot r =? qd_slot e) run < sl_max_running (tn_limits t);
  ad_workspace : ∀ m, qd_ws_max_running e = Some m →
    count_u32 (λ r, (sr_slot r =? qd_slot e) && (sr_ws r =? qd_workspace_id e)%string) run < Z.max m 1;
  ad_submitter : ∀ m, qd_submitter_max_running e = Some m → 0 < m → line_of e t ≠ Line_Ci →
    count_u32 (λ r, sr_counts_for_submitter r && (sr_slot r =? qd_slot e)
      && (sr_ws r =? qd_workspace_id e)%string
      && (default "" (sr_submitter r) =? turn_key e)%string) run < m;
  ad_batch : line_of e t = Line_Batch → run = [];
  ad_isolated : ∀ r, r ∈ run → isolation_blocks (cf_one_uid (in_cfg input)) (qd_slot e)
    (qd_workspace_id e) (qd_secret e) [(sr_slot r, sr_ws r, sr_secret r)] = false;
  ad_no_exclusive : ∀ r, r ∈ run → sr_exclusive r = false;
  ad_exclusive : qd_exclusive e = true → run = [];
  ad_parallel : u32 (Z.of_nat (length run)) < cp_parallel_max (in_caps input);
  ad_cpu : u64_sat_add (sum_u64 sr_cpu run) (cpu_of input e) ≤ cp_cpu_millis (in_caps input);
  ad_mem : u64_sat_add (sum_u64 sr_mem run) (mem_of input e) ≤ cp_mem_bytes (in_caps input);
}.

Lemma fit_now : fit input e t run = Fit_Now → admitted.
Proof.
  unfold fit. intros H.
  destruct (_ || _) eqn:Hcap in H; [done|].
  destruct (over_server _ _ _) eqn:Hs; [done|].
  destruct (over_workspace _ _) eqn:Hw; [done|].
  destruct (over_submitter _ _ _) eqn:Hsub; [done|].
  destruct (bool_decide (line_of e t = Line_Batch) && _) eqn:Hb; [done|].
  destruct (negb (bool_decide (length (blockers _ _ _) = 0%nat))) eqn:Hbl; [by destruct (holds _)|].
  destruct (existsb _ _ || _) eqn:Hx; [done|].
  destruct (_ <=? u32 _) eqn:Hp; [done|].
  destruct (_ || _) eqn:Hr in H; [done|]. clear H Hcap.
  apply negb_false_iff, bool_decide_eq_true in Hbl. apply nil_length_inv in Hbl.
  apply orb_false_iff in Hx as [Hx1 Hx2]. apply orb_false_iff in Hr as [Hr1 Hr2].
  apply Z.ltb_ge in Hr1, Hr2. apply Z.leb_gt in Hp, Hs.
  constructor; try done.
  - intros m Hm. apply Z.leb_gt. exact (proj1 (opt_is_some_and_false _ _) Hw _ Hm).
  - intros m Hm Hm0 Hci. pose proof (proj1 (opt_is_some_and_false _ _) Hsub _ Hm) as Hf. cbn beta in Hf.
    rewrite (proj2 (Z.ltb_lt 0 m) Hm0), bool_decide_eq_false_2 in Hf by done. cbn in Hf. by apply Z.leb_gt.
  - intros Hl. rewrite bool_decide_eq_true_2 in Hb by done. cbn in Hb.
    by apply negb_false_iff, bool_decide_eq_true, nil_length_inv in Hb.
  - intros r Hr. apply not_true_iff_false. intros Ht.
    apply (not_elem_of_nil r). rewrite <- Hbl. by apply elem_of_filter_bool.
  - by rewrite existsb_false in Hx1.
  - intros He. rewrite He in Hx2. cbn in Hx2.
    by apply negb_false_iff, bool_decide_eq_true, nil_length_inv in Hx2.
Qed.

(** The job's own reasons not to start beside [run]: it is larger than the
    node, or its server, workspace or submitter runs as many as it may. *)
Definition own_reason : Prop :=
  cp_cpu_millis (in_caps input) < cpu_of input e ∨ cp_mem_bytes (in_caps input) < mem_of input e
  ∨ over_server e t run = true ∨ over_workspace e run = true ∨ over_submitter e (line_of e t) run = true.

(** A CI or Priority job that waits, but not for capacity. *)
Lemma fit_own : holds (line_of e t) = true →
  fit input e t run ≠ Fit_Now → (∀ c, fit input e t run ≠ Fit_Capacity c) → own_reason.
Proof.
  intros Hh Hn Hc. unfold own_reason. unfold fit in Hn, Hc.
  destruct (_ || _) eqn:Hcap in Hn, Hc; [apply orb_true_iff in Hcap as [?%Z.ltb_lt|?%Z.ltb_lt]; tauto|].
  destruct (over_server _ _ _); [tauto|]. destruct (over_workspace _ _); [tauto|].
  destruct (over_submitter _ _ _); [tauto|]. exfalso.
  destruct (bool_decide (line_of e t = Line_Batch)) eqn:Hb; cbn in Hn, Hc.
  { apply bool_decide_eq_true in Hb. by rewrite Hb in Hh. }
  rewrite Hh in Hn, Hc. repeat case_match; naive_solver.
Qed.
End fit.

(** ** The first start pass *)

(** What round 0 leaves of job [i]: its start, its block, its wait reason. *)
Definition sim_at (s : Sim) (i : nat) : option Z * option string * option string :=
  (sm_start_at s !!! i, sm_blocked s !!! i, sm_why_now s !!! i).

Record sim_wf (n : nat) (s : Sim) : Prop := {
  sw_start : length (sm_start_at s) = n;
  sw_blocked : length (sm_blocked s) = n;
  sw_why : length (sm_why_now s) = n;
}.

Section sim_at.
Context (n : nat) (s : Sim) (Hs : sim_wf n s).

Lemma sim_wf_set_start i now : sim_wf n (set_start i now s).
Proof. destruct Hs. by constructor; cbn; rewrite ?length_insert. Qed.
Lemma sim_wf_set_blocked i c : sim_wf n (set_blocked i c s).
Proof. destruct Hs. by constructor; cbn; rewrite ?length_insert. Qed.
Lemma sim_wf_set_why i w : sim_wf n (set_why i w s).
Proof. destruct Hs. by constructor; cbn; rewrite ?length_insert. Qed.

Lemma sim_at_set_start i now j : (i < n)%nat →
  sim_at (set_start i now s) j =
  (if decide (i = j) then Some now else sm_start_at s !!! j, sm_blocked s !!! j, sm_why_now s !!! j).
Proof.
  intros Hi. destruct Hs as [Hl _ _]. unfold sim_at. cbn. case_decide as Hd; [subst j|].
  - rewrite list_lookup_total_insert_eq by lia. done.
  - by rewrite list_lookup_total_insert_ne.
Qed.
Lemma sim_at_set_blocked i c j : (i < n)%nat →
  sim_at (set_blocked i c s) j =
  (sm_start_at s !!! j, if decide (i = j) then Some c else sm_blocked s !!! j, sm_why_now s !!! j).
Proof.
  intros Hi. destruct Hs as [_ Hl _]. unfold sim_at. cbn. case_decide as Hd; [subst j|].
  - rewrite list_lookup_total_insert_eq by lia. done.
  - by rewrite list_lookup_total_insert_ne.
Qed.
Lemma sim_at_set_why i w j : (i < n)%nat →
  sim_at (set_why i w s) j =
  (sm_start_at s !!! j, sm_blocked s !!! j, if decide (i = j) then w else sm_why_now s !!! j).
Proof.
  intros Hi. destruct Hs as [_ _ Hl]. unfold sim_at. cbn. case_decide as Hd; [subst j|].
  - rewrite list_lookup_total_insert_eq by lia. done.
  - by rewrite list_lookup_total_insert_ne.
Qed.
End sim_at.

Section step.
Context (input : Input) (p90 : bool) (round : nat) (now : Z).
Context (n : nat) (p : Pass) (Hp : sim_wf n (ps_sim p)).
Context (i : nat) (Hi : (i < n)%nat) (t : Tenant).
Context (Ht : tenant_of (in_tenants input) (qd_slot (at_ input i)) = Some t).
Local Notation e := (at_ input i).
Local Notation f := (fit input (at_ input i) t (ps_run p)).

(** The job started. *)
Record step_started (p' : Pass) : Prop := {
  ss_fit : f = Fit_Now;
  ss_held : ps_held p = None;
  ss_held' : ps_held p' = None;
  ss_started : ps_started p' = ps_started p ++ [i];
  ss_run : ps_run p' = ps_run p ++ [sim_started input p90 now e t];
  ss_at : sim_at (ps_sim p') i = (Some now, sm_blocked (ps_sim p) !!! i,
    if (round =? 0)%nat then None else sm_why_now (ps_sim p) !!! i);
}.

(** The job waits, or can never start. *)
Record step_waits (p' : Pass) : Prop := {
  st_started : ps_started p' = ps_started p;
  st_run : ps_run p' = ps_run p;
  st_held : ps_held p' = None → ps_held p = None ∧ f ≠ Fit_Now
    ∧ ((∃ c, f = Fit_Capacity c) → holds (line_of e t) = false);
  st_start : sm_start_at (ps_sim p') !!! i = sm_start_at (ps_sim p) !!! i;
  st_why : f = Fit_Never ∧ sm_blocked (ps_sim p') !!! i = Some blocked_EXCEEDS_NODE_CAPS
    ∨ f ≠ Fit_Never ∧ sm_blocked (ps_sim p') !!! i = sm_blocked (ps_sim p) !!! i
      ∧ (round = 0%nat → ∃ w, sm_why_now (ps_sim p') !!! i = Some w
          ∧ ∀ c, f = Fit_Wait c → w = c);
  st_why_later : round ≠ 0%nat → sm_why_now (ps_sim p') !!! i = sm_why_now (ps_sim p) !!! i;
}.

Lemma note_why_at : ∃ turn,
  let p1 := if (round =? 0)%nat then note_why e t i f p else p in
  ps_run p1 = ps_run p ∧ ps_started p1 = ps_started p ∧ ps_held p1 = ps_held p
  ∧ ps_head_seen p1 = ps_head_seen p ∧ sim_wf n (ps_sim p1)
  ∧ ∀ j, sim_at (ps_sim p1) j =
      (sm_start_at (ps_sim p) !!! j, sm_blocked (ps_sim p) !!! j,
       if decide (i = j ∧ round = 0%nat) then why_of f (ps_held p) turn else sm_why_now (ps_sim p) !!! j).
Proof.
  eexists. cbn. destruct (Nat.eqb_spec round 0) as [Hr|Hr]; cbn.
  - split_and!; try done; [by apply sim_wf_set_why|]. intros j.
    rewrite (sim_at_set_why n) by done. repeat case_decide; try done; naive_solver.
  - split_and!; try done. intros j. rewrite decide_False by tauto. done.
  Unshelve. all: exact true.
Qed.

Lemma hold_of_None head_seen : hold_of input now e t head_seen = None → holds (line_of e t) = false.
Proof. unfold hold_of. by destruct (holds _). Qed.

Lemma why_of_Some g held turn :
  g ≠ Fit_Never → (g = Fit_Now → held ≠ None) →
  ∃ w, why_of g held turn = Some w ∧ ∀ c, g = Fit_Wait c → w = c.
Proof.
  intros Hn Hnow. destruct g, held; cbn; try (by destruct Hnow); try done; try (by eexists).
  - eexists. split; [done|]. by intros ? [= ->].
  - eexists. split; [done|]. by intros ? [= ->].
  - case_match; by eexists.
Qed.

(** A pass whose answer for the job is a wait: it starts nothing. *)
Lemma step_waits_intro p1 p' turn :
  f ≠ Fit_Never → (f = Fit_Now → ps_held p ≠ None) →
  ps_run p' = ps_run p → ps_started p' = ps_started p →
  (ps_held p' = None → ps_held p = None ∧ f ≠ Fit_Now
    ∧ ((∃ c, f = Fit_Capacity c) → holds (line_of e t) = false)) →
  sim_at p1 i = (sm_start_at (ps_sim p) !!! i, sm_blocked (ps_sim p) !!! i,
    if decide (i = i ∧ round = 0%nat) then why_of f (ps_held p) turn else sm_why_now (ps_sim p) !!! i) →
  ps_sim p' = p1 → step_waits p'.
Proof.
  intros Hn Hnow Hr Hs Hh [= Ha Hb Hc] <-. constructor; try done.
  - right. split_and!; [done..|]. intros Hz. rewrite Hc, decide_True by done. by apply why_of_Some.
  - intros Hz. by rewrite Hc, decide_False by tauto.
Qed.

Lemma pass_step_spec : ∃ p', pass_step input p90 round now (Some p) i = Some p'
  ∧ sim_wf n (ps_sim p') ∧ (∀ j, j ≠ i → sim_at (ps_sim p') j = sim_at (ps_sim p) j)
  ∧ (step_started p' ∨ step_waits p').
Proof.
  destruct note_why_at as (turn&Hrun&Hst&Hheld&Hseen&Hwf&Hat).
  unfold pass_step. cbn. rewrite Ht. cbn.
  set (p1 := if (round =? 0)%nat then note_why e t i f p else p) in *. cbv zeta in *.
  assert (Hat' : ∀ j, j ≠ i → sim_at (ps_sim p1) j = sim_at (ps_sim p) j).
  { intros j Hj. rewrite Hat, decide_False by naive_solver. done. }
  pose proof (Hat i) as Hai. injection Hai as Ha Hb Hc.
  destruct f as [|c|c|] eqn:Hf; [destruct (ps_held p1) eqn:Hh1| |destruct (ps_held p1) eqn:Hh1|];
    eexists; (split; [reflexivity|]).
  - split_and!; [done..|]. right. eapply step_waits_intro; rewrite ?Hf; try done; [by rewrite <- Hheld|].
    intros E. by rewrite E in Hh1.
  - split_and!; cbn; [by apply sim_wf_set_start| |left].
    { intros j Hj. rewrite (sim_at_set_start n), decide_False by done. by apply Hat'. }
    constructor; cbn; rewrite ?Hrun, ?Hst, ?Hseen; try done.
    rewrite (sim_at_set_start n), decide_True by done. f_equal; [by f_equal|].
    rewrite Hc. destruct (Nat.eqb_spec round 0).
    + rewrite decide_True by done. by rewrite <- Hheld.
    + by rewrite decide_False by tauto.
  - split_and!; [done..|]. right. eapply step_waits_intro; rewrite ?Hf; try done.
    intros E. split_and!; [by rewrite <- Hheld|done|by intros [? ?]].
  - split_and!; [done..|]. right. eapply step_waits_intro; rewrite ?Hf; try done.
    intros E. by rewrite E in Hh1.
  - split_and!; [done..|]. right. eapply step_waits_intro; rewrite ?Hf; try done.
    cbn. intros E. split_and!; [by rewrite <- Hheld|done|]. intros _. by eapply hold_of_None.
  - split_and!; cbn; [by apply sim_wf_set_blocked| |right].
    { intros j Hj. rewrite (sim_at_set_blocked n), decide_False by done. by apply Hat'. }
    pose proof (sim_at_set_blocked n (ps_sim p1) Hwf i blocked_EXCEEDS_NODE_CAPS i Hi) as Hbi.
    rewrite decide_True in Hbi by done. injection Hbi as Hb1.
    constructor; cbn -[set_blocked]; rewrite ?Hrun, ?Hst, ?Hheld; try done.
    + intros ->. rewrite Hf. split_and!; [done..|by intros [? ?]].
    + by left.
    + intros Hz. cbn. rewrite Hc. by rewrite decide_False by tauto.
Qed.
End step.

(** The running entries of the jobs [js], started at [now]. *)
Definition sims (input : Input) (p90 : bool) (now : Z) (js : list nat) : list SimRun :=
  omap (λ i, t ← tenant_of (in_tenants input) (qd_slot (at_ input i));
             Some (sim_started input p90 now (at_ input i) t)) js.

(** Each of [js] fits beside what ran before it. *)
Definition starts_ok (input : Input) (p90 : bool) (now : Z) (run : list SimRun) (js : list nat) : Prop :=
  ∀ l1 i l2, js = l1 ++ i :: l2 → ∃ t, tenant_of (in_tenants input) (qd_slot (at_ input i)) = Some t
    ∧ fit input (at_ input i) t (run ++ sims input p90 now l1) = Fit_Now.

(** [i] stands in the CI or the Priority line. *)
Definition holds_line (input : Input) (i : nat) : bool :=
  opt_is_some_and holds (job_line input i).

(** [i] doesn't start for a reason of its own, beside what runs and those of
    the started that stand before it. *)
Definition own_at (input : Input) (p90 : bool) (now : Z) (run0 : list SimRun) (ord js : list nat) (i : nat) : Prop :=
  ∃ t ahead, tenant_of (in_tenants input) (qd_slot (at_ input i)) = Some t
    ∧ ahead `prefix_of` js ∧ (∀ k, k ∈ ahead → [k; i] `sublist_of` ord)
    ∧ own_reason input (at_ input i) t (run0 ++ sims input p90 now ahead).

Lemma own_at_mono input p90 now run0 ord js i ord' js' :
  own_at input p90 now run0 ord js i → ord `sublist_of` ord' → js `prefix_of` js' → own_at input p90 now run0 ord' js' i.
Proof. intros (t&ahead&Ht&Hp&Hb&Ho) Hs Hj. exists t, ahead. split_and!; [done|by etrans| |done]. intros k Hk. etrans; [by apply Hb|done]. Qed.

Lemma filter_bool_sublist {A} (f : A → bool) (l : list A) : List.filter f l `sublist_of` l.
Proof. induction l as [|x l IH]; cbn; [done|]. destruct (f x); [by apply sublist_skip|by apply sublist_cons]. Qed.

Section pass.
Context (input : Input) (p90 : bool) (round : nat) (now : Z).
Context (n : nat) (s0 : Sim) (Hs0 : sim_wf n s0) (run0 : list SimRun).
Context (ahead0 : gmap (Z * string * Line) (list string)).

Record pass_inv (seen : list nat) (p : Pass) : Prop := {
  pi_wf : sim_wf n (ps_sim p);
  pi_run : ps_run p = run0 ++ sims input p90 now (ps_started p);
  pi_starts : starts_ok input p90 now run0 (ps_started p);
  pi_sub : ps_started p `sublist_of` seen;
  pi_other : ∀ j, j ∉ seen → sim_at (ps_sim p) j = sim_at s0 j;
  pi_started : ∀ j, j ∈ ps_started p →
    sm_start_at (ps_sim p) !!! j = Some now ∧ sm_blocked (ps_sim p) !!! j = sm_blocked s0 !!! j;
  pi_waits : ∀ j, j ∈ seen → j ∉ ps_started p →
    sm_start_at (ps_sim p) !!! j = sm_start_at s0 !!! j
    ∧ (sm_blocked (ps_sim p) !!! j = Some blocked_EXCEEDS_NODE_CAPS
       ∨ sm_blocked (ps_sim p) !!! j = sm_blocked s0 !!! j
         ∧ (round = 0%nat → sm_why_now (ps_sim p) !!! j ≠ None));
  pi_why : round ≠ 0%nat → ∀ j, sm_why_now (ps_sim p) !!! j = sm_why_now s0 !!! j;
  pi_held : round = 0%nat → ps_held p = None →
    ∀ i, i ∈ seen → i ∉ ps_started p → holds_line input i = true → own_at input p90 now run0 seen (ps_started p) i;
  pi_before : round = 0%nat → ∀ l1 j l2, seen = l1 ++ j :: l2 → j ∈ ps_started p →
    ∀ i, i ∈ l1 → i ∉ ps_started p → holds_line input i = true → own_at input p90 now run0 seen (ps_started p) i;
}.

Lemma app_snoc_inv {A} (l : list A) x l1 y l2 :
  l ++ [x] = l1 ++ y :: l2 → (l2 = [] ∧ l = l1 ∧ x = y) ∨ ∃ l2', l2 = l2' ++ [x] ∧ l = l1 ++ y :: l2'.
Proof.
  destruct l2 as [|z l2 _] using rev_ind; intros E.
  - apply app_inj_2 in E as [? [= ?]]; [|done]. by left.
  - right. exists l2. rewrite app_comm_cons, app_assoc in E.
    apply app_inj_2 in E as [? [= ?]]; [|done]. by subst.
Qed.

Lemma starts_ok_snoc js i t :
  starts_ok input p90 now run0 js → tenant_of (in_tenants input) (qd_slot (at_ input i)) = Some t →
  fit input (at_ input i) t (run0 ++ sims input p90 now js) = Fit_Now →
  starts_ok input p90 now run0 (js ++ [i]).
Proof.
  intros Hjs Ht Hf l1 j l2 [(->&->&->)|(l2'&->&->)]%app_snoc_inv; [eauto|].
  by eapply Hjs.
Qed.

Lemma pass_inv_step seen p i t :
  pass_inv seen p → i ∉ seen → (i < n)%nat →
  tenant_of (in_tenants input) (qd_slot (at_ input i)) = Some t →
  ∃ p', pass_step input p90 round now (Some p) i = Some p' ∧ pass_inv (seen ++ [i]) p'.
Proof.
  intros Hinv Hi Hn Ht.
  destruct (pass_step_spec input p90 round now n p (pi_wf _ _ Hinv) i Hn t Ht)
    as (p'&Hstep&Hwf&Hat&Hcase).
  exists p'. split; [done|]. clear Hstep.
  assert (i ∉ ps_started p) as His.
  { intros Hin. apply Hi. eapply elem_of_sublist; [done|]. apply (pi_sub _ _ Hinv). }
  assert (Hne : ∀ j, j ∈ seen → j ≠ i) by (intros j Hj ->; done).
  pose proof (pi_other _ _ Hinv i Hi) as [= Ho1 Ho2 Ho3].
  assert (Hline : holds_line input i = true → holds (line_of (at_ input i) t) = true).
  { unfold holds_line, job_line. by rewrite Ht. }
  destruct Hcase as [Hst|Hst].
  - destruct Hst as [Hfit Hheld Hheld' Hstd Hrun [= Ha Hb Hc]].
    constructor; try done.
    + rewrite Hrun, Hstd, (pi_run _ _ Hinv), <- app_assoc. f_equal. unfold sims at 2.
      rewrite omap_app. cbn. by rewrite Ht.
    + rewrite Hstd. eapply starts_ok_snoc; [apply (pi_starts _ _ Hinv)|done|].
      by rewrite <- (pi_run _ _ Hinv).
    + rewrite Hstd. apply sublist_app; [apply (pi_sub _ _ Hinv)|done].
    + intros j Hj. rewrite Hat by set_solver. apply (pi_other _ _ Hinv). set_solver.
    + intros j. rewrite Hstd, elem_of_app, list_elem_of_singleton. intros [Hj| ->]; [|by rewrite <- Ho2].
      assert (j ≠ i) as Hji by (intros ->; done). pose proof (Hat j Hji) as [= E1 E2 E3]; rewrite ?E1, ?E2, ?E3.
      by apply (pi_started _ _ Hinv).
    + intros j. rewrite Hstd. intros Hj Hns. assert (j ≠ i) as Hji by (intros ->; set_solver).
      pose proof (Hat j Hji) as [= E1 E2 E3]; rewrite ?E1, ?E2, ?E3. apply (pi_waits _ _ Hinv); set_solver.
    + intros Hr j. destruct (decide (j = i)) as [->|Hji].
      * rewrite Hc. destruct (Nat.eqb_spec round 0); [done|]. by rewrite Ho3.
      * pose proof (Hat j Hji) as [= E1 E2 E3]; rewrite ?E1, ?E2, ?E3. by apply (pi_why _ _ Hinv).
    + intros Hr _ j. rewrite Hstd. intros Hj Hns Hh.
      assert (j ≠ i) as Hji by (intros ->; set_solver). eapply own_at_mono; [|by apply sublist_inserts_r|by apply prefix_app_r].
      apply (pi_held _ _ Hinv); try done; set_solver.
    + intros Hr l1 j l2 Hsplit. rewrite Hstd. intros Hj k Hk Hns Hh.
      assert (k ≠ i) as Hki by (intros ->; set_solver). eapply own_at_mono; [|by apply sublist_inserts_r|by apply prefix_app_r].
      apply app_snoc_inv in Hsplit as [(->&->&->)|(l2'&->&Hseen)].
      * apply (pi_held _ _ Hinv); try done; set_solver.
      * apply (pi_before _ _ Hinv Hr l1 j l2'); try done; [|set_solver].
        apply elem_of_app in Hj as [Hj| ->%list_elem_of_singleton]; [done|]. exfalso. apply Hi. set_solver.
  - destruct Hst as [Hstd Hrun Hheld Ha Hwhy Hlater].
    constructor; rewrite ?Hstd, ?Hrun; try apply Hinv; try done.
    + apply sublist_inserts_r, (pi_sub _ _ Hinv).
    + intros j Hj. rewrite Hat by set_solver. apply (pi_other _ _ Hinv). set_solver.
    + intros j Hj. assert (j ≠ i) as Hji by (intros ->; done). pose proof (Hat j Hji) as [= E1 E2 E3]; rewrite ?E1, ?E2, ?E3.
      by apply (pi_started _ _ Hinv).
    + intros j Hj Hns. apply elem_of_app in Hj as [Hj| ->%list_elem_of_singleton].
      * pose proof (Hat j (Hne j Hj)) as [= E1 E2 E3]; rewrite ?E1, ?E2, ?E3. by apply (pi_waits _ _ Hinv).
      * split; [congruence|]. destruct Hwhy as [[_ Hwb]|(_&->&Hw)]; [by left|right].
        split; [done|]. intros Hr. by destruct (Hw Hr) as (w&->&_).
    + intros Hr j. destruct (decide (j = i)) as [->|Hji].
      * rewrite Hlater by done. by rewrite Ho3.
      * pose proof (Hat j Hji) as [= E1 E2 E3]; rewrite ?E1, ?E2, ?E3. by apply (pi_why _ _ Hinv).
    + intros Hr Hnone j Hj Hns Hh. destruct (Hheld Hnone) as (Hnone'&Hnow&Hcap).
      apply elem_of_app in Hj as [Hj| ->%list_elem_of_singleton].
      * eapply own_at_mono; [by apply (pi_held _ _ Hinv)|by apply sublist_inserts_r|done].
      * exists t, (ps_started p). split_and!; [done..| |].
        -- intros k Hk. apply (sublist_app [k] seen [i] [i]); [|done]. apply singleton_sublist_l.
           eapply elem_of_sublist; [done|apply (pi_sub _ _ Hinv)].
        -- rewrite <- (pi_run _ _ Hinv). apply fit_own; [by apply Hline|done|]. intros c Hc.
           rewrite Hline in Hcap by done. discriminate Hcap. by exists c.
    + intros Hr l1 j l2 Hsplit Hj k Hk Hns Hh.
      apply app_snoc_inv in Hsplit as [(->&->&->)|(l2'&->&->)]; [done|].
      eapply own_at_mono; [by eapply (pi_before _ _ Hinv Hr l1 j l2')|by apply sublist_inserts_r|done].
Qed.

Lemma pass_spec pending :
  NoDup pending →
  (∀ i, i ∈ pending → (i < n)%nat ∧ is_Some (tenant_of (in_tenants input) (qd_slot (at_ input i)))) →
  ∃ p, start_pass input p90 round now pending ahead0 run0 s0 = Some p ∧ pass_inv pending p.
Proof.
  unfold start_pass. induction pending as [|i pending IH] using rev_ind; intros Hnd Hall.
  - eexists. split; [done|]. constructor; cbn; try done.
    + by rewrite app_nil_r.
    + by intros [] ? ? ?.
    + set_solver.
    + by intros _ [] ? ? ?.
  - apply NoDup_app in Hnd as (Hnd&Hni&_).
    destruct IH as (p&Hp&Hinv); [done|set_solver|].
    destruct (Hall i) as [Hi [t Ht]]; [set_solver|].
    rewrite fold_left_app, Hp. cbn [fold_left]. eapply pass_inv_step; try done.
    intros Hin. apply (Hni i Hin). set_solver.
Qed.
End pass.

(** ** The rounds after it *)

Section rounds.
Context (input : Input) (p90 : bool) (n : nat).

Definition jobs_ok (jobs : list nat) : Prop :=
  NoDup jobs ∧
  ∀ i, i ∈ jobs → (i < n)%nat ∧ is_Some (tenant_of (in_tenants input) (qd_slot (at_ input i))).

Definition still_pending (p : Pass) (pending : list nat) : list nat :=
  List.filter (λ i,
    negb (bool_decide (i ∈ ps_started p)) && bool_decide (sm_blocked (ps_sim p) !!! i = None)) pending.

Lemma elem_of_still_pending p pending i :
  i ∈ still_pending p pending ↔ i ∈ pending ∧ i ∉ ps_started p ∧ sm_blocked (ps_sim p) !!! i = None.
Proof.
  unfold still_pending. rewrite elem_of_filter_bool, andb_true_iff, negb_true_iff.
  by rewrite bool_decide_eq_false, bool_decide_eq_true.
Qed.

Lemma jobs_ok_still_pending p pending : jobs_ok pending → jobs_ok (still_pending p pending).
Proof.
  intros [Hnd Hall]. split; [by apply NoDup_filter_bool|].
  intros i [Hi _]%elem_of_still_pending. auto.
Qed.

(** What the rounds from [now] on may change. *)
Record later (now : Z) (pending : list nat) (s s' : Sim) : Prop := {
  la_wf : sim_wf n s';
  la_other : ∀ j, j ∉ pending → sim_at s' j = sim_at s j;
  la_start : ∀ j, sm_start_at s' !!! j = sm_start_at s !!! j
    ∨ ∃ x, sm_start_at s' !!! j = Some x ∧ now ≤ x;
  la_blocked : ∀ j, sm_blocked s' !!! j = sm_blocked s !!! j
    ∨ sm_blocked s' !!! j = Some blocked_EXCEEDS_NODE_CAPS;
  la_why : ∀ j, sm_why_now s' !!! j = sm_why_now s !!! j;
}.

Lemma later_refl now pending s : sim_wf n s → later now pending s s.
Proof. constructor; auto. Qed.

Lemma later_trans now now' pending pending' s1 s2 s3 :
  (∀ j, j ∈ pending' → j ∈ pending) → now ≤ now' →
  later now pending s1 s2 → later now' pending' s2 s3 → later now pending s1 s3.
Proof.
  intros Hsub Hnow [Hw1 Ho1 Hs1 Hb1 Hy1] [Hw2 Ho2 Hs2 Hb2 Hy2]. constructor; [done|..].
  - intros j Hj. rewrite Ho2 by auto. by apply Ho1.
  - intros j. destruct (Hs2 j) as [->|(x&->&?)]; [apply Hs1|]. right. exists x. split; [done|lia].
  - intros j. destruct (Hb2 j) as [->| ->]; auto.
  - intros j. by rewrite Hy2.
Qed.

Lemma pass_inv_later round now s0 run0 pending p :
  sim_wf n s0 → round ≠ 0%nat → pass_inv input p90 round now n s0 run0 pending p →
  later now pending s0 (ps_sim p).
Proof.
  intros Hw Hr Hinv. constructor; [apply Hinv|apply Hinv|..].
  - intros j. destruct (decide (j ∈ pending)) as [Hj|Hj].
    + destruct (decide (j ∈ ps_started p)) as [Hs|Hs].
      * right. destruct (pi_started _ _ _ _ _ _ _ _ _ Hinv j Hs) as [-> _]. eauto with lia.
      * left. by apply (pi_waits _ _ _ _ _ _ _ _ _ Hinv).
    + left. by pose proof (pi_other _ _ _ _ _ _ _ _ _ Hinv j Hj) as [= -> _ _].
  - intros j. destruct (decide (j ∈ pending)) as [Hj|Hj].
    + destruct (decide (j ∈ ps_started p)) as [Hs|Hs].
      * left. by destruct (pi_started _ _ _ _ _ _ _ _ _ Hinv j Hs) as [_ ->].
      * destruct (pi_waits _ _ _ _ _ _ _ _ _ Hinv j Hj Hs) as [_ [?|[-> _]]]; auto.
    + left. by pose proof (pi_other _ _ _ _ _ _ _ _ _ Hinv j Hj) as [= _ -> _].
  - by apply (pi_why _ _ _ _ _ _ _ _ _ Hinv).
Qed.

Lemma later_rounds rounds round now pending ahead run s :
  round ≠ 0%nat → sim_wf n s → jobs_ok pending →
  ∃ s', sim_rounds rounds input p90 round now pending ahead run s = Some s' ∧ later now pending s s'.
Proof.
  revert round now pending ahead run s.
  induction rounds as [|rounds IH]; intros round now pending ahead run s Hr Hw Hjobs; cbn [sim_rounds].
  { exists s. split; [done|]. by apply later_refl. }
  destruct (pass_spec input p90 round now n s Hw run ahead pending) as (p&->&Hinv); [apply Hjobs..|].
  cbn. fold (still_pending p pending).
  pose proof (pass_inv_later _ _ _ _ _ _ Hw Hr Hinv) as Hlater.
  case_bool_decide; [by eexists|]. destruct (list_min _) as [next|]; [|by eexists].
  edestruct (IH (S round) (Z.max next now) (still_pending p pending)) as (s'&->&Hl'); [done|apply Hinv|by apply jobs_ok_still_pending|].
  eexists. split; [done|]. eapply later_trans; [| |exact Hlater|exact Hl']; [|lia].
  by intros j [? _]%elem_of_still_pending.
Qed.

(** Ends lie strictly ahead of [now]. *)
Definition ends_after (now : Z) (run : list SimRun) : Prop :=
  ∀ r x, r ∈ run → sr_end r = Some x → now < x.

Lemma list_min_spec l x : list_min l = Some x → x ∈ l.
Proof.
  destruct l as [|y l]; [done|]. intros [= <-]. revert y.
  induction l as [|z l IH]; intros y; cbn; [set_solver|].
  destruct (Z.min_spec z (foldr Z.min y l)) as [[_ ->]|[_ ->]]; [set_solver|].
  specialize (IH y). set_solver.
Qed.

Lemma next_after now run next :
  ends_after now run → list_min (omap sr_end run) = Some next → now < next.
Proof. intros He Hm. apply list_min_spec, list_elem_of_omap in Hm as (r&?&?). eauto. Qed.

Definition est_ok : Prop :=
  ∀ i d, qd_est_p50 (at_ input i) = Some d ∨ qd_est_p90 (at_ input i) = Some d → 0 ≤ d < 2 ^ 64.

Lemma ends_after_sims js : est_ok → ends_after 0 (sims input p90 0 js).
Proof.
  intros He r x Hr Hx. unfold sims in Hr. apply list_elem_of_omap in Hr as (i&_&Hi).
  destruct (tenant_of _ _) as [t|]; [|done]. injection Hi as <-. cbn in Hx.
  apply fmap_Some in Hx as (d&Hd&->). rewrite u64_small; [lia|].
  assert (0 ≤ d < 2 ^ 64); [|lia]. apply (He i). destruct p90; [|by left].
  destruct (qd_est_p90 _); cbn in Hd; naive_solver.
Qed.
End rounds.

(** ** The whole simulation *)

Section simulate.
Context (input : Input).
Let n := length (in_queued input).

Definition in_queue (i : nat) : bool := bool_decide (out_of_queue input (at_ input i) = None).

Lemma sim_init_spec ord :
  NoDup ord → (∀ i, i ∈ ord → (i < n)%nat) →
  ∃ s, sim_init input ord = (s, List.filter in_queue ord) ∧ sim_wf n s
    ∧ (∀ i, i ∈ ord → sim_at s i = (None, out_of_queue input (at_ input i), None))
    ∧ (∀ i, i ∉ ord → (i < n)%nat → sim_at s i = (None, None, None)).
Proof.
  unfold sim_init. fold n. induction ord as [|i ord IH] using rev_ind; intros Hnd Hn.
  - eexists. split; [done|]. split_and!.
    + constructor; cbn; by rewrite length_replicate.
    + set_solver.
    + intros i _ Hi. unfold sim_at. cbn. by rewrite !lookup_total_replicate_2.
  - apply NoDup_app in Hnd as (Hnd&Hni&_).
    assert (i ∉ ord) as Hi by (intros Hi; apply (Hni i Hi); set_solver).
    assert (i < n)%nat as Hin by (apply Hn; set_solver).
    destruct IH as (s&Hs&Hw&Hat&Hout); [done|set_solver|].
    rewrite fold_left_app, Hs. cbn. rewrite List.filter_app. cbn.
    assert (in_queue i = if out_of_queue input (at_ input i) is None then true else false) as ->
      by (unfold in_queue; by destruct (out_of_queue _ _)).
    destruct (out_of_queue input (at_ input i)) as [b|] eqn:Hb; cbn.
    + rewrite app_nil_r. eexists. split; [done|]. split_and!; [by apply sim_wf_set_blocked|..].
      * intros j Hj. rewrite (sim_at_set_blocked n) by done. case_decide as Hij.
        -- subst j. rewrite Hb. specialize (Hout i Hi Hin). by injection Hout as -> _ ->.
        -- assert (j ∈ ord) as Hj' by set_solver. by rewrite <- (Hat j Hj').
      * intros j Hj Hjn. rewrite (sim_at_set_blocked n), decide_False by set_solver.
        apply Hout; set_solver.
    + eexists. split; [done|]. split_and!; [done|..].
      * intros j [Hj| ->%list_elem_of_singleton]%elem_of_app; [by apply Hat|]. rewrite Hb. by apply Hout.
      * intros j Hj Hjn. apply Hout; set_solver.
Qed.

Lemma in_queue_tenant i : in_queue i = true → is_Some (tenant_of (in_tenants input) (qd_slot (at_ input i))).
Proof.
  unfold in_queue, out_of_queue. rewrite bool_decide_eq_true. destruct (tenant_of _ _); [eauto|done].
Qed.

(** What the simulation says of the jobs that start now, [js], and of the
    others. *)
Record sim_ok (p90 : bool) (ord js : list nat) (s : Sim) : Prop := {
  so_wf : sim_wf n s;
  so_sub : js `sublist_of` List.filter in_queue ord;
  so_starts : starts_ok input p90 0 (sim_running p90 <$> in_running input) js;
  so_now : ∀ i, i ∈ js → sm_start_at s !!! i = Some 0 ∧ sm_blocked s !!! i = None;
  so_later : ∀ i, i ∈ ord → i ∉ js → sm_start_at s !!! i ≠ Some 0
    ∧ (sm_blocked s !!! i ≠ None ∨ sm_why_now s !!! i ≠ None);
  so_out : ∀ i, i ∈ ord → sm_blocked s !!! i = out_of_queue input (at_ input i)
    ∨ sm_blocked s !!! i = Some blocked_EXCEEDS_NODE_CAPS;
  so_before : ∀ l1 j l2, ord = l1 ++ j :: l2 → j ∈ js →
    ∀ i, i ∈ l1 → i ∉ js → in_queue i = true → holds_line input i = true →
    own_at input p90 0 (sim_running p90 <$> in_running input) ord js i;
}.

Lemma simulate_some ord p90 :
  NoDup ord → (∀ i, i ∈ ord → (i < n)%nat) → is_Some (simulate input ord p90).
Proof.
  intros Hnd Hn. unfold simulate.
  destruct (sim_init_spec ord Hnd Hn) as (s0&->&Hw&_).
  set (pending := List.filter in_queue ord).
  assert (jobs_ok input n pending) as Hjobs.
  { split; [by apply NoDup_filter_bool|]. intros i [Hi Hq]%elem_of_filter_bool.
    split; [by apply Hn|by apply in_queue_tenant]. }
  rewrite Nat.add_succ_r. cbn [sim_rounds].
  destruct (pass_spec input p90 0 0 n s0 Hw (sim_running p90 <$> in_running input) ∅ pending)
    as (p&->&Hinv); [apply Hjobs..|]. cbn [mbind option_bind]. fold (still_pending p pending).
  case_bool_decide; [by eexists|]. destruct (list_min _) as [next|]; [|by eexists].
  edestruct (later_rounds input p90 n) as (s'&->&_); [done|apply Hinv|by apply jobs_ok_still_pending|by eexists].
Qed.

Lemma pass0_ok p90 ord s0 pending p :
  NoDup ord → (∀ i, i ∈ ord → (i < n)%nat) →
  (∀ i, i ∈ ord → sim_at s0 i = (None, out_of_queue input (at_ input i), None)) →
  pending = List.filter in_queue ord →
  pass_inv input p90 0 0 n s0 (sim_running p90 <$> in_running input) pending p →
  ∀ s', (s' = ps_sim p ∨ ∃ now, 0 < now ∧ later n now (still_pending p pending) (ps_sim p) s') →
  sim_ok p90 ord (ps_started p) s'.
Proof.
  intros Hnd Hn Hat -> Hinv s' Hs'.
  assert (Hl : ∃ now, 0 < now ∧ later n now (still_pending p (List.filter in_queue ord)) (ps_sim p) s').
  { destruct Hs' as [->|?]; [|done]. exists 1. split; [lia|]. apply later_refl, Hinv. }
  clear Hs'. destruct Hl as (now&Hnow&[Hw Ho Hst Hbl Hy]).
  assert (Hsub : ∀ i, i ∈ ps_started p → i ∈ ord ∧ in_queue i = true).
  { intros i Hi. eapply elem_of_filter_bool, elem_of_sublist; [done|]. apply Hinv. }
  assert (Hq : ∀ i, i ∈ ord → in_queue i = true → sim_at s0 i = (None, None, None)).
  { intros i Hi Hq. rewrite Hat by done. by apply bool_decide_eq_true in Hq as ->. }
  constructor; [done|apply Hinv|apply Hinv|..].
  - intros i Hi. destruct (pi_started _ _ _ _ _ _ _ _ _ Hinv i Hi) as [Hs Hb].
    assert (i ∉ still_pending p (List.filter in_queue ord)) as Hni by (rewrite elem_of_still_pending; tauto).
    pose proof (Ho i Hni) as [= -> -> _]. destruct (Hsub i Hi) as [Hio Hiq].
    pose proof (Hq i Hio Hiq) as [= _ Hb0 _]. by rewrite Hs, Hb, Hb0.
  - intros i Hi Hni.
    assert (Hp : sm_start_at (ps_sim p) !!! i = None
      ∧ (sm_blocked (ps_sim p) !!! i ≠ None ∨ sm_why_now (ps_sim p) !!! i ≠ None)).
    { destruct (in_queue i) eqn:Hiq.
      - destruct (pi_waits _ _ _ _ _ _ _ _ _ Hinv i) as [Hs Hb]; [by apply elem_of_filter_bool|done|].
        pose proof (Hq i Hi Hiq) as [= H1 _ _]. split; [by rewrite Hs, H1|].
        destruct Hb as [->|[_ ?]]; auto.
      - pose proof (pi_other _ _ _ _ _ _ _ _ _ Hinv i) as Hother.
        rewrite elem_of_filter_bool, Hiq in Hother. rewrite Hat in Hother by done.
        pose proof (Hother ltac:(naive_solver)) as [= -> -> _]. split; [done|]. left.
        by apply bool_decide_eq_false in Hiq. }
    destruct Hp as [Hp1 Hp2]. split.
    + destruct (Hst i) as [->|(x&->&?)]; [by rewrite Hp1|]. intros [= ->]. lia.
    + rewrite Hy. destruct Hp2; [|auto]. left. by destruct (Hbl i) as [->| ->].
  - intros i Hi. destruct (Hbl i) as [->| ->]; [|by right].
    pose proof (Hat i Hi) as [= _ <- _].
    destruct (decide (i ∈ List.filter in_queue ord)) as [Hf|Hf].
    + destruct (decide (i ∈ ps_started p)) as [Hs|Hs].
      * left. by apply (pi_started _ _ _ _ _ _ _ _ _ Hinv).
      * destruct (pi_waits _ _ _ _ _ _ _ _ _ Hinv i Hf Hs) as [_ [?|[-> _]]]; auto.
    + left. by pose proof (pi_other _ _ _ _ _ _ _ _ _ Hinv i Hf) as [= _ -> _].
  - intros l1 j l2 Hord Hj i Hi Hni Hiq Hh.
    eapply own_at_mono; [eapply (pi_before _ _ _ _ _ _ _ _ _ Hinv); [done| |exact Hj| |done|done]|apply filter_bool_sublist|done].
    + rewrite Hord, List.filter_app. cbn. destruct (Hsub j Hj) as [_ ->]. done.
    + by apply elem_of_filter_bool.
Qed.

Lemma simulate_spec ord p90 :
  NoDup ord → (∀ i, i ∈ ord → (i < n)%nat) → est_ok input →
  ends_after 0 (sim_running p90 <$> in_running input) →
  ∃ s js, simulate input ord p90 = Some s ∧ sim_ok p90 ord js s.
Proof.
  intros Hnd Hn Hest Hends. unfold simulate.
  destruct (sim_init_spec ord Hnd Hn) as (s0&->&Hw&Hat&_).
  set (pending := List.filter in_queue ord).
  assert (jobs_ok input n pending) as Hjobs.
  { split; [by apply NoDup_filter_bool|]. intros i [Hi Hq]%elem_of_filter_bool.
    split; [by apply Hn|by apply in_queue_tenant]. }
  rewrite Nat.add_succ_r. cbn [sim_rounds].
  destruct (pass_spec input p90 0 0 n s0 Hw (sim_running p90 <$> in_running input) ∅ pending)
    as (p&->&Hinv); [apply Hjobs..|]. cbn [mbind option_bind]. fold (still_pending p pending).
  assert (Hok := pass0_ok p90 ord s0 pending p Hnd Hn Hat eq_refl Hinv).
  case_bool_decide; [eauto 6|]. destruct (list_min _) as [next|] eqn:Hnext; [|eauto 6].
  apply (next_after 0) in Hnext.
  - edestruct (later_rounds input p90 n) as (s'&Hs'&Hl); [| | |].
    4:{ exists s', (ps_started p). split; [done|]. apply Hok. right. exists (Z.max next 0). split; [lia|done]. }
    + done.
    + apply Hinv.
    + by apply jobs_ok_still_pending.
  - rewrite (pi_run _ _ _ _ _ _ _ _ _ Hinv). intros r x [Hr|Hr]%elem_of_app Hx.
    + by eapply Hends.
    + by eapply (ends_after_sims input p90 _ Hest).
Qed.
End simulate.

(** ** Consequences of admission *)

Section admitted.
Context (input : Input) (p90 : bool) (now : Z).

Lemma sims_app js1 js2 : sims input p90 now (js1 ++ js2) = sims input p90 now js1 ++ sims input p90 now js2.
Proof. apply omap_app. Qed.

Lemma starts_ok_prefix run js i :
  starts_ok input p90 now run (js ++ [i]) →
  starts_ok input p90 now run js ∧ ∃ t, tenant_of (in_tenants input) (qd_slot (at_ input i)) = Some t
    ∧ admitted input (at_ input i) t (run ++ sims input p90 now js).
Proof.
  intros H. split.
  - intros l1 j l2 ->. apply (H l1 j (l2 ++ [i])). by rewrite <- app_assoc.
  - destruct (H js i []) as (t&Ht&Hf); [done|]. exists t. split; [done|]. by apply fit_now.
Qed.

(** A field that a start copies from its job. *)
Lemma sims_fmap {B} run js (f : SimRun → B) (g : nat → B) :
  starts_ok input p90 now run js →
  (∀ i t, f (sim_started input p90 now (at_ input i) t) = g i) →
  f <$> sims input p90 now js = g <$> js.
Proof.
  intros Hs Hfg. induction js as [|i js IH] using rev_ind; [done|].
  apply starts_ok_prefix in Hs as [Hs (t&Ht&_)].
  rewrite sims_app, !fmap_app, IH by done. f_equal. unfold sims. cbn. rewrite Ht. cbn. by rewrite Hfg.
Qed.

Lemma sims_length run js : starts_ok input p90 now run js → length (sims input p90 now js) = length js.
Proof.
  intros Hs. rewrite <- (length_fmap (λ _, tt)), <- (length_fmap (λ _ : nat, tt) js).
  by rewrite (sims_fmap run js (λ _, tt) (λ _, tt) Hs).
Qed.

Lemma sims_elem run js r :
  starts_ok input p90 now run js → r ∈ sims input p90 now js →
  ∃ i t, i ∈ js ∧ r = sim_started input p90 now (at_ input i) t.
Proof.
  intros _ Hr. apply list_elem_of_omap in Hr as (i&Hi&Hr).
  destruct (tenant_of _ _) as [t|]; [|done]. injection Hr as <-. eauto.
Qed.

Lemma sims_elem_2 run js i :
  starts_ok input p90 now run js → i ∈ js →
  ∃ t, sim_started input p90 now (at_ input i) t ∈ sims input p90 now js.
Proof.
  intros Hs Hi. apply list_elem_of_split in Hi as (l1&l2&->).
  destruct (Hs l1 i l2 eq_refl) as (t&Ht&_). exists t. rewrite sims_app. cbn. rewrite Ht. cbn. set_solver.
Qed.

Definition sum_z {A} (f : A → Z) (l : list A) : Z := foldr (λ x acc, f x + acc) 0 l.

Lemma sum_z_app {A} (f : A → Z) l1 l2 : sum_z f (l1 ++ l2) = sum_z f l1 + sum_z f l2.
Proof. unfold sum_z. induction l1; cbn; [done|]. lia. Qed.
Lemma sum_z_fmap {A B} (f : A → B) (g : B → Z) l : sum_z g (f <$> l) = sum_z (λ x, g (f x)) l.
Proof. unfold sum_z. induction l; cbn; [done|]. lia. Qed.
Lemma sum_z_nonneg {A} (f : A → Z) l : (∀ x, x ∈ l → 0 ≤ f x) → 0 ≤ sum_z f l.
Proof.
  unfold sum_z. induction l as [|x l IH]; intros H; cbn; [lia|].
  assert (0 ≤ f x) by (apply H; set_solver). specialize (IH ltac:(set_solver)). lia.
Qed.

(** What is in use stays under a cap that every start was checked against. *)
Lemma starts_ok_sum run js (f : SimRun → Z) (g : nat → Z) cap :
  starts_ok input p90 now run js → js ≠ [] →
  (∀ i t, f (sim_started input p90 now (at_ input i) t) = g i) →
  (∀ i t run', admitted input (at_ input i) t run' → u64_sat_add (sum_u64 f run') (g i) ≤ cap) →
  0 ≤ sum_z f run < 2 ^ 64 → (∀ i, 0 ≤ g i) → cap < u64_max →
  sum_z f run + sum_z g js ≤ cap.
Proof.
  intros Hs Hne Hfg Hadm Hrun Hg Hcap.
  induction js as [|i js IH] using rev_ind; [done|]. clear Hne.
  apply starts_ok_prefix in Hs as [Hs (t&Ht&Ha)].
  assert (sum_z f (run ++ sims input p90 now js) = sum_z f run + sum_z g js) as Hsum.
  { rewrite sum_z_app. f_equal. pose proof (sims_fmap run js f g Hs Hfg) as E.
    rewrite <- (sum_z_fmap f (λ x, x)), E, sum_z_fmap. done. }
  assert (0 ≤ sum_z g js) by (by apply sum_z_nonneg).
  assert (0 ≤ sum_z f run + sum_z g js < 2 ^ 64) as Hr.
  { destruct js as [|j js]; [cbn; lia|]. specialize (IH Hs ltac:(done)). unfold u64_max in Hcap. lia. }
  apply Hadm in Ha. unfold sum_u64 in Ha. fold (sum_z f (run ++ sims input p90 now js)) in Ha.
  rewrite Hsum, u64_small in Ha by lia. unfold u64_sat_add in Ha. rewrite sum_z_app. cbn. lia.
Qed.

Lemma starts_ok_parallel run js :
  starts_ok input p90 now run js → js ≠ [] → Z.of_nat (length run + length js) < 2 ^ 32 →
  Z.of_nat (length run + length js) ≤ cp_parallel_max (in_caps input).
Proof.
  intros Hs Hne Hlen. destruct js as [|i js _] using rev_ind; [done|].
  apply starts_ok_prefix in Hs as [Hs (t&_&Ha)]. pose proof (ad_parallel _ _ _ _ Ha) as Hp.
  rewrite length_app, (sims_length run js Hs) in Hp. rewrite length_app in *. cbn in *.
  rewrite u32_small in Hp; lia.
Qed.

Lemma starts_ok_server run js q t :
  starts_ok input p90 now run js → q ∈ js → tenant_of (in_tenants input) (qd_slot (at_ input q)) = Some t →
  Z.of_nat (length run + length js) < 2 ^ 32 →
  Z.of_nat (length (List.filter (λ r, sr_slot r =? qd_slot (at_ input q)) run)
    + length (List.filter (λ i, qd_slot (at_ input i) =? qd_slot (at_ input q)) js)) ≤ sl_max_running (tn_limits t).
Proof.
  intros Hs Hq Ht Hlen. set (s := qd_slot (at_ input q)) in *.
  induction js as [|i js IH] using rev_ind; [set_solver|].
  apply starts_ok_prefix in Hs as [Hs (t'&Ht'&Ha)]. rewrite length_app in Hlen. cbn in Hlen.
  rewrite List.filter_app, length_app. cbn. destruct (qd_slot (at_ input i) =? s) eqn:Hi; cbn.
  - apply Z.eqb_eq in Hi. rewrite Hi, Ht in Ht'. injection Ht' as <-.
    pose proof (ad_server _ _ _ _ Ha) as Hc. rewrite Hi in Hc. unfold count_u32 in Hc.
    rewrite List.filter_app, length_app in Hc.
    assert (length (List.filter (λ r, sr_slot r =? s) (sims input p90 now js))
      = length (List.filter (λ i, qd_slot (at_ input i) =? s) js)) as E.
    { clear -Hs. induction js as [|k js IH] using rev_ind; [done|].
      apply starts_ok_prefix in Hs as [Hs (tk&Htk&_)].
      rewrite sims_app, !List.filter_app, !length_app, IH by done. f_equal.
      unfold sims. cbn. rewrite Htk. cbn. by destruct (_ =? s). }
    rewrite E in Hc.
    pose proof (List.filter_length_le (λ r, sr_slot r =? s) run).
    pose proof (List.filter_length_le (λ i, qd_slot (at_ input i) =? s) js).
    rewrite u32_small in Hc; lia.
  - apply elem_of_app in Hq as [Hq| ->%list_elem_of_singleton]; [|unfold s in Hi; by rewrite Z.eqb_refl in Hi].
    rewrite Nat.add_0_r. apply IH; try done. lia.
Qed.

Lemma starts_ok_no_exclusive run js : starts_ok input p90 now run js → js ≠ [] → ∀ r, r ∈ run → sr_exclusive r = false.
Proof.
  intros Hs Hne r Hr. destruct js as [|i js _] using rev_ind; [done|].
  apply starts_ok_prefix in Hs as [Hs (t&_&Ha)]. apply (ad_no_exclusive _ _ _ _ Ha). set_solver.
Qed.

(** A job that starts only with nothing running is the only start. *)
Lemma starts_ok_alone run js i :
  starts_ok input p90 now run js → i ∈ js →
  (∀ t run', tenant_of (in_tenants input) (qd_slot (at_ input i)) = Some t →
    admitted input (at_ input i) t run' → run' = []) →
  run = [] ∧ ∃ js', js = i :: js'.
Proof.
  intros Hs Hi Halone. apply list_elem_of_split in Hi as (l1&l2&->).
  destruct (Hs l1 i l2 eq_refl) as (t&Ht&Hf%fit_now).
  apply Halone, app_nil in Hf as [-> Hsims]; [|done]. split; [done|].
  destruct l1 as [|j l1]; [eauto|]. exfalso.
  destruct (Hs [] j (l1 ++ i :: l2) eq_refl) as (tj&Htj&_).
  unfold sims in Hsims. cbn in Hsims. by rewrite Htj in Hsims.
Qed.

Lemma starts_ok_exclusive run js i :
  starts_ok input p90 now run js → i ∈ js → qd_exclusive (at_ input i) = true → run = [] ∧ js = [i].
Proof.
  intros Hs Hi He. destruct (starts_ok_alone run js i Hs Hi) as [-> [js' ->]].
  { intros t run' _ Ha. by apply (ad_exclusive _ _ _ _ Ha). }
  split; [done|]. destruct js' as [|j js']; [done|]. exfalso.
  destruct (Hs [] i (j :: js') eq_refl) as (ti&Hti&_).
  destruct (Hs [i] j js' eq_refl) as (tj&_&Ha%fit_now).
  assert (sr_exclusive (sim_started input p90 now (at_ input i) ti) = false) as Hx.
  { apply (ad_no_exclusive _ _ _ _ Ha). unfold sims. cbn. rewrite Hti. set_solver. }
  cbn in Hx. congruence.
Qed.

Lemma starts_ok_isolated run js l1 i l2 r :
  starts_ok input p90 now run js → js = l1 ++ i :: l2 → r ∈ run ++ sims input p90 now l1 →
  isolation_blocks (cf_one_uid (in_cfg input)) (qd_slot (at_ input i)) (qd_workspace_id (at_ input i))
    (qd_secret (at_ input i)) [(sr_slot r, sr_ws r, sr_secret r)] = false.
Proof. intros Hs Hjs Hr. destruct (Hs l1 i l2 Hjs) as (t&_&Ha%fit_now). by apply (ad_isolated _ _ _ _ Ha). Qed.
End admitted.

(** ** The decision *)

Lemma sublist_filter {A} (f : A → bool) (js l : list A) :
  js `sublist_of` l → NoDup l → (∀ i, i ∈ l → f i = true ↔ i ∈ js) → List.filter f l = js.
Proof.
  induction 1 as [|x js l Hs IH|x js l Hs IH]; intros Hnd Hf; cbn; [done|..];
    apply NoDup_cons in Hnd as [Hx Hnd].
  - rewrite (proj2 (Hf x ltac:(set_solver))) by set_solver. f_equal. apply IH; [done|].
    intros i Hi. rewrite Hf by set_solver. rewrite elem_of_cons.
    split; [intros [->|?]; [done|done]|by right].
  - destruct (f x) eqn:Hfx.
    + destruct Hx. eapply elem_of_sublist; [|done]. apply Hf; [set_solver|done].
    + apply IH; [done|]. intros i Hi. apply Hf. set_solver.
Qed.

Section decide.
Context (input : Input) (fast slow : Sim) (total : Z).

Definition starts_now (i : nat) : bool := bool_decide (sm_start_at fast !!! i = Some 0).

Lemma decide_fold ord k start info rot :
  NoDup ord → (∀ i, i ∈ ord → (i < length info)%nat) →
  let '(start', info', rot') := fold_left (decide_step input fast slow total)
    (zip (seq k (length ord)) ord) (start, info, rot) in
  start' = start ++ List.filter starts_now ord
  ∧ length info' = length info
  ∧ (∀ pos i, ord !! pos = Some i → info' !!! i = info_of input fast slow total (Z.of_nat (k + pos)) i)
  ∧ (∀ i, i ∉ ord → info' !!! i = info !!! i)
  ∧ rot' = fold_left (λ r i, served r (at_ input i) (start_line input (at_ input i)))
      (List.filter starts_now ord) rot.
Proof.
  revert k start info rot. induction ord as [|i ord IH]; intros k start info rot Hnd Hlen; cbn -[decide_step].
  { rewrite app_nil_r. split_and!; try done. }
  apply NoDup_cons in Hnd as [Hi Hnd].
  set (inf := info_of input fast slow total (Z.of_nat k) i).
  assert (if_starts_now inf = starts_now i) as Hnow by done.
  unfold decide_step at 2. fold inf. rewrite Hnow.
  specialize (IH (S k) (if starts_now i then start ++ [i] else start) (<[i := inf]> info)
    (if starts_now i then served rot (at_ input i) (start_line input (at_ input i)) else rot) Hnd).
  destruct (fold_left _ _ _) as [[start' info'] rot'].
  destruct IH as (->&Hl&Hinfo&Hother&->); [intros j Hj; rewrite length_insert; apply Hlen; set_solver|].
  rewrite length_insert in Hl. split_and!; [|done|..].
  - destruct (starts_now i); [by rewrite <- app_assoc|done].
  - intros [|pos] j; cbn.
    + intros [= ->]. rewrite Hother by done. rewrite Nat.add_0_r.
      rewrite list_lookup_total_insert_eq; [done|]. apply Hlen. set_solver.
    + intros Hj. rewrite (Hinfo pos j Hj). do 2 f_equal. lia.
  - intros j Hj. rewrite Hother by set_solver. rewrite list_lookup_total_insert_ne; [done|set_solver].
  - by destruct (starts_now i).
Qed.
End decide.

(** What the inputs of a snapshot keep: known run times are positive (the
    adapter floors them), sizes fit their types. *)
Record input_ok (input : Input) : Prop := {
  io_clock : clock_ok input;
  io_est : est_ok input;
  io_left : ∀ r x, r ∈ in_running input → rn_left_p50 r = Some x → 0 < x;
  io_jobs : Z.of_nat (length (in_running input) + length (in_queued input)) < 2 ^ 32;
  io_run_cpu : 0 ≤ sum_z rn_cpu_millis (in_running input) < 2 ^ 64;
  io_run_mem : 0 ≤ sum_z rn_mem_bytes (in_running input) < 2 ^ 64;
  io_cpu : ∀ i, 0 ≤ cpu_of input (at_ input i);
  io_mem : ∀ i, 0 ≤ mem_of input (at_ input i);
  io_caps : cp_cpu_millis (in_caps input) < u64_max ∧ cp_mem_bytes (in_caps input) < u64_max;
}.

Lemma ends_after_running input : input_ok input → ends_after 0 (sim_running false <$> in_running input).
Proof. intros H r x (q&->&Hq)%list_elem_of_fmap. cbn. by apply (io_left _ H). Qed.

(** The decision, in terms of the order and the two simulations. *)
Record decided (input : Input) (d : Decision) (fast slow : Sim) : Prop := {
  de_order : order input = Some (dc_order d);
  de_perm : dc_order d ≡ₚ seq 0 (length (in_queued input));
  de_sim : sim_ok input false (dc_order d) (dc_start d) fast;
  de_length : length (dc_info d) = length (in_queued input);
  de_info : ∀ pos i, dc_order d !! pos = Some i →
    dc_info d !!! i = info_of input fast slow (u32 (Z.of_nat (length (in_queued input)))) (Z.of_nat pos) i;
  de_rotation : dc_rotation d = fold_left (λ r i, served r (at_ input i) (start_line input (at_ input i)))
    (dc_start d) (in_rotation input);
}.

Lemma queue_decide_spec input :
  input_ok input → ∃ d fast slow, queue_decide input = Some d ∧ decided input d fast slow.
Proof.
  intros Hok. destruct (order_spec input (io_clock _ Hok)) as (el&aw&Hord&Hel&Haw&_).
  set (ord := el ++ aw) in *.
  assert (ord ≡ₚ seq 0 (length (in_queued input))) as Hperm.
  { unfold ord. rewrite Hel, Haw. apply filter_Permutation_split. }
  assert (NoDup ord) as Hnd by (rewrite Hperm; apply NoDup_seq).
  assert (∀ i, i ∈ ord → (i < length (in_queued input))%nat) as Hn.
  { intros i. rewrite Hperm, elem_of_seq. lia. }
  destruct (simulate_spec input ord false Hnd Hn (io_est _ Hok) (ends_after_running _ Hok)) as (fast&js&Hfast&Hsim).
  destruct (simulate_some input ord true Hnd Hn) as [slow Hslow].
  unfold queue_decide. rewrite Hord. cbn. rewrite Hfast. cbn. rewrite Hslow. cbn.
  unfold enumerate. rewrite (Permutation_length Hperm), length_seq.
  pose proof (decide_fold input fast slow (u32 (Z.of_nat (length (in_queued input)))) ord 0 []
    (replicate (length (in_queued input)) (mk_Info 0 0 false None None None)) (in_rotation input) Hnd) as Hfold.
  rewrite length_replicate in Hfold. specialize (Hfold Hn).
  rewrite (Permutation_length Hperm), length_seq in Hfold.
  destruct (fold_left _ _ _) as [[start info] rot]. destruct Hfold as (Hstart&Hlen&Hinfo&_&Hrot).
  cbn in Hstart. assert (List.filter (starts_now fast) ord = js) as Hjs.
  { apply sublist_filter; [|done|].
    - etrans; [apply (so_sub _ _ _ _ _ Hsim)|]. clear. induction ord as [|x l IH]; cbn; [done|].
      destruct (in_queue input x); [by apply sublist_skip|by apply sublist_cons].
    - intros i Hi. unfold starts_now. rewrite bool_decide_eq_true. split.
      + intros Hz. destruct (decide (i ∈ js)); [done|].
        by destruct (so_later _ _ _ _ _ Hsim i Hi) as [? _].
      + intros Hij. by apply (so_now _ _ _ _ _ Hsim). }
  eexists (mk_Decision ord start info rot), fast, slow. split; [done|].
  rewrite Hjs in *. subst start. constructor; try done; by cbn.
Qed.

Lemma queue_decide_decided input d :
  input_ok input → queue_decide input = Some d → ∃ fast slow, decided input d fast slow.
Proof.
  intros Hok Hd. destruct (queue_decide_spec input Hok) as (d'&fast&slow&Hd'&?). simplify_eq. eauto.
Qed.

Lemma started_in_el input d fast slow i :
  decided input d fast slow → i ∈ dc_start d → i ∈ dc_order d ∧ is_pending input i = true.
Proof.
  intros Hd Hi.
  assert (i ∈ List.filter (in_queue input) (dc_order d)) as Hf.
  { eapply elem_of_sublist; [done|]. apply (so_sub _ _ _ _ _ (de_sim _ _ _ _ Hd)). }
  apply elem_of_filter_bool in Hf as [Ho Hq]. split; [done|]. revert Hq.
  unfold in_queue, out_of_queue, is_pending. rewrite bool_decide_eq_true.
  destruct (tenant_of _ _); [|done]. by destruct (qd_eligible _).
Qed.

Lemma info_of_blocked input fast slow total pos i :
  let b := if_blocked_by (info_of input fast slow total pos i) in
  (sm_start_at fast !!! i = Some 0 → b = sm_blocked fast !!! i)
  ∧ (sm_start_at fast !!! i ≠ Some 0 →
      (b = sm_blocked fast !!! i ∧ b ≠ None)
      ∨ (sm_blocked fast !!! i = None ∧ (b = Some blocked_OVER_QUOTA ∨ b = sm_why_now fast !!! i))).
Proof.
  unfold info_of. cbn. split; intros H.
  - rewrite (bool_decide_eq_true_2 _ H). by rewrite !andb_false_r.
  - rewrite (bool_decide_eq_false_2 _ H). cbn. destruct (sm_blocked fast !!! i) as [b|]; cbn.
    + by left.
    + right. split; [done|].
      destruct (match tenant_of _ _ with Some t => over_quota t | None => false end); cbn; auto.
Qed.

(** ** Views *)

Lemma fold_push {A} (P : nat → QueueEntry → Prop) (f : list QueueEntry → A → list QueueEntry) l acc :
  (∀ acc x, ∃ e, f acc x = acc ++ [e] ∧ P (length acc) e) →
  (∀ k e, acc !! k = Some e → P k e) →
  length (fold_left f l acc) = (length acc + length l)%nat
  ∧ ∀ k e, fold_left f l acc !! k = Some e → P k e.
Proof.
  intros Hf. revert acc. induction l as [|x l IH]; intros acc Hacc; cbn; [by rewrite Nat.add_0_r|].
  destruct (Hf acc x) as (e&->&He). destruct (IH (acc ++ [e])) as [Hl Hall].
  - intros k e' Hk. apply lookup_app_Some in Hk as [Hk|[Hk Hk']]; [eauto|].
    apply list_lookup_singleton_Some in Hk' as [Hk0 <-].
    replace k with (length acc) by lia. done.
  - split; [|done]. rewrite Hl, length_app. cbn. lia.
Qed.

(** What an entry of another server may show: never who sent it, ETAs only
    rounded, and its label and wait reason to the owner alone. *)
Record other_entry (viewer : Viewer) (e : QueueEntry) : Prop := {
  oe_job : qe_job_id e = None;
  oe_generation : qe_generation e = None;
  oe_workspace : qe_workspace_id e = None;
  oe_session : qe_session_id e = None;
  oe_label : vw_owner viewer = false → qe_server_label e = None;
  oe_blocked : vw_owner viewer = false → qe_blocked_by e = None;
  oe_eta : ∀ x, qe_eta_secs e = Some x → ∃ y, x = round_eta y;
  oe_eta_p90 : ∀ x, qe_eta_p90_secs e = Some x → ∃ y, x = round_eta y;
}.

Definition entry_shown (viewer : Viewer) (k : nat) (e : QueueEntry) : Prop :=
  qe_pos e = u32 (Z.of_nat k + 1) ∧ (qe_mine e = false → other_entry viewer e).

Lemma push_entry_shown viewer acc slot e id :
  qe_job_id e = None → qe_generation e = None → qe_workspace_id e = None → qe_session_id e = None →
  qe_server_label e = None → qe_mine e = (slot =? vw_slot viewer) →
  ∃ e', push_entry viewer acc (slot =? vw_slot viewer) slot e id = acc ++ [e'] ∧ entry_shown viewer (length acc) e'.
Proof.
  intros Hj Hg Hw Hs Hl Hm. unfold push_entry. destruct id as [[[job gen] ws] session].
  eexists. split; [done|]. unfold entry_shown.
  destruct (slot =? vw_slot viewer); cbn; (split; [done|]); [congruence|].
  intros _. constructor; cbn; try done.
  - intros ->. done.
  - intros ->. done.
  - intros x (y&_&->)%fmap_Some. eauto.
  - intros x (y&_&->)%fmap_Some. eauto.
Qed.

(** A job of another server with everything but class, tier, size and server
    blanked. *)
Definition hide_running (slot : Z) (r : Running) : Running :=
  if rn_slot r =? slot then r else
  mk_Running (rn_slot r) "" 0 "" None (rn_class r) (rn_tier r) (rn_cpu_millis r) (rn_mem_bytes r) false
    (rn_left_p50 r) (rn_left_p90 r) false None.
Definition hide_queued (slot : Z) (q : Queued) : Queued :=
  if qd_slot q =? slot then q else
  mk_Queued (qd_slot q) "" 0 "" None (qd_class q) (qd_tier q) (qd_cpu_millis q) (qd_mem_bytes q) false
    0 0 None None None false false None None.
Definition hide_others (slot : Z) (input : Input) : Input := {|
  in_now := in_now input;
  in_cfg := in_cfg input;
  in_caps := in_caps input;
  in_tenants := in_tenants input;
  in_running := hide_running slot <$> in_running input;
  in_queued := hide_queued slot <$> in_queued input;
  in_rotation := in_rotation input;
|}.

Lemma hide_running_slot slot r : rn_slot (hide_running slot r) = rn_slot r.
Proof. unfold hide_running. by case_match. Qed.
Lemma hide_queued_slot slot q : qd_slot (hide_queued slot q) = qd_slot q.
Proof. unfold hide_queued. by case_match. Qed.

Lemma hide_running_push input viewer acc r :
  push_running (hide_others (vw_slot viewer) input) viewer acc (hide_running (vw_slot viewer) r)
  = push_running input viewer acc r.
Proof.
  unfold push_running. rewrite hide_running_slot. unfold hide_running.
  by destruct (rn_slot r =? vw_slot viewer).
Qed.

Lemma hide_queued_push input d viewer acc i :
  (i < length (in_queued input))%nat →
  push_queued (hide_others (vw_slot viewer) input) d viewer acc i = push_queued input d viewer acc i.
Proof.
  intros Hi. assert (at_ (hide_others (vw_slot viewer) input) i = hide_queued (vw_slot viewer) (at_ input i)) as E.
  { unfold at_. cbn. by apply (list_lookup_total_fmap (hide_queued (vw_slot viewer))). }
  unfold push_queued. rewrite E, hide_queued_slot. unfold hide_queued.
  destruct (qd_slot (at_ input i) =? vw_slot viewer); done.
Qed.

Lemma filter_fmap_length {A B} (f : A → B) (p : B → bool) (q : A → bool) l :
  (∀ x, p (f x) = q x) → length (List.filter p (f <$> l)) = length (List.filter q l).
Proof. intros H. induction l as [|x l IH]; cbn; [done|]. rewrite H. destruct (q x); cbn; by rewrite IH. Qed.

(** ** Properties *)

(** The whole decision for a sane snapshot is always produced, lists every
    queued job once, gives every job its 1-based position out of the number
    of queued jobs, and says why exactly of the jobs that don't start now:
    the wait reason is absent precisely for the starts. *)
Theorem queue_decide_infos (input : Input) :
  input_ok input →
  ∃ d, queue_decide input = Some d
    ∧ dc_order d ≡ₚ seq 0 (length (in_queued input))
    ∧ dc_start d `sublist_of` dc_order d
    ∧ ∀ pos i, dc_order d !! pos = Some i →
        if_pos (dc_info d !!! i) = Z.of_nat pos + 1
        ∧ if_of (dc_info d !!! i) = Z.of_nat (length (in_queued input))
        ∧ (if_starts_now (dc_info d !!! i) = true ↔ i ∈ dc_start d)
        ∧ (if_blocked_by (dc_info d !!! i) = None ↔ i ∈ dc_start d).
Proof.
  intros Hok. destruct (queue_decide_spec input Hok) as (d&fast&slow&Hd&Hdec).
  pose proof (de_sim _ _ _ _ Hdec) as Hsim. pose proof (io_jobs _ Hok) as Hlen.
  exists d. split_and!; [done|by eapply de_perm| |].
  { etrans; [apply (so_sub _ _ _ _ _ Hsim)|]. generalize (dc_order d). intros l.
    induction l as [|x l IH]; cbn; [done|].
    destruct (in_queue input x); [by apply sublist_skip|by apply sublist_cons]. }
  intros pos i Hpos.
  assert (pos < length (in_queued input))%nat as Hp.
  { apply lookup_lt_Some in Hpos. by rewrite (Permutation_length (de_perm _ _ _ _ Hdec)), length_seq in Hpos. }
  assert (i ∈ dc_order d) as Hi by (by eapply list_elem_of_lookup_2).
  rewrite (de_info _ _ _ _ Hdec pos i Hpos).
  destruct (info_of_blocked input fast slow (u32 (Z.of_nat (length (in_queued input)))) (Z.of_nat pos) i) as [Hb1 Hb2].
  cbn -[info_of] in *. split_and!.
  - cbn. rewrite u32_small; lia.
  - cbn. rewrite u32_small; lia.
  - cbn. rewrite bool_decide_eq_true. split; [|apply (so_now _ _ _ _ _ Hsim)].
    intros Hz. destruct (decide (i ∈ dc_start d)); [done|]. by destruct (so_later _ _ _ _ _ Hsim i Hi).
  - split.
    + intros Hn. destruct (decide (i ∈ dc_start d)) as [|Hns]; [done|]. exfalso.
      destruct (so_later _ _ _ _ _ Hsim i Hi Hns) as [Hz Hw].
      destruct (Hb2 Hz) as [[_ ?]|[Hbl [E|E]]]; [done|congruence|]. rewrite Hn in E.
      destruct Hw as [Hw|Hw]; by apply Hw.
    + intros Hs. destruct (so_now _ _ _ _ _ Hsim i Hs) as [Hz Hbl]. by rewrite Hb1.
Qed.

Lemma starts_fit_u32 input d :
  input_ok input → queue_decide input = Some d →
  Z.of_nat (length (in_running input) + length (dc_start d)) < 2 ^ 32.
Proof.
  intros Hok Hd. destruct (queue_decide_decided input d Hok Hd) as (fast&slow&Hdec). pose proof (io_jobs _ Hok).
  assert (length (dc_start d) ≤ length (in_queued input))%nat; [|lia].
  rewrite <- (length_seq (length (in_queued input)) 0), <- (Permutation_length (de_perm _ _ _ _ Hdec)).
  etrans; [apply sublist_length, (so_sub _ _ _ _ _ (de_sim _ _ _ _ Hdec))|apply List.filter_length_le].
Qed.

(** What starts was in the queue: of a known server, eligible, and nothing
    blocks it. *)
Lemma starts_in_queue input d :
  input_ok input → queue_decide input = Some d →
  NoDup (dc_start d) ∧ ∀ i, i ∈ dc_start d → (i < length (in_queued input))%nat ∧ out_of_queue input (at_ input i) = None.
Proof.
  intros Hok Hd. destruct (queue_decide_decided input d Hok Hd) as (fast&slow&Hdec).
  pose proof (so_sub _ _ _ _ _ (de_sim _ _ _ _ Hdec)) as Hsub.
  assert (NoDup (dc_order d)) as Hnd by (rewrite (de_perm _ _ _ _ Hdec); apply NoDup_seq). split.
  - refine (sublist_NoDup _ _ _ Hsub). by apply NoDup_ListNoDup, List.NoDup_filter, NoDup_ListNoDup.
  - intros i Hi. apply (elem_of_sublist _ _ _ Hi) in Hsub as Hi'.
    apply list_elem_of_In, filter_In in Hi' as [Ho Hq]. apply list_elem_of_In in Ho.
    rewrite (de_perm _ _ _ _ Hdec), elem_of_seq in Ho. split; [lia|].
    by apply bool_decide_eq_true in Hq.
Qed.

(** They fit beside what runs. *)
Lemma starts_capacity input d :
  input_ok input → queue_decide input = Some d → dc_start d ≠ [] →
  Z.of_nat (length (in_running input) + length (dc_start d)) ≤ cp_parallel_max (in_caps input)
  ∧ sum_z rn_cpu_millis (in_running input) + sum_z (λ i, cpu_of input (at_ input i)) (dc_start d)
      ≤ cp_cpu_millis (in_caps input)
  ∧ sum_z rn_mem_bytes (in_running input) + sum_z (λ i, mem_of input (at_ input i)) (dc_start d)
      ≤ cp_mem_bytes (in_caps input).
Proof.
  intros Hok Hd Hne. destruct (queue_decide_decided input d Hok Hd) as (fast&slow&Hdec).
  pose proof (so_starts _ _ _ _ _ (de_sim _ _ _ _ Hdec)) as Hs.
  set (run := sim_running false <$> in_running input) in *.
  assert (length run = length (in_running input)) as Hrl by apply length_fmap.
  assert (Z.of_nat (length run + length (dc_start d)) < 2 ^ 32) as Hlen by (rewrite Hrl; by apply starts_fit_u32).
  destruct (io_caps _ Hok) as [Hcc Hcm]. split_and!.
  - rewrite <- Hrl. by eapply starts_ok_parallel.
  - assert (sum_z rn_cpu_millis (in_running input) = sum_z sr_cpu run) as -> by (unfold run; by rewrite sum_z_fmap).
    eapply starts_ok_sum; try done; [by intros ?? ? Ha; apply (ad_cpu _ _ _ _ Ha)| |apply (io_cpu _ Hok)].
    unfold run. rewrite sum_z_fmap. apply (io_run_cpu _ Hok).
  - assert (sum_z rn_mem_bytes (in_running input) = sum_z sr_mem run) as -> by (unfold run; by rewrite sum_z_fmap).
    eapply starts_ok_sum; try done; [by intros ?? ? Ha; apply (ad_mem _ _ _ _ Ha)| |apply (io_mem _ Hok)].
    unfold run. rewrite sum_z_fmap. apply (io_run_mem _ Hok).
Qed.

(** (C1) The starts never overload the node: together with what runs they stay
    within its parallel slots, CPU and memory and within each server's
    running limit; nothing starts beside an exclusive job and an exclusive
    job starts alone on an idle node; and no secret job is placed beside
    another workspace's job under the same uid, nor a job beside such a
    secret job. *)
Theorem queue_starts_safe (input : Input) (d : Decision) :
  input_ok input → queue_decide input = Some d → dc_start d ≠ [] →
  Z.of_nat (length (in_running input) + length (dc_start d)) ≤ cp_parallel_max (in_caps input)
  ∧ sum_z rn_cpu_millis (in_running input) + sum_z (λ i, cpu_of input (at_ input i)) (dc_start d)
      ≤ cp_cpu_millis (in_caps input)
  ∧ sum_z rn_mem_bytes (in_running input) + sum_z (λ i, mem_of input (at_ input i)) (dc_start d)
      ≤ cp_mem_bytes (in_caps input)
  ∧ (∀ i t, i ∈ dc_start d → tenant_of (in_tenants input) (qd_slot (at_ input i)) = Some t →
      Z.of_nat (length (List.filter (λ r, rn_slot r =? qd_slot (at_ input i)) (in_running input))
        + length (List.filter (λ j, qd_slot (at_ input j) =? qd_slot (at_ input i)) (dc_start d)))
        ≤ sl_max_running (tn_limits t))
  ∧ (∀ r, r ∈ in_running input → rn_exclusive r = false)
  ∧ (∀ i, i ∈ dc_start d → qd_exclusive (at_ input i) = true → in_running input = [] ∧ dc_start d = [i])
  ∧ (∀ i r, i ∈ dc_start d → r ∈ in_running input →
      isolation_blocks (cf_one_uid (in_cfg input)) (qd_slot (at_ input i)) (qd_workspace_id (at_ input i))
        (qd_secret (at_ input i)) [(rn_slot r, rn_workspace_id r, rn_secret r)] = false)
  ∧ (∀ l1 i l2 j, dc_start d = l1 ++ i :: l2 → j ∈ l1 →
      isolation_blocks (cf_one_uid (in_cfg input)) (qd_slot (at_ input i)) (qd_workspace_id (at_ input i))
        (qd_secret (at_ input i)) [(qd_slot (at_ input j), qd_workspace_id (at_ input j), qd_secret (at_ input j))] = false).
Proof.
  intros Hok Hd Hne. destruct (starts_capacity input d Hok Hd Hne) as (Hpar&Hcpu&Hmem).
  destruct (queue_decide_decided input d Hok Hd) as (fast&slow&Hdec).
  pose proof (so_starts _ _ _ _ _ (de_sim _ _ _ _ Hdec)) as Hs.
  set (run := sim_running false <$> in_running input) in *.
  assert (length run = length (in_running input)) as Hrl by apply length_fmap.
  assert (Z.of_nat (length run + length (dc_start d)) < 2 ^ 32) as Hlen by (rewrite Hrl; by apply starts_fit_u32).
  split_and!; [done..| | | | |].
  - intros i t Hi Ht. pose proof (starts_ok_server _ _ _ _ _ _ _ Hs Hi Ht Hlen) as H.
    assert (length (List.filter (λ r, sr_slot r =? qd_slot (at_ input i)) run)
      = length (List.filter (λ r, rn_slot r =? qd_slot (at_ input i)) (in_running input))) as <-; [|done].
    unfold run. clear. induction (in_running input) as [|r l IH]; cbn; [done|].
    destruct (_ =? _); cbn; by rewrite IH.
  - intros r Hr. apply (starts_ok_no_exclusive _ _ _ _ _ Hs Hne (sim_running false r)).
    by apply list_elem_of_fmap_2.
  - intros i Hi He. destruct (starts_ok_exclusive _ _ _ _ _ _ Hs Hi He) as [Hr ->]. split; [|done].
    by apply fmap_nil_inv in Hr.
  - intros i r Hi Hr. apply list_elem_of_split in Hi as (l1&l2&Hl).
    apply (starts_ok_isolated _ _ _ _ _ _ _ _ (sim_running false r) Hs Hl).
    apply elem_of_app. left. by apply list_elem_of_fmap_2.
  - intros l1 i l2 j Hl Hj.
    assert (starts_ok input false 0 run l1) as Hs1.
    { intros m1 k m2 ->. apply (Hs m1 k (m2 ++ i :: l2)). by rewrite Hl, <- app_assoc. }
    destruct (sims_elem_2 _ _ _ _ _ _ Hs1 Hj) as (t&Ht).
    apply (starts_ok_isolated _ _ _ _ _ _ _ _ (sim_started input false 0 (at_ input j) t) Hs Hl).
    apply elem_of_app. by right.
Qed.

(** (C30) The capacity hold: when a job starts past a CI or Priority job that
    doesn't, that one isn't waiting for room.  Its server is gone, offline or
    blocked, or the node is; or, beside what runs and what starts before it,
    it has a reason of its own: it is larger than the node, or its server,
    workspace or submitter already runs as many jobs as it may.  So a CI or
    Priority job waiting for room, over its quota or not, is never
    overtaken. *)
Theorem queue_hold (input : Input) (d : Decision) l1 i l2 j :
  input_ok input → queue_decide input = Some d →
  dc_order d = l1 ++ j :: l2 → j ∈ dc_start d → i ∈ l1 → i ∉ dc_start d →
  holds_line input i = true →
  is_Some (out_of_queue input (at_ input i))
  ∨ own_at input false 0 (sim_running false <$> in_running input) (dc_order d) (dc_start d) i.
Proof.
  intros Hok Hd Hord Hj Hi Hni Hh. destruct (queue_decide_decided input d Hok Hd) as (fast&slow&Hdec).
  pose proof (de_sim _ _ _ _ Hdec) as Hsim.
  destruct (out_of_queue input (at_ input i)) as [c|] eqn:Hq; [left; by exists c|right].
  apply (so_before _ _ _ _ _ Hsim l1 j l2 Hord Hj i Hi Hni); [by apply bool_decide_eq_true|done].
Qed.

(** A Batch job starts only on an idle node, and is then the only start. *)
Theorem queue_batch_alone (input : Input) (d : Decision) i :
  input_ok input → queue_decide input = Some d →
  i ∈ dc_start d → job_line input i = Some Line_Batch →
  in_running input = [] ∧ dc_start d = [i].
Proof.
  intros Hok Hd Hi Hline. destruct (queue_decide_decided input d Hok Hd) as (fast&slow&Hdec).
  pose proof (de_sim _ _ _ _ Hdec) as Hsim. pose proof (so_starts _ _ _ _ _ Hsim) as Hs.
  assert (Hbatch : ∀ j t run, job_line input j = Some Line_Batch →
    tenant_of (in_tenants input) (qd_slot (at_ input j)) = Some t →
    admitted input (at_ input j) t run → run = []).
  { intros j t run Hj Ht Ha. apply (ad_batch _ _ _ _ Ha). unfold job_line in Hj. rewrite Ht in Hj. by injection Hj. }
  destruct (starts_ok_alone _ _ _ _ _ i Hs Hi) as [Hrun [js Hjs]]; [eauto|].
  split; [by apply fmap_nil_inv in Hrun|]. rewrite Hjs. destruct js as [|j js]; [done|]. exfalso.
  assert (job_line input j = Some Line_Batch) as Hj.
  { destruct (order_spec input (io_clock _ Hok)) as (el&aw&Hord&Hel&Haw&Hok'&_).
    assert (dc_order d = el ++ aw) as Ho by (pose proof (de_order _ _ _ _ Hdec); congruence).
    assert (sublist [i; j] (dc_order d)) as Hsub.
    { etrans; [|etrans; [apply (so_sub _ _ _ _ _ Hsim)|]].
      - rewrite Hjs. do 2 apply sublist_skip. apply sublist_nil_l.
      - generalize (dc_order d). intros l. induction l as [|x l IH]; cbn; [done|].
        destruct (in_queue input x); [by apply sublist_skip|by apply sublist_cons]. }
    rewrite Ho in Hsub. apply sublist_app_r in Hsub as (k1&k2&Hk&Hk1&Hk2).
    assert (∀ k, k ∈ [i; j] → k ∉ aw) as Hnaw.
    { intros k Hk' Hkaw. rewrite Haw in Hkaw. apply elem_of_filter_bool in Hkaw as [_ Hkp].
      destruct (started_in_el _ _ _ _ k Hdec) as [_ Hp]; [rewrite Hjs; set_solver|]. by rewrite Hp in Hkp. }
    destruct k2 as [|k k2].
    2:{ destruct (Hnaw k); [rewrite Hk; set_solver|]. eapply elem_of_sublist; [|exact Hk2]. set_solver. }
    rewrite app_nil_r in Hk. subst k1. apply sublist_cons_l in Hk1 as (m1&m2&->&Hm).
    eapply (order_ok_pair _ _ _ _ _ _ Hok'); [|done]. eapply elem_of_sublist; [|exact Hm]. set_solver. }
  destruct (starts_ok_alone _ _ _ _ _ j Hs) as [_ [js' Hjs']]; [rewrite Hjs; set_solver|eauto|].
  rewrite Hjs in Hjs'. injection Hjs' as -> _.
  destruct (order_spec input (io_clock _ Hok)) as (el&aw&Hord&Hel&Haw&_&_).
  assert (NoDup (dc_start d)) as Hnd.
  { eapply sublist_NoDup; [|apply (so_sub _ _ _ _ _ Hsim)]. apply NoDup_filter_bool.
    rewrite (de_perm _ _ _ _ Hdec). apply NoDup_seq. }
  rewrite Hjs in Hnd. apply NoDup_cons in Hnd as [Hnd _]. apply Hnd. set_solver.
Qed.

(** What a server sees of the queue: one entry per running and queued job,
    numbered in order, and an entry of another server never says which job,
    workspace or session it is, shows only rounded ETAs, and shows its
    server's label and wait reason to the owner alone; only the owner gets
    totals. *)
Theorem view_privacy (input : Input) (d : Decision) (viewer : Viewer) (request_id : string) :
  let v := view input d viewer request_id in
  length (qv_entries v) = (length (in_running input) + length (dc_order d))%nat
  ∧ (∀ k e, qv_entries v !! k = Some e →
       qe_pos e = u32 (Z.of_nat k + 1) ∧ (qe_mine e = false → other_entry viewer e))
  ∧ (vw_owner viewer = false → qv_totals v = []).
Proof.
  cbn.
  destruct (fold_push (entry_shown viewer) (push_running input viewer) (in_running input) []) as [Hl1 H1].
  { intros acc r. by apply push_entry_shown. }
  { done. }
  destruct (fold_push (entry_shown viewer) (push_queued input d viewer) (dc_order d)
    (fold_left (push_running input viewer) (in_running input) [])) as [Hl2 H2]; [|done|].
  { intros acc i. by apply push_entry_shown. }
  split_and!; [by rewrite Hl2, Hl1|done|]. by intros ->.
Qed.

(** The view is independent of every other server's identifying data: blank
    the job, workspace, session, submitter, secrecy, estimates and arrival of
    every job the viewer doesn't own, and it sees the same queue. *)
Theorem view_noninterference (input : Input) (d : Decision) (viewer : Viewer) (request_id : string) :
  (∀ i, i ∈ dc_order d → (i < length (in_queued input))%nat) →
  view (hide_others (vw_slot viewer) input) d viewer request_id = view input d viewer request_id.
Proof.
  intros Hn. unfold view. f_equal.
  - cbn [in_running hide_others].
    assert (fold_left (push_running (hide_others (vw_slot viewer) input) viewer)
      (hide_running (vw_slot viewer) <$> in_running input) []
      = fold_left (push_running input viewer) (in_running input) []) as ->.
    { generalize (@nil QueueEntry). induction (in_running input) as [|r l IH]; intros acc; [done|].
      rewrite fmap_cons. cbn [fold_left]. by rewrite hide_running_push, IH. }
    revert Hn. generalize (fold_left (push_running input viewer) (in_running input) []).
    induction (dc_order d) as [|i l IH]; intros acc Hn; cbn [fold_left]; [done|].
    rewrite hide_queued_push by (apply Hn; set_solver). apply IH. set_solver.
  - cbn. case_match; [|done]. apply list_fmap_ext. intros _ t _. unfold totals_of, count_u32. cbn. f_equal.
    + do 2 f_equal. apply filter_fmap_length. intros r. by rewrite hide_running_slot.
    + do 2 f_equal. apply filter_fmap_length. intros q. by rewrite hide_queued_slot.
Qed.

(** ** Concrete snapshots *)

Lemma at_forall input (P : Queued → Prop) :
  Forall P (in_queued input) → P inhabitant → ∀ i, P (at_ input i).
Proof.
  intros Hall Hd i. unfold at_. rewrite list_lookup_total_alt.
  destruct (in_queued input !! i) as [q|] eqn:Hq; [|done]. by eapply (Forall_lookup_1 _ _ _ _ Hall).
Qed.

(** [input_ok], decided. *)
Definition z_in (lo hi x : Z) : bool := (lo <=? x) && (x <? hi).
Definition est_okb (q : Queued) : bool :=
  (if qd_est_p50 q is Some d then z_in 0 (2 ^ 64) d else true)
  && (if qd_est_p90 q is Some d then z_in 0 (2 ^ 64) d else true).
Definition input_okb (input : Input) : bool :=
  let jobs := inhabitant :: in_queued input in
  forallb (λ q, z_in i64_min (i64_max + 1) (in_now input - qd_enqueued_at q)) jobs
  && forallb est_okb jobs
  && forallb (λ r, if rn_left_p50 r is Some x then 0 <? x else true) (in_running input)
  && (Z.of_nat (length (in_running input) + length (in_queued input)) <? 2 ^ 32)
  && z_in 0 (2 ^ 64) (sum_z rn_cpu_millis (in_running input))
  && z_in 0 (2 ^ 64) (sum_z rn_mem_bytes (in_running input))
  && forallb (λ q, 0 <=? cpu_of input q) jobs && forallb (λ q, 0 <=? mem_of input q) jobs
  && (cp_cpu_millis (in_caps input) <? u64_max) && (cp_mem_bytes (in_caps input) <? u64_max).

Lemma at_forallb input (p : Queued → bool) i :
  forallb p (inhabitant :: in_queued input) = true → p (at_ input i) = true.
Proof.
  cbn. intros [Hd Hall]%andb_true_iff. apply (at_forall input (λ q, p q = true)); [|done].
  apply Forall_forall. by apply forallb_true.
Qed.

Lemma input_okb_ok input : input_okb input = true → input_ok input.
Proof.
  unfold input_okb. cbv zeta. rewrite !andb_true_iff.
  intros [[[[[[[[[Hclk Hest] Hleft] Hlen] Hrc] Hrm] Hc] Hm] Hcc] Hcm].
  unfold z_in in *. bool_props. constructor; try lia.
  - intros i. pose proof (at_forallb _ _ i Hclk) as Hq. cbn in Hq. bool_props. lia.
  - intros i d. pose proof (at_forallb _ _ i Hest) as Hq. unfold est_okb, z_in in Hq.
    intros [E|E]; rewrite E in Hq; bool_props; lia.
  - intros r x Hr Hx. rewrite forallb_true in Hleft. specialize (Hleft r Hr). rewrite Hx in Hleft. bool_props. lia.
  - intros i. pose proof (at_forallb _ _ i Hc) as Hq. cbn in Hq. bool_props. lia.
  - intros i. pose proof (at_forallb _ _ i Hm) as Hq. cbn in Hq. bool_props. lia.
Qed.

Lemma queue_decide_infos_witness :
  input_ok example_input ∧
  ∃ d, queue_decide example_input = Some d ∧ dc_start d `sublist_of` dc_order d.
Proof.
  assert (input_ok example_input) as Hok by (apply input_okb_ok; vm_compute; reflexivity).
  split; [done|]. destruct (queue_decide_infos example_input Hok) as (d&?&?&?&?). eauto.
Defined.

Definition decision_of (input : Input) : Decision :=
  default (mk_Decision [] [] [] Rotation_default) (queue_decide input).

Lemma queue_starts_safe_witness :
  dc_start (decision_of example_input) = [4; 3; 1; 5]%nat
  ∧ Z.of_nat (length (in_running example_input) + length (dc_start (decision_of example_input)))
    ≤ cp_parallel_max (in_caps example_input).
Proof.
  split; [vm_compute; reflexivity|].
  refine (proj1 (queue_starts_safe example_input (decision_of example_input) _ _ _)).
  - apply input_okb_ok. vm_compute. reflexivity.
  - vm_compute. reflexivity.
  - vm_compute. congruence.
Defined.

(** A CI job over its server's limit, and a job of another server behind it. *)
Definition example_hold : Input := {|
  in_now := 1000;
  in_cfg := Config_default;
  in_caps := example_caps;
  in_tenants := [mk_Tenant 0 (ShareLimits_owner 1 8 32 100 Network_On) 0 0 None true; example_tenant 1 true];
  in_running := [mk_Running 0 "r" 1 "w" None JobClass_Interactive Tier_Normal 1000 (2 ^ 30) false
    (Some 60) None false None];
  in_queued := [example_job 0 "ci" "w" Tier_Ci 40 2 true; example_job 1 "normal" "w" Tier_Normal 50 2 true];
  in_rotation := Rotation_default;
|}.

Lemma queue_hold_witness :
  let d := decision_of example_hold in
  dc_order d = [0; 1]%nat ∧ dc_start d = [1%nat] ∧ holds_line example_hold 0 = true
  ∧ (is_Some (out_of_queue example_hold (at_ example_hold 0))
     ∨ own_at example_hold false 0 (sim_running false <$> in_running example_hold) (dc_order d) (dc_start d) 0).
Proof.
  cbv zeta. split_and!; [vm_compute; reflexivity..|].
  refine (queue_hold example_hold (decision_of example_hold) [0%nat] 0 [] 1 _ _ _ _ _ _ _).
  - apply input_okb_ok. vm_compute. reflexivity.
  - vm_compute. reflexivity.
  - vm_compute. reflexivity.
  - change (1%nat ∈ dc_start (decision_of example_hold)). apply list_elem_of_here.
  - apply list_elem_of_here.
  - assert (dc_start (decision_of example_hold) = [1%nat]) as -> by (vm_compute; reflexivity). set_solver.
  - vm_compute. reflexivity.
Defined.

Definition example_batch : Input :=
  with_queued example_input [example_job 0 "batch" "w" Tier_Batch 10 0 true; example_job 0 "batch2" "w" Tier_Batch 20 0 true].

Lemma queue_batch_alone_witness :
  job_line example_batch 0 = Some Line_Batch
  ∧ in_running example_batch = [] ∧ dc_start (decision_of example_batch) = [0%nat].
Proof.
  split; [vm_compute; reflexivity|].
  refine (queue_batch_alone example_batch (decision_of example_batch) 0 _ _ _ _).
  - apply input_okb_ok. vm_compute. reflexivity.
  - vm_compute. reflexivity.
  - assert (dc_start (decision_of example_batch) = [0%nat]) as -> by (vm_compute; reflexivity). set_solver.
  - vm_compute. reflexivity.
Defined.

Lemma view_noninterference_witness :
  view (hide_others 1 example_input) (decision_of example_input) (mk_Viewer 1 false ∅ true true) "r"
  = view example_input (decision_of example_input) (mk_Viewer 1 false ∅ true true) "r".
Proof.
  apply (view_noninterference example_input (decision_of example_input) (mk_Viewer 1 false ∅ true true) "r").
  assert (dc_order (decision_of example_input) = [4; 3; 1; 5; 0; 2]%nat) as -> by (vm_compute; reflexivity).
  change (length (in_queued example_input)) with 6%nat. apply Forall_forall.
  repeat apply Forall_cons_2; try apply Forall_nil_2; lia.
Defined.

(** ** The bound on rounds *)

(** Thirteen jobs with known, distinct ends, and one job waiting for all of
    them. *)
Definition example_rounds : Input := {|
  in_now := 1000;
  in_cfg := Config_default;
  in_caps := mk_Caps 16000 (64 * 2 ^ 30) 16 None;
  in_tenants := [mk_Tenant 0 (ShareLimits_owner 16 16 64 100 Network_On) 0 0 None true];
  in_running := (λ k, mk_Running 0 "r" 1 "w" None JobClass_Interactive Tier_Normal 1000 (2 ^ 30) false
    (Some (60 * Z.of_nat k)) None false None) <$> seq 1 13;
  in_queued := [mk_Queued 0 "big" 1 "w" None JobClass_Interactive Tier_Normal (Some 16000) (Some (2 ^ 30))
    false 900 1 (Some 60) None None true false None None];
  in_rotation := Rotation_default;
|}.

(** [simulate] stops after [4 * q.len() + 8] rounds, and a round retires the
    jobs of one known end, so a queued job behind as many running jobs gets no ETA
    although every run time is known: here it would start after 780 s. *)
Lemma simulate_rounds_bound :
  if_eta_secs (dc_info (decision_of example_rounds) !!! 0%nat) = None
  ∧ Forall (λ r, is_Some (rn_left_p50 r)) (in_running example_rounds).
Proof.
  split; [vm_compute; reflexivity|]. repeat apply Forall_cons_2; try apply Forall_nil_2; by eexists.
Qed.
