(* ===== verification/FloatFmt.v ===== *)
(** * Binary64 values and their decimal formatting

    What the messages of the program use of [f64]: the conversion from [u64],
    division, and [{:.d}]. A binary64 value is a [spec_float] of precision 53
    and maximal exponent 1024; formatting rounds the exact value to [d]
    decimals, ties to even, as [core::fmt] does. *)

From S2P Require Import Prelude.
From Stdlib Require Import SpecFloat.
From stdpp Require Import pretty.
Open Scope Z_scope.

Definition f64_of_u64 (x : Z) : spec_float := binary_normalize 53 1024 x 0 false.
Definition f64_div (x y : spec_float) : spec_float := SFdiv 53 1024 x y.

(** [n / d] rounded to the nearest integer, ties to even ([0 < d]). *)
Definition div_half_even (n d : Z) : Z :=
  let q := n / d in
  let r := n mod d in
  match 2 * r ?= d with
  | Lt => q
  | Gt => q + 1
  | Eq => if Z.even q then q else q + 1
  end.

Definition z_dec (x : Z) : string := pretty x.

Fixpoint zeros (n : nat) : string := match n with O => "" | S n => String "0" (zeros n) end.

(** [q / 10^d] in decimal, with exactly [d] decimals. *)
Definition fixed_dec (d : nat) (q : Z) : string :=
  let p := 10 ^ Z.of_nat d in
  match d with
  | O => z_dec q
  | _ =>
    let frac := z_dec (q mod p) in
    z_dec (q / p) +:+ "." +:+ zeros (d - String.length frac) +:+ frac
  end.

(** [format!("{:.d}", x)]. *)
Definition fmt_fixed (d : nat) (x : spec_float) : string :=
  match x with
  | S754_nan => "NaN"
  | S754_infinity s => if s then "-inf" else "inf"
  | S754_zero s => (if s then "-" else "") +:+ fixed_dec d 0
  | S754_finite s m e =>
    let q := if 0 <=? e then Zpos m * 2 ^ e * 10 ^ Z.of_nat d
             else div_half_even (Zpos m * 10 ^ Z.of_nat d) (2 ^ (- e)) in
    (if s then "-" else "") +:+ fixed_dec d q
  end.

(** [b as f64 / (1u64 << 30) as f64] and [m as f64 / 1000.0]. *)
Definition f64_gb (b : Z) : spec_float := f64_div (f64_of_u64 b) (f64_of_u64 (2 ^ 30)).
Definition f64_cpus (m : Z) : spec_float := f64_div (f64_of_u64 m) (f64_of_u64 1000).

Lemma div_half_even_close n d : 0 < d → Z.abs (2 * (d * div_half_even n d - n)) ≤ d.
Proof.
  intros Hd. unfold div_half_even. pose proof (Z.div_mod n d ltac:(lia)) as E.
  pose proof (Z.mod_pos_bound n d Hd).
  destruct (Z.compare_spec (2 * (n mod d)) d); [destruct (Z.even _)|..]; lia.
Qed.

Example fmt_fixed_examples :
  fmt_fixed 1 (f64_gb (3 * 2 ^ 29)) = "1.5" ∧ fmt_fixed 2 (f64_cpus 2505) = "2.50"
  ∧ fmt_fixed 0 (f64_gb (5 * 2 ^ 29)) = "2" ∧ fmt_fixed 1 (f64_cpus 100) = "0.1".
Proof. vm_compute. done. Qed.
