(* ===== verification/SoloSched.v ===== *)
(** * The per-node fair queue of a solo node

    [crates/k2-core/src/compute/scheduler.rs]: the start order of the jobs
    queued on one node, the decision which of them to place now, and the
    choice of a node for an [--any] job. *)

From S2P Require Import Prelude Share Tiers Refusal FloatFmt.
From stdpp Require Import pretty.
Open Scope Z_scope.

(** ** Data *)

Record QueuedJob := mk_QueuedJob {
  qj_id : string;
  qj_workspace_id : string;
  qj_created_at : Z;
  qj_exclusive : bool;
  qj_cpu_millis : option Z;
  qj_mem_bytes : option Z;
  qj_disk_bytes : Z;
  qj_needs_git : bool;
  qj_tier : Tier;
  qj_submitter : option string;
}.

#[export] Instance QueuedJob_eq_dec : EqDecision QueuedJob.
Proof. solve_decision. Defined.

Definition qj_sub (j : QueuedJob) : string := default "" (qj_submitter j).

Record Load := mk_Load {
  ld_running_by_workspace : gmap string Z;
  ld_exclusive_running : bool;
  ld_running_by_submitter : gmap (string * string) Z;
}.

Record Turns := mk_Turns {
  tu_last_ws : option string;
  tu_last_submitter : gmap string string;
  tu_last_line : option Line;
}.

Definition Turns_ws (last : option string) : Turns := mk_Turns last ∅ None.

(** [Turns::note]. *)
Definition turns_note (tu : Turns) (workspace_id : string) (submitter : option string) (tier : Tier) : Turns := {|
  tu_last_ws := Some workspace_id;
  tu_last_submitter := <[workspace_id := default "" submitter]> (tu_last_submitter tu);
  tu_last_line := match Tier_line tier with
    | (Line_Priority | Line_Standard) as l => Some l
    | _ => tu_last_line tu
    end;
|}.

Definition turns_served (tu : Turns) (j : QueuedJob) : Turns :=
  turns_note tu (qj_workspace_id j) (qj_submitter j) (qj_tier j).

(** [Load::total]: a [u32] sum. *)
Definition load_total (l : Load) : Z := u32 (map_fold (λ _ n acc, n + acc) 0 (ld_running_by_workspace l)).

Record SoloDecision := mk_SoloDecision {
  sd_place : option string;
  sd_waiting : gmap string (nat * Refusal);
}.

Definition GRANT_PARALLEL_FULL : string := "grant_parallel_full".
Definition CONTROLLER_PAUSED : string := "controller_paused".
Definition EXCEEDS_NODE_CAPS : string := "exceeds_node_caps".

(** ** Caps and messages *)

Definition never_fits (offer : Offer) (job : QueuedJob) : option Refusal :=
  let caps := of_caps offer in
  let over (cap : Z) (x : option Z) : option Z :=
    a ← x; if (0 <? cap) && (cap <? a) then Some a else None in
  match over (fc_mem_bytes caps) (qj_mem_bytes job) with
  | Some m => Some (Refusal_new EXCEEDS_NODE_CAPS
      ("the job asks for " +:+ fmt_fixed 1 (f64_gb m) +:+ " GB of memory; the node allows at most "
       +:+ fmt_fixed 1 (f64_gb (fc_mem_bytes caps)) +:+ " GB"))
  | None =>
    match over (fc_cpu_millis caps) (qj_cpu_millis job) with
    | Some c => Some (Refusal_new EXCEEDS_NODE_CAPS
        ("the job asks for " +:+ fmt_fixed 2 (f64_cpus c) +:+ " CPUs; the node allows at most "
         +:+ fmt_fixed 2 (f64_cpus (fc_cpu_millis caps))))
    | None => None
    end
  end.

(** [s.strip_suffix(".0")], on the characters in reverse. *)
Definition strip_suffix_zero (s : string) : string :=
  match rev (String.list_ascii_of_string s) with
  | "0"%char :: "."%char :: r => String.string_of_list_ascii (rev r)
  | _ => s
  end.

Definition fmt_num (x : SpecFloat.spec_float) : string := strip_suffix_zero (fmt_fixed 1 x).

(** [asks.join(" and ")]. *)
Fixpoint join_and (l : list string) : string :=
  match l with
  | [] => ""
  | [a] => a
  | a :: r => a +:+ " and " +:+ join_and r
  end.

Definition with_numbers (r : Refusal) (offer : Offer) (job : QueuedJob) (running : Z) : Refusal :=
  guard negb (rf_code r =? refusal_LOCAL_RESOURCE_LIMIT)%string ret r;
  let asks := (match qj_mem_bytes job with Some m => [fmt_fixed 1 (f64_gb m) +:+ " GB"] | None => [] end)
    ++ (match qj_cpu_millis job with Some c => [fmt_num (f64_cpus c) +:+ " CPUs"] | None => [] end) in
  Refusal_new refusal_LOCAL_RESOURCE_LIMIT
    ("asks " +:+ join_and asks +:+ "; " +:+ fmt_fixed 1 (f64_gb (fr_mem_bytes (of_free offer)))
     +:+ " GB of " +:+ fmt_fixed 0 (f64_gb (fc_mem_bytes (of_caps offer)))
     +:+ " GB and " +:+ fmt_num (f64_cpus (fr_cpu_millis (of_free offer)))
     +:+ " of " +:+ fmt_num (f64_cpus (fc_cpu_millis (of_caps offer)))
     +:+ " CPUs free; " +:+ z_dec running +:+ " running").

Definition ask (j : QueuedJob) : JobAsk :=
  mk_JobAsk (qj_workspace_id j) (qj_cpu_millis j) (qj_mem_bytes j) (qj_disk_bytes j)
    (qj_exclusive j) (qj_needs_git j).

(** ** Order *)

Definition solo_aged (j : QueuedJob) (now : Z) : bool := tiers_aged (i64 (now - qj_created_at j)) AGE_SECS.

Definition fifo (a b : QueuedJob) : comparison :=
  match qj_created_at a ?= qj_created_at b with
  | Eq => String.compare (qj_id a) (qj_id b)
  | c => c
  end.
Definition fifo_le (a b : QueuedJob) : bool := if fifo a b is Gt then false else true.

(** [keys] sorted, distinct, rotated to start just after [last]. *)
Definition rotated (keys : list string) (last : option string) : list string :=
  let keys := bt_set keys in
  match last with
  | None => keys
  | Some l =>
    let start := match list_find (λ k, String.ltb l k = true) keys with Some (i, _) => i | None => 0%nat end in
    drop start keys ++ take start keys
  end.

(** One pass over the keys: pop the front of each group. *)
Definition rr_step (acc : list QueuedJob * gmap string (list QueuedJob)) (k : string)
    : list QueuedJob * gmap string (list QueuedJob) :=
  let '(popped, groups) := acc in
  match groups !! k with
  | Some (j :: r) => (popped ++ [j], <[k := r]> groups)
  | _ => (popped, groups)
  end.

(** [round_robin]: passes until one pops nothing; [None] is no fuel left. *)
Fixpoint round_robin (fuel : nat) (keys : list string) (groups : gmap string (list QueuedJob))
    (out : list QueuedJob) : option (list QueuedJob) :=
  match fuel with
  | O => None
  | S fuel =>
    let '(popped, groups) := fold_left rr_step keys ([], groups) in
    match popped with
    | [] => Some out
    | _ => round_robin fuel keys groups (out ++ popped)
    end
  end.

(** [by_sub.entry(key(j)).or_default().push_back(j)] over a sequence. *)
Definition group_by (key : QueuedJob → string) (jobs : list QueuedJob) : gmap string (list QueuedJob) :=
  fold_left (λ m j, <[key j := default [] (m !! key j) ++ [j]]> m) jobs ∅.

(** One workspace's sequence: its submitters in turn. *)
Definition ws_order (turns : Turns) (fresh : list QueuedJob) (w : string) : option (list QueuedJob) :=
  let mine := List.filter (λ j, (qj_workspace_id j =? w)%string) fresh in
  let subs := rotated (qj_sub <$> mine) (tu_last_submitter turns !! w) in
  round_robin (S (length mine)) subs (group_by qj_sub mine) [].

(** The [for w in &wss] loop that fills [per_ws]. *)
Fixpoint per_workspace (turns : Turns) (fresh : list QueuedJob) (wss : list string)
    (per_ws : gmap string (list QueuedJob)) : option (gmap string (list QueuedJob)) :=
  match wss with
  | [] => Some per_ws
  | w :: wss =>
    seq ← ws_order turns fresh w;
    per_workspace turns fresh wss (<[w := seq]> per_ws)
  end.

Definition line_order (now : Z) (jobs : list QueuedJob) (turns : Turns) : option (list QueuedJob) :=
  let old := isort fifo_le (List.filter (λ j, solo_aged j now) jobs) in
  let fresh := isort fifo_le (List.filter (λ j, negb (solo_aged j now)) jobs) in
  let wss := rotated (qj_workspace_id <$> fresh) (tu_last_ws turns) in
  per_ws ← per_workspace turns fresh wss ∅;
  turns_in ← round_robin (S (length fresh)) wss per_ws [];
  Some (old ++ turns_in).

Definition other_line (next : Line) : Line :=
  if bool_decide (next = Line_Priority) then Line_Standard else Line_Priority.

(** The [while !pri.is_empty() || !std.is_empty()] loop. *)
Fixpoint alternate (fuel : nat) (next : Line) (pri std out : list QueuedJob) : option (list QueuedJob) :=
  match pri, std with
  | [], [] => Some out
  | _, _ =>
    match fuel with
    | O => None
    | S fuel =>
      let next' := other_line next in
      if bool_decide (next = Line_Priority) then
        match pri, std with
        | j :: pri, _ => alternate fuel next' pri std (out ++ [j])
        | [], j :: std => alternate fuel next' pri std (out ++ [j])
        | [], [] => alternate fuel next' pri std out
        end
      else
        match std, pri with
        | j :: std, _ => alternate fuel next' pri std (out ++ [j])
        | [], j :: pri => alternate fuel next' pri std (out ++ [j])
        | [], [] => alternate fuel next' pri std out
        end
    end
  end.

Definition of_line (queue : list QueuedJob) (l : Line) : list QueuedJob :=
  List.filter (λ j, bool_decide (Tier_line (qj_tier j) = l)) queue.

Definition order_with (now : Z) (queue : list QueuedJob) (turns : Turns) : option (list QueuedJob) :=
  let ci := isort fifo_le (of_line queue Line_Ci) in
  pri ← line_order now (of_line queue Line_Priority) turns;
  std ← line_order now (of_line queue Line_Standard) turns;
  mid ← alternate (length pri + length std) (alternate_after (tu_last_line turns)) pri std ci;
  batch ← line_order now (of_line queue Line_Batch) turns;
  Some (mid ++ batch).

Definition solo_order (now : Z) (queue : list QueuedJob) (last_workspace : option string) : option (list QueuedJob) :=
  order_with now queue (Turns_ws last_workspace).

(** ** The decision *)

Definition hold_reason (j : QueuedJob) (line : Line) : Refusal :=
  match line with
  | Line_Ci => Refusal_new tier_codes_TIER_HOLD "a CI job ahead of it takes the next free slot"
  | Line_Priority => Refusal_new tier_codes_TIER_HOLD "a Priority job ahead of it takes the next free slot"
  | _ =>
    if qj_exclusive j then Refusal_new refusal_WAITING_FOR_IDLE "an exclusive job ahead of it waits for an idle node"
    else Refusal_new tier_codes_TIER_HOLD "a job ahead of it takes the next free slot"
  end.

Record Limits := mk_Limits {
  lm_grant_max_parallel : string → Z;
  lm_submitter_max_running : string → Z;
}.

Definition within_grant (j : QueuedJob) (load : Load) (cap : string → Z) : bool :=
  default 0 (ld_running_by_workspace load !! qj_workspace_id j) <? Z.max (cap (qj_workspace_id j)) 1.

Definition within_submitter_cap (j : QueuedJob) (load : Load) (cap : string → Z) : bool :=
  let c := cap (qj_workspace_id j) in
  (c =? 0) || bool_decide (qj_tier j = Tier_Ci)
  || (default 0 (ld_running_by_submitter load !! (qj_workspace_id j, qj_sub j)) <? c).

Definition submitter_full (j : QueuedJob) (cap : string → Z) : Refusal :=
  Refusal_new blocked_SUBMITTER_RUNNING_FULL
    ("this submitter already runs " +:+ z_dec (cap (qj_workspace_id j))
     +:+ " job(s) here (the grant's per-submitter cap); jobs behind it may start first").

Definition grant_full : Refusal :=
  Refusal_new GRANT_PARALLEL_FULL "this workspace already runs as many jobs on the node as its grant allows".

Definition batch_window : Refusal :=
  Refusal_new blocked_BATCH_WINDOW "Batch: it starts when the node is idle (nothing running, nothing else ready)".

(** The [verdict] of one job: [None] is [Ok(())]. *)
Definition verdict (offer : Offer) (load : Load) (caps : Limits) (placed : bool) (j : QueuedJob) : option Refusal :=
  match offer_refusal offer (load_total load) (ld_exclusive_running load) (ask j) with
  | Some r => Some (with_numbers r offer j (load_total load))
  | None =>
    guard negb (within_grant j load (lm_grant_max_parallel caps)) ret Some grant_full;
    guard negb (within_submitter_cap j load (lm_submitter_max_running caps))
      ret Some (submitter_full j (lm_submitter_max_running caps));
    guard bool_decide (Tier_line (qj_tier j) = Line_Batch) && ((0 <? load_total load) || placed)
      ret Some batch_window;
    None
  end.

(** The loop's state. *)
Record Deciding := mk_Deciding {
  dg_place : option string;
  dg_hold : option Refusal;
  dg_head_seen : bool;
  dg_seen : gset (string * string * Line);
  dg_waiting : gmap string (nat * Refusal);
}.

Definition wait (pos : nat) (j : QueuedJob) (r : Refusal) (s : Deciding) : Deciding :=
  mk_Deciding (dg_place s) (dg_hold s) (dg_head_seen s) (dg_seen s) (<[qj_id j := (pos, r)]> (dg_waiting s)).

Definition behind_older_job : Refusal :=
  Refusal_new "behind_older_job" "an older job from the same submitter goes first".
Definition next_in_turn : Refusal := Refusal_new "next_in_turn" "next in turn".

(** Does waiting for [code] at [j] hold every later start? *)
Definition holds_rest (j : QueuedJob) (is_head : bool) (code : string) : bool :=
  let line := Tier_line (qj_tier j) in
  waits_for_room code
  && (holds line || (is_head && qj_exclusive j && negb (bool_decide (line = Line_Batch)))).

(** One job of the [for j in &jobs] loop. *)
Definition decide_one (offer : Offer) (load : Load) (caps : Limits) (position : gmap string nat)
    (s : Deciding) (j : QueuedJob) : Deciding :=
  let pos := default 0%nat (position !! qj_id j) in
  match never_fits offer j with
  | Some r => wait pos j r s
  | None =>
    let is_head := negb (dg_head_seen s) in
    let s := mk_Deciding (dg_place s) (dg_hold s) true (dg_seen s) (dg_waiting s) in
    match dg_hold s with
    | Some h => wait pos j h s
    | None =>
      let line := Tier_line (qj_tier j) in
      let key := (qj_workspace_id j, qj_sub j, line) in
      let fifo_line := match line with Line_Standard | Line_Batch => true | _ => false end in
      guard fifo_line && bool_decide (key ∈ dg_seen s) ret wait pos j behind_older_job s;
      let s := if (fifo_line : bool)
        then mk_Deciding (dg_place s) (dg_hold s) (dg_head_seen s) ({[key]} ∪ dg_seen s) (dg_waiting s) else s in
      match verdict offer load caps (if dg_place s is Some _ then true else false) j with
      | None =>
        match dg_place s with
        | None => mk_Deciding (Some (qj_id j)) (dg_hold s) (dg_head_seen s) (dg_seen s) (dg_waiting s)
        | Some _ => wait pos j next_in_turn s
        end
      | Some r =>
        let hold := if holds_rest j is_head (rf_code r) then Some (hold_reason j line) else dg_hold s in
        wait pos j r (mk_Deciding (dg_place s) hold (dg_head_seen s) (dg_seen s) (dg_waiting s))
      end
    end
  end.

(** [position]: 1-based, by id. *)
Definition positions (jobs : list QueuedJob) : gmap string nat :=
  fold_left (λ m e, <[qj_id e.2 := S e.1]> m) (zip (seq 0 (length jobs)) jobs) ∅.

Definition wait_all (jobs : list QueuedJob) (why : Refusal) : gmap string (nat * Refusal) :=
  fold_left (λ m j, <[qj_id j := (default 0%nat (positions jobs !! qj_id j), why)]> m) jobs ∅.

Definition decide_with (now : Z) (queue : list QueuedJob) (turns : Turns) (load : Load) (caps : Limits)
    (offer : option Offer) (controller_pause : option string) : option SoloDecision :=
  jobs ← order_with now queue turns;
  Some (guard bool_decide (jobs = []) ret mk_SoloDecision None ∅;
    match controller_pause with
    | Some p => mk_SoloDecision None
        (wait_all jobs (Refusal_new CONTROLLER_PAUSED ("the server's owner " +:+ p +:+ " this node")))
    | None =>
      match offer with
      | None => mk_SoloDecision None
          (wait_all jobs (Refusal_new "node_offline" "the node is offline; the job starts when it reconnects"))
      | Some offer =>
        let s := fold_left (decide_one offer load caps (positions jobs)) jobs
          (mk_Deciding None None false ∅ ∅) in
        mk_SoloDecision (dg_place s) (dg_waiting s)
      end
    end).

Definition solo_decide (now : Z) (queue : list QueuedJob) (last_workspace : option string) (load : Load)
    (grant_max_parallel : string → Z) (offer : option Offer) (controller_pause : option string) : option SoloDecision :=
  decide_with now queue (Turns_ws last_workspace) load (mk_Limits grant_max_parallel (λ _, 0)) offer controller_pause.

(** ** [--any] *)

Definition warmth (offer : Offer) (project_key commit : option string) : Z :=
  match project_key with
  | None => 0
  | Some pk =>
    let slots := List.filter (λ s, (si_project_key s =? pk)%string && negb (si_busy s)) (of_slots offer) in
    if (if commit is Some _ then true else false) && existsb (λ s, bool_decide (si_last_sha s = commit)) slots then 2
    else if negb (bool_decide (slots = [])) then 1
    else 0
  end.

(** [score > b] on pairs. *)
Definition score_gt (a b : Z * Z) : bool := (b.1 <? a.1) || ((b.1 =? a.1) && (b.2 <? a.2)).

(** The loop both pickers share: the first candidate of the best score among
    those that [skip] doesn't drop. *)
Definition pick_best (skip : Offer → Load → bool) (score : Offer → Z * Z)
    (candidates : list (string * Offer * Load)) : option (string * (Z * Z)) :=
  fold_left (λ best c,
    let '(id, offer, load) := c in
    guard skip offer load ret best;
    let sc := score offer in
    if (match best with None => true | Some b => score_gt sc b.2 end) then Some (id, sc) else best) candidates None.

Definition pick_any (candidates : list (string * Offer * Load)) (project_key commit : option string)
    (job : QueuedJob) : option string :=
  fst <$> pick_best
    (λ offer load, if offer_refusal offer (load_total load) (ld_exclusive_running load) (ask job) is Some _ then true else false)
    (λ offer, (warmth offer project_key commit, fr_cpu_millis (of_free offer))) candidates.

Definition pick_any_queue (candidates : list (string * Offer * Load)) (project_key commit : option string)
    (job : QueuedJob) : option string :=
  fst <$> pick_best
    (λ offer _, if never_fits offer job is Some _ then true else false)
    (λ offer, (warmth offer project_key commit, fc_cpu_millis (of_caps offer))) candidates.

(** ** Sorting *)

Lemma fifo_le_total a b : fifo_le a b = true ∨ fifo_le b a = true.
Proof.
  unfold fifo_le, fifo. rewrite (Z.compare_antisym (qj_created_at a)).
  destruct (qj_created_at a ?= _); simpl; auto.
  rewrite (String.compare_antisym (qj_id a)). destruct (String.compare _ _); simpl; auto.
Qed.
Lemma fifo_le_trans a b c : fifo_le a b = true → fifo_le b c = true → fifo_le a c = true.
Proof.
  unfold fifo_le, fifo.
  destruct (Z.compare_spec (qj_created_at a) (qj_created_at b)),
    (Z.compare_spec (qj_created_at b) (qj_created_at c)),
    (Z.compare_spec (qj_created_at a) (qj_created_at c)); try done; try lia.
  pose proof (string_compare_trans (qj_id a) (qj_id b) (qj_id c)).
  repeat case_match; naive_solver.
Qed.
Lemma fifo_sorted l : StronglySorted (λ a b, fifo_le a b = true) (isort fifo_le l).
Proof. apply isort_StronglySorted; [apply fifo_le_total|apply fifo_le_trans]. Qed.

Lemma rotated_Permutation keys last : rotated keys last ≡ₚ bt_set keys.
Proof.
  unfold rotated. destruct last as [l|]; [|done].
  match goal with |- drop ?n _ ++ _ ≡ₚ _ => generalize n end. intros n.
  by rewrite Permutation_app_comm, take_drop.
Qed.
Lemma elem_of_rotated keys last k : k ∈ rotated keys last ↔ k ∈ keys.
Proof. by rewrite rotated_Permutation, elem_of_bt_set. Qed.
Lemma NoDup_rotated keys last : NoDup (rotated keys last).
Proof. rewrite rotated_Permutation. apply NoDup_bt_set. Qed.

(** ** Round robin *)

Definition group (groups : gmap string (list QueuedJob)) (k : string) : list QueuedJob := default [] (groups !! k).

(** The [n]-th job of every group, in key order: what the [n]-th pass pops. *)
Definition nth_pass (keys : list string) (groups : gmap string (list QueuedJob)) (n : nat) : list QueuedJob :=
  omap (λ k, group groups k !! n) keys.

Lemma rr_pass keys popped groups :
  NoDup keys →
  ∃ groups', fold_left rr_step keys (popped, groups) = (popped ++ nth_pass keys groups 0, groups')
    ∧ ∀ k, group groups' k = if decide (k ∈ keys) then tail (group groups k) else group groups k.
Proof.
  revert popped groups. induction keys as [|k keys IH]; intros popped groups Hnd; cbn [fold_left].
  { exists groups. split; [by rewrite app_nil_r|]. intros k. by rewrite decide_False by set_solver. }
  apply NoDup_cons in Hnd as [Hk Hnd]. unfold rr_step at 2. cbv beta iota.
  destruct (groups !! k) as [[|j r]|] eqn:Hg.
  - destruct (IH popped groups Hnd) as (g'&->&Hg'). exists g'. split.
    + unfold nth_pass. cbn. unfold group at 2. by rewrite Hg.
    + intros k'. rewrite Hg'. destruct (decide (k' = k)) as [->|].
      * rewrite decide_False by done. rewrite decide_True by set_solver. unfold group. by rewrite Hg.
      * destruct (decide (k' ∈ keys)); [rewrite decide_True by set_solver|rewrite decide_False by set_solver]; done.
  - destruct (IH (popped ++ [j]) (<[k := r]> groups) Hnd) as (g'&->&Hg'). exists g'.
    assert (Hother : ∀ k', k' ≠ k → group (<[k:=r]> groups) k' = group groups k').
    { intros k' Hne. unfold group. by rewrite lookup_insert_ne. }
    split.
    + rewrite <- app_assoc. do 2 f_equal. unfold nth_pass. cbn. unfold group at 2. rewrite Hg. cbn. f_equal.
      clear -Hk Hother. induction keys as [|k' keys IH]; cbn; [done|].
      rewrite Hother by set_solver. rewrite IH by set_solver. done.
    + intros k'. rewrite Hg'. destruct (decide (k' = k)) as [->|].
      * rewrite decide_False by done. rewrite decide_True by set_solver. unfold group. rewrite lookup_insert_eq, Hg. done.
      * rewrite Hother by done.
        destruct (decide (k' ∈ keys)); [rewrite decide_True by set_solver|rewrite decide_False by set_solver]; done.
  - destruct (IH popped groups Hnd) as (g'&->&Hg'). exists g'. split.
    + unfold nth_pass. cbn. unfold group at 2. by rewrite Hg.
    + intros k'. rewrite Hg'. destruct (decide (k' = k)) as [->|].
      * rewrite decide_False by done. rewrite decide_True by set_solver. unfold group. by rewrite Hg.
      * destruct (decide (k' ∈ keys)); [rewrite decide_True by set_solver|rewrite decide_False by set_solver]; done.
Qed.

(** The passes of the whole loop, one after the other. *)
Definition passes (keys : list string) (groups : gmap string (list QueuedJob)) (m : nat) : list QueuedJob :=
  mjoin (nth_pass keys groups <$> seq 0 m).

Lemma nth_pass_nil keys groups : nth_pass keys groups 0 = [] → ∀ k, k ∈ keys → group groups k = [].
Proof.
  intros Hn k Hk. destruct (group groups k) as [|j r] eqn:Hg; [done|].
  destruct (not_elem_of_nil j). rewrite <- Hn. apply list_elem_of_omap. exists k. by rewrite Hg.
Qed.

Lemma nth_pass_tail keys g g' n :
  (∀ k, group g' k = if decide (k ∈ keys) then tail (group g k) else group g k) →
  nth_pass keys g' n = nth_pass keys g (S n).
Proof.
  intros Hg.
  assert (∀ l, (∀ k, k ∈ l → k ∈ keys) → nth_pass l g' n = nth_pass l g (S n)) as H; [|by apply H].
  intros l. unfold nth_pass. induction l as [|k l IH]; intros Hl; cbn; [done|].
  rewrite Hg, decide_True, IH by set_solver. by destruct (group g k).
Qed.

Lemma passes_S keys g g' m :
  (∀ k, group g' k = if decide (k ∈ keys) then tail (group g k) else group g k) →
  nth_pass keys g 0 ++ passes keys g' m = passes keys g (S m).
Proof.
  intros Hg. unfold passes. cbn. f_equal. rewrite <- seq_shift, <- list_fmap_compose. f_equal.
  apply list_fmap_ext. intros _ n _. cbn. by apply nth_pass_tail.
Qed.

(** The loop ends and its output is its passes: the first job of every
    group, then the second of every group, and so on until all are out. *)
Lemma round_robin_passes fuel keys groups out :
  NoDup keys → (1 ≤ fuel)%nat → (∀ k, k ∈ keys → (length (group groups k) < fuel)%nat) →
  ∃ m, round_robin fuel keys groups out = Some (out ++ passes keys groups m)
    ∧ ∀ k, k ∈ keys → (length (group groups k) ≤ m)%nat.
Proof.
  intros Hnd. revert groups out. induction fuel as [|fuel IH]; intros groups out Hf Hlen; [lia|].
  cbn [round_robin]. destruct (rr_pass keys [] groups Hnd) as (g'&->&Hg'). cbn [app].
  destruct (nth_pass keys groups 0) as [|j r] eqn:Hp.
  - exists 0%nat. split; [by rewrite app_nil_r|]. intros k Hk.
    by rewrite (nth_pass_nil _ _ Hp k Hk).
  - assert (1 ≤ fuel)%nat.
    { assert (j ∈ nth_pass keys groups 0) as Hj by (rewrite Hp; set_solver).
      apply list_elem_of_omap in Hj as (k&Hk&Hj). specialize (Hlen k Hk).
      destruct (group groups k); [done|]. cbn in Hlen. lia. }
    destruct (IH g' (out ++ j :: r)) as (m&->&Hm); [done|..].
    + intros k Hk. rewrite Hg', decide_True by done. specialize (Hlen k Hk).
      destruct (group groups k); cbn in *; lia.
    + exists (S m). rewrite <- (passes_S _ _ g' m Hg'), Hp, <- app_assoc. split; [done|].
      intros k Hk. specialize (Hm k Hk). rewrite Hg', decide_True in Hm by done.
      destruct (group groups k); cbn in *; lia.
Qed.

Lemma mjoin_app_Permutation {A} (f g : nat → list A) l :
  mjoin ((λ n, f n ++ g n) <$> l) ≡ₚ mjoin (f <$> l) ++ mjoin (g <$> l).
Proof. induction l as [|n l IH]; cbn; [done|]. rewrite IH. solve_Permutation. Qed.

Lemma mjoin_lookups {A} (l : list A) m :
  (length l ≤ m)%nat → mjoin ((λ n, option_list (l !! n)) <$> seq 0 m) = l.
Proof.
  revert l. induction m as [|m IH]; intros l Hm; cbn.
  - destruct l; [done|cbn in Hm; lia].
  - rewrite <- seq_shift, <- list_fmap_compose. destruct l as [|x l]; cbn.
    + apply (IH []). cbn. lia.
    + f_equal. apply IH. cbn in Hm. lia.
Qed.

Lemma passes_Permutation keys groups m :
  (∀ k, k ∈ keys → (length (group groups k) ≤ m)%nat) →
  passes keys groups m ≡ₚ keys ≫= group groups.
Proof.
  unfold passes, nth_pass. induction keys as [|k keys IH]; intros Hm.
  - cbn. induction (seq 0 m); cbn; [done|]. done.
  - rewrite bind_cons, <- IH by set_solver.
    trans (mjoin ((λ n, option_list (group groups k !! n)) <$> seq 0 m)
      ++ mjoin ((λ n, omap (λ k, group groups k !! n) keys) <$> seq 0 m)).
    + rewrite <- mjoin_app_Permutation. apply Permutation_refl', f_equal, list_fmap_ext.
      intros _ n _. cbn. by destruct (group groups k !! n).
    + by rewrite mjoin_lookups by (apply Hm; set_solver).
Qed.

(** Inside a group the jobs keep their order. *)
Lemma passes_sublist keys groups m k :
  k ∈ keys → (length (group groups k) ≤ m)%nat → group groups k `sublist_of` passes keys groups m.
Proof.
  intros Hk Hm. rewrite <- (mjoin_lookups (group groups k) m) at 1 by done. unfold passes.
  induction (seq 0 m) as [|n l IH]; cbn; [done|]. apply sublist_app; [|done].
  unfold nth_pass. clear -Hk. induction keys as [|k' keys IH]; [set_solver|]. cbn.
  apply elem_of_cons in Hk as [->|Hk].
  - destruct (group groups k' !! n); cbn; [apply sublist_skip|]; apply sublist_nil_l.
  - destruct (group groups k' !! n); [apply sublist_cons|]; by apply IH.
Qed.

(** ** One line *)

Lemma group_by_group key jobs k :
  group (group_by key jobs) k = List.filter (λ j, (key j =? k)%string) jobs.
Proof.
  unfold group_by. induction jobs as [|j jobs IH] using rev_ind; [done|].
  rewrite fold_left_app, List.filter_app. cbn. rewrite <- IH. unfold group.
  destruct (String.eqb_spec (key j) k) as [<-|Hne].
  - by rewrite lookup_insert_eq.
  - by rewrite lookup_insert_ne, app_nil_r.
Qed.

(** Splitting by a key and joining the parts again loses nothing. *)
Lemma bind_filter_Permutation key (jobs : list QueuedJob) keys :
  NoDup keys → (∀ j, j ∈ jobs → key j ∈ keys) →
  keys ≫= (λ k, List.filter (λ j, (key j =? k)%string) jobs) ≡ₚ jobs.
Proof.
  intros Hnd. induction jobs as [|j jobs IH]; intros Hk.
  - clear. induction keys; cbn; done.
  - assert (key j ∈ keys) as Hj by (apply Hk; set_solver).
    trans (j :: (keys ≫= (λ k, List.filter (λ j, (key j =? k)%string) jobs))).
    2:{ apply perm_skip, IH. intros; apply Hk; set_solver. }
    clear IH Hk.
    induction keys as [|k keys IH]; [set_solver|]. apply NoDup_cons in Hnd as [Hni Hnd].
    rewrite !bind_cons. cbn [List.filter]. destruct (String.eqb_spec (key j) k) as [Heq|Hne].
    + cbn. apply perm_skip, Permutation_app_head, Permutation_refl'.
      subst k. clear -Hni. induction keys as [|k keys IH]; cbn; [done|].
      destruct (String.eqb_spec (key j) k) as [Heq|]; [set_solver|]. by rewrite IH by set_solver.
    + rewrite IH by set_solver. by rewrite Permutation_middle.
Qed.

Lemma filter_length_lt (f : QueuedJob → bool) l : (length (List.filter f l) < S (length l))%nat.
Proof. pose proof (List.filter_length_le f l). lia. Qed.

Definition of_ws (fresh : list QueuedJob) (w : string) : list QueuedJob :=
  List.filter (λ j, (qj_workspace_id j =? w)%string) fresh.

Lemma ws_order_spec turns fresh w :
  let mine := of_ws fresh w in
  let subs := rotated (qj_sub <$> mine) (tu_last_submitter turns !! w) in
  ∃ m, ws_order turns fresh w = Some (passes subs (group_by qj_sub mine) m)
    ∧ passes subs (group_by qj_sub mine) m ≡ₚ mine
    ∧ ∀ s, List.filter (λ j, (qj_sub j =? s)%string) mine
        `sublist_of` passes subs (group_by qj_sub mine) m.
Proof.
  intros mine subs. unfold ws_order. fold (of_ws fresh w). fold mine. fold subs.
  destruct (round_robin_passes (S (length mine)) subs (group_by qj_sub mine) []) as (m&->&Hm).
  - apply NoDup_rotated.
  - lia.
  - intros k _. rewrite group_by_group. apply filter_length_lt.
  - exists m. split_and!; [done| |].
    + rewrite passes_Permutation by done.
      etrans; [|apply (bind_filter_Permutation qj_sub mine subs)].
      * apply Permutation_refl', list_bind_ext; [|done]. intros s. apply group_by_group.
      * apply NoDup_rotated.
      * intros j Hj. apply elem_of_rotated. by apply list_elem_of_fmap_2.
    + intros s. rewrite <- group_by_group. destruct (decide (s ∈ subs)) as [Hs|Hs].
      * apply passes_sublist; auto.
      * rewrite group_by_group.
        assert (List.filter (λ j, (qj_sub j =? s)%string) mine = []) as ->; [|apply sublist_nil_l].
        apply elem_of_nil_inv. intros j [Hj Hjs%String.eqb_eq]%elem_of_filter_bool.
        apply Hs, elem_of_rotated. rewrite <- Hjs. by apply list_elem_of_fmap_2.
Qed.

Lemma per_workspace_spec turns fresh wss per_ws :
  NoDup wss →
  ∃ per_ws', per_workspace turns fresh wss per_ws = Some per_ws'
    ∧ (∀ w, w ∈ wss → Some (group per_ws' w) = ws_order turns fresh w)
    ∧ (∀ w, w ∉ wss → group per_ws' w = group per_ws w).
Proof.
  revert per_ws. induction wss as [|w wss IH]; intros per_ws Hnd; cbn [per_workspace].
  - exists per_ws. split_and!; [done|set_solver|done].
  - apply NoDup_cons in Hnd as [Hw Hnd].
    destruct (ws_order_spec turns fresh w) as (m&Hm&_).
    set (sq := passes _ _ m) in Hm. rewrite Hm. cbn [mbind option_bind].
    destruct (IH (<[w := sq]> per_ws) Hnd) as (p&Hp&Hin&Hout).
    exists p. rewrite Hp. split_and!; [done|..].
    + intros w' [->|Hw']%elem_of_cons; [|by apply Hin]. rewrite Hout, Hm by done.
      unfold group. by rewrite lookup_insert_eq.
    + intros w' Hw'. rewrite Hout by set_solver. unfold group. rewrite lookup_insert_ne; [done|set_solver].
Qed.

(** What a line's order is: its aged jobs by arrival, then its workspaces in
    turn, each workspace's submitters in turn, each submitter FIFO. *)
Record line_ordered (now : Z) (turns : Turns) (jobs old mid : list QueuedJob) : Prop := {
  lo_old : old ≡ₚ List.filter (λ j, solo_aged j now) jobs;
  lo_sorted : StronglySorted (λ a b, fifo_le a b = true) old;
  lo_mid : mid ≡ₚ List.filter (λ j, negb (solo_aged j now)) jobs;
  lo_turns : let fresh := isort fifo_le (List.filter (λ j, negb (solo_aged j now)) jobs) in
    ∃ per_ws m, mid = passes (rotated (qj_workspace_id <$> fresh) (tu_last_ws turns)) per_ws m
      ∧ ∀ w, w ∈ qj_workspace_id <$> fresh → ∃ m', group per_ws w =
          passes (rotated (qj_sub <$> of_ws fresh w) (tu_last_submitter turns !! w))
            (group_by qj_sub (of_ws fresh w)) m';
  lo_fifo : let fresh := isort fifo_le (List.filter (λ j, negb (solo_aged j now)) jobs) in
    ∀ w s, List.filter (λ j, (qj_sub j =? s)%string) (of_ws fresh w) `sublist_of` mid;
}.

Lemma of_ws_lt fresh w : (length (of_ws fresh w) < S (length fresh))%nat.
Proof. apply filter_length_lt. Qed.

Lemma line_order_spec now jobs turns :
  ∃ old mid, line_order now jobs turns = Some (old ++ mid) ∧ line_ordered now turns jobs old mid.
Proof.
  unfold line_order. set (fresh := isort fifo_le (List.filter (λ j, negb (solo_aged j now)) jobs)).
  set (wss := rotated (qj_workspace_id <$> fresh) (tu_last_ws turns)).
  assert (NoDup wss) as Hnd by apply NoDup_rotated.
  destruct (per_workspace_spec turns fresh wss ∅ Hnd) as (per_ws&->&Hin&_). cbn [mbind option_bind].
  assert (Hw : ∀ w, w ∈ wss → ∃ m, group per_ws w = passes (rotated (qj_sub <$> of_ws fresh w)
      (tu_last_submitter turns !! w)) (group_by qj_sub (of_ws fresh w)) m
    ∧ group per_ws w ≡ₚ of_ws fresh w
    ∧ ∀ s, List.filter (λ j, (qj_sub j =? s)%string) (of_ws fresh w) `sublist_of` group per_ws w).
  { intros w Hw. specialize (Hin w Hw). destruct (ws_order_spec turns fresh w) as (m&Hm&Hperm&Hsub).
    rewrite Hm in Hin. injection Hin as Hin. exists m. rewrite Hin. split_and!; done. }
  destruct (round_robin_passes (S (length fresh)) wss per_ws [] Hnd ltac:(lia)) as (m&->&Hm).
  { intros w Hwin. destruct (Hw w Hwin) as (_&_&Hperm&_). rewrite (Permutation_length Hperm). apply of_ws_lt. }
  cbn [mbind option_bind app]. eexists _, _. split; [done|]. constructor.
  - apply isort_Permutation.
  - apply fifo_sorted.
  - rewrite passes_Permutation by done.
    etrans; [|etrans; [apply (bind_filter_Permutation qj_workspace_id fresh wss Hnd)|apply isort_Permutation]].
    + assert (∀ l, (∀ w, w ∈ l → w ∈ wss) → l ≫= group per_ws ≡ₚ l ≫= of_ws fresh) as H; [|by apply H].
      intros l. induction l as [|w l IH]; intros Hl; [done|]. rewrite !bind_cons, IH by set_solver.
      destruct (Hw w) as (_&_&->&_); [set_solver|done].
    + intros j Hj. apply elem_of_rotated. by apply list_elem_of_fmap_2.
  - exists per_ws, m. split; [done|]. intros w Hwf. destruct (Hw w) as (m'&?&_); [by apply elem_of_rotated|eauto].
  - intros fr w s. destruct (decide (w ∈ wss)) as [Hwin|Hwin].
    + destruct (Hw w Hwin) as (_&_&_&Hs). etrans; [apply Hs|]. apply passes_sublist; auto.
    + assert (of_ws fr w = []) as ->; [|apply sublist_nil_l].
      apply elem_of_nil_inv. intros j [Hj Hjw%String.eqb_eq]%elem_of_filter_bool.
      apply Hwin, elem_of_rotated. rewrite <- Hjw. by apply list_elem_of_fmap_2.
Qed.

(** ** The whole order *)

Definition jline (j : QueuedJob) : Line := Tier_line (qj_tier j).

(** From [next] on the two lines take turns as long as both wait. *)
Fixpoint alternating (next : Line) (l : list QueuedJob) : Prop :=
  match l with
  | [] => True
  | j :: r => (jline j = next ∨ ∀ i, i ∈ r → jline i ≠ next) ∧ alternating (other_line next) r
  end.

Lemma alternate_spec fuel next pri std out :
  (length pri + length std ≤ fuel)%nat → next = Line_Priority ∨ next = Line_Standard →
  (∀ j, j ∈ pri → jline j = Line_Priority) → (∀ j, j ∈ std → jline j = Line_Standard) →
  ∃ l, alternate fuel next pri std out = Some (out ++ l) ∧ l ≡ₚ pri ++ std
    ∧ pri `sublist_of` l ∧ std `sublist_of` l ∧ alternating next l.
Proof.
  revert next pri std out.
  induction fuel as [|fuel IH]; intros next pri std out Hf Hnext Hpri Hstd; cbn [alternate].
  { destruct pri, std; cbn in Hf; try lia. exists []. by rewrite app_nil_r. }
  assert (Hnext' : other_line next = Line_Priority ∨ other_line next = Line_Standard)
    by (unfold other_line; case_bool_decide; auto).
  destruct pri as [|p pri], std as [|s std]; cbn in Hf.
  - exists []. by rewrite app_nil_r.
  - assert ((if bool_decide (next = Line_Priority)
        then alternate fuel (other_line next) [] std (out ++ [s])
        else alternate fuel (other_line next) [] std (out ++ [s]))
      = alternate fuel (other_line next) [] std (out ++ [s])) as -> by (by case_bool_decide).
    destruct (IH (other_line next) [] std (out ++ [s])) as (l&->&Hl&_&Hs&Ha); [cbn; lia|done|done|set_solver|].
    exists (s :: l). rewrite <- app_assoc. split_and!; [done|by rewrite Hl|apply sublist_nil_l|by apply sublist_skip|].
    split; [|done]. rewrite (Hstd s) by set_solver. destruct Hnext as [->| ->]; [right|by left].
    intros i Hi. rewrite Hl in Hi. rewrite Hstd by set_solver. done.
  - assert ((if bool_decide (next = Line_Priority)
        then alternate fuel (other_line next) pri [] (out ++ [p])
        else alternate fuel (other_line next) pri [] (out ++ [p]))
      = alternate fuel (other_line next) pri [] (out ++ [p])) as -> by (by case_bool_decide).
    destruct (IH (other_line next) pri [] (out ++ [p])) as (l&->&Hl&Hp&_&Ha); [cbn; lia|done|set_solver|done|].
    exists (p :: l). rewrite <- app_assoc. split_and!; [done|by rewrite Hl|by apply sublist_skip|apply sublist_nil_l|].
    split; [|done]. rewrite (Hpri p) by set_solver. destruct Hnext as [->| ->]; [by left|right].
    intros i Hi. rewrite Hl, app_nil_r in Hi. rewrite Hpri by set_solver. done.
  - case_bool_decide as Hn.
    + destruct (IH (other_line next) pri (s :: std) (out ++ [p])) as (l&->&Hl&Hp&Hs&Ha);
        [cbn; lia|done|set_solver|done|].
      exists (p :: l). rewrite <- app_assoc.
      split_and!; [done|by rewrite Hl|by apply sublist_skip|by apply sublist_cons|].
      split; [|done]. left. rewrite Hn. apply Hpri. set_solver.
    + destruct (IH (other_line next) (p :: pri) std (out ++ [s])) as (l&->&Hl&Hp&Hs&Ha);
        [cbn; lia|done|done|set_solver|].
      exists (s :: l). rewrite <- app_assoc.
      split_and!; [done|rewrite Hl; apply Permutation_middle|by apply sublist_cons|by apply sublist_skip|].
      split; [|done]. left. destruct Hnext as [->| ->]; [done|]. apply Hstd. set_solver.
Qed.

Lemma elem_of_of_line queue l j : j ∈ of_line queue l ↔ j ∈ queue ∧ jline j = l.
Proof. unfold of_line. by rewrite elem_of_filter_bool, bool_decide_eq_true. Qed.

Lemma of_line_Permutation queue :
  of_line queue Line_Ci ++ (of_line queue Line_Priority ++ of_line queue Line_Standard)
    ++ of_line queue Line_Batch ≡ₚ queue.
Proof.
  induction queue as [|j queue IH]; [done|]. unfold of_line in *. cbn [List.filter].
  etrans; [|apply perm_skip, IH]. destruct (qj_tier j); cbn; solve_Permutation.
Qed.

Lemma line_ordered_Permutation now turns jobs old mid :
  line_ordered now turns jobs old mid → old ++ mid ≡ₚ jobs.
Proof.
  intros H. rewrite (lo_old _ _ _ _ _ H), (lo_mid _ _ _ _ _ H). clear.
  induction jobs as [|j jobs IH]; cbn; [done|]. destruct (solo_aged j now); cbn.
  - by rewrite IH.
  - by rewrite <- Permutation_middle, IH.
Qed.

(** The order is CI by arrival, then Priority and Standard in turn, then
    Batch; each of the three in its line's order. *)
Record solo_ordered (now : Z) (queue : list QueuedJob) (turns : Turns) (ord : list QueuedJob) : Prop := {
  sl_perm : ord ≡ₚ queue;
  sl_split : ∃ ci pri std mid batch, ord = ci ++ mid ++ batch
    ∧ ci = isort fifo_le (of_line queue Line_Ci)
    ∧ mid ≡ₚ pri ++ std ∧ pri `sublist_of` mid ∧ std `sublist_of` mid
    ∧ alternating (alternate_after (tu_last_line turns)) mid
    ∧ (∃ o m, pri = o ++ m ∧ line_ordered now turns (of_line queue Line_Priority) o m)
    ∧ (∃ o m, std = o ++ m ∧ line_ordered now turns (of_line queue Line_Standard) o m)
    ∧ (∃ o m, batch = o ++ m ∧ line_ordered now turns (of_line queue Line_Batch) o m);
}.

Lemma order_with_spec now queue turns :
  ∃ ord, order_with now queue turns = Some ord ∧ solo_ordered now queue turns ord.
Proof.
  unfold order_with.
  destruct (line_order_spec now (of_line queue Line_Priority) turns) as (po&pm&->&Hp). cbn [mbind option_bind].
  destruct (line_order_spec now (of_line queue Line_Standard) turns) as (so&sm&->&Hs). cbn [mbind option_bind].
  pose proof (line_ordered_Permutation _ _ _ _ _ Hp) as Hpp.
  pose proof (line_ordered_Permutation _ _ _ _ _ Hs) as Hsp.
  destruct (alternate_spec (length (po ++ pm) + length (so ++ sm)) (alternate_after (tu_last_line turns))
    (po ++ pm) (so ++ sm) (isort fifo_le (of_line queue Line_Ci))) as (mid&->&Hmid&Hmp&Hms&Halt); [done|..].
  { unfold alternate_after. case_bool_decide; auto. }
  { intros j. rewrite Hpp. by intros [_ ?]%elem_of_of_line. }
  { intros j. rewrite Hsp. by intros [_ ?]%elem_of_of_line. }
  cbn [mbind option_bind].
  destruct (line_order_spec now (of_line queue Line_Batch) turns) as (bo&bm&->&Hb). cbn [mbind option_bind].
  pose proof (line_ordered_Permutation _ _ _ _ _ Hb) as Hbp.
  eexists. split; [done|]. constructor.
  - rewrite Hmid, Hpp, Hsp, Hbp, isort_Permutation, <- app_assoc. apply of_line_Permutation.
  - eexists _, (po ++ pm), (so ++ sm), mid, (bo ++ bm). rewrite <- app_assoc. split_and!; eauto 6.
Qed.

(** ** The decision loop *)

Section deciding.
Context (offer : Offer) (load : Load) (caps : Limits) (position : gmap string nat).

(** [j] may start now, as far as the node and the grant go. *)
Definition startable (j : QueuedJob) : Prop :=
  never_fits offer j = None ∧ verdict offer load caps false j = None.

(** [i] waits with a refusal that doesn't wait for room. *)
Definition waits_elsewhere (waiting : gmap string (nat * Refusal)) (i : QueuedJob) : Prop :=
  ∃ p r, waiting !! qj_id i = Some (p, r) ∧ waits_for_room (rf_code r) = false.

Definition fifo_line (j : QueuedJob) : bool :=
  match jline j with Line_Standard | Line_Batch => true | _ => false end.
Definition fifo_key (j : QueuedJob) : string * string * Line := (qj_workspace_id j, qj_sub j, jline j).

Record deciding_inv (seen : list QueuedJob) (s : Deciding) : Prop := {
  di_place : ∀ id, dg_place s = Some id → ∃ j, j ∈ seen ∧ qj_id j = id ∧ startable j;
  di_waiting : ∀ j, j ∈ seen → dg_place s ≠ Some (qj_id j) →
    ∃ r, dg_waiting s !! qj_id j = Some (default 0%nat (position !! qj_id j), r);
  di_only : ∀ id w, dg_waiting s !! id = Some w → dg_place s ≠ Some id ∧ ∃ j, j ∈ seen ∧ qj_id j = id;
  di_hold : dg_hold s = None → ∀ i, i ∈ seen → never_fits offer i = None → holds (jline i) = true →
    dg_place s ≠ Some (qj_id i) → waits_elsewhere (dg_waiting s) i;
  di_seen : dg_hold s = None → ∀ i, i ∈ seen → never_fits offer i = None → fifo_line i = true →
    fifo_key i ∈ dg_seen s;
  di_before : ∀ l1 j l2, seen = l1 ++ j :: l2 → dg_place s = Some (qj_id j) → ∀ i, i ∈ l1 →
    never_fits offer i = None →
    (holds (jline i) = true → waits_elsewhere (dg_waiting s) i)
    ∧ (fifo_line j = true → fifo_key i ≠ fifo_key j);
}.

Lemma verdict_placed j : verdict offer load caps true j = None → verdict offer load caps false j = None.
Proof.
  unfold verdict. destruct (offer_refusal _ _ _ _); [done|]. repeat case_match; try done.
  all: bool_props; repeat match goal with H : _ && _ = _ |- _ => revert H end;
    destruct (bool_decide _), (0 <? _); cbn; congruence.
Qed.

Lemma fifo_holds j : fifo_line j = true → holds (jline j) = false.
Proof. unfold fifo_line. by destruct (jline j). Qed.

(** A step that only lets [j] wait. *)
Lemma deciding_wait seen s j r hold head sn :
  deciding_inv seen s → (∀ i, i ∈ seen → qj_id i ≠ qj_id j) →
  (hold = None → dg_hold s = None) →
  (hold = None → never_fits offer j = None → holds (jline j) = true → waits_for_room (rf_code r) = false) →
  (∀ k, k ∈ dg_seen s → k ∈ sn) →
  (hold = None → never_fits offer j = None → fifo_line j = true → fifo_key j ∈ sn) →
  deciding_inv (seen ++ [j])
    (wait (default 0%nat (position !! qj_id j)) j r (mk_Deciding (dg_place s) hold head sn (dg_waiting s))).
Proof.
  intros Hinv Hid Hhold Hroom Hsn Hfifo.
  assert (Hpj : dg_place s ≠ Some (qj_id j)).
  { intros Hp. destruct (di_place _ _ Hinv _ Hp) as (i&Hi&Heq&_). by apply (Hid i Hi). }
  assert (Hother : ∀ i, i ∈ seen → waits_elsewhere (dg_waiting s) i →
    waits_elsewhere (<[qj_id j := (default 0%nat (position !! qj_id j), r)]> (dg_waiting s)) i).
  { intros i Hi (p&r'&Hw&?). exists p, r'. rewrite lookup_insert_ne; [done|]. intros E. by apply (Hid i Hi). }
  unfold wait. constructor; cbn.
  - intros id Hp. destruct (di_place _ _ Hinv _ Hp) as (i&?&?&?). exists i. set_solver.
  - intros i [Hi| ->%list_elem_of_singleton]%elem_of_app Hp.
    + destruct (di_waiting _ _ Hinv i Hi Hp) as [r' Hr']. exists r'. rewrite lookup_insert_ne; [done|].
      intros E. by apply (Hid i Hi).
    + exists r. by rewrite lookup_insert_eq.
  - intros id w [[<- <-]|[Hne Hw]]%lookup_insert_Some; [split; [done|]; exists j; set_solver|].
    destruct (di_only _ _ Hinv _ _ Hw) as (?&i&?&?). split; [done|]. exists i. set_solver.
  - intros Hn i [Hi| ->%list_elem_of_singleton]%elem_of_app Hf Hh Hp.
    + apply Hother; [done|]. apply (di_hold _ _ Hinv); auto.
    + eexists _, r. rewrite lookup_insert_eq. split; [done|]. auto.
  - intros Hn i [Hi| ->%list_elem_of_singleton]%elem_of_app Hf Hfl; [|auto].
    apply Hsn. apply (di_seen _ _ Hinv); auto.
  - intros l1 k l2 Hsplit Hp i Hi Hf.
    destruct l2 as [|x l2 _] using rev_ind.
    + apply app_inj_2 in Hsplit as [_ [= ->]]; [|done]. done.
    + rewrite app_comm_cons, app_assoc in Hsplit. apply app_inj_2 in Hsplit as [-> [= ->]]; [|done].
      destruct (di_before _ _ Hinv l1 k l2 eq_refl Hp i Hi Hf) as [H1 H2]. split; [|done].
      intros Hh. apply Hother; [set_solver|auto].
Qed.

Lemma decide_one_inv seen s j :
  deciding_inv seen s → (∀ i, i ∈ seen → qj_id i ≠ qj_id j) →
  deciding_inv (seen ++ [j]) (decide_one offer load caps position s j).
Proof.
  intros Hinv Hid. unfold decide_one. destruct s as [place hold head sn waiting]. cbn [dg_hold dg_head_seen dg_place dg_seen dg_waiting].
  set (s := mk_Deciding place hold head sn waiting) in *.
  destruct (never_fits offer j) as [r|] eqn:Hnf.
  { apply (deciding_wait seen s j r hold head sn); cbn; auto; congruence. }
  destruct hold as [h|].
  { apply (deciding_wait seen s j h (Some h) true sn); cbn; auto; congruence. }
  fold (jline j) (fifo_line j) (fifo_key j). change (qj_workspace_id j, qj_sub j, jline j) with (fifo_key j).
  destruct (fifo_line j && bool_decide (fifo_key j ∈ sn)) eqn:Hseen.
  { apply andb_true_iff in Hseen as [Hfl Hk%bool_decide_eq_true].
    apply (deciding_wait seen s j behind_older_job None true sn); cbn; auto. }
  set (sn' := if fifo_line j then {[fifo_key j]} ∪ sn else sn).
  assert (Hsn' : (if fifo_line j then mk_Deciding place None true ({[fifo_key j]} ∪ sn) waiting
    else mk_Deciding place None true sn waiting) = mk_Deciding place None true sn' waiting)
    by (unfold sn'; by destruct (fifo_line j)).
  rewrite Hsn'. clear Hsn'. cbn [dg_hold dg_head_seen dg_place dg_seen dg_waiting].
  assert (Hsub : ∀ k, k ∈ sn → k ∈ sn') by (unfold sn'; destruct (fifo_line j); set_solver).
  assert (Hkey : fifo_line j = true → fifo_key j ∈ sn') by (unfold sn'; intros ->; set_solver).
  destruct (verdict offer load caps _ j) as [r|] eqn:Hv.
  - apply (deciding_wait seen s j r _ true sn'); cbn -[waits_for_room]; auto.
    intros Hn _ Hh. unfold holds_rest in Hn. fold (jline j) in Hn. rewrite Hh in Hn.
    by destruct (waits_for_room (rf_code r)).
  - destruct place as [id|].
    { apply (deciding_wait seen s j next_in_turn None true sn'); cbn; auto. }
    constructor; cbn.
    + intros id [= <-]. exists j. split_and!; [set_solver|done|by split].
    + intros i [Hi| ->%list_elem_of_singleton]%elem_of_app Hp; [|done]. by apply (di_waiting _ _ Hinv).
    + intros id w Hw. destruct (di_only _ _ Hinv _ _ Hw) as (_&i&Hi&<-). split; [|exists i; set_solver].
      intros [= E]. by apply (Hid i Hi).
    + intros _ i [Hi| ->%list_elem_of_singleton]%elem_of_app Hf Hh Hp; [|done]. by apply (di_hold _ _ Hinv).
    + intros _ i [Hi| ->%list_elem_of_singleton]%elem_of_app Hf Hfl; [|auto]. apply Hsub. by apply (di_seen _ _ Hinv).
    + intros l1 k l2 Hsplit [= Hk] i Hi Hf.
      destruct l2 as [|x l2 _] using rev_ind.
      * apply app_inj_2 in Hsplit as [-> [= ->]]; [|done]. split.
        -- intros Hh. apply (di_hold _ _ Hinv); done.
        -- intros Hfl Hkeys. rewrite Hfl in Hseen. cbn in Hseen. apply bool_decide_eq_false in Hseen.
           apply Hseen. rewrite <- Hkeys. apply (di_seen _ _ Hinv); try done.
           unfold fifo_line in *. unfold fifo_key in Hkeys. by injection Hkeys as _ _ ->.
      * rewrite app_comm_cons, app_assoc in Hsplit. apply app_inj_2 in Hsplit as [-> [= ->]]; [|done].
        exfalso. apply (Hid k); [set_solver|done].
Qed.

Lemma deciding_spec jobs :
  NoDup (qj_id <$> jobs) →
  deciding_inv jobs (fold_left (decide_one offer load caps position) jobs (mk_Deciding None None false ∅ ∅)).
Proof.
  induction jobs as [|j jobs IH] using rev_ind; intros Hnd.
  - constructor; cbn; try done; try set_solver.
  - rewrite fmap_app in Hnd. apply NoDup_app in Hnd as (Hnd&Hni&_).
    rewrite fold_left_app. cbn [fold_left]. apply decide_one_inv; [by apply IH|].
    intros i Hi E. apply (Hni (qj_id i)); [by apply list_elem_of_fmap_2|]. rewrite E. set_solver.
Qed.
End deciding.

(** ** Positions *)

Lemma positions_spec jobs :
  NoDup (qj_id <$> jobs) → ∀ k j, jobs !! k = Some j → positions jobs !! qj_id j = Some (S k).
Proof.
  intros Hnd. unfold positions.
  assert (H : ∀ n l (m : gmap string nat), NoDup (qj_id <$> l) →
    let m' := fold_left (λ m e, <[qj_id e.2 := S e.1]> m) (zip (seq n (length l)) l) m in
    (∀ id, id ∉ qj_id <$> l → m' !! id = m !! id)
    ∧ ∀ k j, l !! k = Some j → m' !! qj_id j = Some (S (n + k))).
  2:{ intros k j. by apply (H 0%nat jobs ∅ Hnd). }
  intros n l. revert n. induction l as [|x l IH]; intros n m Hn; cbn; [done|].
  rewrite fmap_cons in Hn. apply NoDup_cons in Hn as [Hx Hn].
  destruct (IH (S n) (<[qj_id x := S n]> m) Hn) as [Hout Hin]. split.
  - intros id Hid. rewrite Hout by set_solver. rewrite lookup_insert_ne; [done|set_solver].
  - intros [|k] j; cbn.
    + intros [= ->]. rewrite Hout by done. by rewrite lookup_insert_eq, Nat.add_0_r.
    + intros Hk. rewrite (Hin k j Hk). f_equal. lia.
Qed.

Lemma wait_all_spec jobs why :
  NoDup (qj_id <$> jobs) → ∀ k j, jobs !! k = Some j → wait_all jobs why !! qj_id j = Some (S k, why).
Proof.
  intros Hnd k j Hk. unfold wait_all.
  assert (H : ∀ (f : QueuedJob → nat) l (m : gmap string (nat * Refusal)), NoDup (qj_id <$> l) → j ∈ l →
    fold_left (λ m j, <[qj_id j := (f j, why)]> m) l m !! qj_id j = Some (f j, why)).
  { intros f l. induction l as [|x l IH] using rev_ind; intros m Hn Hj; [set_solver|].
    rewrite fold_left_app. cbn. rewrite fmap_app in Hn. apply NoDup_app in Hn as (Hn&Hni&_).
    apply elem_of_app in Hj as [Hj| ->%list_elem_of_singleton].
    - rewrite lookup_insert_ne; [by apply IH|]. intros E. apply (Hni (qj_id j)); [by apply list_elem_of_fmap_2|].
      rewrite <- E. set_solver.
    - by rewrite lookup_insert_eq. }
  rewrite (H (λ j, default 0%nat (positions jobs !! qj_id j))) by (done || by eapply list_elem_of_lookup_2).
  by rewrite (positions_spec jobs Hnd k j Hk).
Qed.

(** What the order and the loop say, put together. *)
Lemma decide_with_spec now queue turns load caps offer pause :
  NoDup (qj_id <$> queue) →
  ∃ ord d, order_with now queue turns = Some ord ∧ solo_ordered now queue turns ord
    ∧ decide_with now queue turns load caps offer pause = Some d
    ∧ NoDup (qj_id <$> ord)
    ∧ match pause, offer with
      | None, Some o => ∃ s, deciding_inv o load caps (positions ord) ord s
          ∧ sd_place d = dg_place s ∧ sd_waiting d = dg_waiting s
      | Some p, _ => sd_place d = None ∧ sd_waiting d = wait_all ord
          (Refusal_new CONTROLLER_PAUSED ("the server's owner " +:+ p +:+ " this node"))
      | None, None => sd_place d = None ∧ sd_waiting d = wait_all ord
          (Refusal_new "node_offline" "the node is offline; the job starts when it reconnects")
      end.
Proof.
  intros Hnd. destruct (order_with_spec now queue turns) as (ord&Hord&Hok).
  assert (NoDup (qj_id <$> ord)) as Hnd' by (by rewrite (sl_perm _ _ _ _ Hok)).
  unfold decide_with. rewrite Hord. cbn [mbind option_bind]. eexists ord, _. split_and!; [done..|].
  case_bool_decide as He.
  - subst ord. destruct pause; [done|]. destruct offer as [o|]; [|done].
    exists (mk_Deciding None None false ∅ ∅). split; [|done]. by apply deciding_spec.
  - destruct pause; [done|]. destruct offer as [o|]; [|done]. eexists. split; [by apply deciding_spec|done].
Qed.

Lemma verdict_ok offer load caps j :
  verdict offer load caps false j = None →
  offer_refusal offer (load_total load) (ld_exclusive_running load) (ask j) = None
  ∧ within_grant j load (lm_grant_max_parallel caps) = true
  ∧ within_submitter_cap j load (lm_submitter_max_running caps) = true
  ∧ (jline j = Line_Batch → load_total load ≤ 0).
Proof.
  unfold verdict. destruct (offer_refusal _ _ _ _); [done|].
  destruct (within_grant _ _ _); [|done]. destruct (within_submitter_cap _ _ _); [|done]. cbn.
  intros Hb. split_and!; try done. intros Hl. unfold jline in Hl. rewrite Hl in Hb. cbn in Hb.
  destruct (Z.ltb_spec 0 (load_total load)); [done|lia].
Qed.

(** ** [--any] *)

Section pick_best.
Context (skip : Offer → Load → bool) (score : Offer → Z * Z).

Definition score_le (a b : Z * Z) : Prop := a.1 < b.1 ∨ (a.1 = b.1 ∧ a.2 ≤ b.2).

Lemma score_gt_false a b : score_gt a b = false → score_le a b.
Proof. unfold score_gt, score_le. intros H. bool_props. rewrite andb_false_iff, Z.eqb_neq, Z.ltb_ge in *. lia. Qed.
Lemma score_gt_true a b : score_gt a b = true → score_le b a ∧ ¬ score_le a b.
Proof. unfold score_gt, score_le. rewrite orb_true_iff, andb_true_iff, !Z.ltb_lt, Z.eqb_eq. lia. Qed.
Lemma score_le_trans a b c : score_le a b → score_le b c → score_le a c.
Proof. unfold score_le. lia. Qed.

(** The loop returns the first candidate of the best score. *)
Lemma pick_best_spec l :
  match pick_best skip score l with
  | None => ∀ id o ld, (id, o, ld) ∈ l → skip o ld = true
  | Some (id, sc) => ∃ l1 o ld l2, l = l1 ++ (id, o, ld) :: l2 ∧ skip o ld = false ∧ sc = score o
      ∧ (∀ id' o' ld', (id', o', ld') ∈ l → skip o' ld' = false → score_le (score o') sc)
      ∧ (∀ id' o' ld', (id', o', ld') ∈ l1 → skip o' ld' = false → ¬ score_le sc (score o'))
  end.
Proof.
  unfold pick_best. induction l as [|[[id o] ld] l IH] using rev_ind; [by intros ? ? ? []%not_elem_of_nil|].
  rewrite fold_left_app. cbn [fold_left]. destruct (fold_left _ l None) as [[b sb]|]; cbv beta iota.
  - destruct IH as (l1&ob&lb&l2&->&Hskb&->&Hmax&Hfirst). destruct (skip o ld) eqn:Hsk.
    + exists l1, ob, lb, (l2 ++ [(id, o, ld)]). rewrite <- app_assoc. split_and!; try done.
      intros id' o' ld'. rewrite app_assoc.
      intros [Hin|[= -> -> ->]%list_elem_of_singleton]%elem_of_app Hs; [by eapply Hmax|congruence].
    + cbn. destruct (score_gt (score o) (score ob)) eqn:Hgt.
      * apply score_gt_true in Hgt as [Hle Hnle].
        exists (l1 ++ (b, ob, lb) :: l2), o, ld, []. split_and!; try done.
        -- intros id' o' ld' [Hin|[= -> -> ->]%list_elem_of_singleton]%elem_of_app Hs.
           ++ eapply score_le_trans; [by eapply Hmax|done].
           ++ unfold score_le. lia.
        -- intros id' o' ld' Hin Hs Hle'. apply Hnle. eapply score_le_trans; [done|by eapply Hmax].
      * apply score_gt_false in Hgt. exists l1, ob, lb, (l2 ++ [(id, o, ld)]).
        rewrite <- app_assoc. split_and!; try done.
        intros id' o' ld'. rewrite app_assoc.
        intros [Hin|[= -> -> ->]%list_elem_of_singleton]%elem_of_app Hs; [by eapply Hmax|done].
  - destruct (skip o ld) eqn:Hsk.
    + intros id' o' ld' [Hin|[= -> -> ->]%list_elem_of_singleton]%elem_of_app; [by eapply IH|done].
    + exists l, o, ld, []. split_and!; try done.
      * intros id' o' ld' [Hin|[= -> -> ->]%list_elem_of_singleton]%elem_of_app Hs.
        -- by rewrite (IH _ _ _ Hin) in Hs.
        -- unfold score_le. lia.
      * intros id' o' ld' Hin Hs. by rewrite (IH _ _ _ Hin) in Hs.
Qed.
End pick_best.

(** ** Properties *)

(** The start order of a solo node is always produced (the round-robin and
    alternation loops end), keeps every queued job exactly once, and is: CI
    jobs by arrival; then Priority and Standard in turn as long as both wait;
    then Batch; inside each of those lines the aged jobs by arrival, then the
    workspaces in turn after the last placed, each workspace's submitters in
    turn, and each submitter FIFO. *)
Theorem solo_order_discipline (now : Z) (queue : list QueuedJob) (turns : Turns) :
  ∃ ord, order_with now queue turns = Some ord ∧ solo_ordered now queue turns ord.
Proof. apply order_with_spec. Qed.

(** A placement is sound: the job is in the queue, the node is connected and
    not paused by the controller, the job can ever fit there, the node's
    refusal list lets it start, and the grant's workspace and submitter caps
    hold; a Batch job is placed only with nothing running. *)
Theorem solo_place_sound now queue turns load caps offer pause d id :
  NoDup (qj_id <$> queue) →
  decide_with now queue turns load caps offer pause = Some d → sd_place d = Some id →
  ∃ o j, offer = Some o ∧ pause = None ∧ j ∈ queue ∧ qj_id j = id
    ∧ never_fits o j = None
    ∧ offer_refusal o (load_total load) (ld_exclusive_running load) (ask j) = None
    ∧ within_grant j load (lm_grant_max_parallel caps) = true
    ∧ within_submitter_cap j load (lm_submitter_max_running caps) = true
    ∧ (jline j = Line_Batch → load_total load ≤ 0).
Proof.
  intros Hnd Hd Hp.
  destruct (decide_with_spec now queue turns load caps offer pause Hnd) as (ord&d'&_&Hok&Hd'&_&Hcase).
  simplify_eq. destruct pause as [p|]; [naive_solver congruence|].
  destruct offer as [o|]; [|naive_solver congruence].
  destruct Hcase as (s&Hinv&Hpl&_). rewrite Hpl in Hp.
  destruct (di_place _ _ _ _ _ _ Hinv _ Hp) as (j&Hj&Hid&Hnf&Hv).
  exists o, j. rewrite (sl_perm _ _ _ _ Hok) in Hj. apply verdict_ok in Hv as (?&?&?&?).
  split_and!; done.
Qed.

(** Every queued job is accounted for: the placed one has no wait reason, and
    every other one waits with a reason and its 1-based position in the
    start order. *)
Theorem solo_waiting_complete now queue turns load caps offer pause :
  NoDup (qj_id <$> queue) →
  ∃ ord d, order_with now queue turns = Some ord
    ∧ decide_with now queue turns load caps offer pause = Some d
    ∧ ∀ k j, ord !! k = Some j →
        (sd_place d = Some (qj_id j) ∧ sd_waiting d !! qj_id j = None)
        ∨ (sd_place d ≠ Some (qj_id j) ∧ ∃ r, sd_waiting d !! qj_id j = Some (S k, r)).
Proof.
  intros Hnd.
  destruct (decide_with_spec now queue turns load caps offer pause Hnd) as (ord&d&Hord&_&Hd&Hndo&Hcase).
  exists ord, d. split_and!; [done..|]. intros k j Hk.
  pose proof (list_elem_of_lookup_2 _ _ _ Hk) as Hj.
  destruct pause as [p|].
  { destruct Hcase as [-> ->]. right. split; [done|]. eexists. by apply wait_all_spec. }
  destruct offer as [o|].
  2:{ destruct Hcase as [-> ->]. right. split; [done|]. eexists. by apply wait_all_spec. }
  destruct Hcase as (s&Hinv&->&->). destruct (decide (dg_place s = Some (qj_id j))) as [Hp|Hp].
  - left. split; [done|]. destruct (dg_waiting s !! qj_id j) as [w|] eqn:Hw; [|done].
    by destruct (di_only _ _ _ _ _ _ Hinv _ _ Hw).
  - right. split; [done|]. destruct (di_waiting _ _ _ _ _ _ Hinv j Hj Hp) as [r Hr].
    exists r. by rewrite Hr, (positions_spec _ Hndo k j Hk).
Qed.

(** Nothing is placed past a CI or Priority job that waits for room (the
    next free slot is its), and a Standard or Batch job is placed only after
    every older job of the same workspace, submitter and line that could
    ever fit the node. *)
Theorem solo_next_free_slot now queue turns load caps o d ord l1 i l2 j l3 :
  NoDup (qj_id <$> queue) →
  decide_with now queue turns load caps (Some o) None = Some d →
  order_with now queue turns = Some ord → ord = l1 ++ i :: l2 ++ j :: l3 →
  sd_place d = Some (qj_id j) → never_fits o i = None →
  (holds (jline i) = true →
     ∃ p r, sd_waiting d !! qj_id i = Some (p, r) ∧ waits_for_room (rf_code r) = false)
  ∧ (fifo_line j = true → fifo_key i ≠ fifo_key j).
Proof.
  intros Hnd Hd Hord Hsplit Hp Hf.
  destruct (decide_with_spec now queue turns load caps (Some o) None Hnd) as (ord'&d'&Hord'&_&Hd'&_&Hcase).
  simplify_eq. destruct Hcase as (s&Hinv&Hpl&Hw). rewrite Hpl in Hp. rewrite Hw.
  apply (di_before _ _ _ _ _ _ Hinv (l1 ++ i :: l2) j l3); [by rewrite <- app_assoc|done|set_solver|done].
Qed.

(** [--any] picks the first of the candidates that take the job now with the
    warmest slot and, among those, the most free CPU; it picks none only when
    no candidate takes the job. *)
Theorem pick_any_best candidates project_key commit job :
  let takes (o : Offer) (ld : Load) := offer_refusal o (load_total ld) (ld_exclusive_running ld) (ask job) = None in
  let score (o : Offer) := (warmth o project_key commit, fr_cpu_millis (of_free o)) in
  match pick_any candidates project_key commit job with
  | None => ∀ id o ld, (id, o, ld) ∈ candidates → ¬ takes o ld
  | Some id => ∃ l1 o ld l2, candidates = l1 ++ (id, o, ld) :: l2 ∧ takes o ld
      ∧ (∀ id' o' ld', (id', o', ld') ∈ candidates → takes o' ld' → score_le (score o') (score o))
      ∧ (∀ id' o' ld', (id', o', ld') ∈ l1 → takes o' ld' → ¬ score_le (score o) (score o'))
  end.
Proof.
  intros takes score. unfold pick_any. set (skip := λ offer load, _). fold score.
  assert (Hskip : ∀ o ld, skip o ld = false ↔ takes o ld).
  { intros o ld. unfold skip, takes. by destruct (offer_refusal _ _ _ _). }
  pose proof (pick_best_spec skip score candidates) as H.
  destruct (pick_best skip score candidates) as [[id sc]|]; cbn.
  - destruct H as (l1&o&ld&l2&Hc&Hs&->&Hmax&Hfirst). exists l1, o, ld, l2.
    split_and!; [done|by apply Hskip|..]; intros id' o' ld' Hin Ht; [eapply Hmax|eapply Hfirst]; try done; by apply Hskip.
  - intros id o ld Hin Ht. apply Hskip in Ht. by rewrite (H _ _ _ Hin) in Ht.
Qed.

(** ** A concrete node *)

Definition example_offer (running : Z) : Offer :=
  mk_Offer 1 Control_Active None None (mk_Availability true []) (mk_FramesCaps 4000 (8 * 2 ^ 30) (100 * 2 ^ 30) true)
    (mk_Free 4000 (8 * 2 ^ 30) (50 * 2 ^ 30)) [] running 2 None ∅ {["git" := "2.43"]} 6 "b" "l" "0.46" [].
Definition example_queued (id ws : string) (at' : Z) (tier : Tier) : QueuedJob :=
  mk_QueuedJob id ws at' false (Some 1000) (Some (2 ^ 30)) 0 true tier (Some "u").
Definition example_queue : list QueuedJob :=
  [example_queued "b" "w" 5 Tier_Batch; example_queued "n1" "w" 10 Tier_Normal;
   example_queued "n2" "w" 11 Tier_Normal; example_queued "ci" "v" 20 Tier_Ci].
Definition example_load : Load := mk_Load {["w" := 1]} false {[("w", "u") := 1]}.
Definition example_limits : Limits := mk_Limits (λ _, 4) (λ _, 0).
Definition example_solo (load : Load) : SoloDecision :=
  default (mk_SoloDecision None ∅)
    (decide_with 100 example_queue (Turns_ws None) load example_limits (Some (example_offer 1)) None).

Lemma example_queue_nodup : NoDup (qj_id <$> example_queue).
Proof. apply (bool_decide_unpack _). vm_compute. exact I. Qed.

Lemma solo_place_sound_witness :
  sd_place (example_solo example_load) = Some "ci"
  ∧ ∃ o j, Some (example_offer 1) = Some o ∧ j ∈ example_queue ∧ qj_id j = "ci" ∧ never_fits o j = None.
Proof.
  split; [vm_compute; reflexivity|].
  destruct (solo_place_sound 100 example_queue (Turns_ws None) example_load example_limits
    (Some (example_offer 1)) None (example_solo example_load) "ci") as (o&j&?&_&?&?&?&_).
  - apply example_queue_nodup.
  - vm_compute. reflexivity.
  - vm_compute. reflexivity.
  - exists o, j. split_and!; assumption.
Defined.

Lemma solo_waiting_complete_witness :
  ∃ ord d, order_with 100 example_queue (Turns_ws None) = Some ord
    ∧ decide_with 100 example_queue (Turns_ws None) example_load example_limits (Some (example_offer 1)) None = Some d.
Proof.
  destruct (solo_waiting_complete 100 example_queue (Turns_ws None) example_load example_limits
    (Some (example_offer 1)) None example_queue_nodup) as (ord&d&?&?&_).
  exists ord, d. split; assumption.
Defined.

(** Without the CI job, over its grant, a Standard job behind it is placed. *)
Definition example_hold_queue : list QueuedJob :=
  [example_queued "ci" "v" 20 Tier_Ci; example_queued "n1" "w" 10 Tier_Normal].
Definition example_full : Load := mk_Load {["v" := 1]} false ∅.
Definition example_full_limits : Limits := mk_Limits (λ w, if (w =? "v")%string then 1 else 4) (λ _, 0).
Definition example_hold_decision : SoloDecision :=
  default (mk_SoloDecision None ∅)
    (decide_with 100 example_hold_queue (Turns_ws None) example_full example_full_limits (Some (example_offer 1)) None).

Lemma solo_next_free_slot_witness :
  sd_place example_hold_decision = Some "n1"
  ∧ ∃ p r, sd_waiting example_hold_decision !! "ci" = Some (p, r) ∧ waits_for_room (rf_code r) = false.
Proof.
  split; [vm_compute; reflexivity|].
  refine (proj1 (solo_next_free_slot 100 example_hold_queue (Turns_ws None) example_full example_full_limits
    (example_offer 1) example_hold_decision example_hold_queue [] (example_queued "ci" "v" 20 Tier_Ci) []
    (example_queued "n1" "w" 10 Tier_Normal) [] _ _ _ _ _ _) _).
  - apply (bool_decide_unpack _). vm_compute. exact I.
  - vm_compute. reflexivity.
  - vm_compute. reflexivity.
  - reflexivity.
  - vm_compute. reflexivity.
  - vm_compute. reflexivity.
  - reflexivity.
Defined.
