(* ===== verification/Retry.v ===== *)
(** * Retries and node quarantine

    [crates/k2-core/src/compute/retry.rs]: which ends are infrastructure
    failures, the backoff between attempts, and when a node is set aside. *)

From S2P Require Import Prelude Share Refusal.

Record Tuning := mk_Tuning {
  tg_replace_after_secs : Z;
  tg_node_lost_secs : Z;
  tg_retry_base_secs : Z;
  tg_retry_cap_secs : Z;
  tg_quarantine_after : Z;
  tg_quarantine_secs : Z;
  tg_queue_timeout_attached_secs : Z;
  tg_queue_timeout_detached_secs : Z;
  tg_stall_secs : Z;
  tg_tick_millis : Z;
  tg_any_hold_secs : Z;
  tg_servers_refresh_secs : Z;
}.

Definition Tuning_default : Tuning := {|
  tg_replace_after_secs := 60;
  tg_node_lost_secs := 600;
  tg_retry_base_secs := 30;
  tg_retry_cap_secs := 600;
  tg_quarantine_after := 3;
  tg_quarantine_secs := 1800;
  tg_queue_timeout_attached_secs := 7200;
  tg_queue_timeout_detached_secs := 86400;
  tg_stall_secs := 1800;
  tg_tick_millis := 5000;
  tg_any_hold_secs := 60;
  tg_servers_refresh_secs := 300;
|}.

Definition node_lost_override (value : option string) (debug_build test_knobs : bool) : option Z :=
  guard negb (debug_build || test_knobs) ret None;
  v ← value;
  s ← parse_i64_bytes (trim_chars (chars v));
  if (5 <=? s) && (s <=? 600) then Some s else None.

(** [tuning], on the override in force ([TUNING]) and the two variables. *)
Definition tuning (set : option Tuning) (node_lost test_knobs : option string) (debug_build : bool) : Tuning :=
  let t := default Tuning_default set in
  let knobs := opt_is_some_and (λ v, bool_decide (trim_chars (chars v) = chars "1")) test_knobs in
  match node_lost_override node_lost debug_build knobs with
  | Some s => {|
      tg_replace_after_secs := tg_replace_after_secs t;
      tg_node_lost_secs := s;
      tg_retry_base_secs := tg_retry_base_secs t;
      tg_retry_cap_secs := tg_retry_cap_secs t;
      tg_quarantine_after := tg_quarantine_after t;
      tg_quarantine_secs := tg_quarantine_secs t;
      tg_queue_timeout_attached_secs := tg_queue_timeout_attached_secs t;
      tg_queue_timeout_detached_secs := tg_queue_timeout_detached_secs t;
      tg_stall_secs := tg_stall_secs t;
      tg_tick_millis := tg_tick_millis t;
      tg_any_hold_secs := tg_any_hold_secs t;
      tg_servers_refresh_secs := tg_servers_refresh_secs t;
    |}
  | None => t
  end.

(** ** Reasons *)

Definition secret_NOT_GRANTED : string := "secret_not_granted".
Definition secret_NOT_ACTIVE : string := "secret_not_active".
Definition secret_ATTEMPT_STALE : string := "secret_attempt_stale".
Definition secret_ALREADY_RUNNING : string := "secret_already_running".
Definition secret_TOO_LARGE : string := "secret_too_large".
Definition secret_VAULT_LOCKED : string := "secret_vault_locked".
Definition secret_UNAVAILABLE : string := "secret_unavailable".
Definition secret_PAYLOAD_MISMATCH : string := "secret_payload_mismatch".
Definition secret_NEEDS_WALL : string := "secret_needs_wall".
Definition secret_UNTRUSTED_SERVER : string := "secret_untrusted_server".
Definition secret_NEEDS_UPDATE : string := "secret_needs_update".
Definition secret_LINUX_ONLY : string := "secret_env_linux_only".

Definition JOB_FAILED_REASONS : list string := [
  "cwd_invalid"; "env_refused"; "tool_unsupported"; "need_invalid"; "mem_cap"; "wrong_node";
  "queue_timeout"; "exceeds_node_caps";
  secret_NOT_GRANTED; secret_NOT_ACTIVE; secret_ATTEMPT_STALE; secret_ALREADY_RUNNING;
  secret_TOO_LARGE; secret_PAYLOAD_MISMATCH].

Definition NEEDS_FAILED_REASONS : list string := [
  "package_not_approved"; "package_missing"; "tool_install_failed"; "relay_cap";
  secret_NEEDS_WALL; secret_UNTRUSTED_SERVER; secret_NEEDS_UPDATE; secret_LINUX_ONLY].

Definition NO_STRIKE_REASONS : list string := [codes_NODE_UPDATE; secret_UNAVAILABLE; secret_VAULT_LOCKED].

Definition is_infra (state : JobState) (reason : option string) : bool :=
  match state with
  | JobState_Interrupted | JobState_Unknown => true
  | JobState_Failed => negb (opt_is_some_and (λ r, mem_str r JOB_FAILED_REASONS) reason)
  | _ => false
  end.

Definition retry_elsewhere_only (reason : option string) : bool :=
  opt_is_some_and (λ r, mem_str r NEEDS_FAILED_REASONS) reason.

Definition counts_against_node (state : JobState) (reason : option string) : bool :=
  is_infra state reason
  && negb (opt_is_some_and (λ r, mem_str r NEEDS_FAILED_REASONS || mem_str r NO_STRIKE_REASONS) reason).

(** ** Backoff *)

Definition i64_sat_mul (a b : Z) : Z := i64_sat (a * b).
(** [i64::clamp] ([lo <= hi] there). *)
Definition clamp (x lo hi : Z) : Z := if x <? lo then lo else if hi <? x then hi else x.

(** The delay before jitter. *)
Definition backoff_raw (n : Z) (t : Tuning) : Z :=
  let exp := Z.min (Z.max 0 (n - 1)) 20 in
  Z.max (Z.min (i64_sat_mul (tg_retry_base_secs t) (Z.shiftl 1 exp)) (tg_retry_cap_secs t)) 0.

(** Retry [n] is a [u32], [seed] a [u64]. *)
Definition backoff_secs (n : Z) (t : Tuning) (seed : Z) : Z :=
  let raw := backoff_raw n t in
  guard raw =? 0 ret 0;
  let span := Z.max (raw / 5) 0 in
  guard span =? 0 ret raw;
  let jitter := i64 (i64 (seed mod u64 (2 * span + 1)) - span) in
  clamp (i64 (raw + jitter)) 0 (Z.max (tg_retry_cap_secs t) raw).

(** ** Quarantine *)

Record NodeHealth := mk_NodeHealth {
  nh_consecutive : Z;
  nh_until : option Z;
}.

Definition NodeHealth_default : NodeHealth := mk_NodeHealth 0 None.

Definition is_set_aside (h : NodeHealth) (now : Z) : bool := opt_is_some_and (λ u, now <? u) (nh_until h).

(** [record]: the new state, and whether this end set the node aside. *)
Definition health_record (h : NodeHealth) (state : JobState) (reason : option string) (now : Z) (t : Tuning)
    : NodeHealth * bool :=
  if counts_against_node state reason then
    let h := mk_NodeHealth (u32 (nh_consecutive h + 1)) (nh_until h) in
    if (Z.max (tg_quarantine_after t) 1 <=? nh_consecutive h) && negb (is_set_aside h now)
    then (mk_NodeHealth 0 (Some (i64 (now + tg_quarantine_secs t))), true)
    else (h, false)
  else if bool_decide (state = JobState_Done) then (mk_NodeHealth 0 (nh_until h), false)
  else (h, false).

(** One attempt's end on a node: state, reason, time. *)
Definition End : Type := JobState * option string * Z.

(** A node's ends in order; how often it was set aside. *)
Fixpoint health_run (h : NodeHealth) (t : Tuning) (ends : list End) : NodeHealth * nat :=
  match ends with
  | [] => (h, 0%nat)
  | (state, reason, now) :: ends =>
    let '(h, aside) := health_record h state reason now t in
    let '(h, n) := health_run h t ends in
    (h, ((if (aside : bool) then 1 else 0) + n)%nat)
  end.

(** ** Lemmas *)

Lemma backoff_raw_bounds n t :
  0 ≤ tg_retry_cap_secs t → 0 ≤ backoff_raw n t ≤ tg_retry_cap_secs t.
Proof. unfold backoff_raw. lia. Qed.

Lemma shiftl_1 e : 0 ≤ e → Z.shiftl 1 e = 2 ^ e.
Proof. intros. rewrite Z.shiftl_mul_pow2; lia. Qed.

Lemma i64_sat_mono x y : x ≤ y → i64_sat x ≤ i64_sat y.
Proof. unfold i64_sat. lia. Qed.

Lemma backoff_raw_mono n m t :
  0 ≤ tg_retry_base_secs t → n ≤ m → backoff_raw n t ≤ backoff_raw m t.
Proof.
  intros Hb Hnm. unfold backoff_raw, i64_sat_mul. rewrite !shiftl_1 by lia.
  set (e := Z.min (Z.max 0 (n - 1)) 20). set (f := Z.min (Z.max 0 (m - 1)) 20).
  assert (2 ^ e ≤ 2 ^ f) by (apply Z.pow_le_mono_r; lia).
  assert (tg_retry_base_secs t * 2 ^ e ≤ tg_retry_base_secs t * 2 ^ f) as Hle by nia. apply i64_sat_mono in Hle. lia.
Qed.

Lemma backoff_raw_doubles n t :
  1 ≤ n ≤ 21 → 0 ≤ tg_retry_base_secs t → tg_retry_base_secs t * 2 ^ (n - 1) ≤ tg_retry_cap_secs t →
  tg_retry_cap_secs t ≤ i64_max → backoff_raw n t = tg_retry_base_secs t * 2 ^ (n - 1).
Proof.
  intros Hn Hb Hc Hcap. unfold backoff_raw, i64_sat_mul. rewrite shiftl_1 by lia.
  replace (Z.min (Z.max 0 (n - 1)) 20) with (n - 1) by lia.
  unfold i64_sat, i64_min, i64_max in *.
  assert (0 ≤ 2 ^ (n - 1)) by (apply Z.pow_nonneg; lia).
  assert (0 ≤ tg_retry_base_secs t * 2 ^ (n - 1)) by nia. lia.
Qed.

Lemma clamp_bounds x lo hi : lo ≤ hi → lo ≤ clamp x lo hi ≤ hi.
Proof. intros. unfold clamp. repeat case_match; bool_props; lia. Qed.

Lemma clamp_id x lo hi : lo ≤ x ≤ hi → clamp x lo hi = x.
Proof. intros. unfold clamp. repeat case_match; bool_props; lia. Qed.

Definition strike (e : End) : bool := counts_against_node e.1.1 e.1.2.

Lemma health_run_strikes h t ends :
  let '(h', n) := health_run h t ends in
  0 ≤ nh_consecutive h → nh_consecutive h + Z.of_nat (length ends) < 2 ^ 32 →
  0 ≤ nh_consecutive h'
  ∧ nh_consecutive h' + Z.max (tg_quarantine_after t) 1 * Z.of_nat n
    ≤ nh_consecutive h + Z.of_nat (length (List.filter strike ends)).
Proof.
  revert h. induction ends as [|[[state reason] now] ends IH]; intros h; cbn [health_run].
  { cbn. lia. }
  cbn [List.filter]. unfold strike at 1. cbn [fst snd]. unfold health_record.
  destruct (counts_against_node state reason); [|case_bool_decide as Hdone].
  - destruct (_ && _) eqn:Hset.
    + specialize (IH (mk_NodeHealth 0 (Some (i64 (now + tg_quarantine_secs t))))).
      destruct (health_run _ t ends) as [h' n]. cbn in *. bool_props. cbn in *. intros Hc Hlen.
      rewrite u32_small in * by lia. destruct IH; lia.
    + specialize (IH (mk_NodeHealth (u32 (nh_consecutive h + 1)) (nh_until h))).
      destruct (health_run _ t ends) as [h' n]. cbn in *. intros Hc Hlen.
      rewrite u32_small in * by lia. destruct IH; lia.
  - specialize (IH (mk_NodeHealth 0 (nh_until h))). destruct (health_run _ t ends) as [h' n]. cbn in *. lia.
  - specialize (IH h). destruct (health_run h t ends) as [h' n]. cbn in *. lia.
Qed.

(** A row of strikes while the node isn't set aside. *)
Lemma health_run_row h t ends e :
  0 ≤ nh_consecutive h → tg_quarantine_after t < 2 ^ 32 →
  (∀ e', e' ∈ ends ++ [e] → strike e' = true ∧ is_set_aside h e'.2 = false) →
  nh_consecutive h + Z.of_nat (length ends) + 1 = Z.max (tg_quarantine_after t) 1 →
  health_run h t (ends ++ [e]) = (mk_NodeHealth 0 (Some (i64 (e.2 + tg_quarantine_secs t))), 1%nat).
Proof.
  revert h. induction ends as [|[[st re] nw] ends IH]; intros h Hc Hq Hall Hlen; cbn [app health_run].
  - destruct e as [[state reason] now]. destruct (Hall (state, reason, now)) as [Hs Ha]; [set_solver|].
    unfold strike in Hs. cbn in Hs, Ha, Hlen. unfold health_record. rewrite Hs. cbn.
    rewrite u32_small by lia. unfold is_set_aside in *. cbn. rewrite Ha.
    rewrite (proj2 (Z.leb_le _ _)) by lia. done.
  - destruct (Hall (st, re, nw)) as [Hs Ha]; [set_solver|]. unfold strike in Hs. cbn in Hs, Ha, Hlen.
    unfold health_record. rewrite Hs. cbn. rewrite u32_small by lia.
    rewrite (proj2 (Z.leb_gt _ _)) by lia. cbn.
    rewrite IH; [done|cbn; lia|done| |cbn; lia].
    intros e' He'. apply (Hall e'). set_solver.
Qed.

(** ** Properties *)

(** The backoff: retry [n] waits the base doubled [n - 1] times (at most 20)
    and capped, give or take a fifth, and never longer than the cap; the
    delay before jitter never shrinks from one retry to the next. *)
Theorem backoff_bounds (n : Z) (t : Tuning) (seed : Z) :
  1 ≤ n → 0 ≤ tg_retry_base_secs t ≤ 2 ^ 40 → 0 ≤ tg_retry_cap_secs t ≤ 2 ^ 62 → 0 ≤ seed →
  backoff_raw n t = Z.min (tg_retry_base_secs t * 2 ^ Z.min (n - 1) 20) (tg_retry_cap_secs t)
  ∧ backoff_raw n t ≤ backoff_raw (n + 1) t
  ∧ 0 ≤ backoff_secs n t seed ≤ tg_retry_cap_secs t
  ∧ 5 * Z.abs (backoff_secs n t seed - backoff_raw n t) ≤ backoff_raw n t.
Proof.
  intros Hn Hb Hc Hs.
  pose proof (backoff_raw_bounds n t ltac:(lia)) as Hraw.
  assert (backoff_raw n t = Z.min (tg_retry_base_secs t * 2 ^ Z.min (n - 1) 20) (tg_retry_cap_secs t)) as Heq.
  { unfold backoff_raw, i64_sat_mul. rewrite shiftl_1 by lia.
    replace (Z.min (Z.max 0 (n - 1)) 20) with (Z.min (n - 1) 20) by lia.
    set (e := Z.min (n - 1) 20).
    assert (0 < 2 ^ e ≤ 2 ^ 20) by (split; [apply Z.pow_pos_nonneg; lia|apply Z.pow_le_mono_r; lia]).
    assert (0 ≤ tg_retry_base_secs t * 2 ^ e ≤ 2 ^ 40 * 2 ^ 20) by nia.
    unfold i64_sat, i64_min, i64_max. lia. }
  split; [done|]. split; [apply backoff_raw_mono; lia|]. clear Heq.
  unfold backoff_secs. destruct (Z.eqb_spec (backoff_raw n t) 0); [lia|].
  set (raw := backoff_raw n t) in *.
  assert (0 ≤ raw / 5) by (apply Z.div_pos; lia).
  pose proof (Z.mul_div_le raw 5 ltac:(lia)).
  replace (Z.max (raw / 5) 0) with (raw / 5) by lia.
  destruct (Z.eqb_spec (raw / 5) 0); [lia|].
  rewrite u64_small by lia.
  pose proof (Z.mod_pos_bound seed (2 * (raw / 5) + 1) ltac:(lia)).
  rewrite (i64_small (seed mod _)) by (unfold i64_min, i64_max; lia).
  rewrite (i64_small (_ - raw / 5)) by (unfold i64_min, i64_max; lia).
  rewrite i64_small by (unfold i64_min, i64_max; lia).
  set (x := raw + (seed mod (2 * (raw / 5) + 1) - raw / 5)).
  replace (Z.max (tg_retry_cap_secs t) raw) with (tg_retry_cap_secs t) by lia.
  pose proof (clamp_bounds x 0 (tg_retry_cap_secs t) ltac:(lia)).
  split; [done|]. unfold clamp in *. repeat case_match; bool_props; lia.
Qed.

Lemma backoff_bounds_witness :
  backoff_secs 3 Tuning_default 7 = 103 ∧ 0 ≤ backoff_secs 3 Tuning_default 7 ≤ 600.
Proof.
  split; [vm_compute; reflexivity|].
  apply (backoff_bounds 3 Tuning_default 7); vm_compute; try split; congruence.
Defined.

(** Quarantine never fires early: a node is set aside at most once per
    [quarantine_after] strikes, so results (exit codes, timeouts, cancels)
    and failures that are the job's own never set it aside. *)
Theorem quarantine_not_early (t : Tuning) (ends : list End) :
  Z.of_nat (length ends) < 2 ^ 32 →
  Z.max (tg_quarantine_after t) 1 * Z.of_nat (health_run NodeHealth_default t ends).2
    ≤ Z.of_nat (length (List.filter strike ends)).
Proof.
  intros Hlen. pose proof (health_run_strikes NodeHealth_default t ends) as H.
  destruct (health_run _ t ends) as [h' n]. cbn in *. lia.
Qed.

Lemma quarantine_not_early_witness :
  Z.max (tg_quarantine_after Tuning_default) 1
    * Z.of_nat (health_run NodeHealth_default Tuning_default [(JobState_Failed, Some "disk_full", 5)]).2 ≤ 1.
Proof.
  apply (quarantine_not_early Tuning_default [(JobState_Failed, Some "disk_full", 5)]). vm_compute. reflexivity.
Defined.

(** Quarantine fires on time: [quarantine_after] strikes in a row on a node
    that isn't set aside set it aside, exactly once and at the last of them,
    for [quarantine_secs], and start the count again. *)
Theorem quarantine_on_time (t : Tuning) (h : NodeHealth) (ends : list End) (e : End) :
  nh_consecutive h = 0 → tg_quarantine_after t < 2 ^ 32 →
  (∀ e', e' ∈ ends ++ [e] → strike e' = true ∧ is_set_aside h e'.2 = false) →
  Z.of_nat (length ends) + 1 = Z.max (tg_quarantine_after t) 1 →
  health_run h t (ends ++ [e]) = (mk_NodeHealth 0 (Some (i64 (e.2 + tg_quarantine_secs t))), 1%nat).
Proof. intros Hc Hq Hall Hlen. apply health_run_row; try done; lia. Qed.

Lemma quarantine_on_time_witness :
  let e (now : Z) : End := (JobState_Interrupted, None, now) in
  health_run NodeHealth_default Tuning_default ([e 1; e 2] ++ [e 3]) = (mk_NodeHealth 0 (Some 1803), 1%nat).
Proof.
  intros e. apply (quarantine_on_time Tuning_default NodeHealth_default [e 1; e 2] (e 3)).
  - reflexivity.
  - vm_compute. reflexivity.
  - intros e' [->|[->|[->|[]%not_elem_of_nil]%elem_of_cons]%elem_of_cons]%elem_of_cons; split; reflexivity.
  - reflexivity.
Defined.

(** Only infrastructure ends count against a node, and never one whose reason
    is the job's own, its needs on this node, or one of the excused ones. *)
Theorem strikes_are_infra (state : JobState) (reason : option string) :
  counts_against_node state reason = true →
  (state = JobState_Interrupted ∨ state = JobState_Unknown ∨ state = JobState_Failed)
  ∧ ∀ r, reason = Some r → r ∉ NEEDS_FAILED_REASONS ∧ r ∉ NO_STRIKE_REASONS
      ∧ (state = JobState_Failed → r ∉ JOB_FAILED_REASONS).
Proof.
  unfold counts_against_node. intros [Hi Hn]%andb_true_iff. split; [destruct state; auto; done|].
  intros r ->. unfold opt_is_some_and in Hn. bool_props. rewrite <- !mem_str_not_elem. split_and!; [done..|].
  intros ->. unfold is_infra, opt_is_some_and in Hi. by apply negb_true_iff.
Qed.

Lemma strikes_are_infra_witness :
  ∀ r, Some "disk_full" = Some r → r ∉ NEEDS_FAILED_REASONS.
Proof.
  intros r Hr. apply (strikes_are_infra JobState_Failed (Some "disk_full") eq_refl). exact Hr.
Defined.
