(* ===== verification/LoginThrottle.v ===== *)
(** * The login throttle

    [crates/k2-daemon/src/login_throttle.rs]: a sliding-window limiter per
    key, in four bounded tables, and a ceiling on anonymous failures per
    door. The store is behind one lock, so every operation is one step of the
    state; the order in which a [HashMap] is iterated is the parameter
    [hash_iter]. *)

From S2P Require Import Prelude.

Definition LIMIT : Z := 5.
Definition WINDOW_SECS : Z := 300.
Definition TUNNEL_SHARED_LIMIT : Z := 50.
Definition TUNNEL_SHARED_KEY : string := "tunnel:-".
Definition CAPACITY : nat := Z.to_nat 4096.
Definition SKIN_KEY_PREFIX : string := "skin:".
Definition RESET_KEY_PREFIX : string := "reset:".
Definition RESET_LIMIT : Z := 10.
Definition RESET_LINK_LIMIT : Z := 30.
Definition PAIR_KEY_PREFIX : string := "apppair:".
Definition GLOBAL_FAIL_LIMIT : Z := 60.

Inductive Door := Door_Connect | Door_Skin | Door_Reset | Door_AppPair.

#[export] Instance Door_eq_dec : EqDecision Door.
Proof. solve_decision. Defined.

Inductive Verdict := Verdict_Allow | Verdict_Limited.

(** Timestamps per key, oldest first. *)
Notation Table := (gmap string (list Z)).

Definition qlen (q : list Z) : Z := Z.of_nat (length q).

(** [now.saturating_sub(t) >= WINDOW_SECS]. *)
Definition expired (now t : Z) : bool := WINDOW_SECS <=? i64_sat (now - t).

Fixpoint prune_queue (q : list Z) (now : Z) : list Z :=
  match q with
  | t :: r => if expired now t then prune_queue r now else q
  | [] => []
  end.

Definition prune_key (hits : Table) (key : string) (now : Z) : Table :=
  match hits !! key with
  | Some q =>
    let q := prune_queue q now in
    if bool_decide (q = []) then delete key hits else <[key := q]> hits
  | None => hits
  end.

Definition sweep_expired (hits : Table) (now : Z) : Table :=
  omap (λ q, let q := prune_queue q now in if bool_decide (q = []) then None else Some q) hits.

(** [while q.len() > n { q.pop_front() }]. *)
Definition keep_newest (n : Z) (q : list Z) : list Z :=
  drop (Z.to_nat (qlen q - n)) q.

(** [q.back().copied().unwrap_or(i64::MIN)]. *)
Definition last_hit (q : list Z) : Z := default i64_min (last q).

Section limiter.
Context (hash_iter : gmap string (list Z) → list (string * list Z)).

(** [evict_least_recent]: the first of the least recent keys in iteration order. *)
Definition evict_least_recent (hits : Table) : Table :=
  match min_by (λ a b, last_hit a.2 <=? last_hit b.2) (hash_iter hits) with
  | Some (k, _) => delete k hits
  | None => hits
  end.

(** Make room for a new key in a full table. *)
Definition make_room (hits : Table) (key : string) (now : Z) : Table :=
  if bool_decide (hits !! key = None) && bool_decide (CAPACITY ≤ size hits)%nat then
    let hits := sweep_expired hits now in
    if bool_decide (CAPACITY ≤ size hits)%nat then evict_least_recent hits else hits
  else hits.

Definition table_check_and_record (hits : Table) (key : string) (limit now : Z) : Table * Verdict :=
  let hits := prune_key hits key now in
  let hits := make_room hits key now in
  let q := default [] (hits !! key) ++ [now] in
  let q := keep_newest (u64_sat_add limit 1) q in
  (<[key := q]> hits, if limit <? qlen q then Verdict_Limited else Verdict_Allow).

(** ** The store *)

Record Store := mk_Store {
  st_connect : Table;
  st_skin : Table;
  st_reset : Table;
  st_pair : Table;
  st_connect_fails : list Z;
  st_skin_fails : list Z;
  st_reset_fails : list Z;
  st_pair_fails : list Z;
}.

Definition Store_default : Store := mk_Store ∅ ∅ ∅ ∅ [] [] [] [].

Definition fails (s : Store) (door : Door) : list Z :=
  match door with
  | Door_Connect => st_connect_fails s
  | Door_Skin => st_skin_fails s
  | Door_Reset => st_reset_fails s
  | Door_AppPair => st_pair_fails s
  end.

Definition set_fails (s : Store) (door : Door) (q : list Z) : Store :=
  let pick (d : Door) (old : list Z) := if bool_decide (d = door) then q else old in
  mk_Store (st_connect s) (st_skin s) (st_reset s) (st_pair s)
    (pick Door_Connect (st_connect_fails s)) (pick Door_Skin (st_skin_fails s))
    (pick Door_Reset (st_reset_fails s)) (pick Door_AppPair (st_pair_fails s)).

(** The table a key counts in, by its prefix. *)
Definition door_of (key : string) : Door :=
  if starts_with key SKIN_KEY_PREFIX then Door_Skin
  else if starts_with key RESET_KEY_PREFIX then Door_Reset
  else if starts_with key PAIR_KEY_PREFIX then Door_AppPair
  else Door_Connect.

Definition door_table (s : Store) (door : Door) : Table :=
  match door with
  | Door_Connect => st_connect s
  | Door_Skin => st_skin s
  | Door_Reset => st_reset s
  | Door_AppPair => st_pair s
  end.
Definition set_door_table (s : Store) (door : Door) (t : Table) : Store :=
  let pick (d : Door) (old : Table) := if bool_decide (d = door) then t else old in
  mk_Store (pick Door_Connect (st_connect s)) (pick Door_Skin (st_skin s))
    (pick Door_Reset (st_reset s)) (pick Door_AppPair (st_pair s))
    (st_connect_fails s) (st_skin_fails s) (st_reset_fails s) (st_pair_fails s).

(** ** The limiter *)

Definition key_or_dash (key : string) : string := if (key =? "")%string then "-" else key.

Definition check_and_record_with_limit (s : Store) (key : string) (limit now : Z) : Store * Verdict :=
  let key := key_or_dash key in
  let '(t, v) := table_check_and_record (door_table s (door_of key)) key limit now in
  (set_door_table s (door_of key) t, v).

Definition check_and_record (s : Store) (key : string) (now : Z) : Store * Verdict :=
  check_and_record_with_limit s key LIMIT now.

Definition is_limited (s : Store) (key : string) (limit now : Z) : Store * bool :=
  let key := key_or_dash key in
  let t := prune_key (door_table s (door_of key)) key now in
  (set_door_table s (door_of key) t, opt_is_some_and (λ q, limit <=? qlen q) (t !! key)).

Definition record_with_limit (s : Store) (key : string) (limit now : Z) : Store :=
  (check_and_record_with_limit s key limit now).1.

Definition global_ceiling_reached (s : Store) (door : Door) (now : Z) : Store * bool :=
  let q := prune_queue (fails s door) now in
  (set_fails s door q, GLOBAL_FAIL_LIMIT <=? qlen q).

Definition record_global_failure (s : Store) (door : Door) (now : Z) : Store :=
  let q := prune_queue (fails s door) now in
  set_fails s door (keep_newest GLOBAL_FAIL_LIMIT (q ++ [now])).

(** [LoginLimiter::reset]. *)
Definition limiter_reset (s : Store) : Store := Store_default.

Definition tracked_keys (s : Store) : nat * nat := (size (st_connect s), size (st_skin s)).
Definition tracked_reset_keys (s : Store) : nat := size (st_reset s).
End limiter.

(** [LoginLimiter::now]: the wall clock plus the limiter's offset. *)
Definition limiter_now (wall clock_offset : Z) : Z := i64_sat (wall + clock_offset).

Definition reset_ip_key (ip : string) : string := RESET_KEY_PREFIX +:+ key_or_dash ip.
Definition reset_link_key (service_id : string) : string := RESET_KEY_PREFIX +:+ "app:" +:+ service_id.
Definition skin_ip_key (ip : string) : string := SKIN_KEY_PREFIX +:+ key_or_dash ip.

(** ** Queues *)

Lemma expired_spec now t : expired now t = true ↔ WINDOW_SECS ≤ now - t.
Proof. unfold expired, i64_sat, i64_min, i64_max, WINDOW_SECS. rewrite Z.leb_le. lia. Qed.
Lemma expired_mono now now' t : now ≤ now' → expired now t = true → expired now' t = true.
Proof. rewrite !expired_spec. lia. Qed.

Lemma prune_queue_spec q now :
  ∃ p, q = p ++ prune_queue q now ∧ Forall (λ t, expired now t = true) p
    ∧ ∀ t r, prune_queue q now = t :: r → expired now t = false.
Proof.
  induction q as [|t q (p&Hq&Hp&Hh)]; cbn; [by exists []|].
  destruct (expired now t) eqn:E.
  - exists (t :: p). split_and!; [by rewrite <- app_comm_cons, <- Hq|by constructor|done].
  - exists []. split_and!; [done|done|]. by intros ?? [= <- <-].
Qed.

(** Oldest first. *)
Definition sorted_times (q : list Z) : Prop := StronglySorted Z.le q.

Lemma sorted_times_app_inv p q : sorted_times (p ++ q) → sorted_times p ∧ sorted_times q ∧ ∀ x y, x ∈ p → y ∈ q → x ≤ y.
Proof. intros H. split_and!; [by eapply StronglySorted_app_1_l|by eapply StronglySorted_app_1_r|]. intros x y. by eapply StronglySorted_app_1_elem_of. Qed.

Lemma sorted_not_expired now t r x :
  sorted_times (t :: r) → expired now t = false → x ∈ t :: r → expired now x = false.
Proof.
  intros Hs Ht Hx. apply StronglySorted_inv in Hs as [_ Hs]. rewrite Forall_forall in Hs.
  apply not_true_iff_false. rewrite expired_spec. apply not_true_iff_false in Ht. rewrite expired_spec in Ht.
  apply elem_of_cons in Hx as [->|Hx]; [done|]. specialize (Hs x Hx). lia.
Qed.

Lemma prune_queue_fresh q now x :
  sorted_times q → x ∈ prune_queue q now → expired now x = false.
Proof.
  intros Hs Hx. destruct (prune_queue_spec q now) as (p&Hq&_&Hh).
  destruct (prune_queue q now) as [|t r]; [by apply not_elem_of_nil in Hx|].
  rewrite Hq in Hs. apply sorted_times_app_inv in Hs as (_&Hs&_).
  eapply sorted_not_expired; [done| |done]. by eapply Hh.
Qed.

Lemma keep_newest_suffix n q : ∃ p, q = p ++ keep_newest n q.
Proof. exists (take (Z.to_nat (qlen q - n)) q). unfold keep_newest. by rewrite take_drop. Qed.
Lemma keep_newest_length n q : 0 ≤ n → qlen (keep_newest n q) = Z.min n (qlen q).
Proof. intros. unfold keep_newest, qlen. rewrite length_drop. unfold qlen. lia. Qed.

(** Every time of [ts] that the queue [q] has dropped is expired at [now], or
    [q] is full. *)
Definition covers_by (cap : Z) (ts : list Z) (now : Z) (q : list Z) : Prop :=
  ∃ p, ts = p ++ q ∧ (qlen q = cap ∨ ∀ t, t ∈ p → expired now t = true).

Lemma covers_later cap ts now now' q : now ≤ now' → covers_by cap ts now q → covers_by cap ts now' q.
Proof. intros Hle (p&Hp&[?|He]); exists p; split; auto. right. intros t Ht. by eapply expired_mono; [|apply He]. Qed.

Lemma prune_covers cap ts now q :
  sorted_times ts → covers_by cap ts now q →
  ∃ p, ts = p ++ prune_queue q now
    ∧ (prune_queue q now = q ∧ qlen q = cap ∨ ∀ t, t ∈ p → expired now t = true).
Proof.
  intros Hs (p&Hp&Hcov). destruct (prune_queue_spec q now) as (d&Hd&Hexp&_). rewrite Forall_forall in Hexp.
  exists (p ++ d). split; [by rewrite <- app_assoc, <- Hd|]. destruct d as [|x d].
  - cbn in Hd. rewrite <- Hd, app_nil_r. destruct Hcov; auto.
  - right. intros t [Ht|Ht]%elem_of_app; [|by apply Hexp].
    rewrite Hp, Hd in Hs. apply sorted_times_app_inv in Hs as (_&_&Hle).
    assert (expired now x = true) as Hx by (apply Hexp; set_solver).
    rewrite expired_spec in *. specialize (Hle t x Ht ltac:(set_solver)). lia.
Qed.

(** How many times of [l] fall in the window ending at [now]. *)
Definition in_window (now : Z) (l : list Z) : Z := qlen (List.filter (λ t, negb (expired now t)) l).

Lemma in_window_app now l1 l2 : in_window now (l1 ++ l2) = in_window now l1 + in_window now l2.
Proof. unfold in_window, qlen. rewrite List.filter_app, length_app. lia. Qed.
Lemma in_window_fresh now l : (∀ t, t ∈ l → expired now t = false) → in_window now l = qlen l.
Proof.
  intros H. unfold in_window. f_equal. induction l as [|t l IH]; cbn; [done|].
  rewrite (H t) by set_solver. cbn. f_equal. apply IH. set_solver.
Qed.
Lemma in_window_expired now l : (∀ t, t ∈ l → expired now t = true) → in_window now l = 0.
Proof.
  intros H. unfold in_window. induction l as [|t l IH]; cbn; [done|].
  rewrite (H t) by set_solver. cbn. apply IH. set_solver.
Qed.
Lemma in_window_nonneg now l : 0 ≤ in_window now l.
Proof. unfold in_window, qlen. lia. Qed.

(** ** One table over a sequence of attempts *)

Section table.
Context (hash_iter : gmap string (list Z) → list (string * list Z)).
Hypothesis hash_iter_ok : ∀ m, hash_iter m ≡ₚ map_to_list m.
Context (limit : string → Z).
Hypothesis limit_ok : ∀ k, 0 ≤ limit k < u64_max.

(** The attempts of [evs] at one table, oldest first. *)
Fixpoint table_run (hits : Table) (evs : list (string * Z)) : Table * list Verdict :=
  match evs with
  | [] => (hits, [])
  | (key, now) :: evs =>
    let '(hits, v) := table_check_and_record hash_iter hits key (limit key) now in
    let '(hits, vs) := table_run hits evs in
    (hits, v :: vs)
  end.

Definition times (k : string) (evs : list (string * Z)) : list Z :=
  (List.filter (λ e, (e.1 =? k)%string) evs).*2.

Lemma times_snoc k evs key now :
  times k (evs ++ [(key, now)]) = times k evs ++ (if (key =? k)%string then [now] else []).
Proof. unfold times. rewrite List.filter_app, fmap_app. cbn. by destruct (key =? k)%string. Qed.

Lemma times_sorted k evs : sorted_times evs.*2 → sorted_times (times k evs).
Proof.
  unfold times. induction evs as [|[key now] evs IH]; cbn; [done|].
  intros [Hs Hle]%StronglySorted_inv. destruct (key =? k)%string; cbn; [|auto].
  constructor; [by apply IH|]. rewrite Forall_forall in Hle. apply Forall_forall. intros t Ht. apply Hle.
  apply list_elem_of_fmap in Ht as (e&->&He). apply elem_of_filter_bool in He as [He _].
  by apply list_elem_of_fmap_2.
Qed.

(** Only what was recorded is remembered, and not too much of it. *)
Record table_ok (evs : list (string * Z)) (hits : Table) : Prop := {
  to_size : (size hits ≤ CAPACITY)%nat;
  to_suffix : ∀ k q, hits !! k = Some q → ∃ p, times k evs = p ++ q;
  to_short : ∀ k q, hits !! k = Some q → 0 < qlen q ≤ limit k + 1;
}.

Lemma prune_queue_short q now : qlen (prune_queue q now) ≤ qlen q.
Proof. destruct (prune_queue_spec q now) as (p&Hq&_). rewrite Hq at 2. unfold qlen. rewrite length_app. lia. Qed.

Lemma qlen_pos q : q ≠ [] → 0 < qlen q.
Proof. destruct q; [done|]. unfold qlen. cbn. lia. Qed.

(** A queue pruned for another reason is still a remembered suffix. *)
Lemma pruned_ok evs k q now :
  (∃ p, times k evs = p ++ q) → qlen q ≤ limit k + 1 → prune_queue q now ≠ [] →
  (∃ p, times k evs = p ++ prune_queue q now) ∧ 0 < qlen (prune_queue q now) ≤ limit k + 1.
Proof.
  intros [p Hp] Hq Hne. destruct (prune_queue_spec q now) as (p'&Hq'&_). split.
  - exists (p ++ p'). rewrite <- app_assoc, <- Hq'. done.
  - split; [by apply qlen_pos|]. pose proof (prune_queue_short q now). lia.
Qed.

Lemma prune_key_lookup hits key now k :
  prune_key hits key now !! k = if decide (k = key)
    then (q ← hits !! k; if bool_decide (prune_queue q now = []) then None else Some (prune_queue q now))
    else hits !! k.
Proof.
  unfold prune_key. destruct (hits !! key) as [q|] eqn:Hq; case_decide as Hk.
  - subst k. rewrite Hq. cbn [mbind option_bind].
    case_bool_decide; [by rewrite lookup_delete_eq|by rewrite lookup_insert_eq].
  - case_bool_decide; [by rewrite lookup_delete_ne|by rewrite lookup_insert_ne].
  - subst k. by rewrite Hq.
  - done.
Qed.

Lemma prune_key_size hits key now : (size (prune_key hits key now) ≤ size hits)%nat.
Proof.
  unfold prune_key. destruct (hits !! key) as [q|] eqn:Hq; [|done]. case_bool_decide.
  - rewrite map_size_delete, Hq. cbn. lia.
  - rewrite map_size_insert, Hq. done.
Qed.

Lemma prune_key_ok evs hits key now : table_ok evs hits → table_ok evs (prune_key hits key now).
Proof.
  intros [Hs Hsuf Hsh]. constructor.
  - pose proof (prune_key_size hits key now). lia.
  - intros k q. rewrite prune_key_lookup. case_decide; [|apply Hsuf]. intros (q'&Hq'&E)%bind_Some.
    case_bool_decide; [done|]. injection E as <-. eapply pruned_ok; [by apply Hsuf|by eapply Hsh|done].
  - intros k q. rewrite prune_key_lookup. case_decide; [|apply Hsh]. intros (q'&Hq'&E)%bind_Some.
    case_bool_decide; [done|]. injection E as <-. eapply (pruned_ok evs); [by apply Hsuf|by eapply Hsh|done].
Qed.

Lemma sweep_lookup hits now k q :
  sweep_expired hits now !! k = Some q → ∃ q', hits !! k = Some q' ∧ q = prune_queue q' now ∧ q ≠ [].
Proof.
  unfold sweep_expired. rewrite lookup_omap. intros (q'&Hq'&E)%bind_Some. case_bool_decide; [done|].
  injection E as <-. eauto.
Qed.

Lemma sweep_ok evs hits now : table_ok evs hits → table_ok evs (sweep_expired hits now).
Proof.
  intros [Hs Hsuf Hsh]. constructor.
  - etrans; [|exact Hs]. rewrite <- !size_dom. apply subseteq_size. intros k Hk.
    apply elem_of_dom in Hk as [q Hq]. apply sweep_lookup in Hq as (q'&?&_). by eapply elem_of_dom_2.
  - intros k q (q'&Hq'&->&Hne)%sweep_lookup. eapply pruned_ok; [by apply Hsuf|by eapply Hsh|done].
  - intros k q (q'&Hq'&->&Hne)%sweep_lookup. eapply (pruned_ok evs); [by apply Hsuf|by eapply Hsh|done].
Qed.

Lemma delete_ok evs (hits : Table) k : table_ok evs hits → table_ok evs (delete k hits).
Proof.
  intros [Hs Hsuf Hsh]. constructor.
  - rewrite map_size_delete. destruct (hits !! k); cbn; lia.
  - intros k' q [_ ?]%lookup_delete_Some. by apply Hsuf.
  - intros k' q [_ ?]%lookup_delete_Some. by apply Hsh.
Qed.

Lemma evict_spec (hits : Table) :
  hits ≠ ∅ → ∃ k q, hits !! k = Some q ∧ evict_least_recent hash_iter hits = delete k hits
    ∧ ∀ k' q', hits !! k' = Some q' → last_hit q ≤ last_hit q'.
Proof.
  intros Hne. unfold evict_least_recent.
  assert (Htot : ∀ a b : string * list Z, (last_hit a.2 <=? last_hit b.2) = true ∨ (last_hit b.2 <=? last_hit a.2) = true)
    by (intros; rewrite !Z.leb_le; lia).
  assert (Htr : ∀ a b c : string * list Z, (last_hit a.2 <=? last_hit b.2) = true →
    (last_hit b.2 <=? last_hit c.2) = true → (last_hit a.2 <=? last_hit c.2) = true) by (intros; bool_props; apply Z.leb_le; lia).
  destruct (min_by_is_Some _ Htot Htr (hash_iter hits)) as [[k q] Hm].
  { intros E. apply Hne, map_to_list_empty_iff. pose proof (hash_iter_ok hits) as Hp.
    rewrite E in Hp. by apply Permutation_nil_l in Hp. }
  rewrite Hm. exists k, q. apply (min_by_Some _ Htot Htr) in Hm as [Hin Hmin].
  rewrite hash_iter_ok in Hin. apply elem_of_map_to_list in Hin. split_and!; [done..|].
  intros k' q' Hk'. apply Z.leb_le, (Hmin (k', q')). rewrite hash_iter_ok. by apply elem_of_map_to_list.
Qed.

Lemma make_room_ok evs hits key now :
  table_ok evs hits →
  table_ok evs (make_room hash_iter hits key now)
  ∧ (make_room hash_iter hits key now !! key = None → (size (make_room hash_iter hits key now) < CAPACITY)%nat)
  ∧ (∀ q, make_room hash_iter hits key now !! key = Some q → hits !! key = Some q).
Proof.
  intros Hok. unfold make_room. destruct (bool_decide (hits !! key = None)) eqn:Hk; cbn.
  2:{ apply bool_decide_eq_false in Hk. split_and!; [done|done|done]. }
  apply bool_decide_eq_true in Hk. case_bool_decide as Hfull.
  2:{ split_and!; [done|intros _; lia|done]. }
  assert (sweep_expired hits now !! key = None) as Hsk.
  { destruct (sweep_expired hits now !! key) eqn:E; [|done]. apply sweep_lookup in E as (?&?&_). congruence. }
  pose proof (sweep_ok evs hits now Hok) as Hsok. case_bool_decide as Hfull2.
  - destruct (evict_spec (sweep_expired hits now)) as (k&q&Hq&->&_).
    { intros E. rewrite E, map_size_empty in Hfull2. unfold CAPACITY in Hfull2. lia. }
    split_and!; [by apply delete_ok|intros _|].
    + rewrite map_size_delete, Hq. cbn. pose proof (to_size _ _ Hsok). unfold CAPACITY in *. lia.
    + intros q' [_ ?]%lookup_delete_Some. congruence.
  - split_and!; [done|intros _; lia|congruence].
Qed.

Lemma times_other k evs key now : key ≠ k → times k (evs ++ [(key, now)]) = times k evs.
Proof. intros. rewrite times_snoc. destruct (String.eqb_spec key k); [done|]. by rewrite app_nil_r. Qed.
Lemma times_same evs key now : times key (evs ++ [(key, now)]) = times key evs ++ [now].
Proof. rewrite times_snoc. by rewrite String.eqb_refl. Qed.

Lemma step_ok evs hits key now :
  table_ok evs hits →
  table_ok (evs ++ [(key, now)]) (table_check_and_record hash_iter hits key (limit key) now).1.
Proof.
  intros Hok. unfold table_check_and_record. cbn.
  destruct (make_room_ok evs (prune_key hits key now) key now (prune_key_ok _ _ _ _ Hok)) as (Hrok&Hroom&_).
  set (h := make_room hash_iter (prune_key hits key now) key now) in *.
  pose proof (limit_ok key) as Hl.
  assert (u64_sat_add (limit key) 1 = limit key + 1) as -> by (unfold u64_sat_add; lia).
  constructor.
  - rewrite map_size_insert. pose proof (to_size _ _ Hrok). destruct (h !! key) eqn:E; cbn; [lia|].
    specialize (Hroom eq_refl). lia.
  - intros k q [[<- <-]|[Hne Hq]]%lookup_insert_Some.
    + rewrite times_same. destruct (keep_newest_suffix (limit key + 1) (default [] (h !! key) ++ [now])) as [p Hp].
      destruct (h !! key) as [q|] eqn:E; cbn in *.
      * destruct (to_suffix _ _ Hrok _ _ E) as [p' ->]. exists (p' ++ p). by rewrite <- !app_assoc, <- Hp.
      * exists (times key evs ++ p). by rewrite <- app_assoc, <- Hp.
    + rewrite times_other by done. by apply (to_suffix _ _ Hrok).
  - intros k q [[<- <-]|[Hne Hq]]%lookup_insert_Some; [|by apply (to_short _ _ Hrok)].
    rewrite keep_newest_length by lia. split; [|lia].
    assert (0 < qlen (default [] (h !! key) ++ [now])); [|lia]. apply qlen_pos. by destruct (default [] _).
Qed.

(** What a verdict [Limited] rests on: that many attempts in the window. *)
Lemma step_sound evs hits key now :
  table_ok evs hits → sorted_times (evs ++ [(key, now)]).*2 →
  (table_check_and_record hash_iter hits key (limit key) now).2 = Verdict_Limited →
  limit key < in_window now (times key (evs ++ [(key, now)])).
Proof.
  intros Hok Hsort. unfold table_check_and_record. cbn.
  destruct (make_room_ok evs (prune_key hits key now) key now (prune_key_ok _ _ _ _ Hok)) as (Hrok&_&Hsame).
  set (h := make_room hash_iter (prune_key hits key now) key now) in *.
  destruct (_ <? _) eqn:Hlim; [|done]. intros _. apply Z.ltb_lt in Hlim.
  apply (times_sorted key) in Hsort. rewrite times_same in *.
  destruct (keep_newest_suffix (u64_sat_add (limit key) 1) (default [] (h !! key) ++ [now])) as [p Hp].
  set (q := keep_newest _ _) in *.
  assert (∃ p', times key evs ++ [now] = p' ++ q) as [p' Hp'].
  { destruct (h !! key) as [qh|] eqn:E; cbn in *.
    - destruct (to_suffix _ _ Hrok _ _ E) as [p' ->]. exists (p' ++ p). by rewrite <- !app_assoc, <- Hp.
    - exists (times key evs ++ p). by rewrite <- app_assoc, <- Hp. }
  rewrite Hp', in_window_app, (in_window_fresh now q); [pose proof (in_window_nonneg now p'); lia|].
  intros t Ht. assert (t ∈ default [] (h !! key) ++ [now]) as Hin by (rewrite Hp; set_solver).
  apply elem_of_app in Hin as [Hin| ->%list_elem_of_singleton].
  - destruct (h !! key) as [qh|] eqn:E; cbn in Hin; [|by apply not_elem_of_nil in Hin].
    pose proof (Hsame qh eq_refl) as E2. rewrite prune_key_lookup, decide_True in E2 by done.
    apply bind_Some in E2 as (q0&Hq0&E2). case_bool_decide; [done|]. injection E2 as <-.
    eapply prune_queue_fresh; [|done]. destruct (to_suffix _ _ Hok _ _ Hq0) as [p0 Hp0].
    rewrite Hp0 in Hsort. apply sorted_times_app_inv in Hsort as (Hsort&_).
    by apply sorted_times_app_inv in Hsort as (_&?&_).
  - apply not_true_iff_false. rewrite expired_spec. unfold WINDOW_SECS. lia.
Qed.

(** ** Without evictions the window is exact *)

Section exact.
Context (keys : gset string) (keys_small : (size keys ≤ CAPACITY)%nat).

Record exact (evs : list (string * Z)) (now : Z) (hits : Table) : Prop := {
  ex_dom : dom hits ⊆ keys;
  ex_short : ∀ k, qlen (default [] (hits !! k)) ≤ limit k + 1;
  ex_covers : ∀ k, covers_by (limit k + 1) (times k evs) now (default [] (hits !! k));
}.

Lemma room_unneeded (hits : Table) key now :
  dom hits ⊆ keys → key ∈ keys → make_room hash_iter hits key now = hits.
Proof.
  intros Hdom Hkey. unfold make_room. destruct (bool_decide (hits !! key = None)) eqn:Hk; [|done]. cbn.
  apply bool_decide_eq_true, not_elem_of_dom in Hk. rewrite bool_decide_eq_false_2; [done|].
  assert (size (dom hits) < size keys)%nat; [|rewrite size_dom in *; lia].
  apply subset_size. set_solver.
Qed.

Lemma step_exact evs T hits key now :
  table_ok evs hits → exact evs T hits → key ∈ keys → T ≤ now → sorted_times (times key evs) →
  let '(hits', v) := table_check_and_record hash_iter hits key (limit key) now in
  exact (evs ++ [(key, now)]) now hits'
  ∧ (v = Verdict_Allow ↔ in_window now (times key (evs ++ [(key, now)])) ≤ limit key).
Proof.
  intros Hok Hex Hkey HT Hsort. unfold table_check_and_record. cbn.
  pose proof (limit_ok key) as Hl.
  assert (u64_sat_add (limit key) 1 = limit key + 1) as -> by (unfold u64_sat_add; lia).
  assert (dom (prune_key hits key now) ⊆ keys) as Hdom.
  { intros k Hk. apply (ex_dom _ _ _ Hex). apply elem_of_dom in Hk as [q Hq].
    rewrite prune_key_lookup in Hq. apply elem_of_dom. case_decide; [|by eexists].
    apply bind_Some in Hq as (q'&?&_). by eexists. }
  rewrite room_unneeded by done.
  set (q0 := default [] (hits !! key)).
  assert (default [] (prune_key hits key now !! key) = prune_queue q0 now) as ->.
  { rewrite prune_key_lookup, decide_True by done. unfold q0. destruct (hits !! key) as [q|]; cbn; [|done].
    by case_bool_decide as E; [rewrite E|]. }
  destruct (prune_covers (limit key + 1) (times key evs) now q0) as (p&Hp&Hcase); [done| |].
  { eapply covers_later; [done|by apply (ex_covers _ _ _ Hex)]. }
  set (q1 := prune_queue q0 now) in *. set (q2 := keep_newest (limit key + 1) (q1 ++ [now])).
  assert (Hq1 : qlen (q1 ++ [now]) = qlen q1 + 1) by (unfold qlen; rewrite length_app; cbn; lia).
  assert (Hq2 : qlen q2 = Z.min (limit key + 1) (qlen q1 + 1)) by (unfold q2; rewrite keep_newest_length, Hq1; lia).
  assert (Hcov : covers_by (limit key + 1) (times key (evs ++ [(key, now)])) now q2 ∧
    (qlen q2 ≤ limit key ↔ in_window now (times key (evs ++ [(key, now)])) ≤ limit key)).
  { rewrite times_same. destruct (keep_newest_suffix (limit key + 1) (q1 ++ [now])) as [d Hd]. fold q2 in Hd.
    assert (Hfresh : in_window now (q1 ++ [now]) = qlen q1 + 1).
    { rewrite <- Hq1. apply in_window_fresh. intros t [Ht| ->%list_elem_of_singleton]%elem_of_app.
      * eapply prune_queue_fresh; [|done]. destruct (ex_covers _ _ _ Hex key) as (p0&Hp0&_).
        fold q0 in Hp0. rewrite Hp0 in Hsort. by apply sorted_times_app_inv in Hsort as (_&?&_).
      * apply not_true_iff_false. rewrite expired_spec. unfold WINDOW_SECS. lia. }
    rewrite Hp, <- app_assoc, in_window_app, Hfresh.
    pose proof (in_window_nonneg now p) as Hnn. split; [|split].
    - exists (p ++ d). rewrite <- app_assoc, <- Hd. split; [done|].
      destruct (Z.le_gt_cases (qlen q1 + 1) (limit key + 1)) as [Hle|]; [|left; lia].
      assert (d = []) as ->.
      { apply (f_equal qlen) in Hd. unfold qlen in *. rewrite !length_app in Hd. cbn in Hd.
        destruct d; [done|]. cbn in Hd. lia. }
      rewrite app_nil_r. destruct Hcase as [[E Hfull]|Hexp]; [|auto]. unfold q1 in *. rewrite E in *. lia.
    - intros Hle. destruct Hcase as [[E Hfull]|Hexp]; [unfold q1 in *; rewrite E in *; lia|].
      rewrite (in_window_expired now p Hexp). lia.
    - intros Hw. lia. }
  destruct Hcov as [Hcov Hallow]. split; [constructor|].
  - rewrite dom_insert. set_solver.
  - intros k. destruct (decide (k = key)) as [->|Hne].
    + rewrite lookup_insert_eq. cbn. lia.
    + rewrite lookup_insert_ne by done. rewrite prune_key_lookup, decide_False by done. apply (ex_short _ _ _ Hex).
  - intros k. destruct (decide (k = key)) as [->|Hne].
    + by rewrite lookup_insert_eq.
    + rewrite lookup_insert_ne by done. rewrite prune_key_lookup, decide_False by done.
      rewrite times_other by done. eapply covers_later; [done|]. apply (ex_covers _ _ _ Hex).
  - rewrite <- Hallow. destruct (Z.ltb_spec (limit key) (qlen q2)); split; (done || lia).
Qed.
End exact.

(** The verdicts of a run, each against the attempts up to it. *)
Lemma table_run_sound evs0 hits evs :
  table_ok evs0 hits → sorted_times (evs0 ++ evs).*2 →
  table_ok (evs0 ++ evs) (table_run hits evs).1
  ∧ ∀ i key now, evs !! i = Some (key, now) → (table_run hits evs).2 !! i = Some Verdict_Limited →
      limit key < in_window now (times key (evs0 ++ take (S i) evs)).
Proof.
  revert evs0 hits. induction evs as [|[key now] evs IH]; intros evs0 hits Hok Hsort; cbn [table_run].
  { split; [by rewrite app_nil_r|done]. }
  pose proof (step_ok evs0 hits key now Hok) as Hok'.
  pose proof (step_sound evs0 hits key now Hok) as Hsound.
  destruct (table_check_and_record hash_iter hits key (limit key) now) as [hits' v].
  assert (evs0 ++ (key, now) :: evs = (evs0 ++ [(key, now)]) ++ evs) as E by (by rewrite <- app_assoc).
  rewrite E in *. destruct (IH (evs0 ++ [(key, now)]) hits' Hok' Hsort) as [Hrun Hv].
  destruct (table_run hits' evs) as [hits'' vs]. split; [done|].
  intros [|i] k n; cbn.
  - intros [= -> ->] [= ->]. rewrite take_0. apply Hsound; [|done].
    rewrite fmap_app in Hsort. by eapply StronglySorted_app_1_l.
  - intros Hi Hlim. specialize (Hv i k n Hi Hlim). by rewrite <- app_assoc in Hv.
Qed.

Lemma table_run_exact (keys : gset string) evs0 T hits evs :
  (size keys ≤ CAPACITY)%nat → table_ok evs0 hits → exact keys evs0 T hits →
  sorted_times (evs0 ++ evs).*2 → (∀ e, e ∈ evs → e.1 ∈ keys ∧ T ≤ e.2) →
  ∀ i key now, evs !! i = Some (key, now) →
    (table_run hits evs).2 !! i = Some Verdict_Allow
    ↔ in_window now (times key (evs0 ++ take (S i) evs)) ≤ limit key.
Proof.
  intros Hk. revert evs0 T hits. induction evs as [|[key now] evs IH]; intros evs0 T hits Hok Hex Hsort Hall i k n Hi; [done|].
  cbn [table_run].
  pose proof (step_ok evs0 hits key now Hok) as Hok'.
  destruct (Hall (key, now)) as [Hkey HT]; [set_solver|]. cbn in Hkey, HT.
  assert (evs0 ++ (key, now) :: evs = (evs0 ++ [(key, now)]) ++ evs) as E by (by rewrite <- app_assoc).
  rewrite E in Hsort.
  assert (sorted_times evs0.*2) as Hs0.
  { rewrite <- app_assoc, fmap_app in Hsort. by eapply StronglySorted_app_1_l. }
  pose proof (step_exact keys Hk evs0 T hits key now Hok Hex Hkey HT (times_sorted _ _ Hs0)) as Hstep.
  destruct (table_check_and_record hash_iter hits key (limit key) now) as [hits' v].
  destruct Hstep as [Hex' Hv].
  specialize (IH (evs0 ++ [(key, now)]) now hits' Hok' Hex' Hsort).
  destruct (table_run hits' evs) as [hits'' vs]. destruct i as [|i]; cbn in *.
  - injection Hi as -> ->. rewrite take_0, <- Hv. split; congruence.
  - rewrite (cons_middle _ evs0), app_assoc. apply (IH); [|done].
    intros e He. split; [apply Hall; set_solver|].
    rewrite !fmap_app in Hsort. cbn in Hsort.
    apply sorted_times_app_inv in Hsort as (_&_&Hle). apply Hle; [set_solver|]. by apply list_elem_of_fmap_2.
Qed.

Lemma table_ok_empty : table_ok [] ∅.
Proof. constructor; [rewrite map_size_empty; apply Nat.le_0_l|done..]. Qed.
Lemma exact_empty keys T : exact keys [] T ∅.
Proof.
  constructor.
  - set_solver.
  - intros k. rewrite lookup_empty. unfold qlen. cbn. pose proof (limit_ok k). lia.
  - intros k. rewrite lookup_empty. exists []. split; [done|]. right. set_solver.
Qed.

(** ** Properties *)

(** The limiter is sound and bounded whatever the traffic: a table never
    holds more than [CAPACITY] keys nor more than [limit + 1] timestamps of
    one; and an attempt is refused only when that key really made more than
    its limit of attempts in the window, so evictions never refuse an
    unrelated client. *)
Theorem throttle_sound (evs : list (string * Z)) :
  sorted_times evs.*2 →
  (size (table_run ∅ evs).1 ≤ CAPACITY)%nat
  ∧ (∀ k q, (table_run ∅ evs).1 !! k = Some q → qlen q ≤ limit k + 1)
  ∧ ∀ i key now, evs !! i = Some (key, now) → (table_run ∅ evs).2 !! i = Some Verdict_Limited →
      limit key < in_window now (times key (take (S i) evs)).
Proof.
  intros Hs. destruct (table_run_sound [] ∅ evs table_ok_empty Hs) as [Hok Hv]. split_and!.
  - by apply (to_size _ _ Hok).
  - intros k q Hq. by apply (to_short _ _ Hok).
  - done.
Qed.

(** (C29) The limiter is exact while its table isn't full: with at most [CAPACITY]
    different keys, the attempts that go through are precisely those within
    the key's limit in the sliding window. *)
Theorem throttle_exact (evs : list (string * Z)) (keys : gset string) i key now :
  sorted_times evs.*2 → (∀ e, e ∈ evs → e.1 ∈ keys) → (size keys ≤ CAPACITY)%nat →
  evs !! i = Some (key, now) →
  (table_run ∅ evs).2 !! i = Some Verdict_Allow ↔ in_window now (times key (take (S i) evs)) ≤ limit key.
Proof.
  intros Hs Hkeys Hsize Hi.
  destruct evs as [|[k0 t0] evs']; [done|].
  apply (table_run_exact keys [] t0 ∅ ((k0, t0) :: evs') Hsize table_ok_empty (exact_empty keys t0) Hs); [|done].
  intros e He. split; [by apply Hkeys|]. cbn in Hs. apply StronglySorted_inv in Hs as [_ Hs].
  rewrite Forall_forall in Hs. apply elem_of_cons in He as [->|He]; [done|].
  apply Hs. by apply list_elem_of_fmap_2.
Qed.
End table.

(** ** The failure ceiling and the doors *)

(** Failures of one door, one after the other. *)
Definition fail_run (s : Store) (door : Door) (ts : list Z) : Store :=
  fold_left (λ s now, record_global_failure s door now) ts s.

Lemma fails_set s door q : fails (set_fails s door q) door = q.
Proof. by destruct door. Qed.

Lemma fail_run_covers door ts now :
  sorted_times (ts ++ [now]) →
  qlen (fails (fail_run Store_default door ts) door) ≤ GLOBAL_FAIL_LIMIT
  ∧ covers_by GLOBAL_FAIL_LIMIT ts now (fails (fail_run Store_default door ts) door).
Proof.
  revert now. induction ts as [|t ts IH] using rev_ind; intros now Hs.
  { split; [by destruct door|]. exists []. split; [by destruct door|]. right. set_solver. }
  assert (sorted_times (ts ++ [t])) as Hts by (by apply sorted_times_app_inv in Hs as (?&_)).
  assert (t ≤ now) as Hle.
  { apply sorted_times_app_inv in Hs as (_&_&Hle). apply Hle; set_solver. }
  destruct (IH t Hts) as [Hlen Hcov]. unfold fail_run. rewrite fold_left_app. cbn [fold_left].
  fold (fail_run Store_default door ts). unfold record_global_failure. rewrite fails_set.
  set (q := fails (fail_run Store_default door ts) door) in *.
  destruct (prune_covers GLOBAL_FAIL_LIMIT ts t q) as (p&Hp&Hcase);
    [by apply sorted_times_app_inv in Hts as (?&_)|done|].
  set (q1 := prune_queue q t) in *.
  destruct (keep_newest_suffix GLOBAL_FAIL_LIMIT (q1 ++ [t])) as [d Hd].
  assert (Hq1 : qlen (q1 ++ [t]) = qlen q1 + 1) by (unfold qlen; rewrite length_app; cbn; lia).
  assert (Hq2 : qlen (keep_newest GLOBAL_FAIL_LIMIT (q1 ++ [t])) = Z.min GLOBAL_FAIL_LIMIT (qlen q1 + 1))
    by (rewrite keep_newest_length, Hq1; unfold GLOBAL_FAIL_LIMIT; lia).
  set (q2 := keep_newest GLOBAL_FAIL_LIMIT (q1 ++ [t])) in *.
  split; [lia|]. exists (p ++ d). rewrite Hp, <- !app_assoc, Hd. split; [done|].
  destruct (Z.le_gt_cases GLOBAL_FAIL_LIMIT (qlen q1 + 1)) as [|Hgt]; [left; lia|]. right.
  assert (d = []) as ->.
  { apply (f_equal qlen) in Hd. unfold qlen in *. rewrite !length_app in Hd. cbn in Hd.
    destruct d; [done|]. cbn in Hd. lia. }
  rewrite app_nil_r. intros x Hx. eapply expired_mono; [exact Hle|].
  destruct Hcase as [[E Hfull]|Hexp]; [rewrite E in *; lia|auto].
Qed.

(** One operation of the limiter. *)
Inductive LimiterOp :=
| Op_Attempt (key : string) (limit now : Z)
| Op_Probe (key : string) (limit now : Z)
| Op_Ceiling (door : Door) (now : Z)
| Op_Failure (door : Door) (now : Z).

Definition op_door (o : LimiterOp) : Door :=
  match o with
  | Op_Attempt key _ _ | Op_Probe key _ _ => door_of (key_or_dash key)
  | Op_Ceiling door _ | Op_Failure door _ => door
  end.

Definition op_step hash_iter (s : Store) (o : LimiterOp) : Store :=
  match o with
  | Op_Attempt key limit now => record_with_limit hash_iter s key limit now
  | Op_Probe key limit now => (is_limited s key limit now).1
  | Op_Ceiling door now => (global_ceiling_reached s door now).1
  | Op_Failure door now => record_global_failure s door now
  end.

Lemma op_step_other hash_iter s o door :
  op_door o ≠ door →
  door_table (op_step hash_iter s o) door = door_table s door ∧ fails (op_step hash_iter s o) door = fails s door.
Proof.
  intros Hd. destruct o as [key limit now|key limit now|d now|d now]; cbn in Hd; cbn [op_step].
  - unfold record_with_limit, check_and_record_with_limit.
    destruct (table_check_and_record _ _ _ _ _) as [t v]. destruct door, (door_of _); done.
  - unfold is_limited. cbn. by destruct door, (door_of _).
  - unfold global_ceiling_reached. cbn. by destruct door, d.
  - unfold record_global_failure. by destruct door, d.
Qed.

(** The ceiling of a door is exact: it is reached precisely when the window
    holds [GLOBAL_FAIL_LIMIT] anonymous failures, although only that many
    timestamps are kept. *)
Theorem ceiling_exact (door : Door) (ts : list Z) (now : Z) :
  sorted_times (ts ++ [now]) →
  (global_ceiling_reached (fail_run Store_default door ts) door now).2 = true
  ↔ GLOBAL_FAIL_LIMIT ≤ in_window now ts.
Proof.
  intros Hs. destruct (fail_run_covers door ts now Hs) as [Hlen Hcov].
  assert (sorted_times ts) as Hts by (by apply sorted_times_app_inv in Hs as (?&_)).
  unfold global_ceiling_reached. cbn. set (q := fails (fail_run Store_default door ts) door) in *.
  destruct (prune_covers _ _ _ _ Hts Hcov) as (p&Hp&Hcase).
  assert (in_window now (prune_queue q now) = qlen (prune_queue q now)) as Hfresh.
  { apply in_window_fresh. intros t Ht. eapply prune_queue_fresh; [|done].
    destruct Hcov as (p0&Hp0&_). rewrite Hp0 in Hts. by apply sorted_times_app_inv in Hts as (_&?&_). }
  rewrite Hp, in_window_app, Hfresh, Z.leb_le. pose proof (in_window_nonneg now p).
  destruct Hcase as [[E Hfull]|Hexp]; [rewrite E in *; lia|]. rewrite (in_window_expired now p Hexp). lia.
Qed.

Lemma ceiling_exact_witness :
  let ts := replicate 60 100 in
  (global_ceiling_reached (fail_run Store_default Door_Skin ts) Door_Skin 399).2 = true
  ∧ GLOBAL_FAIL_LIMIT ≤ in_window 399 ts.
Proof.
  intros ts. split; [vm_compute; reflexivity|]. apply (ceiling_exact Door_Skin ts 399); [|vm_compute; reflexivity].
  unfold ts. cbn. repeat (apply SSorted_cons; [|repeat (apply Forall_cons_2; [lia|]); apply Forall_nil_2]).
  apply SSorted_nil.
Defined.

(** The doors are independent: any sequence of attempts, probes, ceiling
    checks and failures at the other doors leaves a door's table and its
    failures as they were, so a flood on one door cannot close another. *)
Theorem doors_independent hash_iter (s : Store) (ops : list LimiterOp) (door : Door) :
  (∀ o, o ∈ ops → op_door o ≠ door) →
  let s' := fold_left (op_step hash_iter) ops s in
  door_table s' door = door_table s door ∧ fails s' door = fails s door.
Proof.
  intros Hall s'. unfold s'. clear s'. revert s. induction ops as [|o ops IH]; intros s; cbn; [done|].
  destruct (op_step_other hash_iter s o door) as [Ht Hf]; [apply Hall; set_solver|].
  destruct (IH ltac:(set_solver) (op_step hash_iter s o)) as [-> ->]. by rewrite Ht, Hf.
Qed.

Lemma doors_independent_witness :
  let ops := [Op_Attempt "1.2.3.4" 5 10; Op_Failure Door_Connect 11; Op_Attempt "reset:1.2.3.4" 10 12] in
  fails (fold_left (op_step map_to_list) ops Store_default) Door_Skin = fails Store_default Door_Skin.
Proof.
  intros ops. apply (doors_independent map_to_list Store_default ops Door_Skin).
  intros o Ho. repeat (apply elem_of_cons in Ho as [->|Ho]; [discriminate|]). by apply not_elem_of_nil in Ho.
Defined.

(** Six attempts in the window: the sixth is refused; a seventh, later than
    the window, goes through. *)
Definition example_attempts : list (string * Z) :=
  [("1.2.3.4", 10); ("1.2.3.4", 11); ("1.2.3.4", 12); ("1.2.3.4", 13); ("1.2.3.4", 14); ("1.2.3.4", 15);
   ("1.2.3.4", 320)].

Lemma example_attempts_sorted : sorted_times example_attempts.*2.
Proof.
  cbn. repeat (apply SSorted_cons; [|repeat (apply Forall_cons_2; [lia|]); apply Forall_nil_2]). apply SSorted_nil.
Qed.

Lemma throttle_sound_witness :
  (table_run map_to_list (λ _, LIMIT) ∅ example_attempts).2 !! 5%nat = Some Verdict_Limited
  ∧ LIMIT < in_window 15 (times "1.2.3.4" (take 6 example_attempts)).
Proof.
  split; [vm_compute; reflexivity|].
  apply (throttle_sound map_to_list (λ m, reflexivity (map_to_list m)) (λ _, LIMIT)
    (λ _, conj (Zle_bool_imp_le 0 LIMIT eq_refl) (proj1 (Z.ltb_lt LIMIT u64_max) eq_refl))
    example_attempts example_attempts_sorted); vm_compute; reflexivity.
Defined.

Lemma throttle_exact_witness :
  (table_run map_to_list (λ _, LIMIT) ∅ example_attempts).2 !! 6%nat = Some Verdict_Allow
  ∧ in_window 320 (times "1.2.3.4" (take 7 example_attempts)) ≤ LIMIT.
Proof.
  split; [vm_compute; reflexivity|].
  apply (throttle_exact map_to_list (λ m, reflexivity (map_to_list m)) (λ _, LIMIT)
    (λ _, conj (Zle_bool_imp_le 0 LIMIT eq_refl) (proj1 (Z.ltb_lt LIMIT u64_max) eq_refl))
    example_attempts {["1.2.3.4"]} 6 "1.2.3.4" 320 example_attempts_sorted).
  - intros e He. repeat (apply elem_of_cons in He as [->|He]; [apply elem_of_singleton; reflexivity|]).
    by apply not_elem_of_nil in He.
  - rewrite size_singleton. unfold CAPACITY. lia.
  - reflexivity.
  - vm_compute. reflexivity.
Defined.
