(* ===== verification/VaultModel.v ===== *)
(** * The vault's vocabulary

    [crates/k2-vault/src/model.rs] and the constructors of
    [crates/k2-vault/src/error.rs]: namespaces, scopes, kinds, deliveries,
    consumers. The macro [str_enum] is the class [StrEnum]: what it generates
    for an enum is proved once, against the interface. *)

From S2P Require Import Prelude.
From stdpp Require Import pretty.
Open Scope Z_scope.

(** ** Errors *)

Record VaultError := mk_VaultError {
  ve_code : string;
  ve_status : Z;
  ve_hint : string;
}.

#[export] Instance VaultError_eq_dec : EqDecision VaultError.
Proof. solve_decision. Defined.

Definition NEEDS_NEWER : string := "vault_needs_newer_k2".
Definition OWNER_CONFIRM_SUFFIX : string := "; ask the owner to change it in Settings → Vault".

Definition bad_request (code hint : string) : VaultError := mk_VaultError code 400 hint.
Definition forbidden (code hint : string) : VaultError := mk_VaultError code 403 hint.
Definition not_found (hint : string) : VaultError := mk_VaultError "not_found" 404 hint.
Definition conflict (code hint : string) : VaultError := mk_VaultError code 409 hint.
Definition internal (hint : string) : VaultError := mk_VaultError "vault_internal" 500 hint.
Definition tamper (hint : string) : VaultError := mk_VaultError "vault_tamper" 500 hint.
Definition needs_newer (hint : string) : VaultError := mk_VaultError NEEDS_NEWER 409 hint.
Definition is_needs_newer (e : VaultError) : bool := (ve_code e =? NEEDS_NEWER)%string.
Definition owner_confirm_required (hint : string) : VaultError :=
  mk_VaultError "vault_owner_confirm_required" 403 (hint +:+ OWNER_CONFIRM_SUFFIX).

(** ** Enums with a string form *)

(** What [str_enum!] is given: the variants in order and their strings. *)
Class StrEnum (T : Type) := {
  enum_name : string;
  enum_all : list T;
  enum_str : T → string;
}.
Arguments enum_name T {_}.
Arguments enum_all T {_}.

(** [parse] and [code], as the macro writes them. *)
Definition enum_parse {T} `{StrEnum T} (s : string) : Result T VaultError :=
  match List.find (λ x, (enum_str x =? s)%string) (enum_all T) with
  | Some x => Ok x
  | None => Err (bad_request ("bad_" +:+ enum_name T) ("unknown " +:+ enum_name T +:+ ": " +:+ s))
  end.
Definition enum_code {T} `{StrEnum T} `{EqDecision T} (x : T) : option Z :=
  (λ p, u8 (Z.of_nat p.1)) <$> list_find (x =.) (enum_all T).

(** What makes an instance a sound enum: every variant is listed, once, and
    the strings tell the variants apart; and there are few of them. *)
Class StrEnumOk (T : Type) `{StrEnum T} `{EqDecision T} : Prop := {
  enum_all_complete : ∀ x : T, x ∈ enum_all T;
  enum_str_inj : ∀ x y : T, enum_str x = enum_str y → x = y;
  enum_all_nodup : NoDup (enum_all T);
  enum_small : (length (enum_all T) < 256)%nat;
}.

Inductive Namespace := Namespace_System | Namespace_User.
Inductive ScopeKind :=
| ScopeKind_Server | ScopeKind_Workspace | ScopeKind_App | ScopeKind_Session
| ScopeKind_Engine | ScopeKind_Person.
Inductive Kind :=
| Kind_Generic | Kind_Password | Kind_ApiKey | Kind_OauthToken | Kind_SshKey | Kind_TlsKey
| Kind_Dsn | Kind_Url | Kind_LoginSlot | Kind_AppPass | Kind_EngineCred | Kind_SigningKey | Kind_HmacKey.
Inductive Delivery :=
| Delivery_Fetch | Delivery_Proxy | Delivery_File | Delivery_Env | Delivery_Api | Delivery_None | Delivery_Agent.
Inductive SecretStatus := SecretStatus_Active | SecretStatus_Disabled | SecretStatus_Destroyed.
Inductive VersionState := VersionState_Active | VersionState_Revoked | VersionState_Destroyed.
Inductive ConsumerKind :=
| ConsumerKind_Workspace | ConsumerKind_Session | ConsumerKind_PublishedService | ConsumerKind_App
| ConsumerKind_Engine | ConsumerKind_Daemon | ConsumerKind_Widget | ConsumerKind_Job | ConsumerKind_Compute.

#[export] Instance Namespace_eq_dec : EqDecision Namespace.
Proof. solve_decision. Defined.
#[export] Instance ScopeKind_eq_dec : EqDecision ScopeKind.
Proof. solve_decision. Defined.
#[export] Instance Kind_eq_dec : EqDecision Kind.
Proof. solve_decision. Defined.
#[export] Instance Delivery_eq_dec : EqDecision Delivery.
Proof. solve_decision. Defined.
#[export] Instance SecretStatus_eq_dec : EqDecision SecretStatus.
Proof. solve_decision. Defined.
#[export] Instance VersionState_eq_dec : EqDecision VersionState.
Proof. solve_decision. Defined.
#[export] Instance ConsumerKind_eq_dec : EqDecision ConsumerKind.
Proof. solve_decision. Defined.

#[export] Instance Namespace_enum : StrEnum Namespace := {|
  enum_name := "Namespace";
  enum_all := [Namespace_System; Namespace_User];
  enum_str x := match x with Namespace_System => "system" | Namespace_User => "user" end;
|}.
#[export] Instance ScopeKind_enum : StrEnum ScopeKind := {|
  enum_name := "ScopeKind";
  enum_all := [ScopeKind_Server; ScopeKind_Workspace; ScopeKind_App; ScopeKind_Session; ScopeKind_Engine; ScopeKind_Person];
  enum_str x := match x with
    | ScopeKind_Server => "server" | ScopeKind_Workspace => "workspace" | ScopeKind_App => "app"
    | ScopeKind_Session => "session" | ScopeKind_Engine => "engine" | ScopeKind_Person => "person"
    end;
|}.
#[export] Instance Kind_enum : StrEnum Kind := {|
  enum_name := "Kind";
  enum_all := [Kind_Generic; Kind_Password; Kind_ApiKey; Kind_OauthToken; Kind_SshKey; Kind_TlsKey;
    Kind_Dsn; Kind_Url; Kind_LoginSlot; Kind_AppPass; Kind_EngineCred; Kind_SigningKey; Kind_HmacKey];
  enum_str x := match x with
    | Kind_Generic => "generic" | Kind_Password => "password" | Kind_ApiKey => "api_key"
    | Kind_OauthToken => "oauth_token" | Kind_SshKey => "ssh_key" | Kind_TlsKey => "tls_key"
    | Kind_Dsn => "dsn" | Kind_Url => "url" | Kind_LoginSlot => "login_slot" | Kind_AppPass => "app_pass"
    | Kind_EngineCred => "engine_cred" | Kind_SigningKey => "signing_key" | Kind_HmacKey => "hmac_key"
    end;
|}.
#[export] Instance Delivery_enum : StrEnum Delivery := {|
  enum_name := "Delivery";
  enum_all := [Delivery_Fetch; Delivery_Proxy; Delivery_File; Delivery_Env; Delivery_Api; Delivery_None; Delivery_Agent];
  enum_str x := match x with
    | Delivery_Fetch => "fetch" | Delivery_Proxy => "proxy" | Delivery_File => "file" | Delivery_Env => "env"
    | Delivery_Api => "api" | Delivery_None => "none" | Delivery_Agent => "agent"
    end;
|}.
#[export] Instance SecretStatus_enum : StrEnum SecretStatus := {|
  enum_name := "SecretStatus";
  enum_all := [SecretStatus_Active; SecretStatus_Disabled; SecretStatus_Destroyed];
  enum_str x := match x with
    | SecretStatus_Active => "active" | SecretStatus_Disabled => "disabled" | SecretStatus_Destroyed => "destroyed"
    end;
|}.
#[export] Instance VersionState_enum : StrEnum VersionState := {|
  enum_name := "VersionState";
  enum_all := [VersionState_Active; VersionState_Revoked; VersionState_Destroyed];
  enum_str x := match x with
    | VersionState_Active => "active" | VersionState_Revoked => "revoked" | VersionState_Destroyed => "destroyed"
    end;
|}.
#[export] Instance ConsumerKind_enum : StrEnum ConsumerKind := {|
  enum_name := "ConsumerKind";
  enum_all := [ConsumerKind_Workspace; ConsumerKind_Session; ConsumerKind_PublishedService; ConsumerKind_App;
    ConsumerKind_Engine; ConsumerKind_Daemon; ConsumerKind_Widget; ConsumerKind_Job; ConsumerKind_Compute];
  enum_str x := match x with
    | ConsumerKind_Workspace => "workspace" | ConsumerKind_Session => "session"
    | ConsumerKind_PublishedService => "published_service" | ConsumerKind_App => "app"
    | ConsumerKind_Engine => "engine" | ConsumerKind_Daemon => "daemon" | ConsumerKind_Widget => "widget"
    | ConsumerKind_Job => "job" | ConsumerKind_Compute => "compute"
    end;
|}.

(** ** Deliveries and kinds *)

Definition delivery_level (d : Delivery) : Z :=
  match d with
  | Delivery_None => -1
  | Delivery_Fetch | Delivery_Proxy => 0
  | Delivery_Agent => 1
  | Delivery_File => 2
  | Delivery_Env => 3
  | Delivery_Api => 4
  end.

Definition readable (d : Delivery) : bool := delivery_level Delivery_File <=? delivery_level d.

Definition default_delivery (k : Kind) : Delivery :=
  match k with
  | Kind_SshKey | Kind_TlsKey => Delivery_File
  | Kind_Password | Kind_Dsn | Kind_Url => Delivery_Env
  | _ => Delivery_Fetch
  end.

Definition carries_destination (k : Kind) : bool :=
  match k with Kind_Dsn | Kind_Url => true | _ => false end.
Definition trims_on_save (k : Kind) : bool :=
  match k with Kind_ApiKey | Kind_Password | Kind_OauthToken => true | _ => false end.

(** ** Scopes *)

Record Scope := mk_Scope {
  sc_kind : ScopeKind;
  sc_id : string;
}.

Definition Scope_server : Scope := mk_Scope ScopeKind_Server "".
Definition Scope_workspace (id : string) : Scope := mk_Scope ScopeKind_Workspace id.
Definition Scope_session (id : string) : Scope := mk_Scope ScopeKind_Session id.
Definition Scope_engine (id : string) : Scope := mk_Scope ScopeKind_Engine id.
Definition Scope_person (id : string) : Scope := mk_Scope ScopeKind_Person id.
Definition Scope_app (id : string) : Scope := mk_Scope ScopeKind_App id.

Definition bad_scope_id (id : string) : bool :=
  (id =? "")%string || (128 <? str_len id) || existsb char_is_control (chars id).

Definition Scope_validate (s : Scope) : Result unit VaultError :=
  match sc_kind s with
  | ScopeKind_Server =>
    if negb (sc_id s =? "")%string then Err (bad_request "bad_scope" "server scope has no id") else Ok tt
  | ScopeKind_App | ScopeKind_Person =>
    Err (bad_request "scope_reserved" (enum_str (sc_kind s) +:+ " scope isn't available yet"))
  | _ =>
    if bad_scope_id (sc_id s) then Err (bad_request "bad_scope" (enum_str (sc_kind s) +:+ " scope needs an id"))
    else Ok tt
  end.

Definition validate_for (s : Scope) (namespace : Namespace) : Result unit VaultError :=
  if (match sc_kind s with ScopeKind_Person | ScopeKind_App => true | _ => false end)
     && bool_decide (namespace = Namespace_System)
  then
    if bad_scope_id (sc_id s) then Err (bad_request "bad_scope" (enum_str (sc_kind s) +:+ " scope needs an id"))
    else Ok tt
  else Scope_validate s.

(** ** Consumers *)

Record Consumer := mk_Consumer {
  co_kind : ConsumerKind;
  co_id : string;
}.

(** [str::split_once('/')]. *)
Fixpoint split_once (s : string) : option (string * string) :=
  match s with
  | "" => None
  | String c r =>
    if Ascii.eqb c "/" then Some ("", r)
    else match split_once r with Some (a, b) => Some (String c a, b) | None => None end
  end.

Definition Consumer_workspace (id : string) : Consumer := mk_Consumer ConsumerKind_Workspace id.
Definition Consumer_session (id : string) : Consumer := mk_Consumer ConsumerKind_Session id.
Definition Consumer_published_service (id : string) : Consumer := mk_Consumer ConsumerKind_PublishedService id.
Definition Consumer_engine (id : string) : Consumer := mk_Consumer ConsumerKind_Engine id.
Definition Consumer_job (workspace_id job_id : string) : Consumer :=
  mk_Consumer ConsumerKind_Job (workspace_id +:+ "/" +:+ job_id).
Definition Consumer_compute (workspace_id node : string) : Consumer :=
  mk_Consumer ConsumerKind_Compute (workspace_id +:+ "/" +:+ node).
Definition Consumer_all_workspaces : Consumer := mk_Consumer ConsumerKind_Workspace "*".

Definition job_workspace (c : Consumer) : option string :=
  guard negb (bool_decide (co_kind c = ConsumerKind_Job)) ret None;
  '(ws, _) ← split_once (co_id c);
  if (ws =? "")%string then None else Some ws.

(** The closure [plain]. *)
Definition plain_part (x : string) : bool :=
  negb (x =? "")%string && (str_len x <=? 64)
  && forallb (λ b, is_ascii_alphanumeric b || mem_z b (bytes "_-.")) (bytes x).

Definition compute_parts (c : Consumer) : option (string * string) :=
  guard negb (bool_decide (co_kind c = ConsumerKind_Compute)) ret None;
  '(ws, node) ← split_once (co_id c);
  if plain_part ws && ((node =? "*")%string || plain_part node) then Some (ws, node) else None.

Definition consumer_label (c : Consumer) : string := enum_str (co_kind c) +:+ ":" +:+ co_id c.

Definition validate_name (name : string) (user_facing : bool) : Result unit VaultError :=
  let max := if user_facing then 64 else 128 in
  guard (name =? "")%string || (max <? str_len name)
    ret Err (bad_request "bad_name" ("names are 1–" +:+ pretty max +:+ " characters"));
  guard negb (forallb (λ b, is_ascii_alphanumeric b || mem_z b (bytes "_.-")) (bytes name))
    ret Err (bad_request "bad_name" "names use letters, digits, _ . -");
  guard (name =? ".")%string || (name =? "..")%string ret Err (bad_request "bad_name" "not a name");
  Ok tt.

(** ** The enums are sound *)

Ltac enum_ok :=
  constructor;
  [ intros []; cbn; set_solver
  | intros [] []; cbn; congruence
  | apply (bool_decide_unpack _); vm_compute; exact I
  | cbn; lia ].

#[export] Instance Namespace_ok : StrEnumOk Namespace.
Proof. enum_ok. Qed.
#[export] Instance ScopeKind_ok : StrEnumOk ScopeKind.
Proof. enum_ok. Qed.
#[export] Instance Kind_ok : StrEnumOk Kind.
Proof. enum_ok. Qed.
#[export] Instance Delivery_ok : StrEnumOk Delivery.
Proof. enum_ok. Qed.
#[export] Instance SecretStatus_ok : StrEnumOk SecretStatus.
Proof. enum_ok. Qed.
#[export] Instance VersionState_ok : StrEnumOk VersionState.
Proof. enum_ok. Qed.
#[export] Instance ConsumerKind_ok : StrEnumOk ConsumerKind.
Proof. enum_ok. Qed.

Section enum.
Context {T : Type} `{StrEnumOk T}.

Lemma enum_parse_str (x : T) : enum_parse (enum_str x) = Ok x.
Proof.
  unfold enum_parse. destruct (List.find _ (enum_all T)) as [y|] eqn:Hf.
  - apply list_find_Some_elem in Hf as [_ Hy%String.eqb_eq]. by apply enum_str_inj in Hy as ->.
  - pose proof (List.find_none _ _ Hf x) as Hx. cbv beta in Hx. rewrite String.eqb_refl in Hx.
    discriminate Hx. apply list_elem_of_In, enum_all_complete.
Qed.

Lemma enum_parse_ok s (x : T) : enum_parse s = Ok x → s = enum_str x.
Proof.
  unfold enum_parse. destruct (List.find _ _) as [y|] eqn:Hf; [|done]. intros [= ->].
  by apply list_find_Some_elem in Hf as [_ ->%String.eqb_eq].
Qed.

Lemma enum_code_spec (x : T) : ∃ i, enum_code x = Some (Z.of_nat i) ∧ enum_all T !! i = Some x.
Proof.
  unfold enum_code. destruct (list_find_elem_of (x =.) (enum_all T) x) as [[i y] Hi];
    [apply enum_all_complete|done|]. rewrite Hi. cbn.
  apply list_find_Some in Hi as (Hi&<-&_). exists i. split; [|done].
  apply lookup_lt_Some in Hi as Hlt. pose proof (enum_small (T := T)).
  unfold u8. by rewrite Z.mod_small by lia.
Qed.

Lemma enum_code_inj (x y : T) : enum_code x = enum_code y → x = y.
Proof.
  destruct (enum_code_spec x) as (i&->&Hi), (enum_code_spec y) as (j&->&Hj).
  intros [= E%Nat2Z.inj]. subst j. congruence.
Qed.
End enum.

(** ** Splitting *)

Lemma split_once_some s a b : split_once s = Some (a, b) → s = a +:+ "/" +:+ b.
Proof.
  revert a. induction s as [|c s IH]; intros a; cbn; [done|].
  destruct (Ascii.eqb_spec c "/") as [->|Hc]; [by intros [= <- <-]|].
  destruct (split_once s) as [[a' b']|]; [|done]. intros [= <- <-]. by rewrite (IH a' eq_refl).
Qed.

Lemma split_once_app ws r :
  existsb (Ascii.eqb "/") (String.list_ascii_of_string ws) = false → split_once (ws +:+ "/" +:+ r) = Some (ws, r).
Proof.
  induction ws as [|c ws IH]; [done|].
  cbn [existsb String.list_ascii_of_string]. intros [Hc Hws]%orb_false_iff.
  change (String c ws +:+ "/" +:+ r) with (String c (ws +:+ "/" +:+ r)). cbn [split_once].
  rewrite Ascii.eqb_sym, Hc. by rewrite (IH Hws).
Qed.

Lemma plain_no_slash x : plain_part x = true → existsb (Ascii.eqb "/") (String.list_ascii_of_string x) = false.
Proof.
  unfold plain_part. intros [_ H]%andb_true_iff. apply existsb_false. intros c Hc.
  destruct (Ascii.eqb_spec "/"%char c) as [<-|]; [|done]. exfalso.
  rewrite forallb_true in H. unfold bytes in H. specialize (H (byte_of "/")). rewrite list_elem_of_fmap in H.
  specialize (H (ex_intro _ _ (conj eq_refl Hc))). vm_compute in H. done.
Qed.

(** ** Properties *)

(** Every enum of the vault round-trips: a variant's string parses back to
    it and nothing else parses to it, and its byte in the integrity encoding
    is its own. *)
Theorem str_enum_roundtrip {T} `{StrEnumOk T} (x y : T) (s : string) :
  enum_parse (enum_str x) = Ok x
  ∧ (enum_parse s = Ok x → s = enum_str x)
  ∧ (enum_code x = enum_code y → x = y)
  ∧ is_Some (enum_code x).
Proof.
  split_and!; [apply enum_parse_str|apply enum_parse_ok|apply enum_code_inj|].
  destruct (enum_code_spec x) as (i&->&_). by eexists.
Qed.

Lemma str_enum_roundtrip_witness :
  enum_parse "compute" = Ok ConsumerKind_Compute ∧ enum_code ConsumerKind_Compute = Some 8.
Proof.
  split; [|vm_compute; reflexivity].
  exact (proj1 (str_enum_roundtrip ConsumerKind_Compute ConsumerKind_Job "x")).
Defined.

(** A compute consumer names its workspace and node unambiguously: for parts
    the vault accepts, [compute] and [compute_parts] are inverse, and what
    [compute_parts] returns rebuilds the consumer. *)
Theorem compute_parts_roundtrip (c : Consumer) (ws node : string) :
  (plain_part ws = true → node = "*" ∨ plain_part node = true →
     compute_parts (Consumer_compute ws node) = Some (ws, node))
  ∧ (compute_parts c = Some (ws, node) → c = Consumer_compute ws node ∧ plain_part ws = true).
Proof.
  split.
  - intros Hws Hnode. unfold compute_parts, Consumer_compute. cbn [co_kind co_id].
    rewrite bool_decide_eq_true_2 by done. cbn [negb].
    rewrite split_once_app by (by apply plain_no_slash). cbn. rewrite Hws.
    destruct Hnode as [->| ->]; cbn; [done|]. by rewrite orb_true_r.
  - unfold compute_parts. case_bool_decide as Hk; cbn [negb]; [|done].
    destruct (split_once (co_id c)) as [[a b]|] eqn:Hs; cbn; [|done].
    destruct (plain_part a && _) eqn:Hp; [|done]. intros [= -> ->]. apply andb_true_iff in Hp as [Hp _].
    apply split_once_some in Hs. destruct c as [k id]. cbn in *. subst. done.
Qed.

Lemma compute_parts_roundtrip_witness :
  compute_parts (Consumer_compute "w1" "*") = Some ("w1", "*").
Proof.
  apply (proj1 (compute_parts_roundtrip (Consumer_compute "w1" "*") "w1" "*")); [vm_compute; reflexivity|by left].
Defined.
