(* ===== verification/VaultPolicy.v ===== *)
(** * Who may do what in the vault

    [crates/k2-vault/src/policy.rs]: the actors, the facts of a secret and
    the rules for creating, seeing, managing, widening, granting and
    revealing it. *)

From S2P Require Import Prelude VaultModel.

(** ** Actors *)

Inductive VaultRole := VaultRole_Owner | VaultRole_Admin | VaultRole_Member.

#[export] Instance VaultRole_eq_dec : EqDecision VaultRole.
Proof. solve_decision. Defined.

Record AgentActor := mk_AgentActor {
  aa_workspace_id : string;
  aa_session_id : option string;
  aa_shell : bool;
  aa_vault_manage : bool;
}.

Inductive Actor :=
| Actor_Owner
| Actor_Login (username : string) (role : VaultRole)
| Actor_Agent (a : AgentActor)
| Actor_Guest (username workspace_id : string)
| Actor_System (subsystem : string).

Inductive HumanProof :=
| HumanProof_None
| HumanProof_Confirmed (method : string).

Definition stamp (actor : Actor) : string :=
  match actor with
  | Actor_Owner => "owner"
  | Actor_Login username _ => "connect:" +:+ username
  | Actor_Agent a =>
    if aa_shell a then "shell:" +:+ aa_workspace_id a
    else match aa_session_id a with
      | Some s => "agent:" +:+ aa_workspace_id a +:+ "/" +:+ s
      | None => "agent:" +:+ aa_workspace_id a
      end
  | Actor_Guest username _ => "guest:" +:+ username
  | Actor_System s => "system:" +:+ s
  end.

Definition is_admin_human (actor : Actor) : bool :=
  match actor with
  | Actor_Owner | Actor_Login _ (VaultRole_Owner | VaultRole_Admin) => true
  | _ => false
  end.
Definition is_owner_human (actor : Actor) : bool :=
  match actor with Actor_Owner | Actor_Login _ VaultRole_Owner => true | _ => false end.
Definition is_member (actor : Actor) : bool :=
  match actor with Actor_Login _ VaultRole_Member => true | _ => false end.
Definition is_human (actor : Actor) : bool :=
  match actor with Actor_Owner | Actor_Login _ _ | Actor_Guest _ _ => true | _ => false end.
Definition actor_agent (actor : Actor) : option AgentActor :=
  match actor with Actor_Agent a => Some a | _ => None end.
Definition is_system (actor : Actor) : bool := match actor with Actor_System _ => true | _ => false end.
Definition may_add_wildcards (actor : Actor) : bool :=
  match actor with Actor_Owner | Actor_Login _ _ => true | _ => false end.
Definition may_set_body_inject (actor : Actor) : bool :=
  match actor with Actor_Owner | Actor_Login _ _ => true | _ => false end.

Record Facts := mk_Facts {
  fa_namespace : Namespace;
  fa_scope : Scope;
  fa_created_by : string;
  fa_human_given : bool;
  fa_own_ws_has_grant : bool;
  fa_handoff_ceiling : option Delivery;
}.

(** ** Rules *)

(** A quotation mark. *)
Definition double_quote : string := String (ascii_of_nat 34) EmptyString.

Definition denied (code hint : string) : VaultError := forbidden code hint.

Definition created_by_agent_ws (created_by ws : string) : bool :=
  (created_by =? "agent:" +:+ ws)%string
  || starts_with created_by ("agent:" +:+ ws +:+ "/")
  || (created_by =? "shell:" +:+ ws)%string.

(** [a.session_id.as_deref() == Some(id)]. *)
Definition own_session_is (a : AgentActor) (id : string) : bool :=
  opt_is_some_and (λ s, (s =? id)%string) (aa_session_id a).

Definition system_only (actor : Actor) (hint : string) : Result unit VaultError :=
  if is_system actor then Ok tt else Err (denied "vault_system_namespace" hint).

Definition can_create (actor : Actor) (ns : Namespace) (scope : Scope) : Result unit VaultError :=
  guard bool_decide (ns = Namespace_System) ret system_only actor "system secrets are made by K2 itself";
  match actor with
  | Actor_System _ => Ok tt
  | Actor_Owner | Actor_Login _ (VaultRole_Owner | VaultRole_Admin) =>
    match sc_kind scope with
    | ScopeKind_Server | ScopeKind_Workspace | ScopeKind_Session => Ok tt
    | _ => Err (denied "scope_not_allowed" "that scope isn't available")
    end
  | Actor_Login _ _ =>
    match sc_kind scope with
    | ScopeKind_Workspace | ScopeKind_Session => Ok tt
    | _ => Err (denied "scope_not_allowed" "Members keep secrets for a workspace or a chat; server-wide needs an Admin")
    end
  | Actor_Agent a =>
    let wrong := Err (denied "scope_not_allowed" "agents keep secrets for their own workspace or chat") in
    match sc_kind scope with
    | ScopeKind_Workspace => if (sc_id scope =? aa_workspace_id a)%string then Ok tt else wrong
    | ScopeKind_Session => if own_session_is a (sc_id scope) then Ok tt else wrong
    | ScopeKind_Server =>
      if aa_vault_manage a then Ok tt
      else Err (denied "vault_manage_required"
        ("server-wide secrets need " +:+ double_quote +:+ "Allow managing server-wide secrets"
         +:+ double_quote +:+ " for this agent"))
    | _ => wrong
    end
  | Actor_Guest _ _ =>
    match sc_kind scope with
    | ScopeKind_Session => Ok tt
    | _ => Err (denied "scope_not_allowed" "guests can only give a secret for this chat")
    end
  end.

Definition can_see (actor : Actor) (f : Facts) (granted_to_actor : bool) : bool :=
  guard bool_decide (fa_namespace f = Namespace_System) ret is_admin_human actor || is_system actor;
  match actor with
  | Actor_System _ => true
  | Actor_Owner | Actor_Login _ (VaultRole_Owner | VaultRole_Admin) => true
  | Actor_Login username _ =>
    match sc_kind (fa_scope f) with
    | ScopeKind_Session => (fa_created_by f =? "connect:" +:+ username)%string
    | _ => true
    end
  | Actor_Agent a =>
    match sc_kind (fa_scope f) with
    | ScopeKind_Workspace => (sc_id (fa_scope f) =? aa_workspace_id a)%string || granted_to_actor
    | ScopeKind_Session => own_session_is a (sc_id (fa_scope f)) || granted_to_actor
    | ScopeKind_Server => granted_to_actor || aa_vault_manage a
    | _ => granted_to_actor
    end
  | Actor_Guest username _ => (fa_created_by f =? "guest:" +:+ username)%string
  end.

Definition accepted_handoff_covers (actor : Actor) (f : Facts) (delivery : Delivery) : bool :=
  match actor_agent actor, fa_handoff_ceiling f with
  | Some a, Some ceiling =>
    bool_decide (fa_namespace f = Namespace_User)
    && bool_decide (sc_kind (fa_scope f) = ScopeKind_Workspace)
    && (sc_id (fa_scope f) =? aa_workspace_id a)%string
    && negb (fa_human_given f)
    && (delivery_level ceiling <=? delivery_level Delivery_Env)
    && negb (bool_decide (delivery = Delivery_None))
    && (delivery_level delivery <=? delivery_level ceiling)
  | _, _ => false
  end.

Definition can_manage (actor : Actor) (f : Facts) : Result unit VaultError :=
  guard bool_decide (fa_namespace f = Namespace_System) ret system_only actor "system secrets are managed by K2";
  let ok := match actor with
    | Actor_System _ => true
    | Actor_Owner | Actor_Login _ (VaultRole_Owner | VaultRole_Admin) => true
    | Actor_Login username _ => (fa_created_by f =? "connect:" +:+ username)%string
    | Actor_Agent a =>
      match sc_kind (fa_scope f) with
      | ScopeKind_Workspace => (sc_id (fa_scope f) =? aa_workspace_id a)%string
      | ScopeKind_Session => own_session_is a (sc_id (fa_scope f))
      | ScopeKind_Server => aa_vault_manage a || created_by_agent_ws (fa_created_by f) (aa_workspace_id a)
      | _ => false
      end
    | Actor_Guest _ _ => false
    end in
  if (ok : bool) then Ok tt else Err (denied "vault_not_yours" "only the secret's owner can change it").

Definition can_loosen (actor : Actor) (f : Facts) : Result unit VaultError :=
  let? _ := can_manage actor f in
  match actor with
  | Actor_System _ => Ok tt
  | Actor_Owner | Actor_Login _ (VaultRole_Owner | VaultRole_Admin) => Ok tt
  | Actor_Login _ _ => Err (denied "vault_admin_required" "widening a secret needs an Owner or Admin")
  | Actor_Agent a =>
    guard fa_human_given f ret Err (owner_confirm_required
      "a person gave this secret, so an agent can't widen where it goes or who can read it");
    guard negb (created_by_agent_ws (fa_created_by f) (aa_workspace_id a)) ret Err (owner_confirm_required
      "agents can only widen secrets their own workspace created");
    guard aa_vault_manage a && bool_decide (sc_kind (fa_scope f) = ScopeKind_Server) && fa_own_ws_has_grant f
      ret Err (owner_confirm_required "an agent can't widen a server secret its own workspace uses");
    Ok tt
  | Actor_Guest _ _ => Err (denied "vault_not_yours" "not allowed")
  end.

(** The agent's own consumers: its workspace, all workspaces, its session, a
    job of its workspace, a published service. *)
Definition own_ws (a : AgentActor) (c : Consumer) : bool :=
  bool_decide (co_kind c = ConsumerKind_Workspace) && (co_id c =? aa_workspace_id a)%string.
Definition all_ws (c : Consumer) : bool :=
  bool_decide (co_kind c = ConsumerKind_Workspace) && (co_id c =? "*")%string.
Definition own_session (a : AgentActor) (c : Consumer) : bool :=
  bool_decide (co_kind c = ConsumerKind_Session) && own_session_is a (co_id c).
Definition own_job (a : AgentActor) (c : Consumer) : bool :=
  opt_is_some_and (λ ws, (ws =? aa_workspace_id a)%string) (job_workspace c).
Definition own_service (c : Consumer) : bool := bool_decide (co_kind c = ConsumerKind_PublishedService).

Definition can_grant (actor : Actor) (f : Facts) (consumer : Consumer) (delivery default_delivery : Delivery)
    : Result unit VaultError :=
  guard bool_decide (fa_namespace f = Namespace_System) ret system_only actor "system secrets are granted by K2";
  match actor with
  | Actor_System _ => Ok tt
  | Actor_Owner | Actor_Login _ (VaultRole_Owner | VaultRole_Admin) => Ok tt
  | Actor_Login _ _ => Err (denied "vault_admin_required" "sharing a secret needs an Owner or Admin")
  | Actor_Guest _ _ => Err (denied "vault_not_yours" "not allowed")
  | Actor_Agent a =>
    guard bool_decide (co_kind consumer = ConsumerKind_Compute) ret Err (owner_confirm_required
      ("only a person can let a secret leave this machine for a compute node; ask your owner to run: k2 vault grant <NAME> --to "
       +:+ consumer_label consumer +:+ " --as env"));
    if aa_vault_manage a && bool_decide (sc_kind (fa_scope f) = ScopeKind_Server) then
      guard own_ws a consumer || all_ws consumer || own_session a consumer || own_job a consumer || own_service consumer
        ret Err (denied "vault_self_grant" "an agent can't grant a server secret to its own workspace; ask the owner");
      guard fa_own_ws_has_grant f && (delivery_level default_delivery <? delivery_level delivery)
        ret Err (owner_confirm_required "an agent can't widen a server secret its own workspace uses");
      guard fa_human_given f && (delivery_level default_delivery <? delivery_level delivery)
        ret Err (owner_confirm_required "a person gave this secret; an agent can't raise how readable it is");
      Ok tt
    else
      let? _ := can_manage actor f in
      let own := own_ws a consumer || own_session a consumer || own_job a consumer in
      guard own && (delivery_level delivery <=? delivery_level default_delivery) ret Ok tt;
      guard own && accepted_handoff_covers actor f delivery ret Ok tt;
      can_loosen actor f
  end.

(** ** Reveal *)

Definition PERSON_REVEALABLE_SYSTEM : list (string * string) :=
  [("sew", "sew-launch-key"); ("sew", "sew-recovery-key")].

Definition person_revealable (ns : Namespace) (scope : Scope) (name : string) : bool :=
  bool_decide (ns = Namespace_System) && bool_decide (sc_kind scope = ScopeKind_Engine)
  && existsb (λ en, (sc_id scope =? en.1)%string && (name =? en.2)%string) PERSON_REVEALABLE_SYSTEM.

Definition confirmed (proof : HumanProof) : Result unit VaultError :=
  match proof with
  | HumanProof_Confirmed _ => Ok tt
  | HumanProof_None => Err (denied "vault_confirm_required"
      "showing a secret needs a confirm (Touch ID, your password, or the vault password)")
  end.

Definition can_reveal_owner_only (actor : Actor) (proof : HumanProof) : Result unit VaultError :=
  guard negb (is_owner_human actor)
    ret Err (denied "vault_owner_required" "only the server's owner can show this secret");
  confirmed proof.

Definition can_reveal (actor : Actor) (ns : Namespace) (proof : HumanProof) : Result unit VaultError :=
  guard bool_decide (ns = Namespace_System)
    ret Err (denied "vault_system_namespace" "K2's own secrets are never shown, to anyone");
  guard negb (is_admin_human actor)
    ret Err (denied "vault_admin_required" "showing a secret needs an Owner or Admin");
  confirmed proof.

Definition can_reveal_secret (actor : Actor) (ns : Namespace) (scope : Scope) (name : string) (proof : HumanProof)
    : Result unit VaultError :=
  guard person_revealable ns scope name ret can_reveal_owner_only actor proof;
  can_reveal actor ns proof.


(** ** Properties *)

(** What a rule answers: a yes, as a proposition. *)
Definition allowed (r : Result unit VaultError) : Prop := r = Ok tt.

Lemma allowed_guard (c : bool) e k : allowed (if c then Err e else k) ↔ c = false ∧ allowed k.
Proof. unfold allowed. destruct c; naive_solver. Qed.
Lemma allowed_guard_ok (c : bool) k : allowed (if c then Ok tt else k) ↔ c = true ∨ allowed k.
Proof. unfold allowed. destruct c; naive_solver. Qed.
Lemma allowed_if_err (c : bool) e : allowed (if c then Ok tt else Err e) ↔ c = true.
Proof. unfold allowed. destruct c; naive_solver. Qed.
Lemma allowed_bind (r k : Result unit VaultError) :
  allowed (result_bind r (λ _, k)) ↔ allowed r ∧ allowed k.
Proof. unfold allowed. destruct r as [[]|]; naive_solver. Qed.
Lemma allowed_Err e : allowed (Err e) ↔ False.
Proof. by split. Qed.
Lemma allowed_Ok : allowed (Ok tt) ↔ True.
Proof. by split. Qed.
Lemma allowed_system_only actor h : allowed (system_only actor h) ↔ is_system actor = true.
Proof. apply allowed_if_err. Qed.

(** Push [allowed] through the rules' early returns. *)
Ltac rules :=
  rewrite ?allowed_guard, ?allowed_guard_ok, ?allowed_if_err, ?allowed_bind,
    ?allowed_system_only, ?allowed_Err, ?allowed_Ok.

(** The rules of an agent on a user secret, one conjunct per guard. *)
Definition agent_owns (a : AgentActor) (f : Facts) : bool :=
  match sc_kind (fa_scope f) with
  | ScopeKind_Workspace => (sc_id (fa_scope f) =? aa_workspace_id a)%string
  | ScopeKind_Session => own_session_is a (sc_id (fa_scope f))
  | ScopeKind_Server => aa_vault_manage a || created_by_agent_ws (fa_created_by f) (aa_workspace_id a)
  | _ => false
  end.
Definition it_agent (a : AgentActor) (f : Facts) : bool :=
  aa_vault_manage a && bool_decide (sc_kind (fa_scope f) = ScopeKind_Server).
Definition own_consumer (a : AgentActor) (c : Consumer) : bool := own_ws a c || own_session a c || own_job a c.
Definition self_consumer (a : AgentActor) (c : Consumer) : bool :=
  own_ws a c || all_ws c || own_session a c || own_job a c || own_service c.

Lemma agent_manage a f :
  fa_namespace f = Namespace_User → allowed (can_manage (Actor_Agent a) f) ↔ agent_owns a f = true.
Proof.
  intros Hns. unfold can_manage. rewrite Hns, bool_decide_eq_false_2 by done. apply allowed_if_err.
Qed.
Lemma agent_loosen a f :
  fa_namespace f = Namespace_User →
  allowed (can_loosen (Actor_Agent a) f) ↔
    agent_owns a f = true ∧ fa_human_given f = false
    ∧ created_by_agent_ws (fa_created_by f) (aa_workspace_id a) = true
    ∧ ¬ (it_agent a f = true ∧ fa_own_ws_has_grant f = true).
Proof.
  intros Hns. unfold can_loosen. rewrite allowed_bind, agent_manage by done.
  rewrite !allowed_guard, allowed_Ok. fold (it_agent a f).
  rewrite negb_false_iff, andb_false_iff. destruct (it_agent a f), (fa_own_ws_has_grant f); naive_solver.
Qed.

(** The system namespace is closed: only the daemon's own subsystems create,
    manage, loosen or grant a system secret; only they and an Owner or Admin
    person see it; nothing but an Owner with a confirm, for the listed items,
    reveals it. *)
Theorem system_namespace_closed actor f scope consumer name granted delivery dd proof :
  fa_namespace f = Namespace_System →
  (allowed (can_create actor Namespace_System scope) ↔ is_system actor = true)
  ∧ (allowed (can_manage actor f) ↔ is_system actor = true)
  ∧ (allowed (can_loosen actor f) ↔ is_system actor = true)
  ∧ (allowed (can_grant actor f consumer delivery dd) ↔ is_system actor = true)
  ∧ (can_see actor f granted = true ↔ is_admin_human actor = true ∨ is_system actor = true)
  ∧ (allowed (can_reveal_secret actor Namespace_System scope name proof) ↔
       person_revealable Namespace_System scope name = true ∧ is_owner_human actor = true
       ∧ ∃ m, proof = HumanProof_Confirmed m).
Proof.
  intros Hns. unfold can_create, can_grant, can_loosen, can_manage, can_see, can_reveal_secret,
    can_reveal, can_reveal_owner_only.
  rewrite Hns, !bool_decide_eq_true_2 by done. rewrite allowed_bind, !allowed_system_only, orb_true_iff.
  split_and!; [done..| | |done|].
  - destruct actor; cbn; try naive_solver.
  - destruct actor; cbn; naive_solver.
  - destruct (person_revealable _ _ _); rules; [|naive_solver].
    rewrite negb_false_iff. destruct proof; unfold confirmed; rules; naive_solver.
Qed.

Lemma system_namespace_closed_witness :
  ¬ allowed (can_manage Actor_Owner (mk_Facts Namespace_System (mk_Scope ScopeKind_Engine "mail") "system:mail" false false None)).
Proof.
  intros H.
  pose proof (system_namespace_closed Actor_Owner
    (mk_Facts Namespace_System (mk_Scope ScopeKind_Engine "mail") "system:mail" false false None)
    (mk_Scope ScopeKind_Engine "mail") (mk_Consumer ConsumerKind_Workspace "w") "k" false
    Delivery_Env Delivery_Fetch HumanProof_None eq_refl) as (_&Hm&_).
  apply Hm in H. discriminate H.
Defined.

Lemma covers_agent a f d :
  accepted_handoff_covers (Actor_Agent a) f d = true ↔
    ∃ ceiling, fa_handoff_ceiling f = Some ceiling ∧ fa_namespace f = Namespace_User
    ∧ fa_scope f = mk_Scope ScopeKind_Workspace (aa_workspace_id a) ∧ fa_human_given f = false
    ∧ delivery_level ceiling ≤ delivery_level Delivery_Env ∧ d ≠ Delivery_None
    ∧ delivery_level d ≤ delivery_level ceiling.
Proof.
  unfold accepted_handoff_covers. cbn [actor_agent].
  destruct (fa_handoff_ceiling f) as [c|]; [|naive_solver].
  rewrite !andb_true_iff, !negb_true_iff, !bool_decide_eq_true, bool_decide_eq_false, String.eqb_eq, !Z.leb_le.
  destruct (fa_scope f) as [k i]. cbn [sc_kind sc_id]. naive_solver.
Qed.

(** When an agent may share a user secret: never with a compute node; an IT
    agent shares a server secret only away from itself, and raises its
    delivery only when no person gave it and its own workspace doesn't use
    it; any other agent shares a secret it manages with its own workspace,
    session or jobs at the default delivery or up to the ceiling a person
    accepted, and anything further only for a secret its own workspace made. *)
Theorem agent_grant_spec a f consumer delivery dd :
  fa_namespace f = Namespace_User →
  allowed (can_grant (Actor_Agent a) f consumer delivery dd) ↔
    co_kind consumer ≠ ConsumerKind_Compute ∧
    if it_agent a f then
      self_consumer a consumer = false
      ∧ (delivery_level dd < delivery_level delivery → fa_human_given f = false ∧ fa_own_ws_has_grant f = false)
    else
      agent_owns a f = true
      ∧ (own_consumer a consumer = true
           ∧ (delivery_level delivery ≤ delivery_level dd
              ∨ accepted_handoff_covers (Actor_Agent a) f delivery = true)
         ∨ fa_human_given f = false ∧ created_by_agent_ws (fa_created_by f) (aa_workspace_id a) = true).
Proof.
  intros Hns. unfold can_grant. rewrite Hns, (bool_decide_eq_false_2 (Namespace_User = _)) by done.
  rewrite allowed_guard, bool_decide_eq_false. fold (it_agent a f) (self_consumer a consumer).
  apply and_iff_compat_l. destruct (it_agent a f) eqn:Hit.
  - rewrite !allowed_guard, allowed_Ok, !andb_false_iff, !Z.ltb_ge.
    destruct (fa_human_given f), (fa_own_ws_has_grant f), (self_consumer a consumer);
      destruct (Z.lt_ge_cases (delivery_level dd) (delivery_level delivery)); intuition lia.
  - rewrite allowed_bind, !allowed_guard_ok, agent_manage, agent_loosen, Hit by done.
    fold (own_consumer a consumer). rewrite !andb_true_iff, Z.leb_le. naive_solver.
Qed.

Lemma agent_grant_spec_witness :
  ¬ allowed (can_grant (Actor_Agent (mk_AgentActor "it" None false true))
    (mk_Facts Namespace_User (mk_Scope ScopeKind_Server "") "owner" true false None)
    (mk_Consumer ConsumerKind_Workspace "it") Delivery_Fetch Delivery_Fetch).
Proof.
  intros H. apply agent_grant_spec in H; [|done]. destruct H as [_ [H _]]. vm_compute in H. discriminate H.
Defined.

(** (C26) A secret a person gave: no agent (a shell tab is one) loosens it, and
    whatever an agent may share of it goes out at most at the delivery the
    person chose, never to a compute node. *)
Theorem human_given_not_widened a f consumer delivery dd :
  fa_namespace f = Namespace_User → fa_human_given f = true →
  ¬ allowed (can_loosen (Actor_Agent a) f)
  ∧ (allowed (can_grant (Actor_Agent a) f consumer delivery dd) →
     delivery_level delivery ≤ delivery_level dd ∧ co_kind consumer ≠ ConsumerKind_Compute).
Proof.
  intros Hns Hh. split.
  - rewrite agent_loosen by done. intros (_&?&_); congruence.
  - unfold can_grant. rewrite Hns, (bool_decide_eq_false_2 (Namespace_User = _)) by done.
    rewrite allowed_guard, bool_decide_eq_false. fold (it_agent a f).
    intros [Hc H]. split; [|done]. destruct (it_agent a f).
    + rewrite !allowed_guard, Hh, !andb_false_iff, !Z.ltb_ge in H. destruct H as (_&_&[?|?]&_); [discriminate|done].
    + rewrite allowed_bind, !allowed_guard_ok, agent_loosen, Hh, !andb_true_iff, covers_agent, Z.leb_le in H by done.
      destruct H as (_&[[_ ?]|[[_ (?&_&_&_&?&_)]|(_&?&_)]]); [done|congruence|discriminate].
Qed.

Lemma human_given_not_widened_witness :
  ¬ allowed (can_loosen (Actor_Agent (mk_AgentActor "w" (Some "s") false false))
    (mk_Facts Namespace_User (mk_Scope ScopeKind_Workspace "w") "agent:w" true false None)).
Proof.
  exact (proj1 (human_given_not_widened (mk_AgentActor "w" (Some "s") false false)
    (mk_Facts Namespace_User (mk_Scope ScopeKind_Workspace "w") "agent:w" true false None)
    (mk_Consumer ConsumerKind_Workspace "w") Delivery_Fetch Delivery_Fetch eq_refl eq_refl)).
Defined.

(** An accepted handoff is consent for one workspace only: what it adds to
    an agent's sharing stays in the agent's own workspace (its sessions and
    jobs), at most at the accepted ceiling, itself at most [env]. *)
Theorem accepted_handoff_bounds a f consumer delivery dd :
  fa_namespace f = Namespace_User →
  ¬ allowed (can_loosen (Actor_Agent a) f) → it_agent a f = false →
  delivery_level dd < delivery_level delivery →
  allowed (can_grant (Actor_Agent a) f consumer delivery dd) →
  own_consumer a consumer = true ∧ delivery ≠ Delivery_Api ∧ delivery ≠ Delivery_None
  ∧ fa_scope f = mk_Scope ScopeKind_Workspace (aa_workspace_id a)
  ∧ ∃ ceiling, fa_handoff_ceiling f = Some ceiling
      ∧ delivery_level dd < delivery_level delivery ≤ delivery_level ceiling
      ∧ delivery_level ceiling ≤ delivery_level Delivery_Env.
Proof.
  intros Hns Hl Hit Hd. unfold can_grant. rewrite Hns, (bool_decide_eq_false_2 (Namespace_User = _)) by done.
  rewrite allowed_guard. fold (it_agent a f). rewrite Hit, allowed_bind, !allowed_guard_ok.
  fold (own_consumer a consumer). rewrite !andb_true_iff, covers_agent, Z.leb_le.
  intros (_&_&[[_ ?]|[[Ho (c&Hc&_&Hs&_&He&Hn&Hle)]|?]]); [lia| |done].
  split_and!; [done| |done|done|eauto]. intros ->. cbn in *. lia.
Qed.

Lemma accepted_handoff_bounds_witness :
  own_consumer (mk_AgentActor "w" None false false) (mk_Consumer ConsumerKind_Workspace "w") = true.
Proof.
  refine (proj1 (accepted_handoff_bounds (mk_AgentActor "w" None false false)
    (mk_Facts Namespace_User (mk_Scope ScopeKind_Workspace "w") "agent:other/s1" false false (Some Delivery_Env))
    (mk_Consumer ConsumerKind_Workspace "w") Delivery_Env Delivery_Fetch eq_refl _ eq_refl eq_refl _)).
  - intros H. vm_compute in H. discriminate H.
  - vm_compute. reflexivity.
Defined.

(** ** Who made a secret *)

Definition no_slash (s : string) : Prop :=
  existsb (Ascii.eqb "/") (String.list_ascii_of_string s) = false.

Lemma split_once_no_slash s : no_slash s → split_once s = None.
Proof.
  induction s as [|c s IH]; [done|]. unfold no_slash. cbn [String.list_ascii_of_string existsb].
  rewrite orb_false_iff. intros [Hc Hs]. cbn [split_once].
  rewrite Ascii.eqb_sym, Hc. by rewrite IH.
Qed.

Lemma starts_with_app p s : starts_with s p = true ↔ ∃ r, s = p +:+ r.
Proof.
  unfold starts_with. revert s. induction p as [|a p IH]; intros s; cbn.
  { split; [by exists s|done]. }
  destruct s as [|b s]; [by split; [|intros [? ?]]|]. destruct (Ascii.eqb_spec a b) as [->|Hab].
  - rewrite IH. split; intros [r Hr]; exists r; [by rewrite Hr|by injection Hr].
  - split; [done|]. intros [r Hr]. by injection Hr.
Qed.

(** The stamp tells the creating workspace: for workspace ids without a
    slash, a stamp counts as made by a workspace exactly when it is the stamp
    of an agent or shell of that workspace, never of a person, a guest or a
    subsystem, whatever their names. *)
Theorem stamp_created_by actor ws :
  no_slash ws → (∀ a, actor = Actor_Agent a → no_slash (aa_workspace_id a)) →
  created_by_agent_ws (stamp actor) ws = true ↔ ∃ a, actor = Actor_Agent a ∧ aa_workspace_id a = ws.
Proof.
  intros Hws Hns. unfold created_by_agent_ws.
  rewrite !orb_true_iff, !String.eqb_eq, starts_with_app.
  destruct actor as [|u r|[w s sh m]|u w|s]; cbn [stamp].
  1,2,4,5: split; [intros [[?|[? ?]]|?]; by simplify_eq/=|intros (?&?&?); done].
  specialize (Hns _ eq_refl). cbn [aa_workspace_id aa_session_id aa_shell] in *.
  split.
  - intros H. exists (mk_AgentActor w s sh m). split; [done|]. cbn.
    destruct sh; [|destruct s as [s|]].
    + destruct H as [[H|[r H]]|H]; [done|done|]. by simplify_eq/=.
    + destruct H as [[H|[r H]]|H]; [| |done]; simplify_eq/=.
      * apply split_once_no_slash in Hws. by rewrite split_once_app in Hws.
      * rewrite string_app_assoc in H. change (w +:+ "/" +:+ s = (ws +:+ "/") +:+ r) in H.
        rewrite string_app_assoc in H. apply (f_equal split_once) in H. rewrite !split_once_app in H by done. by simplify_eq.
    + destruct H as [[H|[r H]]|H]; [by simplify_eq/=| |done]. simplify_eq/=.
      change (w = (ws +:+ "/") +:+ r) in H. rewrite string_app_assoc in H. subst w.
      apply split_once_no_slash in Hns. by rewrite split_once_app in Hns.
  - intros (a&[= <-]&Hw). cbn in Hw. subst w. destruct sh; [by right|left].
    destruct s as [s|]; [right|by left]. exists s. by rewrite !string_app_assoc.
Qed.

Lemma stamp_created_by_witness : created_by_agent_ws (stamp (Actor_Login "agent:w1" VaultRole_Owner)) "w1" ≠ true.
Proof.
  intros H. apply stamp_created_by in H; [|reflexivity|discriminate].
  destruct H as (a&Ha&_). discriminate Ha.
Defined.

(** ** Roles *)

(** Who stands above whom: a Member login below every Admin or Owner, all
    people with admin rights alike but for Owner-only items. *)
Definition outranks (hi lo : Actor) : Prop :=
  match lo with
  | Actor_Login _ VaultRole_Member => is_admin_human hi = true
  | Actor_Login _ VaultRole_Admin => is_admin_human hi = true
  | Actor_Login _ VaultRole_Owner | Actor_Owner => is_owner_human hi = true
  | Actor_Guest _ _ => is_admin_human hi = true
  | _ => False
  end.

Lemma outranks_human hi lo :
  outranks hi lo → is_admin_human hi = true ∧ is_system hi = false ∧ is_system lo = false
    ∧ actor_agent lo = None ∧ (is_owner_human lo = true → is_owner_human hi = true).
Proof. destruct lo as [|? []| | |], hi as [|? []| | |]; by intros ?. Qed.

(** An Owner or Admin person is refused nothing on a user secret. *)
Lemma admin_rights hi f consumer granted delivery dd :
  is_admin_human hi = true → fa_namespace f = Namespace_User →
  can_see hi f granted = true ∧ allowed (can_manage hi f) ∧ allowed (can_loosen hi f)
  ∧ allowed (can_grant hi f consumer delivery dd).
Proof.
  intros Ha Hns. unfold can_see, can_loosen, can_manage, can_grant.
  rewrite Hns, bool_decide_eq_false_2 by done. by destruct hi as [|? []| | |].
Qed.

(** Nobody but a subsystem acts on a system secret. *)
Lemma system_refused actor f consumer delivery dd :
  is_system actor = false → fa_namespace f = Namespace_System →
  ¬ allowed (can_manage actor f) ∧ ¬ allowed (can_loosen actor f) ∧ ¬ allowed (can_grant actor f consumer delivery dd).
Proof.
  intros Hs Hns. unfold can_loosen, can_manage, can_grant. rewrite Hns, bool_decide_eq_true_2 by done.
  rewrite allowed_bind, !allowed_system_only, Hs. naive_solver.
Qed.

Lemma create_monotone hi lo ns scope :
  outranks hi lo → allowed (can_create lo ns scope) → allowed (can_create hi ns scope).
Proof.
  intros Hr. pose proof (outranks_human _ _ Hr) as (Ha&_&Hs&Hag&_). unfold can_create.
  destruct ns; [rewrite bool_decide_eq_true_2, allowed_system_only by done; congruence|].
  rewrite !bool_decide_eq_false_2 by done.
  destruct lo as [|? []| | |], hi as [|? []| | |]; try done; by destruct (sc_kind scope).
Qed.

Lemma reveal_monotone hi lo ns scope name proof :
  outranks hi lo → allowed (can_reveal_secret lo ns scope name proof) → allowed (can_reveal_secret hi ns scope name proof).
Proof.
  intros Hr. pose proof (outranks_human _ _ Hr) as (Ha&_&_&_&Ho).
  unfold can_reveal_secret, can_reveal, can_reveal_owner_only.
  destruct (person_revealable _ _ _); rewrite !allowed_guard, !negb_false_iff; [naive_solver|].
  rewrite Ha. naive_solver.
Qed.

Lemma see_monotone hi lo f granted :
  outranks hi lo → can_see lo f granted = true → can_see hi f granted = true.
Proof.
  intros Hr. pose proof (outranks_human _ _ Hr) as (Ha&_&_&_&_).
  destruct (fa_namespace f) eqn:Hns.
  - unfold can_see. rewrite Hns, bool_decide_eq_true_2, Ha by done. done.
  - intros _. by apply (admin_rights hi f (mk_Consumer ConsumerKind_Daemon "") granted Delivery_None Delivery_None).
Qed.

Lemma manage_see actor f granted :
  actor_agent actor = None → allowed (can_manage actor f) → can_see actor f granted = true.
Proof.
  unfold can_manage, can_see. destruct (fa_namespace f).
  - rewrite bool_decide_eq_true_2, allowed_system_only by done. intros _ ->. apply orb_true_r.
  - rewrite !bool_decide_eq_false_2 by done. rewrite allowed_if_err.
    destruct actor as [|? []| | |]; try done. intros _ H. by destruct (sc_kind (fa_scope f)).
Qed.

(** Rights grow with rank: whatever the rules allow a person, they allow
    every person who outranks them; and a wider right implies the narrower:
    who may loosen a secret may manage it, and a person who may manage it
    may see it. *)
Theorem rank_monotone hi lo f ns scope consumer name granted delivery dd proof :
  outranks hi lo →
  (allowed (can_create lo ns scope) → allowed (can_create hi ns scope))
  ∧ (can_see lo f granted = true → can_see hi f granted = true)
  ∧ (allowed (can_manage lo f) → allowed (can_manage hi f) ∧ can_see lo f granted = true)
  ∧ (allowed (can_loosen lo f) → allowed (can_loosen hi f) ∧ allowed (can_manage lo f))
  ∧ (allowed (can_grant lo f consumer delivery dd) → allowed (can_grant hi f consumer delivery dd))
  ∧ (allowed (can_reveal_secret lo ns scope name proof) → allowed (can_reveal_secret hi ns scope name proof)).
Proof.
  intros Hr. pose proof (outranks_human _ _ Hr) as (Ha&Hsh&Hs&Hag&_).
  split_and!; [by apply create_monotone|by apply see_monotone|..|by apply reveal_monotone];
    intros H; destruct (fa_namespace f) eqn:Hns.
  1,3,5: by destruct (system_refused lo f consumer delivery dd Hs Hns) as (?&?&?).
  all: destruct (admin_rights hi f consumer granted delivery dd Ha Hns) as (?&?&?&?).
  - split; [done|by apply manage_see].
  - split; [done|]. unfold can_loosen in H. by apply allowed_bind in H as [? _].
  - done.
Qed.

Lemma rank_monotone_witness :
  allowed (can_manage (Actor_Login "ann" VaultRole_Admin)
    (mk_Facts Namespace_User (mk_Scope ScopeKind_Workspace "w") "connect:bob" true false None)).
Proof.
  refine (proj1 (proj1 (proj2 (proj2 (rank_monotone (Actor_Login "ann" VaultRole_Admin) (Actor_Login "bob" VaultRole_Member)
    (mk_Facts Namespace_User (mk_Scope ScopeKind_Workspace "w") "connect:bob" true false None)
    Namespace_User (mk_Scope ScopeKind_Workspace "w") (mk_Consumer ConsumerKind_Workspace "w") "k" false
    Delivery_Env Delivery_Fetch HumanProof_None eq_refl))) _)).
  vm_compute. reflexivity.
Defined.
