(* ===== verification/FrameRing.v ===== *)
(** * The shared-memory frame ring

    [crates/kessel-frame-ring]: a single-producer, single-consumer ring of
    NV12 video frames in a file two processes map ([lib.rs], [shm.rs],
    [scale.rs], [producer.rs], [consumer.rs]).

    The mapping is a record of its words; a slot's words and bytes are one
    record each. An operation of the producer is the list of its stores, in
    program order; a read of the consumer takes the memory each of its loads
    sees, so that any interleaving (and a hostile file) is a choice of those
    memories. Loads and stores are sequentially consistent here: the acquire,
    release and fence orderings of the code are what a seqlock needs for that
    on the hardware, and are not modelled further. *)

From S2P Require Import Prelude.
From stdpp Require Import functions pretty.
Open Scope Z_scope.

(** ** Layout ([lib.rs]) *)

Definition RING_VERSION : Z := 1.
Definition RING_MAX_SLOTS : Z := 8.
Definition MAX_SIDE : Z := 4096.
Definition MAX_INPUT_SIDE : Z := 16384.
Definition CONSUMER_STALE_NS : Z := 2000000000.
Definition HEADER : Z := 256.
Definition SLOT_HEADER : Z := 64.
Definition MAX_FRAME_NO : Z := Z.shiftl 1 56 - 1.
Definition MAX_FPS : Z := 240.
Definition MAX_SEQ : Z := Z.shiftl 1 62.
Definition F_WANTS : Z := 1.
Definition F_STOP : Z := 2.
Definition F_GONE : Z := 4.
Definition S_WAITING : Z := 0.
Definition S_RUNNING : Z := 1.
Definition S_ENDED : Z := 2.
Definition READ_TRIES : nat := 3.
(** [u64::from_le_bytes] of the eight letters of KFRAMRNG. *)
Definition MAGIC : Z := foldr (λ b acc, b + 256 * acc) 0 (bytes "KFRAMRNG").

Inductive RingError :=
| RingError_NotFound | RingError_Busy
| RingError_Mismatch (why : string)
| RingError_Invalid (why : string)
| RingError_Io.

Definition ring_code (e : RingError) : Z :=
  match e with
  | RingError_Invalid _ => -1 | RingError_NotFound => -2 | RingError_Busy => -3
  | RingError_Mismatch _ => -4 | RingError_Io => -5
  end.

Record Layout := mk_Layout {
  ly_max_width : Z;
  ly_max_height : Z;
  ly_slots : Z;
  ly_max_fps : Z;
}.
Definition Layout_new (max_width max_height : Z) : Layout := mk_Layout max_width max_height 3 15.
Definition hd720 : Layout := Layout_new 1280 720.

(** [u64::div_ceil] and [u32::is_multiple_of]. *)
Definition div_ceil_z (a b : Z) : Z := (a + b - 1) / b.
Definition is_multiple_of (a b : Z) : bool := a mod b =? 0.

Definition side_ok (what : string) (v : Z) : Result unit RingError :=
  guard negb ((16 <=? v) && (v <=? MAX_SIDE)) || negb (is_multiple_of v 2)
    ret Err (RingError_Invalid ("a max " +:+ what +:+ " of " +:+ pretty v));
  Ok tt.
Definition Layout_validate (l : Layout) : Result unit RingError :=
  let? _ := side_ok "width" (ly_max_width l) in
  let? _ := side_ok "height" (ly_max_height l) in
  guard negb ((2 <=? ly_slots l) && (ly_slots l <=? RING_MAX_SLOTS))
    ret Err (RingError_Invalid (pretty (ly_slots l) +:+ " slots"));
  guard MAX_FPS <? ly_max_fps l ret Err (RingError_Invalid (pretty (ly_max_fps l) +:+ " fps"));
  Ok tt.

(** [usize] is 64 bits wide: [usize::try_from] of a [u64] never fails. *)
Definition nv12_len (width height : Z) : Z :=
  u64_sat_add (width * height) (2 * div_ceil_z width 2 * div_ceil_z height 2).
Definition slot_bytes (l : Layout) : Z := nv12_len (ly_max_width l) (ly_max_height l).
Definition slot_stride (l : Layout) : Z :=
  u64_sat_mul (div_ceil_z (u64_sat_add SLOT_HEADER (slot_bytes l)) 64) 64.
Definition file_len (l : Layout) : Z := u64_sat_add (u64_sat_mul (ly_slots l) (slot_stride l)) HEADER.
Definition layout_fits (l : Layout) (width height : Z) : bool :=
  let '(bw, bh) := (ly_max_width l, ly_max_height l) in
  (width <=? bw) && (height <=? bh) || (width <=? bh) && (height <=? bw).

Inductive Color := Bt601Limited | Bt709Limited | Bt709Full.
Definition Color_from_u32 (v : Z) : option Color :=
  if v =? 0 then Some Bt601Limited else if v =? 1 then Some Bt709Limited
  else if v =? 2 then Some Bt709Full else None.
(** [color as u32]. *)
Definition Color_u32 (c : Color) : Z :=
  match c with Bt601Limited => 0 | Bt709Limited => 1 | Bt709Full => 2 end.

Inductive EndReason := UserStopped | SourceClosed | EndFailed.
Definition EndReason_from_u32 (v : Z) : option EndReason :=
  if v =? 1 then Some UserStopped else if v =? 2 then Some SourceClosed
  else if v =? 3 then Some EndFailed else None.
Definition EndReason_u32 (r : EndReason) : Z :=
  match r with UserStopped => 1 | SourceClosed => 2 | EndFailed => 3 end.

Inductive ProducerState := PS_Waiting | PS_Running | PS_Ended (r : EndReason) | PS_Gone.

Record Nv12Frame := mk_Nv12Frame {
  nf_y : list Z;
  nf_y_stride : Z;
  nf_uv : list Z;
  nf_uv_stride : Z;
  nf_width : Z;
  nf_height : Z;
  nf_rotation : Z;
  nf_color : Color;
  nf_timestamp_ns : Z;
}.
Definition Nv12Frame_new (y : list Z) (y_stride : Z) (uv : list Z) (uv_stride width height : Z) : Nv12Frame :=
  mk_Nv12Frame y y_stride uv uv_stride width height 0 Bt601Limited 0.

Definition rotation_ok (r : Z) : bool := (r =? 0) || (r =? 90) || (r =? 180) || (r =? 270).

(** [checked_mul(rows - 1)?.checked_add(row)] on [usize]. *)
Definition need (stride rows row : Z) : option Z :=
  let p := stride * (rows - 1) in
  if p <=? u64_max then if p + row <=? u64_max then Some (p + row) else None else None.
Definition plane_short (p : list Z) (n : option Z) : bool :=
  match n with None => true | Some n => Z.of_nat (length p) <? n end.

Definition Nv12Frame_validate (f : Nv12Frame) : Result unit RingError :=
  let '(w, h) := (nf_width f, nf_height f) in
  let dims := pretty w +:+ "x" +:+ pretty h in
  guard negb ((1 <=? w) && (w <=? MAX_INPUT_SIDE)) || negb ((1 <=? h) && (h <=? MAX_INPUT_SIDE))
    ret Err (RingError_Invalid ("a " +:+ dims +:+ " frame"));
  guard negb (rotation_ok (nf_rotation f))
    ret Err (RingError_Invalid ("a rotation of " +:+ pretty (nf_rotation f)));
  guard nf_y_stride f <? w
    ret Err (RingError_Invalid ("a Y stride of " +:+ pretty (nf_y_stride f) +:+ " for " +:+ pretty w +:+ " pixels"));
  guard plane_short (nf_y f) (need (nf_y_stride f) h w)
    ret Err (RingError_Invalid ("a " +:+ pretty (Z.of_nat (length (nf_y f))) +:+ "-byte Y plane for " +:+ dims
      +:+ ", stride " +:+ pretty (nf_y_stride f)));
  let '(cw2, ch) := (2 * div_ceil_z w 2, div_ceil_z h 2) in
  guard nf_uv_stride f <? cw2
    ret Err (RingError_Invalid ("a UV stride of " +:+ pretty (nf_uv_stride f) +:+ " for " +:+ pretty w +:+ " pixels"));
  guard plane_short (nf_uv f) (need (nf_uv_stride f) ch cw2)
    ret Err (RingError_Invalid ("a " +:+ pretty (Z.of_nat (length (nf_uv f))) +:+ "-byte UV plane for " +:+ dims
      +:+ ", stride " +:+ pretty (nf_uv_stride f)));
  Ok tt.

Record FrameInfo := mk_FrameInfo {
  fi_frame_no : Z;
  fi_width : Z;
  fi_height : Z;
  fi_rotation : Z;
  fi_color : Color;
  fi_timestamp_ns : Z;
}.
Definition uv_offset (i : FrameInfo) : Z := u64_sat_mul (fi_width i) (fi_height i).
Definition uv_stride (i : FrameInfo) : Z := 2 * div_ceil_z (fi_width i) 2.
Definition info_len (i : FrameInfo) : Z := nv12_len (fi_width i) (fi_height i).

(** ** Scaling ([scale.rs]) *)

(** [(v as u32 & !1).max(2)]. *)
Definition even (v : Z) : Z := Z.max 2 (Z.land (u32 v) (2 ^ 32 - 2)).

Definition scale_fit (width height box_w box_h : Z) : Z * Z :=
  let '(bw, bh) :=
    if negb (Bool.eqb (height <? width) (box_h <? box_w)) && negb (width =? height) && negb (box_w =? box_h)
    then (box_h, box_w) else (box_w, box_h) in
  if (width <=? bw) && (height <=? bh) then (width, height)
  else
    let '(dw, dh) := if height * bw <=? width * bh then (bw, height * bw / width) else (width * bh / height, bh) in
    (even dw, even dh).

(** One plane of samples: [sr_channels] bytes each, rows [sr_stride] apart. *)
Record Src := mk_Src {
  sr_data : list Z;
  sr_stride : Z;
  sr_cols : Z;
  sr_rows : Z;
  sr_channels : Z;
}.

(** The sources [y0 .. y1] of destination index [d] of [n], of [len]. *)
Definition box_of (d len n : Z) : Z * Z :=
  let v0 := d * len / n in (v0, Z.max ((d + 1) * len / n) (v0 + 1)).

(** A byte of the source; [0] stands for the panic of a slice out of range
    (a validated frame has none, [plane_in_bounds]). *)
Definition sample (src : Src) (x y c : Z) : Z :=
  default 0 (sr_data src !! Z.to_nat (y * sr_stride src + x * sr_channels src + c)).

Definition sum_list (l : list Z) : Z := fold_right Z.add 0 l.

(** The rounded mean of the source box under a destination sample. *)
Definition box_mean (src : Src) (dcols drows dx dy c : Z) : Z :=
  let '(y0, y1) := box_of dy (sr_rows src) drows in
  let '(x0, x1) := box_of dx (sr_cols src) dcols in
  let n := (y1 - y0) * (x1 - x0) in
  let total := sum_list (y ← seqZ y0 (y1 - y0); (λ x, sample src x y c) <$> seqZ x0 (x1 - x0)) in
  ((total + n / 2) / n) mod 256.

(** The bytes [plane] writes, in the order it writes them. *)
Definition plane (src : Src) (dcols drows : Z) : list Z :=
  let ch := sr_channels src in
  if (dcols =? sr_cols src) && (drows =? sr_rows src) then
    y ← seqZ 0 drows; x ← seqZ 0 dcols; (λ c, sample src x y c) <$> seqZ 0 ch
  else
    dy ← seqZ 0 drows; dx ← seqZ 0 dcols; (λ c, box_mean src dcols drows dx dy c) <$> seqZ 0 ch.

Definition write_nv12 (f : Nv12Frame) (dw dh : Z) : list Z :=
  plane (mk_Src (nf_y f) (nf_y_stride f) (nf_width f) (nf_height f) 1) dw dh
  ++ plane (mk_Src (nf_uv f) (nf_uv_stride f) (div_ceil_z (nf_width f) 2) (div_ceil_z (nf_height f) 2) 2)
       (div_ceil_z dw 2) (div_ceil_z dh 2).

(** ** The mapping ([shm.rs]) *)

(** A slot: its header words, and its bytes by offset. *)
Record SlotMem := mk_SlotMem {
  sl_seq : Z;
  sl_frame_no : Z;
  sl_width : Z;
  sl_height : Z;
  sl_rotation : Z;
  sl_color : Z;
  sl_timestamp : Z;
  sl_len : Z;
  sl_data : Z → Z;
}.

(** The header words fixed at create. *)
Record HeaderMem := mk_HeaderMem {
  hm_magic : Z;
  hm_version : Z;
  hm_header_size : Z;
  hm_slot_header : Z;
  hm_slots : Z;
  hm_max_width : Z;
  hm_max_height : Z;
  hm_slot_bytes : Z;
}.

Record RingMem := mk_RingMem {
  h_fixed : HeaderMem;
  h_max_fps : Z;
  h_flags : Z;
  h_beat : Z;
  h_state : Z;
  h_end_reason : Z;
  h_latest : Z;
  h_written : Z;
  h_dropped : Z;
  h_attaches : Z;
  h_slot : Z → SlotMem;
}.

(** Where a slot's words start: [HEADER + slot * slot_stride]. *)
Definition slot_base (l : Layout) (slot : Z) : Z := HEADER + slot * slot_stride l.

(** [Map::read_layout] on a mapping of [len] bytes. *)
Definition read_layout (len : Z) (m : RingMem) : Result Layout RingError :=
  let bad why := Err (RingError_Mismatch why) in
  let h := h_fixed m in
  guard len <? HEADER ret bad (pretty len +:+ " bytes, under the header");
  guard negb (hm_magic h =? MAGIC) ret bad "no magic";
  guard negb (hm_version h =? RING_VERSION)
    ret bad ("version " +:+ pretty (hm_version h) +:+ ", not " +:+ pretty RING_VERSION);
  guard negb ((hm_header_size h =? HEADER) && (hm_slot_header h =? SLOT_HEADER))
    ret bad ("headers of " +:+ pretty (hm_header_size h) +:+ " and " +:+ pretty (hm_slot_header h) +:+ " bytes");
  let layout := mk_Layout (hm_max_width h) (hm_max_height h) (hm_slots h) (h_max_fps m) in
  let? _ := match Layout_validate layout with
    | Ok _ => Ok tt
    | Err (RingError_Invalid e) => Err (RingError_Mismatch ("its layout: invalid: " +:+ e))
    | Err e => Err e
    end in
  guard negb (hm_slot_bytes h =? slot_bytes layout)
    ret bad (pretty (hm_slot_bytes h) +:+ "-byte slots, not " +:+ pretty (slot_bytes layout) +:+ " for its box");
  guard negb (len =? file_len layout)
    ret bad (pretty len +:+ " bytes, not the " +:+ pretty (file_len layout) +:+ " its layout needs");
  Ok layout.

Definition zero_slot : SlotMem := mk_SlotMem 0 0 0 0 0 0 0 0 (λ _, 0).

(** A new file is zeros; [Map::write_header] fills in the header. *)
Definition new_ring (l : Layout) (now : Z) : RingMem := {|
  h_fixed := mk_HeaderMem MAGIC RING_VERSION HEADER SLOT_HEADER (ly_slots l) (ly_max_width l) (ly_max_height l) (slot_bytes l);
  h_max_fps := ly_max_fps l; h_flags := F_WANTS; h_beat := now; h_state := S_WAITING; h_end_reason := 0;
  h_latest := 0; h_written := 0; h_dropped := 0; h_attaches := 0; h_slot := λ _, zero_slot;
|}.

(** A store of the producer or the consumer (a [fetch_add], [fetch_or] or
    [fetch_and] is one atomic store). *)
Inductive SlotStore :=
| St_seq (v : Z) | St_frame_no (v : Z) | St_width (v : Z) | St_height (v : Z) | St_rotation (v : Z)
| St_color (v : Z) | St_timestamp (v : Z) | St_len (v : Z) | St_byte (off v : Z).

Inductive Store :=
| St_slot (slot : Z) (s : SlotStore)
| St_latest (v : Z) | St_state (v : Z) | St_end_reason (v : Z)
| St_add_written | St_add_dropped | St_add_attaches
| St_beat (v : Z) | St_max_fps (v : Z) | St_or_flags (v : Z) | St_and_not_flags (v : Z).

Definition store_slot (s : SlotMem) (st : SlotStore) : SlotMem :=
  match st with
  | St_seq v => mk_SlotMem v (sl_frame_no s) (sl_width s) (sl_height s) (sl_rotation s) (sl_color s) (sl_timestamp s) (sl_len s) (sl_data s)
  | St_frame_no v => mk_SlotMem (sl_seq s) v (sl_width s) (sl_height s) (sl_rotation s) (sl_color s) (sl_timestamp s) (sl_len s) (sl_data s)
  | St_width v => mk_SlotMem (sl_seq s) (sl_frame_no s) v (sl_height s) (sl_rotation s) (sl_color s) (sl_timestamp s) (sl_len s) (sl_data s)
  | St_height v => mk_SlotMem (sl_seq s) (sl_frame_no s) (sl_width s) v (sl_rotation s) (sl_color s) (sl_timestamp s) (sl_len s) (sl_data s)
  | St_rotation v => mk_SlotMem (sl_seq s) (sl_frame_no s) (sl_width s) (sl_height s) v (sl_color s) (sl_timestamp s) (sl_len s) (sl_data s)
  | St_color v => mk_SlotMem (sl_seq s) (sl_frame_no s) (sl_width s) (sl_height s) (sl_rotation s) v (sl_timestamp s) (sl_len s) (sl_data s)
  | St_timestamp v => mk_SlotMem (sl_seq s) (sl_frame_no s) (sl_width s) (sl_height s) (sl_rotation s) (sl_color s) v (sl_len s) (sl_data s)
  | St_len v => mk_SlotMem (sl_seq s) (sl_frame_no s) (sl_width s) (sl_height s) (sl_rotation s) (sl_color s) (sl_timestamp s) v (sl_data s)
  | St_byte off v => mk_SlotMem (sl_seq s) (sl_frame_no s) (sl_width s) (sl_height s) (sl_rotation s) (sl_color s) (sl_timestamp s) (sl_len s) (<[off := v]> (sl_data s))
  end.

Definition store (m : RingMem) (st : Store) : RingMem :=
  match m with
  | mk_RingMem fx fps fl bt sta er la wr dr at' sl =>
    match st with
    | St_slot i s => mk_RingMem fx fps fl bt sta er la wr dr at' (<[i := store_slot (sl i) s]> sl)
    | St_latest v => mk_RingMem fx fps fl bt sta er v wr dr at' sl
    | St_state v => mk_RingMem fx fps fl bt v er la wr dr at' sl
    | St_end_reason v => mk_RingMem fx fps fl bt sta v la wr dr at' sl
    | St_add_written => mk_RingMem fx fps fl bt sta er la (u64 (wr + 1)) dr at' sl
    | St_add_dropped => mk_RingMem fx fps fl bt sta er la wr (u64 (dr + 1)) at' sl
    | St_add_attaches => mk_RingMem fx fps fl bt sta er la wr dr (u64 (at' + 1)) sl
    | St_beat v => mk_RingMem fx fps fl v sta er la wr dr at' sl
    | St_max_fps v => mk_RingMem fx v fl bt sta er la wr dr at' sl
    | St_or_flags v => mk_RingMem fx fps (Z.lor fl v) bt sta er la wr dr at' sl
    | St_and_not_flags v => mk_RingMem fx fps (Z.ldiff fl v) bt sta er la wr dr at' sl
    end
  end.

Definition stores (m : RingMem) (l : list Store) : RingMem := fold_left store l m.

(** ** The producer ([producer.rs]) *)

Record Producer := mk_Producer {
  pr_layout : Layout;
  pr_next_frame : Z;
  pr_seqs : Z → Z;
  pr_newest : option Z;
  pr_last_kept_ns : option Z;
  pr_finished : bool;
}.

Inductive Pushed :=
| Pushed_Written (frame_no width height : Z)
| Pushed_NotWanted
| Pushed_TooSoon.

Definition after (n : Z) : Z := if n <? MAX_FRAME_NO then n + 1 else 1.
Definition sane_seq (v : Z) : Z := if MAX_SEQ <? v then 0 else v.
Definition shrunk : RingError := RingError_Mismatch "the file has shrunk under the ring".
Definition largest_file : Z := file_len (mk_Layout MAX_SIDE MAX_SIDE RING_MAX_SLOTS 0).

(** What an operation meets outside the producer: whether the file still
    covers the mapping, the consumer's words at each load, the clock. *)
Record PushEnv := mk_PushEnv {
  pe_whole : bool;
  pe_wants_flags : Z;
  pe_beat : Z;
  pe_present_flags : Z;
  pe_beat_now : Z;
  pe_now : Z;
  pe_max_fps : Z;
}.

Definition present (e : PushEnv) : bool :=
  (Z.land (pe_present_flags e) F_GONE =? 0) && (u64_sat_sub (pe_beat_now e) (pe_beat e) <? CONSUMER_STALE_NS).
Definition wanted (e : PushEnv) : bool := negb (Z.land (pe_wants_flags e) F_WANTS =? 0) && present e.
Definition rate (max_fps : Z) : Z := Z.min max_fps MAX_FPS.

(** The loop over [try_lock]: five tries, the first error ends it. *)
Fixpoint take_lock (tries : nat) (lock : nat → Result bool RingError) : Result bool RingError :=
  match tries with
  | O => Ok false
  | S n => let? got := lock O in if (got : bool) then Ok true else take_lock n (λ i, lock (S i))
  end.

(** [Producer::attach] to a file of [len] bytes; [whole]: it is still that
    long once mapped. *)
Definition attach (lock : nat → Result bool RingError) (len : Z) (whole : bool) (m : RingMem)
    : Result (Producer * list Store) RingError :=
  let? locked := take_lock 5 lock in
  guard negb locked ret Err RingError_Busy;
  guard len <? HEADER ret Err (RingError_Mismatch (pretty len +:+ " bytes, under the header"));
  guard largest_file <? len ret Err (RingError_Mismatch (pretty len +:+ " bytes, over the largest ring"));
  guard negb whole ret Err shrunk;
  let? layout := read_layout len m in
  let latest := h_latest m in
  let slots := ly_slots layout in
  let s := Z.land latest 0xff in
  let newest := if negb (latest =? 0) && (s <? slots) then Some s else None in
  let seqs := λ i, if (0 <=? i) && (i <? slots) then sane_seq (sl_seq (h_slot m i)) else 0 in
  Ok (mk_Producer layout (after (Z.shiftr latest 8)) seqs newest None false, [St_add_attaches]).

(** [Producer::start], [layout], [consumer_present], [wants_frames] and
    [stop_requested]. *)
Definition start (whole : bool) : list Store := if whole then [St_end_reason 0; St_state S_RUNNING] else [].
Definition producer_layout (p : Producer) (whole : bool) (max_fps : Z) : Layout :=
  let l := pr_layout p in
  if whole then mk_Layout (ly_max_width l) (ly_max_height l) (ly_slots l) (rate max_fps) else l.
Definition consumer_present (e : PushEnv) : bool := pe_whole e && present e.
Definition wants_frames (e : PushEnv) : bool := pe_whole e && wanted e.
Definition stop_requested (whole : bool) (flags : Z) : bool := whole && negb (Z.land flags F_STOP =? 0).

Definition next_slot (p : Producer) : Z :=
  match pr_newest p with None => 0 | Some s => (s + 1) mod ly_slots (pr_layout p) end.

(** The stores of one frame into its slot, and its publication. *)
Definition frame_stores (slot frame_no odd dw dh ts : Z) (f : Nv12Frame) (data : list Z) : list Store :=
  map (St_slot slot)
    ([St_seq odd; St_frame_no frame_no; St_width dw; St_height dh; St_rotation (nf_rotation f);
      St_color (Color_u32 (nf_color f)); St_timestamp ts; St_len (nv12_len dw dh)]
     ++ imap (λ i b, St_byte (Z.of_nat i) b) data ++ [St_seq (odd + 1)])
  ++ [St_latest (Z.lor (Z.shiftl frame_no 8) slot); St_add_written].

Definition too_soon (last : option Z) (fps ts : Z) : bool :=
  match last with
  | Some last =>
    (0 <? fps) &&
      let interval := 1000000000 / fps in
      (u64_sat_sub ts last <? interval - interval / 4)
  | None => false
  end.

Definition push (p : Producer) (f : Nv12Frame) (e : PushEnv)
    : Result Pushed RingError * Producer * list Store :=
  match Nv12Frame_validate f with
  | Err er => (Err er, p, [])
  | Ok _ =>
    guard negb (pe_whole e) ret (Err shrunk, p, []);
    guard negb (wanted e) ret (Ok Pushed_NotWanted, p, [St_add_dropped]);
    let ts := if nf_timestamp_ns f =? 0 then pe_now e else nf_timestamp_ns f in
    let fps := rate (pe_max_fps e) in
    guard too_soon (pr_last_kept_ns p) fps ts ret (Ok Pushed_TooSoon, p, [St_add_dropped]);
    let l := pr_layout p in
    let '(dw, dh) := scale_fit (nf_width f) (nf_height f) (ly_max_width l) (ly_max_height l) in
    guard slot_bytes l <? nv12_len dw dh
      ret (Err (RingError_Mismatch ("a " +:+ pretty dw +:+ "x" +:+ pretty dh +:+ " frame over a slot of "
                +:+ pretty (slot_bytes l) +:+ " bytes")), p, []);
    let frame_no := pr_next_frame p in
    let slot := next_slot p in
    let odd := Z.lor (sane_seq (pr_seqs p slot)) 1 in
    (Ok (Pushed_Written frame_no dw dh),
     mk_Producer l (after frame_no) (<[slot := odd + 1]> (pr_seqs p)) (Some slot) (Some ts) (pr_finished p),
     frame_stores slot frame_no odd dw dh ts f (write_nv12 f dw dh))
  end.

(** [Producer::finish], and [drop] ([SourceClosed]): [end], then the lock. *)
Definition finish (p : Producer) (whole : bool) (reason : EndReason) : Producer * list Store :=
  if pr_finished p then (p, [])
  else (mk_Producer (pr_layout p) (pr_next_frame p) (pr_seqs p) (pr_newest p) (pr_last_kept_ns p) true,
        if whole then [St_end_reason (EndReason_u32 reason); St_state S_ENDED] else []).

(** ** The consumer ([consumer.rs]) *)

Record Consumer := mk_Consumer {
  cn_layout : Layout;
  cn_last_frame : Z;
  cn_last_rejected : Z;
  cn_missed : Z;
  cn_torn : Z;
  cn_rejected : Z;
}.

Definition Consumer_create (l : Layout) (now : Z) : Result (Consumer * RingMem) RingError :=
  let? _ := Layout_validate l in
  Ok (mk_Consumer l 0 0 0 0 0, new_ring l now).

Definition touch (whole : bool) (now : Z) : list Store := if whole then [St_beat now] else [].
Definition set_wanted (whole want : bool) (now : Z) : list Store :=
  if whole then [if want then St_or_flags F_WANTS else St_and_not_flags F_WANTS; St_beat now] else [].
Definition request_stop (whole : bool) : list Store := if whole then [St_or_flags F_STOP] else [].
Definition set_max_fps (c : Consumer) (whole : bool) (fps : Z) : Result (Consumer * list Store) RingError :=
  guard MAX_FPS <? fps ret Err (RingError_Invalid (pretty fps +:+ " fps"));
  let l := cn_layout c in
  Ok (mk_Consumer (mk_Layout (ly_max_width l) (ly_max_height l) (ly_slots l) fps) (cn_last_frame c)
        (cn_last_rejected c) (cn_missed c) (cn_torn c) (cn_rejected c),
      if whole then [St_max_fps fps] else []).
(** [drop]: the flags it leaves. *)
Definition drop_consumer (whole : bool) : list Store :=
  if whole then [St_and_not_flags F_WANTS; St_or_flags F_GONE] else [].

(** [Consumer::producer]: the states and the end reason its loads see, and
    what [try_lock] says. *)
Definition producer_state (whole : bool) (state1 state2 state3 end_reason : Z) (lock : Result bool RingError)
    : Result ProducerState RingError :=
  guard negb whole ret Err shrunk;
  let decided :=
    Ok (if state3 =? S_RUNNING then PS_Running
        else if state3 =? S_ENDED then PS_Ended (default SourceClosed (EndReason_from_u32 end_reason))
        else PS_Waiting) in
  if state1 =? S_RUNNING then
    let? free := lock in
    if (free : bool) then (if state2 =? S_RUNNING then Ok PS_Gone else decided) else Ok PS_Running
  else decided.

Inductive Skip := Skip_Torn | Skip_Bad.

(** [Consumer::copy_slot]: the memory each load sees is [see k]: load [0] is
    the slot's sequence word, [1]-[7] its fields, then a byte each, and last
    the sequence word again ([8] when a check failed first). Also what is
    left in [out]. *)
Definition bad_or_torn (see : nat → RingMem) (slot s1 : Z) : Skip :=
  if sl_seq (h_slot (see 8%nat) slot) =? s1 then Skip_Bad else Skip_Torn.

Definition copied (see : nat → RingMem) (slot want : Z) : list Z :=
  (λ k, sl_data (h_slot (see (8 + Z.to_nat k)%nat) slot) k) <$> seqZ 0 want.

Definition copy_slot (l : Layout) (latest : Z) (see : nat → RingMem) (out : list Z)
    : Result FrameInfo Skip * list Z :=
  let slot := Z.land latest 0xff in
  guard ly_slots l <=? slot ret (Err Skip_Bad, out);
  let at_ k := h_slot (see k) slot in
  let s1 := sl_seq (at_ 0%nat) in
  guard Z.land s1 1 =? 1 ret (Err Skip_Torn, out);
  let frame_no := sl_frame_no (at_ 1%nat) in
  let width := sl_width (at_ 2%nat) in
  let height := sl_height (at_ 3%nat) in
  let rotation := sl_rotation (at_ 4%nat) in
  let color := sl_color (at_ 5%nat) in
  let timestamp_ns := sl_timestamp (at_ 6%nat) in
  let len := sl_len (at_ 7%nat) in
  guard negb (frame_no =? Z.shiftr latest 8) ret (Err Skip_Torn, out);
  let valid := (1 <=? frame_no) && (frame_no <=? MAX_FRAME_NO) && (1 <=? width) && (1 <=? height)
    && layout_fits l width height && rotation_ok rotation in
  match (if valid then Color_from_u32 color else None) with
  | None => (Err (bad_or_torn see slot s1), out)
  | Some color =>
    let info := mk_FrameInfo frame_no width height rotation color timestamp_ns in
    let want := info_len info in
    guard negb (len =? want) || (slot_bytes l <? want) ret (Err (bad_or_torn see slot s1), out);
    let out := copied see slot want in
    guard negb (sl_seq (at_ (8 + Z.to_nat want)%nat) =? s1) ret (Err Skip_Torn, out);
    (Ok info, out)
  end.

(** One try of a read: the memory that [H_LATEST] is loaded from, and those
    of [copy_slot]'s loads. *)
Record ReadTry := mk_ReadTry {
  rt_latest : RingMem;
  rt_copy : nat → RingMem;
}.

Definition note_read (c : Consumer) (frame_no : Z) : Consumer :=
  if frame_no =? cn_last_frame c then c
  else mk_Consumer (cn_layout c) frame_no (cn_last_rejected c)
    (if cn_last_frame c <? frame_no then u64_sat_add (cn_missed c) (frame_no - cn_last_frame c - 1) else cn_missed c)
    (cn_torn c) (cn_rejected c).
Definition note_rejected (c : Consumer) (latest : Z) : Consumer :=
  if latest =? cn_last_rejected c then c
  else mk_Consumer (cn_layout c) (cn_last_frame c) latest (cn_missed c) (cn_torn c) (u64_sat_add (cn_rejected c) 1).
Definition note_torn (c : Consumer) : Consumer :=
  mk_Consumer (cn_layout c) (cn_last_frame c) (cn_last_rejected c) (cn_missed c) (u64_sat_add (cn_torn c) 1) (cn_rejected c).

Fixpoint read_tries (n : nat) (c : Consumer) (again : bool) (try : nat → ReadTry) (out : list Z)
    : option FrameInfo * Consumer * list Z :=
  match n with
  | O => (None, note_torn c, out)
  | S n =>
    let latest := h_latest (rt_latest (try O)) in
    let frame_no := Z.shiftr latest 8 in
    guard (frame_no =? 0) || (negb again && (frame_no =? cn_last_frame c)) ret (None, c, out);
    match copy_slot (cn_layout c) latest (rt_copy (try O)) out with
    | (Ok info, out) => (Some info, note_read c frame_no, out)
    | (Err Skip_Bad, out) => (None, note_rejected c latest, out)
    | (Err Skip_Torn, out) => read_tries n c again (λ i, try (S i)) out
    end
  end.

(** [Consumer::read] ([try_read] with [again] off, [read_latest] with it
    on), and its store. *)
Definition read (c : Consumer) (whole again : bool) (now : Z) (try : nat → ReadTry) (out : list Z)
    : option FrameInfo * Consumer * list Z * list Store :=
  if whole then (read_tries READ_TRIES c again try out, [St_beat now]) else (None, c, out, []).

(** ** Lemmas: sizes *)

Lemma div_ceil_z_bounds a b : 0 ≤ a → 0 < b → a ≤ b * div_ceil_z a b < a + b.
Proof.
  intros Ha Hb. unfold div_ceil_z. pose proof (Z.div_mod (a + b - 1) b). pose proof (Z.mod_pos_bound (a + b - 1) b).
  lia.
Qed.
Lemma div_ceil_z_le a a' b : 0 < b → a ≤ a' → div_ceil_z a b ≤ div_ceil_z a' b.
Proof. intros. apply Z.div_le_mono; lia. Qed.

Lemma layout_valid_iff l :
  Layout_validate l = Ok tt ↔
    (16 ≤ ly_max_width l ≤ MAX_SIDE ∧ ly_max_width l mod 2 = 0)
    ∧ (16 ≤ ly_max_height l ≤ MAX_SIDE ∧ ly_max_height l mod 2 = 0)
    ∧ 2 ≤ ly_slots l ≤ RING_MAX_SLOTS ∧ ly_max_fps l ≤ MAX_FPS.
Proof.
  assert (∀ w v, side_ok w v = Ok tt ↔ 16 ≤ v ≤ MAX_SIDE ∧ v mod 2 = 0) as Hs.
  { intros w v. unfold side_ok, is_multiple_of.
    destruct (16 <=? v) eqn:?, (v <=? MAX_SIDE) eqn:?, (v mod 2 =? 0) eqn:?; cbn; bool_props; split; try done; lia. }
  unfold Layout_validate. rewrite <- (Hs "width"), <- (Hs "height").
  destruct (side_ok "width" _) as [[]|]; cbn; [|naive_solver].
  destruct (side_ok "height" _) as [[]|]; cbn; [|naive_solver].
  destruct (2 <=? ly_slots l) eqn:?, (ly_slots l <=? RING_MAX_SLOTS) eqn:?, (MAX_FPS <? ly_max_fps l) eqn:?;
    cbn; bool_props; split; try done; try lia.
Qed.

Lemma half_up w : div_ceil_z w 2 = (w + 1) / 2.
Proof. unfold div_ceil_z. f_equal. lia. Qed.

Lemma nv12_len_exact w h :
  0 ≤ w ≤ MAX_INPUT_SIDE → 0 ≤ h ≤ MAX_INPUT_SIDE →
  nv12_len w h = w * h + 2 * (div_ceil_z w 2 * div_ceil_z h 2).
Proof.
  unfold MAX_INPUT_SIDE. intros Hw Hh. unfold nv12_len, u64_sat_add, u64_max.
  pose proof (div_ceil_z_bounds w 2). pose proof (div_ceil_z_bounds h 2). nia.
Qed.
Lemma nv12_len_le w h w' h' :
  0 ≤ w ≤ w' → 0 ≤ h ≤ h' → nv12_len w h ≤ nv12_len w' h'.
Proof.
  intros [Hw Hw'] [Hh Hh']. unfold nv12_len, u64_sat_add.
  apply Z.min_le_compat_l, Z.add_le_mono; [nia|].
  apply (div_ceil_z_le _ _ 2) in Hw', Hh'; try lia.
  pose proof (div_ceil_z_bounds w 2). pose proof (div_ceil_z_bounds h 2). nia.
Qed.
Lemma nv12_len_comm w h : nv12_len w h = nv12_len h w.
Proof. unfold nv12_len. f_equal; lia. Qed.

Lemma nv12_len_nonneg w h : 0 ≤ w → 0 ≤ h → 0 ≤ nv12_len w h.
Proof.
  intros. unfold nv12_len, u64_sat_add, u64_max.
  pose proof (div_ceil_z_bounds w 2). pose proof (div_ceil_z_bounds h 2). nia.
Qed.

(** A frame that fits the box fits a slot. *)
Lemma fits_slot l w h :
  0 ≤ w → 0 ≤ h → layout_fits l w h = true → nv12_len w h ≤ slot_bytes l.
Proof.
  unfold layout_fits, slot_bytes. rewrite orb_true_iff, !andb_true_iff, !Z.leb_le.
  intros Hw Hh [[? ?]|[? ?]]; [|rewrite (nv12_len_comm w)]; by apply nv12_len_le.
Qed.

Lemma layout_sizes l :
  Layout_validate l = Ok tt →
  slot_bytes l = ly_max_width l * ly_max_height l + 2 * (div_ceil_z (ly_max_width l) 2 * div_ceil_z (ly_max_height l) 2)
  ∧ 0 ≤ slot_bytes l < 2 ^ 25
  ∧ slot_stride l mod 64 = 0
  ∧ SLOT_HEADER + slot_bytes l ≤ slot_stride l < SLOT_HEADER + slot_bytes l + 64
  ∧ file_len l = HEADER + ly_slots l * slot_stride l.
Proof.
  rewrite layout_valid_iff. unfold MAX_SIDE, RING_MAX_SLOTS. intros ([Hw _]&[Hh _]&Hs&_).
  assert (slot_bytes l = ly_max_width l * ly_max_height l
    + 2 * (div_ceil_z (ly_max_width l) 2 * div_ceil_z (ly_max_height l) 2)) as Hb
    by (apply nv12_len_exact; unfold MAX_INPUT_SIDE; lia).
  pose proof (div_ceil_z_bounds (ly_max_width l) 2). pose proof (div_ceil_z_bounds (ly_max_height l) 2).
  assert (0 ≤ slot_bytes l < 2 ^ 25) as Hr by nia.
  pose proof (div_ceil_z_bounds (SLOT_HEADER + slot_bytes l) 64) as Hd. unfold SLOT_HEADER in *.
  assert (slot_stride l = 64 * div_ceil_z (64 + slot_bytes l) 64) as Hst.
  { unfold slot_stride, u64_sat_mul, u64_sat_add, SLOT_HEADER, u64_max. rewrite (Z.min_r _ (64 + _)); lia. }
  split_and!; [done|lia|lia| |lia|lia|].
  - rewrite Hst, Z.mul_comm. apply Z.mod_mul. lia.
  - unfold file_len, u64_sat_mul, u64_sat_add, HEADER, u64_max. rewrite (Z.min_r _ (ly_slots l * _)) by nia. nia.
Qed.

(** Every word and byte a slot below the count has is in the mapping, and
    below the next slot: the assertions of [Map::u64] and [Map::bytes] hold. *)
Lemma slot_in_mapping l slot off n :
  Layout_validate l = Ok tt → 0 ≤ slot < ly_slots l → 0 ≤ off → 0 ≤ n → off + n ≤ SLOT_HEADER + slot_bytes l →
  slot_base l slot mod 64 = 0
  ∧ HEADER ≤ slot_base l slot + off ∧ slot_base l slot + off + n ≤ slot_base l (slot + 1)
  ∧ slot_base l slot + off + n ≤ file_len l.
Proof.
  intros Hl Hs Ho Hn Hon. destruct (layout_sizes l Hl) as (_&Hb&Hm&Hst&Hf). unfold slot_base, HEADER.
  split_and!; [|nia|nia|rewrite Hf; unfold HEADER; nia].
  rewrite Z.add_mod, Z.mul_mod, Hm, Z.mul_0_r by lia. reflexivity.
Qed.

(** ** Lemmas: scaling *)

Lemma even_exact v : 0 ≤ v < 2 ^ 32 → even v = Z.max 2 (2 * (v / 2)).
Proof.
  intros Hv. unfold even. rewrite u32_small by done. f_equal.
  transitivity (Z.ldiff v (Z.ones 1)).
  2: { rewrite Z.ldiff_ones_r, Z.shiftl_mul_pow2, Z.shiftr_div_pow2 by lia. change (2 ^ 1) with 2. lia. }
  apply Z.bits_inj'. intros n Hn. rewrite Z.land_spec, Z.ldiff_spec, Z.testbit_ones_nonneg by lia.
  change (2 ^ 32 - 2) with (Z.shiftl (Z.ones 31) 1). rewrite Z.shiftl_spec by lia.
  destruct (decide (n < 1)) as [Hn1|Hn1].
  { rewrite (Z.testbit_neg_r _ (n - 1)), andb_false_r by lia. rewrite (proj2 (Z.ltb_lt n 1)) by lia. by rewrite andb_false_r. }
  rewrite (proj2 (Z.ltb_ge n 1)), andb_true_r, Z.testbit_ones_nonneg by lia.
  destruct (Z.ltb_spec (n - 1) 31); [apply andb_true_r|].
  rewrite andb_false_r, (Z.bits_above_log2 v n); [done|lia|].
  destruct (decide (v = 0)) as [->|]; [cbn; lia|]. apply Z.log2_lt_pow2; [lia|].
  apply Z.lt_le_trans with (2 ^ 32); [lia|]. apply Z.pow_le_mono_r; lia.
Qed.

Lemma even_in v b : 0 ≤ v ≤ b → 2 ≤ b < 2 ^ 32 → 2 ≤ even v ≤ b.
Proof.
  intros Hv Hb. rewrite even_exact by lia. pose proof (Z.mul_div_le v 2). lia.
Qed.

(** The scaled size, within the box [bw] x [bh]. *)
Lemma scaled_in w h bw bh :
  1 ≤ w ≤ MAX_INPUT_SIDE → 1 ≤ h ≤ MAX_INPUT_SIDE → 16 ≤ bw ≤ MAX_SIDE → 16 ≤ bh ≤ MAX_SIDE →
  let '(dw, dh) := if h * bw <=? w * bh then (bw, h * bw / w) else (w * bh / h, bh) in
  2 ≤ even dw ≤ bw ∧ 2 ≤ even dh ≤ bh.
Proof.
  unfold MAX_SIDE, MAX_INPUT_SIDE. intros. destruct (Z.leb_spec (h * bw) (w * bh)).
  - split; apply even_in; try lia. split; [apply Z.div_pos; lia|]. apply Z.div_le_upper_bound; lia.
  - split; apply even_in; try lia. split; [apply Z.div_pos; lia|]. apply Z.div_le_upper_bound; lia.
Qed.

(** [fit] keeps a frame inside the box, and leaves one that fits as it is. *)
Lemma scale_fit_in_box l w h :
  Layout_validate l = Ok tt → 1 ≤ w ≤ MAX_INPUT_SIDE → 1 ≤ h ≤ MAX_INPUT_SIDE →
  let '(dw, dh) := scale_fit w h (ly_max_width l) (ly_max_height l) in
  1 ≤ dw ≤ MAX_SIDE ∧ 1 ≤ dh ≤ MAX_SIDE ∧ layout_fits l dw dh = true
  ∧ (layout_fits l w h = true → dw = w ∧ dh = h).
Proof.
  rewrite layout_valid_iff. intros ([Hw _]&[Hh _]&_&_) Hw1 Hh1. unfold scale_fit, layout_fits.
  pose proof (scaled_in w h (ly_max_width l) (ly_max_height l) Hw1 Hh1 Hw Hh) as H1.
  pose proof (scaled_in w h (ly_max_height l) (ly_max_width l) Hw1 Hh1 Hh Hw) as H2.
  set (bw := ly_max_width l) in *. set (bh := ly_max_height l) in *. clearbody bw bh.
  match goal with |- context [if ?c then (bh, bw) else (bw, bh)] => destruct c eqn:Hc end.
  - apply andb_true_iff in Hc as [Hc _]. apply andb_true_iff in Hc as [Hc _]. apply negb_true_iff, eqb_false_iff in Hc.
    destruct ((w <=? bh) && (h <=? bw)) eqn:Hin.
    { bool_props. split_and!; [lia..| |done]. apply orb_true_iff. right. by rewrite !(proj2 (Z.leb_le _ _)). }
    destruct (if h * bh <=? w * bw then _ else _) as [dw dh]. split_and!; [lia..| |].
    + apply orb_true_iff. right. by rewrite !(proj2 (Z.leb_le _ _)) by lia.
    + rewrite orb_true_iff, andb_true_iff, !Z.leb_le. apply andb_false_iff in Hin. rewrite !Z.leb_gt in Hin.
      intros [[? ?]|?]; [|done]. revert Hc. destruct (Z.ltb_spec h w), (Z.ltb_spec bh bw); intros Hc; try done; lia.
  - destruct ((w <=? bw) && (h <=? bh)) eqn:Hin.
    { bool_props. split_and!; [lia..| |done]. apply orb_true_iff. left. by rewrite !(proj2 (Z.leb_le _ _)). }
    destruct (if h * bw <=? w * bh then _ else _) as [dw dh]. split_and!; [lia..| |].
    + apply orb_true_iff. left. by rewrite !(proj2 (Z.leb_le _ _)) by lia.
    + rewrite orb_true_iff, andb_true_iff, !Z.leb_le. apply andb_false_iff in Hin. rewrite !Z.leb_gt in Hin.
      intros [?|[? ?]]; [done|]. exfalso. revert Hc.
      destruct (Z.eqb_spec w h), (Z.eqb_spec bw bh), (Z.ltb_spec h w), (Z.ltb_spec bh bw); cbn; try done; lia.
Qed.

(** ** Lemmas: the planes *)

Lemma length_flat {A} (l : list Z) (f : Z → list A) n :
  (∀ x, x ∈ l → length (f x) = n) → length (l ≫= f) = (length l * n)%nat.
Proof.
  induction l as [|x l IH]; intros Hf; [done|]. cbn [mbind list_bind]. rewrite length_app, Hf, IH by set_solver. cbn. lia.
Qed.

Lemma plane_length src dcols drows :
  length (plane src dcols drows) = (Z.to_nat drows * (Z.to_nat dcols * Z.to_nat (sr_channels src)))%nat.
Proof.
  unfold plane. destruct (_ && _);
    (erewrite length_flat; [by rewrite length_seqZ|]); intros y _; cbn beta;
    (erewrite length_flat; [by rewrite length_seqZ|]); intros x _; by rewrite length_fmap, length_seqZ.
Qed.

Lemma write_nv12_length f dw dh :
  0 ≤ dw ≤ MAX_INPUT_SIDE → 0 ≤ dh ≤ MAX_INPUT_SIDE →
  Z.of_nat (length (write_nv12 f dw dh)) = nv12_len dw dh.
Proof.
  intros Hw Hh. unfold write_nv12. rewrite length_app, !plane_length, nv12_len_exact by done. cbn [sr_channels].
  pose proof (div_ceil_z_bounds dw 2). pose proof (div_ceil_z_bounds dh 2). nia.
Qed.

Lemma frame_valid_iff f :
  Nv12Frame_validate f = Ok tt →
  1 ≤ nf_width f ≤ MAX_INPUT_SIDE ∧ 1 ≤ nf_height f ≤ MAX_INPUT_SIDE ∧ rotation_ok (nf_rotation f) = true
  ∧ nf_width f ≤ nf_y_stride f ∧ 2 * div_ceil_z (nf_width f) 2 ≤ nf_uv_stride f
  ∧ nf_y_stride f * (nf_height f - 1) + nf_width f ≤ Z.of_nat (length (nf_y f))
  ∧ nf_uv_stride f * (div_ceil_z (nf_height f) 2 - 1) + 2 * div_ceil_z (nf_width f) 2 ≤ Z.of_nat (length (nf_uv f)).
Proof.
  assert (∀ p s r w, plane_short p (need s r w) = false → s * (r - 1) + w ≤ Z.of_nat (length p)) as Hp.
  { intros p s r w. unfold plane_short, need. cbv zeta. repeat case_match; intros; simplify_eq; bool_props; lia. }
  unfold Nv12Frame_validate. repeat case_match; try done. intros _.
  repeat match goal with H : _ || _ = false |- _ => apply orb_false_iff in H as [??] end.
  bool_props. split_and!; try lia; try done; by apply Hp.
Qed.

(** The source box of a destination sample is inside the source. *)
Lemma box_in d len n y :
  0 ≤ d < n → 1 ≤ len → let '(v0, v1) := box_of d len n in v0 ≤ y < v1 → 0 ≤ y < len.
Proof.
  intros Hd Hl. unfold box_of. cbv zeta. intros Hy.
  assert (0 ≤ d * len / n) by (apply Z.div_pos; nia).
  assert ((d + 1) * len / n ≤ len) by (apply Z.div_le_upper_bound; nia).
  assert (d * len / n < len) by (apply Z.div_lt_upper_bound; nia). lia.
Qed.

(** What [plane] reads of a source. *)
Definition reads_of (src : Src) (dcols drows : Z) (i : Z) : Prop :=
  ∃ x y c, i = y * sr_stride src + x * sr_channels src + c ∧ 0 ≤ c < sr_channels src ∧
  if (dcols =? sr_cols src) && (drows =? sr_rows src) then 0 ≤ x < dcols ∧ 0 ≤ y < drows
  else ∃ dx dy, 0 ≤ dx < dcols ∧ 0 ≤ dy < drows
    ∧ (box_of dx (sr_cols src) dcols).1 ≤ x < (box_of dx (sr_cols src) dcols).2
    ∧ (box_of dy (sr_rows src) drows).1 ≤ y < (box_of dy (sr_rows src) drows).2.

Lemma plane_in_bounds src dcols drows i :
  1 ≤ sr_cols src → 1 ≤ sr_rows src → 0 ≤ sr_stride src →
  sr_stride src * (sr_rows src - 1) + sr_channels src * sr_cols src ≤ Z.of_nat (length (sr_data src)) →
  reads_of src dcols drows i → 0 ≤ i < Z.of_nat (length (sr_data src)).
Proof.
  intros Hc Hr Hs Hlen (x&y&c&->&Hch&H).
  assert (0 ≤ x < sr_cols src ∧ 0 ≤ y < sr_rows src) as [Hx Hy]; [|nia].
  destruct (_ && _) eqn:Heq.
  - bool_props. lia.
  - destruct H as (dx&dy&Hdx&Hdy&Hx&Hy).
    pose proof (box_in dx (sr_cols src) dcols x Hdx Hc) as Hbx.
    pose proof (box_in dy (sr_rows src) drows y Hdy Hr) as Hby.
    destruct (box_of dx _ _), (box_of dy _ _). cbn in *. auto.
Qed.

(** ** Lemmas: the words *)

Lemma sane_seq_le v : 0 ≤ v → 0 ≤ sane_seq v ≤ MAX_SEQ.
Proof. intros. unfold sane_seq. destruct (Z.ltb_spec MAX_SEQ v); [split; done|lia]. Qed.
Lemma lor_one v : 0 ≤ v → Z.lor v 1 = 2 * (v / 2) + 1.
Proof.
  intros Hv. pose proof (Z.div_mod v 2 ltac:(lia)) as Hd. pose proof (Z.mod_pos_bound v 2 ltac:(lia)) as Hm.
  pose proof (Z.div_pos v 2 Hv ltac:(lia)) as Hq. revert Hd Hq. generalize (v / 2). intros q -> Hq.
  assert (v mod 2 = 0 ∨ v mod 2 = 1) as [->| ->] by lia; by destruct q.
Qed.
Lemma odd_word v :
  0 ≤ v →
  1 ≤ Z.lor (sane_seq v) 1 ≤ MAX_SEQ + 1 ∧ Z.odd (Z.lor (sane_seq v) 1) = true
  ∧ (v ≤ MAX_SEQ → v ≤ Z.lor (sane_seq v) 1 ≤ v + 1).
Proof.
  intros Hv. pose proof (sane_seq_le v Hv) as Hs. rewrite lor_one by lia.
  assert (∃ k, MAX_SEQ = 2 * k) as [k Hk] by (by exists (2 ^ 61)).
  rewrite Z.add_comm, Z.odd_add_mul_2.
  pose proof (Z.div_mod (sane_seq v) 2 ltac:(lia)). pose proof (Z.mod_pos_bound (sane_seq v) 2 ltac:(lia)).
  split_and!; [lia|lia|done|]. intros Hle. assert (sane_seq v = v) as Heq; [|rewrite Heq in *; lia].
  unfold sane_seq. by rewrite (proj2 (Z.ltb_ge MAX_SEQ v)).
Qed.
Lemma land_one_odd v : (Z.land v 1 =? 1) = Z.odd v.
Proof. change 1 with (Z.ones 1) at 1. rewrite Z.land_ones by lia. change (2 ^ 1) with 2. rewrite Zmod_odd. by destruct (Z.odd v). Qed.
Lemma latest_word n slot :
  0 ≤ n → 0 ≤ slot < 256 →
  Z.land (Z.lor (Z.shiftl n 8) slot) 0xff = slot ∧ Z.shiftr (Z.lor (Z.shiftl n 8) slot) 8 = n
  ∧ (Z.lor (Z.shiftl n 8) slot = 0 → n = 0).
Proof.
  intros Hn Hs.
  assert (Z.shiftr (Z.lor (Z.shiftl n 8) slot) 8 = n) as Hsh.
  { rewrite Z.shiftr_lor, Z.shiftr_shiftl_l, Z.shiftl_0_r by lia.
    rewrite (Z.shiftr_div_pow2 slot) by lia. rewrite Z.div_small by lia. apply Z.lor_0_r. }
  split_and!; [|done|intros H0; by rewrite H0 in Hsh].
  change 0xff with (Z.ones 8). rewrite Z.land_lor_distr_l, !Z.land_ones, Z.shiftl_mul_pow2 by lia.
  rewrite Z.mod_mul, Z.lor_0_l by lia. by apply Z.mod_small.
Qed.
Lemma after_range n : 0 ≤ n → 1 ≤ after n ≤ MAX_FRAME_NO.
Proof. intros. unfold after. destruct (Z.ltb_spec n MAX_FRAME_NO); [lia|by split]. Qed.

(** ** The producer's own state *)

Record producer_ok (p : Producer) : Prop := {
  po_layout : Layout_validate (pr_layout p) = Ok tt;
  po_next : 1 ≤ pr_next_frame p ≤ MAX_FRAME_NO;
  po_newest : ∀ s, pr_newest p = Some s → 0 ≤ s < ly_slots (pr_layout p);
  po_seqs : ∀ i, 0 ≤ pr_seqs p i ≤ MAX_SEQ + 2;
}.

Lemma read_layout_ok len m l :
  read_layout len m = Ok l →
  Layout_validate l = Ok tt ∧ len = file_len l ∧ slot_bytes l = hm_slot_bytes (h_fixed m)
  ∧ l = mk_Layout (hm_max_width (h_fixed m)) (hm_max_height (h_fixed m)) (hm_slots (h_fixed m)) (h_max_fps m).
Proof.
  unfold read_layout. repeat case_match; try done; subst.
  all: destruct (Layout_validate _) as [[]|[]] eqn:Hv; cbn; try done;
    repeat case_match; try done; bool_props; intros [= <-]; done.
Qed.

(** [attach] leaves a sound producer, whatever the words of the file are. *)
Lemma attach_ok lock len whole m p st :
  0 ≤ h_latest m → (∀ i, 0 ≤ sl_seq (h_slot m i)) →
  attach lock len whole m = Ok (p, st) → producer_ok p ∧ st = [St_add_attaches] ∧ read_layout len m = Ok (pr_layout p).
Proof.
  intros Hla Hsq. unfold attach. destruct (take_lock 5 lock) as [[]|]; cbn [result_bind negb]; try done.
  destruct (len <? HEADER); [done|]. destruct (largest_file <? len); [done|]. destruct whole; [|done].
  cbn [negb]. destruct (read_layout len m) as [l|] eqn:Hl; [|done].
  cbn [result_bind]. intros [= <- <-]. split_and!; [|done|done].
  pose proof Hl as Hv. apply read_layout_ok in Hv as (Hv&_).
  constructor; cbn [pr_layout pr_next_frame pr_newest pr_seqs]; [done| | |].
  - apply after_range, Z.shiftr_nonneg, Hla.
  - intros s. destruct (_ && _) eqn:Hs; [|done]. intros [= <-]. bool_props. split; [by apply Z.land_nonneg; left|done].
  - intros i. destruct (_ && _); [|split; done]. pose proof (sane_seq_le (sl_seq (h_slot m i)) (Hsq i)). lia.
Qed.

Lemma next_slot_ok p :
  producer_ok p →
  0 ≤ next_slot p < ly_slots (pr_layout p) ∧ next_slot p < 256 ∧ pr_newest p ≠ Some (next_slot p).
Proof.
  intros [Hl _ Hn _]. apply layout_valid_iff in Hl as (_&_&Hs&_). unfold RING_MAX_SLOTS in Hs.
  unfold next_slot. destruct (pr_newest p) as [s|]; [|split_and!; [lia|lia|lia|done]].
  specialize (Hn s eq_refl). pose proof (Z.mod_pos_bound (s + 1) (ly_slots (pr_layout p))).
  split_and!; [lia|lia|lia|]. intros [= Heq].
  destruct (decide (s + 1 = ly_slots (pr_layout p))) as [He|He].
  - rewrite He, Z.mod_same in Heq by lia. lia.
  - rewrite Z.mod_small in Heq by lia. lia.
Qed.

(** What a store of a push may touch: its own slot, at an in-range offset,
    the publication word and the counters. *)
Definition store_ok (p : Producer) (st : Store) : Prop :=
  match st with
  | St_slot s (St_seq v) => s = next_slot p ∧ 0 ≤ v < 2 ^ 64
  | St_slot s (St_byte off v) => s = next_slot p ∧ 0 ≤ off < slot_bytes (pr_layout p)
  | St_slot s (St_frame_no v) => s = next_slot p ∧ 1 ≤ v ≤ MAX_FRAME_NO
  | St_slot s (St_len v) => s = next_slot p ∧ 0 ≤ v ≤ slot_bytes (pr_layout p)
  | St_slot s _ => s = next_slot p
  | St_latest v => Z.land v 0xff = next_slot p ∧ 1 ≤ Z.shiftr v 8 ≤ MAX_FRAME_NO
  | St_add_written | St_add_dropped => True
  | _ => False
  end.

(** A push either changes nothing but the drop counter, or writes a frame. *)
Lemma push_cases p f e r p' st :
  push p f e = (r, p', st) →
  (p' = p ∧ (st = [] ∨ st = [St_add_dropped]) ∧ (∀ no w h, r ≠ Ok (Pushed_Written no w h))) ∨
  ∃ dw dh ts, Nv12Frame_validate f = Ok tt ∧ pe_whole e = true ∧ wanted e = true ∧
    scale_fit (nf_width f) (nf_height f) (ly_max_width (pr_layout p)) (ly_max_height (pr_layout p)) = (dw, dh) ∧
    nv12_len dw dh ≤ slot_bytes (pr_layout p) ∧
    let odd := Z.lor (sane_seq (pr_seqs p (next_slot p))) 1 in
    r = Ok (Pushed_Written (pr_next_frame p) dw dh) ∧
    p' = mk_Producer (pr_layout p) (after (pr_next_frame p)) (<[next_slot p := odd + 1]> (pr_seqs p))
           (Some (next_slot p)) (Some ts) (pr_finished p) ∧
    st = frame_stores (next_slot p) (pr_next_frame p) odd dw dh ts f (write_nv12 f dw dh).
Proof.
  unfold push. destruct (Nv12Frame_validate f) as [[]|]; [|intros [= <- <- <-]; left; split_and!; auto].
  destruct (pe_whole e); cbn [negb]; [|intros [= <- <- <-]; left; split_and!; auto].
  destruct (wanted e); cbn [negb]; [|intros [= <- <- <-]; left; split_and!; auto].
  destruct (too_soon _ _ _); [intros [= <- <- <-]; left; split_and!; auto|].
  destruct (scale_fit _ _ _ _) as [dw dh] eqn:Hf.
  destruct (slot_bytes (pr_layout p) <? nv12_len dw dh) eqn:Hlen; [intros [= <- <- <-]; left; split_and!; auto|].
  bool_props. intros [= <- <- <-]. right. eexists dw, dh, _. split_and!; done.
Qed.

(** The frame a valid push would write fits its slot: the refusal after
    [fit] is never taken. *)
Lemma push_fits p f :
  producer_ok p → Nv12Frame_validate f = Ok tt →
  let '(dw, dh) := scale_fit (nf_width f) (nf_height f) (ly_max_width (pr_layout p)) (ly_max_height (pr_layout p)) in
  1 ≤ dw ≤ MAX_SIDE ∧ 1 ≤ dh ≤ MAX_SIDE ∧ layout_fits (pr_layout p) dw dh = true
  ∧ nv12_len dw dh ≤ slot_bytes (pr_layout p)
  ∧ Z.of_nat (length (write_nv12 f dw dh)) = nv12_len dw dh.
Proof.
  intros [Hl _ _ _] Hf. apply frame_valid_iff in Hf as (Hw&Hh&_).
  pose proof (scale_fit_in_box (pr_layout p) (nf_width f) (nf_height f) Hl Hw Hh) as Hfit.
  destruct (scale_fit _ _ _ _) as [dw dh]. destruct Hfit as (Hdw&Hdh&Hfit&_). unfold MAX_SIDE in *.
  split_and!; try lia; [done|apply fits_slot; try lia; done|apply write_nv12_length; unfold MAX_INPUT_SIDE; lia].
Qed.

Lemma push_ok p f e r p' st :
  producer_ok p → push p f e = (r, p', st) → producer_ok p'.
Proof.
  intros Hp Hpush. apply push_cases in Hpush as [(->&_)|(dw&dh&ts&Hv&_&_&Hfit&_&_&->&_)]; [done|].
  pose proof (next_slot_ok p Hp) as (Hslot&_&_). destruct Hp as [Hl Hn Hnew Hs].
  constructor; cbn [pr_layout pr_next_frame pr_newest pr_seqs]; [done|apply after_range; lia|by intros ? [= <-]|].
  intros i. destruct (decide (i = next_slot p)) as [->|Hne].
  - rewrite fn_lookup_insert. specialize (Hs (next_slot p)).
    pose proof (odd_word (pr_seqs p (next_slot p)) ltac:(lia)) as (Hodd&_&_). lia.
  - by rewrite fn_lookup_insert_ne.
Qed.

Lemma push_stores_ok p f e r p' st :
  producer_ok p → push p f e = (r, p', st) → Forall (store_ok p) st.
Proof.
  intros Hp Hpush. apply push_cases in Hpush as [(_&[->| ->]&_)|(dw&dh&ts&Hv&_&_&Hfit&_&_&_&->)];
    [constructor|by repeat constructor|].
  pose proof (push_fits p f Hp Hv) as Hpf. rewrite Hfit in Hpf. destruct Hpf as (Hdw&Hdh&_&Hlen&Hdata).
  pose proof (next_slot_ok p Hp) as (Hslot&H256&_). destruct Hp as [Hl Hn Hnew Hs].
  specialize (Hs (next_slot p)). pose proof (odd_word (pr_seqs p (next_slot p)) ltac:(lia)) as (Hodd&_&_).
  assert (MAX_SEQ + 2 < 2 ^ 64) by done. pose proof (nv12_len_nonneg dw dh ltac:(lia) ltac:(lia)).
  pose proof (latest_word (pr_next_frame p) (next_slot p) ltac:(lia) ltac:(lia)) as (Hla&Hsh&_).
  unfold frame_stores. rewrite Forall_app, List.Forall_map, Forall_app, Forall_app. split_and!.
  - repeat apply Forall_cons_2; try apply Forall_nil_2; cbn; try done; split; done || lia.
  - apply Forall_forall. intros x Hx. apply elem_of_lookup_imap in Hx as (i&b&->&Hi).
    apply lookup_lt_Some in Hi. cbn. split; [done|lia].
  - repeat constructor; lia.
  - repeat constructor; cbn; rewrite ?Hla, ?Hsh; lia.
Qed.

Definition pushes (p : Producer) (ops : list (Nv12Frame * PushEnv)) : Producer :=
  fold_left (λ p o, (push p o.1 o.2).1.2) ops p.

Lemma pushes_ok p ops : producer_ok p → producer_ok (pushes p ops) ∧ pr_layout (pushes p ops) = pr_layout p.
Proof.
  revert p. induction ops as [|[f e] ops IH]; intros p Hp; [done|]. cbn [pushes fold_left fst snd].
  destruct (push p f e) as [[r p'] st] eqn:Hpush. cbn [fst snd].
  destruct (IH p') as [? Hl]; [by eapply push_ok|]. split; [done|]. unfold pushes in Hl. rewrite Hl.
  apply push_cases in Hpush as [(->&_)|(dw&dh&ts&_&_&_&_&_&_&->&_)]; done.
Qed.

(** A frame a push writes. *)
Definition accepts (p : Producer) (f : Nv12Frame) (e : PushEnv) : Prop :=
  Nv12Frame_validate f = Ok tt ∧ pe_whole e = true ∧ wanted e = true
  ∧ too_soon (pr_last_kept_ns p) (rate (pe_max_fps e)) (if nf_timestamp_ns f =? 0 then pe_now e else nf_timestamp_ns f) = false.

(** The producer trusts nothing in the file: attached to a file of any
    words, and after any pushes, a push stores only into the slot after the
    newest one, never the newest itself, at offsets inside that slot and the
    mapping; the sequence words and frame numbers it stores stay in range
    (no sum overflows), it reads its source planes in bounds, and a frame
    that describes itself, is wanted and in time is written: the refusal of a
    frame over the slot is dead code. *)
Theorem producer_trusts_nothing lock len whole m p0 st0 ops f e r p' st :
  0 ≤ h_latest m → (∀ i, 0 ≤ sl_seq (h_slot m i)) →
  attach lock len whole m = Ok (p0, st0) →
  let p := pushes p0 ops in
  push p f e = (r, p', st) →
  Forall (store_ok p) st
  ∧ pr_newest p ≠ Some (next_slot p)
  ∧ (∀ off n, 0 ≤ off → 0 ≤ n → off + n ≤ SLOT_HEADER + slot_bytes (pr_layout p) →
      HEADER ≤ slot_base (pr_layout p) (next_slot p) + off ∧ slot_base (pr_layout p) (next_slot p) + off + n ≤ len)
  ∧ (accepts p f e → ∃ dw dh, r = Ok (Pushed_Written (pr_next_frame p) dw dh)
      ∧ layout_fits (pr_layout p) dw dh = true
      ∧ (layout_fits (pr_layout p) (nf_width f) (nf_height f) = true → dw = nf_width f ∧ dh = nf_height f)
      ∧ (∀ i, reads_of (mk_Src (nf_y f) (nf_y_stride f) (nf_width f) (nf_height f) 1) dw dh i →
           0 ≤ i < Z.of_nat (length (nf_y f)))
      ∧ (∀ i, reads_of (mk_Src (nf_uv f) (nf_uv_stride f) (div_ceil_z (nf_width f) 2) (div_ceil_z (nf_height f) 2) 2)
                (div_ceil_z dw 2) (div_ceil_z dh 2) i →
           0 ≤ i < Z.of_nat (length (nf_uv f)))).
Proof.
  intros Hla Hsq Hat p Hpush. apply attach_ok in Hat as (Hp0&_&Hrl); [|done..].
  destruct (pushes_ok p0 ops Hp0) as [Hp Hl]. fold p in Hp, Hl.
  apply read_layout_ok in Hrl as (Hval&Hlen&_). rewrite <- Hl in Hval, Hlen.
  pose proof (next_slot_ok p Hp) as (Hslot&_&Hnew). split_and!; [by eapply push_stores_ok|done| |].
  - intros off n Ho Hn Hon. rewrite Hlen.
    by pose proof (slot_in_mapping (pr_layout p) (next_slot p) off n Hval Hslot Ho Hn Hon) as (_&?&_&?).
  - intros (Hf&Hw&Hwant&Hts). pose proof (push_fits p f Hp Hf) as Hpf.
    pose proof (frame_valid_iff f Hf) as (Hfw&Hfh&_&Hys&Huvs&Hylen&Huvlen).
    pose proof (scale_fit_in_box _ _ _ Hval Hfw Hfh) as Hbox.
    unfold push in Hpush. rewrite Hf, Hw, Hwant, Hts in Hpush. cbn [negb] in Hpush.
    destruct (scale_fit _ _ _ _) as [dw dh]. destruct Hpf as (_&_&Hfit&Hle&_), Hbox as (_&_&_&Hsame).
    rewrite (proj2 (Z.ltb_ge _ _)) in Hpush by lia. injection Hpush as <- _ _.
    pose proof (div_ceil_z_bounds (nf_width f) 2). pose proof (div_ceil_z_bounds (nf_height f) 2).
    exists dw, dh. split_and!; [done|done|done|..]; intros i Hi;
      (eapply plane_in_bounds in Hi; [done|..]); cbn [sr_cols sr_rows sr_stride sr_channels sr_data]; lia.
Qed.

(** What a read that succeeds has checked and copied. *)
Record slot_read (l : Layout) (latest : Z) (see : nat → RingMem) (info : FrameInfo) (out : list Z) : Prop := {
  sr_slot : 0 ≤ Z.land latest 0xff < ly_slots l;
  sr_seq : Z.odd (sl_seq (h_slot (see 0%nat) (Z.land latest 0xff))) = false;
  sr_no : fi_frame_no info = Z.shiftr latest 8 ∧ sl_frame_no (h_slot (see 1%nat) (Z.land latest 0xff)) = fi_frame_no info;
  sr_no_range : 1 ≤ fi_frame_no info ≤ MAX_FRAME_NO;
  sr_size : sl_width (h_slot (see 2%nat) (Z.land latest 0xff)) = fi_width info
    ∧ sl_height (h_slot (see 3%nat) (Z.land latest 0xff)) = fi_height info;
  sr_size_range : 1 ≤ fi_width info ∧ 1 ≤ fi_height info ∧ layout_fits l (fi_width info) (fi_height info) = true;
  sr_rotation : sl_rotation (h_slot (see 4%nat) (Z.land latest 0xff)) = fi_rotation info ∧ rotation_ok (fi_rotation info) = true;
  sr_color : Color_from_u32 (sl_color (h_slot (see 5%nat) (Z.land latest 0xff))) = Some (fi_color info);
  sr_timestamp : sl_timestamp (h_slot (see 6%nat) (Z.land latest 0xff)) = fi_timestamp_ns info;
  sr_len : sl_len (h_slot (see 7%nat) (Z.land latest 0xff)) = info_len info ∧ 0 ≤ info_len info ≤ slot_bytes l;
  sr_out : out = copied see (Z.land latest 0xff) (info_len info);
  sr_again : sl_seq (h_slot (see (8 + Z.to_nat (info_len info))%nat) (Z.land latest 0xff))
    = sl_seq (h_slot (see 0%nat) (Z.land latest 0xff));
}.

Lemma copy_slot_Ok l latest see out info out' :
  0 ≤ latest → copy_slot l latest see out = (Ok info, out') ↔ slot_read l latest see info out'.
Proof.
  intros Hla. assert (0 ≤ Z.land latest 0xff) as Hs0 by (apply Z.land_nonneg; by left).
  unfold copy_slot. cbv zeta. rewrite land_one_odd. split.
  - destruct (ly_slots l <=? _) eqn:Hsl; [done|]. destruct (Z.odd _) eqn:Hodd; [done|].
    destruct (negb (sl_frame_no _ =? _)) eqn:Hno; [done|].
    match goal with |- context [if ?v then Color_from_u32 _ else None] => destruct v eqn:Hv end; [|done].
    destruct (Color_from_u32 _) as [col|] eqn:Hcol; [|done].
    match goal with |- context [if ?b then (Err (bad_or_torn _ _ _), _) else _] => destruct b eqn:Hlen end; [done|].
    match goal with |- context [if ?b then (Err Skip_Torn, _) else _] => destruct b eqn:Hseq end; [done|].
    intros [= <- <-]. bool_props.
    match goal with |- slot_read _ _ _ ?i _ => assert (0 ≤ info_len i) by (apply nv12_len_nonneg; cbn; lia) end.
    constructor; cbn [fi_frame_no fi_width fi_height fi_rotation fi_color fi_timestamp_ns]; try done; by split_and?; try lia.
  - intros [Hsl Hodd [Hn Hno] Hnr [Hw Hh] (?&?&Hfit) [Hr Hrok] Hc Ht [Hlen Hle] -> Hag].
    rewrite (proj2 (Z.leb_gt _ _)), Hodd, Hno, Hn, Z.eqb_refl by lia. cbn [negb].
    rewrite Hw, Hh, Hr, Hfit, Hrok, Hc, Ht, Hlen.
    rewrite Hn in Hnr. rewrite !(proj2 (Z.leb_le _ _)) by lia. cbn [andb].
    replace (mk_FrameInfo (Z.shiftr latest 8) _ _ _ _ _) with info by (destruct info; cbn in *; congruence).
    rewrite Z.eqb_refl, (proj2 (Z.ltb_ge _ _)) by lia. cbn [negb orb]. by rewrite Hag, Z.eqb_refl.
Qed.

(** The consumer trusts nothing in the file: whatever memory each of its
    loads sees, a frame it hands out has a number in range, fits its own
    layout's box, has a rotation and colour it knows, and comes with exactly
    its own length of bytes, copied from inside one slot of the mapping; it
    is not the frame read last (unless asked for again). *)
Theorem consumer_trusts_nothing c whole again now try out info c' out' st :
  Layout_validate (cn_layout c) = Ok tt →
  (∀ k, 0 ≤ h_latest (rt_latest (try k))) →
  read c whole again now try out = (Some info, c', out', st) →
  1 ≤ fi_frame_no info ≤ MAX_FRAME_NO ∧ 1 ≤ fi_width info ∧ 1 ≤ fi_height info
  ∧ layout_fits (cn_layout c) (fi_width info) (fi_height info) = true ∧ rotation_ok (fi_rotation info) = true
  ∧ Z.of_nat (length out') = info_len info ∧ info_len info ≤ slot_bytes (cn_layout c)
  ∧ (∃ slot, 0 ≤ slot < ly_slots (cn_layout c)
      ∧ slot_base (cn_layout c) slot + SLOT_HEADER + info_len info ≤ file_len (cn_layout c))
  ∧ cn_last_frame c' = fi_frame_no info ∧ (again = false → fi_frame_no info ≠ cn_last_frame c)
  ∧ whole = true.
Proof.
  intros Hl Hla. unfold read. destruct whole; [|done].
  generalize READ_TRIES. intros n [= Hr _]. revert try out Hla Hr. induction n as [|n IH]; intros try out Hla; cbn [read_tries]; [done|].
  destruct ((Z.shiftr _ 8 =? 0) || _) eqn:Hskip; [done|].
  destruct (copy_slot _ _ _ _) as [[i|[]] o] eqn:Hc; [|intros Hr; eapply IH, Hr; intros k; apply Hla|done].
  intros [= -> <- ->]. apply copy_slot_Ok in Hc; [|apply Hla].
  destruct Hc as [Hsl _ [Hno _] Hnr _ (?&?&?) [_ ?] _ _ [_ Hlen] -> _].
  apply orb_false_iff in Hskip as [_ Hagain].
  pose proof (slot_in_mapping (cn_layout c) _ SLOT_HEADER (info_len info) Hl Hsl ltac:(done) ltac:(lia) ltac:(lia)).
  split_and!; try done; try lia.
  - unfold copied. rewrite length_fmap, length_seqZ. lia.
  - eexists. split; [exact Hsl|lia].
  - unfold note_read. rewrite Hno. by destruct (Z.eqb_spec (Z.shiftr (h_latest (rt_latest (try 0%nat))) 8) (cn_last_frame c)).
  - intros ->. cbn in Hagain. bool_props. congruence.
Qed.

(** ** The two processes

    A system state: the file, the attached producer with the stores it has
    left to do, and the frames pushed so far (a record of the run, which no
    process reads). A producer may die between any two stores. *)

Record Frame := mk_Frame {
  fr_slot : Z;
  fr_info : FrameInfo;
  fr_data : list Z;
}.

Record Sys := mk_Sys {
  sy_mem : RingMem;
  sy_prod : option Producer;
  sy_todo : list Store;
  sy_frames : list Frame;
}.

(** The frame a push writes, if it does. *)
Definition pushed_frame (p : Producer) (f : Nv12Frame) (e : PushEnv) : list Frame :=
  match push p f e with
  | (Ok (Pushed_Written no dw dh), p', _) =>
    [mk_Frame (next_slot p) (mk_FrameInfo no dw dh (nf_rotation f) (nf_color f) (default 0 (pr_last_kept_ns p')))
      (write_nv12 f dw dh)]
  | _ => []
  end.

Definition consumer_store (st : Store) : Prop :=
  match st with St_beat _ | St_max_fps _ | St_or_flags _ | St_and_not_flags _ => True | _ => False end.

Inductive step : Sys → Sys → Prop :=
| step_attach m fs lock len whole p st :
    attach lock len whole m = Ok (p, st) →
    step (mk_Sys m None [] fs) (mk_Sys m (Some p) st fs)
| step_start m p fs whole :
    step (mk_Sys m (Some p) [] fs) (mk_Sys m (Some p) (start whole) fs)
| step_push m p fs f e r p' st :
    push p f e = (r, p', st) →
    step (mk_Sys m (Some p) [] fs) (mk_Sys m (Some p') st (fs ++ pushed_frame p f e))
| step_finish m p fs whole reason p' st :
    finish p whole reason = (p', st) →
    step (mk_Sys m (Some p) [] fs) (mk_Sys m None st fs)
| step_store m p s todo fs :
    step (mk_Sys m p (s :: todo) fs) (mk_Sys (store m s) p todo fs)
| step_die m p todo fs :
    step (mk_Sys m p todo fs) (mk_Sys m None [] fs)
| step_consumer m p todo fs s :
    consumer_store s →
    step (mk_Sys m p todo fs) (mk_Sys (store m s) p todo fs).

(** A run from a new ring: each moment a step or a pause. *)
Definition run_of (l : Layout) (now : Z) (tr : nat → Sys) : Prop :=
  tr O = mk_Sys (new_ring l now) None [] []
  ∧ (∀ n, tr (S n) = tr n ∨ step (tr n) (tr (S n)))
  ∧ ∀ n, Z.of_nat (length (sy_frames (tr n))) ≤ 2 ^ 60.

(** *** The invariant *)

(** A slot's words hold a whole frame. *)
Definition holds (s : SlotMem) (fr : Frame) : Prop :=
  sl_frame_no s = fi_frame_no (fr_info fr) ∧ sl_width s = fi_width (fr_info fr)
  ∧ sl_height s = fi_height (fr_info fr) ∧ sl_rotation s = fi_rotation (fr_info fr)
  ∧ sl_color s = Color_u32 (fi_color (fr_info fr)) ∧ sl_timestamp s = fi_timestamp_ns (fr_info fr)
  ∧ sl_len s = info_len (fr_info fr)
  ∧ ∀ i b, fr_data fr !! i = Some b → sl_data s (Z.of_nat i) = b.

(** The stores between the two sequence words. *)
Definition body (fr : Frame) : list SlotStore :=
  let i := fr_info fr in
  [St_frame_no (fi_frame_no i); St_width (fi_width i); St_height (fi_height i); St_rotation (fi_rotation i);
   St_color (Color_u32 (fi_color i)); St_timestamp (fi_timestamp_ns i); St_len (info_len i)]
  ++ imap (λ i b, St_byte (Z.of_nat i) b) (fr_data fr).
Definition latest_of (fr : Frame) : Z := Z.lor (Z.shiftl (fi_frame_no (fr_info fr)) 8) (fr_slot fr).
Definition publish (fr : Frame) : list Store := [St_latest (latest_of fr); St_add_written].

(** A frame as pushes make them, for a ring of layout [l]. *)
Record frame_ok (l : Layout) (fr : Frame) : Prop := {
  fo_slot : 0 ≤ fr_slot fr < ly_slots l;
  fo_no : 1 ≤ fi_frame_no (fr_info fr) ≤ MAX_FRAME_NO;
  fo_size : 1 ≤ fi_width (fr_info fr) ∧ 1 ≤ fi_height (fr_info fr)
    ∧ layout_fits l (fi_width (fr_info fr)) (fi_height (fr_info fr)) = true;
  fo_rotation : rotation_ok (fi_rotation (fr_info fr)) = true;
  fo_len : Z.of_nat (length (fr_data fr)) = info_len (fr_info fr);
}.

(** Where the producer is in its stores. *)
Inductive phase (m : RingMem) (fs : list Frame) : list Store → Prop :=
| ph_other todo : Forall (λ s, match s with St_slot _ _ | St_latest _ => False | _ => True end) todo → phase m fs todo
| ph_first fr odd :
    fr ∈ fs → Z.odd odd = true → sl_seq (h_slot m (fr_slot fr)) ≤ odd → odd + 1 ≤ 2 * Z.of_nat (length fs) →
    h_latest m = 0 ∨ Z.land (h_latest m) 0xff ≠ fr_slot fr →
    phase m fs (map (St_slot (fr_slot fr)) (St_seq odd :: body fr ++ [St_seq (odd + 1)]) ++ publish fr)
| ph_body fr odd done rest s0 :
    fr ∈ fs → Z.odd odd = true → body fr = done ++ rest → sl_seq s0 = odd → odd + 1 ≤ 2 * Z.of_nat (length fs) →
    h_slot m (fr_slot fr) = fold_left store_slot done s0 →
    h_latest m = 0 ∨ Z.land (h_latest m) 0xff ≠ fr_slot fr →
    phase m fs (map (St_slot (fr_slot fr)) (rest ++ [St_seq (odd + 1)]) ++ publish fr)
| ph_publish fr :
    fr ∈ fs → Z.odd (sl_seq (h_slot m (fr_slot fr))) = false → holds (h_slot m (fr_slot fr)) fr →
    phase m fs (publish fr).

Definition same_box (l l' : Layout) : Prop :=
  ly_max_width l' = ly_max_width l ∧ ly_max_height l' = ly_max_height l ∧ ly_slots l' = ly_slots l.

(** The producer's own counts are right, whatever it still has to store. *)
Record prod_inv (l : Layout) (m : RingMem) (todo : list Store) (fs : list Frame) (p : Producer) : Prop := {
  pi_ok : producer_ok p;
  pi_box : same_box l (pr_layout p);
  pi_seqs : ∀ i, 0 ≤ i < ly_slots l → sl_seq (h_slot m i) ≤ pr_seqs p i ≤ 2 * Z.of_nat (length fs);
  pi_todo : ∀ i v, St_slot i (St_seq v) ∈ todo → v ≤ pr_seqs p i;
  pi_publish : ∀ v, St_latest v ∈ todo → v ≠ 0 ∧ pr_newest p = Some (Z.land v 0xff);
  pi_newest : (∀ v, St_latest v ∉ todo) →
    pr_newest p = if h_latest m =? 0 then None else Some (Z.land (h_latest m) 0xff);
}.

Record inv (l : Layout) (s : Sys) : Prop := {
  iv_fixed : h_fixed (sy_mem s) = h_fixed (new_ring l 0);
  iv_frames : Forall (frame_ok l) (sy_frames s);
  iv_phase : phase (sy_mem s) (sy_frames s) (sy_todo s);
  iv_slots : ∀ i, 0 ≤ sl_seq (h_slot (sy_mem s) i) ≤ 2 * Z.of_nat (length (sy_frames s))
    ∧ (Z.odd (sl_seq (h_slot (sy_mem s) i)) = false →
       sl_frame_no (h_slot (sy_mem s) i) = 0
       ∨ ∃ fr, fr ∈ sy_frames s ∧ fr_slot fr = i ∧ holds (h_slot (sy_mem s) i) fr);
  iv_latest : h_latest (sy_mem s) = 0 ∨
    ∃ fr, fr ∈ sy_frames s ∧ h_latest (sy_mem s) = latest_of fr
      ∧ Z.odd (sl_seq (h_slot (sy_mem s) (fr_slot fr))) = false ∧ holds (h_slot (sy_mem s) (fr_slot fr)) fr;
  iv_prod : ∀ p, sy_prod s = Some p → prod_inv l (sy_mem s) (sy_todo s) (sy_frames s) p;
}.

(** *** Lemmas on stores *)

Lemma store_h_slot m st :
  h_slot (store m st) = match st with St_slot i s => <[i := store_slot (h_slot m i) s]> (h_slot m) | _ => h_slot m end.
Proof. by destruct m, st. Qed.
Lemma store_h_latest m st : h_latest (store m st) = match st with St_latest v => v | _ => h_latest m end.
Proof. by destruct m, st. Qed.
Lemma store_h_fixed m st : h_fixed (store m st) = h_fixed m.
Proof. by destruct m, st. Qed.

Definition is_seq (s : SlotStore) : bool := match s with St_seq _ => true | _ => false end.

Lemma store_slot_seq s st : is_seq st = false → sl_seq (store_slot s st) = sl_seq s.
Proof. by destruct st. Qed.
Lemma body_no_seq fr st : st ∈ body fr → is_seq st = false.
Proof.
  unfold body. intros [H|H]%elem_of_app.
  - repeat (apply elem_of_cons in H as [->|H]; [done|]). by apply elem_of_nil in H.
  - by apply elem_of_lookup_imap in H as (i&b&->&_).
Qed.
Lemma fold_no_seq l s : (∀ st, st ∈ l → is_seq st = false) → sl_seq (fold_left store_slot l s) = sl_seq s.
Proof.
  revert s. induction l as [|st l IH]; intros s Hl; [done|]. cbn [fold_left].
  rewrite IH, store_slot_seq; [done|apply Hl; set_solver|intros; apply Hl; set_solver].
Qed.
Lemma holds_seq s fr v : holds (store_slot s (St_seq v)) fr ↔ holds s fr.
Proof. done. Qed.

(** Storing bytes from offset [k] on leaves the other words and the bytes
    before [k], and the bytes themselves from [k]. *)
Lemma fold_bytes k data s :
  let s' := fold_left store_slot (imap (λ i b, St_byte (Z.of_nat (k + i)) b) data) s in
  sl_frame_no s' = sl_frame_no s ∧ sl_width s' = sl_width s ∧ sl_height s' = sl_height s
  ∧ sl_rotation s' = sl_rotation s ∧ sl_color s' = sl_color s ∧ sl_timestamp s' = sl_timestamp s ∧ sl_len s' = sl_len s
  ∧ (∀ j, j < Z.of_nat k → sl_data s' j = sl_data s j)
  ∧ ∀ i b, data !! i = Some b → sl_data s' (Z.of_nat (k + i)) = b.
Proof.
  revert k s. induction data as [|b data IH]; intros k s; cbn zeta; [by split_and!|].
  rewrite imap_cons. cbn [fold_left].
  rewrite (imap_ext _ (λ i b, St_byte (Z.of_nat (S k + i)) b)) by (intros; cbn; do 2 f_equal; lia).
  specialize (IH (S k) (store_slot s (St_byte (Z.of_nat (k + 0)) b))).
  cbn zeta in IH. destruct IH as (H1&H2&H3&H4&H5&H6&H7&Hlow&Hdata).
  split_and!; [done..| |].
  - intros j Hj. rewrite Hlow by lia. cbn. by rewrite fn_lookup_insert_ne by lia.
  - intros [|i] b' Hb.
    + cbn in Hb. injection Hb as <-. rewrite Hlow by lia. cbn. by rewrite fn_lookup_insert.
    + replace (k + S i)%nat with (S k + i)%nat by lia. by apply Hdata.
Qed.

Lemma body_holds s fr : holds (fold_left store_slot (body fr) s) fr.
Proof.
  unfold body. rewrite fold_left_app. cbn [fold_left].
  match goal with |- holds (fold_left _ _ ?s0) _ => pose proof (fold_bytes 0 (fr_data fr) s0) as H end.
  cbn zeta in H. cbn [Nat.add] in H. destruct H as (H1&H2&H3&H4&H5&H6&H7&_&Hd).
  unfold holds. by rewrite H1, H2, H3, H4, H5, H6, H7.
Qed.

(** A slot never goes back: it stays as it is, its sequence word grows, or
    it is being written. *)
Definition slot_le (a b : SlotMem) : Prop :=
  a = b ∨ sl_seq a < sl_seq b ∨ sl_seq a = sl_seq b ∧ Z.odd (sl_seq a) = true.

Lemma slot_le_refl a : slot_le a a.
Proof. by left. Qed.
Lemma slot_le_trans a b c : slot_le a b → slot_le b c → slot_le a c.
Proof.
  intros [->|[?|[H1 H2]]] [->|[?|[H3 H4]]]; unfold slot_le; try (right; left; lia); auto.
  right; right. split; [congruence|done].
Qed.
Lemma slot_le_even a b : slot_le a b → sl_seq b = sl_seq a → Z.odd (sl_seq a) = false → a = b.
Proof. intros [->|[?|[_ ?]]]; [done|lia|congruence]. Qed.

Lemma odd_succ n : Z.odd n = true → Z.odd (n + 1) = false.
Proof. intros H. by rewrite Z.odd_add, H. Qed.

(** *** The invariant holds *)

Lemma latest_of_word l fr :
  Layout_validate l = Ok tt → frame_ok l fr →
  Z.land (latest_of fr) 0xff = fr_slot fr ∧ Z.shiftr (latest_of fr) 8 = fi_frame_no (fr_info fr)
  ∧ latest_of fr ≠ 0 ∧ 0 ≤ latest_of fr.
Proof.
  intros Hl [Hs Hn _ _ _]. apply layout_valid_iff in Hl as (_&_&Hsl&_). unfold RING_MAX_SLOTS in Hsl.
  destruct (latest_word (fi_frame_no (fr_info fr)) (fr_slot fr)) as (?&?&H0); [lia..|].
  split_and!; [done|done|intros E; apply H0 in E; lia|].
  apply Z.lor_nonneg. split; [apply Z.shiftl_nonneg|]; lia.
Qed.

Lemma phase_mem m m' fs todo :
  h_slot m' = h_slot m → h_latest m' = h_latest m → phase m fs todo → phase m' fs todo.
Proof. intros Hs Hl []; econstructor; rewrite ?Hs, ?Hl; done. Qed.

Lemma inv_mem l m m' p todo fs :
  h_slot m' = h_slot m → h_latest m' = h_latest m → h_fixed m' = h_fixed m →
  inv l (mk_Sys m p todo fs) → inv l (mk_Sys m' p todo fs).
Proof.
  intros Hs Hl Hf [H1 H2 H3 H4 H5 H6]. cbn [sy_mem sy_prod sy_todo sy_frames] in *.
  constructor; cbn [sy_mem sy_prod sy_todo sy_frames]; rewrite ?Hs, ?Hl, ?Hf; try done.
  - by eapply phase_mem.
  - intros q Hq. destruct (H6 q Hq) as [? ? ? ? ? ?]. constructor; rewrite ?Hs, ?Hl; done.
Qed.

Lemma inv_init l now : inv l (mk_Sys (new_ring l now) None [] []).
Proof.
  constructor; cbn [sy_mem sy_prod sy_todo sy_frames]; [done|constructor|by apply ph_other| |by left|done].
  intros i. split; [done|]. by left.
Qed.

(** The counts a producer takes over from the file. *)
Lemma attach_counts lock len whole m p st :
  attach lock len whole m = Ok (p, st) →
  (∀ i, 0 ≤ i < ly_slots (pr_layout p) → pr_seqs p i = sane_seq (sl_seq (h_slot m i)))
  ∧ pr_newest p = if negb (h_latest m =? 0) && (Z.land (h_latest m) 0xff <? ly_slots (pr_layout p))
                  then Some (Z.land (h_latest m) 0xff) else None.
Proof.
  unfold attach. destruct (take_lock 5 lock) as [[]|]; cbn [result_bind negb]; try done.
  destruct (len <? HEADER); [done|]. destruct (largest_file <? len); [done|]. destruct whole; [|done].
  cbn [negb]. destruct (read_layout len m) as [l|]; [|done].
  cbn [result_bind]. intros [= <- <-]. cbn [pr_layout pr_seqs pr_newest]. split; [|done].
  intros i Hi. by rewrite (proj2 (Z.leb_le 0 i)), (proj2 (Z.ltb_lt i _)) by lia.
Qed.

Lemma inv_attach l m fs lock len whole p st :
  Layout_validate l = Ok tt → Z.of_nat (length fs) ≤ 2 ^ 60 →
  attach lock len whole m = Ok (p, st) →
  inv l (mk_Sys m None [] fs) → inv l (mk_Sys m (Some p) st fs).
Proof.
  intros Hl Hn Hat [H1 H2 H3 H4 H5 H6]. cbn [sy_mem sy_prod sy_todo sy_frames] in *.
  pose proof (attach_counts _ _ _ _ _ _ Hat) as [Hseqs Hnew].
  assert (0 ≤ h_latest m ∧ (h_latest m ≠ 0 → Z.land (h_latest m) 0xff < ly_slots l)) as [Hla Hlas].
  { destruct H5 as [->|(fr&Hin&->&_)]; [done|]. rewrite Forall_forall in H2.
    destruct (latest_of_word l fr Hl (H2 fr Hin)) as (Hw&_&_&?). rewrite Hw. split; [done|]. intros _. apply (H2 fr Hin). }
  apply attach_ok in Hat as (Hok&->&Hrl); [|done|intros i; apply H4].
  apply read_layout_ok in Hrl as (Hv&_&_&Hly).
  assert (same_box l (pr_layout p)) as Hbox by (rewrite Hly, H1; done).
  constructor; cbn [sy_mem sy_prod sy_todo sy_frames]; try done.
  - apply ph_other. by repeat constructor.
  - intros q [= <-]. constructor; try done.
    + intros i Hi. rewrite Hseqs by (destruct Hbox as (_&_&->); done). specialize (H4 i) as [Hr _].
      unfold sane_seq. rewrite (proj2 (Z.ltb_ge MAX_SEQ _)); [lia|]. assert (2 * 2 ^ 60 ≤ MAX_SEQ) by done. lia.
    + set_solver.
    + set_solver.
    + intros _. rewrite Hnew. destruct (Z.eqb_spec (h_latest m) 0); [done|]. cbn [negb andb].
      rewrite (proj2 (Z.ltb_lt _ _)); [done|]. destruct Hbox as (_&_&->). auto.
Qed.

Lemma inv_todo l m p st fs :
  Forall (λ s, match s with St_slot _ _ | St_latest _ => False | _ => True end) st →
  inv l (mk_Sys m p [] fs) → inv l (mk_Sys m p st fs).
Proof.
  intros Hst [H1 H2 H3 H4 H5 H6]. cbn [sy_mem sy_prod sy_todo sy_frames] in *. rewrite Forall_forall in Hst.
  constructor; cbn [sy_mem sy_prod sy_todo sy_frames]; try done.
  - apply ph_other. by apply Forall_forall.
  - intros q Hq. destruct (H6 q Hq) as [? ? Hs ? ? Hn]. constructor; try done.
    + intros i v Hin. by apply Hst in Hin.
    + intros v Hin. by apply Hst in Hin.
    + intros _. apply Hn. intros v. apply not_elem_of_nil.
Qed.

Lemma inv_no_prod l m p todo fs :
  inv l (mk_Sys m p todo fs) → inv l (mk_Sys m None [] fs).
Proof.
  intros [H1 H2 H3 H4 H5 H6]. constructor; cbn [sy_mem sy_prod sy_todo sy_frames] in *; try done. by apply ph_other.
Qed.

Lemma pushed_frame_cases p f e r p' st :
  producer_ok p → push p f e = (r, p', st) →
  (p' = p ∧ (st = [] ∨ st = [St_add_dropped]) ∧ pushed_frame p f e = []) ∨
  ∃ fr, pushed_frame p f e = [fr] ∧ frame_ok (pr_layout p) fr ∧ fr_slot fr = next_slot p ∧
    let odd := Z.lor (sane_seq (pr_seqs p (next_slot p))) 1 in
    producer_ok p' ∧ pr_layout p' = pr_layout p ∧ pr_newest p' = Some (next_slot p) ∧
    pr_seqs p' = <[next_slot p := odd + 1]> (pr_seqs p) ∧
    st = map (St_slot (fr_slot fr)) (St_seq odd :: body fr ++ [St_seq (odd + 1)]) ++ publish fr.
Proof.
  intros Hp Hpush. pose proof (push_ok p f e r p' st Hp Hpush) as Hp'. unfold pushed_frame. rewrite Hpush.
  apply push_cases in Hpush as [(->&Hst&Hr)|(dw&dh&ts&Hv&_&_&Hfit&_&->&->&->)].
  - left. split_and!; [done|done|]. destruct r as [[]|]; try done. by destruct (Hr frame_no width height).
  - right. pose proof (push_fits p f Hp Hv) as Hpf. rewrite Hfit in Hpf. destruct Hpf as (Hdw&Hdh&Hin&_&Hlen).
    pose proof (next_slot_ok p Hp) as (Hslot&_&_).
    eexists. split_and!; [done| |done|done|done|done|done|done].
    constructor; cbn [fr_slot fr_info fr_data fi_frame_no fi_width fi_height fi_rotation]; try done.
    + apply Hp.
    + split_and!; [lia|lia|done].
    + by apply frame_valid_iff in Hv as (_&_&?&_).
Qed.

Lemma inv_push l m p fs f e r p' st :
  Layout_validate l = Ok tt → Z.of_nat (length (fs ++ pushed_frame p f e)) ≤ 2 ^ 60 →
  push p f e = (r, p', st) →
  inv l (mk_Sys m (Some p) [] fs) → inv l (mk_Sys m (Some p') st (fs ++ pushed_frame p f e)).
Proof.
  intros Hl Hn Hpush Hinv. pose proof Hinv as [H1 H2 H3 H4 H5 H6]. cbn [sy_mem sy_prod sy_todo sy_frames] in *.
  destruct (H6 p eq_refl) as [Hp Hbox Hs _ _ Hnew].
  destruct (pushed_frame_cases _ _ _ _ _ _ Hp Hpush) as [(->&Hst&Hfr)|(fr&Hfr&Hok&Hslot&Hp'&Hly&Hnw&Hsq&->)].
  { rewrite Hfr, app_nil_r. apply inv_todo; [|done]. destruct Hst as [->| ->]; by repeat constructor. }
  rewrite Hfr in *. rewrite length_app in Hn. cbn [length] in Hn.
  pose proof (next_slot_ok p Hp) as (Hr&_&Hne). destruct Hbox as (Hb1&Hb2&Hb3). rewrite Hb3 in Hr.
  destruct (Hs (next_slot p) Hr) as [Hle Hub].
  destruct (po_seqs p Hp (next_slot p)) as [Hnn _].
  destruct (odd_word (pr_seqs p (next_slot p)) Hnn) as (_&Hodd&Ho).
  assert (2 * 2 ^ 60 ≤ MAX_SEQ) by done. specialize (Ho ltac:(lia)).
  set (odd := Z.lor _ 1) in *. specialize (Hnew ltac:(intros v; apply not_elem_of_nil)).
  assert (frame_ok l fr) as Hokl.
  { destruct Hok as [? ? (?&?&Hfits) ? ?]. constructor; try done; [lia|]. split_and!; [done|done|].
    revert Hfits. unfold layout_fits. by rewrite Hb1, Hb2. }
  destruct (latest_of_word l fr Hl Hokl) as (Hw&_&Hw0&_).
  constructor; cbn [sy_mem sy_prod sy_todo sy_frames]; rewrite ?length_app; cbn [length]; try done.
  - apply Forall_app. split; [done|by apply Forall_singleton].
  - apply ph_first; [set_solver|done|rewrite Hslot; lia|rewrite length_app; cbn; lia|].
    rewrite Hslot. destruct (Z.eqb_spec (h_latest m) 0); [by left|right]. rewrite Hnew in Hne. congruence.
  - intros i. specialize (H4 i) as [Hi He]. split; [lia|]. intros Ho'. destruct (He Ho') as [|(g&?&?)]; [by left|].
    right. exists g. set_solver.
  - destruct H5 as [|(g&?&?)]; [by left|]. right. exists g. set_solver.
  - intros q [= <-]. constructor; [done|by rewrite Hly| | | |].
    + intros i Hi. rewrite Hsq, length_app. cbn [length]. specialize (Hs i Hi).
      destruct (decide (i = next_slot p)) as [->|Hi']; [rewrite fn_lookup_insert|rewrite fn_lookup_insert_ne by done]; lia.
    + intros i v Hin. rewrite Hsq. apply elem_of_app in Hin as [Hin|Hin]; [|unfold publish in Hin; set_solver].
      apply list_elem_of_In, in_map_iff in Hin as (s&[= <- ->]&Hin). rewrite Hslot, fn_lookup_insert.
      apply list_elem_of_In in Hin. apply elem_of_cons in Hin as [[= ->]|[Hin|Hin]%elem_of_app]; [lia| |set_solver].
      by apply body_no_seq in Hin.
    + intros v Hin. apply elem_of_app in Hin as [Hin|Hin].
      { apply list_elem_of_In, in_map_iff in Hin as (s&?&_). done. }
      assert (v = latest_of fr) as -> by (unfold publish in Hin; set_solver). by rewrite Hw, Hslot.
    + intros Hno. destruct (Hno (latest_of fr)). unfold publish. set_solver.
Qed.

(** A store into a slot that isn't the newest keeps the rest. *)
Lemma inv_slot_store l m p i st todo fs :
  Layout_validate l = Ok tt →
  inv l (mk_Sys m p (St_slot i st :: todo) fs) →
  let s' := store_slot (h_slot m i) st in
  sl_seq (h_slot m i) ≤ sl_seq s' ≤ 2 * Z.of_nat (length fs) →
  (Z.odd (sl_seq s') = false → ∃ fr, fr ∈ fs ∧ fr_slot fr = i ∧ holds s' fr) →
  h_latest m = 0 ∨ Z.land (h_latest m) 0xff ≠ i →
  phase (store m (St_slot i st)) fs todo →
  inv l (mk_Sys (store m (St_slot i st)) p todo fs).
Proof.
  intros Hl [H1 H2 H3 H4 H5 H6] s' Hr He Hla Hph. cbn [sy_mem sy_prod sy_todo sy_frames] in *.
  constructor; cbn [sy_mem sy_prod sy_todo sy_frames]; rewrite ?store_h_slot, ?store_h_latest, ?store_h_fixed; try done.
  - intros j. destruct (decide (j = i)) as [->|Hj].
    + rewrite fn_lookup_insert. fold s'. specialize (H4 i). split; [lia|]. intros Ho. right. auto.
    + rewrite fn_lookup_insert_ne by done. apply H4.
  - destruct H5 as [|(fr&Hin&Heq&?&?)]; [by left|]. right. exists fr. rewrite Forall_forall in H2.
    destruct (latest_of_word l fr Hl (H2 fr Hin)) as (Hw&_&Hw0&_). rewrite Heq, Hw in Hla.
    rewrite fn_lookup_insert_ne by (destruct Hla; congruence). done.
  - intros q Hq. destruct (H6 q Hq) as [? ? Hs Ht Hpub Hn].
    constructor; rewrite ?store_h_slot, ?store_h_latest; try done.
    + intros j Hj. destruct (decide (j = i)) as [->|Hj']; [|by rewrite fn_lookup_insert_ne; auto].
      rewrite fn_lookup_insert. specialize (Hs i Hj). split; [|lia].
      destruct (is_seq st) eqn:Hst; [|rewrite store_slot_seq by done; lia].
      destruct st; try done. cbn. apply (Ht i). set_solver.
    + intros j v Hin. apply (Ht j). set_solver.
    + intros v Hin. apply Hpub. set_solver.
    + intros Hno. apply Hn. set_solver.
Qed.

Lemma inv_store l m p s todo fs :
  Layout_validate l = Ok tt → inv l (mk_Sys m p (s :: todo) fs) →
  inv l (mk_Sys (store m s) p todo fs) ∧ ∀ i, slot_le (h_slot m i) (h_slot (store m s) i).
Proof.
  intros Hl Hinv. pose proof (iv_phase _ _ Hinv) as Hph. cbn [sy_mem sy_prod sy_todo sy_frames] in Hph.
  remember (s :: todo) as td eqn:Heq.
  destruct Hph as [td Hall|fr odd Hin Hodd Hle Hb Hla|fr odd done rest s0 Hin Hodd Hbody Hs0 Hb Hs Hla|fr Hin Hev Hh].
  - subst td. apply Forall_cons in Hall as [Hs Hall].
    assert (h_slot (store m s) = h_slot m ∧ h_latest (store m s) = h_latest m) as [Hsl Hlt]
      by (rewrite store_h_slot, store_h_latest; by destruct s).
    split; [|intros i; rewrite Hsl; apply slot_le_refl].
    eapply inv_mem; [exact Hsl|exact Hlt|apply store_h_fixed|].
    destruct Hinv as [H1 H2 H3 H4 H5 H6]. constructor; cbn [sy_mem sy_prod sy_todo sy_frames] in *; try done.
    { by apply ph_other. }
    intros q Hq. rewrite Forall_forall in Hall. destruct (H6 q Hq) as [? ? ? Ht ? Hn].
    constructor; try done; [|intros v Hv; by apply Hall in Hv|].
    { intros i v Hv. by apply Hall in Hv. }
    intros _. apply Hn. intros v Hv. apply elem_of_cons in Hv as [Hv|Hv]; [by subst|by apply Hall in Hv].
  - injection Heq as <- <-. split.
    + apply inv_slot_store; cbn [store_slot sl_seq]; try done; [lia|congruence|].
      refine (ph_body _ fs fr odd [] (body fr) (store_slot (h_slot m (fr_slot fr)) (St_seq odd)) Hin Hodd eq_refl eq_refl Hb _ _).
      * rewrite store_h_slot. by rewrite fn_lookup_insert.
      * by rewrite store_h_latest.
    + intros i. rewrite store_h_slot. destruct (decide (i = fr_slot fr)) as [->|Hi];
        [rewrite fn_lookup_insert|rewrite fn_lookup_insert_ne by done; apply slot_le_refl].
      unfold slot_le. cbn. destruct (decide (sl_seq (h_slot m (fr_slot fr)) = odd)); [right; right; split; congruence|right; left; lia].
  - assert (∀ st, st ∈ done → is_seq st = false) as Hdone by (intros st Hst; apply (body_no_seq fr); rewrite Hbody; set_solver).
    pose proof (fold_no_seq done s0 Hdone) as Hseq. rewrite <- Hs, Hs0 in Hseq.
    destruct rest as [|st rest]; cbn [app map] in Heq; injection Heq as <- <-.
    + rewrite app_nil_r in Hbody. subst done.
      assert (holds (store_slot (h_slot m (fr_slot fr)) (St_seq (odd + 1))) fr) as Hh
        by (rewrite holds_seq, Hs; apply body_holds).
      split.
      * apply inv_slot_store; cbn [store_slot sl_seq]; try done; [lia|by exists fr|].
        apply ph_publish; [done|rewrite store_h_slot, fn_lookup_insert; by apply odd_succ|by rewrite store_h_slot, fn_lookup_insert].
      * intros i. rewrite store_h_slot. destruct (decide (i = fr_slot fr)) as [->|Hi];
          [rewrite fn_lookup_insert|rewrite fn_lookup_insert_ne by done; apply slot_le_refl].
        right; left. cbn. lia.
    + assert (is_seq st = false) as Hst by (apply (body_no_seq fr); rewrite Hbody; set_solver).
      split.
      * apply inv_slot_store; rewrite ?store_slot_seq by done; try done; [lia|congruence|].
        apply ph_body with (done := done ++ [st]) (s0 := s0); try done.
        { by rewrite <- app_assoc. }
        { rewrite store_h_slot, fn_lookup_insert, fold_left_app, <- Hs. done. }
        { by rewrite store_h_latest. }
      * intros i. rewrite store_h_slot. destruct (decide (i = fr_slot fr)) as [->|Hi];
          [rewrite fn_lookup_insert|rewrite fn_lookup_insert_ne by done; apply slot_le_refl].
        right; right. rewrite store_slot_seq by done. split; congruence.
  - injection Heq as <- <-. split; [|intros i; rewrite store_h_slot; apply slot_le_refl].
    destruct Hinv as [H1 H2 H3 H4 H5 H6]. constructor; cbn [sy_mem sy_prod sy_todo sy_frames] in *;
      rewrite ?store_h_slot, ?store_h_latest, ?store_h_fixed; try done.
    { apply ph_other. by repeat constructor. }
    { right. by exists fr. }
    intros q Hq. destruct (H6 q Hq) as [? ? ? Ht Hpub Hn].
    constructor; rewrite ?store_h_slot, ?store_h_latest; try done; [set_solver|set_solver|].
    intros _. destruct (Hpub (latest_of fr)) as [Hne ->]; [set_solver|]. by destruct (Z.eqb_spec (latest_of fr) 0).
Qed.

Lemma step_inv l s s' :
  Layout_validate l = Ok tt → Z.of_nat (length (sy_frames s')) ≤ 2 ^ 60 →
  step s s' → inv l s →
  inv l s' ∧ ∀ i, slot_le (h_slot (sy_mem s) i) (h_slot (sy_mem s') i).
Proof.
  intros Hl Hn Hst Hinv. destruct Hst; cbn [sy_mem sy_frames] in *; try (split; [|intros i; apply slot_le_refl]).
  - by eapply inv_attach.
  - apply inv_todo; [|done]. unfold start. destruct whole; by repeat constructor.
  - by eapply inv_push.
  - unfold finish in *. case_match; simplify_eq; [by eapply inv_no_prod|].
    apply inv_todo; [destruct whole; by repeat constructor|by eapply inv_no_prod].
  - by apply inv_store.
  - by eapply inv_no_prod.
  - assert (h_slot (store m s) = h_slot m) as Hs by (rewrite store_h_slot; by destruct s).
    split; [|intros i; rewrite Hs; apply slot_le_refl].
    eapply inv_mem, Hinv; [done|rewrite store_h_latest; by destruct s|apply store_h_fixed].
Qed.

Lemma run_inv l now tr :
  Layout_validate l = Ok tt → run_of l now tr →
  ∀ n, inv l (tr n) ∧ ∀ k i, slot_le (h_slot (sy_mem (tr n)) i) (h_slot (sy_mem (tr (n + k)%nat)) i).
Proof.
  intros Hl (H0&Hst&Hb).
  assert (∀ n, inv l (tr n)) as Hi.
  { intros n. induction n as [|n IH]; [rewrite H0; apply inv_init|].
    destruct (Hst n) as [->|Hs]; [done|]. by apply (step_inv l (tr n)). }
  intros n. split; [done|]. intros k i. induction k as [|k IH].
  - rewrite Nat.add_0_r. apply slot_le_refl.
  - eapply slot_le_trans; [exact IH|]. rewrite Nat.add_succ_r.
    destruct (Hst (n + k)%nat) as [->|Hs]; [apply slot_le_refl|]. by apply (step_inv l (tr (n + k)%nat)).
Qed.

(** In a run, the frames pushed only grow. *)
Lemma run_slots_le l now tr n n' i :
  Layout_validate l = Ok tt → run_of l now tr → (n ≤ n')%nat →
  slot_le (h_slot (sy_mem (tr n)) i) (h_slot (sy_mem (tr n')) i).
Proof.
  intros Hl Hrun Hle. destruct (run_inv l now tr Hl Hrun n) as [_ Hs].
  replace n' with (n + (n' - n))%nat by lia. apply Hs.
Qed.

Lemma holds_bytes s fr n :
  holds s fr → n = Z.of_nat (length (fr_data fr)) → (λ k, sl_data s k) <$> seqZ 0 n = fr_data fr.
Proof.
  intros (_&_&_&_&_&_&_&Hd) ->. apply list_eq. intros i. rewrite list_lookup_fmap.
  destruct (fr_data fr !! i) as [b|] eqn:Hb.
  - pose proof (lookup_lt_Some _ _ _ Hb). rewrite lookup_seqZ_lt by lia. cbn. by rewrite Z.add_0_l, (Hd i b).
  - apply lookup_ge_None in Hb. rewrite lookup_seqZ_ge by lia. done.
Qed.

Lemma Color_u32_from c : Color_from_u32 (Color_u32 c) = Some c.
Proof. by destruct c. Qed.

(** (C5) Torn frames are never read: in any run of producers that push, stop or
    are killed at any store, and of a consumer, a read whose loads fall
    anywhere in the run (in order, at most the last one last) and that
    succeeds hands out exactly a frame pushed before the read began: all its
    fields and all its bytes, from the slot and with the number the read
    looked up. *)
Theorem seqlock_no_torn l now tr (at_ : nat → nat) cl latest out info out' :
  Layout_validate l = Ok tt → run_of l now tr → 0 ≤ latest →
  (∀ j k, (j ≤ k)%nat → (at_ j ≤ at_ k)%nat) →
  copy_slot cl latest (λ k, sy_mem (tr (at_ k))) out = (Ok info, out') →
  ∃ fr, fr ∈ sy_frames (tr (at_ O)) ∧ fr_slot fr = Z.land latest 0xff
    ∧ info = fr_info fr ∧ out' = fr_data fr ∧ fi_frame_no info = Z.shiftr latest 8.
Proof.
  intros Hl Hrun Hla Hmono Hc. apply copy_slot_Ok in Hc; [|done].
  set (i := Z.land latest 0xff) in *.
  assert (∀ k, (k ≤ 8 + Z.to_nat (info_len info))%nat →
    h_slot (sy_mem (tr (at_ k))) i = h_slot (sy_mem (tr (at_ O))) i) as Hsame.
  { intros k Hk. destruct Hc as [_ Hev _ _ _ _ _ _ _ _ _ Hag].
    pose proof (run_slots_le l now tr _ _ i Hl Hrun (Hmono O k ltac:(lia))) as H1.
    pose proof (run_slots_le l now tr _ _ i Hl Hrun (Hmono k _ Hk)) as H2.
    pose proof (slot_le_even _ _ (slot_le_trans _ _ _ H1 H2) Hag Hev) as Heq.
    symmetry. apply slot_le_even; [done| |done].
    rewrite <- Heq in H2. destruct H1 as [->|[?|[? ?]]]; [done| |done]; destruct H2 as [->|[?|[? ?]]]; congruence || lia. }
  destruct Hc as [_ Hev [Hno Hn1] Hnr [Hw Hh] _ [Hr _] Hcol Hts [Hlen _] -> _]. subst i. cbv beta in *.
  rewrite (Hsame 1%nat) in Hn1 by lia. rewrite (Hsame 2%nat) in Hw by lia. rewrite (Hsame 3%nat) in Hh by lia.
  rewrite (Hsame 4%nat) in Hr by lia. rewrite (Hsame 5%nat) in Hcol by lia. rewrite (Hsame 6%nat) in Hts by lia.
  destruct (run_inv l now tr Hl Hrun (at_ O)) as [Hinv _].
  destruct (iv_slots _ _ Hinv (Z.land latest 0xff)) as [_ Hs]. destruct (Hs Hev) as [?|(fr&Hin&Hfs&Hh')]; [lia|].
  exists fr. pose proof Hh' as (H1&H2&H3&H4&H5&H6&_).
  assert (info = fr_info fr) as ->.
  { destruct info, (fr_info fr) eqn:Hi. cbn in *. rewrite H5, Color_u32_from in Hcol. congruence. }
  split_and!; [done|done|done| |done].
  pose proof (iv_frames _ _ Hinv) as Hfr. rewrite Forall_forall in Hfr. destruct (Hfr fr Hin) as [_ _ _ _ Hflen].
  unfold copied. erewrite list_fmap_ext; [by apply holds_bytes; [exact Hh'|]|].
  intros j x Hx. apply lookup_lt_Some in Hx as Hj. rewrite length_seqZ in Hj.
  rewrite lookup_seqZ_lt in Hx by lia. injection Hx as <-. by rewrite Hsame by lia.
Qed.

(** The newest frame can always be read: when a push has finished (or the
    producer died after it), a read that nothing overlaps hands out the frame
    [H_LATEST] names, whole. *)
Theorem published_frame_readable l now tr n out :
  Layout_validate l = Ok tt → run_of l now tr → h_latest (sy_mem (tr n)) ≠ 0 →
  ∃ fr, fr ∈ sy_frames (tr n) ∧ latest_of fr = h_latest (sy_mem (tr n))
    ∧ copy_slot l (h_latest (sy_mem (tr n))) (λ _, sy_mem (tr n)) out = (Ok (fr_info fr), fr_data fr).
Proof.
  intros Hl Hrun Hne. destruct (run_inv l now tr Hl Hrun n) as [Hinv _].
  destruct (iv_latest _ _ Hinv) as [?|(fr&Hin&Heq&Hev&Hh)]; [done|].
  pose proof (iv_frames _ _ Hinv) as Hfr. rewrite Forall_forall in Hfr. specialize (Hfr fr Hin).
  destruct (latest_of_word l fr Hl Hfr) as (Hw&Hsh&_&Hnn).
  exists fr. split_and!; [done|done|]. rewrite Heq. apply copy_slot_Ok; [done|].
  destruct Hfr as [Hfs Hfn (?&?&Hfit) Hrot Hflen]. pose proof Hh as (H1&H2&H3&H4&H5&H6&H7&_).
  constructor; rewrite ?Hw; try done.
  - by rewrite H5, Color_u32_from.
  - split; [done|]. split; [lia|]. by apply fits_slot; [lia|lia|].
  - unfold copied. symmetry. by apply holds_bytes.
Qed.

(** ** A run: one frame pushed into a small ring *)

Definition example_layout : Layout := mk_Layout 16 16 2 15.
Definition example_frame : Nv12Frame :=
  Nv12Frame_new (seqZ 0 256) 16 (seqZ 0 128) 16 16 16.
Definition example_env : PushEnv := mk_PushEnv true F_WANTS 1000 F_WANTS 2000 7777 15.
Definition no_producer : Producer := mk_Producer example_layout 0 (λ _, 0) None None false.
Definition example_attach : Result (Producer * list Store) RingError :=
  attach (λ _, Ok true) (file_len example_layout) true (new_ring example_layout 1000).
Definition example_producer : Producer := match example_attach with Ok (p, _) => p | Err _ => no_producer end.

Lemma example_attached : example_attach = Ok (example_producer, [St_add_attaches]).
Proof. vm_compute. reflexivity. Qed.

Lemma producer_trusts_nothing_witness :
  let r := push example_producer example_frame example_env in
  Forall (store_ok example_producer) r.2 ∧ length r.2 = 395%nat.
Proof.
  intros r. split; [|vm_compute; reflexivity].
  refine (proj1 (producer_trusts_nothing (λ _, Ok true) (file_len example_layout) true (new_ring example_layout 1000)
    example_producer [St_add_attaches] [] example_frame example_env r.1.1 r.1.2 r.2 _ _ _ _)).
  - vm_compute. discriminate.
  - intros i. vm_compute. discriminate.
  - exact example_attached.
  - unfold pushes. cbn [fold_left]. unfold r. by destruct (push example_producer example_frame example_env) as [[? ?] ?].
Defined.

(** Do the next store, if there is one. *)
Definition exec (s : Sys) : Sys :=
  match sy_todo s with
  | [] => s
  | st :: todo => mk_Sys (store (sy_mem s) st) (sy_prod s) todo (sy_frames s)
  end.

Lemma exec_step s : exec s = s ∨ step s (exec s).
Proof. destruct s as [m p [|st todo] fs]; [by left|right; apply step_store]. Qed.
Lemma exec_frames n s : sy_frames (Nat.iter n exec s) = sy_frames s.
Proof. induction n as [|n IH]; [done|].
  change (sy_frames (exec (Nat.iter n exec s)) = sy_frames s). rewrite <- IH.
  unfold exec. by destruct (sy_todo (Nat.iter n _ s)).
Qed.

Definition example_new : Sys := mk_Sys (new_ring example_layout 1000) None [] [].
Definition example_ready : Sys :=
  mk_Sys (store (new_ring example_layout 1000) St_add_attaches) (Some example_producer) [] [].
Definition example_pushed : Sys :=
  let '(_, p', st) := push example_producer example_frame example_env in
  mk_Sys (sy_mem example_ready) (Some p') st ([] ++ pushed_frame example_producer example_frame example_env).
Definition example_run (n : nat) : Sys :=
  match n with
  | O => example_new
  | 1%nat => mk_Sys (new_ring example_layout 1000) (Some example_producer) [St_add_attaches] []
  | 2%nat => example_ready
  | S (S (S k)) => Nat.iter k exec example_pushed
  end.

Lemma example_run_ok : run_of example_layout 1000 example_run.
Proof.
  split_and!; [done| |].
  - intros [|[|[|n]]]; cbn [example_run].
    + right. exact (step_attach (new_ring example_layout 1000) [] (λ _, Ok true) (file_len example_layout) true
        example_producer [St_add_attaches] example_attached).
    + right. apply step_store.
    + right. change (Nat.iter 0 exec example_pushed) with example_pushed. unfold example_pushed.
      destruct (push example_producer example_frame example_env) as [[r p'] st] eqn:Hp.
      exact (step_push _ _ _ _ _ r p' st Hp).
    + apply (exec_step (Nat.iter n exec example_pushed)).
  - intros [|[|[|n]]]; cbn [example_run]; [done..|]. rewrite exec_frames. vm_compute. discriminate.
Qed.

Definition example_info : FrameInfo := mk_FrameInfo 1 16 16 0 Bt601Limited 7777.

Notation example_mem := (sy_mem (example_run 400)) (only parsing).

Lemma example_copied :
  copy_slot example_layout 256 (λ _, example_mem) [] = (Ok example_info, seqZ 0 256 ++ seqZ 0 128)
  ∧ h_latest example_mem = 256.
Proof.
  change ((λ m, copy_slot example_layout 256 (λ _, m) [] = (Ok example_info, seqZ 0 256 ++ seqZ 0 128)
    ∧ h_latest m = 256) example_mem).
  vm_compute. by split.
Qed.

Lemma seqlock_no_torn_witness :
  ∃ fr, fr ∈ sy_frames (example_run 400) ∧ fr_info fr = example_info.
Proof.
  destruct (seqlock_no_torn example_layout 1000 example_run (λ _, 400%nat) example_layout 256 []
    example_info (seqZ 0 256 ++ seqZ 0 128) eq_refl example_run_ok) as (fr&Hin&_&Hi&_).
  - discriminate.
  - intros. exact (le_n _).
  - exact (proj1 example_copied).
  - exists fr. exact (conj Hin (eq_sym Hi)).
Defined.

Lemma published_frame_readable_witness :
  ∃ fr, copy_slot example_layout (h_latest example_mem) (λ _, example_mem) [] = (Ok (fr_info fr), fr_data fr).
Proof.
  destruct (published_frame_readable example_layout 1000 example_run 400 [] eq_refl example_run_ok) as (fr&_&_&Hc).
  - intros He. pose proof (eq_trans (eq_sym (proj2 example_copied)) He) as H0. discriminate H0.
  - exists fr. exact Hc.
Defined.

Definition example_consumer : Consumer := mk_Consumer example_layout 0 0 0 0 0.
Definition example_read (m : RingMem) : option FrameInfo * Consumer * list Z * list Store :=
  read example_consumer true false 5 (λ _, mk_ReadTry m (λ _, m)) [].

Lemma example_reads : (example_read example_mem).1.1.1 = Some example_info.
Proof. change ((λ m, (example_read m).1.1.1 = Some example_info) example_mem). vm_compute. reflexivity. Qed.

Lemma consumer_trusts_nothing_witness : fi_frame_no example_info ≠ cn_last_frame example_consumer.
Proof.
  pose proof example_reads as Hr. unfold example_read in Hr.
  destruct (read example_consumer true false 5 (λ _, mk_ReadTry example_mem (λ _, example_mem)) []) as [[[i c'] o] st] eqn:He.
  cbn [fst] in Hr. subst i.
  refine (proj1 (proj2 (proj2 (proj2 (proj2 (proj2 (proj2 (proj2 (proj2 (proj2
    (consumer_trusts_nothing example_consumer true false 5 (λ _, mk_ReadTry example_mem (λ _, example_mem))
      [] example_info c' o st eq_refl _ He)))))))))) eq_refl).
  intros k. cbn [rt_latest]. rewrite (proj2 example_copied). discriminate.
Defined.
