(* ===== verification/Utf8.v ===== *)
(** * Strings as UTF-8 bytes ([core::str])

    What the standard library does with the bytes of a [str]: validation with
    its errors, character boundaries, and the lossy conversion. *)

From S2P Require Import Prelude.
From stdpp Require Import pretty.
Open Scope Z_scope.

(** ** Validation *)

Inductive Utf8Step := Utf8_Char (n : nat) | Utf8_Bad (n : Z) | Utf8_Incomplete.

Definition in_rng (lo hi b : Z) : bool := (lo <=? b) && (b <=? hi).
Definition is_cont (b : Z) : bool := in_rng 128 191 b.

(** The next [n] bytes must be continuations; [k] were read so far. *)
Fixpoint conts (n k : nat) (l : list Z) : Utf8Step :=
  match n with
  | O => Utf8_Char k
  | S n =>
    match l with
    | [] => Utf8_Incomplete
    | b :: l => if is_cont b then conts n (S k) l else Utf8_Bad (Z.of_nat k)
    end
  end.

(** The second byte of a three- or four-byte character, then its rest. *)
Definition second (lo hi : Z) (n : nat) (l : list Z) : Utf8Step :=
  match l with
  | [] => Utf8_Incomplete
  | b :: l => if in_rng lo hi b then conts n 2 l else Utf8_Bad 1
  end.

(** [run_utf8_validation]: the first character of a byte sequence. *)
Definition utf8_step (b0 : Z) (l : list Z) : Utf8Step :=
  if b0 <? 128 then Utf8_Char 1
  else if in_rng 0xC2 0xDF b0 then conts 1 1 l
  else if b0 =? 0xE0 then second 0xA0 0xBF 1 l
  else if in_rng 0xE1 0xEC b0 || in_rng 0xEE 0xEF b0 then second 0x80 0xBF 1 l
  else if b0 =? 0xED then second 0x80 0x9F 1 l
  else if b0 =? 0xF0 then second 0x90 0xBF 2 l
  else if in_rng 0xF1 0xF3 b0 then second 0x80 0xBF 2 l
  else if b0 =? 0xF4 then second 0x80 0x8F 2 l
  else Utf8_Bad 1.

(** Validate from [at_]: [None], or where it stops and how. *)
Fixpoint utf8_error (fuel : nat) (at_ : nat) (l : list Z) : option (nat * option Z) :=
  match fuel with
  | O => None
  | S fuel =>
    match l with
    | [] => None
    | b0 :: r =>
      match utf8_step b0 r with
      | Utf8_Char n => utf8_error fuel (at_ + n) (drop n l)
      | Utf8_Bad n => Some (at_, Some n)
      | Utf8_Incomplete => Some (at_, None)
      end
    end
  end.
Definition utf8_check (l : list Z) : option (nat * option Z) := utf8_error (length l) 0 l.
Definition utf8_ok (l : list Z) : Prop := utf8_check l = None.

(** [Utf8Error]'s text. *)
Definition utf8_message (e : nat * option Z) : string :=
  match e with
  | (at_, Some n) => "invalid utf-8 sequence of " +:+ pretty n +:+ " bytes from index " +:+ pretty at_
  | (at_, None) => "incomplete utf-8 byte sequence from index " +:+ pretty at_
  end.

(** [str::is_char_boundary]. *)
Definition is_char_boundary (l : list Z) (i : nat) : bool :=
  (i =? 0)%nat || match l !! i with None => (i =? length l)%nat | Some b => negb (is_cont b) end.

(** [String::from_utf8_lossy]: every maximal invalid part becomes U+FFFD. *)
Fixpoint utf8_lossy_from (fuel : nat) (l : list Z) : list Z :=
  match fuel with
  | O => []
  | S fuel =>
    match l with
    | [] => []
    | b0 :: r =>
      match utf8_step b0 r with
      | Utf8_Char n => take n l ++ utf8_lossy_from fuel (drop n l)
      | Utf8_Bad n => [0xEF; 0xBF; 0xBD] ++ utf8_lossy_from fuel (drop (Z.to_nat n) l)
      | Utf8_Incomplete => [0xEF; 0xBF; 0xBD]
      end
    end
  end.
Definition utf8_lossy (l : list Z) : list Z := utf8_lossy_from (length l) l.

(** The characters of a text, each its bytes ([str::chars]); bytes that are
    no character stand alone. *)
Fixpoint utf8_split_from (fuel : nat) (l : list Z) : list (list Z) :=
  match fuel with
  | O => []
  | S fuel =>
    match l with
    | [] => []
    | b0 :: r =>
      match utf8_step b0 r with
      | Utf8_Char n => take n l :: utf8_split_from fuel (drop n l)
      | _ => [b0] :: utf8_split_from fuel r
      end
    end
  end.

(** [str::trim]. *)
Definition is_space (c : list Z) : bool := opt_is_some_and char_is_whitespace (head (utf8_chars c)).
Definition utf8_trim (l : list Z) : list Z :=
  concat (reverse (drop_while is_space (reverse (drop_while is_space (utf8_split_from (length l) l))))).

(** ** Lemmas *)

Inductive Utf8 : list Z → Prop :=
| Utf8_nil : Utf8 []
| Utf8_cons b0 r n : utf8_step b0 r = Utf8_Char n → Utf8 (drop n (b0 :: r)) → Utf8 (b0 :: r).

(** A character of [n] bytes: the ones after the first are continuations,
    and nothing after them matters. *)
Definition char_of (b0 : Z) (l : list Z) (n : nat) : Prop :=
  (1 ≤ n ≤ 4)%nat ∧ (n ≤ S (length l))%nat
  ∧ (∀ i b, (0 < i < n)%nat → (b0 :: l) !! i = Some b → is_cont b = true)
  ∧ (∀ l', take (n - 1) l' = take (n - 1) l → utf8_step b0 l' = Utf8_Char n).

Lemma conts_char n k l m :
  conts n k l = Utf8_Char m →
  m = (k + n)%nat ∧ (n ≤ length l)%nat ∧ (∀ i b, (i < n)%nat → l !! i = Some b → is_cont b = true)
  ∧ ∀ l', take n l' = take n l → conts n k l' = Utf8_Char m.
Proof.
  revert k l. induction n as [|n IH]; intros k l; cbn [conts].
  { intros [= <-]. split_and!; [lia|lia|intros; lia|done]. }
  destruct l as [|b l]; [done|]. destruct (is_cont b) eqn:Hb; [|done]. intros H.
  apply IH in H as (->&Hl&Hc&Hs). split_and!; [lia|cbn; lia| |].
  - intros [|i] b' Hi; cbn; [by intros [= <-]|]. apply Hc. lia.
  - intros [|b' l'] Ht; [done|]. cbn in Ht. injection Ht as -> Ht. cbn. rewrite Hb. by apply Hs.
Qed.

Lemma in_rng_cont lo hi b : 128 ≤ lo → hi ≤ 191 → in_rng lo hi b = true → is_cont b = true.
Proof. unfold is_cont, in_rng. rewrite !andb_true_iff, !Z.leb_le. lia. Qed.

Lemma second_char b0 lo hi n l m :
  128 ≤ lo → hi ≤ 191 → (n ≤ 2)%nat → (∀ l', utf8_step b0 l' = second lo hi n l') →
  second lo hi n l = Utf8_Char m → char_of b0 l m.
Proof.
  intros Hlo Hhi Hn Hb0 H. unfold second in H. destruct l as [|b l]; [done|].
  destruct (in_rng lo hi b) eqn:Hb; [|done]. apply conts_char in H as (->&Hl&Hc&Hs).
  split_and!; [lia|lia|cbn; lia| |].
  - intros [|[|i]] b' Hi; cbn; [lia|intros [= <-]; by eapply in_rng_cont|]. apply Hc. lia.
  - intros [|b' l'] Ht; [done|]. cbn in Ht. rewrite Hb0. injection Ht as -> Ht. unfold second. rewrite Hb. by apply Hs.
Qed.

Lemma utf8_step_char b0 l n : utf8_step b0 l = Utf8_Char n → char_of b0 l n.
Proof.
  intros H. pose proof H as H'. unfold utf8_step in H'.
  destruct (b0 <? 128) eqn:E1.
  { injection H' as <-. split_and!; [lia|lia|cbn; lia|intros; lia|]. intros l' _. unfold utf8_step. by rewrite E1. }
  destruct (in_rng 0xC2 0xDF b0) eqn:E2.
  { apply conts_char in H' as (->&Hl&Hc&Hs). split_and!; [lia|lia|lia| |].
    - intros [|i] b' Hi; cbn; [lia|]. apply Hc. lia.
    - intros l' Ht. unfold utf8_step. rewrite E1, E2. by apply Hs. }
  repeat (match type of H' with (if ?c then _ else _) = _ => destruct c eqn:? end;
    [eapply second_char, H'; [lia|lia|lia|intros l'; unfold utf8_step; rewrite E1, E2];
     repeat match goal with E : ?c = _ |- context [if ?c then _ else _] => rewrite E end; reflexivity|]).
  done.
Qed.

Lemma utf8_error_iff fuel at_ l : (length l ≤ fuel)%nat → utf8_error fuel at_ l = None ↔ Utf8 l.
Proof.
  revert at_ l. induction fuel as [|fuel IH]; intros at_ l Hl.
  { destruct l; [|cbn in Hl; lia]. split; [constructor|done]. }
  destruct l as [|b0 r]; cbn [utf8_error]; [split; [constructor|done]|].
  destruct (utf8_step b0 r) as [n| |] eqn:Hs; [|split; [done|inversion 1; congruence]..].
  pose proof (utf8_step_char _ _ _ Hs) as (Hn&_). cbn in Hl.
  rewrite IH by (rewrite length_drop; cbn; lia). split; [by econstructor|].
  inversion 1 as [|? ? n' Hs' Hu]; subst. by assert (n' = n) as -> by congruence.
Qed.
Lemma utf8_ok_iff l : utf8_ok l ↔ Utf8 l.
Proof. by apply utf8_error_iff. Qed.

Lemma boundary_drop l n i :
  (n < i)%nat → is_char_boundary l i = is_char_boundary (drop n l) (i - n).
Proof.
  intros Hi. unfold is_char_boundary. rewrite (proj2 (Nat.eqb_neq i 0)), (proj2 (Nat.eqb_neq (i - n) 0)) by lia.
  cbn [orb]. rewrite lookup_drop. replace (n + (i - n))%nat with i by lia.
  destruct (l !! i) eqn:Hl; [done|]. apply lookup_ge_None in Hl. rewrite length_drop.
  destruct (Nat.eqb_spec i (length l)), (Nat.eqb_spec (i - n) (length l - n)); lia || done.
Qed.

Lemma boundary_inside b0 r n i :
  char_of b0 r n → (0 < i < n)%nat → is_char_boundary (b0 :: r) i = false.
Proof.
  intros (_&Hl&Hc&_) Hi. unfold is_char_boundary. rewrite (proj2 (Nat.eqb_neq i 0)) by lia. cbn [orb].
  destruct ((b0 :: r) !! i) as [b|] eqn:Hb; [by rewrite (Hc i b)|]. apply lookup_ge_None in Hb. cbn in Hb. lia.
Qed.

Lemma first_not_cont b0 r n : utf8_step b0 r = Utf8_Char n → is_cont b0 = false.
Proof.
  unfold utf8_step, is_cont, in_rng. intros H. apply not_true_iff_false. intros Hc. bool_props.
  revert H. rewrite (proj2 (Z.ltb_ge b0 128)) by lia.
  repeat match goal with
  | |- context [?lo <=? b0] => rewrite (proj2 (Z.leb_gt lo b0)) by lia
  | |- context [b0 =? ?k] => rewrite (proj2 (Z.eqb_neq b0 k)) by lia
  end. done.
Qed.

(** Cut at a boundary, both parts are valid. *)
Lemma utf8_split l i :
  Utf8 l → (i ≤ length l)%nat → is_char_boundary l i = true → Utf8 (take i l) ∧ Utf8 (drop i l).
Proof.
  intros Hu. revert i. induction Hu as [|b0 r n Hs Hu IH]; intros i Hi Hb.
  { rewrite take_nil, drop_nil. split; constructor. }
  pose proof (utf8_step_char _ _ _ Hs) as Hch. pose proof Hch as (Hn&Hnl&_&Hst).
  destruct (decide (i = 0)%nat) as [->|Hi0]; [split; [constructor|by econstructor]|].
  destruct (decide (i < n)%nat) as [Hin|Hin]; [by rewrite (boundary_inside b0 r n) in Hb by (done || lia)|].
  destruct (IH (i - n)%nat) as [Ht Hd].
  { rewrite length_drop. lia. }
  { destruct (decide (i = n)) as [->|]; [by rewrite Nat.sub_diag|]. rewrite <- boundary_drop by lia. done. }
  rewrite drop_drop in Hd. replace (n + (i - n))%nat with i in Hd by lia. split; [|done].
  destruct i as [|i]; [lia|]. cbn [take]. apply Utf8_cons with n.
  - apply Hst. rewrite take_take. f_equal. lia.
  - change (b0 :: take i r) with (take (S i) (b0 :: r)). by rewrite skipn_firstn_comm.
Qed.

(** A boundary is never more than three bytes back. *)
Lemma boundary_near l j :
  Utf8 l → (j ≤ length l)%nat → ∃ c, (c ≤ j ≤ c + 3)%nat ∧ is_char_boundary l c = true.
Proof.
  intros Hu. revert j. induction Hu as [|b0 r n Hs Hu IH]; intros j Hj; [exists O; cbn in Hj; split; [lia|done]|].
  pose proof (utf8_step_char _ _ _ Hs) as (Hn&Hnl&_).
  destruct (decide (j < n)%nat) as [Hjn|Hjn]; [by exists O; split; [lia|]|].
  destruct (IH (j - n)%nat) as (c&Hc&Hb); [rewrite length_drop; lia|].
  exists (n + c)%nat. split; [lia|]. destruct (decide (c = 0)%nat) as [->|Hc0].
  - rewrite Nat.add_0_r. unfold is_char_boundary. destruct ((b0 :: r) !! n) as [b|] eqn:Hbn.
    + destruct (drop n (b0 :: r)) as [|b1 r1] eqn:Hd.
      { apply (f_equal length) in Hd. rewrite length_drop in Hd. apply lookup_lt_Some in Hbn. cbn in *. lia. }
      assert (b1 = b) as ->.
      { apply (f_equal (.!! O)) in Hd. rewrite lookup_drop, Nat.add_0_r, Hbn in Hd. cbn in Hd. congruence. }
      inversion Hu as [|? ? m Hs1 _]; subst. clear IH.
      rewrite (first_not_cont b r1 m Hs1). apply orb_true_r.
    + apply lookup_ge_None in Hbn. cbn [length] in Hbn |- *. rewrite (proj2 (Nat.eqb_eq n (S (length r)))) by lia. apply orb_true_r.
  - rewrite (boundary_drop _ n) by lia. by replace (n + c - n)%nat with c by lia.
Qed.

(** ASCII is valid. *)
Lemma utf8_ascii l : Forall (λ b, b < 128) l → utf8_ok l.
Proof.
  rewrite utf8_ok_iff. induction 1 as [|b l Hb _ IH]; [constructor|].
  apply Utf8_cons with 1%nat; [|done]. unfold utf8_step. by rewrite (proj2 (Z.ltb_lt _ _) Hb).
Qed.

(** A valid text is its own lossy conversion. *)
Lemma utf8_lossy_ok fuel l : (length l ≤ fuel)%nat → Utf8 l → utf8_lossy_from fuel l = l.
Proof.
  revert l. induction fuel as [|fuel IH]; intros l Hl Hu; [by destruct l; [|cbn in Hl; lia]|].
  destruct Hu as [|b0 r n Hs Hu]; [done|]. cbn [utf8_lossy_from]. rewrite Hs.
  pose proof (utf8_step_char _ _ _ Hs) as (Hn&_). cbn [length] in Hl.
  rewrite IH by (rewrite ?length_drop; cbn [length]; lia || done). apply take_drop.
Qed.

(** ** Encoding *)

(** [char::encode_utf8]. *)
Definition encode_char (c : Z) : list Z :=
  if c <? 0x80 then [c]
  else if c <? 0x800 then [0xC0 + c / 64; 0x80 + c mod 64]
  else if c <? 0x10000 then [0xE0 + c / 4096; 0x80 + c / 64 mod 64; 0x80 + c mod 64]
  else [0xF0 + c / 262144; 0x80 + c / 4096 mod 64; 0x80 + c / 64 mod 64; 0x80 + c mod 64].
Definition utf8_encode (cs : list Z) : list Z := concat (encode_char <$> cs).

(** A Unicode scalar value. *)
Definition is_scalar (c : Z) : Prop := 0 ≤ c < 0xD800 ∨ 0xE000 ≤ c < 0x110000.

Lemma div_mod_eq c k : 0 < k → c = k * (c / k) + c mod k ∧ 0 ≤ c mod k < k.
Proof. intros. split; [by apply Z.div_mod; lia|by apply Z.mod_pos_bound]. Qed.

(** The quotients and remainders of a scalar, for [lia]. *)
Ltac digits c :=
  pose proof (div_mod_eq c 64 ltac:(lia)); pose proof (div_mod_eq c 4096 ltac:(lia));
  pose proof (div_mod_eq c 262144 ltac:(lia));
  pose proof (div_mod_eq (c / 64) 64 ltac:(lia)); pose proof (div_mod_eq (c / 4096) 64 ltac:(lia));
  assert (c / 64 / 64 = c / 4096) by (rewrite Z.div_div by lia; done);
  assert (c / 4096 / 64 = c / 262144) by (rewrite Z.div_div by lia; done).

(** Decide the range tests of the goal by [lia]. *)
Ltac ranges :=
  repeat first
    [ match goal with |- context [in_rng ?lo ?hi ?b] =>
        first [ replace (in_rng lo hi b) with true by (symmetry; unfold in_rng; rewrite andb_true_iff, !Z.leb_le; lia)
              | replace (in_rng lo hi b) with false
                  by (symmetry; unfold in_rng; rewrite andb_false_iff, !Z.leb_gt; lia) ] end
    | match goal with |- context [?a <? ?b] =>
        first [rewrite (proj2 (Z.ltb_lt a b)) by lia | rewrite (proj2 (Z.ltb_ge a b)) by lia] end
    | match goal with |- context [?a =? ?b] =>
        first [rewrite (proj2 (Z.eqb_eq a b)) by lia | rewrite (proj2 (Z.eqb_neq a b)) by lia] end ];
  cbn [orb andb negb].

Lemma conts_ok n k bs l :
  length bs = n → Forall (λ b, is_cont b = true) bs → conts n k (bs ++ l) = Utf8_Char (k + n).
Proof.
  revert k bs. induction n as [|n IH]; intros k [|b bs] Hn Hb; try done.
  { cbn [conts]. by rewrite Nat.add_0_r. }
  inversion Hb as [|?? Hb1 Hb2]; subst. cbn [app conts]. rewrite Hb1. rewrite IH by (cbn in Hn; lia || done).
  f_equal. lia.
Qed.

Lemma cont_byte x : 0 ≤ x < 64 → is_cont (0x80 + x) = true.
Proof. intros. unfold is_cont. by ranges. Qed.

Lemma encode_step c :
  is_scalar c →
  ∃ b0 bs, encode_char c = b0 :: bs ∧ ∀ l, utf8_step b0 (bs ++ l) = Utf8_Char (S (length bs)).
Proof.
  intros Hc. unfold encode_char. digits c.
  destruct (Z.ltb_spec c 0x80) as [Hs1|Hs1].
  { exists c, []. split; [done|]. intros l. unfold utf8_step. by ranges. }
  destruct (Z.ltb_spec c 0x800) as [Hs2|Hs2].
  { eexists _, _. split; [done|]. intros l. unfold utf8_step. ranges.
    apply (conts_ok 1 1 [_]); [done|]. constructor; [apply cont_byte; lia|constructor]. }
  destruct (Z.ltb_spec c 0x10000) as [Hs3|Hs3]; (eexists _, _; split; [done|]; intros l; unfold utf8_step, second; cbn [app]).
  - assert (Forall (λ b, is_cont b = true) [0x80 + c mod 64]) as Hf by (constructor; [apply cont_byte; lia|constructor]).
    destruct (Z.eq_dec (c / 4096) 0); [|destruct (Z.eq_dec (c / 4096) 13); [|destruct (Z_le_gt_dec (c / 4096) 12)]];
      destruct Hc; try lia; ranges; by apply (conts_ok 1 2 [0x80 + c mod 64]).
  - assert (Forall (λ b, is_cont b = true) [0x80 + c / 64 mod 64; 0x80 + c mod 64]) as Hf
      by (repeat (constructor; [apply cont_byte; lia|]); constructor).
    destruct (Z.eq_dec (c / 262144) 0); [|destruct (Z.eq_dec (c / 262144) 4)]; destruct Hc; try lia; ranges;
      by apply (conts_ok 2 2 [0x80 + c / 64 mod 64; 0x80 + c mod 64]).
Qed.

Lemma utf8_encode_ok cs : Forall is_scalar cs → Utf8 (utf8_encode cs).
Proof.
  induction 1 as [|c cs Hc _ IH]; [constructor|]. unfold utf8_encode in *. cbn [fmap list_fmap concat].
  destruct (encode_step c Hc) as (b0&bs&->&Hs). cbn [app]. econstructor; [apply Hs|].
  cbn [drop]. by rewrite drop_app_length.
Qed.

Lemma encode_bytes c : is_scalar c → Forall is_byte (encode_char c).
Proof.
  intros Hc. unfold encode_char, is_byte. digits c. destruct Hc;
  destruct (Z.ltb_spec c 0x80), (Z.ltb_spec c 0x800), (Z.ltb_spec c 0x10000); repeat constructor; lia.
Qed.
