(* ===== verification/TermWire.v ===== *)
(** * The k1 wire format of terminal frames

    [crates/k2-term-wire/src/k1.rs] and the frame types of
    [crates/k2-term-grid/src/grid_snapshot.rs]: snapshots and deltas of a
    terminal grid, encoded as bytes and decoded back. A [String] is its UTF-8
    bytes; the decoder is a state monad over the read position. *)

From S2P Require Import Prelude Utf8.
From stdpp Require Import pretty.
Open Scope Z_scope.

(** ** Frames ([grid_snapshot.rs]) *)

Record CellRun := mk_CellRun {
  cr_text : list Z;
  cr_fg : option Z;
  cr_bg : option Z;
  cr_bold : bool;
  cr_italic : bool;
  cr_underline : bool;
  cr_inverse : bool;
  cr_dim : bool;
  cr_strikeout : bool;
  cr_wrapped : option bool;
  cr_cols : option Z;
}.

Record CursorSnapshot := mk_CursorSnapshot { cu_row : Z; cu_col : Z; cu_visible : bool }.

Record TermGridSnapshot := mk_TermGridSnapshot {
  gs_pane_id : list Z;
  gs_cols : Z;
  gs_rows : Z;
  gs_grid : list (list CellRun);
  gs_scrollback : list (list CellRun);
  gs_cursor : CursorSnapshot;
  gs_version : Z;
  gs_display_offset : Z;
  gs_mouse_report : bool;
  gs_sgr_mouse : bool;
  gs_alt_screen : bool;
}.

Record DamagedRow := mk_DamagedRow { dr_row : Z; dr_runs : list CellRun }.

Record TermGridDelta := mk_TermGridDelta {
  gd_pane_id : list Z;
  gd_cols : Z;
  gd_rows : Z;
  gd_damaged_rows : list DamagedRow;
  gd_scrollback_appended : list (list CellRun);
  gd_cursor : CursorSnapshot;
  gd_version : Z;
  gd_display_offset : Z;
}.

(** ** Encoding ([k1.rs]) *)

Definition WIRE_MAGIC : Z := 0x6B.
Definition WIRE_VERSION : Z := 1.
Definition KIND_SNAPSHOT : Z := 1.
Definition KIND_DELTA : Z := 2.
Definition COLOR_NONE : Z := 0xFFFFFFFF.
Definition STYLE_BOLD : Z := Z.shiftl 1 0.
Definition STYLE_ITALIC : Z := Z.shiftl 1 1.
Definition STYLE_UNDERLINE : Z := Z.shiftl 1 2.
Definition STYLE_INVERSE : Z := Z.shiftl 1 3.
Definition STYLE_DIM : Z := Z.shiftl 1 4.
Definition STYLE_STRIKEOUT : Z := Z.shiftl 1 5.
Definition STYLE_WRAPPED : Z := Z.shiftl 1 6.
Definition STYLE_HAS_COLS : Z := Z.shiftl 1 7.
Definition MODE_MOUSE_REPORT : Z := Z.shiftl 1 0.
Definition MODE_SGR_MOUSE : Z := Z.shiftl 1 1.
Definition MODE_ALT_SCREEN : Z := Z.shiftl 1 2.

Definition u16_max : Z := 65535.
Definition u32_max : Z := 2 ^ 32 - 1.

(** [to_le_bytes] of an [n]-byte integer, and [from_le_bytes]. *)
Fixpoint to_le (n : nat) (v : Z) : list Z :=
  match n with O => [] | S n => v mod 256 :: to_le n (v / 256) end.
Definition from_le (l : list Z) : Z := foldr (λ b acc, b + 256 * acc) 0 l.

Definition put_u16 (v : Z) : list Z := to_le 2 v.
Definition put_u32 (v : Z) : list Z := to_le 4 v.
Definition put_u64 (v : Z) : list Z := to_le 8 v.
Definition u16_sat (v : Z) : Z := Z.min v u16_max.
Definition u32_sat (v : Z) : Z := Z.min v u32_max.
Definition len {A} (l : list A) : Z := Z.of_nat (length l).

Definition put_str (s : list Z) : list Z := put_u16 (u16_sat (len s)) ++ s.
Definition put_color (c : option Z) : list Z := put_u32 (default COLOR_NONE c).

(** [if c { b |= m }]. *)
Definition set_bit_if (c : bool) (m b : Z) : Z := if c then Z.lor b m else b.

Definition style_bits (run : CellRun) : Z :=
  set_bit_if (opt_eqb Bool.eqb (cr_wrapped run) (Some true)) STYLE_WRAPPED
    (set_bit_if (cr_strikeout run) STYLE_STRIKEOUT
    (set_bit_if (cr_dim run) STYLE_DIM
    (set_bit_if (cr_inverse run) STYLE_INVERSE
    (set_bit_if (cr_underline run) STYLE_UNDERLINE
    (set_bit_if (cr_italic run) STYLE_ITALIC
    (set_bit_if (cr_bold run) STYLE_BOLD 0)))))).

(** [while !rest.is_char_boundary(cut) { cut -= 1; }]. *)
Fixpoint cut_back (l : list Z) (cut : nat) : nat :=
  if is_char_boundary l cut then cut else match cut with O => O | S c => cut_back l c end.

(** [utf8_chunks], chunks of at most [max] bytes; each takes at least one
    byte, so the text's length is fuel enough ([chunks_spec]). *)
Fixpoint chunks (max fuel : nat) (rest : list Z) : list (list Z) :=
  match fuel with
  | O => [rest]
  | S fuel =>
    if (length rest <=? max)%nat then [rest]
    else let cut := cut_back rest max in take cut rest :: chunks max fuel (drop cut rest)
  end.
Definition utf8_chunks (text : list Z) : list (list Z) := chunks (Z.to_nat u16_max) (length text) text.

(** One chunk of a run, and what it carries. *)
Definition put_chunk (run : CellRun) (cols : option Z) (chunk : list Z) : list Z :=
  put_str chunk ++ put_color (cr_fg run) ++ put_color (cr_bg run)
  ++ match cols with
     | Some c => [Z.lor (style_bits run) STYLE_HAS_COLS] ++ put_u16 c
     | None => [style_bits run]
     end.
Definition run_cols (run : CellRun) : option Z := if u16_max <? len (cr_text run) then None else cr_cols run.
Definition put_run (run : CellRun) : list (list Z) :=
  (λ chunk, put_chunk run (run_cols run) chunk) <$> utf8_chunks (cr_text run).

(** The run count is patched in at the head once the chunks are known. *)
Definition put_row (row : list CellRun) : list Z :=
  let parts := row ≫= put_run in put_u16 (u16_sat (len parts)) ++ concat parts.
Definition put_rows (rows : list (list CellRun)) : list Z :=
  put_u32 (u32_sat (len rows)) ++ concat (put_row <$> rows).
Definition put_cursor (c : CursorSnapshot) : list Z :=
  put_u16 (u16_sat (cu_row c)) ++ put_u16 (u16_sat (cu_col c)) ++ [Z.b2z (cu_visible c)].
Definition put_header (kind : Z) : list Z := [WIRE_MAGIC; WIRE_VERSION; kind].

Definition mode_bits (s : TermGridSnapshot) : Z :=
  set_bit_if (gs_alt_screen s) MODE_ALT_SCREEN
    (set_bit_if (gs_sgr_mouse s) MODE_SGR_MOUSE (set_bit_if (gs_mouse_report s) MODE_MOUSE_REPORT 0)).

Definition encode_snapshot (s : TermGridSnapshot) : list Z :=
  put_header KIND_SNAPSHOT ++ put_str (gs_pane_id s) ++ put_u16 (u16_sat (gs_cols s)) ++ put_u16 (u16_sat (gs_rows s))
  ++ put_u64 (gs_version s) ++ put_u32 (u32_sat (gs_display_offset s)) ++ put_cursor (gs_cursor s)
  ++ [mode_bits s] ++ put_rows (gs_grid s) ++ put_rows (gs_scrollback s).

Definition put_damaged (dr : DamagedRow) : list Z := put_u16 (u16_sat (dr_row dr)) ++ put_row (dr_runs dr).

Definition encode_delta (d : TermGridDelta) : list Z :=
  put_header KIND_DELTA ++ put_str (gd_pane_id d) ++ put_u16 (u16_sat (gd_cols d)) ++ put_u16 (u16_sat (gd_rows d))
  ++ put_u64 (gd_version d) ++ put_u32 (u32_sat (gd_display_offset d)) ++ put_cursor (gd_cursor d)
  ++ put_u32 (u32_sat (len (gd_damaged_rows d))) ++ concat (put_damaged <$> gd_damaged_rows d)
  ++ put_rows (gd_scrollback_appended d).

(** ** Decoding *)

Inductive WireFrame :=
| WireFrame_Snapshot (s : TermGridSnapshot)
| WireFrame_Delta (d : TermGridDelta).

Definition WireDecodeError : Type := string.

(** A [Reader]: the frame's bytes and the position. *)
Definition Reader (A : Type) : Type := list Z → Z → Result (A * Z) WireDecodeError.

#[export] Instance Reader_ret : MRet Reader := λ A x _ pos, Ok (x, pos).
#[export] Instance Reader_bind : MBind Reader := λ A B k p bs pos,
  match p bs pos with Ok (x, pos') => k x bs pos' | Err e => Err e end.

Definition fail {A} (e : WireDecodeError) : Reader A := λ _ _, Err e.

(** [Reader::take]: the end fits a [usize] and the frame. *)
Definition rd_take (n : Z) : Reader (list Z) := λ bs pos,
  let e := pos + n in
  if (e <=? u64_max) && (e <=? len bs) then Ok (take (Z.to_nat n) (drop (Z.to_nat pos) bs), e)
  else Err ("truncated frame: need " +:+ pretty n +:+ " bytes at offset " +:+ pretty pos).

Definition rd_u8 : Reader Z := b ← rd_take 1; mret (from_le b).
Definition rd_u16 : Reader Z := b ← rd_take 2; mret (from_le b).
Definition rd_u32 : Reader Z := b ← rd_take 4; mret (from_le b).
Definition rd_u64 : Reader Z := b ← rd_take 8; mret (from_le b).
Definition rd_str : Reader (list Z) :=
  n ← rd_u16;
  bs ← rd_take n;
  match utf8_check bs with
  | None => mret bs
  | Some e => fail ("invalid UTF-8 in str: " +:+ utf8_message e)
  end.
Definition rd_color : Reader (option Z) :=
  v ← rd_u32; mret (if v =? COLOR_NONE then None else Some v).
Definition has_bit (bits m : Z) : bool := negb (Z.land bits m =? 0).
Definition rd_run : Reader CellRun :=
  text ← rd_str; fg ← rd_color; bg ← rd_color; bits ← rd_u8;
  cols ← (if has_bit bits STYLE_HAS_COLS then c ← rd_u16; mret (Some c) else mret None);
  mret (mk_CellRun text fg bg (has_bit bits STYLE_BOLD) (has_bit bits STYLE_ITALIC) (has_bit bits STYLE_UNDERLINE)
    (has_bit bits STYLE_INVERSE) (has_bit bits STYLE_DIM) (has_bit bits STYLE_STRIKEOUT)
    (if has_bit bits STYLE_WRAPPED then Some true else None) cols).

(** [for _ in 0..n { out.push(p()?) }]. *)
Fixpoint rd_many {A} (n : nat) (p : Reader A) : Reader (list A) :=
  match n with
  | O => mret []
  | S n => x ← p; xs ← rd_many n p; mret (x :: xs)
  end.
Definition rd_row : Reader (list CellRun) := n ← rd_u16; rd_many (Z.to_nat n) rd_run.
Definition rd_rows : Reader (list (list CellRun)) := n ← rd_u32; rd_many (Z.to_nat n) rd_row.
Definition rd_cursor : Reader CursorSnapshot :=
  row ← rd_u16; col ← rd_u16; visible ← rd_u8; mret (mk_CursorSnapshot row col (negb (visible =? 0))).
Definition rd_damaged : Reader DamagedRow := row ← rd_u16; runs ← rd_row; mret (mk_DamagedRow row runs).

Definition rd_snapshot : Reader WireFrame :=
  pane_id ← rd_str; cols ← rd_u16; rows ← rd_u16; version ← rd_u64; display_offset ← rd_u32;
  cursor ← rd_cursor; mode ← rd_u8; grid ← rd_rows; scrollback ← rd_rows;
  mret (WireFrame_Snapshot (mk_TermGridSnapshot pane_id cols rows grid scrollback cursor version display_offset
    (has_bit mode MODE_MOUSE_REPORT) (has_bit mode MODE_SGR_MOUSE) (has_bit mode MODE_ALT_SCREEN))).
Definition rd_delta : Reader WireFrame :=
  pane_id ← rd_str; cols ← rd_u16; rows ← rd_u16; version ← rd_u64; display_offset ← rd_u32;
  cursor ← rd_cursor; damaged ← rd_u32; damaged_rows ← rd_many (Z.to_nat damaged) rd_damaged;
  scrollback_appended ← rd_rows;
  mret (WireFrame_Delta (mk_TermGridDelta pane_id cols rows damaged_rows scrollback_appended cursor version display_offset)).

(** [{:02x}] of a byte. *)
Definition hex_digit (d : Z) : string :=
  String (ascii_of_nat (Z.to_nat (if d <? 10 then 48 + d else 87 + d))) EmptyString.
Definition hex_byte (b : Z) : string := hex_digit (b / 16) +:+ hex_digit (b mod 16).

Definition rd_frame : Reader WireFrame :=
  magic ← rd_u8;
  if negb (magic =? WIRE_MAGIC) then fail ("bad magic 0x" +:+ hex_byte magic) else
  version ← rd_u8;
  if negb (version =? WIRE_VERSION) then fail ("unsupported wire version " +:+ pretty version) else
  kind ← rd_u8;
  if kind =? KIND_SNAPSHOT then rd_snapshot
  else if kind =? KIND_DELTA then rd_delta
  else fail ("unknown frame kind " +:+ pretty kind).

Definition decode_frame (bs : list Z) : Result WireFrame WireDecodeError :=
  match rd_frame bs 0 with Ok (f, _) => Ok f | Err e => Err e end.

(** ** Lemmas: the reader *)

Section reader.
Context {A B : Type}.

(** [p] reads [v] from the bytes [enc], wherever they stand in a frame. *)
Definition parses (p : Reader A) (v : A) (enc : list Z) : Prop :=
  ∀ pre post, len (pre ++ enc ++ post) ≤ u64_max →
    p (pre ++ enc ++ post) (len pre) = Ok (v, len pre + len enc).
End reader.

(** [p] reads on within the frame, and reads the same from a longer one. *)
Definition extends {A} (p : Reader A) : Prop :=
  ∀ bs post pos v pos', Forall is_byte bs → 0 ≤ pos ≤ len bs → p bs pos = Ok (v, pos') →
    pos ≤ pos' ≤ len bs ∧ (len (bs ++ post) ≤ u64_max → p (bs ++ post) pos = Ok (v, pos')).

Lemma len_app {A} (l k : list A) : len (l ++ k) = len l + len k.
Proof. unfold len. rewrite length_app. lia. Qed.
Lemma len_nonneg {A} (l : list A) : 0 ≤ len l.
Proof. unfold len. lia. Qed.

Lemma parses_ret {A} (v : A) : parses (mret v) v [].
Proof. intros pre post _. unfold mret, Reader_ret, len. cbn [length]. do 2 f_equal. lia. Qed.
Lemma parses_bind {A B} (p : Reader A) (k : A → Reader B) v w e1 e2 :
  parses p v e1 → parses (k v) w e2 → parses (p ≫= k) w (e1 ++ e2).
Proof.
  intros Hp Hk pre post Hl. unfold mbind, Reader_bind.
  specialize (Hp pre (e2 ++ post)). specialize (Hk (pre ++ e1) post).
  rewrite <- !app_assoc in *. rewrite Hp by done. specialize (Hk Hl). rewrite !(len_app pre e1) in Hk. rewrite Hk.
  rewrite len_app. do 2 f_equal. lia.
Qed.
Lemma parses_bind_nil {A B} (p : Reader A) (k : A → Reader B) v w e :
  parses p v e → parses (k v) w [] → parses (p ≫= k) w e.
Proof. intros Hp Hk. rewrite <- (app_nil_r e). by eapply parses_bind. Qed.

Lemma parses_take n e : len e = n → parses (rd_take n) e e.
Proof.
  intros <- pre post Hl. unfold rd_take. rewrite !len_app in *. pose proof (len_nonneg post).
  rewrite !(proj2 (Z.leb_le _ _)) by lia. cbn [andb]. do 2 f_equal.
  unfold len. rewrite !Nat2Z.id. by rewrite drop_app_length, take_app_length.
Qed.

Lemma extends_ret {A} (v : A) : extends (mret v).
Proof. intros bs post pos w pos' _ Hpos [= <- <-]. by split; [lia|]. Qed.
Lemma extends_fail {A} e : extends (fail (A := A) e).
Proof. by intros bs post pos w pos' _ Hpos ?. Qed.
Lemma extends_bind {A B} (p : Reader A) (k : A → Reader B) :
  extends p → (∀ v, extends (k v)) → extends (p ≫= k).
Proof.
  intros Hp Hk bs post pos w pos' Hbs Hpos. unfold mbind, Reader_bind.
  destruct (p bs pos) as [[v q]|] eqn:Hv; [|done]. intros Hw.
  destruct (Hp bs post pos v q Hbs Hpos Hv) as [Hq Hvp].
  destruct (Hk v bs post q w pos') as [Hq' Hwp]; [done|lia|done|]. split; [lia|]. intros Hl. by rewrite Hvp, Hwp.
Qed.
Lemma extends_take n : 0 ≤ n → extends (rd_take n).
Proof.
  intros Hn bs post pos v pos' _ Hpos. unfold rd_take. rewrite len_app. pose proof (len_nonneg post).
  destruct (_ && _) eqn:Hc; [|done]. intros [= <- <-]. bool_props. split; [lia|]. intros Hl.
  rewrite !(proj2 (Z.leb_le _ _)) by lia. cbn [andb]. do 2 f_equal.
  unfold len in *. rewrite drop_app_le by lia. rewrite take_app_le; [done|]. rewrite length_drop. lia.
Qed.
Lemma extends_many {A} n (p : Reader A) : extends p → extends (rd_many n p).
Proof.
  intros Hp. induction n as [|n IH]; cbn [rd_many]; [apply extends_ret|].
  repeat (apply extends_bind; [done|intros ?]). apply extends_ret.
Qed.

(** ** Lemmas: integers and bits *)

Lemma to_le_length n v : length (to_le n v) = n.
Proof. revert v. induction n as [|n IH]; intros v; [done|]. cbn. by rewrite IH. Qed.
Lemma from_to_le n v : 0 ≤ v < 256 ^ Z.of_nat n → from_le (to_le n v) = v.
Proof.
  revert v. induction n as [|n IH]; intros v Hv; [cbn in *; lia|].
  rewrite Nat2Z.inj_succ, Z.pow_succ_r in Hv by lia. cbn [to_le from_le foldr]. fold (from_le (to_le n (v / 256))).
  pose proof (Z.div_mod v 256 ltac:(lia)). pose proof (Z.mod_pos_bound v 256 ltac:(lia)).
  rewrite IH; [lia|]. split; [apply Z.div_pos; lia|apply Z.div_lt_upper_bound; lia].
Qed.

Lemma parses_le n v : 0 ≤ v < 256 ^ Z.of_nat n → parses (b ← rd_take (Z.of_nat n); mret (from_le b)) v (to_le n v).
Proof.
  intros Hv. eapply parses_bind_nil; [apply parses_take; unfold len; by rewrite to_le_length|].
  rewrite from_to_le by done. apply parses_ret.
Qed.
Lemma parses_u8 v : 0 ≤ v < 256 → parses rd_u8 v [v].
Proof.
  intros Hv. replace [v] with (to_le 1 v); [by apply parses_le|]. cbn. by rewrite Z.mod_small.
Qed.
Lemma parses_u16 v : 0 ≤ v ≤ u16_max → parses rd_u16 v (put_u16 v).
Proof. intros Hv. apply (parses_le 2). unfold u16_max in Hv. cbn. lia. Qed.
Lemma parses_u32 v : 0 ≤ v ≤ u32_max → parses rd_u32 v (put_u32 v).
Proof. intros Hv. apply (parses_le 4). unfold u32_max in Hv. cbn. lia. Qed.
Lemma parses_u64 v : 0 ≤ v ≤ u64_max → parses rd_u64 v (put_u64 v).
Proof. intros Hv. apply (parses_le 8). unfold u64_max in Hv. cbn. lia. Qed.
Lemma parses_u16_sat v : 0 ≤ v ≤ u16_max → parses rd_u16 v (put_u16 (u16_sat v)).
Proof. intros Hv. unfold u16_sat. rewrite Z.min_l by lia. by apply parses_u16. Qed.
Lemma parses_u32_sat v : 0 ≤ v ≤ u32_max → parses rd_u32 v (put_u32 (u32_sat v)).
Proof. intros Hv. unfold u32_sat. rewrite Z.min_l by lia. by apply parses_u32. Qed.

Lemma parses_str s : utf8_ok s → len s ≤ u16_max → parses rd_str s (put_str s).
Proof.
  intros Hs Hl. unfold put_str, rd_str. eapply parses_bind; [apply parses_u16_sat; pose proof (len_nonneg s); lia|].
  eapply parses_bind_nil; [by apply parses_take|]. rewrite Hs. apply parses_ret.
Qed.
Lemma parses_color c : (∀ v, c = Some v → 0 ≤ v < COLOR_NONE) → parses rd_color c (put_color c).
Proof.
  intros Hc. unfold put_color, rd_color. destruct c as [v|]; cbn [default from_option id].
  - specialize (Hc v eq_refl). unfold COLOR_NONE in Hc.
    eapply parses_bind_nil; [apply parses_u32; unfold u32_max; lia|].
    rewrite (proj2 (Z.eqb_neq v COLOR_NONE)) by (unfold COLOR_NONE; lia). apply parses_ret.
  - eapply parses_bind_nil; [by apply parses_u32|]. apply parses_ret.
Qed.
Lemma parses_many {A} (p : Reader A) vs es :
  Forall2 (parses p) vs es → parses (rd_many (length vs) p) vs (concat es).
Proof.
  induction 1 as [|v e vs es Hv _ IH]; cbn [length rd_many concat]; [apply parses_ret|].
  eapply parses_bind; [done|]. eapply parses_bind_nil; [done|]. apply parses_ret.
Qed.

(** The bits of a style byte are the run's flags. *)
Lemma style_bits_spec run b :
  0 ≤ style_bits run < 128
  ∧ let bits := if (b : bool) then Z.lor (style_bits run) STYLE_HAS_COLS else style_bits run in
  0 ≤ bits < 256 ∧ has_bit bits STYLE_HAS_COLS = b
  ∧ has_bit bits STYLE_BOLD = cr_bold run ∧ has_bit bits STYLE_ITALIC = cr_italic run
  ∧ has_bit bits STYLE_UNDERLINE = cr_underline run ∧ has_bit bits STYLE_INVERSE = cr_inverse run
  ∧ has_bit bits STYLE_DIM = cr_dim run ∧ has_bit bits STYLE_STRIKEOUT = cr_strikeout run
  ∧ has_bit bits STYLE_WRAPPED = opt_eqb Bool.eqb (cr_wrapped run) (Some true).
Proof.
  destruct run as [t fg bg [] [] [] [] [] [] w cols]; unfold style_bits; cbn [cr_bold cr_italic cr_underline cr_inverse
    cr_dim cr_strikeout cr_wrapped]; destruct (opt_eqb Bool.eqb w (Some true)), b; vm_compute; split_and!; done.
Qed.

(** ** Lemmas: the chunks of a text *)

Lemma cut_back_spec l cut :
  is_char_boundary l (cut_back l cut) = true ∧ (cut_back l cut ≤ cut)%nat
  ∧ ∀ c, (c ≤ cut)%nat → is_char_boundary l c = true → (c ≤ cut_back l cut)%nat.
Proof.
  induction cut as [|cut (H1&H2&H3)]; [by split_and!; [| |intros c Hc _]|]. cbn [cut_back].
  destruct (is_char_boundary l (S cut)) eqn:Hb; [split_and!; [done|lia|intros c Hc _; lia]|].
  split_and!; [done|lia|]. intros c Hc Hbc. apply H3; [|done].
  destruct (decide (c = S cut)) as [->|]; [congruence|lia].
Qed.

(** The chunks of a text: valid, short enough, the text in order, and the
    text itself when it is short enough. *)
Lemma chunks_spec max fuel text :
  (4 ≤ max)%nat → (length text ≤ fuel)%nat → Utf8 text →
  Forall (λ c, Utf8 c ∧ (length c ≤ max)%nat) (chunks max fuel text) ∧ concat (chunks max fuel text) = text
  ∧ ((length text ≤ max)%nat → chunks max fuel text = [text]) ∧ chunks max fuel text ≠ [].
Proof.
  intros Hmax. revert text. induction fuel as [|fuel IH]; intros text Hf Hu; cbn [chunks].
  { destruct text; [|cbn in Hf; lia]. split_and!; [repeat constructor; cbn; lia|done|done|done]. }
  destruct (Nat.leb_spec (length text) max) as [Hl|Hl].
  { split_and!; [by repeat constructor|apply app_nil_r|done|done]. }
  destruct (cut_back_spec text max) as (Hb&Hle&Hge).
  destruct (boundary_near text max Hu ltac:(lia)) as (c&Hc&Hbc). specialize (Hge c ltac:(lia) Hbc).
  destruct (utf8_split text (cut_back text max) Hu ltac:(lia) Hb) as [Ht Hd].
  destruct (IH (drop (cut_back text max) text)) as (H1&H2&_&_); [rewrite length_drop; lia|done|].
  split_and!; [|cbn; by rewrite H2, take_drop|lia|done].
  constructor; [|done]. split; [done|]. rewrite length_take. lia.
Qed.

(** ** Frames that fit the format *)

(** What a run becomes on the wire: its chunks, each with its style. *)
Definition split_run (run : CellRun) : list CellRun :=
  (λ chunk, mk_CellRun chunk (cr_fg run) (cr_bg run) (cr_bold run) (cr_italic run) (cr_underline run)
    (cr_inverse run) (cr_dim run) (cr_strikeout run) (cr_wrapped run) (run_cols run)) <$> utf8_chunks (cr_text run).
Definition split_row (row : list CellRun) : list CellRun := row ≫= split_run.
Definition split_damaged (d : DamagedRow) : DamagedRow := mk_DamagedRow (dr_row d) (split_row (dr_runs d)).
Definition split_snapshot (s : TermGridSnapshot) : TermGridSnapshot :=
  mk_TermGridSnapshot (gs_pane_id s) (gs_cols s) (gs_rows s) (split_row <$> gs_grid s) (split_row <$> gs_scrollback s)
    (gs_cursor s) (gs_version s) (gs_display_offset s) (gs_mouse_report s) (gs_sgr_mouse s) (gs_alt_screen s).
Definition split_delta (d : TermGridDelta) : TermGridDelta :=
  mk_TermGridDelta (gd_pane_id d) (gd_cols d) (gd_rows d) (split_damaged <$> gd_damaged_rows d)
    (split_row <$> gd_scrollback_appended d) (gd_cursor d) (gd_version d) (gd_display_offset d).

Definition color_ok (c : option Z) : Prop := ∀ v, c = Some v → 0 ≤ v ≤ 0xFFFFFF.

Record run_ok (r : CellRun) : Prop := {
  ro_text : utf8_ok (cr_text r);
  ro_fg : color_ok (cr_fg r);
  ro_bg : color_ok (cr_bg r);
  ro_wrapped : cr_wrapped r ≠ Some false;
  ro_cols : ∀ c, cr_cols r = Some c → 0 ≤ c ≤ u16_max;
}.
Definition row_ok (row : list CellRun) : Prop := Forall run_ok row ∧ len (split_row row) ≤ u16_max.
Definition rows_ok (rows : list (list CellRun)) : Prop := Forall row_ok rows ∧ len rows ≤ u32_max.
Definition geometry_ok (cols rows version display_offset : Z) (c : CursorSnapshot) : Prop :=
  0 ≤ cols ≤ u16_max ∧ 0 ≤ rows ≤ u16_max ∧ 0 ≤ version ≤ u64_max ∧ 0 ≤ display_offset ≤ u32_max
  ∧ 0 ≤ cu_row c ≤ u16_max ∧ 0 ≤ cu_col c ≤ u16_max.
Definition pane_ok (pane_id : list Z) : Prop := utf8_ok pane_id ∧ len pane_id ≤ u16_max.

Definition snapshot_ok (s : TermGridSnapshot) : Prop :=
  pane_ok (gs_pane_id s) ∧ geometry_ok (gs_cols s) (gs_rows s) (gs_version s) (gs_display_offset s) (gs_cursor s)
  ∧ rows_ok (gs_grid s) ∧ rows_ok (gs_scrollback s).
Definition delta_ok (d : TermGridDelta) : Prop :=
  pane_ok (gd_pane_id d) ∧ geometry_ok (gd_cols d) (gd_rows d) (gd_version d) (gd_display_offset d) (gd_cursor d)
  ∧ Forall (λ r, 0 ≤ dr_row r ≤ u16_max ∧ row_ok (dr_runs r)) (gd_damaged_rows d) ∧ len (gd_damaged_rows d) ≤ u32_max
  ∧ rows_ok (gd_scrollback_appended d).

(** ** Lemmas: round trips *)

Lemma utf8_chunks_spec text :
  utf8_ok text →
  Forall (λ c, utf8_ok c ∧ len c ≤ u16_max) (utf8_chunks text) ∧ concat (utf8_chunks text) = text
  ∧ (len text ≤ u16_max → utf8_chunks text = [text]) ∧ utf8_chunks text ≠ [].
Proof.
  rewrite utf8_ok_iff. intros Hu. unfold utf8_chunks.
  destruct (chunks_spec (Z.to_nat u16_max) (length text) text) as (H1&H2&H3&H4); [unfold u16_max; lia|lia|done|].
  split_and!; [|done|intros Hl; apply H3; unfold len in Hl; lia|done].
  eapply Forall_impl; [exact H1|]. intros c [Hc Hl]. rewrite utf8_ok_iff. split; [done|]. unfold len, u16_max in *. lia.
Qed.

Lemma run_cols_ok r c : run_ok r → run_cols r = Some c → 0 ≤ c ≤ u16_max.
Proof. intros Hr. unfold run_cols. case_match; [done|]. apply Hr. Qed.

Lemma parses_chunk r chunk :
  run_ok r → utf8_ok chunk → len chunk ≤ u16_max →
  parses rd_run (mk_CellRun chunk (cr_fg r) (cr_bg r) (cr_bold r) (cr_italic r) (cr_underline r)
    (cr_inverse r) (cr_dim r) (cr_strikeout r) (cr_wrapped r) (run_cols r)) (put_chunk r (run_cols r) chunk).
Proof.
  intros Hr Hc Hl. unfold rd_run, put_chunk.
  assert (∀ c v, color_ok c → c = Some v → 0 ≤ v < COLOR_NONE) as Hcol
    by (intros c v Hok Hv; specialize (Hok v Hv); unfold COLOR_NONE; lia).
  eapply parses_bind; [by apply parses_str|].
  eapply parses_bind; [apply parses_color; intros v; apply Hcol, Hr|].
  eapply parses_bind; [apply parses_color; intros v; apply Hcol, Hr|].
  assert ((if opt_eqb Bool.eqb (cr_wrapped r) (Some true) then Some true else None) = cr_wrapped r) as Hwr
    by (pose proof (ro_wrapped r Hr); destruct (cr_wrapped r) as [[]|]; done).
  destruct (run_cols r) as [c|] eqn:Hcols.
  - pose proof (run_cols_ok r c Hr Hcols).
    destruct (style_bits_spec r true) as (_&Hb&H1&H2&H3&H4&H5&H6&H7&H8).
    eapply parses_bind; [by apply parses_u8|]. rewrite H1. eapply parses_bind_nil.
    + eapply parses_bind_nil; [by apply parses_u16|apply parses_ret].
    + rewrite H2, H3, H4, H5, H6, H7, H8, Hwr. apply parses_ret.
  - destruct (style_bits_spec r false) as (_&Hb&H1&H2&H3&H4&H5&H6&H7&H8).
    eapply parses_bind_nil; [by apply parses_u8|]. rewrite H1.
    eapply (parses_bind _ _ _ _ [] []); [apply parses_ret|]. rewrite H2, H3, H4, H5, H6, H7, H8, Hwr. apply parses_ret.
Qed.

Lemma parses_run_parts r :
  run_ok r → Forall2 (parses rd_run) (split_run r) (put_run r).
Proof.
  intros Hr. unfold split_run, put_run. apply Forall2_fmap_l, Forall2_fmap_r, Forall_Forall2_diag.
  destruct (utf8_chunks_spec (cr_text r)) as (Hc&_); [apply Hr|].
  eapply Forall_impl; [exact Hc|]. intros chunk [? ?]. by apply parses_chunk.
Qed.
Lemma parses_row row : row_ok row → parses rd_row (split_row row) (put_row row).
Proof.
  intros [Hr Hl]. unfold put_row.
  assert (Forall2 (parses rd_run) (split_row row) (row ≫= put_run)) as Hall.
  { clear Hl. induction Hr as [|r row Hr _ IH]; [constructor|]. cbn. apply Forall2_app; [by apply parses_run_parts|done]. }
  assert (len (row ≫= put_run) = len (split_row row)) as Hlen by (unfold len; by rewrite (Forall2_length _ _ _ Hall)).
  eapply parses_bind; [apply parses_u16_sat; rewrite Hlen; pose proof (len_nonneg (split_row row)); lia|].
  rewrite Hlen. unfold len. rewrite Nat2Z.id. by apply parses_many.
Qed.
Lemma parses_rows rows : rows_ok rows → parses rd_rows (split_row <$> rows) (put_rows rows).
Proof.
  intros [Hr Hl]. unfold put_rows. eapply parses_bind; [apply parses_u32_sat; pose proof (len_nonneg rows); lia|].
  unfold len. rewrite Nat2Z.id, <- (length_fmap split_row rows). apply parses_many.
  apply Forall2_fmap_l, Forall2_fmap_r, Forall_Forall2_diag. eapply Forall_impl; [exact Hr|]. apply parses_row.
Qed.
Lemma parses_cursor c :
  0 ≤ cu_row c ≤ u16_max → 0 ≤ cu_col c ≤ u16_max → parses rd_cursor c (put_cursor c).
Proof.
  intros Hr Hc. unfold put_cursor. eapply parses_bind; [by apply parses_u16_sat|].
  eapply parses_bind; [by apply parses_u16_sat|].
  eapply parses_bind_nil; [apply parses_u8; destruct (cu_visible c); cbn; lia|].
  replace (negb (Z.b2z (cu_visible c) =? 0)) with (cu_visible c) by (by destruct (cu_visible c)). destruct c. apply parses_ret.
Qed.
Lemma mode_bits_spec s :
  0 ≤ mode_bits s < 256 ∧ has_bit (mode_bits s) MODE_MOUSE_REPORT = gs_mouse_report s
  ∧ has_bit (mode_bits s) MODE_SGR_MOUSE = gs_sgr_mouse s ∧ has_bit (mode_bits s) MODE_ALT_SCREEN = gs_alt_screen s.
Proof. unfold mode_bits. destruct (gs_alt_screen s), (gs_sgr_mouse s), (gs_mouse_report s); vm_compute; split_and!; done. Qed.

(** The header, then the body of its kind. *)
Lemma parses_frame kind body f enc :
  kind = KIND_SNAPSHOT ∧ body = rd_snapshot ∨ kind = KIND_DELTA ∧ body = rd_delta →
  parses body f enc → parses rd_frame f (put_header kind ++ enc).
Proof.
  intros Hk Hb. unfold rd_frame, put_header.
  eapply (parses_bind _ _ _ _ [WIRE_MAGIC] _); [by apply parses_u8|]. cbn [negb Z.eqb Pos.eqb WIRE_MAGIC].
  eapply (parses_bind _ _ _ _ [WIRE_VERSION] _); [by apply parses_u8|]. cbn [negb Z.eqb Pos.eqb WIRE_VERSION].
  eapply (parses_bind _ _ _ _ [kind] _); [apply parses_u8; by destruct Hk as [[-> _]|[-> _]]|].
  by destruct Hk as [[-> ->]|[-> ->]].
Qed.

Lemma parses_snapshot s :
  snapshot_ok s → parses rd_frame (WireFrame_Snapshot (split_snapshot s)) (encode_snapshot s).
Proof.
  intros ((Hp&Hpl)&(Hc&Hr&Hv&Hd&Hcr&Hcc)&Hg&Hs). apply parses_frame with rd_snapshot; [by left|]. unfold rd_snapshot.
  eapply parses_bind; [by apply parses_str|]. eapply parses_bind; [by apply parses_u16_sat|].
  eapply parses_bind; [by apply parses_u16_sat|]. eapply parses_bind; [by apply parses_u64|].
  eapply parses_bind; [by apply parses_u32_sat|]. eapply parses_bind; [by apply parses_cursor|].
  destruct (mode_bits_spec s) as (Hm&H1&H2&H3).
  eapply parses_bind; [by apply parses_u8|]. eapply parses_bind; [by apply parses_rows|].
  eapply parses_bind_nil; [by apply parses_rows|]. rewrite H1, H2, H3. apply parses_ret.
Qed.
Lemma parses_delta d :
  delta_ok d → parses rd_frame (WireFrame_Delta (split_delta d)) (encode_delta d).
Proof.
  intros ((Hp&Hpl)&(Hc&Hr&Hv&Hd&Hcr&Hcc)&Hdr&Hdl&Hs). apply parses_frame with rd_delta; [by right|]. unfold rd_delta.
  eapply parses_bind; [by apply parses_str|]. eapply parses_bind; [by apply parses_u16_sat|].
  eapply parses_bind; [by apply parses_u16_sat|]. eapply parses_bind; [by apply parses_u64|].
  eapply parses_bind; [by apply parses_u32_sat|]. eapply parses_bind; [by apply parses_cursor|].
  eapply parses_bind; [apply parses_u32_sat; pose proof (len_nonneg (gd_damaged_rows d)); lia|].
  eapply parses_bind.
  { unfold len. rewrite Nat2Z.id, <- (length_fmap split_damaged (gd_damaged_rows d)). apply parses_many.
    apply Forall2_fmap_l, Forall2_fmap_r, Forall_Forall2_diag. eapply Forall_impl; [exact Hdr|].
    intros dr [Hrow Hruns]. unfold rd_damaged, put_damaged. eapply parses_bind; [by apply parses_u16_sat|].
    eapply parses_bind_nil; [by apply parses_row|]. apply parses_ret. }
  eapply parses_bind_nil; [by apply parses_rows|]. apply parses_ret.
Qed.

(** ** Lemmas: reading on *)

Lemma extends_le n : extends (b ← rd_take (Z.of_nat n); mret (from_le b)).
Proof. apply extends_bind; [apply extends_take; lia|intros ?; apply extends_ret]. Qed.

(** Like [extends_bind], for a value that the first reader keeps in range. *)
Lemma extends_bind_if {A B} (P : A → Prop) (p : Reader A) (k : A → Reader B) :
  (∀ bs pos v q, Forall is_byte bs → p bs pos = Ok (v, q) → P v) → extends p → (∀ v, P v → extends (k v)) →
  extends (p ≫= k).
Proof.
  intros HP Hp Hk bs post pos w pos' Hbs Hpos. unfold mbind, Reader_bind.
  destruct (p bs pos) as [[v q]|] eqn:Hv; [|done]. intros Hw.
  destruct (Hp bs post pos v q Hbs Hpos Hv) as [Hq Hvp].
  destruct (Hk v (HP _ _ _ _ Hbs Hv) bs post q w pos') as [Hq' Hwp]; [done|lia|done|].
  split; [lia|]. intros Hl. by rewrite Hvp, Hwp.
Qed.

Lemma from_le_nonneg l : Forall is_byte l → 0 ≤ from_le l.
Proof. unfold is_byte. induction 1 as [|b l Hb _ IH]; cbn; [lia|]. fold (from_le l). lia. Qed.
Lemma rd_u16_nonneg bs pos v q : Forall is_byte bs → rd_u16 bs pos = Ok (v, q) → 0 ≤ v.
Proof.
  intros Hbs. unfold rd_u16, mbind, Reader_bind, rd_take. case_match; [|done]. case_match; [|done]. simplify_eq.
  intros [= <- <-]. apply from_le_nonneg. by apply Forall_take, Forall_drop.
Qed.

Lemma extends_str : extends rd_str.
Proof.
  apply extends_bind_if with (λ n, 0 ≤ n); [apply rd_u16_nonneg|apply (extends_le 2)|]. intros n Hn.
  apply extends_bind; [by apply extends_take|]. intros bs. case_match; [apply extends_fail|apply extends_ret].
Qed.

(** Solve [extends] by following the reader's binds. *)
Ltac reads :=
  repeat first
    [ apply extends_ret | apply extends_fail | apply extends_str
    | apply (extends_le 1) | apply (extends_le 2) | apply (extends_le 4) | apply (extends_le 8)
    | apply extends_many
    | match goal with |- extends (if ?c then _ else _) => destruct c end
    | apply extends_bind; [|intros ?] ].

Lemma extends_run : extends rd_run.
Proof. unfold rd_run, rd_color. reads. Qed.
Lemma extends_row : extends rd_row.
Proof. unfold rd_row. reads. Qed.
Lemma extends_rows : extends rd_rows.
Proof. unfold rd_rows. reads. Qed.
Lemma extends_cursor : extends rd_cursor.
Proof. unfold rd_cursor. reads. Qed.
Lemma extends_damaged : extends rd_damaged.
Proof. unfold rd_damaged. reads. Qed.
Lemma extends_frame : extends rd_frame.
Proof.
  unfold rd_frame, rd_snapshot, rd_delta.
  reads; first [apply extends_cursor|apply extends_rows|apply extends_damaged].
Qed.

(** ** Properties *)

Lemma split_row_short row : Forall (λ r, utf8_ok (cr_text r) ∧ len (cr_text r) ≤ u16_max) row → split_row row = row.
Proof.
  induction 1 as [|r row [Hu Hl] _ IH]; [done|]. unfold split_row in *. cbn [mbind list_bind]. rewrite IH.
  unfold split_run, run_cols. destruct (utf8_chunks_spec (cr_text r) Hu) as (_&_&->&_); [|done].
  rewrite (proj2 (Z.ltb_ge _ _)) by lia. by destruct r.
Qed.

(** Every run of a row short enough for a string field. *)
Definition rows_short (rows : list (list CellRun)) : Prop :=
  Forall (Forall (λ r, utf8_ok (cr_text r) ∧ len (cr_text r) ≤ u16_max)) rows.

Lemma split_rows_short rows : rows_short rows → split_row <$> rows = rows.
Proof. induction 1 as [|row rows Hr _ IH]; [done|]. cbn. by rewrite split_row_short, IH. Qed.

(** (C7) Decoding undoes encoding: a snapshot or delta whose sizes fit the format
    comes back the same, whatever bytes follow the frame; a run too long for
    a string field comes back as its chunks. *)
Theorem k1_roundtrip s d post :
  (snapshot_ok s → len (encode_snapshot s ++ post) ≤ u64_max →
    decode_frame (encode_snapshot s ++ post) = Ok (WireFrame_Snapshot (split_snapshot s))
    ∧ (rows_short (gs_grid s) → rows_short (gs_scrollback s) → split_snapshot s = s))
  ∧ (delta_ok d → len (encode_delta d ++ post) ≤ u64_max →
    decode_frame (encode_delta d ++ post) = Ok (WireFrame_Delta (split_delta d))
    ∧ (rows_short (dr_runs <$> gd_damaged_rows d) → rows_short (gd_scrollback_appended d) → split_delta d = d)).
Proof.
  split; intros Hok Hl; split.
  - unfold decode_frame. pose proof (parses_snapshot s Hok [] post Hl) as H. cbn [app] in H. change (len (@nil Z)) with 0 in H. by rewrite H.
  - intros Hg Hs. unfold split_snapshot. rewrite !split_rows_short by done. by destruct s.
  - unfold decode_frame. pose proof (parses_delta d Hok [] post Hl) as H. cbn [app] in H. change (len (@nil Z)) with 0 in H. by rewrite H.
  - intros Hg Hs. unfold split_delta. rewrite (split_rows_short (gd_scrollback_appended d)) by done.
    replace (split_damaged <$> gd_damaged_rows d) with (gd_damaged_rows d); [by destruct d|].
    destruct d as [pid c r dr sb cu v dof]. cbn in *. clear Hok Hl Hs.
    unfold rows_short in Hg. induction dr as [|[row runs] dr IH]; [done|]. cbn in Hg |- *.
    inversion Hg as [|? ? Hr Hg']; subst. rewrite <- IH by done. unfold split_damaged. cbn. by rewrite split_row_short.
Qed.

(** Splitting a long run shows the same text: its chunks are valid UTF-8,
    short enough for a string field, never none, carry the run's style, and
    concatenate to its text; only the column span is dropped. *)
Theorem split_run_same_text r :
  utf8_ok (cr_text r) →
  split_run r ≠ [] ∧ concat (cr_text <$> split_run r) = cr_text r
  ∧ Forall (λ c, utf8_ok (cr_text c) ∧ len (cr_text c) ≤ u16_max ∧ style_bits c = style_bits r
      ∧ cr_fg c = cr_fg r ∧ cr_bg c = cr_bg r
      ∧ cr_cols c = if u16_max <? len (cr_text r) then None else cr_cols r) (split_run r).
Proof.
  intros Hu. destruct (utf8_chunks_spec (cr_text r) Hu) as (Hall&Hcat&_&Hne). unfold split_run. split_and!.
  - by destruct (utf8_chunks (cr_text r)).
  - rewrite <- list_fmap_compose. unfold compose. cbn. by rewrite list_fmap_id.
  - apply Forall_fmap. eapply Forall_impl; [exact Hall|]. by intros c [Hc Hl].
Qed.

(** A cut-off frame is refused: no strict prefix of an encoded snapshot or
    delta decodes. *)
Theorem k1_prefix_rejected enc f n :
  (∃ s, snapshot_ok s ∧ enc = encode_snapshot s ∧ f = WireFrame_Snapshot (split_snapshot s))
  ∨ (∃ d, delta_ok d ∧ enc = encode_delta d ∧ f = WireFrame_Delta (split_delta d)) →
  Forall is_byte enc → len enc ≤ u64_max → (n < length enc)%nat →
  ∃ e, decode_frame (take n enc) = Err e.
Proof.
  intros Hf Hb Hl Hn.
  assert (rd_frame enc 0 = Ok (f, len enc)) as Hok.
  { assert (parses rd_frame f enc) as Hp
      by (destruct Hf as [(s&Hs&->&->)|(d&Hd&->&->)]; [by apply parses_snapshot|by apply parses_delta]).
    specialize (Hp [] []). rewrite app_nil_r in Hp. by apply Hp. }
  unfold decode_frame. destruct (rd_frame (take n enc) 0) as [[g p]|e] eqn:Hg; [|by exists e].
  exfalso. apply (extends_frame _ (drop n enc)) in Hg as [Hp Hg]; [|by apply Forall_take|pose proof (len_nonneg (take n enc)); lia].
  rewrite take_drop in Hg. rewrite Hg in Hok by done. injection Hok as -> ->.
  unfold len in Hp. rewrite length_take in Hp. lia.
Qed.

(** ** Examples *)

Definition wire_run (text : list Z) (fg : option Z) (cols : option Z) : CellRun :=
  mk_CellRun text fg None true false false false false false (Some true) cols.
Definition wire_snapshot : TermGridSnapshot :=
  mk_TermGridSnapshot (bytes "p1") 80 24
    [[wire_run (bytes "ab") (Some 0xCD0000) None]; [wire_run [0xE6; 0x97; 0xA5] None (Some 2)]; []] []
    (mk_CursorSnapshot 1 2 true) 7 0 true false true.
Definition wire_delta : TermGridDelta :=
  mk_TermGridDelta (bytes "p1") 80 24 [mk_DamagedRow 3 [wire_run (bytes "x") None None]] [] (mk_CursorSnapshot 1 2 true) 8 0.

Lemma wire_run_ok text fg cols :
  utf8_ok text → color_ok fg → (∀ c, cols = Some c → 0 ≤ c ≤ u16_max) → run_ok (wire_run text fg cols).
Proof. by constructor. Qed.

Lemma wire_row_ok text fg cols :
  utf8_ok text → len text ≤ u16_max → color_ok fg → (∀ c, cols = Some c → 0 ≤ c ≤ u16_max) → row_ok [wire_run text fg cols].
Proof.
  intros. split; [by apply Forall_singleton, wire_run_ok|].
  rewrite split_row_short; [done|by apply Forall_singleton].
Qed.
Lemma wire_snapshot_ok : snapshot_ok wire_snapshot.
Proof.
  split_and!; try (cbn; lia); try done. split; [|done].
  repeat apply Forall_cons_2; [| |by split|constructor].
  - apply wire_row_ok; [done|done|intros v [= <-]; lia|done].
  - apply wire_row_ok; [done|done|done|intros v [= <-]; unfold u16_max; lia].
Qed.
Lemma wire_delta_ok : delta_ok wire_delta.
Proof.
  split_and!; try (cbn; lia); try done. apply Forall_singleton. split; [cbn; unfold u16_max; lia|].
  by apply wire_row_ok.
Qed.

Lemma k1_roundtrip_witness :
  decode_frame (encode_snapshot wire_snapshot ++ [0; 1]) = Ok (WireFrame_Snapshot wire_snapshot)
  ∧ decode_frame (encode_delta wire_delta ++ [0; 1]) = Ok (WireFrame_Delta wire_delta).
Proof.
  destruct (k1_roundtrip wire_snapshot wire_delta [0; 1]) as [Hs Hd].
  destruct (Hs wire_snapshot_ok) as [H1 H2]; [vm_compute; discriminate|].
  destruct (Hd wire_delta_ok) as [H3 H4]; [vm_compute; discriminate|].
  rewrite H1, H3, H2, H4; [done| | | |]; repeat constructor; vm_compute; done.
Defined.

Lemma split_run_same_text_witness :
  concat (cr_text <$> split_run (wire_run (bytes "ab") None None)) = bytes "ab".
Proof. exact (proj1 (proj2 (split_run_same_text (wire_run (bytes "ab") None None) eq_refl))). Defined.

Lemma k1_prefix_rejected_witness :
  ∃ e, decode_frame (take 40 (encode_snapshot wire_snapshot)) = Err e.
Proof.
  apply (k1_prefix_rejected (encode_snapshot wire_snapshot) (WireFrame_Snapshot (split_snapshot wire_snapshot)) 40).
  - left. exists wire_snapshot. exact (conj wire_snapshot_ok (conj eq_refl eq_refl)).
  - vm_compute. repeat constructor; done.
  - vm_compute. discriminate.
  - vm_compute. lia.
Defined.
