(* ===== verification/Ptyd.v ===== *)
(** * The PTY daemon's output ring and framing

    [crates/k2-ptyd/src/ring.rs]: a session's output, kept to a cap, at
    monotonic offsets. [crates/k2-ptyd/src/proto.rs]: length-prefixed frames
    and their incremental decoder. JSON itself ([serde_json]) is not under
    [src/]: a frame is the bytes it serializes to. *)

From S2P Require Import Prelude.
Open Scope Z_scope.

(** ** The ring ([ring.rs]) *)

Definition DEFAULT_RING : Z := Z.shiftl 4 20.
Definition MIN_RING : Z := Z.shiftl 256 10.
Definition MAX_RING : Z := Z.shiftl 64 20.
Definition TOTAL_CAP : Z := Z.shiftl 512 20.
Definition GROW_STEP : Z := Z.shiftl 64 10.

Definition clamp_ring (requested : option Z) : Z :=
  match requested with
  | None => DEFAULT_RING
  | Some n => Z.max (Z.min n MAX_RING) MIN_RING
  end.

(** [rg_start] is the offset of the first byte kept. *)
Record Ring := mk_Ring {
  rg_cap : Z;
  rg_buf : list Z;
  rg_start : Z;
}.


Definition Ring_new (cap : Z) : Ring := mk_Ring cap [] 0.
Definition Ring_end (r : Ring) : Z := u64 (rg_start r + zlen (rg_buf r)).
Definition Ring_len (r : Ring) : Z := zlen (rg_buf r).
Definition Ring_is_empty (r : Ring) : bool := match rg_buf r with [] => true | _ => false end.

Definition Ring_restore (cap start : Z) (data : list Z) : Ring :=
  let over := u64_sat_sub (zlen data) cap in
  if 0 <? over then mk_Ring cap (zdrop over data) (u64 (start + over)) else mk_Ring cap data start.

(** The capacity [reserve] asks for, if it grows a buffer of [capacity]. *)
Definition reserve_target (cap capacity want : Z) : option Z :=
  if capacity <? want then Some (Z.min ((want + GROW_STEP - 1) / GROW_STEP * GROW_STEP) (Z.max cap want)) else None.

Definition Ring_push (r : Ring) (bs : list Z) : Ring :=
  if rg_cap r <=? zlen bs then
    let skip := zlen bs - rg_cap r in
    mk_Ring (rg_cap r) (zdrop skip bs) (u64 (rg_start r + (zlen (rg_buf r) + skip)))
  else
    let over := u64_sat_sub (zlen (rg_buf r) + zlen bs) (rg_cap r) in
    let '(buf, start) :=
      if 0 <? over then (zdrop over (rg_buf r), u64 (rg_start r + over)) else (rg_buf r, rg_start r) in
    mk_Ring (rg_cap r) (buf ++ bs) start.

Definition trim_front (r : Ring) (n : Z) : Ring :=
  let n := Z.min n (zlen (rg_buf r)) in
  mk_Ring (rg_cap r) (zdrop n (rg_buf r)) (u64 (rg_start r + n)).

(** [slices_from]; [wrap] is where the deque's storage wraps, which
    [as_slices] splits at. *)
Definition slices_from (r : Ring) (wrap : nat) (from : Z) : list Z * list Z :=
  let from := Z.min (Z.max from (rg_start r)) (Ring_end r) in
  let skip := from - rg_start r in
  let '(a, b) := (take wrap (rg_buf r), drop wrap (rg_buf r)) in
  if zlen a <=? skip then (zdrop (skip - zlen a) b, []) else (zdrop skip a, b).
Definition copy_from (r : Ring) (wrap : nat) (from : Z) : list Z :=
  let '(a, b) := slices_from r wrap from in a ++ b.

(** ** Framing ([proto.rs]) *)

Definition MAX_FRAME : Z := Z.shiftl 1 20.

(** [to_be_bytes] and [from_be_bytes] of a [u32]. *)
Definition be32 (v : Z) : list Z := [v / 2 ^ 24 mod 256; v / 2 ^ 16 mod 256; v / 2 ^ 8 mod 256; v mod 256].
Definition of_be32 (a b c d : Z) : Z := a * 2 ^ 24 + b * 2 ^ 16 + c * 2 ^ 8 + d.

(** [encode], of the JSON bytes. *)
Definition frame_encode (json : list Z) : Result (list Z) string :=
  guard MAX_FRAME <? zlen json ret Err "frame_too_large";
  Ok (be32 (zlen json) ++ json).

Inductive FrameError := FrameError_TooLarge.

(** A [FrameDecoder] is its buffer. *)
Definition decoder_push (buf bs : list Z) : list Z := buf ++ bs.
Definition next_frame (buf : list Z) : Result (option (list Z)) FrameError * list Z :=
  match buf with
  | a :: b :: c :: d :: rest =>
    let n := of_be32 a b c d in
    guard MAX_FRAME <? n ret (Err FrameError_TooLarge, buf);
    guard zlen rest <? n ret (Ok None, buf);
    (Ok (Some (take (Z.to_nat n) rest)), zdrop n rest)
  | _ => (Ok None, buf)
  end.
Definition take_rest (buf : list Z) : list Z * list Z := (buf, []).

(** [read_frame] on the bytes a blocking reader still has: the JSON bytes
    and what is left, or [UnexpectedEof]. *)
Inductive ReadError := Read_Eof | Read_TooLarge.
Definition read_frame (input : list Z) : Result (list Z * list Z) ReadError :=
  match input with
  | a :: b :: c :: d :: rest =>
    let n := of_be32 a b c d in
    guard MAX_FRAME <? n ret Err Read_TooLarge;
    guard zlen rest <? n ret Err Read_Eof;
    Ok (take (Z.to_nat n) rest, zdrop n rest)
  | _ => Err Read_Eof
  end.

(** ** Lemmas: the ring is the tail of its stream *)

(** The ring holds the end of the stream [hist] that went into it. *)
Record ring_of (r : Ring) (hist : list Z) : Prop := {
  ro_start : 0 ≤ rg_start r;
  ro_buf : rg_buf r = zdrop (rg_start r) hist;
  ro_end : rg_start r + zlen (rg_buf r) = zlen hist;
  ro_cap : zlen (rg_buf r) ≤ rg_cap r;
}.

Lemma ring_trim r hist n :
  0 ≤ n → zlen hist < 2 ^ 64 → ring_of r hist → ring_of (trim_front r n) hist.
Proof.
  intros Hn Hh [Hs Hb He Hc]. unfold trim_front. set (k := Z.min n _).
  pose proof (zlen_nonneg (rg_buf r)). assert (0 ≤ k ≤ zlen (rg_buf r)) as Hk by lia.
  pose proof (zlen_zdrop k (rg_buf r) Hk) as Hl.
  constructor; cbn [rg_start rg_buf rg_cap]; rewrite ?u64_small by lia; [lia| |lia|lia].
  rewrite Hb at 1. apply zdrop_zdrop; lia.
Qed.

Lemma ring_push r hist bs :
  0 ≤ rg_cap r → zlen (hist ++ bs) < 2 ^ 64 → ring_of r hist → ring_of (Ring_push r bs) (hist ++ bs).
Proof.
  intros Hcap Hh [Hs Hb He Hc]. rewrite zlen_app in Hh. pose proof (zlen_nonneg bs). pose proof (zlen_nonneg (rg_buf r)).
  unfold Ring_push. destruct (Z.leb_spec (rg_cap r) (zlen bs)) as [Hbig|Hsmall].
  - pose proof (zlen_zdrop (zlen bs - rg_cap r) bs ltac:(lia)) as Hl.
    constructor; cbn [rg_start rg_buf rg_cap]; rewrite ?u64_small, ?zlen_app by lia; [lia| |lia|lia].
    rewrite zdrop_app_ge by lia. f_equal. lia.
  - unfold u64_sat_sub. destruct (Z.ltb_spec 0 (Z.max 0 (zlen (rg_buf r) + zlen bs - rg_cap r))) as [Ho|Ho].
    + set (over := Z.max 0 _) in *. pose proof (zlen_zdrop over (rg_buf r) ltac:(lia)) as Hl.
      constructor; cbn [rg_start rg_buf rg_cap]; rewrite ?u64_small, ?zlen_app by lia; [lia| |lia|lia].
      rewrite zdrop_app by lia. f_equal. rewrite Hb at 1. apply zdrop_zdrop; lia.
    + constructor; cbn [rg_start rg_buf rg_cap]; rewrite ?zlen_app; [lia| |lia|lia].
      rewrite zdrop_app by lia. by f_equal.
Qed.

Lemma ring_restore cap hist start :
  0 ≤ cap → 0 ≤ start ≤ zlen hist → zlen hist < 2 ^ 64 → ring_of (Ring_restore cap start (zdrop start hist)) hist.
Proof.
  intros Hcap Hs Hh. pose proof (zlen_zdrop start hist Hs) as Hl. unfold Ring_restore, u64_sat_sub.
  destruct (Z.ltb_spec 0 (Z.max 0 (zlen (zdrop start hist) - cap))) as [Ho|Ho].
  - set (over := Z.max 0 _) in *. pose proof (zlen_zdrop over (zdrop start hist) ltac:(lia)) as Hl'.
    constructor; cbn [rg_start rg_buf rg_cap]; rewrite ?u64_small by lia; [lia| |lia|lia].
    apply zdrop_zdrop; lia.
  - constructor; cbn [rg_start rg_buf rg_cap]; [lia|done|lia|lia].
Qed.

Lemma ring_copy r hist wrap from :
  zlen hist < 2 ^ 64 → ring_of r hist →
  copy_from r wrap from = zdrop (Z.min (Z.max from (rg_start r)) (zlen hist)) hist.
Proof.
  intros Hh [Hs Hb He Hc]. unfold copy_from, slices_from, Ring_end. pose proof (zlen_nonneg (rg_buf r)).
  rewrite He, u64_small by (pose proof (zlen_nonneg hist); lia).
  set (f := Z.min _ _). assert (rg_start r ≤ f ≤ zlen hist) by lia.
  replace (zdrop f hist) with (zdrop (f - rg_start r) (rg_buf r)).
  2: { rewrite Hb, zdrop_zdrop by lia. f_equal. lia. }
  transitivity (zdrop (f - rg_start r) (take wrap (rg_buf r) ++ drop wrap (rg_buf r))); [|by rewrite take_drop].
  destruct (Z.leb_spec (zlen (take wrap (rg_buf r))) (f - rg_start r)).
  - by rewrite app_nil_r, zdrop_app_ge.
  - rewrite zdrop_app by lia. done.
Qed.

(** What happens to a session's ring. *)
Inductive RingOp := Op_push (bs : list Z) | Op_trim (n : Z) | Op_upgrade (cap : Z).

Definition ring_step (r : Ring) (o : RingOp) : Ring :=
  match o with
  | Op_push bs => Ring_push r bs
  | Op_trim n => trim_front r n
  | Op_upgrade cap => Ring_restore cap (rg_start r) (rg_buf r)
  end.
Definition op_bytes (o : RingOp) : list Z := match o with Op_push bs => bs | _ => [] end.
Definition op_ok (o : RingOp) : Prop := match o with Op_push _ => True | Op_trim n => 0 ≤ n | Op_upgrade cap => 0 ≤ cap end.

Lemma ring_run r hist ops :
  0 ≤ rg_cap r → Forall op_ok ops → zlen (hist ++ (ops ≫= op_bytes)) < 2 ^ 64 → ring_of r hist →
  ring_of (fold_left ring_step ops r) (hist ++ (ops ≫= op_bytes)).
Proof.
  revert r hist. induction ops as [|o ops IH]; intros r hist Hcap Hops Hl Hr; [by rewrite app_nil_r|].
  apply Forall_cons in Hops as [Ho Hops]. cbn [fold_left mbind list_bind] in *. rewrite app_assoc in Hl |- *.
  pose proof (zlen_nonneg (ops ≫= op_bytes)). rewrite zlen_app in Hl.
  apply IH; [|done|by rewrite zlen_app|].
  - destruct o; cbn; [by unfold Ring_push; repeat case_match|done|by unfold Ring_restore; case_match].
  - destruct o as [bs|n|cap]; cbn [ring_step op_bytes] in *; rewrite ?app_nil_r in *.
    + apply ring_push; [done|lia|done].
    + apply ring_trim; [done|lia|done].
    + destruct Hr as [Hs Hb He Hc]. rewrite Hb.
      apply ring_restore; [done|pose proof (zlen_nonneg (rg_buf r)); lia|lia].
Qed.

(** (C28) The ring is a window on the session's output: after any pushes, trims
    and self-upgrades, its end is the number of bytes ever pushed, it keeps
    at most its cap, and a copy from any offset is exactly the stream from
    there on (from the oldest byte kept, when that offset is gone), wherever
    the deque's storage wraps. *)
Theorem ring_is_stream_window cap ops wrap from :
  0 ≤ cap → Forall op_ok ops →
  let hist := ops ≫= op_bytes in
  zlen hist < 2 ^ 64 →
  let r := fold_left ring_step ops (Ring_new cap) in
  Ring_end r = zlen hist ∧ Ring_len r ≤ rg_cap r
  ∧ copy_from r wrap from = zdrop (Z.min (Z.max from (rg_start r)) (zlen hist)) hist.
Proof.
  intros Hcap Hops hist Hh r.
  assert (ring_of r hist) as Hr by (apply (ring_run (Ring_new cap) []); by try constructor).
  pose proof (ring_copy r hist wrap from Hh Hr). destruct Hr as [Hs Hb He Hc].
  split_and!; [|done|done]. unfold Ring_end. rewrite He, u64_small; [done|]. pose proof (zlen_nonneg hist). lia.
Qed.

Lemma ring_is_stream_window_witness :
  copy_from (fold_left ring_step [Op_push [1; 2; 3]; Op_push [4; 5]; Op_trim 1] (Ring_new 4)) 1 3 = [4; 5].
Proof.
  refine (eq_trans (proj2 (proj2 (ring_is_stream_window 4 [Op_push [1; 2; 3]; Op_push [4; 5]; Op_trim 1] 1 3 _ _ _))) _).
  - lia.
  - repeat constructor; cbn; lia.
  - vm_compute. reflexivity.
  - vm_compute. reflexivity.
Defined.

(** ** Lemmas: framing *)

Lemma be32_value v : 0 ≤ v < 2 ^ 32 →
  of_be32 (v / 2 ^ 24 mod 256) (v / 2 ^ 16 mod 256) (v / 2 ^ 8 mod 256) (v mod 256) = v.
Proof.
  intros Hv. unfold of_be32.
  rewrite (Z.mod_small (v / 2 ^ 24)) by (split; [apply Z.div_pos; lia|apply Z.div_lt_upper_bound; lia]).
  change (2 ^ 24) with (2 ^ 8 * 2 ^ 16). change (2 ^ 16) with (2 ^ 8 * 2 ^ 8).
  rewrite <- !Z.div_div by lia. change (2 ^ 8) with 256.
  pose proof (Z.div_mod v 256). pose proof (Z.div_mod (v / 256) 256). pose proof (Z.div_mod (v / 256 / 256) 256).
  lia.
Qed.

(** Take frames until none is whole, as the connection loops do. *)
Fixpoint drain_n (fuel : nat) (buf : list Z) : list (list Z) * option FrameError * list Z :=
  match fuel with
  | O => ([], None, buf)
  | S fuel =>
    match next_frame buf with
    | (Ok (Some f), rest) => let '(fs, e, b) := drain_n fuel rest in (f :: fs, e, b)
    | (Ok None, b) => ([], None, b)
    | (Err e, b) => ([], Some e, b)
    end
  end.
Definition drain (buf : list Z) : list (list Z) * option FrameError * list Z := drain_n (length buf) buf.

(** Push each chunk as it comes and drain. *)
Fixpoint feed (buf : list Z) (chunks : list (list Z)) : list (list Z) * option FrameError * list Z :=
  match chunks with
  | [] => ([], None, buf)
  | c :: chunks =>
    match drain (decoder_push buf c) with
    | (fs, None, b) => let '(fs', e, b') := feed b chunks in (fs ++ fs', e, b')
    | (fs, Some e, b) => (fs, Some e, b)
    end
  end.

(** [next_frame] on bytes: a frame leaves fewer of them, and more bytes at the end change nothing. *)
Lemma next_frame_cases buf :
  Forall (λ b, 0 ≤ b) buf →
  (∃ f rest, next_frame buf = (Ok (Some f), rest) ∧ (length rest < length buf)%nat ∧ Forall (λ b, 0 ≤ b) rest
     ∧ ∀ more, next_frame (buf ++ more) = (Ok (Some f), rest ++ more))
  ∨ next_frame buf = (Ok None, buf)
  ∨ (∃ e, next_frame buf = (Err e, buf) ∧ ∀ more, next_frame (buf ++ more) = (Err e, buf ++ more)).
Proof.
  intros Hb. destruct buf as [|a [|b [|c [|d rest]]]]; cbn [next_frame]; try (by right; left).
  do 4 (apply Forall_cons in Hb as [? Hb]).
  assert (0 ≤ of_be32 a b c d) by (unfold of_be32; lia). set (n := of_be32 a b c d) in *.
  destruct (MAX_FRAME <? n) eqn:Hm; [right; right; eexists; split; [done|]; intros more; cbn; fold n; by rewrite Hm|].
  destruct (Z.ltb_spec (zlen rest) n) as [Hl|Hl]; [by right; left|]. left. eexists _, _. split_and!; [done| | |].
  - unfold zdrop. rewrite length_drop. cbn. lia.
  - by apply Forall_drop.
  - intros more. cbn [app next_frame]. fold n. rewrite Hm, zlen_app. pose proof (zlen_nonneg more).
    rewrite (proj2 (Z.ltb_ge _ _)) by lia. rewrite zdrop_app by lia. unfold zlen in Hl. by rewrite take_app_le by lia.
Qed.

Lemma drain_fuel n m buf :
  Forall (λ b, 0 ≤ b) buf → (length buf ≤ n)%nat → (length buf ≤ m)%nat → drain_n n buf = drain_n m buf.
Proof.
  revert m buf. induction n as [|n IH]; intros [|m] buf Hb Hn Hm; try done.
  1,2: destruct buf; [done|cbn in *; lia].
  cbn [drain_n]. destruct (next_frame_cases buf Hb) as [(f&rest&->&Hl&Hr&_)|[->|(e&->&_)]]; [|done..].
  by rewrite (IH m rest Hr) by lia.
Qed.

Lemma drain_app_n n x y :
  Forall (λ b, 0 ≤ b) (x ++ y) → (length x ≤ n)%nat →
  drain (x ++ y) =
    match drain_n n x with
    | (fs, None, b) => let '(fs', e, b') := drain (b ++ y) in (fs ++ fs', e, b')
    | (fs, Some e, b) => (fs, Some e, b ++ y)
    end.
Proof.
  revert x. induction n as [|n IH]; intros x Hb Hn.
  { cbn [drain_n]. by destruct (drain (x ++ y)) as [[? ?] ?]. }
  pose proof (proj1 (proj1 (Forall_app _ _ _) Hb)) as Hx. cbn [drain_n].
  destruct (next_frame_cases x Hx) as [(f&rest&->&Hl&Hr&Hmore)|[->|(e&->&Hmore)]].
  - assert (drain (x ++ y) = let '(fs, e, b) := drain (rest ++ y) in (f :: fs, e, b)) as ->.
    { unfold drain. destruct (length (x ++ y)) as [|k] eqn:Hk; [rewrite length_app in Hk; lia|].
      cbn [drain_n]. rewrite Hmore. rewrite (drain_fuel k (length (rest ++ y))); [done| |rewrite length_app in *; lia|done].
      apply Forall_app. split; [done|]. by apply Forall_app in Hb as [_ ?]. }
    rewrite IH by (lia || (apply Forall_app; split; [done|by apply Forall_app in Hb as [_ ?]])).
    destruct (drain_n n rest) as [[fs [e|]] b]; [done|]. by destruct (drain (b ++ y)) as [[? ?] ?].
  - by destruct (drain (x ++ y)) as [[? ?] ?].
  - unfold drain. destruct (length (x ++ y)) as [|k] eqn:Hk.
    { apply length_zero_iff_nil, app_eq_nil in Hk as [-> ->]. pose proof (Hmore []) as H0. cbn in H0. done. }
    cbn [drain_n]. by rewrite Hmore.
Qed.

Lemma drain_app x y :
  Forall (λ b, 0 ≤ b) (x ++ y) →
  drain (x ++ y) =
    match drain x with
    | (fs, None, b) => let '(fs', e, b') := drain (b ++ y) in (fs ++ fs', e, b')
    | (fs, Some e, b) => (fs, Some e, b ++ y)
    end.
Proof. intros Hb. by apply drain_app_n. Qed.

(** Whole frames drain, whatever follows them. *)
Lemma drain_frame f rest :
  zlen f ≤ MAX_FRAME → Forall (λ b, 0 ≤ b) (be32 (zlen f) ++ f ++ rest) →
  next_frame (be32 (zlen f) ++ f ++ rest) = (Ok (Some f), rest).
Proof.
  intros Hf Hb. pose proof (zlen_nonneg f). pose proof (zlen_nonneg rest). assert (MAX_FRAME < 2 ^ 32) by done.
  cbn [app be32 next_frame]. rewrite be32_value, zlen_app, !(proj2 (Z.ltb_ge _ _)) by lia.
  unfold zdrop, zlen. rewrite Nat2Z.id. by rewrite take_app_length, drop_app_length.
Qed.

Lemma drain_frames fs tail :
  Forall (λ f, zlen f ≤ MAX_FRAME) fs → Forall (λ b, 0 ≤ b) (concat ((λ f, be32 (zlen f) ++ f) <$> fs) ++ tail) →
  next_frame tail = (Ok None, tail) →
  drain (concat ((λ f, be32 (zlen f) ++ f) <$> fs) ++ tail) = (fs, None, tail).
Proof.
  intros Hfs Hb Ht. induction Hfs as [|f fs Hf _ IH].
  { cbn [fmap list_fmap concat app]. unfold drain. destruct (length tail) eqn:Hl; [done|]. cbn [drain_n]. by rewrite Ht. }
  cbn [fmap list_fmap concat] in *. rewrite <- !app_assoc in *.
  set (rest := concat _ ++ tail) in *. pose proof (drain_frame f rest Hf Hb) as Hn.
  assert (Forall (λ b, 0 ≤ b) rest) as Hr by (by do 2 apply Forall_app in Hb as [_ Hb]).
  unfold drain. destruct (length (be32 (zlen f) ++ f ++ rest)) as [|k] eqn:Hk; [done|].
  cbn [drain_n]. rewrite Hn. rewrite (drain_fuel k (length rest)); [|done| |done].
  - fold (drain rest). by rewrite (IH Hr).
  - rewrite !length_app in Hk. cbn in Hk. lia.
Qed.

(** What is left after draining has no whole frame. *)
Lemma drain_rest_n n x fs b :
  Forall (λ b, 0 ≤ b) x → (length x ≤ n)%nat → drain_n n x = (fs, None, b) →
  Forall (λ b, 0 ≤ b) b ∧ drain b = ([], None, b).
Proof.
  revert x fs. induction n as [|n IH]; intros x fs Hx Hn; cbn [drain_n].
  { intros [= <- <-]. split; [done|]. by destruct x; [|cbn in Hn; lia]. }
  destruct (next_frame_cases x Hx) as [(f&rest&->&Hl&Hr&_)|[Hnone|(e&->&_)]]; [| |done].
  - destruct (drain_n n rest) as [[fs' e] b'] eqn:Hd. intros [= <- -> ->]. eapply IH; [done| |done]. lia.
  - rewrite Hnone. intros [= <- <-]. split; [done|]. unfold drain. destruct (length x); [done|]. cbn [drain_n]. by rewrite Hnone.
Qed.
Lemma drain_rest x fs b :
  Forall (λ b, 0 ≤ b) x → drain x = (fs, None, b) → Forall (λ b, 0 ≤ b) b ∧ drain b = ([], None, b).
Proof. intros Hx. by apply drain_rest_n. Qed.

Lemma feed_drain buf chunks fs b :
  Forall (λ b, 0 ≤ b) (buf ++ concat chunks) → drain buf = ([], None, buf) →
  drain (buf ++ concat chunks) = (fs, None, b) → feed buf chunks = (fs, None, b).
Proof.
  revert buf fs. induction chunks as [|c chunks IH]; intros buf fs Hb Hd0 Hd; cbn [concat feed] in *.
  { rewrite app_nil_r, Hd0 in Hd. by simplify_eq. }
  rewrite app_assoc in Hb, Hd. rewrite drain_app in Hd by done. unfold decoder_push.
  pose proof (proj1 (proj1 (Forall_app _ _ _) Hb)) as Hbc.
  destruct (drain (buf ++ c)) as [[fs1 [e|]] b1] eqn:H1; [done|].
  destruct (drain (b1 ++ concat chunks)) as [[fs2 e2] b2] eqn:H2. injection Hd as <- -> ->.
  destruct (drain_rest (buf ++ c) fs1 b1 Hbc H1) as [Hbb Hd1].
  rewrite (IH b1 fs2); [done| |done|done].
  apply Forall_app. split; [done|]. by apply Forall_app in Hb as [_ ?].
Qed.

(** A blocking read takes what the decoder would. *)
Lemma read_frame_next input :
  read_frame input = match next_frame input with
    | (Ok (Some f), rest) => Ok (f, rest)
    | (Ok None, _) => Err Read_Eof
    | (Err _, _) => Err Read_TooLarge
    end.
Proof.
  destruct input as [|a [|b [|c [|d rest]]]]; try done. cbn [read_frame next_frame]. cbv zeta.
  destruct (MAX_FRAME <? _); [done|]. by destruct (zlen rest <? _).
Qed.

(** Framing survives the socket: however the bytes of encoded frames are cut
    into chunks, pushing each and draining gives the frames back in order and
    keeps exactly the bytes after the last whole frame; a blocking read of
    one frame gives it and leaves the rest; and encoding refuses exactly the
    frames over the limit. *)
Theorem framing_roundtrip fs tail chunks :
  Forall (λ f, Forall (λ b, 0 ≤ b < 256) f ∧ zlen f ≤ MAX_FRAME) fs → Forall (λ b, 0 ≤ b < 256) tail →
  next_frame tail = (Ok None, tail) →
  concat chunks = concat ((λ f, default [] (match frame_encode f with Ok e => Some e | Err _ => None end)) <$> fs) ++ tail →
  feed [] chunks = (fs, None, tail)
  ∧ (∀ f fs', fs = f :: fs' → ∃ rest, read_frame (concat chunks) = Ok (f, rest)
       ∧ rest = concat ((λ f, be32 (zlen f) ++ f) <$> fs') ++ tail)
  ∧ ∀ f, is_Some (match frame_encode f with Ok e => Some e | Err _ => None end) ↔ zlen f ≤ MAX_FRAME.
Proof.
  intros Hfs Ht Hn Hc.
  assert (∀ f, zlen f ≤ MAX_FRAME → frame_encode f = Ok (be32 (zlen f) ++ f)) as Henc.
  { intros f Hf. unfold frame_encode. by rewrite (proj2 (Z.ltb_ge _ _)). }
  replace ((λ f, default [] (match frame_encode f with Ok e => Some e | Err _ => None end)) <$> fs)
    with ((λ f, be32 (zlen f) ++ f) <$> fs) in Hc.
  2: { apply list_fmap_ext. intros i f Hf. destruct (Forall_lookup_1 _ _ _ _ Hfs Hf) as [_ Hl]. by rewrite Henc. }
  assert (Forall (λ b, 0 ≤ b) (concat ((λ f, be32 (zlen f) ++ f) <$> fs) ++ tail)) as Hb.
  { apply Forall_app. split; [|eapply Forall_impl; [exact Ht|]; cbn; lia]. clear Hc.
    induction Hfs as [|f fs [Hf Hl] _ IH]; [constructor|]. cbn. pose proof (zlen_nonneg f).
    repeat (apply Forall_cons_2; [apply Z.mod_pos_bound; lia|]). apply Forall_app. split; [|done].
    eapply Forall_impl; [exact Hf|]; cbn; lia. }
  assert (Forall (λ f, zlen f ≤ MAX_FRAME) fs) as Hl by (eapply Forall_impl; [exact Hfs|]; by intros f [_ ?]).
  split_and!.
  - apply feed_drain; cbn [app]; rewrite ?Hc; [done|done|by apply drain_frames].
  - intros f fs' ->. cbn [fmap list_fmap concat] in *. rewrite <- !app_assoc in *. eexists. split; [|done].
    apply Forall_cons in Hl as [Hl _]. by rewrite Hc, read_frame_next, (drain_frame f _ Hl Hb).
  - intros f. unfold frame_encode. destruct (Z.ltb_spec MAX_FRAME (zlen f)); split; try done; lia.
Qed.

Lemma framing_roundtrip_witness :
  feed [] [[0; 0; 0; 2]; [123]; [125; 0; 0; 0]; [1; 49; 0; 0]] = ([[123; 125]; [49]], None, [0; 0]).
Proof.
  refine (proj1 (framing_roundtrip [[123; 125]; [49]] [0; 0] [[0; 0; 0; 2]; [123]; [125; 0; 0; 0]; [1; 49; 0; 0]] _ _ _ _)).
  - repeat constructor; vm_compute; done.
  - repeat constructor; lia.
  - reflexivity.
  - vm_compute. reflexivity.
Defined.
