(* ===== verification/Heartbeat.v ===== *)
(** * Heartbeat: when a project's schedule fires (k2-core/src/scheduler.rs)

    The pure evaluator of a project's [heartbeat_mode] and schedule JSON: the
    hourly window, the calendar rules of the "scheduled" mode with its
    once-per-day latch, the nth-weekday-of-the-month rule, and the bounded
    preview loop.

    The code calls two libraries: chrono (dates, local time, RFC 3339) and
    serde_json (parsing).  They are the class [Chrono] and the argument
    [from_str]; what the theorems rely on is the class [ChronoLaws], the
    documented calendar facts, and [Gregorian] is a concrete calendar that
    satisfies them. *)

From S2P Require Import Prelude.

(** ** JSON values (serde_json::Value) *)

Inductive Number := PosInt (n : Z) | NegInt (n : Z) | Float (bits : Z).

Inductive Json :=
| JNull
| JBool (b : bool)
| JNumber (n : Number)
| JString (s : string)
| JArray (l : list Json)
| JObject (m : list (string * Json)).

(** [Value::get] with a string index, [as_str], [as_u64], [as_array]. *)
Definition json_get (v : Json) (k : string) : option Json :=
  if v is JObject m then snd <$> List.find (λ kv, (kv.1 =? k)%string) m else None.
Definition as_str (v : Json) : option string := if v is JString s then Some s else None.
Definition as_u64 (v : Json) : option Z := if v is JNumber (PosInt n) then Some n else None.
Definition as_array (v : Json) : option (list Json) := if v is JArray l then Some l else None.

Definition str_field (v : Json) (k : string) : option string := json_get v k ≫= as_str.
Definition u64_field (v : Json) (k : string) : option Z := json_get v k ≫= as_u64.
Definition array_field (v : Json) (k : string) : option (list Json) := json_get v k ≫= as_array.

(** ** chrono *)

Inductive Weekday := Mon | Tue | Wed | Thu | Fri | Sat | Sun.
#[export] Instance weekday_eq_dec : EqDecision Weekday.
Proof. solve_decision. Defined.

(** The part of chrono the module calls.  [local_time] is a [DateTime<Local>],
    [fixed_time] a [DateTime<FixedOffset>]. *)
Class Chrono := {
  date : Type;
  local_time : Type;
  fixed_time : Type;
  date_eq_dec :: EqDecision date;
  year : date → Z;
  month : date → Z;
  day : date → Z;
  ordinal : date → Z;
  weekday : date → Weekday;
  num_days_from_ce : date → Z;
  from_ymd_opt : Z → Z → Z → option date;
  pred_opt : date → option date;
  hour : local_time → Z;
  minute : local_time → Z;
  timestamp : local_time → Z;
  date_naive : local_time → date;
  fixed_timestamp : fixed_time → Z;
  with_timezone_local : fixed_time → local_time;
  parse_from_rfc3339 : string → option fixed_time;
  to_rfc3339 : local_time → string;
  format_minute : local_time → string;       (* format("%Y-%m-%d %H:%M") *)
  add_seconds : local_time → Z → local_time; (* cursor + Duration *)
  local_midnight : date → option local_time  (* from_local_datetime(&00:00:00).single() *)
}.

#[export] Existing Instance date_eq_dec.

(** What the theorems use of chrono: the Gregorian calendar's documented
    facts, and that RFC 3339 text reads back as the same instant. *)
Definition weekday_of_ce (n : Z) : Weekday :=
  match n mod 7 with
  | 1 => Mon | 2 => Tue | 3 => Wed | 4 => Thu | 5 => Fri | 6 => Sat | _ => Sun
  end.

Class ChronoLaws `{Chrono} := {
  month_range d : 1 ≤ month d ≤ 12;
  day_range d : 1 ≤ day d ≤ 31;
  weekday_ce d : weekday d = weekday_of_ce (num_days_from_ce d);
  num_days_inj d e : num_days_from_ce d = num_days_from_ce e → d = e;
  num_days_month d e :
    year d = year e → month d = month e →
    num_days_from_ce e - num_days_from_ce d = day e - day d;
  num_days_order d e :
    year d < year e ∨ (year d = year e ∧ month d < month e) →
    num_days_from_ce d < num_days_from_ce e;
  from_ymd_Some y m n d :
    from_ymd_opt y m n = Some d ↔ year d = y ∧ month d = m ∧ day d = n;
  month_filled d k : 1 ≤ k ≤ day d → is_Some (from_ymd_opt (year d) (month d) k);
  pred_Some d p : pred_opt d = Some p → num_days_from_ce p = num_days_from_ce d - 1;
  pred_of_first d p :
    pred_opt d = Some p → day d = 1 →
    if month d =? 1 then year p = year d - 1 ∧ month p = 12
    else year p = year d ∧ month p = month d - 1;
  rfc3339_back t :
    0 ≤ year (date_naive t) ≤ 9999 →
    ∃ f, parse_from_rfc3339 (to_rfc3339 t) = Some f
      ∧ date_naive (with_timezone_local f) = date_naive t
      ∧ fixed_timestamp f = timestamp t
}.

(** ** The evaluator *)

(** [s.split(':')]. *)
Fixpoint split_colon (bs : list Z) : list (list Z) :=
  match bs with
  | [] => [[]]
  | b :: r =>
    if b =? 58 then [] :: split_colon r
    else match split_colon r with
         | w :: ws => (b :: w) :: ws
         | [] => [[b]]
         end
  end.

Definition parse_hhmm_mins (s : string) : option Z :=
  match split_colon (bytes s) with
  | [hh; mm] =>
    h ← parse_unsigned_bytes (2 ^ 32 - 1) hh;
    m ← parse_unsigned_bytes (2 ^ 32 - 1) mm;
    Some (u32 (u32 (h * 60) + m))
  | _ => None
  end.

Definition weekday_short (w : Weekday) : string :=
  match w with
  | Mon => "mon" | Tue => "tue" | Wed => "wed" | Thu => "thu"
  | Fri => "fri" | Sat => "sat" | Sun => "sun"
  end.

(** The arms of [day_type] that name one weekday. *)
Definition day_type_weekday (day_type : string) : option Weekday :=
  if mem_str day_type ["mon"; "monday"] then Some Mon
  else if mem_str day_type ["tue"; "tuesday"] then Some Tue
  else if mem_str day_type ["wed"; "wednesday"] then Some Wed
  else if mem_str day_type ["thu"; "thursday"] then Some Thu
  else if mem_str day_type ["fri"; "friday"] then Some Fri
  else if mem_str day_type ["sat"; "saturday"] then Some Sat
  else if mem_str day_type ["sun"; "sunday"] then Some Sun
  else None.

Section evaluator.
Context `{Chrono}.

Definition day_matches (weekday : Weekday) (day_type : string) : bool :=
  if (day_type =? "day")%string then true
  else if (day_type =? "weekday")%string then
    negb (bool_decide (weekday = Sat)) && negb (bool_decide (weekday = Sun))
  else match day_type_weekday day_type with
       | Some w => bool_decide (weekday = w)
       | None => true
       end.

(** The length of the date's month, through the day before the first of the
    next one; 28 where chrono has no such date. *)
Definition days_in_month (d : date) : Z :=
  default 28
    ((λ n, default 28 (day <$> pred_opt n)) <$>
      (if month d =? 12 then from_ymd_opt (year d + 1) 1 1
       else from_ymd_opt (year d) (month d + 1) 1)).

Definition matches_ordinal_day (d : date) (ordinal day_type : string) : bool :=
  let dom := day d in
  if negb (day_matches (weekday d) day_type) then false
  else if (ordinal =? "first")%string then dom <=? 7
  else if (ordinal =? "second")%string then (7 <? dom) && (dom <=? 14)
  else if (ordinal =? "third")%string then (14 <? dom) && (dom <=? 21)
  else if (ordinal =? "fourth")%string then (21 <? dom) && (dom <=? 28)
  else if (ordinal =? "last")%string then days_in_month d <? dom + 7
  else true.

Definition month_name (m : Z) : option string :=
  match m with
  | 1 => Some "jan" | 2 => Some "feb" | 3 => Some "mar" | 4 => Some "apr"
  | 5 => Some "may" | 6 => Some "jun" | 7 => Some "jul" | 8 => Some "aug"
  | 9 => Some "sep" | 10 => Some "oct" | 11 => Some "nov" | 12 => Some "dec"
  | _ => None
  end.

(** [d.as_str() == Some(s)] for some element, and the same on [as_u64]. *)
Definition any_str (l : list Json) (s : string) : bool :=
  existsb (λ d, opt_eqb String.eqb (as_str d) (Some s)) l.
Definition any_u64 (l : list Json) (n : Z) : bool :=
  existsb (λ d, opt_eqb Z.eqb (as_u64 d) (Some n)) l.

Definition now_mins (now : local_time) : Z := hour now * 60 + minute now.

(** The calendar arms of the "scheduled" mode. *)
Definition daily_due (v : Json) (today : date) : bool :=
  let interval := default 1 (u64_field v "interval") in
  if 1 <? interval then ordinal today mod interval =? 0 else true.

Definition weekly_due (v : Json) (today : date) : bool :=
  match array_field v "days" with
  | Some day_arr => any_str day_arr (weekday_short (weekday today))
  | None => true
  end.

Definition monthly_due (v : Json) (today : date) : bool :=
  match array_field v "days_of_month" with
  | Some days_arr => any_u64 days_arr (day today)
  | None =>
    match str_field v "ordinal" with
    | Some ordinal =>
      matches_ordinal_day today ordinal (default "day" (str_field v "ordinal_day"))
    | None => true
    end
  end.

Definition yearly_due (v : Json) (today : date) : bool :=
  match month_name (month today) with
  | None => false
  | Some name =>
    match array_field v "months" with
    | Some m_arr => any_str m_arr name
    | None => true
    end
  end.

Definition frequency_due (frequency : string) (v : Json) (today : date) : bool :=
  if (frequency =? "daily")%string then daily_due v today
  else if (frequency =? "weekly")%string then weekly_due v today
  else if (frequency =? "monthly")%string then monthly_due v today
  else if (frequency =? "yearly")%string then yearly_due v today
  else false.

Definition scheduled_fires (v : Json) (last_fire_time : option fixed_time)
    (now : local_time) : bool :=
  let frequency := default "daily" (str_field v "frequency") in
  let time_str := default "09:00" (str_field v "time") in
  let schedule_mins := default 540 (parse_hhmm_mins time_str) in
  if now_mins now <? schedule_mins then false
  else if match last_fire_time with
          | Some lf => bool_decide (date_naive (with_timezone_local lf) = date_naive now)
          | None => false
          end then false
  else frequency_due frequency v (date_naive now).

Definition in_window (start_mins end_mins now : Z) : bool :=
  if start_mins <=? end_mins then (start_mins <=? now) && (now <? end_mins)
  else (start_mins <=? now) || (now <? end_mins).

Definition hourly_fires (v : Json) (last_fire_time : option fixed_time)
    (now : local_time) : bool :=
  let start := default "00:00" (str_field v "start") in
  let end_ := default "23:59" (str_field v "end") in
  let every_secs := default 300 (u64_field v "every_seconds") in
  let start_mins := default 0 (parse_hhmm_mins start) in
  let end_mins := default 1439 (parse_hhmm_mins end_) in
  if negb (in_window start_mins end_mins (now_mins now)) then false
  else match last_fire_time with
       | Some lf => every_secs <=? u64 (i64 (timestamp now - fixed_timestamp lf))
       | None => true
       end.

(** The legacy modes are aliases of "scheduled". *)
Definition normal_mode (mode : string) : string :=
  if mem_str mode ["daily"; "weekly"; "monthly"; "yearly"] then "scheduled" else mode.

Section json.
Variable from_str : string → option Json.

Definition should_project_fire_with_now (mode : string)
    (schedule_json last_fire : option string) (now : local_time) : bool :=
  let last_fire_time := last_fire ≫= parse_from_rfc3339 in
  let mode := normal_mode mode in
  if (mode =? "hourly")%string then
    match schedule_json ≫= from_str with
    | Some v => hourly_fires v last_fire_time now
    | None => false
    end
  else if (mode =? "scheduled")%string then
    match schedule_json ≫= from_str with
    | Some v => scheduled_fires v last_fire_time now
    | None => false
    end
  else false.
End json.
End evaluator.

(** ** The preview *)

Definition PREVIEW_MAX_COUNT : Z := 500.
Definition PREVIEW_MIN_STEP_SECS : Z := 60.
Definition PREVIEW_MAX_STEP_SECS : Z := 366 * 24 * 60 * 60.
Definition PREVIEW_MAX_ITERATIONS : Z := 366 * 24 * 60.
Definition max_steps : Z := 366 * 24 * 60.

Section preview.
Context `{Chrono}.
Variable from_str : string → option Json.
(** The wall clock, read once per loop turn by [should_project_fire]. *)
Variable wall : Z → local_time.

(** The loop's variables. *)
Record Preview := mkPreview {
  results : list string;
  cursor : local_time;
  steps : Z;
  iterations : Z
}.

Definition every_step (schedule_json : string) : Z :=
  let v := default JNull (from_str schedule_json) in
  Z.min PREVIEW_MAX_STEP_SECS
    (Z.max PREVIEW_MIN_STEP_SECS (default 300 (u64_field v "every_seconds"))).

Definition next_midnight (c : local_time) : local_time :=
  let c := add_seconds c 86400 in
  default c (local_midnight (date_naive c)).

Definition preview_turn (mode schedule_json : string) (p : Preview) : Preview :=
  let n := iterations p + 1 in
  if should_project_fire_with_now from_str mode (Some schedule_json)
       (Some (to_rfc3339 (cursor p))) (wall n)
  then
    let results := results p ++ [format_minute (cursor p)] in
    if (mode =? "hourly")%string then
      let every := every_step schedule_json in
      mkPreview results (add_seconds (cursor p) every) (steps p + every / 60) n
    else mkPreview results (next_midnight (cursor p)) (steps p + 24 * 60) n
  else mkPreview (results p) (add_seconds (cursor p) 60) (steps p + 1) n.

Definition preview_more (count : Z) (p : Preview) : bool :=
  (Z.of_nat (length (results p)) <? count) && (steps p <? max_steps)
  && (iterations p <? PREVIEW_MAX_ITERATIONS).

Fixpoint preview_loop (fuel : nat) (count : Z) (mode schedule_json : string) (p : Preview)
    : option Preview :=
  if preview_more count p then
    match fuel with
    | S fuel => preview_loop fuel count mode schedule_json (preview_turn mode schedule_json p)
    | O => None
    end
  else Some p.

Definition preview_fire_times (fuel : nat) (mode schedule_json : string) (count : Z)
    : option (list string) :=
  results <$> preview_loop fuel (Z.min count PREVIEW_MAX_COUNT) mode schedule_json
    (mkPreview [] (wall 0) 0 0).
End preview.

(** ** The Lane-A gate of the scheduler tick (workspace/scheduler.rs)

    A project row's gate: when the schedule says fire, the stored last fire
    becomes the clock (read again).  [tick_now] is the evaluator's clock
    reading, [tick_stored] the one that is stored. *)
Section lane_a.
Context `{Chrono}.
Variable from_str : string → option Json.

Record Tick := mkTick { tick_now : local_time; tick_stored : local_time }.

Definition lane_a_tick (mode : string) (schedule last_fire : option string) (t : Tick)
    : bool * option string :=
  if (mode =? "scheduled")%string || (mode =? "hourly")%string then
    if should_project_fire_with_now from_str mode schedule last_fire (tick_now t)
    then (true, Some (to_rfc3339 (tick_stored t)))
    else (false, last_fire)
  else (negb (mode =? "off")%string, last_fire).

(** The ticks that pass the gate, in order. *)
Fixpoint lane_a_fires (mode : string) (schedule last_fire : option string)
    (ticks : list Tick) : list Tick :=
  match ticks with
  | [] => []
  | t :: r =>
    let '(fired, last_fire) := lane_a_tick mode schedule last_fire t in
    (if fired then [t] else []) ++ lane_a_fires mode schedule last_fire r
  end.
End lane_a.

(** ** Nth weekdays of a month *)

Section calendar.
Context `{ChronoLaws}.

(** How many days of the date's month, up to the date, fall on its weekday. *)
Definition occurrence (d : date) : Z :=
  Z.of_nat (length (List.filter (λ k,
    match from_ymd_opt (year d) (month d) k with
    | Some e => bool_decide (weekday e = weekday d)
    | None => false
    end) (seqZ 1 (day d)))).

Lemma weekday_of_ce_eq m n : weekday_of_ce m = weekday_of_ce n ↔ m mod 7 = n mod 7.
Proof.
  unfold weekday_of_ce. pose proof (Z.mod_pos_bound m 7 ltac:(lia)).
  pose proof (Z.mod_pos_bound n 7 ltac:(lia)).
  split; [|by intros ->].
  assert (m mod 7 = 0 ∨ m mod 7 = 1 ∨ m mod 7 = 2 ∨ m mod 7 = 3 ∨ m mod 7 = 4
    ∨ m mod 7 = 5 ∨ m mod 7 = 6) as Hm by lia.
  assert (n mod 7 = 0 ∨ n mod 7 = 1 ∨ n mod 7 = 2 ∨ n mod 7 = 3 ∨ n mod 7 = 4
    ∨ n mod 7 = 5 ∨ n mod 7 = 6) as Hn by lia.
  repeat (destruct Hm as [Hm|Hm]); rewrite Hm;
    repeat (destruct Hn as [Hn|Hn]); rewrite Hn; done.
Qed.

Lemma same_weekday d e :
  year d = year e → month d = month e →
  weekday e = weekday d ↔ (day e - day d) mod 7 = 0.
Proof.
  intros Hy Hm. rewrite !weekday_ce, weekday_of_ce_eq.
  pose proof (num_days_month d e Hy Hm) as Hn.
  replace (day e - day d) with (num_days_from_ce e - num_days_from_ce d) by lia.
  generalize (num_days_from_ce e), (num_days_from_ce d). intros a b.
  pose proof (Z.div_mod a 7 ltac:(lia)). pose proof (Z.div_mod b 7 ltac:(lia)).
  pose proof (Z.mod_pos_bound a 7 ltac:(lia)). pose proof (Z.mod_pos_bound b 7 ltac:(lia)).
  pose proof (Z.div_mod (a - b) 7 ltac:(lia)).
  pose proof (Z.mod_pos_bound (a - b) 7 ltac:(lia)). lia.
Qed.

Lemma occurrence_table :
  forallb (λ n, Z.of_nat (length (List.filter (λ k, (k - n) mod 7 =? 0) (seqZ 1 n)))
    =? (n - 1) / 7 + 1) (seqZ 1 31) = true.
Proof. vm_compute. reflexivity. Qed.

Lemma occurrence_eq d : occurrence d = (day d - 1) / 7 + 1.
Proof.
  pose proof (day_range d) as Hd.
  pose proof occurrence_table as Ht. rewrite forallb_true in Ht.
  specialize (Ht (day d) ltac:(apply elem_of_seqZ; lia)). cbv beta in Ht.
  apply Z.eqb_eq in Ht. rewrite <- Ht. unfold occurrence. do 2 f_equal.
  apply List.filter_ext_in. intros k Hk%list_elem_of_In.
  apply elem_of_seqZ in Hk.
  destruct (month_filled d k ltac:(lia)) as [e He]. rewrite He.
  apply from_ymd_Some in He as (Hy&Hm&Hk').
  pose proof (same_weekday d e (eq_sym Hy) (eq_sym Hm)) as Hw. rewrite Hk' in Hw.
  apply eq_true_iff_eq. rewrite bool_decide_eq_true, Z.eqb_eq. done.
Qed.

(** The month's last day is the greatest of its days. *)
Lemma days_in_month_spec d n :
  (if month d =? 12 then from_ymd_opt (year d + 1) 1 1
   else from_ymd_opt (year d) (month d + 1) 1) = Some n →
  is_Some (pred_opt n) →
  ∃ p, days_in_month d = day p ∧ year p = year d ∧ month p = month d
    ∧ ∀ e, year e = year d → month e = month d → day e ≤ day p.
Proof.
  intros Hn [p Hp]. exists p. unfold days_in_month. rewrite Hn. simpl. rewrite Hp.
  split; [done|].
  pose proof (pred_Some _ _ Hp) as Hce.
  assert (day n = 1 ∧ year p = year d ∧ month p = month d
    ∧ (year d < year n ∨ year d = year n ∧ month d < month n)) as (_&Hy&Hm&Hlt).
  { pose proof (month_range d) as Hr.
    destruct (Z.eqb_spec (month d) 12) as [Hd|Hd];
      apply from_ymd_Some in Hn as (Hny&Hnm&Hnd);
      pose proof (pred_of_first _ _ Hp Hnd) as Hf; rewrite Hnm in Hf;
      revert Hf; case_match; bool_props; intros; lia. }
  split; [done|]. split; [done|]. intros e Hye Hme.
  pose proof (num_days_order e n) as Ho. rewrite Hye, Hme in Ho. specialize (Ho Hlt).
  pose proof (num_days_month p e ltac:(congruence) ltac:(congruence)). lia.
Qed.

Definition ordinal_number (ordinal : string) : option Z :=
  if (ordinal =? "first")%string then Some 1
  else if (ordinal =? "second")%string then Some 2
  else if (ordinal =? "third")%string then Some 3
  else if (ordinal =? "fourth")%string then Some 4 else None.

Lemma day_matches_weekday wd day_type w :
  day_type_weekday day_type = Some w → day_matches wd day_type = bool_decide (wd = w).
Proof.
  intros Hw. unfold day_matches. rewrite Hw.
  destruct (String.eqb_spec day_type "day") as [->|]; [by vm_compute in Hw|].
  destruct (String.eqb_spec day_type "weekday") as [->|]; [by vm_compute in Hw|done].
Qed.

(** For a day type that names a weekday, "first" to "fourth" match exactly
    the date that is that occurrence of the weekday in its month. *)
Theorem ordinal_weekday_exact d ordinal n day_type w :
  ordinal_number ordinal = Some n → day_type_weekday day_type = Some w →
  matches_ordinal_day d ordinal day_type = true ↔ weekday d = w ∧ occurrence d = n.
Proof.
  intros Hn Hw. unfold matches_ordinal_day. rewrite (day_matches_weekday _ _ _ Hw).
  rewrite occurrence_eq. pose proof (day_range d) as Hd.
  pose proof (Z.div_mod (day d - 1) 7 ltac:(lia)) as Hq.
  pose proof (Z.mod_pos_bound (day d - 1) 7 ltac:(lia)) as Hr.
  destruct (bool_decide_reflect (weekday d = w)) as [Hwd|Hwd]; simpl; [|naive_solver].
  trans ((day d - 1) / 7 + 1 = n); [|naive_solver].
  unfold ordinal_number in Hn.
  repeat case_match; simplify_eq; rewrite ?andb_true_iff, ?Z.ltb_lt, ?Z.leb_le; lia.
Qed.

(** "last" matches exactly the month's last occurrence of the weekday,
    wherever chrono has a following month. *)
Theorem ordinal_last_exact d n day_type w :
  day_type_weekday day_type = Some w →
  (if month d =? 12 then from_ymd_opt (year d + 1) 1 1
   else from_ymd_opt (year d) (month d + 1) 1) = Some n →
  is_Some (pred_opt n) →
  matches_ordinal_day d "last" day_type = true ↔
    weekday d = w ∧
    ∀ e, year e = year d → month e = month d → weekday e = weekday d → day e ≤ day d.
Proof.
  intros Hw Hn Hp. destruct (days_in_month_spec d n Hn Hp) as (p&Hlen&Hyp&Hmp&Hmax).
  unfold matches_ordinal_day. rewrite (day_matches_weekday _ _ _ Hw). simpl. rewrite Hlen.
  destruct (bool_decide_reflect (weekday d = w)) as [Hwd|Hwd]; simpl; [|naive_solver].
  rewrite Z.ltb_lt. split.
  - intros Hlt. split; [done|]. intros e Hye Hme Hwe.
    apply (same_weekday d e (eq_sym Hye) (eq_sym Hme)) in Hwe.
    pose proof (Hmax e Hye Hme).
    pose proof (Z.div_mod (day e - day d) 7 ltac:(lia)). lia.
  - intros [_ Hlast]. destruct (Z.lt_ge_cases (day p) (day d + 7)) as [|Hge]; [done|].
    pose proof (day_range d).
    destruct (month_filled p (day d + 7) ltac:(lia)) as [e He].
    apply from_ymd_Some in He as (Hye&Hme&Hde).
    pose proof (Hlast e ltac:(congruence) ltac:(congruence)) as Hle.
    enough (weekday e = weekday d) by (specialize (Hle ltac:(done)); lia).
    apply same_weekday; [congruence..|]. rewrite Hde.
    by replace (day d + 7 - day d) with 7 by lia.
Qed.
End calendar.

(** ** Runs of ticks *)

Section runs.
Context `{ChronoLaws}.
Variable from_str : string → option Json.

(** Every clock reading of a run, in the order it was taken. *)
Definition reads (ticks : list Tick) : list local_time :=
  ticks ≫= λ t, [tick_now t; tick_stored t].

Definition storable (t : local_time) : Prop := 0 ≤ year (date_naive t) ≤ 9999.

Lemma tick_step mode schedule last t :
  mode = "scheduled" ∨ mode = "hourly" →
  lane_a_tick from_str mode schedule last t
  = (true, Some (to_rfc3339 (tick_stored t)))
  ∨ lane_a_tick from_str mode schedule last t = (false, last).
Proof.
  unfold lane_a_tick. intros [-> | ->]; simpl; case_match; auto. 
Qed.

Lemma fires_sublist mode schedule last ticks :
  mode = "scheduled" ∨ mode = "hourly" →
  sublist (lane_a_fires from_str mode schedule last ticks) ticks.
Proof.
  intros Hm. revert last. induction ticks as [|t r IH]; intros last; simpl; [done|].
  destruct (tick_step mode schedule last t Hm) as [-> | ->]; simpl; by constructor.
Qed.

(** One gate decision keeps [P] between the stored time and the tick; then
    every earlier fire has [P] to every later one. *)
Section spaced.
Variables (mode : string) (schedule : option string).
Variables le P : local_time → local_time → Prop.
Hypothesis gate_spaced : ∀ s t,
  storable s → le s (tick_now t) →
  fst (lane_a_tick from_str mode schedule (Some (to_rfc3339 s)) t) = true → P s (tick_now t).
Hypothesis P_trans : ∀ s n s' u, P s n → le n s' → P s' u → P s u.
Hypothesis stores : mode = "scheduled" ∨ mode = "hourly".

Lemma fires_after s ticks :
  storable s → (∀ t, t ∈ reads ticks → le s t) → StronglySorted le (reads ticks) →
  Forall storable (tick_stored <$> ticks) →
  Forall (λ u, P s (tick_now u)) (lane_a_fires from_str mode schedule (Some (to_rfc3339 s)) ticks).
Proof.
  revert s. induction ticks as [|t r IH]; intros s Hs Hle Hsorted Hst; simpl; [done|].
  simpl in Hsorted. apply StronglySorted_inv in Hsorted as [Hsorted Hnow].
  apply StronglySorted_inv in Hsorted as [Hsorted Hstored].
  rewrite Forall_forall in Hnow, Hstored.
  apply Forall_cons in Hst as [Ht Hst].
  destruct (lane_a_tick _ _ _ _ t) as [fired last'] eqn:E.
  assert (le s (tick_now t)) by (apply Hle; simpl; set_solver).
  destruct (tick_step mode schedule (Some (to_rfc3339 s)) t stores) as [E'|E']; rewrite E in E'; simplify_eq; simpl.
  - assert (P s (tick_now t)) as HP by (apply gate_spaced; [done..|by rewrite E]).
    constructor; [done|].
    eapply Forall_impl; [apply (IH (tick_stored t)); [done|set_solver|done|done]|].
    intros u HPu. simpl in *. eapply P_trans; [done| |done].
    by apply Hnow, list_elem_of_here.
  - apply IH; [done| |done|done]. intros x Hx. by apply Hle; simpl; do 2 apply list_elem_of_further.
Qed.

Lemma fires_spaced last ticks :
  StronglySorted le (reads ticks) → Forall storable (tick_stored <$> ticks) →
  StronglySorted (λ t u, P (tick_stored t) (tick_now u))
    (lane_a_fires from_str mode schedule last ticks).
Proof.
  revert last. induction ticks as [|t r IH]; intros last Hsorted Hst; simpl; [constructor|].
  simpl in Hsorted. apply StronglySorted_inv in Hsorted as [Hsorted _].
  apply StronglySorted_inv in Hsorted as [Hsorted Hstored].
  rewrite Forall_forall in Hstored. apply Forall_cons in Hst as [Ht Hst].
  destruct (tick_step mode schedule last t stores) as [-> | ->]; simpl; [|by apply IH].
  constructor; [by apply IH|]. by apply fires_after.
Qed.
End spaced.

Definition ce (t : local_time) : Z := num_days_from_ce (date_naive t).

Lemma scheduled_gate_spaced schedule s t :
  storable s → ce s ≤ ce (tick_now t) →
  fst (lane_a_tick from_str "scheduled" schedule (Some (to_rfc3339 s)) t) = true →
  ce s < ce (tick_now t).
Proof.
  intros Hs Hle. destruct (rfc3339_back s Hs) as (f&Hf&Hd&_).
  unfold lane_a_tick, should_project_fire_with_now. simpl. rewrite Hf.
  destruct (schedule ≫= from_str) as [v|]; [|done].
  destruct (scheduled_fires v (Some f) (tick_now t)) eqn:E; [intros _|done].
  revert E. unfold scheduled_fires.
  destruct (now_mins (tick_now t) <? _); [done|]. rewrite Hd.
  destruct (bool_decide_reflect (date_naive s = date_naive (tick_now t))) as [|Hne]; [done|].
  intros _. unfold ce in *.
  enough (num_days_from_ce (date_naive s) ≠ num_days_from_ce (date_naive (tick_now t))) by lia.
  intros Heq. by apply Hne, num_days_inj.
Qed.

(** A "scheduled" project's tick passes its gate at most once per local day:
    over any run of ticks whose clock does not go back to an earlier date,
    the dates of the passing ticks strictly increase. *)
Theorem scheduled_once_per_day schedule last ticks :
  StronglySorted (λ a b, ce a ≤ ce b) (reads ticks) →
  Forall storable (tick_stored <$> ticks) →
  StronglySorted (λ t u, ce (tick_now t) < ce (tick_now u))
    (lane_a_fires from_str "scheduled" schedule last ticks).
Proof.
  intros Hsorted Hst.
  assert (∀ t, t ∈ ticks → ce (tick_now t) ≤ ce (tick_stored t)) as Hrw.
  { clear Hst. induction ticks as [|t r IH]; [set_solver|]. simpl in Hsorted.
    apply StronglySorted_inv in Hsorted as [Hsorted Hn].
    apply StronglySorted_inv in Hsorted as [Hsorted _].
    intros u [->|Hu]%elem_of_cons; [by inversion Hn|auto]. }
  pose proof (fires_spaced "scheduled" schedule (λ a b, ce a ≤ ce b) (λ a b, ce a < ce b)
    (scheduled_gate_spaced schedule) ltac:(simpl; lia) (or_introl eq_refl)
    last ticks Hsorted Hst) as Hsp.
  pose proof (fires_sublist "scheduled" schedule last ticks (or_introl eq_refl)) as Hsub.
  assert (∀ t, t ∈ lane_a_fires from_str "scheduled" schedule last ticks →
    ce (tick_now t) ≤ ce (tick_stored t)) as Hf.
  { intros t Ht. apply Hrw. by eapply elem_of_submseteq, sublist_submseteq. }
  clear Hsub. induction Hsp as [|t r Hr IH Ht]; constructor.
  - apply IH. set_solver.
  - eapply Forall_impl; [done|]. simpl. intros u Hu.
    pose proof (Hf t ltac:(set_solver)). lia.
Qed.

(** The hourly schedule: the interval and the window of its JSON. *)
Definition every_secs (v : Json) : Z := default 300 (u64_field v "every_seconds").
Definition ticks_in_time (ticks : list Tick) : Prop :=
  StronglySorted (λ a b, timestamp a ≤ timestamp b) (reads ticks).
Definition in_i64 (t : local_time) : Prop := 0 ≤ timestamp t < 2 ^ 62.

Lemma hourly_gate_spaced schedule v s t :
  schedule ≫= from_str = Some v → storable s → in_i64 s ∧ in_i64 (tick_now t) →
  timestamp s ≤ timestamp (tick_now t) →
  fst (lane_a_tick from_str "hourly" schedule (Some (to_rfc3339 s)) t) = true →
  every_secs v ≤ timestamp (tick_now t) - timestamp s.
Proof.
  unfold in_i64. intros Hv Hs Hr Hle. destruct (rfc3339_back s Hs) as (f&Hf&_&Hts).
  unfold lane_a_tick, should_project_fire_with_now. simpl. rewrite Hf, Hv.
  destruct (hourly_fires v (Some f) (tick_now t)) eqn:E; [intros _|done].
  revert E. unfold hourly_fires. destruct (negb (in_window _ _ _)); [done|]. rewrite Hts.
  rewrite i64_small by (unfold i64_min, i64_max; lia).
  rewrite u64_small by lia. intros E. by apply Z.leb_le.
Qed.

(** An "hourly" project's passing ticks are spaced: from the time an earlier
    one stores to the time a later one is decided, at least [every_seconds]
    pass, as long as the clock does not run backwards. *)
Theorem hourly_spaced schedule v last ticks :
  schedule ≫= from_str = Some v →
  ticks_in_time ticks → Forall in_i64 (reads ticks) →
  Forall storable (tick_stored <$> ticks) → 0 ≤ every_secs v →
  StronglySorted (λ t u, every_secs v ≤ timestamp (tick_now u) - timestamp (tick_stored t))
    (lane_a_fires from_str "hourly" schedule last ticks).
Proof.
  intros Hv Hsorted Hr Hst Hev.
  apply (fires_spaced "hourly" schedule
      (λ a b, timestamp a ≤ timestamp b ∧ in_i64 a ∧ in_i64 b)
      (λ a b, every_secs v ≤ timestamp b - timestamp a)); [|simpl; lia|auto| |done].
  - intros s t Hs [? ?]. by apply hourly_gate_spaced.
  - clear Hst. unfold ticks_in_time in Hsorted.
    induction Hsorted as [|a l Hl IH Ha]; [constructor|].
    apply Forall_cons in Hr as [Hra Hr]. constructor; [by apply IH|].
    rewrite Forall_forall in Ha, Hr |- *. auto.
Qed.
End runs.

(** ** The preview ends *)

Section preview_bounds.
Context `{Chrono}.
Variable from_str : string → option Json.
Variable wall : Z → local_time.

Lemma preview_turn_iterations mode js p :
  iterations (preview_turn from_str wall mode js p) = iterations p + 1
  ∧ (length (results (preview_turn from_str wall mode js p)) ≤ length (results p) + 1)%nat.
Proof. unfold preview_turn. repeat case_match; simpl; rewrite ?length_app; simpl; lia. Qed.

Lemma preview_loop_ends n count mode js p :
  PREVIEW_MAX_ITERATIONS - iterations p ≤ Z.of_nat n →
  ∃ q, (∀ k, preview_loop from_str wall (n + k) count mode js p = Some q)
    ∧ Z.of_nat (length (results q)) ≤ Z.max (Z.of_nat (length (results p))) count.
Proof.
  revert p. induction n as [|n IH]; intros p Hn.
  - exists p. split; [|lia]. intros k. simpl.
    enough (preview_more count p = false) as E by (destruct k; simpl; by rewrite E).
    unfold preview_more. rewrite (proj2 (Z.ltb_ge (iterations p) PREVIEW_MAX_ITERATIONS)) by lia.
    by rewrite andb_false_r.
  - simpl. destruct (preview_more count p) eqn:E; [|exists p; split; [done|lia]].
    destruct (preview_turn_iterations mode js p) as [Hi Hl].
    destruct (IH (preview_turn from_str wall mode js p) ltac:(lia)) as (q&Hq&Hlen).
    exists q. split; [done|].
    unfold preview_more in E. bool_props. lia.
Qed.

(** The preview always ends within its turn cap, whatever the schedule, the
    clock and the count, and returns at most [PREVIEW_MAX_COUNT] times. *)
Theorem preview_ends mode js count :
  ∃ ts, (∀ k, preview_fire_times from_str wall (Z.to_nat PREVIEW_MAX_ITERATIONS + k) mode js count
      = Some ts)
    ∧ Z.of_nat (length ts) ≤ Z.max 0 (Z.min count PREVIEW_MAX_COUNT).
Proof.
  destruct (preview_loop_ends (Z.to_nat PREVIEW_MAX_ITERATIONS) (Z.min count PREVIEW_MAX_COUNT)
    mode js (mkPreview [] (wall 0) 0 0)) as (q&Hq&Hl);
    [rewrite Z2Nat.id by done; simpl; lia|].
  exists (results q). split; [|exact Hl].
  intros k. unfold preview_fire_times. by rewrite Hq.
Qed.
End preview_bounds.

(** ** A concrete calendar

    The proleptic Gregorian calendar over chrono's years, in the UTC zone,
    with whole-second times and RFC 3339 text for the years 0 to 9999. *)

Module Gregorian.

Definition leap (y : Z) : bool :=
  (y mod 4 =? 0) && (negb (y mod 100 =? 0) || (y mod 400 =? 0)).
Definition month_len (y m : Z) : Z :=
  if m =? 2 then if leap y then 29 else 28
  else if mem_z m [4; 6; 9; 11] then 30 else 31.
Definition MIN_YEAR : Z := -262143.
Definition MAX_YEAR : Z := 262142.

Definition valid (d : Z * Z * Z) : bool :=
  let '(y, m, n) := d in
  (MIN_YEAR <=? y) && (y <=? MAX_YEAR) && (1 <=? m) && (m <=? 12)
  && (1 <=? n) && (n <=? month_len y m).

Definition Date : Type := dsig valid.
Definition d_year (d : Date) : Z := (`d).1.1.
Definition d_month (d : Date) : Z := (`d).1.2.
Definition d_day (d : Date) : Z := (`d).2.

(** Days before the month in its year; days before the year since year 1. *)
Definition before_month (y m : Z) : Z :=
  foldr Z.add 0 (month_len y <$> seqZ 1 (m - 1)).
Definition before_year (y : Z) : Z :=
  365 * (y - 1) + (y - 1) / 4 - (y - 1) / 100 + (y - 1) / 400.
Definition ce_of (y m n : Z) : Z := before_year y + before_month y m + n.
Definition d_ce (d : Date) : Z := ce_of (d_year d) (d_month d) (d_day d).

Definition ymd (y m n : Z) : option Date :=
  match decide (valid (y, m, n)) with
  | left H => Some (dexist (y, m, n) H)
  | right _ => None
  end.

Definition pred (d : Date) : option Date :=
  if 1 <? d_day d then ymd (d_year d) (d_month d) (d_day d - 1)
  else if 1 <? d_month d
  then ymd (d_year d) (d_month d - 1) (month_len (d_year d) (d_month d - 1))
  else ymd (d_year d - 1) 12 31.
Definition succ (d : Date) : option Date :=
  if d_day d <? month_len (d_year d) (d_month d)
  then ymd (d_year d) (d_month d) (d_day d + 1)
  else if d_month d <? 12 then ymd (d_year d) (d_month d + 1) 1
  else ymd (d_year d + 1) 1 1.

Record Time := mkTime { t_date : Date; t_raw : Z }.
Definition t_secs (t : Time) : Z := t_raw t mod 86400.

Definition digit (n : Z) : ascii := ascii_of_nat (Z.to_nat (48 + n)).
Definition two (n : Z) : list ascii := [digit (n / 10 mod 10); digit (n mod 10)].
Definition val (a : ascii) : Z := byte_of a - 48.

(** "YYYY-MM-DDTHH:MM:SS+00:00" and back. *)
Definition print_time (t : Time) : string :=
  let s := t_secs t in
  String.string_of_list_ascii
    (two (d_year (t_date t) / 100) ++ two (d_year (t_date t) mod 100) ++ ["-"%char]
     ++ two (d_month (t_date t)) ++ ["-"%char] ++ two (d_day (t_date t)) ++ ["T"%char]
     ++ two (s / 3600) ++ [":"%char] ++ two (s / 60 mod 60) ++ [":"%char] ++ two (s mod 60)
     ++ String.list_ascii_of_string "+00:00").
Definition read_time (s : string) : option Time :=
  match String.list_ascii_of_string s with
  | [y1; y2; y3; y4; _; m1; m2; _; d1; d2; _; a1; a2; _; b1; b2; _; c1; c2; _; _; _; _; _; _] =>
    d ← ymd (val y1 * 1000 + val y2 * 100 + val y3 * 10 + val y4) (val m1 * 10 + val m2)
          (val d1 * 10 + val d2);
    Some (mkTime d ((val a1 * 10 + val a2) * 3600 + (val b1 * 10 + val b2) * 60
                    + (val c1 * 10 + val c2)))
  | _ => None
  end.

(** Move a time by whole seconds, day by day; chrono's range is not left
    (the code would panic there). *)
Definition next_day (d : Date) : Date := default d (succ d).
Definition add (t : Time) (n : Z) : Time :=
  let s := t_secs t + n in
  mkTime (Nat.iter (Z.to_nat (s / 86400)) next_day (t_date t)) (s mod 86400).

#[export] Instance gregorian : Chrono := {
  date := Date;
  local_time := Time;
  fixed_time := Time;
  date_eq_dec := _;
  year := d_year;
  month := d_month;
  day := d_day;
  ordinal d := before_month (d_year d) (d_month d) + d_day d;
  weekday d := weekday_of_ce (d_ce d);
  num_days_from_ce := d_ce;
  from_ymd_opt := ymd;
  pred_opt := pred;
  hour t := t_secs t / 3600;
  minute t := t_secs t / 60 mod 60;
  timestamp t := (d_ce (t_date t) - 719163) * 86400 + t_secs t;
  date_naive := t_date;
  fixed_timestamp t := (d_ce (t_date t) - 719163) * 86400 + t_secs t;
  with_timezone_local t := t;
  parse_from_rfc3339 := read_time;
  to_rfc3339 := print_time;
  format_minute := print_time;
  add_seconds := add;
  local_midnight d := Some (mkTime d 0)
}.

Lemma val_digit n : 0 ≤ n ≤ 9 → val (digit n) = n.
Proof.
  intros Hn. unfold val, digit, byte_of. rewrite nat_ascii_embedding; lia.
Qed.

Lemma valid_iff y m n :
  valid (y, m, n) = true ↔
  MIN_YEAR ≤ y ≤ MAX_YEAR ∧ 1 ≤ m ≤ 12 ∧ 1 ≤ n ≤ month_len y m.
Proof. unfold valid. rewrite !andb_true_iff, !Z.leb_le. tauto. Qed.

Lemma date_valid (d : Date) : valid (d_year d, d_month d, d_day d) = true.
Proof.
  pose proof (proj2_dsig d) as H. unfold d_year, d_month, d_day.
  destruct (`d) as [[y m] n] eqn:E. simpl. by apply Is_true_true_1.
Qed.

Lemma ymd_Some y m n d : ymd y m n = Some d ↔ d_year d = y ∧ d_month d = m ∧ d_day d = n.
Proof.
  unfold ymd. case_decide as Hv; split.
  - intros [= <-]. done.
  - intros (<-&<-&<-). f_equal. apply dsig_eq. simpl.
    unfold d_year, d_month, d_day. by destruct (`d) as [[??]?].
  - done.
  - intros (<-&<-&<-). destruct Hv. apply Is_true_true_2, date_valid.
Qed.

Lemma ymd_is_Some y m n : valid (y, m, n) = true → is_Some (ymd y m n).
Proof. intros H. unfold ymd. case_decide as Hv; [eauto|]. by destruct Hv; apply Is_true_true_2. Qed.

Lemma month_len_range y m : 28 ≤ month_len y m ≤ 31.
Proof. unfold month_len. repeat case_match; lia. Qed.

Lemma date_range d :
  MIN_YEAR ≤ d_year d ≤ MAX_YEAR ∧ 1 ≤ d_month d ≤ 12
  ∧ 1 ≤ d_day d ≤ month_len (d_year d) (d_month d) ∧ d_day d ≤ 31.
Proof.
  pose proof (date_valid d) as Hv. apply valid_iff in Hv.
  pose proof (month_len_range (d_year d) (d_month d)). lia.
Qed.

Lemma before_month_succ y m :
  1 ≤ m → before_month y (m + 1) = before_month y m + month_len y m.
Proof.
  intros Hm. unfold before_month. replace (m + 1 - 1) with (m - 1 + 1) by lia.
  rewrite seqZ_app by lia. replace (1 + (m - 1)) with m by lia.
  rewrite fmap_app, foldr_app. simpl. replace (Z.of_nat 0 + m) with m by lia.
  induction (month_len y <$> seqZ 1 (m - 1)) as [|x l IH]; simpl; lia.
Qed.

Lemma before_month_table y :
  before_month y 1 = 0 ∧ before_month y 13 = 365 + Z.b2z (leap y).
Proof.
  split; [done|]. unfold before_month.
  replace (seqZ 1 (13 - 1)) with [1; 2; 3; 4; 5; 6; 7; 8; 9; 10; 11; 12] by reflexivity.
  cbn [fmap list_fmap foldr]. unfold month_len. cbn -[Z.add]. by destruct (leap y).
Qed.

Lemma before_month_lt y m k : 1 ≤ m → m < k → before_month y m + month_len y m ≤ before_month y k.
Proof.
  intros Hm Hk. rewrite <- before_month_succ by done.
  replace k with (m + 1 + Z.of_nat (Z.to_nat (k - m - 1))) by lia.
  induction (Z.to_nat (k - m - 1)) as [|j IH]; [replace (m + 1 + Z.of_nat 0) with (m + 1) by lia; lia|].
  replace (m + 1 + Z.of_nat (S j)) with (m + 1 + Z.of_nat j + 1) by lia.
  rewrite (before_month_succ y (m + 1 + Z.of_nat j)) by lia.
  pose proof (month_len_range y (m + 1 + Z.of_nat j)). lia.
Qed.

Lemma before_year_succ y : before_year (y + 1) = before_year y + 365 + Z.b2z (leap y).
Proof.
  unfold before_year, leap. replace (y + 1 - 1) with y by lia.
  assert (∀ k, 0 < k → y / k = (y - 1) / k + Z.b2z (y mod k =? 0)) as Hstep.
  { intros k Hk. pose proof (Z.div_mod y k ltac:(lia)). pose proof (Z.mod_pos_bound y k Hk).
    pose proof (Z.div_mod (y - 1) k ltac:(lia)). pose proof (Z.mod_pos_bound (y - 1) k Hk).
    destruct (Z.eqb_spec (y mod k) 0); simpl; nia. }
  rewrite (Hstep 4), (Hstep 100), (Hstep 400) by lia.
  assert (y mod 400 = 0 → y mod 100 = 0) as H1.
  { rewrite !Z.mod_divide by lia. intros [k ->]. exists (k * 4). lia. }
  assert (y mod 100 = 0 → y mod 4 = 0) as H2.
  { rewrite !Z.mod_divide by lia. intros [k ->]. exists (k * 25). lia. }
  destruct (Z.eqb_spec (y mod 4) 0), (Z.eqb_spec (y mod 100) 0), (Z.eqb_spec (y mod 400) 0);
    simpl; lia.
Qed.

Lemma before_year_lt y z : y < z → before_year y + 365 + Z.b2z (leap y) ≤ before_year z.
Proof.
  intros Hz. rewrite <- before_year_succ.
  replace z with (y + 1 + Z.of_nat (Z.to_nat (z - y - 1))) by lia.
  induction (Z.to_nat (z - y - 1)) as [|j IH]; [replace (y + 1 + Z.of_nat 0) with (y + 1) by lia; lia|].
  replace (y + 1 + Z.of_nat (S j)) with (y + 1 + Z.of_nat j + 1) by lia.
  rewrite (before_year_succ (y + 1 + Z.of_nat j)). destruct (leap (y + 1 + Z.of_nat j)); simpl; lia.
Qed.

(** Day numbers follow the (year, month, day) order. *)
Lemma d_ce_order d e :
  d_year d < d_year e ∨ (d_year d = d_year e ∧ d_month d < d_month e) → d_ce d < d_ce e.
Proof.
  pose proof (date_range d) as Hd. pose proof (date_range e) as He.
  unfold d_ce, ce_of. intros [Hy|[Hy Hm]].
  - pose proof (before_year_lt _ _ Hy). destruct (before_month_table (d_year d)) as [_ H13].
    pose proof (before_month_lt (d_year d) (d_month d) 13 ltac:(lia) ltac:(lia)).
    assert (0 ≤ before_month (d_year e) (d_month e)).
    { pose proof (proj1 (before_month_table (d_year e))).
      destruct (Z.eq_dec (d_month e) 1) as [-> |]; [lia|].
      pose proof (before_month_lt (d_year e) 1 (d_month e) ltac:(lia) ltac:(lia)).
      pose proof (month_len_range (d_year e) 1). lia. }
    lia.
  - rewrite <- Hy in *. pose proof (before_month_lt (d_year d) (d_month d) (d_month e) ltac:(lia) Hm). lia.
Qed.

Lemma date_eq (d e : Date) :
  d_year d = d_year e → d_month d = d_month e → d_day d = d_day e → d = e.
Proof.
  intros Hy Hm Hn. apply dsig_eq. unfold d_year, d_month, d_day in *.
  destruct (`d) as [[??]?], (`e) as [[??]?]. simpl in *. congruence.
Qed.

Lemma d_ce_inj d e : d_ce d = d_ce e → d = e.
Proof.
  intros Hce. pose proof (d_ce_order d e). pose proof (d_ce_order e d).
  assert (d_year d = d_year e) as Hy by lia. assert (d_month d = d_month e) as Hm by lia.
  apply date_eq; [done..|]. unfold d_ce, ce_of in Hce. rewrite Hy, Hm in Hce. lia.
Qed.

Lemma d_ce_ymd y m n d : ymd y m n = Some d → d_ce d = ce_of y m n.
Proof. intros (<-&<-&<-)%ymd_Some. done. Qed.

Lemma pred_ce d p : pred d = Some p → d_ce p = d_ce d - 1.
Proof.
  pose proof (date_range d) as Hd. unfold pred.
  destruct (Z.ltb_spec 1 (d_day d)); [|destruct (Z.ltb_spec 1 (d_month d))];
    intros ->%d_ce_ymd; unfold d_ce, ce_of; [lia| |].
  - pose proof (before_month_succ (d_year d) (d_month d - 1) ltac:(lia)) as Hs.
    replace (d_month d - 1 + 1) with (d_month d) in Hs by lia. lia.
  - replace (d_month d) with 1 by lia.
    pose proof (before_year_succ (d_year d - 1)) as Hs.
    replace (d_year d - 1 + 1) with (d_year d) in Hs by lia.
    pose proof (proj1 (before_month_table (d_year d))).
    pose proof (proj2 (before_month_table (d_year d - 1))).
    pose proof (before_month_succ (d_year d - 1) 12 ltac:(lia)) as Hm.
    change (month_len (d_year d - 1) 12) with 31 in Hm. change (12 + 1) with 13 in Hm. lia.
Qed.

Lemma pred_first d p :
  pred d = Some p → d_day d = 1 →
  if d_month d =? 1 then d_year p = d_year d - 1 ∧ d_month p = 12
  else d_year p = d_year d ∧ d_month p = d_month d - 1.
Proof.
  pose proof (date_range d). unfold pred. intros Hp Hd. rewrite Hd in Hp. simpl in Hp.
  destruct (Z.eqb_spec (d_month d) 1) as [Hm|Hm].
  - rewrite Hm in Hp. simpl in Hp. apply ymd_Some in Hp. tauto.
  - destruct (Z.ltb_spec 1 (d_month d)); [|lia]. apply ymd_Some in Hp. tauto.
Qed.

Lemma month_fill d k : 1 ≤ k ≤ d_day d → is_Some (ymd (d_year d) (d_month d) k).
Proof.
  intros Hk. pose proof (date_range d). apply ymd_is_Some, valid_iff. lia.
Qed.

Lemma t_secs_range t : 0 ≤ t_secs t < 86400.
Proof. unfold t_secs. apply Z.mod_pos_bound. lia. Qed.

Lemma two_back n : 0 ≤ n < 100 → ∃ a b, two n = [a; b] ∧ val a * 10 + val b = n.
Proof.
  intros Hn. eexists _, _. split; [done|].
  pose proof (Z.div_mod n 10 ltac:(lia)). pose proof (Z.mod_pos_bound n 10 ltac:(lia)).
  rewrite (Z.mod_small (n / 10)) by lia. rewrite !val_digit by lia. lia.
Qed.

Lemma read_print t : 0 ≤ d_year (t_date t) ≤ 9999 →
  ∃ f, read_time (print_time t) = Some f ∧ t_date f = t_date t ∧ t_secs f = t_secs t.
Proof.
  intros Hy. pose proof (date_range (t_date t)) as Hd. pose proof (t_secs_range t) as Hs.
  set (y := d_year (t_date t)) in *. set (s := t_secs t) in *.
  pose proof (Z.div_mod y 100 ltac:(lia)). pose proof (Z.mod_pos_bound y 100 ltac:(lia)).
  pose proof (Z.div_mod s 60 ltac:(lia)). pose proof (Z.mod_pos_bound s 60 ltac:(lia)).
  pose proof (Z.div_mod (s / 60) 60 ltac:(lia)).
  pose proof (Z.mod_pos_bound (s / 60) 60 ltac:(lia)).
  assert (s / 3600 = s / 60 / 60) as Hh by (rewrite Z.div_div by lia; done).
  unfold print_time. fold y s. rewrite Hh.
  destruct (two_back (y / 100) ltac:(lia)) as (a1&a2&->&E1).
  destruct (two_back (y mod 100) ltac:(lia)) as (b1&b2&->&E2).
  destruct (two_back (d_month (t_date t)) ltac:(lia)) as (m1&m2&->&E3).
  destruct (two_back (d_day (t_date t)) ltac:(lia)) as (n1&n2&->&E4).
  destruct (two_back (s / 60 / 60) ltac:(lia)) as (h1&h2&->&E5).
  destruct (two_back ((s / 60) mod 60) ltac:(lia)) as (i1&i2&->&E6).
  destruct (two_back (s mod 60) ltac:(lia)) as (j1&j2&->&E7).
  unfold read_time. rewrite String.list_ascii_of_string_of_list_ascii. cbn -[Z.add Z.mul val ymd].
  rewrite E3, E4, E5, E6, E7.
  replace (val a1 * 1000 + val a2 * 100 + val b1 * 10 + val b2) with y by lia.
  rewrite (proj2 (ymd_Some _ _ _ (t_date t))) by done. simpl.
  eexists. split; [done|]. split; [done|]. unfold t_secs at 1. simpl.
  rewrite Z.mod_small; lia.
Qed.

#[export] Instance gregorian_laws : ChronoLaws.
Proof.
  split; cbn [month day year weekday num_days_from_ce from_ymd_opt pred_opt date_naive
    parse_from_rfc3339 to_rfc3339 with_timezone_local fixed_timestamp timestamp gregorian].
  - intros d. pose proof (date_range d). lia.
  - intros d. pose proof (date_range d). lia.
  - done.
  - apply d_ce_inj.
  - intros d e Hy Hm. unfold d_ce, ce_of. rewrite Hy, Hm. lia.
  - apply d_ce_order.
  - apply ymd_Some.
  - apply month_fill.
  - apply pred_ce.
  - apply pred_first.
  - intros t (f&?&Hd&Hs)%read_print. exists f. rewrite Hd, Hs. done.
Qed.
End Gregorian.

(** ** Concrete runs *)

Section examples.
Import Gregorian.

Definition the_date (y m n : Z) : date :=
  default (dexist (2026, 1, 1) I) (ymd y m n).
Definition at_time (y m n h i : Z) : local_time := mkTime (the_date y m n) (h * 3600 + i * 60).

(** A stand-in for the JSON parser on the two texts below. *)
Definition sample_json (s : string) : option Json :=
  if (s =? "daily at nine")%string then
    Some (JObject [("frequency", JString "daily"); ("time", JString "09:00")])
  else if (s =? "every half hour")%string then
    Some (JObject [("start", JString "09:00"); ("end", JString "17:00");
                   ("every_seconds", JNumber (PosInt 1800))])
  else None.

Definition sample_ticks : list Tick :=
  [mkTick (at_time 2026 4 19 8 59) (at_time 2026 4 19 8 59);
   mkTick (at_time 2026 4 19 9 0) (at_time 2026 4 19 9 0);
   mkTick (at_time 2026 4 19 9 10) (at_time 2026 4 19 9 10);
   mkTick (at_time 2026 4 19 9 40) (at_time 2026 4 19 9 40);
   mkTick (at_time 2026 4 20 9 5) (at_time 2026 4 20 9 5)].

Example daily_run :
  (λ t, t_secs (tick_now t)) <$>
    lane_a_fires sample_json "scheduled" (Some "daily at nine") None sample_ticks
  = [9 * 3600; 9 * 3600 + 300].
Proof. vm_compute. reflexivity. Qed.
Example half_hour_run :
  (λ t, t_secs (tick_now t)) <$>
    lane_a_fires sample_json "hourly" (Some "every half hour") None sample_ticks
  = [9 * 3600; 9 * 3600 + 2400; 9 * 3600 + 300].
Proof. vm_compute. reflexivity. Qed.

(** The parse takes any two numbers: "25:00" is a minute past the end of the
    day, and a schedule at that time never fires. *)
Example hhmm_past_the_day : parse_hhmm_mins "25:00" = Some 1500.
Proof. reflexivity. Qed.
(** A row with a legacy mode passes the tick's gate whatever its schedule
    says, and stores no last fire. *)
Lemma legacy_mode_ungated schedule last t :
  lane_a_tick sample_json "daily" schedule last t = (true, last).
Proof. reflexivity. Qed.
(** "first" with the default day type holds on the seventh, too. *)
Example first_day_is_a_week :
  matches_ordinal_day (the_date 2026 4 7) "first" "day" = true.
Proof. vm_compute. reflexivity. Qed.

Lemma sorted_of_bool {A} (f : A → Z) (l : list A) :
  (fix go l := match l with
    | [] => true
    | a :: r => forallb (λ b, f a <=? f b) r && go r
    end) l = true → StronglySorted (λ a b, f a ≤ f b) l.
Proof.
  induction l as [|a l IH]; intros H; constructor; bool_props; [by apply IH|].
  apply Forall_forall. intros b Hb. apply Z.leb_le.
  match goal with H : forallb _ _ = true |- _ => rewrite forallb_true in H; by apply H end.
Qed.

Lemma ordinal_weekday_exact_witness :
  matches_ordinal_day (the_date 2026 4 13) "second" "monday" = true.
Proof.
  apply (ordinal_weekday_exact (the_date 2026 4 13) "second" 2 "monday" Mon);
    [reflexivity..|vm_compute; done].
Defined.

Lemma may_first :
  (if month (the_date 2026 4 28) =? 12 then from_ymd_opt (year (the_date 2026 4 28) + 1) 1 1
   else from_ymd_opt (year (the_date 2026 4 28)) (month (the_date 2026 4 28) + 1) 1)
  = Some (the_date 2026 5 1).
Proof.
  assert (year (the_date 2026 4 28) = 2026) as -> by (vm_compute; reflexivity).
  assert (month (the_date 2026 4 28) = 4) as -> by (vm_compute; reflexivity).
  apply ymd_Some. vm_compute. auto.
Qed.
Lemma may_first_pred : is_Some (pred_opt (the_date 2026 5 1)).
Proof.
  cbn [pred_opt gregorian]. unfold pred.
  assert ((1 <? d_day (the_date 2026 5 1)) = false) as -> by (vm_compute; reflexivity).
  assert ((1 <? d_month (the_date 2026 5 1)) = true) as -> by (vm_compute; reflexivity).
  apply ymd_is_Some. vm_compute. reflexivity.
Qed.
Lemma last_tuesday : matches_ordinal_day (the_date 2026 4 28) "last" "tuesday" = true.
Proof. vm_compute. reflexivity. Qed.

Lemma ordinal_last_exact_witness :
  let d := the_date 2026 4 28 in
  weekday d = Tue ∧
  ∀ e : date, year e = year d → month e = month d → weekday e = weekday d → day e ≤ day d.
Proof.
  exact (proj1 (ordinal_last_exact (the_date 2026 4 28) (the_date 2026 5 1) "tuesday" Tue
    eq_refl may_first may_first_pred) last_tuesday).
Defined.

Lemma scheduled_once_per_day_witness :
  StronglySorted (λ t u, ce (tick_now t) < ce (tick_now u))
    (lane_a_fires sample_json "scheduled" (Some "daily at nine") None sample_ticks).
Proof.
  apply (scheduled_once_per_day sample_json (Some "daily at nine") None sample_ticks).
  - apply sorted_of_bool. vm_compute. reflexivity.
  - repeat constructor; vm_compute; done.
Defined.

Lemma hourly_spaced_witness :
  StronglySorted (λ t u, 1800 ≤ timestamp (tick_now u) - timestamp (tick_stored t))
    (lane_a_fires sample_json "hourly" (Some "every half hour") None sample_ticks).
Proof.
  apply (hourly_spaced sample_json (Some "every half hour")
    (default JNull (sample_json "every half hour")) None sample_ticks).
  - reflexivity.
  - apply sorted_of_bool. vm_compute. reflexivity.
  - repeat constructor; vm_compute; done.
  - repeat constructor; vm_compute; done.
  - vm_compute. done.
Defined.
End examples.
