(* ===== verification/BoolCoder.v ===== *)
(** * BoolCoder: the boolean entropy coder of VP8 (vp8-decoder/src/bool_encoder.rs,
    bool_decoder.rs)

    The encoder keeps a 32-bit [bottom] whose carries run back into the bytes
    already written; the decoder keeps a 64-bit window of the partition and
    refills it a byte at a time, with zeros past the end.  The theorems say
    that every sequence of symbols (bools, literals, optional signed values,
    tree values) read back from what was written, whatever bytes follow the
    partition, is the sequence written. *)

From S2P Require Import Prelude.

(** [1 + (((range - 1) * prob) >> 8)]: the part of the range of a 0 bit. *)
Definition split (range prob : Z) : Z := 1 + Z.shiftr ((range - 1) * prob) 8.

(** ** The encoder *)

Record BoolEncoder := mkEnc {
  out : list Z;
  e_range : Z;
  bottom : Z;
  bit_count : Z
}.

Definition BoolEncoder_new : BoolEncoder := mkEnc [] 255 0 24.

(** The carry, from the last byte written backwards. *)
Fixpoint carry_back (rev_out : list Z) : list Z :=
  match rev_out with
  | [] => []
  | b :: r => if b =? 255 then 0 :: carry_back r else b + 1 :: r
  end.
Definition add_one_to_output (o : list Z) : list Z := rev (carry_back (rev o)).

(** One turn of the normalising loop of [write]. *)
Definition enc_shift (e : BoolEncoder) : BoolEncoder :=
  let o := if Z.testbit (bottom e) 31 then add_one_to_output (out e) else out e in
  let b := u32 (Z.shiftl (bottom e) 1) in
  let c := bit_count e - 1 in
  let r := Z.shiftl (e_range e) 1 in
  if c =? 0
  then mkEnc (o ++ [u8 (Z.shiftr b 24)]) r (Z.land b (Z.ones 24)) 8
  else mkEnc o r b c.

Fixpoint enc_norm (fuel : nat) (e : BoolEncoder) : BoolEncoder :=
  match fuel with
  | O => e
  | S fuel => if e_range e <? 128 then enc_norm fuel (enc_shift e) else e
  end.

Definition write (e : BoolEncoder) (prob : Z) (bit : bool) : BoolEncoder :=
  let s := split (e_range e) prob in
  enc_norm 8
    (if bit then mkEnc (out e) (e_range e - s) (u32 (bottom e + s)) (bit_count e)
     else mkEnc (out e) s (bottom e) (bit_count e)).

Definition write_bit (e : BoolEncoder) (bit : bool) : BoolEncoder := write e 128 bit.

(** The low [n] bits of [v], the highest first. *)
Fixpoint write_literal (e : BoolEncoder) (v : Z) (n : nat) : BoolEncoder :=
  match n with
  | O => e
  | S n => write_literal (write e 128 (Z.land (Z.shiftr v (Z.of_nat n)) 1 =? 1)) v n
  end.

Definition write_optional_signed (e : BoolEncoder) (v : Z) (n : nat) : BoolEncoder :=
  let e := write_bit e (negb (v =? 0)) in
  if negb (v =? 0) then write_bit (write_literal e (Z.abs v) n) (v <? 0) else e.

(** The depth-first search for a leaf; [Panic] is an index out of bounds (of
    the tree, or of the 16-entry path). *)
Inductive TreeSearch :=
| Found (path : list (Z * bool))
| NotFound
| Panic.

Fixpoint tree_path (depth_left : nat) (tree : list Z) (node value : Z) : TreeSearch :=
  match depth_left with
  | O => Panic
  | S depth_left =>
    let branch (bit : bool) (otherwise : TreeSearch) :=
      match tree !! Z.to_nat (node + Z.b2z bit) with
      | None => Panic
      | Some next =>
        if next <=? 0 then
          if u8 (- next) =? value then Found [(node, bit)] else otherwise
        else match tree_path depth_left tree next value with
             | Found p => Found ((node, bit) :: p)
             | NotFound => otherwise
             | Panic => Panic
             end
      end in
    branch false (branch true NotFound)
  end.

Fixpoint write_path (e : BoolEncoder) (probs : list Z) (path : list (Z * bool))
    : option BoolEncoder :=
  match path with
  | [] => Some e
  | (node, bit) :: r =>
    prob ← probs !! Z.to_nat (Z.shiftr node 1);
    write_path (write e prob bit) probs r
  end.

Definition write_tree (e : BoolEncoder) (tree probs : list Z) (value : Z) : option BoolEncoder :=
  match tree_path 16 tree 0 value with
  | Found path => write_path e probs path
  | NotFound | Panic => None
  end.

Fixpoint push_bytes (n : nat) (o : list Z) (v : Z) : list Z :=
  match n with
  | O => o
  | S n => push_bytes n (o ++ [u8 (Z.shiftr v 24)]) (u32 (Z.shiftl v 8))
  end.

Definition finish (e : BoolEncoder) : list Z :=
  let c := bit_count e in
  let v := bottom e in
  let o := if Z.testbit v (32 - c) then add_one_to_output (out e) else out e in
  let v := u32 (Z.shiftl v (Z.land c 7)) in
  let v := Nat.iter (Z.to_nat (Z.shiftr c 3)) (λ v, u32 (Z.shiftl v 8)) v in
  push_bytes 4 o v.

(** ** The decoder *)

Record BoolDecoder := mkDec {
  data : list Z;
  pos : nat;
  value : Z;
  count : Z;
  d_range : Z
}.

Definition VALUE_BITS : Z := 64.

Fixpoint fill_loop (fuel : nat) (shift : Z) (d : BoolDecoder) : BoolDecoder :=
  match fuel with
  | O => d
  | S fuel =>
    if 0 <=? shift then
      match data d !! pos d with
      | Some b =>
        fill_loop fuel (shift - 8)
          (mkDec (data d) (S (pos d)) (Z.lor (value d) (Z.shiftl b shift)) (count d + 8) (d_range d))
      | None => mkDec (data d) (pos d) (value d) 0x40000000 (d_range d)
      end
    else d
  end.
Definition fill (d : BoolDecoder) : BoolDecoder :=
  fill_loop 8 (VALUE_BITS - 8 - (count d + 8)) d.

Definition BoolDecoder_new (bytes : list Z) : BoolDecoder := fill (mkDec bytes 0 0 (-8) 255).

(** [u32::leading_zeros]. *)
Definition leading_zeros (x : Z) : Z := if x =? 0 then 32 else 31 - Z.log2 x.

Definition read (d : BoolDecoder) (prob : Z) : bool * BoolDecoder :=
  let s := split (d_range d) prob in
  let d := if count d <? 0 then fill d else d in
  let big_split := Z.shiftl s (VALUE_BITS - 8) in
  let '(bit, range, v) :=
    if big_split <=? value d then (true, d_range d - s, value d - big_split)
    else (false, s, value d) in
  let shift := leading_zeros range - 24 in
  (bit, mkDec (data d) (pos d) (u64 (Z.shiftl v shift)) (count d - shift)
          (u32 (Z.shiftl range shift))).

Definition read_bit (d : BoolDecoder) : bool * BoolDecoder := read d 128.

Fixpoint literal_loop (n : nat) (v : Z) (d : BoolDecoder) : Z * BoolDecoder :=
  match n with
  | O => (v, d)
  | S n =>
    let '(bit, d) := read_bit d in
    literal_loop n (Z.lor (u32 (Z.shiftl v 1)) (Z.b2z bit)) d
  end.
Definition read_literal (d : BoolDecoder) (n : nat) : Z * BoolDecoder := literal_loop n 0 d.

(** [x as i32] of a u32. *)
Definition as_i32 (x : Z) : Z := (x + 2 ^ 31) mod 2 ^ 32 - 2 ^ 31.

Definition read_optional_signed (d : BoolDecoder) (n : nat) : Z * BoolDecoder :=
  let '(some, d) := read_bit d in
  if negb some then (0, d)
  else
    let '(v, d) := read_literal d n in
    let v := as_i32 v in
    let '(neg, d) := read_bit d in
    (if neg then as_i32 (- v) else v, d).

(** [None] is an index out of bounds (or no fuel left). *)
Fixpoint read_tree_from (fuel : nat) (d : BoolDecoder) (tree probs : list Z) (i : Z)
    : option (Z * BoolDecoder) :=
  match fuel with
  | O => None
  | S fuel =>
    prob ← probs !! Z.to_nat (Z.shiftr i 1);
    let '(bit, d) := read d prob in
    n ← tree !! Z.to_nat (i + Z.b2z bit);
    if n <=? 0 then Some (u8 (- n), d) else read_tree_from fuel d tree probs n
  end.
Definition read_tree (fuel : nat) (d : BoolDecoder) (tree probs : list Z)
    : option (Z * BoolDecoder) := read_tree_from fuel d tree probs 0.

(** ** Symbols: what a bitstream writer and its reader agree on *)

Inductive Sym :=
| S_bool (prob : Z) (bit : bool)
| S_literal (v : Z) (n : nat)
| S_signed (v : Z) (n : nat)
| S_tree (tree probs : list Z) (v : Z).

Definition enc_sym (e : BoolEncoder) (s : Sym) : option BoolEncoder :=
  match s with
  | S_bool prob bit => Some (write e prob bit)
  | S_literal v n => Some (write_literal e v n)
  | S_signed v n => Some (write_optional_signed e v n)
  | S_tree tree probs v => write_tree e tree probs v
  end.

(** Reading uses the shape of the symbol only, never its value. *)
Definition dec_sym (d : BoolDecoder) (s : Sym) : option (Z * BoolDecoder) :=
  match s with
  | S_bool prob _ => let '(bit, d) := read d prob in Some (Z.b2z bit, d)
  | S_literal _ n => Some (read_literal d n)
  | S_signed _ n => Some (read_optional_signed d n)
  | S_tree tree probs _ => read_tree 16 d tree probs
  end.

Definition sym_value (s : Sym) : Z :=
  match s with
  | S_bool _ bit => Z.b2z bit
  | S_literal v _ => v
  | S_signed v _ => v
  | S_tree _ _ v => v
  end.

Fixpoint enc_syms (e : BoolEncoder) (l : list Sym) : option BoolEncoder :=
  match l with
  | [] => Some e
  | s :: r => e ← enc_sym e s; enc_syms e r
  end.
Fixpoint dec_syms (d : BoolDecoder) (l : list Sym) : option (list Z) :=
  match l with
  | [] => Some []
  | s :: r => '(v, d) ← dec_sym d s; vs ← dec_syms d r; Some (v :: vs)
  end.

(** ** Byte strings as numbers *)

(** Little-endian and big-endian values. *)
Fixpoint le_val (l : list Z) : Z :=
  match l with
  | [] => 0
  | b :: r => b + 256 * le_val r
  end.
Definition be_val (l : list Z) : Z := le_val (rev l).

Lemma le_val_app a b : le_val (a ++ b) = le_val a + 2 ^ (8 * zlen a) * le_val b.
Proof.
  unfold zlen. induction a as [|x a IH]; [cbn; lia|].
  cbn [app le_val length]. rewrite IH, Nat2Z.inj_succ.
  replace (8 * Z.succ (Z.of_nat (length a))) with (8 + 8 * Z.of_nat (length a)) by lia.
  rewrite Z.pow_add_r by lia. change (2 ^ 8) with 256. lia.
Qed.
Lemma le_val_bound l : Forall is_byte l → 0 ≤ le_val l < 2 ^ (8 * zlen l).
Proof.
  unfold zlen. induction 1 as [|x l Hx _ IH]; [cbn; lia|]. unfold is_byte in Hx.
  cbn [le_val length]. rewrite Nat2Z.inj_succ.
  replace (8 * Z.succ (Z.of_nat (length l))) with (8 + 8 * Z.of_nat (length l)) by lia.
  rewrite Z.pow_add_r by lia. change (2 ^ 8) with 256. lia.
Qed.

Lemma be_val_app a b : be_val (a ++ b) = be_val a * 2 ^ (8 * zlen b) + be_val b.
Proof.
  unfold be_val. rewrite rev_app_distr, le_val_app, zlen_rev. ring.
Qed.
Lemma be_val_single b : be_val [b] = b.
Proof. unfold be_val. simpl. lia. Qed.
Lemma be_val_snoc a b : be_val (a ++ [b]) = be_val a * 256 + b.
Proof. rewrite be_val_app, be_val_single. reflexivity. Qed.
Lemma be_val_bound l : Forall is_byte l → 0 ≤ be_val l < 2 ^ (8 * zlen l).
Proof. intros H. rewrite <- zlen_rev. by apply le_val_bound, Forall_rev_byte. Qed.

Lemma carry_back_spec l :
  Forall is_byte l → le_val l + 1 < 2 ^ (8 * zlen l) →
  le_val (carry_back l) = le_val l + 1 ∧ zlen (carry_back l) = zlen l
  ∧ Forall is_byte (carry_back l).
Proof.
  intros Hl. induction Hl as [|b l Hb Hl IH]; [by vm_compute|]. intros Hlt. unfold is_byte in Hb.
  rewrite zlen_cons in Hlt. cbn [le_val] in Hlt. pose proof (zlen_nonneg l).
  replace (8 * (1 + zlen l)) with (8 + 8 * zlen l) in Hlt by lia.
  rewrite Z.pow_add_r in Hlt by lia. change (2 ^ 8) with 256 in Hlt.
  cbn [carry_back]. destruct (Z.eqb_spec b 255) as [-> |Hne].
  - destruct IH as (IH1&IH2&IH3); [lia|]. cbn [le_val]. rewrite IH1, !zlen_cons, IH2.
    split_and!; [lia|lia|]. constructor; [done|done].
  - cbn [le_val]. rewrite !zlen_cons. split_and!; [lia|lia|].
    constructor; [unfold is_byte; lia|done].
Qed.

Lemma add_one_spec o :
  Forall is_byte o → be_val o + 1 < 2 ^ (8 * zlen o) →
  be_val (add_one_to_output o) = be_val o + 1 ∧ zlen (add_one_to_output o) = zlen o
  ∧ Forall is_byte (add_one_to_output o).
Proof.
  intros Ho Hlt. unfold be_val, add_one_to_output. rewrite zlen_rev, rev_involutive.
  rewrite <- zlen_rev in Hlt.
  destruct (carry_back_spec (rev o) (Forall_rev_byte o Ho) Hlt) as (H1&H2&H3).
  split_and!; [done|by rewrite H2, zlen_rev|by apply Forall_rev_byte].
Qed.

(** ** The exact coder

    [nshift] doublings bring a range back to 128..255.  [code range items] is
    the offset [items] add to the low end of the interval, in units of
    [2 ^ -n] of the start, the number [n] of doublings, and the last range. *)

Definition nshift (r : Z) : Z := 7 - Z.log2 r.

Lemma nshift_double r : 1 ≤ r → nshift r = 1 + nshift (2 * r).
Proof.
  intros Hr. unfold nshift. rewrite Z.log2_double by lia. lia.
Qed.
Lemma nshift_full r : 128 ≤ r ≤ 255 → nshift r = 0.
Proof.
  intros Hr. unfold nshift. rewrite (Z.log2_unique r 7); [lia|lia|]. simpl. lia.
Qed.
Lemma nshift_spec r : 1 ≤ r ≤ 255 → 0 ≤ nshift r ≤ 7 ∧ 128 ≤ r * 2 ^ nshift r ≤ 255.
Proof.
  intros Hr. pose proof (Z.log2_spec r ltac:(lia)) as Hl.
  pose proof (Z.log2_nonneg r).
  assert (Z.log2 r ≤ 7) by (apply (Z.log2_le_mono r 255); lia).
  unfold nshift. split; [lia|].
  assert (2 ^ 7 = 2 ^ Z.log2 r * 2 ^ (7 - Z.log2 r)) as E
    by (rewrite <- Z.pow_add_r by lia; f_equal; lia).
  assert (2 ^ 8 = 2 ^ Z.succ (Z.log2 r) * 2 ^ (7 - Z.log2 r)) as E2
    by (rewrite <- Z.pow_add_r by lia; f_equal; lia).
  assert (0 < 2 ^ (7 - Z.log2 r)) by (apply Z.pow_pos_nonneg; lia).
  change (2 ^ 7) with 128 in E. change (2 ^ 8) with 256 in E2. nia.
Qed.

Lemma split_range r p : 128 ≤ r ≤ 255 → is_byte p → 1 ≤ split r p < r.
Proof.
  unfold is_byte, split. intros Hr Hp. rewrite Z.shiftr_div_pow2 by lia. change (2 ^ 8) with 256.
  pose proof (Z.div_mod ((r - 1) * p) 256 ltac:(lia)).
  pose proof (Z.mod_pos_bound ((r - 1) * p) 256 ltac:(lia)). nia.
Qed.

Definition part (r p : Z) (b : bool) : Z := if b then r - split r p else split r p.
Definition low (r p : Z) (b : bool) : Z := if b then split r p else 0.

Lemma part_range r p b : 128 ≤ r ≤ 255 → is_byte p → 1 ≤ part r p b ≤ 255.
Proof. intros Hr Hp. pose proof (split_range r p Hr Hp). unfold part. destruct b; lia. Qed.
Lemma part_low r p b : 128 ≤ r ≤ 255 → is_byte p → 0 ≤ low r p b ∧ low r p b + part r p b ≤ r.
Proof. intros Hr Hp. pose proof (split_range r p Hr Hp). unfold part, low. destruct b; lia. Qed.

Fixpoint code (r : Z) (items : list (Z * bool)) : Z * Z * Z :=
  match items with
  | [] => (0, 0, r)
  | (p, b) :: rest =>
    let k := nshift (part r p b) in
    let '(l, n, rf) := code (part r p b * 2 ^ k) rest in
    (low r p b * 2 ^ (k + n) + l, k + n, rf)
  end.

Definition probs_ok (items : list (Z * bool)) : Prop := Forall (λ i, is_byte i.1) items.

Lemma code_bounds items r :
  128 ≤ r ≤ 255 → probs_ok items →
  let '(l, n, rf) := code r items in
  0 ≤ l ∧ l + rf ≤ r * 2 ^ n ∧ 0 ≤ n ∧ 128 ≤ rf ≤ 255.
Proof.
  revert r. induction items as [|[p b] items IH]; intros r Hr Hp; [cbn; lia|].
  apply Forall_cons in Hp as [Hpb Hp]. cbn [fst] in Hpb. cbn [code].
  pose proof (nshift_spec _ (part_range r p b Hr Hpb)) as [Hk Hr'].
  pose proof (part_low r p b Hr Hpb) as [Hlow Hsum].
  specialize (IH (part r p b * 2 ^ nshift (part r p b)) Hr' Hp).
  destruct (code _ items) as [[l n] rf]. destruct IH as (Hl&Hlr&Hn&Hrf).
  rewrite <- Z.mul_assoc, <- Z.pow_add_r in Hlr by lia.
  assert (0 < 2 ^ (nshift (part r p b) + n)) by (apply Z.pow_pos_nonneg; lia).
  split_and!; [nia|nia|lia|lia|lia].
Qed.

(** ** The encoder computes the low end *)

(** [e] has emitted the low end [l] of an interval, in units of [2 ^ -n]. *)
Record enc_at (e : BoolEncoder) (l n : Z) : Prop := {
  ea_bytes : Forall is_byte (out e);
  ea_count : 1 ≤ bit_count e ≤ 24;
  ea_range : 1 ≤ e_range e ≤ 255;
  ea_bottom : 0 ≤ bottom e;
  ea_slack : (bottom e + e_range e) * 2 ^ bit_count e ≤ 2 ^ 32 + 65024;
  ea_low : l = be_val (out e) * 2 ^ (32 - bit_count e) + bottom e;
  ea_bits : n = 8 * zlen (out e) + 24 - bit_count e;
  ea_inside : l + e_range e ≤ 255 * 2 ^ n
}.

Lemma pow2_pos n : 0 ≤ n → 0 < 2 ^ n.
Proof. intros. by apply Z.pow_pos_nonneg. Qed.
Lemma pow2_succ n : 0 ≤ n → 2 ^ (n + 1) = 2 * 2 ^ n.
Proof. intros. by rewrite Z.pow_add_r, Z.mul_comm by lia. Qed.

Lemma enc_new_at : enc_at BoolEncoder_new 0 0.
Proof. split; cbn; try lia; constructor. Qed.

Lemma ea_nonneg e l n : enc_at e l n → 0 ≤ l.
Proof.
  intros [Hb Hc _ Hbot _ -> _ _]. pose proof (be_val_bound _ Hb).
  pose proof (pow2_pos (32 - bit_count e) ltac:(lia)). nia.
Qed.

(** A carry out of [bottom] has room in the bytes written. *)
Lemma carry_fits e l n k :
  enc_at e l n → k = 32 - bit_count e → 2 ^ k ≤ bottom e →
  be_val (out e) + 1 < 2 ^ (8 * zlen (out e)).
Proof.
  intros [Hb Hc Hr Hbot _ Hl Hn Hin] -> Hcarry. pose proof (zlen_nonneg (out e)).
  pose proof (pow2_pos (32 - bit_count e) ltac:(lia)) as Hpos.
  assert (255 * 2 ^ n < 2 ^ (8 + n)) as Hlt.
  { rewrite Z.pow_add_r by lia. change (2 ^ 8) with 256.
    pose proof (pow2_pos n ltac:(lia)). lia. }
  replace (8 + n) with (8 * zlen (out e) + (32 - bit_count e)) in Hlt by lia.
  rewrite Z.pow_add_r in Hlt by lia. nia.
Qed.

Lemma enc_shift_at e l n :
  enc_at e l n → e_range e < 128 →
  enc_at (enc_shift e) (2 * l) (n + 1) ∧ e_range (enc_shift e) = 2 * e_range e.
Proof.
  intros He Hr. pose proof He as [Hb Hc Hrange Hbot Hslack Hl Hn Hin].
  pose proof (zlen_nonneg (out e)). pose proof (be_val_bound _ Hb).
  assert (0 ≤ n) by lia.
  assert (2 * l + 2 * e_range e ≤ 255 * 2 ^ (n + 1)) by (rewrite pow2_succ by done; lia).
  unfold enc_shift. rewrite !(Z.shiftl_mul_pow2 _ 1) by lia. change (2 ^ 1) with 2.
  destruct (Z.eqb_spec (bit_count e - 1) 0) as [Hz|Hz].
  - (* the eighth shift: a carry is settled and a byte goes out *)
    assert (bit_count e = 1) as Hc1 by lia. rewrite Hc1 in *. change (2 ^ 1) with 2 in *.
    change (32 - 1) with 31 in *.
    assert (0 ≤ bottom e * 2 - Z.b2z (Z.testbit (bottom e) 31) * 2 ^ 32 < 2 ^ 32) as Hlow.
    { rewrite Z.testbit_spec' by lia. change (2 ^ 31) with 2147483648 in *.
      change (2 ^ 32) with 4294967296 in *.
      pose proof (Z.div_mod (bottom e) 2147483648 ltac:(lia)).
      pose proof (Z.mod_pos_bound (bottom e) 2147483648 ltac:(lia)).
      assert (bottom e / 2147483648 < 2) by (apply Z.div_lt_upper_bound; lia).
      assert (0 ≤ bottom e / 2147483648) by (apply Z.div_pos; lia).
      rewrite (Z.mod_small (bottom e / 2147483648)) by lia. lia. }
    set (o := if Z.testbit (bottom e) 31 then add_one_to_output (out e) else out e).
    assert (be_val o = be_val (out e) + Z.b2z (Z.testbit (bottom e) 31)
      ∧ zlen o = zlen (out e) ∧ Forall is_byte o) as (Ho&Hol&Hob).
    { unfold o. destruct (Z.testbit (bottom e) 31) eqn:Ht; cbn [Z.b2z] in *; [|split_and!; [lia|done..]].
      apply add_one_spec; [done|]. apply (carry_fits e l n 31 He); [lia|].
      change (2 ^ 31) with 2147483648. change (2 ^ 32) with 4294967296 in *. lia. }
    set (b := u32 (bottom e * 2)).
    assert (b = bottom e * 2 - Z.b2z (Z.testbit (bottom e) 31) * 2 ^ 32) as Hbv.
    { unfold b, u32. rewrite <- (Z.mod_small _ _ Hlow).
      rewrite Zminus_mod, Z_mod_mult, Z.sub_0_r. by rewrite Z.mod_mod. }
    rewrite Z.shiftr_div_pow2, Z.land_ones by lia.
    pose proof (Z.div_mod b (2 ^ 24) ltac:(lia)). pose proof (Z.mod_pos_bound b (2 ^ 24) ltac:(lia)).
    assert (0 ≤ b / 2 ^ 24 < 256) as Hbyte.
    { split; [apply Z.div_pos; lia|apply Z.div_lt_upper_bound; lia]. }
    assert (u8 (b / 2 ^ 24) = b / 2 ^ 24) as E by (by apply Z.mod_small).
    rewrite E. split; [|cbn; lia].
    split; cbn [out bit_count e_range bottom]; rewrite ?zlen_app, ?be_val_snoc, ?zlen_cons;
      change (2 ^ 24) with 16777216 in *; change (2 ^ 31) with 2147483648 in *;
      change (2 ^ 32) with 4294967296 in *; try lia.
    { apply Forall_app. split; [done|by apply Forall_singleton]. }
    change (zlen (@nil Z)) with 0. lia.
  - (* no byte yet: bit 31 is clear *)
    assert (2 ^ bit_count e = 2 * 2 ^ (bit_count e - 1)) as Hp
      by (rewrite <- pow2_succ by lia; f_equal; lia).
    assert (2 ≤ 2 ^ (bit_count e - 1)) by (apply (Z.pow_le_mono_r 2 1); lia).
    rewrite Hp in Hslack. change (2 ^ 32) with 4294967296 in *.
    assert (bottom e * 2 < 2147483648 + 100000) by nia.
    rewrite (proj2 (Z.testbit_false (bottom e) 31 ltac:(lia)));
      [|change (2 ^ 31) with 2147483648; by rewrite Z.div_small by lia].
    rewrite u32_small by (change (2 ^ 32) with 4294967296; lia).
    assert (2 ^ (32 - (bit_count e - 1)) = 2 * 2 ^ (32 - bit_count e)) as Hp2
      by (rewrite <- pow2_succ by lia; f_equal; lia).
    split; [|cbn; lia].
    split; cbn [out bit_count e_range bottom]; try lia. done.
Qed.

Lemma enc_norm_at fuel e l n :
  enc_at e l n → nshift (e_range e) ≤ Z.of_nat fuel →
  enc_at (enc_norm fuel e) (l * 2 ^ nshift (e_range e)) (n + nshift (e_range e))
  ∧ e_range (enc_norm fuel e) = e_range e * 2 ^ nshift (e_range e).
Proof.
  revert e l n. induction fuel as [|fuel IH]; intros e l n He Hf;
    pose proof (ea_range _ _ _ He) as Hr; pose proof (nshift_spec _ Hr) as [Hk _].
  - replace (nshift (e_range e)) with 0 by lia. rewrite !Z.mul_1_r, Z.add_0_r. done.
  - cbn [enc_norm]. destruct (Z.ltb_spec (e_range e) 128) as [Hlt|Hge].
    + destruct (enc_shift_at e l n He Hlt) as [He' Hr'].
      pose proof (nshift_double (e_range e) ltac:(lia)) as Hd.
      destruct (IH (enc_shift e) (2 * l) (n + 1) He' ltac:(rewrite Hr'; lia)) as [IH1 IH2].
      rewrite Hr' in IH1, IH2. pose proof (ea_range _ _ _ He') as Hr2. rewrite Hr' in Hr2.
      pose proof (nshift_spec _ Hr2) as [Hk2 _]. rewrite Hd, Z.pow_add_r by lia.
      change (2 ^ 1) with 2. rewrite IH2. split; [|lia].
      replace (l * (2 * 2 ^ nshift (2 * e_range e))) with (2 * l * 2 ^ nshift (2 * e_range e)) by lia.
      by replace (n + (1 + nshift (2 * e_range e))) with (n + 1 + nshift (2 * e_range e)) by lia.
    + rewrite nshift_full by lia. rewrite !Z.mul_1_r, Z.add_0_r. done.
Qed.

Lemma write_at e l n p b :
  enc_at e l n → 128 ≤ e_range e → is_byte p →
  let k := nshift (part (e_range e) p b) in
  enc_at (write e p b) ((l + low (e_range e) p b) * 2 ^ k) (n + k)
  ∧ e_range (write e p b) = part (e_range e) p b * 2 ^ k.
Proof.
  intros He Hr Hp k. pose proof He as [Hb Hc Hrange Hbot Hslack Hl Hn Hin].
  pose proof (split_range (e_range e) p ltac:(lia) Hp) as Hs.
  pose proof (pow2_pos (bit_count e) ltac:(lia)).
  assert (2 ≤ 2 ^ bit_count e) by (apply (Z.pow_le_mono_r 2 1); lia).
  change (2 ^ 32) with 4294967296 in *.
  assert (u32 (bottom e + split (e_range e) p) = bottom e + split (e_range e) p) as Hu.
  { apply u32_small. change (2 ^ 32) with 4294967296. nia. }
  pose proof (part_range (e_range e) p b ltac:(lia) Hp) as Hpr.
  pose proof (nshift_spec _ Hpr) as [Hk _].
  unfold write. rewrite Hu.
  set (e' := if b then _ else _).
  assert (enc_at e' (l + low (e_range e) p b) n ∧ e_range e' = part (e_range e) p b) as [He' Er].
  { unfold e', low, part in *. destruct b; (split; [|done]);
      split; cbn [out bit_count e_range bottom]; try lia; try done;
      change (2 ^ 32) with 4294967296; nia. }
  unfold k. rewrite <- Er in Hk |- *. apply enc_norm_at; [done|lia].
Qed.

Definition writes (e : BoolEncoder) (items : list (Z * bool)) : BoolEncoder :=
  fold_left (λ e i, write e i.1 i.2) items e.

Lemma writes_at items e l n :
  enc_at e l n → 128 ≤ e_range e → probs_ok items →
  let '(l', n', rf) := code (e_range e) items in
  enc_at (writes e items) (l * 2 ^ n' + l') (n + n') ∧ e_range (writes e items) = rf.
Proof.
  revert e l n. induction items as [|[p b] items IH]; intros e l n He Hr Hp.
  { cbn. by rewrite Z.mul_1_r, !Z.add_0_r. }
  apply Forall_cons in Hp as [Hpb Hp]. cbn [fst] in Hpb.
  pose proof (ea_range _ _ _ He) as Hr2.
  destruct (write_at e l n p b He Hr Hpb) as [He' Hr'].
  pose proof (nshift_spec _ (part_range (e_range e) p b ltac:(lia) Hpb)) as [Hk Hfull].
  specialize (IH (write e p b) _ _ He' ltac:(lia) Hp). rewrite Hr' in IH.
  pose proof (code_bounds items (part (e_range e) p b * 2 ^ nshift (part (e_range e) p b)) ltac:(lia) Hp) as Hcb.
  cbn [code]. destruct (code _ items) as [[l' n'] rf]. destruct IH as [IH1 IH2].
  split; [|done]. cbn [writes fold_left fst snd] in *. rewrite Z.pow_add_r by lia.
  replace (n + (nshift (part (e_range e) p b) + n')) with (n + nshift (part (e_range e) p b) + n') by lia.
  replace (l * (2 ^ nshift (part (e_range e) p b) * 2 ^ n')
    + (low (e_range e) p b * (2 ^ nshift (part (e_range e) p b) * 2 ^ n') + l'))
    with ((l + low (e_range e) p b) * 2 ^ nshift (part (e_range e) p b) * 2 ^ n' + l') by ring.
  done.
Qed.

(** ** The last bytes *)

Lemma push_bytes_spec n o v :
  0 ≤ v < 2 ^ 32 → Forall is_byte o →
  be_val (push_bytes n o v) * 2 ^ 32 + u32 (v * 2 ^ (8 * Z.of_nat n))
    = be_val o * 2 ^ (8 * Z.of_nat n + 32) + v * 2 ^ (8 * Z.of_nat n)
  ∧ zlen (push_bytes n o v) = zlen o + Z.of_nat n ∧ Forall is_byte (push_bytes n o v).
Proof.
  revert o v. induction n as [|n IH]; intros o v Hv Ho.
  { change (8 * Z.of_nat 0) with 0. change (2 ^ 0) with 1. rewrite !Z.mul_1_r, u32_small by done.
    cbn [push_bytes]. rewrite Z.add_0_l. split_and!; [lia|lia|done]. }
  cbn [push_bytes]. rewrite Z.shiftl_mul_pow2, Z.shiftr_div_pow2 by lia.
  change (2 ^ 8) with 256. change (2 ^ 24) with 16777216. change (2 ^ 32) with 4294967296 in *.
  pose proof (Z.div_mod v 16777216 ltac:(lia)) as Hd.
  pose proof (Z.mod_pos_bound v 16777216 ltac:(lia)) as Hm.
  assert (0 ≤ v / 16777216 < 256) as Hq
    by (split; [apply Z.div_pos; lia|apply Z.div_lt_upper_bound; lia]).
  assert (u8 (v / 16777216) = v / 16777216) as Hb by (by apply Z.mod_small).
  assert (u32 (v * 256) = v mod 16777216 * 256) as Hu.
  { unfold u32. change (2 ^ 32) with 4294967296. symmetry.
    apply (Z.mod_unique_pos _ _ (v / 16777216)); lia. }
  rewrite Hb, Hu.
  destruct (IH (o ++ [v / 16777216]) (v mod 16777216 * 256)) as (IH1&IH2&IH3);
    [lia|apply Forall_app; split; [done|by apply Forall_singleton]|].
  rewrite be_val_snoc in IH1. rewrite zlen_app in IH2. rewrite Nat2Z.inj_succ.
  split_and!; [|rewrite IH2; change (zlen [v / 16777216]) with 1; lia|done].
  replace (8 * Z.succ (Z.of_nat n)) with (8 + 8 * Z.of_nat n) by lia.
  rewrite !Z.pow_add_r in * by lia. change (2 ^ 8) with 256.
  change (2 ^ 32) with 4294967296 in *.
  assert (u32 (v * (256 * 2 ^ (8 * Z.of_nat n)))
    = u32 (v mod 16777216 * 256 * 2 ^ (8 * Z.of_nat n))) as ->; [|nia].
  rewrite Z.mul_assoc, <- Hu. unfold u32. by rewrite Zmult_mod_idemp_l.
Qed.

Lemma iter_shl8 n v : 0 ≤ v < 2 ^ 32 →
  Nat.iter n (λ v, u32 (Z.shiftl v 8)) v = u32 (v * 2 ^ (8 * Z.of_nat n)).
Proof.
  intros Hv. induction n as [|n IH]; [cbn; by rewrite Z.mul_1_r, u32_small|].
  rewrite Nat.iter_succ, IH, Z.shiftl_mul_pow2 by lia.
  unfold u32. rewrite Zmult_mod_idemp_l, <- Z.mul_assoc, <- Z.pow_add_r by lia.
  do 3 f_equal. lia.
Qed.

(** The low 32 - c bits of [bottom] end up at the top of the last four bytes. *)
Lemma finish_at e l n :
  enc_at e l n →
  be_val (finish e) = l * 2 ^ bit_count e
  ∧ 8 * zlen (finish e) = n + 8 + bit_count e ∧ Forall is_byte (finish e).
Proof.
  intros He. pose proof He as [Hb Hc Hrange Hbot Hslack Hl Hn Hin].
  set (c := bit_count e) in *. unfold finish. fold c.
  pose proof (pow2_pos c ltac:(lia)) as Hpc. pose proof (pow2_pos (32 - c) ltac:(lia)) as Hp32.
  assert (2 ^ (32 - c) * 2 ^ c = 2 ^ 32) as Hpp by (rewrite <- Z.pow_add_r by lia; f_equal; lia).
  assert (2 ^ 7 < 2 ^ (32 - c)) as Hlt7 by (apply Z.pow_lt_mono_r; lia).
  set (t := Z.testbit (bottom e) (32 - c)).
  assert (0 ≤ bottom e - Z.b2z t * 2 ^ (32 - c) < 2 ^ (32 - c)) as Hlow.
  { unfold t. rewrite Z.testbit_spec' by lia.
    pose proof (Z.div_mod (bottom e) (2 ^ (32 - c)) ltac:(lia)).
    pose proof (Z.mod_pos_bound (bottom e) (2 ^ (32 - c)) ltac:(lia)).
    assert (0 ≤ bottom e / 2 ^ (32 - c)) by (apply Z.div_pos; lia).
    assert (bottom e / 2 ^ (32 - c) < 2).
    { apply Z.div_lt_upper_bound; [lia|]. apply (Z.mul_lt_mono_pos_r (2 ^ c)); [lia|].
      replace (2 ^ (32 - c) * 2 * 2 ^ c) with (2 * 2 ^ 32) by lia. nia. }
    rewrite (Z.mod_small (_ / _)) by lia. lia. }
  set (o := if t then _ else _).
  assert (be_val o = be_val (out e) + Z.b2z t ∧ zlen o = zlen (out e) ∧ Forall is_byte o)
    as (Ho&Hol&Hob).
  { unfold o. destruct t; cbn [Z.b2z] in *; [|split_and!; [lia|done..]].
    apply add_one_spec; [done|]. apply (carry_fits e l n (32 - c) He); [done|lia]. }
  change (Z.land c 7) with (Z.land c (Z.ones 3)). rewrite (Z.land_ones c 3) by lia. change (2 ^ 3) with 8.
  rewrite !Z.shiftl_mul_pow2, Z.shiftr_div_pow2 by (try apply Z.mod_pos_bound; lia).
  change (2 ^ 3) with 8.
  pose proof (Z.div_mod c 8 ltac:(lia)) as Hdm. pose proof (Z.mod_pos_bound c 8 ltac:(lia)).
  assert (0 ≤ c / 8) by (apply Z.div_pos; lia).
  rewrite iter_shl8 by (unfold u32; apply Z.mod_pos_bound; lia).
  rewrite Z2Nat.id by lia.
  assert (u32 (u32 (bottom e * 2 ^ (c mod 8)) * 2 ^ (8 * (c / 8)))
    = (bottom e - Z.b2z t * 2 ^ (32 - c)) * 2 ^ c) as Hv.
  { unfold u32. rewrite Zmult_mod_idemp_l, <- Z.mul_assoc, <- Z.pow_add_r by lia.
    replace (c mod 8 + 8 * (c / 8)) with c by lia. symmetry.
    apply (Z.mod_unique_pos _ _ (Z.b2z t)); [nia|]. rewrite Z.mul_sub_distr_r, <- Z.mul_assoc, Hpp. lia. }
  rewrite Hv.
  destruct (push_bytes_spec 4 o ((bottom e - Z.b2z t * 2 ^ (32 - c)) * 2 ^ c)) as (H1&H2&H3);
    [nia|done|].
  split_and!; [|lia|done].
  change (8 * Z.of_nat 4) with 32 in H1. rewrite (Z.pow_add_r 2 32 32) in H1 by lia.
  unfold u32 in H1. rewrite Z_mod_mult, Z.add_0_r in H1.
  assert (be_val (push_bytes 4 o ((bottom e - Z.b2z t * 2 ^ (32 - c)) * 2 ^ c))
    = be_val o * 2 ^ 32 + (bottom e - Z.b2z t * 2 ^ (32 - c)) * 2 ^ c) as ->
    by (change (2 ^ 32) with 4294967296 in *; lia).
  rewrite Ho, Hl. nia.
Qed.

(** ** The decoder tracks the residual *)

Definition rest (d : BoolDecoder) : list Z := drop (pos d) (data d).

(** The window with the bytes still to come: the residual of the code point
    above the interval's low end, in units of [2 ^ -(56 + 8 |rest|)]. *)
Definition residual (d : BoolDecoder) : Z :=
  value d * 2 ^ (8 * zlen (rest d)) + be_val (rest d) * 2 ^ (56 - count d).

Record dec_ok (d : BoolDecoder) : Prop := {
  do_bytes : Forall is_byte (data d);
  do_pos : (pos d ≤ length (data d))%nat;
  do_value : 0 ≤ value d < 2 ^ 64;
  do_count : -8 ≤ count d;
  do_range : 128 ≤ d_range d ≤ 255;
  do_window : rest d = [] ∨ (count d ≤ 56 ∧ (2 ^ (56 - count d) | value d))
}.

Lemma rest_bytes d : dec_ok d → Forall is_byte (rest d).
Proof. intros H. apply Forall_drop, H. Qed.


(** The position of the interval [l, h) (in units of [2 ^ -n] of the range)
    that the residual is in. *)
Definition inside (d : BoolDecoder) (l h n : Z) : Prop :=
  l * 2 ^ (56 + 8 * zlen (rest d)) ≤ residual d * 2 ^ n < h * 2 ^ (56 + 8 * zlen (rest d)).

Lemma fill_loop_ok fuel d :
  dec_ok d → -8 ≤ count d ≤ 56 → (rest d = [] ∨ (2 ^ (56 - count d) | value d)) →
  48 - count d < 8 * Z.of_nat fuel →
  let d' := fill_loop fuel (48 - count d) d in
  dec_ok d' ∧ d_range d' = d_range d ∧ (48 < count d')
  ∧ ∀ l h n, inside d l h n → inside d' l h n.
Proof.
  revert d. induction fuel as [|fuel IH]; intros d Hd Hc Hw Hf; [cbn; split_and!; (done || lia)|].
  pose proof Hd as [Hb Hpos Hv _ Hr _]. cbn [fill_loop].
  destruct (Z.leb_spec 0 (48 - count d)) as [Hs|Hs]; [|split_and!; [done|done|lia|done]].
  destruct (data d !! pos d) as [b|] eqn:Hlook.
  - assert (rest d = b :: drop (S (pos d)) (data d)) as Hrest by (by apply drop_S).
    assert (is_byte b) as Hbb by (by eapply Forall_lookup_1).
    destruct Hw as [Hw|[q Hq]]; [by rewrite Hrest in Hw|].
    remember (48 - count d) as k eqn:Hk0. replace (56 - count d) with (8 + k) in Hq by lia.
    assert (Z.lor (value d) (Z.shiftl b k) = value d + b * 2 ^ k) as Hlor.
    { rewrite Z.shiftl_mul_pow2, Hq by lia. apply lor_low; [lia|].
      rewrite Z.pow_add_r by lia. change (2 ^ 8) with 256.
      unfold is_byte in Hbb. pose proof (pow2_pos k ltac:(lia)). nia. }
    set (d1 := mkDec _ _ _ _ _).
    assert (rest d1 = drop (S (pos d)) (data d)) as Hrest1 by done.
    assert (count d1 = count d + 8) as Hcount by done.
    pose proof (pow2_pos k ltac:(lia)) as Hk.
    assert (2 ^ (8 + k) = 256 * 2 ^ k) as H8 by (by rewrite Z.pow_add_r by lia).
    assert (dec_ok d1 ∧ (2 ^ (56 - count d1) | value d1)) as [Hd1 Hdiv].
    { assert (2 ^ (56 - count d1) | value d1) as Hdiv.
      { unfold d1. cbn [count value]. rewrite Hlor. replace (56 - (count d + 8)) with k by lia.
        exists (q * 256 + b). rewrite Hq, H8. ring. }
      split; [|done]. split; cbn [data pos value count d_range d1]; try done; try lia.
      - apply lookup_lt_Some in Hlook. lia.
      - rewrite Hlor. unfold is_byte in Hbb. split; [nia|].
        assert (2 ^ 64 = 2 ^ (8 + k) * 2 ^ (56 - k)) as H64
          by (rewrite <- Z.pow_add_r by lia; f_equal; lia).
        rewrite H64, Hq, H8 in *. assert (q < 2 ^ (56 - k)) by nia.
        assert (q * (256 * 2 ^ k) + b * 2 ^ k = (256 * q + b) * 2 ^ k) as -> by ring.
        assert (256 * 2 ^ k * 2 ^ (56 - k) = 256 * 2 ^ (56 - k) * 2 ^ k) as -> by ring.
        apply Z.mul_lt_mono_pos_r; lia.
      - right. split; [lia|done]. }
    destruct (IH d1 Hd1) as (H1&H2&H3&H4);
      [lia|by right|lia|].
    replace (k - 8) with (48 - count d1) by lia.
    split_and!; [done|by rewrite H2|done|].
    intros l h n Hin. apply H4. unfold inside, residual in *. rewrite Hrest1. rewrite Hrest in Hin.
    rewrite zlen_cons in Hin. unfold d1. cbn [value count]. rewrite Hlor.
    set (r := drop (S (pos d)) (data d)) in *.
    assert (be_val (b :: r) = b * 2 ^ (8 * zlen r) + be_val r) as Hbe.
    { change (b :: r) with ([b] ++ r). by rewrite be_val_app, be_val_single. }
    rewrite Hbe in Hin. pose proof (zlen_nonneg r).
    replace (56 - (count d + 8)) with k by lia. replace (56 - count d) with (8 + k) in Hin by lia.
    replace (8 * (1 + zlen r)) with (8 + 8 * zlen r) in Hin by lia.
    replace (56 + (8 + 8 * zlen r)) with (8 + (56 + 8 * zlen r)) in Hin by lia.
    rewrite H8, !(Z.pow_add_r 2 8) in Hin by lia. change (2 ^ 8) with 256 in Hin. nia.
  - assert (rest d = []) as Hrest by (by apply drop_ge, lookup_ge_None).
    split_and!; cbn [count d_range]; [|done|lia|].
    + split; cbn [data pos value count d_range]; try done; try lia. by left.
    + intros l h n. unfold inside, residual, rest in *. cbn [data pos value count] in *.
      rewrite Hrest. change (be_val []) with 0. by rewrite !Z.mul_0_l.
Qed.

Lemma fill_ok d :
  dec_ok d → count d < 0 →
  dec_ok (fill d) ∧ d_range (fill d) = d_range d ∧ 0 ≤ count (fill d)
  ∧ ∀ l h n, inside d l h n → inside (fill d) l h n.
Proof.
  intros Hd Hc. unfold fill, VALUE_BITS. replace (64 - 8 - (count d + 8)) with (48 - count d) by lia.
  pose proof (do_count _ Hd).
  destruct (fill_loop_ok 8 d Hd) as (H1&H2&H3&H4);
    [lia|destruct (do_window _ Hd) as [?|[??]]; auto|lia|].
  split_and!; [done|done|lia|done].
Qed.

(** The comparison with the split decides on the whole residual. *)
Lemma residual_ge d s : dec_ok d → 0 ≤ count d →
  s * 2 ^ 56 ≤ value d ↔ s * 2 ^ (56 + 8 * zlen (rest d)) ≤ residual d.
Proof.
  intros Hd Hc. unfold residual. pose proof (zlen_nonneg (rest d)).
  pose proof (pow2_pos (8 * zlen (rest d)) ltac:(lia)) as Hp.
  pose proof (be_val_bound _ (rest_bytes d Hd)) as Hbe.
  rewrite (Z.pow_add_r 2 56) by lia.
  destruct (do_window _ Hd) as [Hr|[Hc56 [q Hq]]].
  - rewrite Hr. change (be_val []) with 0. change (zlen (@nil Z)) with 0. cbn [Z.mul]. nia.
  - pose proof (pow2_pos (56 - count d) ltac:(lia)) as Hw.
    assert (2 ^ 56 = 2 ^ count d * 2 ^ (56 - count d)) as H56
      by (rewrite <- Z.pow_add_r by lia; f_equal; lia).
    rewrite Hq, H56. generalize dependent (2 ^ (56 - count d)). intros w _ Hw _.
    pose proof (pow2_pos (count d) ltac:(lia)).
    set (a := s * 2 ^ count d). set (p := 2 ^ (8 * zlen (rest d))) in *.
    assert (s * (2 ^ count d * w) = a * w) as -> by (unfold a; ring).
    assert (s * (2 ^ count d * w * p) = (a * p) * w) as -> by (unfold a; ring).
    assert (q * w * p + be_val (rest d) * w = (q * p + be_val (rest d)) * w) as -> by ring.
    rewrite <- !Z.mul_le_mono_pos_r by done. nia.
Qed.

Lemma rest_same d d' : data d' = data d → pos d' = pos d → rest d' = rest d.
Proof. unfold rest. by intros -> ->. Qed.

Lemma shl_window d x k : dec_ok d → 0 ≤ count d → 0 ≤ k →
  rest d = [] ∨ (count d ≤ 56 ∧ (2 ^ (56 - count d) | x)) →
  rest d = [] ∨ (count d - k ≤ 56 ∧ (2 ^ (56 - (count d - k)) | x * 2 ^ k)).
Proof.
  intros _ Hc Hk [?|[Hc' [q ->]]]; [by left|]. right. split; [lia|]. exists q.
  replace (56 - (count d - k)) with ((56 - count d) + k) by lia.
  rewrite Z.pow_add_r by lia. ring.
Qed.

(** One read follows one coded bool. *)
Lemma read_follows d p b its l n rf :
  dec_ok d → is_byte p → probs_ok its →
  code (d_range d) ((p, b) :: its) = (l, n, rf) → inside d l (l + rf) n →
  let '(l', n', rf') := code (part (d_range d) p b * 2 ^ nshift (part (d_range d) p b)) its in
  let '(bit, d') := read d p in
  bit = b ∧ dec_ok d' ∧ inside d' l' (l' + rf') n'
  ∧ d_range d' = part (d_range d) p b * 2 ^ nshift (part (d_range d) p b).
Proof.
  intros Hd0 Hp Hits Hcode Hin0.
  (* the refill *)
  set (d1 := if count d <? 0 then fill d else d).
  assert (dec_ok d1 ∧ d_range d1 = d_range d ∧ 0 ≤ count d1 ∧ inside d1 l (l + rf) n)
    as (Hd&Hrg&Hc&Hin).
  { unfold d1. destruct (Z.ltb_spec (count d) 0); [|done].
    destruct (fill_ok d Hd0) as (?&?&?&Hi); [done|]. split_and!; [done..|by apply Hi]. }
  pose proof (do_range _ Hd0) as Hr.
  pose proof (part_range (d_range d) p b Hr Hp) as Hpart.
  pose proof (nshift_spec _ Hpart) as [Hk Hfull].
  pose proof (split_range (d_range d) p Hr Hp) as Hs.
  cbn [code] in Hcode. set (k := nshift (part (d_range d) p b)) in *.
  pose proof (code_bounds its (part (d_range d) p b * 2 ^ k) Hfull Hits) as Hcb.
  destruct (code (part (d_range d) p b * 2 ^ k) its) as [[l' n'] rf'] eqn:Hcode'.
  destruct Hcb as (Hl'&Hlr&Hn'&Hrf'). injection Hcode as Hl Hn ->.
  pose proof (zlen_nonneg (rest d1)) as Hz.
  pose proof (pow2_pos (56 + 8 * zlen (rest d1)) ltac:(lia)) as HW.
  pose proof (pow2_pos n ltac:(lia)) as HN.
  assert (2 ^ n = 2 ^ k * 2 ^ n') as HNk by (rewrite <- Hn; by rewrite Z.pow_add_r by lia).
  pose proof (pow2_pos k ltac:(lia)) as HK. pose proof (pow2_pos n' ltac:(lia)) as HN'.
  rewrite Hn in Hl. rewrite <- Z.mul_assoc, <- HNk in Hlr.
  unfold inside in Hin. set (W := 2 ^ (56 + 8 * zlen (rest d1))) in *.
  (* the residual is in the part of the range of [b] *)
  assert (low (d_range d) p b * W ≤ residual d1
    ∧ residual d1 < (low (d_range d) p b + part (d_range d) p b) * W) as [Hge Hlt] by nia.
  assert ((split (d_range d) p * 2 ^ 56 <=? value d1) = b) as Hbit.
  { apply eq_true_iff_eq. rewrite Z.leb_le, (residual_ge d1 _ Hd Hc). fold W.
    unfold low, part in Hge, Hlt. destruct b; [split; [done|lia]|split; [nia|done]]. }
  set (x := value d1 - low (d_range d) p b * 2 ^ 56).
  assert (0 ≤ x) as Hx0.
  { unfold x, low. destruct b; [|pose proof (do_value _ Hd); lia]. apply Z.leb_le in Hbit. lia. }
  assert (x < part (d_range d) p b * 2 ^ 56) as Hxlt.
  { pose proof (residual_ge d1 (low (d_range d) p b + part (d_range d) p b) Hd Hc) as Hiff.
    fold W in Hiff. unfold x. lia. }
  assert (read d p = (b, mkDec (data d1) (pos d1) (x * 2 ^ k) (count d1 - k)
    (part (d_range d) p b * 2 ^ k))) as Hread.
  { unfold read. fold d1. rewrite Hrg. unfold VALUE_BITS. change (64 - 8) with 56.
    rewrite Z.shiftl_mul_pow2, Hbit by lia.
    assert (leading_zeros (part (d_range d) p b) - 24 = k) as Hlz.
    { unfold leading_zeros, k, nshift. destruct (Z.eqb_spec (part (d_range d) p b) 0); lia. }
    assert (u64 (x * 2 ^ k) = x * 2 ^ k) as Hu64.
    { apply u64_small. split; [nia|]. change (2 ^ 64) with (256 * 2 ^ 56). nia. }
    assert (u32 (part (d_range d) p b * 2 ^ k) = part (d_range d) p b * 2 ^ k) as Hu32
      by (apply u32_small; lia).
    unfold x, part, low in *. destruct b;
      rewrite Hlz, !Z.shiftl_mul_pow2, ?Hu32 by lia; rewrite ?Z.sub_0_r in *; by rewrite Hu64. }
  rewrite Hread. split; [done|].
  set (d' := mkDec _ _ _ _ _).
  assert (rest d' = rest d1) as Hrest by done.
  assert (residual d' = (residual d1 - low (d_range d) p b * W) * 2 ^ k) as Hres.
  { unfold residual. rewrite Hrest. unfold d'. cbn [value count]. unfold x, W.
    rewrite (Z.pow_add_r 2 56) by lia.
    destruct (do_window _ Hd) as [-> |[Hc56 _]].
    - change (be_val []) with 0. ring.
    - replace (56 - (count d1 - k)) with ((56 - count d1) + k) by lia.
      rewrite Z.pow_add_r by lia. ring. }
  split_and!; [| |done].
  - pose proof Hd as [Hdb Hdp Hdv _ _ Hdw].
    split; unfold d'; cbn [data pos value count d_range]; [done|done| |lia|lia|].
    + split; [nia|]. change (2 ^ 64) with (256 * 2 ^ 56). nia.
    + change (rest _) with (rest d1). apply shl_window; [done|done|lia|].
      destruct Hdw as [?|[Hc56 Hdiv]]; [by left|]. right. split; [done|].
      unfold x. apply Z.divide_sub_r; [done|]. apply Z.divide_mul_r.
      exists (2 ^ count d1). rewrite <- Z.pow_add_r by lia. f_equal. lia.
  - unfold inside. rewrite Hrest, Hres. fold W. rewrite HNk in *. nia.
Qed.

(** ** Reading back a sequence of bools *)

Inductive follows : BoolDecoder → list (Z * bool) → BoolDecoder → Prop :=
| follows_nil d : follows d [] d
| follows_cons d p b d1 its d2 :
    read d p = (b, d1) → follows d1 its d2 → follows d ((p, b) :: its) d2.

Lemma follows_app d a b d2 :
  follows d (a ++ b) d2 → ∃ d1, follows d a d1 ∧ follows d1 b d2.
Proof.
  revert d. induction a as [|[p x] a IH]; intros d H; cbn in H.
  - exists d. split; [constructor|done].
  - inversion H as [|??? d1 ?? Hr Hf]; subst. destruct (IH _ Hf) as (d3&H1&H2).
    exists d3. split; [by econstructor|done].
Qed.

Lemma follows_code d its l n rf :
  dec_ok d → probs_ok its → code (d_range d) its = (l, n, rf) → inside d l (l + rf) n →
  ∃ d', follows d its d'.
Proof.
  revert d l n rf. induction its as [|[p b] its IH]; intros d l n rf Hd Hp Hc Hin.
  { exists d. constructor. }
  apply Forall_cons in Hp as [Hpb Hp].
  pose proof (read_follows d p b its l n rf Hd Hpb Hp Hc Hin) as Hr.
  destruct (code _ its) as [[l' n'] rf'] eqn:Hc'. destruct (read d p) as [bit d1] eqn:Hread.
  destruct Hr as (->&Hd1&Hin1&Hr1). rewrite <- Hr1 in Hc'.
  destruct (IH d1 l' n' rf' Hd1 Hp Hc' Hin1) as [d' Hf].
  exists d'. by econstructor.
Qed.

Lemma new_follows its tail :
  probs_ok its → Forall is_byte tail →
  ∃ d', follows (BoolDecoder_new (finish (writes BoolEncoder_new its) ++ tail)) its d'.
Proof.
  intros Hp Ht. pose proof (writes_at its _ 0 0 enc_new_at ltac:(cbn; lia) Hp) as Hw.
  pose proof (code_bounds its 255 ltac:(lia) Hp) as Hcb.
  cbn [e_range BoolEncoder_new] in Hw. destruct (code 255 its) as [[l n] rf] eqn:Hc.
  destruct Hw as [Hat _]. rewrite Z.mul_0_l, !Z.add_0_l in Hat.
  destruct (finish_at _ _ _ Hat) as (Hval&Hlen&Hbytes).
  pose proof (ea_count _ _ _ Hat) as Hcnt. set (e := writes BoolEncoder_new its) in *.
  set (c := bit_count e) in *. set (fin := finish e) in *.
  set (d0 := mkDec (fin ++ tail) 0 0 (-8) 255).
  assert (dec_ok d0) as Hd0.
  { split; unfold d0; cbn [data pos value count d_range]; try lia.
    - by apply Forall_app.
    - right. split; [lia|apply Z.divide_0_r]. }
  assert (inside d0 l (l + rf) n) as Hin.
  { unfold inside, residual. change (rest d0) with (fin ++ tail).
    unfold d0. cbn [value count]. rewrite Z.mul_0_l, Z.add_0_l, zlen_app, be_val_app, Hval.
    pose proof (be_val_bound _ Ht) as Hbt. pose proof (zlen_nonneg tail) as Hzt.
    replace (56 + 8 * (zlen fin + zlen tail)) with (64 + n + c + 8 * zlen tail) by lia.
    change (56 - -8) with 64. rewrite !(Z.pow_add_r 2 (64 + n + c)), !(Z.pow_add_r 2 (64 + n) c),
      !(Z.pow_add_r 2 64 n) by lia.
    pose proof (pow2_pos n ltac:(lia)) as Hn. pose proof (pow2_pos c ltac:(lia)) as Hc0.
    set (w := 2 ^ 64 * 2 ^ n). set (t := 2 ^ (8 * zlen tail)) in *.
    assert (0 < w) by (unfold w; change (2 ^ 64) with 18446744073709551616; lia).
    assert ((l * 2 ^ c * t + be_val tail) * 2 ^ 64 * 2 ^ n = (l * 2 ^ c * t + be_val tail) * w)
      as -> by (unfold w; ring).
    assert (l * (w * 2 ^ c * t) = (l * 2 ^ c * t) * w) as -> by ring.
    assert ((l + rf) * (w * 2 ^ c * t) = (l * 2 ^ c * t + rf * 2 ^ c * t) * w) as -> by ring.
    split; [apply Z.mul_le_mono_nonneg_r; lia|apply Z.mul_lt_mono_pos_r; [done|]].
    assert (1 * t ≤ rf * 2 ^ c * t) by (apply Z.mul_le_mono_nonneg_r; nia). lia. }
  destruct (fill_ok d0 Hd0 ltac:(done)) as (Hok&Hrg&_&Hi).
  apply (follows_code _ _ l n rf); [done|done| |by apply Hi].
  change (BoolDecoder_new (fin ++ tail)) with (fill d0). by rewrite Hrg.
Qed.

(** ** The items of each symbol *)

Fixpoint lit_items (v : Z) (n : nat) : list (Z * bool) :=
  match n with
  | O => []
  | S n => (128, Z.land (Z.shiftr v (Z.of_nat n)) 1 =? 1) :: lit_items v n
  end.

Lemma write_literal_items e v n : write_literal e v n = writes e (lit_items v n).
Proof. revert e. induction n as [|n IH]; intros e; [done|]. apply IH. Qed.
Lemma lit_items_ok v n : probs_ok (lit_items v n).
Proof. induction n; constructor; [by cbn|done]. Qed.

Lemma low_bits_step v n : 0 ≤ n →
  v mod 2 ^ (n + 1) = Z.b2z (Z.land (Z.shiftr v n) 1 =? 1) * 2 ^ n + v mod 2 ^ n.
Proof.
  intros Hn. rewrite (Z.land_ones _ 1) by lia. change (2 ^ 1) with 2.
  rewrite Z.shiftr_div_pow2 by done. pose proof (pow2_pos n Hn).
  pose proof (Z.div_mod v (2 ^ n) ltac:(lia)). pose proof (Z.mod_pos_bound v (2 ^ n) ltac:(lia)).
  pose proof (Z.div_mod (v / 2 ^ n) 2 ltac:(lia)).
  pose proof (Z.mod_pos_bound (v / 2 ^ n) 2 ltac:(lia)). rewrite pow2_succ by done.
  symmetry. apply (Z.mod_unique_pos _ _ (v / 2 ^ n / 2)).
  - destruct (Z.eqb_spec ((v / 2 ^ n) mod 2) 1); cbn [Z.b2z]; lia.
  - destruct (Z.eqb_spec ((v / 2 ^ n) mod 2) 1); cbn [Z.b2z]; nia.
Qed.

Lemma literal_loop_follows n v acc d d' :
  0 ≤ acc → acc * 2 ^ Z.of_nat n + 2 ^ Z.of_nat n ≤ 2 ^ 32 → follows d (lit_items v n) d' →
  literal_loop n acc d = (acc * 2 ^ Z.of_nat n + v mod 2 ^ Z.of_nat n, d').
Proof.
  revert acc d. induction n as [|n IH]; intros acc d Hacc Hlt Hf.
  { inversion Hf; subst. cbn [literal_loop]. change (2 ^ Z.of_nat 0) with 1.
    rewrite Z.mod_1_r. f_equal. lia. }
  inversion Hf as [|??? d1 ?? Hr Hf1]; subst. cbn [literal_loop]. unfold read_bit. rewrite Hr.
  set (b := Z.land (Z.shiftr v (Z.of_nat n)) 1 =? 1) in *.
  rewrite Nat2Z.inj_succ in *. change (Z.succ (Z.of_nat n)) with (Z.of_nat n + 1) in *.
  rewrite pow2_succ in Hlt by lia. pose proof (pow2_pos (Z.of_nat n) ltac:(lia)).
  assert (Z.lor (u32 (Z.shiftl acc 1)) (Z.b2z b) = 2 * acc + Z.b2z b) as ->.
  { rewrite Z.shiftl_mul_pow2 by lia. rewrite u32_small by (change (2 ^ 1) with 2; nia).
    rewrite (lor_low acc (Z.b2z b) 1); [change (2 ^ 1) with 2; lia|lia|destruct b; cbn; lia]. }
  rewrite (IH _ d1); [|destruct b; cbn; lia|destruct b; cbn; lia|done].
  rewrite low_bits_step by lia. fold b. f_equal. rewrite pow2_succ by lia. ring.
Qed.

Definition signed_items (v : Z) (n : nat) : list (Z * bool) :=
  (128, negb (v =? 0)) ::
  if v =? 0 then [] else lit_items (Z.abs v) n ++ [(128, v <? 0)].

Lemma write_signed_items e v n : write_optional_signed e v n = writes e (signed_items v n).
Proof.
  unfold write_optional_signed, signed_items. destruct (v =? 0); [done|]. cbn [negb].
  rewrite write_literal_items. unfold writes. cbn [fold_left fst snd].
  by rewrite fold_left_app.
Qed.

Lemma as_i32_small x : - 2 ^ 31 ≤ x < 2 ^ 31 → as_i32 x = x.
Proof. intros. unfold as_i32. rewrite Z.mod_small by lia. lia. Qed.

Lemma signed_follows v n d d' :
  (n ≤ 31)%nat → Z.abs v < 2 ^ Z.of_nat n → follows d (signed_items v n) d' →
  read_optional_signed d n = (v, d').
Proof.
  intros Hn Hv Hf. inversion Hf as [|??? d1 ?? Hr Hf1]; subst.
  unfold read_optional_signed, read_bit. rewrite Hr. rewrite negb_involutive.
  destruct (Z.eqb_spec v 0) as [-> |Hv0]; [by inversion Hf1; subst|].
  apply follows_app in Hf1 as (d2&Hlit&Hsign).
  assert (2 ^ Z.of_nat n ≤ 2 ^ 31) by (apply Z.pow_le_mono_r; lia).
  unfold read_literal. rewrite (literal_loop_follows n (Z.abs v) 0 d1 d2);
    [|lia|change (2 ^ 32) with (2 * 2 ^ 31); lia|done].
  inversion Hsign as [|??? d3 ?? Hr2 Hnil]; subst. inversion Hnil; subst. rewrite Hr2.
  rewrite Z.mul_0_l, Z.add_0_l, Z.mod_small by lia. rewrite (as_i32_small (Z.abs v)) by lia.
  destruct (Z.ltb_spec v 0); rewrite ?as_i32_small by lia; f_equal; lia.
Qed.

Lemma tree_follows dl tree probs node v path e e' :
  tree_path dl tree node v = Found path → write_path e probs path = Some e' →
  ∃ its, e' = writes e its ∧ (Forall is_byte probs → probs_ok its)
    ∧ ∀ d d', follows d its d' → read_tree_from dl d tree probs node = Some (v, d').
Proof.
  revert node path e. induction dl as [|dl IH]; intros node path e Hpath Hw; [done|].
  assert (∃ bit next rest_path, path = (node, bit) :: rest_path
    ∧ tree !! Z.to_nat (node + Z.b2z bit) = Some next
    ∧ (next ≤ 0 ∧ u8 (- next) = v ∧ rest_path = []
       ∨ 0 < next ∧ tree_path dl tree next v = Found rest_path))
    as (bit&next&rp&->&Hnext&Hcase).
  { cbn [tree_path] in Hpath.
    repeat match type of Hpath with
    | context [tree !! Z.to_nat (node + Z.b2z ?b)] =>
      destruct (tree !! Z.to_nat (node + Z.b2z b)) as [?next|] eqn:?; [|done]
    | context [?x <=? 0] => destruct (Z.leb_spec x 0)
    | context [u8 ?x =? v] => destruct (Z.eqb_spec (u8 x) v)
    | context [tree_path dl tree ?x v] => destruct (tree_path dl tree x v) eqn:?
    end; simplify_eq; eexists _, _, _; (split; [done|]); (split; [done|]); auto. }
  cbn [write_path] in Hw. destruct (probs !! Z.to_nat (Z.shiftr node 1)) as [prob|] eqn:Hprob; [|done].
  cbn [mbind option_bind] in Hw. destruct Hcase as [(Hle&Hv&->)|(Hpos&Hsub)].
  - cbn [write_path] in Hw. injection Hw as <-. exists [(prob, bit)]. split; [done|]. split.
    { intros Hb. constructor; [|constructor]. by eapply Forall_lookup_1. }
    intros d d' Hf. inversion Hf as [|??? d1 ?? Hr Hnil]; subst. inversion Hnil; subst.
    cbn [read_tree_from]. rewrite Hprob. cbn. rewrite Hr, Hnext. cbn.
    by rewrite (proj2 (Z.leb_le _ _) Hle).
  - destruct (IH next rp _ Hsub Hw) as (its&->&Hok&Hread).
    exists ((prob, bit) :: its). split; [done|]. split.
    { intros Hb. constructor; [by eapply Forall_lookup_1|by apply Hok]. }
    intros d d' Hf. inversion Hf as [|??? d1 ?? Hr Hf1]; subst.
    cbn [read_tree_from]. rewrite Hprob. cbn. rewrite Hr, Hnext. cbn.
    rewrite (proj2 (Z.leb_gt _ _)) by done. by apply Hread.
Qed.

(** ** Round trip *)

(** What a writer may ask: probabilities are bytes, a literal fits its
    width, a signed magnitude its bits. *)
Definition sym_ok (s : Sym) : Prop :=
  match s with
  | S_bool prob _ => is_byte prob
  | S_literal v n => (n ≤ 32)%nat ∧ 0 ≤ v < 2 ^ Z.of_nat n
  | S_signed v n => (n ≤ 31)%nat ∧ Z.abs v < 2 ^ Z.of_nat n
  | S_tree _ probs _ => Forall is_byte probs
  end.

Definition reads_as (its : list (Z * bool)) (s : Sym) : Prop :=
  ∀ d d', follows d its d' → dec_sym d s = Some (sym_value s, d').

Lemma bool_reads p b : reads_as [(p, b)] (S_bool p b).
Proof.
  intros d d' Hf. inversion Hf as [|??? d1 ?? Hr Hnil]; subst. inversion Hnil; subst.
  unfold dec_sym. by rewrite Hr.
Qed.
Lemma literal_reads v n :
  (n ≤ 32)%nat → 0 ≤ v < 2 ^ Z.of_nat n → reads_as (lit_items v n) (S_literal v n).
Proof.
  intros Hn Hv d d' Hf. assert (2 ^ Z.of_nat n ≤ 2 ^ 32) by (apply Z.pow_le_mono_r; lia).
  unfold dec_sym, read_literal. rewrite (literal_loop_follows n v 0 d d') by (lia || done).
  by rewrite Z.mul_0_l, Z.add_0_l, Z.mod_small by lia.
Qed.
Lemma signed_reads v n :
  (n ≤ 31)%nat → Z.abs v < 2 ^ Z.of_nat n → reads_as (signed_items v n) (S_signed v n).
Proof.
  intros Hn Hv d d' Hf. unfold dec_sym. by rewrite (signed_follows v n d d').
Qed.
Lemma signed_items_ok v n : probs_ok (signed_items v n).
Proof.
  constructor; [by cbn|]. destruct (v =? 0); [constructor|]. apply Forall_app.
  split; [apply lit_items_ok|by repeat constructor].
Qed.

Lemma sym_items s e e' : sym_ok s → enc_sym e s = Some e' →
  ∃ its, e' = writes e its ∧ probs_ok its ∧ reads_as its s.
Proof.
  destruct s as [p b|v n|v n|tree probs v]; unfold sym_ok, enc_sym.
  - intros Hp [= <-]. exists [(p, b)]. split; [reflexivity|].
    split; [by apply Forall_singleton|apply bool_reads].
  - intros [Hn Hv] [= <-]. exists (lit_items v n).
    split; [apply write_literal_items|]. split; [apply lit_items_ok|by apply literal_reads].
  - intros [Hn Hv] [= <-]. exists (signed_items v n).
    split; [apply write_signed_items|]. split; [apply signed_items_ok|by apply signed_reads].
  - unfold write_tree. intros Hok Henc.
    destruct (tree_path 16 tree 0 v) as [path| |] eqn:Hp; [|done..].
    destruct (tree_follows _ _ _ _ _ _ _ _ Hp Henc) as (its&->&Hb&Hread).
    exists its. split; [reflexivity|]. split; [by apply Hb|]. exact Hread.
Qed.

Lemma writes_app e a b : writes e (a ++ b) = writes (writes e a) b.
Proof. apply fold_left_app. Qed.

Lemma syms_items l e e' : Forall sym_ok l → enc_syms e l = Some e' →
  ∃ its, e' = writes e its ∧ probs_ok its
    ∧ ∀ d d', follows d its d' → dec_syms d l = Some (sym_value <$> l).
Proof.
  revert e. induction l as [|s l IH]; intros e Hok Henc.
  { cbn in Henc. simplify_eq. exists []. split; [done|]. split; [constructor|done]. }
  apply Forall_cons in Hok as [Hs Hok]. cbn [enc_syms] in Henc.
  destruct (enc_sym e s) as [e1|] eqn:He; [|done]. cbn in Henc.
  destruct (sym_items s e e1 Hs He) as (a&->&Ha&Hra).
  destruct (IH _ Hok Henc) as (b&->&Hb&Hrb).
  exists (a ++ b). rewrite writes_app. split; [done|]. split; [by apply Forall_app|].
  intros d d' (d1&H1&H2)%follows_app. cbn [dec_syms]. rewrite (Hra d d1 H1). cbn.
  by rewrite (Hrb d1 d' H2).
Qed.

(** (C21) Whatever symbols a writer puts into a partition, a reader that asks for
    the same shapes gets the same values back, whatever bytes follow. *)
Theorem bool_coder_roundtrip l e tail :
  Forall sym_ok l → enc_syms BoolEncoder_new l = Some e → Forall is_byte tail →
  dec_syms (BoolDecoder_new (finish e ++ tail)) l = Some (sym_value <$> l).
Proof.
  intros Hok Henc Ht. destruct (syms_items l _ e Hok Henc) as (its&->&Hp&Hread).
  destruct (new_follows its tail Hp Ht) as [d' Hf]. by apply (Hread _ d').
Qed.

(** The coefficient-token shape of a tree, with a literal and a sign. *)
Definition sample_tree : list Z := [-3; 2; -1; 4; 0; -2].
Definition sample_syms : list Sym :=
  [S_bool 1 true; S_bool 255 false; S_literal 0xABCDE 20; S_signed (-37) 7; S_signed 0 4;
   S_tree sample_tree [200; 128; 9] 2; S_tree sample_tree [200; 128; 9] 0; S_bool 0 true].

Lemma bool_coder_roundtrip_witness :
  ∃ e, enc_syms BoolEncoder_new sample_syms = Some e
    ∧ dec_syms (BoolDecoder_new (finish e ++ [7; 255])) sample_syms
      = Some [1; 0; 0xABCDE; -37; 0; 2; 0; 1].
Proof.
  eexists. split; [vm_compute; reflexivity|].
  refine (bool_coder_roundtrip sample_syms _ [7; 255] _ _ _).
  - repeat constructor; vm_compute; done.
  - vm_compute. reflexivity.
  - repeat constructor; vm_compute; done.
Defined.
