(* ===== verification/Permission.v ===== *)
(** * Permission: permission requests and their answers
    (k2-core/src/permission/request.rs, k2-daemon/src/permission/store.rs,
    limits.rs, answer.rs, batch.rs, expiry.rs, routes.rs)

    An agent asks for a permission; a person answers its card.  The table of
    requests is a list of rows in rowid order, every write one SQL statement
    on it (the shared connection's lock makes each statement atomic).  The
    handlers that run between those statements — an answer, the daemon
    closing a request, a new request's placement, the agent's one update —
    are step machines, and [reachable] is any interleaving of any number of
    them, each of which may also stop anywhere.

    The catalog's checks and applies are the daemon's own routes (settings,
    vault, apps, ...): their outcomes are inputs of the steps ([Env]). *)

From S2P Require Import Prelude.

(** ** Requests (request.rs) *)

Inductive RequestState :=
| Pending | AlreadyDone | Applying | Approved | Denied | Expired | Stale | Failed
| Cancelled | Closed.
#[export] Instance request_state_eq_dec : EqDecision RequestState.
Proof. solve_decision. Defined.

Definition RequestState_ALL : list RequestState :=
  [Pending; AlreadyDone; Applying; Approved; Denied; Expired; Stale; Failed; Cancelled; Closed].

Definition RequestState_as_str (s : RequestState) : string :=
  match s with
  | Pending => "pending"
  | AlreadyDone => "already_done"
  | Applying => "applying"
  | Approved => "approved"
  | Denied => "denied"
  | Expired => "expired"
  | Stale => "stale"
  | Failed => "failed"
  | Cancelled => "cancelled"
  | Closed => "closed"
  end.

Definition RequestState_parse (s : string) : option RequestState :=
  List.find (λ st, (RequestState_as_str st =? s)%string) RequestState_ALL.

Definition RequestState_is_open (s : RequestState) : bool :=
  match s with Pending | AlreadyDone => true | _ => false end.

Definition RequestState_choice_status (s : RequestState) : string :=
  match s with
  | Pending | AlreadyDone | Applying => "pending"
  | Approved | Denied | Failed | Stale => "answered"
  | Expired => "expired"
  | Cancelled | Closed => "voided"
  end.

Definition ID_PREFIX : string := "pr_".

(** [RequestId::parse]: [pr_] and 6 to 32 lowercase hex characters. *)
Definition RequestId_parse (s : string) : option string :=
  hex ← strip_prefix ID_PREFIX s;
  if (6 <=? str_len hex) && (str_len hex <=? 32)
     && forallb (λ b, is_ascii_digit b || ((97 <=? b) && (b <=? 102))) (bytes hex)
  then Some s else None.

Record PermissionRequest := mkRequest {
  pr_id : string;
  workspace_id : string;
  session_id : option string;
  conversation_id : option string;
  addr : option string;
  card_id : option string;
  pr_action : string;
  params_json : string;
  params_hash : string;
  text_hash : string;
  why : string;
  pr_state : RequestState;
  pr_floor : string;
  held_ref : option string;
  batch_id : option string;
  ask_number : Z;
  asked_for : option string;
  created_at : Z;
  expires_at : Z;
  answered_at : option Z;
  answered_by : option string;
  answered_via : option string;
  pr_reason : option string;
  result_message : option string;
  updated_why : option string;
  updated_at : option Z
}.

Definition display_id (r : PermissionRequest) : string := default (pr_id r) (held_ref r).
Definition is_none {A} (x : option A) : bool := if x is None then true else false.
Definition is_answerable (r : PermissionRequest) : bool :=
  RequestState_is_open (pr_state r) && is_none (answered_at r).

(** [limits]. *)
Definition PENDING_PER_WORKSPACE : Z := 5.
Definition ASKS_PER_WORKSPACE_PER_HOUR : Z := 20.
Definition PENDING_PER_SERVER : Z := 50.
Definition DENIAL_BLOCK_SECS : Z := 24 * 3600.
Definition UPDATE_WINDOW_SECS : Z := 7 * 24 * 3600.
Definition ASK_LIMIT_WINDOW_SECS : Z := 7 * 24 * 3600.
Definition ASKS_PER_WINDOW : Z := 2.
Definition DENY_REASON_MAX_CHARS : Z := 200.

(** ** The table (store.rs) *)

Definition Table : Type := list PermissionRequest.

Definition has_id (id : string) (r : PermissionRequest) : bool := (pr_id r =? id)%string.

(** [UPDATE … SET f WHERE p]: the changed table and the number of rows. *)
Definition update_where (p : PermissionRequest → bool) (f : PermissionRequest → PermissionRequest)
    (t : Table) : Table * Z :=
  ((λ r, if p r then f r else r) <$> t, Z.of_nat (length (List.filter p t))).

Definition set_state (s : RequestState) (r : PermissionRequest) : PermissionRequest :=
  mkRequest (pr_id r) (workspace_id r) (session_id r) (conversation_id r) (addr r) (card_id r)
    (pr_action r) (params_json r) (params_hash r) (text_hash r) (why r) s (pr_floor r)
    (held_ref r) (batch_id r) (ask_number r) (asked_for r) (created_at r) (expires_at r)
    (answered_at r) (answered_by r) (answered_via r) (pr_reason r) (result_message r)
    (updated_why r) (updated_at r).

(** The decision, once. *)
Record Decided := mkDecided {
  d_state : RequestState;
  d_by : option string;
  d_via : option string;
  d_reason : option string;
  d_message : option string;
  d_at : Z
}.

Definition set_decided (d : Decided) (r : PermissionRequest) : PermissionRequest :=
  mkRequest (pr_id r) (workspace_id r) (session_id r) (conversation_id r) (addr r) (card_id r)
    (pr_action r) (params_json r) (params_hash r) (text_hash r) (why r) (d_state d) (pr_floor r)
    (held_ref r) (batch_id r) (ask_number r) (asked_for r) (created_at r) (expires_at r)
    (Some (d_at d)) (d_by d) (d_via d) (d_reason d) (d_message d)
    (updated_why r) (updated_at r).

Definition set_placed (conv card : string) (batch : option string) (expires : Z)
    (r : PermissionRequest) : PermissionRequest :=
  mkRequest (pr_id r) (workspace_id r) (session_id r) (Some conv) (addr r) (Some card)
    (pr_action r) (params_json r) (params_hash r) (text_hash r) (why r) (pr_state r) (pr_floor r)
    (held_ref r) batch (ask_number r) (asked_for r) (created_at r) expires
    (answered_at r) (answered_by r) (answered_via r) (pr_reason r) (result_message r)
    (updated_why r) (updated_at r).

Definition set_reopened (new_why : string) (now expires : Z) (r : PermissionRequest)
    : PermissionRequest :=
  mkRequest (pr_id r) (workspace_id r) (session_id r) (conversation_id r) (addr r) (card_id r)
    (pr_action r) (params_json r) (params_hash r) (text_hash r) (why r) Pending (pr_floor r)
    (held_ref r) None (ask_number r) (asked_for r) (created_at r) expires
    None None None None None (Some new_why) (Some now).

(** [id] is the primary key: a second row with it is refused. *)
Definition insert (t : Table) (r : PermissionRequest) : Result Table string :=
  if existsb (has_id (pr_id r)) t
  then Err "permission_requests: UNIQUE constraint failed: permission_requests.id"
  else Ok (t ++ [r]).

Definition get (t : Table) (id : string) : option PermissionRequest := List.find (has_id id) t.

(** [column > v] is not true of a NULL. *)
Definition later_than (x : option Z) (v : Z) : bool := if x is Some a then v <? a else false.

Definition cas_open_to (t : Table) (id : string) (to : RequestState) : Table * bool :=
  let '(t, n) := update_where (λ r, has_id id r && is_answerable r) (set_state to) t in
  (t, n =? 1).

Definition revert_applying (t : Table) (id : string) (to : RequestState) : Table :=
  fst (update_where (λ r, has_id id r && bool_decide (pr_state r = Applying)) (set_state to) t).

Definition decide (t : Table) (id : string) (d : Decided) : Table :=
  fst (update_where (has_id id) (set_decided d) t).

Definition set_card (t : Table) (id conv card : string) (batch : option string) (expires : Z)
    : Table :=
  fst (update_where (has_id id) (set_placed conv card batch expires) t).

Definition set_open_state (t : Table) (id : string) (to : RequestState) : Table * bool :=
  let '(t, n) := update_where (λ r, has_id id r && is_answerable r) (set_state to) t in
  (t, n =? 1).

Definition reopen_denied (t : Table) (id new_why : string) (now since expires : Z) : Table * bool :=
  let '(t, n) := update_where
    (λ r, has_id id r && bool_decide (pr_state r = Denied) && is_none (updated_at r)
          && later_than (answered_at r) since)
    (set_reopened new_why now expires) t in
  (t, n =? 1).

(** [state IN ('pending', 'already_done', 'applying') AND answered_at IS NULL]. *)
Definition is_waiting (r : PermissionRequest) : bool :=
  (RequestState_is_open (pr_state r) || bool_decide (pr_state r = Applying))
  && is_none (answered_at r).
Definition same_ask (ws action hash : string) (r : PermissionRequest) : bool :=
  (workspace_id r =? ws)%string && (pr_action r =? action)%string && (params_hash r =? hash)%string.

Definition count_rows (p : PermissionRequest → bool) (t : Table) : Z :=
  Z.of_nat (length (List.filter p t)).

Definition count_open_for_workspace (t : Table) (ws : string) : Z :=
  count_rows (λ r, (workspace_id r =? ws)%string && is_waiting r) t.
Definition count_open_on_server (t : Table) : Z := count_rows is_waiting t.
Definition count_asks_since (t : Table) (ws : string) (since : Z) : Z :=
  count_rows (λ r, (workspace_id r =? ws)%string && (since <? created_at r)) t.
Definition count_same_asks_since (t : Table) (ws action hash : string) (since : Z) : Z :=
  count_rows (λ r, same_ask ws action hash r && (since <? created_at r)) t.

(** [ORDER BY created_at, rowid] and its reverse; the sort is stable. *)
Definition oldest_first (t : Table) : Table := isort (λ a b, created_at a <=? created_at b) t.

Definition for_card (t : Table) (conv card : string) : Table :=
  oldest_first (List.filter (λ r, opt_eqb String.eqb (conversation_id r) (Some conv)
    && opt_eqb String.eqb (card_id r) (Some card)) t).
Definition open_requests (t : Table) (ws : option string) : Table :=
  oldest_first (List.filter (λ r, is_answerable r
    && match ws with Some ws => (workspace_id r =? ws)%string | None => true end) t).
Definition open_due (t : Table) (now : Z) : Table :=
  oldest_first (List.filter (λ r, is_answerable r && (expires_at r <=? now)) t).

(** [ORDER BY answered_at DESC LIMIT 1] (ties: the first row). *)
Definition newest_by (key : PermissionRequest → Z) (t : Table) : option PermissionRequest :=
  min_by (λ a b, key b <=? key a) t.

Definition open_same (t : Table) (ws action hash : string) : option PermissionRequest :=
  newest_by created_at (List.filter (λ r, same_ask ws action hash r && is_waiting r) t).
Definition last_denial_since (t : Table) (ws action hash : string) (since : Z)
    : option PermissionRequest :=
  newest_by (λ r, default 0 (answered_at r))
    (List.filter (λ r, same_ask ws action hash r && bool_decide (pr_state r = Denied)
       && later_than (answered_at r) since) t).

(** ** Limits (limits.rs)

    A refused ask: its HTTP status and code (the hint is prose). *)

Record Limited := mkLimited { l_status : Z; l_code : string }.

Definition check_ask (t : Table) (ws action hash : string) (now : Z) : Result () Limited :=
  match last_denial_since t ws action hash (now - DENIAL_BLOCK_SECS) with
  | Some _ => Err (mkLimited 409 "recently_denied")
  | None =>
    if ASKS_PER_WINDOW <=? count_same_asks_since t ws action hash (now - ASK_LIMIT_WINDOW_SECS)
    then Err (mkLimited 409 "ask_limit")
    else if PENDING_PER_WORKSPACE <=? count_open_for_workspace t ws
    then Err (mkLimited 429 "too_many_requests")
    else if ASKS_PER_WORKSPACE_PER_HOUR <=? count_asks_since t ws (now - 3600)
    then Err (mkLimited 429 "too_many_requests")
    else if PENDING_PER_SERVER <=? count_open_on_server t
    then Err (mkLimited 429 "too_many_requests")
    else Ok ()
  end.

Definition next_ask_number (t : Table) (ws action hash : string) (now : Z) : Z :=
  count_same_asks_since t ws action hash (now - ASK_LIMIT_WINDOW_SECS) + 1.

(** ** Who answers what (answer.rs, present.rs) *)

Inductive Answerer :=
| OwnerToken
| Login (user role : string).

Inductive Floor := Floor_Owner | Floor_Admin | Floor_GardenOwner.

Definition floor_of (stored : string) : Floor :=
  if (stored =? "admin")%string then Floor_Admin
  else if (stored =? "garden-owner")%string then Floor_GardenOwner
  else Floor_Owner.
Definition Floor_as_str (f : Floor) : string :=
  match f with Floor_Owner | Floor_GardenOwner => "owner" | Floor_Admin => "admin" end.

Inductive Decision := Allow | Always | Deny | Close.
#[export] Instance decision_eq_dec : EqDecision Decision.
Proof. solve_decision. Defined.

Definition label_ALLOW : string := "Allow".
Definition label_DENY : string := "Deny".
Definition label_ALLOW_ALL : string := "Allow all".
Definition label_DENY_ALL : string := "Deny all".
Definition label_CLOSE : string := "Close".
Definition label_ALWAYS : string := "Allow, and let it manage its Apps' users from now on".
Definition label_ALWAYS_CHAT_REFRESH : string :=
  "Allow, and let it refresh its chat from now on".

(** Text is its scalar values. *)
Definition is_text (a : list Z) (s : string) : bool := bool_decide (a = chars s).

Definition decision_of (a : list Z) : option Decision :=
  if is_text a label_ALLOW then Some Allow
  else if is_text a label_ALWAYS || is_text a label_ALWAYS_CHAT_REFRESH then Some Always
  else if is_text a label_DENY then Some Deny
  else if is_text a label_CLOSE then Some Close
  else None.

(** A refused answer: [err(status, code, …)] or [below_floor(required)]. *)
Inductive AnswerRefusal :=
| Refuse (status : Z) (code : string)
| BelowFloor (required : string).

(** [params.get(k).map(trim).filter(non-empty)]. *)
Definition field (params : gmap string string) (k : string) : option (list Z) :=
  s ← params !! k;
  let a := trim_chars (chars s) in
  if bool_decide (a = []) then None else Some a.

(** [params.get(a).or_else(get(b))], then trimmed. *)
Definition field2 (params : gmap string string) (a b : string) : option (list Z) :=
  match params !! a with Some _ => field params a | None => field params b end.

Section targets.
(** Whether a Connect login is the owner's (a database read), whether the
    catalog knows an action and lets "Allow all" cover it, and which cards
    offer the "and from now on" label. *)
Variable login_is_owner_person : string → bool.
Variable find_batchable : string → option bool.
Variables held_offers_always refresh_offers_always : PermissionRequest → bool.

Definition meets_floor (f : Floor) (who : Answerer) : bool :=
  match who with
  | OwnerToken => true
  | Login user role =>
    match f with
    | Floor_GardenOwner => login_is_owner_person user
    | Floor_Owner => (role =? "owner")%string
    | Floor_Admin => (role =? "owner")%string || (role =? "admin")%string
    end
  end.

(** An item "Allow all" leaves to be answered on its own. *)
Definition needs_confirm (r : PermissionRequest) : bool :=
  opt_is_some_and negb (find_batchable (pr_action r)).

Definition bad_reason (reason : list Z) : bool :=
  (DENY_REASON_MAX_CHARS <? Z.of_nat (length reason)) || existsb (λ c, (c =? 10) || (c =? 13)) reason.

(** The first item whose floor this person does not meet. *)
Fixpoint first_below (reqs : list PermissionRequest) (who : Answerer) : option string :=
  match reqs with
  | [] => None
  | r :: rest =>
    if meets_floor (floor_of (pr_floor r)) who then first_below rest who
    else Some (Floor_as_str (floor_of (pr_floor r)))
  end.

Definition all_targets (reqs : list PermissionRequest) (allow : bool) (who : Answerer)
    : Result (list (PermissionRequest * Decision)) AnswerRefusal :=
  let answerable := List.filter is_answerable reqs in
  match first_below answerable who with
  | Some required => Err (BelowFloor required)
  | None =>
    let targets :=
      if allow then (λ r, (r, Allow)) <$> List.filter (λ r, negb (needs_confirm r)) answerable
      else (λ r, (r, Deny)) <$> answerable in
    if bool_decide (targets = []) then Err (Refuse 409 "request_not_pending") else Ok targets
  end.

Definition one_target (reqs : list PermissionRequest) (batch : bool) (answer : list Z)
    (item : option (list Z)) (who : Answerer)
    : Result (list (PermissionRequest * Decision)) AnswerRefusal :=
  match decision_of answer, reqs with
  | None, _ => Err (Refuse 400 "usage")
  | _, [] => Err (Refuse 409 "request_not_pending")
  | Some d, first :: _ =>
    let offered := if is_text answer label_ALWAYS_CHAT_REFRESH
                   then refresh_offers_always first else held_offers_always first in
    if bool_decide (d = Always) && (batch || negb offered) then Err (Refuse 400 "usage")
    else
      let? target :=
        (if batch then
           match item with
           | None => Err (Refuse 400 "usage")
           | Some id =>
             match List.find (λ r, is_text id (display_id r) || is_text id (pr_id r)) reqs with
             | Some r => Ok r
             | None => Err (Refuse 400 "usage")
             end
           end
         else Ok first) in
      if meets_floor (floor_of (pr_floor target)) who then Ok [(target, d)]
      else Err (BelowFloor (Floor_as_str (floor_of (pr_floor target))))
  end.

(** [answer] up to the decisions: which requests of the card are decided,
    and how. *)
Definition answer_targets (t : Table) (params : gmap string string) (conv card : string)
    (batch : bool) (who : Answerer)
    : Result (list (PermissionRequest * Decision)) AnswerRefusal :=
  match field2 params "answer" "option" with
  | None => Err (Refuse 400 "usage")
  | Some answer =>
    let reqs := for_card t conv card in
    if bool_decide (reqs = []) then Err (Refuse 409 "request_not_pending")
    else if opt_is_some_and bad_reason (field params "reason") then Err (Refuse 400 "usage")
    else
      let item := field params "item" in
      if batch && is_none item && (is_text answer label_ALLOW_ALL || is_text answer label_DENY_ALL)
      then all_targets reqs (is_text answer label_ALLOW_ALL) who
      else one_target reqs batch answer item who
  end.
End targets.

(** ** The handlers as step machines *)

Inductive Check := Check_Needed | Check_AlreadyDone | Check_Moved | Check_Unavailable.

Inductive Applied :=
| Applied_Done (message : string)
| Applied_Refused (code message : string).

(** Refusals of an apply that decide nothing. *)
Definition retryable (code : string) : bool :=
  mem_str code ["vault_confirm_required"; "rate_limited"; "loopback_only";
                "reveal_needs_screen"; "owner_in_person"].

(** What the code outside the module answers at each step of one handler. *)
Record Env := mkEnv {
  env_now : Z;
  env_by : option string;
  env_via : option string;
  env_reason : option string;
  env_gate : bool;            (* the checks before the compare-and-set let it pass *)
  env_registered : bool;      (* the catalog knows the action *)
  env_text_same : bool;       (* the card's wording is the stored one *)
  env_check : Check;
  env_applied : Applied;
  env_message : string
}.

(** Where an answer's [decide_one] stands. *)
Inductive AnswerPc :=
| A_start                        (* the request is not read yet *)
| A_cas (prior : RequestState)   (* about to compare-and-set *)
| A_check (prior : RequestState) (* won: the current-state check *)
| A_apply (prior : RequestState)
| A_record (d : Decided)
| A_revert (prior : RequestState)
| A_end.

(** A handler in flight: an answer to one request; the daemon closing one
    ([close_open]); a new request being stored and placed; the agent's
    update; the render-time flip between [pending] and [already_done]. *)
Inductive Task :=
| T_answer (id : string) (d : Decision) (pc : AnswerPc)
| T_close (id : string) (to : RequestState) (won : bool) (running : bool)
| T_request (r : PermissionRequest) (pc : nat)
| T_update (id new_why : string) (expires : Z) (running : bool)
| T_flip (id : string) (to : RequestState) (running : bool).

Record World := mkWorld {
  rows : Table;
  applied : list string;    (* requests whose action was applied, in order *)
  decided : list string;    (* decisions recorded on a request that was won *)
  reopened : list string    (* requests opened again by an update *)
}.

Definition set_rows (t : Table) (w : World) : World :=
  mkWorld t (applied w) (decided w) (reopened w).
Definition note_applied (id : string) (w : World) : World :=
  mkWorld (rows w) (applied w ++ [id]) (decided w) (reopened w).
Definition note_decided (id : string) (w : World) : World :=
  mkWorld (rows w) (applied w) (decided w ++ [id]) (reopened w).
Definition note_reopened (id : string) (w : World) : World :=
  mkWorld (rows w) (applied w) (decided w) (reopened w ++ [id]).

Definition decided_as (e : Env) (s : RequestState) (message : string) (reason : option string)
    : Decided :=
  mkDecided s (env_by e) (env_via e) reason (Some message) (env_now e).

(** One statement of [decide_one]. *)
Definition answer_step (e : Env) (id : string) (d : Decision) (pc : AnswerPc) (w : World)
    : World * AnswerPc :=
  match pc with
  | A_start =>
    match get (rows w) id with
    | Some r => (w, A_cas (pr_state r))
    | None => (w, A_end)
    end
  | A_cas prior =>
    if bool_decide (d = Deny) then
      let '(t, won) := cas_open_to (rows w) id Denied in
      if won
      then (set_rows t w, A_record (decided_as e Denied (env_message e) (env_reason e)))
      else (w, A_end)
    else if negb (env_gate e) then (w, A_end)
    else
      let '(t, won) := cas_open_to (rows w) id Applying in
      if won then (set_rows t w, A_check prior) else (w, A_end)
  | A_check prior =>
    if negb (env_registered e) || negb (env_text_same e)
    then (w, A_record (decided_as e Stale (env_message e) None))
    else match env_check e with
         | Check_AlreadyDone => (w, A_record (decided_as e AlreadyDone (env_message e) None))
         | Check_Moved | Check_Unavailable =>
           (w, A_record (decided_as e Stale (env_message e) None))
         | Check_Needed => if bool_decide (d = Close) then (w, A_revert prior) else (w, A_apply prior)
         end
  | A_apply prior =>
    match env_applied e with
    | Applied_Done message => (note_applied id w, A_record (decided_as e Approved message None))
    | Applied_Refused code message =>
      if retryable code then (w, A_revert prior)
      else (w, A_record (decided_as e Failed message None))
    end
  | A_record dec => (note_decided id (set_rows (decide (rows w) id dec) w), A_end)
  | A_revert prior => (set_rows (revert_applying (rows w) id prior) w, A_end)
  | A_end => (w, A_end)
  end.

(** One row [batch::place] puts on a card: the request's own, or an item of
    the batch card it joins. *)
Record Placement := mkPlacement {
  p_row : string;
  p_conv : string;
  p_card : string;
  p_batch : option string;
  p_expires : Z
}.
Definition place_row (t : Table) (p : Placement) : Table :=
  set_card t (p_row p) (p_conv p) (p_card p) (p_batch p) (p_expires p).

(** [request]: the row is stored; its card is placed, or could not be, and
    then the row is closed as failed — the compare-and-set's answer is not
    looked at.  [placed]: the next row to place, [None] when placing fails. *)
Definition request_step (e : Env) (r : PermissionRequest) (pc : nat) (placed : option Placement)
    (w : World) : World * nat :=
  match pc with
  | 0%nat =>
    match insert (rows w) r with
    | Ok t => (set_rows t w, 1%nat)
    | Err _ => (w, 4%nat)
    end
  | 1%nat =>
    match placed with
    | Some p => (set_rows (place_row (rows w) p) w, 1%nat)
    | None => (set_rows (fst (cas_open_to (rows w) (pr_id r) Failed)) w, 2%nat)
    end
  | 2%nat =>
    (set_rows (decide (rows w) (pr_id r)
       (mkDecided Failed None None None (Some (env_message e)) (env_now e))) w, 4%nat)
  | _ => (w, pc)
  end.

Definition task_step (e : Env) (placed : option Placement) (t : Task) (w : World)
    : World * Task :=
  match t with
  | T_answer id d pc => let '(w, pc) := answer_step e id d pc w in (w, T_answer id d pc)
  | T_close id to won running =>
    if won then
      (note_decided id (set_rows (decide (rows w) id
         (mkDecided to None None None (Some (env_message e)) (env_now e))) w),
       T_close id to false false)
    else if running then
      let '(tb, n) := cas_open_to (rows w) id to in
      (set_rows tb w, T_close id to n false)
    else (w, t)
  | T_request r pc => let '(w, pc) := request_step e r pc placed w in (w, T_request r pc)
  | T_update id new_why expires running =>
    if running then
      let '(tb, won) := reopen_denied (rows w) id new_why (env_now e)
                          (env_now e - UPDATE_WINDOW_SECS) expires in
      ((if won then note_reopened id (set_rows tb w) else set_rows tb w),
       T_update id new_why expires false)
    else
      match placed with
      | Some p => (set_rows (place_row (rows w) p) w, t)
      | None => (w, t)
      end
  | T_flip id to running =>
    if running then (set_rows (fst (set_open_state (rows w) id to)) w, T_flip id to false)
    else (w, t)
  end.

(** Handlers start as the code starts them. *)
Inductive fresh_task : Task → Prop :=
| fresh_answer id d : fresh_task (T_answer id d A_start)
| fresh_close id to : to ∈ [Cancelled; Expired; Closed] → fresh_task (T_close id to false true)
| fresh_request r :
    pr_state r = Pending → answered_at r = None → updated_at r = None →
    fresh_task (T_request r 0)
| fresh_update id w x : fresh_task (T_update id w x true)
| fresh_flip id to : RequestState_is_open to = true → fresh_task (T_flip id to true).

(** The daemon: a world and its handlers in flight; any of them runs its next
    statement, a new one starts, or one stops for good. *)
Inductive step : World * list Task → World * list Task → Prop :=
| step_spawn w ts t : fresh_task t → step (w, ts) (w, t :: ts)
| step_task w ts1 t ts2 e placed w' t' :
    task_step e placed t w = (w', t') → step (w, ts1 ++ t :: ts2) (w', ts1 ++ t' :: ts2)
| step_stop w ts1 t ts2 : step (w, ts1 ++ t :: ts2) (w, ts1 ++ ts2).

Definition empty_world : World := mkWorld [] [] [] [].
Definition reachable (s : World * list Task) : Prop := rtc step (empty_world, []) s.

(** ** Lemmas: the table *)

Definition ids (t : Table) : list string := pr_id <$> t.

Lemma has_id_true id r : has_id id r = true ↔ pr_id r = id.
Proof. apply String.eqb_eq. Qed.

Lemma same_row t r1 r2 :
  NoDup (ids t) → r1 ∈ t → r2 ∈ t → pr_id r1 = pr_id r2 → r1 = r2.
Proof.
  intros Hnd H1 H2 Heq. induction t as [|x t IH]; [by apply elem_of_nil in H1|].
  apply NoDup_cons in Hnd as [Hx Hnd].
  apply elem_of_cons in H1 as [-> | H1], H2 as [-> | H2]; [done| | |by apply IH].
  - destruct Hx. rewrite Heq. by apply list_elem_of_fmap_2.
  - destruct Hx. rewrite <- Heq. by apply list_elem_of_fmap_2.
Qed.

(** A statement about one id: what the other rows have stays. *)
Section update_one.
Variables (id : string) (p : PermissionRequest → bool) (f : PermissionRequest → PermissionRequest).
Hypothesis p_id : ∀ r, p r = true → pr_id r = id.
Hypothesis f_id : ∀ r, pr_id (f r) = pr_id r.

Lemma update_ids t : ids (fst (update_where p f t)) = ids t.
Proof.
  unfold ids, update_where. simpl. rewrite <- list_fmap_compose. apply list_fmap_ext.
  intros _ r _. unfold compose. destruct (p r); [apply f_id|done].
Qed.

Lemma update_rows (P Q : PermissionRequest → Prop) t :
  (∀ r, r ∈ t → P r) →
  (∀ r, r ∈ t → pr_id r = id → P r → if p r then Q (f r) else Q r) →
  (∀ r, pr_id r ≠ id → P r → Q r) →
  ∀ r, r ∈ fst (update_where p f t) → Q r.
Proof.
  intros HP Hone Hother r Hr. unfold update_where in Hr. simpl in Hr.
  apply list_elem_of_fmap in Hr as (r0&->&Hr0).
  destruct (base.decide (pr_id r0 = id)) as [Heq|Hne].
  - specialize (Hone r0 Hr0 Heq (HP r0 Hr0)). by destruct (p r0).
  - destruct (p r0) eqn:Hp; [by apply p_id in Hp|]. by apply Hother, HP.
Qed.

Lemma update_won t : snd (update_where p f t) =? 1 = true → ∃ r, r ∈ t ∧ p r = true.
Proof.
  unfold update_where. simpl. destruct (List.filter p t) as [|r l] eqn:E; [done|].
  intros _. exists r. apply elem_of_filter_bool. rewrite E. apply list_elem_of_here.
Qed.

Lemma update_won_all t r :
  NoDup (ids t) → snd (update_where p f t) =? 1 = true → r ∈ t → pr_id r = id → p r = true.
Proof.
  intros Hnd Hwon Hr Heq. apply update_won in Hwon as (r0&Hr0&Hp).
  by rewrite <- (same_row t r0 r Hnd Hr0 Hr) by (rewrite (p_id r0 Hp); done).
Qed.

Lemma update_lost t :
  NoDup (ids t) → snd (update_where p f t) =? 1 = false → fst (update_where p f t) = t.
Proof.
  unfold update_where. simpl. intros Hnd Hlost.
  assert (∀ r, r ∈ t → p r = false) as Hnone.
  { destruct (List.filter p t) as [|r1 [|r2 l]] eqn:E; [|done|].
    - intros r Hr. destruct (p r) eqn:Hp; [|done]. exfalso.
      apply (not_elem_of_nil r). rewrite <- E. by apply elem_of_filter_bool.
    - exfalso. assert (r1 ∈ List.filter p t ∧ r2 ∈ List.filter p t) as [H1 H2]
        by (rewrite E; set_solver).
      apply elem_of_filter_bool in H1 as [H1 Hp1], H2 as [H2 Hp2].
      assert (NoDup (List.filter p t)) as Hnf by (apply NoDup_filter_bool, (NoDup_fmap_1 _ _ Hnd)).
      rewrite E in Hnf. apply NoDup_cons in Hnf as [Hne _]. apply Hne.
      rewrite (same_row t r1 r2 Hnd H1 H2) by (by rewrite (p_id r1 Hp1), (p_id r2 Hp2)).
      apply list_elem_of_here. }
  clear Hlost Hnd. induction t as [|r t IH]; [done|]. simpl.
  rewrite (Hnone r) by apply list_elem_of_here. f_equal.
  apply IH. intros x Hx. apply Hnone. by apply list_elem_of_further.
Qed.
End update_one.

(** ** Lemmas: the invariant of the interleavings *)

Definition holds (t : Task) : option string :=
  match t with
  | T_answer id _ (A_check _ | A_apply _ | A_record _ | A_revert _) => Some id
  | T_close id _ true _ => Some id
  | _ => None
  end.
Definition holders (ts : list Task) : list string := omap holds ts.

(** Answers between winning the compare-and-set and the apply's outcome. *)
Definition applying (t : Task) : option string :=
  match t with
  | T_answer id _ (A_check _ | A_apply _ | A_revert _) => Some id
  | _ => None
  end.

(** Neither answerable nor open to the one update. *)
Definition dormant (r : PermissionRequest) : Prop :=
  is_answerable r = false ∧ (pr_state r = Denied → answered_at r = None).
Definition final (r : PermissionRequest) : Prop :=
  pr_state r ≠ Pending ∧ pr_state r ≠ AlreadyDone ∧ pr_state r ≠ Denied.

Definition times (id : string) (l : list string) : nat := length (List.filter (String.eqb id) l).

(** What the ghost lists say of a row: [hs] the ids a handler has won, [af]
    those whose apply is still to come. *)
Definition row_ok (w : World) (hs af : list string) (r : PermissionRequest) : Prop :=
  let id := pr_id r in
  (id ∈ hs → dormant r)
  ∧ (id ∈ applied w ∨ id ∈ af → final r)
  ∧ (id ∈ hs ∨ answered_at r = None → (times id (decided w) ≤ times id (reopened w))%nat)
  ∧ (times id (decided w) ≤ S (times id (reopened w)))%nat
  ∧ (times id (reopened w) ≤ 1)%nat
  ∧ (updated_at r = None → times id (reopened w) = 0%nat).

Record Inv (w : World) (hs af : list string) : Prop := {
  i_ids : NoDup (ids (rows w));
  i_hs : NoDup hs;
  i_rows : ∀ r, r ∈ rows w → row_ok w hs af r;
  i_known : ∀ id, id ∈ hs ++ af ++ applied w ++ decided w ++ reopened w → id ∈ ids (rows w);
  i_applied : NoDup (applied w)
}.

Definition task_ok (applied : list string) (t : Task) : Prop :=
  match t with
  | T_answer id _ (A_check _ | A_apply _ | A_revert _) => id ∉ applied
  | T_answer id d (A_record dec) => id ∈ applied → d_state dec = Approved
  | T_close id to won _ => to ∈ [Cancelled; Expired; Closed] ∧ (won = true → id ∉ applied)
  | T_request r 0 => pr_state r = Pending ∧ answered_at r = None ∧ updated_at r = None
  | T_flip _ to _ => RequestState_is_open to = true
  | _ => True
  end.

Lemma times_zero id l : id ∉ l → times id l = 0%nat.
Proof.
  unfold times. intros Hid. destruct (List.filter _ l) as [|x r] eqn:E; [done|].
  destruct Hid. assert (x ∈ List.filter (String.eqb id) l) as Hx by (rewrite E; apply list_elem_of_here).
  apply elem_of_filter_bool in Hx as [Hx Heq]. by apply String.eqb_eq in Heq as ->.
Qed.
Lemma times_id_snoc id x l : times id (l ++ [x]) = (times id l + if (id =? x)%string then 1 else 0)%nat.
Proof. unfold times. rewrite List.filter_app, length_app. simpl. by destruct (id =? x)%string. Qed.
Lemma times_id_snoc_same id l : times id (l ++ [id]) = S (times id l).
Proof. rewrite times_id_snoc, String.eqb_refl. lia. Qed.
Lemma times_id_snoc_other id x l : id ≠ x → times id (l ++ [x]) = times id l.
Proof. intros H. rewrite times_id_snoc. apply String.eqb_neq in H. rewrite H. lia. Qed.


(** *** The world's moves keep the invariant *)

Lemma inv_weaken w hs af hs' af' :
  Inv w hs af → NoDup hs' → (∀ x, x ∈ hs' → x ∈ hs) → (∀ x, x ∈ af' → x ∈ af) → Inv w hs' af'.
Proof.
  intros [Hids Hhs Hrows Hknown Happ] Hnd Hs Ha. split; [done|done| | |done].
  - intros r Hr. destruct (Hrows r Hr) as (H1&H2&H3&H4&H5&H6). unfold row_ok. split_and!; try done.
    + intros H. by apply H1, Hs.
    + intros [H|H]; apply H2; [by left|right; by apply Ha].
    + intros [H|H]; apply H3; [left; by apply Hs|by right].
  - intros id Hid. apply Hknown. rewrite !elem_of_app in *. naive_solver.
Qed.

(** A write that wins nothing: whatever it does to a row, a won row stays
    dormant and an applied one final. *)
Lemma inv_quiet w hs af id p f :
  (∀ r, p r = true → pr_id r = id) → (∀ r, pr_id (f r) = pr_id r) →
  (∀ r, p r = true → (dormant r → dormant (f r)) ∧ (final r → final (f r))
    ∧ (answered_at (f r) = None → answered_at r = None)
    ∧ (updated_at (f r) = None → updated_at r = None)) →
  Inv w hs af → Inv (set_rows (fst (update_where p f (rows w))) w) hs af.
Proof.
  intros Hp Hf Hkeep [Hids Hhs Hrows Hknown Happ].
  split; cbn [rows set_rows applied decided reopened]; rewrite ?update_ids by done; try done.
  apply (update_rows id p f Hp (row_ok w hs af)); [done| |done].
  intros r Hr Hid Hok. destruct (p r) eqn:Hpr; [|done].
  destruct (Hkeep r Hpr) as (K1&K2&K3&K4). destruct Hok as (H1&H2&H3&H4&H5&H6).
  unfold row_ok. cbn [applied decided reopened set_rows]. rewrite Hf. split_and!; try done.
  - intros H. by apply K1, H1.
  - intros H. by apply K2, H2.
  - intros [H|H]; apply H3; [by left|right; by apply K3].
  - intros H. by apply H6, K4.
Qed.

Lemma answerable_not_dormant r : is_answerable r = true → ¬ dormant r.
Proof. intros H [Hd _]. congruence. Qed.
Lemma answerable_not_final r : is_answerable r = true → ¬ final r.
Proof.
  unfold is_answerable, final. intros [Ho _]%andb_true_iff (H1&H2&_).
  destruct (pr_state r); done.
Qed.
Lemma answerable_unanswered r : is_answerable r = true → answered_at r = None.
Proof. unfold is_answerable. intros [_ H]%andb_true_iff. by destruct (answered_at r). Qed.

Definition cas_guard (id : string) (r : PermissionRequest) : bool := has_id id r && is_answerable r.
Lemma cas_guard_id id r : cas_guard id r = true → pr_id r = id.
Proof. unfold cas_guard. intros [H _]%andb_true_iff. by apply has_id_true. Qed.
Lemma cas_guard_answerable id r : cas_guard id r = true → is_answerable r = true.
Proof. unfold cas_guard. by intros [_ H]%andb_true_iff. Qed.

(** Winning the compare-and-set. *)
Lemma inv_cas w hs af id to t :
  RequestState_is_open to = false →
  Inv w hs af → cas_open_to (rows w) id to = (t, true) →
  id ∉ hs ∧ id ∉ af ∧ id ∉ applied w ∧ Inv (set_rows t w) (id :: hs) af
  ∧ (to ≠ Denied → Inv (set_rows t w) (id :: hs) (id :: af)).
Proof.
  intros Hto HInv Hcas. pose proof HInv as [Hids Hhs Hrows Hknown Happ].
  unfold cas_open_to in Hcas. change (λ r, has_id id r && is_answerable r) with (cas_guard id) in Hcas.
  destruct (update_where (cas_guard id) (set_state to) (rows w)) as [t' n] eqn:Hu.
  injection Hcas as -> Hn.
  assert (snd (update_where (cas_guard id) (set_state to) (rows w)) =? 1 = true) as Hwon
    by (by rewrite Hu).
  assert (t = fst (update_where (cas_guard id) (set_state to) (rows w))) as -> by (by rewrite Hu).
  destruct (update_won _ _ _ Hwon) as (r0&Hr0&Hp0).
  pose proof (cas_guard_id _ _ Hp0) as Hid0. pose proof (cas_guard_answerable _ _ Hp0) as Ha0.
  destruct (Hrows r0 Hr0) as (H1&H2&H3&H4&H5&H6). rewrite Hid0 in *.
  assert (id ∉ hs) as Hnh by (intros H; by apply (answerable_not_dormant r0), H1).
  assert (id ∉ applied w) as Hna by (intros H; apply (answerable_not_final r0); auto).
  assert (id ∉ af) as Hnf by (intros H; apply (answerable_not_final r0); auto).
  split; [done|]. split; [done|]. split; [done|].
  assert (∀ af', (∀ x, x ∈ af' → x = id ∧ to ≠ Denied ∨ x ∈ af) →
    Inv (set_rows (fst (update_where (cas_guard id) (set_state to) (rows w))) w) (id :: hs) af') as Hall.
  { intros af' Haf'.
    split; cbn [rows set_rows applied decided reopened]; rewrite ?update_ids by done;
      [done|by constructor| | |done].
    - apply (update_rows id (cas_guard id) (set_state to) (cas_guard_id id) (row_ok w hs af)); [done| |].
      + intros r Hr Hid _. assert (r = r0) as -> by (apply (same_row (rows w)); [done..|congruence]).
        rewrite Hp0. unfold row_ok.
        cbn [pr_id set_state applied decided reopened set_rows answered_at updated_at].
        rewrite Hid0. split_and!; try done.
        * intros _. split.
          -- unfold is_answerable. cbn [pr_state set_state]. by rewrite Hto.
          -- intros _. cbn. by apply answerable_unanswered.
        * intros [H|H]; [done|]. destruct (Haf' id H) as [[_ Hd]|Hin]; [|done].
          unfold final. cbn [pr_state set_state]. by destruct to.
        * intros _. apply H3. right. by apply answerable_unanswered.
      + intros r Hne (G1&G2&G3&G4&G5&G6). unfold row_ok.
        cbn [applied decided reopened set_rows]. split_and!; try done.
        * intros [?|H]%elem_of_cons; [done|by apply G1].
        * intros [H|H]; [by apply G2; left|]. destruct (Haf' _ H) as [[? _]|?]; [done|].
          apply G2. by right.
        * intros [[?|H]%elem_of_cons|H]; [done|by apply G3; left|by apply G3; right].
    - intros x Hx. assert (id ∈ ids (rows w)) as Hin
        by (rewrite <- Hid0; unfold ids; by apply list_elem_of_fmap_2).
      rewrite !elem_of_app, elem_of_cons in Hx.
      destruct Hx as [[-> |Hx]|[Hx|Hx]]; [done| | |].
      + apply Hknown. rewrite !elem_of_app. auto.
      + destruct (Haf' _ Hx) as [[-> _]|Hx']; [done|]. apply Hknown. rewrite !elem_of_app. auto.
      + apply Hknown. rewrite !elem_of_app. naive_solver. }
  split; [apply Hall; auto|]. intros Hd. apply Hall.
  intros x [-> |Hx]%elem_of_cons; auto.
Qed.

(** A lost compare-and-set changes nothing. *)
Lemma cas_lost w hs af id to t :
  Inv w hs af → cas_open_to (rows w) id to = (t, false) → t = rows w.
Proof.
  intros HInv Hcas. unfold cas_open_to in Hcas.
  change (λ r, has_id id r && is_answerable r) with (cas_guard id) in Hcas.
  destruct (update_where (cas_guard id) (set_state to) (rows w)) as [t' n] eqn:Hu.
  injection Hcas as -> Hn.
  pose proof (update_lost id (cas_guard id) (set_state to) (cas_guard_id id) (λ _, eq_refl)
    (rows w) (i_ids _ _ _ HInv)) as H.
  rewrite Hu in H. by apply H.
Qed.

(** Giving up a won row: the decision is recorded, or the row is put back. *)
Lemma inv_record w hs af id dec :
  Inv w (id :: hs) af → id ∉ hs → id ∉ af → (id ∈ applied w → d_state dec = Approved) →
  Inv (note_decided id (set_rows (decide (rows w) id dec) w)) hs af.
Proof.
  intros [Hids Hhs Hrows Hknown Happ] Hnh Hnf Happr.
  assert (∀ r, has_id id r = true → pr_id r = id) as Hp by (intros r; apply has_id_true).
  unfold decide.
  split; cbn [rows set_rows note_decided applied decided reopened]; rewrite ?update_ids by done;
    [done|by inversion Hhs| | |done].
  - apply (update_rows id (has_id id) (set_decided dec) Hp (row_ok w (id :: hs) af)); [done| |].
    + intros r Hr Hid (H1&H2&H3&H4&H5&H6). rewrite (proj2 (has_id_true id r) Hid).
      unfold row_ok. cbn [pr_id set_decided applied decided reopened set_rows note_decided answered_at updated_at].
      rewrite Hid in *. rewrite times_id_snoc_same.
      assert (times id (decided w) ≤ times id (reopened w))%nat as Hle
        by (apply H3; left; apply list_elem_of_here).
      split_and!; try done; [| |lia].
      * intros [H|H]; [|done]. unfold final. cbn [pr_state set_decided]. by rewrite (Happr H).
      * by intros [?|?].
    + intros r Hne (G1&G2&G3&G4&G5&G6). unfold row_ok.
      cbn [applied decided reopened set_rows note_decided]. rewrite times_id_snoc_other by done.
      split_and!; try done.
      * intros H. by apply G1, list_elem_of_further.
      * intros [H|H]; apply G3; [left; by apply list_elem_of_further|by right].
  - intros x Hx. rewrite !elem_of_app in Hx. apply Hknown.
    rewrite !elem_of_app, elem_of_cons. rewrite list_elem_of_singleton in Hx. naive_solver.
Qed.

Lemma inv_revert w hs af id to :
  Inv w (id :: hs) (id :: af) → id ∉ hs → id ∉ af → id ∉ applied w →
  Inv (set_rows (revert_applying (rows w) id to) w) hs af.
Proof.
  intros [Hids Hhs Hrows Hknown Happ] Hnh Hnf Hna.
  unfold revert_applying. set (p := λ r, has_id id r && bool_decide (pr_state r = Applying)).
  assert (∀ r, p r = true → pr_id r = id) as Hp by (intros r [H _]%andb_true_iff; by apply has_id_true).
  split; cbn [rows set_rows applied decided reopened]; rewrite ?update_ids by done;
    [done|by inversion Hhs| | |done].
  - apply (update_rows id p (set_state to) Hp (row_ok w (id :: hs) (id :: af))); [done| |].
    + intros r Hr Hid (H1&H2&H3&H4&H5&H6).
      assert (∀ r', pr_id r' = id → answered_at r' = answered_at r → updated_at r' = updated_at r →
        row_ok (set_rows (fst (update_where p (set_state to) (rows w))) w) hs af r') as Hany.
      { intros r' Hid' Ha Hu. unfold row_ok. cbn [applied decided reopened set_rows].
        rewrite Hid', Ha, Hu. rewrite Hid in *. split_and!; try done; [by intros [?|?]|].
        intros _. apply H3. left. apply list_elem_of_here. }
      destruct (p r); by apply Hany.
    + intros r Hne (G1&G2&G3&G4&G5&G6). unfold row_ok. cbn [applied decided reopened set_rows].
      split_and!; try done.
      * intros H. by apply G1, list_elem_of_further.
      * intros [H|H]; apply G2; [by left|right; by apply list_elem_of_further].
      * intros [H|H]; apply G3; [left; by apply list_elem_of_further|by right].
  - intros x Hx. apply Hknown. rewrite !elem_of_app in *. rewrite !elem_of_cons. naive_solver.
Qed.

(** The apply succeeded. *)
Lemma inv_apply w hs af id :
  Inv w hs (id :: af) → id ∉ applied w → Inv (note_applied id w) hs af.
Proof.
  intros [Hids Hhs Hrows Hknown Happ] Hna.
  split; cbn [rows note_applied applied decided reopened]; [done|done| | |].
  - intros r Hr. destruct (Hrows r Hr) as (H1&H2&H3&H4&H5&H6). unfold row_ok.
    cbn [applied decided reopened note_applied]. split_and!; try done.
    rewrite elem_of_app, list_elem_of_singleton.
    intros [[H|H]|H]; apply H2; [by left|right; rewrite H; apply list_elem_of_here|].
    right. by apply list_elem_of_further.
  - intros x Hx. apply Hknown. rewrite !elem_of_app in *. rewrite elem_of_cons.
    rewrite list_elem_of_singleton in Hx. naive_solver.
  - apply NoDup_app. split; [done|]. split; [|apply NoDup_singleton].
    intros x Hx ->%list_elem_of_singleton. done.
Qed.

(** The one update. *)
Lemma inv_reopen w hs af id new_why now since expires t won :
  Inv w hs af → reopen_denied (rows w) id new_why now since expires = (t, won) →
  if won then Inv (note_reopened id (set_rows t w)) hs af else t = rows w.
Proof.
  intros HInv. pose proof HInv as [Hids Hhs Hrows Hknown Happ]. unfold reopen_denied.
  set (p := λ r, has_id id r && bool_decide (pr_state r = Denied) && is_none (updated_at r)
    && later_than (answered_at r) since).
  assert (∀ r, p r = true → pr_id r = id ∧ pr_state r = Denied ∧ updated_at r = None
    ∧ answered_at r ≠ None) as Hp.
  { unfold p. intros r Hpr. rewrite !andb_true_iff in Hpr. destruct Hpr as [[[H1 H2] H3] H4].
    apply bool_decide_eq_true in H2. split_and!; [by apply has_id_true|done|by destruct (updated_at r)|].
    by destruct (answered_at r). }
  destruct (update_where p (set_reopened new_why now expires) (rows w)) as [t' n] eqn:Hu.
  intros [= <- <-]. destruct (n =? 1) eqn:Hn.
  - assert (snd (update_where p (set_reopened new_why now expires) (rows w)) =? 1 = true) as Hwon
      by (by rewrite Hu).
    assert (t' = fst (update_where p (set_reopened new_why now expires) (rows w))) as -> by (by rewrite Hu).
    destruct (update_won _ _ _ Hwon) as (r0&Hr0&Hp0).
    destruct (Hp r0 Hp0) as (Hid0&Hst&Hup&Han).
    destruct (Hrows r0 Hr0) as (H1&H2&H3&H4&H5&H6). rewrite Hid0 in *.
    split; cbn [rows set_rows note_reopened applied decided reopened];
      rewrite ?(update_ids _ (set_reopened new_why now expires)) by done; [done|done| | |done].
    + apply (update_rows id p (set_reopened new_why now expires) (λ r H, proj1 (Hp r H)) (row_ok w hs af));
        [done| |].
      * intros r Hr Hid _. assert (r = r0) as -> by (apply (same_row (rows w)); [done..|congruence]).
        rewrite Hp0. unfold row_ok.
        cbn [pr_id set_reopened applied decided reopened set_rows note_reopened answered_at updated_at].
        rewrite Hid0, times_id_snoc_same. specialize (H6 Hup). split_and!; try lia.
        -- intros H. destruct (H1 H) as [_ Hd]. by apply Hd in Hst.
        -- intros H. by destruct (H2 H) as (_&_&?).
        -- done.
      * intros r Hne (G1&G2&G3&G4&G5&G6). unfold row_ok.
        cbn [applied decided reopened set_rows note_reopened]. by rewrite times_id_snoc_other by done.
    + intros x Hx. rewrite !elem_of_app, list_elem_of_singleton in Hx.
      assert (id ∈ ids (rows w)) by (rewrite <- Hid0; unfold ids; by apply list_elem_of_fmap_2).
      destruct Hx as [?|[?|[?|[?|[?|Hx]]]]]; [apply Hknown; rewrite !elem_of_app; auto 6..|by rewrite Hx].
  - pose proof (update_lost id p (set_reopened new_why now expires) (λ r H, proj1 (Hp r H)) (λ _, eq_refl)
      (rows w) Hids) as H. rewrite Hu in H. by apply H.
Qed.

(** A new row. *)
Lemma inv_insert w hs af r t :
  pr_state r = Pending → answered_at r = None → updated_at r = None →
  Inv w hs af → insert (rows w) r = Ok t → Inv (set_rows t w) hs af.
Proof.
  intros Hst Han Hup [Hids Hhs Hrows Hknown Happ] Hins. unfold insert in Hins.
  destruct (existsb (has_id (pr_id r)) (rows w)) eqn:Hex; [done|]. injection Hins as <-.
  rewrite existsb_false in Hex.
  assert (pr_id r ∉ ids (rows w)) as Hfresh.
  { unfold ids. intros (r'&Heq&Hr')%list_elem_of_fmap. apply Hex in Hr'.
    by rewrite (proj2 (has_id_true _ _)) in Hr' by done. }
  assert (∀ l : list string, (∀ x, x ∈ l → x ∈ hs ++ af ++ applied w ++ decided w ++ reopened w) →
    pr_id r ∉ l) as Hnot by (intros l Hl H; by destruct Hfresh; apply Hknown, Hl).
  split; cbn [rows set_rows applied decided reopened]; unfold ids; rewrite ?fmap_app;
    [|done| | |done].
  - apply NoDup_app. split; [done|]. split; [|apply NoDup_singleton].
    intros x Hx ->%list_elem_of_singleton. done.
  - intros r' [Hr'|Hr']%elem_of_app; [by apply Hrows|]. apply list_elem_of_singleton in Hr' as ->.
    unfold row_ok. cbn [applied decided reopened set_rows].
    rewrite (times_zero _ (decided w)), (times_zero _ (reopened w))
      by (apply Hnot; intros x Hx; rewrite !elem_of_app; auto 6).
    split_and!; try done; try lia.
    + intros H. by apply (Hnot hs) in H; [|intros x Hx; rewrite !elem_of_app; auto].
    + intros [H|H]; [apply (Hnot (applied w)) in H|apply (Hnot af) in H]; try done;
        intros x Hx; rewrite !elem_of_app; auto 6.
  - intros x Hx. apply elem_of_app. left. by apply Hknown.
Qed.

(** *** Every step of every handler keeps the invariant *)

(** The world's invariant for the handlers in flight. *)
Definition all_ok (w : World) (ts : list Task) : Prop :=
  Inv w (omap holds ts) (omap applying ts) ∧ ∀ t, t ∈ ts → task_ok (applied w) t.

Lemma omap_mid {B} (f : Task → option B) ts1 t ts2 :
  omap f (ts1 ++ t :: ts2) ≡ₚ option_list (f t) ++ omap f (ts1 ++ ts2).
Proof.
  rewrite !omap_app. cbn [omap list_omap]. destruct (f t); cbn; [|done].
  by rewrite Permutation_middle.
Qed.

Lemma inv_perm w hs af hs' af' : hs ≡ₚ hs' → af ≡ₚ af' → Inv w hs af → Inv w hs' af'.
Proof.
  intros Hh Ha HInv. apply (inv_weaken w hs af); [done|by rewrite <- Hh; apply (i_hs _ _ _ HInv)| |];
    intros x Hx; [by rewrite Hh|by rewrite Ha].
Qed.

(** A step of [t] into [t'] in world [w], with the others' ids [hs] and [af]. *)
Definition step_ok (w w' : World) (t' : Task) (hs af : list string) : Prop :=
  Inv w' (option_list (holds t') ++ hs) (option_list (applying t') ++ af)
  ∧ task_ok (applied w') t'
  ∧ ∀ x, x ∈ applied w' → x ∈ applied w ∨ x ∉ hs ∧ x ∉ af.

Lemma step_ok_same w w' t' hs af :
  applied w' = applied w →
  Inv w' (option_list (holds t') ++ hs) (option_list (applying t') ++ af) →
  task_ok (applied w) t' → step_ok w w' t' hs af.
Proof. intros Ha HI Ht. unfold step_ok. rewrite Ha. auto. Qed.

Ltac same := apply step_ok_same; [done|done|cbn [task_ok]; tauto].

Lemma answer_step_ok e id d pc w w' pc' hs af :
  answer_step e id d pc w = (w', pc') →
  Inv w (option_list (holds (T_answer id d pc)) ++ hs) (option_list (applying (T_answer id d pc)) ++ af) →
  (∀ x, x ∈ af → x ∈ hs) → task_ok (applied w) (T_answer id d pc) →
  step_ok w w' (T_answer id d pc') hs af.
Proof.
  intros Hstep HI Hsub Ht.
  destruct pc as [|prior|prior|prior|dec|prior|]; cbn [answer_step] in Hstep;
    cbn [holds applying option_list app task_ok] in HI, Ht.
  - destruct (get (rows w) id); simplify_eq; same.
  - destruct (bool_decide (d = Deny)).
    + destruct (cas_open_to (rows w) id Denied) as [t [|]] eqn:Hc; simplify_eq; [|same].
      destruct (inv_cas w hs af id Denied t eq_refl HI Hc) as (?&?&Hna&Hw&_).
      same.
    + destruct (negb (env_gate e)); [simplify_eq; same|].
      destruct (cas_open_to (rows w) id Applying) as [t [|]] eqn:Hc; simplify_eq; [|same].
      destruct (inv_cas w hs af id Applying t eq_refl HI Hc) as (?&?&Hna&_&Hw).
      apply step_ok_same; [done|by apply Hw|done].
  - assert (Inv w (id :: hs) af) as HIr.
    { apply (inv_weaken _ _ _ _ _ HI); [apply (i_hs _ _ _ HI)|done|].
      intros x. apply list_elem_of_further. }
    destruct (negb (env_registered e) || negb (env_text_same e)); [simplify_eq; same|].
    destruct (env_check e); try (simplify_eq; same).
    destruct (bool_decide (d = Close)); simplify_eq; same.
  - assert (Inv w (id :: hs) af) as HIr.
    { apply (inv_weaken _ _ _ _ _ HI); [apply (i_hs _ _ _ HI)|done|].
      intros x. apply list_elem_of_further. }
    destruct (env_applied e) as [message|code message].
    + simplify_eq. pose proof (i_hs _ _ _ HI) as Hnd. apply NoDup_cons in Hnd as [Hnh _].
      split; [by apply inv_apply|]. split; [done|].
      cbn [applied note_applied]. intros x [?| ->%list_elem_of_singleton]%elem_of_app; [by left|].
      right. split; [done|]. intros H. by apply Hnh, Hsub.
    + destruct (retryable code); simplify_eq; same.
  - simplify_eq. pose proof (i_hs _ _ _ HI) as Hnd. apply NoDup_cons in Hnd as [Hnh _].
    apply step_ok_same; [done| |done]. apply inv_record; [done|done| |done].
    intros H. by apply Hnh, Hsub.
  - simplify_eq. pose proof (i_hs _ _ _ HI) as Hnd. apply NoDup_cons in Hnd as [Hnh _].
    apply step_ok_same; [done| |done]. apply inv_revert; [done|done| |done].
    intros H. by apply Hnh, Hsub.
  - simplify_eq. same.
Qed.

Lemma final_decided dec r : d_state dec = Failed → final (set_decided dec r).
Proof. intros H. unfold final. cbn. by rewrite H. Qed.

(** Placing a card, flipping an open request, and the unguarded writes of a
    failed placement win nothing. *)
Lemma inv_set_card w hs af id conv card b x :
  Inv w hs af → Inv (set_rows (set_card (rows w) id conv card b x) w) hs af.
Proof.
  apply (inv_quiet w hs af id (has_id id) (set_placed conv card b x));
    [intros r; apply has_id_true|done|]. intros r _. unfold dormant, final, is_answerable. cbn. auto.
Qed.

Lemma inv_guarded w hs af id to :
  Inv w hs af → Inv (set_rows (fst (update_where (cas_guard id) (set_state to) (rows w))) w) hs af.
Proof.
  apply (inv_quiet w hs af id (cas_guard id) (set_state to) (cas_guard_id id) (λ _, eq_refl)).
  intros r Hr. apply cas_guard_answerable in Hr. split_and!; [..|by cbn|by cbn].
  - intros H. by apply answerable_not_dormant in H.
  - intros H. by apply answerable_not_final in H.
Qed.

Lemma inv_decide_failed w hs af id dec :
  d_state dec = Failed → Inv w hs af → Inv (set_rows (decide (rows w) id dec) w) hs af.
Proof.
  intros Hd. apply (inv_quiet w hs af id (has_id id) (set_decided dec));
    [intros r; apply has_id_true|done|].
  intros r _. split_and!; [|intros _; by apply final_decided|done|done].
  intros _. unfold dormant, is_answerable. cbn. rewrite Hd. done.
Qed.

Lemma task_step_ok e placed t w w' t' hs af :
  task_step e placed t w = (w', t') →
  Inv w (option_list (holds t) ++ hs) (option_list (applying t) ++ af) →
  (∀ x, x ∈ af → x ∈ hs) → task_ok (applied w) t →
  step_ok w w' t' hs af.
Proof.
  intros Hstep HI Hsub Ht. destruct t as [id d pc|id to won running|r pc|id nw x running|id to running];
    cbn [task_step] in Hstep.
  - destruct (answer_step e id d pc w) as [w1 pc1] eqn:Ha. simplify_eq. by eapply answer_step_ok.
  - cbn [task_ok] in Ht. destruct Ht as [Hto Hwon]. destruct won.
    + simplify_eq. cbn [holds applying option_list app] in HI.
      pose proof (i_hs _ _ _ HI) as Hnd. apply NoDup_cons in Hnd as [Hnh _].
      apply step_ok_same; [done| |done]. apply inv_record; [done|done|by intros H; apply Hnh, Hsub|].
      intros H. by destruct Hwon.
    + destruct running; [|simplify_eq; same].
      destruct (cas_open_to (rows w) id to) as [tb n] eqn:Hc. simplify_eq.
      cbn [holds applying option_list app] in HI. destruct n.
      * assert (RequestState_is_open to = false) as Hcl by (destruct to; set_solver).
        destruct (inv_cas w hs af id to tb Hcl HI Hc) as (_&_&Hna&Hw&_).
        same.
      * apply (cas_lost w hs af) in Hc as ->; [|done]. apply step_ok_same; [done|by destruct w|done].
  - cbn [holds applying option_list app] in HI.
    destruct (request_step e r pc placed w) as [w1 pc1] eqn:Hr. simplify_eq.
    destruct pc as [|[|[|[|]]]]; cbn [request_step] in Hr; try (simplify_eq; same).
    + cbn [task_ok] in Ht. destruct Ht as (H1&H2&H3).
      destruct (insert (rows w) r) as [t|] eqn:Hi; simplify_eq; [|same].
      apply step_ok_same; [done|by apply (inv_insert w hs af r t)|done].
    + destruct placed as [p|]; simplify_eq;
        (apply step_ok_same; [done| |done]); [by apply inv_set_card|].
      unfold cas_open_to. change (λ r0, has_id (pr_id r) r0 && is_answerable r0) with (cas_guard (pr_id r)).
      pose proof (inv_guarded w hs af (pr_id r) Failed HI) as Hq.
      by destruct (update_where (cas_guard (pr_id r)) (set_state Failed) (rows w)).
    + simplify_eq. apply step_ok_same; [done|by apply inv_decide_failed|done].
  - cbn [holds applying option_list app] in HI. destruct running.
    + destruct (reopen_denied _ _ _ _ _ _) as [tb won] eqn:Hr.
      apply (inv_reopen w hs af) in Hr; [|done]. destruct won; simplify_eq.
      * same.
      * apply step_ok_same; [done|by destruct w|done].
    + destruct placed as [p|]; simplify_eq; (apply step_ok_same; [done| |done]);
        [by apply inv_set_card|done].
  - cbn [holds applying option_list app] in HI. destruct running; simplify_eq;
      (apply step_ok_same; [done| |done]); [|done].
    unfold set_open_state. change (λ r, has_id id r && is_answerable r) with (cas_guard id).
    pose proof (inv_guarded w hs af id to HI) as Hq.
    by destruct (update_where (cas_guard id) (set_state to) (rows w)).
Qed.

(** What an applied id leaves of the other handlers' duties. *)
Lemma task_ok_other app app' t :
  task_ok app t → (∀ x, x ∈ app' → x ∈ app ∨ Some x ≠ holds t) → task_ok app' t.
Proof.
  intros Ht Happ. destruct t as [id d [|prior|prior|prior|dec|prior|]|id to won running|r [|pc]|id nw x running|id to running];
    cbn [task_ok holds] in *; try done.
  - intros H. by destruct (Happ id H).
  - intros H. by destruct (Happ id H).
  - intros H. destruct (Happ id H) as [?|?]; [auto|done].
  - intros H. by destruct (Happ id H).
  - destruct Ht as [Hto Hw]. split; [done|]. intros -> H. destruct (Happ id H); [by apply Hw|done].
Qed.

Lemma applying_holds t x : applying t = Some x → holds t = Some x.
Proof. by destruct t as [id d []| | | |]. Qed.

Lemma step_all_ok w ts w' ts' : step (w, ts) (w', ts') → all_ok w ts → all_ok w' ts'.
Proof.
  intros Hstep [HI Htasks].
  assert (∀ (l : list Task) x, x ∈ omap applying l → x ∈ omap holds l) as Hsub.
  { intros l x. rewrite !list_elem_of_omap. intros (t&?&?%applying_holds). eauto. }
  inversion Hstep as [w0 ts0 t Hfresh|w0 ts1 t ts2 e placed w1 t' Hts|w0 ts1 t ts2]; subst.
  - split.
    + assert (holds t = None ∧ applying t = None) as [Hh Ha] by (by destruct Hfresh).
      cbn [omap list_omap]. by rewrite Hh, Ha.
    + intros t0 [-> |Ht0]%elem_of_cons; [|by apply Htasks]. by destruct Hfresh.
  - assert (task_ok (applied w) t) as Ht by (apply Htasks; set_solver).
    apply (inv_perm _ _ _ _ _ (omap_mid holds ts1 t ts2) (omap_mid applying ts1 t ts2)) in HI.
    pose proof (i_hs _ _ _ HI) as Hnd. apply NoDup_app in Hnd as (_&Hdisj&_).
    destruct (task_step_ok _ _ _ _ _ _ _ _ Hts HI (Hsub _) Ht) as (HI'&Ht'&Happ). split.
    + eapply inv_perm; [symmetry; apply omap_mid..|done].
    + intros t0 Ht0. assert (t0 = t' ∨ t0 ∈ ts1 ++ ts2) as [-> |Hin] by set_solver; [done|].
      apply (task_ok_other (applied w)); [apply Htasks; set_solver|].
      intros x [?|[Hnh _]]%Happ; [by left|]. right. intros Hx. apply Hnh.
      apply list_elem_of_omap. eauto.
  - apply (inv_perm _ _ _ _ _ (omap_mid holds ts1 t ts2) (omap_mid applying ts1 t ts2)) in HI.
    split; [|intros t0 Ht0; apply Htasks; set_solver].
    pose proof (i_hs _ _ _ HI) as Hnd. apply NoDup_app in Hnd as (_&_&Hnd).
    apply (inv_weaken _ _ _ _ _ HI); [done|..]; intros x Hx; apply elem_of_app; by right.
Qed.

Lemma reachable_ok w ts : reachable (w, ts) → all_ok w ts.
Proof.
  intros Hr. apply (rtc_ind_r (λ s, all_ok s.1 s.2) (empty_world, [])) in Hr; [done|..].
  - split; [|intros t Ht; by apply elem_of_nil in Ht].
    split; cbn; [apply NoDup_nil_2|apply NoDup_nil_2| | |apply NoDup_nil_2];
      intros x Hx; by apply elem_of_nil in Hx.
  - intros [w1 ts1] [w2 ts2] _ Hstep IH. by eapply step_all_ok.
Qed.

Lemma cas_won_row t id to tb :
  cas_open_to t id to = (tb, true) → ∃ r, r ∈ t ∧ pr_id r = id ∧ is_answerable r = true.
Proof.
  unfold cas_open_to. change (λ r, has_id id r && is_answerable r) with (cas_guard id).
  destruct (update_where (cas_guard id) (set_state to) t) as [t' n] eqn:Hu. intros [= <- Hn].
  destruct (update_won (cas_guard id) (set_state to) t) as (r&Hr&Hp); [by rewrite Hu|].
  exists r. split; [done|]. split; [by apply cas_guard_id|by apply (cas_guard_answerable id)].
Qed.
Lemma reopen_won_row t id nw now since x tb :
  reopen_denied t id nw now since x = (tb, true) →
  ∃ r, r ∈ t ∧ pr_id r = id ∧ pr_state r = Denied ∧ answered_at r ≠ None.
Proof.
  unfold reopen_denied. destruct (update_where _ _ t) as [t' n] eqn:Hu. intros [= <- Hn].
  match type of Hu with update_where ?p ?f _ = _ =>
    destruct (update_won p f t) as (r&Hr&Hp); [by rewrite Hu|] end.
  exists r. split; [done|]. rewrite !andb_true_iff in Hp. destruct Hp as [[[H1 H2] _] H4].
  apply bool_decide_eq_true in H2. split; [by apply has_id_true|]. split; [done|].
  by destruct (answered_at r).
Qed.

(** ** Properties *)

(** (C6) Single use: however the answers, closings, placements, updates and
    re-checks interleave, and wherever any of them stops, the action of a
    request is applied at most once, ever. *)
Theorem applied_at_most_once w ts : reachable (w, ts) → NoDup (applied w).
Proof. intros H. apply reachable_ok in H as [HI _]. apply (i_applied _ _ _ HI). Qed.

(** Decided once: a request is decided at most twice, the second time only
    after the agent's one update opened it again; and while a handler that
    won it is still to record its decision, nobody can win it or update it. *)
Theorem decided_once_per_opening w ts id :
  reachable (w, ts) →
  (times id (reopened w) ≤ 1)%nat ∧ (times id (decided w) ≤ S (times id (reopened w)))%nat
  ∧ ∀ t, t ∈ ts → holds t = Some id →
      (∀ to tb, cas_open_to (rows w) id to = (tb, true) → False)
      ∧ (∀ nw now since x tb, reopen_denied (rows w) id nw now since x = (tb, true) → False).
Proof.
  intros [HI _]%reachable_ok.
  assert (id ∉ ids (rows w) ∨ ∃ r, r ∈ rows w ∧ pr_id r = id) as Hrow.
  { destruct (base.decide (id ∈ ids (rows w))) as [Hin|]; [right|by left].
    unfold ids in Hin. apply list_elem_of_fmap in Hin as (r&->&Hr). eauto. }
  assert (∀ t, t ∈ ts → holds t = Some id → id ∈ omap holds ts) as Hheld
    by (intros t Ht Hh; apply list_elem_of_omap; eauto).
  destruct Hrow as [Hno|(r&Hr&Hid)].
  - assert (∀ l : list string,
      (∀ x, x ∈ l → x ∈ omap holds ts ++ omap applying ts ++ applied w ++ decided w ++ reopened w) → id ∉ l)
      as Hnot by (intros l Hl H; destruct Hno; by apply (i_known _ _ _ HI), Hl).
    rewrite !times_zero by (apply Hnot; intros x Hx; rewrite !elem_of_app; auto 6).
    split; [lia|]. split; [lia|]. intros t Ht Hh. exfalso.
    apply (Hnot (omap holds ts)); [intros x Hx; rewrite !elem_of_app; auto|eauto].
  - destruct (i_rows _ _ _ HI r Hr) as (H1&_&_&H4&H5&_). rewrite Hid in *.
    split; [done|]. split; [done|]. intros t Ht Hh. pose proof (H1 (Hheld t Ht Hh)) as [Hna Hnd].
    split.
    + intros to tb (r0&Hr0&Hid0&Ha)%cas_won_row.
      rewrite (same_row (rows w) r0 r (i_ids _ _ _ HI)) in Ha by congruence. congruence.
    + intros nw now since x tb (r0&Hr0&Hid0&Hst&Han)%reopen_won_row.
      rewrite (same_row (rows w) r0 r (i_ids _ _ _ HI)) in Hst, Han by congruence. auto.
Qed.

Section answer_properties.
Variable login_is_owner_person : string → bool.
Variable find_batchable : string → option bool.
Variables held_offers_always refresh_offers_always : PermissionRequest → bool.
Notation targets :=
  (answer_targets login_is_owner_person find_batchable held_offers_always refresh_offers_always).

Lemma first_below_none reqs who :
  first_below login_is_owner_person reqs who = None →
  ∀ r, r ∈ reqs → meets_floor login_is_owner_person (floor_of (pr_floor r)) who = true.
Proof.
  induction reqs as [|x reqs IH]; cbn [first_below]; [by intros _ r H%elem_of_nil|].
  destruct (meets_floor _ (floor_of (pr_floor x)) who) eqn:Hm; [|done].
  intros H r [-> |Hr]%elem_of_cons; [done|by apply IH].
Qed.

(** No one decides below a card's floor: every request an answer decides is
    on the card, and the person meets that request's own floor; "Allow all"
    decides only waiting requests that need no confirm of their own; and the
    "from now on" labels decide only a single card that offers them. *)
Theorem answers_meet_floor t params conv card batch who l r d :
  targets t params conv card batch who = Ok l → (r, d) ∈ l →
  r ∈ for_card t conv card
  ∧ meets_floor login_is_owner_person (floor_of (pr_floor r)) who = true
  ∧ (1 < length l → is_answerable r = true
      ∧ (d = Allow → needs_confirm find_batchable r = false) ∧ (d = Allow ∨ d = Deny))%nat
  ∧ (d = Always → batch = false ∧ (held_offers_always r = true ∨ refresh_offers_always r = true)).
Proof.
  unfold answer_targets. destruct (field2 params "answer" "option") as [a|]; [|done].
  set (reqs := for_card t conv card). destruct (bool_decide (reqs = [])) eqn:Hne; [done|].
  destruct (opt_is_some_and bad_reason (field params "reason")); [done|].
  destruct (batch && is_none (field params "item")
    && (is_text a label_ALLOW_ALL || is_text a label_DENY_ALL)).
  - unfold all_targets. destruct (first_below _ _ who) eqn:Hfb; [done|].
    set (tg := if is_text a label_ALLOW_ALL then _ else _).
    destruct (bool_decide (tg = [])); [done|]. intros [= <-] Hin.
    assert (r ∈ List.filter is_answerable reqs ∧ (d = Allow ∧ needs_confirm find_batchable r = false ∨ d = Deny))
      as [Hr Hd].
    { unfold tg in Hin. destruct (is_text a label_ALLOW_ALL);
        apply list_elem_of_fmap in Hin as (x&[= -> ->]&Hx); [|auto].
      apply elem_of_filter_bool in Hx as [Hx Hc]. apply negb_true_iff in Hc. auto. }
    pose proof (first_below_none _ _ Hfb r Hr) as Hm. apply elem_of_filter_bool in Hr as [Hr Ha].
    split; [done|]. split; [done|]. split; [naive_solver|]. intros ->. naive_solver.
  - unfold one_target. destruct (decision_of a) as [d0|]; [|done].
    destruct reqs as [|first rest_]; [done|].
    destruct (bool_decide (d0 = Always) && _) eqn:Halw; [done|].
    set (tgt := if batch then _ else _).
    destruct tgt as [target|] eqn:Htgt; [|done]. cbn [result_bind].
    destruct (meets_floor _ _ who) eqn:Hm; [|done]. intros [= <-] Hin.
    apply list_elem_of_singleton in Hin as [= -> ->].
    assert (target ∈ first :: rest_ ∧ (batch = false → target = first)) as [Hin Hfirst].
    { unfold tgt in Htgt. destruct batch.
      - destruct (field params "item") as [id|]; [|done].
        destruct (List.find _ (first :: rest_)) as [x|] eqn:Hf; [|done]. simplify_eq.
        apply list_find_Some_elem in Hf as [Hf _]. done.
      - simplify_eq. split; [apply list_elem_of_here|done]. }
    split; [done|]. split; [done|]. split; [cbn; lia|].
    intros ->. rewrite bool_decide_eq_true_2 in Halw by done. cbn in Halw.
    apply orb_false_iff in Halw as [-> Hoff]. apply negb_false_iff in Hoff.
    rewrite Hfirst by done. destruct (is_text a label_ALWAYS_CHAT_REFRESH); auto.
Qed.
End answer_properties.

(** *** Limits *)

Lemma count_rows_app p t r : count_rows p (t ++ [r]) = count_rows p t + if p r then 1 else 0.
Proof.
  unfold count_rows. rewrite List.filter_app, length_app. cbn. destruct (p r); cbn; lia.
Qed.

Lemma newest_by_none key l : newest_by key l = None ↔ l = [].
Proof.
  unfold newest_by. split; [|by intros ->].
  intros H. destruct l as [|x l]; [done|].
  destruct (min_by_is_Some (λ a b, key b <=? key a)) with (l := x :: l) as [y Hy]; [..|congruence].
  - intros a b. rewrite !Z.leb_le. lia.
  - intros a b c. rewrite !Z.leb_le. lia.
  - done.
Qed.

(** A new pending row of this workspace and values, asked now. *)
Definition asks (r : PermissionRequest) (ws action hash : string) (now : Z) : Prop :=
  same_ask ws action hash r = true ∧ pr_state r = Pending ∧ answered_at r = None
  ∧ created_at r = now.

(** An ask is let through exactly when nothing blocks it, and the table that
    then holds it is within every cap: 5 waiting for the workspace, 50 on the
    server, 20 asks in the hour, 2 for the same values in 7 days; and no
    denial of the same values in the last 24 hours. *)
Theorem check_ask_spec t ws action hash now r :
  asks r ws action hash now →
  check_ask t ws action hash now = Ok () ↔
    (∀ x, x ∈ t → same_ask ws action hash x = true → pr_state x = Denied →
      ∀ a, answered_at x = Some a → a ≤ now - DENIAL_BLOCK_SECS)
    ∧ count_same_asks_since (t ++ [r]) ws action hash (now - ASK_LIMIT_WINDOW_SECS) ≤ 2
    ∧ count_open_for_workspace (t ++ [r]) ws ≤ 5
    ∧ count_asks_since (t ++ [r]) ws (now - 3600) ≤ 20
    ∧ count_open_on_server (t ++ [r]) ≤ 50.
Proof.
  intros (Hsame&Hst&Han&Hcr).
  assert ((workspace_id r =? ws)%string = true) as Hws
    by (unfold same_ask in Hsame; rewrite !andb_true_iff in Hsame; tauto).
  assert (is_waiting r = true) as Hw by (unfold is_waiting; rewrite Hst, Han; done).
  unfold count_same_asks_since, count_open_for_workspace, count_asks_since, count_open_on_server.
  rewrite !count_rows_app, Hsame, Hws, Hw, Hcr.
  assert (now - ASK_LIMIT_WINDOW_SECS <? now = true) as -> by (apply Z.ltb_lt; unfold ASK_LIMIT_WINDOW_SECS; lia).
  assert (now - 3600 <? now = true) as -> by (apply Z.ltb_lt; lia). cbn [andb].
  unfold check_ask.
  assert (last_denial_since t ws action hash (now - DENIAL_BLOCK_SECS) = None ↔
    ∀ x, x ∈ t → same_ask ws action hash x = true → pr_state x = Denied →
      ∀ a, answered_at x = Some a → a ≤ now - DENIAL_BLOCK_SECS) as <-.
  { unfold last_denial_since. rewrite newest_by_none. split.
    - intros Hnil x Hx Hs Hd a Ha. apply Z.nlt_ge. intros Hlt.
      apply (not_elem_of_nil x). rewrite <- Hnil. apply elem_of_filter_bool. split; [done|].
      rewrite Hs, Hd, Ha, bool_decide_eq_true_2 by done. cbn. by apply Z.ltb_lt.
    - intros H. destruct (List.filter _ t) as [|x l] eqn:E; [done|]. exfalso.
      assert (x ∈ List.filter (λ r0, same_ask ws action hash r0 && bool_decide (pr_state r0 = Denied)
        && later_than (answered_at r0) (now - DENIAL_BLOCK_SECS)) t) as Hx by (rewrite E; apply list_elem_of_here).
      apply elem_of_filter_bool in Hx as [Hx Hp]. rewrite !andb_true_iff in Hp.
      destruct Hp as [[Hs Hd] Hl]. apply bool_decide_eq_true in Hd.
      unfold later_than in Hl. destruct (answered_at x) as [a|] eqn:Ha; [|done].
      apply Z.ltb_lt in Hl. specialize (H x Hx Hs Hd a Ha). lia. }
  unfold count_same_asks_since, count_open_for_workspace, count_asks_since, count_open_on_server,
    ASKS_PER_WINDOW, PENDING_PER_WORKSPACE, ASKS_PER_WORKSPACE_PER_HOUR, PENDING_PER_SERVER.
  destruct (last_denial_since t ws action hash (now - DENIAL_BLOCK_SECS)) as [x|];
    [split; [done|by intros [? _]]|].
  repeat match goal with |- context [if ?a <=? ?b then _ else _] => destruct (Z.leb_spec a b) end;
    (split; [intros H'; (discriminate H' || (split; [done|lia]))|intros (_&?&?&?&?); (done || lia)]).
Qed.

(** ** Runs, executed *)

Inductive Move :=
| Spawn (t : Task)
| Run (i : nat) (e : Env) (placed : option Placement).

Definition move (s : World * list Task) (m : Move) : World * list Task :=
  match m with
  | Spawn t => (s.1, t :: s.2)
  | Run i e placed =>
    match s.2 !! i with
    | Some t => let '(w, t') := task_step e placed t s.1 in (w, <[i := t']> s.2)
    | None => s
    end
  end.
Definition run : list Move → World * list Task := foldl move (empty_world, []).
Definition spawns_fresh (m : Move) : Prop := if m is Spawn t then fresh_task t else True.

Lemma move_step s m : spawns_fresh m → rtc step s (move s m).
Proof.
  destruct s as [w ts], m as [t|i e placed]; cbn [move spawns_fresh fst snd].
  - intros H. apply rtc_once. by constructor.
  - intros _. destruct (ts !! i) as [t|] eqn:Hi; [|done].
    destruct (task_step e placed t w) as [w' t'] eqn:Ht. apply rtc_once.
    apply list_elem_of_split_length in Hi as (l1&l2&->&Hl).
    rewrite Hl, <- (Nat.add_0_r (length l1)), insert_app_r. cbn. by econstructor.
Qed.

Lemma run_reachable ms : Forall spawns_fresh ms → reachable (run ms).
Proof.
  unfold run, reachable. induction ms as [|m ms IH] using rev_ind; [done|].
  rewrite Forall_app, foldl_app. intros [Hms Hm]. apply Forall_inv in Hm.
  etrans; [by apply IH|by apply move_step].
Qed.

(** A request, and two people answering it while the daemon closes it. *)
Definition ask_of (id : string) (floor : string) (at_ : Z) : PermissionRequest :=
  mkRequest id "ws" None None None None "apps.approve" "{}" "h" "t" "why" Pending floor None None 1
    None at_ (at_ + 600) None None None None None None None.
Definition env_at (now : Z) : Env :=
  mkEnv now (Some "bob") (Some "card") None true true true Check_Needed (Applied_Done "Allowed.") "msg".
Definition on_card (id : string) : Placement := mkPlacement id "conv" "card" (Some "card") 1600.
Definition race : list Move :=
  [ Spawn (T_request (ask_of "pr_aaaaaa" "admin" 1000) 0);
    Run 0 (env_at 1000) None; Run 0 (env_at 1001) (Some (on_card "pr_aaaaaa"));
    Spawn (T_answer "pr_aaaaaa" Allow A_start); Spawn (T_answer "pr_aaaaaa" Allow A_start);
    Spawn (T_close "pr_aaaaaa" Closed false true);
    Run 1 (env_at 1002) None; Run 2 (env_at 1002) None; Run 2 (env_at 1003) None;
    Run 1 (env_at 1003) None; Run 0 (env_at 1003) None;
    Run 2 (env_at 1004) None; Run 2 (env_at 1005) None ].

Lemma race_fresh : Forall spawns_fresh race.
Proof.
  unfold race. repeat constructor.
Qed.

Lemma applied_at_most_once_witness :
  let s := run race in
  reachable s ∧ applied s.1 = ["pr_aaaaaa"] ∧ NoDup (applied s.1).
Proof.
  split; [exact (run_reachable race race_fresh)|]. split; [vm_compute; reflexivity|].
  exact (applied_at_most_once (run race).1 (run race).2
    (eq_ind (run race) reachable (run_reachable race race_fresh) _ (surjective_pairing (run race)))).
Defined.

(** The winner has applied and is to record its decision. *)
Lemma decided_once_per_opening_witness :
  let s := run race in
  reachable s ∧ holds (T_answer "pr_aaaaaa" Allow
    (A_record (decided_as (env_at 1005) Approved "Allowed." None))) = Some "pr_aaaaaa"
  ∧ s.2 !! 2%nat = Some (T_answer "pr_aaaaaa" Allow
      (A_record (decided_as (env_at 1005) Approved "Allowed." None)))
  ∧ times "pr_aaaaaa" (decided s.1) = 0%nat ∧ (times "pr_aaaaaa" (decided s.1) ≤ 1)%nat.
Proof.
  split; [exact (run_reachable race race_fresh)|]. split; [reflexivity|].
  split; [vm_compute; reflexivity|]. split; [vm_compute; reflexivity|].
  exact (proj1 (proj2 (decided_once_per_opening (run race).1 (run race).2 "pr_aaaaaa"
    (eq_ind (run race) reachable (run_reachable race race_fresh) _ (surjective_pairing (run race)))))).
Defined.

Definition placed_at (r : PermissionRequest) : PermissionRequest :=
  set_placed "conv" "card" (Some "card") 1600 r.
Definition two_asks : Table :=
  [placed_at (ask_of "pr_aaaaaa" "admin" 1000); placed_at (ask_of "pr_bbbbbb" "owner" 1001)].

Lemma answers_meet_floor_witness :
  let r1 := placed_at (ask_of "pr_aaaaaa" "admin" 1000) in
  let r2 := placed_at (ask_of "pr_bbbbbb" "owner" 1001) in
  let who := Login "ada" "owner" in
  let params : gmap string string := {["answer" := "Allow all"]} in
  let targets := answer_targets (λ _, false) (λ _, Some true) (λ _, false) (λ _, false) two_asks params
    "conv" "card" true who in
  targets = Ok [(r1, Allow); (r2, Allow)] ∧ meets_floor (λ _, false) (floor_of (pr_floor r2)) who = true.
Proof.
  intros r1 r2 who params targets.
  assert (targets = Ok [(r1, Allow); (r2, Allow)]) as Ht by (vm_compute; reflexivity).
  split; [exact Ht|].
  exact (proj1 (proj2 (answers_meet_floor _ _ _ _ _ _ _ _ _ _ _ r2 Allow Ht
    (list_elem_of_further _ _ _ (list_elem_of_here _ _))))).
Defined.

(** Two denials of these values: one two days old lets the second ask
    through, and a third ask in the week is refused. *)
Lemma check_ask_spec_witness :
  let old := set_decided (mkDecided Denied None None None None 1000) (ask_of "pr_aaaaaa" "owner" 1000) in
  let new := ask_of "pr_cccccc" "owner" 180000 in
  check_ask [old] "ws" "apps.approve" "h" 180000 = Ok ()
  ∧ check_ask [old; new] "ws" "apps.approve" "h" 180000 = Err (mkLimited 409 "ask_limit")
  ∧ count_open_for_workspace ([old] ++ [new]) "ws" ≤ 5.
Proof.
  intros old new.
  assert (asks new "ws" "apps.approve" "h" 180000) as Ha by (repeat split).
  assert (check_ask [old] "ws" "apps.approve" "h" 180000 = Ok ()) as Hok by (vm_compute; reflexivity).
  split; [exact Hok|]. split; [vm_compute; reflexivity|].
  exact (proj1 (proj2 (proj2 (proj1 (check_ask_spec [old] "ws" "apps.approve" "h" 180000 new Ha) Hok)))).
Defined.

(** A request that joins a batch card can be answered before its placing
    fails; the clean-up then records [Failed] over the approval although its
    compare-and-set was lost. *)
Definition late_failure : list Move :=
  [ Spawn (T_request (ask_of "pr_aaaaaa" "admin" 1000) 0);
    Run 0 (env_at 1000) None; Run 0 (env_at 1001) (Some (on_card "pr_aaaaaa"));
    Spawn (T_answer "pr_aaaaaa" Allow A_start);
    Run 0 (env_at 1002) None; Run 0 (env_at 1002) None; Run 0 (env_at 1002) None;
    Run 0 (env_at 1002) None; Run 0 (env_at 1002) None;
    Run 1 (env_at 1003) None; Run 1 (env_at 1003) None ].

Lemma failed_placement_overwrites :
  reachable (run late_failure) ∧ applied (run late_failure).1 = ["pr_aaaaaa"]
  ∧ pr_state <$> rows (run late_failure).1 = [Failed].
Proof.
  split; [|split; vm_compute; reflexivity].
  apply run_reachable. unfold late_failure. repeat constructor.
Qed.
