(* ===== verification/ClientHello.v ===== *)
(** * ClientHello: peeking at a TLS ClientHello

    [crates/k2-daemon/src/front443/client_hello.rs]: the front door reads the
    server name of a connection without decrypting anything, from everything
    received so far, however the handshake was split into TLS records and
    reads.  Bytes are [Z]s, a [String] is its UTF-8 bytes, a panic (an index
    out of range) or a loop out of fuel is [None]. *)

From S2P Require Import Prelude Utf8.
Open Scope Z_scope.

(** ** Constants *)

Definition MAX_HELLO_BYTES : Z := 16 * 1024.
Definition MAX_RECORD : Z := 16 * 1024.
Definition CONTENT_HANDSHAKE : Z := 0x16.
Definition HANDSHAKE_CLIENT_HELLO : Z := 0x01.
Definition EXT_SERVER_NAME : Z := 0x0000.
Definition EXT_ALPN : Z := 0x0010.

(** ** Results *)

Record Hello := mk_Hello {
  he_sni : option (list Z);
  he_alpn : list (list Z);
  he_consumed : Z;
  he_records : Z
}.

Inductive Peek :=
| Peek_NeedMore
| Peek_Done (h : Hello)
| Peek_NotTls
| Peek_Bad (why : string).

Definition Parsed : Type := option (list Z) * list (list Z).

(** ** The bounds-checked reader *)

Record Cur := mk_Cur { cu_b : list Z; cu_at : Z }.

Definition Cur_rest (c : Cur) : Z := zlen (cu_b c) - cu_at c.

Definition Cur_take (n : Z) (c : Cur) : Result (list Z * Cur) string :=
  if Cur_rest c <? n then Err "truncated ClientHello"
  else Ok (ztake n (zdrop (cu_at c) (cu_b c)), mk_Cur (cu_b c) (cu_at c + n)).

(** [take(1)?[0]] and the two bytes of [take(2)?]: a slice of [n] bytes has
    them. *)
Definition Cur_u8 (c : Cur) : Result (Z * Cur) string :=
  let? (s, c) := Cur_take 1 c in Ok (nth 0 s 0, c).
Definition Cur_u16 (c : Cur) : Result (Z * Cur) string :=
  let? (s, c) := Cur_take 2 c in Ok (of_be16 (nth 0 s 0) (nth 1 s 0), c).

(** [e?] inside a loop, which has fuel. *)
Definition try_ {T U} (r : Result T string) (k : T → option (Result U string))
    : option (Result U string) :=
  match r with Ok x => k x | Err e => Some (Err e) end.
Notation "'try?' x ':=' r 'in' k" := (try_ r (fun x => k))
  (at level 10, x pattern, r at level 100, k at level 200) : k2_scope.

(** ** Names *)

Definition to_ascii_lowercase (l : list Z) : list Z :=
  (λ b, if is_ascii_uppercase b then b + 32 else b) <$> l.

Definition label_ok (label : list Z) : bool :=
  negb (zlen label =? 0) && (zlen label <=? 63)
  && forallb (λ c, is_ascii_alphanumeric c || (c =? 45) || (c =? 95)) label.

Definition host_name (b : list Z) : option (list Z) :=
  if (zlen b =? 0) || (253 <? zlen b) then None
  else match utf8_check b with
       | Some _ => None
       | None => if forallb label_ok (split_on 46 b) then Some (to_ascii_lowercase b) else None
       end.

(** ** The body *)

Fixpoint server_names (fuel : nat) (c : Cur) (host : option (list Z))
    : option (Result (option (list Z)) string) :=
  match fuel with
  | O => None
  | S fuel =>
    if 0 <? Cur_rest c then
      try? (kind, c) := Cur_u8 c in
      try? (len, c) := Cur_u16 c in
      try? (name, c) := Cur_take len c in
      guard negb (kind =? 0) ret server_names fuel c host;
      guard (if host is Some _ then true else false) ret Some (Err "two host names");
      match host_name name with
      | Some h => server_names fuel c (Some h)
      | None => Some (Err "invalid server name")
      end
    else Some (Ok host)
  end.

Definition parse_server_name (data : list Z) : option (Result (option (list Z)) string) :=
  try? (list, c) := Cur_u16 (mk_Cur data 0) in
  guard negb (list =? Cur_rest c) || (list =? 0) ret Some (Err "server_name list length");
  server_names (S (length data)) c None.

Fixpoint alpn_names (fuel : nat) (c : Cur) (out : list (list Z))
    : option (Result (list (list Z)) string) :=
  match fuel with
  | O => None
  | S fuel =>
    if 0 <? Cur_rest c then
      try? (len, c) := Cur_u8 c in
      guard len =? 0 ret Some (Err "empty ALPN name");
      try? (p, c) := Cur_take len c in
      alpn_names fuel c (out ++ [utf8_lossy p])
    else Some (Ok out)
  end.

Definition parse_alpn (data : list Z) : option (Result (list (list Z)) string) :=
  try? (list, c) := Cur_u16 (mk_Cur data 0) in
  guard negb (list =? Cur_rest c) || (list =? 0) ret Some (Err "ALPN list length");
  alpn_names (S (length data)) c [].

Fixpoint extensions (fuel : nat) (c : Cur) (seen : list Z) (sni : option (list Z))
    (alpn : list (list Z)) : option (Result Parsed string) :=
  match fuel with
  | O => None
  | S fuel =>
    if 0 <? Cur_rest c then
      try? (ty, c) := Cur_u16 c in
      try? (len, c) := Cur_u16 c in
      try? (data, c) := Cur_take len c in
      guard mem_z ty seen ret Some (Err "repeated extension");
      let seen := ty :: seen in
      guard ty =? EXT_SERVER_NAME ret
        (r ← parse_server_name data; try? sni := r in extensions fuel c seen sni alpn);
      guard ty =? EXT_ALPN ret
        (r ← parse_alpn data; try? alpn := r in extensions fuel c seen sni alpn);
      extensions fuel c seen sni alpn
    else Some (Ok (sni, alpn))
  end.

Definition parse_body (body : list Z) : option (Result Parsed string) :=
  let c := mk_Cur body 0 in
  try? (legacy_version, c) := Cur_u16 c in
  guard negb ((0x0300 <=? legacy_version) && (legacy_version <=? 0x0304))
    ret Some (Err "ClientHello version");
  try? (_, c) := Cur_take 32 c in
  try? (sid, c) := Cur_u8 c in
  guard 32 <? sid ret Some (Err "session id longer than 32");
  try? (_, c) := Cur_take sid c in
  try? (suites, c) := Cur_u16 c in
  guard (suites <? 2) || negb (suites mod 2 =? 0) ret Some (Err "cipher suites");
  try? (_, c) := Cur_take suites c in
  try? (comp, c) := Cur_u8 c in
  guard comp <? 1 ret Some (Err "compression methods");
  try? (_, c) := Cur_take comp c in
  guard Cur_rest c =? 0 ret Some (Ok (None, []));
  try? (ext_len, c) := Cur_u16 c in
  guard negb (ext_len =? Cur_rest c) ret Some (Err "extensions length");
  extensions (S (length body)) c [] None [].

(** ** The records *)

Definition too_large : string := "ClientHello larger than the front reads".

Definition more_or_cap (need : Z) : Peek :=
  if MAX_HELLO_BYTES <? need then Peek_Bad too_large else Peek_NeedMore.

Fixpoint peek_loop (fuel : nat) (buf : list Z) (pos records : Z) (hs : list Z) : option Peek :=
  match fuel with
  | O => None
  | S fuel =>
    guard zlen buf <? pos + 5 ret Some (more_or_cap (pos + 5));
    h ← slice buf pos (pos + 5);
    match h with
    | [h0; h1; h2; h3; h4] =>
      guard negb (h0 =? CONTENT_HANDSHAKE)
        ret Some (Peek_Bad "a non-handshake record before the ClientHello completed");
      guard negb (h1 =? 0x03) || (0x04 <? h2) ret Some (Peek_Bad "record version");
      let len := of_be16 h3 h4 in
      guard len =? 0 ret Some (Peek_Bad "empty handshake record");
      guard MAX_RECORD <? len ret Some (Peek_Bad "record longer than 2^14");
      let end_ := pos + 5 + len in
      guard MAX_HELLO_BYTES <? end_ ret Some (Peek_Bad too_large);
      guard zlen buf <? end_ ret Some Peek_NeedMore;
      part ← slice buf (pos + 5) end_;
      let hs := hs ++ part in
      let pos := end_ in
      let records := records + 1 in
      match hs with
      | s0 :: s1 :: s2 :: s3 :: _ =>
        guard negb (s0 =? HANDSHAKE_CLIENT_HELLO)
          ret Some (Peek_Bad "first handshake message is not a ClientHello");
        let body_len := Z.lor (Z.lor (Z.shiftl s1 16) (Z.shiftl s2 8)) s3 in
        guard MAX_HELLO_BYTES <? 4 + body_len ret Some (Peek_Bad too_large);
        guard zlen hs <? 4 + body_len ret peek_loop fuel buf pos records hs;
        body ← slice hs 4 (4 + body_len);
        r ← parse_body body;
        Some (match r with
              | Ok (sni, alpn) => Peek_Done (mk_Hello sni alpn pos records)
              | Err why => Peek_Bad why
              end)
      | _ => peek_loop fuel buf pos records hs    (* fewer than 4 bytes *)
      end
    | _ => None
    end
  end.

Definition peek (buf : list Z) : option Peek :=
  match buf with
  | [] => Some Peek_NeedMore
  | b0 :: _ =>
    if negb (b0 =? CONTENT_HANDSHAKE) then Some Peek_NotTls
    else peek_loop (S (length buf)) buf 0 0 []
  end.

(** [synthetic]: the front's own probe, one record naming [sni]. *)
Definition synthetic (sni : list Z) : list Z :=
  let n := zlen sni in
  let ext := [0x00; 0x00] ++ be16 (n + 5) ++ be16 (n + 3) ++ [0] ++ be16 n ++ sni in
  let body := [0x03; 0x03] ++ replicate 32 0x4b ++ [0]
              ++ [0x00; 0x02; 0x13; 0x01; 0x01; 0x00] ++ be16 (zlen ext) ++ ext in
  [CONTENT_HANDSHAKE; 0x03; 0x01] ++ be16 (zlen body + 4) ++ [HANDSHAKE_CLIENT_HELLO]
  ++ [Z.shiftr (zlen body) 16 mod 256; Z.shiftr (zlen body) 8 mod 256; zlen body mod 256] ++ body.

Example peek_synthetic :
  peek (synthetic (bytes "Turn-Box.k2.dev"))
  = Some (Peek_Done (mk_Hello (Some (bytes "turn-box.k2.dev")) [] 76 1)).
Proof. vm_compute. reflexivity. Qed.

(** ** Lemmas: the reader *)

Record cur_ok (c : Cur) : Prop := {
  co_at : 0 ≤ cu_at c ≤ zlen (cu_b c);
  co_bytes : Forall is_byte (cu_b c)
}.

Lemma cur_start data : Forall is_byte data → cur_ok (mk_Cur data 0).
Proof. split; cbn; [pose proof (zlen_nonneg data); lia|done]. Qed.

Lemma take_inv n c s c' :
  cur_ok c → 0 ≤ n → Cur_take n c = Ok (s, c') →
  cur_ok c' ∧ Forall is_byte s ∧ zlen s = n ∧ Cur_rest c' = Cur_rest c - n
  ∧ zdrop (cu_at c) (cu_b c) = s ++ zdrop (cu_at c') (cu_b c').
Proof.
  intros [Hat Hb] Hn. unfold Cur_take, Cur_rest. destruct (Z.ltb_spec (zlen (cu_b c) - cu_at c) n); [done|].
  intros [= <- <-]. cbn [cu_b cu_at]. unfold ztake, zdrop, zlen in *. split_and!.
  - split; cbn; [unfold zlen; lia|done].
  - by apply Forall_take, Forall_drop.
  - rewrite length_take, length_drop. lia.
  - lia.
  - rewrite <- (take_drop (Z.to_nat n) (drop (Z.to_nat (cu_at c)) (cu_b c))) at 1. f_equal.
    rewrite drop_drop. f_equal. lia.
Qed.

(** Reading what the rest of the cursor starts with. *)
Lemma take_app n c s l :
  cur_ok c → zdrop (cu_at c) (cu_b c) = s ++ l → zlen s = n →
  ∃ c', Cur_take n c = Ok (s, c') ∧ cur_ok c' ∧ zdrop (cu_at c') (cu_b c') = l ∧ Cur_rest c' = zlen l.
Proof.
  intros [Hat Hb] Hl Hs. unfold Cur_take, Cur_rest. pose proof (zlen_zdrop (cu_at c) (cu_b c) Hat) as Hlen.
  rewrite Hl, zlen_app in Hlen. pose proof (zlen_nonneg l). pose proof (zlen_nonneg s).
  rewrite (proj2 (Z.ltb_ge _ _)) by lia. exists (mk_Cur (cu_b c) (cu_at c + n)).
  split; [|split; [|split]]; cbn [cu_at cu_b]; [|by split; cbn; [lia|]| |lia].
  - rewrite Hl. unfold ztake, zlen in *. rewrite <- Hs, Nat2Z.id. by rewrite take_app_length.
  - rewrite <- zdrop_zdrop, Hl, zdrop_app_ge by lia. rewrite Hs, Z.sub_diag. apply zdrop_0.
Qed.

Lemma u8_inv c x c' :
  cur_ok c → Cur_u8 c = Ok (x, c') → cur_ok c' ∧ is_byte x ∧ Cur_rest c' = Cur_rest c - 1.
Proof.
  intros Hc. unfold Cur_u8. destruct (Cur_take 1 c) as [[s c1]|] eqn:Ht; [|done]. intros [= <- <-].
  apply take_inv in Ht as (Hc'&Hs&Hl&Hr&_); [|done|lia]. split; [done|]. split; [|done].
  destruct s as [|b s]; [done|]. by inversion Hs.
Qed.

Lemma u16_inv c x c' :
  cur_ok c → Cur_u16 c = Ok (x, c') → cur_ok c' ∧ 0 ≤ x < 2 ^ 16 ∧ Cur_rest c' = Cur_rest c - 2.
Proof.
  intros Hc. unfold Cur_u16. destruct (Cur_take 2 c) as [[s c1]|] eqn:Ht; [|done]. intros [= <- <-].
  apply take_inv in Ht as (Hc'&Hs&Hl&Hr&_); [|done|lia]. split; [done|]. split; [|done].
  destruct s as [|a [|b s]]; [done|done|]. apply Forall_cons in Hs as [Ha Hs].
  apply Forall_cons in Hs as [Hb _]. cbn. unfold of_be16, is_byte in *. lia.
Qed.

Lemma u8_app c x l :
  cur_ok c → zdrop (cu_at c) (cu_b c) = x :: l →
  ∃ c', Cur_u8 c = Ok (x, c') ∧ cur_ok c' ∧ zdrop (cu_at c') (cu_b c') = l ∧ Cur_rest c' = zlen l.
Proof.
  intros Hc Hl. destruct (take_app 1 c [x] l Hc Hl eq_refl) as (c'&Ht&H). exists c'.
  unfold Cur_u8. by rewrite Ht.
Qed.

Lemma u16_app c x y l :
  cur_ok c → zdrop (cu_at c) (cu_b c) = x :: y :: l →
  ∃ c', Cur_u16 c = Ok (of_be16 x y, c') ∧ cur_ok c' ∧ zdrop (cu_at c') (cu_b c') = l ∧ Cur_rest c' = zlen l.
Proof.
  intros Hc Hl. destruct (take_app 2 c [x; y] l Hc Hl eq_refl) as (c'&Ht&H). exists c'.
  unfold Cur_u16. by rewrite Ht.
Qed.

(** A [try?] that succeeds: name the value and what reading it says. *)
Ltac read_case :=
  match goal with
  | |- context [try_ ?r _] =>
    let H := fresh "Hread" in
    destruct r as [[? ?]|?] eqn:H; cbn [try_]; [|by eexists];
    first
      [ apply u16_inv in H as (?&?&?); [|done]
      | apply u8_inv in H as (?&?&?); [|done]
      | apply take_inv in H as (?&?&?&?&_); [|done|unfold is_byte in *; lia] ]
  end.

(** *** The loops end: each turn reads at least one byte *)

Lemma server_names_total fuel c host :
  cur_ok c → Cur_rest c < Z.of_nat fuel → ∃ r, server_names fuel c host = Some r.
Proof.
  revert c host. induction fuel as [|fuel IH]; intros c host Hc Hf.
  { destruct Hc. unfold Cur_rest in Hf. lia. }
  cbn [server_names]. destruct (0 <? Cur_rest c); [|by eexists].
  read_case. read_case. read_case.
  destruct (negb _); [apply IH; [done|lia]|]. destruct host; [by eexists|].
  destruct (host_name _); [apply IH; [done|lia]|by eexists].
Qed.

Lemma alpn_names_total fuel c out :
  cur_ok c → Cur_rest c < Z.of_nat fuel → ∃ r, alpn_names fuel c out = Some r.
Proof.
  revert c out. induction fuel as [|fuel IH]; intros c out Hc Hf.
  { destruct Hc. unfold Cur_rest in Hf. lia. }
  cbn [alpn_names]. destruct (0 <? Cur_rest c); [|by eexists].
  read_case. destruct (_ =? 0); [by eexists|]. read_case. apply IH; [done|unfold is_byte in *; lia].
Qed.

Lemma cur_fuel data : Cur_rest (mk_Cur data 0) < Z.of_nat (S (length data)).
Proof. unfold Cur_rest, zlen. cbn [cu_b cu_at]. lia. Qed.

Lemma parse_server_name_total data :
  Forall is_byte data → ∃ r, parse_server_name data = Some r.
Proof.
  intros Hd. unfold parse_server_name. pose proof (cur_start _ Hd). pose proof (cur_fuel data).
  read_case. destruct (_ || _); [by eexists|]. apply server_names_total; [done|lia].
Qed.
Lemma parse_alpn_total data : Forall is_byte data → ∃ r, parse_alpn data = Some r.
Proof.
  intros Hd. unfold parse_alpn. pose proof (cur_start _ Hd). pose proof (cur_fuel data).
  read_case. destruct (_ || _); [by eexists|]. apply alpn_names_total; [done|lia].
Qed.

Lemma extensions_total fuel c seen sni alpn :
  cur_ok c → Cur_rest c < Z.of_nat fuel → ∃ r, extensions fuel c seen sni alpn = Some r.
Proof.
  revert c seen sni alpn. induction fuel as [|fuel IH]; intros c seen sni alpn Hc Hf.
  { destruct Hc. unfold Cur_rest in Hf. lia. }
  cbn [extensions]. destruct (0 <? Cur_rest c); [|by eexists].
  read_case. read_case. read_case.
  destruct (mem_z _ _); [by eexists|]. destruct (_ =? EXT_SERVER_NAME).
  { edestruct parse_server_name_total as [[?|?] ->]; [done| |]; cbn; [apply IH; [done|lia]|by eexists]. }
  destruct (_ =? EXT_ALPN); [|apply IH; [done|lia]].
  edestruct parse_alpn_total as [[?|?] ->]; [done| |]; cbn; [apply IH; [done|lia]|by eexists].
Qed.

Lemma parse_body_total body : Forall is_byte body → ∃ r, parse_body body = Some r.
Proof.
  intros Hb. unfold parse_body. pose proof (cur_start _ Hb). pose proof (cur_fuel body).
  read_case. destruct (negb _); [by eexists|]. read_case. read_case. destruct (_ <? _); [by eexists|].
  read_case. read_case. destruct (_ || _); [by eexists|]. read_case. read_case.
  destruct (_ <? _); [by eexists|]. read_case. destruct (_ =? _); [by eexists|].
  read_case. destruct (negb _); [by eexists|]. apply extensions_total; [done|].
  unfold is_byte in *. lia.
Qed.

(** ** Lemmas: the records *)

Lemma length5 {A} (h : list A) : zlen h = 5 → ∃ a b c d e, h = [a; b; c; d; e].
Proof.
  unfold zlen. intros H. assert (length h = 5%nat) as Hl by lia.
  destruct h as [|a [|b [|c [|d [|e [|]]]]]]; try done. by eexists _, _, _, _, _.
Qed.

Lemma header_slice buf pos :
  0 ≤ pos → pos + 5 ≤ zlen buf → Forall is_byte buf →
  ∃ h0 h1 h2 h3 h4, slice buf pos (pos + 5) = Some [h0; h1; h2; h3; h4] ∧ 0 ≤ of_be16 h3 h4 < 2 ^ 16.
Proof.
  intros Hp Hl Hb. destruct (slice_is_Some buf pos (pos + 5) ltac:(lia) Hl) as [h Hh].
  pose proof (slice_Forall _ _ _ _ _ Hh Hb) as Hbh. apply slice_Some in Hh as H. destruct H as (_&_&H5&_).
  destruct (length5 h) as (h0&h1&h2&h3&h4&->); [lia|]. exists h0, h1, h2, h3, h4. split; [done|].
  do 3 apply Forall_cons in Hbh as [_ Hbh]. apply Forall_cons in Hbh as [H3 Hbh].
  apply Forall_cons in Hbh as [H4 _]. unfold of_be16, is_byte in *. lia.
Qed.

Lemma body_len_nonneg a b c :
  is_byte a → is_byte b → is_byte c → 0 ≤ Z.lor (Z.lor (Z.shiftl a 16) (Z.shiftl b 8)) c.
Proof. unfold is_byte. intros. rewrite !Z.lor_nonneg, !Z.shiftl_nonneg. lia. Qed.

(** What one call of [peek] on a prefix may say and keep saying. *)
Definition more_bytes (r r' : Peek) : Prop :=
  match r with
  | Peek_NeedMore => True
  | Peek_Bad _ => ∃ why, r' = Peek_Bad why
  | _ => r' = r
  end.

(** What the answer says of the bytes. *)
Definition answer_ok (buf : list Z) (pos records : Z) (r : Peek) : Prop :=
  match r with
  | Peek_NeedMore => zlen buf < MAX_HELLO_BYTES
  | Peek_Done h =>
    pos < he_consumed h ≤ zlen buf ∧ he_consumed h ≤ MAX_HELLO_BYTES
    ∧ records < he_records h ∧ 6 * (he_records h - records) ≤ he_consumed h - pos
    ∧ ∃ body, parse_body body = Some (Ok (he_sni h, he_alpn h))
  | Peek_NotTls => False
  | Peek_Bad _ => True
  end.

Lemma peek_loop_answer fuel buf pos records hs :
  Forall is_byte buf → Forall is_byte hs → 0 ≤ pos ≤ zlen buf → zlen buf - pos < Z.of_nat fuel →
  ∃ r, peek_loop fuel buf pos records hs = Some r ∧ answer_ok buf pos records r.
Proof.
  intros Hb. revert pos records hs. induction fuel as [|fuel IH]; intros pos records hs Hh Hp Hf; [lia|].
  cbn [peek_loop]. destruct (Z.ltb_spec (zlen buf) (pos + 5)) as [Hs|Hs].
  { eexists. split; [done|]. unfold more_or_cap. destruct (Z.ltb_spec MAX_HELLO_BYTES (pos + 5)); cbn; lia || done. }
  destruct (header_slice buf pos) as (h0&h1&h2&h3&h4&->&Hlen); [lia|lia|done|]. cbn [mbind option_bind].
  destruct (negb (h0 =? _)); [by eexists|]. destruct (_ || _); [by eexists|].
  destruct (Z.eqb_spec (of_be16 h3 h4) 0); [by eexists|]. destruct (_ <? _); [by eexists|].
  set (end_ := pos + 5 + of_be16 h3 h4) in *.
  destruct (Z.ltb_spec MAX_HELLO_BYTES end_) as [|Hmax]; [by eexists|].
  destruct (Z.ltb_spec (zlen buf) end_) as [|Hend]; [by eexists; split; [done|cbn; lia]|].
  destruct (slice_is_Some buf (pos + 5) end_) as [part Hpart]; [lia|lia|]. rewrite Hpart. cbn [mbind option_bind].
  assert (Forall is_byte (hs ++ part)) as Hhs
    by (apply Forall_app; split; [done|by eapply slice_Forall]).
  assert (∃ r, peek_loop fuel buf end_ (records + 1) (hs ++ part) = Some r ∧ answer_ok buf pos records r) as Hnext.
  { destruct (IH end_ (records + 1) (hs ++ part) Hhs) as (r&Hr&Hok); [lia|lia|]. exists r. split; [done|].
    destruct r as [|h| |]; cbn in *; [done| |done|done]. destruct Hok as (?&?&?&?&?). split_and!; lia || done. }
  remember (hs ++ part) as msg eqn:Hmsg. clear Hmsg.
  destruct msg as [|s0 [|s1 [|s2 [|s3 msg]]]]; [exact Hnext..|].
  destruct (negb (s0 =? _)); [by eexists|].
  apply Forall_cons in Hhs as H. destruct H as [_ H]. apply Forall_cons in H as [H1 H].
  apply Forall_cons in H as [H2 H]. apply Forall_cons in H as [H3 _].
  pose proof (body_len_nonneg s1 s2 s3 H1 H2 H3) as Hbl. set (bl := Z.lor _ s3) in *.
  destruct (_ <? 4 + bl); [by eexists|].
  destruct (Z.ltb_spec (zlen (s0 :: s1 :: s2 :: s3 :: msg)) (4 + bl)) as [|Hfull]; [exact Hnext|].
  destruct (slice_is_Some (s0 :: s1 :: s2 :: s3 :: msg) 4 (4 + bl)) as [body Hbody]; [lia|lia|].
  rewrite Hbody. cbn [mbind option_bind].
  destruct (parse_body_total body) as [r Hr]; [by eapply slice_Forall|]. rewrite Hr. cbn [mbind option_bind].
  eexists. split; [done|]. destruct r as [[sni alpn]|why]; cbn; [|done]. split_and!; [lia|lia|lia|lia|lia|by eexists].
Qed.

(** Past the cap every answer is a refusal. *)
Lemma peek_loop_capped fuel buf pos records hs :
  MAX_HELLO_BYTES < pos + 5 → 0 ≤ pos → Forall is_byte buf →
  ∃ why, peek_loop (S fuel) buf pos records hs = Some (Peek_Bad why).
Proof.
  intros Hcap Hp Hb. cbn [peek_loop]. destruct (Z.ltb_spec (zlen buf) (pos + 5)).
  { unfold more_or_cap. rewrite (proj2 (Z.ltb_lt _ _) Hcap). by eexists. }
  destruct (header_slice buf pos) as (h0&h1&h2&h3&h4&->&Hlen); [lia|lia|done|]. cbn [mbind option_bind].
  destruct (negb (h0 =? _)); [by eexists|]. destruct (_ || _); [by eexists|].
  destruct (of_be16 h3 h4 =? 0); [by eexists|]. destruct (MAX_RECORD <? _); [by eexists|].
  rewrite (proj2 (Z.ltb_lt MAX_HELLO_BYTES _)) by lia. by eexists.
Qed.

(** More bytes keep an answer: each test that was made is made again. *)
Lemma peek_loop_more fuel fuel' buf more pos records hs r :
  peek_loop fuel buf pos records hs = Some r → (fuel ≤ fuel')%nat →
  Forall is_byte (buf ++ more) → Forall is_byte hs → 0 ≤ pos ≤ zlen buf →
  zlen (buf ++ more) - pos < Z.of_nat fuel' →
  ∃ r', peek_loop fuel' (buf ++ more) pos records hs = Some r' ∧ more_bytes r r'.
Proof.
  intros Hr Hff Hb Hh Hp Hf. revert fuel' pos records hs Hr Hff Hh Hp Hf.
  pose proof (zlen_nonneg more) as Hmore. pose proof (zlen_app buf more) as Happ.
  assert (Forall is_byte buf) as Hbuf by (by apply Forall_app in Hb as [? _]).
  induction fuel as [|fuel IH]; intros fuel' pos records hs Hr Hff Hh Hp Hf; [done|].
  destruct fuel' as [|fuel']; [lia|]. set (N := peek_loop (S fuel') (buf ++ more) pos records hs).
  assert (∃ r', N = Some r' ∧ more_bytes Peek_NeedMore r') as Hneed.
  { destruct (peek_loop_answer (S fuel') (buf ++ more) pos records hs) as (r'&Hr'&_); [done|done|lia|done|].
    by exists r'. }
  revert Hr. cbn [peek_loop]. destruct (Z.ltb_spec (zlen buf) (pos + 5)) as [Hs|Hs].
  { unfold more_or_cap. destruct (Z.ltb_spec MAX_HELLO_BYTES (pos + 5)) as [Hcap|]; intros [= <-]; [|done].
    destruct (peek_loop_capped fuel' (buf ++ more) pos records hs) as [why Hw]; [done|lia|done|].
    eexists. split; [exact Hw|by exists why]. }
  destruct (header_slice buf pos) as (h0&h1&h2&h3&h4&Hhd&Hlen); [lia|lia|done|].
  subst N. revert Hneed. cbn [peek_loop]. rewrite (proj2 (Z.ltb_ge (zlen (buf ++ more)) (pos + 5))) by lia.
  rewrite Hhd, (slice_mono _ more _ _ _ Hhd). cbn [mbind option_bind]. clear Hhd.
  destruct (negb (h0 =? _)); [intros _ [= <-]; by eexists; split; [|eexists]|].
  destruct (_ || _); [intros _ [= <-]; by eexists; split; [|eexists]|].
  destruct (Z.eqb_spec (of_be16 h3 h4) 0); [intros _ [= <-]; by eexists; split; [|eexists]|].
  destruct (MAX_RECORD <? _); [intros _ [= <-]; by eexists; split; [|eexists]|].
  set (end_ := pos + 5 + of_be16 h3 h4).
  destruct (MAX_HELLO_BYTES <? end_); [intros _ [= <-]; by eexists; split; [|eexists]|].
  destruct (Z.ltb_spec (zlen buf) end_) as [|Hend]; [by intros Hneed [= <-]|]. intros _.
  rewrite (proj2 (Z.ltb_ge (zlen (buf ++ more)) end_)) by lia.
  destruct (slice_is_Some buf (pos + 5) end_) as [part Hpart]; [lia|lia|].
  rewrite Hpart, (slice_mono _ more _ _ _ Hpart). cbn [mbind option_bind].
  assert (Forall is_byte (hs ++ part)) as Hhs by (apply Forall_app; split; [done|by eapply slice_Forall]).
  remember (hs ++ part) as msg eqn:Hmsg. clear Hmsg.
  assert (peek_loop fuel buf end_ (records + 1) msg = Some r →
    ∃ r', peek_loop fuel' (buf ++ more) end_ (records + 1) msg = Some r' ∧ more_bytes r r') as Hnext
    by (intros Hr; apply IH; [done|lia|done|lia|lia]).
  destruct msg as [|s0 [|s1 [|s2 [|s3 msg]]]]; [exact Hnext..|].
  destruct (negb (s0 =? _)); [intros [= <-]; by eexists; split; [|eexists]|].
  set (bl := Z.lor _ s3). destruct (_ <? 4 + bl); [intros [= <-]; by eexists; split; [|eexists]|].
  destruct (Z.ltb_spec (zlen (s0 :: s1 :: s2 :: s3 :: msg)) (4 + bl)); [exact Hnext|].
  destruct (slice _ 4 _) as [body|]; [|done]. cbn [mbind option_bind].
  destruct (parse_body body) as [[[sni alpn]|why]|]; [|..|done]; cbn [mbind option_bind];
    intros [= <-]; eexists; (split; [done|]); [done|by eexists].
Qed.

(** *** The server name is a name routes can be keyed by *)

Definition name_byte (c : Z) : bool :=
  is_ascii_digit c || is_ascii_lowercase c || (c =? 45) || (c =? 95) || (c =? 46).

(** A canonical host name: [host_name] leaves it as it is. *)
Record canonical_name (h : list Z) : Prop := {
  cn_length : 1 ≤ zlen h ≤ 253;
  cn_bytes : Forall (λ c, name_byte c = true) h;
  cn_fixed : host_name h = Some h
}.

Definition lower (b : Z) : Z := if is_ascii_uppercase b then b + 32 else b.

Lemma lower_alnum c : is_ascii_alphanumeric (lower c) = is_ascii_alphanumeric c.
Proof.
  unfold lower, is_ascii_alphanumeric, is_ascii_digit, is_ascii_lowercase, is_ascii_uppercase.
  apply eq_true_iff_eq. rewrite !orb_true_iff, !andb_true_iff, !Z.leb_le.
  destruct (Z.leb_spec 65 c), (Z.leb_spec c 90); cbn [andb]; lia.
Qed.
Lemma lower_fixed c k : is_ascii_uppercase k = false → is_ascii_uppercase (k - 32) = false → (lower c =? k) = (c =? k).
Proof.
  unfold lower, is_ascii_uppercase. rewrite <- !not_true_iff_false, !andb_true_iff, !Z.leb_le. intros Hk Hl.
  apply eq_true_iff_eq. rewrite !Z.eqb_eq.
  destruct (Z.leb_spec 65 c), (Z.leb_spec c 90); cbn [andb]; lia.
Qed.
Lemma lower_lower c : lower (lower c) = lower c.
Proof.
  unfold lower, is_ascii_uppercase.
  destruct (Z.leb_spec 65 c) as [H1|H1], (Z.leb_spec c 90) as [H2|H2]; cbn [andb].
  2-4: by rewrite ?(proj2 (Z.leb_le _ _) H1), ?(proj2 (Z.leb_gt _ _) H1), ?(proj2 (Z.leb_gt _ _) H2).
  by rewrite (proj2 (Z.leb_gt (c + 32) 90)), andb_false_r by lia.
Qed.

Lemma split_on_lower (l : list Z) :
  split_on 46 (lower <$> l) = (λ w : list Z, lower <$> w) <$> split_on 46 l.
Proof.
  induction l as [|c l IH]; [done|]. cbn [fmap list_fmap split_on]. rewrite lower_fixed by done.
  cbn [fmap list_fmap] in IH. rewrite IH. destruct (c =? 46); [done|]. by destruct (split_on 46 l).
Qed.
Lemma label_ok_lower (w : list Z) : label_ok (lower <$> w) = label_ok w.
Proof.
  unfold label_ok, zlen. rewrite length_fmap. f_equal. induction w as [|c w IH]; [done|].
  cbn [fmap list_fmap forallb]. cbn [fmap list_fmap] in IH. by rewrite IH, lower_alnum, !lower_fixed by done.
Qed.
Lemma split_on_bytes (P : Z → bool) l :
  forallb (forallb P) (split_on 46 l) = true → Forall (λ c, P c = true ∨ c = 46) l.
Proof.
  induction l as [|c l IH]; cbn [split_on]; [constructor|].
  destruct (Z.eqb_spec c 46) as [->|Hne]; [cbn [forallb]; intros H; constructor; auto|].
  destruct (split_on 46 l) as [|w ws]; cbn [forallb] in *.
  - rewrite !andb_true_r. intros Hc. constructor; auto.
  - rewrite !andb_true_iff. intros [[Hc Hw] Hws]. constructor; [auto|]. apply IH. by rewrite Hw, Hws.
Qed.

Lemma name_byte_ok c :
  is_ascii_alphanumeric c = true ∨ c = 45 ∨ c = 95 ∨ c = 46 → c < 128 ∧ name_byte (lower c) = true.
Proof.
  unfold name_byte, lower, is_ascii_alphanumeric, is_ascii_digit, is_ascii_lowercase, is_ascii_uppercase.
  intros H. rewrite !orb_true_iff, !andb_true_iff, !Z.leb_le in H.
  split; [lia|]. destruct (Z.leb_spec 65 c), (Z.leb_spec c 90); cbn [andb];
    rewrite !orb_true_iff, !andb_true_iff, !Z.eqb_eq, !Z.leb_le; lia.
Qed.

Lemma host_name_canonical b h : host_name b = Some h → canonical_name h.
Proof.
  unfold host_name. destruct (Z.eqb_spec (zlen b) 0) as [|Hne]; [done|].
  destruct (Z.ltb_spec 253 (zlen b)) as [|Hle]; [done|]. cbn [orb].
  destruct (utf8_check b); [done|]. destruct (forallb label_ok (split_on 46 b)) eqn:Hlab; [|done]. intros [= <-].
  assert (Forall (λ c, is_ascii_alphanumeric c = true ∨ c = 45 ∨ c = 95 ∨ c = 46) b) as Hb.
  { eapply Forall_impl; [apply (split_on_bytes (λ c, is_ascii_alphanumeric c || (c =? 45) || (c =? 95)))|].
    - apply forallb_true. intros w Hw. rewrite forallb_true in Hlab. specialize (Hlab w Hw).
      unfold label_ok in Hlab. by apply andb_true_iff in Hlab as [_ ?].
    - cbn. intros c. rewrite !orb_true_iff, !Z.eqb_eq. tauto. }
  change (to_ascii_lowercase b) with (lower <$> b).
  assert (zlen (lower <$> b) = zlen b) as Hlen by (unfold zlen; by rewrite length_fmap).
  assert (Forall (λ c, name_byte c = true) (lower <$> b)) as Hnb.
  { apply Forall_fmap. eapply Forall_impl; [exact Hb|]. intros c Hc. by apply name_byte_ok. }
  split; [pose proof (zlen_nonneg b); lia|done|]. unfold host_name. rewrite Hlen.
  rewrite (proj2 (Z.eqb_neq _ _)), (proj2 (Z.ltb_ge _ _)) by done. cbn [orb].
  assert (utf8_check (lower <$> b) = None) as ->.
  { apply utf8_ascii. apply Forall_fmap. eapply Forall_impl; [exact Hb|]. intros c Hc. cbn.
    apply name_byte_ok in Hc as [Hc _]. unfold lower, is_ascii_uppercase.
    destruct (Z.leb_spec 65 c), (Z.leb_spec c 90); cbn [andb]; lia. }
  assert (forallb label_ok (split_on 46 (lower <$> b)) = true) as ->.
  { rewrite split_on_lower. apply forallb_true. intros w (w0&->&Hw0)%list_elem_of_fmap.
    rewrite label_ok_lower. rewrite forallb_true in Hlab. by apply Hlab. }
  f_equal. change (lower <$> (lower <$> b) = lower <$> b). rewrite <- list_fmap_compose.
  apply list_fmap_ext. intros _ c _. apply lower_lower.
Qed.

(** A [try?] that gave a value. *)
Lemma try_Ok {T U} (r : Result T string) (k : T → option (Result U string)) v :
  try_ r k = Some (Ok v) → ∃ x, r = Ok x ∧ k x = Some (Ok v).
Proof. destruct r as [x|]; cbn; [by exists x|done]. Qed.

Ltac try_ok H := apply try_Ok in H as ([? ?]&_&H); cbn beta iota in H.

Definition sni_ok (sni : option (list Z)) : Prop := ∀ h, sni = Some h → canonical_name h.

Lemma server_names_ok fuel c host r :
  sni_ok host → server_names fuel c host = Some (Ok r) → sni_ok r.
Proof.
  revert c host. induction fuel as [|fuel IH]; intros c host Hh; cbn [server_names]; [done|].
  destruct (0 <? Cur_rest c); [|by intros [= <-]].
  intros H. try_ok H. try_ok H. try_ok H.
  destruct (negb _); [by eapply IH|]. destruct host; [done|].
  destruct (host_name _) eqn:Hn; [|done]. eapply IH, H. intros h [= ->]. by eapply host_name_canonical.
Qed.

Lemma parse_server_name_ok data r : parse_server_name data = Some (Ok r) → sni_ok r.
Proof.
  intros H. try_ok H. destruct (_ || _); [done|]. by eapply (server_names_ok _ _ None).
Qed.

Lemma extensions_ok fuel c seen sni alpn p :
  sni_ok sni → extensions fuel c seen sni alpn = Some (Ok p) → sni_ok p.1.
Proof.
  revert c seen sni alpn. induction fuel as [|fuel IH]; intros c seen sni alpn Hs; cbn [extensions]; [done|].
  destruct (0 <? Cur_rest c); [|by intros [= <-]].
  intros H. try_ok H. try_ok H. try_ok H.
  destruct (mem_z _ _); [done|]. destruct (_ =? EXT_SERVER_NAME).
  { destruct (parse_server_name _) as [r|] eqn:Hr; [|done]. cbn [mbind option_bind] in H.
    apply try_Ok in H as (sni'&->&H). eapply IH, H. by eapply parse_server_name_ok. }
  destruct (_ =? EXT_ALPN); [|by eapply IH].
  destruct (parse_alpn _) as [r|]; [|done]. cbn [mbind option_bind] in H.
  apply try_Ok in H as (alpn'&->&H). by eapply IH.
Qed.

Lemma parse_body_ok body p : parse_body body = Some (Ok p) → sni_ok p.1.
Proof.
  unfold parse_body. intros H. try_ok H. destruct (negb _); [done|]. try_ok H. try_ok H.
  destruct (32 <? _); [done|]. try_ok H. try_ok H. destruct (_ || _); [done|]. try_ok H. try_ok H.
  destruct (_ <? 1); [done|]. try_ok H. destruct (_ =? 0); [by injection H as <-|].
  try_ok H. destruct (negb _); [done|]. by eapply (extensions_ok _ _ _ None).
Qed.

(** *** A handshake message cut into records *)

Definition be24 (n : Z) : list Z := [Z.shiftr n 16 mod 256; Z.shiftr n 8 mod 256; n mod 256].

Definition hello_message (body : list Z) : list Z := HANDSHAKE_CLIENT_HELLO :: be24 (zlen body) ++ body.
Definition tls_record (v : Z) (fragment : list Z) : list Z :=
  [CONTENT_HANDSHAKE; 0x03; v] ++ be16 (zlen fragment) ++ fragment.
Definition tls_records (v : Z) (fragments : list (list Z)) : list Z := concat (tls_record v <$> fragments).
Definition fragments_ok (fragments : list (list Z)) : Prop :=
  Forall (λ f, 1 ≤ zlen f ≤ MAX_RECORD) fragments.

Lemma be24_lor n :
  0 ≤ n < 2 ^ 24 →
  Z.lor (Z.lor (Z.shiftl (Z.shiftr n 16 mod 256) 16) (Z.shiftl (Z.shiftr n 8 mod 256) 8)) (n mod 256) = n.
Proof.
  intros Hn. rewrite !Z.shiftr_div_pow2, !Z.shiftl_mul_pow2 by lia.
  change (2 ^ 16) with 65536. change (2 ^ 8) with 256.
  assert (n / 65536 = n / 256 / 256) as -> by (rewrite Z.div_div by lia; done).
  pose proof (Z.div_mod n 256 ltac:(lia)). pose proof (Z.mod_pos_bound n 256 ltac:(lia)).
  set (q := n / 256) in *. assert (0 ≤ q < 65536) by lia.
  pose proof (Z.div_mod q 256 ltac:(lia)). pose proof (Z.mod_pos_bound q 256 ltac:(lia)).
  set (p := q / 256) in *. rewrite (Z.mod_small p) by lia.
  pose proof (lor_low p (q mod 256 * 256) 16 ltac:(lia) ltac:(lia)) as Hlor. change (2 ^ 16) with 65536 in Hlor.
  rewrite Hlor. replace (p * 65536 + q mod 256 * 256) with ((p * 256 + q mod 256) * 2 ^ 8) by lia.
  rewrite lor_low by lia. lia.
Qed.

Lemma zlen_tls_record v f : zlen (tls_record v f) = 5 + zlen f.
Proof. unfold tls_record. rewrite !zlen_app. unfold be16, zlen. cbn. lia. Qed.
Lemma tls_records_cons v f fs : tls_records v (f :: fs) = tls_record v f ++ tls_records v fs.
Proof. done. Qed.

Lemma loop_fragments fuel v body frags pre records hs tail :
  0 ≤ v ≤ 4 → 4 + zlen body ≤ MAX_HELLO_BYTES → fragments_ok frags → frags ≠ [] →
  hs ++ concat frags = hello_message body →
  zlen pre + zlen (tls_records v frags) ≤ MAX_HELLO_BYTES → (length frags ≤ fuel)%nat →
  peek_loop fuel (pre ++ tls_records v frags ++ tail) (zlen pre) records hs =
    r ← parse_body body;
    Some (match r with
          | Ok (sni, alpn) => Peek_Done (mk_Hello sni alpn (zlen pre + zlen (tls_records v frags))
                                           (records + Z.of_nat (length frags)))
          | Err why => Peek_Bad why
          end).
Proof.
  intros Hv Hbody Hfr. revert fuel pre records hs.
  induction Hfr as [|f fs Hf Hfs IH]; intros fuel pre records hs Hne Hmsg Hmax Hfuel; [done|]. clear Hne.
  destruct fuel as [|fuel]; [cbn in Hfuel; lia|]. rewrite tls_records_cons in *.
  rewrite zlen_app, zlen_tls_record in Hmax. pose proof (zlen_nonneg (tls_records v fs)) as Hn.
  pose proof (zlen_nonneg pre). pose proof (zlen_nonneg tail).
  set (buf := pre ++ _ ++ tail). unfold MAX_RECORD in Hf.
  destruct (of_be16_be16 (zlen f)) as (h3&h4&Hbe&Hof&_); [lia|].
  assert (zlen buf = zlen pre + (5 + zlen f) + zlen (tls_records v fs) + zlen tail) as Hlen
    by (unfold buf; rewrite !zlen_app, zlen_tls_record; lia).
  assert (slice buf (zlen pre) (zlen pre + 5) = Some [CONTENT_HANDSHAKE; 3; v; h3; h4]) as Hs1.
  { unfold buf, tls_record. rewrite Hbe, <- !app_assoc.
    change (pre ++ ?a ++ ?b ++ ?l) with (pre ++ (a ++ b) ++ l). by apply slice_app. }
  assert (slice buf (zlen pre + 5) (zlen pre + 5 + zlen f) = Some f) as Hs2.
  { unfold buf, tls_record. rewrite Hbe, <- !app_assoc.
    replace (pre ++ _) with ((pre ++ [CONTENT_HANDSHAKE; 3; v; h3; h4]) ++ f ++ tls_records v fs ++ tail)
      by (by rewrite <- !app_assoc).
    apply slice_app; rewrite zlen_app; done. }
  cbn [peek_loop]. rewrite (proj2 (Z.ltb_ge _ _)) by lia. rewrite Hs1. cbn [mbind option_bind].
  cbn [negb Z.eqb CONTENT_HANDSHAKE Pos.eqb]. rewrite Hof.
  assert (4 <? v = false) as -> by (apply Z.ltb_ge; lia). cbn [orb negb Z.eqb Pos.eqb].
  rewrite (proj2 (Z.eqb_neq _ _)), (proj2 (Z.ltb_ge MAX_RECORD _)) by (unfold MAX_RECORD; lia).
  rewrite (proj2 (Z.ltb_ge MAX_HELLO_BYTES _)), (proj2 (Z.ltb_ge (zlen buf) _)) by lia.
  rewrite Hs2. cbn [mbind option_bind]. cbn [concat] in Hmsg. rewrite app_assoc in Hmsg.
  assert (fs ≠ [] → peek_loop fuel buf (zlen pre + 5 + zlen f) (records + 1) (hs ++ f) = r ← parse_body body;
    Some (match r with
          | Ok (sni, alpn) => Peek_Done (mk_Hello sni alpn (zlen pre + zlen (tls_record v f ++ tls_records v fs))
                                           (records + Z.of_nat (length (f :: fs))))
          | Err why => Peek_Bad why
          end)) as Hnext.
  { intros Hne. rewrite zlen_app, zlen_tls_record.
    specialize (IH fuel (pre ++ tls_record v f) (records + 1) (hs ++ f) Hne Hmsg).
    rewrite !zlen_app, zlen_tls_record in IH. unfold buf. rewrite <- !app_assoc in IH |- *.
    replace (zlen pre + 5 + zlen f) with (zlen pre + (5 + zlen f)) by lia.
    rewrite IH by (cbn [length] in Hfuel; lia).
    replace (records + Z.of_nat (length (f :: fs))) with (records + 1 + Z.of_nat (length fs)) by (cbn [length]; lia).
    destruct (parse_body body) as [[[sni alpn]|why]|]; cbn [mbind option_bind]; [|done..].
    do 3 f_equal. lia. }
  remember (hs ++ f) as msg eqn:Heq. clear Heq. pose proof (zlen_nonneg body).
  assert (fs ≠ [] → zlen msg < 4 + zlen body) as Hshort.
  { intros Hne. apply (f_equal zlen) in Hmsg. unfold hello_message, be24 in Hmsg.
    rewrite zlen_cons, !zlen_app in Hmsg. destruct Hfs as [|g gs Hg]; [done|]. cbn [concat] in Hmsg.
    rewrite zlen_app in Hmsg. pose proof (zlen_nonneg (concat gs)).
    change (zlen [_; _; _]) with 3 in Hmsg. lia. }
  assert (fs = [] → zlen msg = 4 + zlen body ∧ slice msg 4 (4 + zlen body) = Some body
    ∧ zlen (tls_records v fs) = 0 ∧ length fs = O) as Hlast.
  { intros ->. cbn [concat] in Hmsg. rewrite app_nil_r in Hmsg. rewrite Hmsg. unfold hello_message.
    split; [rewrite zlen_cons, zlen_app; change (zlen (be24 _)) with 3; lia|]. split; [|done].
    rewrite <- (app_nil_r body) at 2. change (?a :: be24 ?n ++ ?l) with ((a :: be24 n) ++ l).
    by apply slice_app. }
  destruct (base.decide (fs = [])) as [Hfs0|Hfs0].
  - destruct (Hlast Hfs0) as (Hl&Hbody'&Hr0&Hf0). rewrite zlen_app, Hr0, zlen_tls_record, Z.add_0_r, Z.add_assoc.
    cbn [length]. rewrite Hf0. rewrite Hfs0 in Hmsg. cbn [concat] in Hmsg. rewrite app_nil_r in Hmsg.
    revert Hl Hbody'. rewrite Hmsg. unfold hello_message, be24. cbn [app]. intros Hl Hbody'.
    rewrite be24_lor by (unfold MAX_HELLO_BYTES in *; lia). cbn [negb Z.eqb Pos.eqb HANDSHAKE_CLIENT_HELLO].
    rewrite (proj2 (Z.ltb_ge _ _)), Hl, Z.ltb_irrefl by lia. by rewrite Hbody'.
  - specialize (Hnext Hfs0). specialize (Hshort Hfs0).
    destruct msg as [|s0 [|s1 [|s2 [|s3 msg]]]]; [exact Hnext..|].
    injection Hmsg as -> -> -> -> Hmsg. rewrite be24_lor by (unfold MAX_HELLO_BYTES in *; lia).
    cbn [negb Z.eqb Pos.eqb HANDSHAKE_CLIENT_HELLO].
    rewrite (proj2 (Z.ltb_ge _ _)), (proj2 (Z.ltb_lt _ _)) by lia. exact Hnext.
Qed.

(** ** Properties *)

(** However few or many bytes have arrived, peeking ends without a panic.
    It asks for more only below the cap of 16 KiB, and what it accepts are
    whole records it has read, at least 6 bytes each and within the cap,
    with a server name in the one form routes are keyed by. *)
Theorem peek_bounded buf :
  Forall is_byte buf →
  ∃ r, peek buf = Some r ∧
    match r with
    | Peek_NeedMore => zlen buf < MAX_HELLO_BYTES
    | Peek_Done h =>
      0 < he_consumed h ≤ zlen buf ∧ he_consumed h ≤ MAX_HELLO_BYTES
      ∧ 0 < he_records h ∧ 6 * he_records h ≤ he_consumed h
      ∧ (∀ name, he_sni h = Some name → canonical_name name)
    | Peek_NotTls => ∃ b, head buf = Some b ∧ b ≠ CONTENT_HANDSHAKE
    | Peek_Bad _ => True
    end.
Proof.
  intros Hb. destruct buf as [|b0 buf]; [by exists Peek_NeedMore|]. unfold peek.
  destruct (Z.eqb_spec b0 CONTENT_HANDSHAKE) as [->|Hne]; cbn [negb]; [|eexists; split; [done|by exists b0]].
  destruct (peek_loop_answer (S (length (CONTENT_HANDSHAKE :: buf))) (CONTENT_HANDSHAKE :: buf) 0 0 [])
    as (r&Hr&Hok); [done|done|pose proof (zlen_nonneg (CONTENT_HANDSHAKE :: buf)); lia|unfold zlen; lia|].
  exists r. split; [exact Hr|]. destruct r as [|h| |]; cbn in Hok |- *; [done| |done|done].
  destruct Hok as (?&?&?&?&body&Hbody). split_and!; [lia..|]. by apply (parse_body_ok body (he_sni h, he_alpn h)).
Qed.

(** The answer does not depend on how the bytes arrived: what is accepted
    (or not TLS) stays so, byte for byte, whatever follows, and what is
    refused stays refused. *)
Theorem peek_incremental buf more r :
  Forall is_byte (buf ++ more) → peek buf = Some r →
  ∃ r', peek (buf ++ more) = Some r' ∧ more_bytes r r'.
Proof.
  intros Hb. destruct buf as [|b0 buf]; cbn [app].
  { intros [= <-]. destruct (peek_bounded more Hb) as (r'&Hr'&_). by exists r'. }
  unfold peek. destruct (negb (b0 =? _)); [intros [= <-]; by exists Peek_NotTls|]. intros Hr.
  apply (peek_loop_more (S (length (b0 :: buf))) _ (b0 :: buf) more); [done| |done|done| |].
  - cbn [length]. rewrite length_app. lia.
  - pose proof (zlen_nonneg (b0 :: buf)). lia.
  - unfold zlen. cbn [app length]. lia.
Qed.

(** (C27) A ClientHello cut anywhere into records, and read in any pieces, is the
    same ClientHello: with all its records there the answer is what its body
    says, whatever follows; with any of their bytes missing, a hello that
    will be accepted only asks for more. *)
Theorem peek_fragmented v frags body tail :
  0 ≤ v ≤ 4 → fragments_ok frags → concat frags = hello_message body →
  zlen (tls_records v frags) ≤ MAX_HELLO_BYTES → Forall is_byte (tls_records v frags) →
  ∃ r, parse_body body = Some r
  ∧ peek (tls_records v frags ++ tail) = Some
      (match r with
       | Ok (sni, alpn) => Peek_Done (mk_Hello sni alpn (zlen (tls_records v frags)) (Z.of_nat (length frags)))
       | Err why => Peek_Bad why
       end)
  ∧ (∀ n, n < zlen (tls_records v frags) → (∃ p, r = Ok p) →
      peek (ztake n (tls_records v frags)) = Some Peek_NeedMore).
Proof.
  intros Hv Hfr Hmsg Hmax Hb. pose proof (zlen_nonneg body) as Hbody0.
  assert (zlen (concat frags) ≤ zlen (tls_records v frags) ∧ Z.of_nat (length frags) ≤ zlen (tls_records v frags)) as [Hcl Hfl].
  { clear -frags. unfold tls_records. induction frags as [|f fs IH]; [done|]. cbn [concat fmap list_fmap length].
    rewrite !zlen_app, zlen_tls_record. cbn [fmap list_fmap] in IH. pose proof (zlen_nonneg f). lia. }
  assert (zlen (concat frags) = 4 + zlen body) as Hlen
    by (rewrite Hmsg; unfold hello_message; rewrite zlen_cons, zlen_app; change (zlen (be24 _)) with 3; lia).
  assert (frags ≠ []) as Hne by (intros ->; cbn in Hlen; unfold zlen in Hlen; cbn in Hlen; lia).
  assert (∀ tl, peek (tls_records v frags ++ tl) = r ← parse_body body; Some
      (match r with
       | Ok (sni, alpn) => Peek_Done (mk_Hello sni alpn (zlen (tls_records v frags)) (Z.of_nat (length frags)))
       | Err why => Peek_Bad why
       end)) as Hpeek.
  { intros tl. assert (length frags ≤ S (length (tls_records v frags ++ tl)))%nat as Hfuel
      by (rewrite length_app; unfold zlen in Hfl; lia).
    pose proof (loop_fragments (S (length (tls_records v frags ++ tl))) v body frags [] 0 [] tl Hv
      ltac:(lia) Hfr Hne Hmsg Hmax Hfuel) as H. cbn [app] in H.
    destruct frags as [|f fs]; [done|]. rewrite tls_records_cons in *. unfold tls_record in *. cbn [app] in *.
    unfold peek. cbn [negb Z.eqb Pos.eqb CONTENT_HANDSHAKE]. exact H. }
  destruct (parse_body_total body) as [r Hr].
  { assert (Forall is_byte (concat frags)) as Hcb.
    { clear -Hb. unfold tls_records in Hb. induction frags as [|f fs IH]; [constructor|].
      cbn [concat fmap list_fmap] in *. apply Forall_app in Hb as [Hf Hb]. apply Forall_app. split; [|by apply IH].
      unfold tls_record in Hf. by apply Forall_app in Hf as [_ [_ Hf]%Forall_app]. }
    rewrite Hmsg in Hcb. unfold hello_message in Hcb. apply Forall_cons in Hcb as [_ Hcb].
    by apply Forall_app in Hcb as [_ Hcb]. }
  exists r. split; [done|]. split; [by rewrite Hpeek, Hr|]. intros n Hn [[sni alpn] ->].
  set (recs := tls_records v frags) in *. pose proof (Hpeek []) as Hfull. rewrite app_nil_r, Hr in Hfull.
  cbn [mbind option_bind] in Hfull.
  assert (ztake n recs ++ zdrop n recs = recs) as Hcut by apply take_drop. 
  assert (Forall is_byte (ztake n recs)) as Hbt by (by apply Forall_take).
  destruct (peek_bounded (ztake n recs) Hbt) as (r0&Hr0&Hok).
  destruct (peek_incremental (ztake n recs) (zdrop n recs) r0) as (r1&Hr1&Hmore); [by rewrite Hcut|done|].
  rewrite Hcut, Hfull in Hr1. injection Hr1 as <-. destruct r0 as [|h| |why]; [done|..]; cbn in Hmore, Hok.
  - injection Hmore as <-. cbn [he_consumed] in Hok. exfalso. destruct Hok as [Hok _].
    unfold ztake, zlen in *. rewrite length_take in Hok. lia.
  - done.
  - by destruct Hmore.
Qed.

(** Read what the rest starts with, by [u8_app], [u16_app] or [take_app]. *)
Ltac reads lem :=
  match goal with
  | Hc : cur_ok ?c, Hl : zdrop (cu_at ?c) (cu_b ?c) = _ |- _ =>
    let c' := fresh "c" in let Hr := fresh "Hr" in
    edestruct (lem c) as (c'&Hr&?&?&?); [exact Hc|exact Hl|]; rewrite Hr; cbn [try_]; clear Hc Hl Hr
  end.
Ltac takes n s :=
  match goal with
  | Hc : cur_ok ?c, Hl : zdrop (cu_at ?c) (cu_b ?c) = _ |- _ =>
    let c' := fresh "c" in let Hr := fresh "Hr" in
    destruct (take_app n c s _ Hc Hl) as (c'&Hr&?&?&?); [|rewrite Hr; cbn [try_]; clear Hc Hl Hr]
  end.

Lemma parse_server_name_one a3 b3 a0 b0 sni h :
  Forall is_byte ([a3; b3; 0; a0; b0] ++ sni) → host_name sni = Some h →
  of_be16 a3 b3 = zlen sni + 3 → of_be16 a0 b0 = zlen sni →
  parse_server_name ([a3; b3; 0; a0; b0] ++ sni) = Some (Ok (Some h)).
Proof.
  intros Hb Hh H3 H0. unfold parse_server_name. set (data := _ ++ sni) in *.
  pose proof (cur_start data Hb) as Hc. pose proof (zlen_nonneg sni).
  assert (zdrop (cu_at (mk_Cur data 0)) (cu_b (mk_Cur data 0)) = a3 :: b3 :: [0; a0; b0] ++ sni) as Hl by done.
  change (length data) with (S (4 + length sni)).   clearbody data. reads u16_app. rewrite H3.
  match goal with H : Cur_rest _ = _ |- _ => rewrite H end.
  rewrite zlen_app. change (zlen [0; a0; b0]) with 3. rewrite (proj2 (Z.eqb_eq _ (3 + _))) by lia.
  rewrite (proj2 (Z.eqb_neq _ 0)) by lia. cbn [negb orb server_names].
  match goal with H : Cur_rest _ = _ |- _ => rewrite H end.
  rewrite (proj2 (Z.ltb_lt _ _)) by (rewrite zlen_app; change (zlen [0; a0; b0]) with 3; lia).
  reads u8_app. reads u16_app. rewrite H0. match goal with H : zdrop _ _ = sni |- _ => rewrite <- (app_nil_r sni) in H end.
  takes (zlen sni) sni; [done|]. cbn [negb Z.eqb]. rewrite Hh. cbn [plus server_names].
  match goal with H : Cur_rest ?c = zlen [] |- context [Cur_rest ?c] => rewrite H end. done.
Qed.

(** The front's probe of a name is routed as that name. *)
Lemma parse_body_synthetic sni h :
  Forall is_byte sni → host_name sni = Some h →
  let n := zlen sni in
  let ext := [0x00; 0x00] ++ be16 (n + 5) ++ be16 (n + 3) ++ [0] ++ be16 n ++ sni in
  parse_body ([0x03; 0x03] ++ replicate 32 0x4b ++ [0] ++ [0x00; 0x02; 0x13; 0x01; 0x01; 0x00]
              ++ be16 (zlen ext) ++ ext) = Some (Ok (Some h, [])).
Proof.
  intros Hb Hh n ext. assert (1 ≤ n ≤ 253) as Hn.
  { unfold host_name in Hh. fold n in Hh. destruct (Z.eqb_spec n 0) as [|H0]; [done|].
    destruct (Z.ltb_spec 253 n); [done|]. pose proof (zlen_nonneg sni). unfold n in *. lia. }
  destruct (of_be16_be16 (n + 5)) as (a5&b5&E5&F5&A5&B5); [lia|].
  destruct (of_be16_be16 (n + 3)) as (a3&b3&E3&F3&A3&B3); [lia|].
  destruct (of_be16_be16 n) as (a0&b0&E0&F0&A0&B0); [lia|].
  assert (ext = [0; 0; a5; b5] ++ [a3; b3; 0; a0; b0] ++ sni) as Hext by (unfold ext; by rewrite E5, E3, E0).
  assert (zlen ext = n + 9) as Hel by (rewrite Hext, !zlen_app; unfold n, zlen; cbn; lia).
  destruct (of_be16_be16 (zlen ext)) as (ax&bx&Ex&Fx&Ax&Bx); [lia|]. rewrite Ex, Hext.
  set (body := [3; 3] ++ _).
  assert (Forall is_byte body) as Hbody.
  { unfold body. repeat (apply Forall_app; split); try done; repeat (constructor; [done || (unfold is_byte; lia)|]);
      try constructor; done. }
  unfold parse_body. pose proof (cur_start body Hbody) as Hc.
  assert (zdrop (cu_at (mk_Cur body 0)) (cu_b (mk_Cur body 0)) = body) as Hl by done.
  assert (∃ k, length body = S k) as [k Hk] by (unfold body; by eexists).
  rewrite Hk. unfold body in Hl at 3. clearbody body.
  reads u16_app. change (of_be16 3 3) with 771. cbn [negb andb Z.leb Z.compare Pos.compare Pos.compare_cont].
  takes 32 (replicate 32 75); [done|]. reads u8_app. change (32 <? 0) with false. cbv iota.
  takes 0 (@nil Z); [done|]. reads u16_app. change (of_be16 0 2) with 2. cbn [orb negb Z.ltb Z.compare Pos.compare Pos.compare_cont].
  change (2 mod 2 =? 0) with true. cbn [negb]. takes 2 [19; 1]; [done|]. reads u8_app. cbn [Z.ltb Z.compare Pos.compare Pos.compare_cont].
  takes 1 [0]; [done|]. assert (zlen ([0; 0; a5; b5] ++ [a3; b3; 0; a0; b0] ++ sni) = n + 9) as Hlext by (by rewrite <- Hext).
  match goal with H : Cur_rest ?c = zlen ([ax; bx] ++ _) |- context [Cur_rest ?c =? 0] =>
    rewrite H, zlen_app, Hlext; change (zlen [ax; bx]) with 2 end.
  rewrite (proj2 (Z.eqb_neq (2 + _) 0)) by lia. reads u16_app. rewrite Fx, Hel.
  match goal with H : Cur_rest ?c = _, Hc : cur_ok ?c |- _ => rewrite Hlext in H; rewrite H end.
  rewrite Z.eqb_refl. cbn [negb extensions].
  match goal with H : Cur_rest ?c = n + 9 |- context [0 <? Cur_rest ?c] => rewrite H end.
  rewrite (proj2 (Z.ltb_lt 0 _)) by lia. reads u16_app. reads u16_app. rewrite F5.
  match goal with H : zdrop _ _ = _ |- _ => rewrite <- (app_nil_r (_ ++ sni)) in H end.
  takes (n + 5) ([a3; b3; 0; a0; b0] ++ sni); [rewrite zlen_app; change (zlen [a3; b3; 0; a0; b0]) with 5; unfold n; lia|].
  cbn [mem_z existsb]. change (of_be16 0 0 =? EXT_SERVER_NAME) with true. cbv iota.
  rewrite (parse_server_name_one a3 b3 a0 b0 sni h); [|repeat (constructor; [done || (unfold is_byte; lia)|]); done|done|done|done].
  cbn [mbind option_bind try_ extensions].
  match goal with H : Cur_rest ?c = zlen [] |- context [Cur_rest ?c] => rewrite H end. done.
Qed.

Theorem synthetic_peeks sni h tail :
  Forall is_byte sni → host_name sni = Some h →
  peek (synthetic sni ++ tail) = Some (Peek_Done (mk_Hello (Some h) [] (zlen (synthetic sni)) 1)).
Proof.
  intros Hb Hh. assert (1 ≤ zlen sni ≤ 253) as Hn.
  { unfold host_name in Hh. destruct (Z.eqb_spec (zlen sni) 0); [done|].
    destruct (Z.ltb_spec 253 (zlen sni)); [done|]. pose proof (zlen_nonneg sni). lia. }
  pose proof (parse_body_synthetic sni h Hb Hh) as Hp. cbv zeta in Hp. unfold synthetic.
  set (ext := [0; 0] ++ _) in *. set (body := [3; 3] ++ _) in *.
  assert (zlen body = zlen sni + 52) as Hbl
    by (unfold body, ext; rewrite !zlen_app; change (zlen (replicate 32 75)) with 32; unfold zlen; cbn; lia).
  assert (zlen (hello_message body) = zlen body + 4) as Hml
    by (unfold hello_message; rewrite zlen_cons, zlen_app; change (zlen (be24 _)) with 3; lia).
  assert (tls_records 1 [hello_message body] = [CONTENT_HANDSHAKE; 3; 1] ++ be16 (zlen body + 4)
    ++ [HANDSHAKE_CLIENT_HELLO] ++ [Z.shiftr (zlen body) 16 mod 256; Z.shiftr (zlen body) 8 mod 256; zlen body mod 256]
    ++ body) as Heq.
  { unfold tls_records. cbn [fmap list_fmap concat]. rewrite app_nil_r. unfold tls_record. by rewrite Hml. }
  assert (zlen (tls_records 1 [hello_message body]) = zlen sni + 61) as Hrl
    by (unfold tls_records; cbn [fmap list_fmap concat]; rewrite app_nil_r, zlen_tls_record; lia).
  assert (fragments_ok [hello_message body]) as Hfr by (constructor; [unfold MAX_RECORD; lia|constructor]).
  rewrite <- Heq. destruct (tls_records 1 [hello_message body] ++ tail) as [|b0 buf] eqn:E; [by rewrite Heq in E|].
  assert (b0 = CONTENT_HANDSHAKE) as -> by (rewrite Heq in E; by injection E as <-).
  unfold peek. cbn [negb Z.eqb Pos.eqb CONTENT_HANDSHAKE]. rewrite <- E.
  etransitivity; [apply (loop_fragments _ 1 body [hello_message body] [] 0 [] tail);
    [lia| |done|done|apply app_nil_r| |cbn [length]; lia];
    [|change (zlen []) with 0]; unfold MAX_HELLO_BYTES; lia|]. by rewrite Hp.
Qed.

(** ** Record boundaries, for readers that parse less often *)

(** Where the complete record at [p] ends. *)
Definition next_record (buf : list Z) (p : Z) : option Z :=
  h ← slice buf p (p + 5);
  match h with
  | [h0; _; _; h3; h4] =>
    let len := of_be16 h3 h4 in
    if (h0 =? CONTENT_HANDSHAKE) && (1 <=? len) && (len <=? MAX_RECORD) && (p + 5 + len <=? zlen buf)
    then Some (p + 5 + len) else None
  | _ => None
  end.
Fixpoint walk (buf : list Z) (k : nat) (p : Z) : option Z :=
  match k with
  | O => Some p
  | S k => q ← next_record buf p; walk buf k q
  end.
Definition boundary (buf : list Z) (p : Z) : Prop := ∃ k, walk buf k 0 = Some p.

Lemma next_record_inv buf p q : next_record buf p = Some q → 0 ≤ p ∧ p + 6 ≤ q ≤ zlen buf.
Proof.
  unfold next_record. destruct (slice buf p (p + 5)) as [h|] eqn:Hs; [|done]. apply slice_Some in Hs as ([Hp _]&_).
  cbn [mbind option_bind]. destruct h as [|h0 [|h1 [|h2 [|h3 [|h4 [|]]]]]]; try done.
  destruct (Z.eqb_spec h0 CONTENT_HANDSHAKE), (Z.leb_spec 1 (of_be16 h3 h4)), (Z.leb_spec (of_be16 h3 h4) MAX_RECORD),
    (Z.leb_spec (p + 5 + of_be16 h3 h4) (zlen buf)); cbn [andb]; try done. intros [= <-]. lia.
Qed.

Lemma next_record_more buf more p q : next_record buf p = Some q → next_record (buf ++ more) p = Some q.
Proof.
  unfold next_record. destruct (slice buf p (p + 5)) as [h|] eqn:Hs; [|done].
  rewrite (slice_mono _ more _ _ _ Hs). cbn [mbind option_bind].
  destruct h as [|h0 [|h1 [|h2 [|h3 [|h4 [|]]]]]]; try done. rewrite zlen_app. pose proof (zlen_nonneg more).
  destruct (Z.leb_spec (p + 5 + of_be16 h3 h4) (zlen buf)); [|by rewrite andb_false_r].
  by rewrite (proj2 (Z.leb_le _ (zlen buf + zlen more))) by lia.
Qed.

Lemma walk_le buf k p q : walk buf k p = Some q → p ≤ q.
Proof.
  revert p. induction k as [|k IH]; intros p; cbn; [intros [= <-]; lia|].
  destruct (next_record buf p) as [r|] eqn:Hr; [|done]. apply next_record_inv in Hr. intros H%IH. lia.
Qed.
Lemma walk_inside buf k p q : walk buf k p = Some q → p ≤ zlen buf → q ≤ zlen buf.
Proof.
  revert p. induction k as [|k IH]; intros p; cbn; [by intros [= <-]|].
  destruct (next_record buf p) as [r|] eqn:Hr; [|done]. apply next_record_inv in Hr. intros H%IH; lia.
Qed.
Lemma walk_add buf j k p : walk buf (j + k) p = walk buf j p ≫= walk buf k.
Proof.
  revert p. induction j as [|j IH]; intros p; [done|]. cbn. destruct (next_record buf p); [apply IH|done].
Qed.
Lemma walk_more buf more k p q : walk buf k p = Some q → walk (buf ++ more) k p = Some q.
Proof.
  revert p. induction k as [|k IH]; intros p; cbn; [done|].
  destruct (next_record buf p) as [r|] eqn:Hr; [|done]. rewrite (next_record_more _ more _ _ Hr). apply IH.
Qed.

Lemma boundary_more buf more p : boundary buf p → boundary (buf ++ more) p.
Proof. intros [k Hk]. exists k. by apply walk_more. Qed.

(** The boundary without a complete record after it is the last one. *)
Lemma boundary_last buf b e : boundary buf b → boundary buf e → next_record buf e = None → b ≤ e.
Proof.
  intros [j Hj] [k Hk] Hnext. destruct (Nat.le_gt_cases j k) as [Hjk|Hjk].
  - replace k with (j + (k - j))%nat in Hk by lia. rewrite walk_add, Hj in Hk. cbn in Hk. by eapply walk_le.
  - replace j with (k + S (j - k - 1))%nat in Hj by lia. rewrite walk_add, Hk in Hj. cbn in Hj. by rewrite Hnext in Hj.
Qed.

(** One accepting turn of the loop reads one complete record. *)
Lemma peek_loop_walk fuel buf pos records hs h :
  peek_loop fuel buf pos records hs = Some (Peek_Done h) →
  ∃ q, next_record buf pos = Some q ∧ ∃ k, walk buf k q = Some (he_consumed h).
Proof.
  revert pos records hs. induction fuel as [|fuel IH]; intros pos records hs; [done|]. cbn [peek_loop].
  destruct (zlen buf <? pos + 5); [unfold more_or_cap; by destruct (_ <? _)|].
  unfold next_record. destruct (slice buf pos (pos + 5)) as [hd|]; [|done]. cbn [mbind option_bind].
  destruct hd as [|h0 [|h1 [|h2 [|h3 [|h4 [|]]]]]]; try done.
  destruct (Z.eqb_spec h0 CONTENT_HANDSHAKE); cbn [negb]; [|done]. destruct (_ || _); [done|].
  destruct (Z.eqb_spec (of_be16 h3 h4) 0); [done|]. destruct (Z.ltb_spec MAX_RECORD (of_be16 h3 h4)); [done|].
  set (end_ := pos + 5 + of_be16 h3 h4). destruct (_ <? end_); [done|].
  destruct (Z.ltb_spec (zlen buf) end_) as [|Hend]; [done|].
  destruct (slice buf (pos + 5) end_) as [part|] eqn:Hpart; [|done]. cbn [mbind option_bind].
  apply slice_Some in Hpart as ([_ Hlen]&_). intros Hdone. exists end_.
  rewrite (proj2 (Z.leb_le 1 _)), !(proj2 (Z.leb_le _ _)) by lia. split; [done|].
  remember (hs ++ part) as msg eqn:Hmsg. clear Hmsg.
  assert (peek_loop fuel buf end_ (records + 1) msg = Some (Peek_Done h) → ∃ k, walk buf k end_ = Some (he_consumed h))
    as Hnext by (intros (q&Hq&k&Hk)%IH; exists (S k); cbn; by rewrite Hq).
  destruct msg as [|s0 [|s1 [|s2 [|s3 msg]]]]; [by apply Hnext..|].
  destruct (negb _); [done|]. destruct (_ <? 4 + _); [done|]. destruct (_ <? 4 + _); [by apply Hnext|].
  destruct (slice _ 4 _); [|done]. cbn [mbind option_bind] in Hdone. destruct (parse_body _) as [[[]|]|]; [|done..].
  injection Hdone as <-. by exists 0%nat.
Qed.

Lemma slice_take {A} (l : list A) a b c : b ≤ c → c ≤ zlen l → slice (ztake c l) a b = slice l a b.
Proof.
  intros Hbc Hc. destruct (slice l a b) as [s|] eqn:Hs.
  - pose proof Hs as (Ha&Hb&_)%slice_Some. destruct (slice_is_Some (ztake c l) a b) as [s' Hs'];
      [lia|unfold ztake, zlen in *; rewrite length_take; lia|].
    pose proof (slice_mono _ (zdrop c l) _ _ _ Hs') as Hsm. unfold ztake, zdrop in Hsm. rewrite take_drop in Hsm. congruence.
  - destruct (slice (ztake c l) a b) as [s'|] eqn:Hs'; [|done].
    pose proof (slice_mono _ (zdrop c l) _ _ _ Hs') as Hsm. unfold ztake, zdrop in Hsm. rewrite take_drop in Hsm. congruence.
Qed.

(** What was accepted needs only the bytes it consumed. *)
Lemma peek_loop_consumed fuel fuel' buf pos records hs h c :
  peek_loop fuel buf pos records hs = Some (Peek_Done h) → he_consumed h = c →
  0 ≤ pos → c - pos < Z.of_nat fuel' → peek_loop fuel' (ztake c buf) pos records hs = Some (Peek_Done h).
Proof.
  intros H Hc. revert fuel' pos records hs H. induction fuel as [|fuel IH]; intros fuel' pos records hs H Hpos Hf; [done|].
  pose proof H as (q&Hq&k&Hk)%peek_loop_walk. rewrite Hc in Hk. apply next_record_inv in Hq as Hq'.
  pose proof (walk_le _ _ _ _ Hk) as Hqc. pose proof (walk_inside _ _ _ _ Hk ltac:(lia)) as Hcl.
  destruct fuel' as [|fuel']; [lia|]. revert H. cbn [peek_loop].
  assert (zlen (ztake c buf) = c) as Hzc by (unfold ztake, zlen in *; rewrite length_take; lia).
  rewrite Hzc. rewrite !(proj2 (Z.ltb_ge _ (pos + 5))) by lia. rewrite slice_take by lia.
  unfold next_record in Hq. destruct (slice buf pos (pos + 5)) as [hd|]; [|done]. cbn [mbind option_bind] in Hq |- *.
  destruct hd as [|h0 [|h1 [|h2 [|h3 [|h4 [|]]]]]]; try done.
  destruct (Z.eqb_spec h0 CONTENT_HANDSHAKE); cbn [andb] in Hq; [|done]. cbn [negb].
  destruct (Z.leb_spec 1 (of_be16 h3 h4)); [|done]. destruct (Z.leb_spec (of_be16 h3 h4) MAX_RECORD); [|done].
  destruct (Z.leb_spec (pos + 5 + of_be16 h3 h4) (zlen buf)); [|done]. injection Hq as <-.
  destruct (_ || _); [done|]. rewrite (proj2 (Z.eqb_neq _ 0)), (proj2 (Z.ltb_ge MAX_RECORD _)) by lia.
  set (end_ := pos + 5 + of_be16 h3 h4) in *. destruct (_ <? end_); [done|].
  rewrite !(proj2 (Z.ltb_ge _ end_)) by lia. rewrite slice_take by lia.
  destruct (slice buf (pos + 5) end_) as [part|]; [|done]. cbn [mbind option_bind].
  remember (hs ++ part) as msg eqn:Hmsg. clear Hmsg.
  assert (peek_loop fuel buf end_ (records + 1) msg = Some (Peek_Done h) →
    peek_loop fuel' (ztake c buf) end_ (records + 1) msg = Some (Peek_Done h)) as Hnext
    by (intros Hd; apply IH; [done|lia|lia]).
  destruct msg as [|s0 [|s1 [|s2 [|s3 msg]]]]; [exact Hnext..|].
  destruct (negb _); [done|]. destruct (_ <? 4 + _); [done|]. by destruct (_ <? 4 + _).
Qed.

Lemma peek_done_boundary buf h : peek buf = Some (Peek_Done h) → boundary buf (he_consumed h).
Proof.
  destruct buf as [|b0 buf]; [done|]. unfold peek. destruct (negb _); [done|].
  intros (q&Hq&k&Hk)%peek_loop_walk. exists (S k). cbn [walk]. by rewrite Hq.
Qed.

Lemma peek_consumed buf h : peek buf = Some (Peek_Done h) → peek (ztake (he_consumed h) buf) = Some (Peek_Done h).
Proof.
  intros H. pose proof H as Hb%peek_done_boundary. destruct buf as [|b0 buf]; [done|]. revert H.
  unfold peek at 1. destruct (negb (b0 =? CONTENT_HANDSHAKE)) eqn:Hb0; [done|]. intros H.
  pose proof H as (q&Hq&k&Hk)%peek_loop_walk. apply next_record_inv in Hq. apply walk_le in Hk as Hk'.
  pose proof (walk_inside _ _ _ _ Hk ltac:(lia)) as Hcl.
  pose proof (λ fuel' Hf, peek_loop_consumed _ fuel' _ 0 0 [] h _ H eq_refl ltac:(lia) Hf) as Hf.
  remember (he_consumed h) as c eqn:Hc. clear Hc H. destruct (ztake c (b0 :: buf)) as [|b1 l] eqn:E.
  { apply (f_equal length) in E. unfold ztake, zlen in *. rewrite length_take in E. cbn in E, Hcl. lia. }
  assert (b1 = b0) as ->.
  { unfold ztake in E. destruct (Z.to_nat c) eqn:Ec; [lia|]. cbn in E. by injection E. }
  unfold peek. rewrite Hb0. apply Hf. rewrite <- E. unfold ztake, zlen in *. rewrite length_take. cbn [length] in *. lia.
Qed.

(** ** Witnesses *)

(** The hello for [a.b], its message cut into two records. *)
Definition body_ab : list Z := zdrop 9 (synthetic [97; 46; 98]).
Definition frags_ab : list (list Z) := [ztake 30 (hello_message body_ab); zdrop 30 (hello_message body_ab)].

Lemma peek_fragmented_witness :
  zlen (tls_records 1 frags_ab) = 69
  ∧ peek (tls_records 1 frags_ab ++ [23]) = Some (Peek_Done (mk_Hello (Some [97; 46; 98]) [] 69 2)).
Proof.
  split; [vm_compute; reflexivity|].
  destruct (peek_fragmented 1 frags_ab body_ab [23]) as (r&Hr&Hp&_).
  - lia.
  - repeat (constructor; [vm_compute; split; discriminate|]). constructor.
  - vm_compute. reflexivity.
  - vm_compute. discriminate.
  - rewrite Forall_forall. intros b Hb%list_elem_of_In.
    assert (forallb (λ b, (0 <=? b) && (b <? 256)) (tls_records 1 frags_ab) = true) as Hc by (vm_compute; reflexivity).
    rewrite forallb_forall in Hc. apply Hc in Hb. rewrite andb_true_iff, Z.leb_le, Z.ltb_lt in Hb. exact Hb.
  - rewrite Hp. revert Hr. vm_compute. intros [= <-]. reflexivity.
Defined.

Lemma synthetic_peeks_witness :
  Forall is_byte [97; 46; 98] ∧ host_name [97; 46; 98] = Some [97; 46; 98]
  ∧ peek (synthetic [97; 46; 98] ++ [1]) = Some (Peek_Done (mk_Hello (Some [97; 46; 98]) [] 64 1)).
Proof.
  assert (Forall is_byte [97; 46; 98]) as Hb by (repeat constructor; done).
  split; [exact Hb|]. split; [vm_compute; reflexivity|].
  rewrite (synthetic_peeks [97; 46; 98] [97; 46; 98] [1] Hb ltac:(vm_compute; reflexivity)).
  vm_compute. reflexivity.
Defined.
