(* ===== verification/FrontDoor.v ===== *)
(** * FrontDoor: the front on port 443

    [crates/k2-daemon/src/front443/proxy_v2.rs], [routes.rs] and [server.rs],
    and the reader of the PROXY header in [client_ip.rs].  A connection's
    ClientHello is peeked at ([ClientHello]), its server name looked up in
    the route table, and everything read so far is written to a loopback
    backend, after a PROXY v2 header when the route wants one.

    The sockets are the sequences of what they read; a connection that is
    accepted, has said hello or has ended is a step of the [Front]'s state
    (its permits, its per-address hello slots, its counters). *)

From S2P Require Import Prelude Utf8 ClientHello.
Open Scope Z_scope.

(** ** Addresses ([std::net]): octets, most significant first *)

Inductive IpAddr := V4 (octets : list Z) | V6 (octets : list Z).
#[export] Instance ip_addr_eq_dec : EqDecision IpAddr.
Proof. solve_decision. Defined.
#[export] Instance ip_addr_countable : Countable IpAddr.
Proof.
  apply (inj_countable' (λ ip, match ip with V4 o => inl o | V6 o => inr o end)
    (λ x : list Z + list Z, match x with inl o => V4 o | inr o => V6 o end)).
  by intros [].
Defined.

Record SocketAddr := mk_SocketAddr { sa_ip : IpAddr; sa_port : Z }.
#[export] Instance socket_addr_eq_dec : EqDecision SocketAddr.
Proof. solve_decision. Defined.

Definition to_ipv4_mapped (o : list Z) : option (list Z) :=
  match o with
  | [0; 0; 0; 0; 0; 0; 0; 0; 0; 0; 255; 255; a; b; c; d] => Some [a; b; c; d]
  | _ => None
  end.
Definition to_ipv6_mapped (o : list Z) : list Z := replicate 10 0 ++ [255; 255] ++ o.

Definition is_loopback (ip : IpAddr) : bool :=
  match ip with
  | V4 (127 :: _) => true
  | V4 _ => false
  | V6 o => bool_decide (o = replicate 15 0 ++ [1])
  end.
Definition is_unspecified (ip : IpAddr) : bool :=
  match ip with
  | V4 o => bool_decide (o = replicate 4 0)
  | V6 o => bool_decide (o = replicate 16 0)
  end.
Definition is_multicast (ip : IpAddr) : bool :=
  match ip with
  | V4 (a :: _) => (224 <=? a) && (a <=? 239)
  | V6 (a :: _) => a =? 255
  | _ => false
  end.

(** ** The PROXY v2 header ([proxy_v2.rs]) *)

Definition SIGNATURE : list Z :=
  [0x0D; 0x0A; 0x0D; 0x0A; 0x00; 0x0D; 0x0A; 0x51; 0x55; 0x49; 0x54; 0x0A].
Definition VER_CMD_PROXY : Z := 0x21.
Definition VER_CMD_LOCAL : Z := 0x20.
Definition FAM_TCP4 : Z := 0x11.
Definition FAM_TCP6 : Z := 0x21.

Definition canonical (ip : IpAddr) : IpAddr :=
  match ip with
  | V6 v6 => match to_ipv4_mapped v6 with Some v4 => V4 v4 | None => V6 v6 end
  | v4 => v4
  end.
Definition as_v6 (ip : IpAddr) : list Z :=
  match ip with V4 v4 => to_ipv6_mapped v4 | V6 v6 => v6 end.

Definition header (src dst : SocketAddr) : list Z :=
  SIGNATURE ++ [VER_CMD_PROXY]
  ++ match canonical (sa_ip src), canonical (sa_ip dst) with
     | V4 s4, V4 d4 => [FAM_TCP4] ++ be16 12 ++ s4 ++ d4
     | s, d => [FAM_TCP6] ++ be16 36 ++ as_v6 s ++ as_v6 d
     end
  ++ be16 (sa_port src) ++ be16 (sa_port dst).

Definition local_header : list Z := SIGNATURE ++ [VER_CMD_LOCAL; 0x00] ++ be16 0.

Definition FIXED_LEN : Z := 16.
Definition MAX_BLOCK_LEN : Z := 512.

Inductive ProxyParsed :=
| Parsed_Tcp (src dst : SocketAddr)
| Parsed_Local
| Parsed_Other.

Inductive ParseError :=
| PE_Short
| PE_BadSignature
| PE_BadVersion (v : Z)
| PE_BadCommand (c : Z)
| PE_BadLength (family len : Z)
| PE_TooLong (n : Z).

Definition block_len (fixed : list Z) : option (Result Z ParseError) :=
  guard zlen fixed <? FIXED_LEN ret Some (Err PE_Short);
  sig ← slice fixed 0 12;
  guard negb (bool_decide (sig = SIGNATURE)) ret Some (Err PE_BadSignature);
  b12 ← fixed !! 12%nat;
  let ver := Z.shiftr b12 4 in
  guard negb (ver =? 2) ret Some (Err (PE_BadVersion ver));
  let cmd := Z.land b12 0x0F in
  guard 1 <? cmd ret Some (Err (PE_BadCommand cmd));
  b14 ← fixed !! 14%nat; b15 ← fixed !! 15%nat;
  let len := of_be16 b14 b15 in
  guard MAX_BLOCK_LEN <? len ret Some (Err (PE_TooLong len));
  Some (Ok len).

(** The closures of [parse]: a port and an address at an offset. *)
Definition port_at (block : list Z) (o : nat) : option Z :=
  a ← block !! o; b ← block !! S o; Some (of_be16 a b).
Definition ip4_at (block : list Z) (o : Z) : option IpAddr := V4 <$> slice block o (o + 4).
Definition ip6_at (block : list Z) (o : Z) : option IpAddr := V6 <$> slice block o (o + 16).

Definition family_need (family : Z) : Z :=
  if (family =? FAM_TCP4) || (family =? 0x12) then 12
  else if (family =? FAM_TCP6) || (family =? 0x22) then 36
  else if (family =? 0x31) || (family =? 0x32) then 216
  else 0.

Definition parse (buf : list Z) : option (Result (ProxyParsed * Z) ParseError) :=
  r ← block_len buf;
  match r with
  | Err e => Some (Err e)
  | Ok len =>
    let total := FIXED_LEN + len in
    guard zlen buf <? total ret Some (Err PE_Short);
    block ← slice buf FIXED_LEN total;
    b12 ← buf !! 12%nat;
    guard Z.land b12 0x0F =? 0 ret Some (Ok (Parsed_Local, total));
    family ← buf !! 13%nat;
    guard len <? family_need family ret Some (Err (PE_BadLength family len));
    if family =? FAM_TCP4 then
      src ← ip4_at block 0; sport ← port_at block 8;
      dst ← ip4_at block 4; dport ← port_at block 10;
      Some (Ok (Parsed_Tcp (mk_SocketAddr src sport) (mk_SocketAddr dst dport), total))
    else if family =? FAM_TCP6 then
      src ← ip6_at block 0; sport ← port_at block 32;
      dst ← ip6_at block 16; dport ← port_at block 34;
      Some (Ok (Parsed_Tcp (mk_SocketAddr src sport) (mk_SocketAddr dst dport), total))
    else Some (Ok (Parsed_Other, total))
  end.

(** ** Reading it ([client_ip.rs]) *)

Section preamble.
(** Whether an address is one of K2's own relays (a shared set). *)
Variable is_relay : IpAddr → bool.

Definition trusted_source (p : ProxyParsed) : option IpAddr :=
  match p with
  | Parsed_Tcp src _ =>
    let ip := canonical (sa_ip src) in
    if is_loopback ip || is_unspecified ip || is_multicast ip then None
    else if is_relay ip then None
    else Some ip
  | Parsed_Local | Parsed_Other => None
  end.

Inductive PreambleError := Pre_Closed | Pre_Read | Pre_Parse (e : ParseError).

(** [read_tunnel_preamble] on all the bytes the connection will ever have
    (no deadline): the client, and the bytes left to read.  The outer [None]
    is a panic. *)
Definition read_tunnel_preamble (peer : SocketAddr) (tcp : list Z)
    : option (Result (option IpAddr * list Z) PreambleError) :=
  guard negb (is_loopback (canonical (sa_ip peer))) ret Some (Ok (None, tcp));
  match tcp with
  | [] => Some (Err Pre_Closed)
  | b0 :: _ =>
    guard negb (b0 =? 0x0D) ret Some (Ok (None, tcp));
    guard zlen tcp <? FIXED_LEN ret Some (Err Pre_Read);
    let fixed := ztake FIXED_LEN tcp in
    r ← block_len fixed;
    match r with
    | Err e => Some (Err (Pre_Parse e))
    | Ok len =>
      guard zlen tcp <? FIXED_LEN + len ret Some (Err Pre_Read);
      p ← parse (ztake (FIXED_LEN + len) tcp);
      match p with
      | Err e => Some (Err (Pre_Parse e))
      | Ok (parsed, _) => Some (Ok (trusted_source parsed, zdrop (FIXED_LEN + len) tcp))
      end
    end
  end.
End preamble.

(** ** Routes ([routes.rs]) *)

Inductive Kind := Kind_Turn | Kind_Caddy | Kind_Stalwart | Kind_App | Kind_Passthrough.
#[export] Instance kind_eq_dec : EqDecision Kind.
Proof. solve_decision. Defined.

Definition Kind_as_str (k : Kind) : string :=
  match k with
  | Kind_Turn => "turn"
  | Kind_Caddy => "caddy"
  | Kind_Stalwart => "stalwart"
  | Kind_App => "app"
  | Kind_Passthrough => "passthrough"
  end.

Record Backend := mk_Backend {
  be_kind : Kind;
  be_addr : SocketAddr;
  be_proxy : bool;
  be_refuse_loopback_clients : bool
}.
#[export] Instance backend_eq_dec : EqDecision Backend.
Proof. solve_decision. Defined.

Record RouteTable := mk_RouteTable {
  rt_hosts : gmap (list Z) Backend;
  rt_default : option Backend
}.
Definition RouteTable_default : RouteTable := mk_RouteTable ∅ None.

(** A refused route (the messages are prose). *)
Inductive RouteError := RE_NotAHostName | RE_NotLoopback | RE_AlreadyRouted (cur : Backend) | RE_NotPassthrough.

Definition RouteTable_insert (t : RouteTable) (host : list Z) (b : Backend)
    : Result RouteTable RouteError :=
  match host_name (utf8_trim host) with
  | None => Err RE_NotAHostName
  | Some h =>
    guard negb (is_loopback (sa_ip (be_addr b))) ret Err RE_NotLoopback;
    match rt_hosts t !! h with
    | Some cur => if bool_decide (cur ≠ b) then Err (RE_AlreadyRouted cur) else Ok t
    | None => Ok (mk_RouteTable (<[h := b]> (rt_hosts t)) (rt_default t))
    end
  end.

Definition lookup_route (t : RouteTable) (sni : list Z) : option Backend :=
  opt_or (rt_hosts t !! sni) (rt_default t).

Definition route (t : RouteTable) (sni : list Z) (is_nested : list Z → bool) : option Backend :=
  match rt_hosts t !! sni with
  | Some b => Some b
  | None => if is_nested sni then None else rt_default t
  end.

Definition set_default (t : RouteTable) (b : Backend) : Result RouteTable RouteError :=
  guard negb (bool_decide (be_kind b = Kind_Passthrough)) ret Err RE_NotPassthrough;
  guard negb (is_loopback (sa_ip (be_addr b))) ret Err RE_NotLoopback;
  Ok (mk_RouteTable (rt_hosts t) (Some b)).

Definition CADDY_FRONT_PORT : Z := 38473.
Definition APP_DOOR_PORT : Z := 38474.

Definition fixed_backend (kind : Kind) : Backend :=
  let lo port := mk_SocketAddr (V4 [127; 0; 0; 1]) port in
  match kind with
  | Kind_Turn => mk_Backend kind (lo 5349) true false
  | Kind_Stalwart => mk_Backend kind (lo 8443) true true
  | Kind_Caddy => mk_Backend kind (lo CADDY_FRONT_PORT) false false
  | Kind_App => mk_Backend kind (lo APP_DOOR_PORT) true false
  | Kind_Passthrough => mk_Backend kind (lo 0) false false
  end.

(** The table in the order of its names ([BTreeMap]: byte order). *)
Fixpoint bytes_leb (a b : list Z) : bool :=
  match a, b with
  | [], _ => true
  | _ :: _, [] => false
  | x :: a, y :: b => if x =? y then bytes_leb a b else x <? y
  end.
Definition route_entries (t : RouteTable) : list (list Z * Backend) :=
  isort (λ x y, bytes_leb x.1 y.1) (map_to_list (rt_hosts t)).

Definition without_kind (t : RouteTable) (kind : Kind) : RouteTable :=
  mk_RouteTable (base.filter (λ hb : list Z * Backend, be_kind hb.2 ≠ kind) (rt_hosts t))
    (match rt_default t with
     | Some b => if bool_decide (be_kind b ≠ kind) then Some b else None
     | None => None
     end).

Definition same_as_fixed (b : Backend) : bool :=
  let f := fixed_backend (be_kind b) in
  bool_decide (be_addr b = be_addr f)
  && eqb (be_refuse_loopback_clients b) (be_refuse_loopback_clients f)
  && (bool_decide (be_kind b = Kind_Caddy) || eqb (be_proxy b) (be_proxy f)).

Definition fixed_backends_only (t : RouteTable) : RouteTable :=
  foldl (λ out '(h, b),
    if bool_decide (be_kind b = Kind_Passthrough) then out
    else if same_as_fixed b then
      match RouteTable_insert out h b with Ok out => out | Err _ => out end
    else out) RouteTable_default (route_entries t).

(** ** Reading the ClientHello ([server.rs]) *)

(** The complete records of [buf], walked on from the boundary [pos].  The
    outer [None] is a panic or a loop out of fuel. *)
Fixpoint records_loop (fuel : nat) (buf : list Z) (pos : Z) : option (option Z) :=
  match fuel with
  | O => None
  | S fuel =>
    if pos + 5 <=? zlen buf then
      h ← slice buf pos (pos + 5);
      match h with
      | [h0; _; _; h3; h4] =>
        let len := of_be16 h3 h4 in
        guard negb (h0 =? 0x16) || (len =? 0) || (16 * 1024 <? len) ret Some None;
        guard zlen buf <? pos + 5 + len ret Some (Some pos);
        records_loop fuel buf (pos + 5 + len)
      | _ => None
      end
    else Some (Some pos)
  end.
Definition complete_records (buf : list Z) (from : Z) : option (option Z) :=
  guard opt_is_some_and (λ b, negb (b =? 0x16)) (head buf) ret Some None;
  records_loop (S (length buf)) buf from.

Inductive Counter :=
| C_accepted | C_over_cap | C_live | C_turn | C_caddy | C_stalwart | C_app | C_passthrough
| C_unknown_sni | C_no_sni | C_not_tls | C_bad_hello | C_hello_timeout | C_closed_early
| C_loopback_refused | C_backend_failed | C_per_ip_refused.
#[export] Instance counter_eq_dec : EqDecision Counter.
Proof. solve_decision. Defined.

(** What one read of the socket gives: bytes, the deadline, or the end. *)
Inductive ReadEvent := Ev_Data (chunk : list Z) | Ev_Timeout | Ev_Closed.

Inductive HelloEnd :=
| HE_Done (buf : list Z) (h : Hello)
| HE_Closed (c : Counter)
| HE_Reading (buf : list Z).    (* the next read has not returned *)

(** One turn of the loop: the records walked, those last parsed, and the
    verdict.  The full parse runs only when a record completed. *)
Definition hello_turn (buf : list Z) (walked peeked : Z) : option (Z * Z * Peek) :=
  cr ← complete_records buf walked;
  let '(walked, full) :=
    match cr with
    | Some end_ => (end_, (peeked <? end_) || (MAX_HELLO_BYTES <=? zlen buf))
    | None => (walked, true)
    end in
  if full : bool then (verdict ← peek buf; Some (walked, walked, verdict))
  else Some (walked, peeked, Peek_NeedMore).

Fixpoint read_hello (evs : list ReadEvent) (buf : list Z) (walked peeked : Z) : option HelloEnd :=
  '(walked, peeked, verdict) ← hello_turn buf walked peeked;
  match verdict with
  | Peek_Done h => Some (HE_Done buf h)
  | Peek_NotTls => Some (HE_Closed C_not_tls)
  | Peek_Bad _ => Some (HE_Closed C_bad_hello)
  | Peek_NeedMore =>
    match evs with
    | [] => Some (HE_Reading buf)
    | Ev_Timeout :: _ => Some (HE_Closed C_hello_timeout)
    | Ev_Closed :: _ => Some (HE_Closed C_closed_early)
    | Ev_Data chunk :: evs => read_hello evs (buf ++ chunk) walked peeked
    end
  end.

(** ** Serving a connection ([server.rs]) *)

Inductive ServeEnd :=
| SE_Closed (c : Counter)
| SE_Piped (b : Backend) (first : list Z).    (* spliced, [first] written to the backend *)

Definition kind_counter (k : Kind) : Counter :=
  match k with
  | Kind_Turn => C_turn
  | Kind_Caddy => C_caddy
  | Kind_Stalwart => C_stalwart
  | Kind_App => C_app
  | Kind_Passthrough => C_passthrough
  end.

(** [serve] once the hello is read: [peer] and [local] are the ends of the
    client's connection, [connects] and [writes] whether the backend answers. *)
Definition serve_hello (table : RouteTable) (is_nested : list Z → bool) (peer local : SocketAddr)
    (connects writes : bool) (head : list Z) (hello : Hello) : ServeEnd :=
  let routed :=
    match he_sni hello with
    | Some sni =>
      match route table sni is_nested with Some b => Ok b | None => Err C_unknown_sni end
    | None => match rt_default table with Some b => Ok b | None => Err C_no_sni end
    end in
  match routed with
  | Err c => SE_Closed c
  | Ok b =>
    let client_ip := canonical (sa_ip peer) in
    guard be_refuse_loopback_clients b && is_loopback client_ip ret SE_Closed C_loopback_refused;
    guard negb connects ret SE_Closed C_backend_failed;
    let first := (if be_proxy b then header peer local else []) ++ head in
    guard negb writes ret SE_Closed C_backend_failed;
    SE_Piped b first
  end.

(** ** The front's permits, hello slots and counters *)

Definition HELLO_PER_IP : Z := 32.
Definition CAP_FLOOR : Z := 256.
Definition CAP_CEILING : Z := 16384.

Record Front := mk_Front {
  fr_cap : Z;
  fr_hello_per_ip : Z;
  fr_permits : Z;               (* the semaphore: permits left *)
  fr_hellos : gmap IpAddr Z;    (* connections in the ClientHello phase *)
  fr_counters : Counter → Z
}.

Definition Front_new (cap hello_per_ip : Z) : Front := mk_Front cap hello_per_ip cap ∅ (λ _, 0).

Definition add_counter (n : Z) (c : Counter) (f : Front) : Front :=
  mk_Front (fr_cap f) (fr_hello_per_ip f) (fr_permits f) (fr_hellos f)
    (λ x, if bool_decide (x = c) then u64 (fr_counters f x + n) else fr_counters f x).
Definition bump : Counter → Front → Front := add_counter 1.
Definition set_permits (n : Z) (f : Front) : Front :=
  mk_Front (fr_cap f) (fr_hello_per_ip f) n (fr_hellos f) (fr_counters f).
Definition set_hellos (m : gmap IpAddr Z) (f : Front) : Front :=
  mk_Front (fr_cap f) (fr_hello_per_ip f) (fr_permits f) m (fr_counters f).

(** [entry(ip).or_insert(0)] stays when the slot is refused. *)
Definition hello_slot (f : Front) (ip : IpAddr) : Front * bool :=
  let n := default 0 (fr_hellos f !! ip) in
  if fr_hello_per_ip f <=? n then (set_hellos (<[ip := n]> (fr_hellos f)) f, false)
  else (set_hellos (<[ip := n + 1]> (fr_hellos f)) f, true).

Definition drop_slot (f : Front) (ip : IpAddr) : Front :=
  match fr_hellos f !! ip with
  | Some n =>
    let n := n - 1 in
    if n =? 0 then set_hellos (delete ip (fr_hellos f)) f
    else set_hellos (<[ip := n]> (fr_hellos f)) f
  | None => f
  end.

(** One accepted connection in [accept_loop]: [detaches] is whether the
    socket leaves the runtime; [true] when it was spawned. *)
Definition accept_one (f : Front) (peer : SocketAddr) (detaches : bool) : Front * bool :=
  let f := bump C_accepted f in
  if fr_permits f <=? 0 then (bump C_over_cap f, false)
  else
    let f := set_permits (fr_permits f - 1) f in
    let ip := canonical (sa_ip peer) in
    let '(f, got) := hello_slot f ip in
    if negb got then (set_permits (fr_permits f + 1) (bump C_per_ip_refused f), false)
    else if negb detaches then (set_permits (fr_permits f + 1) (drop_slot f ip), false)
    else (f, true).

(** Where a spawned connection stands. *)
Inductive ConnPhase := P_Spawned | P_Hello | P_Served.
Record Conn := mk_Conn { cn_ip : IpAddr; cn_phase : ConnPhase }.

(** The counters a served connection may end in. *)
Definition outcome (c : Counter) : bool :=
  match c with C_accepted | C_over_cap | C_live | C_per_ip_refused => false | _ => true end.

(** The steps of the front: accept; a spawned connection starts ([live]);
    its outcome is counted, while its hello is read or after; the hello ends
    ([serve]'s [drop(slot)]); the connection ends.  (That a spawned socket
    cannot be attached to the runtime is left out.) *)
Inductive front_step : Front * list Conn → Front * list Conn → Prop :=
| step_accept f cs peer detaches f' :
    accept_one f peer detaches = (f', true) →
    front_step (f, cs) (f', mk_Conn (canonical (sa_ip peer)) P_Spawned :: cs)
| step_refuse f cs peer detaches f' :
    accept_one f peer detaches = (f', false) → front_step (f, cs) (f', cs)
| step_start f cs1 ip cs2 :
    front_step (f, cs1 ++ mk_Conn ip P_Spawned :: cs2)
      (bump C_live f, cs1 ++ mk_Conn ip P_Hello :: cs2)
| step_count f cs c k :
    c ∈ cs → cn_phase c ≠ P_Spawned → outcome k = true → front_step (f, cs) (bump k f, cs)
| step_hello f cs1 ip cs2 :
    front_step (f, cs1 ++ mk_Conn ip P_Hello :: cs2) (drop_slot f ip, cs1 ++ mk_Conn ip P_Served :: cs2)
| step_end f cs1 ip cs2 :
    front_step (f, cs1 ++ mk_Conn ip P_Served :: cs2)
      (set_permits (fr_permits f + 1) (add_counter (-1) C_live f), cs1 ++ cs2).

(** ** Lemmas: PROXY v2 *)

Definition ip_ok (ip : IpAddr) : Prop :=
  match ip with
  | V4 o => length o = 4%nat ∧ Forall is_byte o
  | V6 o => length o = 16%nat ∧ Forall is_byte o
  end.
Definition addr_ok (a : SocketAddr) : Prop := ip_ok (sa_ip a) ∧ 0 ≤ sa_port a < 2 ^ 16.

Lemma length_four {A} (l : list A) : length l = 4%nat → ∃ a b c d, l = [a; b; c; d].
Proof. destruct l as [|? [|? [|? [|? [|]]]]]; try done. intros _. by eexists _, _, _, _. Qed.

Lemma mapped_Some o v : to_ipv4_mapped o = Some v → o = to_ipv6_mapped v ∧ length v = 4%nat.
Proof.
  unfold to_ipv4_mapped. intros H.
  repeat match type of H with
  | match ?x with _ => _ end = _ => destruct x; try discriminate H
  end. injection H as <-. done.
Qed.

Lemma canonical_ok ip : ip_ok ip → ip_ok (canonical ip).
Proof.
  destruct ip as [o|o]; cbn; [done|]. intros [Hl Hb]. destruct (to_ipv4_mapped o) as [v|] eqn:E; [|done].
  apply mapped_Some in E as [-> Hv]. split; [done|]. by do 2 apply Forall_app in Hb as [_ Hb].
Qed.
Lemma as_v6_length ip : ip_ok ip → length (as_v6 ip) = 16%nat.
Proof. destruct ip as [o|o]; cbn; intros [H _]; rewrite ?H; done. Qed.

(** The address a reader of [header] gets. *)
Definition sent_addr (other : IpAddr) (a : SocketAddr) : SocketAddr :=
  match canonical (sa_ip a), canonical other with
  | V4 o, V4 _ => mk_SocketAddr (V4 o) (sa_port a)
  | ip, _ => mk_SocketAddr (V6 (as_v6 ip)) (sa_port a)
  end.

Lemma canonical_sent other a : ip_ok (sa_ip a) → canonical (sa_ip (sent_addr other a)) = canonical (sa_ip a).
Proof.
  intros Hok%canonical_ok. unfold sent_addr. destruct (canonical (sa_ip a)) as [o|o] eqn:E.
  - destruct (canonical other); [done|]. cbn. destruct Hok as [(x&y&z&w&->)%length_four _]. done.
  - cbn. destruct (sa_ip a) as [u|u] eqn:Eu; cbn in E; [done|].
    destruct (to_ipv4_mapped u) eqn:Em; [done|]. injection E as ->. by rewrite Em.
Qed.

Lemma proxy_prefix fam a b rest :
  zlen (SIGNATURE ++ [VER_CMD_PROXY; fam; a; b] ++ rest) = 16 + zlen rest.
Proof. rewrite !zlen_app. change (zlen SIGNATURE) with 12. change (zlen [_; fam; a; b]) with 4. lia. Qed.

Lemma block_len_prefix fam a b rest :
  of_be16 a b ≤ MAX_BLOCK_LEN →
  block_len (SIGNATURE ++ [VER_CMD_PROXY; fam; a; b] ++ rest) = Some (Ok (of_be16 a b)).
Proof.
  intros Hl. unfold block_len. rewrite proxy_prefix. pose proof (zlen_nonneg rest).
  rewrite (proj2 (Z.ltb_ge _ FIXED_LEN)) by (unfold FIXED_LEN; lia).
  assert (slice (SIGNATURE ++ [VER_CMD_PROXY; fam; a; b] ++ rest) 0 12 = Some SIGNATURE) as -> by by apply (slice_app []).
  cbn [mbind option_bind]. rewrite bool_decide_eq_true_2 by done. cbn [negb].
  change ((SIGNATURE ++ [VER_CMD_PROXY; fam; a; b] ++ rest) !! 12%nat) with (Some VER_CMD_PROXY).
  change ((SIGNATURE ++ [VER_CMD_PROXY; fam; a; b] ++ rest) !! 14%nat) with (Some a).
  change ((SIGNATURE ++ [VER_CMD_PROXY; fam; a; b] ++ rest) !! 15%nat) with (Some b).
  cbn [mbind option_bind]. change (Z.shiftr VER_CMD_PROXY 4 =? 2) with true.
  change (1 <? Z.land VER_CMD_PROXY 15) with false. cbn [negb].
  by rewrite (proj2 (Z.ltb_ge _ _)) by done.
Qed.

(** The whole header is there: the block decides. *)
Lemma parse_prefix fam a b block tail :
  of_be16 a b = zlen block → zlen block ≤ MAX_BLOCK_LEN → family_need fam ≤ zlen block →
  parse (SIGNATURE ++ [VER_CMD_PROXY; fam; a; b] ++ block ++ tail) =
    if fam =? FAM_TCP4 then
      src ← ip4_at block 0; sport ← port_at block 8;
      dst ← ip4_at block 4; dport ← port_at block 10;
      Some (Ok (Parsed_Tcp (mk_SocketAddr src sport) (mk_SocketAddr dst dport), FIXED_LEN + zlen block))
    else if fam =? FAM_TCP6 then
      src ← ip6_at block 0; sport ← port_at block 32;
      dst ← ip6_at block 16; dport ← port_at block 34;
      Some (Ok (Parsed_Tcp (mk_SocketAddr src sport) (mk_SocketAddr dst dport), FIXED_LEN + zlen block))
    else Some (Ok (Parsed_Other, FIXED_LEN + zlen block)).
Proof.
  intros Hab Hmax Hneed. unfold parse. rewrite block_len_prefix by lia. cbn [mbind option_bind]. rewrite Hab.
  rewrite proxy_prefix, zlen_app. pose proof (zlen_nonneg tail). unfold FIXED_LEN.
  rewrite (proj2 (Z.ltb_ge _ _)) by lia.
  assert (slice (SIGNATURE ++ [VER_CMD_PROXY; fam; a; b] ++ block ++ tail) 16 (16 + zlen block) = Some block) as ->
    by (rewrite (app_assoc SIGNATURE); by apply slice_app).
  change ((SIGNATURE ++ [VER_CMD_PROXY; fam; a; b] ++ block ++ tail) !! 12%nat) with (Some VER_CMD_PROXY).
  change ((SIGNATURE ++ [VER_CMD_PROXY; fam; a; b] ++ block ++ tail) !! 13%nat) with (Some fam).
  cbn [mbind option_bind]. change (Z.land VER_CMD_PROXY 15 =? 0) with false. cbv iota.
  by rewrite (proj2 (Z.ltb_ge _ _)) by done.
Qed.

Lemma port_bytes p : 0 ≤ p < 2 ^ 16 → ∃ a b, be16 p = [a; b] ∧ of_be16 a b = p.
Proof. intros H. destruct (of_be16_be16 p H) as (a&b&?&?&_). by exists a, b. Qed.

Lemma parse_tcp4 s d sp dp tail :
  length s = 4%nat → length d = 4%nat → 0 ≤ sp < 2 ^ 16 → 0 ≤ dp < 2 ^ 16 →
  parse (SIGNATURE ++ [VER_CMD_PROXY; FAM_TCP4; 0; 12] ++ (s ++ d ++ be16 sp ++ be16 dp) ++ tail)
  = Some (Ok (Parsed_Tcp (mk_SocketAddr (V4 s) sp) (mk_SocketAddr (V4 d) dp), 28)).
Proof.
  intros (s0&s1&s2&s3&->)%length_four (d0&d1&d2&d3&->)%length_four (a&b&->&Hp)%port_bytes (a'&b'&->&Hp')%port_bytes.
  rewrite parse_prefix by done. cbn [app]. rewrite <- Hp, <- Hp'. reflexivity.
Qed.

Lemma parse_tcp6 s d sp dp tail :
  length s = 16%nat → length d = 16%nat → 0 ≤ sp < 2 ^ 16 → 0 ≤ dp < 2 ^ 16 →
  parse (SIGNATURE ++ [VER_CMD_PROXY; FAM_TCP6; 0; 36] ++ (s ++ d ++ be16 sp ++ be16 dp) ++ tail)
  = Some (Ok (Parsed_Tcp (mk_SocketAddr (V6 s) sp) (mk_SocketAddr (V6 d) dp), 52)).
Proof.
  intros Hs Hd (a&b&->&Hp)%port_bytes (a'&b'&->&Hp')%port_bytes.
  assert (zlen (s ++ d ++ [a; b] ++ [a'; b']) = 36) as Hl
    by (rewrite !zlen_app; unfold zlen; rewrite Hs, Hd; done).
  rewrite parse_prefix by (rewrite Hl; done). rewrite Hl.
  change (FAM_TCP6 =? FAM_TCP4) with false. change (FAM_TCP6 =? FAM_TCP6) with true. cbv iota.
  assert (zlen s = 16 ∧ zlen d = 16) as [Zs Zd] by (unfold zlen; by rewrite Hs, Hd).
  unfold ip6_at. assert (slice (s ++ d ++ [a; b] ++ [a'; b']) 0 (0 + 16) = Some s) as ->
    by (apply (slice_app []); rewrite ?Zs; done).
  rewrite (slice_app s d _ 16 (16 + 16)) by (rewrite ?Zs, ?Zd; done).
  cbn [fmap option_fmap option_map mbind option_bind]. unfold port_at.
  rewrite !(lookup_app_r s), !(lookup_app_r d) by lia. rewrite Hs, Hd. cbn. by rewrite Hp, Hp'.
Qed.

Lemma parse_header src dst tail :
  addr_ok src → addr_ok dst →
  parse (header src dst ++ tail)
  = Some (Ok (Parsed_Tcp (sent_addr (sa_ip dst) src) (sent_addr (sa_ip src) dst), zlen (header src dst))).
Proof.
  intros [Hs Hsp] [Hd Hdp]. apply canonical_ok in Hs, Hd. unfold header, sent_addr.
  assert (∀ s d, length (as_v6 s) = 16%nat → length (as_v6 d) = 16%nat →
    let h := SIGNATURE ++ [VER_CMD_PROXY] ++ ([FAM_TCP6] ++ be16 36 ++ as_v6 s ++ as_v6 d)
             ++ be16 (sa_port src) ++ be16 (sa_port dst) in
    parse (h ++ tail) = Some (Ok (Parsed_Tcp (mk_SocketAddr (V6 (as_v6 s)) (sa_port src))
                                   (mk_SocketAddr (V6 (as_v6 d)) (sa_port dst)), zlen h))) as H6.
  { intros s d Ls Ld h. assert (zlen h = 52) as ->
      by (unfold h; rewrite !zlen_app; unfold zlen; rewrite Ls, Ld; done).
    unfold h. rewrite <- (parse_tcp6 _ _ _ _ tail Ls Ld Hsp Hdp), <- !app_assoc. done. }
  destruct (canonical (sa_ip src)) as [s|s], (canonical (sa_ip dst)) as [d|d];
    [|apply (H6 (V4 s) (V6 d))|apply (H6 (V6 s) (V4 d))|apply (H6 (V6 s) (V6 d))]; try by apply as_v6_length.
  rewrite <- !app_assoc. change (be16 12) with [0; 12]. cbn [app].
  pose proof (parse_tcp4 _ _ _ _ tail (proj1 Hs) (proj1 Hd) Hsp Hdp) as H. rewrite <- !app_assoc in H. cbn [app] in H.
  rewrite H. do 3 f_equal. rewrite !zlen_app, !zlen_cons, !zlen_app. unfold zlen. by rewrite (proj1 Hs), (proj1 Hd).
Qed.

Lemma header_form src dst :
  addr_ok src → addr_ok dst →
  ∃ fam a b block, header src dst = SIGNATURE ++ [VER_CMD_PROXY; fam; a; b] ++ block
    ∧ of_be16 a b = zlen block ∧ zlen block ≤ MAX_BLOCK_LEN.
Proof.
  intros [Hs _] [Hd _]. apply canonical_ok in Hs, Hd. unfold header.
  assert (∀ s d, length (as_v6 s) = 16%nat → length (as_v6 d) = 16%nat → ∃ fam a b block,
    SIGNATURE ++ [VER_CMD_PROXY] ++ ([FAM_TCP6] ++ be16 36 ++ as_v6 s ++ as_v6 d)
      ++ be16 (sa_port src) ++ be16 (sa_port dst) = SIGNATURE ++ [VER_CMD_PROXY; fam; a; b] ++ block
    ∧ of_be16 a b = zlen block ∧ zlen block ≤ MAX_BLOCK_LEN) as H6.
  { intros s d Ls Ld. exists FAM_TCP6, 0, 36, (as_v6 s ++ as_v6 d ++ be16 (sa_port src) ++ be16 (sa_port dst)).
    split; [by rewrite <- !app_assoc|]. rewrite !zlen_app. unfold zlen. by rewrite Ls, Ld. }
  destruct (canonical (sa_ip src)) as [s|s], (canonical (sa_ip dst)) as [d|d];
    [|apply (H6 (V4 s) (V6 d))|apply (H6 (V6 s) (V4 d))|apply (H6 (V6 s) (V6 d))]; try by apply as_v6_length.
  exists FAM_TCP4, 0, 12, (s ++ d ++ be16 (sa_port src) ++ be16 (sa_port dst)).
  split; [by rewrite <- !app_assoc|]. rewrite !zlen_app. unfold zlen. by rewrite (proj1 Hs), (proj1 Hd).
Qed.

Lemma ztake_app {A} (l k : list A) n : n = zlen l → ztake n (l ++ k) = l.
Proof. intros ->. unfold ztake, zlen. rewrite Nat2Z.id. apply take_app_length. Qed.
Lemma zdrop_app_len {A} (l k : list A) n : n = zlen l → zdrop n (l ++ k) = k.
Proof. intros ->. unfold zdrop, zlen. rewrite Nat2Z.id. apply drop_app_length. Qed.

(** *** No panic, and nothing beyond the block is looked at *)

Lemma lookup_zlen {A} (l : list A) (i : nat) : Z.of_nat i < zlen l → ∃ x, l !! i = Some x.
Proof. unfold zlen. intros H. apply lookup_lt_is_Some. lia. Qed.

Lemma block_len_total fixed :
  Forall is_byte fixed → ∃ r, block_len fixed = Some r ∧ ∀ n, r = Ok n → 0 ≤ n ≤ MAX_BLOCK_LEN ∧ FIXED_LEN ≤ zlen fixed.
Proof.
  intros Hb. unfold block_len, FIXED_LEN. destruct (Z.ltb_spec (zlen fixed) 16); [by eexists|].
  destruct (slice_is_Some fixed 0 12) as [sig ->]; [lia|lia|]. cbn [mbind option_bind].
  destruct (negb _); [by eexists|].
  destruct (lookup_zlen fixed 12) as [b12 ->]; [lia|]. destruct (lookup_zlen fixed 14) as [b14 H14]; [lia|].
  destruct (lookup_zlen fixed 15) as [b15 H15]; [lia|]. rewrite H14, H15. cbn [mbind option_bind].
  destruct (negb _); [by eexists|]. destruct (1 <? _); [by eexists|].
  rewrite Forall_lookup in Hb. pose proof (Hb _ _ H14). pose proof (Hb _ _ H15). unfold is_byte, of_be16 in *.
  destruct (Z.ltb_spec MAX_BLOCK_LEN (b14 * 256 + b15)); [by eexists|]. eexists. split; [done|]. intros n [= <-]. lia.
Qed.

Lemma ip_at_total block o :
  0 ≤ o → (o + 4 ≤ zlen block → ∃ ip, ip4_at block o = Some ip) ∧ (o + 16 ≤ zlen block → ∃ ip, ip6_at block o = Some ip).
Proof.
  intros Ho. unfold ip4_at, ip6_at.
  split; intros Hl; [destruct (slice_is_Some block o (o + 4)) as [s ->]|destruct (slice_is_Some block o (o + 16)) as [s ->]];
    try lia; by eexists.
Qed.
Lemma port_at_total block o : Z.of_nat o + 2 ≤ zlen block → ∃ p, port_at block o = Some p.
Proof.
  intros Hl. unfold port_at. destruct (lookup_zlen block o) as [a ->]; [lia|].
  destruct (lookup_zlen block (S o)) as [b ->]; [lia|]. by eexists.
Qed.

Lemma parse_total buf :
  Forall is_byte buf → ∃ r, parse buf = Some r ∧ ∀ p n, r = Ok (p, n) → FIXED_LEN ≤ n ≤ zlen buf ∧ n ≤ FIXED_LEN + MAX_BLOCK_LEN.
Proof.
  intros Hb. unfold parse. destruct (block_len_total buf Hb) as (r&->&Hr). cbn [mbind option_bind].
  destruct r as [len|e]; [|by eexists]. destruct (Hr len eq_refl) as [Hlen Hfix].
  destruct (Z.ltb_spec (zlen buf) (FIXED_LEN + len)) as [|Htot]; [by eexists|]. unfold FIXED_LEN in *.
  destruct (slice_is_Some buf 16 (16 + len)) as [block Hbl]; [lia|lia|]. rewrite Hbl.
  apply slice_Some in Hbl as (_&_&Hzb&_). assert (zlen block = len) as Hz by lia. clear Hzb.
  destruct (lookup_zlen buf 12) as [b12 ->]; [lia|]. destruct (lookup_zlen buf 13) as [fam ->]; [lia|].
  cbn [mbind option_bind].
  destruct (_ =? 0); [eexists; split; [done|]; intros p n [= _ <-]; lia|].
  destruct (Z.ltb_spec len (family_need fam)) as [|Hneed]; [by eexists|]. unfold family_need in Hneed.
  destruct (Z.eqb_spec fam FAM_TCP4) as [Heq|H4].
  { assert (12 ≤ len) by (rewrite Heq in Hneed; change (12 ≤ len) in Hneed; lia).
    destruct (proj1 (ip_at_total block 0 ltac:(lia)) ltac:(lia)) as [s ->], (port_at_total block 8 ltac:(lia)) as [sp ->],
      (proj1 (ip_at_total block 4 ltac:(lia)) ltac:(lia)) as [d ->], (port_at_total block 10 ltac:(lia)) as [dp ->].
    eexists. split; [done|]. intros p n [= _ <-]. lia. }
  destruct (Z.eqb_spec fam FAM_TCP6) as [Heq|H6].
  { assert (36 ≤ len) by (rewrite Heq in Hneed; change (36 ≤ len) in Hneed; lia).
    destruct (proj2 (ip_at_total block 0 ltac:(lia)) ltac:(lia)) as [s ->], (port_at_total block 32 ltac:(lia)) as [sp ->],
      (proj2 (ip_at_total block 16 ltac:(lia)) ltac:(lia)) as [d ->], (port_at_total block 34 ltac:(lia)) as [dp ->].
    eexists. split; [done|]. intros p n [= _ <-]. lia. }
  eexists. split; [done|]. intros p n [= _ <-]. lia.
Qed.

Lemma preamble_reads_header is_relay peer src dst tail :
  addr_ok src → addr_ok dst → is_loopback (canonical (sa_ip peer)) = true →
  read_tunnel_preamble is_relay peer (header src dst ++ tail)
    = let ip := canonical (sa_ip src) in
      Some (Ok (if is_loopback ip || is_unspecified ip || is_multicast ip || is_relay ip then None else Some ip, tail)).
Proof.
  intros Hs Hd Hpeer.
  pose proof (parse_header src dst [] Hs Hd) as Hp. rewrite app_nil_r in Hp.
  destruct (header_form src dst Hs Hd) as (fam&a&b&block&Hform&Hab&Hmax).
  assert (zlen (header src dst) = 16 + zlen block) as Hlen by (rewrite Hform; apply proxy_prefix).
  pose proof (zlen_nonneg block). pose proof (zlen_nonneg tail).
  unfold read_tunnel_preamble. rewrite Hpeer. cbn [negb].
  destruct (header src dst ++ tail) as [|b0 l] eqn:E; [by rewrite Hform in E|].
  assert (b0 = 13) as -> by (rewrite Hform in E; by injection E as <-). cbn [negb Z.eqb Pos.eqb].
  rewrite <- E. unfold FIXED_LEN. rewrite zlen_app. rewrite (proj2 (Z.ltb_ge _ _)) by lia.
  assert (ztake 16 (header src dst ++ tail) = SIGNATURE ++ [VER_CMD_PROXY; fam; a; b] ++ []) as ->.
  { rewrite Hform, <- !app_assoc. by rewrite (app_assoc SIGNATURE), ztake_app. }
  rewrite block_len_prefix by lia. cbn [mbind option_bind]. rewrite Hab.
  rewrite (proj2 (Z.ltb_ge _ _)) by lia. rewrite ztake_app, zdrop_app_len, Hp by lia. cbn [mbind option_bind].
  unfold trusted_source. rewrite canonical_sent by apply Hs.
  set (ip := canonical (sa_ip src)). by destruct (is_loopback ip), (is_unspecified ip), (is_multicast ip), (is_relay ip).
Qed.

(** ** Properties: PROXY v2 *)

(** (C31) What [header] writes is read back, whatever bytes follow: [parse] gives
    both ends in one family (IPv4 when both have an IPv4 form, else IPv6)
    with their ports; the tunnel's reader takes exactly the header off the
    connection and, from a local peer, gets the client's own address, unless
    that is loopback, unspecified, multicast or a relay. *)
Theorem proxy_roundtrip is_relay peer src dst tail :
  addr_ok src → addr_ok dst → is_loopback (canonical (sa_ip peer)) = true →
  parse (header src dst ++ tail)
  = Some (Ok (Parsed_Tcp (sent_addr (sa_ip dst) src) (sent_addr (sa_ip src) dst), zlen (header src dst)))
  ∧ read_tunnel_preamble is_relay peer (header src dst ++ tail)
    = let ip := canonical (sa_ip src) in
      Some (Ok (if is_loopback ip || is_unspecified ip || is_multicast ip || is_relay ip then None else Some ip, tail)).
Proof. intros Hs Hd Hpeer. split; [by apply parse_header|by apply preamble_reads_header]. Qed.

(** Whatever a local peer sends instead, reading it neither panics nor takes
    more than the longest header off the connection. *)
Theorem preamble_bounded is_relay peer tcp :
  Forall is_byte tcp →
  ∃ r, read_tunnel_preamble is_relay peer tcp = Some r
  ∧ ∀ ip left_, r = Ok (ip, left_) →
      (∃ n, left_ = zdrop n tcp ∧ 0 ≤ n ≤ FIXED_LEN + MAX_BLOCK_LEN)
      ∧ (∀ a, ip = Some a → is_loopback a = false ∧ is_relay a = false).
Proof.
  intros Hb. unfold read_tunnel_preamble.
  assert (∀ ip left_, Ok (None : option IpAddr, tcp) = Ok (ip, left_) :> Result _ PreambleError →
      (∃ n, left_ = zdrop n tcp ∧ 0 ≤ n ≤ FIXED_LEN + MAX_BLOCK_LEN)
      ∧ (∀ a, ip = Some a → is_loopback a = false ∧ is_relay a = false)) as Hnone
    by (intros ip l [= <- <-]; split; [by exists 0|done]).
  destruct (negb _); [by eexists|]. destruct tcp as [|b0 l] eqn:E; [by eexists|]. rewrite <- E in *. clear E.
  destruct (negb _); [by eexists|]. destruct (_ <? FIXED_LEN); [by eexists|].
  destruct (block_len_total (ztake FIXED_LEN tcp)) as (r&->&Hr); [by apply Forall_take|]. cbn [mbind option_bind].
  destruct r as [len|e]; [|by eexists]. destruct (Hr len eq_refl) as [Hlen _].
  destruct (_ <? FIXED_LEN + len); [by eexists|].
  destruct (parse_total (ztake (FIXED_LEN + len) tcp)) as (p&->&_); [by apply Forall_take|]. cbn [mbind option_bind].
  destruct p as [[p n]|e]; [|by eexists]. eexists. split; [done|]. intros ip l0 [= <- <-].
  split; [exists (FIXED_LEN + len); unfold FIXED_LEN in *; split; [done|lia]|].
  unfold trusted_source. intros a. destruct p as [s d| |]; [|done..].
  destruct (is_loopback _) eqn:Hlo; [done|]. destruct (is_unspecified _); [done|].
  destruct (is_multicast _); [done|]. cbn [orb]. destruct (is_relay _) eqn:Hre; [done|]. by intros [= <-].
Qed.

(** ** Lemmas: routes *)

(** Names are canonical and every backend is on this machine. *)
Record routes_ok (t : RouteTable) : Prop := {
  to_hosts : ∀ h b, rt_hosts t !! h = Some b → canonical_name h ∧ is_loopback (sa_ip (be_addr b)) = true;
  to_default : ∀ b, rt_default t = Some b → be_kind b = Kind_Passthrough ∧ is_loopback (sa_ip (be_addr b)) = true
}.

Lemma routes_ok_empty : routes_ok RouteTable_default.
Proof. split; intros; done. Qed.

Lemma insert_inv t host b t' :
  RouteTable_insert t host b = Ok t' →
  rt_default t' = rt_default t
  ∧ ∃ h, host_name (utf8_trim host) = Some h ∧ is_loopback (sa_ip (be_addr b)) = true
  ∧ (rt_hosts t !! h = Some b ∧ t' = t ∨ rt_hosts t !! h = None ∧ rt_hosts t' = <[h := b]> (rt_hosts t)).
Proof.
  unfold RouteTable_insert. destruct (host_name (utf8_trim host)) as [h|]; [|done].
  destruct (is_loopback _) eqn:Hl; [|done]. cbn [negb].
  destruct (rt_hosts t !! h) as [cur|] eqn:Hh; [case_bool_decide as Hb; [done|]|]; intros [= <-];
    (split; [done|]); exists h; [|by auto]. subst cur. auto.
Qed.

Lemma routes_ok_insert t host b t' : routes_ok t → RouteTable_insert t host b = Ok t' → routes_ok t'.
Proof.
  intros [Hh Hd] (Hdef&h&Hn&Hl&Hcase)%insert_inv. split; [|rewrite Hdef; exact Hd].
  destruct Hcase as [[_ ->]|[_ ->]]; [done|]. intros h' b'. rewrite lookup_insert_Some.
  intros [[<- <-]|[_ H]]; [|by apply Hh]. split; [by eapply host_name_canonical|done].
Qed.

Lemma routes_ok_set_default t b t' : routes_ok t → set_default t b = Ok t' → routes_ok t'.
Proof.
  intros [Hh Hd]. unfold set_default. case_bool_decide as Hk; [|done]. cbn [negb].
  destruct (is_loopback _) eqn:Hl; [|done]. intros [= <-]. split; [done|]. by intros b' [= <-].
Qed.

Lemma routes_ok_without_kind t k : routes_ok t → routes_ok (without_kind t k).
Proof.
  intros [Hh Hd]. split; cbn [rt_hosts rt_default without_kind].
  - intros h b [Hb _]%map_lookup_filter_Some. by apply Hh.
  - intros b. destruct (rt_default t) as [b0|]; [|done]. case_bool_decide; [|done]. intros [= <-]. by apply Hd.
Qed.

(** The backend of its kind, but for what a Caddy route says of PROXY. *)
Definition fixed_route (b : Backend) : Prop :=
  be_kind b ≠ Kind_Passthrough
  ∧ ∃ proxy, b = mk_Backend (be_kind b) (be_addr (fixed_backend (be_kind b))) proxy
                   (be_refuse_loopback_clients (fixed_backend (be_kind b)))
  ∧ (be_kind b ≠ Kind_Caddy → proxy = be_proxy (fixed_backend (be_kind b))).

Lemma same_as_fixed_true b : be_kind b ≠ Kind_Passthrough → same_as_fixed b = true → fixed_route b.
Proof.
  intros Hk. unfold same_as_fixed. rewrite !andb_true_iff, orb_true_iff.
  intros [[Ha Hr] Hp]. apply bool_decide_eq_true in Ha. apply eqb_prop in Hr. split; [done|].
  exists (be_proxy b). destruct b as [k a p r]. cbn in *. subst. split; [done|].
  intros Hc. destruct Hp as [Hp|Hp]; [by apply bool_decide_eq_true in Hp|by apply eqb_prop in Hp].
Qed.

Lemma fixed_backends_only_ok t :
  routes_ok (fixed_backends_only t) ∧ rt_default (fixed_backends_only t) = None
  ∧ ∀ h b, rt_hosts (fixed_backends_only t) !! h = Some b → fixed_route b.
Proof.
  unfold fixed_backends_only. set (P := λ out, routes_ok out ∧ rt_default out = None
    ∧ ∀ h b, rt_hosts out !! h = Some b → fixed_route b).
  match goal with |- context [foldl ?f] => assert (∀ l out, P out → P (foldl f out l)) as HP end.
  2: apply HP; split; [apply routes_ok_empty|done].
  induction l as [|[h b] l IH]; intros out Hout; [done|].
  cbn [foldl]. apply IH. case_bool_decide as Hk; [done|]. destruct (same_as_fixed b) eqn:Hs; [|done].
  destruct (RouteTable_insert out h b) as [out'|] eqn:Hi; [|done]. destruct Hout as (Hok&Hd&Hf).
  pose proof Hi as (Hd'&h'&_&_&Hcase)%insert_inv. split; [by eapply routes_ok_insert|]. split; [congruence|].
  destruct Hcase as [[_ ->]|[_ ->]]; [done|]. intros h0 b0. rewrite lookup_insert_Some.
  intros [[_ <-]|[_ Hl]]; [by apply same_as_fixed_true|by eapply Hf].
Qed.

Lemma route_inv t sni nested b :
  route t sni nested = Some b →
  rt_hosts t !! sni = Some b ∨ rt_hosts t !! sni = None ∧ nested sni = false ∧ rt_default t = Some b.
Proof. unfold route. destruct (rt_hosts t !! sni); [auto|]. destruct (nested sni); [done|auto]. Qed.

(** Every way the code makes a table. *)
Inductive table_made : RouteTable → Prop :=
| made_default : table_made RouteTable_default
| made_insert t host b t' : table_made t → RouteTable_insert t host b = Ok t' → table_made t'
| made_set_default t b t' : table_made t → set_default t b = Ok t' → table_made t'
| made_without_kind t k : table_made t → table_made (without_kind t k)
| made_fixed_only t : table_made (fixed_backends_only t).

(** ** Properties: routes *)

(** Every table the code can make is well typed: each name is in the one
    canonical form the hello's name is in, each backend is on this machine,
    the default passes through; and what is read back from disk names only
    this build's own backends, with no default and no passthrough. *)
Theorem route_table_typed t :
  table_made t →
  routes_ok t
  ∧ rt_default (fixed_backends_only t) = None
  ∧ (∀ h b, rt_hosts (fixed_backends_only t) !! h = Some b → fixed_route b).
Proof.
  intros Hm. split; [|split; apply (fixed_backends_only_ok t)].
  induction Hm as [|t host b t' _ IH Hi|t b t' _ IH Hs|t k _ IH|t]; [apply routes_ok_empty|by eapply routes_ok_insert|
    by eapply routes_ok_set_default|by apply routes_ok_without_kind|apply (fixed_backends_only_ok t)].
Qed.

(** ** Lemmas: reading the hello *)

Lemma records_loop_spec fuel buf p :
  Forall is_byte buf → 0 ≤ p ≤ zlen buf → zlen buf - p < Z.of_nat fuel →
  ∃ r, records_loop fuel buf p = Some r
  ∧ ∀ e, r = Some e → ∃ k, walk buf k p = Some e ∧ next_record buf e = None.
Proof.
  intros Hb. revert p. induction fuel as [|fuel IH]; intros p Hp Hf; [lia|]. cbn [records_loop].
  destruct (Z.leb_spec (p + 5) (zlen buf)) as [Hh|Hh].
  2: { eexists. split; [done|]. intros e [= <-]. exists O. split; [done|]. unfold next_record.
       destruct (slice buf p (p + 5)) eqn:Hs; [|done]. apply slice_Some in Hs. lia. }
  destruct (header_slice buf p) as (h0&h1&h2&h3&h4&Hs&Hlen); [lia|lia|done|]. rewrite Hs. cbn [mbind option_bind].
  destruct (Z.eqb_spec h0 0x16) as [E0|]; [|by eexists]. destruct (Z.eqb_spec (of_be16 h3 h4) 0); [by eexists|].
  destruct (Z.ltb_spec (16 * 1024) (of_be16 h3 h4)); [by eexists|]. cbn [negb orb].
  assert (next_record buf p = if p + 5 + of_be16 h3 h4 <=? zlen buf then Some (p + 5 + of_be16 h3 h4) else None) as Hnext.
  { unfold next_record. rewrite Hs. cbn [mbind option_bind]. rewrite E0. unfold MAX_RECORD.
    change (0x16 =? CONTENT_HANDSHAKE) with true. by rewrite (proj2 (Z.leb_le 1 _)), (proj2 (Z.leb_le _ (16 * 1024))) by lia. }
  destruct (Z.ltb_spec (zlen buf) (p + 5 + of_be16 h3 h4)).
  { eexists. split; [done|]. intros e [= <-]. exists O. split; [done|]. rewrite Hnext. by rewrite (proj2 (Z.leb_gt _ _)). }
  rewrite (proj2 (Z.leb_le _ _)) in Hnext by done.
  destruct (IH (p + 5 + of_be16 h3 h4)) as (r&Hr&He); [lia|lia|]. exists r. split; [done|].
  intros e (k&Hk&Hne)%He. exists (S k). cbn [walk]. by rewrite Hnext.
Qed.

(** What the loop knows of the bytes read so far. *)
Record reading_ok (buf : list Z) (walked peeked : Z) : Prop := {
  rd_bytes : Forall is_byte buf;
  rd_walked : boundary buf walked;
  rd_le : peeked ≤ walked;
  rd_peeked : ∃ seen more, buf = seen ++ more ∧ peek seen = Some Peek_NeedMore ∧ peeked ≤ zlen seen
}.

Lemma reading_inside buf walked peeked : reading_ok buf walked peeked → 0 ≤ walked ≤ zlen buf.
Proof.
  intros [_ [k Hk] _ _]. pose proof (walk_le _ _ _ _ Hk). pose proof (walk_inside _ _ _ _ Hk (zlen_nonneg buf)). lia.
Qed.

Lemma complete_records_spec buf walked peeked :
  reading_ok buf walked peeked → ∃ r, complete_records buf walked = Some r
  ∧ ∀ e, r = Some e → boundary buf e ∧ walked ≤ e ∧ next_record buf e = None ∧ opt_is_some_and (λ b, negb (b =? 0x16)) (head buf) = false.
Proof.
  intros Hrd. pose proof (reading_inside _ _ _ Hrd). destruct Hrd as [Hb [j Hj] _ _]. unfold complete_records.
  destruct (opt_is_some_and _ (head buf)) eqn:Hh; [by eexists|].
  destruct (records_loop_spec (S (length buf)) buf walked) as (r&Hr&He); [done|lia|unfold zlen; lia|].
  exists r. split; [done|]. intros e (k&Hk&Hn)%He. split_and!; [|by eapply walk_le|done|done].
  exists (j + k)%nat. rewrite walk_add, Hj. exact Hk.
Qed.

(** No complete record since the last full parse: it would not accept. *)
Lemma not_full_answer buf walked peeked e :
  reading_ok buf walked peeked → complete_records buf walked = Some (Some e) → e ≤ peeked →
  ∃ r, peek buf = Some r ∧ (r = Peek_NeedMore ∨ ∃ why, r = Peek_Bad why).
Proof.
  intros Hrd Hcr Hle. destruct (complete_records_spec _ _ _ Hrd) as (r&Hr&He). rewrite Hcr in Hr.
  injection Hr as <-. destruct (He e eq_refl) as (Hbe&_&Hn&Hhd). destruct Hrd as [Hb _ _ (seen&more&->&Hseen&Hpk)].
  destruct (peek_bounded _ Hb) as (r&Hr&Hok). exists r. split; [done|]. destruct r as [|h| |why]; [by auto| | |by eauto].
  - exfalso. pose proof (peek_done_boundary _ _ Hr) as Hbd. pose proof (boundary_last _ _ _ Hbd Hbe Hn) as Hc.
    assert (peek (ztake (he_consumed h) (seen ++ more)) = Some (Peek_Done h)) as Ht by (by apply peek_consumed).
    assert (ztake (he_consumed h) (seen ++ more) = ztake (he_consumed h) seen) as Heq.
    { unfold ztake. apply take_app_le. unfold zlen in *. lia. }
    rewrite Heq in Ht.
    destruct (peek_incremental (ztake (he_consumed h) seen) (zdrop (he_consumed h) seen) (Peek_Done h)) as (r'&Hr'&Hm);
      unfold ztake, zdrop in *; rewrite ?take_drop in *; [by apply Forall_app in Hb as [? _]|done|].
    cbn in Hm. congruence.
  - exfalso. destruct Hok as (b&Hb0&Hne). destruct (seen ++ more); [done|]. injection Hb0 as ->. cbn in Hhd.
    apply negb_false_iff, Z.eqb_eq in Hhd. by apply Hne.
Qed.

(** The reference: a full parse after every read. *)
Fixpoint read_hello_ref (evs : list ReadEvent) (buf : list Z) : option HelloEnd :=
  verdict ← peek buf;
  match verdict with
  | Peek_Done h => Some (HE_Done buf h)
  | Peek_NotTls => Some (HE_Closed C_not_tls)
  | Peek_Bad _ => Some (HE_Closed C_bad_hello)
  | Peek_NeedMore =>
    match evs with
    | [] => Some (HE_Reading buf)
    | Ev_Timeout :: _ => Some (HE_Closed C_hello_timeout)
    | Ev_Closed :: _ => Some (HE_Closed C_closed_early)
    | Ev_Data chunk :: evs => read_hello_ref evs (buf ++ chunk)
    end
  end.

Definition event_ok (ev : ReadEvent) : Prop := if ev is Ev_Data chunk then Forall is_byte chunk else True.

Lemma hello_turn_spec buf walked peeked :
  reading_ok buf walked peeked →
  ∃ w p v r, hello_turn buf walked peeked = Some (w, p, v) ∧ peek buf = Some r
  ∧ (v = r ∨ v = Peek_NeedMore ∧ ∃ why, r = Peek_Bad why)
  ∧ (v = Peek_NeedMore → zlen buf < MAX_HELLO_BYTES
      ∧ ∀ chunk, Forall is_byte chunk → reading_ok (buf ++ chunk) w p).
Proof.
  intros Hrd. pose proof Hrd as [Hb Hw Hle Hpk]. destruct (peek_bounded _ Hb) as (r&Hr&Hok).
  destruct (complete_records_spec _ _ _ Hrd) as (cr&Hcr&He). unfold hello_turn. rewrite Hcr. cbn [mbind option_bind].
  assert (∀ w, boundary buf w → r = Peek_NeedMore → zlen buf < MAX_HELLO_BYTES
      ∧ ∀ chunk, Forall is_byte chunk → reading_ok (buf ++ chunk) w w) as Hfull.
  { intros w Hbw ->. split; [exact Hok|]. intros chunk Hc. split; [by apply Forall_app|by apply boundary_more|lia|].
    exists buf, chunk. split; [done|]. split; [done|]. destruct Hbw as [k Hk]. eapply walk_inside; [exact Hk|].
    apply zlen_nonneg. }
  destruct cr as [e|]; [|rewrite Hr; cbn [mbind option_bind]; exists walked, walked, r, r; by auto].
  destruct (He e eq_refl) as (Hbe&Hwe&Hn&Hhd).
  destruct (Z.ltb_spec peeked e) as [Hlt|Hge]; cbn [orb];
    [rewrite Hr; cbn [mbind option_bind]; exists e, e, r, r; by auto|].
  destruct (Z.leb_spec MAX_HELLO_BYTES (zlen buf)) as [Hmax|Hmax];
    [rewrite Hr; cbn [mbind option_bind]; exists e, e, r, r; by auto|].
  exists e, peeked, Peek_NeedMore, r. split; [done|]. split; [done|].
  destruct (not_full_answer _ _ _ _ Hrd Hcr Hge) as (r'&Hr'&Hans). rewrite Hr in Hr'. injection Hr' as <-.
  split; [destruct Hans as [->|?]; auto|]. intros _. split; [done|]. intros chunk Hc.
  split; [by apply Forall_app|by apply boundary_more|lia|]. destruct Hpk as (seen&more&->&Hs&Hl).
  exists seen, (more ++ chunk). by rewrite app_assoc.
Qed.

Definition accepts (e : HelloEnd) : Prop := ∃ buf h, e = HE_Done buf h.

(** Refused by the full parse: never accepted, however it goes on. *)
Lemma bad_never_accepted evs buf walked peeked why :
  reading_ok buf walked peeked → Forall event_ok evs → peek buf = Some (Peek_Bad why) →
  ∃ r, read_hello evs buf walked peeked = Some r ∧ ¬ accepts r ∧ (∀ b, r = HE_Reading b → zlen b < MAX_HELLO_BYTES).
Proof.
  intros Hrd Hevs. revert buf walked peeked why Hrd.
  induction Hevs as [|ev evs Hev _ IH]; intros buf walked peeked why Hrd Hbad; cbn [read_hello];
    destruct (hello_turn_spec _ _ _ Hrd) as (w&p&v&r&->&Hr&Hv&Hgo); cbn [mbind option_bind];
    rewrite Hbad in Hr; injection Hr as <-;
    (destruct Hv as [->|[-> _]]; [eexists; split; [done|]; split; [by intros (?&?&?)|done]|]);
    destruct (Hgo eq_refl) as [Hmax Hnext].
  - eexists. split; [done|]. split; [by intros (?&?&?)|]. by intros b [= <-].
  - destruct ev as [chunk| |]; [|eexists; split; [done|]; split; [by intros (?&?&?)|done]..].
    destruct (peek_incremental buf chunk (Peek_Bad why)) as (r'&Hr'&[why' ->]);
      [apply Forall_app; split; [apply Hrd|done]|done|]. eapply IH; [by apply Hnext|done].
Qed.

Lemma read_hello_agrees evs buf walked peeked :
  reading_ok buf walked peeked → Forall event_ok evs →
  ∃ r r', read_hello evs buf walked peeked = Some r ∧ read_hello_ref evs buf = Some r'
  ∧ (r = r' ∨ r' = HE_Closed C_bad_hello ∧ ¬ accepts r)
  ∧ (∀ b, r = HE_Reading b → zlen b < MAX_HELLO_BYTES).
Proof.
  intros Hrd Hevs. revert buf walked peeked Hrd.
  induction Hevs as [|ev evs Hev Hevs IH]; intros buf walked peeked Hrd.
  - cbn [read_hello read_hello_ref]. destruct (hello_turn_spec _ _ _ Hrd) as (w&p&v&r&->&->&Hv&Hgo).
    cbn [mbind option_bind]. destruct Hv as [->|[-> [why ->]]].
    + destruct r; (eexists _, _; split; [done|]; split; [done|]; split; [by left|]); intros b H; try done.
      injection H as <-. by apply Hgo.
    + eexists _, _. split; [done|]. split; [done|]. split; [right; split; [done|by intros (?&?&?)]|].
      intros b [= <-]. by apply Hgo.
  - destruct (hello_turn_spec _ _ _ Hrd) as (w&p&v&r&Ht&Hr&Hv&Hgo). destruct Hv as [->|[-> [why ->]]].
    + cbn [read_hello read_hello_ref]. rewrite Ht, Hr. cbn [mbind option_bind].
      destruct r; try (eexists _, _; split; [done|]; split; [done|]; split; [by left|]; done).
      destruct ev as [chunk| |]; try (eexists _, _; split; [done|]; split; [done|]; split; [by left|]; done).
      apply IH. by apply Hgo.
    + destruct (bad_never_accepted (ev :: evs) buf walked peeked why Hrd) as (r&Hread&Hacc&Hmax); [by constructor|done|].
      exists r, (HE_Closed C_bad_hello). split; [exact Hread|]. split; [cbn [read_hello_ref]; by rewrite Hr|].
      split; [by right|exact Hmax].
Qed.

Lemma reading_start : reading_ok [] 0 0.
Proof. split; [constructor|by exists O|lia|]. exists [], []. done. Qed.

(** The bytes a prefix of the reads brought. *)
Definition data_of (ev : ReadEvent) : list Z := if ev is Ev_Data chunk then chunk else [].
Definition received (evs : list ReadEvent) : list Z := concat (data_of <$> evs).

Lemma read_hello_done evs buf0 walked peeked buf h :
  read_hello evs buf0 walked peeked = Some (HE_Done buf h) →
  peek buf = Some (Peek_Done h) ∧ ∃ n, buf = buf0 ++ received (take n evs).
Proof.
  revert buf0 walked peeked. induction evs as [|ev evs IH]; intros buf0 walked peeked; cbn [read_hello];
    destruct (hello_turn buf0 walked peeked) as [[[w p] v]|] eqn:Ht; try done; cbn [mbind option_bind].
  - destruct v; try done. intros [= <- <-]. split; [|exists O; by rewrite app_nil_r].
    unfold hello_turn in Ht. destruct (complete_records _ _) as [[e|]|]; cbn [mbind option_bind] in Ht; [|..|done];
      [destruct (_ || _); [|done]|]; destruct (peek buf0); by simplify_eq/=.
  - destruct v; try done.
    + destruct ev as [chunk| |]; [|done..]. intros (Hp&n&->)%IH. split; [done|]. exists (S n).
      by rewrite <- app_assoc.
    + intros [= <- <-]. split; [|exists O; by rewrite app_nil_r].
      unfold hello_turn in Ht. destruct (complete_records _ _) as [[e|]|]; cbn [mbind option_bind] in Ht; [|..|done];
        [destruct (_ || _); [|done]|]; destruct (peek buf0); by simplify_eq/=.
Qed.

(** ** Properties: the hello *)

(** Parsing only when a record completed decides as parsing after every
    read: with the same outcome, but that a hello the parse refuses may be
    refused later (by the clock, say), and never accepted.  Either way no
    loop or index fails, and a hello still being read is below 16 KiB. *)
Theorem read_hello_as_reference evs :
  Forall event_ok evs →
  ∃ r r', read_hello evs [] 0 0 = Some r ∧ read_hello_ref evs [] = Some r'
  ∧ (r = r' ∨ r' = HE_Closed C_bad_hello ∧ ¬ accepts r)
  ∧ (∀ buf, r = HE_Reading buf → zlen buf < MAX_HELLO_BYTES).
Proof. apply read_hello_agrees, reading_start. Qed.

(** ** Properties: forwarding *)

(** (C22) What the front forwards: only to a backend on this machine, the one the
    table has for the server name (or the owner's default, never for a name
    of this box's own subdomain); a backend that refuses local clients gets
    none; and the first write is exactly the bytes received, whose peek is
    the hello, after a PROXY header from which the tunnel's reader gets the
    client's address and the very same bytes. *)
Theorem front_forwards table nested is_relay peer local door connects writes evs buf h b first :
  routes_ok table → addr_ok peer → addr_ok local → is_loopback (canonical (sa_ip door)) = true →
  read_hello evs [] 0 0 = Some (HE_Done buf h) →
  serve_hello table nested peer local connects writes buf h = SE_Piped b first →
  is_loopback (sa_ip (be_addr b)) = true
  ∧ (be_refuse_loopback_clients b = true → is_loopback (canonical (sa_ip peer)) = false)
  ∧ match he_sni h with
    | Some sni => rt_hosts table !! sni = Some b
        ∨ rt_hosts table !! sni = None ∧ nested sni = false ∧ rt_default table = Some b
    | None => rt_default table = Some b
    end
  ∧ (∃ n, buf = received (take n evs)) ∧ peek buf = Some (Peek_Done h)
  ∧ (if be_proxy b
     then let ip := canonical (sa_ip peer) in
       read_tunnel_preamble is_relay door first =
         Some (Ok (if is_loopback ip || is_unspecified ip || is_multicast ip || is_relay ip then None else Some ip, buf))
     else first = buf).
Proof.
  intros [Hh Hd] Hpeer Hlocal Hdoor Hread. pose proof (read_hello_done _ _ _ _ _ _ Hread) as (Hp&n&Hn).
  unfold serve_hello. set (routed := match he_sni h with Some _ => _ | None => _ end).
  destruct routed as [b'|c] eqn:Hr; [|done].
  destruct (be_refuse_loopback_clients b' && is_loopback (canonical (sa_ip peer))) eqn:Hrl; [done|].
  destruct connects; [|done]. cbn [negb]. destruct writes; [|done]. cbn [negb]. intros [= -> <-].
  assert (match he_sni h with
    | Some sni => rt_hosts table !! sni = Some b
        ∨ rt_hosts table !! sni = None ∧ nested sni = false ∧ rt_default table = Some b
    | None => rt_default table = Some b
    end ∧ is_loopback (sa_ip (be_addr b)) = true) as [Hroute Hloop].
  { unfold routed in Hr. destruct (he_sni h) as [sni|].
    - destruct (route table sni nested) as [b0|] eqn:Hrt; [|done]. injection Hr as <-.
      apply route_inv in Hrt. split; [done|]. destruct Hrt as [H|(_&_&H)]; [by apply Hh in H as [_ ?]|by apply Hd].
    - destruct (rt_default table) eqn:E; [|done]. injection Hr as <-. split; [done|]. by apply Hd. }
  split; [done|]. split; [intros H; rewrite H in Hrl; done|]. split; [done|]. split; [by exists n|]. split; [done|].
  destruct (be_proxy b); [|done]. by apply preamble_reads_header.
Qed.

(** ** Lemmas: permits, slots and counters *)

Definition tally (p : Conn → bool) (cs : list Conn) : Z := zlen (List.filter p cs).
Definition saying_hello (ip : IpAddr) (c : Conn) : bool :=
  bool_decide (cn_ip c = ip) && negb (if cn_phase c is P_Served then true else false).
Definition started (c : Conn) : bool := if cn_phase c is P_Spawned then false else true.

Lemma tally_cons p c cs : tally p (c :: cs) = (if p c then 1 else 0) + tally p cs.
Proof. unfold tally. cbn [List.filter]. destruct (p c); [apply zlen_cons|lia]. Qed.
Lemma tally_mid p cs1 c cs2 : tally p (cs1 ++ c :: cs2) = (if p c then 1 else 0) + tally p (cs1 ++ cs2).
Proof.
  unfold tally. rewrite !List.filter_app, !zlen_app. cbn [List.filter]. destruct (p c); rewrite ?zlen_cons; lia.
Qed.
Lemma tally_nonneg p cs : 0 ≤ tally p cs.
Proof. apply zlen_nonneg. Qed.
Lemma tally_le p cs : tally p cs ≤ zlen cs.
Proof. unfold tally, zlen. pose proof (List.filter_length_le p cs). lia. Qed.

Record front_ok (f : Front) (cs : list Conn) : Prop := {
  fo_cap : 0 ≤ fr_cap f < 2 ^ 64;
  fo_permits : fr_permits f = fr_cap f - zlen cs;
  fo_enough : 0 ≤ fr_permits f;
  fo_hellos : ∀ ip, default 0 (fr_hellos f !! ip) = tally (saying_hello ip) cs;
  fo_per_ip : ∀ ip, tally (saying_hello ip) cs ≤ Z.max 0 (fr_hello_per_ip f);
  fo_live : fr_counters f C_live = tally started cs
}.

Lemma slot_lookup f ip n ip' :
  default 0 (fr_hellos (set_hellos (<[ip := n]> (fr_hellos f)) f) !! ip') =
    if bool_decide (ip' = ip) then n else default 0 (fr_hellos f !! ip').
Proof.
  cbn [fr_hellos set_hellos]. case_bool_decide as H; [subst; by rewrite lookup_insert_eq|].
  by rewrite lookup_insert_ne by congruence.
Qed.

Lemma add_counter_at n c f : fr_counters (add_counter n c f) c = u64 (fr_counters f c + n).
Proof. unfold add_counter. cbn [fr_counters]. by rewrite bool_decide_eq_true_2. Qed.

(** Leaving the ClientHello phase gives the slot back. *)
Lemma drop_slot_spec f ip :
  0 < default 0 (fr_hellos f !! ip) →
  (∀ ip', default 0 (fr_hellos (drop_slot f ip) !! ip')
     = default 0 (fr_hellos f !! ip') - if bool_decide (ip' = ip) then 1 else 0)
  ∧ fr_cap (drop_slot f ip) = fr_cap f ∧ fr_hello_per_ip (drop_slot f ip) = fr_hello_per_ip f
  ∧ fr_permits (drop_slot f ip) = fr_permits f ∧ fr_counters (drop_slot f ip) = fr_counters f.
Proof.
  intros Hpos. unfold drop_slot. destruct (fr_hellos f !! ip) as [n|] eqn:Hn; [|cbn in Hpos; lia]. cbn in Hpos.
  split; [|by destruct (n - 1 =? 0)]. intros ip'. destruct (Z.eqb_spec (n - 1) 0).
  - cbn [fr_hellos set_hellos]. case_bool_decide as H; [subst; rewrite lookup_delete_eq, Hn; cbn; lia|].
    rewrite lookup_delete_ne by congruence. lia.
  - rewrite slot_lookup. case_bool_decide as H; [subst; rewrite Hn; cbn; lia|lia].
Qed.

Lemma accept_spec f cs peer detaches f' spawned :
  front_ok f cs → accept_one f peer detaches = (f', spawned) →
  front_ok f' (if spawned then mk_Conn (canonical (sa_ip peer)) P_Spawned :: cs else cs)
  ∧ fr_cap f' = fr_cap f ∧ fr_hello_per_ip f' = fr_hello_per_ip f.
Proof.
  intros [Hcap Hper Hen Hhe Hip Hli]. unfold accept_one. set (ip := canonical (sa_ip peer)).
  change (fr_permits (bump C_accepted f)) with (fr_permits f).
  destruct (Z.leb_spec (fr_permits f) 0) as [Hfull|Hroom].
  { intros [= <- <-]. split; [|done]. split; done. }
  unfold hello_slot. cbn [set_permits fr_hellos fr_hello_per_ip fr_permits bump add_counter].
  pose proof (Hhe ip) as Hn. pose proof (tally_nonneg (saying_hello ip) cs).
  destruct (Z.leb_spec (fr_hello_per_ip f) (default 0 (fr_hellos f !! ip))) as [Hmax|Hmax]; cbn [negb].
  { intros [= <- <-]. split; [|done].
    split; cbn [fr_cap fr_permits fr_hello_per_ip fr_counters bump add_counter set_permits set_hellos];
      [done|lia|lia| |done|done].
    intros ip'. rewrite <- Hhe. cbn [fr_hellos set_permits set_hellos bump add_counter]. destruct (base.decide (ip' = ip)) as [->|Hne];
      [by rewrite lookup_insert_eq|by rewrite lookup_insert_ne by congruence]. }
  destruct detaches; cbn [negb].
  - intros [= <- <-]. split; [|done].
    split; cbn [fr_cap fr_permits fr_hello_per_ip fr_counters bump add_counter set_permits set_hellos];
      [done|rewrite zlen_cons; lia|lia| | |done].
    + intros ip'. rewrite tally_cons. cbn [fr_hellos set_permits set_hellos bump add_counter]. unfold saying_hello at 1. cbn [cn_ip cn_phase negb].
      rewrite andb_true_r. rewrite <- Hhe. destruct (base.decide (ip' = ip)) as [->|Hne].
      * rewrite lookup_insert_eq, bool_decide_eq_true_2 by done. cbn. lia.
      * rewrite lookup_insert_ne, bool_decide_eq_false_2 by congruence. lia.
    + intros ip'. rewrite tally_cons. unfold saying_hello at 1. cbn [cn_ip cn_phase negb]. rewrite andb_true_r.
      specialize (Hip ip'). case_bool_decide as Heq; [subst ip'; lia|lia].
  - set (f1 := set_hellos _ _). destruct (drop_slot_spec f1 ip) as (Hd&Hc&Hp&Hpe&Hco).
    { unfold f1. cbn [fr_hellos set_hellos]. rewrite lookup_insert_eq. cbn. lia. }
    intros [= <- <-]. cbn [set_permits fr_cap fr_hello_per_ip]. rewrite Hc, Hp. split; [|done].
    split; cbn [set_permits fr_cap fr_hello_per_ip fr_permits fr_counters]; rewrite ?Hc, ?Hp, ?Hpe, ?Hco;
      [done|cbn; lia|cbn; lia| |done|done].
    intros ip'. change (fr_hellos (set_permits _ ?g)) with (fr_hellos g). rewrite Hd, <- Hhe.
    unfold f1. cbn [fr_hellos set_hellos]. destruct (base.decide (ip' = ip)) as [->|Hne];
      [rewrite lookup_insert_eq, bool_decide_eq_true_2 by done; cbn; lia|
       rewrite lookup_insert_ne, bool_decide_eq_false_2 by congruence; lia].
Qed.

Lemma front_step_ok s s' :
  front_step s s' → front_ok s.1 s.2 →
  front_ok s'.1 s'.2 ∧ fr_cap s'.1 = fr_cap s.1 ∧ fr_hello_per_ip s'.1 = fr_hello_per_ip s.1.
Proof.
  intros Hstep Hok. destruct Hstep as [f cs peer detaches f' Ha|f cs peer detaches f' Ha|f cs1 ip cs2|f cs c k _ _ Hk|f cs1 ip cs2|f cs1 ip cs2];
    cbn [fst snd] in *.
  - by eapply (accept_spec f cs peer detaches f' true).
  - by eapply (accept_spec f cs peer detaches f' false).
  - destruct Hok as [Hcap Hper Hen Hhe Hip Hli]. split; [|done].
    pose proof (tally_le started (cs1 ++ mk_Conn ip P_Hello :: cs2)) as Hle.
    rewrite zlen_app, zlen_cons in Hper, Hle.
    split; try done.
    + rewrite zlen_app, zlen_cons. change (fr_permits (bump C_live f)) with (fr_permits f).
      change (fr_cap (bump C_live f)) with (fr_cap f). lia.
    + intros ip'. change (fr_hellos (bump C_live f)) with (fr_hellos f). rewrite Hhe, !tally_mid. done.
    + intros ip'. change (fr_hello_per_ip (bump C_live f)) with (fr_hello_per_ip f). rewrite tally_mid. specialize (Hip ip'). rewrite tally_mid in Hip. exact Hip.
    + unfold bump. rewrite add_counter_at, Hli, !tally_mid. rewrite tally_mid in Hle. cbn [started cn_phase] in *.
      pose proof (tally_nonneg started (cs1 ++ cs2)). rewrite u64_small by lia. lia.
  - destruct Hok as [Hcap Hper Hen Hhe Hip Hli]. split; [|done]. split; try done.
    cbn. rewrite bool_decide_eq_false_2; [exact Hli|]. by intros <-.
  - destruct Hok as [Hcap Hper Hen Hhe Hip Hli].
    assert (∀ ip', tally (saying_hello ip') (cs1 ++ mk_Conn ip P_Hello :: cs2)
      = (if bool_decide (ip' = ip) then 1 else 0) + tally (saying_hello ip') (cs1 ++ mk_Conn ip P_Served :: cs2)) as Ht.
    { intros ip'. rewrite !tally_mid. unfold saying_hello at 1 3. cbn [cn_ip cn_phase negb].
      rewrite andb_true_r, andb_false_r. rewrite (bool_decide_ext (ip = ip') (ip' = ip)) by done. lia. }
    destruct (drop_slot_spec f ip) as (Hd&Hc&Hp&Hpe&Hco).
    { rewrite Hhe, Ht, bool_decide_eq_true_2 by done. pose proof (tally_nonneg (saying_hello ip) (cs1 ++ mk_Conn ip P_Served :: cs2)). lia. }
    rewrite Hc, Hp. split; [|done].
    split; rewrite ?Hc, ?Hp, ?Hpe, ?Hco; try done.
    + rewrite Hper, !zlen_app, !zlen_cons. lia.
    + intros ip'. rewrite Hd, Hhe, Ht. lia.
    + intros ip'. specialize (Hip ip'). rewrite Ht in Hip. destruct (bool_decide _); lia.
    + rewrite Hli, !tally_mid. done.
  - destruct Hok as [Hcap Hper Hen Hhe Hip Hli].
    cbn [fr_cap fr_hello_per_ip set_permits add_counter]. split; [|done].
    pose proof (tally_le started (cs1 ++ cs2)) as Hle. pose proof (tally_nonneg started (cs1 ++ cs2)).
    assert (zlen (cs1 ++ mk_Conn ip P_Served :: cs2) = 1 + zlen (cs1 ++ cs2)) as Hz
      by (rewrite !zlen_app, zlen_cons; lia).
    split; cbn [fr_cap fr_permits fr_hello_per_ip fr_hellos set_permits add_counter]; [done|lia|lia|..].
    + intros ip'. rewrite Hhe, tally_mid. unfold saying_hello at 1. cbn. by rewrite andb_false_r.
    + intros ip'. specialize (Hip ip'). rewrite tally_mid in Hip.
      unfold saying_hello at 1 in Hip. cbn in Hip. rewrite andb_false_r in Hip. lia.
    + change (fr_counters (set_permits ?n ?g)) with (fr_counters g).
      rewrite add_counter_at, Hli, tally_mid. cbn [started cn_phase]. rewrite u64_small by lia. lia.
Qed.

(** ** Properties: the bounds of the front *)

(** (C32) However connections come and go: never more than the cap at a time,
    every permit given back, never more of one address still saying hello
    than it may, each slot given back when the hello ends, and [live] counts
    the connections being served. *)
Theorem front_caps cap per_ip f cs :
  0 ≤ cap < 2 ^ 64 → 0 ≤ per_ip → rtc front_step (Front_new cap per_ip, []) (f, cs) →
  fr_permits f + zlen cs = cap ∧ zlen cs ≤ cap
  ∧ (∀ ip, default 0 (fr_hellos f !! ip) = tally (saying_hello ip) cs ∧ tally (saying_hello ip) cs ≤ per_ip)
  ∧ fr_counters f C_live = tally started cs.
Proof.
  intros Hcap Hper Hr.
  assert (front_ok f cs ∧ fr_cap f = cap ∧ fr_hello_per_ip f = per_ip) as ([H1 H2 H3 H4 H5 H6]&Hc&Hp).
  { apply (rtc_ind_r (λ s, front_ok s.1 s.2 ∧ fr_cap s.1 = cap ∧ fr_hello_per_ip s.1 = per_ip) _) in Hr; [done|..].
    - cbn. split; [|done]. split; cbn; try done; [unfold zlen; cbn; lia|lia|intros ip; unfold tally, zlen; cbn; lia].
    - intros s1 s2 _ Hstep (Hok&<-&<-). by apply (front_step_ok s1 s2). }
  rewrite Hc, Hp in *. split; [lia|]. split; [lia|]. split; [|done]. intros ip. split; [done|]. specialize (H5 ip). lia.
Qed.

(** ** Witnesses *)

(** A route for [a.b] to the TURN server, for a client at 203.0.113.9. *)
Definition name_ab : list Z := [97; 46; 98].
Definition table_ab : RouteTable := mk_RouteTable {[name_ab := fixed_backend Kind_Turn]} None.
Definition client_addr : SocketAddr := mk_SocketAddr (V4 [203; 0; 113; 9]) 50000.
Definition server_addr : SocketAddr := mk_SocketAddr (V4 [198; 51; 100; 1]) 443.
Definition door_addr : SocketAddr := mk_SocketAddr (V4 [127; 0; 0; 1]) 40000.
Definition hello_ab : list Z := synthetic name_ab.
Definition events_ab : list ReadEvent := [Ev_Data (ztake 20 hello_ab); Ev_Data (zdrop 20 hello_ab)].

Lemma bytes_check l : forallb (λ b, (0 <=? b) && (b <? 256)) l = true → Forall is_byte l.
Proof.
  rewrite forallb_forall, Forall_forall. intros H b Hb%list_elem_of_In%H.
  rewrite andb_true_iff, Z.leb_le, Z.ltb_lt in Hb. exact Hb.
Qed.
Lemma addr4_check a b c d p :
  forallb (λ b, (0 <=? b) && (b <? 256)) [a; b; c; d] = true → (0 <=? p) && (p <? 65536) = true →
  addr_ok (mk_SocketAddr (V4 [a; b; c; d]) p).
Proof.
  intros H%bytes_check Hp. rewrite andb_true_iff, Z.leb_le, Z.ltb_lt in Hp. repeat split; cbn; [done|lia..].
Qed.
Lemma made_ab : table_made table_ab.
Proof. apply (made_insert RouteTable_default name_ab (fixed_backend Kind_Turn)); [apply made_default|by vm_compute]. Qed.

Lemma routes_ab : routes_ok table_ab.
Proof.
  apply (routes_ok_insert RouteTable_default name_ab (fixed_backend Kind_Turn)); [apply routes_ok_empty|by vm_compute].
Qed.

Lemma proxy_roundtrip_witness :
  parse (header client_addr server_addr ++ [1; 2; 3])
  = Some (Ok (Parsed_Tcp client_addr server_addr, 28)).
Proof.
  rewrite (proj1 (proxy_roundtrip (λ _, false) door_addr client_addr server_addr [1; 2; 3]
    (addr4_check 203 0 113 9 50000 eq_refl eq_refl) (addr4_check 198 51 100 1 443 eq_refl eq_refl) eq_refl)).
  vm_compute. reflexivity.
Defined.

Lemma read_hello_as_reference_witness :
  Forall event_ok events_ab
  ∧ ∃ r r', read_hello events_ab [] 0 0 = Some r ∧ read_hello_ref events_ab [] = Some r'
    ∧ (r = r' ∨ r' = HE_Closed C_bad_hello ∧ ¬ accepts r)
    ∧ (∀ buf, r = HE_Reading buf → zlen buf < MAX_HELLO_BYTES).
Proof.
  assert (Forall event_ok events_ab) as H
    by (constructor; [|constructor; [|constructor]]; apply bytes_check; vm_compute; reflexivity).
  split; [exact H|exact (read_hello_as_reference events_ab H)].
Defined.

Lemma route_table_typed_witness : table_made table_ab ∧ routes_ok table_ab.
Proof. split; [exact made_ab|exact (proj1 (route_table_typed table_ab made_ab))]. Defined.

Lemma front_forwards_witness :
  ∃ h b first, serve_hello table_ab (λ _, false) client_addr server_addr true true hello_ab h = SE_Piped b first
  ∧ is_loopback (sa_ip (be_addr b)) = true
  ∧ read_tunnel_preamble (λ _, false) door_addr first = Some (Ok (Some (V4 [203; 0; 113; 9]), hello_ab)).
Proof.
  set (h := mk_Hello (Some name_ab) [] (zlen hello_ab) 1).
  set (b := fixed_backend Kind_Turn).
  exists h, b, (header client_addr server_addr ++ hello_ab).
  assert (read_hello events_ab [] 0 0 = Some (HE_Done hello_ab h)) as Hr by (vm_compute; reflexivity).
  assert (serve_hello table_ab (λ _, false) client_addr server_addr true true hello_ab h
    = SE_Piped b (header client_addr server_addr ++ hello_ab)) as Hs by (vm_compute; reflexivity).
  split; [exact Hs|].
  destruct (front_forwards table_ab (λ _, false) (λ _, false) client_addr server_addr door_addr true true events_ab
    hello_ab h b _ routes_ab (addr4_check 203 0 113 9 50000 eq_refl eq_refl)
    (addr4_check 198 51 100 1 443 eq_refl eq_refl) eq_refl Hr Hs) as (Hl&_&_&_&_&Hp).
  split; [exact Hl|exact Hp].
Defined.

Lemma front_caps_witness :
  let f1 := (accept_one (Front_new 2 1) client_addr true).1 in
  let cs := [mk_Conn (V4 [203; 0; 113; 9]) P_Spawned] in
  rtc front_step (Front_new 2 1, []) (f1, cs) ∧ fr_permits f1 = 1 ∧ tally started cs = 0.
Proof.
  intros f1 cs.
  assert (rtc front_step (Front_new 2 1, []) (f1, cs)) as Hr.
  { apply rtc_once. apply (step_accept (Front_new 2 1) [] client_addr true f1). vm_compute. reflexivity. }
  split; [exact Hr|].
  destruct (front_caps 2 1 f1 cs ltac:(lia) ltac:(lia) Hr) as (Hp&_&_&Hl). split; [|reflexivity].
  change (zlen cs) with 1 in Hp. lia.
Defined.
