(* ===== verification/Floats.v ===== *)
(** * Floats: binary32 and binary64 arithmetic

    The [f32] and [f64] operations the jitter buffer of the calls uses, on
    [spec_float]s: conversions of integers, of [f64] to [f32] and of [f32] to
    [u64] ([as] casts), the four operations, comparisons, [abs], [max],
    [clamp] and [f64::total_cmp].  Rust leaves the sign of a NaN open; here
    there is one NaN, ordered above all else. *)

From S2P Require Import Prelude.
From Stdlib Require Export SpecFloat.
Open Scope Z_scope.

Definition f64_of_int (x : Z) : spec_float := binary_normalize 53 1024 x 0 false.
Definition f32_of_int (x : Z) : spec_float := binary_normalize 24 128 x 0 false.

Definition fadd64 : spec_float → spec_float → spec_float := SFadd 53 1024.
Definition fsub64 : spec_float → spec_float → spec_float := SFsub 53 1024.
Definition fmul64 : spec_float → spec_float → spec_float := SFmul 53 1024.
Definition fdiv64 : spec_float → spec_float → spec_float := SFdiv 53 1024.
Definition fadd32 : spec_float → spec_float → spec_float := SFadd 24 128.
Definition fsub32 : spec_float → spec_float → spec_float := SFsub 24 128.
Definition fmul32 : spec_float → spec_float → spec_float := SFmul 24 128.
Definition fdiv32 : spec_float → spec_float → spec_float := SFdiv 24 128.

Definition fneg (x : spec_float) : spec_float := SFopp x.
Definition fabs (x : spec_float) : spec_float := SFabs x.
Definition f_ltb : spec_float → spec_float → bool := SFltb.

(** The literal [n / d], correctly rounded. *)
Definition f32_lit (n d : Z) : spec_float := fdiv32 (f32_of_int n) (f32_of_int d).

(** [x as f32] of an [f64]. *)
Definition f32_of_f64 (x : spec_float) : spec_float :=
  match x with
  | S754_finite s m e => binary_normalize 24 128 (if s then Zneg m else Zpos m) e s
  | _ => x
  end.

(** [x as u64]: toward zero, saturating; a NaN is 0. *)
Definition u64_of_float (x : spec_float) : Z :=
  match x with
  | S754_finite false m e => Z.min u64_max (if 0 <=? e then Zpos m * 2 ^ e else Zpos m / 2 ^ (- e))
  | S754_infinity false => u64_max
  | _ => 0
  end.

(** [x.max(y)]: the other one when one is NaN. *)
Definition f_max (x y : spec_float) : spec_float :=
  match x, y with
  | S754_nan, _ => y
  | _, S754_nan => x
  | _, _ => if f_ltb x y then y else x
  end.
(** [x.clamp(lo, hi)], with [lo <= hi]. *)
Definition f_clamp (x lo hi : spec_float) : spec_float :=
  if f_ltb x lo then lo else if f_ltb hi x then hi else x.

(** [total_cmp] as a boolean [<=]: -0 below +0, NaN on top. *)
Definition total_leb (x y : spec_float) : bool :=
  match x, y with
  | _, S754_nan => true
  | S754_nan, _ => false
  | S754_zero s, S754_zero t => s || negb t
  | _, _ => negb (f_ltb y x)
  end.

Lemma f_clamp_spec x lo hi :
  f_clamp x lo hi = lo ∨ f_clamp x lo hi = hi
  ∨ f_clamp x lo hi = x ∧ f_ltb x lo = false ∧ f_ltb hi x = false.
Proof. unfold f_clamp. destruct (f_ltb x lo), (f_ltb hi x); auto. Qed.

Example float_examples :
  f32_of_f64 (fdiv64 (f64_of_int 1) (f64_of_int 3)) = f32_lit 1 3
  ∧ u64_of_float (fmul32 (f32_lit 81 2) (f32_of_int 1000)) = 40500
  ∧ isort total_leb [f64_of_int 2; f64_of_int (-3); f64_of_int 0] = [f64_of_int (-3); f64_of_int 0; f64_of_int 2].
Proof. vm_compute. done. Qed.
