(* ===== verification/Jitter.v ===== *)
(** * Jitter: the jitter buffer of a call's audio

    [crates/kessel-audio/src/jitter.rs] and the decoding of one tick in
    [pipeline.rs].  Received packets are kept in a ring indexed by sequence
    number; every 20 ms tick plays one, rebuilds a lost one, conceals, or
    goes on with the sender's silence.

    A payload is never looked into ([bytes::Bytes]): its type is a
    parameter.  Instants and durations are nanoseconds.  Extended sequence
    numbers and timestamps ([i64]) move by less than 2^31 a packet, so they
    are plain integers; the counters wrap at their width. *)

From S2P Require Import Prelude Floats.
Open Scope Z_scope.

(** ** Data *)

Definition SAMPLE_RATE : Z := 48000.
Definition FRAME_MS : Z := 20.
Definition FRAME_SAMPLES : Z := 960.
Definition HALF_FRAME : Z := FRAME_SAMPLES / 2.
Definition FRAME : Z := FRAME_SAMPLES.
Definition TRANSITS : nat := 128.
Definition HINTS : nat := 16.
Definition HISTORY : nat := 256.
Definition STARVE_CONCEAL_TICKS : Z := 50.
Definition MAX_WAIT_TICKS : Z := 3.

Record JitterConfig := mk_JitterConfig {
  min_delay_ms : Z;
  max_delay_ms : Z;
  capacity_frames : nat
}.
Definition JitterConfig_default : JitterConfig := mk_JitterConfig 40 200 64.

Inductive JbState :=
| St_Idle
| St_Prebuffer (until : Z) (had_audio : bool)
| St_Playing
| St_Starved (ticks : Z).

Definition i16_of (x : Z) : Z := let u := x mod 2 ^ 16 in if u <? 2 ^ 15 then u else u - 2 ^ 16.
Definition i32_of (x : Z) : Z := let u := x mod 2 ^ 32 in if u <? 2 ^ 31 then u else u - 2 ^ 32.

Definition extend16 (reference seq : Z) : Z := reference + i16_of (u16 (seq - u16 reference)).
Definition extend32 (reference ts : Z) : Z := reference + i32_of (u32 (ts - u32 reference)).

Inductive Ctr := N_received | N_late | N_duplicate | N_decoded | N_fec | N_concealed | N_dtx | N_dropped.
#[export] Instance ctr_eq_dec : EqDecision Ctr.
Proof. solve_decision. Defined.

(** What the arrivals say: for the target delay and the duplicates. *)
Record Arrivals := mk_Arrivals {
  ar_highest : option (Z * Z);
  ar_base_seq : Z;
  ar_t0 : option Z;
  ar_last_transit : option spec_float;
  ar_jitter_s : spec_float;
  ar_transits : list spec_float;
  ar_transit_n : nat;
  ar_transit_i : nat;
  ar_target_ms : spec_float;
  ar_seen : list Z;
  ar_hints : list Z;
  ar_hint_i : nat
}.

(** What is counted. *)
Record Tally := mk_Tally {
  ta_drop_cooldown : Z;
  ta_waited : Z;
  ta_pending : Z;
  ta_conceal_run : Z;
  ta_longest_conceal_run : Z;
  ta_delay_ema_ms : spec_float;
  ta_n : Ctr → Z
}.

Section jitter.
Context {Payload : Type}.

Inductive Next :=
| Nx_Silence
| Nx_Decode (p : Payload)
| Nx_Fec (p : Payload)
| Nx_Conceal
| Nx_Dtx.

Record JSlot := mk_JSlot { js_seq : Z; js_ts : Z; js_payload : Payload }.

Record JitterBuffer := mk_JitterBuffer {
  jb_cfg : JitterConfig;
  jb_slots : list (option JSlot);
  jb_buffered : Z;
  jb_state : JbState;
  jb_next_seq : Z;
  jb_play_ts : Z;
  jb_arr : Arrivals;
  jb_tally : Tally
}.

(** Assignments to groups of fields. *)
Definition set_slots (slots : list (option JSlot)) (buffered : Z) (b : JitterBuffer) : JitterBuffer :=
  mk_JitterBuffer (jb_cfg b) slots buffered (jb_state b) (jb_next_seq b) (jb_play_ts b) (jb_arr b) (jb_tally b).
Definition jb_set_state (s : JbState) (b : JitterBuffer) : JitterBuffer :=
  mk_JitterBuffer (jb_cfg b) (jb_slots b) (jb_buffered b) s (jb_next_seq b) (jb_play_ts b) (jb_arr b) (jb_tally b).
Definition set_clock (next_seq play_ts : Z) (b : JitterBuffer) : JitterBuffer :=
  mk_JitterBuffer (jb_cfg b) (jb_slots b) (jb_buffered b) (jb_state b) next_seq play_ts (jb_arr b) (jb_tally b).
Definition set_arr (a : Arrivals) (b : JitterBuffer) : JitterBuffer :=
  mk_JitterBuffer (jb_cfg b) (jb_slots b) (jb_buffered b) (jb_state b) (jb_next_seq b) (jb_play_ts b) a (jb_tally b).
Definition set_tally (t : Tally) (b : JitterBuffer) : JitterBuffer :=
  mk_JitterBuffer (jb_cfg b) (jb_slots b) (jb_buffered b) (jb_state b) (jb_next_seq b) (jb_play_ts b) (jb_arr b) t.

Definition with_n (f : (Ctr → Z) → Ctr → Z) (t : Tally) : Tally :=
  mk_Tally (ta_drop_cooldown t) (ta_waited t) (ta_pending t) (ta_conceal_run t) (ta_longest_conceal_run t)
    (ta_delay_ema_ms t) (f (ta_n t)).
Definition with_waited (w : Z) (t : Tally) : Tally :=
  mk_Tally (ta_drop_cooldown t) w (ta_pending t) (ta_conceal_run t) (ta_longest_conceal_run t)
    (ta_delay_ema_ms t) (ta_n t).
Definition with_pending (p : Z) (t : Tally) : Tally :=
  mk_Tally (ta_drop_cooldown t) (ta_waited t) p (ta_conceal_run t) (ta_longest_conceal_run t)
    (ta_delay_ema_ms t) (ta_n t).
Definition with_run (r : Z) (t : Tally) : Tally :=
  mk_Tally (ta_drop_cooldown t) (ta_waited t) (ta_pending t) r (ta_longest_conceal_run t)
    (ta_delay_ema_ms t) (ta_n t).
Definition with_cooldown (c : Z) (t : Tally) : Tally :=
  mk_Tally c (ta_waited t) (ta_pending t) (ta_conceal_run t) (ta_longest_conceal_run t)
    (ta_delay_ema_ms t) (ta_n t).
Definition with_ema (e : spec_float) (t : Tally) : Tally :=
  mk_Tally (ta_drop_cooldown t) (ta_waited t) (ta_pending t) (ta_conceal_run t) (ta_longest_conceal_run t)
    e (ta_n t).

Definition tally_with (f : Tally → Tally) (b : JitterBuffer) : JitterBuffer := set_tally (f (jb_tally b)) b.
(** [self.n.c += k]. *)
Definition upd (c : Ctr) (k : Z) (n : Ctr → Z) (x : Ctr) : Z :=
  if bool_decide (x = c) then u64 (n x + k) else n x.
Definition count (c : Ctr) (k : Z) : JitterBuffer → JitterBuffer := tally_with (with_n (upd c k)).

(** ** Construction and lookups *)

Definition JitterBuffer_new (cfg : JitterConfig) : JitterBuffer :=
  let cap := (capacity_frames cfg `max` 8)%nat in
  mk_JitterBuffer (mk_JitterConfig (min_delay_ms cfg) (max_delay_ms cfg) cap)
    (replicate cap None) 0 St_Idle 0 0
    (mk_Arrivals None 0 None None (f64_of_int 0) (replicate TRANSITS (f64_of_int 0)) 0 0
      (f32_of_int (min_delay_ms cfg)) (replicate HISTORY i64_min) (replicate HINTS i64_min) 0)
    (mk_Tally 0 0 0 0 0 (f32_of_int 0) (λ _, 0)).

Definition ring_idx (b : JitterBuffer) (seq : Z) : nat := Z.to_nat (seq mod zlen (jb_slots b)).
Definition slot_at (b : JitterBuffer) (i : nat) : option JSlot := default None (jb_slots b !! i).
(** The slot of [seq], when it holds that packet. *)
Definition slot_of (b : JitterBuffer) (seq : Z) : option JSlot :=
  match slot_at b (ring_idx b seq) with
  | Some s => if js_seq s =? seq then Some s else None
  | None => None
  end.
Definition slot_has (b : JitterBuffer) (seq : Z) : bool := if slot_of b seq then true else false.

(** The target delay in nanoseconds ([Duration::from_micros]). *)
Definition target (b : JitterBuffer) : Z :=
  1000 * u64_of_float (fmul32 (ar_target_ms (jb_arr b)) (f32_of_int 1000)).

Definition clear_slots (b : JitterBuffer) : JitterBuffer :=
  set_slots ((λ _, None) <$> jb_slots b) 0 b.

Definition hint_lost (seq : Z) (b : JitterBuffer) : JitterBuffer :=
  let a := jb_arr b in
  match ar_highest a with
  | None => b
  | Some (h, _) =>
    let ext := extend16 h seq in
    set_arr (mk_Arrivals (ar_highest a) (ar_base_seq a) (ar_t0 a) (ar_last_transit a) (ar_jitter_s a)
      (ar_transits a) (ar_transit_n a) (ar_transit_i a) (ar_target_ms a) (ar_seen a)
      (<[ar_hint_i a := ext]> (ar_hints a)) ((ar_hint_i a + 1) `mod` HINTS)%nat) b
  end.
Definition hinted (b : JitterBuffer) (seq : Z) : bool := mem_z seq (ar_hints (jb_arr b)).

Definition count_concealed (frames : Z) (b : JitterBuffer) : JitterBuffer :=
  let t := jb_tally (count N_concealed frames b) in
  let run := u32 (ta_conceal_run t + frames) in
  set_tally (mk_Tally (ta_drop_cooldown t) (ta_waited t) (ta_pending t) run
    (Z.max (ta_longest_conceal_run t) run) (ta_delay_ema_ms t) (ta_n t)) b.

(** ** Inserting *)

(** The new target from the transits so far ([recompute_target]). *)
Definition recompute_target (cfg : JitterConfig) (transits : list spec_float) (n : nat) (old : spec_float)
    : spec_float :=
  if (n <? 2)%nat then old
  else
    let s := isort total_leb (take n transits) in
    let at_ i := default (f64_of_int 0) (s !! i) in
    let spread_ms := f32_of_f64 (fmul64 (fsub64 (at_ ((n - 1) * 95 / 100)%nat) (at_ O)) (f64_of_int 1000)) in
    f_clamp (fadd32 spread_ms (f32_of_int 10)) (f32_of_int (min_delay_ms cfg))
      (f32_of_int (Z.max (max_delay_ms cfg) (min_delay_ms cfg))).

(** [Duration::as_secs_f64]. *)
Definition as_secs_f64 (ns : Z) : spec_float :=
  fadd64 (f64_of_int (ns / 1000000000)) (fdiv64 (f64_of_int (ns mod 1000000000)) (f64_of_int 1000000000)).

(** The bookkeeping of an arrival: the duplicates' history, the interarrival
    jitter, the transits, the target and the highest packet. *)
Definition note_arrival (cfg : JitterConfig) (ext_seq ext_ts arrival : Z) (a : Arrivals) : Arrivals :=
  let seen := <[Z.to_nat (ext_seq mod Z.of_nat HISTORY) := ext_seq]> (ar_seen a) in
  let t0 := default arrival (ar_t0 a) in
  let transit := fsub64 (as_secs_f64 (Z.max 0 (arrival - t0)))
                   (fdiv64 (f64_of_int ext_ts) (f64_of_int SAMPLE_RATE)) in
  let jitter :=
    match ar_last_transit a with
    | Some lt => fadd64 (ar_jitter_s a)
        (fdiv64 (fsub64 (fabs (fsub64 transit lt)) (ar_jitter_s a)) (f64_of_int 16))
    | None => ar_jitter_s a
    end in
  let transits := <[ar_transit_i a := transit]> (ar_transits a) in
  let n := ((ar_transit_n a + 1) `min` TRANSITS)%nat in
  let highest :=
    match ar_highest a with
    | Some (hs, hts) => if hs <? ext_seq then Some (ext_seq, ext_ts) else Some (hs, hts)
    | None => Some (ext_seq, ext_ts)
    end in
  mk_Arrivals highest (ar_base_seq a) (Some t0) (Some transit) jitter transits n
    ((ar_transit_i a + 1) `mod` TRANSITS)%nat (recompute_target cfg transits n (ar_target_ms a))
    seen (ar_hints a) (ar_hint_i a).

Definition set_base (s : Z) (a : Arrivals) : Arrivals :=
  mk_Arrivals (ar_highest a) s (ar_t0 a) (ar_last_transit a) (ar_jitter_s a) (ar_transits a) (ar_transit_n a)
    (ar_transit_i a) (ar_target_ms a) (ar_seen a) (ar_hints a) (ar_hint_i a).

(** [insert]'s match on the state: [None] when the packet is late. *)
Definition place_packet (ext_seq ext_ts arrival : Z) (b : JitterBuffer) : option JitterBuffer :=
  match jb_state b with
  | St_Idle =>
    let b := set_arr (set_base ext_seq (jb_arr b)) b in
    Some (jb_set_state (St_Prebuffer (arrival + target b) false) (set_clock ext_seq ext_ts b))
  | St_Prebuffer _ _ =>
    let b := if ext_seq <? jb_next_seq b then set_clock ext_seq ext_ts b else b in
    Some (if ext_seq <? ar_base_seq (jb_arr b) then set_arr (set_base ext_seq (jb_arr b)) b else b)
  | St_Playing => if ext_seq <? jb_next_seq b then None else Some b
  | St_Starved _ =>
    guard ext_seq <? jb_next_seq b ret None;
    let missing := ext_seq - jb_next_seq b in
    let expected_ts := jb_play_ts b + missing * FRAME in
    let pending := ta_pending (jb_tally b) in
    if expected_ts + HALF_FRAME <? ext_ts then
      let lost := Z.min missing pending in
      let b := count_concealed lost b in
      let b := count N_dtx (pending - lost) b in
      let b := tally_with (with_pending 0) b in
      Some (jb_set_state (St_Prebuffer (arrival + target b) true) (set_clock ext_seq ext_ts b))
    else
      let b := count_concealed pending b in
      Some (jb_set_state St_Playing (tally_with (with_pending 0) b))
  end.

(** Too far ahead for the ring: start over from this packet. *)
Definition resync (ext_seq ext_ts arrival : Z) (b : JitterBuffer) : JitterBuffer :=
  if zlen (jb_slots b) <=? ext_seq - jb_next_seq b then
    let b := clear_slots b in
    let had_audio := 0 <? ta_n (jb_tally b) N_decoded in
    jb_set_state (St_Prebuffer (arrival + target b) had_audio) (set_clock ext_seq ext_ts b)
  else b.

(** The packet put in its slot. *)
Definition store_packet (ext_seq ext_ts : Z) (payload : Payload) (b : JitterBuffer) : JitterBuffer :=
  let i := ring_idx b ext_seq in
  let buffered := if slot_at b i then jb_buffered b else jb_buffered b + 1 in
  set_slots (<[i := Some (mk_JSlot ext_seq ext_ts payload)]> (jb_slots b)) buffered b.

(** The sequence number and timestamp, extended from the highest packet. *)
Definition extended (a : Arrivals) (seq ts : Z) : Z * Z :=
  match ar_highest a with
  | None => (seq, ts)
  | Some (hs, hts) => (extend16 hs seq, extend32 hts ts)
  end.

Definition insert_packet (seq ts : Z) (payload : Payload) (arrival : Z) (b : JitterBuffer) : JitterBuffer :=
  let a := jb_arr b in
  let '(ext_seq, ext_ts) := extended a seq ts in
  if default 0 (ar_seen a !! Z.to_nat (ext_seq mod Z.of_nat HISTORY)) =? ext_seq then count N_duplicate 1 b
  else
    let b := count N_received 1 b in
    let b := set_arr (note_arrival (jb_cfg b) ext_seq ext_ts arrival a) b in
    match place_packet ext_seq ext_ts arrival b with
    | None => count N_late 1 b
    | Some b => store_packet ext_seq ext_ts payload (resync ext_seq ext_ts arrival b)
    end.

(** ** Playing a tick *)

(** Audio buffered ahead of the playout point, milliseconds. *)
Definition depth_ms (b : JitterBuffer) : spec_float :=
  match ar_highest (jb_arr b) with
  | Some (_, hts) =>
    fdiv32 (fmul32 (f32_of_int (hts + FRAME - jb_play_ts b)) (f32_of_int 1000)) (f32_of_int SAMPLE_RATE)
  | None => f32_of_int 0
  end.

(** Take the packet due out of the ring, the clock moving past it. *)
Definition take_due (s : JSlot) (b : JitterBuffer) : JitterBuffer :=
  let b' := set_slots (<[ring_idx b (jb_next_seq b) := None]> (jb_slots b)) (jb_buffered b - 1) b in
  set_clock (jb_next_seq b + 1) (js_ts s + FRAME) b'.

Definition trim_delay (b : JitterBuffer) : JitterBuffer :=
  match ar_highest (jb_arr b) with
  | None => b
  | Some _ =>
    let depth := depth_ms b in
    let ema := fadd32 (fmul32 (f32_lit 95 100) (ta_delay_ema_ms (jb_tally b)))
                      (fmul32 (f32_lit 5 100) (f_max depth (f32_of_int 0))) in
    let b := tally_with (with_ema ema) b in
    let cooldown := ta_drop_cooldown (jb_tally b) in
    guard 0 <? cooldown ret tally_with (with_cooldown (cooldown - 1)) b;
    let excess := fsub32 depth (ar_target_ms (jb_arr b)) in
    if f_ltb (f32_of_int 60) excess && slot_has b (jb_next_seq b) && slot_has b (jb_next_seq b + 1) then
      match slot_at b (ring_idx b (jb_next_seq b)) with
      | Some slot =>
        let b := count N_dropped 1 (take_due slot b) in
        tally_with (with_cooldown (if f_ltb (f32_of_int 200) excess then 0 else 4)) b
      | None => b
      end
    else b
  end.

(** The packet due is not here and the ring is not empty (or the transport
    says it is lost): wait for it, or give it up. *)
Definition play_missing (is_hinted : bool) (b : JitterBuffer) : JitterBuffer * Next :=
  let waited := ta_waited (jb_tally b) in
  if negb is_hinted && (waited <? MAX_WAIT_TICKS)
     && f_ltb (depth_ms b) (fsub32 (ar_target_ms (jb_arr b)) (f32_of_int 10)) then
    (count_concealed 1 (tally_with (with_waited (waited + 1)) b), Nx_Conceal)
  else
    let b := tally_with (with_waited 0) b in
    let fec :=
      match slot_of b (jb_next_seq b + 1) with
      | Some s => if js_ts s - jb_play_ts b <=? FRAME + HALF_FRAME then Some (js_payload s) else None
      | None => None
      end in
    let b := set_clock (jb_next_seq b + 1) (jb_play_ts b + FRAME) b in
    match fec with
    | Some p => (tally_with (with_run 0) (count N_fec 1 b), Nx_Fec p)
    | None => (count_concealed 1 b, Nx_Conceal)
    end.

(** [play] after the trimming. *)
Definition play_due (b : JitterBuffer) : JitterBuffer * Next :=
  match slot_of b (jb_next_seq b) with
  | Some slot =>
    if jb_play_ts b + HALF_FRAME <? js_ts slot then
      let b := set_clock (jb_next_seq b) (jb_play_ts b + FRAME) b in
      (tally_with (with_run 0) (count N_dtx 1 b), Nx_Dtx)
    else
      let b := take_due slot b in
      (tally_with (with_waited 0) (tally_with (with_run 0) (count N_decoded 1 b)), Nx_Decode (js_payload slot))
  | None =>
    let is_hinted := hinted b (jb_next_seq b) in
    if (0 <? jb_buffered b) || is_hinted then play_missing is_hinted b
    else (tally_with (with_pending 1) (jb_set_state (St_Starved 1) b), Nx_Conceal)
  end.

Definition play (b : JitterBuffer) : JitterBuffer * Next := play_due (trim_delay b).

Definition take_hinted_loss (b : JitterBuffer) : option (JitterBuffer * Next) :=
  if negb (hinted b (jb_next_seq b)) then None
  else
    let b := count_concealed (u32 (ta_pending (jb_tally b) + 1)) b in
    let b := tally_with (λ t, with_waited 0 (with_pending 0 t)) b in
    let b := set_clock (jb_next_seq b + 1) (jb_play_ts b + FRAME) b in
    Some (jb_set_state St_Playing b, Nx_Conceal).

Definition next_tick (now : Z) (b : JitterBuffer) : JitterBuffer * Next :=
  match jb_state b with
  | St_Idle => (b, Nx_Silence)
  | St_Prebuffer until had_audio =>
    if until <=? now then play (jb_set_state St_Playing b)
    else if had_audio : bool then (count N_dtx 1 b, Nx_Dtx)
    else (b, Nx_Silence)
  | St_Playing => play b
  | St_Starved ticks =>
    let ticks := u32 (ticks + 1) in
    let b := jb_set_state (St_Starved ticks) b in
    match take_hinted_loss b with
    | Some r => r
    | None =>
      let b := tally_with (λ t, with_pending (u32 (ta_pending t + 1)) t) b in
      (b, if STARVE_CONCEAL_TICKS <? ticks then Nx_Silence else Nx_Conceal)
    end
  end.

(** [self.n.fec.saturating_sub(1)]. *)
Definition fec_down (n : Ctr → Z) (x : Ctr) : Z :=
  if bool_decide (x = N_fec) then u64_sat_sub (n x) 1 else n x.
Definition fec_unavailable (b : JitterBuffer) : JitterBuffer :=
  count_concealed 1 (tally_with (with_n fec_down) b).

(** [decode_tick] of [pipeline.rs]: [fec_used] is whether the decoder could
    use the FEC of the packet it was given. *)
Definition decode_tick (now : Z) (fec_used : Payload → bool) (b : JitterBuffer) : JitterBuffer * Next :=
  let '(b, n) := next_tick now b in
  match n with
  | Nx_Fec p => (if fec_used p then b else fec_unavailable b, n)
  | _ => (b, n)
  end.

(** ** Statistics *)

Record ParticipantStats := mk_ParticipantStats {
  ps_jitter_ms : spec_float;
  ps_loss_pct : spec_float;
  ps_concealed_pct : spec_float;
  ps_jb_delay_ms : spec_float;
  ps_jb_target_ms : spec_float;
  ps_longest_concealment_ms : spec_float;
  ps_packets_received : Z;
  ps_packets_expected : Z;
  ps_packets_late : Z;
  ps_packets_duplicate : Z;
  ps_frames_decoded : Z;
  ps_frames_fec : Z;
  ps_frames_concealed : Z;
  ps_frames_dtx : Z;
  ps_frames_dropped : Z
}.

Definition pct (a b : Z) : spec_float :=
  if b =? 0 then f32_of_int 0
  else f32_of_f64 (fdiv64 (fmul64 (f64_of_int a) (f64_of_int 100)) (f64_of_int b)).

Definition jb_stats (b : JitterBuffer) : ParticipantStats :=
  let a := jb_arr b in
  let n := ta_n (jb_tally b) in
  let expected := match ar_highest a with Some (h, _) => Z.max 0 (h - ar_base_seq a + 1) | None => 0 end in
  let lost := u64_sat_sub expected (n N_received) in
  let played := u64 (n N_decoded + n N_fec + n N_concealed) in
  mk_ParticipantStats
    (f32_of_f64 (fmul64 (ar_jitter_s a) (f64_of_int 1000))) (pct lost expected) (pct (n N_concealed) played)
    (ta_delay_ema_ms (jb_tally b)) (ar_target_ms a)
    (fmul32 (f32_of_int (ta_longest_conceal_run (jb_tally b))) (f32_of_int FRAME_MS))
    (n N_received) expected (n N_late) (n N_duplicate) (n N_decoded) (n N_fec) (n N_concealed) (n N_dtx)
    (n N_dropped).

(** ** Runs *)

Inductive JbEvent :=
| Ev_Packet (seq ts : Z) (payload : Payload) (arrival : Z)
| Ev_Lost (seq : Z)
| Ev_Tick (now : Z) (fec_used : Payload → bool).

Definition jb_step (b : JitterBuffer) (e : JbEvent) : JitterBuffer * option Next :=
  match e with
  | Ev_Packet seq ts p at_ => (insert_packet seq ts p at_ b, None)
  | Ev_Lost seq => (hint_lost seq b, None)
  | Ev_Tick now used => let '(b, n) := decode_tick now used b in (b, Some n)
  end.
Fixpoint jb_run (b : JitterBuffer) (evs : list JbEvent) : JitterBuffer * list Next :=
  match evs with
  | [] => (b, [])
  | e :: evs =>
    let '(b, n) := jb_step b e in
    let '(b, ns) := jb_run b evs in
    (b, option_list n ++ ns)
  end.

(** ** Lemmas: the ring *)

Definition stored_in (l : list (option JSlot)) : list JSlot := omap id l.
Definition stored (b : JitterBuffer) : list JSlot := stored_in (jb_slots b).

Lemma stored_insert l i o o' :
  l !! i = Some o → option_list o ++ stored_in (<[i := o']> l) ≡ₚ option_list o' ++ stored_in l.
Proof.
  revert i. induction l as [|x l IH]; intros [|i] H; [done|done|..].
  - injection H as ->. destruct o, o'; cbn; solve_Permutation.
  - cbn in H. cbn [insert list_insert stored_in omap list_omap id]. apply IH in H. unfold stored_in in H.
    destruct x as [x|]; cbn [id] in *; [|exact H].
    etransitivity; [symmetry; apply Permutation_middle|]. etransitivity; [|apply Permutation_middle]. by f_equiv.
Qed.

Lemma elem_of_stored b s : s ∈ stored b ↔ ∃ i, jb_slots b !! i = Some (Some s).
Proof.
  unfold stored, stored_in. rewrite list_elem_of_omap. split.
  - intros (o&Ho&Hs). cbn in Hs. subst o. by apply list_elem_of_lookup.
  - intros [i Hi]. exists (Some s). split; [by eapply list_elem_of_lookup_2|done].
Qed.

Lemma stored_none n : stored_in (replicate n None) = [].
Proof. by induction n. Qed.

Record ring_ok (b : JitterBuffer) : Prop := {
  ro_length : 8 ≤ zlen (jb_slots b);
  ro_place : ∀ i s, jb_slots b !! i = Some (Some s) → i = ring_idx b (js_seq s) ∧ jb_next_seq b ≤ js_seq s;
  ro_buffered : jb_buffered b = zlen (stored b);
  ro_idle : jb_state b = St_Idle → stored b = [];
  ro_starved : (∃ t, jb_state b = St_Starved t) → stored b = [];
  ro_pending : (∀ t, jb_state b ≠ St_Starved t) → ta_pending (jb_tally b) = 0
}.

Lemma ring_idx_lookup b seq : 8 ≤ zlen (jb_slots b) → ∃ o, jb_slots b !! ring_idx b seq = Some o.
Proof.
  intros Hl. pose proof (Z.mod_pos_bound seq (zlen (jb_slots b)) ltac:(lia)).
  apply lookup_lt_is_Some_2. unfold ring_idx, zlen in *. lia.
Qed.

Lemma slot_of_Some b seq s :
  slot_of b seq = Some s → js_seq s = seq ∧ jb_slots b !! ring_idx b seq = Some (Some s).
Proof.
  unfold slot_of, slot_at. destruct (jb_slots b !! _) as [[s'|]|]; cbn [default]; [|done..].
  cbn [id]. destruct (Z.eqb_spec (js_seq s') seq); [|done]. intros [= <-]. auto.
Qed.

Lemma slot_of_None b s : ring_ok b → slot_of b (jb_next_seq b) = None → s ∈ stored b → jb_next_seq b < js_seq s.
Proof.
  intros Hok Hn (i&Hi)%elem_of_stored. pose proof (ro_place b Hok i s Hi) as [-> Hle].
  unfold slot_of, slot_at in Hn. destruct (Z.eq_dec (js_seq s) (jb_next_seq b)) as [E|E]; [|lia].
  rewrite <- E, Hi in Hn. cbn in Hn. by rewrite Z.eqb_refl in Hn.
Qed.

(** What [take_due] does to the ring. *)
Lemma take_due_ring b s :
  ring_ok b → slot_of b (jb_next_seq b) = Some s → (∀ t, jb_state b ≠ St_Starved t) →
  ring_ok (take_due s b) ∧ stored b ≡ₚ s :: stored (take_due s b) ∧ jb_next_seq (take_due s b) = js_seq s + 1.
Proof.
  intros Hok [Hs Hi]%slot_of_Some Hst. destruct Hok as [Hl Hp Hb Hid Hsv Hpe].
  pose proof (stored_insert _ _ _ None Hi) as HP. cbn [option_list app] in HP.
  assert (stored b ≡ₚ s :: stored (take_due s b)) as HP' by (symmetry; exact HP).
  split; [|split; [exact HP'|cbn; lia]].
  split; cbn [take_due set_slots set_clock jb_slots jb_next_seq jb_buffered jb_state jb_tally].
  - unfold zlen in *. by rewrite length_insert.
  - intros i x [[_ Hx]|[Hne Hx]]%list_lookup_insert_Some; [by destruct Hx|].
    pose proof (Hp i x Hx) as [Hi' Hle]. unfold ring_idx, zlen in *. cbn [take_due jb_slots set_slots set_clock].
    rewrite length_insert. split; [exact Hi'|].
    destruct (Z.eq_dec (js_seq x) (jb_next_seq b)) as [E|]; [|lia]. rewrite E in Hi'. by rewrite Hi' in Hne.
  - rewrite Hb. apply Permutation_length in HP'. unfold zlen. cbn [length] in HP'. lia.
  - intros Hidle. rewrite Hid in HP' by done. by apply Permutation_nil_cons in HP'.
  - intros [t Ht]. by destruct (Hst t).
  - intros _. by apply Hpe.
Qed.

(** [ring_ok] looks at the slots, the playout point, the state and
    [pending] only. *)
Lemma ring_ok_move b b' :
  ring_ok b → jb_slots b' = jb_slots b → jb_buffered b' = jb_buffered b →
  (∀ s, s ∈ stored b → jb_next_seq b' ≤ js_seq s) →
  (jb_state b' = St_Idle ∨ (∃ t, jb_state b' = St_Starved t) → stored b = []) →
  ((∀ t, jb_state b' ≠ St_Starved t) → ta_pending (jb_tally b') = 0) →
  ring_ok b'.
Proof.
  intros [Hl Hp Hb Hid Hsv Hpe] Es Eb Hn Hst Hpe'.
  split; unfold stored, ring_idx in *; rewrite ?Es, ?Eb; auto.
  intros i s Hi. split; [by apply (Hp i s)|]. apply Hn, elem_of_stored. by exists i.
Qed.

Lemma ring_ok_tally f b :
  ring_ok b → ta_pending (f (jb_tally b)) = ta_pending (jb_tally b) → ring_ok (tally_with f b).
Proof.
  intros Hok Hp. pose proof Hok as [Hl Hpl Hb Hid Hsv Hpe]. apply (ring_ok_move b); try done.
  - intros s (i&Hi)%elem_of_stored. by apply (Hpl i s).
  - cbn. intros [H|H]; auto.
  - cbn. rewrite Hp. exact Hpe.
Qed.

Lemma ring_ok_count c k b : ring_ok b → ring_ok (count c k b).
Proof. intros H. by apply ring_ok_tally. Qed.
Lemma ring_ok_concealed k b : ring_ok b → ring_ok (count_concealed k b).
Proof. intros H. by apply (ring_ok_tally (λ t, _)). Qed.

(** The last conjunct says what the witness is. *)
Ltac by_last := eexists; split_and!; [..|reflexivity]; done.

(** Counting does not touch the ring. *)
Ltac counting :=
  repeat first [assumption | apply ring_ok_count | apply ring_ok_concealed | apply ring_ok_tally; [|reflexivity]].

(** Trimming keeps the ring, or drops the packet due. *)
Lemma trim_cases b :
  (∃ t, ta_pending t = ta_pending (jb_tally b) ∧ ta_n t = ta_n (jb_tally b) ∧ ta_conceal_run t = ta_conceal_run (jb_tally b)
     ∧ ta_waited t = ta_waited (jb_tally b) ∧ trim_delay b = set_tally t b)
  ∨ (∃ s t, slot_of b (jb_next_seq b) = Some s ∧ ta_pending t = ta_pending (jb_tally b)
     ∧ ta_n t = ta_n (jb_tally (count N_dropped 1 b)) ∧ ta_conceal_run t = ta_conceal_run (jb_tally b)
     ∧ trim_delay b = set_tally t (take_due s b)).
Proof.
  unfold trim_delay. destruct (ar_highest (jb_arr b)) as [[hs hts]|]; [|left; exists (jb_tally b); by destruct b].
  match goal with |- context [with_ema ?x] => generalize x; intros ema end.
  set (b1 := tally_with (with_ema ema) b).
  destruct (0 <? _); [left; by_last|]. unfold slot_has.
  change (slot_of b1 (jb_next_seq b1)) with (slot_of b (jb_next_seq b)).
  change (slot_at b1 (ring_idx b1 (jb_next_seq b1))) with (slot_at b (ring_idx b (jb_next_seq b))).
  destruct (f_ltb _ _); cbn [andb]; [|left; by_last].
  destruct (slot_of b (jb_next_seq b)) as [s|] eqn:Hs; cbn [andb]; [|left; by_last].
  destruct (slot_of b1 (jb_next_seq b1 + 1)); [|left; by_last].
  assert (slot_at b (ring_idx b (jb_next_seq b)) = Some s) as ->.
  { apply slot_of_Some in Hs as [_ Hs]. unfold slot_at. by rewrite Hs. }
  right. exists s. by_last.
Qed.

Lemma trim_ring b :
  ring_ok b → jb_state b = St_Playing →
  ring_ok (trim_delay b) ∧ jb_state (trim_delay b) = St_Playing
  ∧ stored (trim_delay b) ⊆+ stored b ∧ jb_next_seq b ≤ jb_next_seq (trim_delay b).
Proof.
  intros Hok Hst. assert (∀ t, jb_state b ≠ St_Starved t) as Hns by (intros t; by rewrite Hst).
  destruct (trim_cases b) as [(t&Hp&_&_&_&->)|(s&t&Hs&Hp&_&_&->)].
  - split; [by apply (ring_ok_tally (λ _, t))|]. split; [exact Hst|]. split; [done|cbn; lia].
  - destruct (take_due_ring b s Hok Hs Hns) as (Hok'&HP&Hn).
    split; [by apply (ring_ok_tally (λ _, t))|]. split; [exact Hst|].
    split; [change (stored (set_tally t ?x)) with (stored x); rewrite HP; by apply submseteq_cons|].
    change (jb_next_seq (set_tally t ?x)) with (jb_next_seq x). apply slot_of_Some in Hs as [<- _]. lia.
Qed.

(** What a tick gives, of the ring before and the buffer after. *)
Definition tick_ok (before : list JSlot) (from : Z) (b' : JitterBuffer) (n : Next) : Prop :=
  match n with
  | Nx_Decode p => ∃ s, js_payload s = p ∧ from ≤ js_seq s ∧ jb_next_seq b' = js_seq s + 1
      ∧ s :: stored b' ⊆+ before
  | Nx_Fec p => (∃ s, js_payload s = p ∧ js_seq s = jb_next_seq b' ∧ s ∈ stored b') ∧ stored b' ⊆+ before
  | _ => stored b' ⊆+ before
  end.

Lemma tick_ok_more l l' from from' b' n :
  tick_ok l from b' n → l ⊆+ l' → from' ≤ from → tick_ok l' from' b' n.
Proof.
  intros H Hl Hf. destruct n; cbn in *; [by etransitivity| |destruct H; split; [done|by etransitivity]|by etransitivity..].
  destruct H as (s&?&?&?&?). exists s. split_and!; [done|lia|done|by etransitivity].
Qed.

(** A clock moved past a missing packet, in a playing buffer. *)
Lemma skip_ring b ts :
  ring_ok b → jb_state b = St_Playing → slot_of b (jb_next_seq b) = None →
  ring_ok (set_clock (jb_next_seq b + 1) ts b).
Proof.
  intros Hok Hst Hs. apply (ring_ok_move b); try done.
  - intros s H. apply (slot_of_None b s Hok Hs) in H. cbn. lia.
  - cbn. rewrite Hst. intros [|[]]; done.
  - apply (ro_pending b Hok).
Qed.

Ltac same_stored :=
  match goal with
  | |- tick_ok (stored ?b) _ _ _ => change (stored b ⊆+ stored b); reflexivity
  | |- _ ⊆+ stored ?b => change (stored b ⊆+ stored b); reflexivity
  end.

Lemma play_missing_ring h b b' n :
  ring_ok b → jb_state b = St_Playing → slot_of b (jb_next_seq b) = None → play_missing h b = (b', n) →
  ring_ok b' ∧ jb_state b' = St_Playing ∧ jb_next_seq b ≤ jb_next_seq b' ∧ tick_ok (stored b) (jb_next_seq b) b' n.
Proof.
  intros Hok Hst Hs. unfold play_missing. destruct (_ && f_ltb _ _).
  { intros [= <- <-]. split; [counting|]. split; [exact Hst|]. split; [cbn; lia|].
    same_stored. }
  set (b1 := tally_with (with_waited 0) b).
  assert (ring_ok (set_clock (jb_next_seq b1 + 1) (jb_play_ts b1 + FRAME) b1)) as Hok1
    by (apply skip_ring; [counting|exact Hst|exact Hs]).
  destruct (slot_of b1 (jb_next_seq b1 + 1)) as [s|] eqn:Hnext; [destruct (_ <=? FRAME + HALF_FRAME)|];
    intros [= <- <-].
  - split; [counting|]. split; [exact Hst|]. split; [cbn; lia|].
    apply slot_of_Some in Hnext as [Hseq Hi]. split; [|same_stored]. exists s. split; [done|]. split; [exact Hseq|].
    apply elem_of_stored. by eexists.
  - split; [counting|]. split; [exact Hst|]. split; [cbn; lia|same_stored].
  - split; [counting|]. split; [exact Hst|]. split; [cbn; lia|same_stored].
Qed.

Lemma play_due_ring b1 b' n :
  ring_ok b1 → jb_state b1 = St_Playing → play_due b1 = (b', n) →
  ring_ok b' ∧ jb_next_seq b1 ≤ jb_next_seq b' ∧ tick_ok (stored b1) (jb_next_seq b1) b' n.
Proof.
  intros Hok1 Hst1. assert (∀ t, jb_state b1 ≠ St_Starved t) as Hns by (intros t; by rewrite Hst1).
  unfold play_due. destruct (slot_of b1 (jb_next_seq b1)) as [s|] eqn:Hs.
  - destruct (_ <? js_ts s).
    + intros [= <- <-]. split; [|split; [cbn; lia|same_stored]]. counting.
      apply (ring_ok_move b1); try done; [|by cbn; rewrite Hst1; intros [|[]]|apply (ro_pending b1 Hok1)].
      intros x (i&Hi)%elem_of_stored. by apply (ro_place b1 Hok1 i x).
    + destruct (take_due_ring b1 s Hok1 Hs Hns) as (Hok2&HP&Hn). intros [= <- <-].
      split; [counting|].
      pose proof (proj1 (slot_of_Some _ _ _ Hs)) as Hseq. split; [cbn; lia|].
      exists s. split; [done|]. split; [lia|]. split; [exact Hn|]. 
      match goal with |- s :: stored ?x ⊆+ _ => change (stored x) with (stored (take_due s b1)) end.
      by rewrite HP.
  - destruct ((0 <? jb_buffered b1) || hinted b1 (jb_next_seq b1)) eqn:Hor.
    + intros Hm. destruct (play_missing_ring _ _ _ _ Hok1 Hst1 Hs Hm) as (?&_&?&?). done.
    + intros [= <- <-]. split; [|split; [cbn; lia|same_stored]].
      apply orb_false_iff in Hor as [Hb%Z.ltb_ge _]. rewrite (ro_buffered b1 Hok1) in Hb.
      assert (stored b1 = []) as Hnil by (destruct (stored b1); [done|rewrite zlen_cons in Hb; pose proof (zlen_nonneg l); lia]).
      apply (ring_ok_move b1); try done; [by rewrite Hnil; intros x ?%not_elem_of_nil|].
      intros Ht. by destruct (Ht 1).
Qed.

Lemma play_ring b b' n :
  ring_ok b → jb_state b = St_Playing → play b = (b', n) →
  ring_ok b' ∧ jb_next_seq b ≤ jb_next_seq b' ∧ tick_ok (stored b) (jb_next_seq b) b' n.
Proof.
  intros Hok Hst Hp. destruct (trim_ring b Hok Hst) as (Hok1&Hst1&Hsub&Hle).
  destruct (play_due_ring _ _ _ Hok1 Hst1 Hp) as (?&?&?). split; [done|]. split; [lia|]. by eapply tick_ok_more.
Qed.

Lemma next_tick_ring now b b' n :
  ring_ok b → next_tick now b = (b', n) →
  ring_ok b' ∧ jb_next_seq b ≤ jb_next_seq b' ∧ tick_ok (stored b) (jb_next_seq b) b' n.
Proof.
  intros Hok. unfold next_tick. destruct (jb_state b) as [|until had| |ticks] eqn:Hst.
  - intros [= <- <-]. split; [done|]. split; [lia|same_stored].
  - assert (ring_ok (jb_set_state St_Playing b)) as Hok1.
    { apply (ring_ok_move b); try done; [|cbn; intros [|[]]; done|].
      - intros s (i&Hi)%elem_of_stored. by apply (ro_place b Hok i s).
      - intros _. apply (ro_pending b Hok). by rewrite Hst. }
    destruct (until <=? now); [by apply (play_ring (jb_set_state St_Playing b))|].
    destruct had; intros [= <- <-]; (split; [counting|]); split; [cbn; lia|same_stored|lia|same_stored].
  - by apply play_ring.
  - assert (stored b = []) as Hnil by (apply (ro_starved b Hok); by eexists).
    set (b1 := jb_set_state _ b). unfold take_hinted_loss.
    assert (∀ b2, jb_slots b2 = jb_slots b → jb_buffered b2 = jb_buffered b →
      ((∀ t, jb_state b2 ≠ St_Starved t) → ta_pending (jb_tally b2) = 0) → ring_ok b2) as Hmove.
    { intros b2 E1 E2 E3. apply (ring_ok_move b); try done. by rewrite Hnil; intros s ?%not_elem_of_nil. }
    destruct (negb _); [destruct (STARVE_CONCEAL_TICKS <? _)|]; intros [= <- <-];
      (split; [apply Hmove; try done; intros Ht; by destruct (Ht (u32 (ticks + 1)))|split; [cbn; lia|same_stored]]).
Qed.

Lemma decode_tick_ring now used b b' n :
  ring_ok b → decode_tick now used b = (b', n) →
  ring_ok b' ∧ jb_next_seq b ≤ jb_next_seq b' ∧ tick_ok (stored b) (jb_next_seq b) b' n.
Proof.
  intros Hok. unfold decode_tick. destruct (next_tick now b) as [b1 n1] eqn:Ht.
  apply next_tick_ring in Ht as (Hok1&Hle&Hn); [|done].
  destruct n1; [by intros [= <- <-]..| | |]; try (by intros [= <- <-]).
  destruct (used p); intros [= <- <-]; [done|]. split; [|done]. unfold fec_unavailable. counting.
Qed.

Lemma hint_lost_ring seq b : ring_ok b → ring_ok (hint_lost seq b) ∧ stored (hint_lost seq b) = stored b.
Proof.
  intros Hok. unfold hint_lost. destruct (ar_highest _) as [[h ts]|]; [|done].
  split; [|done]. pose proof Hok as [Hl Hp Hb Hid Hsv Hpe]. by split.
Qed.

(** Where [insert]'s match on the state leaves the playout. *)
Lemma place_packet_ring ext ts at_ b b' :
  ring_ok b → place_packet ext ts at_ b = Some b' →
  ring_ok b' ∧ stored b' = stored b ∧ jb_slots b' = jb_slots b ∧ jb_next_seq b' ≤ ext
  ∧ jb_state b' ≠ St_Idle ∧ (∀ t, jb_state b' ≠ St_Starved t).
Proof.
  intros Hok. unfold place_packet. pose proof Hok as [Hl Hp Hb Hid Hsv Hpe].
  destruct (jb_state b) as [|until had| |ticks] eqn:Hst.
  - intros [= <-]. split; [|split_and!; try done; cbn; lia].
    apply (ring_ok_move b); try done; [by rewrite Hid; [intros s ?%not_elem_of_nil|]|cbn; intros [|[]]; done|auto].
  - set (b1 := if ext <? jb_next_seq b then _ else b).
    assert (ring_ok b1 ∧ jb_slots b1 = jb_slots b ∧ jb_next_seq b1 ≤ ext ∧ jb_state b1 = St_Prebuffer until had)
      as (Hok1&Es&Hle&Hst1).
    { unfold b1. destruct (Z.ltb_spec ext (jb_next_seq b)); [|split_and!; auto; lia].
      split; [|split_and!; try done; cbn; lia]. apply (ring_ok_move b); try done.
      - intros s (i&Hi)%elem_of_stored. apply Hp in Hi as [_ Hi]. cbn. lia.
      - cbn. rewrite Hst. intros [|[]]; done.
      - cbn. rewrite Hst. exact Hpe. }
    clearbody b1. assert (stored b1 = stored b) as Est by (unfold stored; by rewrite Es).
    destruct (ext <? ar_base_seq (jb_arr b1)); intros [= <-].
    + split; [|cbn; by rewrite Hst1]. destruct Hok1 as [? ? ? ? ? ?]. by split.
    + by rewrite Hst1.
  - destruct (Z.ltb_spec ext (jb_next_seq b)); [done|]. intros [= <-]. rewrite Hst. by split_and!.
  - assert (stored b = []) as Hnil by (apply Hsv; by eexists).
    destruct (Z.ltb_spec ext (jb_next_seq b)); [done|].
    assert (∀ b2, jb_slots b2 = jb_slots b → jb_buffered b2 = jb_buffered b →
      ta_pending (jb_tally b2) = 0 → ring_ok b2) as Hmove.
    { intros b2 E1 E2 E3. apply (ring_ok_move b); try done. by rewrite Hnil; intros s ?%not_elem_of_nil. }
    destruct (_ <? ts); intros [= <-]; (split; [by apply Hmove|split_and!; try done; cbn; lia]).
Qed.

Lemma resync_ring ext ts at_ b :
  ring_ok b → jb_next_seq b ≤ ext → jb_state b ≠ St_Idle → (∀ t, jb_state b ≠ St_Starved t) →
  let b' := resync ext ts at_ b in
  ring_ok b' ∧ stored b' ⊆+ stored b ∧ jb_next_seq b ≤ jb_next_seq b' ≤ ext
  ∧ jb_state b' ≠ St_Idle ∧ (∀ t, jb_state b' ≠ St_Starved t).
Proof.
  intros Hok Hle Hid Hsv. unfold resync. destruct (_ <=? _); cbn zeta; [|split_and!; auto; lia].
  assert (stored_in ((λ _, None) <$> jb_slots b) = []) as Hnil by (unfold stored_in; by induction (jb_slots b)).
  split.
  - split; cbn [jb_set_state set_clock clear_slots set_slots jb_slots jb_buffered jb_state jb_next_seq jb_tally].
    + unfold zlen. rewrite length_fmap. apply Hok.
    + intros i s Hi. rewrite list_lookup_fmap in Hi. by destruct (jb_slots b !! i).
    + unfold stored. cbn [jb_slots jb_set_state set_clock clear_slots set_slots]. by rewrite Hnil.
    + done.
    + intros [? [=]].
    + intros _. by apply (ro_pending b Hok).
  - split; [unfold stored; cbn [jb_slots jb_set_state set_clock clear_slots set_slots]; rewrite Hnil; apply submseteq_nil_l|]. split; [cbn; lia|]. split; [done|by intros].
Qed.

Lemma store_packet_ring ext ts p b :
  ring_ok b → jb_next_seq b ≤ ext → jb_state b ≠ St_Idle → (∀ t, jb_state b ≠ St_Starved t) →
  ring_ok (store_packet ext ts p b) ∧ stored (store_packet ext ts p b) ⊆+ mk_JSlot ext ts p :: stored b.
Proof.
  intros Hok Hle Hid Hsv. destruct (ring_idx_lookup b ext (ro_length b Hok)) as [o Ho].
  pose proof (stored_insert _ _ o (Some (mk_JSlot ext ts p)) Ho) as HP. cbn [option_list app] in HP.
  split; [|change (stored (store_packet ext ts p b)) with (stored_in (<[ring_idx b ext := Some (mk_JSlot ext ts p)]> (jb_slots b)));
    change (stored b) with (stored_in (jb_slots b)); rewrite <- HP; apply submseteq_inserts_l; reflexivity].
  pose proof Hok as [Hl Hp Hb _ _ Hpe].
  split; cbn [store_packet set_slots jb_slots jb_buffered jb_state jb_next_seq jb_tally]; try done.
  - unfold zlen in *. by rewrite length_insert.
  - intros i s. unfold ring_idx, zlen in *. cbn [store_packet set_slots jb_slots]. rewrite length_insert.
    intros [(<-&[= <-]&_)|[_ Hs]]%list_lookup_insert_Some; [by cbn|by apply Hp].
  - unfold slot_at. rewrite Ho. cbn [default id from_option]. apply Permutation_length in HP.
    unfold stored, zlen in *. cbn [jb_slots set_slots store_packet]. rewrite !length_app in HP.
    destruct o; cbn [option_list option_rect length] in HP; lia.
  - by intros [t Ht]; destruct (Hsv t).
Qed.

(** A packet by its number, extended, and its payload. *)
Definition slot_key (s : JSlot) : Z * Payload := (js_seq s, js_payload s).
(** The packet of an event, unless the history has it. *)
Definition fresh_packet (b : JitterBuffer) (e : JbEvent) : option (Z * Payload) :=
  match e with
  | Ev_Packet seq ts p _ =>
    let ext := (extended (jb_arr b) seq ts).1 in
    if default 0 (ar_seen (jb_arr b) !! Z.to_nat (ext mod Z.of_nat HISTORY)) =? ext then None else Some (ext, p)
  | _ => None
  end.

Lemma insert_packet_ring seq ts p at_ b :
  ring_ok b →
  let b' := insert_packet seq ts p at_ b in
  ring_ok b' ∧ slot_key <$> stored b' ⊆+ option_list (fresh_packet b (Ev_Packet seq ts p at_)) ++ (slot_key <$> stored b).
Proof.
  intros Hok. unfold insert_packet, fresh_packet. destruct (extended _ seq ts) as [ext ets]. cbn [fst].
  destruct (_ =? ext); [split; [counting|done]|]. cbn [option_list option_rect app].
  set (b1 := set_arr _ _). assert (ring_ok b1 ∧ stored b1 = stored b) as [Hok1 Est].
  { split; [|done]. destruct Hok as [? ? ? ? ? ?]. by split. }
  destruct (place_packet ext ets at_ b1) as [b2|] eqn:Hpl.
  - destruct (place_packet_ring _ _ _ _ _ Hok1 Hpl) as (Hok2&Es2&_&Hle&Hid&Hsv).
    destruct (resync_ring ext ets at_ b2 Hok2 Hle Hid Hsv) as (Hok3&Hsub&Hle3&Hid3&Hsv3).
    destruct (store_packet_ring ext ets p _ Hok3 (proj2 Hle3) Hid3 Hsv3) as [Hok4 Hsub4].
    split; [exact Hok4|]. transitivity (slot_key <$> mk_JSlot ext ets p :: stored (resync ext ets at_ b2));
      [by apply fmap_submseteq|]. cbn [fmap list_fmap slot_key js_seq js_payload]. apply submseteq_skip, fmap_submseteq.
    by rewrite <- Est, <- Es2.
  - split; [counting|]. change (stored (count N_late 1 b1)) with (stored b1). rewrite Est. by apply submseteq_cons.
Qed.

(** ** Lemmas: runs *)

Definition arrived (evs : list JbEvent) : list Payload :=
  omap (λ e, if e is Ev_Packet _ _ p _ then Some p else None) evs.
Definition decoded (ns : list Next) : list Payload := omap (λ n, if n is Nx_Decode p then Some p else None) ns.

Lemma new_ring cfg : ring_ok (JitterBuffer_new cfg).
Proof.
  assert (stored_in (replicate (capacity_frames cfg `max` 8) None) = []) as Hnil
    by (unfold stored_in; by induction (capacity_frames cfg `max` 8)%nat).
  split; cbn [JitterBuffer_new jb_slots jb_buffered jb_state jb_next_seq]; try done.
  - unfold zlen. rewrite length_replicate. lia.
  - by intros i s [[=] _]%lookup_replicate_1.
  - unfold stored. cbn [jb_slots JitterBuffer_new]. by rewrite Hnil.
Qed.

(** The sequence number and the payload of each packet decoded. *)
Definition played (b' : JitterBuffer) (n : option Next) : option (Z * Payload) :=
  match n with Some (Nx_Decode p) => Some (jb_next_seq b' - 1, p) | _ => None end.
Fixpoint plays (b : JitterBuffer) (evs : list JbEvent) : list (Z * Payload) :=
  match evs with
  | [] => []
  | e :: evs => let '(b', n) := jb_step b e in option_list (played b' n) ++ plays b' evs
  end.
(** The packets that came, but for the copies the history knew. *)
Fixpoint fresh_packets (b : JitterBuffer) (evs : list JbEvent) : list (Z * Payload) :=
  match evs with
  | [] => []
  | e :: evs => option_list (fresh_packet b e) ++ fresh_packets (jb_step b e).1 evs
  end.

Lemma step_packets b e b' n :
  ring_ok b → jb_step b e = (b', n) →
  ring_ok b' ∧ option_list (played b' n) ++ (slot_key <$> stored b') ⊆+ option_list (fresh_packet b e) ++ (slot_key <$> stored b).
Proof.
  intros Hok. destruct e as [seq ts p at_|seq|now used]; cbn [jb_step].
  - intros [= <- <-]. by apply insert_packet_ring.
  - intros [= <- <-]. destruct (hint_lost_ring seq b Hok) as [Hok' Hs]. split; [done|]. by rewrite Hs.
  - destruct (decode_tick now used b) as [b1 n1] eqn:Ht. intros [= <- <-].
    destruct (decode_tick_ring _ _ _ _ _ Hok Ht) as (Hok'&_&Hn). split; [done|]. cbn [fresh_packet option_list option_rect app].
    destruct n1; cbn in Hn |- *; try by apply fmap_submseteq.
    + destruct Hn as (s&<-&_&Hnx&Hn). apply (fmap_submseteq slot_key) in Hn. rewrite Hnx.
      replace (js_seq s + 1 - 1) with (js_seq s) by lia. exact Hn.
    + destruct Hn as [_ Hn]. by apply fmap_submseteq.
Qed.

Lemma run_packets evs b b' ns :
  ring_ok b → jb_run b evs = (b', ns) →
  ring_ok b' ∧ plays b evs ++ (slot_key <$> stored b') ⊆+ fresh_packets b evs ++ (slot_key <$> stored b).
Proof.
  revert b ns. induction evs as [|e evs IH]; intros b ns Hok; cbn [jb_run plays fresh_packets].
  { intros [= <- <-]. done. }
  destruct (jb_step b e) as [b1 n] eqn:He. destruct (jb_run b1 evs) as [b2 ns2] eqn:Hr. intros [= <- <-].
  destruct (step_packets _ _ _ _ Hok He) as [Hok1 H1]. destruct (IH _ _ Hok1 Hr) as [Hok2 H2].
  split; [done|]. cbn [fst].
  rewrite <- !app_assoc. etransitivity; [apply submseteq_app; [reflexivity|exact H2]|].
  rewrite (Permutation_app_swap_app _ (fresh_packets b1 evs)), (Permutation_app_swap_app _ (fresh_packets b1 evs)).
  by apply submseteq_skips_l.
Qed.

Lemma plays_decoded evs b b' ns : jb_run b evs = (b', ns) → (plays b evs).*2 = decoded ns.
Proof.
  revert b ns. induction evs as [|e evs IH]; intros b ns; cbn [jb_run plays].
  { by intros [= <- <-]. }
  destruct (jb_step b e) as [b1 n] eqn:He. destruct (jb_run b1 evs) as [b2 ns2] eqn:Hr. intros [= <- <-].
  apply IH in Hr. destruct n as [[]|]; cbn; by f_equal/=.
Qed.
Lemma fresh_arrived evs b : (fresh_packets b evs).*2 ⊆+ arrived evs.
Proof.
  revert b. induction evs as [|e evs IH]; intros b; [done|]. cbn [fresh_packets]. specialize (IH (jb_step b e).1).
  unfold arrived in *. destruct e as [seq ts p at_| |]; [|exact IH..]. cbn.
  destruct (_ =? _); cbn; [by apply submseteq_cons|by apply submseteq_skip].
Qed.

(** ** Lemmas: the history of numbers *)

(** No packet comes 256 numbers or more behind the newest: the history has a
    place for each of those it may be a copy of. *)
Definition near (b : JitterBuffer) (e : JbEvent) : bool :=
  match e, ar_highest (jb_arr b) with
  | Ev_Packet seq ts _ _, Some (h, _) => h - Z.of_nat HISTORY <? (extended (jb_arr b) seq ts).1
  | _, _ => true
  end.
Fixpoint in_window (b : JitterBuffer) (evs : list JbEvent) : bool :=
  match evs with
  | [] => true
  | e :: evs => near b e && in_window (jb_step b e).1 evs
  end.

(** What of an arrival the history is about. *)
Definition seen_of (b : JitterBuffer) : list Z * option (Z * Z) := (ar_seen (jb_arr b), ar_highest (jb_arr b)).

(** The history remembers the numbers [l] that came, while they are near. *)
Record remembers (l : list Z) (b : JitterBuffer) : Prop := {
  rm_length : length (ar_seen (jb_arr b)) = HISTORY;
  rm_seen : ∀ x, x ∈ l → ∃ h t, ar_highest (jb_arr b) = Some (h, t) ∧ x ≤ h
    ∧ (h - Z.of_nat HISTORY < x → ar_seen (jb_arr b) !! Z.to_nat (x mod Z.of_nat HISTORY) = Some x);
}.
Lemma remembers_same l b b' : seen_of b' = seen_of b → remembers l b → remembers l b'.
Proof. intros [= E1 E2] [Hl Hs]. split; [by rewrite E1|]. rewrite E1, E2. exact Hs. Qed.

Lemma near_same_place n x y : 0 < n → x mod n = y mod n → - n < x - y < n → x = y.
Proof.
  intros Hn He Hd. pose proof (Z.div_mod x n ltac:(lia)) as Ex. pose proof (Z.div_mod y n ltac:(lia)) as Ey.
  assert (x / n = y / n) as Eq by nia. rewrite Ex, Ey, Eq, He. done.
Qed.

(** A new number is noted in its place. *)
Lemma remembers_note l cfg ext ts at_ b b' :
  remembers l b → (∀ h t, ar_highest (jb_arr b) = Some (h, t) → h - Z.of_nat HISTORY < ext) →
  seen_of b' = seen_of (set_arr (note_arrival cfg ext ts at_ (jb_arr b)) b) → remembers (ext :: l) b'.
Proof.
  intros [Hl Hs] Hnear E. eapply remembers_same; [exact E|]. clear E b'.
  assert (0 ≤ ext mod Z.of_nat HISTORY < Z.of_nat HISTORY) as Hm by (apply Z.mod_pos_bound; unfold HISTORY; lia).
  split; cbn [set_arr note_arrival jb_arr ar_seen ar_highest].
  - by rewrite length_insert.
  - set (new := match ar_highest (jb_arr b) with Some _ => _ | None => _ end).
    assert (∃ h t, new = Some (h, t) ∧ ext ≤ h ∧ h - Z.of_nat HISTORY < ext
      ∧ (∀ h0 t0, ar_highest (jb_arr b) = Some (h0, t0) → h0 ≤ h)) as (h&t&Hnew&Hle&Hwin&Hold).
    { unfold new. destruct (ar_highest (jb_arr b)) as [[h0 t0]|]; [destruct (Z.ltb_spec h0 ext)|].
      - exists ext, ts. split_and!; [done|lia|unfold HISTORY; lia|intros ? ? [= <- <-]; lia].
      - exists h0, t0. split_and!; [done|lia|by eapply Hnear|intros ? ? [= <- <-]; lia].
      - exists ext, ts. split_and!; [done|lia|unfold HISTORY; lia|done]. }
    rewrite Hnew. intros x [->|Hx]%elem_of_cons; exists h, t; (split; [done|]).
    + split; [lia|]. intros _. apply list_lookup_insert_eq. rewrite Hl. lia.
    + destruct (Hs x Hx) as (h0&t0&Hh&Hxh&Hin). specialize (Hold _ _ Hh). split; [lia|]. intros Hxw.
      destruct (decide (x = ext)) as [->|Hne]; [apply list_lookup_insert_eq; rewrite Hl; lia|].
      rewrite list_lookup_insert_ne; [apply Hin; lia|]. intros Ep. apply Hne. symmetry.
      assert (0 ≤ x mod Z.of_nat HISTORY < Z.of_nat HISTORY) as Hmx by (apply Z.mod_pos_bound; unfold HISTORY; lia).
      apply (near_same_place (Z.of_nat HISTORY)); [unfold HISTORY; lia|lia|lia].
Qed.

Lemma place_packet_seen ext ts at_ b b' : place_packet ext ts at_ b = Some b' → seen_of b' = seen_of b.
Proof.
  unfold place_packet. destruct (jb_state b).
  - by intros [= <-].
  - destruct (ext <? jb_next_seq b); cbn; destruct (ext <? _); by intros [= <-].
  - destruct (_ <? _); [done|by intros [= <-]].
  - destruct (_ <? _); [done|]. destruct (_ <? ts); by intros [= <-].
Qed.
Lemma insert_packet_seen seq ts p at_ b :
  match fresh_packet b (Ev_Packet seq ts p at_) with
  | None => seen_of (insert_packet seq ts p at_ b) = seen_of b
  | Some (ext, _) => ∃ ets, seen_of (insert_packet seq ts p at_ b) = seen_of (set_arr (note_arrival (jb_cfg b) ext ets at_ (jb_arr b)) b)
  end.
Proof.
  unfold fresh_packet, insert_packet. destruct (extended _ seq ts) as [ext ets]. cbn [fst].
  destruct (_ =? ext); [done|]. exists ets. set (b1 := set_arr _ (count N_received 1 b)).
  destruct (place_packet ext ets at_ b1) as [b2|] eqn:Hp; [|done]. apply place_packet_seen in Hp.
  change (seen_of b1 = seen_of (set_arr (note_arrival (jb_cfg b) ext ets at_ (jb_arr b)) b)) with (seen_of b1 = seen_of b1).
  transitivity (seen_of b2); [|exact Hp]. unfold resync. by destruct (_ <=? _).
Qed.

Lemma trim_seen b : seen_of (trim_delay b) = seen_of b.
Proof. destruct (trim_cases b) as [(t&_&_&_&_&->)|(s&t&_&_&_&_&->)]; done. Qed.
Lemma play_seen b : seen_of (play b).1 = seen_of b.
Proof.
  unfold play. rewrite <- (trim_seen b). generalize (trim_delay b). intros b1. unfold play_due, play_missing.
  destruct (slot_of b1 _) as [s|]; [by destruct (_ <? js_ts s)|].
  destruct (_ || _); [|done]. destruct (_ && f_ltb _ _); [done|].
  match goal with |- context [match ?x with Some p => _ | None => _ end] => by destruct x end.
Qed.
Lemma decode_tick_seen now used b : seen_of (decode_tick now used b).1 = seen_of b.
Proof.
  unfold decode_tick. assert (seen_of (next_tick now b).1 = seen_of b) as Hn.
  { unfold next_tick. destruct (jb_state b) as [|until had| |ticks]; [done|..].
    - destruct (until <=? now); [by rewrite play_seen|by destruct had].
    - apply play_seen.
    - unfold take_hinted_loss. by destruct (negb _). }
  destruct (next_tick now b) as [b1 n]. rewrite <- Hn. destruct n; try done. by destruct (used p).
Qed.

(** A number that came is new once: the numbers that pass the history don't
    repeat. *)
Lemma fresh_once evs b l : remembers l b → in_window b evs = true →
  NoDup (fresh_packets b evs).*1 ∧ (∀ x, x ∈ (fresh_packets b evs).*1 → x ∉ l).
Proof.
  revert b l. induction evs as [|e evs IH]; intros b l Hr; [split; [constructor|by intros x ?%elem_of_nil]|].
  cbn [in_window fresh_packets]. intros [Hnear Hw]%andb_true_iff.
  assert (match fresh_packet b e with
    | Some (ext, _) => remembers (ext :: l) (jb_step b e).1 ∧ ext ∉ l | None => remembers l (jb_step b e).1 end) as Hstep.
  { destruct e as [seq ts p at_|seq|now used]; cbn [jb_step fst].
    - pose proof (insert_packet_seen seq ts p at_ b) as Hi. cbn in Hnear. unfold fresh_packet in *.
      destruct (extended (jb_arr b) seq ts) as [ext ets]. cbn [fst] in *.
      destruct (Z.eqb_spec (default 0 (ar_seen (jb_arr b) !! Z.to_nat (ext mod Z.of_nat HISTORY))) ext) as [E|E];
        [by eapply remembers_same|]. destruct Hi as [ets' Hi]. split.
      + eapply remembers_note; [exact Hr| |exact Hi]. intros h t Hh. rewrite Hh in Hnear. by apply Z.ltb_lt in Hnear.
      + intros Hin. destruct (rm_seen _ _ Hr ext Hin) as (h&t&Hh&_&Hs). rewrite Hh in Hnear. apply Z.ltb_lt in Hnear.
        by rewrite (Hs Hnear) in E.
    - eapply remembers_same; [|exact Hr]. unfold hint_lost, seen_of. by destruct (ar_highest _) as [[]|] eqn:E; cbn; rewrite ?E.
    - pose proof (decode_tick_seen now used b) as Hd. destruct (decode_tick now used b). by eapply remembers_same. }
  destruct (fresh_packet b e) as [[ext p]|]; cbn [option_list option_rect app].
  - destruct Hstep as [Hr' Hn]. destruct (IH _ _ Hr' Hw) as [Hd Hl]. rewrite fmap_cons. split.
    + constructor; [|done]. intros Hin. apply (Hl _ Hin). apply list_elem_of_here.
    + intros x [->|Hx]%elem_of_cons; [done|]. intros Hxl. apply (Hl _ Hx). by apply list_elem_of_further.
  - by apply IH.
Qed.
Lemma new_remembers cfg : remembers [] (JitterBuffer_new cfg).
Proof. split; [by cbn [JitterBuffer_new jb_arr ar_seen]; rewrite length_replicate|by intros x ?%elem_of_nil]. Qed.

(** ** Lemmas: the counters *)

(** The counters after [T] ticks that were more than opening silence and [P]
    packets, with [pending], the running concealment and the packets held. *)
Record counts_ok (T P : Z) (n : Ctr → Z) (pending run held : Z) : Prop := {
  co_ticks : n N_decoded + n N_fec + n N_concealed + n N_dtx + pending = T;
  co_packets : n N_received + n N_duplicate = P;
  co_held : n N_late + n N_dropped + n N_decoded + held ≤ n N_received;
  co_nonneg : ∀ c, 0 ≤ n c;
  co_pending : 0 ≤ pending;
  co_run : 0 ≤ run ≤ n N_concealed;
  co_held0 : 0 ≤ held
}.

Lemma upd_eq c k n : upd c k n c = u64 (n c + k).
Proof. unfold upd. by rewrite bool_decide_eq_true_2. Qed.
Lemma upd_ne c c' k n : c' ≠ c → upd c k n c' = n c'.
Proof. intros. unfold upd. by rewrite bool_decide_eq_false_2. Qed.

Ltac counts :=
  match goal with H : counts_ok _ _ ?n _ _ _ |- _ =>
    let N := fresh in destruct H as [?Ht ?Hp ?Hh N ?Hpe ?Hr ?Hh0];
    pose proof (N N_received); pose proof (N N_late); pose proof (N N_duplicate); pose proof (N N_decoded);
    pose proof (N N_fec); pose proof (N N_concealed); pose proof (N N_dtx); pose proof (N N_dropped)
  end;
  split; try (match goal with |- ∀ _ : Ctr, _ => intros [] end); repeat first [rewrite upd_eq | rewrite upd_ne by done]; rewrite ?u64_small, ?u32_small by lia; lia.

Section counts.
Context (T P : Z) (n : Ctr → Z) (pending run held : Z).
Hypothesis Hok : counts_ok T P n pending run held.
Hypothesis HT : 0 ≤ T < 2 ^ 32.
Hypothesis HP : 0 ≤ P < 2 ^ 64.

Lemma c_pending p' : 0 ≤ p' → counts_ok (T - pending + p') P n p' run held.
Proof. intros. counts. Qed.
Lemma c_run0 : counts_ok T P n pending 0 held.
Proof. counts. Qed.
Lemma c_concealed k :
  0 ≤ k → T + k < 2 ^ 32 → counts_ok (T + k) P (upd N_concealed k n) pending (u32 (run + k)) held.
Proof. intros. counts. Qed.
Lemma c_dtx k : 0 ≤ k → T + k < 2 ^ 32 → counts_ok (T + k) P (upd N_dtx k n) pending run held.
Proof. intros. counts. Qed.
Lemma c_fec : T + 1 < 2 ^ 32 → counts_ok (T + 1) P (upd N_fec 1 n) pending run held ∧ 1 ≤ upd N_fec 1 n N_fec.
Proof.
  intros. assert (1 ≤ upd N_fec 1 n N_fec).
  { destruct Hok as [? _ _ N ? _ _]. pose proof (N N_decoded). pose proof (N N_fec). pose proof (N N_concealed).
    pose proof (N N_dtx). rewrite upd_eq, u64_small; lia. }
  split; [counts|done].
Qed.
Lemma c_decoded : T + 1 < 2 ^ 32 → 1 ≤ held → counts_ok (T + 1) P (upd N_decoded 1 n) pending run (held - 1).
Proof. intros. counts. Qed.
Lemma c_dropped : 1 ≤ held → counts_ok T P (upd N_dropped 1 n) pending run (held - 1).
Proof. intros. counts. Qed.
Lemma c_duplicate : P + 1 < 2 ^ 64 → counts_ok T (P + 1) (upd N_duplicate 1 n) pending run held.
Proof. intros. counts. Qed.
Lemma c_late : P + 1 < 2 ^ 64 → counts_ok T (P + 1) (upd N_late 1 (upd N_received 1 n)) pending run held.
Proof. intros. counts. Qed.
Lemma c_store held' :
  P + 1 < 2 ^ 64 → 0 ≤ held' ≤ held + 1 → counts_ok T (P + 1) (upd N_received 1 n) pending run held'.
Proof. intros. counts. Qed.
Lemma c_refused :
  1 ≤ n N_fec → counts_ok T P
    (upd N_concealed 1 (fec_down n)) pending (u32 (run + 1)) held.
Proof.
  intros Hf. assert (fec_down n N_fec = n N_fec - 1) as E1.
  { unfold fec_down, u64_sat_sub. rewrite bool_decide_eq_true_2 by done. lia. }
  assert (∀ c, c ≠ N_fec → fec_down n c = n c) as E2
    by (intros c Hc; unfold fec_down; by rewrite bool_decide_eq_false_2).
  assert (counts_ok (T - 1) P (fec_down n) pending run held) as Hd.
  { destruct Hok as [Ht Hp Hh N Hpe Hr Hh0]. split; try lia; rewrite ?E1, ?E2 by done; try lia.
    intros c. destruct (base.decide (c = N_fec)) as [->|Hc]; [lia|by rewrite E2]. }
  clear Hok E1 E2. replace T with (T - 1 + 1) by lia.
  assert (T - 1 + 1 < 2 ^ 32) by lia. counts.
Qed.
Lemma c_held held' : 0 ≤ held' ≤ held → counts_ok T P n pending run held'.
Proof. intros. counts. Qed.
End counts.

Definition buf_counts (T P : Z) (b : JitterBuffer) : Prop :=
  counts_ok T P (ta_n (jb_tally b)) (ta_pending (jb_tally b)) (ta_conceal_run (jb_tally b)) (jb_buffered b).

(** The ticks before anything is heard: silence that is not counted. *)
Definition opening (now : Z) (b : JitterBuffer) : bool :=
  match jb_state b with
  | St_Idle => true
  | St_Prebuffer until had_audio => negb had_audio && (now <? until)
  | _ => false
  end.

Definition fec_counted (b : JitterBuffer) (n : Next) : Prop :=
  if n is Nx_Fec _ then 1 ≤ ta_n (jb_tally b) N_fec else True.

Section counted.
Context (T P : Z).
Hypothesis HT : 0 ≤ T < 2 ^ 32.
Hypothesis HT1 : T + 1 < 2 ^ 32.
Hypothesis HP : 0 ≤ P < 2 ^ 64.

Lemma play_missing_counts h b b' n :
  buf_counts T P b → play_missing h b = (b', n) → buf_counts (T + 1) P b' ∧ fec_counted b' n.
Proof using HT HT1 HP.
  intros Hc. unfold play_missing. destruct (_ && f_ltb _ _).
  { intros [= <- <-]. split; [by apply c_concealed|done]. }
  destruct (slot_of _ _) as [s|]; [destruct (_ <=? FRAME + HALF_FRAME)|]; intros [= <- <-].
  - destruct (c_fec T P _ _ _ _ Hc HT1) as [Hc' Hf]. split; [|exact Hf]. by eapply c_run0.
  - split; [by apply c_concealed|done].
  - split; [by apply c_concealed|done].
Qed.

Lemma slot_held b seq s : ring_ok b → slot_of b seq = Some s → 1 ≤ jb_buffered b.
Proof.
  intros Hok [_ Hi]%slot_of_Some. rewrite (ro_buffered b Hok).
  assert (s ∈ stored b) as Hin by (apply elem_of_stored; by eexists).
  destruct (stored b); [by apply not_elem_of_nil in Hin|]. rewrite zlen_cons. pose proof (zlen_nonneg l). lia.
Qed.

Lemma play_counts b b' n :
  ring_ok b → jb_state b = St_Playing → buf_counts T P b → play b = (b', n) →
  buf_counts (T + 1) P b' ∧ fec_counted b' n.
Proof using HT HT1 HP.
  intros Hok0 Hst0 Hc0. destruct (trim_ring b Hok0 Hst0) as (Hok&Hst&_&_).
  assert (buf_counts T P (trim_delay b)) as Hc.
  { destruct (trim_cases b) as [(t&E1&E2&E3&_&->)|(s&t&Hs&E1&E2&E3&->)]; unfold buf_counts;
      cbn [jb_tally set_tally jb_buffered take_due set_clock set_slots]; rewrite E1, E2, E3; [exact Hc0|].
    apply (c_dropped T P); try done. by eapply slot_held. }
  unfold play. revert Hok Hst Hc. generalize (trim_delay b). intros b1 Hok Hst Hc. unfold play_due.
  destruct (slot_of b1 (jb_next_seq b1)) as [s|] eqn:Hs.
  - destruct (_ <? js_ts s); intros [= <- <-]; (split; [|done]).
    + apply (c_run0 (T + 1) P (upd N_dtx 1 (ta_n (jb_tally b1))) _ (ta_conceal_run (jb_tally b1))). by apply c_dtx.
    + apply (c_run0 (T + 1) P (upd N_decoded 1 (ta_n (jb_tally b1))) _ (ta_conceal_run (jb_tally b1))).
      apply c_decoded; try done. by eapply slot_held.
  - destruct (_ || _); [by apply play_missing_counts|]. intros [= <- <-]. split; [|done].
    replace (T + 1) with (T - ta_pending (jb_tally b1) + 1); [by apply c_pending|].
    rewrite (ro_pending b1 Hok); [lia|]. intros t. by rewrite Hst.
Qed.

Lemma next_tick_counts now b b' n :
  ring_ok b → buf_counts T P b → next_tick now b = (b', n) →
  buf_counts (if opening now b then T else T + 1) P b' ∧ fec_counted b' n.
Proof using HT HT1 HP.
  intros Hok Hc. unfold next_tick, opening. destruct (jb_state b) as [|until had| |ticks] eqn:Hst.
  - intros [= <- <-]. done.
  - rewrite (Z.ltb_antisym until now). destruct (until <=? now); cbn [negb].
    + rewrite andb_false_r. apply play_counts; [|done|done].
      apply (ring_ok_move b); try done; [|cbn; intros [|[]]; done|].
      * intros s (i&Hi)%elem_of_stored. by apply (ro_place b Hok i s).
      * intros _. apply (ro_pending b Hok). by rewrite Hst.
    + destruct had; cbn [negb andb]; intros [= <- <-]; (split; [|done]); [by apply c_dtx|done].
  - by apply play_counts.
  - unfold take_hinted_loss. destruct (negb _).
    + assert (buf_counts (T + 1) P (tally_with (λ t, with_pending (u32 (ta_pending t + 1)) t)
        (jb_set_state (St_Starved (u32 (ticks + 1))) b))) as Hc'.
      { pose proof (co_pending _ _ _ _ _ _ Hc). pose proof (co_ticks _ _ _ _ _ _ Hc).
        pose proof (co_nonneg _ _ _ _ _ _ Hc N_decoded). pose proof (co_nonneg _ _ _ _ _ _ Hc N_fec).
        pose proof (co_nonneg _ _ _ _ _ _ Hc N_concealed). pose proof (co_nonneg _ _ _ _ _ _ Hc N_dtx).
        unfold buf_counts. cbn. rewrite u32_small by lia.
        replace (T + 1) with (T - ta_pending (jb_tally b) + (ta_pending (jb_tally b) + 1)) by lia.
        apply c_pending; try done. lia. }
      intros [= <- <-]. split; [exact Hc'|by destruct (_ <? _)].
    + intros [= <- <-]. split; [|done].
      pose proof (co_pending _ _ _ _ _ _ Hc). pose proof (co_ticks _ _ _ _ _ _ Hc).
      pose proof (co_nonneg _ _ _ _ _ _ Hc N_decoded). pose proof (co_nonneg _ _ _ _ _ _ Hc N_fec).
      pose proof (co_nonneg _ _ _ _ _ _ Hc N_concealed). pose proof (co_nonneg _ _ _ _ _ _ Hc N_dtx).
      unfold buf_counts. cbn. rewrite u32_small by lia.
      replace (T + 1) with (T - ta_pending (jb_tally b) + 0 + (ta_pending (jb_tally b) + 1)) by lia.
      apply c_concealed; try lia. by eapply c_pending.
Qed.

Lemma decode_tick_counts now used b b' n :
  ring_ok b → buf_counts T P b → decode_tick now used b = (b', n) →
  buf_counts (if opening now b then T else T + 1) P b'.
Proof using HT HT1 HP.
  intros Hok Hc. unfold decode_tick. destruct (next_tick now b) as [b1 n1] eqn:Ht.
  destruct (next_tick_counts _ _ _ _ Hok Hc Ht) as [Hc1 Hf]. destruct n1; try (by intros [= <- <-]).
  destruct (used p); intros [= <- <-]; [done|]. apply c_refused; try done. destruct (opening now b); lia.
Qed.
End counted.

Lemma place_packet_counts T P ext ts at_ b b' held :
  0 ≤ T < 2 ^ 32 → 0 ≤ P < 2 ^ 64 → ring_ok b →
  counts_ok T P (ta_n (jb_tally b)) (ta_pending (jb_tally b)) (ta_conceal_run (jb_tally b)) held →
  place_packet ext ts at_ b = Some b' →
  counts_ok T P (ta_n (jb_tally b')) (ta_pending (jb_tally b')) (ta_conceal_run (jb_tally b')) held
  ∧ jb_buffered b' = jb_buffered b.
Proof.
  intros HT HP Hok Hc. unfold place_packet. destruct (jb_state b).
  - by intros [= <-].
  - intros [= <-]. by destruct (ext <? jb_next_seq b), (ext <? ar_base_seq _).
  - destruct (ext <? _); [done|]. by intros [= <-].
  - destruct (Z.ltb_spec ext (jb_next_seq b)); [done|].
    pose proof (co_pending _ _ _ _ _ _ Hc) as Hpe. set (pe := ta_pending (jb_tally b)) in *.
    pose proof (c_pending T P _ _ _ _ Hc 0 ltac:(lia)) as Hc0.
    assert (0 ≤ T - pe) as Hpt.
    { pose proof (co_ticks _ _ _ _ _ _ Hc0). pose proof (co_nonneg _ _ _ _ _ _ Hc0 N_decoded).
      pose proof (co_nonneg _ _ _ _ _ _ Hc0 N_fec). pose proof (co_nonneg _ _ _ _ _ _ Hc0 N_concealed).
      pose proof (co_nonneg _ _ _ _ _ _ Hc0 N_dtx). lia. }
    destruct (_ <? ts); intros [= <-]; (split; [|done]); cbn.
    + set (lost := Z.min _ pe). assert (0 ≤ lost ≤ pe) by lia.
      replace T with (T - pe + 0 + lost + (pe - lost)) by lia.
      apply c_dtx; try lia. apply c_concealed; try lia. exact Hc0.
    + replace T with (T - pe + 0 + pe) by lia. apply c_concealed; try lia. exact Hc0.
Qed.

Lemma insert_packet_counts T P seq ts p at_ b :
  0 ≤ T < 2 ^ 32 → 0 ≤ P → P + 1 < 2 ^ 64 → ring_ok b → buf_counts T P b →
  buf_counts T (P + 1) (insert_packet seq ts p at_ b).
Proof.
  intros HT HP0 HP Hok Hc. pose proof (proj1 (insert_packet_ring seq ts p at_ b Hok)) as Hok'. revert Hok'.
  unfold insert_packet. destruct (extended _ seq ts) as [ext ets].
  destruct (_ =? ext); [intros _; by apply c_duplicate|].
  set (b1 := set_arr _ _). assert (ring_ok b1) as Hok1 by (destruct Hok as [? ? ? ? ? ?]; by split).
  destruct (place_packet ext ets at_ b1) as [b2|] eqn:Hpl; intros Hok'; [|by apply c_late].
  assert (counts_ok T (P + 1) (ta_n (jb_tally b1)) (ta_pending (jb_tally b1)) (ta_conceal_run (jb_tally b1))
    (jb_buffered b + 1)) as Hc1.
  { apply (c_store T P _ _ _ _ Hc); try done. pose proof (co_held0 _ _ _ _ _ _ Hc). lia. }
  destruct (place_packet_counts T (P + 1) _ _ _ _ _ _ ltac:(lia) ltac:(lia) Hok1 Hc1 Hpl) as [Hc2 Hb2].
  set (b3 := resync ext ets at_ b2) in *.
  assert (jb_tally b3 = jb_tally b2 ∧ jb_buffered b3 ≤ jb_buffered b) as [Et Hb3].
  { pose proof (co_held0 _ _ _ _ _ _ Hc). change (jb_buffered b1) with (jb_buffered b) in Hb2.
    unfold b3, resync. destruct (_ <=? _); [done|]. split; [done|lia]. }
  pose proof (ro_buffered _ Hok') as Hz. pose proof (zlen_nonneg (stored (store_packet ext ets p b3))).
  unfold buf_counts. change (jb_tally (store_packet ext ets p b3)) with (jb_tally b3). rewrite Et.
  eapply c_held; [exact Hc2|]. split; [lia|]. unfold store_packet. cbn [jb_buffered set_slots].
  destruct (slot_at b3 _); lia.
Qed.

(** The ticks of a run that are more than opening silence. *)
Fixpoint played_ticks (b : JitterBuffer) (evs : list JbEvent) : Z :=
  match evs with
  | [] => 0
  | e :: evs =>
    (if e is Ev_Tick now _ then if opening now b then 0 else 1 else 0) + played_ticks (jb_step b e).1 evs
  end.

Lemma played_ticks_bound b evs : 0 ≤ played_ticks b evs ≤ zlen evs.
Proof.
  revert b. induction evs as [|e evs IH]; intros b; [done|]. cbn [played_ticks]. rewrite zlen_cons.
  specialize (IH (jb_step b e).1). destruct e; [lia|lia|]. destruct (opening _ _); lia.
Qed.

Lemma run_counts evs T P b b' ns :
  0 ≤ T → 0 ≤ P → T + zlen evs < 2 ^ 32 → P + zlen evs < 2 ^ 64 → ring_ok b → buf_counts T P b →
  jb_run b evs = (b', ns) →
  buf_counts (T + played_ticks b evs) (P + zlen (arrived evs)) b'.
Proof.
  revert T P b ns. induction evs as [|e evs IH]; intros T P b ns HT HP HTe HPe Hok Hc; cbn [jb_run played_ticks].
  { intros [= <- <-]. change (zlen (arrived [])) with 0. by rewrite !Z.add_0_r. }
  rewrite zlen_cons in HTe, HPe. pose proof (zlen_nonneg evs).
  destruct (jb_step b e) as [b1 n] eqn:He. destruct (jb_run b1 evs) as [b2 ns2] eqn:Hr. intros [= <- <-].
  pose proof (proj1 (step_packets _ _ _ _ Hok He)) as Hok1. cbn [fst].
  destruct e as [seq ts p at_|seq|now used]; cbn [jb_step] in He; cbn match.
  - injection He as <- <-. change (arrived (_ :: evs)) with (p :: arrived evs). rewrite zlen_cons, Z.add_0_l, (Z.add_assoc P).
    apply (IH T (P + 1) _ ns2 ltac:(lia) ltac:(lia) ltac:(lia) ltac:(lia) Hok1); [|exact Hr].
    apply insert_packet_counts; try done; lia.
  - injection He as <- <-. change (arrived (_ :: evs)) with (arrived evs). rewrite Z.add_0_l.
    apply (IH T P _ ns2 HT HP ltac:(lia) ltac:(lia) Hok1); [|exact Hr].
    unfold hint_lost. by destruct (ar_highest _) as [[]|].
  - destruct (decode_tick now used b) as [b1' n1] eqn:Ht. injection He as <- <-.
    change (arrived (_ :: evs)) with (arrived evs). rewrite Z.add_assoc.
    apply (IH _ P b1' ns2); [destruct (opening now b); lia|done|destruct (opening now b); lia|lia|done| |exact Hr].
    pose proof (decode_tick_counts T P ltac:(lia) ltac:(lia) ltac:(lia) _ _ _ _ _ Hok Hc Ht) as Hc1.
    destruct (opening now b); by rewrite ?Z.add_0_r.
Qed.

(** ** Lemmas: the order of playing *)

(** A packet that moves the playout point back: one that is older, while the
    buffer fills up before a talkspurt. *)
Definition rewinds (b : JitterBuffer) (e : JbEvent) : bool :=
  match e, jb_state b with
  | Ev_Packet seq ts _ _, St_Prebuffer _ _ => (extended (jb_arr b) seq ts).1 <? jb_next_seq b
  | _, _ => false
  end.
Fixpoint no_rewind (b : JitterBuffer) (evs : list JbEvent) : bool :=
  match evs with
  | [] => true
  | e :: evs => negb (rewinds b e) && no_rewind (jb_step b e).1 evs
  end.

Lemma insert_packet_next seq ts p at_ b :
  ring_ok b → rewinds b (Ev_Packet seq ts p at_) = false → jb_state b ≠ St_Idle →
  jb_state (insert_packet seq ts p at_ b) ≠ St_Idle ∧ jb_next_seq b ≤ jb_next_seq (insert_packet seq ts p at_ b).
Proof.
  intros Hok Hrw Hid. unfold rewinds in Hrw. unfold insert_packet.
  destruct (extended _ seq ts) as [ext ets]. cbn [fst] in Hrw.
  destruct (_ =? ext); [split; [exact Hid|cbn; lia]|]. set (b1 := set_arr _ _).
  assert (ring_ok b1) as Hok1 by (destruct Hok as [? ? ? ? ? ?]; by split).
  destruct (place_packet ext ets at_ b1) as [b2|] eqn:Hpl; [|split; [exact Hid|cbn; lia]].
  destruct (place_packet_ring _ _ _ _ _ Hok1 Hpl) as (Hok2&_&_&Hle2&Hid2&Hsv2).
  destruct (resync_ring ext ets at_ b2 Hok2 Hle2 Hid2 Hsv2) as (_&_&Hle3&Hid3&_).
  split; [exact Hid3|]. cbn [store_packet set_slots jb_next_seq].
  enough (jb_next_seq b ≤ jb_next_seq b2) by lia. assert (jb_next_seq b1 = jb_next_seq b) as E1 by done.
  revert Hpl. clear -Hrw Hid E1. unfold place_packet.
  change (jb_state b1) with (jb_state b). change (jb_next_seq b1) with (jb_next_seq b).
  destruct (jb_state b); [done|rewrite Hrw; intros [= <-]; destruct (ext <? ar_base_seq _); cbn in *; lia|
    destruct (Z.ltb_spec ext (jb_next_seq b)); [done|intros [= <-]; cbn in *; lia]|].
  destruct (Z.ltb_spec ext (jb_next_seq b)); [done|]. destruct (_ <? ets); intros [= <-]; cbn; lia.
Qed.

Lemma play_state b b' n :
  ring_ok b → jb_state b = St_Playing → play b = (b', n) → jb_state b' = St_Playing ∨ jb_state b' = St_Starved 1.
Proof.
  intros Hok Hst. destruct (trim_ring b Hok Hst) as (Hok1&Hst1&_&_). unfold play.
  revert Hok1 Hst1. generalize (trim_delay b). intros b1 Hok1 Hst1. unfold play_due.
  destruct (slot_of b1 _) as [s|] eqn:Hs; [destruct (_ <? js_ts s); intros [= <- <-]; by left|].
  destruct (_ || _); [|intros [= <- <-]; by right].
  intros Hm. left. by apply (play_missing_ring _ _ _ _ Hok1 Hst1 Hs Hm).
Qed.

Lemma decode_tick_state now used b b' n :
  ring_ok b → decode_tick now used b = (b', n) →
  (jb_state b = St_Idle ∧ b' = b ∧ n = Nx_Silence) ∨ (jb_state b ≠ St_Idle ∧ jb_state b' ≠ St_Idle).
Proof.
  intros Hok. unfold decode_tick.
  assert (∀ b1 n1, next_tick now b = (b1, n1) →
    (jb_state b = St_Idle ∧ b1 = b ∧ n1 = Nx_Silence) ∨ (jb_state b ≠ St_Idle ∧ jb_state b1 ≠ St_Idle)) as Hnext.
  { intros b1 n1 Ht. pose proof (next_tick_ring _ _ _ _ Hok Ht) as _. revert Ht. unfold next_tick.
    destruct (jb_state b) as [|until had| |ticks] eqn:Hst; [intros [= <- <-]; by left|right; split; [done|]..].
    - destruct (until <=? now).
      + assert (ring_ok (jb_set_state St_Playing b)) as Hok1.
        { apply (ring_ok_move b); try done; [|cbn; intros [|[]]; done|intros _; apply (ro_pending b Hok); by rewrite Hst].
          intros s (i&Hi)%elem_of_stored. by apply (ro_place b Hok i s). }
        by destruct (play_state _ _ _ Hok1 eq_refl Ht) as [-> | ->].
      + destruct had; injection Ht as <- <-; [|by rewrite Hst]. cbn. by rewrite Hst.
    - by destruct (play_state _ _ _ Hok Hst Ht) as [-> | ->].
    - revert Ht. unfold take_hinted_loss. by destruct (negb _); intros [= <- <-]. }
  destruct (next_tick now b) as [b1 n1]. intros Ht. specialize (Hnext _ _ eq_refl).
  destruct n1; injection Ht as <- <-; try done. destruct Hnext as [(_&_&[=])|Hn]. right. by destruct (used p).
Qed.

Lemma plays_order evs b :
  ring_ok b → no_rewind b evs = true →
  StronglySorted Z.lt (plays b evs).*1
  ∧ (jb_state b ≠ St_Idle → Forall (λ x, jb_next_seq b ≤ x) (plays b evs).*1).
Proof.
  revert b. induction evs as [|e evs IH]; intros b Hok; [split; constructor|]. cbn [no_rewind plays].
  rewrite andb_true_iff, negb_true_iff. intros [Hrw Hn]. destruct (jb_step b e) as [b' n] eqn:He.
  pose proof (proj1 (step_packets _ _ _ _ Hok He)) as Hok'. cbn [fst] in Hn. destruct (IH b' Hok' Hn) as [Hs Hb].
  destruct e as [seq ts p at_|seq|now used]; cbn [jb_step] in He.
  - injection He as <- <-. split; [done|]. intros Hid.
    destruct (insert_packet_next seq ts p at_ b Hok Hrw Hid) as [Hid' Hle].
    eapply Forall_impl; [by apply Hb|]. intros x. cbn. lia.
  - injection He as <- <-. split; [done|]. intros Hid. revert Hb. unfold hint_lost.
    destruct (ar_highest _) as [[]|]; auto.
  - destruct (decode_tick now used b) as [b1 n1] eqn:Ht. injection He as <- <-.
    destruct (decode_tick_ring _ _ _ _ _ Hok Ht) as (_&Hle&Hto).
    destruct (decode_tick_state _ _ _ _ _ Hok Ht) as [(Hid&->&->)|[Hid Hid1]]; [done|].
    specialize (Hb Hid1). destruct n1; cbn [tick_ok] in Hto; cycle 1.
    { destruct Hto as (s&<-&Hle2&Hnx&_). cbn [played option_list option_rect app fmap list_fmap fst]. split.
      - constructor; [done|]. eapply Forall_impl; [exact Hb|]. intros x. cbn. lia.
      - intros _. constructor; [lia|]. eapply Forall_impl; [exact Hb|]. intros x. cbn. lia. }
    all: split; [done|]; intros _; eapply Forall_impl; [exact Hb|]; intros x; cbn; lia.
Qed.

(** ** Lemmas: draining *)

Fixpoint jb_ticks (k : nat) (clock : nat → Z) (used : Payload → bool) (b : JitterBuffer) : JitterBuffer :=
  match k with
  | O => b
  | S k => jb_ticks k (λ i, clock (S i)) used (decode_tick (clock O) used b).1
  end.

(** How long the packet due may still hold the buffer up. *)
Definition hold_up (b : JitterBuffer) : nat :=
  match slot_of b (jb_next_seq b) with
  | Some s => Z.to_nat (js_ts s - jb_play_ts b)
  | None => Z.to_nat (MAX_WAIT_TICKS - ta_waited (jb_tally b))
  end.

(** One tick with packets held: one leaves, or the clock moves nearer. *)
Definition nearer (b b' : JitterBuffer) : Prop :=
  (length (stored b') < length (stored b))%nat
  ∨ jb_slots b' = jb_slots b
    ∧ (jb_next_seq b' = jb_next_seq b + 1 ∧ (∀ s, s ∈ stored b → jb_next_seq b < js_seq s)
       ∨ jb_next_seq b' = jb_next_seq b ∧ (hold_up b' < hold_up b)%nat).

Lemma play_due_nearer b b' n :
  ring_ok b → jb_state b = St_Playing → stored b ≠ [] → play_due b = (b', n) →
  jb_state b' = St_Playing ∧ nearer b b'.
Proof.
  intros Hok Hst Hne. unfold play_due. destruct (slot_of b (jb_next_seq b)) as [s|] eqn:Hs.
  - destruct (Z.ltb_spec (jb_play_ts b + HALF_FRAME) (js_ts s)) as [Hgap|Hgap]; intros [= <- <-]; (split; [exact Hst|]).
    + right. split; [done|]. right. split; [done|]. unfold hold_up.
      match goal with |- context [slot_of ?x (jb_next_seq ?x)] => change (slot_of x (jb_next_seq x)) with (slot_of b (jb_next_seq b)) end.
      rewrite Hs. cbn. change HALF_FRAME with 480 in Hgap. unfold FRAME, FRAME_SAMPLES. lia.
    + left. assert (∀ t, jb_state b ≠ St_Starved t) as Hns by (intros t; by rewrite Hst).
      destruct (take_due_ring b s Hok Hs Hns) as (_&HP&_). apply Permutation_length in HP. cbn [length] in HP.
      match goal with |- (length (stored ?x) < _)%nat => change (stored x) with (stored (take_due s b)) end. lia.
  - destruct ((0 <? jb_buffered b) || hinted b (jb_next_seq b)) eqn:Hor.
    + unfold play_missing. destruct (_ && f_ltb _ _) eqn:Hw.
      { intros [= <- <-]. split; [exact Hst|]. right. split; [done|]. right. split; [done|].
        rewrite !andb_true_iff, Z.ltb_lt in Hw. destruct Hw as [[_ Hw] _]. unfold hold_up.
        match goal with |- context [slot_of ?x (jb_next_seq ?x)] => change (slot_of x (jb_next_seq x)) with (slot_of b (jb_next_seq b)) end.
        rewrite Hs. cbn. unfold MAX_WAIT_TICKS in *. lia. }
      assert (∀ s, s ∈ stored b → jb_next_seq b < js_seq s) as Hlt by (intros s; by apply slot_of_None).
      match goal with |- context [slot_of ?x (jb_next_seq ?y + 1)] =>
        destruct (slot_of x (jb_next_seq y + 1)) as [s|] end;
        [destruct (_ <=? FRAME + HALF_FRAME)|]; intros [= <- <-];
        (split; [exact Hst|]; right; split; [done|]; by left).
    + apply orb_false_iff in Hor as [Hb%Z.ltb_ge _]. rewrite (ro_buffered b Hok) in Hb.
      destruct (stored b); [done|]. rewrite zlen_cons in Hb. pose proof (zlen_nonneg l). lia.
Qed.

Lemma decode_tick_nearer now used b b' n :
  ring_ok b → jb_state b = St_Playing → stored b ≠ [] → decode_tick now used b = (b', n) →
  (jb_state b' = St_Playing ∨ stored b' = []) ∧ nearer b b'.
Proof.
  intros Hok Hst Hne Ht.
  assert (∃ b2, play b = (b2, n) ∧ jb_state b' = jb_state b2 ∧ jb_slots b' = jb_slots b2
    ∧ jb_next_seq b' = jb_next_seq b2 ∧ hold_up b' = hold_up b2) as (b2&Hp&Est&Esl&Enx&Eho).
  { unfold decode_tick, next_tick in Ht. rewrite Hst in Ht. destruct (play b) as [b2 n2]. exists b2.
    destruct n2; injection Ht as <- <-; try (by split_and!). by destruct (used p). }
  assert (stored b' = stored b2) as Est' by (unfold stored; by rewrite Esl).
  rewrite Est, Est'. assert (nearer b b2 → nearer b b') as Hto.
  { unfold nearer. by rewrite Est', Esl, Enx, Eho. }
  destruct (trim_ring b Hok Hst) as (Hok1&Hst1&_&_).
  destruct (trim_cases b) as [(t&_&_&_&Hw&E)|(s&t&Hs&_&_&_&E)].
  - destruct (play_due_nearer (trim_delay b) b2 n Hok1 Hst1) as [Hst2 Hn]; [by rewrite E|exact Hp|].
    split; [by left|]. apply Hto. rewrite E in Hn. unfold nearer, hold_up in *.
    change (stored (set_tally t b)) with (stored b) in Hn. change (jb_slots (set_tally t b)) with (jb_slots b) in Hn.
    change (jb_next_seq (set_tally t b)) with (jb_next_seq b) in Hn. cbn [set_tally jb_tally jb_play_ts] in Hn.
    change (slot_of (set_tally t b) ?q) with (slot_of b q) in Hn. rewrite Hw in Hn. exact Hn.
  - assert (∀ t, jb_state b ≠ St_Starved t) as Hns by (intros t0; by rewrite Hst).
    destruct (take_due_ring b s Hok Hs Hns) as (_&HP&_). apply Permutation_length in HP. cbn [length] in HP.
    destruct (play_ring b b2 n Hok Hst Hp) as (Hok2&_&_).
    destruct (play_due_ring _ _ _ Hok1 Hst1 Hp) as (_&_&Hto2).
    assert (length (stored b2) ≤ length (stored (trim_delay b)))%nat as Hle.
    { destruct n; cbn in Hto2; [by apply submseteq_length|destruct Hto2 as (?&_&_&_&Hx); apply submseteq_length in Hx; cbn in Hx; lia|
        destruct Hto2 as [_ Hx]; by apply submseteq_length|by apply submseteq_length..]. }
    rewrite E in Hle. change (stored (set_tally t (take_due s b))) with (stored (take_due s b)) in Hle.
    split; [|apply Hto; left; lia].
    destruct (play_state _ _ _ Hok Hst Hp) as [H|H]; [by left|right]. apply (ro_starved b2 Hok2). by eexists.
Qed.

Lemma drains_from clock used b :
  ring_ok b → jb_state b = St_Playing → ∃ k, stored (jb_ticks k clock used b) = [].
Proof.
  remember (length (stored b)) as m eqn:Hm. revert clock b Hm.
  induction (lt_wf m) as [m _ IHm]. intros clock b Hm Hok Hst.
  destruct (stored b) as [|x l] eqn:Hl; [by exists O|].
  assert (x ∈ stored b) as Hx by (rewrite Hl; apply list_elem_of_here).
  assert (stored b ≠ []) as Hne by (by rewrite Hl). rewrite <- Hl in Hm. clear l Hl.
  remember (Z.to_nat (js_seq x - jb_next_seq b)) as d eqn:Hd. revert clock b Hm Hok Hst Hx Hne Hd.
  induction (lt_wf d) as [d _ IHd]. intros clock b Hm Hok Hst Hx Hne Hd.
  remember (hold_up b) as h eqn:Hh. revert clock b Hm Hok Hst Hx Hne Hd Hh.
  induction (lt_wf h) as [h _ IHh]. intros clock b Hm Hok Hst Hx Hne Hd Hh.
  destruct (decode_tick (clock O) used b) as [b' n] eqn:Ht.
  destruct (decode_tick_ring _ _ _ _ _ Hok Ht) as (Hok'&_&_).
  assert ((∃ k, stored (jb_ticks k (λ i, clock (S i)) used b') = []) → ∃ k, stored (jb_ticks k clock used b) = []) as Hgo.
  { intros [k Hk]. exists (S k). cbn [jb_ticks]. by rewrite Ht. }
  apply Hgo. destruct (decode_tick_nearer _ _ _ _ _ Hok Hst Hne Ht) as [[Hst'|Hnil] Hnear]; [|by exists O].
  destruct Hnear as [Hlt|[Hsl Hnear]].
  { apply (IHm (length (stored b'))); [lia|done|done|done]. }
  assert (stored b' = stored b) as Est by (unfold stored; by rewrite Hsl).
  destruct Hnear as [[Hnx Hall]|[Hnx Hlt]].
  - specialize (Hall x Hx). apply (IHd (Z.to_nat (js_seq x - jb_next_seq b'))); rewrite ?Est; try done. lia.
  - apply (IHh (hold_up b')); rewrite ?Est, ?Hnx; try done. lia.
Qed.

(** ** Properties *)

(** (C33) However packets arrive, are late, doubled or lost: as long as none
    comes 256 numbers or more behind the newest, each sequence number is
    decoded at most once, however many copies of it come and in whatever
    state the buffer is ([in_window]; an older copy can be played again,
    [old_copy_again]).  In any case each packet decoded is one that arrived;
    the ring's count is exact, and every packet counted as received was
    decoded, dropped, late, still held or given up. *)
Theorem each_packet_once cfg evs b ns :
  zlen evs < 2 ^ 32 → jb_run (JitterBuffer_new cfg) evs = (b, ns) →
  (in_window (JitterBuffer_new cfg) evs = true →
    NoDup ((plays (JitterBuffer_new cfg) evs).*1 ++ (js_seq <$> stored b)))
  ∧ (plays (JitterBuffer_new cfg) evs).*2 = decoded ns
  ∧ decoded ns ++ (js_payload <$> stored b) ⊆+ arrived evs
  ∧ jb_buffered b = zlen (stored b)
  ∧ (let n := ta_n (jb_tally b) in
     n N_received + n N_duplicate = zlen (arrived evs)
     ∧ n N_late + n N_dropped + n N_decoded + jb_buffered b ≤ n N_received).
Proof.
  intros Hl Hr. destruct (run_packets _ _ _ _ (new_ring cfg) Hr) as [Hok Hsub].
  rewrite (ro_idle _ (new_ring cfg) eq_refl), app_nil_r in Hsub.
  assert (buf_counts 0 0 (JitterBuffer_new cfg)) as Hc0 by (split; cbn; first [lia|intros c; lia]).
  pose proof (run_counts evs 0 0 _ _ _ ltac:(lia) ltac:(lia) ltac:(lia) ltac:(lia) (new_ring cfg) Hc0 Hr) as Hc.
  split; [|split; [by eapply plays_decoded|split; [|split; [apply Hok|]]]].
  - intros Hw. destruct (fresh_once _ _ _ (new_remembers cfg) Hw) as [Hd _].
    apply (fmap_submseteq fst) in Hsub. rewrite fmap_app, <- list_fmap_compose in Hsub.
    apply submseteq_Permutation in Hsub as [rest HP]. rewrite HP in Hd. by apply NoDup_app in Hd as [? _].
  - rewrite <- (plays_decoded _ _ _ _ Hr). etransitivity; [|apply fresh_arrived].
    apply (fmap_submseteq snd) in Hsub. rewrite fmap_app, <- list_fmap_compose in Hsub. exact Hsub.
  - cbn zeta. split; [rewrite (co_packets _ _ _ _ _ _ Hc); lia|]. apply (co_held _ _ _ _ _ _ Hc).
Qed.

(** Every tick is accounted for exactly once: after the opening silence it
    is a frame decoded, rebuilt, concealed or of the sender's silence, or it
    waits in [pending] until the next packet says which. *)
Theorem ticks_accounted cfg evs b ns :
  zlen evs < 2 ^ 32 → jb_run (JitterBuffer_new cfg) evs = (b, ns) →
  let n := ta_n (jb_tally b) in
  n N_decoded + n N_fec + n N_concealed + n N_dtx + ta_pending (jb_tally b) = played_ticks (JitterBuffer_new cfg) evs
  ∧ ((∀ t, jb_state b ≠ St_Starved t) → ta_pending (jb_tally b) = 0)
  ∧ (∀ c, 0 ≤ n c) ∧ 0 ≤ ta_conceal_run (jb_tally b) ≤ n N_concealed.
Proof.
  intros Hl Hr. destruct (run_packets _ _ _ _ (new_ring cfg) Hr) as [Hok Hsub].
  assert (buf_counts 0 0 (JitterBuffer_new cfg)) as Hc0 by (split; cbn; first [lia|intros c; lia]).
  pose proof (run_counts evs 0 0 _ _ _ ltac:(lia) ltac:(lia) ltac:(lia) ltac:(lia) (new_ring cfg) Hc0 Hr) as Hc.
  split; [rewrite (co_ticks _ _ _ _ _ _ Hc); lia|]. split; [apply Hok|]. split; [apply Hc|apply Hc].
Qed.

(** Packets are played in the order they were sent, as long as none arrives
    that is older than the playout point while the buffer fills up. *)
Theorem plays_in_order cfg evs b ns :
  no_rewind (JitterBuffer_new cfg) evs = true → jb_run (JitterBuffer_new cfg) evs = (b, ns) →
  StronglySorted Z.lt (plays (JitterBuffer_new cfg) evs).*1
  ∧ (plays (JitterBuffer_new cfg) evs).*2 = decoded ns.
Proof.
  intros Hn Hr. split; [by apply plays_order; [apply new_ring|]|by eapply plays_decoded].
Qed.

(** No packet is stuck: once the buffer plays, finitely many ticks with no
    new packets empty it, whatever was lost in between and however the
    timestamps jump. *)
Theorem buffer_drains cfg evs b ns clock used :
  jb_run (JitterBuffer_new cfg) evs = (b, ns) → jb_state b = St_Playing →
  ∃ k, jb_buffered (jb_ticks k clock used b) = 0.
Proof.
  intros Hr Hst. destruct (run_packets _ _ _ _ (new_ring cfg) Hr) as [Hok _].
  destruct (drains_from clock used b Hok Hst) as [k Hk]. exists k.
  assert (∀ k clock b, ring_ok b → ring_ok (jb_ticks k clock used b)) as Hticks.
  { clear. intros k. induction k as [|k IH]; intros clock b Hok; [done|]. cbn [jb_ticks]. apply IH.
    destruct (decode_tick (clock O) used b) as [b' n] eqn:Ht. by apply (decode_tick_ring _ _ _ _ _ Hok Ht). }
  rewrite (ro_buffered _ (Hticks k clock b Hok)), Hk. done.
Qed.
End jitter.

(** ** Examples and witnesses *)

Definition ex_tick (k : nat) : JbEvent (Payload := Z) := Ev_Tick (20 * Z.of_nat k * 1000000) (λ _, true).
Definition ex_ticks (from n : nat) : list (JbEvent (Payload := Z)) := ex_tick <$> seq from n.
(** A packet of 20 ms frames, its payload its number, at a millisecond. *)
Definition ex_packet (seq ts at_ms : Z) : JbEvent (Payload := Z) := Ev_Packet seq ts seq (at_ms * 1000000).

(** Packet 2 is lost; the next carries its FEC; then the buffer starves. *)
Definition ex_run : list (JbEvent (Payload := Z)) :=
  [ex_packet 0 0 0; ex_packet 1 960 20; ex_packet 3 2880 60; ex_packet 4 3840 80] ++ ex_ticks 4 7.

Example ex_run_output :
  (jb_run (JitterBuffer_new JitterConfig_default) ex_run).2
  = [Nx_Decode 0; Nx_Decode 1; Nx_Fec 3; Nx_Decode 3; Nx_Decode 4; Nx_Conceal; Nx_Conceal].
Proof. vm_compute. reflexivity. Qed.

(** The buffer fills up for a new talkspurt (packet 5, after a pause of
    700 ms) when the lost packet 2 arrives: it is not late but moves the
    playout point back behind packet 4, played long ago, and the whole pause
    is played again before packet 5. *)
Definition ex_rewind : list (JbEvent (Payload := Z)) :=
  ex_run ++ ex_ticks 11 4 ++ [ex_packet 5 38400 800] ++ ex_ticks 40 1 ++ [ex_packet 2 1920 801] ++ ex_ticks 41 45.

Lemma late_packet_rewinds :
  let b := JitterBuffer_new JitterConfig_default in
  no_rewind b ex_rewind = false
  ∧ plays b ex_rewind = [(0, 0); (1, 1); (3, 3); (4, 4); (2, 2); (5, 5)]
  ∧ ta_n (jb_tally (jb_run b ex_rewind).1) N_late = 0
  ∧ ta_n (jb_tally (jb_run b ex_rewind).1) N_dtx = 43.
Proof. vm_compute. split_and!; reflexivity. Qed.

Definition ex_out (evs : list (JbEvent (Payload := Z))) : JitterBuffer * list Next :=
  jb_run (JitterBuffer_new JitterConfig_default) evs.

Lemma ex_out_eq evs : jb_run (JitterBuffer_new JitterConfig_default) evs = ((ex_out evs).1, (ex_out evs).2).
Proof. apply surjective_pairing. Qed.

(** Packets come twice: before they are played, after, and in the buffer's
    next filling; each is played once. *)
Definition ex_copies : list (JbEvent (Payload := Z)) :=
  [ex_packet 0 0 0; ex_packet 1 960 20; ex_packet 1 960 21; ex_packet 2 1920 40] ++ ex_ticks 3 10
  ++ [ex_packet 2 1920 300; ex_packet 5 38400 800; ex_packet 2 1920 801; ex_packet 5 38400 802] ++ ex_ticks 41 8.

Lemma each_packet_once_witness :
  let b := (ex_out ex_copies).1 in
  decoded (ex_out ex_copies).2 = [0; 1; 2; 5] ∧ ta_n (jb_tally b) N_duplicate = 4
  ∧ NoDup ((plays (JitterBuffer_new JitterConfig_default) ex_copies).*1 ++ (js_seq <$> stored b)).
Proof.
  split; [vm_compute; reflexivity|]. split; [vm_compute; reflexivity|].
  exact (proj1 (each_packet_once JitterConfig_default ex_copies (ex_out ex_copies).1 (ex_out ex_copies).2
    ltac:(vm_compute; reflexivity) (ex_out_eq ex_copies)) ltac:(vm_compute; reflexivity)).
Defined.

(** A copy of packet 2 that comes when packet 258 has taken its place in the
    history, and while the buffer fills up, is no duplicate: it moves the
    playout point back and is decoded again. *)
Definition ex_old_copy : list (JbEvent (Payload := Z)) :=
  [ex_packet 0 0 0; ex_packet 1 960 20; ex_packet 2 1920 40] ++ ex_ticks 3 10
  ++ [ex_packet 258 247680 5400; ex_packet 2 1920 5401] ++ ex_ticks 273 3.

Lemma old_copy_again :
  in_window (JitterBuffer_new JitterConfig_default) ex_old_copy = false
  ∧ plays (JitterBuffer_new JitterConfig_default) ex_old_copy = [(0, 0); (1, 1); (2, 2); (2, 2)]
  ∧ ta_n (jb_tally (ex_out ex_old_copy).1) N_duplicate = 0.
Proof. vm_compute. split_and!; reflexivity. Qed.

Lemma ticks_accounted_witness :
  let t := jb_tally (ex_out ex_run).1 in
  played_ticks (JitterBuffer_new JitterConfig_default) ex_run = 7 ∧ ta_pending t = 2
  ∧ ta_n t N_decoded + ta_n t N_fec + ta_n t N_concealed + ta_n t N_dtx + ta_pending t
    = played_ticks (JitterBuffer_new JitterConfig_default) ex_run.
Proof.
  split; [vm_compute; reflexivity|]. split; [vm_compute; reflexivity|].
  exact (proj1 (ticks_accounted JitterConfig_default ex_run (ex_out ex_run).1 (ex_out ex_run).2
    ltac:(vm_compute; reflexivity) (ex_out_eq ex_run))).
Defined.

Lemma plays_in_order_witness :
  no_rewind (JitterBuffer_new JitterConfig_default) ex_run = true
  ∧ StronglySorted Z.lt (plays (JitterBuffer_new JitterConfig_default) ex_run).*1.
Proof.
  assert (no_rewind (JitterBuffer_new JitterConfig_default) ex_run = true) as Hn by (vm_compute; reflexivity).
  split; [exact Hn|].
  destruct (jb_run (JitterBuffer_new JitterConfig_default) ex_run) as [b ns] eqn:Hr.
  exact (proj1 (plays_in_order JitterConfig_default ex_run b ns Hn Hr)).
Defined.

Lemma buffer_drains_witness :
  let b := (ex_out (take 6 ex_run)).1 in
  jb_buffered b = 2 ∧ ∃ k, jb_buffered (jb_ticks k (λ i, Z.of_nat i) (λ _, true) b) = 0.
Proof.
  split; [vm_compute; reflexivity|].
  exact (buffer_drains JitterConfig_default (take 6 ex_run) (ex_out (take 6 ex_run)).1 (ex_out (take 6 ex_run)).2
    (λ i, Z.of_nat i) (λ _, true) (ex_out_eq (take 6 ex_run)) ltac:(vm_compute; reflexivity)).
Defined.
