(* ===== verification/JobFrames.v ===== *)
(** * What a server asks a node to run

    [crates/k2-node-proto/src/frames.rs]: the states of a job, its plan and
    the fence that names one attempt, with the checks a node makes before it
    uses their names as folders.  The digest of a plan (canonical JSON and
    SHA-256, third-party code) is a parameter of [consistent]. *)

From S2P Require Import Prelude Share Tiers Refusal.

(** ** States of a job *)

Definition JobState_as_str (s : JobState) : string :=
  match s with
  | JobState_Queued => "queued"
  | JobState_Assigned => "assigned"
  | JobState_Preparing => "preparing"
  | JobState_Running => "running"
  | JobState_Finishing => "finishing"
  | JobState_Done => "done"
  | JobState_Failed => "failed"
  | JobState_Cancelled => "cancelled"
  | JobState_Timeout => "timeout"
  | JobState_Interrupted => "interrupted"
  | JobState_Unknown => "unknown"
  end.

Definition JobState_parse (s : string) : option JobState :=
  guard (s =? "queued")%string ret Some JobState_Queued;
  guard (s =? "assigned")%string ret Some JobState_Assigned;
  guard (s =? "preparing")%string ret Some JobState_Preparing;
  guard (s =? "running")%string ret Some JobState_Running;
  guard (s =? "finishing")%string ret Some JobState_Finishing;
  guard (s =? "done")%string ret Some JobState_Done;
  guard (s =? "failed")%string ret Some JobState_Failed;
  guard (s =? "cancelled")%string ret Some JobState_Cancelled;
  guard (s =? "timeout")%string ret Some JobState_Timeout;
  guard (s =? "interrupted")%string ret Some JobState_Interrupted;
  guard (s =? "unknown")%string ret Some JobState_Unknown;
  None.

Definition is_terminal (s : JobState) : bool :=
  match s with
  | JobState_Done | JobState_Failed | JobState_Cancelled
  | JobState_Timeout | JobState_Interrupted | JobState_Unknown => true
  | _ => false
  end.

Record ExitInfo := mk_ExitInfo { ex_code : option Z; ex_signal : option Z }.

#[export] Instance ExitInfo_eq_dec : EqDecision ExitInfo.
Proof. solve_decision. Defined.

(** What actually ran. *)
Record SrcRan := mk_SrcRan {
  sra_commit : string;
  sra_tree : string;
  sra_dirty_sha256 : option string;
  sra_slot : option Z;
  sra_warmth : option string;
}.

#[export] Instance SrcRan_eq_dec : EqDecision SrcRan.
Proof. solve_decision. Defined.

(** ** Plans *)

Record JobLimits := mk_JobLimits {
  jl_max_secs : Z;
  jl_cpu_millis : option Z;
  jl_mem_bytes : option Z;
  jl_disk_bytes : Z;
  jl_log_cap_bytes : Z;
}.

Record Blob := mk_Blob { bl_sha256 : string; bl_bytes : Z }.

Record Src := mk_Src {
  src_project_key : string;
  src_remote_url : option string;
  src_commit : string;
  src_dirty : option Blob;
  src_slots : Z;
}.

Record SrcWith := mk_SrcWith {
  sw_path : string;
  sw_project_key : string;
  sw_remote_url : option string;
  sw_commit : string;
}.

Record Plan := mk_Plan {
  pl_job_id : string;
  pl_node_id : string;
  pl_workspace_id : string;
  pl_workspace_label : string;
  pl_requested_by : string;
  pl_argv : list string;
  pl_env : gmap string string;
  pl_cwd : option string;
  pl_limits : JobLimits;
  pl_src : option Src;
  pl_exclusive : bool;
  pl_created_at : Z;
  pl_needs : list string;
  pl_artifacts : list string;
  pl_stall_secs : option Z;
  pl_class : option JobClass;
  pl_session_id : option string;
  pl_est_secs : option Z;
  pl_est_p90_secs : option Z;
  pl_ws_max_running : option Z;
  pl_secret_env : list string;
  pl_tier : option Tier;
  pl_cache : option string;
  pl_src_path : option string;
  pl_with : list SrcWith;
  pl_submitter : option string;
  pl_submitter_max_running : option Z;
  pl_packages : list string;
  pl_git_access : list string;
}.

#[export] Instance JobLimits_eq_dec : EqDecision JobLimits.
Proof. solve_decision. Defined.
#[export] Instance Blob_eq_dec : EqDecision Blob.
Proof. solve_decision. Defined.
#[export] Instance Src_eq_dec : EqDecision Src.
Proof. solve_decision. Defined.
#[export] Instance SrcWith_eq_dec : EqDecision SrcWith.
Proof. solve_decision. Defined.
#[export] Instance Plan_eq_dec : EqDecision Plan.
Proof. solve_decision. Defined.

(** [JobClass::default()]. *)
Definition JobClass_default : JobClass := JobClass_Interactive.

Definition tier_or_class (p : Plan) : Tier :=
  default (Tier_from_class (default JobClass_default (pl_class p))) (pl_tier p).

Definition Plan_turn_key (p : Plan) : option string := opt_or (pl_submitter p) (pl_session_id p).

(** One attempt: the job, which try, and of which plan. *)
Record Fence := mk_Fence {
  fe_job_id : string;
  fe_attempt : Z;
  fe_generation : Z;
  fe_plan_digest : string;
}.

Record Assign := mk_Assign { as_fence : Fence; as_plan : Plan }.

Definition name_byte (c : Z) : bool := is_ascii_alphanumeric c || (c =? 95) || (c =? 45).

Definition valid_job_id (id : string) : bool :=
  ((1 <=? str_len id) && (str_len id <=? 64)) && forallb name_byte (bytes id).

Definition valid_project_key (key : string) : bool :=
  ((1 <=? str_len key) && (str_len key <=? 128)) && forallb name_byte (bytes key).

Definition job_id_ok (a : Assign) : bool := valid_job_id (fe_job_id (as_fence a)).

Definition project_key_ok (a : Assign) : bool :=
  match pl_src (as_plan a) with
  | Some s => valid_project_key (src_project_key s)
  | None => true
  end.

(** [digest] is [Plan::digest], [None] when the plan doesn't encode. *)
Definition consistent (digest : Plan → option string) (a : Assign) : bool :=
  (fe_job_id (as_fence a) =? pl_job_id (as_plan a))%string
  && opt_is_some_and (λ d, (d =? fe_plan_digest (as_fence a))%string) (digest (as_plan a)).

Definition CANCEL_WITHDRAW : string := "withdraw".
Definition CANCEL_IF_QUEUED : string := "if_queued".

Definition cancel_only_if_not_started (reason : string) : bool :=
  (reason =? CANCEL_WITHDRAW)%string || (reason =? CANCEL_IF_QUEUED)%string.

Definition PROTOCOL_SHARED : Z := 3.

(** ** The names *)

(** A state survives its text, so a column of text is a column of states. *)
Lemma JobState_parse_as_str s : JobState_parse (JobState_as_str s) = Some s.
Proof. by destruct s. Qed.

(** What a checked name is as a folder: no separator, not [.] or [..]. *)
Lemma valid_job_id_plain id :
  valid_job_id id = true →
  str_len id ≤ 64 ∧ 47 ∉ bytes id ∧ 46 ∉ bytes id ∧ 0 ∉ bytes id ∧ id ≠ "".
Proof.
  unfold valid_job_id. intros [[H1 H2]%andb_true_iff Hb]%andb_true_iff. bool_props.
  rewrite forallb_true in Hb. split; [done|].
  split_and!; try (intros Hin; apply Hb in Hin; done). by intros ->.
Qed.
