(* ===== verification/Ledger.v ===== *)
(** * A node's job ledger

    [crates/k2-node/src/ledger.rs]: the table [jobs] and every statement the
    file runs on it.  A statement is a function on the rows, in [rowid]
    order; SQLite runs it whole or fails and changes nothing, and which
    statements fail is an input ([db_faults]).  A column of JSON text is what
    the text encodes; receipts and outputs, which the ledger only keeps, are
    their text. *)

From S2P Require Import Prelude Share Tiers Refusal JobFrames.

(** ** Rows *)

Definition SignedReceipt : Type := string.
Definition Outputs : Type := string.

(** The columns an [INSERT] writes for good. *)
Record RowFixed := mk_RowFixed {
  rf_job_id : string;
  rf_generation : Z;
  rf_attempt : Z;
  rf_plan_digest : string;
  rf_plan : Plan;
  rf_created_at : Z;
  rf_enqueued_at : option Z;
  rf_rowid : Z;
  rf_class : option string;
  rf_ws_id : option string;
  rf_session_id : option string;
  rf_est_secs : option Z;
  rf_tier : option string;
}.

(** A row of [jobs]. *)
Record JobRow := mk_JobRow {
  jr_fixed : RowFixed;
  jr_state : JobState;
  jr_reason : option string;
  jr_detail : option string;
  jr_started_at : option Z;
  jr_ended_at : option Z;
  jr_exit_code : option Z;
  jr_signal : option Z;
  jr_log_seq : Z;
  jr_pid : option Z;
  jr_boot_id : string;
  jr_src : option SrcRan;
  jr_receipt : option SignedReceipt;
  jr_cleaned : bool;
  jr_outputs : option Outputs;
  jr_run_json : option string;
}.

(** [struct Row]: what a query hands out. *)
Record Row := mk_Row {
  rw_job_id : string;
  rw_generation : Z;
  rw_attempt : Z;
  rw_plan_digest : string;
  rw_plan : Plan;
  rw_state : JobState;
  rw_reason : option string;
  rw_detail : option string;
  rw_created_at : Z;
  rw_started_at : option Z;
  rw_ended_at : option Z;
  rw_exit : option ExitInfo;
  rw_log_seq : Z;
  rw_boot_id : string;
  rw_src : option SrcRan;
  rw_receipt : option SignedReceipt;
  rw_cleaned : bool;
  rw_outputs : option Outputs;
  rw_enqueued_at : option Z;
  rw_seq : Z;
  rw_run_json : option string;
}.

Definition row_of (r : JobRow) : Row := {|
  rw_job_id := rf_job_id (jr_fixed r);
  rw_generation := rf_generation (jr_fixed r);
  rw_attempt := rf_attempt (jr_fixed r);
  rw_plan_digest := rf_plan_digest (jr_fixed r);
  rw_plan := rf_plan (jr_fixed r);
  rw_state := jr_state r;
  rw_reason := jr_reason r;
  rw_detail := jr_detail r;
  rw_created_at := rf_created_at (jr_fixed r);
  rw_started_at := jr_started_at r;
  rw_ended_at := jr_ended_at r;
  rw_exit := match jr_exit_code r, jr_signal r with
             | None, None => None
             | c, s => Some (mk_ExitInfo c s)
             end;
  rw_log_seq := jr_log_seq r;
  rw_boot_id := jr_boot_id r;
  rw_src := jr_src r;
  rw_receipt := jr_receipt r;
  rw_cleaned := jr_cleaned r;
  rw_outputs := jr_outputs r;
  rw_enqueued_at := rf_enqueued_at (jr_fixed r);
  rw_seq := rf_rowid (jr_fixed r);
  rw_run_json := jr_run_json r;
|}.

(** ** The [SET] clauses *)

Definition set_where (state : JobState) (reason detail : option string) (r : JobRow) : JobRow := {|
  jr_fixed := jr_fixed r; jr_state := state; jr_reason := reason; jr_detail := detail;
  jr_started_at := jr_started_at r; jr_ended_at := jr_ended_at r; jr_exit_code := jr_exit_code r;
  jr_signal := jr_signal r; jr_log_seq := jr_log_seq r; jr_pid := jr_pid r; jr_boot_id := jr_boot_id r;
  jr_src := jr_src r; jr_receipt := jr_receipt r; jr_cleaned := jr_cleaned r; jr_outputs := jr_outputs r;
  jr_run_json := jr_run_json r;
|}.

Definition with_times (started ended : option Z) (r : JobRow) : JobRow := {|
  jr_fixed := jr_fixed r; jr_state := jr_state r; jr_reason := jr_reason r; jr_detail := jr_detail r;
  jr_started_at := started; jr_ended_at := ended; jr_exit_code := jr_exit_code r;
  jr_signal := jr_signal r; jr_log_seq := jr_log_seq r; jr_pid := jr_pid r; jr_boot_id := jr_boot_id r;
  jr_src := jr_src r; jr_receipt := jr_receipt r; jr_cleaned := jr_cleaned r; jr_outputs := jr_outputs r;
  jr_run_json := jr_run_json r;
|}.

Definition with_exit (code signal : option Z) (log_seq : Z) (r : JobRow) : JobRow := {|
  jr_fixed := jr_fixed r; jr_state := jr_state r; jr_reason := jr_reason r; jr_detail := jr_detail r;
  jr_started_at := jr_started_at r; jr_ended_at := jr_ended_at r; jr_exit_code := code;
  jr_signal := signal; jr_log_seq := log_seq; jr_pid := jr_pid r; jr_boot_id := jr_boot_id r;
  jr_src := jr_src r; jr_receipt := jr_receipt r; jr_cleaned := jr_cleaned r; jr_outputs := jr_outputs r;
  jr_run_json := jr_run_json r;
|}.

Definition with_process (pid : option Z) (boot : string) (run_json : option string) (r : JobRow) : JobRow := {|
  jr_fixed := jr_fixed r; jr_state := jr_state r; jr_reason := jr_reason r; jr_detail := jr_detail r;
  jr_started_at := jr_started_at r; jr_ended_at := jr_ended_at r; jr_exit_code := jr_exit_code r;
  jr_signal := jr_signal r; jr_log_seq := jr_log_seq r; jr_pid := pid; jr_boot_id := boot;
  jr_src := jr_src r; jr_receipt := jr_receipt r; jr_cleaned := jr_cleaned r; jr_outputs := jr_outputs r;
  jr_run_json := run_json;
|}.

Definition with_results (src : option SrcRan) (receipt : option SignedReceipt) (cleaned : bool)
    (outputs : option Outputs) (r : JobRow) : JobRow := {|
  jr_fixed := jr_fixed r; jr_state := jr_state r; jr_reason := jr_reason r; jr_detail := jr_detail r;
  jr_started_at := jr_started_at r; jr_ended_at := jr_ended_at r; jr_exit_code := jr_exit_code r;
  jr_signal := jr_signal r; jr_log_seq := jr_log_seq r; jr_pid := jr_pid r; jr_boot_id := jr_boot_id r;
  jr_src := src; jr_receipt := receipt; jr_cleaned := cleaned; jr_outputs := outputs;
  jr_run_json := jr_run_json r;
|}.

(** ** The connection *)

(** The table and what the next statements meet: [Some e] is a failure. *)
Record Ledger := mk_Ledger { db_rows : list JobRow; db_faults : list (option string) }.

(** A method of [Ledger]. *)
Definition LedgerM (A : Type) : Type := Ledger → Result A string * Ledger.

Definition l_ret {A} (x : A) : LedgerM A := λ db, (Ok x, db).
Definition l_bind {A B} (m : LedgerM A) (k : A → LedgerM B) : LedgerM B := λ db,
  match m db with
  | (Ok x, db') => k x db'
  | (Err e, db') => (Err e, db')
  end.
Notation "'let!' x ':=' m 'in' k" := (l_bind m (fun x => k))
  (at level 10, x pattern, m at level 100, k at level 200) : k2_scope.

Definition sqlerr (e : string) : string := "ledger: " +:+ e.

(** One statement: [f] gives its answer and the rows after it, or an error of
    the statement itself (a constraint). *)
Definition statement {A} (f : list JobRow → Result (A * list JobRow) string) : LedgerM A := λ db,
  match head (db_faults db) with
  | Some (Some e) => (Err (sqlerr e), mk_Ledger (db_rows db) (tail (db_faults db)))
  | _ =>
    match f (db_rows db) with
    | Ok (x, rows) => (Ok x, mk_Ledger rows (tail (db_faults db)))
    | Err e => (Err (sqlerr e), mk_Ledger (db_rows db) (tail (db_faults db)))
    end
  end.

Definition row_is (job_id : string) (generation : Z) (r : JobRow) : bool :=
  (rf_job_id (jr_fixed r) =? job_id)%string && (rf_generation (jr_fixed r) =? generation).
Definition is_open (r : JobRow) : bool := negb (is_terminal (jr_state r)).
Definition is_queued (r : JobRow) : bool := bool_decide (jr_state r = JobState_Queued).

(** [UPDATE jobs SET .. WHERE p]: the number of rows it changed. *)
Definition update (p : JobRow → bool) (f : JobRow → JobRow) : LedgerM nat :=
  statement (λ rows, Ok (length (List.filter p rows), (λ r, if p r then f r else r) <$> rows)).
Definition select {A} (f : list JobRow → A) : LedgerM A := statement (λ rows, Ok (f rows, rows)).

(** A fresh [rowid] is one more than the largest. *)
Definition next_rowid (rows : list JobRow) : Z :=
  foldr Z.max 0 ((λ r, rf_rowid (jr_fixed r)) <$> rows) + 1.

(** [INSERT INTO jobs], under [UNIQUE (job_id, generation)]. *)
Definition insert_row (mk : Z → JobRow) : LedgerM unit :=
  statement (λ rows,
    let r := mk (next_rowid rows) in
    if existsb (row_is (rf_job_id (jr_fixed r)) (rf_generation (jr_fixed r))) rows
    then Err "UNIQUE constraint failed: jobs.job_id, jobs.generation"
    else Ok (tt, rows ++ [r])).

(** ** Entering the table *)

(** [insert] and [insert_queued] differ in the columns they give. *)
Definition insert_values (a : Assign) (now : Z) (boot : string) (state : JobState) (reason : option string)
    (enqueued_at : option Z) (class ws_id session_id : option string) (est : option Z) (rowid : Z) : JobRow := {|
  jr_fixed := {|
    rf_job_id := fe_job_id (as_fence a);
    rf_generation := fe_generation (as_fence a);
    rf_attempt := fe_attempt (as_fence a);
    rf_plan_digest := fe_plan_digest (as_fence a);
    rf_plan := as_plan a;
    rf_created_at := now;
    rf_enqueued_at := enqueued_at;
    rf_rowid := rowid;
    rf_class := class;
    rf_ws_id := ws_id;
    rf_session_id := session_id;
    rf_est_secs := est;
    rf_tier := Some (Tier_as_str (tier_or_class (as_plan a)));
  |};
  jr_state := state; jr_reason := reason; jr_detail := None;
  jr_started_at := None; jr_ended_at := None; jr_exit_code := None; jr_signal := None;
  jr_log_seq := 0; jr_pid := None; jr_boot_id := boot; jr_src := None; jr_receipt := None;
  jr_cleaned := false; jr_outputs := None; jr_run_json := None;
|}.

Definition ledger_insert (a : Assign) (now : Z) (boot : string) : LedgerM unit :=
  insert_row (insert_values a now boot JobState_Preparing None None None None None None).

Definition insert_queued (a : Assign) (now : Z) (boot : string) : LedgerM unit :=
  let p := as_plan a in
  insert_row (insert_values a now boot JobState_Queued (Some codes_NODE_QUEUED) (Some now)
    (Some (JobClass_as_str (default JobClass_default (pl_class p)))) (Some (pl_workspace_id p))
    (pl_session_id p) (i64 <$> pl_est_secs p)).

(** ** Queries *)

Definition cmp_then (c d : comparison) : comparison := match c with Eq => d | _ => c end.
(** SQLite's order of a nullable integer: [NULL] first. *)
Definition null_cmp (a b : option Z) : comparison :=
  match a, b with
  | None, None => Eq
  | None, Some _ => Lt
  | Some _, None => Gt
  | Some a, Some b => a ?= b
  end.
Definition not_gt (c : comparison) : bool := if c is Gt then false else true.

(** [ORDER BY enqueued_at, job_id, generation]. *)
Definition enqueued_cmp (a b : JobRow) : comparison :=
  let '(a, b) := (jr_fixed a, jr_fixed b) in
  cmp_then (null_cmp (rf_enqueued_at a) (rf_enqueued_at b))
    (cmp_then (String.compare (rf_job_id a) (rf_job_id b)) (rf_generation a ?= rf_generation b)).
(** [ORDER BY created_at DESC, job_id]; rows that tie stay in [rowid] order. *)
Definition newest_cmp (a b : JobRow) : comparison :=
  let '(a, b) := (jr_fixed a, jr_fixed b) in
  cmp_then (rf_created_at b ?= rf_created_at a) (String.compare (rf_job_id a) (rf_job_id b)).
(** [ORDER BY generation DESC]. *)
Definition generation_ge (a b : JobRow) : bool :=
  rf_generation (jr_fixed b) <=? rf_generation (jr_fixed a).

Definition queued_rows (rows : list JobRow) : list JobRow :=
  isort (λ a b, not_gt (enqueued_cmp a b)) (List.filter is_queued rows).
Definition queued : LedgerM (list Row) := select (λ rows, row_of <$> queued_rows rows).

Definition get (job_id : string) (generation : Z) : LedgerM (option Row) :=
  select (λ rows, row_of <$> List.find (row_is job_id generation) rows).

Definition latest (job_id : string) : LedgerM (option Row) :=
  select (λ rows, row_of <$> min_by generation_ge (List.filter (λ r, (rf_job_id (jr_fixed r) =? job_id)%string) rows)).

Definition pid (job_id : string) (generation : Z) : LedgerM (option Z) :=
  statement (λ rows,
    match List.find (row_is job_id generation) rows with
    | Some r => Ok (jr_pid r, rows)
    | None => Err "Query returned no rows"
    end).

Definition all : LedgerM (list Row) :=
  select (λ rows, row_of <$> isort (λ a b, not_gt (newest_cmp a b)) rows).

Definition non_terminal : LedgerM (list Row) :=
  let! rows := all in l_ret (List.filter (λ r, negb (is_terminal (rw_state r))) rows).

(** Open, started rows of [boot] that carry run facts, in [rowid] order. *)
Definition open_runs (boot : string) : LedgerM (list Row) :=
  select (λ rows, row_of <$> List.filter (λ r,
    is_open r && negb (is_queued r) && (jr_boot_id r =? boot)%string
    && bool_decide (jr_run_json r ≠ None)) rows).

(** ** Leaving the queue *)

Definition one_row (n : nat) : bool := (n =? 1)%nat.

Definition dequeue (job_id : string) (generation : Z) (boot : string) : LedgerM bool :=
  let! n := update (λ r, row_is job_id generation r && is_queued r)
    (λ r, with_process (jr_pid r) boot (jr_run_json r) (set_where JobState_Preparing None None r)) in
  l_ret (one_row n).

Definition cancel_queued (job_id : string) (generation : Z) (reason : string) (detail : option string)
    (at' : Z) : LedgerM bool :=
  let! n := update (λ r, row_is job_id generation r && is_queued r)
    (λ r, with_times (jr_started_at r) (Some at') (set_where JobState_Cancelled (Some reason) detail r)) in
  l_ret (one_row n).

(** ** Running and ending *)

Definition set_state (job_id : string) (generation : Z) (state : JobState) (reason detail : option string) : LedgerM unit :=
  let! _ := update (λ r, row_is job_id generation r && is_open r)
    (λ r, set_where state (opt_or reason (jr_reason r)) (opt_or detail (jr_detail r)) r) in
  l_ret tt.

Definition set_running (job_id : string) (generation pid : Z) (src : option SrcRan) (at' : Z) : LedgerM unit :=
  let! _ := update (row_is job_id generation)
    (λ r, with_process (Some pid) (jr_boot_id r) (jr_run_json r) $
      with_results src (jr_receipt r) (jr_cleaned r) (jr_outputs r) $
      with_times (Some at') (jr_ended_at r) $
      set_where JobState_Running (jr_reason r) (jr_detail r) r) in
  l_ret tt.

Definition set_src (job_id : string) (generation : Z) (src : SrcRan) : LedgerM unit :=
  let! _ := update (row_is job_id generation)
    (λ r, with_results (Some src) (jr_receipt r) (jr_cleaned r) (jr_outputs r) r) in l_ret tt.

Definition set_log_seq (job_id : string) (generation seq : Z) : LedgerM unit :=
  let! _ := update (row_is job_id generation) (λ r, with_exit (jr_exit_code r) (jr_signal r) seq r) in l_ret tt.

Definition set_receipt (job_id : string) (generation : Z) (receipt : SignedReceipt) : LedgerM unit :=
  let! _ := update (row_is job_id generation)
    (λ r, with_results (jr_src r) (Some receipt) (jr_cleaned r) (jr_outputs r) r) in l_ret tt.

Definition set_outputs (job_id : string) (generation : Z) (o : Outputs) : LedgerM unit :=
  let! _ := update (row_is job_id generation)
    (λ r, with_results (jr_src r) (jr_receipt r) (jr_cleaned r) (Some o) r) in l_ret tt.

Definition mark_cleaned (job_id : string) (generation : Z) : LedgerM unit :=
  let! _ := update (row_is job_id generation)
    (λ r, with_results (jr_src r) (jr_receipt r) true (jr_outputs r) r) in l_ret tt.

Definition set_run (job_id : string) (generation : Z) (run_json : string) : LedgerM unit :=
  let! _ := update (λ r, row_is job_id generation r && is_open r)
    (λ r, with_process (jr_pid r) (jr_boot_id r) (Some run_json) r) in l_ret tt.

Definition finish (job_id : string) (generation : Z) (state : JobState) (reason detail : option string)
    (exit : option ExitInfo) (log_seq at' : Z) : LedgerM bool :=
  let! n := update (λ r, row_is job_id generation r && is_open r)
    (λ r, with_process None (jr_boot_id r) (jr_run_json r) $
      with_exit (e ← exit; ex_code e) (e ← exit; ex_signal e) log_seq $
      with_times (jr_started_at r) (Some at') $
      set_where state reason detail r) in
  l_ret (one_row n).

(** What to write, when there is something. *)
Definition l_when {A} (x : option A) (m : A → LedgerM unit) : LedgerM unit :=
  match x with Some x => m x | None => l_ret tt end.

(** [unchecked_transaction] .. [commit]: [body] says whether to commit; an
    error, or no commit, leaves the rows as they were at the start. *)
Definition transaction (body : LedgerM bool) : LedgerM bool := λ db,
  match statement (λ rows, Ok (tt, rows)) db with
  | (Err e, db1) => (Err e, db1)
  | (Ok _, db1) =>
    let roll (db' : Ledger) : Ledger := mk_Ledger (db_rows db) (db_faults db') in
    match body db1 with
    | (Err e, db2) => (Err e, roll db2)
    | (Ok false, db2) => (Ok false, roll db2)
    | (Ok true, db2) =>
      match statement (λ rows, Ok (tt, rows)) db2 with
      | (Ok _, db3) => (Ok true, db3)
      | (Err e, db3) => (Err e, roll db3)
      end
    end
  end.

(** Between the begin and the commit. *)
Definition end_writes (job_id : string) (generation : Z) (state : JobState) (reason detail : option string)
    (exit : option ExitInfo) (log_seq at' : Z) (src : option SrcRan) (outputs : option Outputs)
    (receipt : option SignedReceipt) : LedgerM bool :=
  let! ended := finish job_id generation state reason detail exit log_seq at' in
  if negb ended then l_ret false else
  let! _ := l_when src (set_src job_id generation) in
  let! _ := l_when outputs (set_outputs job_id generation) in
  let! _ := l_when receipt (set_receipt job_id generation) in
  l_ret true.

Definition end_attempt (job_id : string) (generation : Z) (state : JobState) (reason detail : option string)
    (exit : option ExitInfo) (log_seq at' : Z) (src : option SrcRan) (outputs : option Outputs)
    (receipt : option SignedReceipt) : LedgerM bool :=
  transaction (end_writes job_id generation state reason detail exit log_seq at' src outputs receipt).

(** ** Restarts *)

(** [for r in rows { .. }] with [?] inside, collecting what it pushes. *)
Fixpoint l_collect {A B} (f : A → LedgerM (list B)) (l : list A) : LedgerM (list B) :=
  match l with
  | [] => l_ret []
  | x :: r => let! ys := f x in let! zs := l_collect f r in l_ret (ys ++ zs)
  end.

Definition reconcile_boot (now : Z) (boot : string) : LedgerM (list (string * Z)) :=
  let! rows := non_terminal in
  l_collect (λ r,
    if negb (rw_boot_id r =? boot)%string && negb (bool_decide (rw_state r = JobState_Queued)) then
      let! _ := finish (rw_job_id r) (rw_generation r) JobState_Interrupted (Some "node_reboot") None None
        (rw_log_seq r) now in
      l_ret [(rw_job_id r, rw_generation r)]
    else l_ret []) rows.

Definition i32 (x : Z) : Z := (x + 2 ^ 31) mod 2 ^ 32 - 2 ^ 31.

Definition interrupt_open_except (reason : string) (keep : list (string * Z)) (now : Z)
    : LedgerM (list (string * Z * option Z)) :=
  let! rows := select (λ rows, (λ r, (rf_job_id (jr_fixed r), rf_generation (jr_fixed r), jr_pid r, jr_log_seq r))
    <$> List.filter (λ r, is_open r && negb (is_queued r)) rows) in
  l_collect (λ '(job, gen, pid, seq),
    if existsb (λ k, (k.1 =? job)%string && (k.2 =? gen)) keep then l_ret [] else
    let! _ := finish job gen JobState_Interrupted (Some reason) None None seq now in
    l_ret [(job, gen, i32 <$> pid)]) rows.

Definition interrupt_open (reason : string) (now : Z) : LedgerM (list (string * Z * option Z)) :=
  interrupt_open_except reason [] now.

Definition ended_before (before : Z) (r : JobRow) : bool := opt_is_some_and (λ e, e <? before) (jr_ended_at r).
Definition prune (before : Z) : LedgerM nat :=
  statement (λ rows, Ok (length (List.filter (ended_before before) rows),
    List.filter (λ r, negb (ended_before before r)) rows)).

(** ** Rows by attempt *)

Implicit Types (rows : list JobRow) (db : Ledger) (k : string * Z).

Definition key_of (r : JobRow) : string * Z := (rf_job_id (jr_fixed r), rf_generation (jr_fixed r)).
Definition row_at (rows : list JobRow) (k : string * Z) : option JobRow := List.find (row_is k.1 k.2) rows.

(** One row per attempt, [rowid]s in insertion order. *)
Record table_ok (rows : list JobRow) : Prop := {
  tb_keys : NoDup (key_of <$> rows);
  tb_rowids : StronglySorted Z.lt ((λ r, rf_rowid (jr_fixed r)) <$> rows);
}.

Lemma row_is_key k r : row_is k.1 k.2 r = true ↔ key_of r = k.
Proof.
  unfold row_is, key_of. rewrite andb_true_iff, String.eqb_eq, Z.eqb_eq. destruct k; cbn. naive_solver.
Qed.
Lemma row_is_self r : row_is (rf_job_id (jr_fixed r)) (rf_generation (jr_fixed r)) r = true.
Proof. by apply (row_is_key (key_of r)). Qed.

Lemma row_at_Some rows k r : row_at rows k = Some r → r ∈ rows ∧ key_of r = k.
Proof. intros [? ?%row_is_key]%list_find_Some_elem. done. Qed.
Lemma row_at_None rows k : row_at rows k = None ↔ k ∉ key_of <$> rows.
Proof.
  unfold row_at. split.
  - intros Hf (r&->&Hr)%list_elem_of_fmap. apply list_elem_of_In in Hr.
    pose proof (find_none _ _ Hf r Hr) as Hn. cbn in Hn. by rewrite row_is_self in Hn.
  - intros Hk. destruct (List.find _ rows) as [r|] eqn:Hf; [|done].
    apply row_at_Some in Hf as [Hr <-]. destruct Hk. by apply list_elem_of_fmap_2.
Qed.
Lemma row_at_elem rows r : NoDup (key_of <$> rows) → r ∈ rows → row_at rows (key_of r) = Some r.
Proof.
  induction rows as [|x rows IH]; intros Hnd Hr; [by apply elem_of_nil in Hr|].
  cbn in Hnd. apply NoDup_cons in Hnd as [Hx Hnd]. unfold row_at. cbn.
  apply elem_of_cons in Hr as [->|Hr]; [by rewrite row_is_self|].
  destruct (row_is _ _ x) eqn:E; [|by apply IH].
  apply (row_is_key (key_of r)) in E. destruct Hx. rewrite E. by apply list_elem_of_fmap_2.
Qed.

Section changes.
Context (p : JobRow → bool) (f : JobRow → JobRow).
Hypothesis f_fixed : ∀ r, jr_fixed (f r) = jr_fixed r.

Definition change (r : JobRow) : JobRow := if p r then f r else r.

Lemma change_fixed r : jr_fixed (change r) = jr_fixed r.
Proof. unfold change. by destruct (p r). Qed.
Lemma fixed_change rows : jr_fixed <$> (change <$> rows) = jr_fixed <$> rows.
Proof. rewrite <- list_fmap_compose. apply list_fmap_ext. intros ? r _. apply change_fixed. Qed.

Lemma row_at_change rows k : row_at (change <$> rows) k = change <$> row_at rows k.
Proof.
  unfold row_at. induction rows as [|r rows IH]; cbn; [done|].
  unfold row_is in *. rewrite change_fixed. by destruct (_ && _).
Qed.

Lemma table_ok_fixed rows rows' : jr_fixed <$> rows' = jr_fixed <$> rows → table_ok rows → table_ok rows'.
Proof.
  intros Hf [Hk Hs].
  assert (∀ {B} (g : RowFixed → B), (λ r, g (jr_fixed r)) <$> rows' = (λ r, g (jr_fixed r)) <$> rows) as Hg.
  { intros B g. change (λ r, g (jr_fixed r)) with (g ∘ jr_fixed). by rewrite !list_fmap_compose, Hf. }
  split.
  - change (NoDup ((λ r, (λ x, (rf_job_id x, rf_generation x)) (jr_fixed r)) <$> rows')). by rewrite Hg.
  - by rewrite (Hg Z rf_rowid).
Qed.

Lemma table_ok_change rows : table_ok rows → table_ok (change <$> rows).
Proof. apply table_ok_fixed, fixed_change. Qed.
End changes.

(** A key's rows: at most the one. *)
Lemma filter_key rows k (p : JobRow → bool) :
  NoDup (key_of <$> rows) →
  List.filter (λ r, row_is k.1 k.2 r && p r) rows
  = match row_at rows k with Some r => if p r then [r] else [] | None => [] end.
Proof.
  induction rows as [|x rows IH]; intros Hnd; [done|].
  cbn in Hnd. apply NoDup_cons in Hnd as [Hx Hnd]. unfold row_at. cbn.
  destruct (row_is k.1 k.2 x) eqn:E; cbn [andb]; [|by apply IH].
  specialize (IH Hnd). apply row_is_key in E as <-.
  assert (row_at rows (key_of x) = None) as Hn by (by apply row_at_None).
  rewrite Hn in IH. by destruct (p x); rewrite IH.
Qed.

(** ** Statements *)

Lemma statement_cases {A} (f : list JobRow → Result (A * list JobRow) string) db :
  (∃ x rows, f (db_rows db) = Ok (x, rows) ∧ statement f db = (Ok x, mk_Ledger rows (tail (db_faults db))))
  ∨ ∃ e, statement f db = (Err e, mk_Ledger (db_rows db) (tail (db_faults db))).
Proof.
  unfold statement. destruct (head _) as [[e|]|]; [eauto| |];
    destruct (f _) as [[x rows]|e]; eauto 10.
Qed.

Lemma update_cases p f db :
  update p f db = (Ok (length (List.filter p (db_rows db))),
    mk_Ledger (change p f <$> db_rows db) (tail (db_faults db)))
  ∨ ∃ e, update p f db = (Err e, mk_Ledger (db_rows db) (tail (db_faults db))).
Proof.
  unfold update. destruct (statement_cases (λ rows, Ok (length (List.filter p rows),
    (λ r, if p r then f r else r) <$> rows)) db) as [(x&rows&[= <- <-]&->)|[e ->]]; eauto.
Qed.

Lemma select_rows {A} (f : list JobRow → A) db : db_rows (select f db).2 = db_rows db.
Proof.
  unfold select. destruct (statement_cases (λ rows, Ok (f rows, rows)) db) as [(x&rows&[= <- <-]&->)|[e ->]]; done.
Qed.

(** ** The life of an attempt *)

Definition phase (s : JobState) : nat :=
  match s with
  | JobState_Queued => 0
  | JobState_Assigned | JobState_Preparing => 1
  | JobState_Running => 2
  | JobState_Finishing => 3
  | _ => 4
  end.

(** How an attempt ended. *)
Definition outcome (r : JobRow) :=
  (jr_state r, jr_reason r, jr_detail r, jr_started_at r, jr_ended_at r, jr_exit_code r, jr_signal r, jr_pid r).

(** [r'] is [r] later: the same attempt, not earlier in its life, and its end,
    once it has one, is the same. *)
Record life (r r' : JobRow) : Prop := {
  li_fixed : jr_fixed r' = jr_fixed r;
  li_phase : (phase (jr_state r) ≤ phase (jr_state r'))%nat;
  li_end : is_open r = false → outcome r' = outcome r;
}.

#[export] Instance life_preorder : PreOrder life.
Proof.
  split.
  - by intros r.
  - intros r1 r2 r3 [F1 P1 E1] [F2 P2 E2]. split; [congruence|lia|].
    intros H. rewrite E2, E1; [done..|]. specialize (E1 H). unfold is_open in *. injection E1. intros. congruence.
Qed.

Lemma is_open_phase r : is_open r = true ↔ (phase (jr_state r) < 4)%nat.
Proof. unfold is_open. destruct (jr_state r); cbn; split; (done || lia). Qed.
Lemma is_queued_phase r : is_queued r = true ↔ phase (jr_state r) = 0%nat.
Proof. unfold is_queued. rewrite bool_decide_eq_true. by destruct (jr_state r). Qed.

(** The table moved on: no attempt is lost and each lives. *)
Record forward (rows rows' : list JobRow) : Prop := {
  fw_ok : table_ok rows';
  fw_life : ∀ k r, row_at rows k = Some r → ∃ r', row_at rows' k = Some r' ∧ life r r';
}.

Lemma forward_refl rows : table_ok rows → forward rows rows.
Proof. intros H. split; [done|]. intros k r Hr. by exists r. Qed.
Lemma forward_trans rows1 rows2 rows3 : forward rows1 rows2 → forward rows2 rows3 → forward rows1 rows3.
Proof.
  intros [_ H1] [Hok H2]. split; [done|]. intros k r Hr.
  destruct (H1 k r Hr) as (r1&Hr1&L1). destruct (H2 k r1 Hr1) as (r2&Hr2&L2).
  exists r2. split; [done|]. by etrans.
Qed.

(** The attempt [k] keeps its row as it is. *)
Record untouched (k : string * Z) (rows rows' : list JobRow) : Prop := {
  un_ok : table_ok rows';
  un_row : row_at rows' k = row_at rows k;
}.

(** How a method may change the table: a relation that composes. *)
Class Motion (R : list JobRow → list JobRow → Prop) : Prop := {
  motion_refl rows : table_ok rows → R rows rows;
  motion_trans rows1 rows2 rows3 : R rows1 rows2 → R rows2 rows3 → R rows1 rows3;
  motion_ok rows rows' : R rows rows' → table_ok rows';
}.
#[export] Instance forward_motion : Motion forward.
Proof. split; [apply forward_refl|apply forward_trans|by intros rows rows' []]. Qed.
#[export] Instance untouched_motion k : Motion (untouched k).
Proof. split; [done|intros rows1 rows2 rows3 [_ H1] [Hok H2]; split; [done|congruence]|by intros rows rows' []]. Qed.

Section motion.
Context {R : list JobRow → list JobRow → Prop} `{!Motion R}.

Definition moves {A} (m : LedgerM A) : Prop := ∀ db, table_ok (db_rows db) → R (db_rows db) (db_rows (m db).2).

Lemma moves_ret {A} (x : A) : moves (l_ret x).
Proof. intros db. apply motion_refl. Qed.
Lemma moves_bind {A B} (m : LedgerM A) (g : A → LedgerM B) :
  moves m → (∀ x, moves (g x)) → moves (let! x := m in g x).
Proof.
  intros Hm Hg db Hok. specialize (Hm db Hok). unfold l_bind. destruct (m db) as [[x|e] db1]; [|done].
  cbn in Hm. eapply motion_trans; [done|]. by eapply Hg, motion_ok.
Qed.
Lemma moves_select {A} (f : list JobRow → A) : moves (select f).
Proof. intros db Hok. rewrite select_rows. by apply motion_refl. Qed.
Lemma moves_when {A} (x : option A) m : (∀ y, moves (m y)) → moves (l_when x m).
Proof. intros Hm. destruct x; [apply Hm|apply moves_ret]. Qed.
Lemma moves_collect {A B} (f : A → LedgerM (list B)) l : (∀ x, moves (f x)) → moves (l_collect f l).
Proof.
  intros Hf. induction l as [|x l IH]; cbn; [apply moves_ret|].
  repeat first [apply moves_bind; [done|intros ?]|apply moves_ret].
Qed.
Lemma moves_transaction body : moves body → moves (transaction body).
Proof.
  intros Hb db Hok. unfold transaction.
  pose proof (select_rows (λ _ : list JobRow, tt)) as Hs. unfold select in Hs.
  specialize (Hs db) as Hs1. destruct (statement _ db) as [[[]|e] db1]; cbn in Hs1;
    [|cbn; rewrite Hs1; by apply motion_refl].
  specialize (Hb db1). rewrite Hs1 in Hb. specialize (Hb Hok).
  destruct (body db1) as [[[]|e] db2]; cbn [snd] in *; try (cbn; by apply motion_refl).
  specialize (Hs db2). destruct (statement _ db2) as [[[]|e] db3]; cbn in *; [by rewrite Hs|by apply motion_refl].
Qed.
End motion.
Arguments moves R {A} m.
Notation moves_on := (moves forward).

Lemma forward_change p f rows :
  (∀ r, jr_fixed (f r) = jr_fixed r) → table_ok rows →
  (∀ r, r ∈ rows → p r = true → life r (f r)) → forward rows (change p f <$> rows).
Proof.
  intros Hf Hok Hl. split; [by apply table_ok_change|]. intros k r Hr. rewrite row_at_change, Hr by done.
  cbn. eexists. split; [done|]. unfold change. destruct (p r) eqn:E; [|done].
  apply Hl; [|done]. by apply row_at_Some in Hr as [? _].
Qed.
Lemma moves_on_update p f :
  (∀ r, jr_fixed (f r) = jr_fixed r) → (∀ r, p r = true → life r (f r)) → moves_on (update p f).
Proof.
  intros Hf Hl db Hok. destruct (update_cases p f db) as [->|[e ->]]; cbn; [|by apply forward_refl].
  apply forward_change; auto.
Qed.

(** A statement about one attempt leaves the others alone. *)
Lemma moves_update_other k p f :
  (∀ r, jr_fixed (f r) = jr_fixed r) → (∀ r, p r = true → key_of r ≠ k) → moves (untouched k) (update p f).
Proof.
  intros Hf Hp db Hok. destruct (update_cases p f db) as [->|[e ->]]; cbn; [|done]. split; [by apply table_ok_change|].
  rewrite row_at_change by done. destruct (row_at (db_rows db) k) as [r|] eqn:Hr; [|done]. cbn. unfold change.
  destruct (p r) eqn:E; [|done]. exfalso. apply row_at_Some in Hr as [_ Hk]. by eapply Hp.
Qed.

(** The methods that write, as one operation. *)
Inductive LedgerOp :=
| Op_insert (a : Assign) (now : Z) (boot : string)
| Op_insert_queued (a : Assign) (now : Z) (boot : string)
| Op_dequeue (job : string) (gen : Z) (boot : string)
| Op_cancel_queued (job : string) (gen : Z) (reason : string) (detail : option string) (at' : Z)
| Op_set_state (job : string) (gen : Z) (state : JobState) (reason detail : option string)
| Op_set_running (job : string) (gen pid : Z) (src : option SrcRan) (at' : Z)
| Op_set_src (job : string) (gen : Z) (src : SrcRan)
| Op_set_log_seq (job : string) (gen seq : Z)
| Op_set_receipt (job : string) (gen : Z) (receipt : SignedReceipt)
| Op_set_outputs (job : string) (gen : Z) (o : Outputs)
| Op_mark_cleaned (job : string) (gen : Z)
| Op_set_run (job : string) (gen : Z) (run_json : string)
| Op_finish (job : string) (gen : Z) (state : JobState) (reason detail : option string) (exit : option ExitInfo)
    (log_seq at' : Z)
| Op_end_attempt (job : string) (gen : Z) (state : JobState) (reason detail : option string) (exit : option ExitInfo)
    (log_seq at' : Z) (src : option SrcRan) (outputs : option Outputs) (receipt : option SignedReceipt)
| Op_reconcile_boot (now : Z) (boot : string)
| Op_interrupt_open_except (reason : string) (keep : list (string * Z)) (now : Z)
| Op_prune (before : Z).

(** An attempt leaves the queue, or comes in, to start; or it is cancelled
    in the queue. *)
Inductive LeaveEvent := Ev_start (k : string * Z) | Ev_cancel (k : string * Z).
Definition event_key (e : LeaveEvent) : string * Z := match e with Ev_start k | Ev_cancel k => k end.

Definition run_op (op : LedgerOp) (db : Ledger) : list LeaveEvent * Ledger :=
  let told {A} (m : LedgerM A) (ev : A → list LeaveEvent) : list LeaveEvent * Ledger :=
    match m db with (Ok x, db') => (ev x, db') | (Err _, db') => ([], db') end in
  let quiet {A} (m : LedgerM A) := told m (λ _, []) in
  match op with
  | Op_insert a now boot =>
    told (ledger_insert a now boot) (λ _, [Ev_start (fe_job_id (as_fence a), fe_generation (as_fence a))])
  | Op_insert_queued a now boot => quiet (insert_queued a now boot)
  | Op_dequeue j g boot => told (dequeue j g boot) (λ b, if b then [Ev_start (j, g)] else [])
  | Op_cancel_queued j g reason detail at' =>
    told (cancel_queued j g reason detail at') (λ b, if b then [Ev_cancel (j, g)] else [])
  | Op_set_state j g s reason detail => quiet (set_state j g s reason detail)
  | Op_set_running j g pid src at' => quiet (set_running j g pid src at')
  | Op_set_src j g src => quiet (set_src j g src)
  | Op_set_log_seq j g seq => quiet (set_log_seq j g seq)
  | Op_set_receipt j g r => quiet (set_receipt j g r)
  | Op_set_outputs j g o => quiet (set_outputs j g o)
  | Op_mark_cleaned j g => quiet (mark_cleaned j g)
  | Op_set_run j g run_json => quiet (set_run j g run_json)
  | Op_finish j g s reason detail exit seq at' => quiet (finish j g s reason detail exit seq at')
  | Op_end_attempt j g s reason detail exit seq at' src o r =>
    quiet (end_attempt j g s reason detail exit seq at' src o r)
  | Op_reconcile_boot now boot => quiet (reconcile_boot now boot)
  | Op_interrupt_open_except reason keep now => quiet (interrupt_open_except reason keep now)
  | Op_prune before => quiet (prune before)
  end.

(** The operation may take the attempt [k] back in its life, or its row away:
    a state written by hand that is an earlier one; an end that is none;
    [set_running], which looks at no state, on an attempt that has gone
    further; [prune], on one that ended before its cut. *)
Definition sets_back (op : LedgerOp) (rows : list JobRow) (k : string * Z) : Prop :=
  match op with
  | Op_set_state j g s _ _ => k = (j, g) ∧ ∃ r, row_at rows k = Some r ∧ is_open r = true ∧ (phase s < phase (jr_state r))%nat
  | Op_finish j g s _ _ _ _ _ | Op_end_attempt j g s _ _ _ _ _ _ _ _ => k = (j, g) ∧ is_terminal s = false
  | Op_set_running j g _ _ _ => k = (j, g) ∧ ∃ r, row_at rows k = Some r ∧ (2 < phase (jr_state r))%nat
  | Op_prune before => ∃ r, row_at rows k = Some r ∧ ended_before before r = true
  | _ => False
  end.

(** It takes no attempt back. *)
Definition allowed (op : LedgerOp) (rows : list JobRow) : Prop := ∀ k, ¬ sets_back op rows k.

(** Operations and queries in any order, any statement of which may fail;
    none of them sets [k] back.  What they do to other attempts is open. *)
Inductive ledger_runs (k : string * Z) : Ledger → list LeaveEvent → Ledger → Prop :=
| lr_nil db : ledger_runs k db [] db
| lr_op db op evs db' :
  ¬ sets_back op (db_rows db) k → ledger_runs k (run_op op db).2 evs db' →
  ledger_runs k db ((run_op op db).1 ++ evs) db'
| lr_read db db1 evs db' : db_rows db1 = db_rows db → ledger_runs k db1 evs db' → ledger_runs k db evs db'.

Lemma row_at_snoc rows r k :
  row_at (rows ++ [r]) k = opt_or (row_at rows k) (if row_is k.1 k.2 r then Some r else None).
Proof. unfold row_at. induction rows as [|x rows IH]; cbn; [done|]. by destruct (row_is _ _ x). Qed.

Lemma insert_row_forward mk db :
  (∀ id, rf_rowid (jr_fixed (mk id)) = id) → (∀ a b, key_of (mk a) = key_of (mk b)) →
  table_ok (db_rows db) →
  forward (db_rows db) (db_rows (insert_row mk db).2)
  ∧ (∀ x, (insert_row mk db).1 = Ok x → row_at (db_rows db) (key_of (mk 0)) = None
       ∧ ∃ id, row_at (db_rows (insert_row mk db).2) (key_of (mk 0)) = Some (mk id)).
Proof.
  intros Hid Hkey Hok. set (r := mk (next_rowid (db_rows db))).
  unfold insert_row. match goal with |- context [statement ?f db] => destruct (statement_cases f db)
    as [(x&rows&Hf&->)|[e ->]] end; cbn [fst snd db_rows]; [|split; [by apply forward_refl|done]].
  cbv zeta in Hf. change (mk (next_rowid (db_rows db))) with r in Hf.
  destruct (existsb _ _) eqn:Hex; [done|]. injection Hf as _ <-.
  rewrite existsb_false in Hex.
  assert (row_at (db_rows db) (key_of r) = None) as Hnone.
  { apply row_at_None. intros (y&Hk&Hy)%list_elem_of_fmap. specialize (Hex y Hy).
    apply not_true_iff_false in Hex. apply Hex, (row_is_key (key_of r)). done. }
  assert (∀ k y, row_at (db_rows db) k = Some y → row_at (db_rows db ++ [r]) k = Some y) as Hold.
  { intros k y. rewrite row_at_snoc. by intros ->. }
  assert (row_at (db_rows db ++ [r]) (key_of r) = Some r) as Hnew.
  { rewrite row_at_snoc, Hnone. cbn. by rewrite row_is_self. }
  split.
  - split.
    + destruct Hok as [Hk Hs]. split; rewrite fmap_app; cbn.
      * apply NoDup_app. split_and!; [done| |apply NoDup_singleton]. intros k Hin ->%list_elem_of_singleton.
        by apply row_at_None in Hnone.
      * apply StronglySorted_app. split_and!; [|done|by repeat constructor].
        intros a b Ha ->%list_elem_of_singleton. unfold r. rewrite Hid. unfold next_rowid.
        apply Z.lt_succ_r. revert Ha. clear. induction (db_rows db) as [|z l IH]; cbn; [by intros ?%elem_of_nil|].
        intros [->|Hin]%elem_of_cons; [lia|]. specialize (IH Hin). lia.
    + intros k y Hy. exists y. split; [by apply Hold|done].
  - intros [] _. assert (key_of (mk 0) = key_of r) as -> by apply Hkey. split; [done|]. by exists (next_rowid (db_rows db)).
Qed.

Lemma terminal_phase s : is_terminal s = true ↔ phase s = 4%nat.
Proof. by destruct s. Qed.

(** An open row may go on; a row that keeps its state and its end lives. *)
Lemma life_on r r' : jr_fixed r' = jr_fixed r → is_open r = true → (phase (jr_state r) ≤ phase (jr_state r'))%nat → life r r'.
Proof. intros ? Ho ?. split; [done..|congruence]. Qed.
Lemma life_noted r r' : jr_fixed r' = jr_fixed r → outcome r' = outcome r → life r r'.
Proof. intros ? Ho. split; [done| |done]. injection Ho as -> _. done. Qed.

Ltac moves_on_tac :=
  repeat first
    [ apply moves_ret | apply moves_select
    | apply moves_bind; [|intros ?]
    | apply moves_on_update; [done|] ].

Lemma moves_on_src j g src : moves_on (set_src j g src).
Proof. unfold set_src. moves_on_tac. intros r _. by apply life_noted. Qed.
Lemma moves_on_receipt j g x : moves_on (set_receipt j g x).
Proof. unfold set_receipt. moves_on_tac. intros r _. by apply life_noted. Qed.
Lemma moves_on_outputs j g x : moves_on (set_outputs j g x).
Proof. unfold set_outputs. moves_on_tac. intros r _. by apply life_noted. Qed.
Lemma moves_on_cleaned j g : moves_on (mark_cleaned j g).
Proof. unfold mark_cleaned. moves_on_tac. intros r _. by apply life_noted. Qed.
Lemma moves_on_run j g x : moves_on (set_run j g x).
Proof. unfold set_run. moves_on_tac. intros r [_ Ho]%andb_true_iff. by apply life_on. Qed.

Lemma moves_on_finish j g s reason detail exit seq at' :
  is_terminal s = true → moves_on (finish j g s reason detail exit seq at').
Proof.
  intros Hs%terminal_phase. unfold finish. moves_on_tac. intros r [_ Ho]%andb_true_iff.
  pose proof (proj1 (is_open_phase r) Ho). apply life_on; [done..|]. cbn. lia.
Qed.
Lemma moves_on_log_seq j g seq : moves_on (set_log_seq j g seq).
Proof. unfold set_log_seq. moves_on_tac. intros r _. by apply life_noted. Qed.
Lemma moves_on_end j g s reason detail exit seq at' src o r :
  is_terminal s = true → moves_on (end_attempt j g s reason detail exit seq at' src o r).
Proof.
  intros Hs. apply moves_transaction. unfold end_writes. apply moves_bind; [by apply moves_on_finish|].
  intros []; cbn; [|apply moves_ret].
  repeat (apply moves_bind; [apply moves_when|intros _]); [..|apply moves_ret]; intros ?;
    [apply moves_on_src|apply moves_on_outputs|apply moves_on_receipt].
Qed.
Lemma moves_on_reconcile now boot : moves_on (reconcile_boot now boot).
Proof.
  unfold reconcile_boot, non_terminal, all. apply moves_bind; [moves_on_tac|intros rows].
  apply moves_collect. intros r. destruct (_ && _); [|apply moves_ret].
  apply moves_bind; [by apply moves_on_finish|intros ?; apply moves_ret].
Qed.
Lemma moves_on_interrupt reason keep now : moves_on (interrupt_open_except reason keep now).
Proof.
  unfold interrupt_open_except. apply moves_bind; [moves_on_tac|intros rows].
  apply moves_collect. intros [[[job gen] pid'] seq]. destruct (existsb _ _); [apply moves_ret|].
  apply moves_bind; [by apply moves_on_finish|intros ?; apply moves_ret].
Qed.

Lemma row_in_key rows j g r : table_ok rows → r ∈ rows → row_is j g r = true → row_at rows (j, g) = Some r.
Proof. intros [Hk _] Hr Hi. apply (row_is_key (j, g)) in Hi as <-. by apply row_at_elem. Qed.

(** A statement on the attempt [k] that lets its row live. *)
Lemma update_at_forward k p f db :
  (∀ r, jr_fixed (f r) = jr_fixed r) → (∀ r, p r = true → key_of r = k) → table_ok (db_rows db) →
  (∀ r, row_at (db_rows db) k = Some r → p r = true → life r (f r)) →
  forward (db_rows db) (db_rows (update p f db).2).
Proof.
  intros Hf Hk Hok Hl. destruct (update_cases p f db) as [->|[e ->]]; cbn; [|by apply forward_refl].
  apply forward_change; [done..|]. intros r Hr Hp. apply Hl; [|done]. rewrite <- (Hk r Hp). by apply row_at_elem; [apply Hok|].
Qed.
Lemma rows_then {A B} (m : LedgerM A) (y : B) db : db_rows ((let! _ := m in l_ret y) db).2 = db_rows (m db).2.
Proof. unfold l_bind. by destruct (m db) as [[x|e] db1]. Qed.
Lemma row_is_of j g q r : row_is j g r && q = true → key_of r = (j, g).
Proof. intros [Hi _]%andb_true_iff. by apply (row_is_key (j, g)). Qed.

Lemma set_state_forward j g s reason detail db :
  table_ok (db_rows db) → ¬ sets_back (Op_set_state j g s reason detail) (db_rows db) (j, g) →
  forward (db_rows db) (db_rows (set_state j g s reason detail db).2).
Proof.
  intros Hok Hb. unfold set_state. rewrite rows_then. apply (update_at_forward (j, g)); [done|intros r; apply row_is_of|done|].
  intros r Hr [_ Ho]%andb_true_iff. apply life_on; [done..|]. cbn in *. apply Nat.nlt_ge. intros Hlt. apply Hb. eauto.
Qed.
Lemma set_running_forward j g pid' src at' db :
  table_ok (db_rows db) → ¬ sets_back (Op_set_running j g pid' src at') (db_rows db) (j, g) →
  forward (db_rows db) (db_rows (set_running j g pid' src at' db).2).
Proof.
  intros Hok Hb. unfold set_running. rewrite rows_then.
  apply (update_at_forward (j, g)); [done|intros r; apply (row_is_key (j, g))|done|]. intros r Hr _.
  assert (phase (jr_state r) ≤ 2)%nat as Hle by (apply Nat.nlt_ge; intros Hlt; apply Hb; cbn; eauto).
  apply life_on; [done| |done]. apply is_open_phase. lia.
Qed.

(** Leaving the queue: exactly when the attempt was queued. *)
Lemma leave_cases j g (f : JobRow → JobRow) db :
  table_ok (db_rows db) → (∀ r, jr_fixed (f r) = jr_fixed r) →
  (∀ r, is_queued r = true → (1 ≤ phase (jr_state (f r)))%nat) →
  let m := let! n := update (λ r, row_is j g r && is_queued r) f in l_ret (one_row n) in
  forward (db_rows db) (db_rows (m db).2)
  ∧ ((m db).1 = Ok true → ∃ r, row_at (db_rows db) (j, g) = Some r ∧ is_queued r = true
       ∧ row_at (db_rows (m db).2) (j, g) = Some (f r)).
Proof.
  intros Hok Hf Hp m. unfold m, l_bind. destruct (update_cases (λ r, row_is j g r && is_queued r) f db) as [->|[e ->]];
    cbn [fst snd l_ret db_rows]; [|split; [by apply forward_refl|done]]. split.
  - apply forward_change; [done..|]. intros r Hr [_ Hq]%andb_true_iff. pose proof (proj1 (is_queued_phase r) Hq).
    apply life_on; [done| |lia]. apply is_open_phase. lia.
  - rewrite (filter_key _ (j, g) is_queued) by apply Hok. rewrite row_at_change by done.
    destruct (row_at _ (j, g)) as [r|] eqn:Hr; [|done]. destruct (is_queued r) eqn:Hq; [|done].
    intros _. exists r. split_and!; [done..|]. cbn. unfold change. apply row_at_Some in Hr as [_ Hk].
    pose proof (proj2 (row_is_key (j, g) r) Hk) as E. cbn in E. by rewrite E, Hq.
Qed.

(** ** What happens to an attempt, once *)

(** Before an attempt leaves the queue: it isn't known, or it waits. *)
Definition may_leave (rows : list JobRow) (k : string * Z) : Prop :=
  match row_at rows k with None => True | Some r => is_queued r = true end.
Lemma may_leave_new rows k : row_at rows k = None → may_leave rows k.
Proof. unfold may_leave. by intros ->. Qed.
(** After. *)
Definition has_left (rows : list JobRow) (e : LeaveEvent) : Prop :=
  ∃ r, row_at rows (event_key e) = Some r
    ∧ match e with Ev_start _ => (1 ≤ phase (jr_state r))%nat | Ev_cancel _ => jr_state r = JobState_Cancelled end.

(** The attempt [k] lives from one table to the other. *)
Record lives (k : string * Z) (rows rows' : list JobRow) : Prop := {
  lv_ok : table_ok rows';
  lv_life : ∀ r, row_at rows k = Some r → ∃ r', row_at rows' k = Some r' ∧ life r r';
}.
#[export] Instance lives_motion k : Motion (lives k).
Proof.
  split; [|intros rows1 rows2 rows3 [_ H1] [Hok H2]; split; [done|]|by intros rows rows' []].
  - intros rows Hok. split; [done|]. intros r Hr. by exists r.
  - intros r Hr. destruct (H1 r Hr) as (r1&Hr1&L1). destruct (H2 r1 Hr1) as (r2&Hr2&L2). exists r2. split; [done|]. by etrans.
Qed.
Lemma lives_forward k rows rows' : forward rows rows' → lives k rows rows'.
Proof. intros [Hok Hl]. split; [done|]. apply Hl. Qed.
Lemma lives_untouched k rows rows' : untouched k rows rows' → lives k rows rows'.
Proof. intros [Hok He]. split; [done|]. intros r Hr. exists r. by rewrite He. Qed.

Lemma has_left_lives rows rows' e : lives (event_key e) rows rows' → has_left rows e → has_left rows' e.
Proof.
  intros Hf (r&Hr&He). destruct (lv_life _ _ _ Hf _ Hr) as (r'&Hr'&[_ Hp Ho]).
  exists r'. split; [done|]. destruct e as [k|k]; [lia|].
  assert (is_open r = false) as Hc by (unfold is_open; by rewrite He).
  specialize (Ho Hc). injection Ho as -> _. done.
Qed.
Lemma left_may_not rows e : has_left rows e → may_leave rows (event_key e) → False.
Proof.
  intros (r&Hr&He). unfold may_leave. rewrite Hr. intros Hq%is_queued_phase.
  destruct e; [lia|]. by rewrite He in Hq.
Qed.
Lemma may_leave_back rows rows' k : lives k rows rows' → may_leave rows' k → may_leave rows k.
Proof.
  intros Hf. unfold may_leave. destruct (row_at rows k) as [r|] eqn:Hr; [|done].
  destruct (lv_life _ _ _ Hf _ Hr) as (r'&->&[_ Hp _]). rewrite !is_queued_phase. lia.
Qed.

Record op_spec (k : string * Z) (rows : list JobRow) (evs : list LeaveEvent) (rows' : list JobRow) : Prop := {
  op_lives : lives k rows rows';
  op_one : (length evs ≤ 1)%nat;
  op_left : ∀ e, e ∈ evs → may_leave rows (event_key e) ∧ has_left rows' e;
}.

Lemma op_spec_quiet k rows rows' : lives k rows rows' → op_spec k rows [] rows'.
Proof. intros H. split; [done|cbn; lia|]. by intros e ?%elem_of_nil. Qed.
Lemma op_spec_one k rows e rows' :
  forward rows rows' → may_leave rows (event_key e) → has_left rows' e → op_spec k rows [e] rows'.
Proof. intros H ??. split; [by apply lives_forward|cbn; lia|]. by intros ? ->%list_elem_of_singleton. Qed.

Lemma run_quiet {A} k (m : LedgerM A) db :
  lives k (db_rows db) (db_rows (m db).2) →
  let told := match m db with (Ok _, db') => ([], db') | (Err _, db') => ([], db') end in
  op_spec k (db_rows db) told.1 (db_rows told.2).
Proof. intros H. destruct (m db) as [[x|e] db']; by apply op_spec_quiet. Qed.
Lemma run_moves {A} k (m : LedgerM A) db : table_ok (db_rows db) → moves_on m →
  let told := match m db with (Ok _, db') => ([], db') | (Err _, db') => ([], db') end in
  op_spec k (db_rows db) told.1 (db_rows told.2).
Proof. intros Hok Hm. by apply run_quiet, lives_forward, Hm. Qed.
(** A method on the attempt [(j, g)], seen from [k]. *)
Lemma run_at {A} k j g (m : LedgerM A) db : table_ok (db_rows db) →
  (k = (j, g) → forward (db_rows db) (db_rows (m db).2)) → (k ≠ (j, g) → moves (untouched k) m) →
  let told := match m db with (Ok _, db') => ([], db') | (Err _, db') => ([], db') end in
  op_spec k (db_rows db) told.1 (db_rows told.2).
Proof.
  intros Hok Hs Ho. apply run_quiet. destruct (decide (k = (j, g))) as [E|E].
  - by apply lives_forward, Hs.
  - by apply lives_untouched, Ho.
Qed.

Lemma run_leave k j g (f : JobRow → JobRow) (e : LeaveEvent) db :
  table_ok (db_rows db) → (∀ r, jr_fixed (f r) = jr_fixed r) → event_key e = (j, g) →
  (∀ r, is_queued r = true → (1 ≤ phase (jr_state (f r)))%nat
     ∧ match e with Ev_start _ => True | Ev_cancel _ => jr_state (f r) = JobState_Cancelled end) →
  let m := let! n := update (λ r, row_is j g r && is_queued r) f in l_ret (one_row n) in
  let told := match m db with (Ok b, db') => ((if b then [e] else []) : list LeaveEvent, db') | (Err _, db') => ([], db') end in
  op_spec k (db_rows db) told.1 (db_rows told.2).
Proof.
  intros Hok Hf Hk Hp m. destruct (leave_cases j g f db Hok Hf) as [Hfw Hev]; [naive_solver|].
  fold m in Hfw, Hev. destruct (m db) as [[[]|e'] db']; cbn in *; [|by apply op_spec_quiet, lives_forward..].
  destruct (Hev eq_refl) as (r&Hr&Hq&Hr'). apply op_spec_one; [done|..]; rewrite ?Hk.
  - unfold may_leave. by rewrite Hr.
  - exists (f r). rewrite Hk. split; [done|]. destruct (Hp r Hq). by destruct e.
Qed.

(** Seen from another attempt. *)
Lemma other_at k j g p f : k ≠ (j, g) → (∀ r, jr_fixed (f r) = jr_fixed r) → (∀ r, p r = true → key_of r = (j, g)) →
  moves (untouched k) (update p f).
Proof. intros Hk Hf Hp. apply moves_update_other; [done|]. intros r Hr E. apply Hk. rewrite <- E. by apply Hp. Qed.
Lemma other_finish k j g s reason detail exit seq at' : k ≠ (j, g) → moves (untouched k) (finish j g s reason detail exit seq at').
Proof.
  intros Hk. unfold finish. apply moves_bind; [|intros n; apply moves_ret].
  apply (other_at k j g); [done..|]. intros r. apply row_is_of.
Qed.
Lemma other_one k j g f : k ≠ (j, g) → (∀ r, jr_fixed (f r) = jr_fixed r) →
  moves (untouched k) (let! _ := update (row_is j g) f in l_ret tt).
Proof.
  intros Hk Hf. apply moves_bind; [|intros n; apply moves_ret].
  apply (other_at k j g); [done..|]. intros r. apply (row_is_key (j, g)).
Qed.
Lemma other_end k j g s reason detail exit seq at' src o r :
  k ≠ (j, g) → moves (untouched k) (end_attempt j g s reason detail exit seq at' src o r).
Proof.
  intros Hk. apply moves_transaction. unfold end_writes. apply moves_bind; [by apply other_finish|].
  intros []; cbn; [|apply moves_ret].
  repeat (apply moves_bind; [apply moves_when|intros _]); [..|apply moves_ret]; intros ?; by apply other_one.
Qed.

Lemma row_at_filter rows k (p : JobRow → bool) : NoDup (key_of <$> rows) →
  row_at (List.filter p rows) k = match row_at rows k with Some r => if p r then Some r else None | None => None end.
Proof.
  intros Hnd. destruct (row_at rows k) as [r|] eqn:Hr.
  - apply row_at_Some in Hr as [Hr <-]. destruct (p r) eqn:Hp.
    + apply row_at_elem; [by apply NoDup_fmap_filter|]. by apply elem_of_filter_bool.
    + apply row_at_None. intros (x&Hk&[Hx Hpx]%elem_of_filter_bool)%list_elem_of_fmap.
      pose proof (row_at_elem _ _ Hnd Hr) as H1. rewrite Hk, (row_at_elem _ _ Hnd Hx) in H1. congruence.
  - apply row_at_None. apply row_at_None in Hr. intros (x&->&[Hx _]%elem_of_filter_bool)%list_elem_of_fmap.
    by apply Hr, list_elem_of_fmap_2.
Qed.
Lemma table_ok_filter rows (p : JobRow → bool) : table_ok rows → table_ok (List.filter p rows).
Proof.
  intros [Hk Hs]. split; [by apply NoDup_fmap_filter|]. clear Hk. induction rows as [|x rows IH]; cbn; [constructor|].
  cbn in Hs. apply StronglySorted_inv in Hs as [Hs Hx]. destruct (p x); cbn; [|by apply IH].
  constructor; [by apply IH|]. rewrite Forall_forall in Hx |- *. intros z (y&->&[Hy _]%elem_of_filter_bool)%list_elem_of_fmap.
  apply Hx, list_elem_of_fmap. by exists y.
Qed.
Lemma prune_lives k before db : table_ok (db_rows db) → ¬ sets_back (Op_prune before) (db_rows db) k →
  lives k (db_rows db) (db_rows (prune before db).2).
Proof.
  intros Hok Hb. unfold prune. match goal with |- context [statement ?f db] =>
    destruct (statement_cases f db) as [(x&rows&[= <- <-]&->)|[e ->]] end; cbn; [|by apply motion_refl].
  split; [by apply table_ok_filter|]. intros r Hr. exists r. split; [|done]. rewrite row_at_filter, Hr by apply Hok.
  destruct (ended_before before r) eqn:E; [|done]. exfalso. apply Hb. cbn. eauto.
Qed.

Lemma run_op_spec k op db :
  table_ok (db_rows db) → ¬ sets_back op (db_rows db) k →
  op_spec k (db_rows db) (run_op op db).1 (db_rows (run_op op db).2).
Proof.
  intros Hok Hb. destruct op.
  - destruct (insert_row_forward (insert_values a now boot JobState_Preparing None None None None None None) db)
      as [Hf Hev]; [done..|]. cbn [run_op]. unfold ledger_insert. destruct (insert_row _ db) as [[[]|e] db'];
      [|by apply op_spec_quiet, lives_forward]. destruct (Hev tt eq_refl) as [Hn [id Hr]].
    apply op_spec_one; [done| |].
    { exact (may_leave_new _ _ Hn). }
    eexists. split; [exact Hr|]. cbn. lia.
  - apply run_quiet, lives_forward. by apply insert_row_forward.
  - apply (run_leave k job gen _ (Ev_start (job, gen))); done.
  - apply (run_leave k job gen _ (Ev_cancel (job, gen))); try done. intros r _. cbn. split; [lia|done].
  - apply (run_at k job gen); [done|intros ->; by apply set_state_forward|intros Hk].
    apply moves_bind; [|intros n; apply moves_ret]. apply (other_at k job gen); [done..|]. intros r. apply row_is_of.
  - apply (run_at k job gen); [done|intros ->; by apply set_running_forward|intros Hk; by apply other_one].
  - apply run_moves; [done|]. apply moves_on_src.
  - apply run_moves; [done|]. apply moves_on_log_seq.
  - apply run_moves; [done|]. apply moves_on_receipt.
  - apply run_moves; [done|]. apply moves_on_outputs.
  - apply run_moves; [done|]. apply moves_on_cleaned.
  - apply run_moves; [done|]. apply moves_on_run.
  - apply (run_at k job gen); [done|intros ->|intros Hk; by apply other_finish].
    apply moves_on_finish; [|done]. cbn in Hb. destruct (is_terminal state) eqn:E; [done|]. by destruct Hb.
  - apply (run_at k job gen); [done|intros ->|intros Hk; by apply other_end].
    apply moves_on_end; [|done]. cbn in Hb. destruct (is_terminal state) eqn:E; [done|]. by destruct Hb.
  - apply run_moves; [done|]. apply moves_on_reconcile.
  - apply run_moves; [done|]. apply moves_on_interrupt.
  - by apply run_quiet, prune_lives.
Qed.

(** The runs of a table, seen from [k]: what they promise about it and when it
    left. *)
Definition about_key (k : string * Z) (evs : list LeaveEvent) : list LeaveEvent :=
  List.filter (λ e, bool_decide (event_key e = k)) evs.
Record runs_spec (k : string * Z) (rows : list JobRow) (evs : list LeaveEvent) (rows' : list JobRow) : Prop := {
  ru_lives : lives k rows rows';
  ru_once : (length (about_key k evs) ≤ 1)%nat;
  ru_left : ∀ e, e ∈ about_key k evs → may_leave rows k ∧ has_left rows' e;
}.

Lemma about_key_app k evs evs' : about_key k (evs ++ evs') = about_key k evs ++ about_key k evs'.
Proof. apply List.filter_app. Qed.
Lemma about_key_elem k evs e : e ∈ about_key k evs ↔ e ∈ evs ∧ event_key e = k.
Proof. unfold about_key. by rewrite elem_of_filter_bool, bool_decide_eq_true. Qed.

Lemma ledger_runs_spec k db evs db' :
  table_ok (db_rows db) → ledger_runs k db evs db' → runs_spec k (db_rows db) evs (db_rows db').
Proof.
  intros Hok Hr. revert Hok. induction Hr as [db|db op evs db' Hb Hr IH|db db1 evs db' E Hr IH]; intros Hok;
    [| |rewrite <- E in *; by apply IH].
  { split; [by apply motion_refl|cbn; lia|by intros e ?%elem_of_nil]. }
  pose proof (run_op_spec k op db Hok Hb) as [Hf Hone Hl]. destruct (IH (lv_ok _ _ _ Hf)) as [Hf' Hnd Hl'].
  split; [by eapply motion_trans| |]; rewrite about_key_app.
  - destruct (about_key k (run_op op db).1) as [|e es] eqn:Ee; [done|].
    assert (length (about_key k (run_op op db).1) ≤ length (run_op op db).1)%nat as Hlen by apply List.filter_length_le.
    rewrite Ee in Hlen. destruct es; [|cbn in Hlen; lia].
    assert (e ∈ (run_op op db).1 ∧ event_key e = k) as [He <-] by (apply about_key_elem; rewrite Ee; set_solver).
    destruct (about_key (event_key e) evs) as [|e' es'] eqn:Ee'; [cbn; lia|]. exfalso.
    destruct (Hl e He) as [_ Hle]. destruct (Hl' e') as [Hm _]; [set_solver|]. by eapply left_may_not.
  - intros e [He|He]%elem_of_app.
    + apply about_key_elem in He as [He <-]. destruct (Hl e He). split; [done|]. by eapply has_left_lives.
    + destruct (Hl' e He) as [Hm ?]. split; [|done]. by eapply may_leave_back.
Qed.

Lemma about_once evs : (∀ k, (length (about_key k evs) ≤ 1)%nat) → NoDup (event_key <$> evs).
Proof.
  induction evs as [|e evs IH]; intros H; cbn; [constructor|]. constructor.
  - intros (e'&E&He)%list_elem_of_fmap. specialize (H (event_key e)). unfold about_key in H. cbn in H.
    rewrite bool_decide_eq_true_2 in H by done. cbn in H.
    assert (e' ∈ about_key (event_key e) evs) as Hin by (by apply about_key_elem).
    unfold about_key in Hin. destruct (List.filter _ evs); [by apply elem_of_nil in Hin|cbn in H; lia].
  - apply IH. intros k. specialize (H k). unfold about_key in *. cbn in H. destruct (bool_decide _); cbn in H; lia.
Qed.

(** ** Methods that answer or fail *)

(** On [rows], [m] answers [x] and leaves [rows'], or a statement fails; it
    does answer when none fails. *)
Record yields {A} (m : LedgerM A) (rows : list JobRow) (x : A) (rows' : list JobRow) : Prop := {
  yi_cases : ∀ db, db_rows db = rows →
    ((m db).1 = Ok x ∧ db_rows (m db).2 = rows') ∨ ∃ e, (m db).1 = Err e;
  yi_calm : ∀ fs, Forall (eq None) fs → ∃ fs', Forall (eq None) fs' ∧ m (mk_Ledger rows fs) = (Ok x, mk_Ledger rows' fs');
}.

Lemma yields_ret {A} (x : A) rows : yields (l_ret x) rows x rows.
Proof. split; [by left|]. intros fs Hfs. by exists fs. Qed.
Lemma yields_bind {A B} (m : LedgerM A) (g : A → LedgerM B) rows x rows' y rows'' :
  yields m rows x rows' → yields (g x) rows' y rows'' → yields (let! x := m in g x) rows y rows''.
Proof.
  intros [Hm Cm] [Hg Cg]. split.
  - intros db Hdb. unfold l_bind. destruct (Hm db Hdb) as [[H1 H2]|[e H1]]; destruct (m db) as [[x'|e'] db1]; cbn in *.
    + injection H1 as ->. by apply Hg.
    + done.
    + done.
    + right. by exists e'.
  - intros fs Hfs. destruct (Cm fs Hfs) as (fs1&Hf1&E1). destruct (Cg fs1 Hf1) as (fs2&Hf2&E2).
    exists fs2. split; [done|]. unfold l_bind. by rewrite E1.
Qed.
Lemma yields_statement {A} (f : list JobRow → Result (A * list JobRow) string) rows x rows' :
  f rows = Ok (x, rows') → yields (statement f) rows x rows'.
Proof.
  intros Hf. split.
  - intros db <-. destruct (statement_cases f db) as [(y&rows1&Hy&->)|[e ->]]; [|right; by eexists].
    rewrite Hf in Hy. injection Hy as <- <-. by left.
  - intros fs Hfs. exists (tail fs). split; [by destruct Hfs|]. unfold statement. cbn [db_faults db_rows].
    rewrite Hf. by destruct Hfs as [|? ? <- _].
Qed.
Lemma yields_update p f rows : yields (update p f) rows (length (List.filter p rows)) (change p f <$> rows).
Proof. by apply yields_statement. Qed.
Lemma yields_unit p f rows :
  yields (let! _ := update p f in l_ret tt) rows tt (change p f <$> rows).
Proof. eapply yields_bind; [apply yields_update|apply yields_ret]. Qed.

(** A transaction commits what its body wrote, or nothing. *)
Lemma transaction_atomic body rows (b : bool) rows' :
  yields body rows b rows' →
  (∀ db, db_rows db = rows →
     ((transaction body db).1 = Ok b ∧ db_rows (transaction body db).2 = if b then rows' else rows)
     ∨ ((∃ e, (transaction body db).1 = Err e) ∧ db_rows (transaction body db).2 = rows))
  ∧ ∀ fs, Forall (eq None) fs → (transaction body (mk_Ledger rows fs)).1 = Ok b.
Proof.
  intros [Hb Cb].
  assert (∀ rows, yields (statement (λ rows, Ok (tt, rows))) rows tt rows) as Hs by (intros; by apply yields_statement).
  assert (∀ db, db_rows (statement (λ rows, Ok (tt, rows)) db).2 = db_rows db) as Hrows
    by (intros db; apply (select_rows (λ _, tt))).
  split.
  - intros db <-. unfold transaction. pose proof (Hrows db) as H1.
    destruct (statement _ db) as [[[]|e] db1]; cbn in H1; [|right; cbn; eauto].
    destruct (Hb db1 H1) as [[H2 H3]|[e H2]]; destruct (body db1) as [[b'|e'] db2]; cbn in H2; try done;
      [|right; cbn; eauto].
    injection H2 as ->. cbn in H3. destruct b; [|left; done]. pose proof (Hrows db2) as H4.
    destruct (statement _ db2) as [[[]|e] db3]; cbn in *; [left; by rewrite H4|right; eauto].
  - intros fs Hfs. unfold transaction. destruct (yi_calm _ _ _ _ (Hs rows) fs Hfs) as (fs1&Hf1&->).
    destruct (Cb fs1 Hf1) as (fs2&Hf2&->). destruct b; [|done].
    by destruct (yi_calm _ _ _ _ (Hs rows') fs2 Hf2) as (fs3&Hf3&->).
Qed.

(** The row of an attempt that has just ended, in every column. *)
Definition ended_row (state : JobState) (reason detail : option string) (exit : option ExitInfo) (log_seq at' : Z)
    (src : option SrcRan) (outputs : option Outputs) (receipt : option SignedReceipt) (r : JobRow) : JobRow := {|
  jr_fixed := jr_fixed r;
  jr_state := state;
  jr_reason := reason;
  jr_detail := detail;
  jr_started_at := jr_started_at r;
  jr_ended_at := Some at';
  jr_exit_code := match exit with Some e => ex_code e | None => None end;
  jr_signal := match exit with Some e => ex_signal e | None => None end;
  jr_log_seq := log_seq;
  jr_pid := None;
  jr_boot_id := jr_boot_id r;
  jr_src := opt_or src (jr_src r);
  jr_receipt := opt_or receipt (jr_receipt r);
  jr_cleaned := jr_cleaned r;
  jr_outputs := opt_or outputs (jr_outputs r);
  jr_run_json := jr_run_json r;
|}.

Lemma l_when_yields {A} (x : option A) (m : A → LedgerM unit) rows rows' :
  (∀ y, x = Some y → yields (m y) rows tt rows') → (x = None → rows' = rows) → yields (l_when x m) rows tt rows'.
Proof. destruct x as [y|]; intros H Hn; [by apply H|]. rewrite Hn by done. apply yields_ret. Qed.

(** The three optional columns, as one change of the attempt's row. *)
Definition add_results (src : option SrcRan) (outputs : option Outputs) (receipt : option SignedReceipt) (r : JobRow) : JobRow :=
  with_results (opt_or src (jr_src r)) (opt_or receipt (jr_receipt r)) (jr_cleaned r) (opt_or outputs (jr_outputs r)) r.

Lemma results_yield j g src outputs receipt rows :
  yields (let! _ := l_when src (set_src j g) in let! _ := l_when outputs (set_outputs j g) in
          let! _ := l_when receipt (set_receipt j g) in l_ret true) rows true
    (change (row_is j g) (add_results src outputs receipt) <$> rows).
Proof.
  assert (∀ f h (l : list JobRow), (∀ r, jr_fixed (f r) = jr_fixed r) →
    change (row_is j g) h <$> (change (row_is j g) f <$> l) = change (row_is j g) (h ∘ f) <$> l) as Hcomp.
  { intros f h l Hf. rewrite <- list_fmap_compose. apply list_fmap_ext. intros ? r _. cbn. unfold change.
    destruct (row_is j g r) eqn:E; [|by rewrite E]. unfold row_is in *. by rewrite Hf, E. }
  assert (∀ f (l : list JobRow), (∀ r, f r = r) → change (row_is j g) f <$> l = l) as Hid.
  { intros f l Hf. transitivity (id <$> l); [|apply list_fmap_id]. apply list_fmap_ext. intros ? r _.
    unfold change. destruct (row_is j g r); [apply Hf|done]. }
  eapply yields_bind; [apply (l_when_yields _ _ _ (change (row_is j g) (add_results src None None) <$> rows))|].
  { intros y ->. apply yields_unit. } { intros ->. apply Hid. by intros []. }
  eapply yields_bind; [apply (l_when_yields _ _ _ (change (row_is j g) (add_results src outputs None) <$> rows))|].
  { intros y ->. rewrite <- (Hcomp (add_results src None None)
      (λ r, with_results (jr_src r) (jr_receipt r) (jr_cleaned r) (Some y) r)) by done. apply yields_unit. }
  { intros ->. done. }
  eapply yields_bind; [apply (l_when_yields _ _ _ (change (row_is j g) (add_results src outputs receipt) <$> rows))|].
  { intros y ->. rewrite <- (Hcomp (add_results src outputs None)
      (λ r, with_results (jr_src r) (Some y) (jr_cleaned r) (jr_outputs r) r)) by done. apply yields_unit. }
  { intros ->. done. }
  apply yields_ret.
Qed.

(** Of an attempt's rows, at most the one: ending it by key or by key and
    openness is the same when it is open. *)
Lemma change_open rows j g (f h : JobRow → JobRow) :
  NoDup (key_of <$> rows) → opt_is_some_and is_open (row_at rows (j, g)) = true →
  (∀ r, row_is j g r = true → is_open r = true → f r = h r) →
  change (λ r, row_is j g r && is_open r) f <$> rows = change (row_is j g) h <$> rows.
Proof.
  intros Hnd Ho Hfh. apply list_fmap_ext. intros i r Hr. unfold change.
  destruct (row_is j g r) eqn:E; cbn [andb]; [|done].
  pose proof (proj1 (row_is_key (j, g) r) E) as Hk.
  assert (row_at rows (j, g) = Some r) as Hat by (rewrite <- Hk; apply row_at_elem; [done|by eapply list_elem_of_lookup_2]).
  rewrite Hat in Ho. cbn in Ho. rewrite Ho. by apply Hfh.
Qed.

Lemma finish_count rows j g :
  table_ok rows →
  one_row (length (List.filter (λ r, row_is j g r && is_open r) rows)) = opt_is_some_and is_open (row_at rows (j, g)).
Proof.
  intros [Hk _]. rewrite (filter_key _ (j, g)) by done. destruct (row_at rows (j, g)) as [r|]; [|done].
  cbn. by destruct (is_open r).
Qed.

Lemma change_none rows p f : (∀ r, r ∈ rows → p r = false) → change p f <$> rows = rows.
Proof.
  intros Hp. transitivity (id <$> rows); [|apply list_fmap_id]. apply list_fmap_ext. intros i r Hr.
  unfold change. rewrite Hp; [done|]. by eapply list_elem_of_lookup_2.
Qed.

Lemma end_writes_yield j g state reason detail exit seq at' src outputs receipt rows :
  table_ok rows →
  let b := opt_is_some_and is_open (row_at rows (j, g)) in
  yields (end_writes j g state reason detail exit seq at' src outputs receipt) rows b
    (change (λ r, row_is j g r && is_open r) (ended_row state reason detail exit seq at' src outputs receipt) <$> rows).
Proof.
  intros Hok b. unfold end_writes. eapply yields_bind.
  { unfold finish. eapply yields_bind; [apply yields_update|]. rewrite finish_count by done. apply yields_ret. }
  fold b. destruct b eqn:Hb; cbn [negb].
  - match goal with |- yields _ (change ?p ?f <$> _) _ _ => rewrite (change_open rows j g f f) by (done || apply Hok) end.
    rewrite (change_open rows j g _ (ended_row state reason detail exit seq at' src outputs receipt)) by (done || apply Hok).
    match goal with |- yields _ ?r0 _ ?r1 =>
      assert (r1 = change (row_is j g) (add_results src outputs receipt) <$> r0) as -> end; [|apply results_yield].
    rewrite <- list_fmap_compose. apply list_fmap_ext. intros i r _. cbn. unfold change.
    destruct (row_is j g r) eqn:E; [|by rewrite E]. unfold row_is in *. cbn. rewrite E. done.
  - match goal with |- yields _ ?r0 _ ?r1 => assert (r1 = r0) as ->; [|apply yields_ret] end.
    rewrite !change_none; [done|..];
    intros r Hr; destruct (row_is j g r) eqn:E; try done;
    unfold b in Hb; rewrite (row_in_key _ _ _ _ Hok Hr E) in Hb; done.
Qed.

(** Every open, started attempt the caller picks is interrupted. *)
Definition interrupted_row (reason : string) (now : Z) (r : JobRow) : JobRow :=
  ended_row JobState_Interrupted (Some reason) None None (jr_log_seq r) now None None None r.
Definition picked (sel : list JobRow) (r : JobRow) : bool := existsb (λ s, bool_decide (key_of s = key_of r)) sel.

Lemma interrupt_one rows r reason now :
  table_ok rows → r ∈ rows → is_open r = true →
  yields (finish (key_of r).1 (key_of r).2 JobState_Interrupted (Some reason) None None (jr_log_seq r) now) rows true
    (change (picked [r]) (interrupted_row reason now) <$> rows).
Proof.
  intros Hok Hr Ho. assert (row_at rows (key_of r) = Some r) as Hat by (apply row_at_elem; [apply Hok|done]).
  unfold finish. eapply yields_bind; [apply yields_update|]. rewrite finish_count by done.
  change ((key_of r).1, (key_of r).2) with (key_of r). rewrite Hat. cbn [opt_is_some_and]. rewrite Ho.
  match goal with |- yields _ ?r0 _ ?r1 => assert (r1 = r0) as ->; [|apply yields_ret] end.
  symmetry. apply list_fmap_ext. intros i x Hx. unfold change, picked. cbn [existsb]. rewrite orb_false_r.
  destruct (row_is _ _ x) eqn:E; cbn [andb].
  - apply row_is_key in E. assert (x = r) as ->.
    { apply list_elem_of_lookup_2 in Hx. apply (row_at_elem _ _ (tb_keys _ Hok)) in Hx. congruence. }
    rewrite Ho, bool_decide_eq_true_2 by done. done.
  - rewrite bool_decide_eq_false_2; [done|]. intros Hk. apply not_true_iff_false in E. apply E. by apply row_is_key.
Qed.

Lemma picked_spec sel r : picked sel r = true ↔ key_of r ∈ key_of <$> sel.
Proof.
  unfold picked. rewrite existsb_true, list_elem_of_fmap. setoid_rewrite bool_decide_eq_true. split; intros (x&?&?); by exists x.
Qed.

Lemma collect_interrupt {A B} (g : JobRow → A) (f : A → LedgerM (list B)) (act : JobRow → bool) (out : JobRow → B)
    reason now sel rows :
  (∀ r, f (g r) = if act r then
     let! _ := finish (key_of r).1 (key_of r).2 JobState_Interrupted (Some reason) None None (jr_log_seq r) now in
     l_ret [out r] else l_ret []) →
  table_ok rows → NoDup (key_of <$> sel) → (∀ r, r ∈ sel → act r = true → r ∈ rows ∧ is_open r = true) →
  yields (l_collect f (g <$> sel)) rows (out <$> List.filter act sel)
    (change (picked (List.filter act sel)) (interrupted_row reason now) <$> rows).
Proof.
  intros Hf. revert rows. induction sel as [|r sel IH]; intros rows Hok Hnd Hsel; cbn [l_collect fmap list_fmap List.filter].
  { rewrite change_none by done. apply yields_ret. }
  cbn in Hnd. apply NoDup_cons in Hnd as [Hr Hnd]. rewrite Hf. destruct (act r) eqn:Ha.
  2:{ eapply yields_bind; [apply yields_ret|]. eapply yields_bind; [apply IH; [done..|]|apply yields_ret].
      intros x Hx. apply Hsel. set_solver. }
  destruct (Hsel r) as [Hin Ho]; [apply list_elem_of_here|done|].
  set (rows1 := change (picked [r]) (interrupted_row reason now) <$> rows).
  eapply yields_bind.
  { eapply yields_bind; [by apply interrupt_one|]. apply yields_ret. }
  fold rows1. assert (change (picked (r :: List.filter act sel)) (interrupted_row reason now) <$> rows
    = change (picked (List.filter act sel)) (interrupted_row reason now) <$> rows1) as ->.
  { unfold rows1. rewrite <- list_fmap_compose. apply list_fmap_ext. intros i x _. cbn. unfold change, picked. cbn [existsb].
    rewrite orb_false_r. case_bool_decide as Hk; [|done].
    cbn [orb]. destruct (existsb _ _) eqn:E; [|done]. exfalso.
    change (picked (List.filter act sel) x = true) in E. apply picked_spec in E. rewrite <- Hk in E.
    apply Hr. apply list_elem_of_fmap in E as (y&->&Hy). apply list_elem_of_fmap_2.
    by apply elem_of_filter_bool in Hy as [? _]. }
  eapply yields_bind; [apply IH; [by apply table_ok_change|done|]|apply yields_ret].
  intros x Hx Hax. destruct (Hsel x) as [Hxin Hxo]; [set_solver|done|]. split; [|done].
  assert (x = change (picked [r]) (interrupted_row reason now) x) as ->; [|by apply list_elem_of_fmap_2].
  unfold change, picked. cbn. rewrite orb_false_r, bool_decide_eq_false_2; [done|]. intros Hk.
  apply Hr. rewrite Hk. by apply list_elem_of_fmap_2.
Qed.

(** The rows a restart ends: started, open, and of another boot. *)
Definition lost_at_boot (boot : string) (r : JobRow) : bool :=
  negb (jr_boot_id r =? boot)%string && negb (is_queued r) && is_open r.
(** The rows a new process of the same boot ends: started and open, but for
    those it adopts. *)
Definition not_kept (keep : list (string * Z)) (r : JobRow) : bool :=
  is_open r && negb (is_queued r) && bool_decide (key_of r ∉ keep).

(** Interrupting the rows [q] of the table, taken in any order. *)
Lemma interrupt_picked rows sel q reason now :
  table_ok rows → sel ≡ₚ List.filter q rows →
  change (picked sel) (interrupted_row reason now) <$> rows
  = (λ r, if q r then interrupted_row reason now r else r) <$> rows.
Proof.
  intros Hok Hsel. apply list_fmap_ext. intros i r Hr%list_elem_of_lookup_2. unfold change.
  assert (picked sel r = q r) as ->; [|done]. apply eq_true_iff_eq. rewrite picked_spec, Hsel. split.
  - intros (x&Hk&[Hx Hq]%elem_of_filter_bool)%list_elem_of_fmap.
    pose proof (row_at_elem _ _ (tb_keys _ Hok) Hr) as Hr'. rewrite Hk, row_at_elem in Hr' by (done || apply Hok).
    by injection Hr' as <-.
  - intros Hq. apply list_elem_of_fmap_2. by apply elem_of_filter_bool.
Qed.

(** ** The theorems *)

(** (C4) One attempt, while any operations run on it and on the others, the
    deletion of old rows included, in any order and whichever statements
    fail: as long as no [set_state] gives it an earlier state, no
    [set_running] comes after it has gone further, no end given to it is no
    end, and no [prune] deletes it ([sets_back]), it keeps its row and its
    plan, never goes back in its life, and once it has ended keeps that end;
    it leaves the queue at most once, either to start or cancelled and not
    both, and only while it waited or was new.  [set_running] itself does not
    look at the state ([set_running_reopens]). *)
Theorem attempt_lifecycle (db db' : Ledger) (evs : list LeaveEvent) (k : string * Z) :
  table_ok (db_rows db) → ledger_runs k db evs db' →
  table_ok (db_rows db')
  ∧ (∀ r, row_at (db_rows db) k = Some r → ∃ r', row_at (db_rows db') k = Some r'
       ∧ jr_fixed r' = jr_fixed r
       ∧ (phase (jr_state r) ≤ phase (jr_state r'))%nat
       ∧ (is_terminal (jr_state r) = true → outcome r' = outcome r))
  ∧ (length (about_key k evs) ≤ 1)%nat
  ∧ (Ev_start k ∈ evs →
       (∀ r, row_at (db_rows db) k = Some r → jr_state r = JobState_Queued)
       ∧ ∃ r', row_at (db_rows db') k = Some r' ∧ jr_state r' ≠ JobState_Queued)
  ∧ (Ev_cancel k ∈ evs → ∃ r', row_at (db_rows db') k = Some r' ∧ jr_state r' = JobState_Cancelled).
Proof.
  intros Hok Hr. destruct (ledger_runs_spec k db evs db' Hok Hr) as [[Hok' Hl] Hone Hev].
  split_and!; [done| |done| |].
  - intros r Hk. destruct (Hl r Hk) as (r'&?&[? ? He]). exists r'. split_and!; [done..|].
    intros Ht. apply He. unfold is_open. by rewrite Ht.
  - intros Hk. destruct (Hev (Ev_start k)) as [Hm (r'&Hr'&Hp)]; [by apply about_key_elem|]. split.
    + intros r Hrk. unfold may_leave in Hm. rewrite Hrk in Hm. by apply bool_decide_eq_true in Hm.
    + exists r'. split; [done|]. intros E. rewrite E in Hp. cbn in Hp. lia.
  - intros Hk. destruct (Hev (Ev_cancel k)) as [_ ?]; [by apply about_key_elem|done].
Qed.

(** The end of an attempt is written whole or not at all: if every statement
    goes through, the answer says whether the attempt was open, and then its
    row has the end, what ran, the outputs and the receipt; if one fails, the
    table is as it was. *)
Theorem end_attempt_atomic (rows : list JobRow) (j : string) (g : Z) (state : JobState) (reason detail : option string)
    (exit : option ExitInfo) (seq at' : Z) (src : option SrcRan) (outputs : option Outputs) (receipt : option SignedReceipt) :
  table_ok rows →
  let was_open := opt_is_some_and is_open (row_at rows (j, g)) in
  let ended := (λ r, if row_is j g r && is_open r
                     then ended_row state reason detail exit seq at' src outputs receipt r else r) <$> rows in
  let run db := end_attempt j g state reason detail exit seq at' src outputs receipt db in
  (∀ db, db_rows db = rows →
     ((run db).1 = Ok was_open ∧ db_rows (run db).2 = ended)
     ∨ ((∃ e, (run db).1 = Err e) ∧ db_rows (run db).2 = rows))
  ∧ ∀ fs, Forall (eq None) fs → (run (mk_Ledger rows fs)).1 = Ok was_open.
Proof.
  intros Hok was_open ended run.
  destruct (transaction_atomic _ _ _ _ (end_writes_yield j g state reason detail exit seq at' src outputs receipt rows Hok))
    as [Hcases Hcalm]. fold was_open in Hcases, Hcalm. split; [|exact Hcalm].
  intros db Hdb. destruct (Hcases db Hdb) as [[H1 H2]|H]; [left|by right]. split; [done|].
  unfold run, end_attempt. rewrite H2. destruct was_open eqn:Hw; [done|]. unfold ended. symmetry.
  apply (change_none rows (λ r, row_is j g r && is_open r)). intros r Hr. destruct (row_is j g r) eqn:E; [|done].
  unfold was_open in Hw. by rewrite (row_in_key _ _ _ _ Hok Hr E) in Hw.
Qed.

(** A restart ends what it lost and nothing else: after a reboot exactly the
    open, started attempts of earlier boots are interrupted, and after a
    restart of the node alone exactly the open, started ones it doesn't
    adopt; queued attempts stay queued.  The attempts named are those. *)
Theorem restart_interrupts (rows : list JobRow) (reason boot : string) (keep : list (string * Z)) (now : Z) :
  table_ok rows →
  (∃ out, yields (reconcile_boot now boot) rows out
            ((λ r, if lost_at_boot boot r then interrupted_row "node_reboot" now r else r) <$> rows)
    ∧ out ≡ₚ key_of <$> List.filter (lost_at_boot boot) rows)
  ∧ (∃ out, yields (interrupt_open_except reason keep now) rows out
              ((λ r, if not_kept keep r then interrupted_row reason now r else r) <$> rows)
      ∧ fst <$> out = key_of <$> List.filter (not_kept keep) rows).
Proof.
  intros Hok. split.
  - set (sorted := isort (λ a b, not_gt (newest_cmp a b)) rows).
    assert (sorted ≡ₚ rows) as Hs by apply isort_Permutation.
    set (act := λ r, negb (jr_boot_id r =? boot)%string && negb (is_queued r)).
    assert (List.filter act (List.filter is_open sorted) ≡ₚ List.filter (lost_at_boot boot) rows) as Hlost.
    { rewrite filter_filter_bool. fold (lost_at_boot boot). by rewrite Hs. }
    exists (key_of <$> List.filter act (List.filter is_open sorted)). split; [|by rewrite Hlost].
    rewrite <- (interrupt_picked _ _ _ _ _ Hok Hlost). unfold reconcile_boot, non_terminal, all.
    eapply yields_bind; [eapply yields_bind; [by apply yields_statement|apply yields_ret]|].
    fold sorted. rewrite filter_fmap_bool. apply (collect_interrupt row_of); [done|done| |].
    + apply NoDup_fmap_filter. rewrite Hs. apply Hok.
    + intros r [Hr Ho]%elem_of_filter_bool _. split; [by rewrite <- Hs|done].
  - set (act := λ r, bool_decide (key_of r ∉ keep)).
    set (sel := List.filter (λ r, is_open r && negb (is_queued r)) rows).
    assert (List.filter act sel ≡ₚ List.filter (not_kept keep) rows) as Hkept.
    { unfold sel. rewrite filter_filter_bool. eapply reflexive_eq, filter_ext. intros r. unfold not_kept, act.
      by rewrite andb_comm. }
    exists ((λ r, (key_of r, i32 <$> jr_pid r)) <$> List.filter act sel). split.
    + rewrite <- (interrupt_picked _ _ _ _ _ Hok Hkept). unfold interrupt_open_except.
      eapply yields_bind; [by apply yields_statement|]. fold sel.
      apply (collect_interrupt _ _ act (λ r, (key_of r, i32 <$> jr_pid r))); [|done| |].
      * intros r. cbn. unfold act.
        assert (existsb (λ k, (k.1 =? rf_job_id (jr_fixed r))%string && (k.2 =? rf_generation (jr_fixed r))) keep
          = negb (bool_decide (key_of r ∉ keep))) as ->; [|by destruct (bool_decide _)].
        apply eq_true_iff_eq. rewrite negb_true_iff, bool_decide_eq_false, existsb_true. split.
        -- intros (k&Hk&[E1%String.eqb_eq E2%Z.eqb_eq]%andb_true_iff) Hn. apply Hn. unfold key_of.
           rewrite <- E1, <- E2. by destruct k.
        -- intros Hn. destruct (decide (key_of r ∈ keep)) as [Hk|]; [|done]. exists (key_of r).
           split; [done|]. cbn. by rewrite String.eqb_refl, Z.eqb_refl.
      * apply NoDup_fmap_filter, Hok.
      * intros r [Hr [Ho _]%andb_true_iff]%elem_of_filter_bool _. done.
    + rewrite <- list_fmap_compose. unfold sel. rewrite filter_filter_bool.
      rewrite (filter_ext (λ x, act x && (is_open x && negb (is_queued x))) (not_kept keep)); [done|].
      intros r. unfold act, not_kept. by rewrite andb_comm.
Qed.

(** ** A table at work *)

Fixpoint run_ops (ops : list LedgerOp) (db : Ledger) : list LeaveEvent * Ledger :=
  match ops with
  | [] => ([], db)
  | op :: ops => let r := run_op op db in let s := run_ops ops r.2 in (r.1 ++ s.1, s.2)
  end.
Fixpoint none_back (k : string * Z) (ops : list LedgerOp) (db : Ledger) : Prop :=
  match ops with
  | [] => True
  | op :: ops => ¬ sets_back op (db_rows db) k ∧ none_back k ops (run_op op db).2
  end.

Lemma run_ops_runs k ops db : none_back k ops db → ledger_runs k db (run_ops ops db).1 (run_ops ops db).2.
Proof.
  revert db. induction ops as [|op ops IH]; intros db; [constructor|]. intros [Ha Hr]. cbn [run_ops fst snd].
  econstructor; [done|by apply IH].
Qed.

Lemma table_ok_nil : table_ok [].
Proof. split; cbn; constructor. Qed.

Definition ex_plan (job : string) : Plan :=
  mk_Plan job "n" "w" "k2" "agent:k2" ["true"] ∅ None (mk_JobLimits 60 (Some 1000) (Some 1024) 0 65536) None false 0
    [] [] None None (Some "s1") (Some 30) None None [] (Some Tier_Normal) None None [] None None [] [].
Definition ex_assign (job : string) (gen : Z) : Assign := mk_Assign (mk_Fence job 1 gen ("sha256:" +:+ job)) (ex_plan job).

(** Two jobs queue, one starts, runs and ends, the other is withdrawn; every
    step is tried again, and one statement fails. *)
Definition ex_ops : list LedgerOp := [
  Op_insert_queued (ex_assign "a" 1) 10 "b0"; Op_insert_queued (ex_assign "b" 1) 11 "b0";
  Op_insert_queued (ex_assign "a" 1) 12 "b0"; Op_dequeue "a" 1 "b0"; Op_dequeue "a" 1 "b0"; Op_dequeue "a" 1 "b0";
  Op_cancel_queued "a" 1 "withdrawn" None 13; Op_cancel_queued "b" 1 "withdrawn" None 13; Op_dequeue "b" 1 "b0";
  Op_set_running "a" 1 4242 None 14; Op_set_state "a" 1 JobState_Finishing None None;
  Op_end_attempt "a" 1 JobState_Done None None (Some (mk_ExitInfo (Some 0) None)) 7 20 None None (Some "receipt");
  Op_finish "a" 1 JobState_Failed (Some "late") None None 8 21; Op_reconcile_boot 30 "b1"; Op_prune 15;
  Op_set_running "b" 1 77 None 31].
Definition ex_db : Ledger := mk_Ledger [] [None; None; None; Some "disk I/O error"].

Lemma ex_none_back : none_back ("a"%string, 1) ex_ops ex_db.
Proof.
  cbn [none_back ex_ops sets_back]. split_and!; try exact I; intros H; try done;
    try (destruct H as [[=] _]; done); try (destruct H as [_ H]; vm_compute in H; done).
  all: try (destruct H as [_ (r&Hr&H)]; vm_compute in Hr; injection Hr as <-; vm_compute in H; destruct_and?; lia).
  destruct H as (r&Hr&H). vm_compute in Hr. injection Hr as <-. by vm_compute in H.
Qed.

Lemma attempt_lifecycle_witness :
  (run_ops ex_ops ex_db).1 = [Ev_start ("a", 1); Ev_cancel ("b", 1)]
  ∧ (length (about_key ("a"%string, 1%Z) (run_ops ex_ops ex_db).1) ≤ 1)%nat
  ∧ ∃ r, row_at (db_rows (run_ops ex_ops ex_db).2) ("a", 1) = Some r ∧ jr_state r ≠ JobState_Queued.
Proof.
  destruct (attempt_lifecycle ex_db _ _ ("a", 1) table_ok_nil (run_ops_runs _ _ _ ex_none_back)) as (_&_&Hnd&Hst&_).
  split; [vm_compute; reflexivity|]. split; [done|].
  apply Hst. apply list_elem_of_In. vm_compute. by left.
Defined.

Definition ex_rows : list JobRow := db_rows (run_ops (take 10 ex_ops) ex_db).2.
Lemma ex_rows_ok : table_ok ex_rows.
Proof. split; vm_compute; repeat constructor; set_solver by lia. Qed.

Lemma end_attempt_atomic_witness :
  let run fs := end_attempt "a" 1 JobState_Done None None (Some (mk_ExitInfo (Some 0) None)) 7 20 None (Some "out") (Some "receipt")
    (mk_Ledger ex_rows fs) in
  (run []).1 = Ok true ∧ (jr_state <$> db_rows (run []).2) = [JobState_Done; JobState_Cancelled]
  ∧ db_rows (run [None; None; None; Some "disk full"]).2 = ex_rows.
Proof.
  destruct (end_attempt_atomic ex_rows "a" 1 JobState_Done None None (Some (mk_ExitInfo (Some 0) None)) 7 20 None
    (Some "out") (Some "receipt") ex_rows_ok) as [Hc Hq]. cbv zeta in Hc, Hq |- *. split; [|split].
  - rewrite (Hq [] ltac:(constructor)). vm_compute. reflexivity.
  - vm_compute. reflexivity.
  - destruct (Hc (mk_Ledger ex_rows [None; None; None; Some "disk full"])) as [[H _]|[_ H]]; [done| |exact H].
    exfalso. revert H. vm_compute. done.
Defined.

Lemma restart_interrupts_witness :
  (∃ out, yields (reconcile_boot 30 "b1") ex_rows out
     ((λ r, if lost_at_boot "b1" r then interrupted_row "node_reboot" 30 r else r) <$> ex_rows)
     ∧ out ≡ₚ [("a", 1)])
  ∧ List.filter (not_kept [("a", 1)]) ex_rows = [].
Proof.
  destruct (restart_interrupts ex_rows "k2-node restarted" "b1" [("a", 1)] 30 ex_rows_ok) as [[out [H1 H2]] _].
  split; [|vm_compute; reflexivity]. exists out. split; [exact H1|]. rewrite H2. vm_compute. reflexivity.
Defined.

(** [set_running] alone has no guard: on an attempt that has ended it puts the
    row back to [running] with its old end still there, and [prune] later
    deletes it as ended. *)
Lemma set_running_reopens :
  let ended := (run_ops ex_ops ex_db).2 in
  let again := (set_running "a" 1 5 None 40 ended).2 in
  (jr_state <$> row_at (db_rows ended) ("a", 1)) = Some JobState_Done
  ∧ ((λ r, (jr_state r, jr_ended_at r)) <$> row_at (db_rows again) ("a", 1)) = Some (JobState_Running, Some 20)
  ∧ row_at (db_rows (prune 100 again).2) ("a", 1) = None.
Proof. vm_compute. done. Qed.
