(* ===== verification/QueueStore.v ===== *)
(** * What the node queue remembers

    [crates/k2-node/src/queue_store.rs]: decayed use, daily totals, run times
    and job sizes of each server and the rotation, in five tables.  A table
    with a primary key is a map, [asks] keeps its [rowid]s, and [meta] is the
    list of its rows in the order a query happens to give them.  A method is
    what its statements do when none of them fails. *)

From stdpp Require Import pretty.
From S2P Require Import Prelude Share Tiers Queue FloatFmt Heartbeat.

(** ** Days *)

(** [{:0w}] of an integer. *)
Definition pad (w : nat) (x : Z) : string :=
  if x <? 0 then let s := z_dec (- x) in "-" +:+ zeros (w - 1 - String.length s) +:+ s
  else let s := z_dec x in zeros (w - String.length s) +:+ s.

Definition civil_from_days (days : Z) : Z * Z * Z :=
  let z := days + 719468 in
  let era := z / 146097 in
  let doe := z - era * 146097 in
  let yoe := (doe - doe / 1460 + doe / 36524 - doe / 146096) / 365 in
  let y := yoe + era * 400 in
  let doy := doe - (365 * yoe + yoe / 4 - yoe / 100) in
  let mp := (5 * doy + 2) / 153 in
  let d := doy - (153 * mp + 2) / 5 + 1 in
  let m := if mp <? 10 then mp + 3 else mp - 9 in
  (if m <=? 2 then y + 1 else y, m, d).

Definition day_of (t : Z) : string :=
  let '(y, m, d) := civil_from_days (t / 86400) in
  pad 4 y +:+ "-" +:+ pad 2 m +:+ "-" +:+ pad 2 d.

(** ** Run times *)

Definition MAX_SAMPLES : nat := 20.

Definition percentiles (samples : list Z) : option (Z * Z) :=
  match samples with
  | [] => None
  | _ =>
    let s := isort Z.leb samples in
    let len := zlen s in
    let rank (p : Z) := s !!! Z.to_nat (Z.min (Z.max ((p * len + 99) / 100 - 1) 0) (len - 1)) in
    Some (rank 50, rank 90)
  end.

(** ** The tables *)

Record DayRow := mk_DayRow { dr_cpu_secs : Z; dr_wall_secs : Z; dr_jobs : Z }.
Record DurationRow := mk_DurationRow { du_n : Z; du_p50 : Z; du_p90 : Z; du_samples : list Z }.
Record AskRow := mk_AskRow { ak_rowid : Z; ak_slot : Z; ak_cpu : Z; ak_mem : Z; ak_last_at : Z }.

Record QueueStore := mk_QueueStore {
  qs_usage : gmap Z (Z * Z);
  qs_usage_day : gmap (Z * string) DayRow;
  qs_durations : gmap (Z * string) DurationRow;
  qs_asks : list AskRow;
  qs_meta : list (string * string);
}.

Definition QueueStore_empty : QueueStore := mk_QueueStore ∅ ∅ ∅ [] [].

(** The stored integers are signed; reading casts them back. *)
Definition usage (s : QueueStore) : gmap Z (Z * Z) := (λ x, (u64 x.1, x.2)) <$> qs_usage s.

Definition set_usage (slot decayed_cpu_ms at' : Z) (s : QueueStore) : QueueStore :=
  mk_QueueStore (<[slot := (i64 decayed_cpu_ms, at')]> (qs_usage s)) (qs_usage_day s) (qs_durations s) (qs_asks s) (qs_meta s).

Definition add_day (slot : Z) (day : string) (cpu_secs wall_secs jobs : Z) (s : QueueStore) : QueueStore :=
  let row := match qs_usage_day s !! (slot, day) with
             | Some r => mk_DayRow (dr_cpu_secs r + i64 cpu_secs) (dr_wall_secs r + i64 wall_secs) (dr_jobs r + i64 jobs)
             | None => mk_DayRow (i64 cpu_secs) (i64 wall_secs) (i64 jobs)
             end in
  mk_QueueStore (qs_usage s) (<[(slot, day) := row]> (qs_usage_day s)) (qs_durations s) (qs_asks s) (qs_meta s).

Definition day_cpu_secs (slot : Z) (day : string) (s : QueueStore) : Z :=
  match qs_usage_day s !! (slot, day) with Some r => u64 (dr_cpu_secs r) | None => 0 end.

Definition add_duration (slot : Z) (cmd_hash : string) (secs : Z) (s : QueueStore) : QueueStore :=
  let samples := match qs_durations s !! (slot, cmd_hash) with Some r => du_samples r | None => [] end ++ [secs] in
  let samples := drop (length samples - MAX_SAMPLES) samples in
  match percentiles samples with
  | Some (p50, p90) =>
    mk_QueueStore (qs_usage s) (qs_usage_day s)
      (<[(slot, cmd_hash) := mk_DurationRow (zlen samples) (i64 p50) (i64 p90) samples]> (qs_durations s))
      (qs_asks s) (qs_meta s)
  | None => s
  end.

Definition duration (slot : Z) (cmd_hash : string) (s : QueueStore) : option (Z * Z) :=
  (λ r, (u64 (du_p50 r), u64 (du_p90 r))) <$> qs_durations s !! (slot, cmd_hash).

(** ** Job sizes *)

Definition ask_key (r : AskRow) : Z * Z * Z := (ak_slot r, ak_cpu r, ak_mem r).
(** [ORDER BY last_at DESC, rowid DESC]. *)
Definition newer (a b : AskRow) : bool :=
  (ak_last_at b <? ak_last_at a) || ((ak_last_at a =? ak_last_at b) && (ak_rowid b <=? ak_rowid a)).
Definition asks_of (slot : Z) (rows : list AskRow) : list AskRow :=
  isort newer (List.filter (λ r, ak_slot r =? slot) rows).

(** [INSERT .. ON CONFLICT DO UPDATE SET last_at]: a row keeps its rowid. *)
Definition upsert_ask (slot cpu mem at' : Z) (rows : list AskRow) : list AskRow :=
  let same r := bool_decide (ask_key r = (slot, cpu, mem)) in
  if existsb same rows
  then (λ r, if same r then mk_AskRow (ak_rowid r) slot cpu mem at' else r) <$> rows
  else rows ++ [mk_AskRow (foldr Z.max 0 (ak_rowid <$> rows) + 1) slot cpu mem at'].

Definition add_ask (slot cpu mem at' : Z) (s : QueueStore) : QueueStore :=
  let rows := upsert_ask slot (i64 cpu) (i64 mem) at' (qs_asks s) in
  let kept := ak_rowid <$> take (Z.to_nat MAX_QUOTES) (asks_of slot rows) in
  let rows := List.filter (λ r, negb ((ak_slot r =? slot) && negb (mem_z (ak_rowid r) kept))) rows in
  mk_QueueStore (qs_usage s) (qs_usage_day s) (qs_durations s) rows (qs_meta s).

Definition asks (slot : Z) (s : QueueStore) : list (Z * Z) :=
  (λ r, (u64 (ak_cpu r), u64 (ak_mem r))) <$> asks_of slot (qs_asks s).

(** ** The rotation *)

Definition to_lower (b : Z) : Z := if is_ascii_uppercase b then b + 32 else b.

(** SQLite's [LIKE]: [%] any text, [_] any byte, ASCII letters in any case. *)
Fixpoint sql_like (p s : list Z) : bool :=
  match p with
  | [] => match s with [] => true | _ => false end
  | c :: p' =>
    if c =? 37 then
      (fix any (s : list Z) : bool := sql_like p' s || match s with [] => false | _ :: s' => any s' end) s
    else match s with
         | x :: s' => ((c =? 95) || (to_lower c =? to_lower x)) && sql_like p' s'
         | [] => false
         end
  end.

Definition is_rotation_key (k : string) : bool := sql_like (bytes "last_served%") (bytes k).
#[local] Arguments is_rotation_key : simpl never.

(** [str::split_once(':')]. *)
Fixpoint split_colon (s : string) : option (string * string) :=
  match s with
  | "" => None
  | String c r =>
    if Ascii.eqb c ":" then Some ("", r)
    else match split_colon r with Some (a, b) => Some (String c a, b) | None => None end
  end.

(** [s.parse::<Slot>()]. *)
Definition parse_slot (s : string) : option Z := parse_unsigned 255 s.

Definition with_last_slot (x : option Z) (r : Rotation) : Rotation :=
  mk_Rotation x (ro_last_ws r) (ro_last_submitter r) (ro_last_line r).
Definition with_last_ws (m : gmap Z string) (r : Rotation) : Rotation :=
  mk_Rotation (ro_last_slot r) m (ro_last_submitter r) (ro_last_line r).
Definition with_last_submitter (m : gmap (Z * string) string) (r : Rotation) : Rotation :=
  mk_Rotation (ro_last_slot r) (ro_last_ws r) m (ro_last_line r).
Definition with_last_line (x : option Line) (r : Rotation) : Rotation :=
  mk_Rotation (ro_last_slot r) (ro_last_ws r) (ro_last_submitter r) x.

(** The submitter's key, or an older node's session key. *)
Definition turn_rest (k : string) : option string :=
  opt_or (strip_prefix "last_served_submitter:" k) (strip_prefix "last_served_session:" k).

Definition read_turn (k v rest : string) (rot : Rotation) : Rotation :=
  match split_colon rest with
  | Some (s, ws) =>
    match parse_slot s with
    | Some slot =>
      if starts_with k "last_served_submitter:" || bool_decide (ro_last_submitter rot !! (slot, ws) = None)
      then with_last_submitter (<[(slot, ws) := v]> (ro_last_submitter rot)) rot
      else rot
    | None => rot
    end
  | None => rot
  end.

(** One row of the query. *)
Definition rotation_row (rot : Rotation) (kv : string * string) : Rotation :=
  let '(k, v) := kv in
  if (k =? "last_served")%string then with_last_slot (parse_slot v) rot
  else match strip_prefix "last_served_ws:" k ≫= parse_slot with
  | Some slot => with_last_ws (<[slot := v]> (ro_last_ws rot)) rot
  | None =>
    if (k =? "last_served_line")%string then with_last_line (Line_parse v) rot
    else match turn_rest k with
    | Some rest => read_turn k v rest rot
    | None => rot
    end
  end.

Definition rotation (s : QueueStore) : Rotation :=
  fold_left rotation_row (List.filter (λ kv, is_rotation_key kv.1) (qs_meta s)) Rotation_default.

(** What [set_rotation] puts, in its order. *)
Definition rotation_puts (rot : Rotation) : list (string * string) :=
  (if ro_last_slot rot is Some s then [("last_served", z_dec s)] else [])
  ++ ((λ x, ("last_served_ws:" +:+ z_dec x.1, x.2)) <$> bt_entries (ro_last_ws rot))
  ++ ((λ x, ("last_served_submitter:" +:+ z_dec x.1.1 +:+ ":" +:+ x.1.2, x.2)) <$> map_to_list (ro_last_submitter rot))
  ++ (if ro_last_line rot is Some l then [("last_served_line", Line_as_str l)] else []).

Definition set_rotation (rot : Rotation) (s : QueueStore) : QueueStore :=
  mk_QueueStore (qs_usage s) (qs_usage_day s) (qs_durations s) (qs_asks s)
    (List.filter (λ kv, negb (is_rotation_key kv.1)) (qs_meta s) ++ rotation_puts rot).

(** ** Servers that leave or trade places *)

Definition QueueStore_forget (slot : Z) (s : QueueStore) : QueueStore :=
  let other {V} (m : gmap (Z * string) V) := filter (λ x, x.1.1 ≠ slot) m in
  let s := mk_QueueStore (delete slot (qs_usage s)) (other (qs_usage_day s)) (other (qs_durations s))
    (List.filter (λ r, negb (ak_slot r =? slot)) (qs_asks s)) (qs_meta s) in
  let rot := rotation s in
  set_rotation (mk_Rotation
    (if bool_decide (ro_last_slot rot = Some slot) then None else ro_last_slot rot)
    (delete slot (ro_last_ws rot)) (filter (λ x, x.1.1 ≠ slot) (ro_last_submitter rot)) (ro_last_line rot)) s.

(** The three updates over the parking slot, on one slot number. *)
Definition PARK : Z := 100.
Definition swapped (a b slot : Z) : Z :=
  let slot := if slot =? a then PARK else slot in
  let slot := if slot =? b then a else slot in
  if slot =? PARK then b else slot.

Definition set_meta (k v : string) (m : list (string * string)) : list (string * string) :=
  if existsb (λ kv, (kv.1 =? k)%string) m
  then (λ kv, if (kv.1 =? k)%string then (k, v) else kv) <$> m
  else m ++ [(k, v)].

Definition swap_slots (a b : Z) (id : string) (s : QueueStore) : bool * QueueStore :=
  if bool_decide (snd <$> List.find (λ kv, (kv.1 =? "owner_change")%string) (qs_meta s) = Some id) then (false, s)
  else
    let on (x : Z * string) := (swapped a b x.1, x.2) in
    (true, mk_QueueStore (kmap (swapped a b) (qs_usage s)) (kmap on (qs_usage_day s)) (kmap on (qs_durations s))
      ((λ r, mk_AskRow (ak_rowid r) (swapped a b (ak_slot r)) (ak_cpu r) (ak_mem r) (ak_last_at r)) <$> qs_asks s)
      (set_meta "owner_change" id (List.filter (λ kv, negb (is_rotation_key kv.1)) (qs_meta s)))).

(** ** The calendar *)

Import Gregorian.

(** Days from 1 March of year 0 to 1 March of year [y]. *)
Definition march_days (y : Z) : Z := 365 * y + y / 4 - y / 100 + y / 400.

Definition yoe_of (doe : Z) : Z := (doe - doe / 1460 + doe / 36524 - doe / 146096) / 365.

Lemma yoe_mono a b : 0 ≤ a ≤ b → b ≤ 146096 → yoe_of a ≤ yoe_of b.
Proof.
  intros Ha Hb. unfold yoe_of. apply Z.div_le_mono; [lia|].
  Z.to_euclidean_division_equations. nia.
Qed.

(** [yoe_of] on the first and the last day of each year of an era. *)
Lemma yoe_ends y : 0 ≤ y < 400 → yoe_of (march_days y) = y ∧ yoe_of (march_days (y + 1) - 1) = y.
Proof.
  intros Hy.
  assert (forallb (λ y, (yoe_of (march_days y) =? y) && (yoe_of (march_days (y + 1) - 1) =? y)) (seqZ 0 400) = true)
    as H by (vm_compute; reflexivity).
  rewrite forallb_true in H. specialize (H y). rewrite elem_of_seqZ in H. specialize (H ltac:(lia)).
  bool_props. done.
Qed.

Lemma march_mono a b : a ≤ b → march_days a ≤ march_days b.
Proof. intros H. unfold march_days. Z.to_euclidean_division_equations. nia. Qed.

Lemma yoe_spec doe : 0 ≤ doe < 146097 →
  0 ≤ yoe_of doe < 400 ∧ march_days (yoe_of doe) ≤ doe < march_days (yoe_of doe + 1).
Proof.
  intros Hd. assert (0 ≤ yoe_of doe < 400) as Hy.
  { pose proof (yoe_mono 0 doe ltac:(lia) ltac:(lia)). pose proof (yoe_mono doe 146096 ltac:(lia) ltac:(lia)).
    change (yoe_of 0) with 0 in *. change (yoe_of 146096) with 399 in *. lia. }
  split; [done|]. destruct (Z.le_gt_cases (march_days (yoe_of doe)) doe) as [H1|H1].
  - split; [done|]. apply Z.nle_gt. intros H2.
    destruct (Z.eq_dec (yoe_of doe) 399) as [E|E].
    { rewrite E in H2. change (march_days (399 + 1)) with 146097 in H2. lia. }
    pose proof (yoe_mono (march_days (yoe_of doe + 1)) doe) as Hm.
    rewrite (proj1 (yoe_ends (yoe_of doe + 1) ltac:(lia))) in Hm.
    pose proof (march_mono 0 (yoe_of doe + 1) ltac:(lia)) as Hp. change (march_days 0) with 0 in Hp. lia.
  - exfalso. destruct (Z.eq_dec (yoe_of doe) 0) as [E|E].
    { rewrite E in H1. change (march_days 0) with 0 in H1. lia. }
    pose proof (yoe_mono doe (march_days (yoe_of doe - 1 + 1) - 1)) as Hm.
    rewrite (proj2 (yoe_ends (yoe_of doe - 1) ltac:(lia))) in Hm.
    replace (yoe_of doe - 1 + 1) with (yoe_of doe) in Hm by lia.
    pose proof (march_mono (yoe_of doe) 400 ltac:(lia)) as Hp. change (march_days 400) with 146097 in Hp. lia.
Qed.

Definition mp_of (doy : Z) : Z := (5 * doy + 2) / 153.
Definition day_in (doy : Z) : Z := doy - (153 * mp_of doy + 2) / 5 + 1.
Definition month_in (doy : Z) : Z := if mp_of doy <? 10 then mp_of doy + 3 else mp_of doy - 9.

(** The day [doy] after 1 March, against the common year 1. *)
Lemma month_table doy : 0 ≤ doy ≤ 365 →
  let m := month_in doy in
  1 ≤ m ≤ 12 ∧ 1 ≤ day_in doy
  ∧ (if 2 <? m then day_in doy ≤ month_len 1 m ∧ before_month 1 m + day_in doy = doy + 60
     else day_in doy ≤ (if m =? 1 then 31 else if doy <? 365 then 28 else 29)
          ∧ before_month 1 m + day_in doy = doy - 305).
Proof.
  intros Hd m.
  set (ok := λ doy, let m := month_in doy in
    (1 <=? m) && (m <=? 12) && (1 <=? day_in doy)
    && (if 2 <? m then (day_in doy <=? month_len 1 m) && (before_month 1 m + day_in doy =? doy + 60)
        else (day_in doy <=? (if m =? 1 then 31 else if doy <? 365 then 28 else 29))
             && (before_month 1 m + day_in doy =? doy - 305))).
  assert (forallb ok (seqZ 0 366) = true) as H by (vm_compute; reflexivity).
  rewrite forallb_true in H. specialize (H doy). rewrite elem_of_seqZ in H. specialize (H ltac:(lia)).
  unfold ok in H. cbv zeta in H. fold m in H. apply andb_true_iff in H as [H1 H2]. bool_props.
  split; [done|]. split; [done|]. destruct (2 <? m); bool_props; split; lia.
Qed.

Lemma before_month_common y m : 1 ≤ m ≤ 12 →
  before_month y m = before_month 1 m + (if 2 <? m then Z.b2z (leap y) else 0).
Proof.
  intros Hm. unfold before_month.
  assert (m = 1 ∨ m = 2 ∨ m = 3 ∨ m = 4 ∨ m = 5 ∨ m = 6 ∨ m = 7 ∨ m = 8 ∨ m = 9 ∨ m = 10 ∨ m = 11 ∨ m = 12) as Hc by lia.
  destruct_or! Hc; subst m; cbn; unfold month_len; cbn; destruct (leap y); reflexivity.
Qed.
Lemma month_len_common y m : m ≠ 2 → month_len y m = month_len 1 m.
Proof. intros Hm. unfold month_len. by destruct (Z.eqb_spec m 2). Qed.

Lemma before_year_march y : before_year (y + 1) = march_days y.
Proof. unfold before_year, march_days. replace (y + 1 - 1) with y by lia. lia. Qed.
Lemma march_era y e : march_days (y + e * 400) = march_days y + e * 146097.
Proof. unfold march_days. Z.to_euclidean_division_equations. lia. Qed.
Lemma march_succ y : march_days (y + 1) = march_days y + 365 + Z.b2z (leap (y + 1)).
Proof. rewrite <- !before_year_march. apply before_year_succ. Qed.

(** [day_of] writes the Gregorian date: every day number since 1970 becomes a
    month and a day that exist in its year, on the day that date is; so two
    times have one day exactly when they are in one day of the calendar. *)
Theorem day_of_calendar (days : Z) :
  let '(y, m, d) := civil_from_days days in
  1 ≤ m ≤ 12 ∧ 1 ≤ d ≤ month_len y m ∧ ce_of y m d = days + ce_of 1970 1 1
  ∧ (∀ t, t / 86400 = days → day_of t = pad 4 y +:+ "-" +:+ pad 2 m +:+ "-" +:+ pad 2 d).
Proof.
  set (z := days + 719468). set (era := z / 146097). set (doe := z - era * 146097).
  assert (0 ≤ doe < 146097) as Hdoe.
  { unfold doe, era. pose proof (Z.div_mod z 146097 ltac:(lia)). pose proof (Z.mod_pos_bound z 146097 ltac:(lia)). lia. }
  destruct (yoe_spec doe Hdoe) as [Hy [Hlo Hhi]]. set (yoe := yoe_of doe) in *.
  set (doy := doe - (365 * yoe + yoe / 4 - yoe / 100)).
  assert (doy = doe - march_days yoe) as Hdoy.
  { unfold doy, march_days. rewrite (Z.div_small yoe 400) by lia. lia. }
  rewrite march_succ in Hhi.
  assert (0 ≤ doy ≤ 364 + Z.b2z (leap (yoe + 1))) as Hb by lia.
  assert (leap (yoe + era * 400 + 1) = leap (yoe + 1)) as Hleap.
  { pose proof (march_succ (yoe + era * 400)) as H1. replace (yoe + era * 400 + 1) with (yoe + 1 + era * 400) in * by lia.
    rewrite !march_era, march_succ in H1. destruct (leap (yoe + 1)), (leap _); cbn in H1; lia || done. }
  assert (Z.b2z (leap (yoe + 1)) ≤ 1) as Hb1 by (by destruct (leap (yoe + 1))).
  destruct (month_table doy ltac:(lia)) as (Hm&Hd&Ht).
  assert (civil_from_days days = (if month_in doy <=? 2 then yoe + era * 400 + 1 else yoe + era * 400, month_in doy, day_in doy)) as ->
    by reflexivity.
  change (ce_of 1970 1 1) with 719163.
  split; [done|]. split; [split; [done|]|split; [|]].

  - destruct (Z.ltb_spec 2 (month_in doy)).
    + rewrite month_len_common by lia. lia.
    + rewrite (proj2 (Z.leb_le _ _)) by lia. destruct (Z.eq_dec (month_in doy) 1) as [E|E].
      { rewrite E in *. change (month_len _ 1) with 31. cbn in Ht. lia. }
      assert (month_in doy = 2) as E2 by lia. rewrite E2 in *. unfold month_len. cbn [Z.eqb Pos.eqb].
      rewrite Hleap. cbn in Ht. destruct (Z.ltb_spec doy 365), (leap (yoe + 1)); cbn in *; lia.
  - unfold ce_of. rewrite before_month_common by done. destruct (Z.ltb_spec 2 (month_in doy)).
    + rewrite (proj2 (Z.leb_gt _ _)) by lia.
      pose proof (before_year_succ (yoe + era * 400)) as H1. rewrite before_year_march, march_era in H1. lia.
    + rewrite (proj2 (Z.leb_le _ _)) by lia. rewrite before_year_march, march_era. lia.
  - intros t Ht'. unfold day_of. by rewrite Ht'.
Qed.

(** ** The rotation, written and read back *)

Inductive RotEntry :=
| E_slot (s : Z)
| E_ws (s : Z) (ws : string)
| E_turn (s : Z) (ws turn : string)
| E_line (l : Line).

Definition entry_row (e : RotEntry) : string * string :=
  match e with
  | E_slot s => ("last_served", z_dec s)
  | E_ws s ws => ("last_served_ws:" +:+ z_dec s, ws)
  | E_turn s ws turn => ("last_served_submitter:" +:+ z_dec s +:+ ":" +:+ ws, turn)
  | E_line l => ("last_served_line", Line_as_str l)
  end.
Definition entry_apply (e : RotEntry) (rot : Rotation) : Rotation :=
  match e with
  | E_slot s => with_last_slot (Some s) rot
  | E_ws s ws => with_last_ws (<[s := ws]> (ro_last_ws rot)) rot
  | E_turn s ws turn => with_last_submitter (<[(s, ws) := turn]> (ro_last_submitter rot)) rot
  | E_line l => with_last_line (Some l) rot
  end.
Definition entry_slot_ok (e : RotEntry) : Prop :=
  match e with E_slot s | E_ws s _ | E_turn s _ _ => 0 ≤ s < 256 | E_line _ => True end.
(** What the entry is about; two entries of a rotation differ in it. *)
Definition entry_key (e : RotEntry) : Z * Z * string :=
  match e with E_slot _ => (0, 0, "") | E_ws s _ => (1, s, "") | E_turn s ws _ => (2, s, ws) | E_line _ => (3, 0, "") end.

Definition rot_entries (rot : Rotation) : list RotEntry :=
  (if ro_last_slot rot is Some s then [E_slot s] else [])
  ++ ((λ x, E_ws x.1 x.2) <$> bt_entries (ro_last_ws rot))
  ++ ((λ x, E_turn x.1.1 x.1.2 x.2) <$> map_to_list (ro_last_submitter rot))
  ++ (if ro_last_line rot is Some l then [E_line l] else []).

Lemma rotation_puts_entries rot : rotation_puts rot = entry_row <$> rot_entries rot.
Proof.
  unfold rotation_puts, rot_entries. rewrite !fmap_app, <- !list_fmap_compose.
  destruct (ro_last_slot rot), (ro_last_line rot); reflexivity.
Qed.

Lemma strip_prefix_app p r : strip_prefix p (p +:+ r) = Some r.
Proof. induction p as [|c p IH]; [done|]. change (String c p +:+ r) with (String c (p +:+ r)). cbn. by rewrite Ascii.eqb_refl. Qed.

Lemma slot_text s : 0 ≤ s < 256 →
  parse_slot (z_dec s) = Some s ∧ existsb (Ascii.eqb ":") (String.list_ascii_of_string (z_dec s)) = false.
Proof.
  intros Hs.
  assert (forallb (λ s, bool_decide (parse_slot (z_dec s) = Some s)
    && negb (existsb (Ascii.eqb ":") (String.list_ascii_of_string (z_dec s)))) (seqZ 0 256) = true) as H by (vm_compute; reflexivity).
  rewrite forallb_true in H. specialize (H s). rewrite elem_of_seqZ in H. specialize (H ltac:(lia)).
  apply andb_true_iff in H as [H1 H2]. split; [by apply bool_decide_eq_true in H1|by apply negb_true_iff].
Qed.

Lemma split_colon_app a r :
  existsb (Ascii.eqb ":") (String.list_ascii_of_string a) = false → split_colon (a +:+ ":" +:+ r) = Some (a, r).
Proof.
  induction a as [|c a IH]; [done|]. cbn [existsb String.list_ascii_of_string]. intros [Hc Ha]%orb_false_iff.
  change (String c a +:+ ":" +:+ r) with (String c (a +:+ ":" +:+ r)). cbn [split_colon].
  by rewrite Ascii.eqb_sym, Hc, (IH Ha).
Qed.

Lemma rotation_row_entry e rot : entry_slot_ok e → rotation_row rot (entry_row e) = entry_apply e rot.
Proof.
  destruct e as [s|s ws|s ws turn|l]; cbn [entry_slot_ok entry_row entry_apply]; intros Hs.
  - destruct (slot_text s Hs) as [Hp _]. cbn [rotation_row String.eqb Ascii.eqb Bool.eqb]. by rewrite Hp.
  - destruct (slot_text s Hs) as [Hp _]. unfold rotation_row.
    assert (("last_served_ws:" +:+ z_dec s =? "last_served")%string = false) as -> by reflexivity.
    rewrite strip_prefix_app. cbn. by rewrite Hp.
  - destruct (slot_text s Hs) as [Hp Hc]. unfold rotation_row.
    set (rest := z_dec s +:+ ":" +:+ ws).
    assert (("last_served_submitter:" +:+ rest =? "last_served")%string = false) as -> by reflexivity.
    assert (strip_prefix "last_served_ws:" ("last_served_submitter:" +:+ rest) = None) as -> by reflexivity.
    assert (("last_served_submitter:" +:+ rest =? "last_served_line")%string = false) as -> by reflexivity.
    unfold turn_rest. rewrite strip_prefix_app. cbn [mbind option_bind opt_or]. unfold read_turn, rest.
    rewrite split_colon_app, Hp by done. unfold starts_with. by rewrite strip_prefix_app.
  - cbn. by rewrite Line_parse_as_str.
Qed.

Lemma like_any s : sql_like [37] s = true.
Proof. induction s as [|x s IH]; [done|]. cbn in *. exact IH. Qed.
Lemma is_rotation_key_prefix r : is_rotation_key ("last_served" +:+ r) = true.
Proof. unfold is_rotation_key. exact (like_any (bytes r)). Qed.
Lemma entry_row_key e : is_rotation_key (entry_row e).1 = true.
Proof.
  destruct e as [s|s ws|s ws turn|l]; cbn [entry_row fst].
  - reflexivity.
  - exact (is_rotation_key_prefix ("_ws:" +:+ z_dec s)).
  - exact (is_rotation_key_prefix ("_submitter:" +:+ z_dec s +:+ ":" +:+ ws)).
  - reflexivity.
Qed.

Lemma entry_apply_comm e1 e2 rot :
  entry_key e1 ≠ entry_key e2 → entry_apply e1 (entry_apply e2 rot) = entry_apply e2 (entry_apply e1 rot).
Proof.
  destruct e1, e2; cbn; intros Hk; try done; unfold with_last_ws, with_last_submitter; cbn; f_equal;
    apply insert_insert_ne; congruence.
Qed.

Lemma rot_entries_keys rot : NoDup (entry_key <$> rot_entries rot).
Proof.
  unfold rot_entries. rewrite !fmap_app, <- !list_fmap_compose.
  assert (NoDup ((entry_key ∘ λ x, E_ws x.1 x.2) <$> bt_entries (ro_last_ws rot))) as H1.
  { unfold bt_entries. rewrite isort_Permutation.
    change (entry_key ∘ _) with ((λ s : Z, (1, s, "")) ∘ (fst (A := Z) (B := string))).
    rewrite list_fmap_compose. apply NoDup_fmap_2; [|apply NoDup_fst_map_to_list]. by intros ?? [= ->]. }
  assert (NoDup ((entry_key ∘ λ x, E_turn x.1.1 x.1.2 x.2) <$> map_to_list (ro_last_submitter rot))) as H2.
  { change (entry_key ∘ _) with ((λ k : Z * string, (2, k.1, k.2)) ∘ (fst (A := Z * string) (B := string))).
    rewrite list_fmap_compose. apply NoDup_fmap_2; [|apply NoDup_fst_map_to_list]. intros [] [] [= -> ->]. done. }
  assert (∀ {A} (t : Z) (f : A → Z * Z * string) (l : list A) k, (∀ x, (f x).1.1 = t) → k ∈ f <$> l → k.1.1 = t) as Htag.
  { intros A t f l k Hf (x&->&_)%list_elem_of_fmap. apply Hf. }
  assert (∀ k, k ∈ entry_key <$> (if ro_last_slot rot is Some s then [E_slot s] else []) → k.1.1 = 0) as Ht0.
  { intros k. destruct (ro_last_slot rot); cbn; [intros ->%list_elem_of_singleton; done|by intros ?%elem_of_nil]. }
  assert (∀ k, k ∈ entry_key <$> (if ro_last_line rot is Some l then [E_line l] else []) → k.1.1 = 3) as Ht3.
  { intros k. destruct (ro_last_line rot); cbn; [intros ->%list_elem_of_singleton; done|by intros ?%elem_of_nil]. }
  repeat (apply NoDup_app; split_and!); try done.
  - destruct (ro_last_slot rot); cbn; [apply NoDup_singleton|constructor].
  - intros k Hk0%Ht0. rewrite !elem_of_app. intros [Hk|[Hk|Hk%Ht3]]; [| |lia];
      [apply (Htag _ 1) in Hk; [lia|done]|apply (Htag _ 2) in Hk; [lia|done]].
  - intros k Hk1. apply (Htag _ 1) in Hk1; [|done]. rewrite elem_of_app. intros [Hk|Hk%Ht3]; [|lia].
    apply (Htag _ 2) in Hk; [lia|done].
  - intros k Hk1 Hk3%Ht3. apply (Htag _ 2) in Hk1; [lia|done].
  - destruct (ro_last_line rot); cbn; [apply NoDup_singleton|constructor].
Qed.

Lemma apply_entries rot : foldr entry_apply Rotation_default (rot_entries rot) = rot.
Proof.
  assert (∀ l rot0, foldr entry_apply rot0 ((λ x, E_ws x.1 x.2) <$> l)
    = with_last_ws (foldr (λ x m, <[x.1 := x.2]> m) (ro_last_ws rot0) l) rot0) as Hws.
  { intros l rot0. induction l as [|x l IH]; cbn; [by destruct rot0|]. by rewrite IH. }
  assert (∀ l rot0, foldr entry_apply rot0 ((λ x, E_turn x.1.1 x.1.2 x.2) <$> l)
    = with_last_submitter (foldr (λ x m, <[x.1 := x.2]> m) (ro_last_submitter rot0) l) rot0) as Htu.
  { intros l rot0. induction l as [|[[s w] t] l IH]; cbn; [by destruct rot0|]. by rewrite IH. }
  unfold rot_entries. rewrite !foldr_app, Hws, Htu.
  assert (∀ {A} (m : gmap Z A), foldr (λ x m, <[x.1 := x.2]> m) ∅ (bt_entries m) = m) as Hbt.
  { intros A m. change (list_to_map (bt_entries m) = m). unfold bt_entries.
    rewrite (list_to_map_proper _ (map_to_list m)); [apply list_to_map_to_list| |apply isort_Permutation].
    rewrite isort_Permutation. apply NoDup_fst_map_to_list. }
  assert (foldr (λ (x : Z * string * string) m, <[x.1 := x.2]> m) ∅ (map_to_list (ro_last_submitter rot))
    = ro_last_submitter rot) as Hsub by exact (list_to_map_to_list (M := gmap (Z * string)) (ro_last_submitter rot)).
  destruct rot as [a b c [l|]]; cbn in *; rewrite Hbt, Hsub; by destruct a.
Qed.

(** The rotation survives a restart: whatever it was, whatever other rows
    there are, and in whatever order the query gives the rows back, reading it
    gives what was written. *)
Theorem rotation_roundtrip (rot : Rotation) (s s' : QueueStore) :
  (∀ slot, ro_last_slot rot = Some slot → 0 ≤ slot < 256) →
  (∀ slot, is_Some (ro_last_ws rot !! slot) → 0 ≤ slot < 256) →
  (∀ slot ws, is_Some (ro_last_submitter rot !! (slot, ws)) → 0 ≤ slot < 256) →
  qs_meta s' ≡ₚ qs_meta (set_rotation rot s) →
  rotation s' = rot.
Proof.
  intros Hs Hw Ht Hm. unfold rotation.
  assert (List.filter (λ kv, is_rotation_key kv.1) (qs_meta s') ≡ₚ entry_row <$> rot_entries rot) as Hp.
  { rewrite Hm. cbn [set_rotation qs_meta]. rewrite List.filter_app, filter_filter_bool, rotation_puts_entries, filter_fmap_bool.
    rewrite (filter_ext _ (λ _, false)) by (intros x; destruct (is_rotation_key x.1); reflexivity).
    rewrite (filter_ext (λ x, is_rotation_key (entry_row x).1) (λ _, true)) by apply entry_row_key.
    assert (∀ {A} (l : list A), List.filter (λ _, false) l = []) as -> by (intros A l; by induction l).
    assert (∀ {A} (l : list A), List.filter (λ _, true) l = l) as -> by (intros A l; induction l; cbn; congruence).
    done. }
  apply Permutation_map_inv in Hp as (es&->&Hes).
  assert (Forall entry_slot_ok es) as Hok.
  { rewrite <- Hes. apply Forall_forall. unfold rot_entries. intros e. rewrite !elem_of_app, !list_elem_of_fmap.
    intros [He|[(x&->&Hx)|[([[sl w] t]&->&Hx)|He]]]; cbn.
    - destruct (ro_last_slot rot) eqn:E; [|by apply elem_of_nil in He]. apply list_elem_of_singleton in He as ->. cbn. by apply Hs.
    - destruct x as [sl w]. apply elem_of_bt_entries in Hx. apply Hw. eauto.
    - apply elem_of_map_to_list in Hx. apply (Ht _ w). eauto.
    - destruct (ro_last_line rot); [|by apply elem_of_nil in He]. by apply list_elem_of_singleton in He as ->. }
  assert (∀ rot0, fold_left rotation_row (map entry_row es) rot0 = foldr entry_apply rot0 (rev es)) as ->.
  { clear Hes. revert Hok. induction 1 as [|e es He _ IH]; intros rot0; cbn; [done|].
    rewrite IH, rotation_row_entry, foldr_app by done. done. }
  etransitivity; [|apply apply_entries]. symmetry. apply (foldr_permutation (=)); [by intros ? ?? -> | |rewrite Hes; apply Permutation_rev].
  intros j1 e1 j2 e2 b Hj H1 H2. apply entry_apply_comm. intros E.
  apply Hj. eapply NoDup_lookup; [apply (rot_entries_keys rot)| |]; rewrite list_lookup_fmap; [by rewrite H1|by rewrite H2, E].
Qed.

(** ** A store at work *)

Definition ex_rotation : Rotation :=
  mk_Rotation (Some 1) {[1 := "ws-a"]} {[(1, "ws:a") := "ws/s1/builder-a"]} (Some Line_Priority).

Lemma rotation_roundtrip_witness :
  rotation (mk_QueueStore ∅ ∅ ∅ [] (rev (qs_meta (set_rotation ex_rotation
    (mk_QueueStore ∅ ∅ ∅ [] [("owner_change", "c1"); ("last_served_session:2:w", "old")]))))) = ex_rotation.
Proof.
  apply (rotation_roundtrip ex_rotation (mk_QueueStore ∅ ∅ ∅ [] [("owner_change", "c1"); ("last_served_session:2:w", "old")])).
  - intros slot [= <-]. lia.
  - intros slot. change (is_Some ((<[1 := "ws-a"]> ∅ : gmap Z string) !! slot) → 0 ≤ slot < 256).
    destruct (decide (slot = 1)) as [->|Hn]; [lia|].
    rewrite lookup_insert_ne, lookup_empty by done. by intros [].
  - intros slot ws. change (is_Some ((<[(1, "ws:a") := "ws/s1/builder-a"]> ∅ : gmap (Z * string) string) !! (slot, ws)) → 0 ≤ slot < 256).
    destruct (decide ((slot, ws) = (1, "ws:a"))) as [[= -> ->]|Hn]; [lia|].
    rewrite lookup_insert_ne, lookup_empty by done. by intros [].
  - cbn [qs_meta]. symmetry. apply Permutation_rev.
Defined.

(** A row of an older node seeds the turns until a submitter's row is there. *)
Lemma session_rows_seed :
  ro_last_submitter (rotation (mk_QueueStore ∅ ∅ ∅ [] [("last_served_session:2:w", "old")])) = {[(2, "w") := "old"]}
  ∧ ∀ l, l ≡ₚ [("last_served_session:2:w", "old"); ("last_served_submitter:2:w", "new")] →
      ro_last_submitter (rotation (mk_QueueStore ∅ ∅ ∅ [] l)) = {[(2, "w") := "new"]}.
Proof.
  split; [vm_compute; reflexivity|]. intros l Hl. symmetry in Hl. apply Permutation_length_2_inv in Hl as [->| ->]; vm_compute; reflexivity.
Qed.

Example store_examples :
  day_of 0 = "1970-01-01" ∧ day_of 1760000000 = "2025-10-09" ∧ day_of 951782400 = "2000-02-29" ∧ day_of (-1) = "1969-12-31"
  ∧ percentiles [] = None ∧ percentiles [7] = Some (7, 7)
  ∧ percentiles [10; 20; 30; 40; 50; 60; 70; 80; 90; 100] = Some (50, 90)
  ∧ asks 1 (fold_left (λ s x, add_ask 1 x.1 x.1 x.2 s) [(1, 0); (2, 1); (1, 2); (3, 3); (4, 4); (5, 5)] QueueStore_empty)
    = [(5, 5); (4, 4); (3, 3); (1, 1)].
Proof. vm_compute. done. Qed.

Example swap_slots_once :
  let s := set_usage 1 3000 30 (set_usage 2 2000 20 (set_usage 0 1000 10 QueueStore_empty)) in
  let s := add_duration 2 "h" 42 (add_day 0 "2026-10-24" 60 70 1 s) in
  let '(did, t) := swap_slots 0 2 "c1" s in
  did = true ∧ usage t = {[0 := (2000, 20); 2 := (1000, 10); 1 := (3000, 30)]}
  ∧ day_cpu_secs 2 "2026-10-24" t = 60 ∧ day_cpu_secs 0 "2026-10-24" t = 0
  ∧ duration 0 "h" t = Some (42, 42) ∧ duration 2 "h" t = None
  ∧ (swap_slots 0 2 "c1" t).1 = false.
Proof. vm_compute. done. Qed.
