(* ===== verification/FairQ.v ===== *)
(** * The node queue at run time: its state

    [crates/k2-node/src/fairq.rs]: what the queue keeps behind its one lock,
    the accounting of what runs, and the snapshot the rules of [Queue] and
    [QueueSim] decide on.  The loop that uses them, with the node around it,
    is in [NodeQueue].  The half-life scaling ([powf]) and the hash of a
    command are parameters; a monotonic clock reading is a number of
    milliseconds. *)

From S2P Require Import Prelude Share Tiers Refusal Queue QueueSim JobFrames Ledger QueueStore.

Definition PERSIST_SECS : Z := 60.
Definition LINGER_PREFIX : string := LINGER_JOB_PREFIX.
Definition LINGER_WORKSPACE : string := "(unknown workspace)".

(** ** The state *)

(** One server's share as the queue needs it. *)
Record ShareInfo := mk_ShareInfo {
  si_label : string;
  si_limits : ShareLimits;
  si_status : ServerStatus;
}.

(** A running attempt's accounting. *)
Record RunMeta := mk_RunMeta {
  rm_class : JobClass;
  rm_tier : Tier;
  rm_ws : string;
  rm_session : option string;
  rm_submitter : option string;
  rm_cmd_hash : string;
  rm_cpu : Z;
  rm_mem : Z;
  rm_exclusive : bool;
  rm_started_at : Z;
  rm_started : Z;
  rm_accounted : Z;
  rm_est : option (Z * Z);
  rm_secret : bool;
}.

Definition Key : Type := Z * string * Z.

Record QueuePos := mk_QueuePos {
  qp_pos : Z;
  qp_of : option Z;
  qp_eta_secs : option Z;
  qp_eta_p90_secs : option Z;
  qp_blocked_by : option string;
}.

#[export] Instance QueuePos_eq_dec : EqDecision QueuePos.
Proof. solve_decision. Defined.

(** [struct State], and the pending [kick]. *)
Record FairQ := mk_FairQ {
  fq_store : QueueStore;
  fq_shares : gmap Z ShareInfo;
  fq_protocol : gmap Z Z;
  fq_priority : gmap Z bool;
  fq_blocked : gmap Z string;
  fq_gates : gmap Key Z;
  fq_runs : gmap Key RunMeta;
  fq_usage : gmap Z (Z * Z);
  fq_sent : gmap Key (Z * QueuePos);
  fq_rotation : Rotation;
  fq_last_persist : Z;
  fq_day_cpu : gmap (Z * string) Z;
  fq_lingering : gset (Z * string);
  fq_kick : bool;
}.

Definition set_inputs (shares : gmap Z ShareInfo) (protocol : gmap Z Z) (priority : gmap Z bool) (blocked : gmap Z string)
    (lingering : gset (Z * string)) (q : FairQ) : FairQ := {|
  fq_store := fq_store q; fq_shares := shares; fq_protocol := protocol; fq_priority := priority;
  fq_blocked := blocked; fq_gates := fq_gates q; fq_runs := fq_runs q; fq_usage := fq_usage q;
  fq_sent := fq_sent q; fq_rotation := fq_rotation q; fq_last_persist := fq_last_persist q;
  fq_day_cpu := fq_day_cpu q; fq_lingering := lingering; fq_kick := fq_kick q;
|}.
Definition set_jobs (gates : gmap Key Z) (runs : gmap Key RunMeta) (sent : gmap Key (Z * QueuePos)) (q : FairQ) : FairQ := {|
  fq_store := fq_store q; fq_shares := fq_shares q; fq_protocol := fq_protocol q; fq_priority := fq_priority q;
  fq_blocked := fq_blocked q; fq_gates := gates; fq_runs := runs; fq_usage := fq_usage q;
  fq_sent := sent; fq_rotation := fq_rotation q; fq_last_persist := fq_last_persist q;
  fq_day_cpu := fq_day_cpu q; fq_lingering := fq_lingering q; fq_kick := fq_kick q;
|}.
Definition set_books (store : QueueStore) (usage : gmap Z (Z * Z)) (rotation : Rotation) (last_persist : Z)
    (day_cpu : gmap (Z * string) Z) (q : FairQ) : FairQ := {|
  fq_store := store; fq_shares := fq_shares q; fq_protocol := fq_protocol q; fq_priority := fq_priority q;
  fq_blocked := fq_blocked q; fq_gates := fq_gates q; fq_runs := fq_runs q; fq_usage := usage;
  fq_sent := fq_sent q; fq_rotation := rotation; fq_last_persist := last_persist;
  fq_day_cpu := day_cpu; fq_lingering := fq_lingering q; fq_kick := fq_kick q;
|}.
Definition notify (b : bool) (q : FairQ) : FairQ := {|
  fq_store := fq_store q; fq_shares := fq_shares q; fq_protocol := fq_protocol q; fq_priority := fq_priority q;
  fq_blocked := fq_blocked q; fq_gates := fq_gates q; fq_runs := fq_runs q; fq_usage := fq_usage q;
  fq_sent := fq_sent q; fq_rotation := fq_rotation q; fq_last_persist := fq_last_persist q;
  fq_day_cpu := fq_day_cpu q; fq_lingering := fq_lingering q; fq_kick := b;
|}.
Definition kicked : FairQ → FairQ := notify true.

Definition with_store (store : QueueStore) : FairQ := {|
  fq_store := store; fq_shares := ∅; fq_protocol := ∅; fq_priority := ∅; fq_blocked := ∅; fq_gates := ∅;
  fq_runs := ∅; fq_usage := usage store; fq_sent := ∅; fq_rotation := rotation store; fq_last_persist := 0;
  fq_day_cpu := ∅; fq_lingering := ∅; fq_kick := false;
|}.

(** ** Inputs *)

Definition set_or_remove {A} (slot : Z) (x : option A) (m : gmap Z A) : gmap Z A :=
  match x with Some x => <[slot := x]> m | None => delete slot m end.

Definition set_share (slot : Z) (share : option ShareInfo) (q : FairQ) : FairQ :=
  kicked (set_inputs (set_or_remove slot share (fq_shares q)) (fq_protocol q) (fq_priority q) (fq_blocked q) (fq_lingering q) q).
Definition set_protocol (slot : Z) (protocol : option Z) (q : FairQ) : FairQ :=
  set_inputs (fq_shares q) (set_or_remove slot protocol (fq_protocol q)) (fq_priority q) (fq_blocked q) (fq_lingering q) q.
Definition protocol (q : FairQ) (slot : Z) : Z := default 0 (fq_protocol q !! slot).
Definition priority (q : FairQ) (slot : Z) : bool := default (slot =? OWNER_SLOT) (fq_priority q !! slot).
Definition set_priority (slot : Z) (on : bool) (q : FairQ) : bool * FairQ :=
  let before := priority q slot in
  let q := set_inputs (fq_shares q) (fq_protocol q) (<[slot := on]> (fq_priority q)) (fq_blocked q) (fq_lingering q) q in
  let changed := negb (Bool.eqb before on) in
  (changed, if changed then kicked q else q).
Definition set_blocked (slot : Z) (why : option string) (q : FairQ) : FairQ :=
  kicked (set_inputs (fq_shares q) (fq_protocol q) (fq_priority q) (set_or_remove slot why (fq_blocked q)) (fq_lingering q) q).
Definition set_lingering (slot : Z) (unit : string) (on : bool) (q : FairQ) : FairQ :=
  kicked (set_inputs (fq_shares q) (fq_protocol q) (fq_priority q) (fq_blocked q)
    (if on then {[(slot, unit)]} ∪ fq_lingering q else fq_lingering q ∖ {[(slot, unit)]}) q).

(** Two or more servers active on this node. *)
Definition shared (q : FairQ) : bool :=
  2 <=? zlen (List.filter (λ x, bool_decide (si_status x.2 = ServerStatus_Active)) (bt_entries (fq_shares q))).

(** [u64::div_ceil]. *)
Definition ceil_div (a b : Z) : Z := (a + b - 1) / b.

Definition owner_default (caps : Caps) (network label : string) : ShareInfo :=
  let gb := u32 (Z.max (Z.shiftr (cp_mem_bytes caps) 30) 1) in
  let cpus := u32 (Z.max (ceil_div (cp_cpu_millis caps) 1000) 1) in
  mk_ShareInfo label
    (ShareLimits_owner (Z.min (Z.max (cp_parallel_max caps) 1) 64) (Z.min cpus 1024) (Z.min gb 4096) 100 (Network_of_policy network))
    ServerStatus_Active.

(** [owner] is the owner's default share. *)
Definition share (q : FairQ) (owner : ShareInfo) (slot : Z) : option ShareInfo :=
  match fq_shares q !! slot with
  | Some s => Some s
  | None => if slot =? OWNER_SLOT then Some owner else None
  end.

(** ** Bookkeeping *)

Definition queued_ (slot : Z) (a : Assign) (epoch now : Z) (q : FairQ) : FairQ :=
  let f := as_fence a in
  let l := pl_limits (as_plan a) in
  let q := set_jobs (<[(slot, fe_job_id f, fe_generation f) := epoch]> (fq_gates q)) (fq_runs q) (fq_sent q) q in
  set_books (add_ask slot (default 0 (jl_cpu_millis l)) (default 0 (jl_mem_bytes l)) now (fq_store q))
    (fq_usage q) (fq_rotation q) (fq_last_persist q) (fq_day_cpu q) q.

Definition gate (k : Key) (epoch : Z) (q : FairQ) : FairQ := set_jobs (<[k := epoch]> (fq_gates q)) (fq_runs q) (fq_sent q) q.
Definition forget (k : Key) (q : FairQ) : FairQ := set_jobs (delete k (fq_gates q)) (fq_runs q) (delete k (fq_sent q)) q.
Definition resend (slot : Z) (q : FairQ) : FairQ :=
  set_jobs (fq_gates q) (fq_runs q) (filter (λ x, x.1.1.1 ≠ slot) (fq_sent q)) q.

Section fairq.
Context (cfg : Config) (scale : Z → Z → Z → Z) (cmd_hash : list string → string).

Definition run_meta (store : QueueStore) (slot : Z) (p : Plan) (now mono : Z) (caps : Caps) : RunMeta := {|
  rm_class := default JobClass_default (pl_class p);
  rm_tier := tier_or_class p;
  rm_ws := pl_workspace_id p;
  rm_session := pl_session_id p;
  rm_submitter := Plan_turn_key p;
  rm_cmd_hash := cmd_hash (pl_argv p);
  rm_cpu := default (default_cpu caps) (jl_cpu_millis (pl_limits p));
  rm_mem := default (default_mem caps) (jl_mem_bytes (pl_limits p));
  rm_exclusive := pl_exclusive p;
  rm_started_at := now;
  rm_started := mono;
  rm_accounted := mono;
  rm_est := opt_or (duration slot (cmd_hash (pl_argv p)) store)
              ((λ e, (e, default e (pl_est_p90_secs p))) <$> pl_est_secs p);
  rm_secret := negb (bool_decide (pl_secret_env p = []));
|}.

Definition started (slot : Z) (a : Assign) (now mono : Z) (caps : Caps) (q : FairQ) : FairQ :=
  let k := (slot, fe_job_id (as_fence a), fe_generation (as_fence a)) in
  set_jobs (delete k (fq_gates q)) (<[k := run_meta (fq_store q) slot (as_plan a) now mono caps]> (fq_runs q))
    (delete k (fq_sent q)) q.

(** Decayed usage of every server. *)
Definition decayed (now : Z) (u : Z * Z) : Z := decay scale u.1 (i64 (now - u.2)) (cf_half_life_secs cfg).
Definition usage_now (q : FairQ) (now : Z) : gmap Z Z := decayed now <$> fq_usage q.

(** ** Accounting *)

Definition elapsed (mono since : Z) : Z := Z.max 0 (mono - since).
(** What a run used since it was last accounted, millicore-seconds. *)
Definition used_by (mono : Z) (m : RunMeta) : Z := u64_sat_mul (rm_cpu m) (elapsed mono (rm_accounted m)) / 1000.
Definition accounted_at (mono : Z) (m : RunMeta) : RunMeta :=
  if 0 <? elapsed mono (rm_accounted m) then
    mk_RunMeta (rm_class m) (rm_tier m) (rm_ws m) (rm_session m) (rm_submitter m) (rm_cmd_hash m) (rm_cpu m) (rm_mem m)
      (rm_exclusive m) (rm_started_at m) (rm_started m) mono (rm_est m) (rm_secret m)
  else m.

Definition charge (now : Z) (day : string) (slot used : Z) (q : FairQ) : FairQ :=
  let u := default (0, now) (fq_usage q !! slot) in
  set_books (fq_store q) (<[slot := (u64_sat_add (decayed now u) used, now)]> (fq_usage q)) (fq_rotation q) (fq_last_persist q)
    (<[(slot, day) := u64 (default 0 (fq_day_cpu q !! (slot, day)) + used)]> (fq_day_cpu q)) q.

(** A run that ended: its run time, and a job more in the day. *)
Definition end_run (day : string) (mono : Z) (q : FairQ) (km : Key * RunMeta) : FairQ :=
  let '((slot, job, gen), m) := km in
  let secs := ceil_div (elapsed mono (rm_started m)) 1000 in
  let store := if 0 <? secs then add_duration slot (rm_cmd_hash m) secs (fq_store q) else fq_store q in
  let q := set_jobs (fq_gates q) (delete (slot, job, gen) (fq_runs q)) (fq_sent q) q in
  set_books (add_day slot day 0 secs 1 store) (fq_usage q) (fq_rotation q) (fq_last_persist q) (fq_day_cpu q) q.

(** Whole CPU-seconds go down; the remainder waits, today's only. *)
Definition flush_day (s : QueueStore * gmap (Z * string) Z) (x : Z * string * Z) : QueueStore * gmap (Z * string) Z :=
  let '((slot, d), ms) := x in
  if 1000 <=? ms then (add_day slot d (ms / 1000) 0 0 s.1, <[(slot, d) := ms mod 1000]> s.2) else s.
Definition persist (now : Z) (day : string) (q : FairQ) : FairQ :=
  let store := fold_left (λ s x, set_usage x.1 x.2.1 x.2.2 s) (bt_entries (fq_usage q)) (fq_store q) in
  let '(store, days) := fold_left flush_day (map_to_list (fq_day_cpu q)) (store, fq_day_cpu q) in
  set_books store (fq_usage q) (fq_rotation q) now (filter (λ x, 0 < x.2 ∧ x.1.2 = day) days) q.

(** [account]: [live] are the attempts that run, read before the lock. *)
Definition account (live : list Key) (now mono : Z) (q : FairQ) : FairQ :=
  let day := day_of now in
  let runs := map_to_list (fq_runs q) in
  let add := (λ x : Key * RunMeta, (x.1.1.1, used_by mono x.2)) <$> List.filter (λ x : Key * RunMeta, 0 <? elapsed mono (rm_accounted x.2)) runs in
  let ended := List.filter (λ x, negb (bool_decide (x.1 ∈ live))) ((λ x, (x.1, accounted_at mono x.2)) <$> runs) in
  let q := set_jobs (fq_gates q) (accounted_at mono <$> fq_runs q) (fq_sent q) q in
  let q := fold_left (λ q x, charge now day x.1 x.2 q) add q in
  let q := fold_left (end_run day mono) ended q in
  if negb (bool_decide (ended = [])) || (PERSIST_SECS <=? i64 (now - fq_last_persist q)) then persist now day q else q.

(** ** The snapshot *)

(** One open server as the snapshot reads it: its slot, its session's epoch
    (0: none) and its queued rows. *)
Record TenantView := mk_TenantView { tv_slot : Z; tv_epoch : Z; tv_rows : list Row }.

Definition snap_tenant (now : Z) (q : FairQ) (slot : Z) (s : ShareInfo) : Tenant :=
  let day := day_of now in {|
  tn_slot := slot;
  tn_limits := si_limits s;
  tn_usage := decayed now (default (0, now) (fq_usage q !! slot));
  tn_cpu_secs_today := u64 (day_cpu_secs slot day (fq_store q) + default 0 (fq_day_cpu q !! (slot, day)) / 1000);
  tn_blocked := if bool_decide (si_status s = ServerStatus_Paused) then Some codes_SHARE_PAUSED else fq_blocked q !! slot;
  tn_priority := priority q slot;
|}.

Definition left_secs (now started_at d : Z) : Z := Z.max (u64_sat_sub d (Z.max (i64 (now - started_at)) 0)) 30.

Definition snap_running (now : Z) (x : Key * RunMeta) : Running :=
  let '((slot, job, gen), m) := x in {|
  rn_slot := slot;
  rn_job_id := job;
  rn_generation := gen;
  rn_workspace_id := rm_ws m;
  rn_session_id := rm_session m;
  rn_class := rm_class m;
  rn_tier := rm_tier m;
  rn_cpu_millis := rm_cpu m;
  rn_mem_bytes := rm_mem m;
  rn_exclusive := rm_exclusive m;
  rn_left_p50 := (λ e, left_secs now (rm_started_at m) e.1) <$> rm_est m;
  rn_left_p90 := (λ e, left_secs now (rm_started_at m) e.2) <$> rm_est m;
  rn_secret := rm_secret m;
  rn_submitter := rm_submitter m;
|}.

(** A unit an earlier process left: a secret job of an unknown workspace. *)
Definition snap_lingering (x : Z * string) : Running := {|
  rn_slot := x.1;
  rn_job_id := LINGER_PREFIX +:+ x.2;
  rn_generation := 0;
  rn_workspace_id := LINGER_WORKSPACE;
  rn_session_id := None;
  rn_class := JobClass_Batch;
  rn_tier := Tier_Normal;
  rn_cpu_millis := 0;
  rn_mem_bytes := 0;
  rn_exclusive := false;
  rn_left_p50 := None;
  rn_left_p90 := None;
  rn_secret := true;
  rn_submitter := None;
|}.

Definition snap_queued (q : FairQ) (slot epoch : Z) (r : Row) : Queued :=
  let p := rw_plan r in
  let hist := duration slot (cmd_hash (pl_argv p)) (fq_store q) in {|
  qd_slot := slot;
  qd_job_id := rw_job_id r;
  qd_generation := rw_generation r;
  qd_workspace_id := pl_workspace_id p;
  qd_session_id := pl_session_id p;
  qd_class := default JobClass_default (pl_class p);
  qd_tier := tier_or_class p;
  qd_cpu_millis := jl_cpu_millis (pl_limits p);
  qd_mem_bytes := jl_mem_bytes (pl_limits p);
  qd_exclusive := pl_exclusive p;
  qd_enqueued_at := default (rw_created_at r) (rw_enqueued_at r);
  qd_arrival := u64 (rw_seq r);
  qd_est_p50 := opt_or (fst <$> hist) (pl_est_secs p);
  qd_est_p90 := opt_or (opt_or (snd <$> hist) (pl_est_p90_secs p)) (pl_est_secs p);
  qd_ws_max_running := pl_ws_max_running p;
  qd_eligible := negb (epoch =? 0) && bool_decide (fq_gates q !! (slot, rw_job_id r, rw_generation r) = Some epoch);
  qd_secret := negb (bool_decide (pl_secret_env p = []));
  qd_submitter := Plan_turn_key p;
  qd_submitter_max_running := pl_submitter_max_running p;
|}.

(** Per queued job: its server's slot and its row. *)
Record Snapshot := mk_Snapshot {
  sn_input : Input;
  sn_rows : list (Z * Row);
  sn_labels : gmap Z string;
}.

Definition active_or_paused (s : ServerStatus) : bool :=
  match s with ServerStatus_Active | ServerStatus_Paused => true | _ => false end.

Definition snapshot (ts : list TenantView) (caps : Caps) (owner : ShareInfo) (now : Z) (q : FairQ) : Snapshot :=
  let shares := omap (λ t, (λ s, (tv_slot t, s)) <$> share q owner (tv_slot t)) ts in
  let input := {|
    in_now := now;
    in_cfg := cfg;
    in_caps := caps;
    in_tenants := (λ x, snap_tenant now q x.1 x.2) <$> List.filter (λ x : Z * ShareInfo, active_or_paused (si_status x.2)) shares;
    in_running := (snap_running now <$> map_to_list (fq_runs q)) ++ (snap_lingering <$> elements (fq_lingering q));
    in_queued := t ← ts; snap_queued q (tv_slot t) (tv_epoch t) <$> tv_rows t;
    in_rotation := fq_rotation q;
  |} in
  mk_Snapshot input (t ← ts; (λ r, (tv_slot t, r)) <$> tv_rows t)
    (list_to_map ((λ x : Z * ShareInfo, (x.1, si_label x.2)) <$> reverse shares)).

(** ** What servers are told *)

Definition quotes (ts : list TenantView) (caps : Caps) (owner : ShareInfo) (now slot : Z) (q : FairQ) : option (list Quote) :=
  match asks slot (fq_store q) with
  | [] => Some []
  | sizes =>
    let input := sn_input (snapshot ts caps owner now q) in
    mapM (λ x, queue_quote input slot x.1 x.2) sizes
  end.

Definition mine_only (v : QueueView) : QueueView :=
  let entries := List.filter qe_mine (qv_entries v) in
  mk_QueueView (qv_request_id v) (qv_at v)
    (imap (λ i e, mk_QueueEntry (u32 (Z.of_nat i + 1)) (qe_mine e) (qe_class e) (qe_tier e) (qe_state e) (qe_cpu_millis e)
       (qe_mem_bytes e) (qe_eta_secs e) (qe_eta_p90_secs e) (qe_blocked_by e) (qe_job_id e) (qe_generation e)
       (qe_workspace_id e) (qe_session_id e) (qe_server_label e)) entries) [].

(** [status]: the server's status now ([Tenant::status_at]). *)
Definition FairQ_view (ts : list TenantView) (caps : Caps) (owner : ShareInfo) (now slot : Z) (status : option ServerStatus)
    (tiers tiers2 : bool) (request_id : string) (q : FairQ) : option QueueView :=
  let snap := snapshot ts caps owner now q in
  d ← queue_decide (sn_input snap);
  let is_owner := slot =? OWNER_SLOT in
  let v := view (sn_input snap) d (mk_Viewer slot is_owner (sn_labels snap) tiers tiers2) request_id in
  let live := is_owner || match status with
    | Some (ServerStatus_Active | ServerStatus_Paused | ServerStatus_Pending) => true
    | _ => false
    end in
  Some (if live then v else mine_only v).

End fairq.
