(* ===== verification/NodeQueue.v ===== *)
(** * The node queue at run time: the node around it

    [crates/k2-node/src/node/assign.rs], with the parts of [node/mod.rs] and
    [node/tenant.rs] it stands on, and the loop of [crates/k2-node/src/fairq.rs]:
    an [assign] or [cancel] from a server, the queued rows of its ledger, what
    starts, and what each server is told.  A handler is a function on the
    node's state; what it reads of the machine is [Facts].  A session takes a
    frame or not ([hb_takes]), and a ledger statement may fail
    ([db_faults]).  The task of a job that is spawned is an entry of
    [nd_spawned], and of the end of an orphan one of [nd_ends]. *)

From stdpp Require Import pretty.
From S2P Require Import Prelude Share Tiers Refusal Queue QueueSim JobFrames Ledger QueueStore FairQ.

(** ** Frames *)

Record StateUpdate := mk_StateUpdate {
  su_queue : option QueuePos;
  su_job_id : string;
  su_generation : Z;
  su_state : JobState;
  su_reason : option string;
  su_detail : option string;
  su_at : Z;
  su_exit : option ExitInfo;
  su_src : option SrcRan;
  su_log_seq : Z;
  su_outputs : option Outputs;
}.

Definition state_frame (now : Z) (job_id : string) (generation : Z) (state : JobState) (reason detail : option string)
    : StateUpdate :=
  mk_StateUpdate None job_id generation state reason detail now None None 0 None.

Definition row_state_frame (r : Row) : StateUpdate :=
  mk_StateUpdate None (rw_job_id r) (rw_generation r) (rw_state r) (rw_reason r) (rw_detail r)
    (default (rw_created_at r) (opt_or (rw_ended_at r) (rw_started_at r)))
    (rw_exit r) (rw_src r) (rw_log_seq r) (rw_outputs r).

(** ** The node *)

Record NodeLimits := mk_NodeLimits {
  nl_cpu_millis : option Z;
  nl_mem_bytes : option Z;
  nl_max_parallel : option Z;
}.

(** A server's session: its epoch (0: none), and whether the next frames fit
    in its channel (all, when the list is over). *)
Record Hub := mk_Hub {
  hb_next_epoch : Z;
  hb_connected : Z;
  hb_takes : list bool;
  hb_sent : list StateUpdate;
}.

(** [Tenant]: one server on this node. *)
Record TenantSt := mk_TenantSt {
  te_node_id : string;
  te_protocol : Z;
  te_trust_own : bool;
  te_tenant_wall : bool;
  te_controller_fp : string;
  te_narrow : NodeLimits;
  te_ledger : Ledger;
  te_hub : Hub;
}.

Record StopReason := mk_StopReason { sr_state : JobState; sr_reason : string }.

Record RunningJob := mk_RunningJob {
  rj_generation : Z;
  rj_cpu_millis : option Z;
  rj_mem_bytes : option Z;
  rj_exclusive : bool;
  rj_stop : option StopReason;
  rj_seq : Z;
  rj_gate : bool;
  rj_workspace : string;
  rj_secret : bool;
  rj_port_block : option Z;
  rj_adoptable : bool;
  rj_rust : list string;
}.

Record Node := mk_Node {
  nd_tenants : gmap Z TenantSt;
  nd_jobs : gmap (Z * string) RunningJob;
  nd_fairq : FairQ;
  nd_job_seq : Z;
  nd_spawned : list (Z * Assign);
  nd_ends : list (Z * Row * StopReason);
}.

(** What a handler reads of the machine and of the owner's files. *)
Record Facts := mk_Facts {
  fa_now : Z;
  fa_mono : Z;
  fa_boot : string;
  fa_stopping : bool;
  fa_installing : bool;
  fa_cores : Z;
  fa_cpu_cap_percent : Z;
  fa_mem_cap_bytes : Z;
  fa_max_parallel : Z;
  fa_disk_floor_bytes : Z;
  fa_disk_free_bytes : Z;
  fa_workspaces : list string;
  fa_network : string;
  fa_network_none_enforced : bool;
  fa_control : Control;
  fa_unavailable : list string;
  fa_foreign_lock : option string;
  fa_tools : gmap string string;
  fa_narrow : NodeLimits;
  fa_linux : bool;
  fa_macos : bool;
  fa_job_user_wall : bool;
  fa_exec_stdin : bool;
  fa_owner_label : string;
  fa_fingerprint : string;
}.

(** ** State passing *)

Definition NodeM (A : Type) : Type := Node → A * Node.
Definition n_ret {A} (x : A) : NodeM A := λ n, (x, n).
Definition n_bind {A B} (m : NodeM A) (k : A → NodeM B) : NodeM B := λ n, let '(x, n') := m n in k x n'.
Notation "'let&' x ':=' m 'in' k" := (n_bind m (fun x => k))
  (at level 10, x pattern, m at level 100, k at level 200) : k2_scope.

Definition hub_empty : Hub := mk_Hub 1 0 [] [].
Definition tenant_empty : TenantSt :=
  mk_TenantSt "" 0 false false "" (mk_NodeLimits None None None) (mk_Ledger [] []) hub_empty.
Definition tenant (n : Node) (slot : Z) : TenantSt := default tenant_empty (nd_tenants n !! slot).

Definition set_tenant (slot : Z) (t : TenantSt) (n : Node) : Node :=
  mk_Node (<[slot := t]> (nd_tenants n)) (nd_jobs n) (nd_fairq n) (nd_job_seq n) (nd_spawned n) (nd_ends n).
Definition set_ledger (slot : Z) (l : Ledger) (n : Node) : Node :=
  let t := tenant n slot in
  set_tenant slot (mk_TenantSt (te_node_id t) (te_protocol t) (te_trust_own t) (te_tenant_wall t) (te_controller_fp t)
    (te_narrow t) l (te_hub t)) n.
Definition set_hub (slot : Z) (h : Hub) (n : Node) : Node :=
  let t := tenant n slot in
  set_tenant slot (mk_TenantSt (te_node_id t) (te_protocol t) (te_trust_own t) (te_tenant_wall t) (te_controller_fp t)
    (te_narrow t) (te_ledger t) h) n.
Definition with_fairq (f : FairQ → FairQ) : NodeM unit :=
  λ n, (tt, mk_Node (nd_tenants n) (nd_jobs n) (f (nd_fairq n)) (nd_job_seq n) (nd_spawned n) (nd_ends n)).

(** One method on the ledger of [slot], under its lock. *)
Definition on_ledger {A} (slot : Z) (m : LedgerM A) : NodeM (Result A string) :=
  λ n, let '(r, l) := m (te_ledger (tenant n slot)) in (r, set_ledger slot l n).

(** [Hub::send]: false when there is no session or its channel is full. *)
Definition send (slot : Z) (f : StateUpdate) : NodeM bool := λ n,
  let h := te_hub (tenant n slot) in
  if hb_connected h =? 0 then (false, n) else
  let ok := default true (head (hb_takes h)) in
  (ok, set_hub slot (mk_Hub (hb_next_epoch h) (hb_connected h) (tail (hb_takes h))
    (if ok then hb_sent h ++ [f] else hb_sent h)) n).

(** [Hub::attach] and [Hub::detach]. *)
Definition attach (slot : Z) (takes : list bool) : NodeM Z := λ n,
  let h := te_hub (tenant n slot) in
  let e := hb_next_epoch h in
  (e, set_hub slot (mk_Hub (e + 1) e takes (hb_sent h)) n).
Definition detach (slot epoch : Z) : NodeM unit := λ n,
  let h := te_hub (tenant n slot) in
  (tt, if hb_connected h =? epoch then set_hub slot (mk_Hub (hb_next_epoch h) 0 [] (hb_sent h)) n else n).

(** ** Capacity *)

Definition cpu_cap_millis (percent cores : Z) : Z := u64 (u64 (u64 (cores * 1000) * percent)) / 100.

(** One narrowing of the caps. *)
Definition narrowed (l : NodeLimits) (caps : Z * Z * Z) : Z * Z * Z :=
  let '(cpu, mem, par) := caps in
  (match nl_cpu_millis l with Some c => Z.min cpu c | None => cpu end,
   match nl_mem_bytes l with Some m => Z.min mem m | None => mem end,
   match nl_max_parallel l with Some p => Z.min par (Z.max p 1) | None => par end).

Definition policy_caps (fa : Facts) : Z * Z * Z :=
  (cpu_cap_millis (fa_cpu_cap_percent fa) (fa_cores fa), fa_mem_cap_bytes fa, fa_max_parallel fa).

(** [Node::caps]: narrowed by the server's session, then by the owner. *)
Definition node_caps (fa : Facts) (t : TenantSt) : Z * Z * Z := narrowed (fa_narrow fa) (narrowed (te_narrow t) (policy_caps fa)).

Definition facts_view (fa : Facts) (allow : list string) (running par : Z) (exclusive : bool) (cpu mem : Z) : NodeView := {|
  nv_control := fa_control fa;
  nv_unavailable := fa_unavailable fa;
  nv_foreign_lock := fa_foreign_lock fa;
  nv_disk_free_bytes := fa_disk_free_bytes fa;
  nv_disk_floor_bytes := fa_disk_floor_bytes fa;
  nv_workspaces_allow := allow;
  nv_tools := fa_tools fa;
  nv_running := running;
  nv_parallel_max := par;
  nv_exclusive_running := exclusive;
  nv_free_cpu_millis := cpu;
  nv_free_mem_bytes := mem;
  nv_network_none := (fa_network fa =? "none")%string;
  nv_network_none_enforced := fa_network_none_enforced fa;
|}.

Definition queue_caps (fa : Facts) : Caps :=
  let '(cpu, mem, par) := narrowed (fa_narrow fa) (policy_caps fa) in
  let blocked := rf_code <$> node_refusal (facts_view fa [] 0 par false cpu mem) in
  let blocked := if fa_stopping fa then Some refusal_LOCAL_STOPPED else blocked in
  let blocked := match blocked with
    | None => if fa_installing fa then Some codes_INSTALLING_TOOLS else None
    | Some b => Some b
    end in
  mk_Caps cpu mem par blocked.

(** [Node::used]: CPU, memory, jobs, and whether one is exclusive. *)
Definition node_used (jobs : list RunningJob) (cap_cpu cap_mem par : Z) : Z * Z * Z * bool :=
  let share_of cap := cap / Z.max par 1 in
  (sum_u64 (λ j, default (share_of cap_cpu) (rj_cpu_millis j)) jobs,
   sum_u64 (λ j, default (share_of cap_mem) (rj_mem_bytes j)) jobs,
   u32 (zlen jobs), existsb rj_exclusive jobs).
Definition jobs_list (n : Node) : list RunningJob := snd <$> map_to_list (nd_jobs n).

Definition owner_share (fa : Facts) : ShareInfo := owner_default (queue_caps fa) (fa_network fa) (fa_owner_label fa).
Definition share_of (fa : Facts) (slot : Z) (n : Node) : option ShareInfo := share (nd_fairq n) (owner_share fa) slot.

(** ** Refusals *)

Definition PROTOCOL_SECRETS : Z := 4.

Definition secret_env_refusal (fa : Facts) (slot : Z) (t : TenantSt) : option (string * string) :=
  guard negb (fa_linux fa) ret Some ("secret_env_linux_only", "secret env runs only on Linux nodes in this release");
  guard negb (fa_job_user_wall fa) ret Some ("secret_needs_wall", "secret env needs the job wall (sudo k2-node setup)");
  guard te_protocol t <? PROTOCOL_SECRETS ret Some ("secret_needs_update", "this server is too old for secret env");
  guard negb (slot =? OWNER_SLOT) && negb (te_trust_own t)
    ret Some ("secret_untrusted_server", "secret env goes only to servers this node trusts as its own (trust own)");
  guard negb (slot =? OWNER_SLOT) && negb (te_tenant_wall t)
    ret Some ("secret_needs_wall", "secret env for another server needs the per-tenant wall");
  guard negb (fa_exec_stdin fa)
    ret Some ("secret_needs_update", "the node's root executor can't pass secret env yet (update k2-node)");
  None.

Definition gets_secrets (p : Plan) : bool := negb (bool_decide (pl_secret_env p = [])).

Definition secret_isolation_wait (fa : Facts) (slot : Z) (ws : string) (secret : bool) (n : Node) : option string :=
  if isolation_blocks (fa_macos fa) slot ws secret
       ((λ x : (Z * string) * RunningJob, (x.1.1, rj_workspace x.2, rj_secret x.2)) <$> map_to_list (nd_jobs n))
  then Some secret_ISOLATION_WAIT else None.

Definition assign_refusal (fa : Facts) (slot : Z) (a : Assign) (n : Node) : option Refusal :=
  let '(cap_cpu, cap_mem, par) := node_caps fa (tenant n slot) in
  let '(used_cpu, used_mem, running, excl) := node_used (jobs_list n) cap_cpu cap_mem par in
  let p := as_plan a in
  refusal (facts_view fa (fa_workspaces fa) running par excl (u64_sat_sub cap_cpu used_cpu) (u64_sat_sub cap_mem used_mem))
    (mk_JobAsk (pl_workspace_id p) (jl_cpu_millis (pl_limits p)) (jl_mem_bytes (pl_limits p)) 0 (pl_exclusive p)
       (if pl_src p is Some _ then true else false)).

Definition codes_FAIR_SHARE_WAIT : string := "fair_share_wait".
Definition codes_TENANT_QUEUE_FULL : string := "tenant_queue_full".
Definition codes_WITHDRAWN : string := "withdrawn".
Definition codes_SUPERSEDED : string := "superseded".
Definition codes_EXCEEDS_SHARE_CAPS : string := "exceeds_share_caps".
Definition codes_GATE_NOT_ALLOWED : string := "gate_not_allowed".
Definition codes_EXCLUSIVE_NOT_ALLOWED : string := "exclusive_not_allowed".
Definition codes_SERVER_TOO_OLD : string := "server_too_old".

(** Why a job can't even wait here: a code and a sentence.  The length of the
    tenant's queue is the last thing read. *)
Definition queue_refusal (fa : Facts) (slot : Z) (a : Assign) (n : Node) : option (string * string) * Node :=
  let p := as_plan a in
  let lim := pl_limits p in
  let no code msg := (Some (code, msg), n) : option (string * string) * Node in
  match share_of fa slot n with
  | None => no codes_SERVER_NOT_APPROVED "this node has no approved share for this server"
  | Some s =>
    match si_status s with
    | ServerStatus_Expired => no codes_SHARE_EXPIRED "this server's share of the node has ended"
    | ServerStatus_Revoked => no codes_SHARE_REVOKED "this server's share of the node was revoked"
    | ServerStatus_Pending | ServerStatus_Refused => no codes_SERVER_NOT_APPROVED "this server isn't active on the node"
    | ServerStatus_Active | ServerStatus_Paused =>
      let sl := si_limits s in
      let class := default JobClass_default (pl_class p) in
      let caps := queue_caps fa in
      guard (slot =? OWNER_SLOT) && negb (bool_decide (fa_workspaces fa = [])) && negb (mem_str (pl_workspace_id p) (fa_workspaces fa))
        ret no refusal_WORKSPACE_REFUSED "the machine's owner doesn't allow this workspace";
      guard (fa_network fa =? "none")%string && negb (fa_network_none_enforced fa)
        ret no refusal_NETWORK_NONE_NOT_ENFORCED refusal_NETWORK_NONE_MESSAGE;
      guard (if pl_src p is Some _ then true else false) && (if fa_tools fa !! "git" is Some _ then false else true)
        ret no refusal_TOOL_MISSING "git is not installed on the node";
      guard negb (allows_class sl class)
        ret (if bool_decide (class = JobClass_Gate)
             then no codes_GATE_NOT_ALLOWED "this server's share doesn't allow gate jobs"
             else no codes_EXCEEDS_SHARE_CAPS ("this server's share allows up to " +:+ JobClass_as_str (sl_top_class sl) +:+ " jobs"));
      guard pl_exclusive p && negb (sl_exclusive sl)
        ret no codes_EXCLUSIVE_NOT_ALLOWED "this server's share doesn't allow exclusive jobs";
      guard opt_is_some_and (λ c, sl_max_cpus sl * 1000 <? c) (jl_cpu_millis lim)
            || opt_is_some_and (λ m, u64 (Z.shiftl (sl_max_mem_gb sl) 30) <? m) (jl_mem_bytes lim)
            || (sl_max_job_secs sl <? jl_max_secs lim)
        ret no codes_EXCEEDS_SHARE_CAPS ("over this server's share: " +:+ pretty (sl_max_cpus sl) +:+ " CPUs, "
          +:+ pretty (sl_max_mem_gb sl) +:+ " GB, " +:+ pretty (sl_max_job_secs sl) +:+ " s per job");
      guard opt_is_some_and (λ c, cp_cpu_millis caps <? c) (jl_cpu_millis lim)
            || opt_is_some_and (λ m, cp_mem_bytes caps <? m) (jl_mem_bytes lim)
        ret no blocked_EXCEEDS_NODE_CAPS "bigger than this node's caps";
      let '(rows, n') := on_ledger slot queued n in
      let count := match rows with Ok q => zlen q | Err _ => u64_max end in
      (if sl_max_queued sl <=? count
       then Some (codes_TENANT_QUEUE_FULL, "this server already has " +:+ pretty count +:+ " jobs queued here (its share allows "
              +:+ pretty (sl_max_queued sl) +:+ ")")
       else None, n')
    end
  end.

(** ** Starting *)

Definition JOB_PORT_BLOCKS : Z := 120.
Definition free_port_block (jobs : list RunningJob) : option Z :=
  List.find (λ b, negb (existsb (λ j, bool_decide (rj_port_block j = Some b)) jobs)) (seqZ 0 JOB_PORT_BLOCKS).

(** [Node::running_snaps]. *)
Definition running_snaps (n : Node) : list Key :=
  (λ x : (Z * string) * RunningJob, (x.1.1, x.1.2, rj_generation x.2)) <$> map_to_list (nd_jobs n).

Definition fence_key (slot : Z) (a : Assign) : Key := (slot, fe_job_id (as_fence a), fe_generation (as_fence a)).

Section node.
Context (cfg : Config) (scale : Z → Z → Z → Z) (cmd_hash : list string → string).
(** [Plan::digest], and the signed receipt of a row that never ran. *)
Context (digest : Plan → option string) (unrun_receipt : Facts → string → Row → Result SignedReceipt string).

Definition job_of_plan (p : Plan) (generation seq : Z) (port_block : option Z) : RunningJob := {|
  rj_generation := generation;
  rj_cpu_millis := jl_cpu_millis (pl_limits p);
  rj_mem_bytes := jl_mem_bytes (pl_limits p);
  rj_exclusive := pl_exclusive p;
  rj_stop := None;
  rj_seq := seq;
  rj_gate := bool_decide (tier_or_class p = Tier_Ci);
  rj_workspace := pl_workspace_id p;
  rj_secret := gets_secrets p;
  rj_port_block := port_block;
  rj_adoptable := false;
  rj_rust := [];
|}.

(** The running map; the queue's books; the job's task. *)
Definition jobs_insert (slot : Z) (a : Assign) : NodeM unit := λ n,
  let j := job_of_plan (as_plan a) (fe_generation (as_fence a)) (nd_job_seq n) (free_port_block (jobs_list n)) in
  (tt, mk_Node (nd_tenants n) (<[(slot, fe_job_id (as_fence a)) := j]> (nd_jobs n)) (nd_fairq n) (u64 (nd_job_seq n + 1)) (nd_spawned n) (nd_ends n)).
Definition spawn_job (slot : Z) (a : Assign) : NodeM unit := λ n,
  (tt, mk_Node (nd_tenants n) (nd_jobs n) (nd_fairq n) (nd_job_seq n) (nd_spawned n ++ [(slot, a)]) (nd_ends n)).

Definition launch (fa : Facts) (slot : Z) (a : Assign) : NodeM unit :=
  let& _ := jobs_insert slot a in
  let& _ := with_fairq (started cmd_hash slot a (fa_now fa) (fa_mono fa) (queue_caps fa)) in
  let& _ := with_fairq kicked in
  spawn_job slot a.

(** ** Queued rows *)

Definition cancel_queued_row (fa : Facts) (slot : Z) (job_id : string) (generation : Z) (reason : string) (detail : option string)
    : NodeM bool :=
  let& c := on_ledger slot (cancel_queued job_id generation reason detail (fa_now fa)) in
  match c with
  | Ok true =>
    let& got := on_ledger slot (get job_id generation) in
    match got with
    | Ok (Some row) =>
      let& fp := (λ n, (te_controller_fp (tenant n slot), n)) in
      let& _ := match unrun_receipt fa fp row with
                | Ok r => on_ledger slot (set_receipt job_id generation r)
                | Err _ => n_ret (Ok tt)
                end in
      let& again := on_ledger slot (get job_id generation) in
      let row := match again with Ok (Some r) => r | _ => row end in
      let& _ := with_fairq (forget (slot, job_id, generation)) in
      let& _ := send slot (row_state_frame row) in
      let& _ := with_fairq kicked in
      n_ret true
    | _ => n_ret false
    end
  | _ => n_ret false
  end.

(** Every row of [rows] that is still queued. *)
Fixpoint cancel_rows (fa : Facts) (slot : Z) (reason : string) (detail : option string) (rows : list Row) : NodeM nat :=
  match rows with
  | [] => n_ret 0%nat
  | r :: rows =>
    let& b := cancel_queued_row fa slot (rw_job_id r) (rw_generation r) reason detail in
    let& k := cancel_rows fa slot reason detail rows in
    n_ret ((if b then 1 else 0) + k)%nat
  end.

Definition queued_or_none (slot : Z) : NodeM (list Row) :=
  let& rows := on_ledger slot queued in
  n_ret (match rows with Ok rows => rows | Err _ => [] end).

Definition queue_cancel_tenant (fa : Facts) (slot : Z) (reason : string) : NodeM nat :=
  let& rows := queued_or_none slot in cancel_rows fa slot reason None rows.

(** [Welcome.resume] names attempts by job and generation. *)
Definition hinted (resume : list (string * Z)) (r : Row) : bool :=
  existsb (λ h, (h.1 =? rw_job_id r)%string && (h.2 =? rw_generation r)) resume.

Fixpoint attach_rows (fa : Facts) (slot epoch : Z) (resume : list (string * Z)) (rows : list Row) : NodeM unit :=
  match rows with
  | [] => n_ret tt
  | r :: rows =>
    let& _ := (if hinted resume r
               then with_fairq (gate (slot, rw_job_id r, rw_generation r) epoch)
               else let& _ := cancel_queued_row fa slot (rw_job_id r) (rw_generation r) codes_SUPERSEDED
                      (Some "the server no longer lists this job") in n_ret tt) in
    attach_rows fa slot epoch resume rows
  end.

Definition queue_attach (fa : Facts) (slot : Z) (resume : list (string * Z)) : NodeM unit :=
  let& epoch := (λ n, (hb_connected (te_hub (tenant n slot)), n)) in
  let& rows := queued_or_none slot in
  let& _ := attach_rows fa slot epoch resume rows in
  let& _ := with_fairq (resend slot) in
  with_fairq kicked.

Definition assign_of_row (r : Row) : Assign :=
  mk_Assign (mk_Fence (rw_job_id r) (rw_attempt r) (rw_generation r) (rw_plan_digest r)) (rw_plan r).

Definition BAD_JOB_ID : string := "a job id is 1-64 of A-Z a-z 0-9 _ -".
Definition BAD_PROJECT_KEY : string := "a project key is 1-128 of A-Z a-z 0-9 _ -".

Definition start_queued (fa : Facts) (slot : Z) (r : Row) : NodeM bool :=
  let a := assign_of_row r in
  let refused :=
    guard negb (job_id_ok a) ret Some ("bad_job_id", BAD_JOB_ID);
    guard negb (project_key_ok a) ret Some ("bad_project_key", BAD_PROJECT_KEY);
    None in
  match refused with
  | Some (code, detail) =>
    let& _ := cancel_queued_row fa slot (rw_job_id r) (rw_generation r) code (Some detail) in n_ret false
  | None =>
    let& d := on_ledger slot (dequeue (rw_job_id r) (rw_generation r) (fa_boot fa)) in
    match d with
    | Ok true => let& _ := launch fa slot a in n_ret true
    | _ => n_ret false
    end
  end.

(** ** [assign] *)

Definition enqueue (fa : Facts) (slot : Z) (a : Assign) : NodeM (option (string * Z)) :=
  let '(job, gen) := (fe_job_id (as_fence a), fe_generation (as_fence a)) in
  let tell (s : JobState) (code detail : string) :=
    let& _ := send slot (state_frame (fa_now fa) job gen s (Some code) (Some detail)) in n_ret (None : option (string * Z)) in
  let& refused := queue_refusal fa slot a in
  match refused with
  | Some (code, msg) => tell JobState_Queued code msg
  | None =>
    let& ins := on_ledger slot (insert_queued a (fa_now fa) (fa_boot fa)) in
    match ins with
    | Err e => tell JobState_Failed "ledger_error" e
    | Ok _ =>
      let& epoch := (λ n, (hb_connected (te_hub (tenant n slot)), n)) in
      let& _ := with_fairq (queued_ slot a epoch (fa_now fa)) in
      let& _ := with_fairq kicked in
      n_ret (Some (job, gen))
    end
  end.

(** A known fence, or a newer generation of the job. *)
Definition known_row (slot : Z) (job : string) (gen : Z) : NodeM (option Row) :=
  let& r := on_ledger slot (get job gen) in
  match r with
  | Ok (Some r) => n_ret (Some r)
  | _ =>
    let& l := on_ledger slot (latest job) in
    n_ret (match l with Ok (Some r) => if gen <? rw_generation r then Some r else None | _ => None end)
  end.

(** Has any other open server work in the queue? *)
Definition others_waiting (slot : Z) : NodeM bool := λ n,
  fold_left (λ '(b, n) s,
    if b || (s =? slot) then (b, n) else
    let '(rows, n') := on_ledger s queued n in
    (match rows with Ok rows => negb (bool_decide (rows = [])) | Err _ => false end, n'))
    (fst <$> bt_entries (nd_tenants n)) (false, n).

(** Started now, or refused: the path of the owner's server on a node nobody
    shares, and of an old server of his. *)
Definition assign_solo (fa : Facts) (slot : Z) (a : Assign) : NodeM (option (string * Z)) :=
  let '(job, gen) := (fe_job_id (as_fence a), fe_generation (as_fence a)) in
  let p := as_plan a in
  let tell (s : JobState) (code detail : string) :=
    let& _ := send slot (state_frame (fa_now fa) job gen s (Some code) (Some detail)) in n_ret (None : option (string * Z)) in
  let& refused := (λ n, (assign_refusal fa slot a n, n)) in
  match refused with
  | Some r => tell JobState_Queued (rf_code r) (rf_message r)
  | None =>
    let& wait := (λ n, (secret_isolation_wait fa slot (pl_workspace_id p) (gets_secrets p) n, n)) in
    match wait with
    | Some code => tell JobState_Queued code "a job of another workspace runs as the same user and one of them gets vault secrets; it starts when that ends"
    | None =>
      let& ins := on_ledger slot (ledger_insert a (fa_now fa) (fa_boot fa)) in
      match ins with
      | Err e => tell JobState_Failed "ledger_error" e
      | Ok _ => let& _ := launch fa slot a in n_ret (Some (job, gen))
      end
    end
  end.

Definition on_assign (fa : Facts) (slot : Z) (a : Assign) : NodeM (option (string * Z)) :=
  let '(job, gen) := (fe_job_id (as_fence a), fe_generation (as_fence a)) in
  let p := as_plan a in
  let tell (s : JobState) (code detail : string) :=
    let& _ := send slot (state_frame (fa_now fa) job gen s (Some code) (Some detail)) in n_ret (None : option (string * Z)) in
  guard negb (job_id_ok a) ret tell JobState_Failed "bad_job_id" BAD_JOB_ID;
  guard negb (project_key_ok a) ret tell JobState_Failed "bad_project_key" BAD_PROJECT_KEY;
  guard negb (consistent digest a) ret tell JobState_Failed "plan_mismatch" "plan digest or job id doesn't match the fence";
  let& node_id := (λ n, (te_node_id (tenant n slot), n)) in
  guard negb (pl_node_id p =? node_id)%string ret tell JobState_Failed "wrong_node" "this plan names another node";
  let& known := known_row slot job gen in
  match known with
  | Some r => let& _ := send slot (row_state_frame r) in n_ret None
  | None =>
    guard fa_stopping fa ret tell JobState_Queued refusal_LOCAL_STOPPED "k2-node is stopping";
    let& t := (λ n, (tenant n slot, n)) in
    match (if gets_secrets p then secret_env_refusal fa slot t else None) with
    | Some (code, detail) => tell JobState_Failed code detail
    | None =>
      let& q := (λ n, (nd_fairq n, n)) in
      if negb (slot =? OWNER_SLOT) || shared q then
        guard PROTOCOL_SHARED <=? protocol q slot ret enqueue fa slot a;
        guard negb (slot =? OWNER_SLOT)
          ret tell JobState_Queued codes_SERVER_TOO_OLD "update this server to 0.46.3 to use a shared node";
        let& waiting := others_waiting slot in
        guard waiting ret tell JobState_Queued codes_FAIR_SHARE_WAIT
          "another server's jobs are queued on this shared node; update this server to 0.46.3 to queue";
        assign_solo fa slot a
      else assign_solo fa slot a
    end
  end.

(** ** [cancel] *)

(** A started attempt whose row is open but that no task runs: hold its
    place, look again, and end it. *)
Definition placeholder (generation : Z) : RunningJob :=
  mk_RunningJob generation (Some 0) (Some 0) false None 0 false "" false None false [].
Definition orphan_row (r : Row) : bool :=
  let started := (if rw_started_at r is Some _ then true else false)
    || bool_decide (rw_state r = JobState_Running) || bool_decide (rw_state r = JobState_Finishing) in
  negb (is_terminal (rw_state r) || bool_decide (rw_state r = JobState_Queued) || negb started).
Definition with_jobs (f : gmap (Z * string) RunningJob → gmap (Z * string) RunningJob) : NodeM unit :=
  λ n, (tt, mk_Node (nd_tenants n) (f (nd_jobs n)) (nd_fairq n) (nd_job_seq n) (nd_spawned n) (nd_ends n)).

Definition finish_if_orphan (slot : Z) (job_id : string) (generation : Z) (why : StopReason) : NodeM bool :=
  let& row := on_ledger slot (get job_id generation) in
  match row with
  | Ok (Some r) =>
    guard negb (orphan_row r) ret n_ret false;
    let& held := (λ n, (bool_decide (is_Some (nd_jobs n !! (slot, job_id))), n)) in
    guard held ret n_ret false;
    let& _ := with_jobs (<[(slot, job_id) := placeholder generation]>) in
    let& again := on_ledger slot (get job_id generation) in
    let ended := match again with Ok (Some r) => is_terminal (rw_state r) | _ => true end in
    if ended then let& _ := with_jobs (delete (slot, job_id)) in n_ret false
    else λ n, (true, mk_Node (nd_tenants n) (nd_jobs n) (nd_fairq n) (nd_job_seq n) (nd_spawned n) (nd_ends n ++ [(slot, r, why)]))
  | _ => n_ret false
  end.

Definition stop_job (why : StopReason) (j : RunningJob) : RunningJob :=
  mk_RunningJob (rj_generation j) (rj_cpu_millis j) (rj_mem_bytes j) (rj_exclusive j) (Some why) (rj_seq j) (rj_gate j)
    (rj_workspace j) (rj_secret j) (rj_port_block j) (rj_adoptable j) (rj_rust j).

Definition send_row (slot : Z) (job_id : string) (generation : Z) : NodeM unit :=
  let& r := on_ledger slot (get job_id generation) in
  match r with
  | Ok (Some r) => let& _ := send slot (row_state_frame r) in n_ret tt
  | _ => n_ret tt
  end.

Definition cancel_code (reason : string) : string :=
  guard (reason =? CANCEL_WITHDRAW)%string ret codes_WITHDRAWN;
  guard (reason =? CANCEL_IF_QUEUED)%string ret "cancelled";
  reason.

Definition cancel (fa : Facts) (slot : Z) (job_id : string) (generation : Z) (reason : string) : NodeM unit :=
  let only_queued := cancel_only_if_not_started reason in
  let why := mk_StopReason JobState_Cancelled reason in
  let& orphan := (if only_queued then n_ret false else finish_if_orphan slot job_id generation why) in
  guard orphan ret n_ret tt;
  let& job := (λ n, (nd_jobs n !! (slot, job_id), n)) in
  if opt_is_some_and (λ j, rj_generation j =? generation) job then
    if only_queued then send_row slot job_id generation
    else with_jobs (alter (stop_job why) (slot, job_id))
  else
    let& row := on_ledger slot (get job_id generation) in
    match row with
    | Ok (Some r) =>
      if bool_decide (rw_state r = JobState_Queued) then
        let& done := cancel_queued_row fa slot job_id generation (cancel_code reason) None in
        if done then n_ret tt else send_row slot job_id generation
      else let& _ := send slot (row_state_frame r) in n_ret tt
    | _ =>
      let& _ := send slot (state_frame (fa_now fa) job_id generation JobState_Unknown (Some "not_on_node") None) in n_ret tt
    end.

(** ** The loop *)

(** Every open server, in slot order. *)
Definition tenant_slots (n : Node) : list Z := fst <$> bt_entries (nd_tenants n).

(** Shares that ended by time or were revoked: their queued jobs end. *)
Fixpoint cancel_ended (fa : Facts) (slots : list Z) : NodeM unit :=
  match slots with
  | [] => n_ret tt
  | slot :: slots =>
    let& s := (λ n, (si_status <$> share_of fa slot n, n)) in
    let& _ := match s with
      | Some ServerStatus_Expired => queue_cancel_tenant fa slot codes_SHARE_EXPIRED
      | Some ServerStatus_Revoked => queue_cancel_tenant fa slot codes_SHARE_REVOKED
      | _ => n_ret 0%nat
      end in
    cancel_ended fa slots
  end.

Fixpoint tenant_views (slots : list Z) : NodeM (list TenantView) :=
  match slots with
  | [] => n_ret []
  | slot :: slots =>
    let& epoch := (λ n, (hb_connected (te_hub (tenant n slot)), n)) in
    let& rows := queued_or_none slot in
    let& rest := tenant_views slots in
    n_ret (mk_TenantView slot epoch rows :: rest)
  end.

Definition node_snapshot (fa : Facts) : NodeM Snapshot :=
  let& slots := (λ n, (tenant_slots n, n)) in
  let& views := tenant_views slots in
  λ n, (snapshot cfg scale cmd_hash views (queue_caps fa) (owner_share fa) (fa_now fa) (nd_fairq n), n).

(** The rows of [start], in order; those that did start. *)
Fixpoint start_all (fa : Facts) (rows : list (Z * Row)) (start : list nat) : NodeM (list nat) :=
  match start with
  | [] => n_ret []
  | i :: start =>
    let& ok := match rows !! i with Some (slot, r) => start_queued fa slot r | None => n_ret false end in
    let& rest := start_all fa rows start in
    n_ret (if ok then i :: rest else rest)
  end.

Definition pos_of (i : Info) : QueuePos := mk_QueuePos (if_pos i) (Some (if_of i)) (if_eta_secs i) (if_eta_p90_secs i) (if_blocked_by i).

Definition pos_frame (now : Z) (r : Row) (pos : QueuePos) : StateUpdate :=
  mk_StateUpdate (Some pos) (rw_job_id r) (rw_generation r) JobState_Queued (Some codes_NODE_QUEUED) None now None None 0 None.

(** A position is sent when it isn't the last one sent in this session. *)
Definition tell_position (fa : Facts) (slot : Z) (r : Row) (pos : QueuePos) : NodeM unit :=
  let& epoch := (λ n, (hb_connected (te_hub (tenant n slot)), n)) in
  let k := (slot, rw_job_id r, rw_generation r) in
  let& last := (λ n, (fq_sent (nd_fairq n) !! k, n)) in
  guard bool_decide (last = Some (epoch, pos)) ret n_ret tt;
  let& sent := send slot (pos_frame (fa_now fa) r pos) in
  if sent then with_fairq (λ q, set_jobs (fq_gates q) (fq_runs q) (<[k := (epoch, pos)]> (fq_sent q)) q) else n_ret tt.

Fixpoint tell_positions (fa : Facts) (input : Input) (d : Decision) (started : list nat) (rows : list (nat * (Z * Row))) : NodeM unit :=
  match rows with
  | [] => n_ret tt
  | (i, (slot, r)) :: rows =>
    let& _ := (if bool_decide (i ∈ started) || negb (qd_eligible (at_ input i)) then n_ret tt
               else tell_position fa slot r (pos_of (dc_info d !!! i))) in
    tell_positions fa input d started rows
  end.

Definition keep_rotation (rot : Rotation) (q : FairQ) : FairQ :=
  set_books (set_rotation rot (fq_store q)) (fq_usage q) rot (fq_last_persist q) (fq_day_cpu q) q.

(** [tick]: the attempts it started, as indices of the snapshot; [None] when
    the rules panic. *)
Definition tick (fa : Facts) : NodeM (option (list nat)) :=
  let& live := (λ n, (running_snaps n, n)) in
  let& _ := with_fairq (account cfg scale live (fa_now fa) (fa_mono fa)) in
  let& slots := (λ n, (tenant_slots n, n)) in
  let& _ := cancel_ended fa slots in
  let& snap := node_snapshot fa in
  let input := sn_input snap in
  if bool_decide (in_queued input = []) then n_ret (Some []) else
  match queue_decide input with
  | None => n_ret None
  | Some d =>
    let& started := start_all fa (sn_rows snap) (dc_start d) in
    let& _ := with_fairq (keep_rotation (dc_rotation d)) in
    let& _ := tell_positions fa input d started (enumerate (sn_rows snap)) in
    n_ret (Some started)
  end.

End node.

(** ** Starts, however the handlers interleave

    A handler runs as a sequence of sections, each under a lock.  A section
    that takes an attempt out of the ledger to start it leaves its handler a
    claim, and the job is launched with it. *)

Section starts.
Context (cfg : Config) (scale : Z → Z → Z → Z) (cmd_hash : list string → string).
Context (digest : Plan → option string) (unrun_receipt : Facts → string → Row → Result SignedReceipt string).

Definition ledger_of (n : Node) (slot : Z) : Ledger := te_ledger (tenant n slot).
Definition starts (evs : list LeaveEvent) : list (string * Z) :=
  omap (λ e, match e with Ev_start k => Some k | Ev_cancel _ => None end) evs.
Definition spawned_keys (n : Node) : list Key := (λ x : Z * Assign, fence_key x.1 x.2) <$> nd_spawned n.
Definition slot_key (slot : Z) (k : string * Z) : Key := (slot, k.1, k.2).

Inductive section : Node * list Key → Node * list Key → Prop :=
| sec_quiet n n' claims :
  (∀ s, db_rows (ledger_of n' s) = db_rows (ledger_of n s)) → nd_spawned n' = nd_spawned n →
  section (n, claims) (n', claims)
| sec_write n slot op claims :
  allowed op (db_rows (ledger_of n slot)) →
  section (n, claims) (set_ledger slot (run_op op (ledger_of n slot)).2 n,
    (slot_key slot <$> starts (run_op op (ledger_of n slot)).1) ++ claims)
| sec_launch n fa slot a claims claims' :
  claims ≡ₚ fence_key slot a :: claims' →
  section (n, claims) ((launch cmd_hash fa slot a n).2, claims').

(** The handlers. *)
Inductive Call :=
| Call_assign (slot : Z) (a : Assign)
| Call_cancel (slot : Z) (job_id : string) (generation : Z) (reason : string)
| Call_queue_attach (slot : Z) (resume : list (string * Z))
| Call_cancel_tenant (slot : Z) (reason : string)
| Call_tick.

Definition call (fa : Facts) (c : Call) (n : Node) : Node :=
  match c with
  | Call_assign slot a => (on_assign cmd_hash digest fa slot a n).2
  | Call_cancel slot job gen reason => (cancel unrun_receipt fa slot job gen reason n).2
  | Call_queue_attach slot resume => (queue_attach unrun_receipt fa slot resume n).2
  | Call_cancel_tenant slot reason => (queue_cancel_tenant unrun_receipt fa slot reason n).2
  | Call_tick => (tick cfg scale cmd_hash unrun_receipt fa n).2
  end.

(** Handlers, whole or section by section among others, in any order. *)
Inductive node_runs : Node * list Key → Node * list Key → Prop :=
| nr_refl x : node_runs x x
| nr_section x y z : section x y → node_runs y z → node_runs x z
| nr_call fa c n claims z : node_runs (call fa c n, claims) z → node_runs (n, claims) z.

(** *** Handlers are made of sections *)

Definition by_sections {A} (m : NodeM A) : Prop := ∀ n claims, rtc section (n, claims) ((m n).2, claims).

Lemma by_sections_ret {A} (x : A) : by_sections (n_ret x).
Proof. intros n claims. apply rtc_refl. Qed.
Lemma by_sections_bind {A B} (m : NodeM A) (k : A → NodeM B) :
  by_sections m → (∀ x, by_sections (k x)) → by_sections (let& x := m in k x).
Proof.
  intros Hm Hk n claims. unfold n_bind. specialize (Hm n claims). destruct (m n) as [x n1].
  etrans; [exact Hm|apply Hk].
Qed.

Lemma tenant_set slot t n s : tenant (set_tenant slot t n) s = if decide (s = slot) then t else tenant n s.
Proof.
  unfold tenant, set_tenant. cbn. case_decide as Hs; [subst; by rewrite lookup_insert_eq|].
  by rewrite lookup_insert_ne.
Qed.
Lemma ledger_set_ledger slot l n s : ledger_of (set_ledger slot l n) s = if decide (s = slot) then l else ledger_of n s.
Proof. unfold ledger_of, set_ledger. rewrite tenant_set. by case_decide. Qed.
Lemma ledger_set_hub slot h n s : ledger_of (set_hub slot h n) s = ledger_of n s.
Proof. unfold ledger_of, set_hub. rewrite tenant_set. case_decide; [by subst|done]. Qed.

(** A part that touches no row and launches nothing. *)
Definition quiet {A} (m : NodeM A) : Prop :=
  ∀ n, (∀ s, db_rows (ledger_of (m n).2 s) = db_rows (ledger_of n s)) ∧ nd_spawned (m n).2 = nd_spawned n.
Lemma quiet_sections {A} (m : NodeM A) : quiet m → by_sections m.
Proof. intros Hq n claims. destruct (Hq n). apply rtc_once. by constructor. Qed.

Lemma quiet_read {A} (f : Node → A) : quiet (λ n, (f n, n)).
Proof. done. Qed.
Lemma quiet_fairq f : quiet (with_fairq f).
Proof. done. Qed.
Lemma quiet_jobs f : quiet (with_jobs f).
Proof. done. Qed.
Lemma quiet_send slot f : quiet (send slot f).
Proof.
  intros n. unfold send. destruct (_ =? 0); [done|]. cbn [snd]. split; [|done].
  intros s. by rewrite ledger_set_hub.
Qed.
Lemma quiet_query {A} slot (f : list JobRow → A) : quiet (on_ledger slot (select f)).
Proof.
  intros n. unfold on_ledger. pose proof (select_rows f (te_ledger (tenant n slot))) as H.
  destruct (select f _) as [r l]. cbn [snd] in *. split; [|done]. intros s. rewrite ledger_set_ledger.
  case_decide; [subst; exact H|done].
Qed.

Lemma sections_read {A} (f : Node → A) : by_sections (λ n, (f n, n)).
Proof. apply quiet_sections, quiet_read. Qed.
Lemma sections_fairq f : by_sections (with_fairq f).
Proof. apply quiet_sections, quiet_fairq. Qed.
Lemma sections_jobs f : by_sections (with_jobs f).
Proof. apply quiet_sections, quiet_jobs. Qed.
Lemma sections_send slot f : by_sections (send slot f).
Proof. apply quiet_sections, quiet_send. Qed.
Lemma sections_get slot j g : by_sections (on_ledger slot (get j g)).
Proof. apply quiet_sections, quiet_query. Qed.
Lemma sections_queued slot : by_sections (on_ledger slot queued).
Proof. apply quiet_sections, quiet_query. Qed.
Lemma sections_latest slot j : by_sections (on_ledger slot (latest j)).
Proof. apply quiet_sections, quiet_query. Qed.

(** A write that is one of the ledger's operations and starts nothing. *)
Lemma sections_write {A} slot (m : LedgerM A) op :
  (∀ db, (m db).2 = (run_op op db).2) → (∀ db, starts (run_op op db).1 = []) → (∀ rows, allowed op rows) →
  by_sections (on_ledger slot m).
Proof.
  intros Hm Hs Ha n claims. unfold on_ledger. pose proof (Hm (te_ledger (tenant n slot))) as H.
  destruct (m _) as [r l]. cbn [snd] in *. rewrite H. apply rtc_once.
  pose proof (sec_write n slot op claims (Ha _)) as Hw. unfold ledger_of in Hw. by rewrite Hs in Hw.
Qed.

(** [run_op]'s answer keeps the method's table. *)
Lemma sections_insert_queued slot a now boot : by_sections (on_ledger slot (insert_queued a now boot)).
Proof.
  apply (sections_write _ _ (Op_insert_queued a now boot)); intros; cbn [run_op]; try done; try (by intros ? []);
    by destruct (insert_queued a now boot _) as [[]].
Qed.
Lemma sections_cancel_queued slot j g reason detail at' : by_sections (on_ledger slot (cancel_queued j g reason detail at')).
Proof.
  apply (sections_write _ _ (Op_cancel_queued j g reason detail at')); intros; cbn [run_op]; try done; try (by intros ? []);
    by destruct (cancel_queued j g reason detail at' _) as [[[]|]].
Qed.
Lemma sections_set_receipt slot j g r : by_sections (on_ledger slot (set_receipt j g r)).
Proof.
  apply (sections_write _ _ (Op_set_receipt j g r)); intros; cbn [run_op]; try done; try (by intros ? []);
    by destruct (set_receipt j g r _) as [[]].
Qed.

(** A write that takes an attempt to start, and then its launch. *)
Lemma sections_start {A B} slot (m : LedgerM A) op (won : A → bool) fa a (x : B) :
  (∀ db, (m db).2 = (run_op op db).2) → (∀ rows, allowed op rows) →
  (∀ db, starts (run_op op db).1
     = match (m db).1 with Ok x => if won x then [(fe_job_id (as_fence a), fe_generation (as_fence a))] else [] | Err _ => [] end) →
  ∀ (lost : A → NodeM B) (failed : string → NodeM B), (∀ x, by_sections (lost x)) → (∀ e, by_sections (failed e)) →
  by_sections (let& r := on_ledger slot m in
    match r with
    | Ok x0 => if won x0 then let& _ := launch cmd_hash fa slot a in n_ret x else lost x0
    | Err e => failed e
    end).
Proof.
  intros Hm Ha Hs lost failed Hlost Hfail n claims. unfold n_bind at 1, on_ledger.
  pose proof (Hm (te_ledger (tenant n slot))) as H. pose proof (Hs (te_ledger (tenant n slot))) as Hs'.
  pose proof (sec_write n slot op claims (Ha _)) as Hw. unfold ledger_of in Hw. rewrite <- H, Hs' in Hw.
  destruct (m _) as [r l]. cbn [fst snd] in *. destruct r as [x0|e]; [destruct (won x0)|];
    (etrans; [apply rtc_once; exact Hw|]); [|apply Hlost|apply Hfail].
  unfold n_bind. pose proof (sec_launch (set_ledger slot l n) fa slot a (fence_key slot a :: claims) claims) as Hl.
  cbn [fmap list_fmap app]. destruct (launch _ _ _ _ _) as [[] n'] eqn:E. cbn [snd n_ret] in *.
  apply rtc_once. by apply Hl.
Qed.

Create HintDb sections.
#[local] Hint Resolve by_sections_ret by_sections_bind sections_read sections_fairq sections_jobs sections_send sections_get
  sections_queued sections_latest sections_insert_queued sections_cancel_queued sections_set_receipt : sections.

(** A handler's body, part by part. *)
Ltac by_parts := repeat first
  [ progress (intros; cbv beta iota zeta)
  | solve [eauto 2 with sections]
  | apply by_sections_bind
  | case_match ].

Lemma sections_cancel_row fa slot j g reason detail : by_sections (cancel_queued_row unrun_receipt fa slot j g reason detail).
Proof. unfold cancel_queued_row. by_parts. Qed.
#[local] Hint Resolve sections_cancel_row : sections.
Lemma sections_cancel_rows fa slot reason detail rows : by_sections (cancel_rows unrun_receipt fa slot reason detail rows).
Proof. induction rows; cbn [cancel_rows]; by_parts. Qed.
#[local] Hint Resolve sections_cancel_rows : sections.
Lemma sections_queued_or_none slot : by_sections (queued_or_none slot).
Proof. unfold queued_or_none. by_parts. Qed.
#[local] Hint Resolve sections_queued_or_none : sections.
Lemma sections_cancel_tenant fa slot reason : by_sections (queue_cancel_tenant unrun_receipt fa slot reason).
Proof. unfold queue_cancel_tenant. by_parts. Qed.
Lemma sections_attach_rows fa slot epoch resume rows : by_sections (attach_rows unrun_receipt fa slot epoch resume rows).
Proof. induction rows; cbn [attach_rows]; by_parts. Qed.
#[local] Hint Resolve sections_cancel_tenant sections_attach_rows : sections.
Lemma sections_queue_attach fa slot resume : by_sections (queue_attach unrun_receipt fa slot resume).
Proof. unfold queue_attach. by_parts. Qed.

Lemma sections_start_queued fa slot r : by_sections (start_queued cmd_hash unrun_receipt fa slot r).
Proof.
  unfold start_queued. cbv zeta.
  match goal with |- by_sections (match ?x with _ => _ end) => destruct x as [[code detail]|] end; [by_parts|].
  apply (sections_start slot _ (Op_dequeue (rw_job_id r) (rw_generation r) (fa_boot fa)) id fa (assign_of_row r) true);
    intros; [cbn [run_op]; by destruct (dequeue _ _ _ db) as [[[]|]]|by intros ? []|cbn [run_op]; by destruct (dequeue _ _ _ db) as [[[]|]]|by_parts..].
Qed.
Lemma sections_queue_refusal fa slot a : by_sections (queue_refusal fa slot a).
Proof. intros n claims. unfold queue_refusal. 
  repeat case_match; try apply rtc_refl; match goal with H : on_ledger _ queued _ = _ |- _ =>
    pose proof (sections_queued slot n claims) as Hs; by rewrite H in Hs end.
Qed.
Lemma sections_enqueue fa slot a : by_sections (enqueue fa slot a).
Proof. unfold enqueue. by_parts. apply sections_queue_refusal. Qed.
Lemma sections_assign_solo fa slot a : by_sections (assign_solo cmd_hash fa slot a).
Proof.
  unfold assign_solo. cbv zeta. apply by_sections_bind; [by_parts|intros [r|]; [by_parts|]].
  apply by_sections_bind; [by_parts|intros [c|]; [by_parts|]].
  apply (sections_start slot _ (Op_insert a (fa_now fa) (fa_boot fa)) (λ _, true) fa a)
    with (lost := λ _, n_ret None);
    intros; [cbn [run_op]; by destruct (ledger_insert _ _ _ db) as [[]]|by intros ? []|cbn [run_op]; by destruct (ledger_insert _ _ _ db) as [[]]|by_parts..].
Qed.
#[local] Hint Resolve sections_queue_attach sections_start_queued sections_queue_refusal sections_enqueue sections_assign_solo : sections.

Lemma sections_known_row slot j g : by_sections (known_row slot j g).
Proof. unfold known_row. by_parts. Qed.
Lemma sections_others_waiting slot : by_sections (others_waiting slot).
Proof.
  intros n claims. unfold others_waiting.
  set (l := fst <$> bt_entries (nd_tenants n)). clearbody l.
  match goal with |- context [fold_left ?f _ _] => set (look := f) end. generalize false as b. revert n.
  induction l as [|s l IH]; intros n b; cbn [fold_left]; [apply rtc_refl|]. unfold look at 2.
  destruct (b || (s =? slot)); [apply IH|].
  pose proof (sections_queued s n claims) as Hs. destruct (on_ledger s queued n) as [rows n'].
  etrans; [exact Hs|apply IH].
Qed.
#[local] Hint Resolve sections_known_row sections_others_waiting : sections.
Lemma sections_on_assign fa slot a : by_sections (on_assign cmd_hash digest fa slot a).
Proof. unfold on_assign. by_parts. Qed.

Lemma sections_orphan slot j g why : by_sections (finish_if_orphan slot j g why).
Proof. unfold finish_if_orphan. by_parts; by apply quiet_sections. Qed.
Lemma sections_send_row slot j g : by_sections (send_row slot j g).
Proof. unfold send_row. by_parts. Qed.
#[local] Hint Resolve sections_orphan sections_send_row : sections.
Lemma sections_cancel fa slot j g reason : by_sections (cancel unrun_receipt fa slot j g reason).
Proof. unfold cancel. by_parts. Qed.

Lemma sections_cancel_ended fa slots : by_sections (cancel_ended unrun_receipt fa slots).
Proof. induction slots; cbn [cancel_ended]; by_parts. Qed.
Lemma sections_tenant_views slots : by_sections (tenant_views slots).
Proof. induction slots; cbn [tenant_views]; by_parts. Qed.
#[local] Hint Resolve sections_cancel_ended sections_tenant_views : sections.
Lemma sections_snapshot fa : by_sections (node_snapshot cfg scale cmd_hash fa).
Proof. unfold node_snapshot. by_parts. Qed.
Lemma sections_start_all fa rows start : by_sections (start_all cmd_hash unrun_receipt fa rows start).
Proof. induction start; cbn [start_all]; by_parts. Qed.
Lemma sections_tell fa slot r pos : by_sections (tell_position fa slot r pos).
Proof. unfold tell_position. by_parts. Qed.
#[local] Hint Resolve sections_snapshot sections_start_all sections_tell : sections.
Lemma sections_tell_positions fa input d ok rows : by_sections (tell_positions fa input d ok rows).
Proof. induction rows as [|[i [slot r]] rows IH]; cbn [tell_positions]; by_parts. Qed.
#[local] Hint Resolve sections_tell_positions : sections.
Lemma sections_tick fa : by_sections (tick cfg scale cmd_hash unrun_receipt fa).
Proof. unfold tick. by_parts. Qed.

Lemma sections_call fa c n claims : rtc section (n, claims) (call fa c n, claims).
Proof.
  destruct c; cbn [call]; [apply sections_on_assign|apply sections_cancel|apply sections_queue_attach|
    apply sections_cancel_tenant|apply sections_tick].
Qed.

(** *** One ledger per server, one claim per start *)

Lemma ledger_runs_read k db evs db1 db2 : ledger_runs k db evs db1 → db_rows db2 = db_rows db1 → ledger_runs k db evs db2.
Proof.
  intros H E. induction H as [db|db op evs db' Hal H IH|db db1 evs db' E' H IH].
  - apply (lr_read _ _ db2); [done|constructor].
  - eapply lr_op; [done|by apply IH].
  - eapply lr_read; [exact E'|by apply IH].
Qed.
Lemma ledger_runs_op k db evs db1 op :
  ledger_runs k db evs db1 → ¬ sets_back op (db_rows db1) k → ledger_runs k db (evs ++ (run_op op db1).1) (run_op op db1).2.
Proof.
  intros H Ha. induction H as [db|db op' evs db' Hal H IH|db db1 evs db' E' H IH].
  - rewrite app_nil_l, <- (app_nil_r (run_op op db).1). eapply lr_op; [done|constructor].
  - rewrite <- app_assoc. eapply lr_op; [done|by apply IH].
  - eapply lr_read; [exact E'|by apply IH].
Qed.

Definition of_slot (s : Z) (ks : list Key) : list Key := filter (λ k : Key, k.1.1 = s) ks.
Lemma of_slot_app s l l' : of_slot s (l ++ l') = of_slot s l ++ of_slot s l'.
Proof. apply filter_app. Qed.
Lemma of_slot_key s slot l : of_slot s (slot_key slot <$> l) = if decide (s = slot) then slot_key slot <$> l else [].
Proof.
  unfold of_slot. induction l as [|k l IH]; [by case_decide|]. rewrite fmap_cons.
  destruct (decide (s = slot)) as [->|Hs]; [rewrite filter_cons_True by done; by rewrite IH|].
  by rewrite filter_cons_False by (cbn; congruence).
Qed.
Lemma NoDup_slots (l : list Key) : (∀ s, NoDup (of_slot s l)) → NoDup l.
Proof.
  induction l as [|k l IH]; intros H; [constructor|]. constructor.
  - intros Hin. specialize (H k.1.1). unfold of_slot in H. rewrite filter_cons_True in H by done.
    apply NoDup_cons in H as [Hn _]. apply Hn. by apply list_elem_of_filter.
  - apply IH. intros s. specialize (H s). unfold of_slot in *. destruct (decide (k.1.1 = s)).
    + rewrite filter_cons_True in H by done. by apply NoDup_cons in H as [_ ?].
    + by rewrite filter_cons_False in H.
Qed.
Lemma starts_elem evs k : k ∈ starts evs ↔ Ev_start k ∈ evs.
Proof.
  unfold starts. rewrite list_elem_of_omap. split.
  - intros ([k'|k']&Hin&E); [injection E as ->; done|done].
  - intros Hin. by exists (Ev_start k).
Qed.
Lemma starts_NoDup evs : NoDup (event_key <$> evs) → NoDup (starts evs).
Proof.
  induction evs as [|e evs IH]; cbn; [constructor|]. intros [Hn Hd]%NoDup_cons.
  destruct e as [k|k]; cbn; [|by apply IH]. constructor; [|by apply IH].
  intros Hin%starts_elem. apply Hn. by apply (list_elem_of_fmap_2 event_key evs (Ev_start k)).
Qed.

(** What a run keeps: each ledger has run, and the launches and the claims
    are the starts of those runs. *)
Record accounted (n0 : Node) (x : Node * list Key) (new : list (Z * Assign)) (evs : Z → list LeaveEvent) : Prop := {
  ac_spawned : nd_spawned x.1 = nd_spawned n0 ++ new;
  ac_ledgers : ∀ s k, ledger_runs k (ledger_of n0 s) (evs s) (ledger_of x.1 s);
  ac_keys : ∀ s, of_slot s (((λ y, fence_key y.1 y.2) <$> new) ++ x.2) ≡ₚ slot_key s <$> starts (evs s);
}.

Lemma starts_app evs evs' : starts (evs ++ evs') = starts evs ++ starts evs'.
Proof. apply omap_app. Qed.

Lemma accounted_section n0 x y new evs :
  accounted n0 x new evs → section x y → ∃ new' evs', accounted n0 y new' evs'.
Proof.
  intros [Hs Hl Hk] Hsec. destruct Hsec as [n n' claims Hrows Hsp|n slot op claims Hal|n fa slot a claims claims' Hc];
    cbn [fst snd] in *.
  - exists new, evs. split; cbn [fst snd]; [congruence| |done]. intros s k. by eapply ledger_runs_read.
  - set (ran := run_op op (ledger_of n slot)) in *.
    exists new, (λ s, if decide (s = slot) then evs s ++ ran.1 else evs s). split; cbn [fst snd]; [done|..]; intros s.
    + intros k. rewrite ledger_set_ledger. case_decide as E; [subst s|done]. by apply ledger_runs_op.
    + specialize (Hk s). rewrite !of_slot_app, of_slot_key in *. case_decide as E; [subst s|done].
      rewrite starts_app, fmap_app, <- Hk. solve_Permutation.
  - exists (new ++ [(slot, a)]), evs. split; cbn [fst snd]; [by cbn; rewrite Hs, app_assoc|done|]. intros s.
    rewrite <- Hk. unfold of_slot. apply filter_Permutation. rewrite Hc, fmap_app. cbn. solve_Permutation.
Qed.

Lemma accounted_runs n0 x y new evs :
  accounted n0 x new evs → node_runs x y → ∃ new' evs', accounted n0 y new' evs'.
Proof.
  intros H Hr. revert new evs H. induction Hr as [x|x y z Hs Hr IH|fa c n claims z Hr IH]; intros new evs H; [by eauto|..].
  - destruct (accounted_section _ _ _ _ _ H Hs) as (new'&evs'&H'). by eapply IH.
  - assert (∃ new' evs', accounted n0 (call fa c n, claims) new' evs') as (new'&evs'&H'); [|by eapply IH].
    pose proof (sections_call fa c n claims) as Hc. revert new evs H. clear - Hc.
    induction Hc as [x|x y z Hxy Hc IH]; intros new evs H; [by eauto|].
    destruct (accounted_section _ _ _ _ _ H Hxy) as (new'&evs'&H'). by eapply IH.
Qed.
End starts.

(** ** The theorems *)

(** (C2) However the handlers of the servers' frames and the loop interleave, and
    whatever ledger statements fail, an attempt is launched at most once; and
    only one that was new or still waited in the queue, never one that had
    started, had ended or was cancelled before; once launched, its row says
    it has left the queue. *)
Theorem launched_once (cfg : Config) (scale : Z → Z → Z → Z) (cmd_hash : list string → string) (digest : Plan → option string)
    (unrun_receipt : Facts → string → Row → Result SignedReceipt string) (n n' : Node) (claims : list Key) :
  (∀ slot, table_ok (db_rows (ledger_of n slot))) →
  node_runs cfg scale cmd_hash digest unrun_receipt (n, []) (n', claims) →
  ∃ new, nd_spawned n' = nd_spawned n ++ new
    ∧ NoDup ((λ x, fence_key x.1 x.2) <$> new)
    ∧ ∀ slot a, (slot, a) ∈ new → let k := (fe_job_id (as_fence a), fe_generation (as_fence a)) in
        (∀ r, row_at (db_rows (ledger_of n slot)) k = Some r → jr_state r = JobState_Queued)
        ∧ ∃ r', row_at (db_rows (ledger_of n' slot)) k = Some r' ∧ jr_state r' ≠ JobState_Queued.
Proof.
  intros Hok Hr. destruct (accounted_runs cfg scale cmd_hash digest unrun_receipt n (n, []) (n', claims) [] (λ _, []))
    as (new&evs&[Hs Hl Hk]); [split; cbn; [by rewrite app_nil_r|constructor|done]|exact Hr|]. cbn [fst snd] in *.
  assert (∀ s k, runs_spec k (db_rows (ledger_of n s)) (evs s) (db_rows (ledger_of n' s))) as Hspec.
  { intros s k. by apply ledger_runs_spec. }
  assert (NoDup (((λ x, fence_key x.1 x.2) <$> new) ++ claims)) as Hnd.
  { apply NoDup_slots. intros s. rewrite (Hk s). apply NoDup_fmap_2; [|apply starts_NoDup, about_once; intros k; apply Hspec].
    intros [] [] E. by injection E as -> ->. }
  exists new. split; [done|]. split; [by apply NoDup_app in Hnd as [? _]|].
  intros slot a Hin. set (k := (fe_job_id (as_fence a), fe_generation (as_fence a))). assert (Ev_start k ∈ evs slot) as He.
  { apply starts_elem. apply (list_elem_of_fmap_2 (λ y, fence_key y.1 y.2)) in Hin as Hin'.
      assert (fence_key slot a ∈ of_slot slot (((λ y, fence_key y.1 y.2) <$> new) ++ claims)) as H.
      { apply list_elem_of_filter. split; [done|]. apply elem_of_app. by left. }
      rewrite (Hk slot) in H. apply list_elem_of_fmap in H as (k'&E&Hk'). injection E as E1 E2.
      unfold k. destruct k' as [j g]. cbn in *. by rewrite E1, E2. }
  destruct (ru_left _ _ _ _ (Hspec slot k) (Ev_start k)) as [Hm (r'&Hr'&Hp)]; [by apply about_key_elem|]. split.
  - intros r Hrow. unfold may_leave in Hm. cbn in Hm. rewrite Hrow in Hm. by apply bool_decide_eq_true in Hm.
  - exists r'. split; [done|]. intros E. rewrite E in Hp. cbn in Hp. lia.
Qed.

(** ** An example *)

(** Two servers on a node of four cores and three places: the owner's has one
    job, the other three; the frames come twice, and the loop runs twice. *)
Definition ex_facts : Facts := {|
  fa_now := 1000; fa_mono := 5000; fa_boot := "b0"; fa_stopping := false; fa_installing := false; fa_cores := 8;
  fa_cpu_cap_percent := 50; fa_mem_cap_bytes := 2 ^ 34; fa_max_parallel := 3; fa_disk_floor_bytes := 2 ^ 30;
  fa_disk_free_bytes := 2 ^ 37; fa_workspaces := []; fa_network := "on"; fa_network_none_enforced := false;
  fa_control := Control_Active; fa_unavailable := []; fa_foreign_lock := None; fa_tools := {["git" := "2.40"]};
  fa_narrow := mk_NodeLimits None None None; fa_linux := true; fa_macos := false; fa_job_user_wall := true;
  fa_exec_stdin := true; fa_owner_label := "home"; fa_fingerprint := "fp";
|}.
Definition ex_share (label : string) : ShareInfo := mk_ShareInfo label (ShareLimits_owner 2 4 8 50 Network_On) ServerStatus_Active.
Definition ex_tenant (faults : list (option string)) : TenantSt :=
  mk_TenantSt "n" 9 false false "cfp" (mk_NodeLimits None None None) (mk_Ledger [] faults) (mk_Hub 2 1 [] []).
Definition ex_fairq : FairQ :=
  set_protocol 1 (Some 9) (set_protocol 0 (Some 9) (set_share 1 (Some (ex_share "lab")) (set_share 0 (Some (ex_share "home"))
    (with_store QueueStore_empty)))).
Definition ex_node : Node := mk_Node {[0 := ex_tenant []; 1 := ex_tenant []]} ∅ ex_fairq 0 [] [].
Definition ex_scale (x _ _ : Z) : Z := x.
Definition ex_hash : list string → string := String.concat " ".
Definition ex_digest (p : Plan) : option string := Some ("sha256:" +:+ pl_job_id p).
Definition ex_unrun (_ : Facts) (_ : string) (r : Row) : Result SignedReceipt string := Ok ("unrun:" +:+ rw_job_id r).
Definition ex_call : Call → Node → Node := call Config_default ex_scale ex_hash ex_digest ex_unrun ex_facts.
Definition ex_calls : list Call := [
  Call_assign 0 (ex_assign "a" 1); Call_assign 1 (ex_assign "b" 1); Call_assign 1 (ex_assign "c" 1);
  Call_assign 1 (ex_assign "b" 1); Call_assign 1 (ex_assign "d" 1)].
Definition ex_waiting : Node := fold_left (λ n c, ex_call c n) ex_calls ex_node.
Definition ex_started : Node := ex_call Call_tick ex_waiting.
Definition ex_again : Node := 
  fold_left (λ n c, ex_call c n) (ex_calls ++ Call_tick :: ex_calls ++ [Call_tick]) ex_node.

Lemma calls_run cs n : node_runs Config_default ex_scale ex_hash ex_digest ex_unrun (n, []) (fold_left (λ n c, ex_call c n) cs n, []).
Proof. revert n. induction cs as [|c cs IH]; intros n; cbn [fold_left]; [constructor|]. eapply nr_call, IH. Qed.

Lemma ex_node_ok slot : table_ok (db_rows (ledger_of ex_node slot)).
Proof.
  unfold ledger_of, tenant, ex_node. cbn [nd_tenants].
  destruct (_ !! slot) as [t|] eqn:E; [|apply table_ok_nil].
  apply lookup_insert_Some in E as [[_ <-]|[_ [_ <-]%lookup_singleton_Some]]; apply table_ok_nil.
Qed.

Lemma launched_once_witness :
  (spawned_keys ex_waiting, spawned_keys ex_again) = ([], [(0, "a", 1); (1, "b", 1); (1, "c", 1)])
  ∧ ∃ new, nd_spawned ex_again = nd_spawned ex_node ++ new ∧ NoDup ((λ x, fence_key x.1 x.2) <$> new).
Proof.
  split; [vm_compute; reflexivity|].
  destruct (launched_once Config_default ex_scale ex_hash ex_digest ex_unrun ex_node ex_again [] ex_node_ok) as (new&Hnew&Hnd&_).
  - exact (calls_run _ _).
  - exists new. exact (conj Hnew Hnd).
Defined.
