(* ===== verification/NodeTick.v ===== *)
(** * What a tick of the node's queue starts

    The loop of [crates/k2-node/src/fairq.rs] ([tick], with [account] and
    [start_queued]) against the rules of [QueueSim]: the decision is made on a
    snapshot, and carried out on the node.  What a tick starts fits beside
    what the queue has on its books. *)

From S2P Require Import Prelude Share Tiers Refusal Queue QueueSim JobFrames Ledger QueueStore FairQ NodeQueue.

(** ** What the parts of a tick leave alone *)

(** Nothing starts or ends, no session changes, and no gate opens. *)
Record keeps_at (n n' : Node) : Prop := {
  kp_jobs : nd_jobs n' = nd_jobs n;
  kp_runs : fq_runs (nd_fairq n') = fq_runs (nd_fairq n);
  kp_spawned : nd_spawned n' = nd_spawned n;
  kp_session : ∀ s, hb_connected (te_hub (tenant n' s)) = hb_connected (te_hub (tenant n s));
  kp_gates : fq_gates (nd_fairq n') ⊆ fq_gates (nd_fairq n);
}.
Definition keeps {A} (m : NodeM A) : Prop := ∀ n, keeps_at n (m n).2.

#[export] Instance keeps_at_preorder : PreOrder keeps_at.
Proof.
  split; [done|]. intros n1 n2 n3 [H1 H2 H3 H4 H5] [K1 K2 K3 K4 K5].
  split; [congruence..|intros s; by rewrite K4|by etrans].
Qed.

Lemma keeps_ret {A} (x : A) : keeps (n_ret x).
Proof. intros n. reflexivity. Qed.
Lemma keeps_bind {A B} (m : NodeM A) (k : A → NodeM B) : keeps m → (∀ x, keeps (k x)) → keeps (let& x := m in k x).
Proof.
  intros Hm Hk n. unfold n_bind. specialize (Hm n). destruct (m n) as [x n1]. etrans; [exact Hm|apply Hk].
Qed.
Lemma keeps_read {A} (f : Node → A) : keeps (λ n, (f n, n)).
Proof. intros n. reflexivity. Qed.
Lemma keeps_ledger {A} slot (m : LedgerM A) : keeps (on_ledger slot m).
Proof.
  intros n. unfold on_ledger. destruct (m _) as [r l]. split; try done. intros s. cbn.
  unfold set_ledger. rewrite tenant_set. by case_decide; [subst|].
Qed.
Lemma keeps_send slot f : keeps (send slot f).
Proof.
  intros n. unfold send. destruct (_ =? 0); [reflexivity|]. split; try done. intros s. cbn.
  unfold set_hub. rewrite tenant_set. by case_decide; [subst|].
Qed.
Lemma keeps_fairq f : (∀ q, fq_runs (f q) = fq_runs q ∧ fq_gates (f q) ⊆ fq_gates q) → keeps (with_fairq f).
Proof. intros H n. destruct (H (nd_fairq n)). by split. Qed.
Lemma keeps_kicked : keeps (with_fairq kicked).
Proof. by apply keeps_fairq. Qed.
Lemma keeps_forget k : keeps (with_fairq (forget k)).
Proof. apply keeps_fairq. intros q. split; [done|]. apply delete_subseteq. Qed.
Lemma keeps_rotation rot : keeps (with_fairq (keep_rotation rot)).
Proof. by apply keeps_fairq. Qed.
Create HintDb keeps.
#[export] Hint Resolve keeps_ret keeps_read keeps_ledger keeps_send keeps_kicked keeps_forget keeps_rotation : keeps.

Ltac keep_parts := repeat first
  [ progress (intros; cbv beta iota zeta)
  | solve [eauto 2 with keeps]
  | apply keeps_bind
  | case_match ].

(** ** The books *)

Definition sum_runs (f : RunMeta → Z) (runs : gmap Key RunMeta) : Z := sum_z (λ x, f x.2) (map_to_list runs).

Lemma sum_z_Permutation {A} (f : A → Z) l l' : l ≡ₚ l' → sum_z f l = sum_z f l'.
Proof. unfold sum_z. induction 1; cbn; lia. Qed.

Lemma sum_runs_insert f runs k m :
  (∀ k' m', runs !! k' = Some m' → 0 ≤ f m') → sum_runs f (<[k := m]> runs) ≤ f m + sum_runs f runs.
Proof.
  intros Hf. unfold sum_runs. rewrite <- insert_delete_eq.
  rewrite (sum_z_Permutation _ _ _ (map_to_list_insert _ k m (lookup_delete_eq runs k))).
  destruct (runs !! k) as [m'|] eqn:E.
  - rewrite <- (sum_z_Permutation _ _ _ (map_to_list_delete _ _ _ E)). specialize (Hf _ _ E). unfold sum_z. cbn. lia.
  - rewrite delete_id by done. unfold sum_z. cbn. lia.
Qed.

(** Numbers on the books are unsigned. *)
Definition books_ok (n : Node) : Prop := map_Forall (λ _ m, 0 ≤ rm_cpu m ∧ 0 ≤ rm_mem m) (fq_runs (nd_fairq n)).
(** Every job of the machine is on them. *)
Definition booked (n : Node) : Prop :=
  ∀ slot job j, nd_jobs n !! (slot, job) = Some j → is_Some (fq_runs (nd_fairq n) !! (slot, job, rj_generation j)).

Lemma keeps_booked n n' : keeps_at n n' → booked n → booked n'.
Proof. intros H Hb slot job j. rewrite (kp_jobs _ _ H), (kp_runs _ _ H). apply Hb. Qed.
Lemma keeps_books n n' : keeps_at n n' → books_ok n → books_ok n'.
Proof. intros H. unfold books_ok. by rewrite (kp_runs _ _ H). Qed.

Lemma booked_size n : booked n → (size (nd_jobs n) ≤ size (fq_runs (nd_fairq n)))%nat.
Proof.
  intros Hb. set (key := λ x : (Z * string) * RunningJob, (x.1.1, x.1.2, rj_generation x.2)).
  rewrite <- !length_map_to_list, <- (length_fmap key), <- (length_fmap fst (map_to_list (fq_runs _))).
  assert (NoDup (key <$> map_to_list (nd_jobs n))) as Hnd.
  { apply NoDup_fmap_2_strong; [|apply NoDup_map_to_list].
    intros [[s1 j1] x1] [[s2 j2] x2] H1%elem_of_map_to_list H2%elem_of_map_to_list E. cbn in E.
    injection E as -> -> _. rewrite H1 in H2. by injection H2 as ->. }
  apply submseteq_length, NoDup_submseteq; [done|].
  intros k ([[s j] x]&->&Hx%elem_of_map_to_list)%list_elem_of_fmap. destruct (Hb _ _ _ Hx) as [m Hm].
  apply list_elem_of_fmap. exists ((s, j, rj_generation x), m). split; [done|]. by apply elem_of_map_to_list.
Qed.

Section tick.
Context (cfg : Config) (scale : Z → Z → Z → Z) (cmd_hash : list string → string).
Context (unrun_receipt : Facts → string → Row → Result SignedReceipt string) (fa : Facts).

Lemma keeps_cancel_row slot j g reason detail : keeps (cancel_queued_row unrun_receipt fa slot j g reason detail).
Proof. unfold cancel_queued_row. keep_parts. Qed.
#[local] Hint Resolve keeps_cancel_row : keeps.
Lemma keeps_cancel_rows slot reason detail rows : keeps (cancel_rows unrun_receipt fa slot reason detail rows).
Proof. induction rows; cbn [cancel_rows]; keep_parts. Qed.
#[local] Hint Resolve keeps_cancel_rows : keeps.
Lemma keeps_queued_or_none slot : keeps (queued_or_none slot).
Proof. unfold queued_or_none. keep_parts. Qed.
#[local] Hint Resolve keeps_queued_or_none : keeps.
Lemma keeps_cancel_tenant slot reason : keeps (queue_cancel_tenant unrun_receipt fa slot reason).
Proof. unfold queue_cancel_tenant. keep_parts. Qed.
#[local] Hint Resolve keeps_cancel_tenant : keeps.
Lemma keeps_cancel_ended slots : keeps (cancel_ended unrun_receipt fa slots).
Proof. induction slots; cbn [cancel_ended]; keep_parts. Qed.
Lemma keeps_tenant_views slots : keeps (tenant_views slots).
Proof. induction slots; cbn [tenant_views]; keep_parts. Qed.
#[local] Hint Resolve keeps_cancel_ended keeps_tenant_views : keeps.
Lemma keeps_snapshot : keeps (node_snapshot cfg scale cmd_hash fa).
Proof. unfold node_snapshot. keep_parts. Qed.
Lemma keeps_tell slot r pos : keeps (tell_position fa slot r pos).
Proof. unfold tell_position. keep_parts. by apply keeps_fairq. Qed.
#[local] Hint Resolve keeps_snapshot keeps_tell : keeps.
Lemma keeps_tell_positions input d ok rows : keeps (tell_positions fa input d ok rows).
Proof. induction rows as [|[i [slot r]] rows IH]; cbn [tell_positions]; keep_parts. Qed.
#[local] Hint Resolve keeps_tell_positions : keeps.

(** *** [account] drops from the books what runs no more, and nothing else *)

Lemma charges_keep now day l q :
  let q' := fold_left (λ q x, charge cfg scale now day x.1 x.2 q) l q in fq_runs q' = fq_runs q ∧ fq_gates q' = fq_gates q.
Proof.
  revert q. induction l as [|x l IH]; intros q; cbn [fold_left]; [done|].
  destruct (IH (charge cfg scale now day x.1 x.2 q)) as [H1 H2]. by rewrite H1, H2.
Qed.
Lemma ends_drop day mono l q :
  let q' := fold_left (end_run day mono) l q in
  (∀ k, fq_runs q' !! k = if bool_decide (k ∈ l.*1) then None else fq_runs q !! k) ∧ fq_gates q' = fq_gates q.
Proof.
  revert q. induction l as [|[[[s j] g] m] l IH]; intros q; cbn [fold_left].
  { split; [|done]. intros k. by rewrite bool_decide_eq_false_2 by apply not_elem_of_nil. }
  cbv zeta. destruct (IH (end_run day mono q (s, j, g, m))) as [H1 H2]. split; [|exact H2].
  intros k. rewrite H1. cbn. case_bool_decide as Hk; [by rewrite bool_decide_eq_true_2 by (apply elem_of_cons; by right)|].
  destruct (decide (k = (s, j, g))) as [->|Hne].
  - rewrite lookup_delete_eq, bool_decide_eq_true_2; [done|apply elem_of_cons; by left].
  - rewrite lookup_delete_ne by done. rewrite bool_decide_eq_false_2; [done|]. intros [|]%elem_of_cons; done.
Qed.
Lemma persist_keep now day q : fq_runs (persist now day q) = fq_runs q ∧ fq_gates (persist now day q) = fq_gates q.
Proof. unfold persist. by destruct (fold_left flush_day _ _). Qed.

Lemma account_books live now mono q :
  let q' := account cfg scale live now mono q in
  (∀ k, fq_runs q' !! k = if bool_decide (k ∈ live) then accounted_at mono <$> fq_runs q !! k else None)
  ∧ fq_gates q' = fq_gates q.
Proof.
  unfold account. cbv zeta.
  set (q1 := set_jobs _ _ _ q). set (add := _ <$> List.filter _ _). set (ended := List.filter _ _).
  destruct (charges_keep now (day_of now) add q1) as [Hc1 Hc2]. set (q2 := fold_left _ add q1) in *.
  destruct (ends_drop (day_of now) mono ended q2) as [He1 He2]. set (q3 := fold_left _ ended q2) in *.
  assert (∀ b : bool, fq_runs (if b then persist now (day_of now) q3 else q3) = fq_runs q3
    ∧ fq_gates (if b then persist now (day_of now) q3 else q3) = fq_gates q3) as Hp.
  { intros []; [apply persist_keep|done]. }
  match goal with |- context [if ?b then _ else _] => destruct (Hp b) as [-> ->] end.
  split; [|by rewrite He2, Hc2]. intros k. rewrite He1, Hc1. unfold q1. cbn. rewrite lookup_fmap.
  assert (k ∈ ended.*1 ↔ is_Some (fq_runs q !! k) ∧ k ∉ live) as Hended.
  { unfold ended. rewrite list_elem_of_fmap. split.
    - intros ([k' m]&->&[Hin Hl]%elem_of_filter_bool). apply negb_true_iff, bool_decide_eq_false in Hl.
      apply list_elem_of_fmap in Hin as ([k'' m']&E&Hin%elem_of_map_to_list). injection E as -> ->. split; [by eexists|exact Hl].
    - intros [[m Hm] Hl]. exists (k, accounted_at mono m). split; [done|]. apply elem_of_filter_bool. split.
      + apply list_elem_of_fmap. exists (k, m). split; [done|]. by apply elem_of_map_to_list.
      + cbn. by rewrite bool_decide_eq_false_2. }
  destruct (fq_runs q !! k) as [m|] eqn:E; cbn; [|by repeat case_bool_decide].
  repeat case_bool_decide; try done; exfalso; naive_solver.
Qed.

(** *** Launching *)

Definition plan_cpu (p : Plan) : Z := default (default_cpu (queue_caps fa)) (jl_cpu_millis (pl_limits p)).
Definition plan_mem (p : Plan) : Z := default (default_mem (queue_caps fa)) (jl_mem_bytes (pl_limits p)).

(** The attempts [ok], launched in this order, from [n] to [n']. *)
Record launches (ok : list (Z * Assign)) (n n' : Node) : Prop := {
  la_spawned : nd_spawned n' = nd_spawned n ++ ok;
  la_size : (size (fq_runs (nd_fairq n')) ≤ size (fq_runs (nd_fairq n)) + length ok)%nat;
  la_cpu : books_ok n → sum_runs rm_cpu (fq_runs (nd_fairq n'))
    ≤ sum_runs rm_cpu (fq_runs (nd_fairq n)) + sum_z (λ x, plan_cpu (as_plan x.2)) ok;
  la_mem : books_ok n → sum_runs rm_mem (fq_runs (nd_fairq n'))
    ≤ sum_runs rm_mem (fq_runs (nd_fairq n)) + sum_z (λ x, plan_mem (as_plan x.2)) ok;
  la_books : books_ok n → Forall (λ x, 0 ≤ plan_cpu (as_plan x.2) ∧ 0 ≤ plan_mem (as_plan x.2)) ok → books_ok n';
  la_booked : booked n → booked n';
}.

Lemma launches_keep n n' : keeps_at n n' → launches [] n n'.
Proof.
  intros H. split; rewrite ?(kp_runs _ _ H); unfold sum_z; cbn; try lia.
  - by rewrite (kp_spawned _ _ H), app_nil_r.
  - intros Hb _. by apply (keeps_books n n').
  - by apply keeps_booked.
Qed.
Lemma launches_app ok1 ok2 n1 n2 n3 :
  Forall (λ x, 0 ≤ plan_cpu (as_plan x.2) ∧ 0 ≤ plan_mem (as_plan x.2)) ok1 →
  launches ok1 n1 n2 → launches ok2 n2 n3 → launches (ok1 ++ ok2) n1 n3.
Proof.
  intros Hok [A1 A2 A3 A4 A5 A6] [B1 B2 B3 B4 B5 B6]. split.
  - by rewrite B1, A1, app_assoc.
  - rewrite length_app. lia.
  - intros H. rewrite sum_z_app. specialize (A3 H). specialize (B3 (A5 H Hok)). lia.
  - intros H. rewrite sum_z_app. specialize (A4 H). specialize (B4 (A5 H Hok)). lia.
  - intros H [_ H2]%Forall_app. by apply B5; [apply A5|].
  - intros H. by apply B6, A6.
Qed.

Lemma launch_books slot a n : launches [(slot, a)] n (launch cmd_hash fa slot a n).2.
Proof.
  set (m := run_meta cmd_hash (fq_store (nd_fairq n)) slot (as_plan a) (fa_now fa) (fa_mono fa) (queue_caps fa)).
  assert (fq_runs (nd_fairq (launch cmd_hash fa slot a n).2) = <[fence_key slot a := m]> (fq_runs (nd_fairq n))) as Hr by done.
  split; rewrite ?Hr; unfold sum_z; cbn [foldr length as_plan snd].
  - done.
  - rewrite <- !size_dom, dom_insert. pose proof (size_union_alt {[fence_key slot a]} (dom (fq_runs (nd_fairq n)))) as H.
    rewrite size_singleton in H. pose proof (subseteq_size (dom (fq_runs (nd_fairq n)) ∖ {[fence_key slot a]}) (dom (fq_runs (nd_fairq n)))).
    set_solver by lia.
  - intros Hb. etrans; [apply sum_runs_insert; intros k m' Hm; apply (Hb k m' Hm)|]. change (plan_cpu (as_plan a)) with (rm_cpu m). lia.
  - intros Hb. etrans; [apply sum_runs_insert; intros k m' Hm; apply (Hb k m' Hm)|]. change (plan_mem (as_plan a)) with (rm_mem m). lia.
  - intros Hb [Hp _]%Forall_cons. unfold books_ok. rewrite Hr. by apply map_Forall_insert_2.
  - intros Hb s job j. cbn [launch]. rewrite Hr.
    change (nd_jobs (launch cmd_hash fa slot a n).2) with
      (<[(slot, fe_job_id (as_fence a)) := job_of_plan (as_plan a) (fe_generation (as_fence a)) (nd_job_seq n)
          (free_port_block (jobs_list n))]> (nd_jobs n)).
    destruct (decide ((s, job) = (slot, fe_job_id (as_fence a)))) as [E|Hne].
    + injection E as -> ->. rewrite lookup_insert_eq. intros [= <-]. unfold fence_key. cbn. by rewrite lookup_insert_eq.
    + rewrite lookup_insert_ne by done. intros Hj. destruct (Hb _ _ _ Hj) as [m' Hm].
      rewrite lookup_insert_ne; [by eexists|]. unfold fence_key. congruence.
Qed.

Lemma start_queued_books slot r n :
  launches (if (start_queued cmd_hash unrun_receipt fa slot r n).1 then [(slot, assign_of_row r)] else []) n
    (start_queued cmd_hash unrun_receipt fa slot r n).2.
Proof.
  unfold start_queued. cbv zeta. match goal with |- context [match ?x with Some _ => _ | None => _ end] => destruct x as [[code detail]|] end.
  - pose proof (keeps_cancel_row slot (rw_job_id r) (rw_generation r) code (Some detail) n) as H.
    unfold n_bind. destruct (cancel_queued_row _ _ _ _ _ _ _ n) as [b n']. by apply launches_keep.
  - pose proof (keeps_ledger slot (dequeue (rw_job_id r) (rw_generation r) (fa_boot fa)) n) as H.
    unfold n_bind at 1 3. destruct (on_ledger _ _ n) as [d n1]. cbn [fst snd] in H.
    destruct d as [[]|]; try (by apply launches_keep). unfold n_bind.
    pose proof (launch_books slot (assign_of_row r) n1) as Hl. destruct (launch _ _ _ _ n1) as [[] n2]. cbn [fst snd n_ret] in *.
    apply (launches_app [] [(slot, assign_of_row r)] n n1 n2); [constructor|by apply launches_keep|exact Hl].
Qed.

(** What the rows [ok] of a snapshot launch. *)
Definition launched_rows (rows : list (Z * Row)) (ok : list nat) : list (Z * Assign) :=
  omap (λ i, (λ x, (x.1, assign_of_row x.2)) <$> rows !! i) ok.
Definition row_ok (x : Z * Row) : Prop := 0 ≤ plan_cpu (rw_plan x.2) ∧ 0 ≤ plan_mem (rw_plan x.2).

Lemma launched_ok rows ok : Forall row_ok rows → Forall (λ x, 0 ≤ plan_cpu (as_plan x.2) ∧ 0 ≤ plan_mem (as_plan x.2)) (launched_rows rows ok).
Proof.
  intros Hr. apply Forall_forall. intros x (i&_&Hx)%list_elem_of_omap. destruct (rows !! i) as [y|] eqn:E; [|done].
  injection Hx as <-. by apply (Forall_lookup_1 _ _ _ _ Hr E).
Qed.

Lemma start_all_books rows start n :
  Forall row_ok rows →
  let '(ok, n') := start_all cmd_hash unrun_receipt fa rows start n in
  ok `sublist_of` start ∧ launches (launched_rows rows ok) n n'.
Proof.
  intros Hr. revert n. induction start as [|i start IH]; intros n; cbn [start_all].
  { cbn. split; [done|]. by apply launches_keep. }
  unfold n_bind. set (b := match rows !! i with Some _ => _ | None => _ end).
  assert (launches (launched_rows rows (if (b n).1 then [i] else [])) n (b n).2) as Hb.
  { unfold b. destruct (rows !! i) as [[slot r]|] eqn:E; [|by apply launches_keep].
    pose proof (start_queued_books slot r n) as H. destruct (start_queued _ _ _ _ _ n) as [[] n1]; cbn in *; [|done].
    by rewrite E. }
  clearbody b. destruct (b n) as [ok n1]. cbn [fst snd] in Hb. specialize (IH n1).
  destruct (start_all _ _ _ _ _ n1) as [rest n2]. destruct IH as [Hsub Hl]. split.
  - destruct ok; [by apply sublist_skip|by apply sublist_cons].
  - pose proof (launches_app _ _ _ _ _ (launched_ok rows _ Hr) Hb Hl) as H. unfold launched_rows in H. rewrite <- omap_app in H. by destruct ok.
Qed.

(** *** The snapshot *)

Lemma snap_aligned ts caps owner now q i slot r :
  let snap := snapshot cfg scale cmd_hash ts caps owner now q in
  sn_rows snap !! i = Some (slot, r) →
  ∃ t, t ∈ ts ∧ tv_slot t = slot ∧ r ∈ tv_rows t
    ∧ in_queued (sn_input snap) !! i = Some (snap_queued cmd_hash q slot (tv_epoch t) r).
Proof.
  cbn. revert i. induction ts as [|t ts IH]; intros i; cbn [mbind list_bind]; [done|].
  intros [H|[Hlen H]]%lookup_app_Some.
  - rewrite list_lookup_fmap in H. destruct (tv_rows t !! i) as [r'|] eqn:E; [|done]. injection H as <- <-.
    exists t. split_and!; [apply elem_of_cons; by left|done|by eapply list_elem_of_lookup_2|].
    apply lookup_app_l_Some. by rewrite list_lookup_fmap, E.
  - destruct (IH _ H) as (t'&Ht&?&?&Hq). exists t'. split_and!; [apply elem_of_cons; by right|done..|].
    apply lookup_app_Some. right. rewrite !length_fmap in *. split; [exact Hlen|exact Hq].
Qed.
Lemma snap_length ts caps owner now q :
  let snap := snapshot cfg scale cmd_hash ts caps owner now q in length (in_queued (sn_input snap)) = length (sn_rows snap).
Proof. cbn. induction ts as [|t ts IH]; cbn [mbind list_bind]; [done|]. by rewrite !length_app, !length_fmap, IH. Qed.

(** A server's view has its session's epoch. *)
Lemma views_epoch slots n t :
  t ∈ (tenant_views slots n).1 → tv_epoch t = hb_connected (te_hub (tenant n (tv_slot t))).
Proof.
  revert n. induction slots as [|slot slots IH]; intros n; cbn [tenant_views]; [by intros ?%elem_of_nil|].
  unfold n_bind. pose proof (keeps_queued_or_none slot n) as Hk. destruct (queued_or_none slot n) as [rows n1].
  specialize (IH n1). destruct (tenant_views slots n1) as [rest n2]. cbn in *.
  intros [->|Hin]%elem_of_cons; [done|]. by rewrite (IH Hin), (kp_session _ _ Hk).
Qed.

(** The node when a tick takes its snapshot, and the snapshot. *)
Definition tick_ready (n : Node) : Node :=
  (cancel_ended unrun_receipt fa (tenant_slots n) (with_fairq (account cfg scale (running_snaps n) (fa_now fa) (fa_mono fa)) n).2).2.
Definition tick_snap (n : Node) : Snapshot := (node_snapshot cfg scale cmd_hash fa (tick_ready n)).1.
Definition tick_at (n : Node) : Node := (node_snapshot cfg scale cmd_hash fa (tick_ready n)).2.

Lemma tick_snap_eq n :
  tick_snap n = snapshot cfg scale cmd_hash (tenant_views (tenant_slots (tick_ready n)) (tick_ready n)).1 (queue_caps fa)
    (owner_share fa) (fa_now fa) (nd_fairq (tick_at n)).
Proof. unfold tick_snap, tick_at, node_snapshot, n_bind. by destruct (tenant_views _ _). Qed.

(** Accounting, and the ends of shares, drop what runs no more from the books. *)
Lemma tick_at_keeps n :
  (∀ s, hb_connected (te_hub (tenant (tick_at n) s)) = hb_connected (te_hub (tenant n s)))
  ∧ (∀ s, hb_connected (te_hub (tenant (tick_ready n) s)) = hb_connected (te_hub (tenant n s)))
  ∧ fq_gates (nd_fairq (tick_at n)) ⊆ fq_gates (nd_fairq n)
  ∧ nd_spawned (tick_at n) = nd_spawned n
  ∧ (books_ok n → books_ok (tick_at n))
  ∧ (booked n → booked (tick_at n)).
Proof.
  set (acc := (with_fairq (account cfg scale (running_snaps n) (fa_now fa) (fa_mono fa)) n).2).
  assert (keeps_at acc (tick_ready n)) as Hr by apply keeps_cancel_ended.
  assert (keeps_at acc (tick_at n)) as Ha by (etrans; [exact Hr|apply keeps_snapshot]).
  destruct (account_books (running_snaps n) (fa_now fa) (fa_mono fa) (nd_fairq n)) as [Hruns Hgates].
  split_and!.
  - apply (kp_session _ _ Ha).
  - apply (kp_session _ _ Hr).
  - etrans; [apply (kp_gates _ _ Ha)|]. by unfold acc; cbn; rewrite Hgates.
  - apply (kp_spawned _ _ Ha).
  - intros Hb. apply (keeps_books _ _ Ha). intros k m Hm. unfold acc in Hm. cbn in Hm. rewrite Hruns in Hm.
    case_bool_decide; [|done]. apply fmap_Some in Hm as (m'&Hm'&->). pose proof (Hb k m' Hm').
    unfold accounted_at. by case_match.
  - intros Hb. apply (keeps_booked _ _ Ha). intros slot job j Hj. unfold acc in *. cbn in Hj. cbn. rewrite Hruns.
    rewrite bool_decide_eq_true_2; [by apply fmap_is_Some, Hb|].
    apply list_elem_of_fmap. exists ((slot, job), j). split; [done|]. by apply elem_of_map_to_list.
Qed.

(** A tick that starts something, in parts. *)
Lemma tick_parts n started n' :
  tick cfg scale cmd_hash unrun_receipt fa n = (Some started, n') → started ≠ [] →
  ∃ d n2, queue_decide (sn_input (tick_snap n)) = Some d
    ∧ start_all cmd_hash unrun_receipt fa (sn_rows (tick_snap n)) (dc_start d) (tick_at n) = (started, n2)
    ∧ keeps_at n2 n'.
Proof.
  unfold tick. unfold n_bind at 1. unfold n_bind at 1. cbn [with_fairq].
  unfold n_bind at 1. unfold n_bind at 1. cbv beta iota zeta.
  unfold tick_snap, tick_at, tick_ready. cbn [snd with_fairq].
  set (acc := mk_Node _ _ _ _ _ _). change (tenant_slots acc) with (tenant_slots n).
  destruct (cancel_ended unrun_receipt fa (tenant_slots n) acc) as [[] n0]. cbn [snd].
  unfold n_bind at 1. destruct (node_snapshot cfg scale cmd_hash fa n0) as [snap n1]. cbn [fst snd].
  case_bool_decide; [by intros [= <- <-]|]. destruct (queue_decide (sn_input snap)) as [d|]; [|done].
  unfold n_bind at 1. destruct (start_all _ _ _ _ _ n1) as [ok n2] eqn:Hst. intros E _. exists d, n2.
  match type of E with ?m n2 = _ => assert (keeps m) as Hk by keep_parts; specialize (Hk n2); rewrite E in Hk end.
  unfold n_bind in E. destruct (with_fairq _ n2) as [[] n3]. destruct (tell_positions _ _ _ _ _ n3) as [[] n4].
  injection E as <- <-. split_and!; done.
Qed.

Lemma length_omap_le {A B} (f : A → option B) l : (length (omap f l) ≤ length l)%nat.
Proof. induction l as [|x l IH]; cbn; [done|]. destruct (f x); cbn; lia. Qed.
Lemma sum_z_sublist {A} (f : A → Z) l l' : l `sublist_of` l' → (∀ x, x ∈ l' → 0 ≤ f x) → sum_z f l ≤ sum_z f l'.
Proof.
  unfold sum_z. induction 1 as [|x l l' Hs IH|x l l' Hs IH]; intros Hf; cbn; [lia|..].
  - specialize (IH ltac:(intros y Hy; apply Hf, elem_of_cons; by right)). lia.
  - specialize (IH ltac:(intros y Hy; apply Hf, elem_of_cons; by right)).
    specialize (Hf x ltac:(apply elem_of_cons; by left)). lia.
Qed.
Lemma sum_z_ext {A} (f g : A → Z) l : (∀ x, x ∈ l → f x = g x) → sum_z f l = sum_z g l.
Proof.
  unfold sum_z. induction l as [|x l IH]; intros H; cbn; [done|].
  rewrite (H x), IH; [done|intros y Hy; apply H, elem_of_cons; by right|apply elem_of_cons; by left].
Qed.

(** A snapshot's sums are those of the books. *)
Lemma snap_running_sum (f : Running → Z) (g : RunMeta → Z) ts caps owner now q :
  (∀ k m, f (snap_running now (k, m)) = g m) → (∀ x, f (snap_lingering x) = 0) →
  sum_z f (in_running (sn_input (snapshot cfg scale cmd_hash ts caps owner now q))) = sum_runs g (fq_runs q).
Proof.
  intros Hf Hl. cbn [snapshot sn_input in_running]. rewrite sum_z_app, !sum_z_fmap. unfold sum_runs.
  rewrite (sum_z_ext (λ x, f (snap_lingering x)) (λ _, 0)) by (intros; apply Hl).
  rewrite (sum_z_ext (λ x, f (snap_running now x)) (λ x, g x.2)) by (intros [k m] _; apply Hf).
  assert (∀ l : list (Z * string), sum_z (λ _, 0) l = 0) as -> by (intros l; unfold sum_z; induction l; cbn; lia). lia.
Qed.

(** A row of the snapshot and its entry in the queue are the same job. *)
Lemma snap_at n i slot r :
  sn_rows (tick_snap n) !! i = Some (slot, r) →
  ∃ e, e = hb_connected (te_hub (tenant n slot))
    ∧ at_ (sn_input (tick_snap n)) i = snap_queued cmd_hash (nd_fairq (tick_at n)) slot e r.
Proof.
  rewrite tick_snap_eq. intros H. destruct (snap_aligned _ _ _ _ _ _ _ _ H) as (t&Ht&Hs&_&Hq). exists (tv_epoch t). split.
  - rewrite (views_epoch _ _ _ Ht), Hs. apply tick_at_keeps.
  - unfold at_. by rewrite (list_lookup_total_correct _ _ _ Hq).
Qed.

Lemma snap_rows_sum n (f : Queued → Z) (g : Plan → Z) ok :
  (∀ slot e r, f (snap_queued cmd_hash (nd_fairq (tick_at n)) slot e r) = g (rw_plan r)) →
  Forall (λ i, (i < length (sn_rows (tick_snap n)))%nat) ok →
  sum_z (λ x, g (as_plan x.2)) (launched_rows (sn_rows (tick_snap n)) ok)
  = sum_z (λ i, f (at_ (sn_input (tick_snap n)) i)) ok.
Proof.
  intros Hf. unfold launched_rows. induction 1 as [|i ok Hi _ IH]; [done|]. cbn [omap list_omap].
  destruct (lookup_lt_is_Some_2 _ _ Hi) as [[slot r] E]. rewrite E. cbn [fmap option_fmap option_map fst snd].
  destruct (snap_at _ _ _ _ E) as (e&_&Hat). unfold sum_z in *. cbn [foldr as_plan assign_of_row snd]. rewrite IH, Hat, Hf. done.
Qed.

Lemma snap_rows_ok n : input_ok (sn_input (tick_snap n)) → Forall row_ok (sn_rows (tick_snap n)).
Proof.
  intros Hok. apply Forall_lookup. intros i [slot r] Hi. destruct (snap_at _ _ _ _ Hi) as (e&_&Hat).
  pose proof (io_cpu _ Hok i) as Hc. pose proof (io_mem _ Hok i) as Hm. rewrite Hat in Hc, Hm.
  rewrite tick_snap_eq in Hc, Hm. done.
Qed.

(** A tick that starts something carries out a decision on its snapshot. *)
Lemma tick_launches n started n' :
  input_ok (sn_input (tick_snap n)) →
  tick cfg scale cmd_hash unrun_receipt fa n = (Some started, n') → started ≠ [] →
  ∃ d, queue_decide (sn_input (tick_snap n)) = Some d ∧ dc_start d ≠ []
    ∧ started `sublist_of` dc_start d ∧ NoDup started
    ∧ (∀ i, i ∈ started → (i < length (sn_rows (tick_snap n)))%nat
         ∧ out_of_queue (sn_input (tick_snap n)) (at_ (sn_input (tick_snap n)) i) = None)
    ∧ launches (launched_rows (sn_rows (tick_snap n)) started) (tick_at n) n'.
Proof.
  intros Hok Ht Hne. destruct (tick_parts _ _ _ Ht Hne) as (d&n2&Hd&Hst&Hk).
  destruct (starts_in_queue _ _ Hok Hd) as [Hnd Hin].
  pose proof (start_all_books _ (dc_start d) (tick_at n) (snap_rows_ok n Hok)) as Hs.
  rewrite Hst in Hs. destruct Hs as [Hsub Hl]. exists d. split_and!; [done| |done| | |].
  - intros E. rewrite E in Hsub. by apply sublist_nil_r in Hsub.
  - by apply (sublist_NoDup _ _ Hnd).
  - intros i Hi. destruct (Hin i) as [Hlt Ho]; [by eapply elem_of_sublist|]. split; [|done].
    rewrite tick_snap_eq in Hlt |- *. by rewrite snap_length in Hlt.
  - rewrite <- (app_nil_r (launched_rows _ _)).
    apply (launches_app _ _ _ n2); [by apply launched_ok, snap_rows_ok|done|by apply launches_keep].
Qed.

Lemma started_sum n (f : Queued → Z) (g : Plan → Z) ok start :
  (∀ slot e r, f (snap_queued cmd_hash (nd_fairq (tick_at n)) slot e r) = g (rw_plan r)) →
  ok `sublist_of` start → Forall (λ i, (i < length (sn_rows (tick_snap n)))%nat) ok →
  (∀ i, 0 ≤ f (at_ (sn_input (tick_snap n)) i)) →
  sum_z (λ x, g (as_plan x.2)) (launched_rows (sn_rows (tick_snap n)) ok)
  ≤ sum_z (λ i, f (at_ (sn_input (tick_snap n)) i)) start.
Proof. intros Hf Hsub Hlt Hpos. rewrite (snap_rows_sum n f g ok Hf Hlt). by apply sum_z_sublist. Qed.

(** What the snapshot has of the books. *)
Lemma snap_books n :
  let input := sn_input (tick_snap n) in
  let runs := fq_runs (nd_fairq (tick_at n)) in
  in_caps input = queue_caps fa
  ∧ sum_z rn_cpu_millis (in_running input) = sum_runs rm_cpu runs
  ∧ sum_z rn_mem_bytes (in_running input) = sum_runs rm_mem runs
  ∧ (size runs ≤ length (in_running input))%nat.
Proof.
  rewrite tick_snap_eq. cbv zeta. split_and!; [done|apply snap_running_sum; [by intros [[??]?] ?|done]..|].
  cbn. rewrite length_app, !length_fmap, length_map_to_list. lia.
Qed.

(** Only a row gated with an open session's epoch is in the queue. *)
Lemma ready_gate input q slot e r :
  out_of_queue input (snap_queued cmd_hash q slot e r) = None →
  e ≠ 0 ∧ fq_gates q !! (slot, rw_job_id r, rw_generation r) = Some e.
Proof.
  unfold out_of_queue. destruct (tenant_of _ _); [|done]. cbn.
  destruct (e =? 0) eqn:E; [done|]. case_bool_decide; [|done]. intros _. split; [lia|done].
Qed.
End tick.

(** ** The theorem *)

(** (C3) A tick that starts jobs keeps the node within its caps: with what it
    started, the attempts on the queue's books are at most the parallel
    limit, and their CPU and memory within the node's; so are the jobs on the
    machine, if all were booked before, and then all are booked after.  It
    spawned exactly the rows it says, each once, and each is a row its server
    named in the very session that is open now. *)
Theorem tick_within_caps (cfg : Config) (scale : Z → Z → Z → Z) (cmd_hash : list string → string)
    (unrun_receipt : Facts → string → Row → Result SignedReceipt string) (fa : Facts) (n n' : Node) (started : list nat) :
  let snap := tick_snap cfg scale cmd_hash unrun_receipt fa n in
  let caps := queue_caps fa in
  let runs := fq_runs (nd_fairq n') in
  input_ok (sn_input snap) → books_ok n →
  tick cfg scale cmd_hash unrun_receipt fa n = (Some started, n') → started ≠ [] →
  Z.of_nat (size runs) ≤ cp_parallel_max caps
  ∧ sum_runs rm_cpu runs ≤ cp_cpu_millis caps
  ∧ sum_runs rm_mem runs ≤ cp_mem_bytes caps
  ∧ (booked n → booked n' ∧ Z.of_nat (size (nd_jobs n')) ≤ cp_parallel_max caps)
  ∧ NoDup started
  ∧ nd_spawned n' = nd_spawned n ++ launched_rows (sn_rows snap) started
  ∧ ∀ i, i ∈ started → ∃ slot r, sn_rows snap !! i = Some (slot, r)
      ∧ let epoch := hb_connected (te_hub (tenant n slot)) in
        epoch ≠ 0 ∧ fq_gates (nd_fairq n) !! (slot, rw_job_id r, rw_generation r) = Some epoch.
Proof.
  intros snap caps runs Hok Hbooks Ht Hne.
  destruct (tick_launches _ _ _ _ _ _ _ _ Hok Ht Hne) as (d&Hd&Hne'&Hsub&Hnd&Hin&Hl). fold snap in Hd, Hin, Hl.
  destruct (tick_at_keeps cfg scale cmd_hash unrun_receipt fa n) as (_&_&Hgates&Hsp&Hb&Hbk). specialize (Hb Hbooks).
  destruct (starts_capacity _ _ Hok Hd Hne') as (Hpar&Hcpu&Hmem).
  assert (Forall (λ i, (i < length (sn_rows snap))%nat) started) as Hlt by (apply Forall_forall; intros i Hi; by apply Hin).
  pose proof (snap_books cfg scale cmd_hash unrun_receipt fa n) as (Hcaps&Hrc&Hrm&Hlen). fold snap in Hcaps, Hrc, Hrm, Hlen.
  rewrite Hcaps in Hpar, Hcpu, Hmem. fold caps in Hpar, Hcpu, Hmem. rewrite Hrc in Hcpu. rewrite Hrm in Hmem.
  assert (Z.of_nat (size runs) ≤ cp_parallel_max caps) as Hsize.
  { pose proof (la_size _ _ _ _ Hl) as Hs. fold runs in Hs. pose proof (sublist_length _ _ Hsub).
    assert (length (launched_rows (sn_rows snap) started) ≤ length started)%nat by apply length_omap_le. lia. }
  split; [done|]. split; [|split; [|split; [|split; [done|split]]]].
  - pose proof (la_cpu _ _ _ _ Hl Hb) as H. fold runs in H.
    assert (∀ slot e r, cpu_of (sn_input snap) (snap_queued cmd_hash (nd_fairq (tick_at cfg scale cmd_hash unrun_receipt fa n)) slot e r)
      = plan_cpu fa (rw_plan r)) as Hf by (intros; unfold cpu_of; by rewrite Hcaps).
    pose proof (started_sum _ _ _ _ _ n _ _ _ _ Hf Hsub Hlt (io_cpu _ Hok)) as Hs. fold snap in Hs. lia.
  - pose proof (la_mem _ _ _ _ Hl Hb) as H. fold runs in H.
    assert (∀ slot e r, mem_of (sn_input snap) (snap_queued cmd_hash (nd_fairq (tick_at cfg scale cmd_hash unrun_receipt fa n)) slot e r)
      = plan_mem fa (rw_plan r)) as Hf by (intros; unfold mem_of; by rewrite Hcaps).
    pose proof (started_sum _ _ _ _ _ n _ _ _ _ Hf Hsub Hlt (io_mem _ Hok)) as Hs. fold snap in Hs. lia.
  - intros Hbo. assert (booked n') as Hbo' by (by apply (la_booked _ _ _ _ Hl), Hbk). split; [done|].
    pose proof (booked_size _ Hbo'). fold runs in H. lia.
  - by rewrite (la_spawned _ _ _ _ Hl), Hsp.
  - intros i Hi. destruct (Hin i Hi) as [Hi' Ho]. destruct (lookup_lt_is_Some_2 _ _ Hi') as [[slot r] E].
    exists slot, r. split; [done|]. destruct (snap_at _ _ _ _ _ _ _ _ _ E) as (e&He&Hat). fold snap in Hat. rewrite Hat in Ho.
    rewrite <- He. destruct (ready_gate _ _ _ _ _ _ Ho) as [? Hg]. split; [done|]. by eapply lookup_weaken.
Qed.

Lemma books_ok_none n : fq_runs (nd_fairq n) = ∅ → books_ok n.
Proof. unfold books_ok. intros ->. apply map_Forall_empty. Qed.
Lemma booked_none n : nd_jobs n = ∅ → booked n.
Proof. intros E slot job j. by rewrite E, lookup_empty. Qed.
Lemma pair_eq {A B} (p : A * B) x : p.1 = x → p = (x, p.2).
Proof. by destruct p; cbn; intros ->. Qed.

Lemma tick_within_caps_witness :
  (tick Config_default ex_scale ex_hash ex_unrun ex_facts ex_waiting).1 = Some [0; 1; 2]%nat
  ∧ booked ex_started ∧ Z.of_nat (size (nd_jobs ex_started)) ≤ 3.
Proof.
  assert ((tick Config_default ex_scale ex_hash ex_unrun ex_facts ex_waiting).1 = Some [0; 1; 2]%nat) as E
    by (vm_compute; reflexivity).
  split; [exact E|].
  destruct (tick_within_caps Config_default ex_scale ex_hash ex_unrun ex_facts ex_waiting ex_started [0; 1; 2]%nat) as (_&_&_&Hb&_).
  - apply input_okb_ok. vm_compute. reflexivity.
  - apply books_ok_none. vm_compute. reflexivity.
  - exact (pair_eq _ _ E).
  - congruence.
  - destruct Hb as [Hb Hs]; [apply booked_none; vm_compute; reflexivity|]. exact (conj Hb Hs).
Defined.
