(* ===== verification/NodeFrames.v ===== *)
(** * What the node's queue answers a server

    [on_assign] and [queue_attach] of [crates/k2-node/src/node/assign.rs],
    whole: an [assign] the node knows changes nothing while its ledger can be
    read, and an attach leaves in the queue what the server still lists. *)

From S2P Require Import Prelude Share Tiers Refusal Queue QueueSim JobFrames Ledger QueueStore FairQ NodeQueue NodeTick.

(** The ledger's next statements go through. *)
Definition calm (n : Node) (slot : Z) : Prop := Forall (eq None) (db_faults (ledger_of n slot)).

(** The session of [slot] takes a frame now. *)
Definition takes_frame (n : Node) (slot : Z) : bool :=
  negb (hb_connected (te_hub (tenant n slot)) =? 0) && default true (head (hb_takes (te_hub (tenant n slot)))).

(** Nothing but the frame [f], to [slot], when its session takes it. *)
Record only_sends (slot : Z) (f : StateUpdate) (n n' : Node) : Prop := {
  os_jobs : nd_jobs n' = nd_jobs n;
  os_fairq : nd_fairq n' = nd_fairq n;
  os_spawned : nd_spawned n' = nd_spawned n;
  os_ends : nd_ends n' = nd_ends n;
  os_rows : ∀ s, db_rows (ledger_of n' s) = db_rows (ledger_of n s);
  os_sent : ∀ s, hb_sent (te_hub (tenant n' s))
    = hb_sent (te_hub (tenant n s)) ++ (if decide (s = slot) then (if takes_frame n slot then [f] else []) else []);
}.

Lemma send_only slot f n : only_sends slot f n (send slot f n).2.
Proof.
  pose proof (quiet_send slot f n) as [Hr _]. unfold send in *.
  destruct (hb_connected (te_hub (tenant n slot)) =? 0) eqn:E; cbn [negb andb snd] in *.
  - split; try done. intros s. unfold takes_frame. rewrite E. cbn [negb andb]. case_decide; by rewrite app_nil_r.
  - split; try done. intros s. unfold set_hub. rewrite tenant_set. case_decide as Hs; [subst s|by rewrite app_nil_r].
    unfold takes_frame. rewrite E. cbn [te_hub hb_sent negb andb]. destruct (default true _); [done|]. by rewrite app_nil_r.
Qed.

(** A query that goes through, on the node. *)
Definition after_query (n : Node) (slot : Z) : Node :=
  set_ledger slot (mk_Ledger (db_rows (ledger_of n slot)) (tail (db_faults (ledger_of n slot)))) n.
Lemma calm_query {A} (f : list JobRow → A) n slot :
  calm n slot → on_ledger slot (select f) n = (Ok (f (db_rows (ledger_of n slot))), after_query n slot).
Proof.
  unfold calm, on_ledger, select, statement, after_query, ledger_of.
  destruct (db_faults (te_ledger (tenant n slot))) as [|o fs]; [done|]. by intros [<- _]%Forall_cons.
Qed.
Lemma after_query_ledger n slot s : db_rows (ledger_of (after_query n slot) s) = db_rows (ledger_of n s).
Proof. unfold after_query. rewrite ledger_set_ledger. by case_decide; [subst|]. Qed.
Lemma after_query_calm n slot : calm n slot → calm (after_query n slot) slot.
Proof.
  unfold calm, after_query. rewrite ledger_set_ledger, decide_True by done. cbn. intros Hc. by destruct Hc.
Qed.
Lemma after_query_hub n slot s : te_hub (tenant (after_query n slot) s) = te_hub (tenant n s).
Proof. unfold after_query, set_ledger. rewrite tenant_set. by case_decide; [subst|]. Qed.
Lemma after_query_sends n slot f n' : only_sends slot f (after_query n slot) n' → only_sends slot f n n'.
Proof.
  intros [H1 H2 H3 H4 H5 H6]. split; [done..| |].
  - intros s. by rewrite H5, after_query_ledger.
  - intros s. rewrite H6. unfold takes_frame. by rewrite !after_query_hub.
Qed.

(** ** An [assign] the node knows *)

(** The row that stands for attempt [gen] of [job]: the attempt's own, or
    else the job's newest, if newer. *)
Definition stands_for (rows : list JobRow) (job : string) (gen : Z) (r : JobRow) : Prop :=
  r ∈ rows ∧ rf_job_id (jr_fixed r) = job ∧ gen ≤ rf_generation (jr_fixed r)
  ∧ (rf_generation (jr_fixed r) ≠ gen →
     row_at rows (job, gen) = None
     ∧ ∀ r', r' ∈ rows → rf_job_id (jr_fixed r') = job → rf_generation (jr_fixed r') ≤ rf_generation (jr_fixed r)).

Lemma latest_newest rows job r :
  min_by generation_ge (List.filter (λ r, (rf_job_id (jr_fixed r) =? job)%string) rows) = Some r →
  r ∈ rows ∧ rf_job_id (jr_fixed r) = job
  ∧ ∀ r', r' ∈ rows → rf_job_id (jr_fixed r') = job → rf_generation (jr_fixed r') ≤ rf_generation (jr_fixed r).
Proof.
  intros [Hin Hmin]%min_by_Some; [|intros x y; unfold generation_ge; lia|intros x y z; unfold generation_ge; lia].
  apply elem_of_filter_bool in Hin as [Hin Hj]. apply String.eqb_eq in Hj. split_and!; [done..|].
  intros r' Hr' Hj'. specialize (Hmin r'). unfold generation_ge in Hmin. apply Z.leb_le, Hmin.
  apply elem_of_filter_bool. split; [done|]. by apply String.eqb_eq.
Qed.

Lemma known_row_found n slot job gen :
  calm n slot →
  (∃ r, r ∈ db_rows (ledger_of n slot) ∧ rf_job_id (jr_fixed r) = job ∧ gen ≤ rf_generation (jr_fixed r)) →
  ∃ r n1, known_row slot job gen n = (Some (row_of r), n1)
    ∧ stands_for (db_rows (ledger_of n slot)) job gen r
    ∧ (n1 = after_query n slot ∨ n1 = after_query (after_query n slot) slot).
Proof.
  intros Hc (r0&Hr0&Hj0&Hg0). unfold known_row, get. unfold n_bind at 1. rewrite calm_query by done.
  destruct (List.find (row_is job gen) (db_rows (ledger_of n slot))) as [r|] eqn:E; cbn [fmap option_fmap option_map].
  - exists r, (after_query n slot). split; [done|]. split; [|by left].
    change (row_at (db_rows (ledger_of n slot)) (job, gen) = Some r) in E. apply row_at_Some in E as [Hin Hk].
    injection Hk as <- <-. split_and!; [done|done|lia|done].
  - unfold latest, n_bind. rewrite calm_query by by apply after_query_calm. rewrite after_query_ledger.
    set (same := List.filter _ _).
    destruct (min_by_is_Some generation_ge) with (l := same) as [r Hr].
    { intros x y. unfold generation_ge. lia. }
    { intros x y z. unfold generation_ge. lia. }
    { intros Hnil. assert (r0 ∈ same) as H; [|by rewrite Hnil in H; apply elem_of_nil in H].
      apply elem_of_filter_bool. split; [done|]. by apply String.eqb_eq. }
    rewrite Hr. cbn [fmap option_fmap option_map]. destruct (latest_newest _ _ _ Hr) as (Hin&Hj&Hnew).
    change (row_at (db_rows (ledger_of n slot)) (job, gen) = None) in E.
    assert (gen < rf_generation (jr_fixed r)) as Hlt.
    { specialize (Hnew r0 Hr0 Hj0). apply row_at_None in E. destruct (decide (gen = rf_generation (jr_fixed r))) as [->|]; [|lia].
      exfalso. apply E. rewrite <- Hj. by apply (list_elem_of_fmap_2 key_of). }
    change (rw_generation (row_of r)) with (rf_generation (jr_fixed r)). rewrite (proj2 (Z.ltb_lt _ _) Hlt).
    exists r, (after_query (after_query n slot) slot). split; [done|]. split; [|by right].
    split_and!; [done|done|lia|]. intros _. split; [done|]. intros r' Hr' Hj'. by apply Hnew.
Qed.

(** An [assign] as this node may take it. *)
Definition well_formed (digest : Plan → option string) (n : Node) (slot : Z) (a : Assign) : bool :=
  job_id_ok a && project_key_ok a && consistent digest a && (pl_node_id (as_plan a) =? te_node_id (tenant n slot))%string.

(** *** An attempt that has a row *)

(** Takes nothing in: no row is written and nothing is launched. *)
Record inert {A} (n : Node) (r : option A * Node) : Prop := {
  in_none : r.1 = None;
  in_rows : ∀ s, db_rows (ledger_of r.2 s) = db_rows (ledger_of n s);
  in_spawned : nd_spawned r.2 = nd_spawned n;
}.
Section known.
Context (slot : Z) (k : string * Z).
Definition untaken {A} (m : NodeM (option A)) : Prop :=
  ∀ n, is_Some (row_at (db_rows (ledger_of n slot)) k) → inert n (m n).

Lemma untaken_none {A} : untaken (n_ret (None : option A)).
Proof. by intros n Hk. Qed.
Lemma untaken_bind {A B} (m : NodeM A) (g : A → NodeM (option B)) : quiet m → (∀ x, untaken (g x)) → untaken (let& x := m in g x).
Proof.
  intros Hm Hg n Hk. unfold n_bind. destruct (Hm n) as [Hr Hs]. destruct (m n) as [x n1]. cbn [snd] in *.
  destruct (Hg x n1) as [H1 H2 H3]; [by rewrite Hr|]. split; [done|intros s; by rewrite H2|congruence].
Qed.
(** A row of an attempt that has one isn't written. *)
Lemma untaken_insert {A} mk (won : NodeM (option A)) (lost : string → NodeM (option A)) :
  (∀ id, rf_rowid (jr_fixed (mk id)) = id) → (∀ a b, key_of (mk a) = key_of (mk b)) → key_of (mk 0) = k →
  (∀ e, untaken (lost e)) →
  untaken (let& r := on_ledger slot (insert_row mk) in match r with Ok _ => won | Err e => lost e end).
Proof.
  intros Hid Hkey Hmk Hl n Hk. unfold n_bind, on_ledger. change (te_ledger (tenant n slot)) with (ledger_of n slot).
  assert (∃ e fs, insert_row mk (ledger_of n slot) = (Err e, mk_Ledger (db_rows (ledger_of n slot)) fs)) as (e&fs&->).
  { unfold insert_row. match goal with |- context [statement ?f ?db] => destruct (statement_cases f db) as [(x&rows&Hf&_)|[e ->]] end;
      [|by eexists _, _]. exfalso. cbv zeta in Hf. destruct (existsb _ _) eqn:Hex; [done|]. rewrite existsb_false in Hex.
    destruct Hk as [r Hr]. apply row_at_Some in Hr as [Hin Hk']. specialize (Hex r Hin).
    apply not_true_iff_false in Hex. apply Hex.
    apply (row_is_key (key_of (mk (next_rowid (db_rows (ledger_of n slot)))))). rewrite Hk', <- Hmk. apply Hkey. }
  destruct (Hl e (set_ledger slot (mk_Ledger (db_rows (ledger_of n slot)) fs) n)) as [H1 H2 H3].
  - rewrite ledger_set_ledger, decide_True by done. exact Hk.
  - split; [done| |done]. intros s. rewrite H2, ledger_set_ledger. by case_decide; [subst|].
Qed.
End known.

Lemma quiet_queued s : quiet (on_ledger s queued).
Proof. apply quiet_query. Qed.
Lemma quiet_refusal fa slot a : quiet (queue_refusal fa slot a).
Proof.
  intros n. unfold queue_refusal. repeat case_match; try done;
    match goal with H : on_ledger _ queued _ = _ |- _ => pose proof (quiet_queued slot n) as Hs; by rewrite H in Hs end.
Qed.
Lemma quiet_known_row slot job gen : quiet (known_row slot job gen).
Proof.
  intros n. unfold known_row, n_bind. pose proof (quiet_query slot (λ rows, row_of <$> List.find (row_is job gen) rows) n) as [H1 H2].
  fold (get job gen) in H1, H2. destruct (on_ledger slot (get job gen) n) as [r n1]. cbn [snd] in *.
  assert (quiet (on_ledger slot (latest job))) as Hl by apply quiet_query. specialize (Hl n1) as [H3 H4].
  destruct r as [[r|]|e]; [done|..]; destruct (on_ledger slot (latest job) n1) as [l n2]; cbn [n_ret snd] in *;
    (split; [intros s; by rewrite H3|congruence]).
Qed.
Lemma quiet_others_waiting slot : quiet (others_waiting slot).
Proof.
  intros n. unfold others_waiting. generalize (fst <$> bt_entries (nd_tenants n)) as l. intros l.
  match goal with |- context [fold_left ?f _ _] => set (look := f) end.
  assert (∀ b n', (∀ s, db_rows (ledger_of (fold_left look l (b, n')).2 s) = db_rows (ledger_of n' s))
    ∧ nd_spawned (fold_left look l (b, n')).2 = nd_spawned n') as H; [|apply H].
  induction l as [|s l IH]; intros b n'; [done|]. cbn [fold_left]. unfold look at 2 4.
  destruct (b || (s =? slot)); [apply IH|]. destruct (quiet_queued s n') as [H1 H2].
  destruct (on_ledger s queued n') as [rows n2]. cbn [snd] in *.
  match goal with |- context [fold_left look l (?b2, n2)] => destruct (IH b2 n2) as [H3 H4] end.
  split; [intros s'; by rewrite H3|congruence].
Qed.

Lemma untaken_assign cmd_hash digest fa slot a :
  untaken slot (fe_job_id (as_fence a), fe_generation (as_fence a)) (on_assign cmd_hash digest fa slot a).
Proof.
  set (k := (fe_job_id (as_fence a), fe_generation (as_fence a))).
  assert (∀ f, untaken slot k (let& _ := send slot f in n_ret (None : option (string * Z)))) as Htell.
  { intros f. apply untaken_bind; [apply quiet_send|intros b; apply untaken_none]. }
  assert (untaken slot k (assign_solo cmd_hash fa slot a)) as Hsolo.
  { unfold assign_solo. cbv zeta. apply untaken_bind; [by intros n|intros [r|]; [apply Htell|]].
    apply untaken_bind; [by intros n|intros [c|]; [apply Htell|]]. by apply untaken_insert. }
  assert (untaken slot k (enqueue fa slot a)) as Hqueue.
  { unfold enqueue. cbv zeta. apply untaken_bind; [apply quiet_refusal|intros [[code msg]|]; [apply Htell|]].
    by apply untaken_insert. }
  unfold on_assign. cbv zeta.
  destruct (negb _); [apply Htell|]. destruct (negb _); [apply Htell|]. destruct (negb _); [apply Htell|].
  apply untaken_bind; [by intros n|intros id]. destruct (negb _); [apply Htell|].
  apply untaken_bind; [apply quiet_known_row|intros [r|]; [apply Htell|]]. destruct (fa_stopping fa); [apply Htell|].
  apply untaken_bind; [by intros n|intros t]. destruct (if gets_secrets _ then _ else _) as [[code detail]|]; [apply Htell|].
  apply untaken_bind; [by intros n|intros q]. destruct (_ || shared q); [|done].
  destruct (_ <=? _); [done|]. destruct (negb _); [apply Htell|].
  apply untaken_bind; [apply quiet_others_waiting|intros [|]; [apply Htell|done]].
Qed.

(** (C23) No blind replay.  Whatever ledger statements fail, an [assign] of an
    attempt whose row is in the ledger starts nothing, queues nothing and
    writes no row.  While the ledger can be read, so does one of an attempt
    older than the job's newest, and neither changes anything: the server is
    told the state of the row that stands for the attempt, or, if the frame
    is not well formed, that it failed.  When the reads fail an older attempt
    is taken in ([replay_after_fault]). *)
Theorem no_blind_replay (cmd_hash : list string → string) (digest : Plan → option string) (fa : Facts) (slot : Z) (a : Assign) (n : Node) :
  let job := fe_job_id (as_fence a) in
  let gen := fe_generation (as_fence a) in
  let rows := db_rows (ledger_of n slot) in
  (is_Some (row_at rows (job, gen)) → inert n (on_assign cmd_hash digest fa slot a n))
  ∧ (calm n slot →
    (∃ r, r ∈ rows ∧ rf_job_id (jr_fixed r) = job ∧ gen ≤ rf_generation (jr_fixed r)) →
    let '(taken, n') := on_assign cmd_hash digest fa slot a n in
    taken = None
    ∧ ∃ f, only_sends slot f n n'
      ∧ if well_formed digest n slot a
        then ∃ r, stands_for rows job gen r ∧ f = row_state_frame (row_of r)
        else su_job_id f = job ∧ su_generation f = gen ∧ su_state f = JobState_Failed).
Proof.
  intros job gen rows. split; [apply untaken_assign|]. intros Hc Hk. unfold on_assign.
 fold job gen. cbv zeta. unfold well_formed.
  assert (∀ code detail, let '(taken, n') :=
    (let& _ := send slot (state_frame (fa_now fa) job gen JobState_Failed (Some code) (Some detail)) in n_ret (None : option (string * Z))) n in
    taken = None ∧ ∃ f, only_sends slot f n n' ∧ su_job_id f = job ∧ su_generation f = gen ∧ su_state f = JobState_Failed) as Hbad.
  { intros code detail. unfold n_bind. set (f := state_frame _ _ _ _ _ _). pose proof (send_only slot f n) as H.
    destruct (send slot f n) as [b n']. cbn in *. split; [done|]. by exists f. }
  destruct (job_id_ok a); cbn [negb andb]; [|apply Hbad]. destruct (project_key_ok a); cbn [negb andb]; [|apply Hbad].
  destruct (consistent digest a); cbn [negb andb]; [|apply Hbad]. unfold n_bind at 1.
  destruct (pl_node_id (as_plan a) =? te_node_id (tenant n slot))%string; cbn [negb andb]; [|apply Hbad].
  destruct (known_row_found n slot job gen Hc Hk) as (r&n1&E&Hr&Hn1). unfold n_bind at 1. rewrite E. unfold n_bind.
  pose proof (send_only slot (row_state_frame (row_of r)) n1) as H. destruct (send slot _ n1) as [b n']. cbn in *.
  split; [done|]. exists (row_state_frame (row_of r)). split; [|by exists r].
  destruct Hn1 as [->| ->]; [by apply after_query_sends|by apply after_query_sends, after_query_sends].
Qed.

Definition ex_on_assign : Assign → Node → option (string * Z) * Node := on_assign ex_hash ex_digest ex_facts 1.

Lemma no_blind_replay_witness :
  (ex_on_assign (ex_assign "b" 1) ex_started).1 = None
  ∧ ∃ f, only_sends 1 f ex_started (ex_on_assign (ex_assign "b" 1) ex_started).2
    ∧ su_state f = JobState_Preparing.
Proof.
  assert (calm ex_started 1) as Hc by (unfold calm; vm_compute; constructor).
  assert (∃ r, r ∈ db_rows (ledger_of ex_started 1) ∧ rf_job_id (jr_fixed r) = "b" ∧ 1 ≤ rf_generation (jr_fixed r)) as Hk.
  { eexists. split; [vm_compute; apply list_elem_of_here|]. split; vm_compute; congruence. }
  pose proof (proj2 (no_blind_replay ex_hash ex_digest ex_facts 1 (ex_assign "b" 1) ex_started) Hc Hk) as H.
  change (on_assign ex_hash ex_digest ex_facts 1 (ex_assign "b" 1) ex_started) with (ex_on_assign (ex_assign "b" 1) ex_started) in H.
  destruct (ex_on_assign (ex_assign "b" 1) ex_started) as [taken n'] eqn:E. destruct H as (H1&f&Hf&Hw).
  split; [exact H1|]. exists f. split; [exact Hf|].
  assert (well_formed ex_digest ex_started 1 (ex_assign "b" 1) = true) as W by (vm_compute; reflexivity). rewrite W in Hw.
  destruct Hw as (r&(Hr&Hj&_)&->). apply list_elem_of_lookup in Hr as [i Hi]. revert Hi Hj.
  destruct i as [|[|[|i]]]; vm_compute; [intros [= <-] _; reflexivity|intros [= <-]; discriminate..|discriminate].
Defined.

(** A ledger whose reads fail hides what it has: the older attempt of a
    job that runs is taken into the queue, and the job's own attempt is told
    to have failed, though it runs. *)
Lemma replay_after_fault :
  let broken := set_ledger 1 (mk_Ledger (db_rows (ledger_of ex_started 1)) [Some "disk I/O error"; Some "disk I/O error"]) ex_started in
  (ex_on_assign (ex_assign "b" 0) broken).1 = Some ("b", 0)
  ∧ last (hb_sent (te_hub (tenant (ex_on_assign (ex_assign "b" 1) broken).2 1)))
    = Some (state_frame 1000 "b" 1 JobState_Failed (Some "ledger_error")
        (Some "ledger: UNIQUE constraint failed: jobs.job_id, jobs.generation")).
Proof. split; vm_compute; reflexivity. Qed.

(** ** An attach *)

Lemma set_ledger_twice slot l1 l2 n : set_ledger slot l2 (set_ledger slot l1 n) = set_ledger slot l2 n.
Proof.
  unfold set_ledger at 1 3. unfold set_ledger. rewrite tenant_set, decide_True by done. cbn.
  unfold set_tenant. cbn. by rewrite insert_insert_eq.
Qed.
Lemma ledger_of_set slot l n : ledger_of (set_ledger slot l n) slot = l.
Proof. by rewrite ledger_set_ledger, decide_True. Qed.

(** A method that answers, on a calm ledger. *)
Lemma calm_run {A} slot (m : LedgerM A) n x rows' :
  calm n slot → yields m (db_rows (ledger_of n slot)) x rows' →
  ∃ fs, Forall (eq None) fs ∧ on_ledger slot m n = (Ok x, set_ledger slot (mk_Ledger rows' fs) n).
Proof.
  intros Hc Hy. destruct (yi_calm _ _ _ _ Hy _ Hc) as (fs&Hfs&E). exists fs. split; [done|].
  unfold on_ledger. fold (ledger_of n slot). destruct (ledger_of n slot) as [rows fs0]. cbn in E. by rewrite E.
Qed.

(** Whether [Welcome.resume] lists an attempt. *)
Definition listed (resume : list (string * Z)) (k : string * Z) : bool :=
  existsb (λ h, (h.1 =? k.1)%string && (h.2 =? k.2)) resume.

Section attach.
Context (unrun_receipt : Facts → string → Row → Result SignedReceipt string) (fa : Facts) (slot : Z).

(** The row of an attempt cancelled in the queue, with its receipt when one
    can be signed. *)
Definition withdrawn (fp reason : string) (detail : option string) (r : JobRow) : JobRow :=
  let c := with_times (jr_started_at r) (Some (fa_now fa)) (set_where JobState_Cancelled (Some reason) detail r) in
  match unrun_receipt fa fp (row_of c) with
  | Ok rc => with_results (jr_src c) (Some rc) (jr_cleaned c) (jr_outputs c) c
  | Err _ => c
  end.
Lemma withdrawn_fixed fp reason detail r : jr_fixed (withdrawn fp reason detail r) = jr_fixed r.
Proof. unfold withdrawn. cbv zeta. by destruct (unrun_receipt _ _ _). Qed.

Lemma cancel_queued_yields j g reason detail rows r :
  table_ok rows → row_at rows (j, g) = Some r → is_queued r = true →
  yields (cancel_queued j g reason detail (fa_now fa)) rows true
    (change (λ r, row_is j g r && is_queued r)
      (λ r, with_times (jr_started_at r) (Some (fa_now fa)) (set_where JobState_Cancelled (Some reason) detail r)) <$> rows).
Proof.
  intros Hok Hr Hq. unfold cancel_queued. eapply yields_bind; [apply yields_update|].
  pose proof (filter_key rows (j, g) is_queued (tb_keys _ Hok)) as E. cbn in E. rewrite E, Hr, Hq. apply yields_ret.
Qed.

(** The node with [rows] in the ledger of [slot]. *)
Definition with_rows (n : Node) (rows : list JobRow) (fs : list (option string)) : Node := set_ledger slot (mk_Ledger rows fs) n.

Lemma run_with_rows {A} (m : LedgerM A) n rows fs x rows' :
  Forall (eq None) fs → yields m rows x rows' →
  ∃ fs', Forall (eq None) fs' ∧ on_ledger slot m (with_rows n rows fs) = (Ok x, with_rows n rows' fs').
Proof.
  intros Hfs Hy. destruct (calm_run slot m (with_rows n rows fs) x rows') as (fs'&Hf'&E).
  - unfold calm, with_rows. by rewrite ledger_of_set.
  - unfold with_rows. by rewrite ledger_of_set.
  - exists fs'. split; [done|]. rewrite E. unfold with_rows. by rewrite set_ledger_twice.
Qed.
Lemma yields_get rows j g : yields (get j g) rows (row_of <$> row_at rows (j, g)) rows.
Proof. by apply yields_statement. Qed.
Lemma with_rows_fp n rows fs : te_controller_fp (tenant (with_rows n rows fs) slot) = te_controller_fp (tenant n slot).
Proof. unfold with_rows, set_ledger. by rewrite tenant_set, decide_True. Qed.
Lemma with_rows_self n : with_rows n (db_rows (ledger_of n slot)) (db_faults (ledger_of n slot)) = set_ledger slot (ledger_of n slot) n.
Proof. unfold with_rows. by destruct (ledger_of n slot). Qed.

Lemma receipt_yields fp j g reason detail rows r (m := λ (rc : Result SignedReceipt string),
    match rc with Ok rc => set_receipt j g rc | Err _ => l_ret tt end) :
  table_ok rows → row_at rows (j, g) = Some r → is_queued r = true →
  let c r := with_times (jr_started_at r) (Some (fa_now fa)) (set_where JobState_Cancelled (Some reason) detail r) in
  yields (m (unrun_receipt fa fp (row_of (c r)))) (change (λ r, row_is j g r && is_queued r) c <$> rows) tt
    (change (row_is j g) (withdrawn fp reason detail) <$> rows).
Proof.
  intros Hok Hr Hq c.
  assert (∀ x, x ∈ rows → row_is j g x = true → x = r) as Honly.
  { intros x Hx Hk. pose proof (row_in_key _ _ _ _ Hok Hx Hk) as E. rewrite Hr in E. by injection E. }
  assert (withdrawn fp reason detail r = match unrun_receipt fa fp (row_of (c r)) with
    | Ok rc => with_results (jr_src (c r)) (Some rc) (jr_cleaned (c r)) (jr_outputs (c r)) (c r) | Err _ => c r end) as Hw by done.
  unfold m. destruct (unrun_receipt fa fp (row_of (c r))) as [rc|e]; cbn [l_ret].
  - unfold set_receipt. eapply yields_bind; [apply yields_update|].
    assert (∀ l, change (row_is j g) (λ r, with_results (jr_src r) (Some rc) (jr_cleaned r) (jr_outputs r) r) <$>
      (change (λ r, row_is j g r && is_queued r) c <$> l) = (λ x, change (row_is j g) (λ r, with_results (jr_src r) (Some rc) (jr_cleaned r) (jr_outputs r) r) (change (λ r, row_is j g r && is_queued r) c x)) <$> l) as ->
      by (intros l; by rewrite <- list_fmap_compose).
    rewrite (list_fmap_ext _ (change (row_is j g) (withdrawn fp reason detail)) rows); [apply yields_ret|].
    intros i x Hx%list_elem_of_lookup_2. unfold change. destruct (row_is j g x) eqn:E.
    + assert (x = r) as -> by by apply Honly. rewrite Hq. cbn [andb]. change (row_is j g (c r)) with (row_is j g r).
      by rewrite E, Hw.
    + cbn [andb]. by rewrite E.
  - rewrite (list_fmap_ext _ (change (row_is j g) (withdrawn fp reason detail)) rows); [apply yields_ret|].
    intros i x Hx%list_elem_of_lookup_2. unfold change. destruct (row_is j g x) eqn:E; [|done].
    assert (x = r) as -> by by apply Honly. rewrite Hq. cbn [andb]. by rewrite Hw.
Qed.

(** What [cancel_queued_row] does to a queued row, on a calm ledger. *)
Record row_cancelled (fp : string) (j : string) (g : Z) (reason : string) (detail : option string) (n n' : Node) : Prop := {
  rc_calm : calm n' slot;
  rc_rows : db_rows (ledger_of n' slot) = change (row_is j g) (withdrawn fp reason detail) <$> db_rows (ledger_of n slot);
  rc_others : ∀ s, s ≠ slot → ledger_of n' s = ledger_of n s;
  rc_fp : te_controller_fp (tenant n' slot) = fp;
  rc_gates : fq_gates (nd_fairq n') = delete (slot, j, g) (fq_gates (nd_fairq n));
}.

Lemma send_fields f n :
  (∀ s, ledger_of (send slot f n).2 s = ledger_of n s)
  ∧ te_controller_fp (tenant (send slot f n).2 slot) = te_controller_fp (tenant n slot)
  ∧ nd_fairq (send slot f n).2 = nd_fairq n.
Proof.
  unfold send. destruct (_ =? 0); cbn [snd]; [done|]. split_and!; [intros s; apply ledger_set_hub| |done].
  unfold set_hub. by rewrite tenant_set, decide_True.
Qed.
(** Its end: the queue forgets the attempt, and the server is told. *)
Lemma cancelled_tail n j g reason detail rows fs f :
  let fp := te_controller_fp (tenant n slot) in
  rows = change (row_is j g) (withdrawn fp reason detail) <$> db_rows (ledger_of n slot) → Forall (eq None) fs →
  ∃ n', (let& _ := with_fairq (forget (slot, j, g)) in let& _ := send slot f in let& _ := with_fairq kicked in n_ret true)
      (with_rows n rows fs) = (true, n') ∧ row_cancelled fp j g reason detail n n'.
Proof.
  intros fp Hrows Hfs. unfold n_bind, with_fairq. cbn [nd_tenants nd_jobs nd_fairq nd_job_seq nd_spawned nd_ends].
  set (n1 := mk_Node _ _ _ _ _ _). pose proof (send_fields f n1) as (Hl&Hfp&Hg). destruct (send slot f n1) as [b n2].
  cbn [snd] in *. eexists. split; [reflexivity|].
  assert (∀ s, ledger_of n1 s = ledger_of (with_rows n rows fs) s) as Hl1 by done.
  split.
  - unfold calm. change (Forall (eq None) (db_faults (ledger_of n2 slot))). rewrite Hl, Hl1. unfold with_rows. by rewrite ledger_of_set.
  - change (db_rows (ledger_of n2 slot) = change (row_is j g) (withdrawn fp reason detail) <$> db_rows (ledger_of n slot)).
    rewrite Hl, Hl1. unfold with_rows. by rewrite ledger_of_set.
  - intros s Hs. change (ledger_of n2 s = ledger_of n s). rewrite Hl, Hl1. unfold with_rows. rewrite ledger_set_ledger.
    by rewrite decide_False.
  - change (te_controller_fp (tenant n2 slot) = fp). rewrite Hfp. apply with_rows_fp.
  - change (fq_gates (nd_fairq n2) = delete (slot, j, g) (fq_gates (nd_fairq n))). by rewrite Hg.
Qed.

Lemma cancel_row_calm n j g reason detail r :
  table_ok (db_rows (ledger_of n slot)) → calm n slot → row_at (db_rows (ledger_of n slot)) (j, g) = Some r → is_queued r = true →
  ∃ n', cancel_queued_row unrun_receipt fa slot j g reason detail n = (true, n')
    ∧ row_cancelled (te_controller_fp (tenant n slot)) j g reason detail n n'.
Proof.
  set (fp := te_controller_fp (tenant n slot)). set (rows := db_rows (ledger_of n slot)).
  intros Hok Hc Hr Hq. unfold cancel_queued_row.
  destruct (calm_run slot _ n _ _ Hc (cancel_queued_yields j g reason detail rows r Hok Hr Hq)) as (fs1&Hf1&E1).
  unfold n_bind at 1. rewrite E1. set (c := λ r, with_times _ _ _) in *. set (rows1 := change _ c <$> rows) in *.
  fold (with_rows n rows1 fs1).
  assert (row_at rows1 (j, g) = Some (c r)) as Hr1.
  { unfold rows1. rewrite row_at_change by done. rewrite Hr. cbn. unfold change.
    apply row_at_Some in Hr as [_ Hk]. pose proof (proj2 (row_is_key (j, g) r) Hk) as E. cbn in E. by rewrite E, Hq. }
  destruct (run_with_rows _ n rows1 fs1 _ _ Hf1 (yields_get rows1 j g)) as (fs2&Hf2&E2).
  unfold n_bind at 1. rewrite E2, Hr1. cbn [fmap option_fmap option_map]. unfold n_bind at 1. cbv beta iota.
  rewrite with_rows_fp. fold fp.
  pose proof (receipt_yields fp j g reason detail rows r Hok Hr Hq) as Hy. cbv zeta beta in Hy. fold c rows1 in Hy.
  destruct (run_with_rows _ n rows1 fs2 _ _ Hf2 Hy) as (fs3&Hf3&E3). set (rows2 := change _ (withdrawn _ _ _) <$> rows) in *.
  assert ((match unrun_receipt fa fp (row_of (c r)) with Ok rc => on_ledger slot (set_receipt j g rc) | Err _ => n_ret (Ok tt) end)
    (with_rows n rows1 fs2) = (Ok tt, with_rows n rows2 fs3)) as E3'.
  { change (row_of (c r)) with (row_of (with_times (jr_started_at r) (Some (fa_now fa)) (set_where JobState_Cancelled (Some reason) detail r))).
    revert E3. destruct (unrun_receipt _ _ _) as [rc|e]; [done|]. unfold on_ledger, with_rows. fold (ledger_of (set_ledger slot (mk_Ledger rows1 fs2) n) slot).
    rewrite ledger_of_set. cbn [l_ret]. by rewrite set_ledger_twice. }
  unfold n_bind at 1. rewrite E3'.
  destruct (run_with_rows _ n rows2 fs3 _ _ Hf3 (yields_get rows2 j g)) as (fs4&Hf4&E4).
  unfold n_bind at 1. rewrite E4. eapply cancelled_tail; [done..|]. exact Hf4.
Qed.

Definition SUPERSEDED_DETAIL : option string := Some "the server no longer lists this job".
(** The queued attempts [keys] of a row after the attach. *)
Definition attached (fp : string) (resume : list (string * Z)) (keys : list (string * Z)) (r : JobRow) : JobRow :=
  if bool_decide (key_of r ∈ keys) && negb (listed resume (key_of r))
  then withdrawn fp codes_SUPERSEDED SUPERSEDED_DETAIL r else r.
Definition attached_gate (epoch : Z) (resume : list (string * Z)) (keys : list (string * Z)) (gates : gmap Key Z) (k : Key) : option Z :=
  if bool_decide (k ∈ slot_key slot <$> keys)
  then if listed resume (k.1.2, k.2) then Some epoch else None
  else gates !! k.

Record rows_attached (fp : string) (epoch : Z) (resume : list (string * Z)) (keys : list (string * Z)) (n n' : Node) : Prop := {
  ra_calm : calm n' slot;
  ra_rows : db_rows (ledger_of n' slot) = attached fp resume keys <$> db_rows (ledger_of n slot);
  ra_others : ∀ s, s ≠ slot → ledger_of n' s = ledger_of n s;
  ra_fp : te_controller_fp (tenant n' slot) = fp;
  ra_gates : ∀ k, fq_gates (nd_fairq n') !! k = attached_gate epoch resume keys (fq_gates (nd_fairq n)) k;
  ra_still : nd_jobs n' = nd_jobs n ∧ fq_runs (nd_fairq n') = fq_runs (nd_fairq n) ∧ nd_spawned n' = nd_spawned n;
}.

Lemma attached_fixed fp resume keys r : jr_fixed (attached fp resume keys r) = jr_fixed r.
Proof. unfold attached. case_match; [apply withdrawn_fixed|done]. Qed.
Lemma attached_row_at fp resume keys rows k r :
  row_at rows k = Some r → row_at (attached fp resume keys <$> rows) k = Some (attached fp resume keys r).
Proof.
  unfold row_at. induction rows as [|x rows IH]; cbn [List.find fmap list_fmap]; [done|].
  unfold row_is in *. rewrite attached_fixed. destruct (_ && _); [by intros [= ->]|done].
Qed.
Lemma slot_key_inj k k' : slot_key slot k = slot_key slot k' → k = k'.
Proof. destruct k, k'. by intros [= -> ->]. Qed.
Lemma attached_gate_cons epoch resume k keys gates gates' k' :
  k ∉ keys →
  (∀ x, gates' !! x = attached_gate epoch resume [k] gates x) →
  attached_gate epoch resume keys gates' k' = attached_gate epoch resume (k :: keys) gates k'.
Proof.
  intros Hk Hg. unfold attached_gate in *. rewrite fmap_cons. rewrite Hg. cbn [fmap list_fmap].
  case_bool_decide as H1; [by rewrite bool_decide_eq_true_2 by (apply elem_of_cons; by right)|].
  case_bool_decide as H2.
  - apply list_elem_of_singleton in H2 as ->. by rewrite bool_decide_eq_true_2 by (apply elem_of_cons; by left).
  - rewrite bool_decide_eq_false_2; [done|]. intros [->|]%elem_of_cons; [|done]. apply H2. by apply list_elem_of_singleton.
Qed.
Lemma attached_cons fp resume k keys r :
  k ∉ keys → attached fp resume keys (attached fp resume [k] r) = attached fp resume (k :: keys) r.
Proof.
  intros Hk.
  assert (key_of (attached fp resume [k] r) = key_of r) as E by (unfold key_of; by rewrite attached_fixed).
  unfold attached at 1. rewrite E. unfold attached. 
  destruct (decide (key_of r = k)) as [<-|Hne].
  - rewrite (bool_decide_eq_false_2 (key_of r ∈ keys)) by done. cbn [andb].
    rewrite !bool_decide_eq_true_2 by (apply elem_of_cons; by left). done.
  - rewrite (bool_decide_eq_false_2 (key_of r ∈ [k])) by (intros ?%list_elem_of_singleton; done). cbn [andb].
    destruct (decide (key_of r ∈ keys)).
    + rewrite !bool_decide_eq_true_2 by (done || (apply elem_of_cons; by right)). done.
    + rewrite !bool_decide_eq_false_2; [done| |done]. by intros [|]%elem_of_cons.
Qed.

Lemma rows_attached_trans fp epoch resume k keys n n1 n2 :
  k ∉ keys → rows_attached fp epoch resume [k] n n1 → rows_attached fp epoch resume keys n1 n2 →
  rows_attached fp epoch resume (k :: keys) n n2.
Proof.
  intros Hk [A1 A2 A3 A4 A5 A6] [B1 B2 B3 B4 B5 B6]. split; [done| | |done| |].
  - rewrite B2, A2, <- list_fmap_compose. apply list_fmap_ext. intros i r _. by apply attached_cons.
  - intros s Hs. by rewrite B3, A3.
  - intros k'. rewrite B5. by apply attached_gate_cons.
  - destruct A6 as (?&?&?), B6 as (?&?&?). split_and!; congruence.
Qed.

(** One row of the attach. *)
Lemma attach_row_calm resume epoch n r :
  table_ok (db_rows (ledger_of n slot)) → calm n slot →
  row_at (db_rows (ledger_of n slot)) (key_of r) = Some r → is_queued r = true →
  ∃ n', (if hinted resume (row_of r)
         then with_fairq (gate (slot, rw_job_id (row_of r), rw_generation (row_of r)) epoch)
         else let& _ := cancel_queued_row unrun_receipt fa slot (rw_job_id (row_of r)) (rw_generation (row_of r)) codes_SUPERSEDED
                SUPERSEDED_DETAIL in n_ret tt) n = (tt, n')
    ∧ rows_attached (te_controller_fp (tenant n slot)) epoch resume [key_of r] n n'.
Proof.
  intros Hok Hc Hr Hq. change (rw_job_id (row_of r)) with (key_of r).1. change (rw_generation (row_of r)) with (key_of r).2.
  change (hinted resume (row_of r)) with (listed resume (key_of r)).
  assert (∀ k : Key, k ∈ slot_key slot <$> [key_of r] ↔ k = (slot, (key_of r).1, (key_of r).2)) as Hone.
  { intros k. cbn. apply list_elem_of_singleton. }
  destruct (listed resume (key_of r)) eqn:Hl.
  - eexists. split; [reflexivity|]. split; [exact Hc| |done|done| |done].
    + cbn. rewrite <- (list_fmap_id (db_rows _)) at 1. apply list_fmap_ext. intros i x _. unfold attached, id.
      case_bool_decide as Hx; [|done]. apply list_elem_of_singleton in Hx. by rewrite Hx, Hl.
    + intros k. cbn. unfold attached_gate. case_bool_decide as Hk; rewrite Hone in Hk.
      * subst k. cbn [fst snd]. rewrite <- (surjective_pairing (key_of r)), Hl. by rewrite lookup_insert_eq.
      * by rewrite lookup_insert_ne.
  - pose proof (keeps_cancel_row unrun_receipt fa slot (key_of r).1 (key_of r).2 codes_SUPERSEDED SUPERSEDED_DETAIL n) as Hkeep.
    unfold n_bind. destruct (cancel_row_calm n (key_of r).1 (key_of r).2 codes_SUPERSEDED SUPERSEDED_DETAIL r) as (n'&E&[H1 H2 H3 H4 H5]);
      [done|done|by rewrite <- surjective_pairing|done|]. rewrite E in Hkeep |- *.
    eexists. split; [reflexivity|]. split; [done| |done|done| |by destruct Hkeep].
    + rewrite H2. apply list_fmap_ext. intros i x _. unfold change, attached.
      destruct (row_is (key_of r).1 (key_of r).2 x) eqn:Hx.
      * apply row_is_key in Hx. rewrite bool_decide_eq_true_2 by by apply list_elem_of_singleton. by rewrite Hx, Hl.
      * rewrite bool_decide_eq_false_2; [done|]. intros Hk%list_elem_of_singleton. apply row_is_key in Hk. congruence.
    + intros k. rewrite H5. unfold attached_gate. case_bool_decide as Hk; rewrite Hone in Hk.
      * subst k. cbn [fst snd]. rewrite <- (surjective_pairing (key_of r)), Hl. by rewrite lookup_delete_eq.
      * by rewrite lookup_delete_ne.
Qed.

Lemma attach_rows_calm resume epoch jl n :
  table_ok (db_rows (ledger_of n slot)) → calm n slot → NoDup (key_of <$> jl) →
  (∀ r, r ∈ jl → row_at (db_rows (ledger_of n slot)) (key_of r) = Some r ∧ is_queued r = true) →
  ∃ n', attach_rows unrun_receipt fa slot epoch resume (row_of <$> jl) n = (tt, n')
    ∧ rows_attached (te_controller_fp (tenant n slot)) epoch resume (key_of <$> jl) n n'.
Proof.
  revert n. induction jl as [|r jl IH]; intros n Hok Hc Hnd Hrows; rewrite ?fmap_nil, ?fmap_cons; cbn [attach_rows].
  - eexists. split; [reflexivity|]. split; [done| |done|done| |done].
    + rewrite <- (list_fmap_id (db_rows _)) at 1. apply list_fmap_ext. intros i x _. unfold attached.
      by rewrite bool_decide_eq_false_2 by apply not_elem_of_nil.
    + intros k. unfold attached_gate. by rewrite bool_decide_eq_false_2 by apply not_elem_of_nil.
  - rewrite fmap_cons in Hnd. apply NoDup_cons in Hnd as [Hk Hnd].
    destruct (Hrows r) as [Hr Hq]; [apply elem_of_cons; by left|].
    destruct (attach_row_calm resume epoch n r Hok Hc Hr Hq) as (n1&E1&H1). unfold n_bind at 1.
    change (Some "the server no longer lists this job") with SUPERSEDED_DETAIL. rewrite E1.
    destruct (IH n1) as (n2&E2&H2); [| |done| |].
    + rewrite (ra_rows _ _ _ _ _ _ H1). eapply table_ok_fixed; [|exact Hok]. rewrite <- list_fmap_compose.
      apply list_fmap_ext. intros i x _. apply attached_fixed.
    + apply H1.
    + intros x Hx. destruct (Hrows x) as [Hx1 Hx2]; [apply elem_of_cons; by right|]. split; [|done].
      rewrite (ra_rows _ _ _ _ _ _ H1), (attached_row_at _ _ _ _ _ _ Hx1). f_equal. unfold attached.
      rewrite bool_decide_eq_false_2; [done|]. intros E%list_elem_of_singleton. apply Hk. rewrite <- E.
      by apply list_elem_of_fmap_2.
    + exists n2. split; [exact E2|]. rewrite (ra_fp _ _ _ _ _ _ H1) in H2. by eapply rows_attached_trans.
Qed.
End attach.

Lemma queued_rows_spec rows :
  table_ok rows → NoDup (key_of <$> queued_rows rows)
  ∧ (∀ r, r ∈ queued_rows rows ↔ r ∈ rows ∧ is_queued r = true)
  ∧ ∀ r, r ∈ queued_rows rows → row_at rows (key_of r) = Some r ∧ is_queued r = true.
Proof.
  intros Hok. unfold queued_rows.
  assert (∀ r, r ∈ isort (λ a b, not_gt (enqueued_cmp a b)) (List.filter is_queued rows) ↔ r ∈ rows ∧ is_queued r = true) as Hin.
  { intros r. by rewrite isort_Permutation, elem_of_filter_bool. }
  split_and!; [|done|].
  - rewrite isort_Permutation. apply NoDup_fmap_filter, Hok.
  - intros r [Hr Hq]%Hin. split; [|done]. apply row_at_elem; [apply Hok|done].
Qed.

(** (C24) After an attach, the queue of the server is what its [Welcome.resume]
    lists: its queued attempts that are not listed have ended superseded,
    with a receipt where one can be signed, and those listed wait under the
    epoch of the new session; no other row, server or gate changes, and
    nothing is started or stopped. *)
Theorem attach_exact (unrun_receipt : Facts → string → Row → Result SignedReceipt string) (fa : Facts) (slot : Z)
    (resume : list (string * Z)) (n : Node) :
  let rows := db_rows (ledger_of n slot) in
  let epoch := hb_connected (te_hub (tenant n slot)) in
  let n' := (queue_attach unrun_receipt fa slot resume n).2 in
  table_ok rows → calm n slot →
  db_rows (ledger_of n' slot)
    = (λ r, if is_queued r && negb (listed resume (key_of r))
            then withdrawn unrun_receipt fa (te_controller_fp (tenant n slot)) codes_SUPERSEDED SUPERSEDED_DETAIL r else r) <$> rows
  ∧ (∀ s, s ≠ slot → ledger_of n' s = ledger_of n s)
  ∧ (∀ r, r ∈ rows → is_queued r = true →
       fq_gates (nd_fairq n') !! slot_key slot (key_of r) = if listed resume (key_of r) then Some epoch else None)
  ∧ (∀ k, (∀ r, r ∈ rows → is_queued r = true → k ≠ slot_key slot (key_of r)) →
       fq_gates (nd_fairq n') !! k = fq_gates (nd_fairq n) !! k)
  ∧ nd_jobs n' = nd_jobs n ∧ fq_runs (nd_fairq n') = fq_runs (nd_fairq n) ∧ nd_spawned n' = nd_spawned n.
Proof.
  intros rows epoch n' Hok Hc. destruct (queued_rows_spec rows Hok) as (Hnd&Hin&Hat).
  destruct (attach_rows_calm unrun_receipt fa slot resume epoch (queued_rows rows) (after_query n slot)) as (n2&E&H);
    rewrite ?after_query_ledger; [done|by apply after_query_calm|done|done|].
  assert (n' = (with_fairq kicked (with_fairq (resend slot) n2).2).2) as Hn'.
  { unfold n', queue_attach, queued_or_none, queued. unfold n_bind at 1. cbv beta. unfold n_bind at 1. unfold n_bind at 1.
    rewrite calm_query by done. cbn [n_ret]. unfold n_bind at 1. fold rows epoch. by rewrite E. }
  destruct H as [_ Hrows Hothers _ Hgates (Hj&Hr&Hs)].
  assert (te_controller_fp (tenant (after_query n slot) slot) = te_controller_fp (tenant n slot)) as Hfp
    by (unfold after_query, set_ledger; by rewrite tenant_set, decide_True).
  assert (∀ s, ledger_of n' s = ledger_of n2 s) as Hl by by rewrite Hn'.
  assert (fq_gates (nd_fairq n') = fq_gates (nd_fairq n2)) as Hg by by rewrite Hn'.
  split_and!; [| | | |by rewrite Hn'..].
  - rewrite Hl, Hrows, Hfp, after_query_ledger. apply list_fmap_ext. intros i r Hi%list_elem_of_lookup_2. unfold attached.
    destruct (is_queued r) eqn:Er; [rewrite bool_decide_eq_true_2; [done|]|rewrite bool_decide_eq_false_2; [done|]].
    { apply list_elem_of_fmap_2. by apply Hin. }
    intros (r'&Hk&[Hr' Hq]%Hin)%list_elem_of_fmap. pose proof (row_at_elem _ _ (tb_keys _ Hok) Hr') as E'.
    rewrite <- Hk, row_at_elem in E' by (done || apply Hok). injection E' as ->. congruence.
  - intros s Hne. rewrite Hl, Hothers by done. unfold after_query. rewrite ledger_set_ledger. by rewrite decide_False.
  - intros r Hr' Hq. rewrite Hg, Hgates. unfold attached_gate. rewrite bool_decide_eq_true_2; [by destruct (key_of r)|].
    apply list_elem_of_fmap_2, list_elem_of_fmap_2. by apply Hin.
  - intros k Hk. rewrite Hg, Hgates. unfold attached_gate. rewrite bool_decide_eq_false_2; [done|].
    intros (k'&->&(r&->&[Hr' Hq]%Hin)%list_elem_of_fmap)%list_elem_of_fmap. by apply (Hk r Hr' Hq).
Qed.

Lemma ex_waiting_ok : table_ok (db_rows (ledger_of ex_waiting 1)).
Proof.
  split; [apply (bool_decide_unpack _); vm_compute; exact I|].
  assert ((λ r, rf_rowid (jr_fixed r)) <$> db_rows (ledger_of ex_waiting 1) = [1; 2; 3]) as -> by (vm_compute; reflexivity).
  repeat constructor.
Qed.

Lemma attach_exact_witness :
  let n' := (queue_attach ex_unrun ex_facts 1 [("b", 1); ("d", 1)] ex_waiting).2 in
  fq_gates (nd_fairq n') !! (1, "b", 1) = Some 1
  ∧ (jr_state <$> db_rows (ledger_of n' 1)) = [JobState_Queued; JobState_Cancelled; JobState_Queued]
  ∧ nd_jobs n' = nd_jobs ex_waiting.
Proof.
  cbv zeta. destruct (attach_exact ex_unrun ex_facts 1 [("b", 1); ("d", 1)] ex_waiting ex_waiting_ok) as (Hrows&_&Hg&_&Hj&_).
  { unfold calm. vm_compute. constructor. }
  split_and!; [|vm_compute; reflexivity|exact Hj].
  destruct (row_at (db_rows (ledger_of ex_waiting 1)) ("b", 1)) as [r|] eqn:E; [|revert E; vm_compute; discriminate].
  apply row_at_Some in E as E'. destruct E' as [Hin Hk].
  pose proof (Hg r Hin) as H. rewrite Hk in H. refine (H _).
  revert E. vm_compute. intros [= <-]. reflexivity.
Defined.
