(* ===== verification/Redact.v ===== *)
(** * Redact: secret values kept out of text

    [crates/k2-redact/src/lib.rs].  A vault's surfaces and a compute job's
    output go through a [Redactor]: every secret value is matched raw and in
    the encodings it turns up in (base64 at each alignment, hex, percent,
    JSON), and each match becomes [[k2v:NAME]].  A [StreamRedactor] does the
    same over chunks, holding back only a tail a pattern may begin with.

    The automaton is the [aho-corasick] crate's: an interface with its
    documented law (leftmost, then longest, non-overlapping), and building it
    may fail.  JSON string
    escaping is [serde_json]'s: a parameter, with the law of RFC 8259 text.
    Bytes are [Z]; positions in a buffer are [nat]. *)

From Stdlib Require Import ZifyNat.
From S2P Require Import Prelude Utf8.
Open Scope Z_scope.

(** Values shorter than this aren't matched in K2's own surfaces. *)
Definition SURFACE_MIN_LEN : nat := 8.

(** ** Encodings of a value *)

Definition HEX_LOWER : list Z := bytes "0123456789abcdef".
Definition HEX_UPPER : list Z := bytes "0123456789ABCDEF".

Definition hex_digit (H : list Z) (d : Z) : Z := nth (Z.to_nat d) H 0.
Definition hex (b : list Z) : list Z :=
  concat ((λ x, [hex_digit HEX_LOWER (Z.shiftr x 4); hex_digit HEX_LOWER (Z.land x 15)]) <$> b).
Definition to_ascii_uppercase (s : list Z) : list Z :=
  (λ c, if is_ascii_lowercase c then c - 32 else c) <$> s.

Definition B64_STD : list Z := bytes "ABCDEFGHIJKLMNOPQRSTUVWXYZabcdefghijklmnopqrstuvwxyz0123456789+/".
Definition B64_URL : list Z := bytes "ABCDEFGHIJKLMNOPQRSTUVWXYZabcdefghijklmnopqrstuvwxyz0123456789-_".

(** Bit [i] of [v], most significant bit of [v[0]] first. *)
Definition bit (v : list Z) (i : nat) : Z :=
  Z.land (Z.shiftr (nth (i / 8) v 0) (7 - Z.of_nat (i mod 8))) 1.
(** The value of [n] bits of [v] from bit [from]. *)
Definition bits (v : list Z) (from n : nat) : Z :=
  foldl (λ acc k, Z.lor (u8 (Z.shiftl acc 1)) (bit v (from + k))) 0 (seq 0 n).

Definition b64_char (alpha : list Z) (x : Z) : Z := nth (Z.to_nat x) alpha 0.
Definition div_ceil (a b : nat) : nat := (a + b - 1) / b.

(** Every form of a partial character with its [k] known bits: a leading
    one has them low, a trailing one high. *)
Definition lead_forms (alpha v : list Z) (s0 first : nat) : list (option Z) :=
  if (s0 mod 6 =? 0)%nat then [None]
  else
    let k := (6 * first - s0)%nat in
    let known := bits v 0 k in
    (λ u, Some (b64_char alpha (Z.lor (u8 (Z.shiftl u (Z.of_nat k))) known)))
      <$> seqZ 0 (u8 (Z.shiftl 1 (6 - Z.of_nat k))).
Definition trail_forms (alpha v : list Z) (s1 end_ nbits : nat) : list (option Z) * option (Z * nat) :=
  if (s1 mod 6 =? 0)%nat then ([None], None)
  else
    let k := (s1 - 6 * end_)%nat in
    let known := bits v (nbits - k) k in
    let high := u8 (Z.shiftl known (6 - Z.of_nat k)) in
    ((λ u, Some (b64_char alpha (Z.lor high u))) <$> seqZ 0 (u8 (Z.shiftl 1 (6 - Z.of_nat k))),
     Some (b64_char alpha high, ((6 - k) / 2)%nat)).

Definition opt_list {A} (x : option A) : list A := match x with Some a => [a] | None => [] end.
Definition keep_long (q : list Z) : list (list Z) := if (4 <=? length q)%nat then [q] else [].

(** The forms of [v] at one alignment in one alphabet. *)
Definition base64_at (v : list Z) (shift : nat) (alpha : list Z) : list (list Z) :=
  let nbits := (length v * 8)%nat in
  let s0 := (8 * shift)%nat in
  let s1 := (s0 + nbits)%nat in
  let first := div_ceil s0 6 in
  let end_ := (s1 / 6)%nat in
  let full := (λ c, b64_char alpha (bits v (6 * c - s0) 6)) <$> seq first (end_ - first) in
  let lead := lead_forms alpha v s0 first in
  let '(trail, padded) := trail_forms alpha v s1 end_ nbits in
  concat ((λ l,
    let p := opt_list l ++ full in
    concat ((λ t, keep_long (p ++ opt_list t)) <$> trail)
    ++ match padded with
       | Some (c, pads) => keep_long ((p ++ [c]) ++ replicate pads 61)
       | None => []
       end) <$> lead).

Definition base64_variants (v : list Z) (out : list (list Z)) : list (list Z) :=
  if (length v <? 3)%nat then out
  else out ++ concat ((λ shift, concat (base64_at v shift <$> [B64_STD; B64_URL])) <$> seq 0 3).

Definition percent_plain (b : Z) : bool :=
  is_ascii_alphanumeric b || (b =? 45) || (b =? 46) || (b =? 95) || (b =? 126).
Definition percent (v : list Z) (upper : bool) : list Z :=
  concat ((λ b,
    if percent_plain b then [b]
    else
      let H := if upper then HEX_UPPER else HEX_LOWER in
      [37; hex_digit H (b / 16); hex_digit H (b mod 16)]) <$> v).

(** [Ord] of [Vec<u8>], [sort] and [dedup]. *)
Fixpoint lex_leb (a b : list Z) : bool :=
  match a, b with
  | [], _ => true
  | _ :: _, [] => false
  | x :: a, y :: b => (x <? y) || ((x =? y) && lex_leb a b)
  end.
Fixpoint dedup (l : list (list Z)) : list (list Z) :=
  match l with
  | x :: (y :: _) as r => if base.decide (x = y) then dedup r else x :: dedup r
  | _ => l
  end.

(** ['/'] as ["\/"]. *)
Definition escape_slash (s : list Z) : list Z := concat ((λ c, if c =? 47 then [92; 47] else [c]) <$> s).

(** ** The automaton and the escaper *)

Record Match := { m_pattern : nat; m_start : nat; m_end : nat }.

(** [aho_corasick::AhoCorasick], built with [MatchKind::LeftmostLongest];
    [None] is a [BuildError] (the automaton would be too large). *)
Class AhoCorasick (AC : Type) := {
  ac_build : list (list Z) → option AC;
  ac_find_iter : AC → list Z → list Match;
  ac_is_match : AC → list Z → bool;
}.
(** [serde_json::to_string] of a [str] ([None]: an error). *)
Class JsonString := json_to_string : list Z → option (list Z).

(** ** The redactor *)

Section redactor.
Context {AC : Type} `{ac_ops : !AhoCorasick AC} `{js : !JsonString}.

(** Every byte pattern that should be redacted for one value; [None] is a
    panic ([j[1..j.len() - 1]] of a text under two bytes). *)
Definition variants (v : list Z) : option (list (list Z)) :=
  let out := base64_variants v [v] in
  let h := hex v in
  let out := out ++ [h; to_ascii_uppercase h; percent v true; percent v false] in
  let out :=
    match utf8_check v with
    | None =>
      match json_to_string v with
      | Some j =>
        match slice j 1 (zlen j - 1) with
        | Some inner => Some (out ++ [inner; escape_slash (utf8_lossy inner)])
        | None => None
        end
      | None => Some out
      end
    | Some _ => Some out
    end in
  match out with
  | Some out => Some (dedup (isort lex_leb out))
  | None => None
  end.

Record Redactor := {
  ac : option AC;
  replacements : list (list Z);
  max_len : nat;
  pats : list (list Z);
  first : list bool;
}.

Definition label (name : list Z) : list Z := bytes "[k2v:" ++ name ++ bytes "]".

(** [first[p[0] as usize] = true] for each pattern; an empty one panics. *)
Fixpoint mark_first (ps : list (list Z)) (fs : list bool) : option (list bool) :=
  match ps with
  | [] => Some fs
  | [] :: _ => None
  | (b :: _) :: ps => mark_first ps (<[Z.to_nat b := true]> fs)
  end.
Definition max_length (ps : list (list Z)) : nat := foldr (λ p m, length p `max` m)%nat 0%nat ps.

(** The automaton, when there are patterns; [None] is the [expect] of its
    build. *)
Definition build_ac (ps : list (list Z)) : option (option AC) :=
  match ps with [] => Some None | _ => Some <$> ac_build ps end.
Definition from_parts (ps reps : list (list Z)) : option Redactor :=
  match build_ac ps with
  | Some a =>
    match mark_first ps (replicate 256 false) with
    | Some fs => Some {| ac := a; replacements := reps; max_len := max_length ps; pats := ps; first := fs |}
    | None => None
    end
  | None => None
  end.

(** One value's patterns, each with its label. *)
Definition add_value (name value : list Z) (parts : list (list Z) * list (list Z)) : option (list (list Z) * list (list Z)) :=
  match value with
  | [] => Some parts
  | _ =>
    match variants value with
    | Some vs => Some (parts.1 ++ vs, parts.2 ++ ((λ _, label name) <$> vs))
    | None => None
    end
  end.
Fixpoint add_values (entries : list (list Z * list Z)) (parts : list (list Z) * list (list Z)) : option (list (list Z) * list (list Z)) :=
  match entries with
  | [] => Some parts
  | (name, value) :: es =>
    match add_value name value parts with
    | Some parts => add_values es parts
    | None => None
    end
  end.

Definition Redactor_new (entries : list (list Z * list Z)) : option Redactor :=
  match add_values entries ([], []) with
  | Some (ps, reps) => from_parts ps reps
  | None => None
  end.
Definition Redactor_empty : Redactor :=
  {| ac := None; replacements := []; max_len := 0; pats := []; first := replicate 256 false |}.
(** This redactor plus one more value. *)
Definition Redactor_with (r : Redactor) (name value : list Z) : option Redactor :=
  match add_value name value (pats r, replacements r) with
  | Some (ps, reps) => from_parts ps reps
  | None => None
  end.

Definition list_starts_with (p t : list Z) : bool := if base.decide (t `prefix_of` p) then true else false.

(** Is the last [k] bytes of [buf] the start of a longer pattern? *)
Definition holds_tail (r : Redactor) (buf : list Z) (k : nat) : bool :=
  let tail := drop (length buf - k) buf in
  match tail with
  | [] => false
  | b :: _ =>
    if negb (nth (Z.to_nat b) (first r) false) then false
    else existsb (λ p, (k <? length p)%nat && list_starts_with p tail) (pats r)
  end.
(** [for k in (1..=k).rev()], the first that holds. *)
Fixpoint hold_from (r : Redactor) (buf : list Z) (k : nat) : nat :=
  match k with
  | O => 0
  | S k' => if holds_tail r buf k then k else hold_from r buf k'
  end.
Definition tail_hold (r : Redactor) (buf : list Z) : nat :=
  hold_from r buf (Nat.min (max_len r - 1) (length buf)).

Definition is_empty (r : Redactor) : bool := if ac r is Some _ then false else true.

(** [&input[a..b]] where [a <= b <= len]. *)
Definition cut_out (input : list Z) (a b : nat) : list Z := take (b - a) (drop a input).

(** The loop over the matches; [pos] is the end of the last one. *)
Fixpoint redact_loop (r : Redactor) (input : list Z) (ms : list Match) (pos : nat) (out : list Z) : list Z * nat :=
  match ms with
  | [] => (out, pos)
  | m :: ms =>
    redact_loop r input ms (m_end m)
      ((out ++ cut_out input pos (m_start m)) ++ nth (m_pattern m) (replacements r) [])
  end.
Definition redact (r : Redactor) (input : list Z) : list Z :=
  match ac r with
  | None => input
  | Some a =>
    let '(out, pos) := redact_loop r input (ac_find_iter a input) 0 [] in
    out ++ drop pos input
  end.
Definition redact_str (r : Redactor) (input : list Z) : list Z := utf8_lossy (redact r input).

(** True when [input] contains any pattern. *)
Definition hits (r : Redactor) (input : list Z) : bool := opt_is_some_and (λ a, ac_is_match a input) (ac r).

(** ** Streams *)

(** The same loop, up to the first match that starts in the held tail. *)
Fixpoint push_loop (r : Redactor) (buf : list Z) (safe_end : nat) (ms : list Match) (pos : nat) (out : list Z) : list Z * nat :=
  match ms with
  | [] => (out, pos)
  | m :: ms =>
    if (safe_end <=? m_start m)%nat then (out, pos)
    else
      push_loop r buf safe_end ms (m_end m)
        ((out ++ cut_out buf pos (m_start m)) ++ nth (m_pattern m) (replacements r) [])
  end.
(** [StreamRedactor::push]: what goes out, and the carry it leaves. *)
Definition push (r : Redactor) (carry chunk : list Z) : list Z * list Z :=
  match ac r with
  | None => (chunk, carry)
  | Some a =>
    let buf := carry ++ chunk in
    let hold := tail_hold r buf in
    let safe_end := (length buf - hold)%nat in
    let '(out, pos) := push_loop r buf safe_end (ac_find_iter a buf) 0 [] in
    let cut := Nat.max pos safe_end in
    (out ++ cut_out buf pos cut, drop cut buf)
  end.
Definition finish (r : Redactor) (carry : list Z) : list Z * list Z := (redact r carry, []).

(** [r.stream()], a push for each chunk, then [finish]. *)
Fixpoint pushes (r : Redactor) (carry : list Z) (chunks : list (list Z)) : list Z * list Z :=
  match chunks with
  | [] => ([], carry)
  | c :: cs =>
    let '(o, carry) := push r carry c in
    let '(os, carry) := pushes r carry cs in
    (o ++ os, carry)
  end.
Definition redact_stream (r : Redactor) (chunks : list (list Z)) : list Z :=
  let '(o, carry) := pushes r [] chunks in
  o ++ (finish r carry).1.

End redactor.
Arguments Redactor AC : clear implicits.

(** ** What the automaton and the escaper promise *)

(** Pattern [p] occurs at [s] of [l]. *)
Definition occurs_at (ps : list (list Z)) (l : list Z) (s : nat) (p : list Z) : Prop :=
  p ∈ ps ∧ p `prefix_of` drop s l.

(** The matches of [l] from [pos]: leftmost, among those the longest, then on
    from its end; [which] is the pattern reported for a text. *)
Inductive Found (ps : list (list Z)) (which : list Z → nat) (l : list Z) : nat → list Match → Prop :=
| Found_nil pos : (∀ s p, (pos ≤ s)%nat → ¬ occurs_at ps l s p) → Found ps which l pos []
| Found_cons pos p s ms :
    (pos ≤ s)%nat → occurs_at ps l s p →
    (∀ s' p', (pos ≤ s' < s)%nat → ¬ occurs_at ps l s' p') →
    (∀ p', occurs_at ps l s p' → (length p' ≤ length p)%nat) →
    Found ps which l (s + length p) ms →
    Found ps which l pos ({| m_pattern := which p; m_start := s; m_end := s + length p |} :: ms).

(** [aho-corasick]'s documentation of leftmost-longest searches. *)
Class AhoCorasickLaw (AC : Type) `{!AhoCorasick AC} := {
  ac_which : AC → list Z → nat;
  ac_which_pattern ps a p : ac_build ps = Some a → p ∈ ps → ps !! ac_which a p = Some p;
  ac_find_iter_found ps a l : ac_build ps = Some a → [] ∉ ps → Found ps (ac_which a) l 0 (ac_find_iter a l);
  ac_is_match_iff ps a l : ac_build ps = Some a →
    ac_is_match a l = true ↔ ∃ s p, (s ≤ length l)%nat ∧ occurs_at ps l s p;
}.

(** A JSON string: its text between quotes, UTF-8 again, and no shorter than
    what it stands for. *)
Class JsonStringLaw `{!JsonString} :=
  json_quoted s j : json_to_string s = Some j →
    ∃ inner, j = 34 :: inner ++ [34] ∧ utf8_ok inner ∧ Forall is_byte inner ∧ (length s ≤ length inner)%nat.

(** ** The text a redactor makes of another

    The specification: left to right, the longest pattern the rest begins
    with becomes its label, any other byte stays. *)

Inductive Redacted (ps : list (list Z)) (lab : list Z → list Z) : list Z → list Z → Prop :=
| Redacted_nil : Redacted ps lab [] []
| Redacted_copy x l o :
    (∀ p, p ∈ ps → ¬ p `prefix_of` x :: l) → Redacted ps lab l o → Redacted ps lab (x :: l) (x :: o)
| Redacted_match p l o :
    p ∈ ps → p ≠ [] → (∀ p', p' ∈ ps → p' `prefix_of` p ++ l → (length p' ≤ length p)%nat) →
    Redacted ps lab l o → Redacted ps lab (p ++ l) (lab p ++ o).

Lemma prefix_same_length {A} (p q l : list A) :
  p `prefix_of` l → q `prefix_of` l → length p = length q → p = q.
Proof. intros [k ->] [k' H] Hl. by destruct (app_inj_1 p q k k' Hl H). Qed.

Lemma prefix_app_inv_short {A} (p l k : list A) : p `prefix_of` l ++ k → (length p ≤ length l)%nat → p `prefix_of` l.
Proof.
  intros Hp Hl. destruct (prefix_weak_total p l (l ++ k)) as [?|Hq]; [done|by apply prefix_app_r|done|].
  by rewrite (prefix_length_eq _ _ Hq).
Qed.

Lemma Redacted_det ps lab l o o' : Redacted ps lab l o → Redacted ps lab l o' → o = o'.
Proof.
  intros H. revert o'. induction H as [|x l o Hn H IH|p l o Hp Hne Hmax H IH]; intros o' H'.
  - inversion H' as [| |p l o'' Hp Hne _ _ Heq]; [done|]. by destruct p.
  - inversion H' as [|x' l' o'' _ H1|p l' o'' Hp _ _ _ Heq]; subst; [f_equal; by apply IH|].
    destruct (Hn p Hp). rewrite <- Heq. by apply prefix_app_r.
  - inversion H' as [Heq|x' l' o'' Hn H1 Heq|p' l' o'' Hp' _ Hmax' H1 Heq].
    + by destruct p.
    + destruct (Hn p Hp). rewrite Heq. by apply prefix_app_r.
    + assert (p' = p) as ->.
      { apply (prefix_same_length _ _ (p ++ l)); [rewrite <- Heq; by apply prefix_app_r|by apply prefix_app_r|].
        apply Nat.le_antisymm; [apply Hmax; [done|]; rewrite <- Heq; by apply prefix_app_r|].
        apply Hmax'; [done|]. rewrite Heq. by apply prefix_app_r. }
      apply app_inv_head in Heq as ->. f_equal. by apply IH.
Qed.

(** Where a pattern stands, some match overlaps it. *)
Lemma Redacted_overlap ps lab l o s p (Hempty : [] ∉ ps) : Redacted ps lab l o → p ∈ ps → p `prefix_of` drop s l →
  ∃ u q z ou oz, l = u ++ q ++ z ∧ q ∈ ps ∧ o = ou ++ lab q ++ oz ∧ Redacted ps lab z oz
    ∧ (length u < s + length p)%nat ∧ (s < length u + length q)%nat.
Proof.
  intros H Hp. revert s. induction H as [|c l o Hn H IH|q l o Hq Hne Hmax H IH]; intros s Hpre.
  - rewrite drop_nil in Hpre. apply prefix_nil_inv in Hpre as ->. destruct (Hempty Hp).
  - destruct s as [|s]; [by destruct (Hn p Hp)|]. destruct (IH s Hpre) as (u&q&z&ou&oz&->&Hq&->&Hz&H1&H2).
    exists (c :: u), q, z, (c :: ou), oz. split_and!; try done; cbn; lia.
  - destruct (decide (s < length q)%nat) as [Hs|Hs].
    + exists [], q, l, [], o. split_and!; try done. cbn. destruct p; [by destruct Hempty|cbn; lia].
    + rewrite drop_app_ge in Hpre by lia. destruct (IH _ Hpre) as (u&q'&z&ou&oz&->&Hq'&->&Hz&H1&H2).
      exists (q ++ u), q', z, (lab q ++ ou), oz. rewrite !length_app. split_and!; try done; rewrite <- ?app_assoc; try done; lia.
Qed.

(** ** Patterns of a redactor *)

Lemma max_length_ge ps p : p ∈ ps → (length p ≤ max_length ps)%nat.
Proof. unfold max_length. induction ps as [|q ps IH]; [by intros ?%elem_of_nil|]. cbn. intros [->|H]%elem_of_cons; [lia|]. specialize (IH H). lia. Qed.

Section well_formed.
Context {AC : Type} `{ac_ops : !AhoCorasick AC} `{ac_law : !AhoCorasickLaw AC} `{js : !JsonString} `{js_law : !JsonStringLaw}.

(** What every constructor establishes. *)
Record redactor_wf (r : Redactor AC) : Prop := {
  wf_nonempty : [] ∉ pats r;
  wf_bytes : Forall (Forall is_byte) (pats r);
  wf_labels : length (replacements r) = length (pats r);
  wf_max : max_len r = max_length (pats r);
  wf_first : ∀ b p, b :: p ∈ pats r → nth (Z.to_nat b) (first r) false = true;
  wf_ac : build_ac (pats r) = Some (ac r);
}.

(** The pattern the automaton reports for a text. *)
Definition which_of (r : Redactor AC) (p : list Z) : nat := match ac r with Some a => ac_which a p | None => 0 end.

(** The label a matched text gets. *)
Definition label_of (r : Redactor AC) (p : list Z) : list Z :=
  nth (which_of r p) (replacements r) [].

Lemma mark_first_spec ps fs :
  [] ∉ ps → Forall (Forall is_byte) ps → length fs = 256%nat →
  ∃ fs', mark_first ps fs = Some fs'
    ∧ (∀ b p, b :: p ∈ ps → nth (Z.to_nat b) fs' false = true)
    ∧ (∀ i, nth i fs false = true → nth i fs' false = true).
Proof.
  revert fs. induction ps as [|p ps IH]; intros fs Hne Hb Hl.
  { eexists. split_and!; [done|by intros ?? ?%elem_of_nil|done]. }
  rewrite not_elem_of_cons in Hne. destruct Hne as [Hp Hne].
  destruct p as [|b p]; [done|]. inversion_clear Hb as [|? ? Hbp Hbs]. inversion_clear Hbp as [|? ? Hb _].
  assert (Hset : nth (Z.to_nat b) (<[Z.to_nat b:=true]> fs) false = true).
  { rewrite nth_lookup, list_lookup_insert_eq; [done|]. unfold is_byte in Hb. lia. }
  destruct (IH (<[Z.to_nat b:=true]> fs) Hne Hbs) as (fs'&Hm&Hf&Hk); [by rewrite length_insert|].
  exists fs'. split_and!; [done| |].
  - intros b' p' [[= -> ->]|Hin]%elem_of_cons; [by apply Hk|by eapply Hf].
  - intros i Hi. apply Hk. destruct (decide (i = Z.to_nat b)) as [->|Hn]; [done|].
    by rewrite nth_lookup, list_lookup_insert_ne, <- nth_lookup by done.
Qed.

Lemma from_parts_wf ps reps :
  [] ∉ ps → Forall (Forall is_byte) ps → length reps = length ps → is_Some (build_ac (AC := AC) ps) →
  ∃ r, from_parts ps reps = Some r ∧ redactor_wf r ∧ pats r = ps ∧ replacements r = reps.
Proof.
  intros Hne Hb Hl [a Ha]. unfold from_parts. rewrite Ha.
  destruct (mark_first_spec ps (replicate 256 false) Hne Hb) as (fs&->&Hf&_); [done|].
  eexists. split_and!; [done|split; done|done|done].
Qed.


(** ** The loop computes the specification *)

Lemma Redacted_gap ps lab buf f pos n o :
  (pos + n ≤ length buf)%nat →
  (∀ i p, (pos ≤ i < pos + n)%nat → p ∈ ps → ¬ p `prefix_of` drop i buf ++ f) →
  Redacted ps lab (drop (pos + n) buf ++ f) o →
  Redacted ps lab (drop pos buf ++ f) (take n (drop pos buf) ++ o).
Proof.
  revert pos. induction n as [|n IH]; intros pos Hl Hn H; [by rewrite Nat.add_0_r in H|].
  destruct (lookup_lt_is_Some_2 buf pos) as [x Hx]; [lia|].
  specialize (Hn pos) as Hpos. rewrite (drop_S _ _ _ Hx) in Hpos |- *. cbn.
  constructor; [intros p Hp; apply Hpos; [lia|done]|].
  apply IH; [lia|intros i p Hi; apply Hn; lia|]. by rewrite <- Nat.add_succ_comm in H.
Qed.

Lemma push_loop_out (r : Redactor AC) buf safe_end ms pos out :
  push_loop r buf safe_end ms pos out
  = (out ++ (push_loop r buf safe_end ms pos []).1, (push_loop r buf safe_end ms pos []).2 : nat).
Proof.
  revert pos out. induction ms as [|m ms IH]; intros pos out; cbn [push_loop]; [by rewrite app_nil_r|].
  case_match; [by rewrite app_nil_r|]. rewrite IH. symmetry. rewrite IH. cbn. by rewrite !app_assoc.
Qed.

Lemma occurs_end ps l s p : p ≠ [] → occurs_at ps l s p → (s + length p ≤ length l)%nat ∧ (s < length l)%nat.
Proof.
  intros Hne [_ Hp]. apply prefix_length in Hp. rewrite length_drop in Hp. destruct p; [done|]. cbn in *. lia.
Qed.

(** What is sent up to [cut], with any later text redacted after it, is the
    redaction of the buffer with that text after it: before [safe_end] no
    occurrence depends on what follows. *)
Lemma push_loop_redacted (r : Redactor AC) buf f safe_end pos ms :
  redactor_wf r → Found (pats r) (which_of r) buf pos ms →
  (∀ i p, (i < safe_end)%nat → p ∈ pats r → p `prefix_of` drop i buf ++ f → p `prefix_of` drop i buf) →
  (pos ≤ length buf)%nat → (safe_end ≤ length buf)%nat →
  let '(out, pos') := push_loop r buf safe_end ms pos [] in
  let cut := Nat.max pos' safe_end in
  (pos' ≤ length buf)%nat ∧
  ∀ o, Redacted (pats r) (label_of r) (drop cut buf ++ f) o →
    Redacted (pats r) (label_of r) (drop pos buf ++ f) (out ++ cut_out buf pos' cut ++ o).
Proof.
  intros Hwf HF Hsafe. induction HF as [pos Hno|pos p s ms Hps Hocc Hleft Hmax HF IH]; intros Hpos Hse; cbn [push_loop].
  - split; [done|]. intros o Ho. unfold cut_out. cbn [app].
    apply Redacted_gap; [lia| |by rewrite <- Nat.le_add_sub by lia].
    intros i p Hi Hp Hpre. apply (Hno i p); [lia|]. split; [done|]. apply Hsafe; [lia|done..].
  - cbn [m_start m_end m_pattern].
    assert (Hne : p ≠ []) by (intros ->; by destruct (wf_nonempty r Hwf), Hocc).
    destruct (occurs_end _ _ _ _ Hne Hocc) as [Hend Hs].
    destruct (safe_end <=? s)%nat eqn:Hle.
    + apply Nat.leb_le in Hle. split; [done|]. intros o Ho. unfold cut_out. cbn [app].
      apply Redacted_gap; [lia| |by rewrite <- Nat.le_add_sub by lia].
      intros i q Hi Hq Hpre. apply (Hleft i q); [lia|]. split; [done|]. apply Hsafe; [lia|done..].
    + apply Nat.leb_gt in Hle. rewrite push_loop_out.
      specialize (IH Hend Hse). destruct (push_loop r buf safe_end ms (s + length p) []) as [out pos'].
      destruct IH as [Hp' IH]. split; [done|]. intros o Ho. cbn [fst snd app] in Ho |- *. unfold cut_out at 1.
      change (nth _ _ []) with (label_of r p).
      rewrite <- !app_assoc. apply Redacted_gap; [lia| |].
      { intros i q Hi Hq Hpre. apply (Hleft i q); [lia|]. split; [done|]. apply Hsafe; [lia|done..]. }
      rewrite <- Nat.le_add_sub by lia. destruct Hocc as [Hin [k Hk]]. rewrite Hk, <- app_assoc.
      apply Redacted_match; [done..| |].
      * intros p' Hp'in Hpre. apply Hmax. split; [done|]. apply Hsafe; [lia|done|]. by rewrite Hk, <- app_assoc.
      * replace k with (drop (s + length p) buf) by (by rewrite <- drop_drop, Hk, drop_app_length).
        by apply IH.
Qed.

Lemma redact_loop_push (r : Redactor AC) l ms pos out :
  [] ∉ pats r → Found (pats r) (which_of r) l pos ms →
  redact_loop r l ms pos out = push_loop r l (length l) ms pos out.
Proof.
  intros Hne HF. revert out. induction HF as [|pos p s ms Hps Hocc Hleft Hmax HF IH]; intros out; cbn; [done|].
  assert (p ≠ []) as Hp by (intros ->; by destruct Hne, Hocc).
  destruct (occurs_end _ _ _ _ Hp Hocc) as [_ Hs]. rewrite (proj2 (Nat.leb_gt _ _) Hs). apply IH.
Qed.


Lemma hold_from_le (r : Redactor AC) buf k : (hold_from r buf k ≤ k)%nat.
Proof. induction k as [|k IH]; cbn [hold_from]; [done|]. case_match; lia. Qed.
Lemma hold_from_ge (r : Redactor AC) buf k n : (1 ≤ k ≤ n)%nat → holds_tail r buf k = true → (k ≤ hold_from r buf n)%nat.
Proof.
  induction n as [|n IH]; intros Hk Ht; cbn [hold_from]; [lia|].
  destruct (decide (k = S n)) as [->|Hn]; [by rewrite Ht|].
  case_match; [lia|]. apply IH; [lia|done].
Qed.

Lemma tail_hold_bounds (r : Redactor AC) buf : (tail_hold r buf ≤ max_len r - 1)%nat ∧ (tail_hold r buf ≤ length buf)%nat.
Proof. unfold tail_hold. pose proof (hold_from_le r buf (Nat.min (max_len r - 1) (length buf))). lia. Qed.

(** A tail that begins a longer pattern is held. *)
Lemma tail_hold_holds (r : Redactor AC) buf i p :
  redactor_wf r → p ∈ pats r → (i < length buf)%nat → drop i buf `prefix_of` p → (length buf - i < length p)%nat →
  (length buf - i ≤ tail_hold r buf)%nat.
Proof.
  intros Hwf Hp Hi Hpre Hlen. unfold tail_hold. pose proof (max_length_ge _ _ Hp) as Hmax.
  rewrite <- (wf_max r Hwf) in Hmax. apply hold_from_ge; [lia|]. unfold holds_tail.
  replace (length buf - (length buf - i))%nat with i by lia.
  destruct (lookup_lt_is_Some_2 buf i Hi) as [b Hb]. rewrite (drop_S _ _ _ Hb) in Hpre |- *.
  assert (Hf : nth (Z.to_nat b) (first r) false = true).
  { destruct Hpre as [k ->]. by eapply (wf_first r Hwf). }
  rewrite Hf. cbn [negb]. apply existsb_true. exists p. split; [done|].
  apply andb_true_iff. split; [apply Nat.ltb_lt; lia|].
  unfold list_starts_with. by destruct (decide _).
Qed.

Lemma safe_end_safe (r : Redactor AC) buf f i p :
  redactor_wf r → (i < length buf - tail_hold r buf)%nat → p ∈ pats r →
  p `prefix_of` drop i buf ++ f → p `prefix_of` drop i buf.
Proof.
  intros Hwf Hi Hp Hpre.
  destruct (prefix_weak_total p (drop i buf) (drop i buf ++ f)) as [?|Hd]; [done|by apply prefix_app_r|done|].
  destruct (decide (length p ≤ length buf - i)%nat) as [Hle|Hgt].
  - rewrite (prefix_length_eq _ _ Hd); [done|]. by rewrite length_drop.
  - pose proof (tail_hold_holds r buf i p Hwf Hp ltac:(lia) Hd). lia.
Qed.

Lemma found (r : Redactor AC) a l : redactor_wf r → ac r = Some a →
  Found (pats r) (which_of r) l 0 (ac_find_iter a l).
Proof.
  intros Hwf Ha. pose proof (wf_ac r Hwf) as Hb. rewrite Ha in Hb.
  assert (ac_build (pats r) = Some a) as Hab.
  { unfold build_ac in Hb. destruct (pats r) as [|p ps]; [done|]. by apply fmap_Some in Hb as (a'&->&[= ->]). }
  pose proof (ac_find_iter_found _ a l Hab (wf_nonempty r Hwf)) as HF.
  replace (which_of r) with (ac_which a); [done|]. unfold which_of. by rewrite Ha.
Qed.

Lemma Redacted_none (r : Redactor AC) l : redactor_wf r → ac r = None → Redacted (pats r) (label_of r) l l.
Proof.
  intros Hwf Ha. pose proof (wf_ac r Hwf) as Hb. rewrite Ha in Hb. unfold build_ac in Hb.
  destruct (pats r) as [|p ps]; [|by destruct (ac_build _)].
  induction l as [|x l IH]; constructor; [by intros ? ?%elem_of_nil|done].
Qed.

Lemma redact_Redacted (r : Redactor AC) l : redactor_wf r → Redacted (pats r) (label_of r) l (redact r l).
Proof.
  intros Hwf. unfold redact. destruct (ac r) as [a|] eqn:Ha; [|by apply Redacted_none].
  pose proof (found r a l Hwf Ha) as HF. rewrite (redact_loop_push r l _ 0 [] (wf_nonempty r Hwf) HF).
  pose proof (push_loop_redacted r l [] (length l) 0 _ Hwf HF) as Hpush.
  destruct (push_loop _ _ _ _ _ _) as [out pos]. destruct Hpush as [Hpos Hr]; [|lia|lia|].
  { intros i p _ _ Hpre. by rewrite app_nil_r in Hpre. }
  rewrite Nat.max_r in Hr by done. specialize (Hr []). rewrite drop_all, !app_nil_r in Hr.
  unfold cut_out in Hr. rewrite take_ge in Hr by (rewrite length_drop; lia). apply Hr. constructor.
Qed.

(** [hits] is a match; without one the text stays. *)
Lemma hits_iff (r : Redactor AC) l : redactor_wf r → hits r l = true ↔ ∃ s p, occurs_at (pats r) l s p.
Proof.
  intros Hwf. unfold hits. pose proof (wf_ac r Hwf) as Hac. pose proof (wf_nonempty r Hwf) as Hn.
  destruct (pats r) as [|p ps] eqn:Hp; cbn [build_ac] in Hac.
  { injection Hac as <-. split; [done|]. by intros (s&p&?%elem_of_nil&_). }
  apply fmap_Some in Hac as (a&Ha&->). cbn [opt_is_some_and].
  rewrite (ac_is_match_iff _ a) by exact Ha. split; [intros (s&q&_&H); by exists s, q|]. intros (s&q&H). exists s, q. split; [|done].
  destruct (decide (q = [])) as [->|Hq]; [by destruct H|]. pose proof (occurs_end _ _ _ _ Hq H). lia.
Qed.
Lemma no_hits_same (r : Redactor AC) l : redactor_wf r → hits r l = false → redact r l = l.
Proof.
  intros Hwf Hh. eapply Redacted_det; [by apply redact_Redacted|].
  assert (Hno : ∀ s p, ¬ occurs_at (pats r) l s p).
  { intros s p Ho. assert (hits r l = true) by (apply hits_iff; [done|eauto]). congruence. }
  clear Hh. induction l as [|x l IH]; constructor.
  - intros p Hp Hpre. by apply (Hno 0%nat p).
  - apply IH. intros s p [Hp Hpre]. by apply (Hno (S s) p).
Qed.

Lemma push_Redacted (r : Redactor AC) carry chunk f o' :
  redactor_wf r → (ac r = None → carry = []) →
  let '(o, carry') := push r carry chunk in
  (ac r = None → carry' = []) ∧ (length carry' ≤ max_len r - 1)%nat ∧
  (Redacted (pats r) (label_of r) (carry' ++ f) o' → Redacted (pats r) (label_of r) (carry ++ chunk ++ f) (o ++ o')).
Proof.
  intros Hwf Hc. unfold push. destruct (ac r) as [a|] eqn:Ha.
  - set (buf := carry ++ chunk). pose proof (found r a buf Hwf Ha) as HF.
    pose proof (tail_hold_bounds r buf) as [Hb1 Hb2].
    pose proof (push_loop_redacted r buf f (length buf - tail_hold r buf) 0 _ Hwf HF) as Hpush.
    destruct (push_loop _ _ _ _ _ _) as [out pos].
    destruct Hpush as [Hpos Hr]; [intros i p; by apply safe_end_safe|lia|lia|].
    split_and!; [done|rewrite length_drop; lia|]. intros Ho.
    rewrite (app_assoc carry chunk f), <- (app_assoc out). by apply Hr.
  - rewrite (Hc eq_refl). split_and!; [done|cbn; lia|]. intros Ho. cbn in *.
    pose proof (Redacted_det _ _ _ _ _ Ho (Redacted_none r f Hwf Ha)) as ->.
    by apply Redacted_none.
Qed.

Lemma pushes_carry (r : Redactor AC) carry chunks :
  redactor_wf r → (ac r = None → carry = []) → (length carry ≤ max_len r - 1)%nat →
  (length (pushes r carry chunks).2 ≤ max_len r - 1)%nat.
Proof.
  intros Hwf. revert carry. induction chunks as [|c cs IH]; intros carry Hc Hl; cbn [pushes]; [done|].
  pose proof (push_Redacted r carry c [] [] Hwf Hc) as Hp. destruct (push r carry c) as [o carry'] eqn:Ho.
  destruct Hp as (Hn&Hl'&_). specialize (IH carry' Hn Hl'). by destruct (pushes r carry' cs).
Qed.

Lemma pushes_Redacted (r : Redactor AC) carry chunks :
  redactor_wf r → (ac r = None → carry = []) →
  let '(o, carry') := pushes r carry chunks in
  Redacted (pats r) (label_of r) (carry ++ concat chunks) (o ++ redact r carry').
Proof.
  intros Hwf. revert carry. induction chunks as [|c cs IH]; intros carry Hc; cbn [pushes concat].
  - rewrite app_nil_r. by apply redact_Redacted.
  - pose proof (λ o', push_Redacted r carry c (concat cs) o' Hwf Hc) as Hp.
    destruct (push r carry c) as [o carry'] eqn:Ho. destruct (Hp []) as (Hn&_&_).
    specialize (IH carry' Hn). destruct (pushes r carry' cs) as [os carry''].
    rewrite <- app_assoc. by apply (Hp _).
Qed.

End well_formed.

(** ** The patterns of a value *)

Lemma elem_of_dedup q l : q ∈ dedup l ↔ q ∈ l.
Proof.
  induction l as [|x [|y r] IH]; [done..|].
  change (dedup (x :: y :: r)) with (if base.decide (x = y) then dedup (y :: r) else x :: dedup (y :: r)).
  destruct (base.decide (x = y)) as [->|]; rewrite ?elem_of_cons, IH, ?elem_of_cons; tauto.
Qed.
Lemma elem_of_sorted q l : q ∈ dedup (isort lex_leb l) ↔ q ∈ l.
Proof. by rewrite elem_of_dedup, isort_Permutation. Qed.

(** A pattern the automaton and [first] can take. *)
Definition good (q : list Z) : Prop := Forall is_byte q ∧ q ≠ [].

Lemma nth_byte l n : Forall is_byte l → is_byte (nth n l 0).
Proof. intros H. rewrite nth_lookup. destruct (l !! n) as [x|] eqn:Hx; [by eapply Forall_lookup_1|done]. Qed.

Definition b64_alphabets : list (list Z) := [B64_STD; B64_URL].
Lemma alphabets_bytes alpha : alpha ∈ b64_alphabets → Forall is_byte alpha.
Proof.
  intros H. apply Forall_forall. intros x Hx.
  assert (Hall : forallb (forallb (λ b, (0 <=? b) && (b <? 256))) b64_alphabets = true) by (vm_compute; reflexivity).
  rewrite forallb_true in Hall. specialize (Hall _ H). rewrite forallb_true in Hall. specialize (Hall _ Hx).
  bool_props. by split.
Qed.
Lemma hex_digit_byte H d : Forall is_byte H → is_byte (hex_digit H d).
Proof. apply nth_byte. Qed.
Lemma hex_digits_bytes : Forall is_byte HEX_LOWER ∧ Forall is_byte HEX_UPPER.
Proof. split; repeat constructor; done. Qed.

Lemma Forall_concat_fmap {A} (P : Z → Prop) (f : A → list Z) l : (∀ x, x ∈ l → Forall P (f x)) → Forall P (concat (f <$> l)).
Proof. intros H. apply Forall_concat, Forall_fmap, Forall_forall. exact H. Qed.
Lemma concat_fmap_nil {A B} (f : A → list B) l : (∀ x, x ∈ l → f x ≠ []) → l ≠ [] → concat (f <$> l) ≠ [].
Proof. destruct l as [|x l]; [done|]. intros H _ [He _]%app_nil. by apply (H x); [apply list_elem_of_here|]. Qed.

Lemma hex_good v : v ≠ [] → good (hex v) ∧ good (to_ascii_uppercase (hex v)).
Proof.
  intros Hne. assert (Hg : good (hex v)).
  { split; [apply Forall_concat_fmap; intros; repeat constructor; apply hex_digit_byte, hex_digits_bytes|].
    by apply concat_fmap_nil. }
  split; [done|]. destruct Hg as [Hb Hn]. split.
  - apply Forall_fmap. eapply Forall_impl; [done|]. unfold is_byte, is_ascii_lowercase. intros x Hx. cbn.
    destruct (97 <=? x) eqn:E1, (x <=? 122) eqn:E2; cbn; bool_props; lia.
  - unfold to_ascii_uppercase. by destruct (hex v).
Qed.

Lemma percent_good v upper : Forall is_byte v → v ≠ [] → good (percent v upper).
Proof.
  intros Hb Hne. split.
  - apply Forall_concat_fmap. intros x Hx. rewrite Forall_forall in Hb.
    destruct (percent_plain x); [by apply Forall_singleton, Hb|].
    repeat constructor; try done; apply hex_digit_byte; destruct upper; apply hex_digits_bytes.
  - apply concat_fmap_nil; [|done]. intros x _. by destruct (percent_plain x).
Qed.

Lemma keep_long_good q p : Forall is_byte q → p ∈ keep_long q → good p.
Proof. unfold keep_long. case_match; [|by intros ? ?%elem_of_nil]. intros Hq ->%list_elem_of_singleton. split; [done|]. by destruct q. Qed.

Lemma base64_at_good v shift alpha q : alpha ∈ b64_alphabets → q ∈ base64_at v shift alpha → good q.
Proof.
  intros Ha%alphabets_bytes. unfold base64_at.
  assert (Hc : ∀ x, is_byte (b64_char alpha x)) by (intros x; by apply nth_byte).
  assert (Hl : ∀ s0 f l, l ∈ lead_forms alpha v s0 f → Forall is_byte (opt_list l)).
  { intros s0 f l. unfold lead_forms. case_match; [by intros ->%list_elem_of_singleton|].
    intros (u&->&_)%list_elem_of_fmap. apply Forall_singleton, Hc. }
  assert (Ht : ∀ s1 e n, (∀ t, t ∈ (trail_forms alpha v s1 e n).1 → Forall is_byte (opt_list t))
    ∧ ∀ c pads, (trail_forms alpha v s1 e n).2 = Some (c, pads) → is_byte c).
  { intros s1 e n. unfold trail_forms. case_match; split.
    - by intros t ->%list_elem_of_singleton.
    - done.
    - intros t (u&->&_)%list_elem_of_fmap. apply Forall_singleton, Hc.
    - intros c pads [= <- _]. apply Hc. }
  cbv zeta. destruct (trail_forms _ _ _ _ _) as [trail padded] eqn:Htf.
  destruct (Ht (8 * shift + length v * 8) ((8 * shift + length v * 8) / 6) (length v * 8))%nat as [Ht1 Ht2].
  rewrite Htf in Ht1, Ht2. cbn in Ht1, Ht2.
  assert (Hfull : ∀ c, Forall is_byte ((λ c, b64_char alpha (bits v (6 * c - 8 * shift) 6)) <$> c)).
  { intros c. apply Forall_fmap, Forall_true. intros. apply Hc. }
  intros Hq. apply list_elem_of_In, in_concat in Hq as (qs&Hqs&Hq). apply list_elem_of_In in Hqs, Hq.
  apply list_elem_of_fmap in Hqs as (l&->&Hl1). apply Hl in Hl1.
  apply elem_of_app in Hq as [Hq|Hq].
  - apply list_elem_of_In, in_concat in Hq as (qs&Hqs&Hq). apply list_elem_of_In in Hqs, Hq.
    apply list_elem_of_fmap in Hqs as (t&->&Ht0). eapply keep_long_good; [|done].
    rewrite !Forall_app. auto.
  - destruct padded as [[c pads]|]; [|by apply elem_of_nil in Hq]. eapply keep_long_good; [|done].
    rewrite !Forall_app. split_and!; [done|apply Hfull|by eapply Forall_singleton, Ht2|by apply Forall_replicate].
Qed.

Lemma elem_of_concat_fmap {A B} (f : A → list B) l y : y ∈ concat (f <$> l) ↔ ∃ x, x ∈ l ∧ y ∈ f x.
Proof.
  rewrite list_elem_of_In, in_concat. split.
  - intros (z&Hz&Hy). apply list_elem_of_In in Hz, Hy. apply list_elem_of_fmap in Hz as (x&->&Hx). eauto.
  - intros (x&Hx&Hy). exists (f x). rewrite <- !list_elem_of_In. split; [by apply list_elem_of_fmap_2|done].
Qed.

Lemma elem_of_base64_variants v out q : q ∈ base64_variants v out ↔
  q ∈ out ∨ ((3 ≤ length v)%nat ∧ ∃ shift alpha, (shift < 3)%nat ∧ alpha ∈ b64_alphabets ∧ q ∈ base64_at v shift alpha).
Proof.
  unfold base64_variants. destruct (length v <? 3)%nat eqn:Hl.
  - apply Nat.ltb_lt in Hl. split; [by left|]. intros [?|[? _]]; [done|lia].
  - apply Nat.ltb_ge in Hl. rewrite elem_of_app, elem_of_concat_fmap. apply or_iff_compat_l. split.
    + intros (s&Hs&Hq). apply elem_of_concat_fmap in Hq as (alpha&Ha&Hq). apply elem_of_seq in Hs. split; [done|].
      exists s, alpha. split_and!; [lia|done|done].
    + intros (_&s&alpha&Hs&Ha&Hq). exists s. split; [apply elem_of_seq; lia|]. apply elem_of_concat_fmap. eauto.
Qed.

Section values.
Context {AC : Type} `{ac_ops : !AhoCorasick AC} `{ac_law : !AhoCorasickLaw AC} `{js : !JsonString} `{js_law : !JsonStringLaw}.

Lemma escape_slash_good s : good s → good (escape_slash s).
Proof.
  intros [Hb Hne]. split.
  - apply Forall_concat_fmap. intros x Hx. rewrite Forall_forall in Hb.
    case_match; [by repeat constructor|by apply Forall_singleton, Hb].
  - apply concat_fmap_nil; [|done]. intros x _. by case_match.
Qed.

(** The value itself, its encodings, and with valid UTF-8 the JSON forms:
    all patterns the automaton takes; none is a panic. *)
Lemma variants_spec v : v ≠ [] → Forall is_byte v →
  ∃ vs, variants v = Some vs ∧ Forall good vs
    ∧ (∀ q, q ∈ base64_variants v [v] ∨ q ∈ [hex v; to_ascii_uppercase (hex v); percent v true; percent v false] → q ∈ vs)
    ∧ ∀ inner, utf8_ok v → json_to_string v = Some (34 :: inner ++ [34]) → inner ∈ vs ∧ escape_slash inner ∈ vs.
Proof.
  intros Hne Hb. unfold variants. set (out := base64_variants v [v] ++ _).
  assert (Hout : Forall good out).
  { apply Forall_app. split.
    - apply Forall_forall. intros q Hq. apply elem_of_base64_variants in Hq as [->%list_elem_of_singleton|(_&?&?&_&Ha&Hq)]; [done|].
      by eapply base64_at_good.
    - destruct (hex_good v Hne). repeat (apply Forall_cons; split); [done..| | |by constructor]; by apply percent_good. }
  assert (Hsub : ∀ extra, Forall good extra →
    Forall good (dedup (isort lex_leb (out ++ extra))) ∧ ∀ q, q ∈ out ∨ q ∈ extra → q ∈ dedup (isort lex_leb (out ++ extra))).
  { intros extra He. rewrite Forall_forall in Hout, He |- *. split; intros q; rewrite elem_of_sorted, elem_of_app; [|done].
    intros [?|?]; auto. }
  pose proof (Hsub [] ltac:(constructor)) as [Hg0 Hin0]. rewrite app_nil_r in Hg0, Hin0.
  assert (Hq : ∀ q, q ∈ base64_variants v [v] ∨ q ∈ [hex v; to_ascii_uppercase (hex v); percent v true; percent v false] → q ∈ out).
  { intros q Hq. by apply elem_of_app. }
  unfold utf8_ok. destruct (utf8_check v); [eexists; split_and!; [done|done|auto|done]|].
  destruct (json_to_string v) as [j|] eqn:Hj; [|eexists; split_and!; [done|done|auto|done]].
  destruct (json_quoted v j Hj) as (inner&->&Hu&Hib&Hlen).
  assert (Hi : good inner) by (split; [done|]; destruct inner, v; done || (cbn in Hlen; lia)).
  assert (Hlossy : utf8_lossy inner = inner) by (apply utf8_lossy_ok; [done|by apply utf8_ok_iff]).
  replace (slice _ _ _) with (Some inner).
  2:{ symmetry. apply (slice_app [34] inner [34]); rewrite ?zlen_cons, ?zlen_app; unfold zlen; cbn; lia. }
  rewrite Hlossy. destruct (Hsub [inner; escape_slash inner]) as [Hg1 Hin1].
  { repeat constructor; try apply Hi; by apply escape_slash_good. }
  eexists. split_and!; [done|done|auto|]. intros inner' _ [= Heq]. apply app_inv_tail in Heq as <-.
  split; apply Hin1; right; [apply list_elem_of_here|apply list_elem_of_further, list_elem_of_here].
Qed.

Definition values_ok (entries : list (list Z * list Z)) : Prop := Forall (λ e, Forall is_byte e.2) entries.
Definition parts_ok (parts : list (list Z) * list (list Z)) : Prop :=
  Forall good parts.1 ∧ length parts.2 = length parts.1.

Lemma add_value_ok name v parts : Forall is_byte v → parts_ok parts →
  ∃ parts', add_value name v parts = Some parts' ∧ parts_ok parts' ∧ parts.1 `prefix_of` parts'.1
    ∧ ∀ vs q, v ≠ [] → variants v = Some vs → q ∈ vs → q ∈ parts'.1.
Proof.
  intros Hb [Hp Hl]. destruct parts as [ps reps], v as [|b v].
  { eexists. split_and!; [done|done|done|done]. }
  destruct (variants_spec (b :: v) ltac:(done) Hb) as (vs&Hv&Hg&_&_). cbn [add_value fst snd] in *. rewrite Hv.
  eexists. split_and!; [done| |by apply prefix_app_r|].
  - split; cbn; [by rewrite Forall_app|by rewrite !length_app, length_fmap, Hl].
  - intros vs' q _ [= <-] Hq. cbn. apply elem_of_app. by right.
Qed.

Lemma add_values_ok entries parts : values_ok entries → parts_ok parts →
  ∃ parts', add_values entries parts = Some parts' ∧ parts_ok parts' ∧ parts.1 `prefix_of` parts'.1
    ∧ ∀ name v vs q, (name, v) ∈ entries → v ≠ [] → variants v = Some vs → q ∈ vs → q ∈ parts'.1.
Proof.
  revert parts. induction entries as [|[name v] es IH]; intros parts Hv Hp.
  { exists parts. split_and!; [done|done|done|by intros ???? ?%elem_of_nil]. }
  inversion_clear Hv as [|? ? Hb Hes]. cbn [add_values].
  destruct (add_value_ok name v parts Hb Hp) as (parts1&->&Hp1&Hpre1&Hin1).
  destruct (IH parts1 Hes Hp1) as (parts2&->&Hp2&Hpre2&Hin2).
  exists parts2. split_and!; [done|done|by etrans|].
  intros n w vs q [[= -> ->]|Hin]%elem_of_cons Hw Hvs Hq; [|by eapply Hin2].
  eapply elem_of_prefix; [|done]. by eapply Hin1.
Qed.

Lemma from_parts_good ps reps : parts_ok (ps, reps) →
  match build_ac ps with
  | Some _ => ∃ r : Redactor AC, from_parts ps reps = Some r ∧ redactor_wf r ∧ pats r = ps
  | None => from_parts (AC := AC) ps reps = None
  end.
Proof.
  intros [Hg Hl]. cbn in *. rewrite Forall_forall in Hg.
  destruct (build_ac ps) as [a|] eqn:Ha; [|unfold from_parts; by rewrite Ha].
  destruct (from_parts_wf ps reps) as (r&Hr&Hwf&Hp&_); [|apply Forall_forall; intros; by apply Hg|done|by eexists|by eauto].
  intros Hn. by destruct (Hg _ Hn).
Qed.

(** The redactors a program can hold. *)
Inductive Built : Redactor AC → Prop :=
| Built_new entries r : values_ok entries → Redactor_new entries = Some r → Built r
| Built_empty : Built Redactor_empty
| Built_with r name value r' : Built r → Forall is_byte value → Redactor_with r name value = Some r' → Built r'.

Lemma wf_parts (r : Redactor AC) : redactor_wf r → parts_ok (pats r, replacements r).
Proof.
  intros Hwf. split; [|by apply wf_labels]. cbn. pose proof (wf_bytes r Hwf) as Hb. pose proof (wf_nonempty r Hwf) as Hn.
  rewrite Forall_forall in *. intros q Hq. split; [by apply Hb|]. by intros ->.
Qed.

(** A constructor panics if, and only if, the automaton of its patterns can't
    be built. *)
Lemma with_wf (r : Redactor AC) name value : redactor_wf r → Forall is_byte value →
  ∃ ps reps, add_value name value (pats r, replacements r) = Some (ps, reps) ∧ pats r `prefix_of` ps
    ∧ match build_ac ps with
      | Some _ => ∃ r', Redactor_with r name value = Some r' ∧ redactor_wf r' ∧ pats r' = ps
      | None => Redactor_with r name value = None
      end.
Proof.
  intros Hwf Hb. unfold Redactor_with.
  destruct (add_value_ok name value _ Hb (wf_parts r Hwf)) as ([ps reps]&->&Hok&Hpre&Hin).
  exists ps, reps. split_and!; [done|done|]. by apply from_parts_good.
Qed.

Lemma new_wf entries : values_ok entries →
  ∃ ps reps, add_values entries ([], []) = Some (ps, reps)
    ∧ (∀ name v vs q, (name, v) ∈ entries → v ≠ [] → variants v = Some vs → q ∈ vs → q ∈ ps)
    ∧ match build_ac ps with
      | Some _ => ∃ r : Redactor AC, Redactor_new entries = Some r ∧ redactor_wf r ∧ pats r = ps
      | None => Redactor_new (AC := AC) entries = None
      end.
Proof.
  intros Hv. unfold Redactor_new.
  destruct (add_values_ok entries ([], []) Hv) as ([ps reps]&->&Hok&_&Hin); [by split|].
  exists ps, reps. split_and!; [done|done|]. by apply from_parts_good.
Qed.
Lemma new_some entries r : values_ok entries → Redactor_new entries = Some r →
  redactor_wf r ∧ ∀ name v vs q, (name, v) ∈ entries → v ≠ [] → variants v = Some vs → q ∈ vs → q ∈ pats r.
Proof.
  intros Hv Hr. destruct (new_wf entries Hv) as (ps&reps&_&Hin&Hb). rewrite Hr in Hb.
  destruct (build_ac ps); [|done]. by destruct Hb as (r'&[= <-]&Hw&->).
Qed.

Lemma empty_wf : redactor_wf (AC := AC) Redactor_empty.
Proof. split; cbn; try done; [by intros ?%elem_of_nil|by intros ?? ?%elem_of_nil]. Qed.

Lemma Built_wf r : Built r → redactor_wf r.
Proof.
  induction 1 as [entries r Hv Hr| |r name value r' _ IH Hb Hr].
  - by apply (new_some entries).
  - exact empty_wf.
  - destruct (with_wf r name value IH Hb) as (ps&reps&_&_&H). rewrite Hr in H.
    destruct (build_ac ps); [|done]. by destruct H as (r1&[= <-]&Hw&_).
Qed.

End values.

(** ** Base64, as RFC 4648 defines it *)

(** Three bytes to four characters; one or two left over are filled with
    zero bits, and padded or not. *)
Fixpoint b64_encode (alpha : list Z) (pad : bool) (l : list Z) : list Z :=
  match l with
  | a :: b :: c :: r =>
    b64_char alpha (a / 4) :: b64_char alpha (a mod 4 * 16 + b / 16)
    :: b64_char alpha (b mod 16 * 4 + c / 64) :: b64_char alpha (c mod 64) :: b64_encode alpha pad r
  | [a; b] =>
    [b64_char alpha (a / 4); b64_char alpha (a mod 4 * 16 + b / 16); b64_char alpha (b mod 16 * 4)]
    ++ (if pad then [61] else [])
  | [a] => [b64_char alpha (a / 4); b64_char alpha (a mod 4 * 16)] ++ (if pad then [61; 61] else [])
  | [] => []
  end.

Ltac div_lia := zify; Z.to_euclidean_division_equations; lia.

Lemma bit_range v i : 0 ≤ bit v i < 2.
Proof. unfold bit. change 1 with (Z.ones 1). rewrite Z.land_ones by lia. by apply Z.mod_pos_bound. Qed.

Lemma bits_S v from n : (n < 8)%nat → 0 ≤ bits v from n < 2 ^ Z.of_nat n →
  bits v from (S n) = bits v from n * 2 + bit v (from + n).
Proof.
  intros Hn Hb. unfold bits at 1. rewrite seq_S, foldl_app. cbn [foldl Nat.add].
  change (foldl _ 0 (seq 0 n)) with (bits v from n). rewrite Z.shiftl_mul_pow2 by done.
  assert (2 ^ Z.of_nat n ≤ 2 ^ 7) by (apply Z.pow_le_mono_r; lia).
  unfold u8. rewrite Z.mod_small by lia. apply lor_low; [done|]. apply bit_range.
Qed.
Lemma bits_range v from n : (n ≤ 8)%nat → 0 ≤ bits v from n < 2 ^ Z.of_nat n.
Proof.
  induction n as [|n IH]; intros Hn; [done|]. specialize (IH ltac:(lia)). rewrite bits_S by (done || lia).
  pose proof (bit_range v (from + n)). rewrite Nat2Z.inj_succ, Z.pow_succ_r by lia. lia.
Qed.
Lemma bits_split v from n m : (n + m ≤ 8)%nat →
  bits v from (n + m) = bits v from n * 2 ^ Z.of_nat m + bits v (from + n) m.
Proof.
  induction m as [|m IH]; intros Hn.
  { rewrite Nat.add_0_r. change (bits v (from + n) 0) with 0. lia. }
  rewrite Nat.add_succ_r, !bits_S by (lia || (apply bits_range; lia)). rewrite IH by lia.
  rewrite Nat2Z.inj_succ, Z.pow_succ_r, Nat.add_assoc by lia. lia.
Qed.

Lemma bits_ext v w from from' n :
  (∀ k, (k < n)%nat → bit v (from + k) = bit w (from' + k)) → bits v from n = bits w from' n.
Proof.
  intros H. unfold bits. generalize 0 as acc.
  assert (Hs : ∀ k, k ∈ seq 0 n → (k < n)%nat) by (intros k ?%elem_of_seq; lia).
  induction (seq 0 n) as [|k l IH]; intros acc; [done|]. cbn.
  rewrite (H k) by (apply Hs, list_elem_of_here). apply IH. intros k' Hk. by apply Hs, list_elem_of_further.
Qed.

Lemma bit_app_r x y i : bit (x ++ y) (8 * length x + i) = bit y i.
Proof.
  unfold bit. replace ((8 * length x + i) / 8)%nat with (length x + i / 8)%nat by div_lia.
  replace ((8 * length x + i) mod 8)%nat with (i mod 8)%nat by div_lia.
  by rewrite app_nth2_plus.
Qed.
Lemma bit_app_l x y i : (i < 8 * length x)%nat → bit (x ++ y) i = bit x i.
Proof. intros H. unfold bit. rewrite app_nth1; [done|]. div_lia. Qed.
Lemma bit_beyond v i : (8 * length v ≤ i)%nat → bit v i = 0.
Proof. intros H. unfold bit. rewrite nth_overflow by div_lia. by rewrite Z.shiftr_0_l. Qed.

Lemma bits_app_r x y i n : bits (x ++ y) (8 * length x + i) n = bits y i n.
Proof. apply bits_ext. intros k _. by rewrite <- Nat.add_assoc, bit_app_r. Qed.
Lemma bits_app_l x y i n : (i + n ≤ 8 * length x)%nat → bits (x ++ y) i n = bits x i n.
Proof. intros H. apply bits_ext. intros k Hk. apply bit_app_l. lia. Qed.
Lemma bits_beyond v i n : (8 * length v ≤ i)%nat → bits v i n = 0.
Proof.
  intros H. rewrite (bits_ext v [] i i n); [|intros k _; by rewrite !bit_beyond by (cbn; lia)].
  unfold bits. induction (seq 0 n) as [|k l IH] using rev_ind; [done|]. rewrite foldl_app. cbn. rewrite IH.
  by rewrite bit_beyond by (cbn; lia).
Qed.

(** The first [n] bits of a byte. *)
Lemma bits_high v i n : Forall is_byte v → (n ≤ 8)%nat → bits v (8 * i) n = nth i v 0 / 2 ^ (8 - Z.of_nat n).
Proof.
  intros Hv Hn. pose proof (nth_byte v i Hv) as Hb. unfold is_byte in Hb.
  induction n as [|n IH].
  { cbn -[nth]. symmetry. by apply Z.div_small. }
  rewrite bits_S by (lia || (apply bits_range; lia)). rewrite IH by lia.
  unfold bit. replace ((8 * i + n) / 8)%nat with i by div_lia. replace ((8 * i + n) mod 8)%nat with n by div_lia.
  change 1 with (Z.ones 1). rewrite Z.land_ones, Z.shiftr_div_pow2 by lia.
  replace (8 - Z.of_nat n) with (Z.succ (7 - Z.of_nat n)) by lia. replace (8 - Z.of_nat (S n)) with (7 - Z.of_nat n) by lia.
  rewrite Z.pow_succ_r by lia. rewrite (Z.mul_comm 2), <- Z.div_div by lia.
  change (2 ^ 1) with 2. pose proof (Z.div_mod (nth i v 0 / 2 ^ (7 - Z.of_nat n)) 2). lia.
Qed.
Lemma bits_byte v i n m : Forall is_byte v → (n + m = 8)%nat →
  bits v (8 * i) n = nth i v 0 / 2 ^ Z.of_nat m ∧ bits v (8 * i + n) m = nth i v 0 mod 2 ^ Z.of_nat m.
Proof.
  intros Hv Hn. pose proof (bits_high v i 8 Hv ltac:(lia)) as H8. pose proof (bits_high v i n Hv ltac:(lia)) as Hh.
  replace (8 - Z.of_nat n) with (Z.of_nat m) in Hh by lia. split; [done|].
  rewrite <- Hn, bits_split in H8 by lia. rewrite Hn, Hh in H8. change (2 ^ (8 - Z.of_nat 8)) with 1 in H8.
  rewrite Z.div_1_r in H8. pose proof (Z.div_mod (nth i v 0) (2 ^ Z.of_nat m)). lia.
Qed.

Definition b64_pads (n : nat) : nat := (3 - n mod 3) mod 3.
Definition b64_chars (n : nat) : nat := div_ceil (8 * n) 6.
(** Character [c] of the encoding of [l]. *)
Definition sextet (alpha l : list Z) (c : nat) : Z := b64_char alpha (bits l (6 * c) 6).

Lemma bits_two v i n : Forall is_byte v → (2 ≤ n ≤ 6)%nat →
  bits v (8 * i + n) 6 = nth i v 0 mod 2 ^ (8 - Z.of_nat n) * 2 ^ (Z.of_nat n - 2) + nth (S i) v 0 / 2 ^ (10 - Z.of_nat n).
Proof.
  intros Hv Hn. replace (bits v (8 * i + n) 6) with (bits v (8 * i + n) ((8 - n) + (n - 2))) by (f_equal; lia).
  rewrite bits_split by lia.
  destruct (bits_byte v i n (8 - n) Hv ltac:(lia)) as [_ ->].
  replace (8 * i + n + (8 - n))%nat with (8 * S i)%nat by lia. rewrite bits_high by (done || lia).
  replace (8 - Z.of_nat (n - 2)) with (10 - Z.of_nat n) by lia.
  by replace (Z.of_nat (8 - n)) with (8 - Z.of_nat n) by lia; replace (Z.of_nat (n - 2)) with (Z.of_nat n - 2) by lia.
Qed.

Lemma sextets_group alpha a b c r : Forall is_byte (a :: b :: c :: r) →
  sextet alpha (a :: b :: c :: r) <$> seq 0 4
  = [b64_char alpha (a / 4); b64_char alpha (a mod 4 * 16 + b / 16);
     b64_char alpha (b mod 16 * 4 + c / 64); b64_char alpha (c mod 64)].
Proof.
  intros Hv. unfold sextet. cbn [fmap list_fmap seq Nat.mul Nat.add].
  pose proof (bits_high _ 0 6 Hv ltac:(lia)) as H0. pose proof (bits_two _ 0 6 Hv ltac:(lia)) as H1.
  pose proof (bits_two _ 1 4 Hv ltac:(lia)) as H2. destruct (bits_byte _ 2 2 6 Hv eq_refl) as [_ H3].
  cbn [Nat.mul Nat.add] in H0, H1, H2, H3. by rewrite H0, H1, H2, H3.
Qed.

Lemma sextet_shift alpha x l c : length x = 3%nat → sextet alpha (x ++ l) (4 + c) = sextet alpha l c.
Proof. intros Hx. unfold sextet. rewrite <- (bits_app_r x l), Hx. f_equal. f_equal. lia. Qed.

Lemma sextet_zeros alpha l k c : sextet alpha (l ++ replicate k 0) c = sextet alpha l c.
Proof.
  unfold sextet. f_equal. apply bits_ext. intros i _. unfold bit. f_equal. f_equal.
  destruct (decide ((6 * c + i) / 8 < length l)%nat) as [H|H]; [by rewrite app_nth1|].
  rewrite app_nth2, (nth_overflow l), nth_lookup by lia.
  destruct (replicate k 0 !! _) eqn:E; [by apply lookup_replicate in E as [-> _]|done].
Qed.

Lemma b64_encode_spec alpha pad l : Forall is_byte l →
  b64_encode alpha pad l = (sextet alpha l <$> seq 0 (b64_chars (length l))) ++ (if pad then replicate (b64_pads (length l)) 61 else []).
Proof.
  remember (length l) as n eqn:Hn. revert l Hn. induction (lt_wf n) as [n _ IH]; intros l -> Hb.
  assert (H0 : is_byte 0) by done.
  destruct l as [|a [|b [|c r]]]; [by destruct pad|..]; cbn [length].
  - pose proof (sextets_group alpha a 0 0 [] (Forall_app_2 _ [a] [0; 0] Hb ltac:(by repeat constructor))) as Hs.
    cbn [fmap list_fmap seq] in Hs. injection Hs as Hc0 Hc1. rewrite Z.add_0_r in Hc1.
    cbn [b64_encode]. rewrite <- Hc0, <- Hc1. by rewrite !(sextet_zeros alpha [a] 2).
  - pose proof (sextets_group alpha a b 0 [] (Forall_app_2 _ [a; b] [0] Hb ltac:(by repeat constructor))) as Hs.
    cbn [fmap list_fmap seq] in Hs. injection Hs as Hc0 Hc1 Hc2. rewrite Z.add_0_r in Hc2.
    cbn [b64_encode]. rewrite <- Hc0, <- Hc1, <- Hc2. by rewrite !(sextet_zeros alpha [a; b] 1).
  - change (b64_encode alpha pad (a :: b :: c :: r)) with
      ([b64_char alpha (a / 4); b64_char alpha (a mod 4 * 16 + b / 16);
        b64_char alpha (b mod 16 * 4 + c / 64); b64_char alpha (c mod 64)] ++ b64_encode alpha pad r).
    assert (Hr : Forall is_byte r) by (by apply (Forall_app _ [a; b; c] r) in Hb as [_ ?]).
    rewrite <- (sextets_group alpha a b c r Hb), (IH (length r) ltac:(cbn; lia) r eq_refl Hr), app_assoc.
    replace (b64_pads (S (S (S (length r))))) with (b64_pads (length r)) by (unfold b64_pads; div_lia).
    replace (b64_chars (S (S (S (length r))))) with (4 + b64_chars (length r))%nat by (unfold b64_chars, div_ceil; div_lia).
    f_equal. rewrite seq_app, fmap_app. f_equal. rewrite <- (fmap_add_seq 4 0), <- list_fmap_compose.
    apply list_fmap_ext. intros i x _. symmetry. by apply (sextet_shift alpha [a; b; c] r).
Qed.

Lemma shift_u8 x k m : (k + m ≤ 8)%nat → 0 ≤ x < 2 ^ Z.of_nat k → u8 (Z.shiftl x (Z.of_nat m)) = x * 2 ^ Z.of_nat m.
Proof.
  intros Hk Hx. rewrite Z.shiftl_mul_pow2 by lia. apply Z.mod_small.
  assert (2 ^ Z.of_nat k * 2 ^ Z.of_nat m ≤ 2 ^ 8) by (rewrite <- Z.pow_add_r by lia; apply Z.pow_le_mono_r; lia). nia.
Qed.
Lemma shift_known u known k m : (k + m ≤ 8)%nat → 0 ≤ known < 2 ^ Z.of_nat k → 0 ≤ u < 2 ^ Z.of_nat m →
  Z.lor (u8 (Z.shiftl u (Z.of_nat k))) known = u * 2 ^ Z.of_nat k + known.
Proof. intros Hk Hn Hu. rewrite (shift_u8 u m k) by (lia || done). by apply lor_low; [lia|]. Qed.
Lemma shift_one k : (k < 6)%nat → u8 (Z.shiftl 1 (6 - Z.of_nat k)) = 2 ^ (6 - Z.of_nat k).
Proof.
  intros Hk. replace (6 - Z.of_nat k) with (Z.of_nat (6 - k)) by lia. rewrite (shift_u8 1 1 (6 - k)) by (cbn; lia). lia.
Qed.

Lemma pad_count x y : let s := (8 * (x mod 3) + y * 8)%nat in (s mod 6 ≠ 0)%nat →
  ((6 - (s - 6 * (s / 6))) / 2)%nat = b64_pads (x + y).
Proof.
  cbv zeta. intros Hs. unfold b64_pads.
  pose proof (Nat.div_mod_eq (x mod 3 + y) 3) as H. pose proof (Nat.mod_upper_bound (x mod 3 + y) 3 ltac:(lia)) as Ht.
  rewrite <- Nat.Div0.add_mod_idemp_l. set (w := ((x mod 3 + y) / 3)%nat) in *. set (t := ((x mod 3 + y) mod 3)%nat) in *.
  replace (8 * (x mod 3) + y * 8)%nat with (24 * w + 8 * t)%nat in * by lia. clear H. clearbody w t.
  destruct t as [|[|[|t]]]; [div_lia|div_lia|div_lia|lia].
Qed.

(** ** A value inside encoded data

    [v] between [a] and [b]: the characters that carry a bit of it are the
    pattern [base64_at] makes for the alignment [length a mod 3]. *)
Section base64_slice.
Context (alpha a v b : list Z).
Let D := a ++ v ++ b.
Let q := (length a / 3)%nat.
Let s0 := (8 * (length a mod 3))%nat.
Let nbits := (length v * 8)%nat.
Let s1 := (s0 + nbits)%nat.
Let first := div_ceil s0 6.
Let end_ := (s1 / 6)%nat.
(** First and one past the last character with a bit of [v]. *)
Definition b64_lo : nat := 8 * length a / 6.
Definition b64_hi : nat := div_ceil (8 * (length a + length v)) 6.

Lemma value_bits i n : (i + n ≤ nbits)%nat → bits D (24 * q + s0 + i) n = bits v i n.
Proof.
  intros H. unfold D. replace (24 * q + s0 + i)%nat with (8 * length a + i)%nat by (unfold q, s0; div_lia).
  rewrite bits_app_r. apply bits_app_l. unfold nbits in H. lia.
Qed.

Lemma full_slice : (λ c, b64_char alpha (bits v (6 * c - s0) 6)) <$> seq first (end_ - first)
  = sextet alpha D <$> seq (4 * q + first) (end_ - first).
Proof.
  rewrite <- fmap_add_seq, <- list_fmap_compose. apply Forall_fmap_ext_1, Forall_forall.
  intros c Hc%elem_of_seq. unfold compose, sextet. f_equal. rewrite <- (value_bits (6 * c - s0) 6).
  - f_equal. unfold first, div_ceil in Hc. div_lia.
  - unfold first, end_, div_ceil in Hc. unfold s1 in Hc. div_lia.
Qed.

Lemma lead_slice : (3 ≤ length v)%nat → ∃ l, l ∈ lead_forms alpha v s0 first ∧ opt_list l = sextet alpha D <$> seq b64_lo (4 * q + first - b64_lo).
Proof.
  intros Hv. unfold lead_forms. destruct (s0 mod 6 =? 0)%nat eqn:Hs.
  - apply Nat.eqb_eq in Hs. exists None. split; [by apply list_elem_of_singleton|].
    replace (4 * q + first - b64_lo)%nat with 0%nat; [done|].
    unfold first, b64_lo, q, div_ceil, s0 in *. div_lia.
  - apply Nat.eqb_neq in Hs. set (k := (6 * first - s0)%nat).
    assert (Hk : (0 < k < 6)%nat ∧ (k ≤ s0)%nat) by (unfold k, first, div_ceil, s0 in *; div_lia).
    replace (4 * q + first - b64_lo)%nat with 1%nat by (unfold first, b64_lo, q, div_ceil, s0 in *; div_lia).
    set (u := bits D (6 * b64_lo) (6 - k)). pose proof (bits_range D (6 * b64_lo) (6 - k) ltac:(lia)) as Hu. fold u in Hu.
    exists (Some (sextet alpha D b64_lo)). split; [|done]. apply list_elem_of_fmap. exists u. split.
    + unfold sextet. do 2 f_equal. replace (bits D (6 * b64_lo) 6) with (bits D (6 * b64_lo) ((6 - k) + k)) by (f_equal; lia).
      rewrite bits_split by lia. fold u.
      replace (6 * b64_lo + (6 - k))%nat with (24 * q + s0 + 0)%nat by (unfold k, first, b64_lo, q, div_ceil, s0 in *; div_lia).
      rewrite value_bits by (unfold k, first, div_ceil, s0, nbits in *; div_lia).
      symmetry. apply (shift_known _ _ _ (6 - k)); [lia|apply bits_range; lia|done].
    + apply elem_of_seqZ. rewrite shift_one by lia. by replace (6 - Z.of_nat k) with (Z.of_nat (6 - k)) by lia.
Qed.

Lemma trail_slice : (3 ≤ length v)%nat →
  (∃ t, t ∈ (trail_forms alpha v s1 end_ nbits).1 ∧ opt_list t = sextet alpha D <$> seq (4 * q + end_) (b64_hi - (4 * q + end_)))
  ∧ (b = [] → ((trail_forms alpha v s1 end_ nbits).2 = None ∧ b64_pads (length D) = 0%nat)
      ∨ ∃ c, (trail_forms alpha v s1 end_ nbits).2 = Some (c, b64_pads (length D))
             ∧ [c] = sextet alpha D <$> seq (4 * q + end_) (b64_hi - (4 * q + end_))).
Proof.
  intros Hv. unfold trail_forms. destruct (s1 mod 6 =? 0)%nat eqn:Hs.
  - apply Nat.eqb_eq in Hs. cbn [fst snd].
    replace (b64_hi - (4 * q + end_))%nat with 0%nat by (unfold end_, b64_hi, q, div_ceil, s1, s0, nbits in *; div_lia).
    split; [exists None; split; [by apply list_elem_of_singleton|done]|]. intros Hb. left. split; [done|].
    unfold D. rewrite Hb, app_nil_r, length_app. unfold b64_pads, s1, s0, nbits in *. div_lia.
  - apply Nat.eqb_neq in Hs. cbn [fst snd]. set (k := (s1 - 6 * end_)%nat).
    assert (Hk : (0 < k < 6)%nat ∧ (k ≤ nbits)%nat) by (unfold k, end_, s1, s0, nbits in *; div_lia).
    replace (b64_hi - (4 * q + end_))%nat with 1%nat by (unfold end_, b64_hi, q, div_ceil, s1, s0, nbits in *; div_lia).
    set (u := bits D (24 * q + s1) (6 - k)). pose proof (bits_range D (24 * q + s1) (6 - k) ltac:(lia)) as Hu. fold u in Hu.
    pose proof (bits_range v (nbits - k) k ltac:(lia)) as Hr.
    assert (Hx : sextet alpha D (4 * q + end_) = b64_char alpha (bits v (nbits - k) k * 2 ^ Z.of_nat (6 - k) + u)).
    { unfold sextet. f_equal.
      replace (bits D (6 * (4 * q + end_)) 6) with (bits D (24 * q + s0 + (nbits - k)) (k + (6 - k)))
        by (f_equal; [unfold k, end_, s1 in *; div_lia|lia]).
      rewrite bits_split, value_bits by lia. unfold u. do 2 f_equal. unfold s1. lia. }
    split.
    + exists (Some (sextet alpha D (4 * q + end_))). split; [|done]. apply list_elem_of_fmap. exists u. split.
      * rewrite Hx. do 2 f_equal. symmetry. replace (6 - Z.of_nat k) with (Z.of_nat (6 - k)) by lia. apply (shift_known _ _ (6 - k) k); [lia|done..].
      * apply elem_of_seqZ. rewrite shift_one by lia. by replace (6 - Z.of_nat k) with (Z.of_nat (6 - k)) by lia.
    + intros Hb. right. eexists. split.
      * do 2 f_equal. unfold D. rewrite Hb, app_nil_r, length_app. by apply pad_count.
      * change (_ <$> seq _ 1) with [sextet alpha D (4 * q + end_)]. rewrite Hx. do 2 f_equal.
        assert (Hu0 : u = 0).
        { unfold u. apply bits_beyond. unfold D. rewrite Hb, app_nil_r, length_app. unfold q, s1, s0, nbits in *. div_lia. }
        rewrite Hu0, Z.add_0_r. replace (6 - Z.of_nat k) with (Z.of_nat (6 - k)) by lia. apply (shift_u8 _ k); [lia|done].
Qed.
End base64_slice.

Section coverage.
Context {AC : Type} `{ac_ops : !AhoCorasick AC} `{ac_law : !AhoCorasickLaw AC} `{js : !JsonString} `{js_law : !JsonStringLaw}.

Lemma keep_long_in q : (4 ≤ length q)%nat → q ∈ keep_long q.
Proof. intros H. unfold keep_long. rewrite (proj2 (Nat.leb_le _ _) H). by apply list_elem_of_singleton. Qed.

Lemma base64_at_slice alpha a v b : (3 ≤ length v)%nat →
  let D := a ++ v ++ b in
  let body := sextet alpha D <$> seq (b64_lo a) (b64_hi a v - b64_lo a) in
  body ∈ base64_at v (length a mod 3) alpha
  ∧ (b = [] → body ++ replicate (b64_pads (length D)) 61 ∈ base64_at v (length a mod 3) alpha).
Proof.
  intros Hv. cbv zeta.
  destruct (lead_slice alpha a v b Hv) as (l&Hl&Hle). destruct (trail_slice alpha a v b Hv) as [(t&Ht&Hte) Hpad].
  pose proof (full_slice alpha a v b) as Hfull.
  set (D := a ++ v ++ b) in *. set (s0 := (8 * (length a mod 3))%nat) in *. set (nbits := (length v * 8)%nat) in *.
  set (first := div_ceil s0 6) in *. set (end_ := ((s0 + nbits) / 6)%nat) in *. set (q := (length a / 3)%nat) in *.
  assert (Hord : (b64_lo a ≤ 4 * q + first ≤ 4 * q + end_)%nat ∧ (4 * q + end_ ≤ b64_hi a v)%nat ∧ (b64_lo a + 4 ≤ b64_hi a v)%nat).
  { unfold b64_lo, b64_hi, first, end_, div_ceil, nbits, s0, q. split_and!; div_lia. }
  assert (Hbody : sextet alpha D <$> seq (b64_lo a) (b64_hi a v - b64_lo a)
    = (opt_list l ++ ((λ c, b64_char alpha (bits v (6 * c - s0) 6)) <$> seq first (end_ - first))) ++ opt_list t).
  { rewrite Hle, Hte, Hfull, <- !fmap_app. f_equal.
    replace (b64_hi a v - b64_lo a)%nat with ((4 * q + first - b64_lo a) + (end_ - first) + (b64_hi a v - (4 * q + end_)))%nat by lia.
    rewrite !seq_app. replace (b64_lo a + (4 * q + first - b64_lo a + (end_ - first)))%nat with (4 * q + end_)%nat by lia.
    by replace (b64_lo a + (4 * q + first - b64_lo a))%nat with (4 * q + first)%nat by lia. }
  assert (Hlen : (4 ≤ length (sextet alpha D <$> seq (b64_lo a) (b64_hi a v - b64_lo a)))%nat) by (rewrite length_fmap, length_seq; lia).
  assert (Hin : ∀ x, (x ∈ concat ((λ t, keep_long ((opt_list l ++ ((λ c, b64_char alpha (bits v (6 * c - s0) 6)) <$> seq first (end_ - first))) ++ opt_list t)) <$> (trail_forms alpha v (s0 + nbits) end_ nbits).1)
    ∨ ∃ c pads, (trail_forms alpha v (s0 + nbits) end_ nbits).2 = Some (c, pads)
       ∧ x ∈ keep_long (((opt_list l ++ ((λ c, b64_char alpha (bits v (6 * c - s0) 6)) <$> seq first (end_ - first))) ++ [c]) ++ replicate pads 61))
    → x ∈ base64_at v (length a mod 3) alpha).
  { intros x Hx. unfold base64_at. fold s0 nbits. fold first end_.
    destruct (trail_forms alpha v (s0 + nbits) end_ nbits) as [trail padded]. cbn [fst snd] in Hx.
    apply elem_of_concat_fmap. exists l. split; [done|]. apply elem_of_app. destruct Hx as [Hx|(c&pads&->&Hx)]; [by left|by right]. }
  assert (Hplain : sextet alpha D <$> seq (b64_lo a) (b64_hi a v - b64_lo a) ∈ base64_at v (length a mod 3) alpha).
  { apply Hin. left. apply elem_of_concat_fmap. exists t. split; [done|]. rewrite <- Hbody. by apply keep_long_in. }
  split; [done|]. intros Hb. destruct (Hpad Hb) as [[_ H0]|(c&Hc&Hce)].
  { by rewrite H0, app_nil_r. }
  apply Hin. right. exists c, (b64_pads (length D)). split; [done|].
  rewrite Hce, <- Hte, <- Hbody. apply keep_long_in. rewrite length_app. lia.
Qed.

Lemma b64_slice alpha pad a v b : Forall is_byte (a ++ v ++ b) →
  let D := a ++ v ++ b in
  cut_out (b64_encode alpha pad D) (b64_lo a) (b64_hi a v) = sextet alpha D <$> seq (b64_lo a) (b64_hi a v - b64_lo a)
  ∧ (b = [] → drop (b64_lo a) (b64_encode alpha pad D)
      = (sextet alpha D <$> seq (b64_lo a) (b64_hi a v - b64_lo a)) ++ (if pad then replicate (b64_pads (length D)) 61 else [])).
Proof.
  intros HD. cbv zeta. rewrite b64_encode_spec by done. set (D := a ++ v ++ b) in *.
  assert (Hn : b64_chars (length D) = (b64_lo a + ((b64_hi a v - b64_lo a) + (b64_chars (length D) - b64_hi a v)))%nat
    ∧ (b = [] → b64_chars (length D) = b64_hi a v)).
  { unfold D. rewrite !length_app. unfold b64_chars, b64_hi, b64_lo, div_ceil. split; [div_lia|]. intros ->. cbn [length]. f_equal. f_equal. lia. }
  assert (Hd : ∀ n, drop (b64_lo a) (sextet alpha D <$> seq 0 (b64_lo a + n)) = sextet alpha D <$> seq (b64_lo a) n).
  { intros n. by rewrite seq_app, fmap_app, drop_app_length' by (by rewrite length_fmap, length_seq). }
  assert (Hge : ∀ z, drop (b64_lo a) ((sextet alpha D <$> seq 0 (b64_chars (length D))) ++ z)
    = (sextet alpha D <$> seq (b64_lo a) ((b64_hi a v - b64_lo a) + (b64_chars (length D) - b64_hi a v))) ++ z).
  { intros z. destruct Hn as [Hn _]. rewrite drop_app_le by (rewrite length_fmap, length_seq; lia). f_equal. rewrite Hn at 1. apply Hd. }
  split.
  - unfold cut_out. rewrite Hge, seq_app, fmap_app, <- app_assoc. apply take_app_length'. by rewrite length_fmap, length_seq.
  - intros Hb. rewrite Hge, (proj2 Hn Hb), Nat.sub_diag, Nat.add_0_r. done.
Qed.

Lemma base64_slices alpha pad a v b vs :
  alpha ∈ b64_alphabets → Forall is_byte (a ++ v ++ b) → (3 ≤ length v)%nat → variants v = Some vs →
  let text := b64_encode alpha pad (a ++ v ++ b) in
  cut_out text (b64_lo a) (b64_hi a v) ∈ vs ∧ (b = [] → drop (b64_lo a) text ∈ vs).
Proof.
  intros Ha HD Hv Hvs. cbv zeta. destruct (b64_slice alpha pad a v b HD) as [-> Htail].
  apply Forall_app in HD as [_ [Hvb _]%Forall_app].
  destruct (variants_spec v ltac:(intros ->; cbn in Hv; lia) Hvb) as (vs'&Hvs'&_&Hin&_). rewrite Hvs in Hvs'. injection Hvs' as <-.
  destruct (base64_at_slice alpha a v b Hv) as [H1 H2].
  assert (Hat : ∀ q, q ∈ base64_at v (length a mod 3) alpha → q ∈ vs).
  { intros q Hq. apply Hin. left. apply elem_of_base64_variants. right. split; [done|].
    exists (length a mod 3)%nat, alpha. split_and!; [by apply Nat.mod_upper_bound|done|done]. }
  split; [by apply Hat|]. intros Hb. rewrite (Htail Hb). destruct pad; [by apply Hat, H2|].
  rewrite app_nil_r. by apply Hat.
Qed.

End coverage.

(** ** A held value is replaced *)

(** How a value turns up in text: raw, as hex, percent-encoded, as a
    JSON string, or as the characters that carry it in a base64 encoding of data around it (in
    either alphabet, padded or not). *)
Inductive Form `{js : !JsonString} (v : list Z) : list Z → Prop :=
| Form_raw : Form v v
| Form_hex : Form v (hex v)
| Form_HEX : Form v (to_ascii_uppercase (hex v))
| Form_percent upper : Form v (percent v upper)
| Form_json inner : utf8_ok v → json_to_string v = Some (34 :: inner ++ [34]) → Form v inner
| Form_json_slash inner : utf8_ok v → json_to_string v = Some (34 :: inner ++ [34]) → Form v (escape_slash inner)
| Form_base64 alpha pad a b :
    alpha ∈ b64_alphabets → (3 ≤ length v)%nat → Forall is_byte (a ++ v ++ b) →
    Form v (cut_out (b64_encode alpha pad (a ++ v ++ b)) (b64_lo a) (b64_hi a v))
| Form_base64_end alpha pad a :
    alpha ∈ b64_alphabets → (3 ≤ length v)%nat → Forall is_byte (a ++ v) →
    Form v (drop (b64_lo a) (b64_encode alpha pad (a ++ v))).

(** No other occurrence of a pattern crosses an end of the [p] between [x]
    and [y]. *)
Definition isolated (ps : list (list Z)) (x p y : list Z) : Prop :=
  ∀ s p', occurs_at ps (x ++ p ++ y) s p' →
    (s + length p' ≤ length x)%nat ∨ (length x + length p ≤ s)%nat
    ∨ (length x ≤ s ∧ s + length p' ≤ length x + length p)%nat.

Lemma Redacted_isolated ps lab x p y ox oy :
  [] ∉ ps → p ∈ ps → isolated ps x p y →
  Redacted ps lab x ox → Redacted ps lab y oy → Redacted ps lab (x ++ p ++ y) (ox ++ lab p ++ oy).
Proof.
  intros Hnn Hp Hiso Hx Hy. assert (Hne : p ≠ []) by (by intros ->).
  induction Hx as [|c x o Hn Hx IH|p1 x o Hp1 Hne1 Hmax Hx IH]; cbn [app].
  - apply Redacted_match; [done..| |done]. intros p' Hp' Hpre.
    destruct (Hiso 0%nat p' (conj Hp' Hpre)) as [H|[H|[_ H]]]; cbn in H; [|destruct p; [done|cbn in H; lia]|lia].
    destruct p'; [done|cbn in H; lia].
  - apply Redacted_copy.
    + intros p' Hp' Hpre. apply (Hn p' Hp').
      destruct (Hiso 0%nat p' (conj Hp' Hpre)) as [H|[H|[H _]]]; cbn in H; [|lia|lia].
      eapply (prefix_app_inv_short p' (c :: x) (p ++ y)); [done|cbn; lia].
    + apply IH. intros s p' [Hp' Hpre]. specialize (Hiso (S s) p' (conj Hp' Hpre)). cbn in Hiso. lia.
  - rewrite <- !app_assoc. apply Redacted_match; [done..| |].
    + intros p' Hp' Hpre. rewrite app_assoc in Hpre. apply (Hmax p' Hp').
      assert (Hpre0 : p' `prefix_of` drop 0 ((p1 ++ x) ++ p ++ y)) by exact Hpre.
      destruct (Hiso 0%nat p' (conj Hp' Hpre0)) as [H|[H|[H _]]]; cbn in H; rewrite length_app in H.
      * eapply prefix_app_inv_short; [done|rewrite length_app; lia].
      * destruct p1; [done|cbn in H; lia].
      * destruct p1; [done|cbn in H; lia].
    + apply IH. intros s p' [Hp' Hpre]. specialize (Hiso (length p1 + s)%nat p').
      rewrite length_app in Hiso. destruct Hiso as [H|[H|H]]; [|lia..].
      split; [done|]. rewrite <- drop_drop, <- app_assoc, drop_app_length. done.
Qed.

Section replaced.
Context {AC : Type} `{ac_ops : !AhoCorasick AC} `{ac_law : !AhoCorasickLaw AC} `{js : !JsonString} `{js_law : !JsonStringLaw}.

Lemma form_variant v vs form : v ≠ [] → Forall is_byte v → variants v = Some vs → Form v form → form ∈ vs.
Proof.
  intros Hne Hb Hvs. destruct (variants_spec v Hne Hb) as (vs'&Hvs'&_&Hin&Hjson). rewrite Hvs in Hvs'. injection Hvs' as <-.
  destruct 1 as [| | |upper|inner Hu Hj|inner Hu Hj|alpha pad a b Ha Hl HD|alpha pad a Ha Hl HD].
  - apply Hin. left. apply elem_of_base64_variants. left. by apply list_elem_of_singleton.
  - apply Hin. right. apply list_elem_of_here.
  - apply Hin. right. apply list_elem_of_further, list_elem_of_here.
  - apply Hin. right. rewrite !elem_of_cons. destruct upper; tauto.
  - by apply (Hjson inner Hu Hj).
  - by apply (Hjson inner Hu Hj).
  - by apply (base64_slices alpha pad a v b vs Ha HD Hl Hvs).
  - rewrite <- (app_nil_r v) in HD |- *. by apply (base64_slices alpha pad a v [] vs Ha HD Hl Hvs).
Qed.

(** Each pattern stands beside the label of a value it is a variant of. *)
Definition labelled (entries : list (list Z * list Z)) (parts : list (list Z) * list (list Z)) : Prop :=
  ∀ i p, parts.1 !! i = Some p → ∃ name v vs,
    (name, v) ∈ entries ∧ variants v = Some vs ∧ p ∈ vs ∧ parts.2 !! i = Some (label name).

Lemma add_value_labelled es name v parts parts' :
  (name, v) ∈ es → parts_ok parts → labelled es parts → add_value name v parts = Some parts' → labelled es parts'.
Proof.
  intros Hin [_ Hl] Hlab. destruct parts as [ps reps], v as [|b v]; [by intros [= <-]|].
  cbn [add_value fst snd] in *. destruct (variants (b :: v)) as [vs|] eqn:Hvs; [|done]. intros [= <-] i p. cbn.
  rewrite !lookup_app. destruct (ps !! i) as [p0|] eqn:Hi.
  - intros [= ->]. destruct (Hlab i p Hi) as (n&w&ws&?&?&?&Hr). exists n, w, ws. cbn in Hr. by rewrite Hr.
  - intros Hp. exists name, (b :: v), vs. split_and!; [done|done|by eapply list_elem_of_lookup_2|].
    cbn in Hl. rewrite lookup_ge_None, <- Hl in Hi. rewrite (proj2 (lookup_ge_None reps i) Hi), Hl.
    by rewrite list_lookup_fmap, Hp.
Qed.

Lemma add_values_labelled es entries parts parts' :
  (∀ e, e ∈ entries → e ∈ es) → values_ok entries → parts_ok parts → labelled es parts →
  add_values entries parts = Some parts' → labelled es parts'.
Proof.
  revert parts. induction entries as [|[name v] entries IH]; intros parts Hes Hv Hok Hlab; cbn [add_values]; [by intros [= <-]|].
  inversion_clear Hv as [|? ? Hb Hvs]. destruct (add_value_ok name v parts Hb Hok) as (parts1&Hp&Hok1&_). rewrite Hp.
  apply IH; [intros e He; by apply Hes, list_elem_of_further|done|done|].
  eapply (add_value_labelled es name v parts); [apply Hes, list_elem_of_here|done..].
Qed.

Lemma new_label entries r p : values_ok entries → Redactor_new entries = Some r → p ∈ pats r →
  ∃ name v vs, (name, v) ∈ entries ∧ variants v = Some vs ∧ p ∈ vs ∧ label_of r p = label name.
Proof.
  intros Hv. unfold Redactor_new. destruct (add_values entries ([], [])) as [[ps reps]|] eqn:Ha; [|done].
  assert (Hlab : labelled entries (ps, reps)).
  { apply (add_values_labelled entries entries ([], [])); [done|done|by split|by intros ? ? [=]|done]. }
  unfold from_parts. destruct (build_ac ps) as [a|] eqn:Hac; [|done].
  destruct (mark_first ps _); [|done]. intros [= <-]. cbn. intros Hp.
  assert (∃ x, a = Some x ∧ ac_build ps = Some x) as (x&->&Hx).
  { unfold build_ac in Hac. destruct ps as [|p0 ps]; [by apply elem_of_nil in Hp|]. apply fmap_Some in Hac as (x&?&->). eauto. }
  destruct (Hlab _ _ (ac_which_pattern ps x p Hx Hp)) as (name&v&vs&?&?&?&Hr). exists name, v, vs. split_and!; [done..|].
  unfold label_of, which_of. cbn. rewrite nth_lookup. cbn in Hr. by rewrite Hr.
Qed.

(** ** Properties *)

(** (C8) Where a held value stands in a text in one of its forms (raw, hex,
    percent, JSON, the characters that carry it in base64 data at any
    alignment), a part of it, or all and more, becomes the label of a value;
    and when no other pattern crosses its edges, it is replaced whole, and
    the text around it redacted as it would be alone.  Two values side by
    side in base64 data do cross, and part of one stays
    ([adjacent_base64_kept]). *)
Theorem value_redacted entries r name v form x y :
  values_ok entries → Redactor_new entries = Some r → (name, v) ∈ entries → v ≠ [] → Form v form →
  (∃ u q z out n w vs, x ++ form ++ y = u ++ q ++ z
    ∧ (length u < length x + length form)%nat ∧ (length x < length u + length q)%nat
    ∧ (n, w) ∈ entries ∧ variants w = Some vs ∧ q ∈ vs
    ∧ redact r (x ++ form ++ y) = out ++ label n ++ redact r z)
  ∧ (isolated (pats r) x form y →
    ∃ n w vs, (n, w) ∈ entries ∧ variants w = Some vs ∧ form ∈ vs
      ∧ redact r (x ++ form ++ y) = redact r x ++ label n ++ redact r y).
Proof.
  intros Hv Hr Hin Hne Hform. destruct (new_some entries r Hv Hr) as [Hwf Hpats].
  assert (Hb : Forall is_byte v) by exact (proj1 (Forall_forall _ _) Hv _ Hin).
  destruct (variants_spec v Hne Hb) as (vs&Hvs&_).
  assert (Hp : form ∈ pats r) by (eapply Hpats; [done..|by eapply form_variant]).
  split.
  - destruct (Redacted_overlap (pats r) (label_of r) (x ++ form ++ y) _ (length x) form
      (wf_nonempty r Hwf) (redact_Redacted r _ Hwf) Hp)
      as (u&q&z&ou&oz&Hl&Hq&Ho&Hz&H1&H2); [rewrite drop_app_length; by apply prefix_app_r|].
    destruct (new_label entries r q Hv Hr Hq) as (n&w&ws&Hn&Hw&Hf&Hlab). exists u, q, z, ou, n, w, ws. split_and!; [done..|].
    rewrite Ho, Hlab. do 2 f_equal. by eapply Redacted_det; [exact Hz|apply redact_Redacted].
  - intros Hiso. destruct (new_label entries r form Hv Hr Hp) as (n&w&ws&Hn&Hw&Hf&Hlab). exists n, w, ws. split_and!; [done..|].
    rewrite <- Hlab. eapply Redacted_det; [by apply redact_Redacted|].
    apply Redacted_isolated; [by apply wf_nonempty|done|done|by apply redact_Redacted..].
Qed.

(** (C9) However a text is cut into chunks, the stream's output is the whole
    text's redaction, and what is held back is under a pattern's length. *)
Theorem stream_as_whole r : Built r →
  (∀ chunks, redact_stream r chunks = redact r (concat chunks))
  ∧ ∀ chunks, (length (pushes r [] chunks).2 ≤ max_len r - 1)%nat.
Proof.
  intros Hwf%Built_wf. split; intros chunks.
  - unfold redact_stream. pose proof (pushes_Redacted r [] chunks Hwf ltac:(done)) as Hs.
    destruct (pushes r [] chunks) as [o carry]. eapply Redacted_det; [exact Hs|by apply redact_Redacted].
  - apply pushes_carry; [done|done|cbn; lia].
Qed.

(** (C38) A constructor panics if, and only if, the automaton of its patterns
    can't be built: no empty pattern indexes [first], no JSON text is cut
    short.  What it gives agrees in patterns, labels, the longest length and
    the automaton; adding a value keeps the ones there. *)
Theorem redactors_built entries r name value :
  values_ok entries → Built r → Forall is_byte value →
  (∃ ps reps, add_values entries ([], []) = Some (ps, reps)
    ∧ (is_Some (Redactor_new (AC := AC) entries) ↔ is_Some (build_ac (AC := AC) ps)))
  ∧ (∀ r0 : Redactor AC, Redactor_new entries = Some r0 → redactor_wf r0)
  ∧ redactor_wf r
  ∧ (∃ ps reps, add_value name value (pats r, replacements r) = Some (ps, reps)
    ∧ (is_Some (Redactor_with r name value) ↔ is_Some (build_ac (AC := AC) ps)))
  ∧ ∀ r', Redactor_with r name value = Some r' → redactor_wf r' ∧ pats r `prefix_of` pats r'.
Proof.
  intros Hv Hr%Built_wf Hb. destruct (new_wf entries Hv) as (ps&reps&Hps&_&Hnew).
  destruct (with_wf r name value Hr Hb) as (ps'&reps'&Hps'&Hpre&Hwith). split_and!; [| |done| |].
  - exists ps, reps. split; [done|]. destruct (build_ac ps); [destruct Hnew as (r0&->&_)|rewrite Hnew]; by split; intros [].
  - intros r0 H0. by apply (new_some entries).
  - exists ps', reps'. split; [done|]. destruct (build_ac ps'); [destruct Hwith as (r0&->&_)|rewrite Hwith]; by split; intros [].
  - intros r' Hr'. rewrite Hr' in Hwith. destruct (build_ac ps'); [|done]. by destruct Hwith as (r0&[= <-]&Hw&->).
Qed.

End replaced.

(** ** A concrete automaton and escaper *)

Module Naive.

(** The longest pattern a text begins with. *)
Fixpoint longest (ps : list (list Z)) (l : list Z) : option (list Z) :=
  match ps with
  | [] => None
  | p :: ps =>
    match longest ps l with
    | Some q => if (length p <=? length q)%nat then Some q else if base.decide (p `prefix_of` l) then Some p else Some q
    | None => if base.decide (p `prefix_of` l) then Some p else None
    end
  end.
Fixpoint index_of (p : list Z) (ps : list (list Z)) : nat :=
  match ps with
  | [] => 0
  | q :: ps => if base.decide (q = p) then 0 else S (index_of p ps)
  end.
Fixpoint scan (ps : list (list Z)) (fuel : nat) (l : list Z) (pos : nat) : list Match :=
  match fuel, l with
  | S fuel, _ :: r =>
    match longest ps l with
    | Some p =>
      {| m_pattern := index_of p ps; m_start := pos; m_end := pos + length p |}
      :: scan ps fuel (drop (length p) l) (pos + length p)
    | None => scan ps fuel r (S pos)
    end
  | _, _ => []
  end.
Fixpoint any_at (ps : list (list Z)) (l : list Z) : bool :=
  opt_is_some_and (λ _, true) (longest ps l) || match l with [] => false | _ :: r => any_at ps r end.

#[export] Instance naive_ac : AhoCorasick (list (list Z)) := {
  ac_build := Some;
  ac_find_iter ps l := scan ps (length l) l 0;
  ac_is_match := any_at;
}.

(** Escaping for ASCII text: quotes, backslashes and controls. *)
Definition escape (c : Z) : list Z :=
  if (c =? 34) || (c =? 92) then [92; c]
  else if c <? 32 then [92; 117; 48; 48; hex_digit HEX_LOWER (c / 16); hex_digit HEX_LOWER (c mod 16)]
  else [c].
#[export] Instance naive_json : JsonString := λ s,
  if forallb (λ c, (0 <=? c) && (c <? 128)) s then Some (34 :: concat (escape <$> s) ++ [34]) else None.

Lemma longest_spec ps l :
  match longest ps l with
  | Some p => p ∈ ps ∧ p `prefix_of` l ∧ ∀ q, q ∈ ps → q `prefix_of` l → (length q ≤ length p)%nat
  | None => ∀ q, q ∈ ps → ¬ q `prefix_of` l
  end.
Proof.
  induction ps as [|p ps IH]; cbn [longest]; [by intros q ?%elem_of_nil|].
  destruct (longest ps l) as [q|].
  - destruct IH as (Hq&Hpre&Hmax). destruct (length p <=? length q)%nat eqn:Hl.
    + apply Nat.leb_le in Hl. split_and!; [by right|done|]. intros x [->|Hx]%elem_of_cons; auto.
    + apply Nat.leb_gt in Hl. destruct (base.decide _) as [Hp|Hp].
      * split_and!; [apply list_elem_of_here|done|]. intros x [->|Hx]%elem_of_cons Hxl; [done|]. specialize (Hmax x Hx Hxl). lia.
      * split_and!; [by right|done|]. intros x [->|Hx]%elem_of_cons Hxl; [done|auto].
  - destruct (base.decide _) as [Hp|Hp].
    + split_and!; [apply list_elem_of_here|done|]. intros x [->|Hx]%elem_of_cons Hxl; [done|]. by destruct (IH x Hx).
    + intros x [->|Hx]%elem_of_cons; auto.
Qed.

Lemma index_of_spec p ps : p ∈ ps → ps !! index_of p ps = Some p.
Proof.
  induction ps as [|q ps IH]; [by intros ?%elem_of_nil|]. cbn. destruct (base.decide (q = p)) as [->|Hn]; [done|].
  intros [->|Hp]%elem_of_cons; [done|]. by apply IH.
Qed.

Lemma Found_later ps which l pos ms :
  (∀ p, ¬ occurs_at ps l pos p) → Found ps which l (S pos) ms → Found ps which l pos ms.
Proof.
  intros Hno. inversion_clear 1 as [? Hn|? p s ms' Hs Hocc Hleft Hmax HF].
  - constructor. intros s p Hs. destruct (decide (s = pos)) as [->|]; [apply Hno|apply Hn; lia].
  - constructor; [lia|done| |done|done]. intros s' p' Hs'.
    destruct (decide (s' = pos)) as [->|]; [apply Hno|apply Hleft; lia].
Qed.

Lemma scan_found ps L fuel pos : [] ∉ ps → (length L - pos ≤ fuel)%nat →
  Found ps (λ p, index_of p ps) L pos (scan ps fuel (drop pos L) pos).
Proof.
  intros Hne. revert pos. induction fuel as [|fuel IH]; intros pos Hf.
  - constructor. intros s p Hs [Hp Hpre]. rewrite drop_ge in Hpre by lia. by apply prefix_nil_inv in Hpre as ->.
  - destruct (drop pos L) as [|x r] eqn:Hd; cbn [scan].
    + constructor. intros s p Hs [Hp Hpre]. assert (length L ≤ pos)%nat by (apply (f_equal length) in Hd; rewrite length_drop in Hd; cbn in Hd; lia).
      rewrite drop_ge in Hpre by lia. by apply prefix_nil_inv in Hpre as ->.
    + pose proof (longest_spec ps (x :: r)) as Hlong. destruct (longest ps (x :: r)) as [p|].
      * destruct Hlong as (Hp&Hpre&Hmax). apply (Found_cons ps (λ p, index_of p ps) L pos p pos); [lia|by rewrite <- Hd in Hpre|lia| |].
        -- intros p' [Hp' Hpre']. rewrite Hd in Hpre'. auto.
        -- rewrite <- Hd, drop_drop. apply IH. assert (p ≠ []) by (by intros ->). destruct p; [done|]. cbn. lia.
      * apply Found_later; [intros p [Hp Hpre]; rewrite Hd in Hpre; by apply (Hlong p)|].
        replace r with (drop (S pos) L) by (by rewrite <- Nat.add_1_r, <- drop_drop, Hd). apply IH.
        apply (f_equal length) in Hd. rewrite length_drop in Hd. cbn in Hd. lia.
Qed.

Lemma any_at_spec ps l : any_at ps l = true ↔ ∃ s p, (s ≤ length l)%nat ∧ occurs_at ps l s p.
Proof.
  induction l as [|x l IH]; cbn [any_at]; rewrite orb_true_iff.
  - pose proof (longest_spec ps []) as Hl. destruct (longest ps []) as [p|]; cbn.
    + split; [|by left]. intros _. exists 0%nat, p. by destruct Hl as (?&?&_).
    + split; [by intros [|]|]. intros (s&p&_&Hp&Hpre). destruct (Hl p Hp). by rewrite drop_nil in Hpre.
  - rewrite IH. pose proof (longest_spec ps (x :: l)) as Hl. split.
    + intros [H|(s&p&Hs&Hocc)]; [|exists (S s), p; cbn; split; [lia|done]].
      destruct (longest ps (x :: l)) as [p|]; [|done]. exists 0%nat, p. destruct Hl as (?&?&_). split; [lia|done].
    + intros ([|s]&p&Hs&Hp&Hpre); [|right; exists s, p; cbn in *; split; [lia|done]].
      left. destruct (longest ps (x :: l)) as [q|]; [done|]. by destruct (Hl p Hp).
Qed.

#[export] Instance naive_law : AhoCorasickLaw (list (list Z)).
Proof.
  refine {| ac_which ps p := index_of p ps |}.
  - intros ps a p [= <-] Hp. by apply index_of_spec.
  - intros ps a l [= <-] Hne. change (scan ps (length l) l 0) with (scan ps (length l) (drop 0 l) 0).
    apply scan_found; [done|lia].
  - intros ps a l [= <-]. apply any_at_spec.
Defined.

Lemma escape_ascii c : 0 ≤ c < 128 → Forall (λ b, 0 ≤ b < 128) (escape c) ∧ (1 ≤ length (escape c))%nat.
Proof.
  intros Hc. unfold escape.
  assert (Hh : ∀ d, 0 ≤ hex_digit HEX_LOWER d < 128).
  { intros d. unfold hex_digit. rewrite nth_lookup. destruct (HEX_LOWER !! _) as [x|] eqn:Hx; [|done].
    apply list_elem_of_lookup_2 in Hx. revert x Hx. by apply Forall_forall; repeat constructor. }
  repeat case_match; (split; [|cbn; lia]); repeat (apply Forall_cons; split); try apply Hh; try lia; apply Forall_nil_2.
Qed.

#[export] Instance naive_json_law : JsonStringLaw.
Proof.
  intros s j. unfold json_to_string, naive_json. destruct (forallb _ s) eqn:Hs; [|done]. intros [= <-].
  assert (Ha : Forall (λ b, 0 ≤ b < 128) (concat (escape <$> s)) ∧ (length s ≤ length (concat (escape <$> s)))%nat).
  { rewrite forallb_true in Hs. induction s as [|c s IH]; [by split|].
    destruct IH as [IH1 IH2]; [intros x Hx; by apply Hs, list_elem_of_further|].
    pose proof (Hs c ltac:(apply list_elem_of_here)) as Hc. bool_props.
    destruct (escape_ascii c ltac:(lia)). cbn [fmap list_fmap concat]. rewrite Forall_app, length_app. split; [by split|].
    cbn [length]. unfold fmap in *. lia. }
  destruct Ha as [Ha Hl]. eexists. split_and!; [done| | |done].
  - apply utf8_ascii. eapply Forall_impl; [done|]. intros b; cbn; lia.
  - eapply Forall_impl; [done|]. unfold is_byte. intros b; cbn; lia.
Qed.

End Naive.

(** [isolated] decided on closed data. *)
Definition isolatedb (ps : list (list Z)) (x p y : list Z) : bool :=
  let l := x ++ p ++ y in
  let nx := length x in let np := length p in
  forallb (λ s, forallb (λ p',
    negb (list_starts_with (drop s l) p')
    || ((s + length p' <=? nx) || (nx + np <=? s) || ((nx <=? s) && (s + length p' <=? nx + np)))%nat) ps)
    (seq 0 (length l)).
Lemma isolatedb_isolated ps x p y : p ≠ [] → isolatedb ps x p y = true → isolated ps x p y.
Proof.
  intros Hp H s p' [Hp' Hpre]. destruct (decide (s < length (x ++ p ++ y))%nat) as [Hs|Hs].
  - unfold isolatedb in H. rewrite forallb_true in H. specialize (H s ltac:(apply elem_of_seq; lia)).
    rewrite forallb_true in H. specialize (H p' Hp').
    assert (Hst : list_starts_with (drop s (x ++ p ++ y)) p' = true) by (unfold list_starts_with; by destruct (decide _)).
    rewrite Hst in H. cbn [negb orb] in H.
    apply orb_true_iff in H as [[H|H]%orb_true_iff|[H1 H2]%andb_true_iff]; rewrite Nat.leb_le in *; lia.
  - rewrite !length_app in Hs. lia.
Qed.

Import Naive.

Module Examples.

Definition name1 : list Z := bytes "K".
Definition name2 : list Z := bytes "L".
Definition secret1 : list Z := bytes "abcd".
Definition secret2 : list Z := bytes "wxyz".
Definition one_entry : list (list Z * list Z) := [(name1, secret1)].
Definition two_entries : list (list Z * list Z) := [(name1, secret1); (name2, secret2)].
Definition default_redactor : Redactor (list (list Z)) := Redactor_empty.
Definition redactor1 : Redactor (list (list Z)) := default default_redactor (Redactor_new one_entry).

(** [p:abcd;] in base64, after [t=]. *)
Definition before_ : list Z := bytes "p:".
Definition after_ : list Z := bytes ";".
Definition encoded : list Z := b64_encode B64_STD true (before_ ++ secret1 ++ after_).
Definition lo_ : nat := b64_lo before_.
Definition hi_ : nat := b64_hi before_ secret1.

Lemma entries_ok : values_ok two_entries.
Proof. by repeat (apply Forall_cons; split); repeat constructor. Qed.
Lemma one_entry_ok : values_ok one_entry.
Proof. apply Forall_singleton. by repeat constructor. Qed.
Lemma redactor1_new : Redactor_new one_entry = Some redactor1.
Proof. vm_compute. reflexivity. Qed.

End Examples.

Lemma value_redacted_witness :
  ∃ n w vs, (n, w) ∈ Examples.one_entry ∧ variants w = Some vs
    ∧ cut_out Examples.encoded Examples.lo_ Examples.hi_ ∈ vs
    ∧ redact Examples.redactor1 ((bytes "t=" ++ take Examples.lo_ Examples.encoded) ++ cut_out Examples.encoded Examples.lo_ Examples.hi_ ++ drop Examples.hi_ Examples.encoded)
      = redact Examples.redactor1 (bytes "t=" ++ take Examples.lo_ Examples.encoded) ++ label n ++ redact Examples.redactor1 (drop Examples.hi_ Examples.encoded).
Proof.
  refine (proj2 (value_redacted Examples.one_entry Examples.redactor1 Examples.name1 Examples.secret1 _ _ _ _ _ _ _ _) _).
  - exact Examples.one_entry_ok.
  - exact Examples.redactor1_new.
  - apply list_elem_of_here.
  - done.
  - apply Form_base64; [apply list_elem_of_here|cbn; lia|by repeat constructor].
  - apply isolatedb_isolated; [done|]. vm_compute. reflexivity.
Defined.

Lemma stream_as_whole_witness :
  (∀ chunks, redact_stream Examples.redactor1 chunks = redact Examples.redactor1 (concat chunks))
  ∧ ∀ chunks, (length (pushes Examples.redactor1 [] chunks).2 ≤ max_len Examples.redactor1 - 1)%nat.
Proof.
  apply (stream_as_whole). eapply Built_new; [exact Examples.one_entry_ok|exact Examples.redactor1_new].
Defined.

Lemma redactors_built_witness :
  is_Some (Redactor_new (AC := list (list Z)) Examples.two_entries)
  ∧ (∀ r0 : Redactor (list (list Z)), Redactor_new Examples.two_entries = Some r0 → redactor_wf r0)
  ∧ ∀ r', Redactor_with Examples.redactor1 Examples.name2 Examples.secret2 = Some r' →
      redactor_wf r' ∧ pats Examples.redactor1 `prefix_of` pats r'.
Proof.
  destruct (redactors_built Examples.two_entries Examples.redactor1 Examples.name2 Examples.secret2) as (_&H1&_&_&H2).
  - exact Examples.entries_ok.
  - eapply Built_new; [exact Examples.one_entry_ok|exact Examples.redactor1_new].
  - by repeat constructor.
  - split; [by vm_compute; eexists|]. split; [exact H1|exact H2].
Defined.

(** Two values side by side in base64 data share a character when the first
    one's end is not on a group's; its match takes the character, and no
    pattern of the second begins after it, so what encodes the second stays. *)
Lemma adjacent_base64_kept :
  let text := b64_encode B64_STD true (Examples.secret1 ++ Examples.secret2) in
  option_map (λ r : Redactor (list (list Z)), redact r text) (Redactor_new Examples.two_entries)
  = Some (label Examples.name1 ++ drop 6 text).
Proof. vm_compute. reflexivity. Qed.
