(* ===== verification/Journal.v ===== *)
(** * Journal: a job attempt's log on the node's disk

    [crates/k2-node/src/journal.rs].  Every chunk of a job's output is a
    record of one append-only file before it is sent; a reader resumes from
    any sequence number.  The writer redacts, cuts to the job's cap and keeps
    what its receipt states (hash, bytes, truncated).

    The file is its bytes.  A write's outcome is the environment's: it
    succeeds, or fails with some of its bytes on disk.  SHA-256 is [ring]'s:
    a parameter over the bytes fed. *)

From S2P Require Import Prelude Utf8 Redact.
From stdpp Require Import pretty.
Open Scope Z_scope.

Inductive LogStream := LogStream_Out | LogStream_Err | LogStream_Sys.
#[export] Instance LogStream_eq_dec : EqDecision LogStream.
Proof. solve_decision. Defined.

(** [frames.rs]: the longest chunk of a log frame. *)
Definition MAX_LOG_CHUNK : nat := 64 * 1024.
Definition HEADER : Z := 13.

Definition stream_byte (s : LogStream) : Z :=
  match s with LogStream_Out => 1 | LogStream_Err => 2 | LogStream_Sys => 3 end.
Definition stream_of (b : Z) : option LogStream :=
  if b =? 1 then Some LogStream_Out
  else if b =? 2 then Some LogStream_Err
  else if b =? 3 then Some LogStream_Sys
  else None.

(** Node lines a journal keeps beside the job's own output. *)
Definition SYS_ALLOWANCE : Z := 64 * 1024.

(** [to_be_bytes] and [from_be_bytes]. *)
Fixpoint be_bytes (n : nat) (x : Z) : list Z :=
  match n with
  | O => []
  | S n => x / 2 ^ (8 * Z.of_nat n) mod 256 :: be_bytes n x
  end.
Definition of_be_bytes (l : list Z) : Z := foldl (λ acc b, acc * 256 + b) 0 l.

(** The [String] each error carries, by its message. *)
Inductive JournalError :=
| Open_journal | Write_journal | Sync_journal | Trim_journal | Bad_stream_byte.

(** [slice::chunks]: pieces of [n], the last shorter. *)
Fixpoint chunks_from (fuel n : nat) (l : list Z) : list (list Z) :=
  match fuel, l with
  | S fuel, _ :: _ => take n l :: chunks_from fuel n (drop n l)
  | _, _ => []
  end.
Definition chunks (n : nat) (l : list Z) : list (list Z) := chunks_from (length l) n l.

(** ** Reading *)

(** One record read back. *)
Record Rec := mkRec { r_seq : Z; r_stream : LogStream; r_data : list Z }.

Record JournalReader := { offset : Z; last_seq : Z }.
Definition JournalReader_new : JournalReader := {| offset := 0; last_seq := 0 |}.

(** The loop of [read_more] over the file's [len] bytes. *)
Fixpoint read_loop (fuel : nat) (file : list Z) (max : nat) (r : JournalReader) (out : list Rec)
    : JournalReader * Result (list Rec) JournalError :=
  match fuel with
  | O => (r, Ok out)
  | S fuel =>
    if (length out <? max)%nat && (offset r + HEADER <=? zlen file) then
      let h := ztake HEADER (zdrop (offset r) file) in
      let seq := of_be_bytes (take 8 h) in
      match stream_of (nth 8 h 0) with
      | None => (r, Err Bad_stream_byte)
      | Some stream =>
        let n := of_be_bytes (take 4 (drop 9 h)) in
        if zlen file <? offset r + HEADER + n then (r, Ok out)
        else
          let data := ztake n (zdrop (offset r + HEADER) file) in
          let off := offset r + HEADER + n in
          if last_seq r <? seq then
            read_loop fuel file max {| offset := off; last_seq := seq |} (out ++ [mkRec seq stream data])
          else read_loop fuel file max {| offset := off; last_seq := last_seq r |} out
      end
    else (r, Ok out)
  end.
(** Up to [max] complete records with [seq > last_seq]; no file is an empty
    one.  Each turn passes a header, so the bytes bound the turns. *)
Definition read_more (file : option (list Z)) (max : nat) (r : JournalReader) : JournalReader * Result (list Rec) JournalError :=
  match file with
  | None => (r, Ok [])
  | Some f => read_loop (S (length f)) f max r []
  end.
Definition skip_to (r : JournalReader) (seq : Z) : JournalReader :=
  {| offset := offset r; last_seq := Z.max (last_seq r) seq |}.

(** ** Writing *)

Section writer.
Context {AC : Type} `{ac_ops : !AhoCorasick AC}.

Record JournalWriter := {
  file : list Z;
  seq : Z;
  w_bytes : Z;
  dropped : Z;
  cap : Z;
  out_bytes : Z;
  sys_bytes : Z;
  sys_dropped : Z;
  hash : option (list Z);
  redactor : option (Redactor AC);
  late : bool;
}.

(** [create]: the file opened for appending, whatever it holds. *)
Definition JournalWriter_create (f : list Z) (cap : Z) : JournalWriter :=
  {| file := f; seq := 0; w_bytes := 0; dropped := 0; cap := cap; out_bytes := 0; sys_bytes := 0;
     sys_dropped := 0; hash := Some []; redactor := None; late := false |}.
Definition set_redactor (w : JournalWriter) (r : Redactor AC) : JournalWriter :=
  {| file := file w; seq := seq w; w_bytes := w_bytes w; dropped := dropped w; cap := cap w; out_bytes := out_bytes w;
     sys_bytes := sys_bytes w; sys_dropped := sys_dropped w; hash := hash w; redactor := Some r; late := late w |}.
Definition set_late_redactor (w : JournalWriter) : JournalWriter :=
  {| file := file w; seq := seq w; w_bytes := w_bytes w; dropped := dropped w; cap := cap w; out_bytes := out_bytes w;
     sys_bytes := sys_bytes w; sys_dropped := sys_dropped w; hash := hash w; redactor := redactor w; late := true |}.

Definition is_sys (s : LogStream) : bool := if s is LogStream_Sys then true else false.

(** What [reopen] takes from one record. *)
Definition recount (w : JournalWriter) (r : Rec) : JournalWriter :=
  let n := zlen (r_data r) in
  {| file := file w; seq := r_seq r; w_bytes := u64 (w_bytes w + n); dropped := dropped w; cap := cap w;
     out_bytes := if is_sys (r_stream r) then out_bytes w else u64 (out_bytes w + n);
     sys_bytes := if is_sys (r_stream r) then u64 (sys_bytes w + n) else sys_bytes w;
     sys_dropped := sys_dropped w; hash := option_map (λ h, h ++ r_data r) (hash w);
     redactor := redactor w; late := late w |}.
Fixpoint reopen_loop (fuel : nat) (f : list Z) (w : JournalWriter) (r : JournalReader) : Result (JournalWriter * JournalReader) JournalError :=
  match fuel with
  | O => Ok (w, r)
  | S fuel =>
    match read_more (Some f) 256 r with
    | (_, Err e) => Err e
    | (r, Ok []) => Ok (w, r)
    | (r, Ok recs) => reopen_loop fuel f (foldl recount w recs) r
    end
  end.
Definition set_file (w : JournalWriter) (f : list Z) : JournalWriter :=
  {| file := f; seq := seq w; w_bytes := w_bytes w; dropped := dropped w; cap := cap w; out_bytes := out_bytes w;
     sys_bytes := sys_bytes w; sys_dropped := sys_dropped w; hash := hash w; redactor := redactor w; late := late w |}.
(** [set_len]: cut, or filled with zeros. *)
Definition set_len (f : list Z) (n : Z) : list Z := ztake n f ++ replicate (Z.to_nat (n - zlen f)) 0.
(** An existing journal, to add to it; [trim_ok] is [set_len]'s outcome. *)
Definition JournalWriter_reopen (f : list Z) (trim_ok : bool) (cap : Z) : Result JournalWriter JournalError :=
  let? (w, r) := reopen_loop (S (length f)) f (JournalWriter_create f cap) JournalReader_new in
  if trim_ok then Ok (set_file w (set_len f (offset r))) else Err Trim_journal.

(** A coming write: it succeeds, or fails with [k] bytes on disk. *)
Definition Disk : Type := list (option nat).

Definition encode (seq : Z) (stream : LogStream) (data : list Z) : list Z :=
  be_bytes 8 seq ++ [stream_byte stream] ++ be_bytes 4 (u32 (zlen data)) ++ data.

Definition record (w : JournalWriter) (io : option nat) (stream : LogStream) (data : list Z) : JournalWriter * Result unit JournalError :=
  let seq := u64 (seq w + 1) in
  let buf := encode seq stream data in
  match io with
  | Some k =>
    ({| file := file w ++ take k buf; seq := seq; w_bytes := w_bytes w; dropped := dropped w; cap := cap w; out_bytes := out_bytes w;
        sys_bytes := sys_bytes w; sys_dropped := sys_dropped w; hash := hash w; redactor := redactor w; late := late w |}, Err Write_journal)
  | None =>
    ({| file := file w ++ buf; seq := seq; w_bytes := u64 (w_bytes w + zlen data); dropped := dropped w; cap := cap w; out_bytes := out_bytes w;
        sys_bytes := sys_bytes w; sys_dropped := sys_dropped w; hash := option_map (λ h, h ++ data) (hash w); redactor := redactor w; late := late w |}, Ok tt)
  end.

Fixpoint record_all (w : JournalWriter) (io : Disk) (stream : LogStream) (cs : list (list Z)) (n : nat) : JournalWriter * Result nat JournalError :=
  match cs with
  | [] => (w, Ok n)
  | c :: cs =>
    match record w (default None (head io)) stream c with
    | (w, Err e) => (w, Err e)
    | (w, Ok _) => record_all w (tail io) stream cs (S n)
    end
  end.

(** [redactor.filter(|r| r.hits(data))], then its redaction. *)
Definition redact_if_hit (r : option (Redactor AC)) (data : list Z) : list Z :=
  match r with
  | Some r => if hits r data then redact r data else data
  | None => data
  end.
(** What an append writes of [data]; [held] is what the late slot holds. *)
Definition redacted (w : JournalWriter) (held : option (Redactor AC)) (data : list Z) : list Z :=
  redact_if_hit (if late w then held else None) (redact_if_hit (redactor w) data).

(** The room a stream's cap leaves. *)
Definition room (w : JournalWriter) (sys : bool) : Z :=
  if sys then u64_sat_sub SYS_ALLOWANCE (sys_bytes w) else u64_sat_sub (cap w) (out_bytes w).
(** [keep] of [len] bytes counted as kept, the others as dropped. *)
Definition charge (w : JournalWriter) (sys : bool) (len keep : Z) : JournalWriter :=
  {| file := file w; seq := seq w; w_bytes := w_bytes w;
     dropped := if sys then dropped w else u64 (dropped w + (len - keep)); cap := cap w;
     out_bytes := if sys then out_bytes w else u64 (out_bytes w + keep);
     sys_bytes := if sys then u64 (sys_bytes w + keep) else sys_bytes w;
     sys_dropped := if sys then u64 (sys_dropped w + (len - keep)) else sys_dropped w;
     hash := hash w; redactor := redactor w; late := late w |}.

Definition append (w : JournalWriter) (io : Disk) (held : option (Redactor AC)) (stream : LogStream) (data : list Z)
    : JournalWriter * Result nat JournalError :=
  let data := redacted w held data in
  let keep := Z.min (zlen data) (room w (is_sys stream)) in
  record_all (charge w (is_sys stream) (zlen data) keep) io stream (chunks MAX_LOG_CHUNK (ztake keep data)) 0.

Definition truncated_line (w : JournalWriter) : list Z :=
  bytes ("[k2-node] log truncated at " +:+ pretty (cap w) +:+ " bytes; " +:+ pretty (dropped w) +:+ " bytes dropped
").
Definition sys_dropped_line (w : JournalWriter) : list Z :=
  bytes ("[k2-node] node lines over " +:+ pretty (SYS_ALLOWANCE / 1024) +:+ " KB dropped (" +:+ pretty (sys_dropped w) +:+ " bytes)
").

(** [finish]: the markers, then [(sha256, bytes, truncated)]; the hash is the
    bytes it was fed, taken. *)
Definition finish_line (due : bool) (w : JournalWriter) (io : option nat) (line : list Z) : JournalWriter * Result unit JournalError :=
  if due then record w io LogStream_Sys line else (w, Ok tt).
Definition finish_journal (sha256_hex : list Z → string) (w : JournalWriter) (io : Disk) (synced : bool)
    : JournalWriter * Result (string * Z * bool) JournalError :=
  let truncated := (0 <? dropped w) || (0 <? sys_dropped w) in
  match finish_line (0 <? dropped w) w (default None (head io)) (truncated_line w) with
  | (w, Err e) => (w, Err e)
  | (w, Ok _) =>
    let io := if 0 <? dropped w then tail io else io in
    match finish_line (0 <? sys_dropped w) w (default None (head io)) (sys_dropped_line w) with
    | (w, Err e) => (w, Err e)
    | (w, Ok _) =>
      if synced then
        ({| file := file w; seq := seq w; w_bytes := w_bytes w; dropped := dropped w; cap := cap w; out_bytes := out_bytes w;
            sys_bytes := sys_bytes w; sys_dropped := sys_dropped w; hash := None; redactor := redactor w; late := late w |},
         Ok (from_option sha256_hex EmptyString (hash w), w_bytes w, truncated))
      else (w, Err Sync_journal)
    end
  end.

End writer.
Arguments JournalWriter AC : clear implicits.

(** ** Records on disk *)

Definition enc (r : Rec) : list Z := encode (r_seq r) (r_stream r) (r_data r).
Definition enc_all (recs : list Rec) : list Z := concat (enc <$> recs).
Definition valid_rec (r : Rec) : Prop := 0 ≤ r_seq r < 2 ^ 64 ∧ zlen (r_data r) < 2 ^ 32.
(** Sequences one by one from [n]. *)
Fixpoint consecutive (n : Z) (recs : list Rec) : Prop :=
  match recs with [] => True | r :: recs => r_seq r = n ∧ consecutive (n + 1) recs end.

Lemma length_be_bytes n x : length (be_bytes n x) = n.
Proof. induction n; cbn; [done|]. by f_equal. Qed.

Lemma of_be_bytes_app l b : of_be_bytes (l ++ [b]) = of_be_bytes l * 256 + b.
Proof. unfold of_be_bytes. by rewrite foldl_app. Qed.
Lemma of_be_bytes_acc l acc : foldl (λ acc b, acc * 256 + b) acc l = acc * 2 ^ (8 * zlen l) + of_be_bytes l.
Proof.
  unfold of_be_bytes. revert acc. induction l as [|b l IH]; intros acc; cbn [foldl]; [change (8 * zlen (@nil Z)) with 0; rewrite Z.pow_0_r; lia|].
  rewrite IH, (IH (0 * 256 + b)), zlen_cons. pose proof (zlen_nonneg l).
  replace (8 * (1 + zlen l)) with (8 + 8 * zlen l) by lia. rewrite Z.pow_add_r by lia. lia.
Qed.
Lemma of_be_bytes_be n x : 0 ≤ x < 2 ^ (8 * Z.of_nat n) → of_be_bytes (be_bytes n x) = x.
Proof.
  assert (H : ∀ n x, 0 ≤ x → of_be_bytes (be_bytes n x) = x mod 2 ^ (8 * Z.of_nat n)).
  { clear. induction n as [|n IH]; intros x Hx; [cbn; by rewrite Z.mod_1_r|].
    cbn [be_bytes]. unfold of_be_bytes. cbn [foldl]. rewrite of_be_bytes_acc, IH by done.
    unfold zlen. rewrite length_be_bytes. rewrite Nat2Z.inj_succ. replace (8 * Z.succ (Z.of_nat n)) with (8 * Z.of_nat n + 8) by lia.
    rewrite Z.pow_add_r, Z.rem_mul_r by lia. change (2 ^ 8) with 256. lia. }
  intros Hx. rewrite H by lia. by apply Z.mod_small.
Qed.

Lemma stream_of_byte s : stream_of (stream_byte s) = Some s.
Proof. by destruct s. Qed.

Lemma zlen_enc r : zlen (enc r) = HEADER + zlen (r_data r).
Proof. unfold enc, encode, HEADER. rewrite !zlen_app. unfold zlen at 1 2 3. rewrite !length_be_bytes. cbn. lia. Qed.
Lemma zlen_enc_all_app a b : zlen (enc_all (a ++ b)) = zlen (enc_all a) + zlen (enc_all b).
Proof. unfold enc_all. by rewrite fmap_app, concat_app, zlen_app. Qed.
Lemma enc_all_cons r recs : enc_all (r :: recs) = enc r ++ enc_all recs.
Proof. done. Qed.
Lemma enc_all_app a b : enc_all (a ++ b) = enc_all a ++ enc_all b.
Proof. unfold enc_all. by rewrite fmap_app, concat_app. Qed.
Lemma enc_all_length recs : HEADER * zlen recs ≤ zlen (enc_all recs).
Proof.
  induction recs as [|r recs IH]; [by vm_compute|].
  rewrite enc_all_cons, zlen_app, zlen_enc, zlen_cons. unfold HEADER in *. pose proof (zlen_nonneg (r_data r)). lia.
Qed.

Lemma zlen_nil {A} : zlen (@nil A) = 0.
Proof. done. Qed.

(** The header of [enc r], and its data behind it. *)
Lemma ztake_app_exact {A} n (l k : list A) : n = zlen l → ztake n (l ++ k) = l.
Proof. intros ->. unfold ztake, zlen. rewrite Nat2Z.id. apply take_app_length. Qed.
Lemma zdrop_app_exact {A} n (l k : list A) : n = zlen l → zdrop n (l ++ k) = k.
Proof. intros ->. unfold zdrop, zlen. rewrite Nat2Z.id. apply drop_app_length. Qed.

(** The thirteen bytes before a record's data. *)
Definition frame_header (seq b n : Z) : list Z := be_bytes 8 seq ++ [b] ++ be_bytes 4 (u32 n).
Lemma zlen_frame_header seq b n : zlen (frame_header seq b n) = HEADER.
Proof. unfold frame_header, zlen. rewrite !length_app, !length_be_bytes. done. Qed.
Lemma frame_fields seq b n : 0 ≤ seq < 2 ^ 64 → 0 ≤ n < 2 ^ 32 →
  of_be_bytes (take 8 (frame_header seq b n)) = seq ∧ nth 8 (frame_header seq b n) 0 = b
  ∧ of_be_bytes (take 4 (drop 9 (frame_header seq b n))) = n.
Proof.
  intros Hs Hn. unfold frame_header. split_and!.
  - rewrite take_app_length' by (by rewrite length_be_bytes). by apply of_be_bytes_be.
  - rewrite app_nth2 by (rewrite length_be_bytes; lia). by rewrite length_be_bytes.
  - rewrite app_assoc, drop_app_length' by (rewrite length_app, length_be_bytes; done).
    rewrite take_ge by (rewrite length_be_bytes; lia). rewrite u32_small by lia. by apply of_be_bytes_be.
Qed.

Definition header (r : Rec) : list Z := frame_header (r_seq r) (stream_byte (r_stream r)) (zlen (r_data r)).
Lemma enc_header r : enc r = header r ++ r_data r.
Proof. unfold enc, encode, header, frame_header. by rewrite <- !app_assoc. Qed.
Lemma zlen_header r : zlen (header r) = HEADER.
Proof. apply zlen_frame_header. Qed.
Lemma header_fields r : valid_rec r →
  of_be_bytes (take 8 (header r)) = r_seq r ∧ stream_of (nth 8 (header r) 0) = Some (r_stream r)
  ∧ of_be_bytes (take 4 (drop 9 (header r))) = zlen (r_data r).
Proof.
  intros [Hs Hd]. pose proof (zlen_nonneg (r_data r)).
  destruct (frame_fields (r_seq r) (stream_byte (r_stream r)) (zlen (r_data r)) Hs ltac:(lia)) as (H1&H2&H3).
  unfold header. by rewrite H1, H2, H3, stream_of_byte.
Qed.

(** An incomplete record: a strict prefix of one. *)
Definition torn (t : list Z) : Prop := ∃ r k, valid_rec r ∧ 0 ≤ k < zlen (enc r) ∧ t = ztake k (enc r).
Lemma torn_nil : torn [].
Proof. by exists (mkRec 0 LogStream_Out []), 0. Qed.

(** ** The reader *)

(** One turn at a whole record, with room for it. *)
Lemma read_turn fuel pre rec rest max r out :
  valid_rec rec → offset r = zlen pre → (length out < max)%nat →
  let f := pre ++ enc rec ++ rest in
  read_loop (S fuel) f max r out
  = if last_seq r <? r_seq rec
    then read_loop fuel f max {| offset := zlen pre + zlen (enc rec); last_seq := r_seq rec |} (out ++ [rec])
    else read_loop fuel f max {| offset := zlen pre + zlen (enc rec); last_seq := last_seq r |} out.
Proof.
  intros Hv Ho Hmax f. cbn [read_loop].
  assert (Hlen : zlen f = zlen pre + (HEADER + zlen (r_data rec)) + zlen rest) by (unfold f; rewrite !zlen_app, zlen_enc; lia).
  pose proof (zlen_nonneg rest). pose proof (zlen_nonneg (r_data rec)).
  rewrite (proj2 (Nat.ltb_lt _ _) Hmax), (proj2 (Z.leb_le _ _)) by lia. cbn [andb].
  assert (Hh : ztake HEADER (zdrop (offset r) f) = header rec).
  { unfold f. rewrite (zdrop_app_exact _ pre) by done. rewrite enc_header, <- app_assoc. apply ztake_app_exact. by rewrite zlen_header. }
  rewrite Hh. destruct (header_fields rec Hv) as (->&->&->). rewrite (proj2 (Z.ltb_ge _ _)) by lia.
  assert (Hd : ztake (zlen (r_data rec)) (zdrop (offset r + HEADER) f) = r_data rec).
  { unfold f. rewrite enc_header, <- app_assoc, app_assoc. rewrite (zdrop_app_exact _ (pre ++ header rec)) by (rewrite zlen_app, zlen_header; lia).
    by apply ztake_app_exact. }
  rewrite Hd, zlen_enc, Ho. destruct rec as [s st d]. cbn [r_seq r_stream r_data].
  by replace (zlen pre + HEADER + zlen d) with (zlen pre + (HEADER + zlen d)) by lia.
Qed.

(** A torn tail stops the loop where it is. *)
Lemma read_torn fuel pre t max r out : torn t → offset r = zlen pre → read_loop fuel (pre ++ t) max r out = (r, Ok out).
Proof.
  intros (rec&k&Hv&Hk&->) Ho. destruct fuel as [|fuel]; [done|]. cbn [read_loop].
  destruct (length out <? max)%nat; [|done]. cbn [andb].
  assert (Hl : zlen (ztake k (enc rec)) = k) by (unfold ztake, zlen in *; rewrite length_take; lia).
  rewrite zlen_app, Hl, Ho. destruct (zlen pre + HEADER <=? zlen pre + k) eqn:Hle; [|done]. apply Z.leb_le in Hle.
  assert (Hh : ztake HEADER (zdrop (zlen pre) (pre ++ ztake k (enc rec))) = header rec).
  { rewrite (zdrop_app_exact _ pre) by done. unfold ztake. rewrite take_take, Nat.min_l by lia. rewrite enc_header.
    apply ztake_app_exact. by rewrite zlen_header. }
  rewrite Hh. destruct (header_fields rec Hv) as (_&->&->). rewrite zlen_enc in Hk. rewrite (proj2 (Z.ltb_lt _ _)) by lia. done.
Qed.

Definition newer (since : Z) (recs : list Rec) : list Rec := List.filter (λ r, since <? r_seq r) recs.

Lemma newer_app since a b : newer since (a ++ b) = newer since a ++ newer since b.
Proof. apply List.filter_app. Qed.

(** A call on a file of whole records and a torn tail: records are passed in
    order up to where [max] are had, those newer than the last delivered. *)
Definition passes (fuel : nat) (pre : list Z) (recs : list Rec) (n since : Z) (t : list Z) (max : nat) (r : JournalReader) (out : list Rec) : Prop :=
  ∃ done rest r', recs = done ++ rest ∧ offset r' = zlen pre + zlen (enc_all done)
    ∧ last_seq r' = Z.max since (n - 1 + zlen done) ∧ (length (out ++ newer since done) ≤ max)%nat
    ∧ ((length (out ++ newer since done) < max)%nat → rest = [])
    ∧ read_loop fuel (pre ++ enc_all recs ++ t) max r out = (r', Ok (out ++ newer since done)).

Lemma passes_cons fuel pre rec recs n since t max r out r1 :
  let new := if since <? r_seq rec then [rec] else [] in
  passes fuel (pre ++ enc rec) recs (n + 1) since t max r1 (out ++ new) →
  read_loop (S fuel) (pre ++ enc rec ++ (enc_all recs ++ t)) max r out
    = read_loop fuel (pre ++ enc rec ++ (enc_all recs ++ t)) max r1 (out ++ new) →
  passes (S fuel) pre (rec :: recs) n since t max r out.
Proof.
  cbv zeta. intros (dn&rest&r'&->&Ho&Hl&Hm&Hr&Hloop) Hturn.
  assert (Hnew : (out ++ (if since <? r_seq rec then [rec] else [])) ++ newer since dn = out ++ newer since (rec :: dn)).
  { rewrite <- app_assoc. f_equal. unfold newer. cbn [List.filter]. by destruct (since <? r_seq rec). }
  rewrite Hnew in Hm, Hr, Hloop. exists (rec :: dn), rest, r'.
  rewrite (enc_all_cons rec dn), zlen_cons, (zlen_app (enc rec)). rewrite zlen_app in Ho.
  split_and!; [reflexivity|lia|lia|exact Hm|exact Hr|].
  rewrite (enc_all_cons rec (dn ++ rest)), <- (app_assoc (enc rec)), Hturn, (app_assoc pre). exact Hloop.
Qed.

Lemma read_loop_spec fuel pre recs n since t max r out :
  Forall valid_rec recs → consecutive n recs → torn t → offset r = zlen pre → (length recs < fuel)%nat →
  Z.max since (n - 1) = last_seq r → (length out ≤ max)%nat →
  passes fuel pre recs n since t max r out.
Proof.
  intros Hv. revert fuel pre n r out. induction Hv as [|rec recs Hrec Hv IH]; intros fuel pre n r out Hn Ht Ho Hf Hl Hmax.
  - exists [], [], r. change (newer since []) with (@nil Rec). rewrite (app_nil_r out).
    change (zlen (enc_all [])) with 0. change (zlen (@nil Rec)) with 0.
    split_and!; [reflexivity|lia|lia|exact Hmax|intros _; reflexivity|by apply read_torn].
  - destruct Hn as [Hseq Hn]. destruct fuel as [|fuel]; [exfalso; cbn [length] in Hf; lia|].
    destruct (decide (length out < max)%nat) as [Hlt|Hge].
    2:{ exists [], (rec :: recs), r. change (newer since []) with (@nil Rec). rewrite (app_nil_r out).
        change (zlen (enc_all [])) with 0. change (zlen (@nil Rec)) with 0.
        split_and!; [reflexivity|lia|lia|lia|lia|].
        cbn [read_loop]. by rewrite (proj2 (Nat.ltb_ge _ _)) by lia. }
    apply (passes_cons fuel pre rec recs n since t max r out {| offset := zlen pre + zlen (enc rec); last_seq := Z.max since n |}).
    + apply IH; [exact Hn|exact Ht|cbn [offset]; by rewrite zlen_app|cbn [length] in Hf; lia|cbn [last_seq]; lia|].
      destruct (since <? r_seq rec); rewrite length_app; cbn [length]; lia.
    + rewrite read_turn by done. rewrite <- Hl. destruct (since <? r_seq rec) eqn:Hs; bool_props.
      * rewrite (proj2 (Z.ltb_lt _ _)) by lia. by replace (Z.max since n) with (r_seq rec) by lia.
      * rewrite (proj2 (Z.ltb_ge _ _)), app_nil_r by lia. by replace (Z.max since n) with (Z.max since (n - 1)) by lia.
Qed.

Lemma consecutive_app n a b : consecutive n (a ++ b) ↔ consecutive n a ∧ consecutive (n + zlen a) b.
Proof.
  revert n. induction a as [|r a IH]; intros n.
  - change (zlen (@nil Rec)) with 0. rewrite Z.add_0_r. cbn. tauto.
  - cbn [app consecutive]. rewrite IH, zlen_cons, Z.add_assoc. tauto.
Qed.

Lemma ztake_short {A} m (l : list A) : zlen l ≤ m → ztake m l = l.
Proof. intros H. unfold ztake. apply take_ge. unfold zlen in H. lia. Qed.
Lemma ztake_app_ge {A} m (l k : list A) : zlen l ≤ m → ztake m (l ++ k) = l ++ ztake (m - zlen l) k.
Proof.
  intros H. unfold ztake. rewrite take_app_ge by (unfold zlen in H; lia). do 2 f_equal. unfold zlen. lia.
Qed.
Lemma ztake_app_le {A} m (l k : list A) : m ≤ zlen l → ztake m (l ++ k) = ztake m l.
Proof. intros H. unfold ztake. apply take_app_le. unfold zlen in H. lia. Qed.
Lemma zlen_ztake {A} m (l : list A) : 0 ≤ m → zlen (ztake m l) = Z.min m (zlen l).
Proof. intros H. unfold ztake, zlen. rewrite length_take. lia. Qed.

(** Any number of bytes of a file of records: whole ones, and a torn tail. *)
Lemma cut_records m recs : Forall valid_rec recs → 0 ≤ m →
  ∃ done rest t, recs = done ++ rest ∧ ztake m (enc_all recs) = enc_all done ++ t ∧ torn t
    ∧ (zlen (enc_all recs) ≤ m → rest = [])
    ∧ ∀ r, head rest = Some r → m < zlen (enc_all done) + zlen (enc r).
Proof.
  intros Hv. revert m. induction Hv as [|r recs Hr Hv IH]; intros m Hm.
  { exists [], [], []. change (enc_all []) with (@nil Z). unfold ztake. rewrite take_nil. split_and!; [reflexivity|reflexivity|apply torn_nil|reflexivity|discriminate]. }
  rewrite enc_all_cons. destruct (Z.le_gt_cases (zlen (enc r)) m) as [Hle|Hgt].
  - destruct (IH (m - zlen (enc r)) ltac:(lia)) as (dn&rest&t&->&Ht&Htorn&Hall&Hhead).
    exists (r :: dn), rest, t. rewrite ztake_app_ge, Ht by lia. rewrite enc_all_cons, <- app_assoc, !zlen_app.
    split_and!; [reflexivity|reflexivity|exact Htorn|intros H; apply Hall; lia|intros r' H; specialize (Hhead r' H); lia].
  - exists [], (r :: recs), (ztake m (enc r)). rewrite ztake_app_le by lia. change (zlen (enc_all [])) with 0.
    split_and!; [reflexivity|reflexivity|exists r, m; split_and!; [exact Hr|lia|lia|reflexivity]| |].
    + rewrite zlen_app. pose proof (zlen_nonneg (enc_all recs)). lia.
    + intros r' [= <-]. lia.
Qed.

(** Where a reader that began after [since] is, and what it delivered. *)
Definition reads_to (recs : list Rec) (since : Z) (r : JournalReader) (delivered : list Rec) : Prop :=
  ∃ done rest, recs = done ++ rest ∧ offset r = zlen (enc_all done)
    ∧ last_seq r = Z.max since (zlen done) ∧ delivered = newer since done.

Lemma reads_to_app recs more since r del : reads_to recs since r del → reads_to (recs ++ more) since r del.
Proof. intros (dn&rest&->&H). exists dn, (rest ++ more). by rewrite app_assoc. Qed.

(** A read of whole records and a torn tail delivers the next ones, and with
    room to spare all of them. *)
Lemma read_more_whole recs t since r del max :
  Forall valid_rec recs → consecutive 1 recs → torn t → reads_to recs since r del →
  ∃ l r', read_more (Some (enc_all recs ++ t)) max r = (r', Ok l) ∧ (length l ≤ max)%nat
    ∧ reads_to recs since r' (del ++ l)
    ∧ ((length l < max)%nat → del ++ l = newer since recs ∧ offset r' = zlen (enc_all recs)).
Proof.
  intros Hv Hc Ht (dn&rest&->&Ho&Hl&->). apply Forall_app in Hv as [Hvd Hvr]. apply consecutive_app in Hc as [Hcd Hcr].
  rewrite enc_all_app, <- app_assoc.
  assert (Hfuel : (length rest < S (length (enc_all dn ++ enc_all rest ++ t)))%nat).
  { pose proof (enc_all_length rest). unfold zlen, HEADER in *. rewrite !length_app. lia. }
  destruct (read_loop_spec _ (enc_all dn) rest (1 + zlen dn) since t max r [] Hvr Hcr Ht Ho Hfuel ltac:(lia) ltac:(cbn; lia))
    as (d2&rest2&r'&->&Ho'&Hl'&Hm'&Hr'&Hloop).
  cbn [app] in Hm', Hr', Hloop. exists (newer since d2), r'. split_and!; [exact Hloop|exact Hm'| |].
  - exists (dn ++ d2), rest2. rewrite enc_all_app, newer_app, !zlen_app.
    split_and!; [by rewrite <- app_assoc|exact Ho'|lia|reflexivity].
  - intros Hlt. rewrite (Hr' Hlt), app_nil_r, newer_app, zlen_app. split; [reflexivity|exact Ho'].
Qed.

(** A read of any prefix of the file. *)
Lemma read_more_prefix recs since r del m max :
  Forall valid_rec recs → consecutive 1 recs → 0 ≤ m → reads_to recs since r del →
  ∃ l r', read_more (Some (ztake m (enc_all recs))) max r = (r', Ok l) ∧ reads_to recs since r' (del ++ l).
Proof.
  intros Hv Hc Hm (dn&rest&->&Ho&Hl&->).
  destruct (Z.lt_ge_cases m (zlen (enc_all dn))) as [Hlt|Hge].
  { exists [], r. rewrite enc_all_app, ztake_app_le, app_nil_r by lia. split; [|by exists dn, rest].
    unfold read_more. cbn [read_loop]. rewrite zlen_ztake, Ho by lia. unfold HEADER.
    rewrite (proj2 (Z.leb_gt _ _)) by lia. by rewrite andb_false_r. }
  apply Forall_app in Hv as [Hvd Hvr].
  destruct (cut_records (m - zlen (enc_all dn)) rest Hvr ltac:(lia)) as (d1&rest1&t&->&Hcut&Ht&_).
  rewrite enc_all_app, ztake_app_ge, Hcut, app_assoc, <- enc_all_app by lia.
  rewrite app_assoc in Hc |- *. apply consecutive_app in Hc as [Hc _]. apply Forall_app in Hvr as [Hv1 _].
  destruct (read_more_whole (dn ++ d1) t since r (newer since dn) max) as (l&r'&Hread&_&Hto&_);
    [by apply Forall_app_2|exact Hc|exact Ht|by exists dn, d1|].
  exists l, r'. split; [exact Hread|by apply reads_to_app].
Qed.

(** ** The writer *)

Definition data_of (recs : list Rec) : list Z := concat (r_data <$> recs).
Definition out_of (recs : list Rec) : list Z := data_of (List.filter (λ r, negb (is_sys (r_stream r))) recs).
Definition sys_of (recs : list Rec) : list Z := data_of (List.filter (λ r, is_sys (r_stream r)) recs).

Lemma data_of_app a b : data_of (a ++ b) = data_of a ++ data_of b.
Proof. unfold data_of. by rewrite fmap_app, concat_app. Qed.
Lemma data_of_cons r recs : data_of (r :: recs) = r_data r ++ data_of recs.
Proof. reflexivity. Qed.
Lemma zlen_enc_all recs : zlen (enc_all recs) = HEADER * zlen recs + zlen (data_of recs).
Proof.
  induction recs as [|r recs IH]; [reflexivity|].
  rewrite enc_all_cons, data_of_cons, !zlen_app, zlen_cons, zlen_enc, IH. lia.
Qed.
Lemma out_of_app a b : out_of (a ++ b) = out_of a ++ out_of b.
Proof. unfold out_of. by rewrite List.filter_app, data_of_app. Qed.
Lemma sys_of_app a b : sys_of (a ++ b) = sys_of a ++ sys_of b.
Proof. unfold sys_of. by rewrite List.filter_app, data_of_app. Qed.
Lemma zlen_data_split recs : zlen (data_of recs) = zlen (out_of recs) + zlen (sys_of recs).
Proof.
  induction recs as [|r recs IH]; [reflexivity|].
  change (r :: recs) with ([r] ++ recs). rewrite data_of_app, out_of_app, sys_of_app, !zlen_app, IH.
  enough (zlen (data_of [r]) = zlen (out_of [r]) + zlen (sys_of [r])) by lia.
  unfold out_of, sys_of. cbn [List.filter]. destruct (is_sys (r_stream r)); cbn [negb]; change (zlen (data_of [])) with 0; lia.
Qed.

(** Every record of a stream. *)
Lemma filter_const {A} (p : A → bool) b l : Forall (λ x, p x = b) l → List.filter p l = if b then l else [].
Proof. induction 1 as [|x l Hx _ IH]; cbn; [by destruct b|]. rewrite Hx, IH. by destruct b. Qed.
Lemma of_stream recs s : Forall (λ r, r_stream r = s) recs →
  out_of recs = (if is_sys s then [] else data_of recs) ∧ sys_of recs = (if is_sys s then data_of recs else []).
Proof.
  unfold out_of, sys_of. intros H.
  rewrite (filter_const _ (negb (is_sys s)) recs), (filter_const _ (is_sys s) recs)
    by (eapply Forall_impl; [exact H|]; intros r Hr; cbn; by rewrite Hr).
  by destruct (is_sys s).
Qed.

Lemma chunks_from_spec fuel n l : (0 < n)%nat → (length l ≤ fuel)%nat →
  concat (chunks_from fuel n l) = l ∧ Forall (λ c, 0 < length c ≤ n)%nat (chunks_from fuel n l).
Proof.
  intros Hn. revert l. induction fuel as [|fuel IH]; intros l Hl.
  { destruct l; [by split|cbn in Hl; lia]. }
  destruct l as [|x l]; [by split|]. cbn [chunks_from concat].
  assert (Hd : (length (drop n (x :: l)) ≤ fuel)%nat) by (rewrite length_drop; cbn in Hl |- *; lia).
  destruct (IH _ Hd) as [-> HF]. split; [apply take_drop|]. constructor; [|exact HF].
  rewrite length_take. cbn [length]. lia.
Qed.

Section writer_laws.
Context {AC : Type} `{ac_ops : !AhoCorasick AC}.
Implicit Types w : JournalWriter AC.

(** A journal whose writes all succeeded: the file is its records, numbered
    from one, and the totals and the hash are of their data. *)
Record journal w (recs : list Rec) : Prop := {
  j_file : file w = enc_all recs;
  j_valid : Forall valid_rec recs;
  j_consecutive : consecutive 1 recs;
  j_seq : seq w = zlen recs;
  j_bytes : w_bytes w = zlen (data_of recs);
  j_hash : hash w = Some (data_of recs);
}.

Definition disk_ok (io : Disk) : Prop := Forall (λ x, x = None) io.
Lemma disk_ok_head io : disk_ok io → default None (head io) = None.
Proof. destruct io; [done|]. by intros [-> _]%Forall_cons. Qed.
Lemma disk_ok_tail io : disk_ok io → disk_ok (tail io).
Proof. destruct io; [done|]. by intros [_ ?]%Forall_cons. Qed.

(** The fields [record] leaves. *)
Definition same_books w w' : Prop :=
  dropped w' = dropped w ∧ cap w' = cap w ∧ out_bytes w' = out_bytes w ∧ sys_bytes w' = sys_bytes w
  ∧ sys_dropped w' = sys_dropped w ∧ redactor w' = redactor w ∧ late w' = late w.

Lemma record_journal w recs stream data :
  journal w recs → zlen (file w) + HEADER + zlen data < 2 ^ 64 → zlen data < 2 ^ 32 →
  let rec := mkRec (seq w + 1) stream data in
  let '(w', res) := record w None stream data in
  res = Ok tt ∧ journal w' (recs ++ [rec]) ∧ same_books w w' ∧ file w' = file w ++ enc rec.
Proof.
  intros [Hf Hv Hc Hs Hb Hh] Hsize Hd. unfold record. pose proof (enc_all_length recs) as Hlen.
  pose proof (zlen_nonneg recs) as Hrn. pose proof (zlen_nonneg data) as Hdn. unfold HEADER in *. rewrite <- Hf in Hlen.
  assert (Hdata : zlen (data_of recs) ≤ zlen (file w)).
  { rewrite Hf, zlen_enc_all. unfold HEADER. lia. }
  pose proof (zlen_nonneg (data_of recs)).
  rewrite (u64_small (seq w + 1)) by lia. rewrite (u64_small (w_bytes w + zlen data)) by lia.
  set (rec := mkRec (seq w + 1) stream data).
  assert (Hdo : data_of (recs ++ [rec]) = data_of recs ++ data).
  { rewrite data_of_app. unfold data_of at 2. cbn. by rewrite app_nil_r. }
  split_and!; [reflexivity| |unfold same_books; cbn; tauto|reflexivity].
  split; cbn [file seq w_bytes hash].
  - rewrite Hf, enc_all_app. unfold enc_all at 3. cbn [fmap list_fmap concat]. by rewrite app_nil_r.
  - apply Forall_app_2; [exact Hv|]. apply Forall_singleton. split; cbn; lia.
  - apply consecutive_app. split; [exact Hc|]. cbn. split; [lia|done].
  - rewrite zlen_app, Hs. reflexivity.
  - rewrite Hdo, zlen_app, Hb. reflexivity.
  - by rewrite Hh, Hdo.
Qed.

Lemma record_all_journal w recs io stream cs n :
  journal w recs → disk_ok io → Forall (λ c, zlen c < 2 ^ 32) cs →
  zlen (file w) + HEADER * zlen cs + zlen (concat cs) < 2 ^ 64 →
  ∃ news w', record_all w io stream cs n = (w', Ok (n + length cs)%nat) ∧ journal w' (recs ++ news) ∧ same_books w w'
    ∧ r_data <$> news = cs ∧ Forall (λ r, r_stream r = stream) news ∧ file w' = file w ++ enc_all news.
Proof.
  intros Hj Hio Hcs. revert w recs io n Hj Hio. induction Hcs as [|c cs Hc Hcs IH]; intros w recs io n Hj Hio Hsize.
  { exists [], w. rewrite !app_nil_r, Nat.add_0_r. unfold same_books. split_and!; done. }
  cbn [record_all]. rewrite disk_ok_head by done. rewrite zlen_cons in Hsize. cbn [concat] in Hsize. rewrite zlen_app in Hsize.
  pose proof (zlen_nonneg cs). pose proof (zlen_nonneg (concat cs)). unfold HEADER in *.
  pose proof (record_journal w recs stream c Hj ltac:(unfold HEADER; lia) Hc) as Hrec. cbv zeta in Hrec.
  destruct (record w None stream c) as [w1 res]. destruct Hrec as (->&Hj1&Hsame&Hf1).
  destruct (IH w1 _ (tail io) (S n) Hj1 (disk_ok_tail _ Hio)) as (news&w'&->&Hj'&Hsame'&Hdata&Hstr&Hf').
  { rewrite Hf1, zlen_app, zlen_enc. cbn [r_data]. unfold HEADER. lia. }
  exists (mkRec (seq w + 1) stream c :: news), w'. rewrite <- app_assoc in Hj'. split_and!.
  - f_equal. f_equal. cbn [length]. lia.
  - exact Hj'.
  - unfold same_books in *. intuition congruence.
  - cbn. by rewrite Hdata.
  - by constructor.
  - rewrite Hf', Hf1, enc_all_cons. by rewrite app_assoc.
Qed.


(** The books of a log to which [outs] (stdout and stderr) and [syss] (node
    lines) were offered, after redaction. *)
Record logged w (recs : list Rec) (outs syss : list Z) : Prop := {
  l_journal : journal w recs;
  l_cap : 0 ≤ cap w;
  l_out : out_of recs = ztake (cap w) outs;
  l_sys : sys_of recs = ztake SYS_ALLOWANCE syss;
  l_out_bytes : out_bytes w = Z.min (cap w) (zlen outs);
  l_sys_bytes : sys_bytes w = Z.min SYS_ALLOWANCE (zlen syss);
  l_dropped : dropped w = zlen outs - out_bytes w;
  l_sys_dropped : sys_dropped w = zlen syss - sys_bytes w;
  l_chunks : Forall (λ r, (0 < length (r_data r) ≤ MAX_LOG_CHUNK)%nat) recs;
}.

Lemma ztake_split {A} m (l k : list A) : ztake m (l ++ k) = ztake m l ++ ztake (m - zlen l) k.
Proof. unfold ztake. rewrite take_app. do 2 f_equal. unfold zlen. lia. Qed.
Lemma ztake_min {A} m (l : list A) : ztake (Z.min (zlen l) m) l = ztake m l.
Proof.
  destruct (Z.le_ge_cases (zlen l) m); [rewrite Z.min_l by done; by rewrite !ztake_short by lia|by rewrite Z.min_r by done].
Qed.
(** What a cap keeps of the next piece. *)
Lemma kept_next {A} c (l k : list A) :
  ztake (c) l ++ ztake (Z.min (zlen k) (u64_sat_sub c (Z.min c (zlen l)))) k = ztake c (l ++ k).
Proof.
  rewrite ztake_split. f_equal. rewrite ztake_min. unfold u64_sat_sub, ztake. f_equal. lia.
Qed.

Lemma chunk_count (cs : list (list Z)) : Forall (λ c, 0 < length c ≤ MAX_LOG_CHUNK)%nat cs → zlen cs ≤ zlen (concat cs).
Proof.
  induction 1 as [|c cs Hc _ IH]; [reflexivity|]. cbn [concat]. rewrite zlen_cons, zlen_app. unfold zlen in *. lia.
Qed.

Lemma length_fmap_zlen {A B} (f : A → B) l : zlen (f <$> l) = zlen l.
Proof. unfold zlen. by rewrite length_fmap. Qed.
Lemma max_chunk_pos : (0 < MAX_LOG_CHUNK)%nat.
Proof. apply Nat.ltb_lt. vm_compute. reflexivity. Qed.
Lemma chunk_u32 (c : list Z) : (length c ≤ MAX_LOG_CHUNK)%nat → zlen c < 2 ^ 32.
Proof.
  intros Hc. assert (Hm : Z.of_nat MAX_LOG_CHUNK = 65536) by (vm_compute; reflexivity).
  unfold zlen. lia.
Qed.
Lemma count_data recs : Forall (λ r, (0 < length (r_data r) ≤ MAX_LOG_CHUNK)%nat) recs → zlen recs ≤ zlen (data_of recs).
Proof. intros H%(Forall_fmap r_data (λ c, (0 < length c ≤ MAX_LOG_CHUNK)%nat)). rewrite <- (length_fmap_zlen r_data). by apply chunk_count. Qed.
Lemma SYS_ALLOWANCE_pos : 0 ≤ SYS_ALLOWANCE.
Proof. unfold SYS_ALLOWANCE. lia. Qed.

(** What a log holds is no more than what it was offered. *)
Lemma logged_size w recs outs syss : logged w recs outs syss →
  zlen (data_of recs) ≤ zlen outs + zlen syss ∧ zlen (file w) ≤ 14 * (zlen outs + zlen syss).
Proof.
  intros H. pose proof (count_data _ (l_chunks _ _ _ _ H)) as Hc. rewrite (j_file _ _ (l_journal _ _ _ _ H)), zlen_enc_all.
  pose proof (zlen_data_split recs) as Hs. rewrite (l_out _ _ _ _ H), (l_sys _ _ _ _ H) in Hs.
  rewrite !zlen_ztake in Hs by (apply SYS_ALLOWANCE_pos || apply (l_cap _ _ _ _ H)). unfold HEADER. lia.
Qed.

Definition offer (sys : bool) (mine : bool) (old data : list Z) : list Z := if Bool.eqb sys mine then old ++ data else old.

Lemma append_logged w recs outs syss io held stream d :
  logged w recs outs syss → disk_ok io →
  let data := redacted w held d in
  zlen outs + zlen syss + zlen data < 2 ^ 59 →
  ∃ news w', append w io held stream d = (w', Ok (length news))
    ∧ logged w' (recs ++ news) (offer (is_sys stream) false outs data) (offer (is_sys stream) true syss data)
    ∧ Forall (λ r, r_stream r = stream) news ∧ file w' = file w ++ enc_all news
    ∧ redactor w' = redactor w ∧ late w' = late w ∧ cap w' = cap w.
Proof.
  intros HL Hio data Hsize. pose proof (logged_size _ _ _ _ HL) as [Hd Hfile]. destruct HL as [Hj Hcap Hout Hsys Hob Hsb Hdr Hsd Hch].
  unfold append. fold data. set (sys := is_sys stream). cbv zeta.
  set (keep := Z.min (zlen data) (room w sys)). set (w1 := charge w sys (zlen data) keep).
  pose proof (zlen_nonneg data). pose proof (zlen_nonneg outs). pose proof (zlen_nonneg syss). pose proof SYS_ALLOWANCE_pos.
  assert (Hkeep : 0 ≤ keep ≤ zlen data) by (unfold keep, room, u64_sat_sub; destruct sys; lia).
  assert (Hj1 : journal w1 recs) by (destruct Hj; split; assumption).
  destruct (chunks_from_spec (length (ztake keep data)) MAX_LOG_CHUNK (ztake keep data)) as [Hcat Hcs];
    [exact max_chunk_pos|lia|].
  fold (chunks MAX_LOG_CHUNK (ztake keep data)) in Hcat, Hcs. set (cs := chunks _ _) in *.
  pose proof (chunk_count cs Hcs) as Hn. rewrite Hcat, zlen_ztake in Hn by lia.
  destruct (record_all_journal w1 recs io stream cs 0 Hj1 Hio) as (news&w'&Hrec&Hj'&Hsame&Hdata&Hstr&Hf').
  { eapply Forall_impl; [exact Hcs|]. intros c [_ Hc]. exact (chunk_u32 c Hc). }
  { rewrite Hcat, zlen_ztake by lia. change (file w1) with (file w). unfold HEADER. lia. }
  assert (Hnews : data_of news = ztake keep data) by (unfold data_of; by rewrite Hdata).
  destruct (of_stream news stream Hstr) as [Hno Hns]. fold sys in Hno, Hns. rewrite Hnews in Hno, Hns.
  exists news, w'. split_and!; [rewrite Hrec; do 2 f_equal; rewrite <- Hdata; by rewrite length_fmap| |exact Hstr|exact Hf'|..].
  2-4: by unfold same_books, w1, charge in Hsame; cbn in Hsame; intuition congruence.
  destruct Hsame as (Hdr'&Hcap'&Hob'&Hsb'&Hsd'&_&_). unfold w1, charge in *. cbn [dropped cap out_bytes sys_bytes sys_dropped] in *.
  assert (Hchn : Forall (λ r, (0 < length (r_data r) ≤ MAX_LOG_CHUNK)%nat) news).
  { rewrite <- Hdata in Hcs. apply Forall_fmap in Hcs. exact Hcs. }
  split; rewrite ?Hcap'; try assumption.
  - rewrite out_of_app, Hout, Hno. unfold offer, keep, room. destruct sys; cbn [Bool.eqb]; [by rewrite app_nil_r|]. rewrite Hob. apply kept_next.
  - rewrite sys_of_app, Hsys, Hns. unfold offer, keep, room. destruct sys; cbn [Bool.eqb]; [|by rewrite app_nil_r]. rewrite Hsb. apply kept_next.
  - rewrite Hob'. unfold offer, keep, room, u64_sat_sub. destruct sys; cbn [Bool.eqb]; [exact Hob|]. rewrite zlen_app, u64_small; lia.
  - rewrite Hsb'. unfold offer, keep, room, u64_sat_sub. destruct sys; cbn [Bool.eqb]; [|exact Hsb]. rewrite zlen_app, u64_small; lia.
  - rewrite Hdr', Hob'. unfold offer, keep, room, u64_sat_sub. destruct sys; cbn [Bool.eqb]; [exact Hdr|]. rewrite zlen_app, !u64_small; lia.
  - rewrite Hsd', Hsb'. unfold offer, keep, room, u64_sat_sub. destruct sys; cbn [Bool.eqb]; [|exact Hsd]. rewrite zlen_app, !u64_small; lia.
  - by apply Forall_app_2.
Qed.
End writer_laws.

(** ** Reopening *)

Section reopening.
Context {AC : Type} `{ac_ops : !AhoCorasick AC}.
Implicit Types w : JournalWriter AC.

Lemma newer_0 n recs : 1 ≤ n → consecutive n recs → newer 0 recs = recs.
Proof.
  revert n. induction recs as [|r recs IH]; intros n Hn; [reflexivity|]. intros [Hr Hc].
  unfold newer. cbn [List.filter]. rewrite (proj2 (Z.ltb_lt 0 (r_seq r))) by lia. f_equal. apply (IH (n + 1)); [lia|exact Hc].
Qed.

(** [recount] of records is a writer's state after them. *)
Definition counted (f : list Z) (c : Z) (recs : list Rec) : JournalWriter AC :=
  {| file := f; seq := zlen recs; w_bytes := zlen (data_of recs); dropped := 0; cap := c;
     out_bytes := zlen (out_of recs); sys_bytes := zlen (sys_of recs); sys_dropped := 0;
     hash := Some (data_of recs); redactor := None; late := false |}.

Lemma recount_all f c recs : consecutive 1 recs → zlen (data_of recs) < 2 ^ 64 →
  foldl recount (JournalWriter_create f c) recs = counted f c recs.
Proof.
  induction recs as [|r recs IH] using rev_ind; intros Hc Hd; [reflexivity|].
  apply consecutive_app in Hc as [Hc [Hr _]]. rewrite data_of_app, zlen_app in Hd. pose proof (zlen_nonneg (data_of [r])).
  rewrite foldl_app, IH by (exact Hc || lia). cbn [foldl]. unfold recount, counted. cbn [file seq w_bytes dropped cap out_bytes sys_bytes sys_dropped hash redactor late option_map].
  assert (H1 : data_of [r] = r_data r) by (unfold data_of; cbn; by rewrite app_nil_r). rewrite H1 in Hd.
  pose proof (zlen_data_split recs). pose proof (zlen_nonneg (out_of recs)). pose proof (zlen_nonneg (sys_of recs)). pose proof (zlen_nonneg (r_data r)).
  destruct (of_stream [r] (r_stream r) ltac:(by apply Forall_singleton)) as [Ho Hs]. rewrite H1 in Ho, Hs.
  rewrite data_of_app, out_of_app, sys_of_app, H1, Ho, Hs, !zlen_app, Hr, u64_small by lia.
  destruct (is_sys (r_stream r)); rewrite ?u64_small, ?app_nil_r by lia; change (zlen (@nil Z)) with 0; change (zlen [r]) with 1;
    f_equal; lia.
Qed.

Lemma reopen_loop_spec recs t fuel w r del :
  Forall valid_rec recs → consecutive 1 recs → torn t → reads_to recs 0 r del → (length recs < fuel + length del)%nat →
  ∃ rest r', recs = del ++ rest ∧ offset r' = zlen (enc_all recs)
    ∧ reopen_loop fuel (enc_all recs ++ t) w r = Ok (foldl recount w rest, r').
Proof.
  intros Hv Hc Ht. assert (Hdone : ∀ r del, reads_to recs 0 r del → ∃ rest, recs = del ++ rest).
  { intros r0 del0 (dn&rest&He&_&_&->). exists rest. rewrite He in Hc |- *. apply consecutive_app in Hc as [Hc _]. by rewrite (newer_0 1 dn). }
  revert w r del. induction fuel as [|fuel IH]; intros w r del Hto Hf.
  { destruct (Hdone _ _ Hto) as [rest ->]. rewrite length_app in Hf. lia. }
  destruct (read_more_whole recs t 0 r del 256 Hv Hc Ht Hto) as (l&r'&Hread&_&Hto'&Hall).
  cbn [reopen_loop]. rewrite Hread. destruct l as [|rec l].
  - destruct (Hall ltac:(cbn; lia)) as [Hdel Ho]. rewrite app_nil_r, (newer_0 1 recs) in Hdel by (lia || exact Hc).
    exists [], r'. rewrite Hdel, app_nil_r. split_and!; [reflexivity|exact Ho|reflexivity].
  - destruct (IH (foldl recount w (rec :: l)) r' (del ++ rec :: l) Hto') as (rest&r2&He&Ho&->).
    { rewrite length_app. cbn [length]. lia. }
    exists ((rec :: l) ++ rest), r2. rewrite foldl_app. split_and!; [by rewrite He at 1; rewrite <- app_assoc|exact Ho|reflexivity].
Qed.

Lemma reopen_spec recs t c : Forall valid_rec recs → consecutive 1 recs → torn t → zlen (data_of recs) < 2 ^ 64 →
  JournalWriter_reopen (AC := AC) (enc_all recs ++ t) true c = Ok (counted (enc_all recs) c recs).
Proof.
  intros Hv Hc Ht Hd. unfold JournalWriter_reopen.
  destruct (reopen_loop_spec recs t (S (length (enc_all recs ++ t))) (JournalWriter_create (enc_all recs ++ t) c) JournalReader_new [] Hv Hc Ht)
    as (rest&r'&He&Ho&->); [by exists [], recs| |].
  { pose proof (enc_all_length recs). unfold zlen, HEADER in *. rewrite length_app. cbn [length]. lia. }
  cbn [app] in He. rewrite <- He. cbn [result_bind]. rewrite recount_all by done. unfold set_file, counted, set_len.
  cbn [file seq w_bytes dropped cap out_bytes sys_bytes sys_dropped hash redactor late]. rewrite Ho.
  rewrite ztake_app_exact by done. rewrite zlen_app. pose proof (zlen_nonneg t).
  replace (Z.to_nat (zlen (enc_all recs) - (zlen (enc_all recs) + zlen t))) with 0%nat by lia.
  cbn [replicate]. by rewrite app_nil_r.
Qed.

Lemma counted_logged c recs : 0 ≤ c → Forall valid_rec recs → consecutive 1 recs →
  zlen (out_of recs) ≤ c → zlen (sys_of recs) ≤ SYS_ALLOWANCE →
  Forall (λ r, (0 < length (r_data r) ≤ MAX_LOG_CHUNK)%nat) recs →
  logged (counted (enc_all recs) c recs) recs (out_of recs) (sys_of recs).
Proof.
  intros Hc0 Hv Hc Ho Hs Hch. unfold counted. split; cbn [dropped cap out_bytes sys_bytes sys_dropped]; try assumption; try lia.
  - split; cbn [file seq w_bytes hash]; reflexivity || assumption.
  - by rewrite ztake_short.
  - by rewrite ztake_short.
Qed.

End reopening.

(** ** A job's run

    Appends one after another, a reader reading while each is written and
    between them: it sees any number of the bytes the append adds. *)

Section run.
Context {AC : Type} `{ac_ops : !AhoCorasick AC}.

Record Op := { o_stream : LogStream; o_data : list Z; o_held : option (Redactor AC); o_reads : list (nat * nat) }.
Record Reading := { reading : JournalReader; delivered : list Rec; read_errors : nat }.

(** [read_more(max).unwrap_or_default()] of what is on disk. *)
Definition one_read (f : list Z) (st : Reading) (max : nat) : Reading :=
  match read_more (Some f) max (reading st) with
  | (r, Ok l) => {| reading := r; delivered := delivered st ++ l; read_errors := read_errors st |}
  | (r, Err _) => {| reading := r; delivered := delivered st; read_errors := S (read_errors st) |}
  end.
Definition reads_during (old new : list Z) (rs : list (nat * nat)) (st : Reading) : Reading :=
  foldl (λ st '(extra, max), one_read (ztake (zlen old + Z.of_nat extra) new) st max) st rs.
Fixpoint run (w : JournalWriter AC) (st : Reading) (ops : list Op) : JournalWriter AC * Reading :=
  match ops with
  | [] => (w, st)
  | op :: ops =>
    let '(w', _) := append w [] (o_held op) (o_stream op) (o_data op) in
    run w' (reads_during (file w) (file w') (o_reads op) st) ops
  end.

(** A new journal, its redactor and late slot set. *)
Definition begin_log (c : Z) (red : option (Redactor AC)) (lt : bool) : JournalWriter AC :=
  let w := JournalWriter_create [] c in
  let w := match red with Some r => set_redactor w r | None => w end in
  if lt then set_late_redactor w else w.
Definition begin_read (since : Z) : Reading :=
  {| reading := skip_to JournalReader_new since; delivered := []; read_errors := 0 |}.

(** What the ops offer on a stream's cap, after redaction. *)
Definition op_text (red : option (Redactor AC)) (lt : bool) (op : Op) : list Z :=
  redact_if_hit (if lt then o_held op else None) (redact_if_hit red (o_data op)).
Definition offered (red : option (Redactor AC)) (lt : bool) (sys : bool) (ops : list Op) : list Z :=
  concat (op_text red lt <$> List.filter (λ op, Bool.eqb (is_sys (o_stream op)) sys) ops).

Lemma offered_app red lt sys a b : offered red lt sys (a ++ b) = offered red lt sys a ++ offered red lt sys b.
Proof. unfold offered. by rewrite List.filter_app, fmap_app, concat_app. Qed.
Lemma offered_one red lt sys op old :
  offer (is_sys (o_stream op)) sys old (op_text red lt op) = old ++ offered red lt sys [op].
Proof.
  unfold offer, offered. cbn [List.filter]. destruct (Bool.eqb _ _); cbn [fmap list_fmap concat]; by rewrite !app_nil_r.
Qed.

Definition reads_ok (recs : list Rec) (since : Z) (st : Reading) : Prop :=
  reads_to recs since (reading st) (delivered st) ∧ read_errors st = 0%nat.

Lemma reads_during_ok recs since old rs st : Forall valid_rec recs → consecutive 1 recs →
  reads_ok recs since st → reads_ok recs since (reads_during old (enc_all recs) rs st).
Proof.
  intros Hv Hc. unfold reads_during. revert st. induction rs as [|[extra max] rs IH]; intros st Hst; [exact Hst|].
  cbn [foldl]. apply IH. destruct Hst as [Hto He]. pose proof (zlen_nonneg old). unfold one_read.
  destruct (read_more_prefix recs since (reading st) (delivered st) (zlen old + Z.of_nat extra) max Hv Hc ltac:(lia) Hto) as (l&r'&->&Hto').
  by split.
Qed.

Lemma run_logged red lt since ops w st recs outs syss :
  logged w recs outs syss → reads_ok recs since st → redactor w = red → late w = lt →
  zlen (outs ++ offered red lt false ops) + zlen (syss ++ offered red lt true ops) < 2 ^ 59 →
  let '(w', st') := run w st ops in
  ∃ recs', logged w' (recs ++ recs') (outs ++ offered red lt false ops) (syss ++ offered red lt true ops)
    ∧ reads_ok (recs ++ recs') since st' ∧ cap w' = cap w.
Proof.
  intros HL Hst Hred Hlt. revert w st recs outs syss HL Hst Hred Hlt.
  induction ops as [|op ops IH]; intros w st recs outs syss HL Hst Hred Hlt Hsize.
  { exists []. change (offered red lt false []) with (@nil Z). change (offered red lt true []) with (@nil Z). by rewrite !app_nil_r. }
  change (op :: ops) with ([op] ++ ops) in Hsize |- *. rewrite !offered_app, !app_assoc in Hsize |- *.
  assert (Htext : redacted w (o_held op) (o_data op) = op_text red lt op) by (unfold redacted, op_text; by rewrite Hred, Hlt).
  destruct (append_logged w recs outs syss [] (o_held op) (o_stream op) (o_data op) HL ltac:(constructor)) as (news&w'&Happ&HL'&_&Hf&Hr'&Hl'&Hcap).
  { rewrite Htext. pose proof (offered_one red lt false op outs) as Ho. pose proof (offered_one red lt true op syss) as Hs.
    rewrite <- Ho, <- Hs, !zlen_app in Hsize. pose proof (zlen_nonneg (offered red lt false ops)). pose proof (zlen_nonneg (offered red lt true ops)).
    unfold offer in Hsize. destruct (is_sys _); cbn [Bool.eqb] in Hsize; rewrite zlen_app in Hsize; lia. }
  rewrite Htext, !offered_one in HL'. cbn [app run]. rewrite Happ.
  pose proof (l_journal _ _ _ _ HL') as Hj. rewrite (j_file _ _ Hj).
  specialize (IH w' (reads_during (file w) (enc_all (recs ++ news)) (o_reads op) st) (recs ++ news) _ _ HL').
  destruct (run w' _ ops) as [w2 st2]. destruct IH as (recs'&HL2&Hst2&Hcap2).
  - apply reads_during_ok; [apply (j_valid _ _ Hj)|apply (j_consecutive _ _ Hj)|]. destruct Hst as [Hto He]. split; [by apply reads_to_app|exact He].
  - by rewrite Hr'.
  - by rewrite Hl'.
  - exact Hsize.
  - exists (news ++ recs'). rewrite !app_assoc. split_and!; [exact HL2|exact Hst2|by rewrite Hcap2].
Qed.

Lemma logged_redactor (w : JournalWriter AC) r recs outs syss : logged w recs outs syss → logged (set_redactor w r) recs outs syss.
Proof. intros [[] ???????]. split; [split|..]; assumption. Qed.
Lemma logged_late (w : JournalWriter AC) recs outs syss : logged w recs outs syss → logged (set_late_redactor w) recs outs syss.
Proof. intros [[] ???????]. split; [split|..]; assumption. Qed.

Lemma begin_logged c red lt since : 0 ≤ c → 0 ≤ since →
  logged (begin_log c red lt) [] [] [] ∧ reads_ok [] since (begin_read since)
  ∧ redactor (begin_log c red lt) = red ∧ late (begin_log c red lt) = lt ∧ cap (begin_log c red lt) = c.
Proof.
  intros Hc Hs. split_and!; [|split; [|reflexivity]|by destruct red, lt..].
  - assert (H0 : logged (JournalWriter_create (AC := AC) [] c) [] [] []).
    { apply (counted_logged c []); [exact Hc|constructor|exact I|exact Hc|exact SYS_ALLOWANCE_pos|constructor]. }
    unfold begin_log. destruct red as [r|], lt; [apply logged_late, logged_redactor|apply logged_redactor|apply logged_late|]; exact H0.
  - exists [], []. split_and!; [reflexivity|reflexivity|cbn [reading begin_read skip_to last_seq]; change (zlen (@nil Rec)) with 0; cbn [JournalReader_new last_seq]; lia|reflexivity].
Qed.

(** The journal a run of [ops] leaves. *)
Lemma run_begin c red lt since ops : 0 ≤ c → 0 ≤ since →
  zlen (offered red lt false ops) + zlen (offered red lt true ops) < 2 ^ 59 →
  let '(w, st) := run (begin_log c red lt) (begin_read since) ops in
  ∃ recs, logged w recs (offered red lt false ops) (offered red lt true ops) ∧ reads_ok recs since st ∧ cap w = c.
Proof.
  intros Hc Hs Hsize. destruct (begin_logged c red lt since Hc Hs) as (HL&Hst&Hr&Hl&Hcap).
  pose proof (run_logged red lt since ops _ _ [] [] [] HL Hst Hr Hl Hsize) as H.
  destruct (run _ _ _) as [w st]. destruct H as (recs&HL'&Hst'&Hcap'). exists recs. split_and!; [exact HL'|exact Hst'|congruence].
Qed.

End run.
Arguments Op AC : clear implicits.

(** ** Closing out *)

Lemma length_string_app (a b : string) : String.length (a +:+ b) = (String.length a + String.length b)%nat.
Proof. induction a as [|c a IH]; [reflexivity|]. exact (f_equal S IH). Qed.
Lemma length_bytes s : length (bytes s) = String.length s.
Proof. unfold bytes. rewrite length_fmap. induction s as [|c s IH]; [reflexivity|]. exact (f_equal S IH). Qed.

Lemma length_pretty_N_go k x s : (x < 10 ^ N.of_nat k)%N → (String.length (pretty_N_go x s) ≤ String.length s + k)%nat.
Proof.
  revert x s. induction k as [|k IH]; intros x s Hx.
  - cbn in Hx. replace x with 0%N by lia. rewrite pretty_N_go_0. lia.
  - destruct (decide (x = 0)%N) as [->|Hn]; [rewrite pretty_N_go_0; lia|].
    rewrite pretty_N_go_step by lia. etrans; [apply IH|cbn [String.length]; lia].
    rewrite Nat2N.inj_succ, N.pow_succ_r' in Hx. apply N.Div0.div_lt_upper_bound. lia.
Qed.
Lemma length_pretty_Z x : 0 ≤ x < 2 ^ 64 → (String.length (pretty x) ≤ 21)%nat.
Proof.
  intros Hx. destruct x as [|p|p]; [cbn; lia| |lia].
  change (pretty (Z.pos p)) with (if decide (N.pos p = 0)%N then "0" else pretty_N_go (N.pos p) "")%string.
  rewrite decide_False by done. etrans; [apply (length_pretty_N_go 20)|cbn; lia].
  assert (2 ^ 64 < 10 ^ 20) by (vm_compute; reflexivity). change (10 ^ N.of_nat 20)%N with (Z.to_N (10 ^ 20)). lia.
Qed.

Section closing.
Context {AC : Type} `{ac_ops : !AhoCorasick AC}.
Implicit Types w : JournalWriter AC.

Lemma lines_short w : 0 ≤ cap w < 2 ^ 64 → 0 ≤ dropped w < 2 ^ 64 → 0 ≤ sys_dropped w < 2 ^ 64 →
  zlen (truncated_line w) < 256 ∧ zlen (sys_dropped_line w) < 256.
Proof.
  intros Hc%length_pretty_Z Hd%length_pretty_Z Hs%length_pretty_Z.
  pose proof (length_pretty_Z (SYS_ALLOWANCE / 1024) ltac:(split; vm_compute; congruence)) as Ha.
  unfold truncated_line, sys_dropped_line, zlen. rewrite !length_bytes, !length_string_app. cbn [String.length]. lia.
Qed.

Lemma finish_line_journal w recs due line :
  journal w recs → zlen (file w) < 2 ^ 63 → zlen line < 256 →
  ∃ ms w', finish_line due w None line = (w', Ok tt) ∧ journal w' (recs ++ ms) ∧ same_books w w'
    ∧ (r_data <$> ms) = (if due then [line] else []) ∧ Forall (λ r, r_stream r = LogStream_Sys) ms
    ∧ zlen (file w') ≤ zlen (file w) + 300.
Proof.
  intros Hj Hf Hl. destruct due; cbn [finish_line].
  - pose proof (record_journal w recs LogStream_Sys line Hj) as Hrec. unfold HEADER in Hrec.
    specialize (Hrec ltac:(lia) ltac:(lia)). cbv zeta in Hrec. destruct (record w None LogStream_Sys line) as [w' res].
    destruct Hrec as (->&Hj'&Hs&Hf'). exists [mkRec (seq w + 1) LogStream_Sys line], w'.
    split_and!; [reflexivity|exact Hj'|exact Hs|reflexivity|by apply Forall_singleton|].
    rewrite Hf', zlen_app, zlen_enc. cbn [r_data]. unfold HEADER. lia.
  - exists [], w. rewrite app_nil_r. unfold same_books. split_and!; try reflexivity; [exact Hj|constructor|lia].
Qed.

Lemma finish_logged sha256_hex w recs outs syss :
  logged w recs outs syss → cap w < 2 ^ 64 → zlen outs + zlen syss < 2 ^ 59 →
  ∃ ms w', finish_journal sha256_hex w [] true
      = (w', Ok (sha256_hex (data_of (recs ++ ms)), zlen (data_of (recs ++ ms)), (cap w <? zlen outs) || (SYS_ALLOWANCE <? zlen syss)))
    ∧ file w' = enc_all (recs ++ ms) ∧ consecutive 1 (recs ++ ms) ∧ Forall (λ r, r_stream r = LogStream_Sys) ms
    ∧ r_data <$> ms = (if cap w <? zlen outs then [truncated_line w] else []) ++ (if SYS_ALLOWANCE <? zlen syss then [sys_dropped_line w] else []).
Proof.
  intros HL Hc Hsize. pose proof (logged_size _ _ _ _ HL) as [_ Hfile]. pose proof (l_cap _ _ _ _ HL) as Hc0. pose proof SYS_ALLOWANCE_pos.
  pose proof (zlen_nonneg outs). pose proof (zlen_nonneg syss).
  assert (Hd : (0 <? dropped w) = (cap w <? zlen outs)).
  { rewrite (l_dropped _ _ _ _ HL), (l_out_bytes _ _ _ _ HL). apply eq_bool_prop_intro. rewrite !Is_true_true, !Z.ltb_lt. lia. }
  assert (Hsd : (0 <? sys_dropped w) = (SYS_ALLOWANCE <? zlen syss)).
  { rewrite (l_sys_dropped _ _ _ _ HL), (l_sys_bytes _ _ _ _ HL). apply eq_bool_prop_intro. rewrite !Is_true_true, !Z.ltb_lt. lia. }
  assert (Hrange : 0 ≤ dropped w < 2 ^ 64 ∧ 0 ≤ sys_dropped w < 2 ^ 64).
  { rewrite (l_dropped _ _ _ _ HL), (l_out_bytes _ _ _ _ HL), (l_sys_dropped _ _ _ _ HL), (l_sys_bytes _ _ _ _ HL). lia. }
  destruct (lines_short w ltac:(lia) (proj1 Hrange) (proj2 Hrange)) as [Hl1 Hl2].
  unfold finish_journal. rewrite Hd, Hsd. cbn [head default from_option].
  destruct (finish_line_journal w recs (cap w <? zlen outs) (truncated_line w) (l_journal _ _ _ _ HL) ltac:(lia) Hl1)
    as (m1&w1&->&Hj1&Hs1&Hm1&Hf1&Hz1).
  assert (Hline : sys_dropped_line w1 = sys_dropped_line w) by (unfold sys_dropped_line; by destruct Hs1 as (_&_&_&_&->&_)).
  assert (Hsame : sys_dropped w1 = sys_dropped w) by apply Hs1. rewrite Hsame, Hsd, Hline.
  replace (default None (head (if 0 <? dropped w1 then tail [] else []))) with (@None nat) by (by destruct (0 <? dropped w1)).
  destruct (finish_line_journal w1 (recs ++ m1) (SYS_ALLOWANCE <? zlen syss) (sys_dropped_line w) Hj1 ltac:(lia) Hl2)
    as (m2&w2&->&Hj2&_&Hm2&Hf2&_).
  rewrite <- app_assoc in Hj2. exists (m1 ++ m2). eexists. split_and!.
  - rewrite (j_hash _ _ Hj2), (j_bytes _ _ Hj2). reflexivity.
  - apply (j_file _ _ Hj2).
  - apply (j_consecutive _ _ Hj2).
  - by apply Forall_app_2.
  - rewrite fmap_app, Hm1, Hm2. reflexivity.
Qed.

(** ** Properties *)

(** (C10) Whatever is appended, and however the reads fall between and within the
    writes, a reader that began after [since] has had, in order and once
    each, records newer than it; no read fails; and one that returns fewer
    than asked has had them all. *)
Theorem log_delivered c red lt since ops : 0 ≤ c → 0 ≤ since →
  zlen (offered red lt false ops) + zlen (offered red lt true ops) < 2 ^ 59 →
  let '(w, st) := run (AC := AC) (begin_log c red lt) (begin_read since) ops in
  ∃ recs, file w = enc_all recs ∧ consecutive 1 recs ∧ read_errors st = 0%nat
    ∧ ∀ max, ∃ l r', read_more (Some (file w)) max (reading st) = (r', Ok l)
        ∧ delivered st ++ l `prefix_of` newer since recs
        ∧ ((length l < max)%nat → delivered st ++ l = newer since recs).
Proof.
  intros Hc Hs Hsize. pose proof (run_begin c red lt since ops Hc Hs Hsize) as Hrun.
  destruct (run _ _ _) as [w st]. destruct Hrun as (recs&HL&[Hto He]&_). pose proof (l_journal _ _ _ _ HL) as Hj.
  exists recs. split_and!; [apply (j_file _ _ Hj)|apply (j_consecutive _ _ Hj)|exact He|]. intros max.
  destruct (read_more_whole recs [] since (reading st) (delivered st) max (j_valid _ _ Hj) (j_consecutive _ _ Hj) torn_nil Hto)
    as (l&r'&Hread&_&Hto'&Hall).
  rewrite app_nil_r in Hread. exists l, r'. rewrite (j_file _ _ Hj). split_and!; [exact Hread| |intros Hlt; by apply Hall].
  destruct Hto' as (dn&rest&->&_&_&->). rewrite newer_app. by apply prefix_app_r.
Qed.

(** (C11) A crash that leaves any number of the file's bytes: reopening keeps
    every record wholly on disk, drops the torn one, and carries on with the
    sequence, totals and hash of what it kept. *)
Theorem crash_recovered c red lt ops m : 0 ≤ c → 0 ≤ m →
  zlen (offered red lt false ops) + zlen (offered red lt true ops) < 2 ^ 59 →
  let w := (run (AC := AC) (begin_log c red lt) (begin_read 0) ops).1 in
  ∃ done rest w', file w = enc_all (done ++ rest)
    ∧ (∀ r, head rest = Some r → m < zlen (enc_all done) + zlen (enc r))
    ∧ JournalWriter_reopen (AC := AC) (ztake m (file w)) true c = Ok w'
    ∧ logged w' done (out_of done) (sys_of done).
Proof.
  intros Hc Hm Hsize. pose proof (run_begin c red lt 0 ops Hc ltac:(lia) Hsize) as Hrun.
  destruct (run _ _ _) as [w st]. destruct Hrun as (recs&HL&_&Hcap). cbn [fst]. pose proof (logged_size _ _ _ _ HL) as [Hdata _].
  destruct HL as [Hj _ Hout Hsys _ _ _ _ Hch].
  destruct (cut_records m recs (j_valid _ _ Hj) Hm) as (dn&rest&t&->&Hcut&Ht&_&Hhead).
  pose proof (j_valid _ _ Hj) as [Hv _]%Forall_app. pose proof (j_consecutive _ _ Hj) as [Hcons _]%consecutive_app.
  rewrite data_of_app, zlen_app in Hdata. pose proof (zlen_nonneg (data_of rest)).
  exists dn, rest, (counted (enc_all dn) c dn). rewrite (j_file _ _ Hj). split_and!; [reflexivity|exact Hhead| |].
  - rewrite Hcut. apply reopen_spec; [exact Hv|exact Hcons|exact Ht|lia].
  - apply counted_logged; [exact Hc|exact Hv|exact Hcons| | |by apply Forall_app in Hch as [? _]].
    + apply (f_equal zlen) in Hout. rewrite out_of_app, zlen_app, zlen_ztake, Hcap in Hout by lia. pose proof (zlen_nonneg (out_of rest)). lia.
    + apply (f_equal zlen) in Hsys. rewrite sys_of_app, zlen_app, zlen_ztake in Hsys by exact SYS_ALLOWANCE_pos. pose proof (zlen_nonneg (sys_of rest)). lia.
Qed.

(** Closing a run: the journal holds exactly the first [cap] bytes of the
    job's redacted output and the first [SYS_ALLOWANCE] of the node's lines,
    each stream in order, then a line for each cap passed; the receipt is the
    hash and count of all of it, and [truncated] says whether one was. *)
Theorem log_receipt sha256_hex c red lt ops : 0 ≤ c < 2 ^ 64 →
  zlen (offered red lt false ops) + zlen (offered red lt true ops) < 2 ^ 59 →
  let w := (run (AC := AC) (begin_log c red lt) (begin_read 0) ops).1 in
  ∃ recs ms w', finish_journal sha256_hex w [] true
      = (w', Ok (sha256_hex (data_of (recs ++ ms)), zlen (data_of (recs ++ ms)),
                 (c <? zlen (offered red lt false ops)) || (SYS_ALLOWANCE <? zlen (offered red lt true ops))))
    ∧ file w' = enc_all (recs ++ ms) ∧ consecutive 1 (recs ++ ms)
    ∧ out_of recs = ztake c (offered red lt false ops) ∧ sys_of recs = ztake SYS_ALLOWANCE (offered red lt true ops)
    ∧ Forall (λ r, (length (r_data r) ≤ MAX_LOG_CHUNK)%nat) recs
    ∧ Forall (λ r, r_stream r = LogStream_Sys) ms
    ∧ zlen ms = (if c <? zlen (offered red lt false ops) then 1 else 0)
        + (if SYS_ALLOWANCE <? zlen (offered red lt true ops) then 1 else 0).
Proof.
  intros Hc Hsize. pose proof (run_begin c red lt 0 ops ltac:(lia) ltac:(lia) Hsize) as Hrun.
  destruct (run _ _ _) as [w st]. destruct Hrun as (recs&HL&_&Hcap). cbn [fst].
  destruct (finish_logged sha256_hex w recs _ _ HL ltac:(lia) Hsize) as (ms&w'&Hfin&Hf&Hcons&Hsys&Hms).
  rewrite Hcap in Hfin, Hms. exists recs, ms, w'.
  split_and!; [exact Hfin|exact Hf|exact Hcons|by rewrite (l_out _ _ _ _ HL), Hcap|apply (l_sys _ _ _ _ HL)| |exact Hsys|].
  - eapply Forall_impl; [exact (l_chunks _ _ _ _ HL)|]. by intros r [_ ?].
  - rewrite <- (length_fmap_zlen r_data), Hms, zlen_app. by destruct (c <? _), (SYS_ALLOWANCE <? _).
Qed.

End closing.

(** ** Examples *)

Module JournalExamples.
Import Redact.Naive.

Definition log_redactor : option (Redactor (list (list Z))) := Some Redact.Examples.redactor1.
(** Output with a secret in it, read while it is written; a node line. *)
Definition log_ops : list (Op (list (list Z))) :=
  [{| o_stream := LogStream_Out; o_data := bytes "key=abcd!"; o_held := None; o_reads := [(7%nat, 4%nat); (40%nat, 1%nat)] |};
   {| o_stream := LogStream_Sys; o_data := bytes "[k2-node] step"; o_held := None; o_reads := [] |};
   {| o_stream := LogStream_Err; o_data := bytes "failed"; o_held := None; o_reads := [(19%nat, 2%nat)] |}].
Definition some_hash (l : list Z) : string := pretty (foldl (λ acc b, (acc * 31 + b) mod 65521) 7 l).

(** A write that fails with its header and two bytes on disk, and the next
    one, which succeeds. *)
Definition torn_log : JournalWriter (list (list Z)) :=
  (append (append (JournalWriter_create [] 100) [Some 15%nat] None LogStream_Out (bytes "hello")).1
    [] None LogStream_Out (bytes "world")).1.

End JournalExamples.

Import Redact.Naive JournalExamples.

Lemma log_delivered_witness :
  let '(w, st) := run (begin_log 12 log_redactor false) (begin_read 1) log_ops in
  ∃ recs, file w = enc_all recs ∧ consecutive 1 recs ∧ read_errors st = 0%nat
    ∧ ∀ max, ∃ l r', read_more (Some (file w)) max (reading st) = (r', Ok l)
        ∧ delivered st ++ l `prefix_of` newer 1 recs
        ∧ ((length l < max)%nat → delivered st ++ l = newer 1 recs).
Proof. apply (log_delivered 12 log_redactor false 1 log_ops); vm_compute; congruence. Defined.

Lemma crash_recovered_witness :
  let w := (run (begin_log 12 log_redactor false) (begin_read 0) log_ops).1 in
  ∃ done rest w', file w = enc_all (done ++ rest)
    ∧ (∀ r, head rest = Some r → 30 < zlen (enc_all done) + zlen (enc r))
    ∧ JournalWriter_reopen (AC := list (list Z)) (ztake 30 (file w)) true 12 = Ok w'
    ∧ logged w' done (out_of done) (sys_of done).
Proof. apply (crash_recovered 12 log_redactor false log_ops 30); vm_compute; congruence. Defined.

Lemma log_receipt_witness :
  let w := (run (begin_log 12 log_redactor false) (begin_read 0) log_ops).1 in
  ∃ recs ms w', finish_journal some_hash w [] true
      = (w', Ok (some_hash (data_of (recs ++ ms)), zlen (data_of (recs ++ ms)),
                 (12 <? zlen (offered log_redactor false false log_ops)) || (SYS_ALLOWANCE <? zlen (offered log_redactor false true log_ops))))
    ∧ file w' = enc_all (recs ++ ms) ∧ consecutive 1 (recs ++ ms)
    ∧ out_of recs = ztake 12 (offered log_redactor false false log_ops) ∧ sys_of recs = ztake SYS_ALLOWANCE (offered log_redactor false true log_ops)
    ∧ Forall (λ r, (length (r_data r) ≤ MAX_LOG_CHUNK)%nat) recs
    ∧ Forall (λ r, r_stream r = LogStream_Sys) ms
    ∧ zlen ms = (if 12 <? zlen (offered log_redactor false false log_ops) then 1 else 0)
        + (if SYS_ALLOWANCE <? zlen (offered log_redactor false true log_ops) then 1 else 0).
Proof. apply (log_receipt some_hash 12 log_redactor false log_ops); [split; vm_compute; congruence|vm_compute; congruence]. Defined.

Lemma log_run_value :
  delivered (run (begin_log 12 log_redactor false) (begin_read 1) log_ops).2 = [mkRec 2 LogStream_Sys (bytes "[k2-node] step")]
  ∧ offered log_redactor false false log_ops = bytes "key=[k2v:K]!failed".
Proof. split; vm_compute; reflexivity. Qed.

(** After a write that failed part-way, the next record lands inside the
    torn one: what is read first is not what was appended, and every read
    past it fails, so nothing later is ever shipped. *)
Lemma torn_write_hides :
  read_more (Some (file torn_log)) 1 JournalReader_new
    = ({| offset := 18; last_seq := 1 |}, Ok [mkRec 1 LogStream_Out (bytes "he" ++ [0; 0; 0])])
  ∧ read_more (Some (file torn_log)) 32 JournalReader_new = ({| offset := 18; last_seq := 1 |}, Err Bad_stream_byte)
  ∧ ∀ max, (0 < max)%nat →
      read_more (Some (file torn_log)) max {| offset := 18; last_seq := 1 |} = ({| offset := 18; last_seq := 1 |}, Err Bad_stream_byte).
Proof.
  split_and!; [vm_compute; reflexivity|vm_compute; reflexivity|].
  intros [|max] Hmax; [lia|]. vm_compute. reflexivity.
Qed.

(** [reopen] counts what the file holds, not what its cap had turned away:
    closing then, the receipt calls a cut log whole. *)
Lemma reopen_forgets_drops :
  let w := (append (JournalWriter_create (AC := list (list Z)) [] 4) [] None LogStream_Out (bytes "0123456789")).1 in
  dropped w = 6
  ∧ (let? w' := JournalWriter_reopen (AC := list (list Z)) (file w) true 4 in (finish_journal some_hash w' [] true).2)
    = Ok (some_hash (bytes "0123"), 4, false).
Proof. split; vm_compute; reflexivity. Qed.
