(* ===== verification/LogCopy.v ===== *)
(** * LogCopy: the controller's copy of a job's log

    [crates/k2-core/src/compute/logs.rs], and [on_log] of
    [crates/k2-daemon/src/compute_ws.rs].  A node's chunks are appended to a
    file per attempt, in sequence: a replay or a gap is dropped, and the last
    sequence is the hint a node resumes from.  Readers page through the file
    by byte cursors.

    The last sequence and size of each file are cached; a restart forgets the
    cache and scans the file.  A write's outcome is the environment's, as in
    [Journal]. *)

From S2P Require Import Prelude Journal.
From stdpp Require Import pretty.
Open Scope Z_scope.

(** ** The files and the cache *)

Definition copy_stream_byte (s : LogStream) : Z :=
  match s with LogStream_Out => 0 | LogStream_Err => 1 | LogStream_Sys => 2 end.
Definition stream_name (b : Z) : string :=
  if b =? 0 then "out" else if b =? 1 then "err" else "sys".

(** One record read back. *)
Record Copy := mkCopy { c_seq : Z; c_stream : Z; c_data : list Z }.

(** A path is its name in the log folder. *)
Definition path (job_id : string) (generation : Z) : string := job_id +:+ "-g" +:+ pretty generation +:+ ".log".

(** The folder, and [TAILS]: (last seq, file size) per open log. *)
Record Logs := { lg_files : gmap string (list Z); lg_tails : gmap string (Z * Z) }.

(** Headers are read and data is passed over, to past the end if it says so. *)
Fixpoint scan_loop (fuel : nat) (f : list Z) (last off : Z) : Z * Z :=
  match fuel with
  | O => (last, off)
  | S fuel =>
    if zlen f <? off + HEADER then (last, off)
    else
      let head := ztake HEADER (zdrop off f) in
      let seq := of_be_bytes (take 8 head) in
      let len := of_be_bytes (take 4 (drop 9 head)) in
      scan_loop fuel f seq (off + (HEADER + len))
  end.
Definition scan_tail (f : option (list Z)) : Z * Z :=
  match f with Some f => scan_loop (S (length f)) f 0 0 | None => (0, 0) end.

(** [map.entry(p).or_insert_with(|| scan_tail(&p))]. *)
Definition tail_of (p : string) (lg : Logs) : (Z * Z) * Logs :=
  match lg_tails lg !! p with
  | Some t => (t, lg)
  | None =>
    let t := scan_tail (lg_files lg !! p) in
    (t, {| lg_files := lg_files lg; lg_tails := <[p := t]> (lg_tails lg) |})
  end.

(** What an append meets: no folder or file, a write cut after [k] bytes, or
    nothing. *)
Inductive CopyIo := Io_ok | Io_no_dir | Io_no_file | Io_short (k : nat).
Inductive CopyError := Log_dir | Open_log | Write_log.

Definition copy_record (seq b : Z) (data : list Z) : list Z :=
  be_bytes 8 seq ++ [b] ++ be_bytes 4 (u32 (zlen data)) ++ data.

(** [append]: [Ok(false)] for a replay or a gap. *)
Definition copy_append (io : CopyIo) (job_id : string) (generation seq : Z) (stream : LogStream) (data : list Z) (lg : Logs)
    : Result bool CopyError * Logs :=
  let p := path job_id generation in
  let '((last, size), lg) := tail_of p lg in
  if (seq <=? last) || negb (seq =? last + 1) then (Ok false, lg)
  else
    let rec := copy_record seq (copy_stream_byte stream) data in
    let f := default [] (lg_files lg !! p) in
    match io with
    | Io_no_dir => (Err Log_dir, lg)
    | Io_no_file => (Err Open_log, lg)
    | Io_short k => (Err Write_log, {| lg_files := <[p := f ++ take k rec]> (lg_files lg); lg_tails := lg_tails lg |})
    | Io_ok =>
      (Ok true, {| lg_files := <[p := f ++ rec]> (lg_files lg); lg_tails := <[p := (seq, size + zlen rec)]> (lg_tails lg) |})
    end.

Definition copy_last_seq (job_id : string) (generation : Z) (lg : Logs) : Z * Logs :=
  let '((last, _), lg) := tail_of (path job_id generation) lg in (last, lg).

(** [read_from]: whole records from [cursor] until [max_bytes] of data. *)
Fixpoint page_loop (fuel : nat) (f : list Z) (max_bytes off total : Z) (out : list Copy) : list Copy * Z :=
  match fuel with
  | O => (out, off)
  | S fuel =>
    if (total <? max_bytes) && (off + HEADER <=? zlen f) then
      let head := ztake HEADER (zdrop off f) in
      let seq := of_be_bytes (take 8 head) in
      let len := of_be_bytes (take 4 (drop 9 head)) in
      if zlen f <? off + HEADER + len then (out, off)
      else
        page_loop fuel f max_bytes (off + (HEADER + len)) (total + len)
          (out ++ [mkCopy seq (nth 8 head 0) (ztake len (zdrop (off + HEADER) f))])
    else (out, off)
  end.
Definition read_from (f : option (list Z)) (cursor max_bytes : Z) : list Copy * Z :=
  match f with
  | None => ([], cursor)
  | Some f => page_loop (S (length f)) f max_bytes cursor 0 []
  end.

Fixpoint cursor_loop (fuel : nat) (f : list Z) (since off : Z) : Z :=
  match fuel with
  | O => off
  | S fuel =>
    if zlen f <? off + HEADER then off
    else
      let head := ztake HEADER (zdrop off f) in
      let seq := of_be_bytes (take 8 head) in
      let len := of_be_bytes (take 4 (drop 9 head)) in
      if since <? seq then off else cursor_loop fuel f since (off + (HEADER + len))
  end.
(** The byte cursor just after [since]. *)
Definition cursor_after_seq (f : option (list Z)) (since : Z) : Z :=
  if since =? 0 then 0
  else match f with None => 0 | Some f => cursor_loop (S (length f)) f since 0 end.

(** [sweep]: the files that [old] says are too old go. *)
Definition sweep (old : string → bool) (lg : Logs) : Logs :=
  {| lg_files := filter (λ kv, old kv.1 = false) (lg_files lg);
     lg_tails := filter (λ kv, (old kv.1 && bool_decide (is_Some (lg_files lg !! kv.1))) = false) (lg_tails lg) |}.
(** A restart: the cache is gone. *)
Definition restart (lg : Logs) : Logs := {| lg_files := lg_files lg; lg_tails := ∅ |}.

(** ** A chunk from the wire *)

(** [frames.rs]: [data] is base64 text. *)
Record LogChunk := mkLogChunk { lc_job_id : string; lc_generation : Z; lc_seq : Z; lc_stream : LogStream; lc_data : string }.

(** [on_log]; [unb64] is the [base64] crate's, [belt] the second redaction
    of an attempt's chunks. *)
Definition on_log (unb64 : string → option (list Z)) (belt : string → Z → list Z → option (list Z)) (io : CopyIo) (l : LogChunk) (lg : Logs) : Logs :=
  match unb64 (lc_data l) with
  | None => lg
  | Some data =>
    if (MAX_LOG_CHUNK <? length data)%nat then lg
    else
      let data := default data (belt (lc_job_id l) (lc_generation l) data) in
      (copy_append io (lc_job_id l) (lc_generation l) (lc_seq l) (lc_stream l) data lg).2
  end.

(** ** Records of a copy *)

Definition cenc (c : Copy) : list Z := copy_record (c_seq c) (c_stream c) (c_data c).
Definition cenc_all (cs : list Copy) : list Z := concat (cenc <$> cs).
Definition valid_copy (c : Copy) : Prop := 0 ≤ c_seq c < 2 ^ 64 ∧ zlen (c_data c) < 2 ^ 32.
Fixpoint in_sequence (n : Z) (cs : list Copy) : Prop :=
  match cs with [] => True | c :: cs => c_seq c = n ∧ in_sequence (n + 1) cs end.

Lemma cenc_frame c : cenc c = frame_header (c_seq c) (c_stream c) (zlen (c_data c)) ++ c_data c.
Proof. unfold cenc, copy_record, frame_header. by rewrite <- !app_assoc. Qed.
Lemma zlen_cenc c : zlen (cenc c) = HEADER + zlen (c_data c).
Proof. by rewrite cenc_frame, zlen_app, zlen_frame_header. Qed.
Lemma cenc_all_cons c cs : cenc_all (c :: cs) = cenc c ++ cenc_all cs.
Proof. reflexivity. Qed.
Lemma cenc_all_app a b : cenc_all (a ++ b) = cenc_all a ++ cenc_all b.
Proof. unfold cenc_all. by rewrite fmap_app, concat_app. Qed.
Lemma cenc_all_length cs : HEADER * zlen cs ≤ zlen (cenc_all cs).
Proof.
  induction cs as [|c cs IH]; [by vm_compute|].
  rewrite cenc_all_cons, zlen_app, zlen_cenc, zlen_cons. unfold HEADER in *. pose proof (zlen_nonneg (c_data c)). lia.
Qed.
Lemma in_sequence_app n a b : in_sequence n (a ++ b) ↔ in_sequence n a ∧ in_sequence (n + zlen a) b.
Proof.
  revert n. induction a as [|c a IH]; intros n.
  - change (zlen (@nil Copy)) with 0. rewrite Z.add_0_r. cbn. tauto.
  - cbn [app in_sequence]. rewrite IH, zlen_cons, Z.add_assoc. tauto.
Qed.

(** What the loops read of a record at [off]. *)
Lemma copy_at pre c rest off : valid_copy c → off = zlen pre →
  let f := pre ++ cenc c ++ rest in
  let head := ztake HEADER (zdrop off f) in
  (zlen f <? off + HEADER) = false ∧ (off + HEADER <=? zlen f) = true
  ∧ of_be_bytes (take 8 head) = c_seq c ∧ nth 8 head 0 = c_stream c ∧ of_be_bytes (take 4 (drop 9 head)) = zlen (c_data c)
  ∧ (zlen f <? off + HEADER + zlen (c_data c)) = false ∧ ztake (zlen (c_data c)) (zdrop (off + HEADER) f) = c_data c.
Proof.
  intros [Hs Hd] -> f head. pose proof (zlen_nonneg (c_data c)). pose proof (zlen_nonneg rest).
  assert (Hlen : zlen f = zlen pre + (HEADER + zlen (c_data c)) + zlen rest) by (unfold f; rewrite !zlen_app, zlen_cenc; lia).
  assert (Hhead : head = frame_header (c_seq c) (c_stream c) (zlen (c_data c))).
  { unfold head, f. rewrite (zdrop_app_exact _ pre) by reflexivity. rewrite cenc_frame, <- app_assoc.
    apply ztake_app_exact. by rewrite zlen_frame_header. }
  destruct (frame_fields (c_seq c) (c_stream c) (zlen (c_data c)) Hs ltac:(lia)) as (H1&H2&H3). rewrite Hhead, H1, H2, H3.
  split_and!; try reflexivity; try (apply Z.ltb_ge; lia); [apply Z.leb_le; lia|].
  unfold f. rewrite cenc_frame, <- app_assoc, app_assoc.
  rewrite (zdrop_app_exact _ (pre ++ frame_header _ _ _)) by (rewrite zlen_app, zlen_frame_header; reflexivity).
  by apply ztake_app_exact.
Qed.

Lemma scan_loop_spec fuel pre cs n last : Forall valid_copy cs → in_sequence n cs → (length cs < fuel)%nat → last = n - 1 →
  scan_loop fuel (pre ++ cenc_all cs) last (zlen pre) = (n - 1 + zlen cs, zlen pre + zlen (cenc_all cs)).
Proof.
  intros Hv. revert fuel pre n last. induction Hv as [|c cs Hc Hv IH]; intros fuel pre n last Hn Hf ->.
  - destruct fuel as [|fuel]; [cbn in Hf; lia|]. cbn [scan_loop]. change (cenc_all []) with (@nil Z). change (zlen (@nil Copy)) with 0.
    rewrite app_nil_r, (proj2 (Z.ltb_lt _ _)) by (unfold HEADER; lia). change (zlen (@nil Z)) with 0. f_equal; lia.
  - destruct fuel as [|fuel]; [cbn in Hf; lia|]. destruct Hn as [Hs Hn]. cbn [scan_loop]. rewrite cenc_all_cons.
    destruct (copy_at pre c (cenc_all cs) _ Hc eq_refl) as (->&_&->&_&->&_). rewrite <- zlen_cenc, <- zlen_app, app_assoc.
    rewrite (IH fuel (pre ++ cenc c) (n + 1)) by (exact Hn || (cbn in Hf; lia)). rewrite zlen_cons, !zlen_app. f_equal; lia.
Qed.

(** A file that is [cs], and what the cache may say of it. *)
Record copied (lg : Logs) (p : string) (cs : list Copy) : Prop := {
  cp_file : default [] (lg_files lg !! p) = cenc_all cs;
  cp_valid : Forall valid_copy cs;
  cp_sequence : in_sequence 1 cs;
  cp_tail : ∀ t, lg_tails lg !! p = Some t → t = (zlen cs, zlen (cenc_all cs));
}.

Lemma tail_of_copied lg p cs : copied lg p cs →
  ∃ lg', tail_of p lg = ((zlen cs, zlen (cenc_all cs)), lg') ∧ copied lg' p cs ∧ lg_files lg' = lg_files lg
    ∧ ∀ p', p' ≠ p → lg_tails lg' !! p' = lg_tails lg !! p'.
Proof.
  intros Hc. pose proof Hc as [Hf Hv Hs Ht]. unfold tail_of. destruct (lg_tails lg !! p) as [t|] eqn:Hp.
  { rewrite (Ht t eq_refl). exists lg. split_and!; [reflexivity|exact Hc|reflexivity|done]. }
  assert (Hscan : scan_tail (lg_files lg !! p) = (zlen cs, zlen (cenc_all cs))).
  { unfold scan_tail. destruct (lg_files lg !! p) as [f|]; cbn [default from_option id] in Hf.
    - rewrite Hf. pose proof (cenc_all_length cs) as Hl. unfold HEADER in Hl.
      rewrite (scan_loop_spec _ [] cs 1 0 Hv Hs) by (unfold zlen in Hl; lia). f_equal; lia.
    - destruct cs as [|c cs]; [reflexivity|]. apply (f_equal zlen) in Hf. rewrite cenc_all_cons, zlen_app, zlen_cenc in Hf.
      pose proof (zlen_nonneg (c_data c)). pose proof (zlen_nonneg (cenc_all cs)). change (zlen (@nil Z)) with 0 in Hf. unfold HEADER in Hf. lia. }
  rewrite Hscan. eexists. split_and!; [reflexivity| |reflexivity|].
  - split; [exact Hf|exact Hv|exact Hs|]. cbn [lg_tails]. intros t. rewrite lookup_insert_eq. by intros [= <-].
  - intros p' Hne. cbn [lg_tails]. by rewrite lookup_insert_ne.
Qed.

(** An append in sequence adds its record; any other leaves the copy. *)
Lemma copy_append_spec lg job gen cs seq stream data :
  copied lg (path job gen) cs → zlen data < 2 ^ 32 → seq < 2 ^ 64 →
  let '(res, lg') := copy_append Io_ok job gen seq stream data lg in
  let new := seq =? zlen cs + 1 in
  res = Ok new
  ∧ copied lg' (path job gen) (cs ++ if new then [mkCopy seq (copy_stream_byte stream) data] else [])
  ∧ ∀ p, p ≠ path job gen → lg_files lg' !! p = lg_files lg !! p ∧ lg_tails lg' !! p = lg_tails lg !! p.
Proof.
  intros Hc Hd Hsq. unfold copy_append. set (p := path job gen).
  destruct (tail_of_copied lg p cs Hc) as (lg1&->&[Hf Hv Hs Ht]&Hfiles&Htails). pose proof (zlen_nonneg cs) as Hn.
  destruct (Z.eq_dec seq (zlen cs + 1)) as [He|Hne].
  - rewrite (proj2 (Z.leb_gt _ _)), (proj2 (Z.eqb_eq _ _) He) by lia. cbn [orb negb].
    set (c := mkCopy seq (copy_stream_byte stream) data).
    assert (Hall : cenc_all (cs ++ [c]) = cenc_all cs ++ cenc c) by (rewrite cenc_all_app; unfold cenc_all at 2; cbn; by rewrite app_nil_r).
    split_and!; [reflexivity| |].
    + split; cbn [lg_files lg_tails].
      * rewrite lookup_insert_eq. cbn [default from_option id]. by rewrite Hf, Hall.
      * apply Forall_app_2; [exact Hv|]. apply Forall_singleton. split; cbn; lia.
      * apply in_sequence_app. split; [exact Hs|]. cbn. lia.
      * intros t. rewrite lookup_insert_eq. intros [= <-]. rewrite Hall, !zlen_app, He. f_equal.
    + intros p' Hp'. cbn [lg_files lg_tails]. rewrite !lookup_insert_ne by done. split; [by rewrite Hfiles|by apply Htails].
  - rewrite (proj2 (Z.eqb_neq _ _) Hne), orb_true_r. rewrite app_nil_r.
    split_and!; [reflexivity|by constructor|]. intros p' Hp'. by rewrite Hfiles, Htails.
Qed.

Lemma restart_copied lg p cs : copied lg p cs → copied (restart lg) p cs.
Proof. intros [Hf Hv Hs _]. split; [exact Hf|exact Hv|exact Hs|]. cbn. intros t. by rewrite lookup_empty. Qed.
Lemma copied_other lg lg' p cs : copied lg p cs → lg_files lg' !! p = lg_files lg !! p → lg_tails lg' !! p = lg_tails lg !! p → copied lg' p cs.
Proof. intros [Hf Hv Hs Ht] H1 H2. split; [by rewrite H1|exact Hv|exact Hs|by rewrite H2]. Qed.
Lemma last_seq_copied lg job gen cs : copied lg (path job gen) cs →
  ∃ lg', copy_last_seq job gen lg = (zlen cs, lg') ∧ copied lg' (path job gen) cs.
Proof. intros Hc. unfold copy_last_seq. destruct (tail_of_copied lg _ cs Hc) as (lg'&->&Hc'&_). by exists lg'. Qed.

(** ** Paging *)

(** A record still being written. *)
Definition copy_torn (t : list Z) : Prop := ∃ c k, valid_copy c ∧ 0 ≤ k < zlen (cenc c) ∧ t = ztake k (cenc c).
Lemma copy_torn_nil : copy_torn [].
Proof. by exists (mkCopy 0 0 []), 0. Qed.

Lemma page_torn fuel pre t max total out : copy_torn t → page_loop fuel (pre ++ t) max (zlen pre) total out = (out, zlen pre).
Proof.
  intros (c&k&[Hs Hd]&Hk&->). destruct fuel as [|fuel]; [reflexivity|]. cbn [page_loop].
  destruct (total <? max); [|reflexivity]. cbn [andb]. rewrite zlen_app, zlen_ztake, Z.min_l by lia.
  destruct (zlen pre + HEADER <=? zlen pre + k) eqn:Hle; [|reflexivity]. apply Z.leb_le in Hle. pose proof (zlen_nonneg (c_data c)).
  assert (Hh : ztake HEADER (zdrop (zlen pre) (pre ++ ztake k (cenc c))) = frame_header (c_seq c) (c_stream c) (zlen (c_data c))).
  { rewrite (zdrop_app_exact _ pre) by reflexivity. unfold ztake. rewrite take_take, Nat.min_l by lia. rewrite cenc_frame.
    apply ztake_app_exact. by rewrite zlen_frame_header. }
  rewrite Hh. destruct (frame_fields (c_seq c) (c_stream c) (zlen (c_data c)) Hs ltac:(lia)) as (->&->&->).
  rewrite zlen_cenc in Hk. rewrite (proj2 (Z.ltb_lt _ _)) by lia. reflexivity.
Qed.

Definition payload (cs : list Copy) : Z := zlen (concat (c_data <$> cs)).
Lemma payload_cons c cs : payload (c :: cs) = zlen (c_data c) + payload cs.
Proof. unfold payload. cbn. by rewrite zlen_app. Qed.

(** The loop takes the next records, until they reach [max] or are over. *)
Lemma page_loop_spec fuel pre cs t max total out :
  Forall valid_copy cs → copy_torn t → (length cs < fuel)%nat →
  ∃ page rest, cs = page ++ rest
    ∧ page_loop fuel (pre ++ cenc_all cs ++ t) max (zlen pre) total out = (out ++ page, zlen pre + zlen (cenc_all page))
    ∧ (total < max → page = [] → rest = []) ∧ (total + payload page < max → rest = []).
Proof.
  intros Hv Ht. revert fuel pre total out. induction Hv as [|c cs Hc Hv IH]; intros fuel pre total out Hf.
  - exists [], []. change (cenc_all []) with (@nil Z). change (zlen (@nil Z)) with 0. rewrite (app_nil_r out), Z.add_0_r.
    split_and!; [reflexivity|by apply page_torn|done|reflexivity].
  - destruct fuel as [|fuel]; [cbn in Hf; lia|]. cbn [page_loop].
    destruct (total <? max) eqn:Hmax; bool_props.
    2:{ exists [], (c :: cs). change (cenc_all []) with (@nil Z). change (zlen (@nil Z)) with 0. rewrite (app_nil_r out), Z.add_0_r.
        split_and!; [reflexivity|reflexivity|lia|]. change (payload []) with 0. lia. }
    rewrite cenc_all_cons, <- app_assoc.
    destruct (copy_at pre c (cenc_all cs ++ t) _ Hc eq_refl) as (_&->&->&->&->&->&->). cbn [andb].
    rewrite (app_assoc pre), <- zlen_cenc, <- zlen_app.
    destruct (IH fuel (pre ++ cenc c) (total + zlen (c_data c)) (out ++ [mkCopy (c_seq c) (c_stream c) (c_data c)])) as (page&rest&->&->&_&Hr);
      [cbn in Hf; lia|].
    exists (c :: page), rest. rewrite cenc_all_cons, payload_cons, !zlen_app, <- app_assoc. destruct c as [s b d].
    split_and!; [reflexivity|f_equal; cbn [c_seq c_stream c_data]; lia|done|]. intros H. apply Hr. cbn [c_data] in *. lia.
Qed.

Lemma in_sequence_from n cs : in_sequence n cs → Forall (λ c, n ≤ c_seq c) cs.
Proof.
  revert n. induction cs as [|c cs IH]; intros n; [constructor|]. intros [Hc Hs]. constructor; [lia|].
  eapply Forall_impl; [exact (IH _ Hs)|]. cbv beta. intros x Hx. lia.
Qed.

Lemma cursor_loop_spec fuel pre cs n since : Forall valid_copy cs → in_sequence n cs → (length cs < fuel)%nat →
  ∃ done rest, cs = done ++ rest ∧ Forall (λ c, c_seq c ≤ since) done ∧ Forall (λ c, since < c_seq c) rest
    ∧ cursor_loop fuel (pre ++ cenc_all cs) since (zlen pre) = zlen pre + zlen (cenc_all done).
Proof.
  intros Hv. revert fuel pre n. induction Hv as [|c cs Hc Hv IH]; intros fuel pre n Hn Hf.
  - exists [], []. destruct fuel as [|fuel]; [cbn in Hf; lia|]. cbn [cursor_loop]. change (cenc_all []) with (@nil Z).
    rewrite (app_nil_r pre), (proj2 (Z.ltb_lt _ _)) by (unfold HEADER; lia). change (zlen (@nil Z)) with 0.
    split_and!; [reflexivity|constructor|constructor|lia].
  - destruct fuel as [|fuel]; [cbn in Hf; lia|]. cbn [cursor_loop]. rewrite cenc_all_cons.
    destruct (copy_at pre c (cenc_all cs) _ Hc eq_refl) as (->&_&->&_&->&_). destruct (since <? c_seq c) eqn:Hs; bool_props.
    + exists [], (c :: cs). change (cenc_all []) with (@nil Z). change (zlen (@nil Z)) with 0.
      split_and!; [reflexivity|constructor| |lia]. eapply Forall_impl; [exact (in_sequence_from _ _ Hn)|]. destruct Hn as [Hcn _]. cbv beta. intros x Hx. lia.
    + destruct Hn as [_ Hn]. rewrite <- zlen_cenc, <- zlen_app, app_assoc.
      destruct (IH fuel (pre ++ cenc c) (n + 1) Hn) as (dn&rest&->&Hd&Hr&->); [cbn in Hf; lia|].
      exists (c :: dn), rest. rewrite cenc_all_cons, !zlen_app. split_and!; [reflexivity|by constructor|exact Hr|lia].
Qed.

(** ** Properties *)

(** Paging through a copy, a record being written behind it: from the cursor
    after [since] come exactly the newer records, each page the next whole
    ones and its cursor after them; a page is empty only at the end, and one
    under [max_bytes] is the last. *)
Theorem pages_exact cs t since : Forall valid_copy cs → in_sequence 1 cs → copy_torn t →
  (∃ done rest, cs = done ++ rest ∧ Forall (λ c, c_seq c ≤ since) done ∧ Forall (λ c, since < c_seq c) rest
      ∧ cursor_after_seq (Some (cenc_all cs)) since = zlen (cenc_all done))
  ∧ ∀ done rest max_bytes, cs = done ++ rest → 0 < max_bytes →
      ∃ page rest', rest = page ++ rest'
        ∧ read_from (Some (cenc_all cs ++ t)) (zlen (cenc_all done)) max_bytes = (page, zlen (cenc_all (done ++ page)))
        ∧ (rest ≠ [] → page ≠ []) ∧ (payload page < max_bytes → rest' = []).
Proof.
  intros Hv Hs Ht. assert (Hlen : (length cs < S (length (cenc_all cs)))%nat).
  { pose proof (cenc_all_length cs). unfold zlen, HEADER in *. lia. }
  split.
  - unfold cursor_after_seq. destruct (since =? 0) eqn:H0; bool_props.
    + exists [], cs. split_and!; [reflexivity|constructor| |reflexivity].
      eapply Forall_impl; [exact (in_sequence_from _ _ Hs)|]. cbv beta. intros x Hx. lia.
    + destruct (cursor_loop_spec _ [] cs 1 since Hv Hs Hlen) as (dn&rest&->&Hd&Hr&Hc). by exists dn, rest.
  - intros dn rest max_bytes -> Hmax. apply Forall_app in Hv as [_ Hv]. unfold read_from.
    rewrite cenc_all_app, <- app_assoc.
    destruct (page_loop_spec (S (length (cenc_all dn ++ cenc_all rest ++ t))) (cenc_all dn) rest t max_bytes 0 [] Hv Ht) as (page&rest'&->&->&Hp&Hr).
    { pose proof (cenc_all_length rest). unfold zlen, HEADER in *. rewrite !length_app. lia. }
    exists page, rest'. rewrite cenc_all_app, zlen_app. split_and!; [reflexivity|reflexivity|intros Hne ->; by rewrite (Hp Hmax eq_refl) in Hne|exact Hr].
Qed.

Lemma pages_exact_witness :
  (∃ done rest, [mkCopy 1 0 (bytes "one"); mkCopy 2 2 (bytes "two")] = done ++ rest
      ∧ Forall (λ c, c_seq c ≤ 1) done ∧ Forall (λ c, 1 < c_seq c) rest
      ∧ cursor_after_seq (Some (cenc_all [mkCopy 1 0 (bytes "one"); mkCopy 2 2 (bytes "two")])) 1 = zlen (cenc_all done))
  ∧ ∀ done rest max_bytes, [mkCopy 1 0 (bytes "one"); mkCopy 2 2 (bytes "two")] = done ++ rest → 0 < max_bytes →
      ∃ page rest', rest = page ++ rest'
        ∧ read_from (Some (cenc_all [mkCopy 1 0 (bytes "one"); mkCopy 2 2 (bytes "two")] ++ ztake 14 (cenc (mkCopy 3 1 (bytes "three")))))
            (zlen (cenc_all done)) max_bytes = (page, zlen (cenc_all (done ++ page)))
        ∧ (rest ≠ [] → page ≠ []) ∧ (payload page < max_bytes → rest' = []).
Proof.
  apply pages_exact.
  - repeat (apply Forall_cons; split); [split; [split|]; vm_compute; congruence..|constructor].
  - cbn. split_and!; reflexivity || exact I.
  - exists (mkCopy 3 1 (bytes "three")), 14. split_and!; [split; [split|]|..]; vm_compute; congruence || reflexivity.
Defined.

(** A controller that stops while it writes leaves a header without its
    data; after a restart [scan_tail] counts that record as stored.  The node
    is told to resume after it, so its data never comes; and what does come
    is appended behind the torn bytes, where no reader finds it. *)
Lemma torn_copy_counted :
  let p := path "j" 1 in
  let lg := {| lg_files := ∅; lg_tails := ∅ |} in
  let lg := (copy_append Io_ok "j" 1 1 LogStream_Out (bytes "one") lg).2 in
  let lg := restart (copy_append (Io_short 14) "j" 1 2 LogStream_Out (bytes "two") lg).2 in
  let '(last, lg) := copy_last_seq "j" 1 lg in
  let '(stored, lg) := copy_append Io_ok "j" 1 3 LogStream_Out (bytes "three") lg in
  last = 2 ∧ stored = Ok true
  ∧ (read_from (lg_files lg !! p) 0 1000).1
    = [mkCopy 1 0 (bytes "one"); mkCopy 2 0 (bytes "t" ++ [0; 0])].
Proof. vm_compute. split_and!; reflexivity. Qed.
