(* ===== verification/Ship.v ===== *)
(** * Ship: from a node's journal to its server

    [ship_pass], [track] and [send_running_first] of
    [crates/k2-node/src/session.rs].  In a session a node sends, for every
    attempt it tracks, first the log, then the state, then the receipt; the
    server keeps its copy of the log ([LogCopy]) and says at the next
    session how far it got.  A server that was ended gets one closing pass,
    in which a final state does not wait for its log.

    A pass sees the ledger's rows and the journals' files as they are then:
    both are functions of the environment, a file per read.  The session's
    queue takes frames until its writer is gone.  The base64 of a chunk is
    the [base64] crate's. *)

From S2P Require Import Prelude Share Tiers Refusal Queue JobFrames Ledger NodeQueue Redact Journal LogCopy.
Open Scope Z_scope.

(** ** Frames and the session's queue *)

Inductive ShipFrame :=
| Sh_log (l : LogChunk)
| Sh_state (u : StateUpdate)
| Sh_receipt (job_id : string) (generation : Z) (receipt : SignedReceipt).

(** What was sent, and how many more frames the queue takes ([None]: all). *)
Record Chan := mkChan { ch_sent : list ShipFrame; ch_room : option nat }.
(** [tx.send(f).await]. *)
Definition tx_send (f : ShipFrame) (ch : Chan) : bool * Chan :=
  match ch_room ch with
  | Some O => (false, ch)
  | Some (S n) => (true, mkChan (ch_sent ch ++ [f]) (Some n))
  | None => (true, mkChan (ch_sent ch ++ [f]) None)
  end.

(** ** Tracks *)

Record Track := mkTrack {
  tk_reader : JournalReader;
  tk_sent : option (JobState * option string);
  tk_hinted : bool;
  tk_fresh : bool;
  tk_ran_sent : bool;
}.
Definition track (since : Z) (hinted : bool) : Track := mkTrack (skip_to JournalReader_new since) None hinted false false.
Definition with_reader (t : Track) (r : JournalReader) : Track := mkTrack r (tk_sent t) (tk_hinted t) (tk_fresh t) (tk_ran_sent t).
Definition with_sent (t : Track) (k : JobState * option string) : Track := mkTrack (tk_reader t) (Some k) (tk_hinted t) (tk_fresh t) (tk_ran_sent t).
Definition with_ran_sent (t : Track) : Track := mkTrack (tk_reader t) (tk_sent t) (tk_hinted t) (tk_fresh t) true.

(** ** One attempt in a pass *)

Section pass.
Context (b64 : list Z → string) (now : Z).

Definition chunk_of (job : string) (gen : Z) (r : Rec) : LogChunk := mkLogChunk job gen (r_seq r) (r_stream r) (b64 (r_data r)).
Fixpoint send_logs (job : string) (gen : Z) (recs : list Rec) (ch : Chan) : bool * Chan :=
  match recs with
  | [] => (true, ch)
  | r :: recs =>
    let '(ok, ch) := tx_send (Sh_log (chunk_of job gen r)) ch in
    if ok then send_logs job gen recs ch else (false, ch)
  end.
(** [read_more(32).unwrap_or_default()] and send, while it comes full; [see i]
    is the file at the [i]th read. *)
Fixpoint log_loop (fuel : nat) (job : string) (gen : Z) (see : nat → option (list Z)) (i : nat) (r : JournalReader) (ch : Chan)
    : bool * JournalReader * Chan :=
  match fuel with
  | O => (true, r, ch)
  | S fuel =>
    let '(r, res) := read_more (see i) 32 r in
    let recs := match res with Ok recs => recs | Err _ => [] end in
    let '(ok, ch) := send_logs job gen recs ch in
    if ok then
      if (length recs <? 32)%nat then (true, r, ch) else log_loop fuel job gen see (S i) r ch
    else (false, r, ch)
  end.

Definition unknown_frame (job : string) (gen : Z) : StateUpdate := state_frame now job gen JobState_Unknown (Some "not_on_node") None.
Definition running_frame (job : string) (gen : Z) (started : Z) (row : Row) : StateUpdate :=
  mk_StateUpdate None job gen JobState_Running None None started None (rw_src row) 0 None.

(** The track it leaves, and whether the queue took the frame. *)
Definition send_running_first (t : Track) (row : Row) (ch : Chan) : bool * Track * Chan :=
  if bool_decide (rw_state row = JobState_Running) then (true, with_ran_sent t, ch)
  else
    match rw_started_at row with
    | None => (true, t, ch)
    | Some started =>
      if negb (tk_fresh t) || tk_ran_sent t then (true, t, ch)
      else
        let '(ok, ch) := tx_send (Sh_state (running_frame (rw_job_id row) (rw_generation row) started row)) ch in
        (ok, with_ran_sent t, ch)
    end.

(** The state of the row, when it isn't the one sent last. *)
Definition send_state (t : Track) (row : Row) (ch : Chan) : bool * Track * Chan :=
  if bool_decide (tk_sent t = Some (rw_state row, rw_reason row)) then (true, t, ch)
  else
    let '(ok, t, ch) := send_running_first t row ch in
    if ok then
      let '(ok, ch) := tx_send (Sh_state (row_state_frame row)) ch in (ok, t, ch)
    else (false, t, ch).

(** What becomes of the track. *)
Inductive Shipped := Ship_gone | Ship_done | Ship_keep (t : Track).

Definition ship_one (fuel : nat) (closing : bool) (job : string) (gen : Z) (row : option Row) (see : nat → option (list Z)) (t : Track) (ch : Chan)
    : Shipped * Chan :=
  match row with
  | None =>
    if tk_hinted t then
      let '(ok, ch) := tx_send (Sh_state (unknown_frame job gen)) ch in
      (if ok then Ship_done else Ship_gone, ch)
    else (Ship_done, ch)
  | Some row =>
    let '(ok, r, ch) := log_loop fuel job gen see 0 (tk_reader t) ch in
    if negb ok then (Ship_gone, ch)
    else
      let t := with_reader t r in
      let state_key := (rw_state row, rw_reason row) in
      if is_terminal (rw_state row) then
        if (last_seq r <? rw_log_seq row) && negb closing then (Ship_keep t, ch)
        else
          let '(ok, t, ch) := send_state t row ch in
          if negb ok then (Ship_gone, ch)
          else
            match rw_receipt row with
            | Some receipt =>
              let '(ok, ch) := tx_send (Sh_receipt job gen receipt) ch in
              (if ok then Ship_done else Ship_gone, ch)
            | None => (Ship_keep (with_sent t state_key), ch)
            end
      else
        let '(ok, t, ch) := send_state t row ch in
        if negb ok then (Ship_gone, ch) else (Ship_keep (with_sent t state_key), ch)
  end.

(** ** A pass over the tracks

    [keys] is the map's own order; [rows] reads the ledger ([.ok().flatten()]),
    [see] the journals. *)
Definition TrackKey : Type := string * Z.
Fixpoint ship_keys (fuel : nat) (closing : bool) (keys : list TrackKey) (rows : TrackKey → Result (option Row) string)
    (see : TrackKey → nat → option (list Z)) (tracks : gmap TrackKey Track) (ch : Chan) : bool * gmap TrackKey Track * Chan :=
  match keys with
  | [] => (true, tracks, ch)
  | key :: keys =>
    match tracks !! key with
    | None => ship_keys fuel closing keys rows see tracks ch
    | Some t =>
      let tracks := delete key tracks in
      let row := match rows key with Ok row => row | Err _ => None end in
      match ship_one fuel closing key.1 key.2 row (see key) t ch with
      | (Ship_gone, ch) => (false, tracks, ch)
      | (Ship_done, ch) => ship_keys fuel closing keys rows see tracks ch
      | (Ship_keep t, ch) => ship_keys fuel closing keys rows see (<[key := t]> tracks) ch
      end
    end
  end.
Definition ship_pass (fuel : nat) (closing : bool) (order : gmap TrackKey Track → list TrackKey) (rows : TrackKey → Result (option Row) string)
    (see : TrackKey → nat → option (list Z)) (tracks : gmap TrackKey Track) (ch : Chan) : bool * gmap TrackKey Track * Chan :=
  ship_keys fuel closing (order tracks) rows see tracks ch.

End pass.

(** ** The protocol

    The specification of what a session sends about an attempt whose log is
    [recs] and of which the server has the records up to [since]: the newer
    records in order, a final state only once every record it counts was
    sent, a receipt only after a final state and then nothing.  When its
    server was ended, a session makes a closing pass, which sends a final
    state though its log can't be read to the end: [late] says that a final
    state may be ahead of the records it counts. *)

Record Proto := mkProto { p_delivered : list Rec; p_final : bool; p_over : bool }.

Section protocol.
Context (late : bool) (b64 : list Z → string) (job : string) (gen : Z) (recs : list Rec) (since : Z).

Definition covered (del : list Rec) (n : Z) : Prop := ∀ r, r ∈ recs → since < r_seq r ≤ n → r ∈ del.

Inductive proto_step : Proto → ShipFrame → Proto → Prop :=
| Proto_log del fin r rest :
    newer since recs = del ++ r :: rest →
    proto_step (mkProto del fin false) (Sh_log (chunk_of b64 job gen r)) (mkProto (del ++ [r]) fin false)
| Proto_state del fin u :
    (is_terminal (su_state u) = true → late = true ∨ covered del (su_log_seq u)) →
    proto_step (mkProto del fin false) (Sh_state u) (mkProto del (fin || is_terminal (su_state u)) false)
| Proto_receipt del x :
    proto_step (mkProto del true false) (Sh_receipt job gen x) (mkProto del true true).

Inductive proto : list ShipFrame → Proto → Prop :=
| proto_nil : proto [] (mkProto [] false false)
| proto_snoc fs f P P' : proto fs P → proto_step P f P' → proto (fs ++ [f]) P'.

(** What a pass keeps of a track, between passes. *)
Record tracks_log (t : Track) (P : Proto) : Prop := {
  tl_reader : reads_to recs since (tk_reader t) (p_delivered P);
  tl_sent : ∀ s why, tk_sent t = Some (s, why) → is_terminal s = true → p_final P = true;
  tl_over : p_over P = false;
}.

Context (Hvalid : Forall valid_rec recs) (Hcons : consecutive 1 recs).

Lemma consecutive_range n l r : consecutive n l → r ∈ l → n ≤ r_seq r < n + zlen l.
Proof.
  revert n. induction l as [|x l IH]; intros n; [by intros _ ?%elem_of_nil|]. intros [Hx Hl]. rewrite zlen_cons.
  pose proof (zlen_nonneg l). intros [->|Hr]%elem_of_cons; [lia|]. specialize (IH _ Hl Hr). lia.
Qed.

Lemma reads_covered rd del n : reads_to recs since rd del → n ≤ last_seq rd → covered del n.
Proof.
  intros (dn&rest&He&_&Hl&->) Hn r Hr Hs. rewrite He in Hr, Hcons. apply consecutive_app in Hcons as [_ Hc2].
  apply elem_of_app in Hr as [Hr|Hr].
  - apply elem_of_filter_bool. split; [exact Hr|]. apply Z.ltb_lt. lia.
  - pose proof (consecutive_range _ _ _ Hc2 Hr). lia.
Qed.

Lemma reads_prefix rd del : reads_to recs since rd del → ∃ rest, newer since recs = del ++ rest.
Proof. intros (dn&rest&->&_&_&->). exists (newer since rest). apply newer_app. Qed.

Lemma send_ok fs P f P' ch : proto fs P → ch_sent ch = fs → proto_step P f P' →
  let '(ok, ch') := tx_send f ch in if ok then proto (ch_sent ch') P' else ch' = ch.
Proof.
  intros Hp <- Hs. unfold tx_send. destruct (ch_room ch) as [[|n]|]; cbn [ch_sent]; [reflexivity|..]; by eapply proto_snoc.
Qed.

Lemma send_logs_ok l del fin ch rest : proto (ch_sent ch) (mkProto del fin false) → newer since recs = (del ++ l) ++ rest →
  let '(ok, ch') := send_logs b64 job gen l ch in
  if ok then proto (ch_sent ch') (mkProto (del ++ l) fin false) else ∃ P, proto (ch_sent ch') P.
Proof.
  revert del ch. induction l as [|r l IH]; intros del ch Hp He; cbn [send_logs]; [by rewrite app_nil_r|].
  rewrite <- app_assoc in He. cbn [app] in He.
  pose proof (send_ok _ _ _ _ ch Hp eq_refl (Proto_log del fin r (l ++ rest) He)) as Hs.
  destruct (tx_send _ ch) as [[|] ch1]; [|exists (mkProto del fin false); by rewrite Hs].
  specialize (IH (del ++ [r]) ch1 Hs). rewrite <- !app_assoc in IH. apply IH. exact He.
Qed.

(** The file as a read sees it: any part of it, or not there yet. *)
Definition sees (see : nat → option (list Z)) : Prop :=
  ∀ i, see i = None ∨ ∃ m, 0 ≤ m ∧ see i = Some (ztake m (enc_all recs)).

Lemma log_loop_ok fuel see i rd del fin ch : sees see → reads_to recs since rd del →
  proto (ch_sent ch) (mkProto del fin false) →
  let '(ok, rd', ch') := log_loop b64 fuel job gen see i rd ch in
  if ok then ∃ del', proto (ch_sent ch') (mkProto del' fin false) ∧ reads_to recs since rd' del' else ∃ P, proto (ch_sent ch') P.
Proof.
  intros Hsee. revert i rd del ch. induction fuel as [|fuel IH]; intros i rd del ch Hto Hp; cbn [log_loop]; [by exists del|].
  assert (Hread : ∃ l rd', read_more (see i) 32 rd = (rd', Ok l) ∧ reads_to recs since rd' (del ++ l)).
  { destruct (Hsee i) as [->|(m&Hm&->)]; [exists [], rd; by rewrite app_nil_r|]. by apply read_more_prefix. }
  destruct Hread as (l&rd'&->&Hto'). destruct (reads_prefix _ _ Hto') as [rest He].
  pose proof (send_logs_ok l del fin ch rest Hp He) as Hs.
  destruct (send_logs b64 job gen l ch) as [[|] ch1]; [|exact Hs].
  destruct (length l <? 32)%nat; [by exists (del ++ l)|]. by apply (IH (S i) rd' (del ++ l)).
Qed.

Lemma send_state_ok t row del fin ch : proto (ch_sent ch) (mkProto del fin false) →
  (is_terminal (rw_state row) = true → late = true ∨ covered del (rw_log_seq row)) →
  (∀ s why, tk_sent t = Some (s, why) → is_terminal s = true → fin = true) →
  let '(ok, t', ch') := send_state t row ch in
  if ok then proto (ch_sent ch') (mkProto del (fin || is_terminal (rw_state row)) false)
    ∧ tk_reader t' = tk_reader t ∧ tk_sent t' = tk_sent t
  else ∃ P, proto (ch_sent ch') P.
Proof.
  intros Hp Hcov Hsent. unfold send_state. case_bool_decide as Hs.
  { specialize (Hsent _ _ Hs). destruct (is_terminal (rw_state row)); [rewrite (Hsent eq_refl) in Hp |- *|rewrite orb_false_r]; done. }
  assert (Hfirst : let '(ok, t', ch') := send_running_first t row ch in
    proto (ch_sent ch') (mkProto del fin false) ∧ tk_reader t' = tk_reader t ∧ tk_sent t' = tk_sent t).
  { unfold send_running_first. case_bool_decide; [done|]. destruct (rw_started_at row) as [st|]; [|done].
    destruct (negb (tk_fresh t) || tk_ran_sent t); [done|].
    assert (Hstep : proto_step (mkProto del fin false) (Sh_state (running_frame (rw_job_id row) (rw_generation row) st row)) (mkProto del fin false)).
    { pose proof (Proto_state del fin (running_frame (rw_job_id row) (rw_generation row) st row)) as Hx.
      cbn [running_frame su_state is_terminal] in Hx. rewrite orb_false_r in Hx. by apply Hx. }
    pose proof (send_ok _ _ _ _ ch Hp eq_refl Hstep) as Hx. destruct (tx_send _ ch) as [[|] ch1]; [done|by rewrite Hx]. }
  destruct (send_running_first t row ch) as [[ok t1] ch1]. destruct Hfirst as (Hp1&Hr1&Hs1).
  destruct ok; [|by exists (mkProto del fin false)].
  pose proof (send_ok _ _ _ _ ch1 Hp1 eq_refl (Proto_state del fin (row_state_frame row) Hcov)) as Hx.
  destruct (tx_send _ ch1) as [[|] ch2]; [done|]. exists (mkProto del fin false). by rewrite Hx.
Qed.

Lemma ship_one_ok now fuel closing row see t P ch : (closing = true → late = true) →
  sees see → proto (ch_sent ch) P → tracks_log t P →
  let '(out, ch') := ship_one b64 now fuel closing job gen row see t ch in
  ∃ P', proto (ch_sent ch') P' ∧ match out with Ship_keep t' => tracks_log t' P' | _ => True end.
Proof.
  intros Hlate Hsee Hp [Hto Hsent Hover]. destruct P as [del fin over]. cbn in Hto, Hsent, Hover. subst over. unfold ship_one.
  destruct row as [row|].
  2:{ destruct (tk_hinted t); [|by exists (mkProto del fin false)].
      assert (Hcov : is_terminal (su_state (unknown_frame now job gen)) = true → late = true ∨ covered del (su_log_seq (unknown_frame now job gen))).
      { intros _. right. intros r Hr. cbn. pose proof (consecutive_range _ _ _ Hcons Hr). lia. }
      pose proof (send_ok _ _ _ _ ch Hp eq_refl (Proto_state del fin _ Hcov)) as Hx.
      destruct (tx_send _ ch) as [[|] ch1]; [by eexists|exists (mkProto del fin false); by rewrite Hx]. }
  pose proof (log_loop_ok fuel see 0 _ del fin ch Hsee Hto Hp) as Hlog.
  destruct (log_loop b64 fuel job gen see 0 (tk_reader t) ch) as [[[|] rd] ch1]; cbn [negb]; [|destruct Hlog as [P ?]; by exists P].
  destruct Hlog as (del1&Hp1&Hto1).
  pose proof (λ Hcov, send_state_ok (with_reader t rd) row del1 fin ch1 Hp1 Hcov Hsent) as Hstate.
  destruct (is_terminal (rw_state row)) eqn:Hterm.
  - destruct ((last_seq rd <? rw_log_seq row) && negb closing) eqn:Hwait.
    { exists (mkProto del1 fin false). split; [exact Hp1|]. by apply Build_tracks_log. }
    assert (Hcov : late = true ∨ covered del1 (rw_log_seq row)).
    { apply andb_false_iff in Hwait as [Hwait|Hwait]; [right|left; by destruct closing; [apply Hlate|]].
      apply Z.ltb_ge in Hwait. by apply (reads_covered rd). }
    specialize (Hstate (λ _, Hcov)).
    destruct (send_state (with_reader t rd) row ch1) as [[[|] t2] ch2]; cbn [negb]; [|destruct Hstate as [P ?]; by exists P].
    destruct Hstate as (Hp2&Hr2&Hs2). rewrite orb_true_r in Hp2. destruct (rw_receipt row) as [x|].
    + pose proof (send_ok _ _ _ _ ch2 Hp2 eq_refl (Proto_receipt del1 x)) as Hx.
      destruct (tx_send _ ch2) as [[|] ch3]; [by eexists|exists (mkProto del1 true false); by rewrite Hx].
    + exists (mkProto del1 true false). split; [exact Hp2|]. apply Build_tracks_log; cbn; [by rewrite Hr2|done|done].
  - specialize (Hstate ltac:(discriminate)). rewrite orb_false_r in Hstate.
    destruct (send_state (with_reader t rd) row ch1) as [[[|] t2] ch2]; cbn [negb]; [|destruct Hstate as [P ?]; by exists P].
    destruct Hstate as (Hp2&Hr2&Hs2). exists (mkProto del1 fin false). split; [exact Hp2|].
    apply Build_tracks_log; cbn; [by rewrite Hr2|intros s why [= <- <-] H; congruence|done].
Qed.

End protocol.

(** ** Sessions, end to end

    The passes of a session on one attempt, until its track goes; one of them
    may be the closing pass, with a last pass of the shipper after it before
    that task is stopped.  Then what arrives of what was sent before the
    connection is lost, how the server's appends go, and whether the server
    restarted before. *)

Section sessions.
Context (b64 : list Z → string) (unb64 : string → option (list Z)) (belt : string → Z → list Z → option (list Z)).
Context (job : string) (gen : Z).

Record Pass := { ps_closing : bool; ps_now : Z; ps_fuel : nat; ps_row : option Row; ps_see : nat → option (list Z) }.
Record Session := {
  ss_restart : bool; ss_hinted : bool; ss_fresh : bool; ss_room : option nat; ss_passes : list Pass; ss_arrived : nat; ss_appends : list CopyIo
}.

Fixpoint ship_passes (passes : list Pass) (t : Track) (ch : Chan) : Chan :=
  match passes with
  | [] => ch
  | p :: passes =>
    match ship_one b64 (ps_now p) (ps_fuel p) (ps_closing p) job gen (ps_row p) (ps_see p) t ch with
    | (Ship_keep t, ch) => ship_passes passes t ch
    | (_, ch) => ch
    end
  end.
(** The passes before the closing one. *)
Fixpoint before_closing (passes : list Pass) : list Pass :=
  match passes with p :: passes => if ps_closing p then [] else p :: before_closing passes | [] => [] end.

Definition on_frame (io : CopyIo) (lg : Logs) (f : ShipFrame) : Logs :=
  match f with Sh_log l => on_log unb64 belt io l lg | _ => lg end.
(** Frame by frame; an append for which no outcome is given goes through. *)
Fixpoint arrive (ios : list CopyIo) (lg : Logs) (fs : list ShipFrame) : Logs :=
  match fs with
  | [] => lg
  | f :: fs => arrive (match f with Sh_log _ => tail ios | _ => ios end) (on_frame (default Io_ok (head ios)) lg f) fs
  end.
Definition states_of (fs : list ShipFrame) : list StateUpdate := omap (λ f, match f with Sh_state u => Some u | _ => None end) fs.

(** A resume hint says the server's last sequence; an attempt the node finds
    by itself is shipped from the start. *)
Definition frames_of (s : Session) (passes : list Pass) (since : Z) : list ShipFrame :=
  ch_sent (ship_passes passes (mkTrack (skip_to JournalReader_new since) None (ss_hinted s) (ss_fresh s) false) (mkChan [] (ss_room s))).
Definition session_frames (s : Session) (since : Z) : list ShipFrame := frames_of s (ss_passes s) since.
(** What it sent before its closing pass. *)
Definition frames_before (s : Session) (since : Z) : list ShipFrame := frames_of s (before_closing (ss_passes s)) since.
Definition goes_through (io : CopyIo) : bool := match io with Io_ok => true | _ => false end.
(** The server's copy, and the states that arrived: whether every append of
    the session went through and the state was sent before the closing pass. *)
Fixpoint run_sessions (ss : list Session) (lg : Logs) : Logs * list (bool * StateUpdate) :=
  match ss with
  | [] => (lg, [])
  | s :: ss =>
    let lg := if ss_restart s then restart lg else lg in
    let '(last, lg) := copy_last_seq job gen lg in
    let since := if ss_hinted s then last else 0 in
    let arrived := take (ss_arrived s) (session_frames s since) in
    let before := length (frames_before s since) in
    let firm := forallb goes_through (ss_appends s) in
    let '(lg, states) := run_sessions ss (arrive (ss_appends s) lg arrived) in
    (lg, (pair firm <$> states_of (take before arrived)) ++ (pair false <$> states_of (drop before arrived)) ++ states)
  end.

(** What the server keeps of a record. *)
Definition copy_of (r : Rec) : Copy := mkCopy (r_seq r) (copy_stream_byte (r_stream r)) (default (r_data r) (belt job gen (r_data r))).

Context (recs : list Rec).
(** A journal as [Journal] leaves it. *)
Record node_log : Prop := {
  nl_valid : Forall valid_rec recs;
  nl_consecutive : consecutive 1 recs;
  nl_chunks : Forall (λ r, (length (r_data r) ≤ MAX_LOG_CHUNK)%nat ∧ Forall is_byte (r_data r)) recs;
}.
(** The base64 crate's round trip, and a belt whose text fits a record. *)
Record wire_law : Prop := {
  wl_b64 : ∀ d, Forall is_byte d → unb64 (b64 d) = Some d;
  wl_belt : ∀ d d', belt job gen d = Some d' → zlen d' < 2 ^ 32;
}.
Definition session_sees (s : Session) : Prop := Forall (λ p, sees recs (ps_see p)) (ss_passes s).
(** An append goes through, or fails before it writes. *)
Definition clean (io : CopyIo) : Prop := match io with Io_short _ => False | _ => True end.

Context (Hlog : node_log) (Hwire : wire_law).

Lemma ship_passes_ok late passes since t P ch : Forall (λ p, sees recs (ps_see p)) passes → Forall (λ p, ps_closing p = true → late = true) passes →
  proto late b64 job gen recs since (ch_sent ch) P → tracks_log recs since t P →
  ∃ P', proto late b64 job gen recs since (ch_sent (ship_passes passes t ch)) P'.
Proof.
  intros Hs Hc. revert Hc t P ch. induction Hs as [|p passes Hp _ IH]; intros Hc t P ch HP Ht; cbn [ship_passes]; [by exists P|].
  apply Forall_cons in Hc as [Hcp Hc].
  pose proof (ship_one_ok late b64 job gen recs since (nl_valid Hlog) (nl_consecutive Hlog) (ps_now p) (ps_fuel p) (ps_closing p) (ps_row p) (ps_see p) t P ch Hcp Hp HP Ht) as H.
  destruct (ship_one _ _ _ _ _ _ _ _ _ _) as [[| |t'] ch']; destruct H as (P'&HP'&Ht'); [by exists P'..|]. by apply (IH Hc t' P').
Qed.

Lemma proto_take late since fs P n : proto late b64 job gen recs since fs P → ∃ P', proto late b64 job gen recs since (take n fs) P'.
Proof.
  intros H. induction H as [|fs f P P' H IH Hstep].
  - exists (mkProto [] false false). rewrite take_nil. constructor.
  - destruct (decide (n ≤ length fs)%nat) as [Hle|Hgt]; [by rewrite take_app_le|].
    exists P'. rewrite take_ge by (rewrite length_app; cbn; lia). by eapply proto_snoc.
Qed.

(** *** A channel only grows *)

Definition grows (ch ch' : Chan) : Prop := ch_sent ch `prefix_of` ch_sent ch'.
#[local] Instance grows_refl : Reflexive grows.
Proof. intros ch. unfold grows. reflexivity. Qed.
#[local] Instance grows_trans : Transitive grows.
Proof. intros a b c. unfold grows. apply transitivity. Qed.
Lemma tx_send_grows f ch : grows ch (tx_send f ch).2.
Proof. unfold tx_send. destruct (ch_room ch) as [[|n]|]; [reflexivity|by eexists..]. Qed.
Lemma send_logs_grows l ch : grows ch (send_logs b64 job gen l ch).2.
Proof.
  revert ch. induction l as [|r l IH]; intros ch; cbn [send_logs]; [reflexivity|].
  pose proof (tx_send_grows (Sh_log (chunk_of b64 job gen r)) ch) as H. destruct (tx_send _ ch) as [[|] ch1]; [|exact H]. etrans; [exact H|apply IH].
Qed.
Lemma log_loop_grows fuel see i r ch : grows ch (log_loop b64 fuel job gen see i r ch).2.
Proof.
  revert i r ch. induction fuel as [|fuel IH]; intros i r ch; cbn [log_loop]; [reflexivity|]. destruct (read_more _ _ _) as [r1 res].
  pose proof (send_logs_grows (match res with Ok recs => recs | Err _ => [] end) ch) as H. destruct (send_logs _ _ _ _ ch) as [[|] ch1]; [|exact H].
  destruct (_ <? 32)%nat; [exact H|]. etrans; [exact H|apply IH].
Qed.
Lemma send_state_grows t row ch : grows ch (send_state t row ch).2.
Proof.
  unfold send_state. destruct (bool_decide _); [reflexivity|].
  assert (H : grows ch (send_running_first t row ch).2).
  { unfold send_running_first. destruct (bool_decide _); [reflexivity|]. destruct (rw_started_at row) as [x|]; [|reflexivity]. destruct (_ || _); [reflexivity|].
    pose proof (tx_send_grows (Sh_state (running_frame (rw_job_id row) (rw_generation row) x row)) ch) as H. by destruct (tx_send _ ch). }
  destruct (send_running_first t row ch) as [[[|] t1] ch1]; [|exact H].
  pose proof (tx_send_grows (Sh_state (row_state_frame row)) ch1) as H1. destruct (tx_send _ ch1). by etrans.
Qed.
Lemma ship_one_grows now fuel closing row see t ch : grows ch (ship_one b64 now fuel closing job gen row see t ch).2.
Proof.
  unfold ship_one. destruct row as [row|].
  2:{ destruct (tk_hinted t); [|reflexivity]. pose proof (tx_send_grows (Sh_state (unknown_frame now job gen)) ch) as H. by destruct (tx_send _ ch). }
  pose proof (log_loop_grows fuel see 0 (tk_reader t) ch) as Hl. destruct (log_loop _ _ _ _ _ _ _ ch) as [[[|] rd] ch1]; cbn [negb]; [|exact Hl].
  pose proof (send_state_grows (with_reader t rd) row ch1) as Hs.
  destruct (is_terminal (rw_state row)).
  - destruct (_ && _); [exact Hl|]. destruct (send_state _ row ch1) as [[[|] t2] ch2]; cbn [negb]; [|by etrans].
    destruct (rw_receipt row) as [x|]; [|by etrans]. pose proof (tx_send_grows (Sh_receipt job gen x) ch2) as Hx. destruct (tx_send _ ch2). etrans; [exact Hl|]. by etrans.
  - destruct (send_state _ row ch1) as [[[|] t2] ch2]; by etrans.
Qed.
Lemma ship_passes_grows passes t ch : grows ch (ship_passes passes t ch).
Proof.
  revert t ch. induction passes as [|p passes IH]; intros t ch; cbn [ship_passes]; [reflexivity|].
  pose proof (ship_one_grows (ps_now p) (ps_fuel p) (ps_closing p) (ps_row p) (ps_see p) t ch) as H.
  destruct (ship_one _ _ _ _ _ _ _ _ _ _) as [[| |t'] ch']; [exact H..|]. etrans; [exact H|apply IH].
Qed.
Lemma before_grows passes t ch : grows (ship_passes (before_closing passes) t ch) (ship_passes passes t ch).
Proof.
  revert t ch. induction passes as [|p passes IH]; intros t ch; [reflexivity|]. cbn [before_closing].
  destruct (ps_closing p) eqn:Hc; [apply ship_passes_grows|]. cbn [ship_passes]. rewrite Hc.
  destruct (ship_one _ _ _ _ _ _ _ _ _ _) as [[| |t'] ch']; [reflexivity..|apply IH].
Qed.

Lemma filter_all_after since n l : consecutive n l → since < n → List.filter (λ r, since <? r_seq r) l = l.
Proof.
  revert n. induction l as [|r l IH]; intros n; [reflexivity|]. intros [Hr Hl] Hn. cbn [List.filter].
  rewrite (proj2 (Z.ltb_lt _ _)) by lia. f_equal. apply (IH (n + 1)); [exact Hl|lia].
Qed.
Lemma newer_drop since : 0 ≤ since → newer since recs = drop (Z.to_nat since) recs.
Proof.
  pose proof (nl_consecutive Hlog) as Hc. clear Hlog. intros Hs. unfold newer.
  assert (H : ∀ l n, consecutive n l → n ≤ since + 1 → List.filter (λ r, since <? r_seq r) l = drop (Z.to_nat (since + 1 - n)) l).
  { induction l as [|r l IH]; intros n; [by rewrite drop_nil|]. intros [Hr Hl] Hn. cbn [List.filter]. rewrite Hr.
    destruct (Z.eq_dec n (since + 1)) as [He|Hne].
    - rewrite (proj2 (Z.ltb_lt _ _)) by lia. rewrite He, Z.sub_diag. change (drop (Z.to_nat 0) (r :: l)) with (r :: l). f_equal.
      apply (filter_all_after _ (n + 1)); [exact Hl|lia].
    - rewrite (proj2 (Z.ltb_ge _ _)) by lia. rewrite (IH _ Hl) by lia.
      replace (Z.to_nat (since + 1 - n)) with (S (Z.to_nat (since + 1 - (n + 1)))) by lia. reflexivity. }
  rewrite (H recs 1 Hc) by lia. f_equal. lia.
Qed.


Lemma record_at i r : recs !! i = Some r → r_seq r = Z.of_nat i + 1.
Proof.
  pose proof (nl_consecutive Hlog) as Hc. clear Hlog. replace (Z.of_nat i + 1) with (1 + Z.of_nat i) by lia. revert Hc. generalize 1 as n.
  revert i. induction recs as [|x l IH]; intros i n; [done|]. intros [Hx Hl].
  destruct i as [|i]; cbn [lookup list_lookup]; [intros [= <-]; lia|]. intros Hi. rewrite (IH i _ Hl Hi). lia.
Qed.

(** A delivered list is a stretch of the records, from [since]. *)
Definition stretch (since : Z) (del : list Rec) : Prop := ∃ rest, drop (Z.to_nat since) recs = del ++ rest.

Lemma proto_stretch late since fs P : 0 ≤ since → proto late b64 job gen recs since fs P → stretch since (p_delivered P).
Proof.
  intros Hs. induction 1 as [|fs f P P' _ IH Hstep]; [by eexists|].
  destruct Hstep as [del fin r rest He|del fin u _|del x]; [|exact IH|exact IH].
  exists rest. cbn. rewrite <- app_assoc, <- (newer_drop since) by done. exact He.
Qed.

Lemma stretch_length since del : 0 ≤ since ≤ zlen recs → stretch since del → since + zlen del ≤ zlen recs.
Proof. intros Hs [rest H]. apply (f_equal length) in H. rewrite length_drop, length_app in H. unfold zlen in *. lia. Qed.
Lemma stretch_next since del r rest : 0 ≤ since → drop (Z.to_nat since) recs = del ++ r :: rest →
  recs !! Z.to_nat (since + zlen del) = Some r ∧ r_seq r = since + zlen del + 1.
Proof.
  intros Hs H. assert (Hl : recs !! Z.to_nat (since + zlen del) = Some r).
  { replace (Z.to_nat (since + zlen del)) with (Z.to_nat since + length del)%nat by (unfold zlen; lia).
    rewrite <- lookup_drop, H. apply list_lookup_middle. reflexivity. }
  split; [exact Hl|]. rewrite (record_at _ _ Hl). unfold zlen. lia.
Qed.

Lemma covered_bound since del n : 0 ≤ since ≤ zlen recs → stretch since del → covered recs since del n →
  Z.min n (zlen recs) ≤ since + zlen del.
Proof.
  intros Hs Hdel Hcov. pose proof (stretch_length _ _ Hs Hdel) as Hle. destruct Hdel as [rest Hd].
  destruct rest as [|r rest].
  { apply (f_equal length) in Hd. rewrite length_drop, app_nil_r in Hd. unfold zlen in *. lia. }
  destruct (stretch_next since del r rest ltac:(lia) Hd) as [Hl Hseq].
  destruct (Z.le_gt_cases n (since + zlen del)) as [?|Hgt]; [lia|]. exfalso.
  assert (Hin : r ∈ del) by (apply Hcov; [by eapply list_elem_of_lookup_2|unfold zlen in *; lia]).
  apply list_elem_of_lookup in Hin as [i Hi]. pose proof (lookup_lt_Some _ _ _ Hi) as Hlt.
  assert (Hi' : recs !! (Z.to_nat since + i)%nat = Some r) by (rewrite <- lookup_drop, Hd; by apply lookup_app_l_Some).
  apply record_at in Hi'. unfold zlen in *. lia.
Qed.

(** The server's copy of the first [k] records. *)
Definition has_copy (lg : Logs) (k : Z) : Prop := copied lg (path job gen) (copy_of <$> take (Z.to_nat k) recs).

Lemma on_log_copy lg k i r : has_copy lg k → 0 ≤ k ≤ zlen recs → recs !! i = Some r → Z.of_nat i ≤ k →
  has_copy (on_log unb64 belt Io_ok (chunk_of b64 job gen r) lg) (Z.max k (Z.of_nat i + 1)).
Proof.
  intros Hc Hk Hr Hi. pose proof (nl_chunks Hlog) as Hch. rewrite Forall_forall in Hch.
  destruct (Hch r (list_elem_of_lookup_2 _ _ _ Hr)) as [Hlen Hbytes].
  unfold on_log. cbn [chunk_of lc_data lc_job_id lc_generation lc_seq lc_stream].
  rewrite (wl_b64 Hwire) by exact Hbytes. rewrite (proj2 (Nat.ltb_ge _ _)) by exact Hlen.
  assert (Hd : zlen (default (r_data r) (belt job gen (r_data r))) < 2 ^ 32).
  { destruct (belt job gen (r_data r)) as [d'|] eqn:Hb; cbn; [by eapply wl_belt|by apply chunk_u32]. }
  assert (Hseq : r_seq r = Z.of_nat i + 1) by (by apply record_at).
  pose proof (lookup_lt_Some _ _ _ Hr) as Hlt.
  assert (Hv : r_seq r < 2 ^ 64).
  { pose proof (nl_valid Hlog) as Hv. rewrite Forall_forall in Hv. by destruct (Hv r (list_elem_of_lookup_2 _ _ _ Hr)) as [[_ ?] _]. }
  assert (Hz : zlen (copy_of <$> take (Z.to_nat k) recs) = k).
  { unfold zlen in *. rewrite length_fmap, length_take. lia. }
  pose proof (copy_append_spec lg job gen _ (r_seq r) (r_stream r) _ Hc Hd Hv) as Happ.
  destruct (copy_append _ _ _ _ _ _ _) as [res lg']. destruct Happ as (_&Hc'&_). cbn [snd]. rewrite Hz, Hseq in Hc'.
  unfold has_copy. destruct (Z.of_nat i + 1 =? k + 1) eqn:He; bool_props.
  - replace (Z.max k (Z.of_nat i + 1)) with (Z.of_nat (S i)) by lia. rewrite Nat2Z.id, (take_S_r _ _ r Hr), fmap_app.
    replace (Z.to_nat k) with i in Hc' by lia. unfold copy_of at 2. cbn [fmap list_fmap]. by rewrite Hseq.
  - rewrite app_nil_r in Hc'. by replace (Z.max k (Z.of_nat i + 1)) with k by lia.
Qed.

Lemma receive late lg k since fs P : has_copy lg k → 0 ≤ since ≤ k → k ≤ zlen recs → proto late b64 job gen recs since fs P →
  let k' := Z.max k (since + zlen (p_delivered P)) in
  has_copy (foldl (on_frame Io_ok) lg fs) k' ∧ k' ≤ zlen recs
  ∧ ∀ u, late = false → u ∈ states_of fs → is_terminal (su_state u) = true → Z.min (su_log_seq u) (zlen recs) ≤ k'.
Proof.
  intros Hc Hs Hk. cbv zeta. induction 1 as [|fs f P P' Hp IH Hstep].
  { cbn [p_delivered foldl states_of omap]. change (zlen (@nil Rec)) with 0. rewrite Z.max_l by lia. split_and!; [exact Hc|exact Hk|by intros u _ ?%elem_of_nil]. }
  destruct IH as (IHc&IHk&IHu). pose proof (proto_stretch late since _ _ ltac:(lia) Hp) as Hst.
  rewrite foldl_app. unfold states_of in *. rewrite omap_app. cbn [foldl].
  destruct Hstep as [del fin r rest He|del fin u Hcov|del x]; cbn [p_delivered on_frame omap list_omap] in *.
  - rewrite (newer_drop since) in He by lia. destruct (stretch_next since del r rest ltac:(lia) He) as [Hr Hseq].
    pose proof (zlen_nonneg del). rewrite zlen_app. change (zlen [r]) with 1. rewrite app_nil_r.
    assert (Hlt := lookup_lt_Some _ _ _ Hr).
    pose proof (on_log_copy _ _ _ _ IHc ltac:(lia) Hr ltac:(lia)) as Hc'. rewrite Z2Nat.id in Hc' by lia.
    replace (Z.max (Z.max k (since + zlen del)) (since + zlen del + 1)) with (Z.max k (since + (zlen del + 1))) in Hc' by lia.
    split_and!; [exact Hc'|unfold zlen in *; lia|]. intros u Hl Hu Ht. specialize (IHu u Hl Hu Ht). lia.
  - split_and!; [exact IHc|exact IHk|]. intros u' Hl [Hu|Hu]%elem_of_app Ht; [by apply IHu|].
    apply list_elem_of_singleton in Hu as ->. destruct (Hcov Ht) as [?|Hc']; [congruence|]. pose proof (covered_bound since del _ ltac:(lia) Hst Hc'). lia.
  - rewrite app_nil_r. by split_and!.
Qed.

Lemma has_copy_inj lg k k' : 0 ≤ k ≤ zlen recs → 0 ≤ k' ≤ zlen recs → has_copy lg k → has_copy lg k' → k = k'.
Proof.
  assert (Hz : ∀ k, 0 ≤ k ≤ zlen recs → zlen (copy_of <$> take (Z.to_nat k) recs) = k) by (intros x Hx; unfold zlen in *; rewrite length_fmap, length_take; lia).
  intros Hk Hk' (lg1&H1&_)%last_seq_copied (lg2&H2&_)%last_seq_copied. rewrite H1, !Hz in H2 by done. congruence.
Qed.
(** Any append of a record: the copy keeps its records, and may get the next. *)
Lemma on_log_any io lg k r : clean io → has_copy lg k → 0 ≤ k ≤ zlen recs → r ∈ recs →
  ∃ k', k ≤ k' ≤ zlen recs ∧ has_copy (on_log unb64 belt io (chunk_of b64 job gen r) lg) k'.
Proof.
  intros Hio Hc Hk Hr. apply list_elem_of_lookup in Hr as [i Hi]. pose proof (lookup_lt_Some _ _ _ Hi) as Hlt.
  assert (Hz : zlen (copy_of <$> take (Z.to_nat k) recs) = k) by (unfold zlen in *; rewrite length_fmap, length_take; lia).
  destruct (goes_through io && (Z.of_nat i <=? k)) eqn:Hgo.
  - bool_props. destruct io; try done. exists (Z.max k (Z.of_nat i + 1)). split; [unfold zlen in *; lia|]. apply on_log_copy; [done|lia|done|lia].
  - exists k. split; [lia|]. unfold on_log. destruct (unb64 _) as [data|]; [|exact Hc]. destruct (_ <? _)%nat; [exact Hc|]. unfold copy_append.
    cbn [chunk_of lc_job_id lc_generation lc_seq lc_stream].
    destruct (tail_of_copied lg (path job gen) _ Hc) as (lg1&->&Hc1&_). rewrite Hz.
    destruct (_ || _) eqn:Hseq; [exact Hc1|]. bool_props. destruct io as [| | |m]; [|exact Hc1|exact Hc1|done].
    rewrite (record_at _ _ Hi) in *. cbn in Hgo. bool_props. lia.
Qed.
Lemma proto_records late since fs P : proto late b64 job gen recs since fs P → ∀ l, Sh_log l ∈ fs → ∃ r, r ∈ recs ∧ l = chunk_of b64 job gen r.
Proof.
  induction 1 as [|fs f P P' _ IH Hstep]; intros l; [by intros ?%elem_of_nil|]. intros [Hl|Hl%list_elem_of_singleton]%elem_of_app; [by apply IH|]. subst f.
  inversion Hstep as [del fin r rest He Hx Hy| |]; subst. exists r. split; [|done].
  assert (Hin : r ∈ newer since recs) by (rewrite He; apply elem_of_app; right; left). by apply elem_of_filter_bool in Hin as [? _].
Qed.
Lemma arrive_any ios fs lg k : Forall clean ios → (∀ l, Sh_log l ∈ fs → ∃ r, r ∈ recs ∧ l = chunk_of b64 job gen r) → has_copy lg k → 0 ≤ k ≤ zlen recs →
  ∃ k', k ≤ k' ≤ zlen recs ∧ has_copy (arrive ios lg fs) k'.
Proof.
  intros Hio Hf. revert ios Hio lg k. induction fs as [|f fs IH]; intros ios Hio lg k Hc Hk; [exists k; split; [lia|done]|]. cbn [arrive].
  specialize (IH ltac:(intros l Hl; apply Hf; by right)).
  destruct f as [l|u|i g x]; cbn [on_frame]; [|by apply IH..].
  destruct (Hf l ltac:(left)) as (r&Hr&->).
  destruct (on_log_any (default Io_ok (head ios)) lg k r) as (k1&Hk1&Hc1); [by destruct Hio|done..|].
  destruct (IH (tail ios) ltac:(by destruct Hio) _ k1 Hc1 ltac:(lia)) as (k'&Hk'&Hc'). exists k'. split; [lia|done].
Qed.
(** When all go through, it gets all that arrives. *)
Lemma arrive_ok ios fs lg : forallb goes_through ios = true → arrive ios lg fs = foldl (on_frame Io_ok) lg fs.
Proof.
  intros Hio. revert ios Hio lg. induction fs as [|f fs IH]; intros ios Hio lg; [done|]. cbn [arrive foldl].
  assert (Hh : default Io_ok (head ios) = Io_ok ∧ forallb goes_through (tail ios) = true).
  { destruct ios as [|io ios]; [done|]. cbn in *. apply andb_true_iff in Hio as [H1 H2]. by destruct io. }
  destruct Hh as [-> Ht]. by destruct f; apply IH.
Qed.

Lemma start_log since t : 0 ≤ since → tk_reader t = skip_to JournalReader_new since → tk_sent t = None → tracks_log recs since t (mkProto [] false false).
Proof.
  intros Hsince Hr Hs. apply Build_tracks_log; [|by rewrite Hs|done]. rewrite Hr. exists [], recs. split_and!; [reflexivity|reflexivity| |reflexivity].
  change (zlen (@nil Rec)) with 0. cbn [skip_to last_seq JournalReader_new]. lia.
Qed.
(** All of a session, and what is before its closing pass. *)
Lemma session_proto s since : session_sees s → 0 ≤ since →
  (∃ P, proto (existsb ps_closing (ss_passes s)) b64 job gen recs since (session_frames s since) P)
  ∧ ∃ P, proto false b64 job gen recs since (frames_before s since) P.
Proof.
  intros Hs Hsince. split.
  - eapply ship_passes_ok; [exact Hs| |apply proto_nil|by apply start_log]. apply Forall_forall. intros p Hp Hc. apply existsb_exists. exists p. split; [by apply list_elem_of_In|done].
  - assert (Hb : ∀ l, Forall (λ p, sees recs (ps_see p)) l → Forall (λ p, sees recs (ps_see p)) (before_closing l) ∧ Forall (λ p, ps_closing p = true → false = true) (before_closing l)).
    { induction 1 as [|p l Hp _ [IH1 IH2]]; [by split|]. cbn [before_closing]. destruct (ps_closing p) eqn:Hc; [by split|]. split; constructor; try done. by rewrite Hc. }
    destruct (Hb _ Hs) as [H1 H2]. eapply ship_passes_ok; [exact H1|exact H2|apply proto_nil|by apply start_log].
Qed.
Lemma frames_before_prefix s since : frames_before s since `prefix_of` session_frames s since.
Proof. apply before_grows. Qed.

(** ** Properties *)




Lemma send_logs_open l sent : send_logs b64 job gen l (mkChan sent None)
  = (true, mkChan (sent ++ ((λ r, Sh_log (chunk_of b64 job gen r)) <$> l)) None).
Proof.
  revert sent. induction l as [|r l IH]; intros sent; cbn [send_logs fmap list_fmap]; [by rewrite app_nil_r|].
  cbn [tx_send ch_room ch_sent]. rewrite IH, <- app_assoc. reflexivity.
Qed.

(** With the whole journal in sight the loop ends once all of it is sent. *)
Lemma log_loop_all fuel see i since rd del sent : (∀ i, see i = Some (enc_all recs)) → reads_to recs since rd del →
  (length recs < fuel + length del)%nat →
  ∃ rd' rest, newer since recs = del ++ rest ∧ last_seq rd' = Z.max since (zlen recs) ∧ reads_to recs since rd' (del ++ rest)
    ∧ log_loop b64 fuel job gen see i rd (mkChan sent None)
      = (true, rd', mkChan (sent ++ ((λ r, Sh_log (chunk_of b64 job gen r)) <$> rest)) None).
Proof.
  intros Hsee. revert i rd del sent. induction fuel as [|fuel IH]; intros i rd del sent Hto Hf.
  { destruct Hto as (dn&rest&He&_&_&->). rewrite He, length_app in Hf. unfold newer in Hf. pose proof (List.filter_length_le (λ r, since <? r_seq r) dn). lia. }
  cbn [log_loop]. rewrite Hsee.
  destruct (read_more_whole recs [] since rd del 32 (nl_valid Hlog) (nl_consecutive Hlog) torn_nil Hto) as (l&rd'&Hread&Hl&Hto'&Hall).
  rewrite app_nil_r in Hread. rewrite Hread, send_logs_open. destruct (length l <? 32)%nat eqn:Hshort.
  - apply Nat.ltb_lt in Hshort. destruct (Hall Hshort) as [Hnew Hoff]. exists rd', l. split_and!; [by rewrite Hnew| |exact Hto'|reflexivity].
    destruct Hto' as (dn&rest&He&Ho&Hlast&_). rewrite Hlast, He. rewrite Ho, He, enc_all_app, zlen_app in Hoff.
    pose proof (enc_all_length rest). pose proof (zlen_nonneg rest). unfold HEADER in *. rewrite zlen_app. lia.
  - apply Nat.ltb_ge in Hshort. destruct (IH (S i) rd' (del ++ l) (sent ++ ((λ r, Sh_log (chunk_of b64 job gen r)) <$> l)) Hto') as (rd2&rest&Hnew&Hlast&Hto2&->).
    { rewrite length_app. lia. }
    exists rd2, (l ++ rest). rewrite fmap_app, !app_assoc. split_and!; [exact Hnew|exact Hlast|exact Hto2|reflexivity].
Qed.

(** A pass that sees the whole journal of an attempt whose end is recorded
    sends what is left of the log, then the end, then the receipt. *)
Theorem pass_completes now fuel see since hinted row x : 0 ≤ since → (∀ i, see i = Some (enc_all recs)) → (length recs < fuel)%nat →
  is_terminal (rw_state row) = true → rw_log_seq row ≤ zlen recs → rw_receipt row = Some x →
  ship_one b64 now fuel false job gen (Some row) see (track since hinted) (mkChan [] None)
  = (Ship_done, mkChan (((λ r, Sh_log (chunk_of b64 job gen r)) <$> newer since recs)
                        ++ [Sh_state (row_state_frame row); Sh_receipt job gen x]) None).
Proof.
  intros Hs Hsee Hf Hterm Hseq Hx.
  destruct (log_loop_all fuel see 0 since (skip_to JournalReader_new since) [] [] Hsee) as (rd&rest&Hnew&Hlast&_&Hloop).
  { exists [], recs. split_and!; [reflexivity|reflexivity| |reflexivity].
    change (zlen (@nil Rec)) with 0. cbn [skip_to last_seq JournalReader_new]. lia. }
  { cbn [length]. lia. }
  unfold ship_one. change (tk_reader (track since hinted)) with (skip_to JournalReader_new since). rewrite Hloop. cbn [negb].
  rewrite Hterm, Hlast, (proj2 (Z.ltb_ge _ _)) by lia. cbn [andb]. rewrite Hnew. cbn [app].
  assert (Hrun : send_running_first (with_reader (track since hinted) rd) row (mkChan ((λ r, Sh_log (chunk_of b64 job gen r)) <$> rest) None)
    = (true, with_reader (track since hinted) rd, mkChan ((λ r, Sh_log (chunk_of b64 job gen r)) <$> rest) None)).
  { unfold send_running_first. rewrite bool_decide_eq_false_2 by (intros He; by rewrite He in Hterm). by destruct (rw_started_at row). }
  unfold send_state. rewrite bool_decide_eq_false_2 by done. rewrite Hrun. cbn [tx_send ch_room ch_sent negb]. rewrite Hx.
  cbn [tx_send ch_room ch_sent]. by rewrite <- app_assoc.
Qed.

End sessions.

(** ** Examples *)

Module Examples.

(** The base64 crate at its simplest: a text of the bytes. *)
Definition ex_b64 (d : list Z) : string := String.string_of_list_ascii ((λ b, ascii_of_nat (Z.to_nat b)) <$> d).
Definition ex_unb64 (s : string) : option (list Z) := Some (bytes s).
Definition ex_belt (_ : string) (_ : Z) (_ : list Z) : option (list Z) := None.
Definition ex_recs : list Rec := [mkRec 1 LogStream_Sys (bytes "start"); mkRec 2 LogStream_Out (bytes "one"); mkRec 3 LogStream_Err (bytes "two")].
Definition ex_row (state : JobState) (log_seq : Z) (receipt : option string) : Row :=
  mk_Row "j" 1 0 "sha256:j" (ex_plan "j") state None None 100 (Some 110) (Some 120) None log_seq "boot" None receipt false None None 0 None.
(** What of the journal a read sees. *)
Definition ex_see (m : Z) (_ : nat) : option (list Z) := Some (ztake m (enc_all ex_recs)).
(** The first session shows a record and half of one, an append of it fails,
    and it is cut; the second, after a restart of the server, starts over and
    ends; the third's server was ended and its journal wiped. *)
Definition ex_first : Session := {|
  ss_restart := false; ss_hinted := true; ss_fresh := true; ss_room := Some 2%nat; ss_arrived := 5; ss_appends := [Io_no_file];
  ss_passes := [{| ps_closing := false; ps_now := 115; ps_fuel := 4; ps_row := Some (ex_row JobState_Running 0 None); ps_see := ex_see 25 |}] |}.
Definition ex_second : Session := {|
  ss_restart := true; ss_hinted := false; ss_fresh := true; ss_room := None; ss_arrived := 9; ss_appends := [];
  ss_passes := [{| ps_closing := false; ps_now := 121; ps_fuel := 4; ps_row := Some (ex_row JobState_Done 3 (Some "signed")); ps_see := ex_see 40 |};
                {| ps_closing := false; ps_now := 122; ps_fuel := 4; ps_row := Some (ex_row JobState_Done 3 (Some "signed")); ps_see := ex_see 1000 |}] |}.
Definition ex_ended (closing : bool) : Session := {|
  ss_restart := false; ss_hinted := true; ss_fresh := false; ss_room := None; ss_arrived := 9; ss_appends := [];
  ss_passes := [{| ps_closing := false; ps_now := 123; ps_fuel := 4; ps_row := Some (ex_row JobState_Done 3 (Some "signed")); ps_see := λ _, None |};
                {| ps_closing := closing; ps_now := 124; ps_fuel := 4; ps_row := Some (ex_row JobState_Done 3 (Some "signed")); ps_see := λ _, None |}] |}.
Definition ex_logs : Logs := {| lg_files := ∅; lg_tails := ∅ |}.

Lemma ex_b64_law d : Forall is_byte d → bytes (ex_b64 d) = d.
Proof.
  unfold bytes, ex_b64. rewrite String.list_ascii_of_string_of_list_ascii. induction 1 as [|b d Hb _ IH]; [reflexivity|].
  cbn [fmap list_fmap]. f_equal; [|exact IH]. unfold is_byte in Hb. unfold byte_of. rewrite nat_ascii_embedding; lia.
Qed.
Lemma ex_wire : wire_law ex_b64 ex_unb64 ex_belt "j" 1.
Proof. split; [|discriminate]. intros d Hd. unfold ex_unb64. by rewrite ex_b64_law. Qed.
Lemma ex_log : node_log ex_recs.
Proof.
  split; [|repeat split|]; repeat (apply Forall_cons; split); try apply Forall_nil_2.
  all: split; [|]; try (apply Nat.leb_le; vm_compute; reflexivity); try (vm_compute; (reflexivity || (split; congruence))).
  all: repeat (apply Forall_cons; split); try apply Forall_nil_2; vm_compute; split; congruence.
Qed.
Lemma ex_sees m : 0 ≤ m → sees ex_recs (ex_see m).
Proof. intros Hm i. right. by exists m. Qed.
Lemma ex_second_sees : session_sees ex_recs ex_second.
Proof. repeat (apply Forall_cons; split); try apply Forall_nil_2; by apply ex_sees. Qed.
Lemma ex_first_sees : session_sees ex_recs ex_first.
Proof. apply Forall_singleton. by apply ex_sees. Qed.

(** The closing pass alone sends an end whose log is gone. *)
Lemma closing_ahead :
  session_frames ex_b64 "j" 1 (ex_ended true) 0 = [Sh_state (row_state_frame (ex_row JobState_Done 3 (Some "signed"))); Sh_receipt "j" 1 "signed"]
  ∧ frames_before ex_b64 "j" 1 (ex_ended true) 0 = [] ∧ session_frames ex_b64 "j" 1 (ex_ended false) 0 = [].
Proof. vm_compute. split_and!; reflexivity. Qed.


Lemma pass_completes_witness :
  ship_one ex_b64 130 4 false "j" 1 (Some (ex_row JobState_Done 3 (Some "signed"))) (ex_see 1000) (track 1 false) (mkChan [] None)
  = (Ship_done, mkChan [Sh_log (mkLogChunk "j" 1 2 LogStream_Out "one"); Sh_log (mkLogChunk "j" 1 3 LogStream_Err "two");
                        Sh_state (row_state_frame (ex_row JobState_Done 3 (Some "signed"))); Sh_receipt "j" 1 "signed"] None).
Proof.
  apply (pass_completes ex_b64 "j" 1 ex_recs ex_log 130 4 (ex_see 1000) 1 false); [vm_compute; congruence|reflexivity|apply Nat.ltb_lt; reflexivity|reflexivity|vm_compute; congruence|reflexivity].
Defined.

(** A read of the ledger that fails is taken for a row that isn't there: the
    server hears [unknown] ([not_on_node]) of an attempt that runs, and the
    session ships no more of it. *)
Lemma ledger_fault_unknown :
  let '(ok, tracks, ch) := ship_pass ex_b64 130 4 false (λ m, (map_to_list m).*1)
    (λ _, Err "disk I/O error") (λ _, ex_see 1000) {[("j", 1) := track 0 true]} (mkChan [] None) in
  ok = true ∧ tracks = ∅ ∧ ch_sent ch = [Sh_state (unknown_frame 130 "j" 1)].
Proof. vm_compute. split_and!; reflexivity. Qed.

End Examples.
