(* ===== verification/Allow.v ===== *)
(** * Allow: a workspace's list of compute nodes

    [crates/k2-core/src/compute/allow.rs], and [set] of
    [crates/k2-daemon/src/compute_allow.rs]: with a list, the jobs of the
    workspace go only to the nodes on it; an agent may only make it shorter.

    [set] reads and judges under one lock of the database and writes under
    another: [allow_judge] and [allow_write].  The texts of errors are left
    out; the JSON of a list is an interface with its law. *)

From S2P Require Import Prelude Utf8.
Open Scope Z_scope.

(** ** The list *)

Class JsonIds := { to_json : list string → string; from_json : string → option (list string) }.
Class JsonIdsLaw (J : JsonIds) : Prop := from_to_json : ∀ ids, from_json (to_json ids) = Some ids.

(** The rows of [compute_admin_settings]: value, by whom, when. *)
Notation Settings := (gmap string (string * string * Z)) (only parsing).
Definition KEY_PREFIX : string := "allow_nodes:".
Definition allow_key (ws : string) : string := KEY_PREFIX +:+ ws.
Record AllowEntry := mk_AllowEntry { ae_nodes : list string; ae_updated_by : string; ae_updated_at : Z }.
(** What the workspace's jobs may use. *)
Inductive Permit := Permit_Any | Permit_Only (ids : list string).
Inductive AllowChange := Change_Same | Change_Narrow | Change_Widen.
#[export] Instance AllowChange_eq_dec : EqDecision AllowChange.
Proof. solve_decision. Defined.

Definition of_bytes (l : list Z) : string := String.string_of_list_ascii ((λ b, ascii_of_nat (Z.to_nat b)) <$> l).
Definition str_trim (s : string) : string := of_bytes (utf8_trim (bytes s)).
Definition non_empty (s : string) : bool := negb (bool_decide (s = ""%string)).
Definition normalize (ids : list string) : list string := bt_set (List.filter non_empty (str_trim <$> ids)).

Definition Permit_allows (p : Permit) (node : string) : bool :=
  match p with Permit_Any => true | Permit_Only ids => bool_decide (node ∈ ids) end.
Definition allow_change (old new : option (list string)) : AllowChange :=
  match old, new with
  | None, None => Change_Same
  | Some _, None => Change_Widen
  | None, Some _ => Change_Narrow
  | Some o, Some n =>
    if bool_decide (bt_set o = bt_set n) then Change_Same
    else if forallb (λ x, bool_decide (x ∈ o)) n then Change_Narrow
    else Change_Widen
  end.
Definition allow_added (old : option (list string)) (new : list string) : list string :=
  match old with
  | None => []
  | Some o => List.filter (λ n, negb (bool_decide (n ∈ o))) (normalize new)
  end.

Section allow.
Context `{J : JsonIds}.

(** [ok]: the statement doesn't fail. *)
Definition allow_get (ok : bool) (db : Settings) (ws : string) : Result (option AllowEntry) unit :=
  if negb ok then Err tt
  else match db !! allow_key ws with
  | None => Ok None
  | Some (value, by', at') =>
    match from_json value with
    | None => Err tt
    | Some nodes =>
      if bool_decide (nodes = []) || existsb (λ n, negb (non_empty (str_trim n))) nodes then Err tt
      else Ok (Some (mk_AllowEntry nodes by' at'))
    end
  end.
Definition allow_set (ok : bool) (db : Settings) (ws : string) (nodes : option (list string)) (by' : string) (at' : Z) : Result unit unit * Settings :=
  match nodes with
  | Some ids =>
    let ids := normalize ids in
    if bool_decide (ids = []) then (Err tt, db)
    else if ok then (Ok tt, <[allow_key ws := (to_json ids, by', at')]> db) else (Err tt, db)
  | None => if ok then (Ok tt, delete (allow_key ws) db) else (Err tt, db)
  end.
(** Fails closed: a read error allows nothing. *)
Definition allow_permit (ok : bool) (db : Settings) (ws : string) : Permit :=
  match allow_get ok db ws with
  | Ok None => Permit_Any
  | Ok (Some e) => Permit_Only (ae_nodes e)
  | Err _ => Permit_Only []
  end.

(** ** Changing it *)

(** The names a request carries; one of the four. *)
Record AllowReq := mk_AllowReq { aq_nodes : list string; aq_add : list string; aq_remove : list string; aq_clear : bool }.
Inductive AllowError := AE_owner_only | AE_one_of | AE_unreadable | AE_unknown_node | AE_no_list | AE_would_be_empty | AE_needs_person | AE_internal.
Definition asks (q : AllowReq) : Z :=
  zlen (List.filter id [negb (bool_decide (aq_nodes q = [])); negb (bool_decide (aq_add q = [])); negb (bool_decide (aq_remove q = [])); aq_clear q]).

(** [resolve] is a name's node, as the caller may see it. *)
Definition resolve_all (resolve : string → option string) (names : list string) : Result (list string) AllowError :=
  match mapM resolve names with Some ids => Ok (normalize ids) | None => Err AE_unknown_node end.
Definition new_ids (resolve : string → option string) (q : AllowReq) (old : option (list string)) : Result (option (list string)) AllowError :=
  if aq_clear q then Ok None
  else if negb (bool_decide (aq_nodes q = [])) then
    match resolve_all resolve (aq_nodes q) with Ok ids => Ok (Some ids) | Err e => Err e end
  else if negb (bool_decide (aq_add q = [])) then
    match old with
    | None => Ok None
    | Some o => match resolve_all resolve (aq_add q) with Ok ids => Ok (Some (normalize (o ++ ids))) | Err e => Err e end
    end
  else
    match old with
    | None => Err AE_no_list
    | Some o =>
      match resolve_all resolve (aq_remove q) with
      | Err e => Err e
      | Ok gone =>
        let left := List.filter (λ x, negb (bool_decide (x ∈ gone))) o in
        if bool_decide (left = []) then Err AE_would_be_empty else Ok (Some left)
      end
    end.
(** Up to the answer [needs_person], under the first lock. *)
Definition allow_judge (person passport : bool) (resolve : string → option string) (ok : bool) (db : Settings) (ws : string) (q : AllowReq) :
    Result (AllowChange * option (list string)) AllowError :=
  if negb person && negb passport then Err AE_owner_only
  else if negb (asks q =? 1) then Err AE_one_of
  else match allow_get ok db ws with
  | Err _ => Err AE_unreadable
  | Ok old =>
    let old_ids := ae_nodes <$> old in
    match new_ids resolve q old_ids with
    | Err e => Err e
    | Ok new =>
      let change := allow_change old_ids new in
      if bool_decide (change = Change_Widen) && negb person then Err AE_needs_person else Ok (change, new)
    end
  end.
(** Under the second lock. *)
Definition allow_write (ok : bool) (db : Settings) (ws : string) (judged : AllowChange * option (list string)) (by' : string) (at' : Z) :
    Result unit AllowError * Settings :=
  if bool_decide (judged.1 = Change_Same) then (Ok tt, db)
  else match allow_set ok db ws judged.2 by' at' with (Ok _, db) => (Ok tt, db) | (Err _, db) => (Err AE_internal, db) end.
(** The two, with nothing between them. *)
Definition allow_nodes_set (person passport : bool) (resolve : string → option string) (ok1 ok2 : bool) (db : Settings) (ws : string) (q : AllowReq)
    (by' : string) (at' : Z) : Result AllowChange AllowError * Settings :=
  match allow_judge person passport resolve ok1 db ws q with
  | Err e => (Err e, db)
  | Ok judged => let '(r, db) := allow_write ok2 db ws judged by' at' in (match r with Ok _ => Ok judged.1 | Err e => Err e end, db)
  end.

(** ** Lemmas *)

(** What [ids] allows is among what [p] allows. *)
Definition within (new : option (list string)) (p : Permit) : Prop :=
  match new with None => p = Permit_Any | Some ids => ∀ n, n ∈ ids → Permit_allows p n = true end.

Lemma change_within old new : allow_change old new ≠ Change_Widen →
  within new (match old with None => Permit_Any | Some o => Permit_Only o end).
Proof.
  destruct old as [o|], new as [n|]; cbn; try done. intros Hc x Hx. apply bool_decide_eq_true.
  case_bool_decide as He; [by rewrite <- elem_of_bt_set, He, elem_of_bt_set|]. destruct (forallb _ n) eqn:Hf; [|done].
  rewrite forallb_true in Hf. specialize (Hf x Hx). by apply bool_decide_eq_true in Hf.
Qed.
Lemma elem_of_normalize_in n ids : n ∈ normalize ids → ∃ x, x ∈ ids ∧ n = str_trim x.
Proof. intros [(x&Hn&Hx)%list_elem_of_fmap _]%elem_of_bt_set%elem_of_filter_bool. by exists x. Qed.

Lemma permit_other ok db ws ws' v : ws' ≠ ws → allow_permit ok (<[allow_key ws := v]> db) ws' = allow_permit ok db ws'
  ∧ allow_permit ok (delete (allow_key ws) db) ws' = allow_permit ok db ws'.
Proof.
  intros Hne. assert (Hk : allow_key ws ≠ allow_key ws') by (intros H; apply Hne; unfold allow_key in H; by simplify_eq).
  unfold allow_permit, allow_get. by rewrite lookup_insert_ne, lookup_delete_ne by done.
Qed.
(** A list that was written allows nothing else. *)
Lemma permit_written (L : JsonIdsLaw J) ok db ws ids by' at' n :
  Permit_allows (allow_permit ok (<[allow_key ws := (to_json ids, by', at')]> db) ws) n = true → n ∈ ids.
Proof.
  unfold allow_permit, allow_get. destruct ok; [|by intros ?%bool_decide_eq_true%not_elem_of_nil]. cbn [negb]. rewrite lookup_insert_eq, from_to_json.
  destruct (_ || _); cbn; intros H%bool_decide_eq_true; [by apply not_elem_of_nil in H|exact H].
Qed.
Lemma permit_of_get ok db ws e : allow_get ok db ws = Ok e →
  allow_permit ok db ws = match ae_nodes <$> e with None => Permit_Any | Some o => Permit_Only o end.
Proof. unfold allow_permit. intros ->. by destruct e. Qed.

(** Ids without space around them: a node's are, and so stays what is stored. *)
Definition trimmed (ids : list string) : Prop := Forall (λ x, str_trim x = x) ids.
Definition stored_ok (db : Settings) : Prop := ∀ ws e, allow_get true db ws = Ok (Some e) → trimmed (ae_nodes e).
Definition node_ids (resolve : string → option string) : Prop := ∀ name node, resolve name = Some node → str_trim node = node.

Lemma normalize_trimmed ids n : trimmed ids → n ∈ normalize ids → n ∈ ids.
Proof. intros Ht (x&Hx&->)%elem_of_normalize_in. unfold trimmed in Ht. rewrite Forall_forall in Ht. by rewrite Ht. Qed.
Lemma trimmed_normalize ids : trimmed ids → trimmed (normalize ids).
Proof. unfold trimmed. rewrite !Forall_forall. intros Ht n Hn. by apply Ht, (normalize_trimmed ids n); [apply Forall_forall|]. Qed.
Lemma resolve_trimmed resolve names ids : node_ids resolve → resolve_all resolve names = Ok ids → trimmed ids.
Proof.
  unfold resolve_all. intros Hr. destruct (mapM resolve names) as [l|] eqn:Hm; [|done]. intros [= <-]. apply trimmed_normalize.
  apply mapM_Some in Hm. unfold trimmed. rewrite Forall_forall. intros x (i&Hi)%list_elem_of_lookup.
  destruct (Forall2_lookup_r _ _ _ _ _ Hm Hi) as (name&_&Hn). by apply (Hr name).
Qed.
Lemma new_trimmed resolve q old new : node_ids resolve → (∀ o, old = Some o → trimmed o) → new_ids resolve q old = Ok (Some new) → trimmed new.
Proof.
  intros Hr Ho. unfold new_ids. destruct (aq_clear q); [done|]. destruct (negb (bool_decide (aq_nodes q = []))).
  { destruct (resolve_all _ _) eqn:Hq; [|done]. intros [= <-]. by eapply resolve_trimmed. }
  destruct (negb _).
  { destruct old as [o|]; [|done]. destruct (resolve_all _ _) eqn:Hq; [|done]. intros [= <-]. apply trimmed_normalize, Forall_app.
    split; [by apply Ho|by eapply resolve_trimmed]. }
  destruct old as [o|]; [|done]. destruct (resolve_all _ _) as [gone|]; [|done]. case_bool_decide; [done|]. intros [= <-].
  unfold trimmed. rewrite Forall_forall. intros x [Hx _]%elem_of_filter_bool. specialize (Ho o eq_refl). unfold trimmed in Ho. rewrite Forall_forall in Ho. by apply Ho.
Qed.

(** What [set] leaves: nothing new allowed, nothing untrimmed stored. *)
Definition narrowed (db db' : Settings) : Prop :=
  (∀ ws n, Permit_allows (allow_permit true db' ws) n = true → Permit_allows (allow_permit true db ws) n = true) ∧ stored_ok db'.
Lemma narrowed_refl db : stored_ok db → narrowed db db.
Proof. by split. Qed.
Lemma narrowed_insert (L : JsonIdsLaw J) db ws ids by' at' : stored_ok db → trimmed ids → (∀ n, n ∈ ids → Permit_allows (allow_permit true db ws) n = true) →
  narrowed db (<[allow_key ws := (to_json ids, by', at')]> db).
Proof.
  intros Hst Ht Hin. split.
  - intros ws' n. destruct (decide (ws' = ws)) as [->|Hne]; [by intros Hn%(permit_written L); apply Hin|]. by rewrite (proj1 (permit_other true db ws ws' _ Hne)).
  - intros ws' e. destruct (decide (ws' = ws)) as [->|Hne].
    + unfold allow_get. cbn [negb]. rewrite lookup_insert_eq, from_to_json. destruct (_ || _); [done|]. by intros [= <-].
    + unfold allow_get. cbn [negb]. rewrite lookup_insert_ne by (unfold allow_key; intros ?; simplify_eq). apply Hst.
Qed.
Lemma narrowed_delete db ws : stored_ok db → allow_permit true db ws = Permit_Any → narrowed db (delete (allow_key ws) db).
Proof.
  intros Hst Hp. split.
  - intros ws' n. destruct (decide (ws' = ws)) as [->|Hne]; [by rewrite Hp|]. by rewrite (proj2 (permit_other true db ws ws' ("", "", 0) Hne)).
  - intros ws' e. unfold allow_get. cbn [negb]. destruct (decide (ws' = ws)) as [->|Hne]; [by rewrite lookup_delete_eq|].
    rewrite lookup_delete_ne by (unfold allow_key; intros ?; simplify_eq). apply Hst.
Qed.

(** ** Properties *)

(** (C18) An agent's request leaves no workspace's jobs a node they could not go to
    before, if nothing is written between the two locks of [set]; and one
    that is refused changes nothing. *)
Theorem agent_narrows (L : JsonIdsLaw J) passport resolve ok2 db ws q by' at' : node_ids resolve → stored_ok db →
  let '(r, db') := allow_nodes_set false passport resolve true ok2 db ws q by' at' in
  narrowed db db' ∧ ((∃ e, r = Err e) → db' = db).
Proof.
  intros Hr Hst. unfold allow_nodes_set, allow_judge.
  assert (Hs : ∀ r : Result AllowChange AllowError, narrowed db db ∧ ((∃ e, r = Err e) → db = db)) by (intros; split; [by apply narrowed_refl|done]).
  destruct (_ && _); [exact (Hs _)|]. destruct (negb _); [exact (Hs _)|].
  destruct (allow_get true db ws) as [old|] eqn:Hget; [|exact (Hs _)]. destruct (new_ids _ _ _) as [new|] eqn:Hnew; [|exact (Hs _)].
  pose proof (change_within (ae_nodes <$> old) new) as Hin. rewrite <- (permit_of_get true db ws old Hget) in Hin.
  destruct (allow_change _ new) eqn:Hc; [exact (Hs _)| |exact (Hs _)].
  unfold allow_write. change (bool_decide (Change_Narrow = Change_Widen)) with false. cbn [fst snd andb]. change (bool_decide (Change_Narrow = Change_Same)) with false.
  specialize (Hin ltac:(done)). unfold allow_set. destruct new as [ids|].
  - assert (Ht : trimmed ids).
    { eapply new_trimmed; [exact Hr| |exact Hnew]. intros o Ho. destruct old as [e|]; [|done]. injection Ho as <-. by apply (Hst ws). }
    case_bool_decide; [exact (Hs _)|]. destruct ok2; [|exact (Hs _)]. split; [|by intros [e [=]]].
    apply narrowed_insert; [done..|by apply trimmed_normalize|]. intros n Hn. apply Hin. by apply normalize_trimmed.
  - destruct ok2; [|exact (Hs _)]. split; [|by intros [e [=]]]. by apply narrowed_delete.
Qed.
End allow.

(** ** Examples *)

Module Examples.

(** Each character after an [x], each id before a [.]. *)
Fixpoint ex_id (s : string) (rest : string) : string :=
  match s with EmptyString => String "." rest | String c s => String "x" (String c (ex_id s rest)) end.
Fixpoint ex_ids (l : list string) : string := match l with [] => EmptyString | s :: l => ex_id s (ex_ids l) end.
Fixpoint ex_parse (s : string) (acc : string) : option (list string) :=
  match s with
  | EmptyString => if bool_decide (acc = ""%string) then Some [] else None
  | String "." rest => l ← ex_parse rest EmptyString; Some (acc :: l)
  | String _ (String c rest) => ex_parse rest (acc +:+ String c EmptyString)
  | String _ EmptyString => None
  end.
#[export] Instance ex_json : JsonIds := { to_json := ex_ids; from_json := λ s, ex_parse s EmptyString }.
Lemma ex_parse_id s acc rest : ex_parse (ex_id s rest) acc = l ← ex_parse rest EmptyString; Some ((acc +:+ s) :: l).
Proof.
  revert acc. induction s as [|c s IH]; intros acc; cbn [ex_id ex_parse].
  - replace (acc +:+ "") with acc; [done|]. induction acc as [|c acc IH]; [done|]. exact (f_equal (String c) IH).
  - rewrite IH. by rewrite (string_app_assoc acc (String c "") s).
Qed.
#[export] Instance ex_json_law : JsonIdsLaw ex_json.
Proof. intros l. cbn [from_json to_json ex_json]. induction l as [|s l IH]; [reflexivity|]. cbn [ex_ids]. by rewrite ex_parse_id, IH. Qed.

Definition ex_resolve (name : string) : option string := if bool_decide (name ∈ ["n1"; "n2"; "n3"]) then Some name else None.
Lemma ex_node_ids : node_ids ex_resolve.
Proof.
  intros name node. unfold ex_resolve. case_bool_decide as Hin; [|done]. intros [= <-].
  rewrite !elem_of_cons, elem_of_nil in Hin. destruct Hin as [->|[->|[->|[]]]]; vm_compute; reflexivity.
Qed.
Definition ex_db (ids : list string) : Settings := {[allow_key "w" := (to_json ids, "owner", 1)]}.
Lemma ex_stored ids : forallb (λ x, bool_decide (str_trim x = x)) ids = true → stored_ok (ex_db ids).
Proof.
  intros Hf ws e. unfold allow_get, ex_db. cbn [negb]. destruct (decide (ws = "w")) as [->|Hne].
  - rewrite lookup_singleton_eq, from_to_json. destruct (_ || _); [done|]. intros [= <-]. unfold trimmed. rewrite Forall_forall. intros x Hx.
    rewrite forallb_true in Hf. specialize (Hf x Hx). by apply bool_decide_eq_true in Hf.
  - rewrite lookup_singleton_ne by (unfold allow_key; intros ?; simplify_eq). done.
Qed.

(** An agent takes [n3] off its list. *)
Lemma agent_narrows_witness :
  let '(r, db') := allow_nodes_set false true ex_resolve true true (ex_db ["n1"; "n2"; "n3"]) "w" (mk_AllowReq [] [] ["n3"] false) "agent:k2" 9 in
  narrowed (ex_db ["n1"; "n2"; "n3"]) db' ∧ ((∃ e, r = Err e) → db' = ex_db ["n1"; "n2"; "n3"]).
Proof. apply agent_narrows; [apply _|exact ex_node_ids|apply ex_stored; vm_compute; reflexivity]. Defined.

(** The owner takes [n2] and [n3] off between the agent's two locks: the
    agent's request, judged on the older list, gives [n2] back. *)
Lemma judged_on_older_list :
  match allow_judge false true ex_resolve true (ex_db ["n1"; "n2"; "n3"]) "w" (mk_AllowReq ["n1"; "n2"] [] [] false) with
  | Err _ => False
  | Ok judged =>
    let db' := (allow_write true (ex_db ["n1"]) "w" judged "agent:k2" 9).2 in
    Permit_allows (allow_permit true (ex_db ["n1"]) "w") "n2" = false ∧ Permit_allows (allow_permit true db' "w") "n2" = true
  end.
Proof. vm_compute. split; reflexivity. Qed.

End Examples.
