(* ===== verification/JobTable.v ===== *)
(** * JobTable: the server's table of jobs

    The rows of [compute_jobs] ([JobRow], [JobCtl]) and the statements of
    [crates/k2-core/src/compute/store.rs] that change them.  A statement may
    fail, when [w_faults] says so; most callers ignore that.  The lock of the
    database makes what a handler does while it holds it one step. *)

From S2P Require Import Prelude Share Refusal JobFrames Ledger FairQ Retry Journal LogCopy Allow.
Open Scope Z_scope.

(** ** Rows *)

(** A list or object of which the rows only keep the text is its text. *)
Record ShardRef := mk_ShardRef { sh_parent : string; sh_index : Z; sh_of : Z }.
Record AttemptNote := mk_AttemptNote { an_attempt : Z; an_node_id : string; an_state : JobState; an_reason : option string; an_at : Z }.

(** The options that only [--supersede] changes ([cf_replaced_by]). *)
Record CtlFixed := mk_CtlFixed {
  cf_any : option string;
  cf_admin : bool;
  cf_timeout_secs : option Z;
  cf_queue_timeout_secs : option Z;
  cf_retries : Z;
  cf_stall_secs : option Z;
  cf_shard : option ShardRef;
  cf_shards : list string;
  cf_secrets : list string;
  cf_replaced_by : option string;
  cf_repo : option string;
  cf_why : option string;
  cf_mem_defaulted : bool;
  cf_effective : option string;
  cf_tag : option string;
  cf_cpu_hints : list string;
  cf_stall_warned_gen : option Z;
}.
Record JobCtl := mk_JobCtl {
  ct_fixed : CtlFixed;
  ct_queued_at : Z;
  ct_retries_used : Z;
  ct_not_before : option Z;
  ct_failed_attempts : list AttemptNote;
  ct_cancelled_by_requester : bool;
  ct_placement : option string;
  ct_clock : option string;
  ct_reported_late_secs : option Z;
  ct_heard_at : option Z;
}.
Definition CtlFixed_default : CtlFixed :=
  mk_CtlFixed None false None None 0 None None [] [] None None None false None None [] None.
Definition JobCtl_default : JobCtl := mk_JobCtl CtlFixed_default 0 0 None [] false None None None None.
#[export] Instance ShardRef_eq_dec : EqDecision ShardRef.
Proof. solve_decision. Defined.
#[export] Instance AttemptNote_eq_dec : EqDecision AttemptNote.
Proof. solve_decision. Defined.
#[export] Instance CtlFixed_eq_dec : EqDecision CtlFixed.
Proof. solve_decision. Defined.
#[export] Instance JobCtl_eq_dec : EqDecision JobCtl.
Proof. solve_decision. Defined.

(** The columns an [INSERT] writes for good. *)
Record JobFixed := mk_JobFixed {
  jf_id : string;
  jf_client_job_id : string;
  jf_workspace_id : string;
  jf_session_id : option string;
  jf_requested_by : string;
  jf_argv : list string;
  jf_env_names : list string;
  jf_request_sha256 : string;
  jf_dirty_sha256 : option string;
  jf_exclusive : bool;
  jf_detach : bool;
  jf_retry_interrupted : bool;
  jf_created_at : Z;
  jf_class : string;
  jf_est_secs : option Z;
  jf_tier : string;
  jf_tier_asked : option string;
  jf_submitter : option string;
  jf_supersede_key : option string;
}.
(** Where the job is to run.  [plan_json] is the plan, when it reads as one,
    and the options. *)
Record Sent := mk_Sent { sn_node_id : string; sn_plan : option Plan; sn_ctl : JobCtl; sn_plan_digest : string }.
Record Status := mk_Status { st_state : JobState; st_reason : option string; st_detail : option string }.
Record Times := mk_Times { tm_assigned_at : option Z; tm_started_at : option Z; tm_ended_at : option Z }.
Record JobOut := mk_JobOut {
  jo_src_commit : option string;
  jo_src_tree : option string;
  jo_exit_code : option Z;
  jo_signal : option Z;
  jo_log_seq : Z;
  jo_log_bytes : Z;
  jo_summary_json : option string;
  jo_receipt_json : option string;
  jo_receipt_ok : option bool;
  jo_notified_at : option Z;
}.
(** The node's queue holds the job ([node_queued]), and where. *)
Record NodeQ := mk_NodeQ {
  nq_queued : bool;
  nq_pos : option Z;
  nq_eta_secs : option Z;
  nq_eta_p90_secs : option Z;
  nq_blocked_by : option string;
  nq_seen_at : option Z;
  nq_of : option Z;
}.
Record ComputeJob := mk_ComputeJob {
  cj_fixed : JobFixed;
  cj_sent : Sent;
  cj_status : Status;
  cj_attempt : Z;
  cj_generation : Z;
  cj_times : Times;
  cj_out : JobOut;
  cj_nodeq : NodeQ;
  cj_withdraws : Z;
  cj_withdrawn_at : option Z;
}.

Definition cj_id (r : ComputeJob) : string := jf_id (cj_fixed r).
Definition cj_node (r : ComputeJob) : string := sn_node_id (cj_sent r).
Definition cj_ctl (r : ComputeJob) : JobCtl := sn_ctl (cj_sent r).
Definition cj_state (r : ComputeJob) : JobState := st_state (cj_status r).
Definition cj_reason (r : ComputeJob) : option string := st_reason (cj_status r).
Definition job_is_terminal (r : ComputeJob) : bool := is_terminal (cj_state r).

(** [ACTIVE_STATES]. *)
Definition active (s : JobState) : bool :=
  match s with JobState_Assigned | JobState_Preparing | JobState_Running | JobState_Finishing => true | _ => false end.
Definition is_state (s : JobState) (r : ComputeJob) : bool := bool_decide (cj_state r = s).

Definition put_sent (x : Sent) (r : ComputeJob) : ComputeJob :=
  mk_ComputeJob (cj_fixed r) x (cj_status r) (cj_attempt r) (cj_generation r) (cj_times r) (cj_out r) (cj_nodeq r) (cj_withdraws r) (cj_withdrawn_at r).
Definition put_status (x : Status) (r : ComputeJob) : ComputeJob :=
  mk_ComputeJob (cj_fixed r) (cj_sent r) x (cj_attempt r) (cj_generation r) (cj_times r) (cj_out r) (cj_nodeq r) (cj_withdraws r) (cj_withdrawn_at r).
Definition put_attempt (attempt generation : Z) (r : ComputeJob) : ComputeJob :=
  mk_ComputeJob (cj_fixed r) (cj_sent r) (cj_status r) attempt generation (cj_times r) (cj_out r) (cj_nodeq r) (cj_withdraws r) (cj_withdrawn_at r).
Definition put_times (x : Times) (r : ComputeJob) : ComputeJob :=
  mk_ComputeJob (cj_fixed r) (cj_sent r) (cj_status r) (cj_attempt r) (cj_generation r) x (cj_out r) (cj_nodeq r) (cj_withdraws r) (cj_withdrawn_at r).
Definition put_out (x : JobOut) (r : ComputeJob) : ComputeJob :=
  mk_ComputeJob (cj_fixed r) (cj_sent r) (cj_status r) (cj_attempt r) (cj_generation r) (cj_times r) x (cj_nodeq r) (cj_withdraws r) (cj_withdrawn_at r).
Definition put_nodeq (x : NodeQ) (r : ComputeJob) : ComputeJob :=
  mk_ComputeJob (cj_fixed r) (cj_sent r) (cj_status r) (cj_attempt r) (cj_generation r) (cj_times r) (cj_out r) x (cj_withdraws r) (cj_withdrawn_at r).
Definition put_withdrawn (n : Z) (at' : option Z) (r : ComputeJob) : ComputeJob :=
  mk_ComputeJob (cj_fixed r) (cj_sent r) (cj_status r) (cj_attempt r) (cj_generation r) (cj_times r) (cj_out r) (cj_nodeq r) n at'.

(** ** The server *)

Inductive Val := V_str (s : string) | V_int (n : Z) | V_bool (b : bool) | V_null.
Definition v_opt (s : option string) : Val := match s with Some s => V_str s | None => V_null end.
(** A row of [compute_events]. *)
Record Event := mk_Event { ev_actor : string; ev_kind : string; ev_node : option string; ev_ws : option string; ev_job : option string; ev_detail : list (string * Val) }.
(** What leaves the server, in order: a placement pass for a node, a wake of
    the pollers, an attempt or a cancel for a node, its removal, the message
    to the one who asked, and the redaction of an attempt's chunks switched
    off. *)
Inductive Effect :=
| Fx_kick (node : string)
| Fx_notify
| Fx_assign (node job : string) (generation : Z)
| Fx_revoked (node : string)
| Fx_cancel (node job : string) (generation : Z) (reason : string)
| Fx_message (job : ComputeJob)
| Fx_child_ended (parent : string)
| Fx_disarm (job : string) (generation : Z).
(** What the server knows of a node: its name and key, the skew its share
    view says, its last health frame (heard at, its own clock), the row's
    state and pause, and when it was last seen (else enrolled). *)
Record NodeFacts := mk_NodeFacts {
  nf_name : string;
  nf_key : string;
  nf_share_skew : option Z;
  nf_health : option (Z * Z);
  nf_state : string;
  nf_pause : option string;
  nf_seen : Z;
}.

Record World := mk_World {
  w_rows : gmap string ComputeJob;
  w_faults : list bool;
  w_events : list Event;
  w_fx : list Effect;
  w_nodes : gmap string NodeFacts;
  w_online : gset string;
  w_health : gmap string NodeHealth;
  w_logs : Logs;
  w_settings : Settings;
  w_tick : nat;
}.
Definition set_rows (x : gmap string ComputeJob) (f : list bool) (w : World) : World :=
  mk_World x f (w_events w) (w_fx w) (w_nodes w) (w_online w) (w_health w) (w_logs w) (w_settings w) (w_tick w).
Definition set_events (x : list Event) (f : list bool) (w : World) : World :=
  mk_World (w_rows w) f x (w_fx w) (w_nodes w) (w_online w) (w_health w) (w_logs w) (w_settings w) (w_tick w).
Definition set_fx (x : list Effect) (w : World) : World :=
  mk_World (w_rows w) (w_faults w) (w_events w) x (w_nodes w) (w_online w) (w_health w) (w_logs w) (w_settings w) (w_tick w).
Definition set_health (x : gmap string NodeHealth) (w : World) : World :=
  mk_World (w_rows w) (w_faults w) (w_events w) (w_fx w) (w_nodes w) (w_online w) x (w_logs w) (w_settings w) (w_tick w).
Definition set_logs (x : Logs) (w : World) : World :=
  mk_World (w_rows w) (w_faults w) (w_events w) (w_fx w) (w_nodes w) (w_online w) (w_health w) x (w_settings w) (w_tick w).
Definition set_tick (x : nat) (w : World) : World :=
  mk_World (w_rows w) (w_faults w) (w_events w) (w_fx w) (w_nodes w) (w_online w) (w_health w) (w_logs w) (w_settings w) x.

Definition set_nodes (x : gmap string NodeFacts) (f : list bool) (w : World) : World :=
  mk_World (w_rows w) f (w_events w) (w_fx w) x (w_online w) (w_health w) (w_logs w) (w_settings w) (w_tick w).
Definition set_online (x : gset string) (w : World) : World :=
  mk_World (w_rows w) (w_faults w) (w_events w) (w_fx w) (w_nodes w) x (w_health w) (w_logs w) (w_settings w) (w_tick w).
Definition set_settings (x : Settings) (f : list bool) (w : World) : World :=
  mk_World (w_rows w) f (w_events w) (w_fx w) (w_nodes w) (w_online w) (w_health w) (w_logs w) x (w_tick w).

Definition ServerM (A : Type) : Type := World → A * World.
#[export] Instance ServerM_ret : MRet ServerM := λ A x w, (x, w).
#[export] Instance ServerM_bind : MBind ServerM := λ A B k m w, let '(x, w) := m w in k x w.
Definition when (c : bool) (m : ServerM unit) : ServerM unit := if c then m else mret tt.
Definition effect (x : Effect) : ServerM unit := λ w, (tt, set_fx (w_fx w ++ [x]) w).
Definition kick (node : string) : ServerM unit := effect (Fx_kick node).
Definition notify_change : ServerM unit := effect Fx_notify.
Definition is_online (node : string) : ServerM bool := λ w, (bool_decide (node ∈ w_online w), w).
(** [send_to] a node: whether its connection took the frame. *)
Definition send_cancel (node job : string) (generation : Z) (reason : string) : ServerM bool :=
  ok ← is_online node; when ok (effect (Fx_cancel node job generation reason));; mret ok.

(** ** Statements *)

(** [bad] is what the caller sees of a statement that fails. *)
Definition stmt {A} (bad : A) (f : gmap string ComputeJob → A * gmap string ComputeJob) : ServerM A := λ w,
  match w_faults w with
  | true :: faults => (bad, set_rows (w_rows w) faults w)
  | faults => let '(x, rows) := f (w_rows w) in (x, set_rows rows (tail faults) w)
  end.
(** [UPDATE .. WHERE id = ?1 AND p]: [Some true] when it changed the row. *)
Definition update_job (id : string) (p : ComputeJob → bool) (f : ComputeJob → ComputeJob) : ServerM (option bool) :=
  stmt None (λ rows,
    match rows !! id with
    | Some r => if p r then (Some true, <[id := f r]> rows) else (Some false, rows)
    | None => (Some false, rows)
    end).
Definition always : ComputeJob → bool := λ _, true.

Definition record_event (actor kind : string) (node ws job : option string) (detail : list (string * Val)) : ServerM unit := λ w,
  match w_faults w with
  | true :: faults => (tt, set_events (w_events w) faults w)
  | faults => (tt, set_events (w_events w ++ [mk_Event actor kind node ws job detail]) (tail faults) w)
  end.

Definition job_by_id (id : string) : ServerM (option ComputeJob) := stmt None (λ rows, (rows !! id, rows)).

(** [ORDER BY created_at, id]. *)
Definition created_le (a b : ComputeJob) : bool :=
  not_gt (cmp_then (jf_created_at (cj_fixed a) ?= jf_created_at (cj_fixed b)) (String.compare (cj_id a) (cj_id b))).
Definition jobs_where (p : ComputeJob → bool) : ServerM (list ComputeJob) :=
  stmt [] (λ rows, (isort created_le (List.filter p (map_to_list rows).*2), rows)).
Definition jobs_in_states (node : string) (p : JobState → bool) : ServerM (list ComputeJob) :=
  jobs_where (λ r, bool_decide (cj_node r = node) && p (cj_state r)).
Definition node_queued_jobs : ServerM (list ComputeJob) := jobs_where (λ r, nq_queued (cj_nodeq r) && is_state JobState_Assigned r).
Definition queued_jobs : ServerM (list ComputeJob) := jobs_where (is_state JobState_Queued).
Definition active_jobs : ServerM (list ComputeJob) := jobs_where (λ r, active (cj_state r)).

(** [list_jobs], newest first. *)
Definition list_jobs (p : ComputeJob → bool) (limit : nat) : ServerM (list ComputeJob) :=
  stmt [] (λ rows, (take limit (reverse (isort created_le (List.filter p (map_to_list rows).*2))), rows)).

(** *** Status *)

Definition opt_else {A} (x y : option A) : option A := match x with Some _ => x | None => y end.
(** The [SET] list of [set_job_state] and [set_job_state_if]. *)
Definition to_state (state : JobState) (reason detail : option string) (at' : Z) (r : ComputeJob) : ComputeJob :=
  let t := cj_times r in
  put_status (mk_Status state reason detail)
    (put_times (mk_Times
      (if bool_decide (state = JobState_Assigned) then Some at' else tm_assigned_at t)
      (if bool_decide (state = JobState_Running) then opt_else (tm_started_at t) (Some at') else tm_started_at t)
      (if is_terminal state then opt_else (tm_ended_at t) (Some at') else tm_ended_at t)) r).
Definition set_job_state (id : string) (state : JobState) (reason detail : option string) (at' : Z) : ServerM (option bool) :=
  update_job id always (to_state state reason detail at').
Definition set_job_state_if (id : string) (from state : JobState) (reason detail : option string) (at' : Z) : ServerM (option bool) :=
  update_job id (is_state from) (to_state state reason detail at').
Definition cancel_if_queued (id : string) (at' : Z) : ServerM (option bool) :=
  set_job_state_if id JobState_Queued JobState_Cancelled (Some "cancelled") None at'.
Definition assign_if_queued (id : string) (at' : Z) : ServerM (option bool) :=
  set_job_state_if id JobState_Queued JobState_Assigned None None at'.

Definition tiers_REPLACED : string := "replaced".
(** [message::short]. *)
Definition short (job_id : string) : string := String.substring 0 (Nat.min (String.length job_id) 8) job_id.
Definition replace_if_queued (id by_job : string) (at' : Z) : ServerM (option bool) :=
  set_job_state_if id JobState_Queued JobState_Cancelled (Some tiers_REPLACED) (Some ("replaced by job " +:+ short by_job)) at'.

Definition set_job_reason (id : string) (reason detail : option string) : ServerM unit :=
  update_job id always (λ r, put_status (mk_Status (cj_state r) reason detail) r);; mret tt.
Definition set_job_times (id : string) (started_at ended_at : option Z) : ServerM unit :=
  update_job id always (λ r, let t := cj_times r in
    put_times (mk_Times (tm_assigned_at t) (opt_else started_at (tm_started_at t)) (opt_else ended_at (tm_ended_at t))) r);; mret tt.

(** *** Results *)

Definition set_job_exit (id : string) (code signal : option Z) : ServerM unit :=
  update_job id always (λ r, let o := cj_out r in
    put_out (mk_JobOut (jo_src_commit o) (jo_src_tree o) code signal (jo_log_seq o) (jo_log_bytes o) (jo_summary_json o) (jo_receipt_json o) (jo_receipt_ok o) (jo_notified_at o)) r);; mret tt.
Definition set_job_src (id commit tree : string) : ServerM unit :=
  update_job id always (λ r, let o := cj_out r in
    put_out (mk_JobOut (Some commit) (Some tree) (jo_exit_code o) (jo_signal o) (jo_log_seq o) (jo_log_bytes o) (jo_summary_json o) (jo_receipt_json o) (jo_receipt_ok o) (jo_notified_at o)) r);; mret tt.
Definition set_job_log (id : string) (seq bytes : Z) : ServerM unit :=
  update_job id always (λ r, let o := cj_out r in
    put_out (mk_JobOut (jo_src_commit o) (jo_src_tree o) (jo_exit_code o) (jo_signal o) (Z.max (jo_log_seq o) (i64 seq)) (Z.max (jo_log_bytes o) (i64 bytes))
      (jo_summary_json o) (jo_receipt_json o) (jo_receipt_ok o) (jo_notified_at o)) r);; mret tt.
Definition set_job_outputs (id : string) (generation : Z) (outputs_json : string) : ServerM unit :=
  update_job id (λ r, cj_generation r =? generation) (λ r, let o := cj_out r in
    put_out (mk_JobOut (jo_src_commit o) (jo_src_tree o) (jo_exit_code o) (jo_signal o) (jo_log_seq o) (jo_log_bytes o) (Some outputs_json) (jo_receipt_json o) (jo_receipt_ok o) (jo_notified_at o)) r);; mret tt.
Definition set_job_receipt (id receipt_json : string) (ok : bool) : ServerM unit :=
  update_job id always (λ r, let o := cj_out r in
    put_out (mk_JobOut (jo_src_commit o) (jo_src_tree o) (jo_exit_code o) (jo_signal o) (jo_log_seq o) (jo_log_bytes o) (jo_summary_json o) (Some receipt_json) (Some ok) (jo_notified_at o)) r);; mret tt.
Definition mark_notified (id : string) (at' : Z) : ServerM unit :=
  update_job id always (λ r, let o := cj_out r in
    put_out (mk_JobOut (jo_src_commit o) (jo_src_tree o) (jo_exit_code o) (jo_signal o) (jo_log_seq o) (jo_log_bytes o) (jo_summary_json o) (jo_receipt_json o) (jo_receipt_ok o) (Some at')) r);; mret tt.

(** *** Options and plan *)

Definition with_ctl (ctl : JobCtl) (r : ComputeJob) : ComputeJob :=
  put_sent (mk_Sent (cj_node r) (sn_plan (cj_sent r)) ctl (sn_plan_digest (cj_sent r))) r.
(** [None]: not found, or the stored plan unreadable, or a failed statement. *)
Definition set_job_ctl (id : string) (ctl : JobCtl) : ServerM (option bool) :=
  j ← job_by_id id;
  match j with
  | Some j => match sn_plan (cj_sent j) with Some _ => update_job id always (with_ctl ctl) | None => mret None end
  | None => mret None
  end.
(** [QUEUED_SQL]. *)
Definition waits (r : ComputeJob) : bool := is_state JobState_Queued r || (is_state JobState_Assigned r && nq_queued (cj_nodeq r)).
Definition set_waiting_job_ctl (id : string) (generation : Z) (ctl : JobCtl) : ServerM (option bool) :=
  j ← job_by_id id;
  match j with
  | None => mret (Some false)
  | Some j =>
    match sn_plan (cj_sent j) with
    | Some _ => update_job id (λ r, (cj_generation r =? generation) && waits r) (with_ctl ctl)
    | None => mret None
    end
  end.
(** The digest of a plan is an error when it can't be made. *)
Definition move_queued_job (digest : Plan → option string) (id : string) (plan : Plan) (ctl : JobCtl) (reason : string) : ServerM (option bool) :=
  match digest plan with
  | None => mret None
  | Some d =>
    update_job id (is_state JobState_Queued) (λ r,
      put_status (mk_Status (cj_state r) (Some reason) None) (put_sent (mk_Sent (pl_node_id plan) (Some plan) ctl d) r))
  end.
Definition rewrite_queued_plan (digest : Plan → option string) (id : string) (plan : Plan) (ctl : JobCtl) : ServerM (option bool) :=
  match digest plan with
  | None => mret None
  | Some d => update_job id (is_state JobState_Queued) (λ r, put_sent (mk_Sent (cj_node r) (Some plan) ctl d) r)
  end.

(** *** The node's queue *)

Definition queued_with_supersede_key (ws key : string) : ServerM (list ComputeJob) :=
  jobs_where (λ r, bool_decide (jf_workspace_id (cj_fixed r) = ws) && bool_decide (jf_supersede_key (cj_fixed r) = Some key) && waits r).
Definition mark_node_queued (id : string) (generation : Z) (pos : option QueuePos) (reason : option string) (at' : Z) : ServerM (option bool) :=
  update_job id (λ r, (cj_generation r =? generation) && is_state JobState_Assigned r) (λ r,
    put_status (mk_Status (cj_state r) (opt_else reason (cj_reason r)) (st_detail (cj_status r)))
      (put_nodeq (mk_NodeQ true (qp_pos <$> pos) (pos ≫= qp_eta_secs) (pos ≫= qp_eta_p90_secs) (pos ≫= qp_blocked_by) (Some at') (pos ≫= qp_of)) r)).
Definition no_nodeq (q : NodeQ) : NodeQ := mk_NodeQ false None None None None (nq_seen_at q) None.
Definition clear_node_queued (id : string) : ServerM unit :=
  update_job id (λ r, nq_queued (cj_nodeq r)) (λ r, put_nodeq (no_nodeq (cj_nodeq r)) r);; mret tt.

(** *** New generations *)

Definition requeued (reason : string) (attempt : Z) (t : Times) (o : JobOut) (r : ComputeJob) : ComputeJob :=
  put_status (mk_Status JobState_Queued (Some reason) None) $ put_attempt attempt (cj_generation r + 1) $
  put_times t $ put_out o $ put_nodeq (no_nodeq (cj_nodeq r)) r.
Definition no_log (o : JobOut) : JobOut :=
  mk_JobOut (jo_src_commit o) (jo_src_tree o) (jo_exit_code o) (jo_signal o) 0 0 (jo_summary_json o) (jo_receipt_json o) (jo_receipt_ok o) (jo_notified_at o).
Definition requeue_new_generation (id : string) (generation : Z) (reason : string) : ServerM (option bool) :=
  update_job id (λ r, (cj_generation r =? generation) && active (cj_state r)) (λ r,
    requeued reason (cj_attempt r) (mk_Times None None (tm_ended_at (cj_times r))) (no_log (cj_out r)) r).
Definition note_withdraw (id : string) (at' : Z) : ServerM unit :=
  update_job id always (λ r, put_withdrawn (cj_withdraws r + 1) (Some at') r);; mret tt.
Definition no_results (o : JobOut) : JobOut := mk_JobOut (jo_src_commit o) (jo_src_tree o) None None 0 0 None None None None.
Definition requeue_new_attempt (id reason : string) : ServerM (option ComputeJob) :=
  ok ← update_job id always (λ r, requeued reason (cj_attempt r + 1) (mk_Times None None None) (no_results (cj_out r)) r);
  match ok with None => mret None | Some _ => job_by_id id end.
