(* ===== verification/JobLife.v ===== *)
(** * JobLife: what nodes and people do to the server's jobs

    [apply_observation] and what it calls, [on_state], [on_snapshot],
    [on_receipt] and [finalize] of [crates/k2-daemon/src/compute_ws.rs];
    [after_attempt], [try_move], [requeue_lost] and what [sweep] does with a
    lost node's job of [compute_place.rs]; [cancel_one] of [compute_views.rs] and
    [retry_one] of [compute_routes.rs].

    Where the code reads the clock the model takes its next value.  A choice
    of placement, the text of outputs and the check of a receipt's signature
    are arguments. *)

From S2P Require Import Prelude Share Refusal JobFrames Ledger FairQ NodeQueue Retry Journal LogCopy JobTable.
From stdpp Require Import pretty.
Open Scope Z_scope.

(** ** Frames *)

Record LedgerJob := mk_LedgerJob {
  lj_job_id : string;
  lj_generation : Z;
  lj_attempt : Z;
  lj_plan_digest : string;
  lj_state : JobState;
  lj_reason : option string;
  lj_started_at : option Z;
  lj_ended_at : option Z;
  lj_exit : option ExitInfo;
  lj_log_seq : Z;
  lj_boot_id : string;
}.
Record JobsSnapshot := mk_JobsSnapshot { js_jobs : list LedgerJob; js_last : bool }.
(** What a signed receipt says. *)
Record ReceiptClaims := mk_ReceiptClaims { rc_job_id : string; rc_generation : Z; rc_plan_digest : string; rc_artifacts : list string }.
(** The node's own times for one observation. *)
Record NodeTimes := mk_NodeTimes { nt_at : option Z; nt_started_at : option Z }.

(** ** Pending answers: [share::pending] *)

Definition CANCEL_REQUESTED : string := "cancel_requested".
Definition pending_WITHDRAW : string := "withdraw_requested".
Definition pending_TIMEOUT : string := "withdraw_timeout".
Definition pending_CANCEL : string := "cancel_if_queued".
Definition pending_RESEND : string := "withdraw_resend".
Definition reason_is (s : string) (reason : option string) : bool := bool_decide (reason = Some s).
Definition pending_any (reason : option string) : bool :=
  reason_is pending_WITHDRAW reason || reason_is pending_TIMEOUT reason || reason_is pending_CANCEL reason || reason_is pending_RESEND reason.
Definition codes_JOB_STARTED : string := "job_started".
Definition RESENT : string := "resent".

(** ** Times *)

Definition REPORTED_LATE_SECS : Z := 120.
Definition i64_abs (x : Z) : Z := i64 (Z.abs x).
Definition node_time (at' now : Z) (skew : option Z) : Z * string * option Z :=
  let lim := REPORTED_LATE_SECS in
  match skew with
  | Some s =>
    if i64_abs s <=? lim then
      let t := Z.min at' now in
      let late := i64 (now - t) in
      (t, "node", if lim <? late then Some late else None)
    else (now, "server", None)
  | None => if i64_abs (i64 (now - at')) <=? lim then (Z.min at' now, "node", None) else (now, "server", None)
  end.

(** [message::duration]. *)
Definition two (n : Z) : string := if n <? 10 then "0" +:+ pretty n else pretty n.
Definition duration (secs : Z) : string :=
  let s := Z.max secs 0 in
  if s <? 60 then pretty s +:+ "s"
  else if s <? 3600 then pretty (s / 60) +:+ "m" +:+ two (s mod 60) +:+ "s"
  else pretty (s / 3600) +:+ "h" +:+ two ((s mod 3600) / 60) +:+ "m".

(** Where a start or an end is put, the options after it, and a start the
    row doesn't have yet. *)
Record Stamp := mk_Stamp { sp_at : Z; sp_ctl : JobCtl; sp_started : option Z }.
Definition ctl_clock (clock : string) (c : JobCtl) : JobCtl :=
  mk_JobCtl (ct_fixed c) (ct_queued_at c) (ct_retries_used c) (ct_not_before c) (ct_failed_attempts c) (ct_cancelled_by_requester c)
    (ct_placement c) (Some clock) (ct_reported_late_secs c) (ct_heard_at c).
Definition ctl_late (late heard : Z) (c : JobCtl) : JobCtl :=
  mk_JobCtl (ct_fixed c) (ct_queued_at c) (ct_retries_used c) (ct_not_before c) (ct_failed_attempts c) (ct_cancelled_by_requester c)
    (ct_placement c) (ct_clock c) (Some late) (Some heard).
Definition stamp_of (j : ComputeJob) (state : JobState) (times : NodeTimes) (now : Z) (skew : option Z) : Stamp :=
  let t := cj_times j in
  let ctl := cj_ctl j in
  let keep := mk_Stamp now ctl None in
  match nt_at times with
  | Some at' =>
    if bool_decide (state = JobState_Running) || is_terminal state then
      let '(t', clock, late) := node_time at' now skew in
      let clock := if bool_decide (ct_clock ctl = Some "server") then "server" else clock in
      if bool_decide (clock = "node") then
        let floor := if bool_decide (state = JobState_Running) then tm_assigned_at t else opt_else (tm_started_at t) (tm_assigned_at t) in
        let stamp := Z.max t' (default i64_min floor) in
        if is_terminal state then
          let started :=
            match tm_started_at t, nt_started_at times with
            | None, Some s => Some (Z.min (Z.max (node_time s now (Some 0)).1.1 (default i64_min (tm_assigned_at t))) stamp)
            | _, _ => None
            end in
          let ctl := match late with Some l => ctl_late l now ctl | None => ctl end in
          mk_Stamp stamp (ctl_clock clock ctl) started
        else mk_Stamp stamp (ctl_clock clock ctl) None
      else mk_Stamp now (ctl_clock clock ctl) None
    else keep
  | None => keep
  end.

(** ** What an observation means *)

(** [replaced_end]. *)
Definition replaced_end (j : ComputeJob) (asked : option string) : option (string * option string) :=
  match cf_replaced_by (ct_fixed (cj_ctl j)) with
  | Some by' => if reason_is pending_CANCEL asked then Some (tiers_REPLACED, Some ("replaced by job " +:+ short by')) else None
  | None => None
  end.
Definition SHARE_ENDED_TEXT : string := "this server's share on the node has ended (the node's owner can extend it)".
Definition SHARE_REVOKED_TEXT : string := "the node's owner removed this server from the node".
(** The state, reason and detail the row takes, from what the node says and
    what the row waits for. *)
Definition settle (j : ComputeJob) (state : JobState) (reason detail : option string) : JobState * option string * option string :=
  let asked := cj_reason j in
  let cancel_owed := reason_is CANCEL_REQUESTED asked in
  let reason :=
    if cancel_owed && negb (is_terminal state) then Some CANCEL_REQUESTED
    else if reason_is pending_CANCEL asked && negb (is_terminal state) then Some codes_JOB_STARTED
    else reason in
  let ended_by_node :=
    if bool_decide (state = JobState_Cancelled) then
      if reason_is codes_SHARE_EXPIRED reason then Some SHARE_ENDED_TEXT
      else if reason_is codes_SHARE_REVOKED reason then Some SHARE_REVOKED_TEXT else None
    else None in
  let detail := opt_else detail ended_by_node in
  let '(reason, detail) :=
    match (if bool_decide (state = JobState_Cancelled) then replaced_end j asked else None) with
    | Some (r, d) => (Some r, d)
    | None => (reason, detail)
    end in
  if cancel_owed && (bool_decide (state = JobState_Interrupted) || bool_decide (state = JobState_Unknown)) then
    (JobState_Cancelled, Some "cancelled",
     Some ("cancelled as asked; the node then reported " +:+ JobState_as_str state +:+ match reason with Some r => "/" +:+ r | None => "" end))
  else (state, reason, detail).

(** ** The handlers *)

Section handlers.
Context (clock : nat → Z) (t : Tuning) (follower_recent : string → bool) (blocked_words : string → string).
Context (digest : Plan → option string).
(** The node, plan and placement record a job moves to, if any. *)
Context (choose : World → ComputeJob → list string → bool → string → option (string * Plan * string)).
(** The text [capped] outputs and a list of artifacts are kept as. *)
Context (outputs_text : Outputs → option string) (artifacts_text : list string → option string).
Context (verify : string → SignedReceipt → option ReceiptClaims).

Definition now : ServerM Z := λ w, (clock (w_tick w), set_tick (S (w_tick w)) w).
Definition node_facts (node : string) : ServerM (option NodeFacts) := λ w, (w_nodes w !! node, w).
Definition node_skew (node : string) : ServerM (option Z) :=
  n ← node_facts node;
  match n with
  | None => mret None
  | Some n =>
    match nf_share_skew n with
    | Some s => mret (Some s)
    | None =>
      match nf_health n with
      | None => mret None
      | Some (at', h_at) =>
        if 0 <? h_at then n ← now; mret (if n - at' <=? 3600 then Some (h_at - at') else None) else mret None
      end
    end
  end.

(** [finalize]: the one message of a job. *)
Definition finalize (id : string) : ServerM unit :=
  j ← job_by_id id;
  match j ≫= (λ j, if job_is_terminal j then cf_shard (ct_fixed (cj_ctl j)) else None) with
  | Some s => effect (Fx_child_ended (sh_parent s))
  | None =>
    j ← job_by_id id;
    match j with
    | None => mret tt
    | Some j =>
      if bool_decide (is_Some (cf_shard (ct_fixed (cj_ctl j)))) then mret tt
      else
        let f := cj_fixed j in
        let queue_timeout := is_state JobState_Failed j && reason_is "queue_timeout" (cj_reason j) in
        let wants := jf_detach f || queue_timeout || (bool_decide (is_Some (jf_session_id f)) && negb (follower_recent id)) in
        let wants := wants && negb (is_state JobState_Cancelled j && ct_cancelled_by_requester (cj_ctl j)) in
        if negb (job_is_terminal j) || negb wants || bool_decide (is_Some (jo_notified_at (cj_out j))) then mret tt
        else n ← now; mark_notified id n;; effect (Fx_message j)
    end
  end.

(** [try_move]: the new node. *)
Definition try_move (j : ComputeJob) (avoid : list string) (hard : bool) (why : string) : ServerM (option string) :=
  match sn_plan (cj_sent j) with
  | None => mret None
  | Some _ => λ w,
    match choose w j avoid hard why with
    | None => (None, w)
    | Some (node, plan, placement) =>
      (let c := cj_ctl j in
       let ctl := mk_JobCtl (ct_fixed c) (ct_queued_at c) (ct_retries_used c) (ct_not_before c) (ct_failed_attempts c)
         (ct_cancelled_by_requester c) (Some placement) (ct_clock c) (ct_reported_late_secs c) (ct_heard_at c) in
       moved ← move_queued_job digest (cj_id j) plan ctl ("moved_" +:+ why);
       if bool_decide (moved = Some true) then
         record_event "controller" "job_move" (Some node) (Some (jf_workspace_id (cj_fixed j))) (Some (cj_id j))
           [("from", V_str (cj_node j)); ("to", V_str node); ("why", V_str why)];;
         kick node;; notify_change;; mret (Some node)
       else mret None) w
    end
  end.

(** *** After an attempt *)

Definition health_count (node : string) (state : JobState) (reason : option string) (n : Z) : ServerM bool := λ w,
  let '(h, aside) := health_record (default NodeHealth_default (w_health w !! node)) state reason n t in
  (aside, set_health (<[node := h]> (w_health w)) w).
Definition attempt_seed (id : string) (attempt : Z) : Z := foldl (λ a b, u64 (u64 (a * 31) + b)) (u64 attempt) (bytes id).
Definition or_text (r : option string) : string := match r with Some r => "/" +:+ r | None => "" end.
Definition tried_text (nodes : gmap string NodeFacts) (a : AttemptNote) : string :=
  default (an_node_id a) (nf_name <$> nodes !! an_node_id a) +:+ " (" +:+ JobState_as_str (an_state a) +:+ or_text (an_reason a) +:+ ")".

Definition ctl_failed (n : AttemptNote) (c : JobCtl) : JobCtl :=
  mk_JobCtl (ct_fixed c) (ct_queued_at c) (ct_retries_used c) (ct_not_before c) (ct_failed_attempts c ++ [n]) (ct_cancelled_by_requester c)
    (ct_placement c) (ct_clock c) (ct_reported_late_secs c) (ct_heard_at c).
Definition ctl_retry (used : Z) (not_before : option Z) (queued_at : Z) (c : JobCtl) : JobCtl :=
  mk_JobCtl (ct_fixed c) queued_at used not_before (ct_failed_attempts c) (ct_cancelled_by_requester c)
    (ct_placement c) (ct_clock c) (ct_reported_late_secs c) (ct_heard_at c).
(** The retries of a job. *)
Definition allowed (j : ComputeJob) : Z :=
  if bool_decide (cj_ctl j = JobCtl_default) && jf_retry_interrupted (cj_fixed j) && is_state JobState_Interrupted j then 1
  else cf_retries (ct_fixed (cj_ctl j)).

Definition retry_attempt (j : ComputeJob) (ctl : JobCtl) (n : Z) : ServerM bool :=
  let used := ct_retries_used ctl + 1 in
  let delay := backoff_secs used t (attempt_seed (cj_id j) (cj_attempt j)) in
  let ctl := ctl_retry used (if 0 <? delay then Some (n + delay) else None) (n + delay) ctl in
  r ← requeue_new_attempt (cj_id j) "retry_backoff";
  match r with
  | None => mret false
  | Some _ =>
    set_job_ctl (cj_id j) ctl;;
    record_event "controller" "job_retry" (Some (cj_node j)) (Some (jf_workspace_id (cj_fixed j))) (Some (cj_id j))
      [("after", V_str (JobState_as_str (cj_state j))); ("reason", v_opt (cj_reason j)); ("retry", V_int used); ("of", V_int (allowed j)); ("delaySecs", V_int delay)];;
    row ← job_by_id (cj_id j);
    match row ≫= (λ r, if bool_decide (is_Some (cf_any (ct_fixed (cj_ctl r)))) then Some r else None) with
    | Some r =>
      moved ← try_move r (an_node_id <$> ct_failed_attempts ctl) true "retry";
      when (bool_decide (moved = None)) (kick (cj_node r))
    | None => kick (cj_node j)
    end;;
    notify_change;; mret true
  end.
Definition exhausted (j : ComputeJob) (ctl : JobCtl) : ServerM bool := λ w,
  (set_job_ctl (cj_id j) ctl;;
   when (0 <? allowed j)
     (let tried := tried_text (w_nodes w) <$> ct_failed_attempts ctl in
      set_job_reason (cj_id j) (cj_reason j)
        (Some ("retries exhausted after " +:+ pretty (zlen (ct_failed_attempts ctl)) +:+ " attempt(s): " +:+ String.concat ", " tried)));;
   mret false) w.
(** Whether the job was queued again. *)
Definition after_attempt (id : string) : ServerM bool :=
  n ← now;
  j ← job_by_id id;
  match j with
  | None => mret false
  | Some j =>
    let reason := cj_reason j in
    aside ← health_count (cj_node j) (cj_state j) reason n;
    when aside (record_event "controller" "node_set_aside" (Some (cj_node j)) None (Some (cj_id j))
      [("for_secs", V_int (tg_quarantine_secs t)); ("after", V_int (tg_quarantine_after t)); ("last", v_opt reason)]);;
    if negb (is_infra (cj_state j) reason) then mret false
    else if bool_decide (cf_any (ct_fixed (cj_ctl j)) = None) && retry_elsewhere_only reason then mret false
    else
      let ctl := ctl_failed (mk_AttemptNote (cj_attempt j) (cj_node j) (cj_state j) reason n) (cj_ctl j) in
      if allowed j <=? ct_retries_used ctl then exhausted j ctl else retry_attempt j ctl n
  end.

(** *** A job given back *)

Definition fail_waiting (j : ComputeJob) (where_ : string) (n : Z) : ServerM unit :=
  let detail := "not started within " +:+ duration (default 0 (cf_queue_timeout_secs (ct_fixed (cj_ctl j)))) +:+ " (it waited in " +:+ where_ +:+ "queue"
    +:+ match nq_blocked_by (cj_nodeq j) with Some b => ": " +:+ blocked_words b | None => "" end +:+ ")" in
  set_job_state (cj_id j) JobState_Failed (Some "queue_timeout") (Some detail) n;;
  clear_node_queued (cj_id j);;
  record_event "controller" "job_queue_timeout" (Some (cj_node j)) (Some (jf_workspace_id (cj_fixed j))) (Some (cj_id j)) [("nodeQueued", V_bool true)].
Definition generation_detail (j : ComputeJob) : list (string * Val) :=
  [("generation", V_int (cj_generation j)); ("newGeneration", V_int (cj_generation j + 1))].

(** [j] is the row as [apply_observation] read it. *)
Definition given_back_job (node : string) (j : ComputeJob) : ServerM unit :=
  n ← now;
  if reason_is pending_TIMEOUT (cj_reason j) then
    fail_waiting j "the node's " n;; finalize (cj_id j);; notify_change
  else if reason_is pending_RESEND (cj_reason j) then
    ok ← requeue_new_generation (cj_id j) (cj_generation j) RESENT;
    if negb (bool_decide (ok = Some true)) then mret tt
    else
      record_event "controller" "resend" (Some node) (Some (jf_workspace_id (cj_fixed j))) (Some (cj_id j)) (generation_detail j);;
      kick node;; notify_change
  else
    ok ← requeue_new_generation (cj_id j) (cj_generation j) codes_WITHDRAWN;
    if negb (bool_decide (ok = Some true)) then mret tt
    else
      record_event "controller" "withdraw" (Some node) (Some (jf_workspace_id (cj_fixed j))) (Some (cj_id j)) (generation_detail j ++ [("asked", v_opt (cj_reason j))]);;
      row ← job_by_id (cj_id j);
      match row ≫= (λ r, if bool_decide (is_Some (cf_any (ct_fixed (cj_ctl r)))) then Some r else None) with
      | Some r =>
        moved ← try_move r [] false codes_WITHDRAWN;
        if bool_decide (is_Some moved) then mret tt else kick node;; notify_change
      | None => kick node;; notify_change
      end.

(** *** An observation *)

(** The node refused the job (lines 1052 to 1078). *)
Definition observe_refused (node : string) (j : ComputeJob) (reason detail : option string) (n : Z) : ServerM unit :=
  let asked := cj_reason j in
  let id := cj_id j in
  if reason_is CANCEL_REQUESTED asked || reason_is pending_CANCEL asked then
    let '(end_, end_detail) := default ("cancelled", None) (replaced_end j asked) in
    set_job_state id JobState_Cancelled (Some end_) end_detail n;;
    record_event "node" "job_end" (Some node) (Some (jf_workspace_id (cj_fixed j))) (Some id)
      [("state", V_str "cancelled"); ("reason", V_str end_); ("refused", v_opt reason)];;
    finalize id
  else
    set_job_state id JobState_Queued reason detail n;;
    clear_node_queued id.

(** The rest: a start, a step or an end. *)
Definition observe_progress (node : string) (j : ComputeJob) (state : JobState) (reason detail : option string)
    (exit : option ExitInfo) (src : option SrcRan) (times : NodeTimes) (n : Z) : ServerM unit :=
  let id := cj_id j in
  let ws := Some (jf_workspace_id (cj_fixed j)) in
  let asked := cj_reason j in
  when (nq_queued (cj_nodeq j)) (clear_node_queued id);;
  when (reason_is pending_CANCEL asked && negb (is_terminal state))
    (record_event "node" "job_cancel_lost" (Some node) ws (Some id) [("state", V_str (JobState_as_str state))]);;
  let cancel_owed := reason_is CANCEL_REQUESTED asked in
  let '(state, reason, detail) := settle j state reason detail in
  skew ← match nt_at times with
         | Some _ => if bool_decide (state = JobState_Running) || is_terminal state then node_skew node else mret None
         | None => mret None
         end;
  let s := stamp_of j state times n skew in
  when (bool_decide (is_Some (sp_started s))) (set_job_times id (sp_started s) None);;
  set_job_state id state reason detail (sp_at s);;
  when (bool_decide (sp_ctl s ≠ cj_ctl j)) (set_job_ctl id (sp_ctl s);; mret tt);;
  when (bool_decide (state = JobState_Running) && bool_decide (tm_started_at (cj_times j) = None))
    (record_event "node" "job_start" (Some node) ws (Some id) [("attempt", V_int (cj_attempt j)); ("at", V_int (sp_at s))]);;
  match src with Some x => set_job_src id (sra_commit x) (sra_tree x) | None => mret tt end;;
  match exit with Some x => set_job_exit id (ex_code x) (ex_signal x) | None => mret tt end;;
  if negb (is_terminal state) then mret tt
  else
    (λ w, let '(last, lg) := copy_last_seq id (cj_generation j) (w_logs w) in set_job_log id last 0 (set_logs lg w));;
    record_event "node" "job_end" (Some node) ws (Some id)
      [("state", V_str (JobState_as_str state)); ("reason", v_opt reason); ("exit", match exit ≫= ex_code with Some c => V_int c | None => V_null end)];;
    again ← if cancel_owed then mret false else after_attempt id;
    if (again : bool) then mret tt else finalize id.

Definition given_back (asked reason : option string) : bool :=
  (reason_is codes_WITHDRAWN reason || reason_is codes_SUPERSEDED reason)
  || (reason_is pending_WITHDRAW asked || reason_is pending_TIMEOUT asked || reason_is pending_RESEND asked).

Definition apply_observation (node id : string) (generation : Z) (state : JobState) (reason detail : option string)
    (exit : option ExitInfo) (src : option SrcRan) (queue : option QueuePos) (times : NodeTimes) : ServerM unit :=
  j ← job_by_id id;
  match j with
  | None => mret tt
  | Some j =>
    if negb (bool_decide (cj_node j = node)) || negb (cj_generation j =? generation) then mret tt
    else if job_is_terminal j then mret tt
    else
      n ← now;
      let asked := cj_reason j in
      if bool_decide (state = JobState_Queued) && reason_is codes_NODE_QUEUED reason then
        let keep := reason_is CANCEL_REQUESTED asked || pending_any asked in
        mark_node_queued id (cj_generation j) queue (if keep then None else Some codes_NODE_QUEUED) n;; mret tt
      else
        let user_cancel := reason_is CANCEL_REQUESTED asked || reason_is pending_CANCEL asked in
        if bool_decide (state = JobState_Cancelled) && given_back asked reason && negb user_cancel then given_back_job node j
        else if bool_decide (state = JobState_Queued) then observe_refused node j reason detail n
        else observe_progress node j state reason detail exit src times n
  end.

(** *** Frames *)

Definition store_outputs (node id : string) (generation : Z) (o : Outputs) : ServerM unit :=
  j ← job_by_id id;
  match j with
  | None => mret tt
  | Some j =>
    if negb (bool_decide (cj_node j = node)) || negb (cj_generation j =? generation) then mret tt
    else match outputs_text o with Some text => set_job_outputs id generation text | None => mret tt end
  end.

Definition on_state (node : string) (s : StateUpdate) : ServerM unit :=
  match su_outputs s with
  | Some o => when (is_terminal (su_state s)) (store_outputs node (su_job_id s) (su_generation s) o)
  | None => mret tt
  end;;
  apply_observation node (su_job_id s) (su_generation s) (su_state s) (su_reason s) (su_detail s) (su_exit s) (su_src s) (su_queue s)
    (mk_NodeTimes (Some (su_at s)) None);;
  when (is_terminal (su_state s)) (effect (Fx_disarm (su_job_id s) (su_generation s));; kick node);;
  notify_change.

Definition stop_stale (node : string) (j : LedgerJob) : ServerM unit :=
  if is_terminal (lj_state j) then mret tt
  else
    row ← job_by_id (lj_job_id j);
    let stale := match row with
      | Some r => (lj_generation j <? u32 (cj_generation r)) || negb (bool_decide (cj_node r = node))
          || ((u32 (cj_generation r) =? lj_generation j) && job_is_terminal r)
      | None => false
      end in
    when stale (send_cancel node (lj_job_id j) (lj_generation j) codes_SUPERSEDED;; mret tt).

Fixpoint snapshot_rows (node : string) (jobs : list LedgerJob) : ServerM unit :=
  match jobs with
  | [] => mret tt
  | j :: jobs =>
    stop_stale node j;;
    apply_observation node (lj_job_id j) (lj_generation j) (lj_state j) (lj_reason j) None (lj_exit j) None None
      (mk_NodeTimes (if is_terminal (lj_state j) then lj_ended_at j else lj_started_at j) (lj_started_at j));;
    snapshot_rows node jobs
  end.
(** The rows the node doesn't have: which become [unknown]. *)
Fixpoint snapshot_lost (node : string) (seen : list (string * Z)) (rows : list ComputeJob) : ServerM (list string) :=
  match rows with
  | [] => mret []
  | j :: rows =>
    let unseen := negb (bool_decide ((cj_id j, cj_generation j) ∈ seen)) in
    if unseen && nq_queued (cj_nodeq j) then
      ok ← requeue_new_generation (cj_id j) (cj_generation j) "not_on_node";
      when (bool_decide (ok = Some true))
        (record_event "controller" "job_requeue" (Some node) (Some (jf_workspace_id (cj_fixed j))) (Some (cj_id j)) [("why", V_str "not_on_node"); ("nodeQueued", V_bool true)]);;
      snapshot_lost node seen rows
    else if unseen then
      n ← now;
      set_job_state (cj_id j) JobState_Unknown (Some "not_on_node") None n;;
      record_event "controller" "job_unknown" (Some node) (Some (jf_workspace_id (cj_fixed j))) (Some (cj_id j)) [];;
      lost ← snapshot_lost node seen rows;
      mret (cj_id j :: lost)
    else snapshot_lost node seen rows
  end.
Fixpoint end_lost (lost : list string) : ServerM unit :=
  match lost with
  | [] => mret tt
  | id :: lost => again ← after_attempt id; when (negb again) (finalize id);; end_lost lost
  end.
(** [seen] is the connection's, over the pages. *)
Definition on_snapshot (node : string) (s : JobsSnapshot) (seen : list (string * Z)) : ServerM (list (string * Z)) :=
  let seen := seen ++ ((λ j, (lj_job_id j, lj_generation j)) <$> js_jobs s) in
  snapshot_rows node (js_jobs s);;
  if negb (js_last s) then mret seen
  else
    rows ← jobs_in_states node active;
    lost ← snapshot_lost node seen rows;
    end_lost lost;;
    kick node;; notify_change;; mret [].

Definition on_receipt (node id : string) (generation : Z) (receipt : SignedReceipt) : ServerM unit :=
  j ← job_by_id id;
  match j with
  | None => mret tt
  | Some j =>
    if negb (bool_decide (cj_node j = node)) || negb (cj_generation j =? generation) then mret tt
    else
      n ← node_facts node;
      match n with
      | None => mret tt
      | Some n =>
        let claims := verify (nf_key n) receipt in
        let ok := match claims with
          | Some c => bool_decide (rc_job_id c = cj_id j) && (rc_generation c =? generation) && bool_decide (rc_plan_digest c = sn_plan_digest (cj_sent j))
          | None => false
          end in
        set_job_receipt (cj_id j) receipt ok;;
        when (ok && bool_decide (jo_summary_json (cj_out j) = None))
          (match claims with
           | Some c =>
             if bool_decide (rc_artifacts c = []) then mret tt
             else match artifacts_text (rc_artifacts c) with Some text => set_job_outputs (cj_id j) (cj_generation j) text | None => mret tt end
           | None => mret tt
           end);;
        notify_change
      end
  end.

(** *** People *)

Inductive Cancelled := Cancel_queued | Cancel_sent (sent : bool) | Cancel_asked (sent : bool).
Inductive CancelError := Cancel_not_found | Cancel_already_ended | Cancel_job_started | Cancel_internal.
Definition ctl_by_requester (c : JobCtl) : JobCtl :=
  mk_JobCtl (ct_fixed c) (ct_queued_at c) (ct_retries_used c) (ct_not_before c) (ct_failed_attempts c) true
    (ct_placement c) (ct_clock c) (ct_reported_late_secs c) (ct_heard_at c).
Definition cancel_event (by' : string) (j : ComputeJob) (detail : list (string * Val)) : ServerM unit :=
  record_event by' "job_cancel" (Some (cj_node j)) (Some (jf_workspace_id (cj_fixed j))) (Some (cj_id j)) detail.

(** On the node, [j] as the second read has it. *)
Definition cancel_on_node (by' : string) (queued_only : bool) (j : ComputeJob) : ServerM (Result Cancelled CancelError) :=
  if queued_only && nq_queued (cj_nodeq j) && negb (reason_is CANCEL_REQUESTED (cj_reason j)) then
    sent ← if reason_is pending_CANCEL (cj_reason j) then mret true else send_cancel (cj_node j) (cj_id j) (cj_generation j) CANCEL_IF_QUEUED;
    set_job_reason (cj_id j) (Some pending_CANCEL) None;;
    cancel_event by' j [("state", V_str "queued"); ("onNode", V_bool true); ("sent", V_bool sent); ("by", V_str by'); ("force", V_bool false)];;
    mret (Ok (Cancel_asked sent))
  else if queued_only then mret (Err Cancel_job_started)
  else
    sent ← send_cancel (cj_node j) (cj_id j) (cj_generation j) "cancelled";
    set_job_reason (cj_id j) (Some CANCEL_REQUESTED) None;;
    cancel_event by' j [("state", V_str (JobState_as_str (cj_state j))); ("sent", V_bool sent); ("by", V_str by'); ("force", V_bool true)];;
    mret (Ok (Cancel_sent sent)).
(** The decision of [cancel_one], under the placement lock. *)
Definition cancel_decide (by' id : string) (queued_only : bool) : ServerM (Result Cancelled CancelError) :=
  j ← job_by_id id;
  match j with
  | None => mret (Err Cancel_not_found)
  | Some j =>
    if job_is_terminal j then mret (Err Cancel_already_ended)
    else
      noted ← if bool_decide (by' = jf_requested_by (cj_fixed j)) && negb (ct_cancelled_by_requester (cj_ctl j))
              then set_job_ctl id (ctl_by_requester (cj_ctl j)) else mret (Some true);
      if bool_decide (noted = None) then mret (Err Cancel_internal)
      else
        done ← if is_state JobState_Queued j then n ← now; cancel_if_queued id n else mret (Some false);
        match done with
        | None => mret (Err Cancel_internal)
        | Some true =>
          cancel_event by' j [("state", V_str "queued"); ("by", V_str by'); ("force", V_bool (negb queued_only))];;
          mret (Ok Cancel_queued)
        | Some false =>
          j ← job_by_id id;
          match j with None => mret (Err Cancel_not_found) | Some j => cancel_on_node by' queued_only j end
        end
  end.
Definition cancel_one (by' id : string) (queued_only : bool) : ServerM (Result Cancelled CancelError) :=
  r ← cancel_decide by' id queued_only;
  match r with
  | Err e => mret (Err e)
  | Ok c => match c with Cancel_queued => finalize id | _ => mret tt end;; notify_change;; mret (Ok c)
  end.

(** [retry_one], on a job whose node may run it: a new attempt by hand. *)
Definition retry_one (by' : string) (j : ComputeJob) : ServerM (option ComputeJob) :=
  r ← requeue_new_attempt (cj_id j) "retry";
  match r with
  | None => mret None
  | Some r =>
    n ← now;
    set_job_ctl (cj_id r) (ctl_retry 0 None n (cj_ctl r));;
    r' ← job_by_id (cj_id r);
    let r := default r r' in
    record_event by' "job_retry" (Some (cj_node j)) (Some (jf_workspace_id (cj_fixed j))) (Some (cj_id j)) [("generation", V_int (cj_generation r))];;
    kick (cj_node r);; notify_change;; mret (Some r)
  end.

(** *** A lost node *)

(** [requeue_lost], on the row as [sweep] read it. *)
Definition requeue_lost (j : ComputeJob) (node_name : string) (mins n : Z) : ServerM unit :=
  if reason_is pending_CANCEL (cj_reason j) then
    set_job_state (cj_id j) JobState_Cancelled (Some "cancelled") None n;; clear_node_queued (cj_id j);; finalize (cj_id j)
  else if reason_is pending_TIMEOUT (cj_reason j) then
    fail_waiting j (node_name +:+ "'s ") n;; finalize (cj_id j)
  else
    ok ← requeue_new_generation (cj_id j) (cj_generation j) "node_lost";
    if negb (bool_decide (ok = Some true)) then mret tt
    else
      record_event "controller" "job_requeue" (Some (cj_node j)) (Some (jf_workspace_id (cj_fixed j))) (Some (cj_id j))
        [("why", V_str "node_lost"); ("nodeQueued", V_bool true); ("offlineMins", V_int mins); ("newGeneration", V_int (cj_generation j + 1))];;
      row ← job_by_id (cj_id j);
      match row ≫= (λ r, if bool_decide (is_Some (cf_any (ct_fixed (cj_ctl r)))) then Some r else None) with
      | Some r => try_move r [] true "node_lost";; mret tt
      | None => mret tt
      end;;
      notify_change.
(** The turn of [sweep] for an active job whose node is gone too long. *)
Definition lose_job (j : ComputeJob) (node_name : string) (mins n : Z) : ServerM unit :=
  if nq_queued (cj_nodeq j) && negb (reason_is CANCEL_REQUESTED (cj_reason j)) then requeue_lost j node_name mins n
  else
    let detail := node_name +:+ " has been offline for " +:+ pretty mins +:+ " min; if it comes back, it is told to stop this attempt" in
    let cancel_owed := reason_is CANCEL_REQUESTED (cj_reason j) in
    (if cancel_owed then set_job_state (cj_id j) JobState_Cancelled (Some "cancelled") (Some ("cancelled as asked; " +:+ detail)) n
     else set_job_state (cj_id j) JobState_Interrupted (Some "node_lost") (Some detail) n);;
    record_event "controller" "job_lost" (Some (cj_node j)) (Some (jf_workspace_id (cj_fixed j))) (Some (cj_id j)) [("offlineMins", V_int mins)];;
    again ← if cancel_owed then mret false else after_attempt (cj_id j);
    if (again : bool) then mret tt else finalize (cj_id j).

End handlers.
