(* ===== verification/JobSweep.v ===== *)
(** * JobSweep: what time and the server do to its jobs

    The rest of what changes a job's row: the passes of the ticker ([sweep]
    of [crates/k2-daemon/src/compute_place.rs]), placement ([kick] of
    [compute_ws.rs]), re-sends, a newer job that replaces older ones and a
    node's removal ([compute_routes.rs]), the list of allowed nodes
    ([compute_allow.rs]) and a node's attach and detach.

    What a scheduler decides ([decision_for], [shared_pass], [choose_by]) is
    an argument; what is done with it is here.  Lists are read once and gone
    through row by row, as the code does. *)

From S2P Require Import Prelude Share Refusal QueueSim SoloSched JobFrames Ledger FairQ NodeQueue Retry Journal LogCopy Allow JobTable JobLife.
From stdpp Require Import pretty.
Open Scope Z_scope.

(** ** Withdraws: [share::may_withdraw] *)

Definition WITHDRAW_AGAIN_SECS : Z := 300.
Definition MAX_WITHDRAWS : Z := 2.
Definition may_withdraw (withdraws : Z) (withdrawn_at : option Z) (now : Z) : bool :=
  (withdraws <? MAX_WITHDRAWS) && match withdrawn_at with Some t => WITHDRAW_AGAIN_SECS <=? now - t | None => true end.

Definition CACHE_QUEUE_SECS : Z := 900.
Definition QUEUED_FOR_CACHE : string := "queued_for_cache".
Definition NODE_NOT_ALLOWED : string := "node_not_allowed".

(** Since when the job waits. *)
Definition waits_since (j : ComputeJob) : Z :=
  if 0 <? ct_queued_at (cj_ctl j) then ct_queued_at (cj_ctl j) else jf_created_at (cj_fixed j).

(** The reasons of a node that is only busy ([leave_reason]). *)
Definition busy_codes : list string :=
  [refusal_PARALLEL_FULL; refusal_EXCLUSIVE_RUNNING; refusal_WAITING_FOR_IDLE; refusal_LOCAL_RESOURCE_LIMIT; GRANT_PARALLEL_FULL;
   "next_in_turn"; "behind_older_job"; "retry_backoff"; "any_hold"; codes_TENANT_QUEUE_FULL; codes_FAIR_SHARE_WAIT; secret_ISOLATION_WAIT].
(** What a scheduler says of a node's queue: the job it places, and why
    another waits; [SharedPass] of a shared node. *)
Record NodeDecision := mk_NodeDecision { dc_place : option string; dc_waiting : list (string * Refusal) }.
Record SharedPass := mk_SharedPass { sp_send : list string; sp_fail : list (string * Refusal); sp_waiting : list (string * Refusal) }.
Definition why_waiting (d : NodeDecision) (id : string) : option Refusal := snd <$> List.find (λ x, bool_decide (x.1 = id)) (dc_waiting d).

Definition with_replaced_by (by' : string) (requester : bool) (c : JobCtl) : JobCtl :=
  let f := ct_fixed c in
  mk_JobCtl (mk_CtlFixed (cf_any f) (cf_admin f) (cf_timeout_secs f) (cf_queue_timeout_secs f) (cf_retries f) (cf_stall_secs f) (cf_shard f) (cf_shards f)
      (cf_secrets f) (Some by') (cf_repo f) (cf_why f) (cf_mem_defaulted f) (cf_effective f) (cf_tag f) (cf_cpu_hints f) (cf_stall_warned_gen f))
    (ct_queued_at c) (ct_retries_used c) (ct_not_before c) (ct_failed_attempts c) (ct_cancelled_by_requester c || requester)
    (ct_placement c) (ct_clock c) (ct_reported_late_secs c) (ct_heard_at c).

Inductive SendOutcome := As_lost | As_sent | As_closed.
#[export] Instance SendOutcome_eq_dec : EqDecision SendOutcome.
Proof. solve_decision. Defined.

Section sweep.
Context (clock : nat → Z) (t : Tuning) (follower_recent : string → bool) (blocked_words : string → string).
Context (digest : Plan → option string).
Context (choose : World → ComputeJob → list string → bool → string → option (string * Plan * string)).
Context `{J : JsonIds}.
(** Whether another node would start it now; the code of a placement's
    record; whether a filter's [avoid] names a node. *)
Context (starts_elsewhere : World → ComputeJob → bool) (placement_code : string → string) (avoids : string → string → bool).
(** The scheduler's view of a node; whether its offer says it is shared, and
    then the pass. *)
Context (decision_for : World → string → NodeDecision) (is_shared : World → string → bool) (shared_pass : World → string → SharedPass).
(** What the node's offer lacks for a job; the plan as the node takes it. *)
Context (feature_wait : World → ComputeJob → option Refusal) (fit_plan : World → ComputeJob → Plan → Plan).
Context (ws_handle : string → string).

Definition nowM : ServerM Z := now clock.
Definition finish_job (id : string) : ServerM unit := finalize clock follower_recent id.
Fixpoint finish_all (ids : list string) : ServerM unit :=
  match ids with [] => mret tt | id :: ids => finish_job id;; finish_all ids end.
Definition list_nodes : ServerM (gmap string NodeFacts) := λ w,
  match w_faults w with
  | true :: faults => (∅, set_rows (w_rows w) faults w)
  | faults => (w_nodes w, set_rows (w_rows w) (tail faults) w)
  end.
Definition looks {A} (f : World → A) : ServerM A := λ w, (f w, w).
Definition queued_since_cache (j : ComputeJob) (since n : Z) : bool :=
  match ct_placement (cj_ctl j) with Some p => bool_decide (placement_code p = QUEUED_FOR_CACHE) | None => false end && (n - since <? CACHE_QUEUE_SECS).
Definition offline_since (f : NodeFacts) (awake : Z) : Z := Z.max (nf_seen f) awake.
(** The deadline of [--queue-timeout]; after this machine wakes, nodes get a
    moment to reconnect first. *)
Definition timed_out (j : ComputeJob) (n awake : Z) : bool :=
  match cf_queue_timeout_secs (ct_fixed (cj_ctl j)) with
  | Some limit => (0 <? limit) && (limit <=? n - waits_since j) && (2 * tg_replace_after_secs t <=? n - awake)
  | None => false
  end.

(** ** The sweep *)

(** The turn for running work, gone when its node is for [node_lost_secs]. *)
Definition sweep_lost_one (nodes : gmap string NodeFacts) (n awake : Z) (j : ComputeJob) : ServerM unit :=
  match nodes !! cj_node j with
  | None => mret tt
  | Some f =>
    up ← is_online (cj_node j);
    if (up : bool) || (n - offline_since f awake <? tg_node_lost_secs t) then mret tt
    else lose_job clock t follower_recent blocked_words digest choose j (nf_name f) ((n - offline_since f awake) / 60) n
  end.
Fixpoint sweep_lost (nodes : gmap string NodeFacts) (n awake : Z) (rows : list ComputeJob) : ServerM unit :=
  match rows with [] => mret tt | j :: rows => sweep_lost_one nodes n awake j;; sweep_lost nodes n awake rows end.

(** The turn of [sweep_node_queued] for a job in a node's queue. *)
Definition sweep_held_one (f : NodeFacts) (n awake : Z) (j : ComputeJob) : ServerM unit :=
  let id := cj_id j in
  up ← is_online (cj_node j);
  if pending_any (cj_reason j) || reason_is CANCEL_REQUESTED (cj_reason j) then mret tt
  else if timed_out j n awake then
    if negb up then fail_waiting blocked_words j (nf_name f +:+ "'s ") n;; finish_job id
    else set_job_reason id (Some pending_TIMEOUT) (st_detail (cj_status j));; send_cancel (cj_node j) id (cj_generation j) CANCEL_WITHDRAW;; mret tt
  else if bool_decide (cf_any (ct_fixed (cj_ctl j)) = None) || negb up || negb (may_withdraw (cj_withdraws j) (cj_withdrawn_at j) n)
      || queued_since_cache j (waits_since j) n then mret tt
  else if bool_decide (sn_plan (cj_sent j) = None) then mret tt
  else
    elsewhere ← looks (λ w, starts_elsewhere w j);
    if negb elsewhere then mret tt
    else
      set_job_reason id (Some pending_WITHDRAW) None;;
      note_withdraw id n;;
      record_event "controller" "withdraw_asked" (Some (cj_node j)) (Some (jf_workspace_id (cj_fixed j))) (Some id)
        [("generation", V_int (cj_generation j)); ("withdraws", V_int (cj_withdraws j + 1))];;
      sent ← send_cancel (cj_node j) id (cj_generation j) CANCEL_WITHDRAW;
      when (negb sent) (set_job_reason id (Some codes_NODE_QUEUED) None).
Definition sweep_held_row (nodes : gmap string NodeFacts) (n awake : Z) (j : ComputeJob) : ServerM unit :=
  match nodes !! cj_node j with None => mret tt | Some f => sweep_held_one f n awake j end.
Fixpoint sweep_held (nodes : gmap string NodeFacts) (n awake : Z) (rows : list ComputeJob) : ServerM unit :=
  match rows with [] => mret tt | j :: rows => sweep_held_row nodes n awake j;; sweep_held nodes n awake rows end.

(** Why a queued job should leave its node, and whether for any other: the
    decisions asked for so far are kept. *)
Definition leave_reason (j : ComputeJob) (node : option NodeFacts) (decisions : gmap string NodeDecision) (n awake : Z) :
    ServerM (option (string * bool) * gmap string NodeDecision) :=
  let id := cj_node j in
  match node with
  | None => mret (Some ("node_removed", true), decisions)
  | Some f =>
    if negb (bool_decide (nf_state f = "active")) then mret (Some ("node_removed", true), decisions)
    else
      aside ← looks (λ w, match w_health w !! id with Some h => is_set_aside h n | None => false end);
      if (aside : bool) then mret (Some ("node_set_aside", true), decisions)
      else if bool_decide (is_Some (nf_pause f)) then mret (Some (CONTROLLER_PAUSED, true), decisions)
      else if match cf_any (ct_fixed (cj_ctl j)) with Some x => avoids x id | None => false end then mret (Some ("node_avoided", true), decisions)
      else
        up ← is_online id;
        if negb up then mret (if tg_replace_after_secs t <=? n - offline_since f awake then Some ("node_offline", true) else None, decisions)
        else
          d ← match decisions !! id with Some d => mret d | None => looks (λ w, decision_for w id) end;
          let decisions := <[id := d]> decisions in
          mret (match why_waiting d (cj_id j) with
                | None => None
                | Some why => if bool_decide (rf_code why ∈ busy_codes) then Some ("node_busy", false) else Some ("node_refused", true)
                end, decisions)
  end.
Definition fail_queued (nodes : gmap string NodeFacts) (j : ComputeJob) (n : Z) : ServerM bool :=
  let since := waits_since j in
  let last := default "waiting" (cj_reason j) in
  let node := default "" (nf_name <$> nodes !! cj_node j) in
  let detail := "not started within " +:+ duration (default 0 (cf_queue_timeout_secs (ct_fixed (cj_ctl j)))) +:+ " (last wait on " +:+ node +:+ ": " +:+ last
    +:+ match st_detail (cj_status j) with Some d => ": " +:+ d | None => "" end +:+ ")" in
  ok ← set_job_state_if (cj_id j) JobState_Queued JobState_Failed (Some "queue_timeout") (Some detail) n;
  if negb (bool_decide (ok = Some true)) then mret false
  else
    record_event "controller" "job_queue_timeout" (Some (cj_node j)) (Some (jf_workspace_id (cj_fixed j))) (Some (cj_id j)) [("waitedSecs", V_int (n - since))];;
    finish_job (cj_id j);; mret true.
(** The turn for a job queued on this server: what changed, and the decisions
    kept. *)
Definition sweep_queued_one (nodes : gmap string NodeFacts) (n awake : Z) (j : ComputeJob) (decisions : gmap string NodeDecision) :
    ServerM (bool * gmap string NodeDecision) :=
  if timed_out j n awake then changed ← fail_queued nodes j n; mret (changed, decisions)
  else if match ct_not_before (cj_ctl j) with Some nb => n <? nb | None => false end || bool_decide (cf_any (ct_fixed (cj_ctl j)) = None) then mret (false, decisions)
  else
    why ← leave_reason j (nodes !! cj_node j) decisions n awake;
    match why with
    | (None, decisions) => mret (false, decisions)
    | (Some (why, hard), decisions) =>
      if negb hard && queued_since_cache j (waits_since j) n then mret (false, decisions)
      else
        moved ← try_move digest choose j [] hard why;
        if bool_decide (is_Some moved) then mret (true, ∅) else mret (false, decisions)
    end.
Fixpoint sweep_queued (nodes : gmap string NodeFacts) (n awake : Z) (rows : list ComputeJob) (decisions : gmap string NodeDecision) (changed : bool) : ServerM bool :=
  match rows with
  | [] => mret changed
  | j :: rows =>
    r ← sweep_queued_one nodes n awake j decisions;
    sweep_queued nodes n awake rows r.2 (changed || r.1)
  end.
(** The pass when nothing comes between its sections: each list is read under
    the lock, and the lock taken again for each row ([JobTurns] has the pass
    in its sections, and the handlers between them). *)
Definition sweep (n awake : Z) : ServerM unit :=
  nodes ← list_nodes;
  rows ← active_jobs;
  sweep_lost nodes n awake rows;;
  rows ← node_queued_jobs;
  sweep_held nodes n awake rows;;
  rows ← queued_jobs;
  changed ← sweep_queued nodes n awake rows ∅ false;
  when changed notify_change.

(** ** The list of allowed nodes *)

Definition permit_of (ws : string) : ServerM Permit := λ w,
  match w_faults w with
  | true :: faults => (allow_permit false (w_settings w) ws, set_rows (w_rows w) faults w)
  | faults => (allow_permit true (w_settings w) ws, set_rows (w_rows w) (tail faults) w)
  end.
Definition off_list_detail (node ws : string) : string :=
  "'" +:+ node +:+ "' is no longer on workspace " +:+ ws +:+ "'s compute node list, so this job never started there. "
  +:+ "Run it again: K2 places it on a node on the list (k2 compute allow-nodes)".
Fixpoint fail_off_list (n : Z) (permits : gmap string Permit) (rows : list ComputeJob) : ServerM (list string) :=
  match rows with
  | [] => mret []
  | j :: rows =>
    let ws := jf_workspace_id (cj_fixed j) in
    permit ← match permits !! ws with Some p => mret p | None => permit_of ws end;
    let permits := <[ws := permit]> permits in
    if Permit_allows permit (cj_node j) then fail_off_list n permits rows
    else
      f ← node_facts (cj_node j);
      let name := match f with Some f => nf_name f | None => cj_node j +:+ " (removed)" end in
      let detail := off_list_detail name (ws_handle ws) in
      ok ← set_job_state_if (cj_id j) JobState_Queued JobState_Failed (Some NODE_NOT_ALLOWED) (Some detail) n;
      if bool_decide (ok = Some true) then
        record_event "controller" "fail" (Some (cj_node j)) (Some ws) (Some (cj_id j)) [("reason", V_str NODE_NOT_ALLOWED); ("detail", V_str detail)];;
        failed ← fail_off_list n permits rows;
        mret (cj_id j :: failed)
      else fail_off_list n permits rows
  end.
(** [sweep_off_list]: of one node or one workspace. *)
Definition of_filter (node ws : option string) (j : ComputeJob) : bool :=
  match node with Some x => bool_decide (cj_node j = x) | None => true end && match ws with Some x => bool_decide (jf_workspace_id (cj_fixed j) = x) | None => true end.
Definition sweep_off_list (node ws : option string) : ServerM unit :=
  rows ← list_jobs (λ j, of_filter node ws j && waits j) 500;
  n ← nowM;
  failed ← fail_off_list n ∅ (List.filter (λ j, is_state JobState_Queued j && non_empty (cj_node j)) rows);
  finish_all failed;;
  when (negb (bool_decide (failed = []))) notify_change.
Fixpoint withdraw_all (rows : list ComputeJob) : ServerM unit :=
  match rows with [] => mret tt | j :: rows => send_cancel (cj_node j) (cj_id j) (cj_generation j) CANCEL_WITHDRAW;; withdraw_all rows end.
Definition withdraw_node_queued_off_list (ws : string) : ServerM unit :=
  permit ← permit_of ws;
  rows ← list_jobs (λ j, of_filter None (Some ws) j && waits j) 500;
  withdraw_all (List.filter (λ j, is_state JobState_Assigned j && nq_queued (cj_nodeq j) && negb (Permit_allows permit (cj_node j))) rows).
(** [set]: [names] is the audit's text of a list. *)
Definition set_allow_list (names : option (list string) → Val) (person passport : bool) (resolve : string → option string) (by' ws : string) (q : AllowReq) :
    ServerM (Result AllowChange AllowError) :=
  from ← looks (λ w, match allow_get true (w_settings w) ws with Ok e => ae_nodes <$> e | Err _ => None end);
  judged ← (λ w, match w_faults w with
    | true :: faults => (allow_judge person passport resolve false (w_settings w) ws q, set_rows (w_rows w) faults w)
    | faults => (allow_judge person passport resolve true (w_settings w) ws q, set_rows (w_rows w) (tail faults) w)
    end);
  match judged with
  | Err e => mret (Err e)
  | Ok judged =>
    n ← nowM;
    r ← (if bool_decide (judged.1 = Change_Same) then mret (Ok tt)
         else λ w, match w_faults w with
           | true :: faults => let '(r, db) := allow_write false (w_settings w) ws judged by' n in (r, set_settings db faults w)
           | faults => let '(r, db) := allow_write true (w_settings w) ws judged by' n in (r, set_settings db (tail faults) w)
           end);
    match r with
    | Err e => mret (Err e)
    | Ok _ =>
      when (negb (bool_decide (judged.1 = Change_Same)))
        (record_event by' "allow_nodes" None (Some ws) None [("from", names from); ("to", names judged.2)];;
         sweep_off_list None (Some ws);; withdraw_node_queued_off_list ws);;
      mret (Ok judged.1)
    end
  end.

(** ** Placement *)

(** The rows that wait take the reason; one over the node's caps fails. *)
Definition wait_mark (j : ComputeJob) (why : Refusal) : ServerM unit :=
  when (is_state JobState_Queued j && negb (bool_decide (cj_reason j = Some (rf_code why)))) (set_job_reason (cj_id j) (Some (rf_code why)) (Some (rf_message why))).
Definition fail_request (node : string) (id : string) (ws : option string) (why : Refusal) (n : Z) : ServerM bool :=
  ok ← set_job_state_if id JobState_Queued JobState_Failed (Some (rf_code why)) (Some (rf_message why)) n;
  if bool_decide (ok = Some true) then
    record_event "controller" "fail" (Some node) ws (Some id) [("reason", V_str (rf_code why)); ("detail", V_str (rf_message why))];; mret true
  else mret false.
Fixpoint mark_waiting (node : string) (waiting : list (string * Refusal)) : ServerM (list string) :=
  match waiting with
  | [] => mret []
  | (id, why) :: waiting =>
    j ← job_by_id id;
    match j with
    | None => mark_waiting node waiting
    | Some j =>
      if is_state JobState_Queued j && bool_decide (rf_code why = EXCEEDS_NODE_CAPS) then
        n ← nowM;
        failed ← fail_request node id (Some (jf_workspace_id (cj_fixed j))) why n;
        rest ← mark_waiting node waiting;
        mret (if (failed : bool) then id :: rest else rest)
      else wait_mark j why;; mark_waiting node waiting
    end
  end.
(** [fit_plan_to]: the row and plan to send. *)
Definition fit_plan_to (j : ComputeJob) (plan : Plan) : ServerM (option (ComputeJob * Plan)) :=
  fitted ← looks (λ w, fit_plan w j plan);
  if bool_decide (fitted = plan) then mret (Some (j, plan))
  else
    ok ← rewrite_queued_plan digest (cj_id j) fitted (cj_ctl j);
    if negb (bool_decide (ok = Some true)) then mret None
    else j ← job_by_id (cj_id j); mret (match j with Some j => Some (j, fitted) | None => None end).
(** Assigned and sent; or not queued any more; or queued again, when the
    connection closed meanwhile. *)
Definition assign_job (node : string) (at' again : ServerM Z) (j : ComputeJob) (detail : list (string * Val)) : ServerM SendOutcome :=
  n ← at';
  ok ← assign_if_queued (cj_id j) n;
  if negb (bool_decide (ok = Some true)) then mret As_lost
  else
    up ← is_online node;
    if (up : bool) then
      effect (Fx_assign node (cj_id j) (cj_generation j));;
      record_event "controller" "assign" (Some node) (Some (jf_workspace_id (cj_fixed j))) (Some (cj_id j)) detail;; mret As_sent
    else n ← again; set_job_state (cj_id j) JobState_Queued (Some "node_offline") None n;; mret As_closed.
Definition kick_solo (node : string) : ServerM unit :=
  d ← looks (λ w, decision_for w node);
  failed ← mark_waiting node (dc_waiting d);
  finish_all failed;;
  when (negb (bool_decide (failed = []))) notify_change;;
  match dc_place d with
  | None => mret tt
  | Some id =>
    j ← job_by_id id;
    match j with
    | None => mret tt
    | Some j =>
      permit ← permit_of (jf_workspace_id (cj_fixed j));
      if negb (Permit_allows permit node) then mret tt
      else match sn_plan (cj_sent j) with
      | None => mret tt
      | Some plan =>
        wait ← looks (λ w, feature_wait w j);
        match wait with
        | Some why => when (negb (bool_decide (cj_reason j = Some (rf_code why)))) (set_job_reason (cj_id j) (Some (rf_code why)) (Some (rf_message why)))
        | None =>
          fitted ← fit_plan_to j plan;
          match fitted with
          | None => mret tt
          | Some (j, _) =>
            sent ← assign_job node nowM nowM j [("generation", V_int (cj_generation j))];
            when (bool_decide (sent = As_sent)) notify_change
          end
        end
      end
    end
  end.
Fixpoint mark_shared (waiting : list (string * Refusal)) : ServerM unit :=
  match waiting with
  | [] => mret tt
  | (id, why) :: waiting => j ← job_by_id id; match j with Some j => wait_mark j why | None => mret tt end;; mark_shared waiting
  end.
Fixpoint fail_shared (node : string) (n : Z) (fail : list (string * Refusal)) : ServerM (list string) :=
  match fail with
  | [] => mret []
  | (id, why) :: fail =>
    ok ← set_job_state_if id JobState_Queued JobState_Failed (Some (rf_code why)) (Some (rf_message why)) n;
    if bool_decide (ok = Some true) then
      j ← job_by_id id;
      record_event "controller" "fail" (Some node) ((λ j, jf_workspace_id (cj_fixed j)) <$> j) (Some id) [("reason", V_str (rf_code why)); ("detail", V_str (rf_message why))];;
      failed ← fail_shared node n fail; mret (id :: failed)
    else fail_shared node n fail
  end.
Definition send_shared_one (node : string) (n : Z) (id : string) : ServerM SendOutcome :=
  j ← job_by_id id;
  match j with
  | None => mret As_lost
  | Some j =>
    permit ← permit_of (jf_workspace_id (cj_fixed j));
    if negb (Permit_allows permit node) then mret As_lost
    else match sn_plan (cj_sent j) with
    | None => mret As_lost
    | Some plan =>
      fitted ← fit_plan_to j plan;
      match fitted with
      | None => mret As_lost
      | Some (j, _) =>
        assign_job node (mret n) (mret n) j [("generation", V_int (cj_generation j)); ("shared", V_bool true); ("class", V_str (jf_class (cj_fixed j)))]
      end
    end
  end.
(** Whether any was sent; [None]: the connection closed. *)
Fixpoint send_shared (node : string) (n : Z) (send : list string) (sent_any : bool) : ServerM (option bool) :=
  match send with
  | [] => mret (Some sent_any)
  | id :: send =>
    sent ← send_shared_one node n id;
    if bool_decide (sent = As_closed) then mret None else send_shared node n send (sent_any || bool_decide (sent = As_sent))
  end.
Definition kick_shared (node : string) : ServerM unit :=
  n ← nowM;
  pass ← looks (λ w, shared_pass w node);
  mark_shared (sp_waiting pass);;
  failed ← fail_shared node n (sp_fail pass);
  finish_all failed;;
  sent ← send_shared node n (sp_send pass) false;
  match sent with
  | None => mret tt
  | Some sent_any => when (sent_any || negb (bool_decide (failed = []))) notify_change
  end.
Definition kick_now (node : string) : ServerM unit :=
  up ← is_online node;
  if negb up then mret tt
  else
    sweep_off_list (Some node) None;;
    shared ← looks (λ w, is_shared w node);
    if (shared : bool) then kick_shared node else kick_solo node.

(** ** Re-sends, replacements, removals *)

Fixpoint resend_all (node : string) (rows : list ComputeJob) : ServerM Z :=
  match rows with
  | [] => mret 0
  | j :: rows =>
    set_job_reason (cj_id j) (Some pending_RESEND) (st_detail (cj_status j));;
    record_event "controller" "resend_asked" (Some node) (Some (jf_workspace_id (cj_fixed j))) (Some (cj_id j)) [("generation", V_int (cj_generation j))];;
    sent ← send_cancel node (cj_id j) (cj_generation j) CANCEL_WITHDRAW;
    asked ← resend_all node rows;
    mret (if (sent : bool) then asked + 1 else asked)
  end.
Definition resend_queued (node ws : string) (only : option (list string)) : ServerM unit :=
  rows ← node_queued_jobs;
  asked ← resend_all node (List.filter (λ j, bool_decide (cj_node j = node) && bool_decide (jf_workspace_id (cj_fixed j) = ws)
    && match only with Some ids => bool_decide (cj_id j ∈ ids) | None => true end
    && negb (pending_any (cj_reason j)) && negb (reason_is CANCEL_REQUESTED (cj_reason j))) rows);
  when (0 <? asked) notify_change.

Definition replaced_event (new : ComputeJob) (key how : string) (j : ComputeJob) : ServerM unit :=
  record_event (jf_requested_by (cj_fixed new)) "job_replaced" (Some (cj_node j)) (Some (jf_workspace_id (cj_fixed j))) (Some (cj_id j))
    [("by", V_str (cj_id new)); ("key", V_str key); ("how", V_str how)].
(** Under the placement lock, on a fresh read: ended here, or asked of the node. *)
Definition supersede_one (new : ComputeJob) (key id : string) : ServerM (option bool) :=
  j ← job_by_id id;
  match j with
  | None => mret None
  | Some j =>
    let ctl := with_replaced_by (cj_id new) (bool_decide (jf_requested_by (cj_fixed j) = jf_requested_by (cj_fixed new))) (cj_ctl j) in
    if is_state JobState_Queued j then
      ok ← set_job_ctl (cj_id j) ctl;
      match ok with
      | None => mret None
      | Some _ =>
        n ← nowM;
        ok ← replace_if_queued (cj_id j) (cj_id new) n;
        if bool_decide (ok = Some true) then replaced_event new key "queued_here" j;; mret (Some true) else mret None
      end
    else if is_state JobState_Assigned j && nq_queued (cj_nodeq j) && negb (pending_any (cj_reason j) || reason_is CANCEL_REQUESTED (cj_reason j)) then
      ok ← set_job_ctl (cj_id j) ctl;
      match ok with
      | None => mret None
      | Some _ =>
        sent ← send_cancel (cj_node j) (cj_id j) (cj_generation j) CANCEL_IF_QUEUED;
        set_job_reason (cj_id j) (Some pending_CANCEL) None;;
        replaced_event new key (if (sent : bool) then "asked_the_node" else "asked_when_the_node_is_back") j;;
        mret (Some false)
      end
    else mret None
  end.
Definition same_run (new old : ComputeJob) : bool :=
  match cf_shard (ct_fixed (cj_ctl new)), cf_shard (ct_fixed (cj_ctl old)) with
  | Some a, Some b => bool_decide (sh_parent a = sh_parent b)
  | _, _ => false
  end.
(** The ids that ended here, and all that were replaced. *)
Fixpoint supersede_each (new : ComputeJob) (key : string) (olds : list ComputeJob) : ServerM (list string * list string) :=
  match olds with
  | [] => mret ([], [])
  | old :: olds =>
    if bool_decide (cj_id old = cj_id new) || same_run new old then supersede_each new key olds
    else
      r ← supersede_one new key (cj_id old);
      rest ← supersede_each new key olds;
      mret (match r with
            | Some true => (cj_id old :: rest.1, cj_id old :: rest.2)
            | Some false => (rest.1, cj_id old :: rest.2)
            | None => rest
            end)
  end.
Definition supersede_older (ws key : string) (new : ComputeJob) : ServerM (list string) :=
  if match cf_shard (ct_fixed (cj_ctl new)) with Some s => negb (sh_index s =? 1) | None => false end then mret []
  else
    olds ← queued_with_supersede_key ws key;
    r ← supersede_each new key olds;
    finish_all r.1;; mret r.2.

(** [revoke_node]: the row, then the node's grants. *)
Definition revoke_node (node : string) : ServerM bool := λ w,
  match w_faults w with
  | true :: faults => (false, set_nodes (w_nodes w) faults w)
  | faults =>
    match w_nodes w !! node with
    | Some f =>
      if bool_decide (nf_state f = "revoked") then (false, set_nodes (w_nodes w) (tail faults) w)
      else
        let nodes := <[node := mk_NodeFacts (nf_name f) (nf_key f) (nf_share_skew f) (nf_health f) "revoked" (nf_pause f) (nf_seen f)]> (w_nodes w) in
        match tail faults with
        | true :: faults => (false, set_nodes nodes faults w)
        | faults => (true, set_nodes nodes (tail faults) w)
        end
    | None => (false, set_nodes (w_nodes w) (tail faults) w)
    end
  end.
Definition set_controller_pause (node : string) (pause : option string) : ServerM bool := λ w,
  match w_faults w with
  | true :: faults => (false, set_nodes (w_nodes w) faults w)
  | faults => (true, set_nodes (alter (λ f, mk_NodeFacts (nf_name f) (nf_key f) (nf_share_skew f) (nf_health f) (nf_state f) pause (nf_seen f)) node (w_nodes w)) (tail faults) w)
  end.
Fixpoint cancel_rows_of (at' : ServerM Z) (why : string) (rows : list ComputeJob) : ServerM unit :=
  match rows with
  | [] => mret tt
  | j :: rows => n ← at'; set_job_state (cj_id j) JobState_Cancelled (Some why) None n;; cancel_rows_of at' why rows
  end.
Definition on_node (s : JobState) : bool := bool_decide (s = JobState_Queued) || active s.
(** [None]: no such node, or a failed statement. *)
Definition remove_now (by' node : string) : ServerM (option Z) :=
  f ← node_facts node;
  ok ← revoke_node node;
  if negb ok then mret None
  else
    rows ← jobs_in_states node on_node;
    cancel_rows_of nowM "node_removed" rows;;
    record_event by' "remove" (Some node) None None [("name", v_opt (nf_name <$> f)); ("jobsCancelled", V_int (zlen rows))];;
    effect (Fx_revoked node);;
    finish_all (cj_id <$> rows);;
    notify_change;; mret (Some (zlen rows)).
(** [marked]: the note in the retiring set was written. *)
Definition node_retire (by' node : string) (marked : bool) : ServerM unit :=
  f ← node_facts node;
  n ← nowM;
  queued ← jobs_in_states node (λ s, bool_decide (s = JobState_Queued));
  cancel_rows_of (mret n) "node_retired" queued;;
  running ← jobs_in_states node active;
  finish_all (cj_id <$> queued);;
  if bool_decide (running = []) then remove_now by' node;; mret tt
  else
    ok ← set_controller_pause node (Some "draining");
    if negb ok then mret tt
    else
      record_event by' "retire" (Some node) None None [("name", v_opt (nf_name <$> f)); ("running", V_int (zlen running)); ("queuedCancelled", V_int (zlen queued))];;
      if negb marked then mret tt else kick node;; notify_change.

(** ** Connections *)

Definition touch_seen_at (node : string) (n : Z) : ServerM unit := λ w,
  match w_faults w with
  | true :: faults => (tt, set_nodes (w_nodes w) faults w)
  | faults => (tt, set_nodes (alter (λ f, mk_NodeFacts (nf_name f) (nf_key f) (nf_share_skew f) (nf_health f) (nf_state f) (nf_pause f) n) node (w_nodes w)) (tail faults) w)
  end.
Definition touch_seen (node : string) : ServerM unit := n ← nowM; touch_seen_at node n.
(** The cancels still owed, repeated to a node that attaches. *)
Definition owed_cancel (j : ComputeJob) : option string :=
  if reason_is CANCEL_REQUESTED (cj_reason j) then Some "cancelled"
  else if reason_is pending_CANCEL (cj_reason j) && nq_queued (cj_nodeq j) then Some CANCEL_IF_QUEUED
  else if (reason_is pending_WITHDRAW (cj_reason j) || reason_is pending_TIMEOUT (cj_reason j) || reason_is pending_RESEND (cj_reason j)) && nq_queued (cj_nodeq j)
    then Some CANCEL_WITHDRAW
  else None.
Fixpoint send_owed (node : string) (rows : list ComputeJob) : ServerM unit :=
  match rows with
  | [] => mret tt
  | j :: rows => match owed_cancel j with Some why => effect (Fx_cancel node (cj_id j) (cj_generation j) why) | None => mret tt end;; send_owed node rows
  end.
(** Where the node resumes each log: [ResumeHint]. *)
Fixpoint resume_hints (rows : list ComputeJob) (lg : Logs) : list (string * Z * Z) * Logs :=
  match rows with
  | [] => ([], lg)
  | j :: rows =>
    let '(last, lg) := copy_last_seq (cj_id j) (cj_generation j) lg in
    let '(hints, lg) := resume_hints rows lg in
    ((cj_id j, u32 (cj_generation j), last) :: hints, lg)
  end.
Definition on_attach (node route version : string) : ServerM (list (string * Z * Z)) :=
  (λ w, (tt, set_online ({[node]} ∪ w_online w) w));;
  touch_seen node;;
  record_event "node" "attach" (Some node) None None [("route", V_str route); ("version", V_str version)];;
  rows ← jobs_in_states node active;
  hints ← (λ w, let '(hints, lg) := resume_hints rows (w_logs w) in (hints, set_logs lg w));
  send_owed node rows;;
  notify_change;; mret hints.
(** [newer]: another connection of the node took its place. *)
Definition on_detach (node why : string) (newer : bool) : ServerM unit :=
  when (negb newer) (λ w, (tt, set_online (w_online w ∖ {[node]}) w));;
  touch_seen node;;
  record_event "node" "detach" (Some node) None None [("why", V_str why)];;
  notify_change.

(** ** Handlers

    What happens to the table besides the sweep, each with its arguments. *)

Context (outputs_text : Outputs → option string) (artifacts_text : list string → option string).
Context (verify : string → SignedReceipt → option ReceiptClaims).

Inductive Act :=
| Act_state (node : string) (s : StateUpdate)
| Act_snapshot (node : string) (s : JobsSnapshot) (seen : list (string * Z))
| Act_receipt (node id : string) (generation : Z) (receipt : SignedReceipt)
| Act_cancel (by' id : string) (queued_only : bool)
| Act_retry (by' id : string)
| Act_kick (node : string)
| Act_resend (node ws : string) (only : option (list string))
| Act_supersede (ws key id : string)
| Act_remove (by' node : string)
| Act_retire (by' node : string) (marked : bool)
| Act_allow (names : option (list string) → Val) (person passport : bool) (resolve : string → option string) (by' ws : string) (q : AllowReq)
| Act_attach (node route version : string)
| Act_detach (node why : string) (newer : bool).
(** [job_retry] reads the row first: one that ended; [job_submit], the new row. *)
Definition act (a : Act) : ServerM unit :=
  match a with
  | Act_state node s => on_state clock t follower_recent blocked_words digest choose outputs_text node s
  | Act_snapshot node s seen => on_snapshot clock t follower_recent blocked_words digest choose node s seen;; mret tt
  | Act_receipt node id generation receipt => on_receipt artifacts_text verify node id generation receipt
  | Act_cancel by' id queued_only => cancel_one clock follower_recent by' id queued_only;; mret tt
  | Act_retry by' id =>
    j ← job_by_id id;
    match j with Some j => if job_is_terminal j then retry_one clock by' j;; mret tt else mret tt | None => mret tt end
  | Act_kick node => kick_now node
  | Act_resend node ws only => resend_queued node ws only
  | Act_supersede ws key id => j ← job_by_id id; match j with Some j => supersede_older ws key j;; mret tt | None => mret tt end
  | Act_remove by' node => remove_now by' node;; mret tt
  | Act_retire by' node marked => node_retire by' node marked
  | Act_allow names person passport resolve by' ws q => set_allow_list names person passport resolve by' ws q;; mret tt
  | Act_attach node route version => on_attach node route version;; mret tt
  | Act_detach node why newer => on_detach node why newer
  end.
Fixpoint acts (l : list Act) : ServerM unit :=
  match l with [] => mret tt | a :: l => act a;; acts l end.

End sweep.
