(* ===== verification/JobTurns.v ===== *)
(** * JobTurns: the ticker's pass between other handlers

    A pass of the sweep ([sweep], [sweep_node_queued] of
    [crates/k2-daemon/src/compute_place.rs]) reads each of its lists under the
    database's lock and lets it go; it takes the lock again for each row, by
    then perhaps changed.  So does a job that a node gives back:
    [apply_observation] reads its row, drops the lock and calls
    [given_back_job] ([compute_ws.rs]).  Here both go section by section, and
    the other handlers may come in between. *)

From S2P Require Import Prelude Share Refusal JobFrames Ledger FairQ NodeQueue Retry Journal LogCopy Allow JobTable JobLife JobSweep.
Open Scope Z_scope.

Section turns.
Context (clock : nat → Z) (t : Tuning) (follower_recent : string → bool) (blocked_words : string → string).
Context (digest : Plan → option string).
Context (choose : World → ComputeJob → list string → bool → string → option (string * Plan * string)).
Context `{J : JsonIds}.
Context (starts_elsewhere : World → ComputeJob → bool) (placement_code : string → string) (avoids : string → string → bool).
Context (decision_for : World → string → NodeDecision) (is_shared : World → string → bool) (shared_pass : World → string → SharedPass).
Context (feature_wait : World → ComputeJob → option Refusal) (fit_plan : World → ComputeJob → Plan → Plan).
Context (ws_handle : string → string).
Context (outputs_text : Outputs → option string) (artifacts_text : list string → option string).
Context (verify : string → SignedReceipt → option ReceiptClaims).

(** ** The pass, section by section *)

(** Where it stands, and the rows it read and has not come to. *)
Inductive SweepAt :=
| Sw_nodes
| Sw_active (nodes : gmap string NodeFacts)
| Sw_lost (nodes : gmap string NodeFacts) (rows : list ComputeJob)
| Sw_held (nodes : gmap string NodeFacts) (rows : list ComputeJob)
| Sw_queued (nodes : gmap string NodeFacts) (rows : list ComputeJob) (decisions : gmap string NodeDecision) (changed : bool).

Definition sweep_turn (n awake : Z) (at' : SweepAt) : ServerM (option SweepAt) :=
  match at' with
  | Sw_nodes => nodes ← list_nodes; mret (Some (Sw_active nodes))
  | Sw_active nodes => rows ← active_jobs; mret (Some (Sw_lost nodes rows))
  | Sw_lost nodes (j :: rows) =>
    sweep_lost_one clock t follower_recent blocked_words digest choose nodes n awake j;; mret (Some (Sw_lost nodes rows))
  | Sw_lost nodes [] => rows ← node_queued_jobs; mret (Some (Sw_held nodes rows))
  | Sw_held nodes (j :: rows) =>
    sweep_held_row clock t follower_recent blocked_words starts_elsewhere placement_code nodes n awake j;; mret (Some (Sw_held nodes rows))
  | Sw_held nodes [] => rows ← queued_jobs; mret (Some (Sw_queued nodes rows ∅ false))
  | Sw_queued nodes (j :: rows) decisions changed =>
    r ← sweep_queued_one clock t follower_recent digest choose placement_code avoids decision_for nodes n awake j decisions;
    mret (Some (Sw_queued nodes rows r.2 (changed || r.1)))
  | Sw_queued _ [] _ changed => when changed notify_change;; mret None
  end.
(** So many turns of a pass, with nothing in between. *)
Fixpoint sweep_turns (k : nat) (n awake : Z) (at' : SweepAt) : ServerM (option SweepAt) :=
  match k with
  | O => mret (Some at')
  | S k => r ← sweep_turn n awake at'; match r with Some at' => sweep_turns k n awake at' | None => mret None end
  end.

(** ** A job given back *)

(** [apply_observation] of a [cancelled] state up to where it drops the lock
    for [given_back_job]: the row it read. *)
Definition take_back (node id : string) (generation : Z) (reason : option string) : ServerM (option ComputeJob) :=
  j ← job_by_id id;
  match j with
  | None => mret None
  | Some j =>
    if negb (bool_decide (cj_node j = node)) || negb (cj_generation j =? generation) then mret None
    else if job_is_terminal j then mret None
    else
      now clock;;
      let user_cancel := reason_is CANCEL_REQUESTED (cj_reason j) || reason_is pending_CANCEL (cj_reason j) in
      mret (if given_back (cj_reason j) reason && negb user_cancel then Some j else None)
  end.

(** ** The server *)

(** The pass that goes on, with its [now] and [awake], and the jobs given back
    whose rows were read. *)
Record Server := mk_Server { sv_world : World; sv_sweep : option (Z * Z * SweepAt); sv_back : list (string * ComputeJob) }.
Definition idle (w : World) : Server := mk_Server w None [].

(** A whole handler; the ticker's next pass, which starts when the last is
    through; one section of it; a job taken back; one of those given back. *)
Inductive ServerMove :=
| Mv_act (a : Act)
| Mv_sweep (n awake : Z)
| Mv_turn
| Mv_take (node id : string) (generation : Z) (reason : option string)
| Mv_back (i : nat).
Definition server_move (m : ServerMove) (s : Server) : Server :=
  match m with
  | Mv_act a =>
    mk_Server (act clock t follower_recent blocked_words digest choose decision_for is_shared shared_pass feature_wait fit_plan ws_handle
      outputs_text artifacts_text verify a (sv_world s)).2 (sv_sweep s) (sv_back s)
  | Mv_sweep n awake =>
    match sv_sweep s with None => mk_Server (sv_world s) (Some (n, awake, Sw_nodes)) (sv_back s) | Some _ => s end
  | Mv_turn =>
    match sv_sweep s with
    | None => s
    | Some (n, awake, at') =>
      let '(next, w) := sweep_turn n awake at' (sv_world s) in
      mk_Server w (pair (n, awake) <$> next) (sv_back s)
    end
  | Mv_take node id generation reason =>
    let '(j, w) := take_back node id generation reason (sv_world s) in
    mk_Server w (sv_sweep s) (match j with Some j => sv_back s ++ [(node, j)] | None => sv_back s end)
  | Mv_back i =>
    match sv_back s !! i with
    | None => s
    | Some (node, j) =>
      mk_Server (given_back_job clock follower_recent blocked_words digest choose node j (sv_world s)).2 (sv_sweep s) (delete i (sv_back s))
    end
  end.
Definition server_moves (l : list ServerMove) (s : Server) : Server := foldl (λ s m, server_move m s) s l.

(** The rows read before, still to be acted on by their ids. *)
Definition in_hand (s : Server) : list ComputeJob :=
  match sv_sweep s with Some (_, _, (Sw_lost _ rows | Sw_held _ rows)) => rows | _ => [] end ++ (sv_back s).*2.
Definition read_before (id : string) (s : Server) : Prop := id ∈ cj_id <$> in_hand s.

(** *** What the mover asks *)

Definition is_withdraw (j : ComputeJob) (x : Effect) : bool :=
  match x with
  | Fx_cancel node id g why => bool_decide (node = cj_node j) && bool_decide (id = cj_id j) && (g =? cj_generation j) && bool_decide (why = CANCEL_WITHDRAW)
  | _ => false
  end.
(** The section at hand is of a job in its node's queue, not over its limit,
    and a withdraw is sent. *)
Definition asked (id : string) (s : Server) : option Z :=
  match sv_sweep s with
  | Some (n, awake, Sw_held nodes (j :: rows)) =>
    if bool_decide (cj_id j = id) && negb (timed_out t j n awake)
        && existsb (is_withdraw j) (drop (length (w_fx (sv_world s))) (w_fx (sv_world (server_move Mv_turn s)))) then Some n else None
  | _ => None
  end.
(** When the mover asked for the job in a run. *)
Fixpoint mover_asks (id : string) (l : list ServerMove) (s : Server) : list Z :=
  match l with
  | [] => []
  | m :: l => match m with Mv_turn => option_list (asked id s) | _ => [] end ++ mover_asks id l (server_move m s)
  end.

(** Each [WITHDRAW_AGAIN_SECS] after the one before. *)
Fixpoint spaced (last : option Z) (l : list Z) : Prop :=
  match l with [] => True | x :: l => (∀ a, last = Some a → a + WITHDRAW_AGAIN_SECS ≤ x) ∧ spaced (Some x) l end.

(** ** The sections make up the handlers *)

Lemma turns_one k n awake at' w next w' : sweep_turn n awake at' w = (Some next, w') → sweep_turns (S k) n awake at' w = sweep_turns k n awake next w'.
Proof. intros H. cbn [sweep_turns]. unfold mbind, ServerM_bind. by rewrite H. Qed.
Lemma turns_lost n awake nodes rows k w :
  sweep_turns (length rows + k) n awake (Sw_lost nodes rows) w
  = sweep_turns k n awake (Sw_lost nodes []) (sweep_lost clock t follower_recent blocked_words digest choose nodes n awake rows w).2.
Proof.
  revert w. induction rows as [|j rows IH]; intros w; [done|]. cbn [length Nat.add sweep_turns sweep_turn sweep_lost]. unfold mbind, ServerM_bind.
  destruct (sweep_lost_one _ _ _ _ _ _ _ _ _ _ w) as [x w1]. apply IH.
Qed.
Lemma turns_held n awake nodes rows k w :
  sweep_turns (length rows + k) n awake (Sw_held nodes rows) w
  = sweep_turns k n awake (Sw_held nodes []) (sweep_held clock t follower_recent blocked_words starts_elsewhere placement_code nodes n awake rows w).2.
Proof.
  revert w. induction rows as [|j rows IH]; intros w; [done|]. cbn [length Nat.add sweep_turns sweep_turn sweep_held]. unfold mbind, ServerM_bind.
  destruct (sweep_held_row _ _ _ _ _ _ _ _ _ _ w) as [x w1]. apply IH.
Qed.
Lemma turns_queued n awake nodes rows ds changed k w :
  let r := sweep_queued clock t follower_recent digest choose placement_code avoids decision_for nodes n awake rows ds changed w in
  ∃ ds', sweep_turns (length rows + k) n awake (Sw_queued nodes rows ds changed) w = sweep_turns k n awake (Sw_queued nodes [] ds' r.1) r.2.
Proof.
  revert ds changed w. induction rows as [|j rows IH]; intros ds changed w; [by exists ds|].
  cbn [length Nat.add sweep_turns sweep_turn sweep_queued]. unfold mbind, ServerM_bind.
  destruct (sweep_queued_one _ _ _ _ _ _ _ _ _ _ _ _ _ w) as [x w1]. apply IH.
Qed.
(** With nothing in between, the sections are the pass, and they come to an end. *)
Lemma sweep_in_turns n awake w : ∃ k, sweep_turns k n awake Sw_nodes w
  = (None, (sweep clock t follower_recent blocked_words digest choose starts_elsewhere placement_code avoids decision_for n awake w).2).
Proof.
  unfold sweep, mbind, ServerM_bind. destruct (list_nodes w) as [nodes w1] eqn:H1. destruct (active_jobs w1) as [rows w2] eqn:H2.
  destruct (sweep_lost _ _ _ _ _ _ _ _ _ rows w2) as [x w3] eqn:H3. destruct (node_queued_jobs w3) as [held w4] eqn:H4.
  destruct (sweep_held _ _ _ _ _ _ _ _ _ held w4) as [y w5] eqn:H5. destruct (queued_jobs w5) as [queued w6] eqn:H6.
  destruct (turns_queued n awake nodes queued ∅ false 1 w6) as [ds Hq].
  exists (S (S (length rows + S (length held + S (length queued + 1))))).
  rewrite (turns_one _ _ _ _ _ (Sw_active nodes) w1) by (cbn; unfold mbind, ServerM_bind; by rewrite H1).
  rewrite (turns_one _ _ _ _ _ (Sw_lost nodes rows) w2) by (cbn [sweep_turn]; unfold mbind, ServerM_bind; by rewrite H2).
  rewrite turns_lost, H3. cbn [snd]. rewrite (turns_one _ _ _ _ _ (Sw_held nodes held) w4) by (cbn [sweep_turn]; unfold mbind, ServerM_bind; by rewrite H4).
  rewrite turns_held, H5. cbn [snd]. rewrite (turns_one _ _ _ _ _ (Sw_queued nodes queued ∅ false) w6) by (cbn [sweep_turn]; unfold mbind, ServerM_bind; by rewrite H6).
  rewrite Hq. by destruct (sweep_queued _ _ _ _ _ _ _ _ _ _ _ queued _ _ w6) as [[|] w7].
Qed.
Lemma take_back_is node id g why d exit src q times w j : (take_back node id g why w).1 = Some j →
  apply_observation clock t follower_recent blocked_words digest choose node id g JobState_Cancelled why d exit src q times w
  = given_back_job clock follower_recent blocked_words digest choose node j (take_back node id g why w).2.
Proof.
  unfold take_back, apply_observation, mbind, ServerM_bind. destruct (job_by_id id w) as [[r|] w1]; [|done]. destruct (_ || _); [done|].
  destruct (job_is_terminal r); [done|]. cbn.
  rewrite (bool_decide_eq_false_2 (JobState_Cancelled = JobState_Queued)), (bool_decide_eq_true_2 (JobState_Cancelled = JobState_Cancelled)) by done. cbn [andb].
  destruct (given_back _ _ && _); [|done]. by intros [= ->].
Qed.

End turns.
