(* ===== verification/JobEnds.v ===== *)
(** * JobEnds: what holds of the server's jobs

    The theorems on the handlers of [JobLife] and [JobSweep]: how each may
    change a row ([later]), frames of other attempts change nothing, an end is
    recorded once, whole and with its log, a job is queued again only while
    retries are left, and one to be cancelled is not run again. *)

From S2P Require Import Prelude Share Refusal JobFrames Ledger FairQ NodeQueue Retry Journal LogCopy JobTable JobLife JobSweep.
Open Scope Z_scope.

Create HintDb later.

(** ** The order of a row's versions *)

(** Asked back from a node's queue as often as before. *)
Definition same_withdraws (r r' : ComputeJob) : Prop := cj_withdraws r' = cj_withdraws r ∧ cj_withdrawn_at r' = cj_withdrawn_at r.

(** [r'] is [r] later on: a newer generation, or the same attempt, which keeps
    its end if it had one. *)
Definition later (r r' : ComputeJob) : Prop :=
  cj_fixed r' = cj_fixed r ∧ same_withdraws r r'
  ∧ (cj_generation r < cj_generation r'
     ∨ cj_generation r' = cj_generation r ∧ cj_attempt r' = cj_attempt r
       ∧ (job_is_terminal r = true → cj_state r' = cj_state r ∧ cj_times r' = cj_times r)).
#[export] Instance later_refl : Reflexive later.
Proof. intros r. split_and!; [done..|right]. done. Qed.
#[export] Instance later_trans : Transitive later.
Proof.
  intros a b c (Hf1&[Hw1 Hx1]&H1) (Hf2&[Hw2 Hx2]&H2). split_and!; [congruence|split; congruence|]. destruct H1 as [H1|(Hg1&Ha1&Ht1)], H2 as [H2|(Hg2&Ha2&Ht2)]; [left; lia..|].
  right. split_and!; [congruence..|]. intros Ht. destruct (Ht1 Ht) as [Hs1 Hm1].
  assert (Hb : job_is_terminal b = true) by (unfold job_is_terminal in *; by rewrite Hs1).
  destruct (Ht2 Hb). split; congruence.
Qed.

(** A run of the server keeps every row, as itself or a later one. *)
Definition steps (w w' : World) : Prop := ∀ id, option_Forall2 later (w_rows w !! id) (w_rows w' !! id).
#[export] Instance steps_refl : Reflexive steps.
Proof. intros w id. destruct (w_rows w !! id); constructor. reflexivity. Qed.
#[export] Instance steps_trans : Transitive steps.
Proof.
  intros a b c H1 H2 id. specialize (H1 id). specialize (H2 id). inversion H1 as [x y Hxy Ha Hb|Ha Hb]; rewrite <- Hb in H2; inversion H2; subst; constructor.
  by etrans.
Qed.
Lemma steps_rows w w' : w_rows w' = w_rows w → steps w w'.
Proof. intros H id. rewrite H. apply steps_refl. Qed.
Lemma steps_some w w' id r : steps w w' → w_rows w !! id = Some r → ∃ r', w_rows w' !! id = Some r' ∧ later r r'.
Proof. intros H Hr. specialize (H id). rewrite Hr in H. inversion H as [x y Hxy|]; subst. by exists y. Qed.

(** [m], from [P] to [Q], by steps. *)
Definition goes {A} (P Q : World → Prop) (m : ServerM A) : Prop := ∀ w, P w → steps w (m w).2 ∧ Q (m w).2.
Definition anyway (w : World) : Prop := True.
Definition lat {A} (m : ServerM A) : Prop := goes anyway anyway m.

Lemma goes_bind {A B} (P Q R : World → Prop) (m : ServerM A) (k : A → ServerM B) :
  goes P Q m → (∀ x, goes Q R (k x)) → goes P R (m ≫= k).
Proof.
  intros Hm Hk w HP. unfold mbind, ServerM_bind. destruct (Hm w HP) as [H1 H2]. destruct (m w) as [x w1]. cbn in *.
  destruct (Hk x w1 H2) as [H3 H4]. split; [by etrans|exact H4].
Qed.
Lemma goes_ret {A} (P : World → Prop) (x : A) : goes P P (mret x).
Proof. intros w HP. split; [reflexivity|exact HP]. Qed.
Lemma goes_weaken {A} (P P' Q Q' : World → Prop) (m : ServerM A) : goes P Q m → (∀ w, P' w → P w) → (∀ w, Q w → Q' w) → goes P' Q' m.
Proof. intros H HP HQ w Hw. destruct (H w (HP w Hw)). split; [done|by apply HQ]. Qed.
Lemma lat_goes {A} (P : World → Prop) (m : ServerM A) : lat m → goes P anyway m.
Proof. intros H w _. by apply H. Qed.
Lemma lat_bind {A B} (m : ServerM A) (k : A → ServerM B) : lat m → (∀ x, lat (k x)) → lat (m ≫= k).
Proof. apply goes_bind. Qed.
Lemma lat_ret {A} (x : A) : lat (mret x).
Proof. apply goes_ret. Qed.
Lemma lat_when c m : lat m → lat (when c m).
Proof. destruct c; [done|]. intros _. apply lat_ret. Qed.

(** What leaves the rows alone. *)
Definition quiet {A} (m : ServerM A) : Prop := ∀ w, w_rows (m w).2 = w_rows w.
Lemma quiet_lat {A} (m : ServerM A) : quiet m → lat m.
Proof. intros H w _. split; [by apply steps_rows|done]. Qed.
Lemma quiet_effect x : quiet (effect x).
Proof. done. Qed.
Lemma quiet_event a k n ws j d : quiet (record_event a k n ws j d).
Proof. intros w. unfold record_event. by destruct (w_faults w) as [|[|] ?]. Qed.
Lemma quiet_job id : quiet (job_by_id id).
Proof. intros w. unfold job_by_id, stmt. by destruct (w_faults w) as [|[|] ?]. Qed.
Lemma quiet_jobs_in p : quiet (jobs_where p).
Proof. intros w. unfold jobs_where, stmt. by destruct (w_faults w) as [|[|] ?]. Qed.
Lemma quiet_health t n s why now : quiet (health_count t n s why now).
Proof. intros w. unfold health_count. by destruct (health_record _ _ _ _ _). Qed.
Lemma quiet_bind {A B} (m : ServerM A) (k : A → ServerM B) : quiet m → (∀ x, quiet (k x)) → quiet (m ≫= k).
Proof. intros Hm Hk w. unfold mbind, ServerM_bind. specialize (Hm w). destruct (m w) as [x w1]. cbn in *. by rewrite Hk. Qed.
Lemma quiet_ret {A} (x : A) : quiet (mret x).
Proof. done. Qed.
Lemma quiet_when c m : quiet m → quiet (when c m).
Proof. by destruct c. Qed.
Lemma quiet_cancel_sent n j g why : quiet (send_cancel n j g why).
Proof. apply quiet_bind; [done|]. intros ok. apply quiet_bind; [by apply quiet_when|intros; apply quiet_ret]. Qed.
Lemma quiet_skew clock n : quiet (node_skew clock n).
Proof.
  unfold node_skew. apply quiet_bind; [done|]. intros x. repeat case_match; try apply quiet_ret. apply quiet_bind; [done|]. intros. apply quiet_ret.
Qed.
#[export] Hint Resolve quiet_effect quiet_event quiet_job quiet_jobs_in quiet_health quiet_cancel_sent quiet_skew quiet_ret : later.

(** *** Statements *)

Lemma update_job_rows id p f w : ∃ b, w_rows (update_job id p f w).2
  = match w_rows w !! id with Some r => if b && p r then <[id := f r]> (w_rows w) else w_rows w | None => w_rows w end.
Proof.
  unfold update_job, stmt. destruct (w_faults w) as [|[|] fs]; [exists true|exists false|exists true]; destruct (w_rows w !! id) as [r|] eqn:Hr; cbn; try done;
    by destruct (p r).
Qed.
Lemma goes_update (P : World → Prop) id p f : (∀ w r, P w → w_rows w !! id = Some r → p r = true → later r (f r)) → goes P anyway (update_job id p f).
Proof.
  intros H w HP. split; [|done]. intros id'. destruct (update_job_rows id p f w) as [b ->].
  destruct (w_rows w !! id) as [r|] eqn:Hr; [|apply steps_refl]. destruct (b && p r) eqn:Hb; [|apply steps_refl]. bool_props.
  destruct (decide (id' = id)) as [->|Hne]; [|rewrite lookup_insert_ne by done; apply steps_refl].
  rewrite lookup_insert_eq, Hr. constructor. by apply (H w).
Qed.
Lemma lat_update id p f : (∀ r, p r = true → later r (f r)) → lat (update_job id p f).
Proof. intros H. apply goes_update. auto. Qed.

(** What leaves an attempt's state and times alone. *)
Definition aside (f : ComputeJob → ComputeJob) : Prop :=
  ∀ r, cj_fixed (f r) = cj_fixed r ∧ cj_generation (f r) = cj_generation r ∧ cj_attempt (f r) = cj_attempt r ∧ cj_state (f r) = cj_state r ∧ cj_times (f r) = cj_times r
    ∧ cj_withdraws (f r) = cj_withdraws r ∧ cj_withdrawn_at (f r) = cj_withdrawn_at r.
Lemma aside_later f r : aside f → later r (f r).
Proof. intros H. destruct (H r) as (Hf&Hg&Ha&Hs&Ht&Hw&Hx). split_and!; [exact Hf|by split|right]. by split_and!. Qed.
Lemma lat_aside id p f : aside f → lat (update_job id p f).
Proof. intros H. apply lat_update. intros r _. by apply aside_later. Qed.
Lemma lat_drop {A} (m : ServerM A) : lat m → lat (m;; mret tt).
Proof. intros H. apply lat_bind; [exact H|]. intros. apply lat_ret. Qed.

Ltac aside := intros ?; split_and!; reflexivity.
Lemma lat_reason id why d : lat (set_job_reason id why d).
Proof. apply lat_drop, lat_aside. aside. Qed.
Lemma lat_exit id c s : lat (set_job_exit id c s).
Proof. apply lat_drop, lat_aside. aside. Qed.
Lemma lat_src id c s : lat (set_job_src id c s).
Proof. apply lat_drop, lat_aside. aside. Qed.
Lemma lat_log id s b : lat (set_job_log id s b).
Proof. apply lat_drop, lat_aside. aside. Qed.
Lemma lat_outputs id g o : lat (set_job_outputs id g o).
Proof. apply lat_drop, lat_aside. aside. Qed.
Lemma lat_receipt id r ok : lat (set_job_receipt id r ok).
Proof. apply lat_drop, lat_aside. aside. Qed.
Lemma lat_notified id n : lat (mark_notified id n).
Proof. apply lat_drop, lat_aside. aside. Qed.
Lemma lat_ctl id c : lat (set_job_ctl id c).
Proof.
  apply lat_bind; [apply quiet_lat, quiet_job|]. intros [j|]; [|apply lat_ret]. destruct (sn_plan (cj_sent j)); [|apply lat_ret]. apply lat_aside. aside.
Qed.
Lemma lat_mark id g pos why n : lat (mark_node_queued id g pos why n).
Proof. apply lat_aside. aside. Qed.
Lemma lat_clear id : lat (clear_node_queued id).
Proof. apply lat_drop, lat_aside. aside. Qed.
Lemma lat_move digest id p c why : lat (move_queued_job digest id p c why).
Proof. unfold move_queued_job. destruct (digest p); [|apply lat_ret]. apply lat_aside. aside. Qed.
Lemma lat_generation id g why : lat (requeue_new_generation id g why).
Proof. apply lat_update. intros r _. split_and!; [done..|left]. cbn. lia. Qed.
Lemma lat_attempt id why : lat (requeue_new_attempt id why).
Proof.
  apply lat_bind; [apply lat_update; intros r _; split_and!; [done..|left]; cbn; lia|]. intros [?|]; [apply quiet_lat, quiet_job|apply lat_ret].
Qed.
(** A row in one of the states before the end takes any state. *)
Lemma open_later r r' : job_is_terminal r = false → cj_fixed r' = cj_fixed r → cj_generation r' = cj_generation r → cj_attempt r' = cj_attempt r →
  cj_withdraws r' = cj_withdraws r → cj_withdrawn_at r' = cj_withdrawn_at r → later r r'.
Proof. intros Ho Hf Hg Ha Hw Hx. split_and!; [done..|right]. split_and!; [done..|]. by rewrite Ho. Qed.
Lemma lat_state_if id from st why d n : is_terminal from = false → lat (set_job_state_if id from st why d n).
Proof.
  intros Hf. apply lat_update. intros r Hr. apply bool_decide_eq_true in Hr. apply open_later; [unfold job_is_terminal; by rewrite Hr|done..].
Qed.
#[export] Hint Resolve lat_ret lat_reason lat_exit lat_src lat_log lat_outputs lat_receipt lat_notified lat_ctl lat_mark lat_clear lat_move lat_generation lat_attempt lat_when : later.
#[export] Hint Resolve lat_state_if : later.
#[export] Hint Extern 2 (lat _) => apply quiet_lat : later.

Ltac lat_step :=
  match goal with
  | |- lat (mbind _ _) => apply lat_bind; [|intros ?]
  | |- lat (when _ _) => apply lat_when
  | |- lat (if ?c then _ else _) => destruct c
  | |- lat (match ?x with _ => _ end) => destruct x
  | |- lat _ => solve [eauto with later]
  end.
Ltac lat := repeat lat_step.

(** ** The handlers go by steps *)

Section handlers.
Context (clock : nat → Z) (t : Tuning) (follower_recent : string → bool) (blocked_words : string → string).
Context (digest : Plan → option string).
Context (choose : World → ComputeJob → list string → bool → string → option (string * Plan * string)).
Context (outputs_text : Outputs → option string) (artifacts_text : list string → option string).
Context (verify : string → SignedReceipt → option ReceiptClaims).

Lemma lat_now : lat (now clock).
Proof. by apply quiet_lat. Qed.
Lemma lat_facts n : lat (node_facts n).
Proof. by apply quiet_lat. Qed.
Lemma lat_online n : lat (is_online n).
Proof. by apply quiet_lat. Qed.
Lemma lat_kick n : lat (kick n).
Proof. by apply quiet_lat. Qed.
Lemma lat_notify : lat notify_change.
Proof. by apply quiet_lat. Qed.
Hint Resolve lat_now lat_facts lat_online lat_kick lat_notify : later.

Lemma lat_finalize id : lat (finalize clock follower_recent id).
Proof. unfold finalize. lat. Qed.
Lemma lat_try_move j avoid hard why : lat (try_move digest choose j avoid hard why).
Proof.
  unfold try_move. destruct (sn_plan (cj_sent j)); [|lat]. intros w Hw. destruct (choose w j avoid hard why) as [[[node p'] pl]|]; [|by split].
  cbv zeta. match goal with |- steps w (?m w).2 ∧ _ => enough (lat m) as H by exact (H w Hw) end. lat.
Qed.
Hint Resolve lat_finalize lat_try_move : later.
Lemma lat_exhausted j ctl : lat (exhausted j ctl).
Proof. intros w Hw. unfold exhausted. match goal with |- steps w (?m w).2 ∧ _ => enough (lat m) as H by exact (H w Hw) end. lat. Qed.
Lemma lat_retry_attempt j ctl n : lat (retry_attempt t digest choose j ctl n).
Proof. unfold retry_attempt. cbv zeta. lat. Qed.
Hint Resolve lat_exhausted lat_retry_attempt : later.
Lemma lat_after_attempt id : lat (after_attempt clock t digest choose id).
Proof. unfold after_attempt. cbv zeta. lat. Qed.
Hint Resolve lat_after_attempt : later.

(** *** Rows that have not ended *)

Definition open (id : string) (w : World) : Prop := ∀ r, w_rows w !! id = Some r → job_is_terminal r = false.
Lemma open_quiet {A} id (m : ServerM A) : quiet m → goes (open id) (open id) m.
Proof. intros H w Ho. split; [by apply steps_rows|]. unfold open. by rewrite H. Qed.
Lemma open_aside id id' p f : aside f → goes (open id) (open id) (update_job id' p f).
Proof.
  intros Hf w Ho. split; [by apply lat_aside|]. intros r. destruct (update_job_rows id' p f w) as [b ->].
  destruct (w_rows w !! id') as [r'|] eqn:Hr; [|by apply Ho]. destruct (b && p r'); [|by apply Ho].
  destruct (decide (id = id')) as [->|Hne]; [|rewrite lookup_insert_ne by done; by apply Ho].
  rewrite lookup_insert_eq. intros [= <-]. destruct (Hf r') as (_&_&_&Hs&_). unfold job_is_terminal. rewrite Hs. by apply Ho.
Qed.
(** The two statements that need it. *)
Lemma open_state id st why d n : goes (open id) anyway (set_job_state id st why d n).
Proof. apply goes_update. intros w r Ho Hr _. by apply open_later; [apply Ho|..]. Qed.
Lemma open_times id s e : goes (open id) (open id) (set_job_times id s e).
Proof.
  apply goes_bind with (open id); [|intros; apply goes_ret]. intros w Ho. split.
  - apply (goes_update (open id)); [|exact Ho]. intros w' r Ho' Hr _. by apply open_later; [apply Ho'|..].
  - intros r. destruct (update_job_rows id always (λ r, let t := cj_times r in
      put_times (mk_Times (tm_assigned_at t) (opt_else s (tm_started_at t)) (opt_else e (tm_ended_at t))) r) w) as [b ->].
    destruct (w_rows w !! id) as [r'|] eqn:Hr; [|by rewrite Hr]. destruct (b && always r'); [|by apply Ho].
    rewrite lookup_insert_eq. intros [= <-]. exact (Ho _ Hr).
Qed.
Lemma open_clear id id' : goes (open id) (open id) (clear_node_queued id').
Proof. apply goes_bind with (open id); [apply open_aside; aside|]. intros. apply goes_ret. Qed.
Lemma open_when id c m : goes (open id) (open id) m → goes (open id) (open id) (when c m).
Proof. destruct c; [done|]. intros _. apply goes_ret. Qed.

Lemma open_fail_waiting j where_ n : goes (open (cj_id j)) anyway (fail_waiting blocked_words j where_ n).
Proof. unfold fail_waiting. cbv zeta. eapply goes_bind; [apply open_state|]. intros. change (lat (clear_node_queued (cj_id j);; record_event "controller" "job_queue_timeout" (Some (cj_node j)) (Some (jf_workspace_id (cj_fixed j))) (Some (cj_id j)) [("nodeQueued", V_bool true)])). lat. Qed.

Ltac open_step :=
  match goal with
  | |- goes (open ?i) anyway (if ?c then _ else _) => destruct c
  | |- goes (open ?i) anyway (match ?x with _ => _ end) => destruct x
  | |- goes (open ?i) anyway (set_job_state ?i _ _ _ _ ≫= _) => eapply goes_bind; [apply open_state|intros ?]
  | |- goes (open ?i) anyway (fail_waiting _ _ _ _ ≫= _) => eapply goes_bind; [apply open_fail_waiting|intros ?]
  | |- goes (open ?i) anyway (when _ _ ≫= _) => eapply goes_bind; [apply open_when; first [apply open_clear|apply open_times|apply open_quiet; eauto with later]|intros ?]
  | |- goes (open ?i) anyway (now _ ≫= _) => eapply goes_bind; [apply open_quiet; done|intros ?]
  | |- goes anyway anyway ?m => change (lat m); lat
  | |- goes (open ?i) anyway (mret _) => apply lat_goes; lat
  end.

Lemma open_given_back node j : goes (open (cj_id j)) anyway (given_back_job clock follower_recent blocked_words digest choose node j).
Proof. unfold given_back_job. do 2 open_step; [repeat open_step|]. apply lat_goes. lat. Qed.
Lemma open_refused node j why d n : goes (open (cj_id j)) anyway (observe_refused clock follower_recent node j why d n).
Proof. unfold observe_refused. cbv zeta. repeat open_step. Qed.
Lemma open_progress node j st why d exit src times n :
  goes (open (cj_id j)) anyway (observe_progress clock t follower_recent digest choose node j st why d exit src times n).
Proof.
  unfold observe_progress. cbv zeta. do 2 open_step. destruct (settle j st why d) as [[st' why'] d'].
  eapply goes_bind with (open (cj_id j)).
  { destruct (nt_at times); [|apply goes_ret]. destruct (_ || _); [apply open_quiet, quiet_skew|apply goes_ret]. }
  intros skew. open_step. open_step. open_step.
  intros w Hw. cbv beta. destruct (copy_last_seq (cj_id j) (cj_generation j) (w_logs w)) as [last lg]. destruct (lat_log (cj_id j) last 0 (set_logs lg w) Hw) as [Hs _]. by split.
Qed.

(** The keys of the table are the ids of its rows. *)
Definition keyed (w : World) : Prop := ∀ id r, w_rows w !! id = Some r → cj_id r = id.
Lemma steps_keyed w w' : steps w w' → keyed w → keyed w'.
Proof.
  intros Hs Hk id r Hr. specialize (Hs id). rewrite Hr in Hs. inversion Hs as [x y [Hf _] Hx Hy|]; subst.
  rewrite <- (Hk id x) by done. unfold cj_id. by rewrite Hf.
Qed.
Lemma goes_keyed {A} (m : ServerM A) : (∀ w, keyed w → steps w (m w).2) → goes keyed keyed m.
Proof. intros H w Hw. split; [by apply H|]. eapply steps_keyed; [by apply H|exact Hw]. Qed.
Lemma lat_keyed {A} (m : ServerM A) : lat m → goes keyed keyed m.
Proof. intros H. apply goes_keyed. intros w _. by apply H. Qed.

(** A read: the row as it is, or nothing. *)
Lemma job_read id w : ∃ f, (job_by_id id w).2 = set_rows (w_rows w) f w ∧ ((job_by_id id w).1 = None ∨ (job_by_id id w).1 = w_rows w !! id).
Proof. unfold job_by_id, stmt. destruct (w_faults w) as [|[|] fs]; cbn; eexists; split; [done|by right|done|by left|done|by right]. Qed.
Lemma goes_job {B} id (Q : World → Prop) (k : option ComputeJob → ServerM B) :
  (∀ w, Q w → ∀ f, Q (set_rows (w_rows w) f w)) → goes Q anyway (k None) → (∀ j, goes (λ w, Q w ∧ w_rows w !! id = Some j) anyway (k (Some j))) →
  goes Q anyway (job_by_id id ≫= k).
Proof.
  intros HQ Hn Hj w Hw. unfold mbind, ServerM_bind. destruct (job_read id w) as (f&H2&H1). destruct (job_by_id id w) as [x w1]. cbn in *. subst w1.
  assert (Hx : goes (λ w', Q w' ∧ w_rows w' !! id = w_rows w !! id) anyway (k x)).
  { destruct H1 as [->| ->]; [eapply goes_weaken; [exact Hn|by intros ? [? _]|done]|].
    destruct (w_rows w !! id) as [j|] eqn:Hr; [|eapply goes_weaken; [exact Hn|by intros ? [? _]|done]]. apply Hj. }
  destruct (Hx (set_rows (w_rows w) f w)) as [Hs _]; [split; [by apply HQ|done]|]. by split.
Qed.

Lemma keyed_observation node id g st why d exit src q times :
  goes keyed anyway (apply_observation clock t follower_recent blocked_words digest choose node id g st why d exit src q times).
Proof.
  unfold apply_observation. apply goes_job; [done|apply lat_goes, lat_ret|]. intros j.
  destruct (_ || _); [apply lat_goes, lat_ret|]. destruct (job_is_terminal j) eqn:Ho; [apply lat_goes, lat_ret|].
  apply goes_weaken with (P := open (cj_id j)) (Q := anyway); [|intros w [Hk Hr]; rewrite (Hk _ _ Hr); intros r; rewrite Hr; congruence|done].
  eapply goes_bind; [apply open_quiet; done|]. intros n. cbv zeta.
  destruct (_ && _); [apply lat_goes; lat|]. destruct (_ && _); [apply open_given_back|]. destruct (bool_decide _); [apply open_refused|apply open_progress].
Qed.
Lemma keyed_anyway {A} (m : ServerM A) : goes keyed anyway m → goes keyed keyed m.
Proof. intros H. apply goes_keyed. intros w Hw. by apply H. Qed.
Lemma lat_outputs_of node id g o : lat (store_outputs outputs_text node id g o).
Proof. unfold store_outputs. lat. Qed.
Hint Resolve lat_outputs_of : later.

Lemma keyed_state node s : goes keyed anyway (on_state clock t follower_recent blocked_words digest choose outputs_text node s).
Proof.
  unfold on_state. eapply goes_bind; [apply lat_keyed; lat|]. intros _. eapply goes_bind; [apply keyed_anyway, keyed_observation|].
  intros _. apply lat_goes. lat.
Qed.
Lemma keyed_rows node jobs : goes keyed keyed (snapshot_rows clock t follower_recent blocked_words digest choose node jobs).
Proof.
  induction jobs as [|j jobs IH]; [apply goes_ret|]. cbn [snapshot_rows].
  eapply goes_bind; [apply lat_keyed; unfold stop_stale; cbv zeta; lat|]. intros _.
  eapply goes_bind; [apply keyed_anyway, keyed_observation|]. intros _. exact IH.
Qed.

(** *** Lists read under the lock *)

(** Rows as they are in the table, each once. *)
Definition fresh (rows : list ComputeJob) (w : World) : Prop :=
  keyed w ∧ NoDup (cj_id <$> rows) ∧ Forall (λ j, w_rows w !! cj_id j = Some j) rows.
(** [m] changes no other row than [id]. *)
Definition own {A} (id : string) (m : ServerM A) : Prop :=
  ∀ w, keyed w → keyed (m w).2 ∧ ∀ id', id' ≠ id → w_rows (m w).2 !! id' = w_rows w !! id'.

Lemma own_bind {A B} id (m : ServerM A) (k : A → ServerM B) : own id m → (∀ x, own id (k x)) → own id (m ≫= k).
Proof.
  intros Hm Hk w Hw. unfold mbind, ServerM_bind. destruct (Hm w Hw) as [H1 H2]. destruct (m w) as [x w1]. cbn [snd] in *.
  destruct (Hk x w1 H1) as [H3 H4]. split; [done|]. intros id' Hne. by rewrite H4, H2.
Qed.
Lemma own_quiet {A} id (m : ServerM A) : quiet m → own id m.
Proof. intros H w Hw. unfold keyed. rewrite H. by split. Qed.
Lemma own_ret {A} id (x : A) : own id (mret x).
Proof. by apply own_quiet. Qed.
Lemma own_when id c m : own id m → own id (when c m).
Proof. destruct c; [done|]. intros _. apply own_ret. Qed.
Lemma own_update id p f : (∀ r, cj_fixed (f r) = cj_fixed r) → own id (update_job id p f).
Proof.
  intros Hf w Hw. destruct (update_job_rows id p f w) as [b Hr]. unfold keyed. rewrite Hr. destruct (w_rows w !! id) as [r|] eqn:He; [|done].
  destruct (b && p r); [|done]. split; [|intros; by rewrite lookup_insert_ne].
  intros id' r' [[<- <-]|[_ H]]%lookup_insert_Some; [unfold cj_id; rewrite Hf; by apply Hw|by apply Hw].
Qed.
Lemma own_drop id p f : (∀ r, cj_fixed (f r) = cj_fixed r) → own id (update_job id p f;; mret tt).
Proof. intros H. apply own_bind; [by apply own_update|]. intros. apply own_ret. Qed.
(** A row read by its key. *)
Lemma own_job {A} id (k : option ComputeJob → ServerM A) : own id (k None) → (∀ j, cj_id j = id → own id (k (Some j))) → own id (job_by_id id ≫= k).
Proof.
  intros Hn Hs w Hw. unfold mbind, ServerM_bind. destruct (job_read id w) as (f&H2&H1). destruct (job_by_id id w) as [x w1]. cbn [fst snd] in *. subst w1.
  destruct H1 as [->| ->]; [by apply (Hn (set_rows (w_rows w) f w))|]. destruct (w_rows w !! id) as [j|] eqn:Hj; [by apply (Hs j (Hw _ _ Hj) (set_rows (w_rows w) f w))|by apply (Hn (set_rows (w_rows w) f w))].
Qed.

Lemma fresh_quiet {A} rows (m : ServerM A) : quiet m → goes (fresh rows) (fresh rows) m.
Proof. intros H w Hf. split; [by apply steps_rows|]. unfold fresh, keyed in *. by rewrite H. Qed.
(** The first row's turn leaves the others as they were read. *)
Lemma fresh_turn {A} j rows (m : ServerM A) : own (cj_id j) m → (∀ w, keyed w → w_rows w !! cj_id j = Some j → steps w (m w).2) →
  goes (fresh (j :: rows)) (fresh rows) m.
Proof.
  intros Ho Hs w (Hk&[Hd Hn]%NoDup_cons&[Hj Hf]%Forall_cons). split; [by apply Hs|]. destruct (Ho w Hk) as [Hk' Hr]. split_and!; [exact Hk'|exact Hn|].
  rewrite Forall_forall in Hf |- *. intros x Hx. rewrite Hr; [by apply Hf|]. intros He. apply Hd. rewrite <- He. by apply list_elem_of_fmap_2.
Qed.
Lemma fresh_tail j rows w : fresh (j :: rows) w → fresh rows w.
Proof. intros (Hk&[_ Hn]%NoDup_cons&[_ Hf]%Forall_cons). done. Qed.
Lemma fresh_keyed rows w : fresh rows w → keyed w.
Proof. by intros []. Qed.
Lemma lat_turn {A} (m : ServerM A) : lat m → ∀ w, steps w (m w).2.
Proof. intros H w. by apply H. Qed.
(** A turn that only goes by steps while the row is open. *)
Lemma open_turn {A} j (m : ServerM A) : goes (open (cj_id j)) anyway m → job_is_terminal j = false →
  ∀ w, keyed w → w_rows w !! cj_id j = Some j → steps w (m w).2.
Proof. intros H Ho w _ Hj. apply H. intros r. rewrite Hj. congruence. Qed.

Lemma jobs_where_spec p w : keyed w → fresh (jobs_where p w).1 (jobs_where p w).2 ∧ Forall (λ r, p r = true) (jobs_where p w).1 ∧ w_rows (jobs_where p w).2 = w_rows w.
Proof.
  intros Hk. unfold jobs_where, stmt.
  assert (H : ∀ w', w_rows w' = w_rows w → let rows := isort created_le (List.filter p (map_to_list (w_rows w)).*2) in
    fresh rows w' ∧ Forall (λ r, p r = true) rows ∧ w_rows w' = w_rows w).
  { intros w' Hw rows. assert (Hin : ∀ r, r ∈ rows → p r = true ∧ w_rows w !! cj_id r = Some r).
    { intros r. unfold rows. rewrite isort_Permutation. intros [[[id r'] [-> Hr%elem_of_map_to_list]]%list_elem_of_fmap Hpr]%elem_of_filter_bool.
      split; [exact Hpr|]. cbn in *. by rewrite (Hk _ _ Hr). }
    split_and!; [|by apply Forall_forall; intros r Hr; apply Hin|done]. split_and!; [unfold keyed; by rewrite Hw| |].
    - unfold rows. rewrite isort_Permutation. assert (Hnd : NoDup (cj_id <$> (map_to_list (w_rows w)).*2)).
      { rewrite <- list_fmap_compose. erewrite list_fmap_ext with (g := fst); [apply NoDup_fst_map_to_list|].
        intros i [id r] Hi. cbn. apply list_elem_of_lookup_2 in Hi. apply elem_of_map_to_list in Hi. by apply Hk. }
      by apply NoDup_fmap_filter.
    - rewrite Forall_forall. intros r Hr. rewrite Hw. by apply Hin. }
  destruct (w_faults w) as [|[|] fs]; [by apply H| |by apply H].
  split_and!; [split_and!; [exact Hk|apply NoDup_nil_2|constructor]|constructor|done].
Qed.
(** A list that is read, then gone through. *)
Lemma goes_list {A} p (k : list ComputeJob → ServerM A) Q :
  (∀ rows, Forall (λ r, p r = true) rows → goes (fresh rows) Q (k rows)) → goes keyed Q (jobs_where p ≫= k).
Proof.
  intros H w Hw. unfold mbind, ServerM_bind. destruct (jobs_where_spec p w Hw) as (Hf&Hp&Hr). destruct (jobs_where p w) as [rows w1]. cbn [fst snd] in *.
  destruct (H rows Hp w1 Hf) as [Hs HQ]. split; [|exact HQ]. etrans; [by apply steps_rows|exact Hs].
Qed.

(** *** A snapshot's end *)

Lemma lost_goes node seen rows : Forall (λ j, job_is_terminal j = false) rows → goes (fresh rows) keyed (snapshot_lost clock node seen rows).
Proof.
  induction 1 as [|j rows Ho _ IH]; cbn [snapshot_lost]; [apply goes_weaken with (P := fresh []) (Q := fresh []); [apply goes_ret|done|apply fresh_keyed]|]. cbv zeta.
  destruct (_ && nq_queued _).
  { eapply goes_bind; [apply (fresh_turn j rows); [by apply own_update|intros; apply lat_turn, lat_generation]|]. intros ok.
    eapply goes_bind; [apply fresh_quiet, quiet_when, quiet_event|]. intros _. exact IH. }
  destruct (negb _); [|eapply goes_weaken; [exact IH|apply fresh_tail|done]].
  eapply goes_bind; [apply fresh_quiet; done|]. intros n.
  eapply goes_bind; [apply (fresh_turn j rows); [by apply own_update|apply open_turn; [apply open_state|exact Ho]]|].
  intros _. eapply goes_bind; [apply fresh_quiet, quiet_event|]. intros _. eapply goes_bind; [exact IH|]. intros lost. apply goes_ret.
Qed.
Lemma active_open j : active (cj_state j) = true → job_is_terminal j = false.
Proof. unfold job_is_terminal. by destruct (cj_state j). Qed.
Lemma end_lost_lat lost : lat (end_lost clock t follower_recent digest choose lost).
Proof. induction lost as [|id lost IH]; cbn [end_lost]; lat. Qed.
Lemma keyed_snapshot node s seen : goes keyed anyway (on_snapshot clock t follower_recent blocked_words digest choose node s seen).
Proof.
  unfold on_snapshot. eapply goes_bind; [apply keyed_rows|]. intros _. destruct (negb _); [apply lat_goes, lat_ret|].
  apply goes_list. intros rows Hp. eapply goes_bind; [apply lost_goes|].
  - eapply Forall_impl; [exact Hp|]. intros j [_ Ha]%andb_true_iff. by apply active_open.
  - intros lost. apply lat_goes. apply lat_bind; [apply end_lost_lat|]. intros. lat.
Qed.

(** *** The rest *)

Lemma lat_on_receipt node id g r : lat (on_receipt artifacts_text verify node id g r).
Proof. unfold on_receipt. cbv zeta. lat. Qed.
Lemma lat_cancel_one by' id only : lat (cancel_one clock follower_recent by' id only).
Proof. unfold cancel_one, cancel_decide, cancel_if_queued, cancel_on_node, cancel_event. lat. Qed.
Lemma lat_retry_one by' j : lat (retry_one clock by' j).
Proof. unfold retry_one. cbv zeta. lat. Qed.
Lemma open_requeue_lost j name mins n : goes (open (cj_id j)) anyway (requeue_lost clock follower_recent blocked_words digest choose j name mins n).
Proof. unfold requeue_lost. do 2 open_step; [repeat open_step..|]. apply lat_goes. lat. Qed.
Lemma open_lose j name mins n : goes (open (cj_id j)) anyway (lose_job clock t follower_recent blocked_words digest choose j name mins n).
Proof.
  unfold lose_job. cbv zeta. destruct (_ && _); [apply open_requeue_lost|]. destruct (reason_is _ _).
  - eapply goes_bind; [apply open_state|]. intros _. change (lat (record_event "controller" "job_lost" (Some (cj_node j)) (Some (jf_workspace_id (cj_fixed j))) (Some (cj_id j)) [("offlineMins", V_int mins)];;
      again ← mret false; if (again : bool) then mret tt else finalize clock follower_recent (cj_id j))). lat.
  - eapply goes_bind; [apply open_state|]. intros _. change (lat (record_event "controller" "job_lost" (Some (cj_node j)) (Some (jf_workspace_id (cj_fixed j))) (Some (cj_id j)) [("offlineMins", V_int mins)];;
      again ← after_attempt clock t digest choose (cj_id j); if (again : bool) then mret tt else finalize clock follower_recent (cj_id j))). lat.
Qed.
(** ** A run without failures, as one row sees it *)

(** The row [id] is [r], no statement fails and the logs are [lg]. *)
Definition row_at (id : string) (r : ComputeJob) (lg : Logs) (w : World) : Prop :=
  w_faults w = [] ∧ w_rows w !! id = Some r ∧ w_logs w = lg.
Definition does {A} (P : World → Prop) (m : ServerM A) (Q : A → World → Prop) : Prop := ∀ w, P w → Q (m w).1 (m w).2.
Lemma does_bind {A B} (P : World → Prop) (m : ServerM A) (k : A → ServerM B) Q R : does P m Q → (∀ x, does (Q x) (k x) R) → does P (m ≫= k) R.
Proof. intros Hm Hk w HP. unfold mbind, ServerM_bind. specialize (Hm w HP). destruct (m w) as [x w1]. by apply Hk. Qed.
Lemma does_ret {A} (P : World → Prop) (x : A) (Q : A → World → Prop) : (∀ w, P w → Q x w) → does P (mret x) Q.
Proof. intros H w. apply H. Qed.
Lemma does_pure {A} (E : Prop) (P : World → Prop) (m : ServerM A) Q : (E → does P m Q) → does (λ w, E ∧ P w) m Q.
Proof. intros H w [HE HP]. by apply H. Qed.
Lemma does_pre {A} (P P' : World → Prop) (m : ServerM A) Q : (∀ w, P' w → P w) → does P m Q → does P' m Q.
Proof. intros HP H w Hw. by apply H, HP. Qed.
Lemma does_post {A} P (m : ServerM A) (Q Q' : A → World → Prop) : does P m Q → (∀ x w, Q x w → Q' x w) → does P m Q'.
Proof. intros H HQ w HP. by apply HQ, H. Qed.

(** What the row doesn't see. *)
Definition calm {A} (m : ServerM A) : Prop := ∀ w, w_faults w = [] → w_faults (m w).2 = [] ∧ w_rows (m w).2 = w_rows w ∧ w_logs (m w).2 = w_logs w.
Lemma calm_does {A} (m : ServerM A) id r lg : calm m → does (row_at id r lg) m (λ _, row_at id r lg).
Proof. intros H w (Hf&Hr&Hl). destruct (H w Hf) as (Hf'&Hr'&Hl'). unfold row_at. by rewrite Hr', Hl'. Qed.
Lemma calm_bind {A B} (m : ServerM A) (k : A → ServerM B) : calm m → (∀ x, calm (k x)) → calm (m ≫= k).
Proof.
  intros Hm Hk w Hf. unfold mbind, ServerM_bind. destruct (Hm w Hf) as (Hf1&Hr1&Hl1). destruct (m w) as [x w1]. cbn in *.
  destruct (Hk x w1 Hf1) as (?&?&?). split_and!; congruence.
Qed.
Lemma calm_ret {A} (x : A) : calm (mret x).
Proof. done. Qed.
Lemma calm_when c m : calm m → calm (when c m).
Proof. by destruct c. Qed.
Lemma calm_effect x : calm (effect x).
Proof. done. Qed.
Lemma calm_event a k n ws j d : calm (record_event a k n ws j d).
Proof. intros w Hf. unfold record_event. by rewrite Hf. Qed.
Lemma calm_now : calm (now clock).
Proof. done. Qed.
Lemma calm_health n s why at' : calm (health_count t n s why at').
Proof. intros w Hf. unfold health_count. by destruct (health_record _ _ _ _ _). Qed.
Lemma calm_skew n : calm (node_skew clock n).
Proof.
  unfold node_skew. apply calm_bind; [done|]. intros x. repeat case_match; try apply calm_ret. apply calm_bind; [done|]. intros. apply calm_ret.
Qed.
Hint Resolve calm_ret calm_when calm_effect calm_event calm_now calm_health calm_skew : later.

Lemma does_update id p f r lg : does (row_at id r lg) (update_job id p f) (λ b w, b = Some (p r) ∧ row_at id (if p r then f r else r) lg w).
Proof.
  intros w (Hf&Hr&Hl). unfold update_job, stmt. rewrite Hf, Hr. unfold row_at.
  destruct (p r); cbn; split_and!; rewrite ?lookup_insert_eq; done.
Qed.
Lemma does_always id f r lg : does (row_at id r lg) (update_job id always f;; mret tt) (λ _, row_at id (f r) lg).
Proof. eapply does_bind; [apply does_update|]. intros b. apply does_ret. by intros w [_ H]. Qed.
Lemma does_job id r lg : does (row_at id r lg) (job_by_id id) (λ x w, x = Some r ∧ row_at id r lg w).
Proof. intros w (Hf&Hr&Hl). unfold job_by_id, stmt. by rewrite Hf. Qed.
Lemma does_ctl id c r lg : does (row_at id r lg) (set_job_ctl id c)
  (λ _, row_at id (if sn_plan (cj_sent r) then with_ctl c r else r) lg).
Proof.
  eapply does_bind; [apply does_job|]. intros x w [-> Hw]. destruct (sn_plan (cj_sent r)); [|exact Hw]. by destruct (does_update id always (with_ctl c) r lg w Hw).
Qed.
Lemma does_clear id r lg : does (row_at id r lg) (clear_node_queued id) (λ _, row_at id (if nq_queued (cj_nodeq r) then put_nodeq (no_nodeq (cj_nodeq r)) r else r) lg).
Proof. eapply does_bind; [apply does_update|]. intros b. apply does_ret. by intros w [_ H]. Qed.
Lemma does_when c m (P Q : World → Prop) : does P m (λ _, Q) → (∀ w, c = false → P w → Q w) → does P (when c m) (λ _, Q).
Proof. intros Hm Hc. destruct c; [exact Hm|]. apply does_ret. auto. Qed.

(** What an end leaves of the attempt, whatever is written beside it. *)
Record ends_as (j : ComputeJob) (st : JobState) (why : option string) (exit : option ExitInfo) (log : Z) (r : ComputeJob) : Prop := {
  ea_fixed : cj_fixed r = cj_fixed j;
  ea_state : cj_state r = st;
  ea_reason : cj_reason r = why;
  ea_attempt : cj_attempt r = cj_attempt j ∧ cj_generation r = cj_generation j;
  ea_node : cj_node r = cj_node j ∧ sn_plan (cj_sent r) = sn_plan (cj_sent j) ∧ sn_plan_digest (cj_sent r) = sn_plan_digest (cj_sent j);
  ea_ctl : ct_fixed (cj_ctl r) = ct_fixed (cj_ctl j) ∧ ct_retries_used (cj_ctl r) = ct_retries_used (cj_ctl j);
  ea_clock : is_Some (ct_clock (cj_ctl r));
  ea_exit : (jo_exit_code (cj_out r), jo_signal (cj_out r))
    = match exit with Some x => (ex_code x, ex_signal x) | None => (jo_exit_code (cj_out j), jo_signal (cj_out j)) end;
  ea_log : jo_log_seq (cj_out r) = log;
  ea_nodeq : nq_queued (cj_nodeq r) = false;
  ea_ended : is_Some (tm_ended_at (cj_times r));
}.
(** A retry in its place. *)
Record retried_as (j : ComputeJob) (r : ComputeJob) : Prop := {
  ra_state : cj_state r = JobState_Queued;
  ra_attempt : cj_attempt r = cj_attempt j + 1 ∧ cj_generation r = cj_generation j + 1;
  ra_used : ct_retries_used (cj_ctl r) = ct_retries_used (cj_ctl j) + 1;
  ra_times : cj_times r = mk_Times None None None;
  ra_log : jo_log_seq (cj_out r) = 0;
}.

(** Versions that differ beside that. *)
Definition beside (r r' : ComputeJob) : Prop :=
  (cj_fixed r', cj_state r', cj_reason r', cj_attempt r', cj_generation r', cj_times r')
  = (cj_fixed r, cj_state r, cj_reason r, cj_attempt r, cj_generation r, cj_times r)
  ∧ (cj_node r', sn_plan (cj_sent r'), sn_plan_digest (cj_sent r')) = (cj_node r, sn_plan (cj_sent r), sn_plan_digest (cj_sent r))
  ∧ (ct_fixed (cj_ctl r'), ct_retries_used (cj_ctl r'), ct_clock (cj_ctl r')) = (ct_fixed (cj_ctl r), ct_retries_used (cj_ctl r), ct_clock (cj_ctl r))
  ∧ (jo_exit_code (cj_out r'), jo_signal (cj_out r'), jo_log_seq (cj_out r'), cj_nodeq r') = (jo_exit_code (cj_out r), jo_signal (cj_out r), jo_log_seq (cj_out r), cj_nodeq r).
Instance beside_refl : Reflexive beside.
Proof. intros r. by split_and!. Qed.
Instance beside_trans : Transitive beside.
Proof. intros a b c (H1&H2&H3&H4) (H5&H6&H7&H8). unfold beside. by rewrite H5, H6, H7, H8. Qed.
Lemma beside_ends j st why exit log r r' : ends_as j st why exit log r → beside r r' → ends_as j st why exit log r'.
Proof.
  intros [H1 H2 H3 H4 H5 H6 H7 H8 H9 H10 H11] (B1&B2&B3&B4). injection B1 as E1 E2 E3 E4 E5 E6. injection B2 as E7 E8 E9. injection B3 as E10 E11 E12.
  injection B4 as E13 E14 E15 E16.
  split; rewrite ?E1, ?E2, ?E3, ?E4, ?E5, ?E6, ?E7, ?E8, ?E9, ?E10, ?E11, ?E12, ?E13, ?E14, ?E15, ?E16; assumption.
Qed.
(** [m] leaves a version beside [r]. *)
Definition row_by (id : string) (r : ComputeJob) (lg : Logs) (w : World) : Prop := ∃ r', row_at id r' lg w ∧ beside r r'.

Lemma does_finalize id r lg : does (row_at id r lg) (finalize clock follower_recent id) (λ _, row_by id r lg).
Proof.
  assert (Hsame : ∀ w, row_at id r lg w → row_by id r lg w) by (intros w Hw; by exists r).
  unfold finalize. eapply does_bind; [apply does_job|]. intros x. apply does_pure. intros ->. cbn [mbind option_bind].
  destruct (if job_is_terminal r then cf_shard (ct_fixed (cj_ctl r)) else None) as [sh|]; [eapply does_post; [by apply calm_does|intros ? w; apply Hsame]|].
  eapply does_bind; [apply does_job|]. intros x. apply does_pure. intros ->. destruct (bool_decide (is_Some (cf_shard _))); [by apply does_ret|]. cbv zeta.
  destruct (_ || bool_decide (is_Some (jo_notified_at _))); [by apply does_ret|].
  eapply does_bind; [by apply calm_does|]. intros n. eapply does_bind; [apply does_always|]. intros ?.
  eapply does_post; [by apply calm_does|]. intros ? w Hw. eexists. split; [exact Hw|by split_and!].
Qed.

(** Whether [after_attempt] queues the job again. *)
Definition again (r : ComputeJob) : bool :=
  is_infra (cj_state r) (cj_reason r)
  && negb (bool_decide (cf_any (ct_fixed (cj_ctl r)) = None) && retry_elsewhere_only (cj_reason r))
  && (ct_retries_used (cj_ctl r) <? allowed r).
Lemma does_exhausted id r ctl lg : cj_id r = id → ct_fixed ctl = ct_fixed (cj_ctl r) → ct_retries_used ctl = ct_retries_used (cj_ctl r) → ct_clock ctl = ct_clock (cj_ctl r) →
  does (row_at id r lg) (exhausted r ctl) (λ b w, b = false ∧ row_by id r lg w).
Proof.
  intros Hid H1 H2 H3 w Hw. unfold exhausted. rewrite Hid. revert w Hw.
  assert (H : ∀ c d, does (row_at id r lg) (set_job_ctl id ctl;; when c (set_job_reason id (cj_reason r) d);; mret false) (λ b w, b = false ∧ row_by id r lg w)).
  { intros c d. eapply does_bind; [apply does_ctl|]. intros ?. eapply does_bind with (Q := λ _, row_by id r lg).
    - assert (Hb : beside r (if sn_plan (cj_sent r) then with_ctl ctl r else r)).
      { destruct (sn_plan (cj_sent r)) eqn:Hp; [|reflexivity]. unfold beside, with_ctl, cj_ctl, cj_node in *. cbn. rewrite Hp. by rewrite H1, H2, H3. }
      apply does_when; [|by intros w _ Hw; eexists]. eapply does_post; [apply does_always|]. intros ? w Hw. eexists. split; [exact Hw|].
      etrans; [exact Hb|]. destruct (sn_plan (cj_sent r)); by split_and!.
    - intros ?. by apply does_ret. }
  intros w. apply H.
Qed.
Definition retried_at (id : string) (r : ComputeJob) (lg : Logs) (w : World) : Prop := ∃ r', row_at id r' lg w ∧ retried_as r r'.

(** A move keeps what a retry put. *)
Lemma does_move id j0 r avoid why lg : cj_id r = id → retried_as j0 r →
  does (row_at id r lg) (try_move digest choose r avoid true why) (λ _, retried_at id j0 lg).
Proof.
  intros Hid Hr. unfold try_move. assert (Hsame : ∀ w, row_at id r lg w → retried_at id j0 lg w) by (intros w Hw; by exists r).
  destruct (sn_plan (cj_sent r)); [|by apply does_ret]. intros w Hw. destruct (choose w r avoid true why) as [[[node p'] pl]|]; [|by apply Hsame].
  cbv zeta. revert w Hw.
  match goal with |- ∀ w, _ → retried_at _ _ _ (?m w).2 => enough (does (row_at id r lg) m (λ _, retried_at id j0 lg)) as H by exact H end.
  rewrite Hid. unfold move_queued_job. destruct (digest p') as [d|]; [|by apply does_ret].
  eapply does_bind; [apply does_update|]. intros b. apply does_pure. intros ->. destruct Hr as [Hs Ha Hu Ht Hl]. unfold is_state. rewrite Hs.
  rewrite (bool_decide_eq_true_2 (JobState_Queued = _)) by done. rewrite (bool_decide_eq_true_2 (Some true = Some true)) by done.
  eapply does_post; [apply calm_does; repeat (apply calm_bind; [auto with later|intros ?]); auto with later|].
  intros ? w Hw. eexists. split; [exact Hw|]. split; [reflexivity|exact Ha|exact Hu|exact Ht|exact Hl].
Qed.
Lemma does_retry id r ctl n lg : cj_id r = id → sn_plan (cj_sent r) ≠ None → ct_retries_used ctl = ct_retries_used (cj_ctl r) →
  does (row_at id r lg) (retry_attempt t digest choose r ctl n) (λ b w, b = true ∧ retried_at id r lg w).
Proof.
  intros Hid Hp Hu. unfold retry_attempt, requeue_new_attempt. cbv zeta. rewrite Hid.
  set (r1 := requeued "retry_backoff" (cj_attempt r + 1) (mk_Times None None None) (no_results (cj_out r)) r).
  eapply does_bind.
  { eapply does_bind; [apply does_update|]. intros b. apply does_pure. intros ->. cbn [always]. apply does_job. }
  intros x. apply does_pure. intros ->. eapply does_bind; [apply does_ctl|]. intros ?.
  change (sn_plan (cj_sent (requeued _ _ _ _ r))) with (sn_plan (cj_sent r)). destruct (sn_plan (cj_sent r)) as [p|] eqn:Hpl; [|done].
  fold r1. set (ctl' := ctl_retry _ _ _ ctl). set (r2 := with_ctl ctl' r1).
  assert (Hr2 : retried_as r r2) by (split; [reflexivity|by split|cbn; by rewrite Hu|reflexivity|reflexivity]).
  eapply does_bind; [apply calm_does; auto with later|]. intros ?. eapply does_bind; [apply does_job|]. intros x'. apply does_pure. intros ->.
  eapply does_bind with (Q := λ _, retried_at id r lg).
  - cbn [mbind option_bind]. destruct (bool_decide (is_Some (cf_any (ct_fixed (cj_ctl r2))))).
    + eapply does_bind; [by apply does_move|]. intros ?. intros w (r'&Hw&Hr'). exists r'. split; [|exact Hr'].
      by apply (calm_does (when _ (kick (cj_node r2))) id r' lg); [apply calm_when|].
    + eapply does_post; [apply calm_does; auto with later|]. intros ? w Hw. by exists r2.
  - intros ?. intros w (r'&Hw&Hr'). split; [done|]. exists r'. by split.
Qed.

Lemma does_after id r lg : cj_id r = id → sn_plan (cj_sent r) ≠ None →
  does (row_at id r lg) (after_attempt clock t digest choose id)
    (λ b w, b = again r ∧ if again r then retried_at id r lg w else row_by id r lg w).
Proof.
  intros Hid Hp. unfold after_attempt, again. cbv zeta. assert (Hsame : ∀ w, row_at id r lg w → row_by id r lg w) by (intros w Hw; by exists r).
  eapply does_bind; [by apply calm_does|]. intros n. eapply does_bind; [apply does_job|]. intros x. apply does_pure. intros ->.
  eapply does_bind; [apply calm_does; auto with later|]. intros aside'. eapply does_bind; [apply calm_does; auto with later|]. intros ?.
  destruct (is_infra (cj_state r) (cj_reason r)); cbn [negb andb]; [|apply does_ret; intros w Hw; split; [done|by apply Hsame]].
  destruct (bool_decide _ && retry_elsewhere_only _); cbn [negb andb]; [apply does_ret; intros w Hw; split; [done|by apply Hsame]|].
  change (ct_retries_used (ctl_failed _ (cj_ctl r))) with (ct_retries_used (cj_ctl r)).
  destruct (allowed r <=? ct_retries_used (cj_ctl r)) eqn:Hal.
  - rewrite (proj2 (Z.ltb_ge _ _)) by (by apply Z.leb_le). by apply does_exhausted.
  - rewrite (proj2 (Z.ltb_lt _ _)) by (by apply Z.leb_gt). by apply does_retry.
Qed.

(** *** An end *)

Lemma settle_terminal j st why d : is_terminal st = true → is_terminal (settle j st why d).1.1 = true.
Proof.
  intros Ht. unfold settle. cbv zeta. destruct (match _ with Some _ => _ | None => _ end) as [why' d'].
  destruct (reason_is CANCEL_REQUESTED (cj_reason j) && _); [reflexivity|exact Ht].
Qed.
Lemma stamp_ctl j st times at' skew : ct_fixed (sp_ctl (stamp_of j st times at' skew)) = ct_fixed (cj_ctl j)
  ∧ ct_retries_used (sp_ctl (stamp_of j st times at' skew)) = ct_retries_used (cj_ctl j).
Proof. unfold stamp_of. cbv zeta. by repeat case_match. Qed.
Lemma stamp_clock j st a s at' skew : is_terminal st = true → is_Some (ct_clock (sp_ctl (stamp_of j st (mk_NodeTimes (Some a) s) at' skew))).
Proof. intros Ht. unfold stamp_of. cbv zeta. cbn [nt_at nt_started_at]. rewrite Ht, orb_true_r. destruct (node_time a at' skew) as [[t' c] late]. by case_match. Qed.

Lemma does_cond id c f r lg : does (row_at id r lg) (when c (update_job id always f;; mret tt)) (λ _, row_at id (if c then f r else r) lg).
Proof. destruct c; [apply does_always|by apply does_ret]. Qed.
Lemma does_src id src r lg : does (row_at id r lg) (match src with Some x => set_job_src id (sra_commit x) (sra_tree x) | None => mret tt end)
  (λ _ w, ∃ r', row_at id r' lg w ∧ beside r r').
Proof. destruct src; [|intros w Hw; by exists r]. eapply does_post; [apply does_always|]. intros ? w Hw. eexists. split; [exact Hw|by split_and!]. Qed.

Lemma again_ended j st why exit log e : ends_as j st why exit log e →
  again e = is_infra st why && negb (bool_decide (cf_any (ct_fixed (cj_ctl j)) = None) && retry_elsewhere_only why)
    && (ct_retries_used (cj_ctl j) <? cf_retries (ct_fixed (cj_ctl j))).
Proof.
  intros [_ H2 H3 _ _ [H6 H7] [c H8] _ _ _ _]. unfold again, allowed.
  rewrite (bool_decide_eq_false_2 (cj_ctl e = JobCtl_default)) by (intros He; rewrite He in H8; discriminate). cbn [andb]. by rewrite H2, H3, H6, H7.
Qed.

(** The row when its end, [s], is put down. *)
Definition ended_row (j : ComputeJob) (st : JobState) (why d : option string) (s : Stamp) : ComputeJob :=
  let r := if nq_queued (cj_nodeq j) then put_nodeq (no_nodeq (cj_nodeq j)) j else j in
  let r := if bool_decide (is_Some (sp_started s)) then
      put_times (mk_Times (tm_assigned_at (cj_times r)) (opt_else (sp_started s) (tm_started_at (cj_times r))) (opt_else None (tm_ended_at (cj_times r)))) r else r in
  let r := to_state st why d (sp_at s) r in
  if bool_decide (sp_ctl s ≠ cj_ctl j) then if sn_plan (cj_sent r) then with_ctl (sp_ctl s) r else r else r.

Lemma ended_row_spec j st why d s :
  is_terminal st = true → sn_plan (cj_sent j) ≠ None → ct_fixed (sp_ctl s) = ct_fixed (cj_ctl j) → ct_retries_used (sp_ctl s) = ct_retries_used (cj_ctl j) →
  is_Some (ct_clock (sp_ctl s)) →
  let e := ended_row j st why d s in
  ends_as j st why None (jo_log_seq (cj_out j)) e ∧ cj_id e = cj_id j ∧ cj_ctl e = sp_ctl s.
Proof.
  intros Ht Hp Hf Hu Hc. cbv zeta. unfold ended_row. cbv zeta. set (r := if nq_queued _ then _ else j).
  assert (Hr : nq_queued (cj_nodeq r) = false ∧ cj_fixed r = cj_fixed j ∧ cj_sent r = cj_sent j ∧ cj_out r = cj_out j ∧ cj_times r = cj_times j
    ∧ cj_attempt r = cj_attempt j ∧ cj_generation r = cj_generation j).
  { unfold r. by destruct (nq_queued (cj_nodeq j)) eqn:Hq. }
  clearbody r. destruct Hr as (H1&H2&H3&H4&H5&H6&H7).
  set (r2 := if bool_decide _ then _ else r).
  assert (Hr2 : nq_queued (cj_nodeq r2) = false ∧ cj_fixed r2 = cj_fixed j ∧ cj_sent r2 = cj_sent j ∧ cj_out r2 = cj_out j
    ∧ cj_attempt r2 = cj_attempt j ∧ cj_generation r2 = cj_generation j) by (unfold r2; destruct (bool_decide _); by split_and!).
  clearbody r2. destruct Hr2 as (K1&K2&K3&K4&K5&K6). set (r3 := to_state _ _ _ _ r2).
  assert (Hend : is_Some (tm_ended_at (cj_times r3))) by (cbn; rewrite Ht; destruct (tm_ended_at (cj_times r2)); by eexists).
  assert (Hsent : cj_sent r3 = cj_sent j) by exact K3. rewrite Hsent. destruct (sn_plan (cj_sent j)) as [p|] eqn:Hpl; [|done].
  case_bool_decide as Hctl.
  - split; [|split; [unfold cj_id; cbn; by rewrite K2|reflexivity]].
    split; cbn; rewrite ?K2, ?K3, ?K4, ?K5, ?K6; try done; unfold cj_node, cj_ctl; cbn; rewrite ?K3; try done; by rewrite <- Hpl.
  - split; [|split; [unfold cj_id; cbn; by rewrite K2|unfold cj_ctl; by rewrite Hsent, Hctl]].
    split; cbn; rewrite ?K2, ?K3, ?K4, ?K5, ?K6; try done; unfold cj_node, cj_ctl; cbn; rewrite ?K3; try done. unfold cj_ctl in Hctl. by rewrite <- Hctl.
Qed.

Lemma does_ex {A} id lg (E : ComputeJob → Prop) (m : ServerM A) Q :
  (∀ r, E r → does (row_at id r lg) m Q) → does (λ w, ∃ r, row_at id r lg w ∧ E r) m Q.
Proof. intros H w (r&Hw&HE). by apply (H r HE). Qed.

(** The exit and the log's length join the end. *)
Lemma ends_exit j st why log exit r : ends_as j st why None log r → ends_as j st why exit log
  (match exit with
   | Some x => let o := cj_out r in
     put_out (mk_JobOut (jo_src_commit o) (jo_src_tree o) (ex_code x) (ex_signal x) (jo_log_seq o) (jo_log_bytes o) (jo_summary_json o) (jo_receipt_json o) (jo_receipt_ok o) (jo_notified_at o)) r
   | None => r
   end).
Proof. intros [H1 H2 H3 H4 H5 H6 H7 H8 H9 H10 H11]. destruct exit; [|by split]. by split. Qed.
Lemma ends_log j st why exit log seq b r : ends_as j st why exit log r → ends_as j st why exit (Z.max log (i64 seq))
  (let o := cj_out r in
   put_out (mk_JobOut (jo_src_commit o) (jo_src_tree o) (jo_exit_code o) (jo_signal o) (Z.max (jo_log_seq o) (i64 seq)) (Z.max (jo_log_bytes o) (i64 b))
     (jo_summary_json o) (jo_receipt_json o) (jo_receipt_ok o) (jo_notified_at o)) r).
Proof. intros [H1 H2 H3 H4 H5 H6 H7 H8 H9 H10 H11]. split; try assumption. cbn. by rewrite H9. Qed.

(** What [observe_progress] does once the end is put down. *)
Lemma does_ending id e0 j st why lg node exit src ws owed detail : cj_id j = id → sn_plan (cj_sent j) ≠ None →
  ends_as j st why None (jo_log_seq (cj_out j)) e0 →
  let '(last, lg') := copy_last_seq id (cj_generation j) lg in
  does (row_at id e0 lg)
    (match src with Some x => set_job_src id (sra_commit x) (sra_tree x) | None => mret tt end;;
     match exit with Some x => set_job_exit id (ex_code x) (ex_signal x) | None => mret tt end;;
     (λ w, let '(last, lg) := copy_last_seq id (cj_generation j) (w_logs w) in set_job_log id last 0 (set_logs lg w));;
     record_event "node" "job_end" (Some node) ws (Some id) detail;;
     b ← if (owed : bool) then mret false else after_attempt clock t digest choose id;
     if (b : bool) then mret tt else finalize clock follower_recent id)
    (λ _ w, ∃ e, ends_as j st why exit (Z.max (jo_log_seq (cj_out j)) (i64 last)) e
       ∧ if negb owed && again e then retried_at id e lg' w else row_by id e lg' w).
Proof.
  intros Hid Hp He0. destruct (copy_last_seq id (cj_generation j) lg) as [last lg'] eqn:Hlast.
  eapply does_bind; [apply does_src|]. intros ?. apply does_ex. intros r Hb. pose proof (beside_ends _ _ _ _ _ _ _ He0 Hb) as Hr.
  pose proof (ends_exit _ _ _ _ exit _ Hr) as Hr1. set (r1 := match exit with Some _ => _ | None => r end) in *.
  eapply does_bind with (Q := λ _, row_at id r1 lg); [unfold r1; destruct exit; [eapply does_post; [apply does_always|by intros ? w Hw]|by apply does_ret]|]. intros ?.
  pose proof (ends_log _ _ _ _ _ last 0 _ Hr1) as Hr2. set (e := put_out _ r1 : ComputeJob) in Hr2. cbv zeta in Hr2.
  eapply does_bind with (Q := λ _, row_at id e lg').
  { intros w (Hf&Hw&Hl). rewrite Hl, Hlast. refine (does_post _ _ _ (λ _, row_at id e lg') (does_always id _ r1 lg') _ (set_logs lg' w) _); [by intros ? w' Hw'|by split_and!]. }
  intros ?. eapply does_bind; [apply calm_does, calm_event|]. intros ?.
  assert (Hide : cj_id e = id) by (unfold cj_id; rewrite (ea_fixed _ _ _ _ _ _ Hr2); exact Hid).
  assert (Hpe : sn_plan (cj_sent e) ≠ None) by (destruct (ea_node _ _ _ _ _ _ Hr2) as (_&->&_); exact Hp).
  destruct owed; cbn [negb andb].
  { eapply does_bind with (Q := λ b w, b = false ∧ row_at id e lg' w); [by apply does_ret|]. intros b. apply does_pure. intros ->.
    eapply does_post; [apply does_finalize|]. intros ? w Hw. by exists e. }
  eapply does_bind; [by apply does_after|]. intros b. apply does_pure. intros ->. destruct (again e) eqn:Hag.
  - apply does_ret. intros w Hw. exists e. by rewrite Hag.
  - intros w (r'&Hw&Hb'). pose proof (does_finalize id r' lg' w Hw) as (r''&Hw'&Hb''). exists e. split; [exact Hr2|]. rewrite Hag. exists r''. split; [exact Hw'|by etrans].
Qed.

Lemma does_progress id j lg node st why d exit src a s0 n : cj_id j = id → sn_plan (cj_sent j) ≠ None → is_terminal st = true →
  let '(last, lg') := copy_last_seq id (cj_generation j) lg in
  let '(st', why', _) := settle j st why d in
  does (row_at id j lg) (observe_progress clock t follower_recent digest choose node j st why d exit src (mk_NodeTimes (Some a) s0) n)
    (λ _ w, ∃ e, ends_as j st' why' exit (Z.max (jo_log_seq (cj_out j)) (i64 last)) e
       ∧ if negb (reason_is CANCEL_REQUESTED (cj_reason j)) && again e then retried_at id e lg' w else row_by id e lg' w).
Proof.
  intros Hid Hp Ht. unfold observe_progress. cbv zeta. rewrite Hid. pose proof (settle_terminal j st why d Ht) as Ht'.
  destruct (settle j st why d) as [[st' why'] d'] eqn:Hset. cbn [fst] in Ht'.
  destruct (copy_last_seq id (cj_generation j) lg) as [last lg'] eqn:Hlast.
  set (r1 := if nq_queued (cj_nodeq j) then put_nodeq (no_nodeq (cj_nodeq j)) j else j).
  eapply does_bind with (Q := λ _, row_at id r1 lg).
  { unfold r1. destruct (nq_queued (cj_nodeq j)) eqn:Hq; [|by apply does_ret]. eapply does_post; [apply does_clear|]. intros ? w Hw. by rewrite Hq in Hw. }
  intros ?. eapply does_bind; [apply calm_does, calm_when, calm_event|]. intros ?.
  eapply does_bind; [apply calm_does; cbn [nt_at]; destruct (_ || _); auto with later|]. intros skew.
  set (s := stamp_of j st' (mk_NodeTimes (Some a) s0) n skew).
  eapply does_bind with (Q := λ _, row_at id (if bool_decide (is_Some (sp_started s)) then
      put_times (mk_Times (tm_assigned_at (cj_times r1)) (opt_else (sp_started s) (tm_started_at (cj_times r1))) (opt_else None (tm_ended_at (cj_times r1)))) r1 else r1) lg).
  { eapply does_post; [unfold set_job_times; apply does_cond|]. intros ? w Hw. exact Hw. }
  intros ?. set (r2 := if bool_decide _ then _ else r1).
  eapply does_bind with (Q := λ _, row_at id (to_state st' why' d' (sp_at s) r2) lg).
  { eapply does_post; [apply does_update|]. by intros ? w [_ Hw]. }
  intros ?. eapply does_bind with (Q := λ _, row_at id (ended_row j st' why' d' s) lg).
  { unfold ended_row. cbv zeta. fold r1. fold r2. destruct (bool_decide (sp_ctl s ≠ cj_ctl j)); [|by apply does_ret].
    eapply does_bind; [apply does_ctl|]. intros ?. by apply does_ret. }
  intros ?. eapply does_bind; [apply calm_does, calm_when, calm_event|]. intros ?.
  rewrite Ht'. cbn [negb]. destruct (stamp_ctl j st' (mk_NodeTimes (Some a) s0) n skew) as [Hf Hu].
  destruct (ended_row_spec j st' why' d' s Ht' Hp Hf Hu (stamp_clock j st' a s0 n skew Ht')) as (He&_&_).
  pose proof (does_ending id _ j st' why' lg node exit src (Some (jf_workspace_id (cj_fixed j))) (reason_is CANCEL_REQUESTED (cj_reason j))
    [("state", V_str (JobState_as_str st')); ("reason", v_opt why'); ("exit", match exit ≫= ex_code with Some c => V_int c | None => V_null end)] Hid Hp He) as Hend.
  rewrite Hlast in Hend. exact Hend.
Qed.

Lemma does_outputs id r lg node o : cj_id r = id → does (row_at id r lg) (store_outputs outputs_text node id (cj_generation r) o) (λ _, row_by id r lg).
Proof.
  intros Hid. assert (Hsame : ∀ w, row_at id r lg w → row_by id r lg w) by (intros w Hw; by exists r).
  unfold store_outputs. eapply does_bind; [apply does_job|]. intros x. apply does_pure. intros ->. destruct (_ || _); [by apply does_ret|].
  destruct (outputs_text o); [|by apply does_ret]. eapply does_bind; [apply does_update|]. intros ?. apply does_ret. intros w [_ Hw]. rewrite Z.eqb_refl in Hw.
  eexists. split; [exact Hw|by split_and!].
Qed.

Lemma beside_settle r r' st why d : beside r r' → settle r' st why d = settle r st why d.
Proof. intros (B1&_&B3&_). injection B1 as _ _ E3 _ _ _. injection B3 as E6 _ _. unfold settle, replaced_end. by rewrite E3, E6. Qed.
Lemma ends_back j j' st why exit last r : beside j j' →
  ends_as j' st why exit (Z.max (jo_log_seq (cj_out j')) last) r → ends_as j st why exit (Z.max (jo_log_seq (cj_out j)) last) r.
Proof.
  intros (B1&B2&B3&B4) [H1 H2 H3 H4 H5 H6 H7 H8 H9 H10 H11]. injection B1 as E1 E2 E3 E4 E5 E6. injection B2 as E7 E8 E9. injection B3 as E10 E11 E12.
  injection B4 as E13 E14 E15 E16.
  split; rewrite <- ?E1, <- ?E4, <- ?E5, <- ?E7, <- ?E8, <- ?E9, <- ?E10, <- ?E11, <- ?E13, <- ?E14, <- ?E15; assumption.
Qed.

(** Whether an end of [j] as [st], [why] is followed by another attempt. *)
Definition retries (j : ComputeJob) (st : JobState) (why : option string) : bool :=
  negb (reason_is CANCEL_REQUESTED (cj_reason j)) && is_infra st why
  && negb (bool_decide (cf_any (ct_fixed (cj_ctl j)) = None) && retry_elsewhere_only why)
  && (ct_retries_used (cj_ctl j) <? cf_retries (ct_fixed (cj_ctl j))).
(** The row of a job a frame of its node ends: the end, or a new attempt. *)
Definition ended_at (id : string) (j : ComputeJob) (st : JobState) (why : option string) (exit : option ExitInfo) (last : Z) (lg : Logs) (w : World) : Prop :=
  ∃ r, row_at id r lg w ∧ if retries j st why then retried_as j r else ends_as j st why exit (Z.max (jo_log_seq (cj_out j)) (i64 last)) r.

(** A cancelled job the node gave back isn't ended by that. *)
Definition ends_here (j : ComputeJob) (s : StateUpdate) : Prop :=
  su_state s = JobState_Cancelled → given_back (cj_reason j) (su_reason s) = false
    ∨ reason_is CANCEL_REQUESTED (cj_reason j) = true ∨ reason_is pending_CANCEL (cj_reason j) = true.

Lemma does_observed j lg s : cj_id j = su_job_id s → cj_generation j = su_generation s → job_is_terminal j = false → is_terminal (su_state s) = true →
  sn_plan (cj_sent j) ≠ None → ends_here j s →
  let '(last, lg') := copy_last_seq (su_job_id s) (su_generation s) lg in
  let '(st, why, _) := settle j (su_state s) (su_reason s) (su_detail s) in
  does (row_at (su_job_id s) j lg)
    (apply_observation clock t follower_recent blocked_words digest choose (cj_node j) (su_job_id s) (su_generation s) (su_state s) (su_reason s) (su_detail s)
      (su_exit s) (su_src s) (su_queue s) (mk_NodeTimes (Some (su_at s)) None))
    (λ _, ended_at (su_job_id s) j st why (su_exit s) last lg').
Proof.
  intros Hid Hg Ho Ht Hp Hback.
  pose proof (λ node n, does_progress (su_job_id s) j lg node (su_state s) (su_reason s) (su_detail s) (su_exit s) (su_src s) (su_at s) None n Hid Hp Ht) as Hprog.
  rewrite Hg in Hprog. destruct (copy_last_seq (su_job_id s) (su_generation s) lg) as [last lg'].
  destruct (settle j (su_state s) (su_reason s) (su_detail s)) as [[st why] d] eqn:Hset.
  unfold apply_observation. eapply does_bind; [apply does_job|]. intros x. apply does_pure. intros ->.
  rewrite bool_decide_eq_true_2, Hg, Z.eqb_refl, Ho by done. cbn [negb orb]. eapply does_bind; [by apply calm_does|]. intros n. cbv zeta.
  assert (Hq : bool_decide (su_state s = JobState_Queued) = false) by (apply bool_decide_eq_false; intros He; by rewrite He in Ht). rewrite Hq. cbn [andb].
  assert (Hb : bool_decide (su_state s = JobState_Cancelled) && given_back (cj_reason j) (su_reason s)
    && negb (reason_is CANCEL_REQUESTED (cj_reason j) || reason_is pending_CANCEL (cj_reason j)) = false).
  { destruct (bool_decide (su_state s = JobState_Cancelled)) eqn:Hc; [|done]. apply bool_decide_eq_true in Hc. cbn [andb].
    destruct (Hback Hc) as [Hx|[Hx|Hx]]; rewrite Hx; [done|apply andb_false_r|rewrite orb_true_r; apply andb_false_r]. }
  rewrite Hb. eapply does_post; [apply Hprog|]. intros ? w (e&He&Hw). unfold ended_at, retries. rewrite (again_ended _ _ _ _ _ _ He), !andb_assoc in Hw.
  destruct (_ && (ct_retries_used (cj_ctl j) <? _)).
  - destruct Hw as (r&Hw&[R1 R2 R3 R4 R5]). exists r. split; [exact Hw|]. destruct He as [_ _ _ [E1 E2] _ [_ E3] _ _ _ _ _]. split; [exact R1|by rewrite <- E1, <- E2|by rewrite <- E3|exact R4|exact R5].
  - destruct Hw as (r&Hw&Hr). exists r. split; [exact Hw|]. by eapply beside_ends.
Qed.

Lemma does_receipt id r lg node g x : cj_id r = id → does (row_at id r lg) (on_receipt artifacts_text verify node id g x) (λ _, row_by id r lg).
Proof.
  intros Hid. assert (Hsame : ∀ w, row_at id r lg w → row_by id r lg w) by (intros w Hw; by exists r).
  unfold on_receipt. eapply does_bind; [apply does_job|]. intros y. apply does_pure. intros ->. destruct (_ || _); [by apply does_ret|].
  eapply does_bind; [by apply calm_does|]. intros [n|]; [|by apply does_ret]. cbv zeta. rewrite Hid.
  eapply does_bind with (Q := λ _, row_by id r lg).
  { eapply does_post; [apply does_always|]. intros ? w Hw. eexists. split; [exact Hw|by split_and!]. }
  intros ?. apply does_ex. intros r1 Hb1. assert (Hr1 : ∀ w, row_at id r1 lg w → row_by id r lg w) by (intros w Hw; by exists r1).
  eapply does_bind with (Q := λ _, row_by id r lg).
  - unfold when. destruct (_ && _); [|by apply does_ret]. destruct (verify (nf_key n) x) as [c|]; [|by apply does_ret]. destruct (bool_decide _); [by apply does_ret|].
    destruct (artifacts_text _); [|by apply does_ret]. eapply does_bind; [apply does_update|]. intros ?. apply does_ret. intros w [_ Hw].
    eexists. split; [exact Hw|]. etrans; [exact Hb1|]. destruct (cj_generation r1 =? cj_generation r); by split_and!.
  - intros ?. apply does_ex. intros r' Hb. eapply does_post; [apply calm_does; auto with later|]. intros ? w Hw. by exists r'.
Qed.

Lemma does_on_state s j lg0 : cj_id j = su_job_id s → cj_generation j = su_generation s → job_is_terminal j = false → is_terminal (su_state s) = true →
  sn_plan (cj_sent j) ≠ None → ends_here j s →
  let '(last, lg) := copy_last_seq (su_job_id s) (su_generation s) lg0 in
  let '(st, why, _) := settle j (su_state s) (su_reason s) (su_detail s) in
  does (row_at (su_job_id s) j lg0) (on_state clock t follower_recent blocked_words digest choose outputs_text (cj_node j) s)
    (λ _, ended_at (su_job_id s) j st why (su_exit s) last lg).
Proof.
  intros Hid Hg Ho Ht Hp Hback. destruct (copy_last_seq _ _ _) as [last lg] eqn:Hlast. destruct (settle j _ _ _) as [[st why] d] eqn:Hset.
  set (id := su_job_id s) in *.
  unfold on_state. eapply does_bind with (Q := λ _, row_by id j lg0).
    { destruct (su_outputs s); [|apply does_ret; intros w' Hw; by exists j]. rewrite Ht, <- Hg. by apply does_outputs. }
    intros ?. apply does_ex. intros j1 Hb. pose proof Hb as Hb'.
    destruct Hb' as (B1&B2&_&_). injection B1 as E1 E2 E3 _ E5 _. injection B2 as E7 E8 _.
    eapply does_bind with (Q := λ _, ended_at id j st why (su_exit s) last lg).
    - pose proof (does_observed j1 lg0 s) as Hobs. unfold cj_id, job_is_terminal, ends_here in Hobs. rewrite E1, E2, E3, E5, E7, E8, (beside_settle j) in Hobs by exact Hb.
      specialize (Hobs Hid Hg Ho Ht Hp Hback). fold id in Hobs. rewrite Hlast, Hset in Hobs. eapply does_post; [exact Hobs|].
      intros ? w' (r&Hw&Hend). exists r. split; [exact Hw|].
      assert (Hre : retries j1 st why = retries j st why).
      { destruct Hb as (_&_&B3&_). injection B3 as E10 E11 _. unfold retries. by rewrite E3, E10, E11. }
      rewrite Hre in Hend. destruct (retries j st why); [|by eapply ends_back].
      destruct Hend as [R1 R2 R3 R4 R5]. destruct Hb as (B1'&_&B3&_). injection B1' as _ _ _ F4 F5 _. injection B3 as _ F11 _. split; rewrite <- ?F4, <- ?F5, <- ?F11; assumption.
    - intros ? w' (r&Hw&Hend). exists r. split; [|exact Hend].
      eapply (does_bind (row_at id r lg) (when _ _) (λ _, notify_change) (λ _, row_at id r lg) (λ _, row_at id r lg)); [| |exact Hw].
      + apply calm_does, calm_when, calm_bind; [auto with later|]. intros ?. auto with later.
      + intros ?. apply calm_does. auto with later.
Qed.

(** ** Frames that are not the job's *)

(** The table's row of [id], if any, is on another node or of another attempt. *)
Definition not_its (node id : string) (g : Z) (w : World) : Prop := ∀ j, w_rows w !! id = Some j → cj_node j ≠ node ∨ cj_generation j ≠ g.
Definition untouched (w w' : World) : Prop := w_rows w' = w_rows w ∧ w_events w' = w_events w ∧ w_logs w' = w_logs w ∧ w_health w' = w_health w.
Lemma not_its_read {B} node id g w (k : option ComputeJob → ServerM B) :
  not_its node id g w → (∀ w', untouched w w' → untouched w (k None w').2) →
  (∀ j w', negb (bool_decide (cj_node j = node)) || negb (cj_generation j =? g) = true → untouched w w' → untouched w (k (Some j) w').2) →
  untouched w ((job_by_id id ≫= k) w).2.
Proof.
  intros Hn Hnone Hsome. unfold mbind, ServerM_bind. destruct (job_read id w) as (f&H2&H1). destruct (job_by_id id w) as [x w1]. cbn in H2, H1. subst w1.
  destruct x as [j|]; [|by apply Hnone]. destruct H1 as [?|H1]; [done|]. apply Hsome; [|done]. destruct (Hn j (eq_sym H1)) as [H|H].
  - by rewrite bool_decide_eq_false_2.
  - apply Z.eqb_neq in H. rewrite H. apply orb_true_r.
Qed.
Lemma not_its_untouched node id g w w' : untouched w w' → not_its node id g w → not_its node id g w'.
Proof. intros (Hr&_) H j. rewrite Hr. apply H. Qed.
Lemma stale_outputs node id g o w : not_its node id g w → untouched w (store_outputs outputs_text node id g o w).2.
Proof. intros H. apply (not_its_read node id g); [exact H|done|]. intros j w' ->. done. Qed.
Lemma stale_observation node id g st why d exit src q times w : not_its node id g w →
  untouched w (apply_observation clock t follower_recent blocked_words digest choose node id g st why d exit src q times w).2.
Proof. intros H. apply (not_its_read node id g); [exact H|done|]. intros j w' ->. done. Qed.
Lemma untouched_trans a b c : untouched a b → untouched b c → untouched a c.
Proof. intros (?&?&?&?) (?&?&?&?). split_and!; congruence. Qed.

Lemma untouched_bind {A B} w0 w (m : ServerM A) (k : A → ServerM B) :
  untouched w0 (m w).2 → (∀ x w1, untouched w0 w1 → untouched w0 (k x w1).2) → untouched w0 ((m ≫= k) w).2.
Proof. intros Hm Hk. unfold mbind, ServerM_bind. destruct (m w) as [x w1]. by apply Hk. Qed.

(** ** A cancel that is owed *)

(** Attempt [g] of [id] has ended, or is on a node with its cancel owed. *)
Definition owed (g : Z) (r : ComputeJob) : Prop :=
  cj_generation r = g ∧ (job_is_terminal r = true ∨ cj_reason r = Some CANCEL_REQUESTED ∧ cj_state r ≠ JobState_Queued).
Definition owed_at (id : string) (g : Z) (w : World) : Prop := ∃ r, w_rows w !! id = Some r ∧ owed g r.
Definition stands {A} (id : string) (g : Z) (m : ServerM A) : Prop := ∀ w, owed_at id g w → owed_at id g (m w).2.
Lemma stands_bind {A B} id g (m : ServerM A) (k : A → ServerM B) : stands id g m → (∀ x, stands id g (k x)) → stands id g (m ≫= k).
Proof. intros Hm Hk w Hw. unfold mbind, ServerM_bind. specialize (Hm w Hw). destruct (m w) as [x w1]. by apply Hk. Qed.
Lemma stands_quiet {A} id g (m : ServerM A) : quiet m → stands id g m.
Proof. intros H w (r&Hr&Ho). exists r. by rewrite H. Qed.
Lemma stands_when id g c m : stands id g m → stands id g (when c m).
Proof. destruct c; [done|]. intros _. by apply stands_quiet. Qed.
Lemma stands_update id g id' p f : (∀ r, owed g r → p r = true → owed g (f r)) → stands id g (update_job id' p f).
Proof.
  intros H w (r&Hr&Ho). destruct (update_job_rows id' p f w) as [b Hw]. unfold owed_at. rewrite Hw.
  destruct (w_rows w !! id') as [r'|] eqn:Hr'; [|by exists r]. destruct (b && p r') eqn:Hb; [|by exists r]. bool_props.
  destruct (decide (id = id')) as [->|Hne]; [|exists r; by rewrite lookup_insert_ne]. exists (f r'). rewrite lookup_insert_eq. split; [done|].
  apply H; [congruence|done].
Qed.
(** What leaves the attempt and its status alone. *)
Lemma stands_status id g id' p f : (∀ r, cj_generation (f r) = cj_generation r ∧ cj_state (f r) = cj_state r ∧ cj_reason (f r) = cj_reason r) →
  stands id g (update_job id' p f;; mret tt).
Proof.
  intros H. apply stands_bind; [|intros; by apply stands_quiet]. apply stands_update. intros r [Hg Ho] _. destruct (H r) as (H1&H2&H3).
  unfold owed, job_is_terminal. by rewrite H1, H2, H3.
Qed.
Lemma stands_ctl id g id' c : stands id g (set_job_ctl id' c).
Proof.
  unfold set_job_ctl. apply stands_bind; [apply stands_quiet, quiet_job|]. intros [j|]; [|by apply stands_quiet]. destruct (sn_plan (cj_sent j)); [|by apply stands_quiet].
  apply stands_update. by intros r Ho _.
Qed.
Lemma stands_finalize id g id' : stands id g (finalize clock follower_recent id').
Proof.
  assert (Hret : ∀ {A} (x : A), stands id g (mret x)) by (intros A x; by apply stands_quiet).
  unfold finalize. apply stands_bind; [apply stands_quiet, quiet_job|]. intros j. destruct (j ≫= _); [by apply stands_quiet|].
  apply stands_bind; [apply stands_quiet, quiet_job|]. intros [j'|]; [|apply Hret]. destruct (bool_decide _); [apply Hret|]. cbv zeta. destruct (_ || _); [apply Hret|].
  apply stands_bind; [by apply stands_quiet|]. intros n. apply stands_bind; [by apply stands_status|]. intros ?. by apply stands_quiet.
Qed.
Lemma settle_owed j st why d : cj_reason j = Some CANCEL_REQUESTED → st ≠ JobState_Queued →
  let '(st', why', _) := settle j st why d in is_terminal st' = true ∨ why' = Some CANCEL_REQUESTED ∧ st' ≠ JobState_Queued.
Proof.
  intros Hr Hq. unfold settle, replaced_end. replace (reason_is CANCEL_REQUESTED (cj_reason j)) with true by (rewrite Hr; reflexivity).
  replace (reason_is pending_CANCEL (cj_reason j)) with false by (rewrite Hr; reflexivity). cbv zeta.
  destruct st; try done; cbn [bool_decide andb orb negb is_terminal]; try (by right); try (by left); repeat case_match; simplify_eq; auto.
Qed.
Lemma stands_set_state id g id' st why d n : is_terminal st = true ∨ why = Some CANCEL_REQUESTED ∧ st ≠ JobState_Queued → stands id g (set_job_state id' st why d n).
Proof. intros H. apply stands_update. intros r [Hg _] _. by split. Qed.

Lemma stands_refused id g node j why d n : cj_reason j = Some CANCEL_REQUESTED → stands id g (observe_refused clock follower_recent node j why d n).
Proof.
  intros Hr. unfold observe_refused. cbv zeta. replace (reason_is CANCEL_REQUESTED (cj_reason j)) with true by (rewrite Hr; reflexivity). cbn [orb].
  destruct (default _ _) as [end_ d']. apply stands_bind; [apply stands_set_state; by left|]. intros ?.
  apply stands_bind; [apply stands_quiet, quiet_event|]. intros ?. apply stands_finalize.
Qed.
Lemma stands_progress id g node j st why d exit src times n : cj_reason j = Some CANCEL_REQUESTED → st ≠ JobState_Queued →
  stands id g (observe_progress clock t follower_recent digest choose node j st why d exit src times n).
Proof.
  intros Hr Hq. unfold observe_progress. cbv zeta. pose proof (settle_owed j st why d Hr Hq) as Hs. destruct (settle j st why d) as [[st' why'] d'].
  assert (Hret : ∀ {A} (x : A), stands id g (mret x)) by (intros A x; by apply stands_quiet).
  apply stands_bind; [apply stands_when, stands_status; by intros r|]. intros ?.
  apply stands_bind; [apply stands_when, stands_quiet, quiet_event|]. intros ?.
  apply stands_bind; [apply stands_quiet; destruct (nt_at times); [|done]; destruct (_ || _); auto with later|]. intros skew.
  apply stands_bind; [apply stands_when, stands_status; by intros r|]. intros ?.
  apply stands_bind; [by apply stands_set_state|]. intros ?.
  apply stands_bind; [apply stands_when, stands_bind; [apply stands_ctl|intros; apply Hret]|]. intros ?.
  apply stands_bind; [apply stands_when, stands_quiet, quiet_event|]. intros ?.
  apply stands_bind; [destruct src; [by apply stands_status|apply Hret]|]. intros ?.
  apply stands_bind; [destruct exit; [by apply stands_status|apply Hret]|]. intros ?.
  destruct (negb _); [apply Hret|].
  apply stands_bind; [intros w Hw; destruct (copy_last_seq (cj_id j) (cj_generation j) (w_logs w)) as [last lg]; by apply (stands_status id g (cj_id j))|].
  intros ?. apply stands_bind; [apply stands_quiet, quiet_event|]. intros ?. replace (reason_is CANCEL_REQUESTED (cj_reason j)) with true by (rewrite Hr; reflexivity).
  apply stands_bind; [apply Hret|]. intros b. destruct b; [apply Hret|apply stands_finalize].
Qed.
(** ** Properties *)


(** A row from before retries were options, with its one retry for an
    interruption. *)
Definition old_options (j : ComputeJob) : bool := bool_decide (cj_ctl j = JobCtl_default) && jf_retry_interrupted (cj_fixed j).

(** (C15) The end a node reports of a job's attempt, in a frame that is the
    attempt's and gives no queued job back, with every statement going
    through, is recorded: as the node says it, or as a cancel that is owed
    turns it, with its exit and the length of the log the server has; or the
    job is queued again under a new generation, exactly when the end was the
    node's fault and retries are left.  Rows from before retries were options
    are left out: they lose the retry they had ([legacy_retry_lost]). *)
Theorem end_recorded s w j : w_faults w = [] → w_rows w !! su_job_id s = Some j → cj_id j = su_job_id s →
  cj_generation j = su_generation s → job_is_terminal j = false → is_terminal (su_state s) = true → sn_plan (cj_sent j) ≠ None → ends_here j s →
  old_options j = false →
  let '(last, lg) := copy_last_seq (su_job_id s) (su_generation s) (w_logs w) in
  let '(st, why, _) := settle j (su_state s) (su_reason s) (su_detail s) in
  let w' := (on_state clock t follower_recent blocked_words digest choose outputs_text (cj_node j) s w).2 in
  ∃ r, w_rows w' !! su_job_id s = Some r ∧ w_logs w' = lg
    ∧ if retries j st why then retried_as j r else ends_as j st why (su_exit s) (Z.max (jo_log_seq (cj_out j)) (i64 last)) r.
Proof.
  intros Hf Hr Hid Hg Ho Ht Hp Hback _. destruct (copy_last_seq _ _ _) as [last lg] eqn:Hlast. destruct (settle j _ _ _) as [[st why] d] eqn:Hset. cbv zeta.
  pose proof (does_on_state s j (w_logs w) Hid Hg Ho Ht Hp Hback) as H. rewrite Hlast, Hset in H.
  destruct (H w) as (r&(_&Hr'&Hl)&Hend); [by split_and!|]. exists r. by split_and!.
Qed.

(** (C16) A cancel by force that the node still owes stands: whatever the node
    reports of the attempt, and whichever statements fail, the job is not
    queued again: its attempt has ended, or is on the node with the cancel
    still owed. *)
Theorem cancel_stands node id g st why d exit src q times w : owed_at id g w →
  owed_at id g (apply_observation clock t follower_recent blocked_words digest choose node id g st why d exit src q times w).2.
Proof.
  intros (r&Hr&Ho). unfold apply_observation, mbind at 1, ServerM_bind at 1. destruct (job_read id w) as (f&H2&H1). destruct (job_by_id id w) as [x w1].
  cbn [fst snd] in H2, H1. assert (Hw : owed_at id g w1) by (rewrite H2; by exists r).
  destruct x as [j|]; [|exact Hw]. destruct H1 as [?|H1]; [done|]. rewrite Hr in H1. injection H1 as ->.
  destruct (_ || _); [exact Hw|]. destruct (job_is_terminal r) eqn:Ht; [exact Hw|]. destruct Ho as [_ [Ho|[Hwhy Hst]]]; [congruence|].
  revert w1 H2 Hw. intros w1 _. revert w1.
  match goal with |- ∀ w1, _ → owed_at id g (?m w1).2 => enough (stands id g m) as H by exact H end.
  apply stands_bind; [by apply stands_quiet|]. intros n. cbv zeta.
  replace (reason_is CANCEL_REQUESTED (cj_reason r)) with true by (rewrite Hwhy; reflexivity). cbn [orb negb].
  destruct (bool_decide (st = JobState_Queued) && reason_is codes_NODE_QUEUED why).
  { apply stands_bind; [|intros; by apply stands_quiet]. apply stands_update. intros r' [Hg Ho] _. by split. }
  rewrite andb_false_r. case_bool_decide as Hq; [by apply stands_refused|by apply stands_progress].
Qed.

End handlers.

(** ** Times *)

(** Assigned, started and ended in this order, none of them after [now]. *)
Record in_order (now : Z) (x : Times) : Prop := {
  io_assigned : ∀ a, tm_assigned_at x = Some a → a ≤ now;
  io_started : ∀ s, tm_started_at x = Some s → s ≤ now;
  io_ended : ∀ e, tm_ended_at x = Some e → e ≤ now;
  io_assigned_started : ∀ a s, tm_assigned_at x = Some a → tm_started_at x = Some s → a ≤ s;
  io_assigned_ended : ∀ a e, tm_assigned_at x = Some a → tm_ended_at x = Some e → a ≤ e;
  io_started_ended : ∀ s e, tm_started_at x = Some s → tm_ended_at x = Some e → s ≤ e;
}.
Lemma node_time_past at' now skew : (node_time at' now skew).1.1 ≤ now.
Proof. unfold node_time. repeat case_match; cbn; lia. Qed.
Lemma node_time_server at' now skew : (node_time at' now skew).1.2 ≠ "node" → (node_time at' now skew).1.1 = now.
Proof. unfold node_time. by repeat case_match. Qed.

(** (C37) The times of a start or of an end are in order whatever the node says
    they are, and whichever clock is taken. *)
Theorem stamped_in_order j st why d times now skew : i64_min ≤ now → st = JobState_Running ∨ is_terminal st = true →
  in_order now (cj_times j) → tm_ended_at (cj_times j) = None →
  in_order now (cj_times (ended_row j st why d (stamp_of j st times now skew))).
Proof.
  intros Hnow Hst [H1 H2 _ H4 _ _] He.
  assert (Hrow : ∀ s, cj_times (ended_row j st why d s) = cj_times (to_state st why d (sp_at s) (put_times (mk_Times (tm_assigned_at (cj_times j)) (opt_else (sp_started s) (tm_started_at (cj_times j))) None) j))).
  { intros s. unfold ended_row. cbv zeta. rewrite <- He. destruct (nq_queued _), (sp_started s), (bool_decide (sp_ctl s ≠ _)); cbn; try destruct (sn_plan _); cbn; rewrite ?He; try done;
    by destruct (tm_started_at (cj_times j)), (is_terminal st). }
  rewrite Hrow. clear Hrow.
  set (s := stamp_of j st times now skew).
  assert (Hs : sp_at s ≤ now ∧ (∀ a, tm_assigned_at (cj_times j) = Some a → a ≤ sp_at s) ∧ (st ≠ JobState_Running → ∀ b, tm_started_at (cj_times j) = Some b → b ≤ sp_at s)
    ∧ ∀ b, sp_started s = Some b → tm_started_at (cj_times j) = None ∧ b ≤ sp_at s ∧ ∀ a, tm_assigned_at (cj_times j) = Some a → a ≤ b).
  { unfold s, stamp_of. cbv zeta. destruct (nt_at times) as [at'|]; [|cbn; split_and!; auto; done].
    destruct (_ || _); [|cbn; split_and!; auto; done]. pose proof (node_time_past at' now skew) as Hp. destruct (node_time at' now skew) as [[t' clk] late]. cbn in Hp.
    destruct (bool_decide (_ = "node")); [|cbn; split_and!; auto; done].
    assert (Hasg : ∀ a, tm_assigned_at (cj_times j) = Some a → a ≤ now ∧ ∀ b, tm_started_at (cj_times j) = Some b → a ≤ b) by (intros a Ha; split; auto).
    assert (Hstd : ∀ b, tm_started_at (cj_times j) = Some b → b ≤ now) by auto. clear H1 H2 H4.
    assert (Hrun : is_terminal st = true → bool_decide (st = JobState_Running) = false) by (by destruct st).
    destruct (is_terminal st) eqn:Ht; [rewrite Hrun by done|destruct Hst as [->|?]; [|done]; rewrite bool_decide_eq_true_2 by done];
      destruct (tm_assigned_at (cj_times j)) as [a|], (tm_started_at (cj_times j)) as [b|], (nt_started_at times) as [c|]; cbn;
      try (destruct (Hasg a eq_refl) as [Ha Hab]); try specialize (Hab b eq_refl); try specialize (Hstd b eq_refl);
      split_and!; intros; simplify_eq; try done; try lia; try (split_and!; [done|lia|intros; simplify_eq; lia]). }
  destruct Hs as (Hs1&Hs2&Hs3&Hs4).
  destruct (sp_started s) as [b|] eqn:Hb; [destruct (Hs4 b eq_refl) as (Hn&Hbs&Hba)|];
    destruct Hst as [->|Ht]; try (assert (st ≠ JobState_Assigned ∧ st ≠ JobState_Running) as [Hna Hnr] by (split; by intros ->));
    split; cbn; try change (bool_decide (JobState_Running = JobState_Assigned)) with false; try change (bool_decide (JobState_Running = JobState_Running)) with true;
    rewrite ?Ht, ?(bool_decide_eq_false_2 _ Hna), ?(bool_decide_eq_false_2 _ Hnr), ?Hn;
    destruct (tm_assigned_at (cj_times j)) as [a|], (tm_started_at (cj_times j)) as [c|]; cbn; intros; simplify_eq;
    repeat match goal with
    | H : ∀ x, Some ?a = Some x → _ |- _ => specialize (H a eq_refl)
    | H : ∀ x y, Some ?a = Some x → Some ?b = Some y → _ |- _ => specialize (H a b eq_refl eq_refl)
    | H : _ ≠ JobState_Running → _ |- _ => specialize (H Hnr)
    end; try done; try lia.
Qed.

(** ** Examples *)

Module Examples.

Definition ex_clock (n : nat) : Z := 1000 + Z.of_nat n.
Definition ex_ctl (retries : Z) : JobCtl :=
  mk_JobCtl (mk_CtlFixed None false None None retries None None [] [] None None None false None None [] None) 100 0 None [] false None None None None.
Definition ex_fixed (id : string) (legacy : bool) : JobFixed :=
  mk_JobFixed id "c1" "w" None "agent:k2" ["true"] [] "sha" None false true legacy 100 "interactive" None "normal" None None None.
Definition ex_out : JobOut := mk_JobOut None None None None 0 0 None None None None.
Definition ex_job (id : string) (state : JobState) (reason : option string) (ctl : JobCtl) (legacy : bool) (times : Times) : ComputeJob :=
  mk_ComputeJob (ex_fixed id legacy) (mk_Sent "n" (Some (ex_plan id)) ctl ("sha256:" +:+ id)) (mk_Status state reason None) 1 1 times ex_out
    (mk_NodeQ false None None None None None None) 0 None.
Definition ex_world (rows : gmap string ComputeJob) (faults : list bool) : World :=
  mk_World rows faults [] [] {["n" := mk_NodeFacts "node" "key" (Some 0) None "active" None 900]} {["n"]} ∅ {| lg_files := ∅; lg_tails := ∅ |} ∅ 0.
Definition ex_running : ComputeJob := ex_job "j" JobState_Running None (ex_ctl 2) false (mk_Times (Some 900) (Some 950) None).
Definition ex_done : ComputeJob := ex_job "j" JobState_Done None (ex_ctl 2) false (mk_Times (Some 900) (Some 950) (Some 990)).
Definition ex_frame (gen : Z) (state : JobState) (reason : option string) : StateUpdate :=
  mk_StateUpdate None "j" gen state reason None 990 (Some (mk_ExitInfo (Some 0) None)) None 0 None.

Definition ex_blocked (code : string) : string := code.
Definition ex_follower (_ : string) : bool := false.
Definition ex_choose (_ : World) (_ : ComputeJob) (_ : list string) (_ : bool) (_ : string) : option (string * Plan * string) := None.
Definition ex_digest (p : Plan) : option string := Some ("sha256:" +:+ pl_job_id p).
Definition ex_text (o : Outputs) : option string := Some o.
Definition ex_arts (l : list string) : option string := Some (String.concat "," l).
Definition ex_verify (key : string) (x : SignedReceipt) : option ReceiptClaims := Some (mk_ReceiptClaims x 1 ("sha256:" +:+ x) []).
Definition ex_on_state : string → StateUpdate → ServerM unit := on_state ex_clock Tuning_default ex_follower ex_blocked ex_digest ex_choose ex_text.
Definition ex_on_snapshot : string → JobsSnapshot → list (string * Z) → ServerM (list (string * Z)) :=
  on_snapshot ex_clock Tuning_default ex_follower ex_blocked ex_digest ex_choose.

Lemma ex_keyed r faults : cj_id r = "j" → keyed (ex_world {["j" := r]} faults).
Proof. intros H id r'. cbn. intros [<- <-]%lookup_singleton_Some. exact H. Qed.


(** A node's failure with retries left, and an end with none. *)
Lemma end_recorded_witness :
  (∃ r, w_rows (ex_on_state "n" (ex_frame 1 JobState_Interrupted (Some "node_restart")) (ex_world {["j" := ex_running]} [])).2 !! "j" = Some r ∧ retried_as ex_running r)
  ∧ ∃ r, w_rows (ex_on_state "n" (ex_frame 1 JobState_Done None) (ex_world {["j" := ex_running]} [])).2 !! "j" = Some r
      ∧ ends_as ex_running JobState_Done None (Some (mk_ExitInfo (Some 0) None)) 0 r.
Proof.
  assert (Hlast : copy_last_seq "j" 1 (w_logs (ex_world {["j" := ex_running]} [])) = (0, (copy_last_seq "j" 1 {| lg_files := ∅; lg_tails := ∅ |}).2)) by (vm_compute; reflexivity).
  split.
  - pose proof (end_recorded ex_clock Tuning_default ex_follower ex_blocked ex_digest ex_choose ex_text (ex_frame 1 JobState_Interrupted (Some "node_restart"))
      (ex_world {["j" := ex_running]} []) ex_running eq_refl eq_refl eq_refl eq_refl eq_refl eq_refl ltac:(discriminate) ltac:(intros [=]) eq_refl) as H.
    cbn [su_job_id su_generation ex_frame] in H. rewrite Hlast in H.
    assert (Hset : settle ex_running JobState_Interrupted (Some "node_restart") None = (JobState_Interrupted, Some "node_restart", None)) by (vm_compute; reflexivity).
    cbn [su_state su_reason su_detail ex_frame] in H. rewrite Hset in H. cbv zeta in H.
    assert (Hre : retries ex_running JobState_Interrupted (Some "node_restart") = true) by (vm_compute; reflexivity). rewrite Hre in H.
    destruct H as (r&Hr&_&H). exists r. split; [exact Hr|exact H].
  - pose proof (end_recorded ex_clock Tuning_default ex_follower ex_blocked ex_digest ex_choose ex_text (ex_frame 1 JobState_Done None)
      (ex_world {["j" := ex_running]} []) ex_running eq_refl eq_refl eq_refl eq_refl eq_refl eq_refl ltac:(discriminate) ltac:(intros [=]) eq_refl) as H.
    cbn [su_job_id su_generation ex_frame] in H. rewrite Hlast in H.
    assert (Hset : settle ex_running JobState_Done None None = (JobState_Done, None, None)) by (vm_compute; reflexivity).
    cbn [su_state su_reason su_detail ex_frame] in H. rewrite Hset in H. cbv zeta in H.
    assert (Hre : retries ex_running JobState_Done None = false) by (vm_compute; reflexivity). rewrite Hre in H.
    destruct H as (r&Hr&_&H). exists r. split; [exact Hr|exact H].
Defined.

Definition ex_owed : ComputeJob := ex_job "j" JobState_Assigned (Some CANCEL_REQUESTED) (ex_ctl 2) false (mk_Times (Some 900) None None).
Lemma cancel_stands_witness :
  owed_at "j" 1 (apply_observation ex_clock Tuning_default ex_follower ex_blocked ex_digest ex_choose "n" "j" 1 JobState_Unknown (Some "not_on_node") None None None None
    (mk_NodeTimes (Some 990) None) (ex_world {["j" := ex_owed]} [])).2.
Proof. apply cancel_stands. exists ex_owed. split; [reflexivity|]. split; [reflexivity|]. right. by split. Defined.

Lemma stamped_in_order_witness :
  in_order 1000 (cj_times (ended_row ex_running JobState_Done None None (stamp_of ex_running JobState_Done (mk_NodeTimes (Some 5) None) 1000 (Some 0)))).
Proof.
  apply (stamped_in_order ex_running JobState_Done None None (mk_NodeTimes (Some 5) None) 1000 (Some 0)); [by vm_compute|by right| |reflexivity].
  split; cbn; intros; simplify_eq; lia.
Defined.

(** A snapshot that doesn't have a job whose cancel is owed: the job is
    queued again, though its frame's [not_on_node] ends it [cancelled]. *)
Lemma cancel_lost_in_snapshot :
  let w := ex_world {["j" := ex_owed]} [] in
  let after (w : World) := (λ r, (cj_state r, cj_generation r, cj_attempt r)) <$> (w_rows w !! "j") in
  after (ex_on_snapshot "n" (mk_JobsSnapshot [] true) [] w).2 = Some (JobState_Queued, 2, 2)
  ∧ after (ex_on_state "n" (ex_frame 1 JobState_Unknown (Some "not_on_node")) w).2 = Some (JobState_Cancelled, 1, 1).
Proof. vm_compute. split; reflexivity. Qed.

Definition ex_lose (j : ComputeJob) (w : World) : World :=
  (lose_job ex_clock Tuning_default ex_follower ex_blocked ex_digest ex_choose j "node" 11 2000 w).2.
(** A row from before retries were options had one retry for an
    interruption; the clock noted with the end makes its options new. *)
Lemma legacy_retry_lost :
  let j := ex_job "j" JobState_Running None JobCtl_default true (mk_Times (Some 900) (Some 950) None) in
  let w := ex_world {["j" := j]} [] in
  let after (w : World) := (λ r, (cj_state r, cj_attempt r)) <$> (w_rows w !! "j") in
  after (ex_on_state "n" (ex_frame 1 JobState_Interrupted (Some "node_restart")) w).2 = Some (JobState_Interrupted, 1)
  ∧ after (ex_lose j w) = Some (JobState_Queued, 2).
Proof. vm_compute. split; reflexivity. Qed.

(** [sweep] read the row while it ran and found the node offline; the node
    attached and its end was recorded; then [sweep] takes the lock: the end is
    gone and the job runs again. *)
Lemma lost_over_end :
  (λ r, (cj_state r, cj_generation r, cj_attempt r)) <$> (w_rows (ex_lose ex_running (ex_world {["j" := ex_done]} [])) !! "j") = Some (JobState_Queued, 2, 2).
Proof. vm_compute. reflexivity. Qed.

End Examples.
