(* ===== verification/JobRun.v ===== *)
(** * JobRun: whole runs of the server

    Over any run of the handlers of [JobLife] and [JobSweep], with the ticker's
    pass and jobs given back in their sections ([JobTurns]), whichever
    statements fail: an attempt that ended keeps its end but for a late write
    ([end_overtaken]), and the ticker asks a job back at most twice, and once
    more for each statement that fails ([asked_uncounted]).  A job is assigned
    only to a node on its workspace's list.  What one pass of the sweep does
    with deadlines. *)

From S2P Require Import Prelude Share Refusal JobFrames Ledger FairQ NodeQueue Retry Journal LogCopy Allow JobTable JobLife JobSweep JobTurns JobEnds.
Open Scope Z_scope.

Section run.
Context (clock : nat → Z) (t : Tuning) (follower_recent : string → bool) (blocked_words : string → string).
Context (digest : Plan → option string).
Context (choose : World → ComputeJob → list string → bool → string → option (string * Plan * string)).
Context `{J : JsonIds}.
Context (starts_elsewhere : World → ComputeJob → bool) (placement_code : string → string) (avoids : string → string → bool).
Context (decision_for : World → string → NodeDecision) (is_shared : World → string → bool) (shared_pass : World → string → SharedPass).
Context (feature_wait : World → ComputeJob → option Refusal) (fit_plan : World → ComputeJob → Plan → Plan).
Context (ws_handle : string → string).
Context (outputs_text : Outputs → option string) (artifacts_text : list string → option string).
Context (verify : string → SignedReceipt → option ReceiptClaims).

(** ** Handlers that go by steps *)

Lemma quiet_list_jobs p n : quiet (list_jobs p n).
Proof. intros w. unfold list_jobs, stmt. by destruct (w_faults w) as [|[|] ?]. Qed.
Lemma quiet_list_nodes : quiet list_nodes.
Proof. intros w. unfold list_nodes. by destruct (w_faults w) as [|[|] ?]. Qed.
Lemma quiet_permit ws : quiet (permit_of ws).
Proof. intros w. unfold permit_of. by destruct (w_faults w) as [|[|] ?]. Qed.
Lemma quiet_looks {A} (f : World → A) : quiet (looks f).
Proof. done. Qed.
Lemma quiet_now : quiet (now clock).
Proof. done. Qed.
Lemma quiet_nowM : quiet (nowM clock).
Proof. done. Qed.
Lemma quiet_online n : quiet (is_online n).
Proof. done. Qed.
Lemma quiet_facts n : quiet (node_facts n).
Proof. done. Qed.
Lemma quiet_seen n x : quiet (touch_seen_at n x).
Proof. intros w. unfold touch_seen_at. by destruct (w_faults w) as [|[|] ?]. Qed.
Lemma quiet_pause n x : quiet (set_controller_pause n x).
Proof. intros w. unfold set_controller_pause. by destruct (w_faults w) as [|[|] ?]. Qed.
Lemma quiet_revoke n : quiet (revoke_node n).
Proof.
  intros w. unfold revoke_node. destruct (w_faults w) as [|[|] fs]; [|done|]; cbn [tail]; destruct (w_nodes w !! n); try done; case_bool_decide; try done.
  by destruct fs as [|[|] ?].
Qed.
Hint Resolve quiet_list_jobs quiet_list_nodes quiet_permit quiet_looks quiet_now quiet_nowM quiet_online quiet_facts quiet_seen quiet_pause quiet_revoke : later.
Hint Resolve lat_now lat_facts lat_online lat_kick lat_notify lat_finalize lat_try_move lat_on_receipt lat_cancel_one lat_retry_one lat_outputs_of : later.

Lemma lat_finish id : lat (finish_job clock follower_recent id).
Proof. apply lat_finalize. Qed.
Hint Resolve lat_finish : later.
Lemma lat_finish_all ids : lat (finish_all clock follower_recent ids).
Proof. induction ids as [|id ids IH]; cbn [finish_all]; lat. Qed.
Lemma lat_off_list n permits rows : lat (fail_off_list ws_handle n permits rows).
Proof. revert permits. induction rows as [|j rows IH]; intros permits; cbn [fail_off_list]; cbv zeta; lat; apply IH. Qed.
Hint Resolve lat_finish_all lat_off_list : later.
Lemma lat_sweep_off node ws : lat (sweep_off_list clock follower_recent ws_handle node ws).
Proof. unfold sweep_off_list. lat. Qed.
Lemma quiet_withdraw_all rows : quiet (withdraw_all rows).
Proof. induction rows as [|j rows IH]; cbn [withdraw_all]; [done|]. apply quiet_bind; [apply quiet_cancel_sent|done]. Qed.
Hint Resolve lat_sweep_off quiet_withdraw_all : later.
Lemma lat_set_allow names person passport resolve by' ws q :
  lat (set_allow_list clock follower_recent ws_handle names person passport resolve by' ws q).
Proof.
  unfold set_allow_list, withdraw_node_queued_off_list. apply lat_bind; [lat|]. intros from. apply lat_bind.
  { apply quiet_lat. intros w. by destruct (w_faults w) as [|[|] ?]. }
  intros [judged|e]; [|lat]. apply lat_bind; [lat|]. intros n. apply lat_bind; [|intros r; lat].
  case_bool_decide; [lat|]. apply quiet_lat. intros w. by destruct (w_faults w) as [|[|] ?]; destruct (allow_write _ _ _ _ _ _).
Qed.
Lemma lat_wait_mark j why : lat (wait_mark j why).
Proof. unfold wait_mark. lat. Qed.
Hint Resolve lat_wait_mark : later.
Lemma lat_mark_waiting node ws : lat (mark_waiting clock node ws).
Proof. induction ws as [|[id why] ws IH]; cbn [mark_waiting]; unfold fail_request; lat. Qed.
Lemma lat_mark_shared ws : lat (mark_shared ws).
Proof. induction ws as [|[id why] ws IH]; cbn [mark_shared]; lat. Qed.
Lemma lat_fail_shared node n fail : lat (fail_shared node n fail).
Proof. induction fail as [|[id why] fail IH]; cbn [fail_shared]; lat. Qed.
Lemma lat_fit j plan : lat (fit_plan_to digest fit_plan j plan).
Proof.
  unfold fit_plan_to. lat. unfold rewrite_queued_plan. destruct (digest _); [|lat]. apply lat_aside. intros ?. split_and!; reflexivity.
Qed.
Hint Resolve lat_mark_waiting lat_mark_shared lat_fail_shared lat_fit : later.

(** An assignment that can't be sent goes back, under the same lock. *)
Lemma update_true id p f w : (update_job id p f w).1 = Some true → ∃ r, w_rows w !! id = Some r ∧ p r = true ∧ w_rows (update_job id p f w).2 = <[id := f r]> (w_rows w).
Proof.
  unfold update_job, stmt. destruct (w_faults w) as [|[|] fs]; [|done|]; destruct (w_rows w !! id) as [r|]; try done;
    destruct (p r) eqn:Hp; try done; intros _; by exists r.
Qed.
Lemma assign_open id n w : (assign_if_queued id n w).1 = Some true → open id (assign_if_queued id n w).2.
Proof. intros (r&Hr&_&He)%update_true r'. unfold assign_if_queued, set_job_state_if. rewrite He, lookup_insert_eq. by intros [= <-]. Qed.
Lemma lat_assign node at' again j detail : quiet at' → quiet again → lat (assign_job node at' again j detail).
Proof.
  intros Hat Hagain. unfold assign_job. apply lat_bind; [by apply quiet_lat|]. intros n w _. unfold mbind at 1, ServerM_bind at 1.
  destruct (lat_state_if (cj_id j) JobState_Queued JobState_Assigned None None n eq_refl w I) as [Hs _]. fold (assign_if_queued (cj_id j) n) in Hs.
  pose proof (assign_open (cj_id j) n w) as Ho. destruct (assign_if_queued (cj_id j) n w) as [ok w1]. cbn [fst snd] in *.
  destruct (bool_decide (ok = Some true)) eqn:Hok; cbn [negb]; [|by split]. apply bool_decide_eq_true in Hok. specialize (Ho Hok).
  match goal with |- steps w (?m w1).2 ∧ _ => assert (Hg : goes (open (cj_id j)) anyway m) end.
  { eapply goes_bind; [apply open_quiet; done|]. intros [|]; [apply lat_goes; lat|]. eapply goes_bind; [by apply open_quiet|]. intros n'.
    eapply goes_bind; [apply open_state|]. intros _. apply lat_ret. }
  destruct (Hg w1 Ho) as [Hs2 _]. split; [by etrans|done].
Qed.
Hint Resolve lat_assign : later.
Lemma lat_kick_solo node : lat (kick_solo clock follower_recent digest decision_for feature_wait fit_plan node).
Proof. unfold kick_solo. lat. Qed.
Lemma lat_send_one node n id : lat (send_shared_one digest fit_plan node n id).
Proof. unfold send_shared_one. lat. Qed.
Hint Resolve lat_send_one : later.
Lemma lat_send node n send b : lat (send_shared digest fit_plan node n send b).
Proof. revert b. induction send as [|id send IH]; intros b; cbn [send_shared]; lat. Qed.
Hint Resolve lat_send lat_kick_solo : later.
Lemma lat_kick_now node : lat (kick_now clock follower_recent digest decision_for is_shared shared_pass feature_wait fit_plan ws_handle node).
Proof. unfold kick_now, kick_shared. lat. Qed.

Lemma lat_resend node ws only : lat (resend_queued node ws only).
Proof.
  unfold resend_queued. apply lat_bind; [apply quiet_lat, quiet_jobs_in|]. intros rows. apply lat_bind; [|intros; lat].
  induction (List.filter _ rows) as [|j l IH]; cbn [resend_all]; lat.
Qed.
Lemma lat_supersede_each new key olds : lat (supersede_each clock new key olds).
Proof. induction olds as [|old olds IH]; cbn [supersede_each]; unfold supersede_one, replaced_event, replace_if_queued; cbv zeta; lat. Qed.
Hint Resolve lat_supersede_each : later.
Lemma lat_supersede ws key new : lat (supersede_older clock follower_recent ws key new).
Proof. unfold supersede_older. lat; apply quiet_lat, quiet_jobs_in. Qed.
Lemma lat_attach node route version : lat (on_attach clock node route version).
Proof.
  unfold on_attach, touch_seen. apply lat_bind; [by apply quiet_lat|]. intros _. apply lat_bind; [lat|]. intros _. apply lat_bind; [lat|]. intros _.
  apply lat_bind; [apply quiet_lat, quiet_jobs_in|]. intros rows. apply lat_bind; [apply quiet_lat; intros w; by destruct (resume_hints rows (w_logs w))|]. intros hints.
  apply lat_bind; [|intros; lat]. induction rows as [|j rows IH]; cbn [send_owed]; lat.
Qed.
Lemma lat_detach node why newer : lat (on_detach clock node why newer).
Proof. unfold on_detach, touch_seen. apply lat_bind; [apply lat_when; by apply quiet_lat|]. intros _. lat. Qed.
Hint Resolve lat_set_allow lat_kick_now lat_resend lat_supersede lat_attach lat_detach : later.

(** ** Lists gone through *)

(** *** A node's removal *)

Lemma cancel_rows_goes at' why rows : quiet at' → Forall (λ j, job_is_terminal j = false) rows → goes (fresh rows) keyed (cancel_rows_of at' why rows).
Proof.
  intros Hat. induction 1 as [|j rows Ho _ IH]; cbn [cancel_rows_of]; [apply goes_weaken with (P := fresh []) (Q := fresh []); [apply goes_ret|done|apply fresh_keyed]|].
  eapply goes_bind; [by apply fresh_quiet|]. intros n. eapply goes_bind; [apply (fresh_turn j rows); [by apply own_update|apply open_turn; [apply open_state|exact Ho]]|].
  intros _. exact IH.
Qed.
Lemma on_node_open node j : bool_decide (cj_node j = node) && on_node (cj_state j) = true → job_is_terminal j = false.
Proof. intros [_ H]%andb_true_iff. unfold job_is_terminal. by destruct (cj_state j). Qed.
Lemma remove_goes by' node : goes keyed keyed (remove_now clock follower_recent by' node).
Proof.
  unfold remove_now. eapply goes_bind; [apply lat_keyed; lat|]. intros f. eapply goes_bind; [apply lat_keyed; lat|]. intros ok.
  destruct (negb ok); [apply goes_ret|]. apply goes_list. intros rows Hp.
  eapply goes_bind; [apply cancel_rows_goes; [done|eapply Forall_impl; [exact Hp|apply on_node_open]]|]. intros _. apply lat_keyed. lat.
Qed.
Lemma retire_goes by' node marked : goes keyed keyed (node_retire clock follower_recent by' node marked).
Proof.
  unfold node_retire. eapply goes_bind; [apply lat_keyed; lat|]. intros f. eapply goes_bind; [apply lat_keyed; lat|]. intros n. apply goes_list. intros rows Hp.
  eapply goes_bind; [apply cancel_rows_goes; [done|eapply Forall_impl; [exact Hp|]]|].
  { intros j [_ H%bool_decide_eq_true]%andb_true_iff. unfold job_is_terminal. by rewrite H. }
  intros _. eapply goes_bind; [apply lat_keyed; apply quiet_lat, quiet_jobs_in|]. intros running. eapply goes_bind; [apply lat_keyed; lat|]. intros _.
  case_bool_decide; [eapply goes_bind; [apply remove_goes|intros; apply goes_ret]|]. apply lat_keyed. lat.
Qed.

(** *** Rows of their own *)

Ltac own_step :=
  match goal with
  | |- own _ (mbind _ _) => apply own_bind; [|intros ?]
  | |- own _ (when _ _) => apply own_when
  | |- own _ (if ?c then _ else _) => destruct c
  | |- own _ (match ?x with _ => _ end) => destruct x
  | |- own _ (update_job _ _ _) => by apply own_update
  | |- own _ _ => solve [apply own_quiet; eauto with later]
  | |- own _ _ => solve [eauto with own]
  end.
Ltac own := repeat own_step.
Create HintDb own.
Hint Resolve own_ret : own.

Lemma own_reason id why d : own id (set_job_reason id why d).
Proof. by apply own_drop. Qed.
Lemma own_ctl id c : own id (set_job_ctl id c).
Proof. unfold set_job_ctl. own. Qed.
Lemma own_state id st why d n : own id (set_job_state id st why d n).
Proof. by apply own_update. Qed.
Lemma own_clear id : own id (clear_node_queued id).
Proof. by apply own_drop. Qed.
Lemma own_generation id g why : own id (requeue_new_generation id g why).
Proof. by apply own_update. Qed.
Lemma own_attempt id why : own id (requeue_new_attempt id why).
Proof. unfold requeue_new_attempt. own. Qed.
Lemma own_notified id n : own id (mark_notified id n).
Proof. by apply own_drop. Qed.
Lemma own_note id n : own id (note_withdraw id n).
Proof. by apply own_drop. Qed.
Lemma own_move id p c why : own id (move_queued_job digest id p c why).
Proof. unfold move_queued_job. destruct (digest p); own. Qed.
Hint Resolve own_reason own_ctl own_state own_clear own_generation own_attempt own_notified own_note own_move : own.
Lemma own_finalize id : own id (finalize clock follower_recent id).
Proof. unfold finalize. own. Qed.
Lemma own_try_move j avoid hard why : own (cj_id j) (try_move digest choose j avoid hard why).
Proof.
  unfold try_move. destruct (sn_plan (cj_sent j)); [|own]. intros w Hw. destruct (choose w j avoid hard why) as [[[node p'] pl]|]; [|by split].
  cbv zeta. match goal with |- keyed (?m w).2 ∧ _ => enough (own (cj_id j) m) as H by exact (H w Hw) end. own.
Qed.
Hint Resolve own_finalize own_try_move : own.
Lemma own_moved id (j : ComputeJob) (avoid : list string) hard why : cj_id j = id → own id (try_move digest choose j avoid hard why).
Proof. intros <-. apply own_try_move. Qed.


Lemma own_retry_attempt j ctl n : own (cj_id j) (retry_attempt t digest choose j ctl n).
Proof.
  unfold retry_attempt. cbv zeta. apply own_bind; [own|]. intros [r|]; [|own]. do 2 (apply own_bind; [own|]; intros ?).
  apply own_job; [cbn; own|]. intros r' Hr'. cbn. case_bool_decide; [|own]. apply own_bind; [|intros; own].
  apply own_bind; [by apply own_moved|]. intros moved. own.
Qed.
Lemma own_exhausted j ctl : own (cj_id j) (exhausted j ctl).
Proof. intros w Hw. unfold exhausted. match goal with |- keyed (?m w).2 ∧ _ => enough (own (cj_id j) m) as H by exact (H w Hw) end. own. Qed.
Hint Resolve own_retry_attempt own_exhausted : own.
Lemma own_after_attempt id : own id (after_attempt clock t digest choose id).
Proof. unfold after_attempt. apply own_bind; [own|]. intros n. apply own_job; [own|]. intros j <-. cbv zeta. own. Qed.
Hint Resolve own_after_attempt : own.
Lemma own_fail_waiting j wh n : own (cj_id j) (fail_waiting blocked_words j wh n).
Proof. unfold fail_waiting. cbv zeta. own. Qed.
Hint Resolve own_fail_waiting : own.
Lemma own_lose j name mins n : own (cj_id j) (lose_job clock t follower_recent blocked_words digest choose j name mins n).
Proof.
  unfold lose_job, requeue_lost. cbv zeta. destruct (_ && _); [|own]. destruct (reason_is _ _); [own|]. destruct (reason_is _ _); [own|].
  apply own_bind; [own|]. intros ok. destruct (negb _); [own|]. apply own_bind; [own|]. intros _.
  apply own_job; [cbn; own|]. intros r Hr. cbn. case_bool_decide; [|own]. apply own_bind; [apply own_bind; [by apply own_moved|intros; own]|intros; own].
Qed.

Lemma lat_leave j node ds n awake : lat (leave_reason t avoids decision_for j node ds n awake).
Proof. unfold leave_reason. cbv zeta. lat. Qed.
Hint Resolve lat_leave : later.
Lemma lat_queued_one nodes n awake j ds :
  lat (sweep_queued_one clock t follower_recent digest choose placement_code avoids decision_for nodes n awake j ds).
Proof. unfold sweep_queued_one, fail_queued. cbv zeta. lat. Qed.
Hint Resolve lat_queued_one : later.

(** ** Any handler *)

Definition any_act : Act → ServerM unit :=
  act clock t follower_recent blocked_words digest choose decision_for is_shared shared_pass feature_wait fit_plan ws_handle outputs_text artifacts_text verify.
Lemma act_goes a : goes keyed anyway (any_act a).
Proof.
  destruct a; unfold any_act; cbn [act]; try (apply lat_goes; lat; fail).
  - apply keyed_state.
  - eapply goes_bind; [apply keyed_anyway, keyed_snapshot|]. intros seen'. apply lat_goes. lat.
  - eapply goes_bind; [apply remove_goes|]. intros. apply lat_goes, lat_ret.
  - eapply goes_weaken; [apply retire_goes|done|done].
Qed.

(** ** Rows read before *)

(** The ends that such a row puts in the place of whatever is there. *)
Definition late_end (s : JobState) : Prop := s = JobState_Cancelled ∨ s = JobState_Interrupted ∨ s = JobState_Failed.
(** As [later], but for a late end; times stay once the end has one. *)
Definition wear (r r' : ComputeJob) : Prop :=
  cj_fixed r' = cj_fixed r
  ∧ (cj_generation r < cj_generation r'
     ∨ cj_generation r' = cj_generation r ∧ cj_attempt r' = cj_attempt r
       ∧ (job_is_terminal r = true → job_is_terminal r' = true
          ∧ (tm_ended_at (cj_times r) ≠ None → cj_times r' = cj_times r)
          ∧ (cj_state r' = cj_state r ∧ cj_times r' = cj_times r ∨ late_end (cj_state r')))).
Definition worn (r r' : ComputeJob) : Prop := wear r r' ∧ same_withdraws r r'.
#[local] Instance wear_trans : Transitive wear.
Proof.
  intros a b c (Hf1&H1) (Hf2&H2). split; [congruence|]. destruct H1 as [H1|(Hg1&Ha1&Ht1)], H2 as [H2|(Hg2&Ha2&Ht2)]; [left; lia..|].
  right. split_and!; [congruence..|]. intros Ht. destruct (Ht1 Ht) as (Hb&Hm1&Hs1). destruct (Ht2 Hb) as (Hc&Hm2&Hs2). split_and!; [done| |].
  - intros He. specialize (Hm1 He). rewrite Hm2, Hm1; [done|]. by rewrite Hm1.
  - destruct Hs2 as [[Hs2 Hx2]|?]; [|by right]. destruct Hs1 as [[Hs1 Hx1]|Hs1]; [left; split; congruence|right; by rewrite Hs2].
Qed.
#[local] Instance worn_trans : Transitive worn.
Proof. intros a b c [H1 [Hw1 Hx1]] [H2 [Hw2 Hx2]]. split; [by etrans|split; congruence]. Qed.
Lemma later_worn r r' : later r r' → worn r r'.
Proof.
  intros (Hf&Hw&H). split; [|exact Hw]. split; [exact Hf|]. destruct H as [H|(Hg&Ha&Ht)]; [by left|right]. split_and!; [done..|]. intros Hr. destruct (Ht Hr) as [Hs Hm].
  split_and!; [unfold job_is_terminal in *; by rewrite Hs|done|by left].
Qed.
Lemma worn_state st why d n r : late_end st → worn r (to_state st why d n r).
Proof.
  intros Hst. split; [|done]. split; [done|right]. split_and!; [done..|]. intros _. split_and!; [by destruct Hst as [->|[->| ->]]| |by right].
  unfold to_state. cbn. destruct (cj_times r) as [a s e]. cbn. destruct e as [e|]; [|done]. intros _. by destruct Hst as [->|[->| ->]].
Qed.

Section by_steps.
Context (R : ComputeJob → ComputeJob → Prop) `{!Transitive R} (Hlater : ∀ r r', later r r' → R r r').
Definition by_steps {A} (m : ServerM A) : Prop := ∀ w id, option_Forall2 R (w_rows w !! id) (w_rows (m w).2 !! id).
Lemma by_steps_goes {A} P Q (m : ServerM A) w : goes P Q m → P w → ∀ id, option_Forall2 R (w_rows w !! id) (w_rows (m w).2 !! id).
Proof. intros H Hw id. destruct (proj1 (H w Hw) id); constructor. by apply Hlater. Qed.
Lemma by_steps_lat {A} (m : ServerM A) : lat m → by_steps m.
Proof. intros H w. by apply (by_steps_goes _ _ m w H). Qed.
Lemma by_steps_bind {A B} (m : ServerM A) (k : A → ServerM B) : by_steps m → (∀ x, by_steps (k x)) → by_steps (m ≫= k).
Proof.
  intros Hm Hk w id. unfold mbind, ServerM_bind. specialize (Hm w id). destruct (m w) as [x w1]. specialize (Hk x w1 id). cbn [snd] in *.
  inversion Hm as [a b Hab Ha Hb|Ha Hb]; rewrite <- Hb in Hk; inversion Hk; subst; constructor. by etrans.
Qed.
Lemma by_steps_update id p f : (∀ r, R r (f r)) → by_steps (update_job id p f).
Proof.
  intros H w id'. destruct (update_job_rows id p f w) as [b ->].
  assert (Hr : ∀ x : option ComputeJob, option_Forall2 R x x) by (intros [x|]; constructor; by apply Hlater).
  destruct (w_rows w !! id) as [r|] eqn:He; [|done]. destruct (b && p r); [|done].
  destruct (decide (id' = id)) as [->|Hne]; [rewrite lookup_insert_eq, He; by constructor|by rewrite lookup_insert_ne].
Qed.
End by_steps.

Ltac late_step :=
  match goal with
  | |- by_steps _ _ => apply by_steps_lat; [exact later_worn|solve [lat]]
  | |- by_steps _ (set_job_state _ _ _ _ _) => apply by_steps_update; [exact later_worn|intros ?; apply worn_state; unfold late_end; tauto]
  | |- by_steps _ (mbind _ _) => apply by_steps_bind; [apply _| |intros ?]
  | |- by_steps _ (if ?c then _ else _) => destruct c
  | |- by_steps _ (match ?x with _ => _ end) => destruct x
  end.
Hint Resolve lat_after_attempt : later.
Lemma late_fail_waiting j wh n : by_steps worn (fail_waiting blocked_words j wh n).
Proof. unfold fail_waiting. cbv zeta. repeat late_step. Qed.
Lemma late_lose j name mins n : by_steps worn (lose_job clock t follower_recent blocked_words digest choose j name mins n).
Proof. unfold lose_job, requeue_lost. cbv zeta. repeat first [apply late_fail_waiting|late_step]. Qed.
Lemma late_lost_one nodes n awake j : by_steps worn (sweep_lost_one clock t follower_recent blocked_words digest choose nodes n awake j).
Proof. unfold sweep_lost_one. repeat first [apply late_lose|late_step]. Qed.
Lemma late_given_back node j : by_steps worn (given_back_job clock follower_recent blocked_words digest choose node j).
Proof. unfold given_back_job. repeat first [apply late_fail_waiting|late_step]. Qed.

(** ** Any run *)

Definition any_move : ServerMove → Server → Server :=
  server_move clock t follower_recent blocked_words digest choose starts_elsewhere placement_code avoids decision_for is_shared shared_pass feature_wait fit_plan ws_handle
    outputs_text artifacts_text verify.
Definition any_moves : list ServerMove → Server → Server :=
  server_moves clock t follower_recent blocked_words digest choose starts_elsewhere placement_code avoids decision_for is_shared shared_pass feature_wait fit_plan ws_handle
    outputs_text artifacts_text verify.

Lemma own_lost_one nodes n awake j : own (cj_id j) (sweep_lost_one clock t follower_recent blocked_words digest choose nodes n awake j).
Proof. unfold sweep_lost_one. destruct (nodes !! cj_node j); [|own]. apply own_bind; [own|]. intros up. destruct (_ || _); [own|apply own_lose]. Qed.
Lemma own_held_row nodes n awake j :
  own (cj_id j) (sweep_held_row clock t follower_recent blocked_words starts_elsewhere placement_code nodes n awake j).
Proof. unfold sweep_held_row, sweep_held_one, finish_job. destruct (nodes !! cj_node j); cbv zeta; own. Qed.
Lemma own_given_back node j : own (cj_id j) (given_back_job clock follower_recent blocked_words digest choose node j).
Proof.
  unfold given_back_job. apply own_bind; [own|]. intros n. destruct (reason_is _ _); [own|]. destruct (reason_is _ _); [own|].
  apply own_bind; [own|]. intros ok. destruct (negb _); [own|]. apply own_bind; [own|]. intros _.
  apply own_job; [cbn; own|]. intros r Hr. cbn. case_bool_decide; [|own]. apply own_bind; [by apply own_moved|]. intros moved. own.
Qed.
Lemma worn_wear r r' : worn r r' → wear r r'.
Proof. by intros []. Qed.
Lemma later_wear r r' : later r r' → wear r r'.
Proof. intros H. by apply worn_wear, later_worn. Qed.
Lemma by_worn {A} (m : ServerM A) : by_steps worn m → by_steps wear m.
Proof. intros H w id. destruct (H w id); constructor. by apply worn_wear. Qed.
Lemma wear_note id n : by_steps wear (note_withdraw id n).
Proof.
  unfold note_withdraw. apply by_steps_bind; [apply _| |intros; apply by_steps_lat; [exact later_wear|lat]]. apply by_steps_update; [exact later_wear|].
  intros r. split; [done|right]. split_and!; [done..|]. intros Ht. split_and!; [done..|by left].
Qed.
Lemma wear_held_row nodes n awake j :
  by_steps wear (sweep_held_row clock t follower_recent blocked_words starts_elsewhere placement_code nodes n awake j).
Proof.
  unfold sweep_held_row, sweep_held_one. destruct (nodes !! cj_node j); cbv zeta;
  repeat match goal with
  | |- by_steps _ (note_withdraw _ _) => apply wear_note
  | |- by_steps _ (fail_waiting _ _ _ _) => apply by_worn, late_fail_waiting
  | |- by_steps _ _ => apply by_steps_lat; [exact later_wear|solve [lat]]
  | |- by_steps _ (mbind _ _) => apply by_steps_bind; [apply _| |intros ?]
  | |- by_steps _ (if ?c then _ else _) => destruct c
  end.
Qed.

(** Rows but those in hand go on in order. *)
Definition turned (held : list string) (w w' : World) : Prop :=
  ∀ id, option_Forall2 wear (w_rows w !! id) (w_rows w' !! id) ∧ (id ∉ held → option_Forall2 later (w_rows w !! id) (w_rows w' !! id)).
Lemma turned_steps held w w' : steps w w' → turned held w w'.
Proof. intros H id. split; [|by intros _; apply H]. destruct (H id); constructor. by apply later_wear. Qed.
Lemma turned_lat {A} held (m : ServerM A) w : lat m → turned held w (m w).2.
Proof. intros H. by apply turned_steps, H. Qed.
Lemma turned_own {A} held id (m : ServerM A) w : keyed w → own id m → by_steps wear m → id ∈ held → turned held w (m w).2.
Proof.
  intros Hk Ho Hm Hin id'. split; [apply Hm|]. intros Hn. destruct (Ho w Hk) as [_ ->]; [|by intros ->]. destruct (w_rows w !! id'); constructor. reflexivity.
Qed.
Lemma turned_same held w w' : w_rows w' = w_rows w → turned held w w'.
Proof. intros H. by apply turned_steps, steps_rows. Qed.
Lemma turned_keyed held w w' : turned held w w' → keyed w → keyed w'.
Proof.
  intros H Hk id r Hr. destruct (H id) as [Hw _]. rewrite Hr in Hw. inversion Hw as [x y [Hf _] Hx|]; subst. rewrite <- (Hk id x) by done. unfold cj_id. by rewrite Hf.
Qed.

Lemma take_back_spec node id g why w : w_rows (take_back clock node id g why w).2 = w_rows w
  ∧ ∀ j, (take_back clock node id g why w).1 = Some j → w_rows w !! id = Some j ∧ job_is_terminal j = false.
Proof.
  unfold take_back, mbind, ServerM_bind. destruct (job_read id w) as (f&H2&H1). destruct (job_by_id id w) as [x w1]. cbn [fst snd] in *. subst w1.
  destruct x as [j|]; [|done]. destruct H1 as [?|H1]; [done|]. destruct (_ || _); [done|]. destruct (job_is_terminal j) eqn:Ho; [done|].
  cbn. split; [done|]. intros j' Hj'. destruct (_ && _); [|done]. injection Hj' as <-. by split.
Qed.
Lemma move_turned m s : keyed (sv_world s) → turned (cj_id <$> in_hand s) (sv_world s) (sv_world (any_move m s)).
Proof.
  intros Hk. destruct m as [a|n awake| |node id g why|i]; unfold any_move; cbn [server_move].
  - apply turned_steps. by apply act_goes.
  - destruct (sv_sweep s); by apply turned_same.
  - unfold in_hand. destruct (sv_sweep s) as [[[n awake] at']|]; [|by apply turned_same].
    match goal with |- context [sweep_turn ?a ?b ?c ?d ?e ?f ?g ?h ?i ?k n awake at'] => set (m := sweep_turn a b c d e f g h i k n awake at') end.
    assert (Hm : turned (cj_id <$> (match at' with Sw_lost _ rows | Sw_held _ rows => rows | _ => [] end ++ (sv_back s).*2)) (sv_world s) (m (sv_world s)).2);
      [|by destruct (m (sv_world s))].
    subst m. destruct at' as [|nodes|nodes [|j rows]|nodes [|j rows]|nodes [|j rows] ds changed]; cbn [sweep_turn];
      try (apply turned_lat; lat; apply quiet_lat, quiet_jobs_in).
    + apply (turned_own _ (cj_id j)); [done| | |cbn; left].
      * apply own_bind; [apply own_lost_one|intros; own].
      * apply by_steps_bind; [apply _|apply by_worn, late_lost_one|]. intros. apply by_steps_lat; [exact later_wear|lat].
    + apply (turned_own _ (cj_id j)); [done| | |cbn; left].
      * apply own_bind; [apply own_held_row|intros; own].
      * apply by_steps_bind; [apply _|apply wear_held_row|]. intros. apply by_steps_lat; [exact later_wear|lat].
  - destruct (take_back_spec node id g why (sv_world s)) as [Hr _]. destruct (take_back _ _ _ _ _ _) as [j w1]. by apply turned_same.
  - destruct (sv_back s !! i) as [[node j]|] eqn:Hi; [|by apply turned_same]. cbn [sv_world].
    apply (turned_own _ (cj_id j)); [done|apply own_given_back|apply by_worn, late_given_back|].
    apply list_elem_of_fmap. exists j. split; [done|]. unfold in_hand. apply elem_of_app. right. apply list_elem_of_fmap. exists (node, j). split; [done|]. by eapply list_elem_of_lookup_2.
Qed.
(** Rows taken in hand have not ended. *)
Lemma read_open p w id : keyed w → Forall (λ j, p j = true → job_is_terminal j = false) (jobs_where p w).1 → id ∈ cj_id <$> (jobs_where p w).1 →
  ∃ r, w_rows (jobs_where p w).2 !! id = Some r ∧ job_is_terminal r = false.
Proof.
  intros Hk Ho (j&->&Hj)%list_elem_of_fmap. destruct (jobs_where_spec p w Hk) as ((_&_&Hf)&Hp&_). rewrite Forall_forall in Ho, Hf, Hp. exists j. auto.
Qed.
Lemma move_in_hand m s id : keyed (sv_world s) → read_before id (any_move m s) →
  read_before id s ∨ ∃ r, w_rows (sv_world (any_move m s)) !! id = Some r ∧ job_is_terminal r = false.
Proof.
  intros Hk. unfold read_before, in_hand. destruct m as [a|n awake| |node i g why|i]; unfold any_move; cbn [server_move].
  - by left.
  - destruct (sv_sweep s) as [[[n' awake'] at']|] eqn:He; rewrite ?He; by left.
  - destruct (sv_sweep s) as [[[n awake] at']|] eqn:He; [|rewrite He; by left]. rewrite !fmap_app.
    destruct at' as [|nodes|nodes [|j rows]|nodes [|j rows]|nodes [|j rows] ds changed]; cbn [sweep_turn]; unfold mbind, ServerM_bind.
    + destruct (list_nodes _) as [x w1]. by left.
    + pose proof (read_open (λ r, active (cj_state r)) (sv_world s) id Hk) as H. unfold active_jobs. destruct (jobs_where _ _) as [rows w1]. cbn [fst snd] in H. cbn.
      intros [Hin|?]%elem_of_app; [right|by left]. apply H; [|done]. apply Forall_forall. intros j _. apply active_open.
    + pose proof (read_open (λ r, nq_queued (cj_nodeq r) && is_state JobState_Assigned r) (sv_world s) id Hk) as H. unfold node_queued_jobs.
      destruct (jobs_where _ _) as [rows w1]. cbn [fst snd] in H. cbn. intros [Hin|?]%elem_of_app; [right|by left]. apply H; [|done].
      apply Forall_forall. intros j _ [_ Hs%bool_decide_eq_true]%andb_true_iff. unfold job_is_terminal. by rewrite Hs.
    + destruct (sweep_lost_one _ _ _ _ _ _ _ _ _ _ _) as [x w1]. cbn. intros [?|?]%elem_of_app; left; set_solver.
    + destruct (queued_jobs _) as [rows w1]. by left.
    + destruct (sweep_held_row _ _ _ _ _ _ _ _ _ _ _) as [x w1]. cbn. intros [?|?]%elem_of_app; left; set_solver.
    + destruct (when _ _ _) as [x w1]. by left.
    + destruct (sweep_queued_one _ _ _ _ _ _ _ _ _ _ _ _ _ _) as [x w1]. by left.
  - destruct (take_back_spec node i g why (sv_world s)) as [Hr Hj]. destruct (take_back _ _ _ _ _ _) as [[j|] w1]; [|by left]. cbn [fst snd sv_sweep sv_back sv_world] in *.
    destruct (Hj j eq_refl) as [Hj1 Ho]. rewrite !fmap_app, !elem_of_app. intros [?|[?|Hin]]; [by left; left|by left; right|right].
    exists j. rewrite Hr. apply list_elem_of_singleton in Hin. cbn in Hin. by rewrite Hin, (Hk _ _ Hj1).
  - destruct (sv_back s !! i) as [[node j]|]; [|by left]. cbn [sv_sweep sv_back]. rewrite !fmap_app, !elem_of_app. intros [?|Hin]; left; [by left|right].
    rewrite <- list_fmap_compose in *. apply list_elem_of_fmap in Hin as (x&->&Hx). apply list_elem_of_fmap. exists x. split; [done|].
    by eapply elem_of_sublist; [|apply sublist_delete].
Qed.

(** [r'] is [r] so far: its end kept, or another put over it if [P]. *)
Definition so_far (P : Prop) (r r' : ComputeJob) : Prop :=
  cj_fixed r' = cj_fixed r
  ∧ (cj_generation r < cj_generation r'
     ∨ cj_generation r' = cj_generation r ∧ cj_attempt r' = cj_attempt r
       ∧ (job_is_terminal r = true → job_is_terminal r' = true
          ∧ (tm_ended_at (cj_times r) ≠ None → cj_times r' = cj_times r)
          ∧ (cj_state r' = cj_state r ∧ cj_times r' = cj_times r ∨ P ∧ late_end (cj_state r')))).
Lemma so_far_next (P Q : Prop) a b c : so_far P a b → wear b c → later b c ∨ Q →
  (cj_generation b = cj_generation a → job_is_terminal a = true → Q → P) → so_far P a c.
Proof.
  intros (Hf1&H1) (Hf2&H2) Hor Hq. split; [congruence|]. destruct H1 as [H1|(Hg1&Ha1&Ht1)], H2 as [H2|(Hg2&Ha2&Ht2)]; [left; lia..|].
  right. split_and!; [congruence..|]. intros Ht. destruct (Ht1 Ht) as (Hb&Hm1&Hs1). destruct (Ht2 Hb) as (Hc&Hm2&Hs2). split_and!; [done| |].
  - intros He. specialize (Hm1 He). rewrite Hm2, Hm1; [done|]. by rewrite Hm1.
  - assert (Hkeep : cj_state c = cj_state b ∧ cj_times c = cj_times b ∨ P ∧ late_end (cj_state c)).
    { destruct Hs2 as [Hs2|Hs2]; [by left|]. destruct Hor as [(_&_&[Hg|(_&_&Hl)])|HQ]; [lia|left; by apply Hl|right; auto]. }
    destruct Hkeep as [[Hs Hx]|?]; [|by right]. destruct Hs1 as [[Hs1 Hx1]|[? Hs1]]; [left; split; congruence|right; by rewrite Hs].
Qed.
Definition goes_on (P : Prop) (id : string) (r : ComputeJob) (s : Server) : Prop :=
  keyed (sv_world s) ∧ ∃ r', w_rows (sv_world s) !! id = Some r' ∧ so_far P r r'
    ∧ (cj_generation r' = cj_generation r → job_is_terminal r = true → read_before id s → P).
Lemma goes_on_move P id r m s : goes_on P id r s → goes_on P id r (any_move m s).
Proof.
  intros (Hk&b&Hb&Hsf&HP). pose proof (move_turned m s Hk) as Ht. pose proof (move_in_hand m s id Hk) as Hin. split; [by eapply turned_keyed|].
  destruct (Ht id) as [Hw Hl]. rewrite Hb in Hw. inversion Hw as [x c Hbc Hx Hc|]; subst.
  exists c. assert (Hsf' : so_far P r c).
  { apply (so_far_next P (read_before id s) r b c); [done..| |done]. destruct (decide (id ∈ cj_id <$> in_hand s)) as [?|Hn]; [by right|left].
    specialize (Hl Hn). rewrite Hb, <- Hc in Hl. by inversion Hl. }
  split_and!; [done|done|]. intros Hg Hr Hrd. destruct (Hin Hrd) as [Hold|(c'&Hc'&Ho)].
  - destruct Hsf as (_&[Hlt|(Hgb&_)]); [|by apply HP]. destruct Hbc as (_&[?|(?&_)]); lia.
  - rewrite <- Hc in Hc'. injection Hc' as <-. destruct Hsf' as (_&[Hlt|(_&_&Hend)]); [lia|]. destruct (Hend Hr) as [? _]. congruence.
Qed.
Lemma goes_on_moves P id r l s : goes_on P id r s → goes_on P id r (any_moves l s).
Proof. revert s. induction l as [|m l IH]; intros s Hs; [exact Hs|]. apply (IH (any_move m s)), goes_on_move, Hs. Qed.

(** *** Statements that will fail *)

Definition failing (w : World) : nat := length (List.filter (λ b, b) (w_faults w)).
Definition thrifty {A} (m : ServerM A) : Prop := ∀ w, (failing (m w).2 ≤ failing w)%nat.
Lemma thrifty_bind {A B} (m : ServerM A) (k : A → ServerM B) : thrifty m → (∀ x, thrifty (k x)) → thrifty (m ≫= k).
Proof. intros Hm Hk w. unfold mbind, ServerM_bind. specialize (Hm w). destruct (m w) as [x w1]. specialize (Hk x w1). cbn in *. lia. Qed.
Lemma thrifty_still {A} (m : ServerM A) : (∀ w, w_faults (m w).2 = w_faults w) → thrifty m.
Proof. intros H w. unfold failing. by rewrite H. Qed.
Lemma thrifty_stmt {A} (bad : A) f : thrifty (stmt bad f).
Proof. intros w. unfold stmt, failing. destruct (w_faults w) as [|[|] fs]; cbn; try destruct (f (w_rows w)); cbn; lia. Qed.
(** What takes the next outcome. *)
Ltac spend := let w := fresh in intros w; unfold failing; destruct (w_faults w) as [|[|] ?]; cbn; repeat case_match; cbn; lia.
Lemma thrifty_event a k n ws j d : thrifty (record_event a k n ws j d).
Proof. unfold record_event. spend. Qed.
Lemma thrifty_nodes : thrifty list_nodes.
Proof. unfold list_nodes. spend. Qed.
Lemma thrifty_permit ws : thrifty (permit_of ws).
Proof. unfold permit_of. spend. Qed.
Lemma thrifty_seen n x : thrifty (touch_seen_at n x).
Proof. unfold touch_seen_at. spend. Qed.
Lemma thrifty_pause n x : thrifty (set_controller_pause n x).
Proof. unfold set_controller_pause. spend. Qed.
Lemma thrifty_revoke n : thrifty (revoke_node n).
Proof.
  intros w. unfold revoke_node, failing. destruct (w_faults w) as [|[|] fs]; cbn; [|lia|]; repeat case_match; cbn; try lia.
  all: destruct fs as [|[|] fs]; cbn in *; simplify_eq; cbn; lia.
Qed.
Lemma thrifty_health n s why x : thrifty (health_count t n s why x).
Proof. apply thrifty_still. intros w. unfold health_count. by destruct (health_record _ _ _ _ _). Qed.
Lemma thrifty_ret {A} (x : A) : thrifty (mret x).
Proof. by apply thrifty_still. Qed.
Lemma thrifty_effect x : thrifty (effect x).
Proof. by apply thrifty_still. Qed.
Lemma thrifty_looks {A} (f : World → A) : thrifty (looks f).
Proof. by apply thrifty_still. Qed.
Lemma thrifty_now : thrifty (now clock) ∧ thrifty (nowM clock).
Proof. split; by apply thrifty_still. Qed.
Lemma thrifty_online n : thrifty (is_online n) ∧ thrifty (node_facts n).
Proof. split; by apply thrifty_still. Qed.
Lemma thrifty_when c m : thrifty m → thrifty (when c m).
Proof. destruct c; [done|]. intros _. apply thrifty_ret. Qed.
Create HintDb thrift.
Hint Resolve thrifty_stmt thrifty_event thrifty_nodes thrifty_permit thrifty_seen thrifty_pause thrifty_revoke thrifty_health thrifty_ret thrifty_effect thrifty_looks : thrift.
Hint Extern 1 (thrifty _) => first [apply thrifty_now|apply thrifty_online] : thrift.
Ltac thrift_step :=
  match goal with
  | |- thrifty (mbind _ _) => apply thrifty_bind; [|intros ?]
  | |- thrifty (when _ _) => apply thrifty_when
  | |- thrifty (if ?c then _ else _) => destruct c
  | |- thrifty (match ?x with _ => _ end) => destruct x
  | |- thrifty _ => solve [auto 2 with thrift nocore]
  end.
Ltac thrift := repeat thrift_step.
Lemma thrifty_update id p f : thrifty (update_job id p f).
Proof. apply thrifty_stmt. Qed.
Lemma thrifty_job id : thrifty (job_by_id id).
Proof. apply thrifty_stmt. Qed.
Lemma thrifty_where p : thrifty (jobs_where p).
Proof. apply thrifty_stmt. Qed.
Lemma thrifty_list p n : thrifty (list_jobs p n).
Proof. apply thrifty_stmt. Qed.
Hint Resolve thrifty_update thrifty_job thrifty_where thrifty_list : thrift.
Lemma thrifty_reason id why d : thrifty (set_job_reason id why d).
Proof. unfold set_job_reason. thrift. Qed.
Lemma thrifty_state id st why d n : thrifty (set_job_state id st why d n).
Proof. apply thrifty_stmt. Qed.
Lemma thrifty_state_if id from st why d n : thrifty (set_job_state_if id from st why d n).
Proof. apply thrifty_stmt. Qed.
Lemma thrifty_ctl id c : thrifty (set_job_ctl id c).
Proof. unfold set_job_ctl. thrift. Qed.
Lemma thrifty_attempt id why : thrifty (requeue_new_attempt id why).
Proof. unfold requeue_new_attempt. thrift. Qed.
Lemma thrifty_generation id g why : thrifty (requeue_new_generation id g why).
Proof. apply thrifty_stmt. Qed.
Lemma thrifty_clear id : thrifty (clear_node_queued id).
Proof. unfold clear_node_queued. thrift. Qed.
Lemma thrifty_notified id n : thrifty (mark_notified id n).
Proof. unfold mark_notified. thrift. Qed.
Lemma thrifty_note id n : thrifty (note_withdraw id n).
Proof. unfold note_withdraw. thrift. Qed.
Lemma thrifty_move id p c why : thrifty (move_queued_job digest id p c why).
Proof. unfold move_queued_job. destruct (digest p); thrift. Qed.
Lemma thrifty_rewrite id p c : thrifty (rewrite_queued_plan digest id p c).
Proof. unfold rewrite_queued_plan. destruct (digest p); thrift. Qed.
Lemma thrifty_cancel n j g why : thrifty (send_cancel n j g why).
Proof. unfold send_cancel. thrift. Qed.
Hint Resolve thrifty_reason thrifty_ctl thrifty_attempt thrifty_generation thrifty_clear thrifty_notified thrifty_note thrifty_cancel : thrift.
Hint Resolve thrifty_state thrifty_state_if thrifty_move thrifty_rewrite : thrift.
Lemma thrifty_finalize id : thrifty (finalize clock follower_recent id).
Proof. unfold finalize. thrift. Qed.
Lemma thrifty_try_move j avoid hard why : thrifty (try_move digest choose j avoid hard why).
Proof.
  unfold try_move. destruct (sn_plan (cj_sent j)); [|thrift]. intros w. destruct (choose w j avoid hard why) as [[[node p'] pl]|]; [|done]. cbv zeta.
  match goal with |- (failing (?m w).2 ≤ _)%nat => enough (thrifty m) as H by exact (H w) end. unfold kick, notify_change. thrift.
Qed.
Hint Resolve thrifty_finalize thrifty_try_move : thrift.
Lemma thrifty_after_attempt id : thrifty (after_attempt clock t digest choose id).
Proof.
  unfold after_attempt, retry_attempt, kick, notify_change. cbv zeta. thrift.
  intros w. unfold exhausted. match goal with |- (failing (?m w).2 ≤ _)%nat => enough (thrifty m) as H by exact (H w) end. thrift.
Qed.
Lemma thrifty_fail_waiting j wh n : thrifty (fail_waiting blocked_words j wh n).
Proof. unfold fail_waiting. cbv zeta. thrift. Qed.
Hint Resolve thrifty_after_attempt thrifty_fail_waiting : thrift.

(** The handlers. *)
Lemma thrifty_given_back node j : thrifty (given_back_job clock follower_recent blocked_words digest choose node j).
Proof. unfold given_back_job, kick, notify_change. thrift. Qed.
Hint Resolve thrifty_given_back : thrift.
Lemma thrifty_skew n : thrifty (node_skew clock n).
Proof. unfold node_skew. thrift. Qed.
Hint Resolve thrifty_skew : thrift.
Lemma thrifty_progress node j st why d exit src times n :
  thrifty (observe_progress clock t follower_recent digest choose node j st why d exit src times n).
Proof.
  unfold observe_progress, set_job_times, set_job_src, set_job_exit. cbv zeta. thrift. intros w. destruct (copy_last_seq _ _ _) as [last lg].
  match goal with |- (failing (?m (set_logs lg w)).2 ≤ _)%nat => enough (thrifty m) as H by exact (H (set_logs lg w)) end. unfold set_job_log. thrift.
Qed.
Hint Resolve thrifty_progress : thrift.
Lemma thrifty_observation node id g st why d exit src q times :
  thrifty (apply_observation clock t follower_recent blocked_words digest choose node id g st why d exit src q times).
Proof. unfold apply_observation, observe_refused, mark_node_queued. cbv zeta. thrift. Qed.
Hint Resolve thrifty_observation : thrift.
Lemma thrifty_on_state node s : thrifty (on_state clock t follower_recent blocked_words digest choose outputs_text node s).
Proof. unfold on_state, store_outputs, set_job_outputs, notify_change. thrift. Qed.
Lemma thrifty_snapshot node s seen : thrifty (on_snapshot clock t follower_recent blocked_words digest choose node s seen).
Proof.
  assert (H1 : ∀ jobs, thrifty (snapshot_rows clock t follower_recent blocked_words digest choose node jobs)).
  { induction jobs as [|j jobs IH]; cbn [snapshot_rows]; unfold stop_stale; cbv zeta; thrift. }
  assert (H2 : ∀ seen rows, thrifty (snapshot_lost clock node seen rows)).
  { intros seen' rows. induction rows as [|j rows IH]; cbn [snapshot_lost]; cbv zeta; thrift. }
  assert (H3 : ∀ l, thrifty (end_lost clock t follower_recent digest choose l)) by (induction l as [|id l IH]; cbn [end_lost]; thrift).
  unfold on_snapshot, jobs_in_states, kick, notify_change. cbv zeta. thrift.
Qed.
Lemma thrifty_finish_all ids : thrifty (finish_all clock follower_recent ids).
Proof. unfold finish_all, finish_job. induction ids as [|id ids IH]; cbn; thrift. Qed.
Hint Resolve thrifty_on_state thrifty_snapshot thrifty_finish_all : thrift.
Lemma thrifty_off_list node ws : thrifty (sweep_off_list clock follower_recent ws_handle node ws).
Proof.
  assert (H : ∀ n permits rows, thrifty (fail_off_list ws_handle n permits rows)).
  { intros n permits rows. revert permits. induction rows as [|j rows IH]; intros permits; cbn [fail_off_list]; cbv zeta; thrift. }
  unfold sweep_off_list, notify_change. thrift.
Qed.
Hint Resolve thrifty_off_list : thrift.
Lemma thrifty_set_allow names person passport resolve by' ws q : thrifty (set_allow_list clock follower_recent ws_handle names person passport resolve by' ws q).
Proof.
  assert (H : ∀ rows, thrifty (withdraw_all rows)) by (induction rows as [|j rows IH]; cbn [withdraw_all]; thrift).
  unfold set_allow_list, withdraw_node_queued_off_list. thrift; spend.
Qed.
Lemma thrifty_assign node at' again j detail : thrifty at' → thrifty again → thrifty (assign_job node at' again j detail).
Proof. intros H1 H2. unfold assign_job, assign_if_queued. thrift. Qed.
Lemma thrifty_fit j plan : thrifty (fit_plan_to digest fit_plan j plan).
Proof. unfold fit_plan_to. thrift. Qed.
Hint Resolve thrifty_set_allow thrifty_assign thrifty_fit : thrift.
Lemma thrifty_kick node : thrifty (kick_now clock follower_recent digest decision_for is_shared shared_pass feature_wait fit_plan ws_handle node).
Proof.
  assert (H1 : ∀ l, thrifty (mark_waiting clock node l)) by (induction l as [|[id why] l IH]; cbn [mark_waiting]; unfold fail_request, wait_mark; thrift).
  assert (H2 : ∀ l, thrifty (mark_shared l)) by (induction l as [|[id why] l IH]; cbn [mark_shared]; unfold wait_mark; thrift).
  assert (H3 : ∀ n l, thrifty (fail_shared node n l)) by (intros n; induction l as [|[id why] l IH]; cbn [fail_shared]; thrift).
  assert (H4 : ∀ n l b, thrifty (send_shared digest fit_plan node n l b)).
  { intros n. induction l as [|id l IH]; intros b; cbn [send_shared]; unfold send_shared_one; thrift. }
  unfold kick_now, kick_shared, kick_solo, notify_change. thrift.
Qed.
Lemma thrifty_remove by' node : thrifty (remove_now clock follower_recent by' node) ∧ ∀ marked, thrifty (node_retire clock follower_recent by' node marked).
Proof.
  assert (H : ∀ at' why rows, thrifty at' → thrifty (cancel_rows_of at' why rows)) by (intros at' why rows Hat; induction rows as [|j rows IH]; cbn [cancel_rows_of]; thrift).
  assert (Hr : thrifty (remove_now clock follower_recent by' node)) by (unfold remove_now, jobs_in_states, notify_change; thrift).
  split; [exact Hr|]. intros marked. unfold node_retire, jobs_in_states, notify_change, kick. thrift.
Qed.
Lemma thrifty_resend node ws only : thrifty (resend_queued node ws only).
Proof.
  assert (H : ∀ rows, thrifty (resend_all node rows)) by (induction rows as [|j rows IH]; cbn [resend_all]; thrift).
  unfold resend_queued, node_queued_jobs, notify_change. thrift.
Qed.
Lemma thrifty_supersede ws key new : thrifty (supersede_older clock follower_recent ws key new).
Proof.
  assert (H : ∀ olds, thrifty (supersede_each clock new key olds)).
  { induction olds as [|old olds IH]; cbn [supersede_each]; unfold supersede_one, replaced_event, replace_if_queued; cbv zeta; thrift. }
  unfold supersede_older, queued_with_supersede_key. thrift.
Qed.
Lemma thrifty_act a : thrifty (any_act a).
Proof.
  assert (H : ∀ node rows, thrifty (send_owed node rows)) by (intros node rows; induction rows as [|j rows IH]; cbn [send_owed]; thrift).
  destruct a; unfold any_act; cbn [act]; try (thrift; fail).
  - unfold on_receipt, set_job_receipt, set_job_outputs, notify_change. cbv zeta. thrift.
  - unfold cancel_one, cancel_decide, cancel_on_node, cancel_event, cancel_if_queued, notify_change. thrift.
  - unfold retry_one, kick, notify_change. thrift.
  - apply thrifty_kick.
  - apply thrifty_resend.
  - thrift. apply thrifty_supersede.
  - thrift. apply thrifty_remove.
  - apply thrifty_remove.
  - unfold on_attach, touch_seen, jobs_in_states, notify_change. thrift.
    apply thrifty_still. intros w. by destruct (resume_hints _ _).
  - unfold on_detach, touch_seen, notify_change. thrift.
Qed.

Lemma thrifty_turn n awake at' :
  thrifty (sweep_turn clock t follower_recent blocked_words digest choose starts_elsewhere placement_code avoids decision_for n awake at').
Proof.
  destruct at' as [|nodes|nodes [|j rows]|nodes [|j rows]|nodes [|j rows] ds changed]; cbn [sweep_turn];
    unfold active_jobs, node_queued_jobs, queued_jobs, sweep_lost_one, lose_job, requeue_lost, sweep_held_row, sweep_held_one, finish_job, notify_change; cbv zeta; thrift.
  unfold sweep_queued_one, fail_queued, leave_reason, finish_job. cbv zeta. thrift.
Qed.
Lemma thrifty_move_any m s : (failing (sv_world (any_move m s)) ≤ failing (sv_world s))%nat.
Proof.
  destruct m as [a|n awake| |node id g why|i]; unfold any_move; cbn [server_move].
  - apply thrifty_act.
  - by destruct (sv_sweep s).
  - destruct (sv_sweep s) as [[[n awake] at']|]; [|done]. pose proof (thrifty_turn n awake at' (sv_world s)) as H.
    by destruct (sweep_turn _ _ _ _ _ _ _ _ _ _ _ _ _ _).
  - assert (H : thrifty (take_back clock node id g why)) by (unfold take_back; cbv zeta; thrift). specialize (H (sv_world s)).
    by destruct (take_back _ _ _ _ _ _).
  - destruct (sv_back s !! i) as [[node j]|]; [|done]. apply thrifty_given_back.
Qed.

(** *** Withdraws *)

(** What the statements of an ask leave. *)
Lemma reason_spec id why d w r : w_rows w !! id = Some r → let w' := (set_job_reason id why d w).2 in
  w_fx w' = w_fx w ∧ w_online w' = w_online w ∧ ∃ r', w_rows w' !! id = Some r' ∧ same_withdraws r r'.
Proof.
  intros Hr. cbv zeta. unfold set_job_reason, update_job, stmt, mbind, ServerM_bind.
  destruct (w_faults w) as [|[|] fs]; cbn; rewrite Hr; cbn; rewrite ?lookup_insert_eq; split_and!; try done; eexists; (split; [done|by split]).
Qed.
Lemma note_spec id n w r : w_rows w !! id = Some r → let w' := (note_withdraw id n w).2 in
  w_fx w' = w_fx w ∧ w_online w' = w_online w ∧ ∃ r', w_rows w' !! id = Some r'
  ∧ (cj_withdraws r' = cj_withdraws r + 1 ∧ cj_withdrawn_at r' = Some n ∨ (failing w' < failing w)%nat ∧ same_withdraws r r').
Proof.
  intros Hr. cbv zeta. unfold note_withdraw, update_job, stmt, mbind, ServerM_bind, failing.
  destruct (w_faults w) as [|[|] fs]; cbn; rewrite Hr; cbn; rewrite ?lookup_insert_eq; split_and!; try done; eexists; (split; [done|]); [by left| |by left].
  right. split; [lia|done].
Qed.
Lemma event_spec a k n ws j d w : let w' := (record_event a k n ws j d w).2 in w_fx w' = w_fx w ∧ w_online w' = w_online w ∧ w_rows w' = w_rows w.
Proof. cbv zeta. unfold record_event. by destruct (w_faults w) as [|[|] ?]. Qed.

Definition same_after {A} (m : ServerM A) : Prop := by_steps same_withdraws m.
#[local] Instance same_trans : Transitive same_withdraws.
Proof. intros a b c [H1 H2] [H3 H4]. split; congruence. Qed.
Lemma later_same r r' : later r r' → same_withdraws r r'.
Proof. by intros (_&?&_). Qed.
Lemma same_worn {A} (m : ServerM A) : by_steps worn m → same_after m.
Proof. intros H w id. destruct (H w id) as [x y [_ Hs]|]; by constructor. Qed.
Lemma same_lat {A} (m : ServerM A) : lat m → same_after m.
Proof. apply by_steps_lat, later_same. Qed.

(** Whether a turn asks the node. *)
Definition turn_asks (n awake : Z) (j : ComputeJob) (w w' : World) : bool :=
  negb (timed_out t j n awake) && existsb (is_withdraw j) (drop (length (w_fx w)) (w_fx w')).
Definition asked_row (n : Z) (w w' : World) (r r' : ComputeJob) : Prop :=
  cj_withdraws r < MAX_WITHDRAWS ∧ (∀ a, cj_withdrawn_at r = Some a → a + WITHDRAW_AGAIN_SECS ≤ n)
  ∧ (cj_withdraws r' = cj_withdraws r + 1 ∧ cj_withdrawn_at r' = Some n ∨ (failing w' < failing w)%nat ∧ same_withdraws r r').
Definition held_turn (n awake : Z) (j : ComputeJob) (w w' : World) (r : ComputeJob) : Prop :=
  ∃ r', w_rows w' !! cj_id j = Some r' ∧ if turn_asks n awake j w w' then asked_row n w w' r r' else same_withdraws r r'.
Lemma held_same n awake j w r : w_rows w !! cj_id j = Some r → held_turn n awake j w w r.
Proof.
  intros Hr. exists r. split; [exact Hr|]. unfold turn_asks. rewrite drop_ge by done. rewrite andb_false_r. by split.
Qed.
Lemma held_ask n awake j w r detail : w_rows w !! cj_id j = Some r → same_withdraws j r → may_withdraw (cj_withdraws j) (cj_withdrawn_at j) n = true →
  timed_out t j n awake = false → cj_node j ∈ w_online w →
  held_turn n awake j w
    ((set_job_reason (cj_id j) (Some pending_WITHDRAW) None;;
      note_withdraw (cj_id j) n;;
      record_event "controller" "withdraw_asked" (Some (cj_node j)) (Some (jf_workspace_id (cj_fixed j))) (Some (cj_id j)) detail;;
      sent ← send_cancel (cj_node j) (cj_id j) (cj_generation j) CANCEL_WITHDRAW;
      when (negb sent) (set_job_reason (cj_id j) (Some codes_NODE_QUEUED) None)) w).2 r.
Proof.
  intros Hr [Hw Ha] [Hm1 Hm2]%andb_true_iff Ht Hon. unfold mbind, ServerM_bind at 1.
  destruct (reason_spec (cj_id j) (Some pending_WITHDRAW) None w r Hr) as (F1&O1&r1&Hr1&Hs1). pose proof (thrifty_reason (cj_id j) (Some pending_WITHDRAW) None w) as T1.
  destruct (set_job_reason _ _ _ w) as [[] w1]. cbn [fst snd] in *. unfold ServerM_bind at 1.
  destruct (note_spec (cj_id j) n w1 r1 Hr1) as (F2&O2&r2&Hr2&Hs2). destruct (note_withdraw _ _ w1) as [[] w2]. cbn [fst snd] in *. unfold ServerM_bind at 1.
  match goal with |- context [record_event ?a ?b ?c ?d ?e detail w2] => destruct (event_spec a b c d e detail w2) as (F3&O3&R3); pose proof (thrifty_event a b c d e detail w2) as T3;
    destruct (record_event a b c d e detail w2) as [[] w3] end.
  cbn [fst snd] in *. unfold send_cancel, is_online, mbind, ServerM_bind, effect, mret, ServerM_ret. cbn.
  rewrite (bool_decide_eq_true_2 (cj_node j ∈ w_online w3)) by (by rewrite O3, O2, O1). cbn.
  exists r2. split; [cbn; by rewrite R3|]. unfold turn_asks. rewrite Ht. cbn [w_fx set_fx]. rewrite F3, F2, F1, drop_app_length. cbn.
  rewrite !bool_decide_eq_true_2 by done. rewrite Z.eqb_refl. cbn. unfold asked_row, failing in *. cbn. unfold same_withdraws in *.
  bool_props. split_and!; [lia| |destruct Hs2 as [[? ?]|[? ?]]; [left; split; [lia|done]|right; split; [lia|split; destruct_and!; congruence]]].
  intros a Hx. rewrite <- Ha in Hm2. destruct Hs1. rewrite Ha, Hx in *. bool_props. lia.
Qed.

Lemma held_by_same {A} (m : ServerM A) n awake j w r : w_rows w !! cj_id j = Some r → same_after m → timed_out t j n awake = true →
  held_turn n awake j w (m w).2 r.
Proof.
  intros Hr Hm Ht. specialize (Hm w (cj_id j)). rewrite Hr in Hm. inversion Hm as [x r' Hs Hx Hr'|]; subst. exists r'. split; [done|].
  unfold turn_asks. by rewrite Ht.
Qed.
Lemma held_one_turn f n awake j w r : w_rows w !! cj_id j = Some r → same_withdraws j r →
  held_turn n awake j w (sweep_held_one clock t follower_recent blocked_words starts_elsewhere placement_code f n awake j w).2 r.
Proof.
  intros Hr Hj. pose proof (held_same n awake j w r Hr) as Hsame. unfold sweep_held_one, is_online, looks. cbv zeta.
  unfold mbind at 1, ServerM_bind at 1. destruct (_ || _); [exact Hsame|]. destruct (timed_out t j n awake) eqn:Ht.
  { apply held_by_same; [done| |done]. destruct (negb _).
    - apply same_worn. apply by_steps_bind; [apply _|apply late_fail_waiting|]. intros _. apply by_steps_lat; [exact later_worn|lat].
    - apply same_lat. lat. }
  destruct (bool_decide (cj_node j ∈ w_online w)) eqn:Hon; [|rewrite orb_true_r; exact Hsame]. apply bool_decide_eq_true in Hon.
  destruct (may_withdraw _ _ n) eqn:Hm; [|rewrite !orb_true_r; exact Hsame]. destruct (_ || _); [exact Hsame|].
  destruct (bool_decide (sn_plan (cj_sent j) = None)); [exact Hsame|]. unfold mbind at 1, ServerM_bind at 1.
  destruct (negb (starts_elsewhere w j)); [exact Hsame|]. by apply held_ask.
Qed.
Lemma held_row_turn nodes n awake j w r : w_rows w !! cj_id j = Some r → same_withdraws j r →
  held_turn n awake j w (sweep_held_row clock t follower_recent blocked_words starts_elsewhere placement_code nodes n awake j w).2 r.
Proof. intros Hr Hj. unfold sweep_held_row. destruct (nodes !! cj_node j); [by apply held_one_turn|by apply held_same]. Qed.

(** The rows the pass holds have the counts of the table. *)
Definition tallied (s : Server) : Prop :=
  match sv_sweep s with
  | Some (_, _, Sw_held _ rows) => NoDup (cj_id <$> rows) ∧ Forall (λ j, ∃ r, w_rows (sv_world s) !! cj_id j = Some r ∧ same_withdraws j r) rows
  | _ => True
  end.
Lemma tallied_rows (w w' : World) rows : (∀ id, id ∈ cj_id <$> rows → option_Forall2 same_withdraws (w_rows w !! id) (w_rows w' !! id)) →
  Forall (λ j, ∃ r, w_rows w !! cj_id j = Some r ∧ same_withdraws j r) rows → Forall (λ j, ∃ r, w_rows w' !! cj_id j = Some r ∧ same_withdraws j r) rows.
Proof.
  intros H. rewrite !Forall_forall. intros Hf j Hj. destruct (Hf j Hj) as (r&Hr&Hs). specialize (H (cj_id j) ltac:(by apply list_elem_of_fmap_2)).
  rewrite Hr in H. inversion H as [x y Hxy|]; subst. exists y. split; [done|by etrans].
Qed.
(** Every move but the turn of a held row leaves the counts alone. *)
Definition at_held (m : ServerMove) (s : Server) : Prop :=
  match m, sv_sweep s with Mv_turn, Some (_, _, Sw_held _ (_ :: _)) => True | _, _ => False end.
Lemma move_same m s : keyed (sv_world s) → ¬ at_held m s →
  ∀ id, option_Forall2 same_withdraws (w_rows (sv_world s) !! id) (w_rows (sv_world (any_move m s)) !! id).
Proof.
  intros Hk Hn. assert (Hrefl : ∀ id, option_Forall2 same_withdraws (w_rows (sv_world s) !! id) (w_rows (sv_world s) !! id)).
  { intros id. destruct (_ !! _); by constructor. }
  destruct m as [a|n awake| |node id g why|i]; unfold any_move; cbn [server_move].
  - intros id. cbn [sv_world]. change (act _ _ _ _ _ _ _ _ _ _ _ _ _ _ _ a) with (any_act a). destruct (proj1 (act_goes a (sv_world s) Hk) id); constructor. by apply later_same.
  - by destruct (sv_sweep s).
  - unfold at_held in Hn. destruct (sv_sweep s) as [[[n awake] at']|]; [|done].
    match goal with |- context [sweep_turn ?a ?b ?c ?d ?e ?f ?g ?h ?i ?k n awake at'] => set (m := sweep_turn a b c d e f g h i k n awake at') end.
    assert (Hm : same_after m); [|specialize (Hm (sv_world s)); by destruct (m (sv_world s))].
    subst m. destruct at' as [|nodes|nodes [|j rows]|nodes [|j rows]|nodes [|j rows] ds changed]; cbn [sweep_turn];
      try (apply same_lat; lat; apply quiet_lat, quiet_jobs_in); [|done].
    apply same_worn. apply by_steps_bind; [apply _|apply late_lost_one|]. intros. apply by_steps_lat; [exact later_worn|lat].
  - destruct (take_back_spec node id g why (sv_world s)) as [Hr _]. destruct (take_back _ _ _ _ _ _) as [j w1]. cbn in *. by rewrite Hr.
  - destruct (sv_back s !! i) as [[node j]|]; [|done]. apply (same_worn _ (late_given_back node j)).
Qed.
Lemma move_tallied m s : keyed (sv_world s) → tallied s → tallied (any_move m s).
Proof.
  intros Hk Ht. assert (m = Mv_turn ∨ m ≠ Mv_turn) as [->|Hne] by (destruct m; auto).
  - pose proof (move_same Mv_turn s Hk) as Hs. unfold tallied, at_held, any_move in *. cbn [server_move] in *. destruct (sv_sweep s) as [[[n awake] at']|] eqn:He; [|by rewrite He].
    destruct at' as [|nodes|nodes [|j rows]|nodes [|j rows]|nodes [|j rows] ds changed]; cbn [sweep_turn] in *; unfold mbind, ServerM_bind in *.
    + by destruct (list_nodes _).
    + by destruct (active_jobs _).
    + destruct (jobs_where_spec (λ r, nq_queued (cj_nodeq r) && is_state JobState_Assigned r) (sv_world s) Hk) as ((_&Hn&Hf)&_&_).
      unfold node_queued_jobs. destruct (jobs_where _ _) as [rows w1]. cbn in *. split; [done|]. eapply Forall_impl; [exact Hf|]. intros j Hj. exists j. by split.
    + by destruct (sweep_lost_one _ _ _ _ _ _ _ _ _ _ _).
    + by destruct (queued_jobs _).
    + destruct Ht as [[Hni Hn]%NoDup_cons [_ Hf]%Forall_cons]. pose proof (own_held_row nodes n awake j (sv_world s) Hk) as [_ Ho].
      destruct (sweep_held_row _ _ _ _ _ _ _ _ _ _ _) as [x w1]. cbn in *. split; [done|]. eapply tallied_rows; [|exact Hf]. intros id Hid.
      rewrite Ho; [destruct (_ !! id); by constructor|]. by intros ->.
    + by destruct (when _ _ _).
    + by destruct (sweep_queued_one _ _ _ _ _ _ _ _ _ _ _ _ _ _).
  - assert (Hs : ∀ id, option_Forall2 same_withdraws (w_rows (sv_world s) !! id) (w_rows (sv_world (any_move m s)) !! id)) by (apply move_same; [done|intros Hat; by destruct m]).
    assert (Hsw : sv_sweep (any_move m s) = sv_sweep s ∨ ∃ n awake, sv_sweep (any_move m s) = Some (n, awake, Sw_nodes)).
    { destruct m as [a|n awake| |node id g why|i]; unfold any_move; cbn [server_move]; [by left| |done| |].
      - destruct (sv_sweep s) eqn:He; [by left|right; by eexists _, _].
      - left. by destruct (take_back _ _ _ _ _ _).
      - left. by destruct (sv_back s !! i) as [[? ?]|]. }
    unfold tallied in *. destruct Hsw as [->|(n&awake&->)]; [|done]. destruct (sv_sweep s) as [[[? ?] []]|]; try done.
    destruct Ht as [Hn Hf]. split; [done|]. eapply tallied_rows; [|exact Hf]. auto.
Qed.
Lemma asked_at id s : asked clock t follower_recent blocked_words digest choose starts_elsewhere placement_code avoids decision_for is_shared shared_pass feature_wait fit_plan ws_handle
    outputs_text artifacts_text verify id s
  = match sv_sweep s with
    | Some (n, awake, Sw_held nodes (j :: rows)) =>
      if bool_decide (cj_id j = id) && turn_asks n awake j (sv_world s) (sv_world (any_move Mv_turn s)) then Some n else None
    | _ => None
    end.
Proof. unfold asked, turn_asks. destruct (sv_sweep s) as [[[n awake] [| | |nodes [|j rows]|]]|]; try done. by rewrite andb_assoc. Qed.

Definition any_asks : string → list ServerMove → Server → list Z :=
  mover_asks clock t follower_recent blocked_words digest choose starts_elsewhere placement_code avoids decision_for is_shared shared_pass feature_wait fit_plan ws_handle
    outputs_text artifacts_text verify.
Definition move_asks (id : string) (m : ServerMove) (s : Server) : list Z :=
  match m with
  | Mv_turn => option_list (asked clock t follower_recent blocked_words digest choose starts_elsewhere placement_code avoids decision_for is_shared shared_pass
      feature_wait fit_plan ws_handle outputs_text artifacts_text verify id s)
  | _ => []
  end.
Lemma any_asks_cons id m l s : any_asks id (m :: l) s = move_asks id m s ++ any_asks id l (any_move m s).
Proof. by destruct m. Qed.
(** A move asks at most once, and it is counted or a statement failed. *)
Lemma move_counts m s id r : keyed (sv_world s) → tallied s → w_rows (sv_world s) !! id = Some r →
  ∃ r', w_rows (sv_world (any_move m s)) !! id = Some r'
    ∧ ((move_asks id m s = [] ∧ same_withdraws r r')
       ∨ ∃ n, move_asks id m s = [n] ∧ asked_row n (sv_world s) (sv_world (any_move m s)) r r').
Proof.
  intros Hk Ht Hr. assert (Hcase : at_held m s ∨ ¬ at_held m s).
  { unfold at_held. destruct m; auto. destruct (sv_sweep s) as [[[? ?] [| | |nodes [|j rows]|]]|]; auto. }
  destruct Hcase as [Hat|Hat].
  - destruct m; try done. unfold at_held in Hat. destruct (sv_sweep s) as [[[n awake] [| | |nodes [|j rows]|]]|] eqn:He; try done. clear Hat.
    assert (Hw : sv_world (any_move Mv_turn s) = (sweep_held_row clock t follower_recent blocked_words starts_elsewhere placement_code nodes n awake j (sv_world s)).2).
    { unfold any_move. cbn [server_move]. rewrite He. cbn [sweep_turn]. unfold mbind, ServerM_bind. by destruct (sweep_held_row _ _ _ _ _ _ _ _ _ _ _). }
    unfold move_asks. rewrite asked_at, He, Hw. unfold tallied in Ht. rewrite He in Ht. destruct Ht as [_ [(r0&Hr0&Hs0) _]%Forall_cons].
    destruct (decide (cj_id j = id)) as [<-|Hne].
    + rewrite Hr in Hr0. injection Hr0 as <-. destruct (held_row_turn nodes n awake j (sv_world s) r Hr Hs0) as (r'&Hr'&Hc). exists r'. split; [done|].
      rewrite bool_decide_eq_true_2 by done. cbn [andb]. destruct (turn_asks _ _ _ _ _); [right; by exists n|by left].
    + rewrite bool_decide_eq_false_2 by done. destruct (own_held_row nodes n awake j (sv_world s) Hk) as [_ Ho]. rewrite Ho by done.
      exists r. split; [done|]. left. by split.
  - pose proof (move_same m s Hk Hat id) as Hs. rewrite Hr in Hs. inversion Hs as [x r' Hrr Hx Hr'|]; subst. exists r'. split; [done|]. left. split; [|done].
    unfold move_asks. destruct m; try done. rewrite asked_at. unfold at_held in Hat. by destruct (sv_sweep s) as [[[? ?] [| | |nodes [|j rows]|]]|].
Qed.
Lemma asks_counted l s id r : keyed (sv_world s) → tallied s → w_rows (sv_world s) !! id = Some r →
  (Z.of_nat (length (any_asks id l s)) ≤ Z.max 0 (MAX_WITHDRAWS - cj_withdraws r) + Z.of_nat (failing (sv_world s)) - Z.of_nat (failing (sv_world (any_moves l s))))
  ∧ (failing (sv_world s) = 0%nat → spaced (cj_withdrawn_at r) (any_asks id l s)).
Proof.
  revert s r. induction l as [|m l IH]; intros s r Hk Ht Hr; [split; [cbn; lia|done]|].
  destruct (move_counts m s id r Hk Ht Hr) as (r'&Hr'&Hc). pose proof (thrifty_move_any m s) as Hf.
  assert (Hk' : keyed (sv_world (any_move m s))) by by apply (turned_keyed _ _ _ (move_turned m s Hk)).
  destruct (IH (any_move m s) r' Hk' (move_tallied m s Hk Ht) Hr') as [Hn Hsp]. rewrite any_asks_cons.
  change (any_moves (m :: l) s) with (any_moves l (any_move m s)). destruct Hc as [[-> [Hw Ha]]|(n&->&Hm&Hd&Hc)].
  - cbn [app]. split; [rewrite <- Hw; lia|]. intros H0. rewrite <- Ha. apply Hsp. lia.
  - rewrite length_app. cbn [app length spaced]. destruct Hc as [[Hw Ha]|[Hlt [Hw Ha]]].
    + split; [lia|]. intros H0. split; [exact Hd|]. rewrite <- Ha. apply Hsp. lia.
    + split; [rewrite Hw in Hn; lia|lia].
Qed.

(** ** Only to a node on the list *)

Section allowed.
Context (w0 : World) (Hkeyed : keyed w0) (node : string).

Definition allowed (ws : string) : Prop := Permit_allows (allow_permit true (w_settings w0) ws) node = true.
(** [r'] was [r0] in [w0], and was assigned since only where allowed. *)
Definition since_allowed (r0 r' : ComputeJob) : Prop :=
  cj_fixed r' = cj_fixed r0 ∧ (cj_state r' = JobState_Assigned → cj_state r0 = JobState_Assigned ∨ allowed (jf_workspace_id (cj_fixed r0))).
Definition listed (w : World) : Prop :=
  w_settings w = w_settings w0 ∧ ∀ id r', w_rows w !! id = Some r' → ∃ r0, w_rows w0 !! id = Some r0 ∧ since_allowed r0 r'.
Definition safe {A} (m : ServerM A) : Prop := ∀ w, listed w → listed (m w).2.
Lemma listed_start : listed w0.
Proof. split; [done|]. intros id r Hr. exists r. split; [done|]. split; [done|]. by left. Qed.

Lemma safe_bind {A B} (m : ServerM A) (k : A → ServerM B) : safe m → (∀ x, safe (k x)) → safe (m ≫= k).
Proof. intros Hm Hk w Hw. unfold mbind, ServerM_bind. specialize (Hm w Hw). destruct (m w) as [x w1]. by apply Hk. Qed.
Lemma safe_ret {A} (x : A) : safe (mret x).
Proof. by intros w Hw. Qed.
Lemma safe_when c m : safe m → safe (when c m).
Proof. destruct c; [done|]. intros _. apply safe_ret. Qed.
(** What changes neither rows nor settings. *)
Lemma safe_calm {A} (m : ServerM A) : (∀ w, w_rows (m w).2 = w_rows w ∧ w_settings (m w).2 = w_settings w) → safe m.
Proof. intros H w [Hs Hr]. destruct (H w) as [H1 H2]. split; [by rewrite H2|]. by rewrite H1. Qed.
Lemma safe_event a k n ws j d : safe (record_event a k n ws j d).
Proof. apply safe_calm. intros w. unfold record_event. by destruct (w_faults w) as [|[|] ?]. Qed.
Lemma safe_list_jobs p n : safe (list_jobs p n).
Proof. apply safe_calm. intros w. unfold list_jobs, stmt. by destruct (w_faults w) as [|[|] ?]. Qed.
Lemma safe_effect x : safe (effect x).
Proof. by apply safe_calm. Qed.
Lemma safe_looks {A} (f : World → A) : safe (looks f).
Proof. by apply safe_calm. Qed.
Lemma safe_read_permit ws : safe (permit_of ws).
Proof. apply safe_calm. intros w. unfold permit_of. by destruct (w_faults w) as [|[|] ?]. Qed.
Lemma safe_now : safe (nowM clock).
Proof. by apply safe_calm. Qed.
Lemma safe_online n : safe (is_online n).
Proof. by apply safe_calm. Qed.
Lemma safe_facts n : safe (node_facts n).
Proof. by apply safe_calm. Qed.
Lemma safe_read id : safe (job_by_id id).
Proof. apply safe_calm. intros w. unfold job_by_id, stmt. by destruct (w_faults w) as [|[|] ?]. Qed.
Lemma safe_notify : safe notify_change.
Proof. apply safe_effect. Qed.
Lemma update_settings id p f w : w_settings (update_job id p f w).2 = w_settings w.
Proof. unfold update_job, stmt. by destruct (w_faults w) as [|[|] ?]; destruct (w_rows w !! id) as [r|]; try done; destruct (p r). Qed.
Lemma safe_update id p f : (∀ r r0, w_rows w0 !! id = Some r0 → p r = true → since_allowed r0 r → since_allowed r0 (f r)) → safe (update_job id p f).
Proof.
  intros Hf w [Hs Hr]. split; [by rewrite update_settings|]. intros id' r'. destruct (update_job_rows id p f w) as [b ->].
  destruct (w_rows w !! id) as [r|] eqn:He; [|by apply Hr]. destruct (b && p r) eqn:Hp; [|by apply Hr]. apply andb_true_iff in Hp as [_ Hp].
  intros [[<- <-]|[_ H]]%lookup_insert_Some; [|by apply Hr]. destruct (Hr _ _ He) as (r0&H0&Hsi). exists r0. split; [done|]. by apply Hf.
Qed.
Lemma safe_unassigned id p f : (∀ r, cj_fixed (f r) = cj_fixed r ∧ (cj_state (f r) = JobState_Assigned → cj_state r = JobState_Assigned)) → safe (update_job id p f).
Proof. intros H. apply safe_update. intros r r0 _ _ [Hf Ha]. destruct (H r) as [H1 H2]. split; [congruence|]. auto. Qed.
Lemma safe_state_if id from st why d n : st ≠ JobState_Assigned → safe (set_job_state_if id from st why d n).
Proof. intros Hne. apply safe_unassigned. intros r. split; [done|]. by intros ?. Qed.
Lemma safe_reason id why d : safe (set_job_reason id why d).
Proof. apply safe_bind; [|intros; apply safe_ret]. by apply safe_unassigned. Qed.
Lemma safe_notified id n : safe (mark_notified id n).
Proof. apply safe_bind; [|intros; apply safe_ret]. by apply safe_unassigned. Qed.
Lemma safe_rewrite id p c : safe (rewrite_queued_plan digest id p c).
Proof. unfold rewrite_queued_plan. destruct (digest p); [|apply safe_ret]. by apply safe_unassigned. Qed.
Hint Resolve safe_ret safe_event safe_list_jobs safe_effect safe_looks safe_read_permit safe_now safe_online safe_facts safe_read safe_notify safe_reason safe_notified
  safe_rewrite safe_when : own.
Hint Extern 1 (safe (set_job_state_if _ _ _ _ _ _)) => by apply safe_state_if : own.

Ltac safe_step :=
  match goal with
  | |- safe (mbind _ _) => apply safe_bind; [|intros ?]
  | |- safe (when _ _) => apply safe_when
  | |- safe (if ?c then _ else _) => destruct c
  | |- safe (match ?x with _ => _ end) => destruct x
  | |- safe _ => solve [eauto with own]
  end.
Ltac safe := repeat safe_step.

Lemma safe_finish id : safe (finish_job clock follower_recent id).
Proof. unfold finish_job, finalize. change (now clock) with (nowM clock). safe. Qed.
Hint Resolve safe_finish : own.
Lemma safe_finish_all ids : safe (finish_all clock follower_recent ids).
Proof. induction ids as [|id ids IH]; cbn [finish_all]; safe. Qed.
Lemma safe_fail_off n permits rows : safe (fail_off_list ws_handle n permits rows).
Proof. revert permits. induction rows as [|j rows IH]; intros permits; cbn [fail_off_list]; cbv zeta; safe. Qed.
Lemma safe_mark ws : safe (mark_waiting clock node ws) ∧ safe (mark_shared ws).
Proof. induction ws as [|[id why] ws [IH1 IH2]]; split; cbn [mark_waiting mark_shared]; unfold fail_request, wait_mark; safe. Qed.
Lemma safe_fail_shared n fail : safe (fail_shared node n fail).
Proof. induction fail as [|[id why] fail IH]; cbn [fail_shared]; safe. Qed.
Hint Resolve safe_finish_all safe_fail_off safe_fail_shared : own.

(** A row that was read is one of [w0]'s. *)
Definition of_start (id : string) (j : ComputeJob) : Prop := ∃ r0, w_rows w0 !! id = Some r0 ∧ cj_fixed j = cj_fixed r0.
Lemma of_start_id id j : of_start id j → cj_id j = id.
Proof. intros (r0&Hr&Hf). unfold cj_id. rewrite Hf. by apply Hkeyed. Qed.
Lemma safe_job {A} id (k : option ComputeJob → ServerM A) : safe (k None) → (∀ j, of_start id j → safe (k (Some j))) → safe (job_by_id id ≫= k).
Proof.
  intros Hn Hs w Hw. unfold mbind, ServerM_bind. destruct (job_read id w) as (f&H2&H1). destruct (job_by_id id w) as [x w1]. cbn [fst snd] in *. subst w1.
  assert (Hw1 : listed (set_rows (w_rows w) f w)) by exact Hw.
  destruct H1 as [->| ->]; [by apply Hn|]. destruct (w_rows w !! id) as [j|] eqn:Hj; [|by apply Hn].
  apply Hs; [|done]. destruct (proj2 Hw id j Hj) as (r0&Hr0&Hf&_). by exists r0.
Qed.
Lemma safe_permit {A} ws (k : Permit → ServerM A) : safe (k (Permit_Only [])) → safe (k (allow_permit true (w_settings w0) ws)) → safe (permit_of ws ≫= k).
Proof.
  intros Hn Hs w Hw. unfold mbind, ServerM_bind, permit_of. rewrite (proj1 Hw). destruct (w_faults w) as [|[|] fs]; [by apply Hs|by apply Hn|by apply Hs].
Qed.
Lemma safe_assign id j at' again detail : safe at' → safe again → of_start id j → allowed (jf_workspace_id (cj_fixed j)) → safe (assign_job node at' again j detail).
Proof.
  intros Hat Hagain Hj Ha. unfold assign_job. apply safe_bind; [done|]. intros n. apply safe_bind.
  - rewrite (of_start_id id j Hj). apply safe_update. intros r r0 Hr0 _ [Hf _]. split; [done|]. intros _. right. destruct Hj as (r1&Hr1&Hf1). rewrite Hr0 in Hr1. injection Hr1 as <-. by rewrite <- Hf1.
  - intros ok. destruct (negb _); [safe|]. apply safe_bind; [safe|]. intros up. destruct up; [safe|]. apply safe_bind; [done|]. intros n'.
    apply safe_bind; [|intros; safe]. by apply safe_unassigned.
Qed.
Lemma safe_fit {A} id j plan (k : option (ComputeJob * Plan) → ServerM A) : of_start id j → safe (k None) → (∀ j' p, of_start id j' → safe (k (Some (j', p)))) →
  safe (fit_plan_to digest fit_plan j plan ≫= k).
Proof.
  intros Hj Hn Hs w Hw. unfold mbind at 1, ServerM_bind at 1. unfold fit_plan_to, looks, mbind at 1, ServerM_bind at 1. case_bool_decide; [by apply Hs|].
  unfold mbind at 1, ServerM_bind at 1. pose proof (safe_rewrite (cj_id j) (fit_plan w j plan) (cj_ctl j) w Hw) as H1. destruct (rewrite_queued_plan _ _ _ _ w) as [ok w1].
  destruct (negb _); [by apply Hn|]. unfold mbind at 1, ServerM_bind at 1. destruct (job_read (cj_id j) w1) as (f&H3&H2). rewrite (of_start_id id j Hj) in *.
  destruct (job_by_id id w1) as [x w2]. cbn [fst snd] in *. subst w2. assert (Hw2 : listed (set_rows (w_rows w1) f w1)) by exact H1.
  destruct H2 as [->| ->]; [by apply Hn|]. destruct (w_rows w1 !! id) as [j'|] eqn:Hj'; [|by apply Hn].
  apply Hs; [|done]. destruct (proj2 H1 id j' Hj') as (r0&Hr0&Hf&_). by exists r0.
Qed.
Lemma of_start_ws id j j' : of_start id j → of_start id j' → jf_workspace_id (cj_fixed j') = jf_workspace_id (cj_fixed j).
Proof. intros (r0&Hr&Hf) (r1&Hr1&Hf1). rewrite Hr in Hr1. injection Hr1 as <-. congruence. Qed.
(** From the check of the list to the assignment. *)
Lemma safe_checked {A} id j (k : ServerM A) (m : Plan → ServerM A) : of_start id j → safe k →
  (∀ plan, allowed (jf_workspace_id (cj_fixed j)) → safe (m plan)) →
  safe (permit ← permit_of (jf_workspace_id (cj_fixed j));
        if negb (Permit_allows permit node) then k else match sn_plan (cj_sent j) with None => k | Some plan => m plan end).
Proof.
  intros Hj Hk Hm. apply safe_permit; [exact Hk|]. destruct (Permit_allows _ node) eqn:Ha; [|exact Hk]. cbn [negb]. destruct (sn_plan _); [by apply Hm|exact Hk].
Qed.
Lemma safe_send_one n id : safe (send_shared_one digest fit_plan node n id).
Proof.
  unfold send_shared_one. apply safe_job; [safe|]. intros j Hj. apply safe_checked with (id := id); [done|safe|]. intros plan Ha.
  apply safe_fit with (id := id); [done|safe|]. intros j' p Hj'. apply safe_assign with (id := id); [safe..|done|]. by rewrite (of_start_ws id j j').
Qed.
Hint Resolve safe_send_one : own.
Lemma safe_send n send b : safe (send_shared digest fit_plan node n send b).
Proof. revert b. induction send as [|id send IH]; intros b; cbn [send_shared]; safe. Qed.
Hint Resolve safe_send : own.
Lemma safe_kick : safe (kick_now clock follower_recent digest decision_for is_shared shared_pass feature_wait fit_plan ws_handle node).
Proof.
  assert (Hm : ∀ ws, safe (mark_waiting clock node ws)) by apply safe_mark. assert (Hs : ∀ ws, safe (mark_shared ws)) by apply safe_mark.
  unfold kick_now, sweep_off_list, kick_shared, kick_solo. apply safe_bind; [safe|]. intros up. destruct (negb up); [safe|].
  apply safe_bind; [safe|]. intros _. apply safe_bind; [safe|]. intros shared. destruct shared; [safe|].
  apply safe_bind; [safe|]. intros d. do 3 (apply safe_bind; [safe|]; intros ?). destruct (dc_place d) as [id|]; [|safe].
  apply safe_job; [safe|]. intros j Hj. apply safe_checked with (id := id); [done|safe|]. intros plan Ha. apply safe_bind; [safe|]. intros wait.
  destruct wait; [safe|]. apply safe_fit with (id := id); [done|safe|]. intros j' p Hj'. apply safe_bind; [|intros; safe].
  apply safe_assign with (id := id); [safe..|done|]. by rewrite (of_start_ws id j j').
Qed.
End allowed.

(** ** Deadlines *)

(** The job's own limit is over, and this machine did not just wake. *)
Definition overdue (n awake : Z) (j : ComputeJob) : Prop :=
  ∃ limit, cf_queue_timeout_secs (ct_fixed (cj_ctl j)) = Some limit ∧ 0 < limit ∧ limit ≤ n - waits_since j ∧ 2 * tg_replace_after_secs t ≤ n - awake.
Lemma timed_out_spec j n awake : timed_out t j n awake = true ↔ overdue n awake j.
Proof.
  unfold timed_out, overdue. destruct (cf_queue_timeout_secs _) as [limit|]; [|by split; [|intros (?&?&_)]].
  rewrite !andb_true_iff, Z.ltb_lt, !Z.leb_le. split; [intros [[? ?] ?]; by exists limit|]. by intros (?&[= <-]&?&?&?).
Qed.
(** What a pass leaves of a job queued on this server. *)
Definition swept (n awake : Z) (j r : ComputeJob) : Prop :=
  cj_fixed r = cj_fixed j ∧ cj_generation r = cj_generation j ∧ cj_attempt r = cj_attempt j
  ∧ (overdue n awake j ∧ cj_state r = JobState_Failed ∧ cj_reason r = Some "queue_timeout" ∧ tm_ended_at (cj_times r) = opt_else (tm_ended_at (cj_times j)) (Some n)
     ∨ ¬ overdue n awake j ∧ cj_state r = JobState_Queued ∧ cj_times r = cj_times j).
Definition swept_at (n awake : Z) (j : ComputeJob) (lg : Logs) (w : World) : Prop := ∃ r, row_at (cj_id j) r lg w ∧ swept n awake j r.

Lemma swept_stays n awake j r : timed_out t j n awake = false → cj_fixed r = cj_fixed j → cj_generation r = cj_generation j → cj_attempt r = cj_attempt j →
  cj_state r = JobState_Queued → cj_times r = cj_times j → swept n awake j r.
Proof. intros Ht Hf Hg Ha Hs Hm. split_and!; [done..|]. right. rewrite <- timed_out_spec, Ht. by split_and!. Qed.
Lemma does_same n awake j lg w : cj_state j = JobState_Queued → timed_out t j n awake = false → row_at (cj_id j) j lg w → swept_at n awake j lg w.
Proof. intros Hq Ht Hw. exists j. split; [exact Hw|]. by apply swept_stays. Qed.
Lemma does_fail_queued nodes n awake j lg : cj_state j = JobState_Queued → timed_out t j n awake = true →
  does (row_at (cj_id j) j lg) (fail_queued clock follower_recent nodes j n) (λ _, swept_at n awake j lg).
Proof.
  intros Hq Ht. unfold fail_queued. cbv zeta. eapply does_bind; [apply does_update|]. intros b. apply does_pure. intros ->. unfold is_state. rewrite Hq.
  rewrite (bool_decide_eq_true_2 (JobState_Queued = _)) by done. rewrite (bool_decide_eq_true_2 (Some true = Some true)) by done. cbn [negb].
  eapply does_bind; [apply calm_does, calm_event|]. intros ?. eapply does_bind; [apply does_finalize|]. intros ?.
  apply does_ret. intros w (r&Hw&Hb). exists r. split; [exact Hw|]. destruct Hb as ([= H1 H2 H3 H4 H5 H6]&_). unfold swept. rewrite H1, H2, H3, H4, H5, H6. split_and!; [done..|].
  left. by rewrite <- timed_out_spec.
Qed.
Lemma does_moved n awake j hard why lg : cj_state j = JobState_Queued → timed_out t j n awake = false →
  does (row_at (cj_id j) j lg) (try_move digest choose j [] hard why) (λ _, swept_at n awake j lg).
Proof.
  intros Hq Ht. pose proof (does_same n awake j lg) as Hsame. unfold try_move. destruct (sn_plan (cj_sent j)); [|apply does_ret; eauto].
  intros w Hw. destruct (choose w j [] hard why) as [[[node p'] pl]|]; [|by apply Hsame]. cbv zeta. revert w Hw.
  match goal with |- ∀ w, _ → swept_at _ _ _ _ (?m w).2 => enough (does (row_at (cj_id j) j lg) m (λ _, swept_at n awake j lg)) as H by exact H end.
  unfold move_queued_job. destruct (digest p') as [d|]; [|apply does_ret; eauto].
  eapply does_bind; [apply does_update|]. intros b. apply does_pure. intros ->. unfold is_state. rewrite Hq.
  rewrite (bool_decide_eq_true_2 (JobState_Queued = _)) by done. rewrite (bool_decide_eq_true_2 (Some true = Some true)) by done.
  eapply does_post; [apply calm_does; repeat (apply calm_bind; [first [apply calm_event|done]|intros ?]); done|].
  intros ? w Hw. eexists. split; [exact Hw|]. by apply swept_stays.
Qed.
Lemma calm_leave j node ds n awake : calm (leave_reason t avoids decision_for j node ds n awake).
Proof.
  unfold leave_reason. cbv zeta. destruct node as [f|]; [|done]. destruct (negb _); [done|]. apply calm_bind; [done|]. intros [|]; [done|].
  destruct (bool_decide (is_Some _)); [done|]. destruct (match cf_any _ with Some x => avoids x _ | None => false end); [done|]. apply calm_bind; [done|]. intros [|]; [|done]. cbn [negb].
  apply calm_bind; [by destruct (ds !! cj_node j)|done].
Qed.
Lemma does_swept_one nodes n awake j ds lg : cj_state j = JobState_Queued →
  does (row_at (cj_id j) j lg) (sweep_queued_one clock t follower_recent digest choose placement_code avoids decision_for nodes n awake j ds) (λ _, swept_at n awake j lg).
Proof.
  intros Hq. unfold sweep_queued_one. destruct (timed_out t j n awake) eqn:Ht.
  { eapply does_bind; [by apply does_fail_queued|]. intros. by apply does_ret. }
  pose proof (does_same n awake j lg) as Hsame. destruct (_ || _); [apply does_ret; eauto|].
  eapply does_bind; [apply calm_does, calm_leave|]. intros [[[why hard]|] ds']; [|apply does_ret; eauto].
  destruct (_ && _); [apply does_ret; eauto|]. eapply does_bind; [by apply does_moved|]. intros moved. by destruct (bool_decide _); apply does_ret.
Qed.
Lemma own_swept_one nodes n awake j ds : own (cj_id j) (sweep_queued_one clock t follower_recent digest choose placement_code avoids decision_for nodes n awake j ds).
Proof.
  unfold sweep_queued_one, fail_queued, finish_job. cbv zeta. destruct (timed_out t j n awake).
  { apply own_bind; [|intros; own]. apply own_bind; [by apply own_update|]. intros ok. own. }
  destruct (_ || _); [own|]. apply own_bind; [apply own_quiet; intros w|intros [[[why hard]|] ds']; own].
  unfold leave_reason. cbv zeta. destruct (nodes !! cj_node j) as [f|]; [|done]. destruct (negb _); [done|].
  match goal with |- w_rows (?m w).2 = _ => enough (quiet m) as H by apply H end.
  repeat first [apply quiet_bind; [done|intros ?]|done|case_match].
Qed.

Lemma swept_all nodes n awake rows ds changed w : Forall (λ j, cj_state j = JobState_Queued) rows → fresh rows w → w_faults w = [] →
  let w' := (sweep_queued clock t follower_recent digest choose placement_code avoids decision_for nodes n awake rows ds changed w).2 in
  (∀ id, id ∉ cj_id <$> rows → w_rows w' !! id = w_rows w !! id)
  ∧ ∀ j, j ∈ rows → ∃ r, w_rows w' !! cj_id j = Some r ∧ swept n awake j r.
Proof.
  intros Hq. revert ds changed w. induction Hq as [|j rows Hj _ IH]; intros ds changed w Hf Hn; cbn [sweep_queued]; [split; [done|by intros j ?%elem_of_nil]|]. cbv zeta.
  unfold mbind, ServerM_bind. destruct Hf as (Hk&[Hni Hd]%NoDup_cons&[Hrow Hrest]%Forall_cons).
  pose proof (own_swept_one nodes n awake j ds w Hk) as [Hk1 Hown].
  pose proof (does_swept_one nodes n awake j ds (w_logs w) Hj w ltac:(by split_and!)) as (r&(Hn1&Hr1&_)&Hs).
  destruct (sweep_queued_one _ _ _ _ _ _ _ _ _ _ _ _ _ w) as [x w1]. cbn [fst snd] in *.
  destruct (IH x.2 (changed || x.1) w1) as [Hout Hin]; [|done|].
  - split_and!; [done..|]. rewrite Forall_forall in Hrest |- *. intros y Hy. rewrite Hown; [by apply Hrest|]. intros He. apply Hni. rewrite <- He. by apply list_elem_of_fmap_2.
  - split.
    + intros id [Hne Hid]%not_elem_of_cons. by rewrite Hout, Hown.
    + intros y [->|Hy]%elem_of_cons; [|by apply Hin]. exists r. split; [|done]. by rewrite Hout.
Qed.

(** A read that doesn't fail lists every such row. *)
Lemma jobs_where_all p w : keyed w → w_faults w = [] →
  w_faults (jobs_where p w).2 = [] ∧ ∀ id r, w_rows w !! id = Some r → p r = true → r ∈ (jobs_where p w).1.
Proof.
  intros Hk Hn. unfold jobs_where, stmt. rewrite Hn. split; [done|]. intros id r Hr Hp. cbn. rewrite isort_Permutation. apply elem_of_filter_bool. split; [|done].
  apply list_elem_of_fmap. exists (id, r). split; [done|]. by apply elem_of_map_to_list.
Qed.

(** ** Replacements *)

(** [m] changes no other rows than [ids]. *)
Definition own_in {A} (ids : list string) (m : ServerM A) : Prop :=
  ∀ w, keyed w → keyed (m w).2 ∧ ∀ id, id ∉ ids → w_rows (m w).2 !! id = w_rows w !! id.
Lemma own_among {A} id ids (m : ServerM A) : own id m → id ∈ ids → own_in ids m.
Proof. intros H Hin w Hw. destruct (H w Hw) as [H1 H2]. split; [done|]. intros id' Hn. apply H2. by intros ->. Qed.
Lemma own_in_bind {A B} ids (m : ServerM A) (k : A → ServerM B) : own_in ids m → (∀ w, own_in ids (k (m w).1)) → own_in ids (m ≫= k).
Proof.
  intros Hm Hk w Hw. unfold mbind, ServerM_bind. destruct (Hm w Hw) as [H1 H2]. specialize (Hk w). destruct (m w) as [x w1]. cbn [fst snd] in *.
  destruct (Hk w1 H1) as [H3 H4]. split; [done|]. intros id Hn. by rewrite H4, H2.
Qed.
Lemma own_in_ret {A} ids (x : A) : own_in ids (mret x).
Proof. by intros w Hw. Qed.
Lemma own_in_finish ids l : Forall (.∈ ids) l → own_in ids (finish_all clock follower_recent l).
Proof.
  induction 1 as [|id l Hid _ IH]; cbn [finish_all]; [apply own_in_ret|]. apply own_in_bind; [|done]. by apply (own_among id); [apply own_finalize|].
Qed.
Lemma own_supersede new key id : own id (supersede_one clock new key id).
Proof. unfold supersede_one. apply own_job; [own|]. intros j <-. cbv zeta. unfold replaced_event, replace_if_queued, set_job_state_if. own. Qed.
Lemma own_each new key olds ids : Forall (.∈ ids) (cj_id <$> olds) →
  own_in ids (supersede_each clock new key olds) ∧ ∀ w, Forall (.∈ ids) (supersede_each clock new key olds w).1.1.
Proof.
  intros Hin. induction olds as [|old olds IH]; cbn [supersede_each]; [split; [apply own_in_ret|constructor]|].
  apply Forall_cons in Hin as [Hold Hin]. destruct (IH Hin) as [H1 H2]. destruct (_ || _); [by split|]. split.
  - apply own_in_bind; [by apply (own_among (cj_id old)); [apply own_supersede|]|]. intros w. by apply own_in_bind.
  - intros w. unfold mbind, ServerM_bind. destruct (supersede_one _ _ _ _ w) as [r w1]. specialize (H2 w1). destruct (supersede_each _ _ _ _ w1) as [rest w2].
    destruct r as [[|]|]; cbn in *; [by constructor|done..].
Qed.

(** ** Properties *)

(** (C12) Handlers one after the other, the sections of the ticker's pass and of a
    job given back anywhere between them, whichever statements fail: a job's
    generation never falls, and until a new attempt takes its place an attempt
    that ended stays ended, its times kept once they have the end's.  Its end
    is kept too, unless the pass or a job given back had read its row before
    ([read_before]) and was still to act on it: what they then write,
    [cancelled], [interrupted] or [failed], takes its place. *)
Theorem attempt_end_final l s id r : keyed (sv_world s) → w_rows (sv_world s) !! id = Some r →
  ∃ r', w_rows (sv_world (any_moves l s)) !! id = Some r'
    ∧ cj_fixed r' = cj_fixed r ∧ cj_generation r ≤ cj_generation r'
    ∧ (cj_generation r' = cj_generation r → cj_attempt r' = cj_attempt r
        ∧ (job_is_terminal r = true → job_is_terminal r' = true
            ∧ (tm_ended_at (cj_times r) ≠ None → cj_times r' = cj_times r)
            ∧ (cj_state r' = cj_state r ∧ cj_times r' = cj_times r ∨ read_before id s ∧ late_end (cj_state r')))).
Proof.
  intros Hk Hr. destruct (goes_on_moves (read_before id s) id r l s) as (_&r'&Hr'&(Hf&Hg)&_).
  { split; [exact Hk|]. exists r. split_and!; [exact Hr| |done]. split; [done|right]. split_and!; [done..|]. intros Ht. split_and!; [done..|by left]. }
  exists r'. split_and!; [exact Hr'|exact Hf|destruct Hg as [?|[? _]]; lia|]. intros He. destruct Hg as [?|(_&?&?)]; [lia|by split].
Qed.

(** (C36) Over any run from a server with no pass going on, sections and handlers
    in any order, the mover asks a node to give a job back ([mover_asks]: the
    withdraws that a section of the pass sends, but for a queue timeout) at
    most [MAX_WITHDRAWS] times less those already counted in its row, and
    once more for each statement that fails meanwhile (the failed
    [note_withdraw] of an ask leaves it uncounted); when none fails, also not
    twice within [WITHDRAW_AGAIN_SECS]. *)
Theorem withdraws_limited l w id r : keyed w → w_rows w !! id = Some r →
  let s := idle w in
  (Z.of_nat (length (any_asks id l s)) ≤ Z.max 0 (MAX_WITHDRAWS - cj_withdraws r) + (Z.of_nat (failing w) - Z.of_nat (failing (sv_world (any_moves l s)))))
  ∧ (failing w = 0%nat → spaced (cj_withdrawn_at r) (any_asks id l s)).
Proof. intros Hk Hr. destruct (asks_counted l (idle w) id r Hk I Hr) as [H1 H2]. split; [cbn [sv_world idle] in H1; lia|exact H2]. Qed.

(** (C13) A placement pass assigns a job only to a node that the list of its
    workspace allows, whatever the scheduler decides, whatever waited before
    and whichever statements fail. *)
Theorem assigned_allowed w node id r' : keyed w →
  w_rows (kick_now clock follower_recent digest decision_for is_shared shared_pass feature_wait fit_plan ws_handle node w).2 !! id = Some r' →
  ∃ r, w_rows w !! id = Some r ∧ cj_fixed r' = cj_fixed r
    ∧ (cj_state r' = JobState_Assigned → cj_state r ≠ JobState_Assigned →
        Permit_allows (allow_permit true (w_settings w) (jf_workspace_id (cj_fixed r))) node = true).
Proof.
  intros Hk Hr. destruct (proj2 (safe_kick w Hk node w (listed_start w node)) id r' Hr) as (r&Hw&Hf&Ha). exists r. split_and!; [exact Hw|exact Hf|].
  intros Hs Hn. by destruct (Ha Hs).
Qed.

(** (C17) One pass over the jobs queued on this server: one that waited as long as
    its [--queue-timeout], with this machine awake for a while, ends
    [failed/queue_timeout] now; every other stays queued, as the same
    attempt, though perhaps for another node; no other row changes. *)
Theorem deadlines_kept nodes n awake w id r : keyed w → w_faults w = [] → w_rows w !! id = Some r →
  let w' := ((rows ← queued_jobs; sweep_queued clock t follower_recent digest choose placement_code avoids decision_for nodes n awake rows ∅ false) w).2 in
  if is_state JobState_Queued r then ∃ r', w_rows w' !! id = Some r' ∧ swept n awake r r' else w_rows w' !! id = Some r.
Proof.
  intros Hk Hn Hr. cbv zeta. unfold mbind, ServerM_bind, queued_jobs. destruct (jobs_where_spec (is_state JobState_Queued) w Hk) as (Hf&Hp&Hrows).
  destruct (jobs_where_all (is_state JobState_Queued) w Hk Hn) as [Hn1 Hall]. destruct (jobs_where _ w) as [rows w1]. cbn [fst snd] in *.
  destruct (swept_all nodes n awake rows ∅ false w1) as [Hout Hin]; [|done..|].
  { eapply Forall_impl; [exact Hp|]. by intros j ?%bool_decide_eq_true. }
  destruct (is_state JobState_Queued r) eqn:Hq.
  - rewrite <- (Hk id r Hr). by apply Hin, (Hall id).
  - rewrite Hout, Hrows; [exact Hr|]. intros (j&->&Hj)%list_elem_of_fmap. rewrite Forall_forall in Hp. specialize (Hp j Hj).
    destruct Hf as (_&_&Hf). rewrite Forall_forall in Hf. specialize (Hf j Hj). rewrite Hrows, Hr in Hf. congruence.
Qed.

(** A newer job with [--supersede] changes no job of another workspace or
    key, and none that is not waiting any more: one that started is never
    touched, whichever statements fail. *)
Theorem supersede_spares ws key new w id r : keyed w → w_rows w !! id = Some r →
  jf_workspace_id (cj_fixed r) ≠ ws ∨ jf_supersede_key (cj_fixed r) ≠ Some key ∨ waits r = false →
  w_rows (supersede_older clock follower_recent ws key new w).2 !! id = Some r.
Proof.
  intros Hk Hr Hno. unfold supersede_older. destruct (match cf_shard _ with Some s => negb (sh_index s =? 1) | None => false end); [exact Hr|].
  unfold queued_with_supersede_key, mbind at 1, ServerM_bind at 1.
  set (p := λ r, bool_decide (jf_workspace_id (cj_fixed r) = ws) && bool_decide (jf_supersede_key (cj_fixed r) = Some key) && waits r).
  destruct (jobs_where_spec p w Hk) as ((Hk1&_&Hf)&Hp&Hrows). destruct (jobs_where p w) as [olds w1]. cbn [fst snd] in *.
  set (ids := cj_id <$> olds). assert (Hin : Forall (.∈ ids) ids) by by apply Forall_forall.
  destruct (own_each new key olds ids Hin) as [He Hl].
  match goal with |- w_rows (?m w1).2 !! _ = _ => assert (Ho : own_in ids m) end.
  { apply own_in_bind; [exact He|]. intros w2. apply own_in_bind; [by apply own_in_finish|]. intros w3. apply own_in_ret. }
  destruct (Ho w1 Hk1) as [_ Hsame]. rewrite Hsame, Hrows; [exact Hr|]. intros (j&->&Hj)%list_elem_of_fmap. rewrite Forall_forall in Hf, Hp.
  specialize (Hf j Hj). specialize (Hp j Hj). rewrite Hrows, Hr in Hf. injection Hf as <-. apply andb_true_iff in Hp as [[H1 H2]%andb_true_iff H3].
  apply bool_decide_eq_true in H1, H2. destruct Hno as [?|[?|Hw]]; congruence.
Qed.

End run.

(** ** Examples *)

Module RunExamples.
Import JobEnds.Examples.

Section any.
Context (starts : bool) (decided : NodeDecision).
Definition ex_run : list ServerMove → Server → Server :=
  any_moves ex_clock Tuning_default ex_follower ex_blocked ex_digest ex_choose (J := Allow.Examples.ex_json) (λ _ _, starts) (λ p, p) (λ _ _, false)
    (λ _ _, decided) (λ _ _, false) (λ _ _, mk_SharedPass [] [] []) (λ _ _, None) (λ _ _ p, p) (λ ws, ws) ex_text ex_arts ex_verify.
Definition ex_asks : string → list ServerMove → Server → list Z :=
  any_asks ex_clock Tuning_default ex_follower ex_blocked ex_digest ex_choose (J := Allow.Examples.ex_json) (λ _ _, starts) (λ p, p) (λ _ _, false)
    (λ _ _, decided) (λ _ _, false) (λ _ _, mk_SharedPass [] [] []) (λ _ _, None) (λ _ _ p, p) (λ ws, ws) ex_text ex_arts ex_verify.
End any.
Definition ex_nothing : NodeDecision := mk_NodeDecision None [].
(** A pass over at most one row of each list, and what else goes on before
    its third section. *)
Definition ex_pass_with (n awake : Z) (l : list ServerMove) : list ServerMove := [Mv_sweep n awake; Mv_turn; Mv_turn] ++ l ++ replicate 6 Mv_turn.
Definition ex_pass (n awake : Z) : list ServerMove := ex_pass_with n awake [].

(** An end, then an older state, a lost node, a cancel, a snapshot without
    the job and its node's removal; one statement of them fails. *)
Lemma attempt_end_final_witness :
  let s := idle (ex_world {["j" := ex_done]} [false; true]) in
  let l := Mv_act (Act_state "n" (ex_frame 1 JobState_Running None)) :: Mv_act (Act_detach "n" "gone" false)
    :: ex_pass_with 9000 100 [Mv_act (Act_cancel "agent:k2" "j" false); Mv_act (Act_attach "n" "direct" "1"); Mv_take "n" "j" 1 (Some codes_WITHDRAWN)]
    ++ [Mv_act (Act_state "n" (ex_frame 1 JobState_Interrupted (Some "node_restart"))); Mv_act (Act_snapshot "n" (mk_JobsSnapshot [] true) []);
        Mv_act (Act_remove "owner" "n")] in
  ∃ r', w_rows (sv_world (ex_run false ex_nothing l s)) !! "j" = Some r'
    ∧ cj_fixed r' = cj_fixed ex_done ∧ cj_generation ex_done ≤ cj_generation r'
    ∧ (cj_generation r' = cj_generation ex_done → cj_attempt r' = cj_attempt ex_done
        ∧ (job_is_terminal ex_done = true → job_is_terminal r' = true
            ∧ (tm_ended_at (cj_times ex_done) ≠ None → cj_times r' = cj_times ex_done)
            ∧ (cj_state r' = cj_state ex_done ∧ cj_times r' = cj_times ex_done ∨ read_before "j" s ∧ late_end (cj_state r')))).
Proof. apply attempt_end_final; [by apply ex_keyed|reflexivity]. Defined.

(** The pass read the row while it ran on a node that was away; the node comes
    back and reports the end; then the pass writes its own over it. *)
Definition ex_states (l : list ServerMove) (s : Server) : option (JobState * Z) :=
  (λ r, (cj_state r, cj_generation r)) <$> (w_rows (sv_world (ex_run false ex_nothing l s)) !! "j").
Definition ex_single : ComputeJob := ex_job "j" JobState_Running None (ex_ctl 0) false (mk_Times (Some 900) (Some 950) None).
Lemma end_overtaken :
  let back := [Mv_act (Act_attach "n" "direct" "1"); Mv_act (Act_state "n" (ex_frame 1 JobState_Done None)); Mv_act (Act_detach "n" "gone" false)] in
  let s := idle (ex_world {["j" := ex_single]} []) in
  ex_states (Mv_act (Act_detach "n" "gone" false) :: ex_pass_with 9000 100 back) s = Some (JobState_Interrupted, 1)
  ∧ ex_states (back ++ ex_pass 9000 100) s = Some (JobState_Done, 1).
Proof. vm_compute. split; reflexivity. Qed.

(** A job given back after its queue timeout, its row read; the node is
    removed; then the timeout is written over that. *)
Definition ex_timing_out : ComputeJob :=
  mk_ComputeJob (ex_fixed "j" false) (mk_Sent "n" (Some (ex_plan "j")) (ex_ctl 0) "sha256:j") (mk_Status JobState_Assigned (Some pending_TIMEOUT) None) 1 1
    (mk_Times (Some 900) None None) ex_out (mk_NodeQ true None None None None None None) 0 None.
Lemma end_replaced :
  let s := idle (ex_world {["j" := ex_timing_out]} []) in
  let take := Mv_take "n" "j" 1 (Some codes_WITHDRAWN) in
  ex_states [take; Mv_act (Act_remove "owner" "n")] s = Some (JobState_Cancelled, 1)
  ∧ ex_states [take; Mv_act (Act_remove "owner" "n"); Mv_back 0] s = Some (JobState_Failed, 1).
Proof. vm_compute. split; reflexivity. Qed.

(** A job in a node's queue that may run elsewhere: asked back at 2000, given
    back and sent again, asked back at 2400, and not a third time. *)
Definition ex_held : ComputeJob :=
  mk_ComputeJob (ex_fixed "j" false)
    (mk_Sent "n" (Some (ex_plan "j"))
      (mk_JobCtl (mk_CtlFixed (Some "any") false None None 0 None None [] [] None None None false None None [] None) 100 0 None [] false None None None None) "sha256:j")
    (mk_Status JobState_Assigned (Some codes_NODE_QUEUED) None) 1 1 (mk_Times (Some 900) None None) ex_out (mk_NodeQ true None None None None None None) 0 None.
Definition ex_back (gen : Z) : StateUpdate := mk_StateUpdate None "j" gen JobState_Cancelled (Some codes_WITHDRAWN) None 990 None None 0 None.
Definition ex_queued (gen : Z) : StateUpdate := mk_StateUpdate None "j" gen JobState_Queued (Some codes_NODE_QUEUED) None 990 None None 0 None.
Definition ex_state (s : StateUpdate) : ServerMove := Mv_act (Act_state "n" s).
Definition ex_moves : list ServerMove :=
  ex_pass 2000 100 ++ [ex_state (ex_back 1); Mv_act (Act_kick "n"); ex_state (ex_queued 2)] ++ ex_pass 2100 100 ++ ex_pass 2400 100
  ++ [ex_state (ex_back 2); Mv_act (Act_kick "n"); ex_state (ex_queued 3)] ++ ex_pass 9000 100.
Definition ex_place : NodeDecision := mk_NodeDecision (Some "j") [].
Definition ex_holds (faults : list bool) : World := ex_world {["j" := ex_held]} faults.
Lemma asked_twice :
  ex_asks true ex_place "j" ex_moves (idle (ex_holds [])) = [2000; 2400]
  ∧ (λ r, (cj_generation r, cj_reason r)) <$> (w_rows (sv_world (ex_run true ex_place ex_moves (idle (ex_holds [])))) !! "j") = Some (3, Some codes_NODE_QUEUED).
Proof. vm_compute. split; reflexivity. Qed.
(** The statements of a pass: its two lists, the rows of node queues, the mark,
    the count and the event of the ask, the queued rows.  With the mark and
    the count failed each time, three asks in 20 seconds. *)
Definition ex_uncounted : list bool := [false; false; false; true; true; false; false].
Lemma asked_uncounted :
  ex_asks true ex_place "j" (ex_pass 2000 100 ++ ex_pass 2010 100 ++ ex_pass 2020 100) (idle (ex_holds (ex_uncounted ++ ex_uncounted ++ ex_uncounted))) = [2000; 2010; 2020].
Proof. vm_compute. reflexivity. Qed.
Lemma withdraws_limited_witness :
  let s := idle (ex_holds []) in
  (Z.of_nat (length (ex_asks true ex_place "j" ex_moves s)) ≤ Z.max 0 (MAX_WITHDRAWS - cj_withdraws ex_held)
    + (Z.of_nat (failing (ex_holds [])) - Z.of_nat (failing (sv_world (ex_run true ex_place ex_moves s)))))
  ∧ (failing (ex_holds []) = 0%nat → spaced (cj_withdrawn_at ex_held) (ex_asks true ex_place "j" ex_moves s)).
Proof.
  exact (withdraws_limited ex_clock Tuning_default ex_follower ex_blocked ex_digest ex_choose (λ _ _, true) (λ p, p) (λ _ _, false) (λ _ _, ex_place) (λ _ _, false)
    (λ _ _, mk_SharedPass [] [] []) (λ _ _, None) (λ _ _ p, p) (λ ws, ws) ex_text ex_arts ex_verify ex_moves (ex_holds []) "j" ex_held
    (ex_keyed ex_held [] eq_refl) eq_refl).
Defined.

(** A job queued on this server, its workspace's list [n] alone. *)
Definition ex_waits (limit : option Z) : ComputeJob :=
  mk_ComputeJob (ex_fixed "j" false)
    (mk_Sent "n" (Some (ex_plan "j"))
      (mk_JobCtl (mk_CtlFixed None false None limit 0 None None [] [] None None None false None None [] None) 100 0 None [] false None None None None) "sha256:j")
    (mk_Status JobState_Queued None None) 1 1 (mk_Times None None None) ex_out (mk_NodeQ false None None None None None None) 0 None.
Definition ex_listed (ids : list string) (j : ComputeJob) : World := set_settings (Allow.Examples.ex_db ids) [] (ex_world {["j" := j]} []).
Definition ex_kick (node : string) (w : World) : World :=
  (kick_now ex_clock ex_follower ex_digest (J := Allow.Examples.ex_json) (λ _ _, mk_NodeDecision (Some "j") []) (λ _ _, false) (λ _ _, mk_SharedPass [] [] [])
    (λ _ _, None) (λ _ _ p, p) (λ ws, ws) node w).2.
Lemma ex_listed_keyed ids j : cj_id j = "j" → keyed (ex_listed ids j).
Proof. intros H id r'. cbn. intros [<- <-]%lookup_singleton_Some. exact H. Qed.
Lemma off_list_failed : (λ r, (cj_state r, cj_reason r)) <$> (w_rows (ex_kick "n" (ex_listed ["m"] (ex_waits None))) !! "j") = Some (JobState_Failed, Some NODE_NOT_ALLOWED).
Proof. vm_compute. reflexivity. Qed.
Lemma assigned_allowed_witness :
  ∃ r', w_rows (ex_kick "n" (ex_listed ["n"] (ex_waits None))) !! "j" = Some r' ∧ cj_state r' = JobState_Assigned
    ∧ ∃ r, w_rows (ex_listed ["n"] (ex_waits None)) !! "j" = Some r ∧ cj_fixed r' = cj_fixed r
      ∧ (cj_state r' = JobState_Assigned → cj_state r ≠ JobState_Assigned →
          Permit_allows (allow_permit (J := Allow.Examples.ex_json) true (w_settings (ex_listed ["n"] (ex_waits None))) (jf_workspace_id (cj_fixed r))) "n" = true).
Proof.
  assert (H : ∃ r', w_rows (ex_kick "n" (ex_listed ["n"] (ex_waits None))) !! "j" = Some r' ∧ cj_state r' = JobState_Assigned)
    by (vm_compute; eexists; split; reflexivity).
  destruct H as (r'&Hr&Hs). exists r'. split_and!; [exact Hr|exact Hs|]. by eapply assigned_allowed; [apply ex_listed_keyed|exact Hr].
Defined.

Lemma deadlines_kept_witness :
  let w := ex_world {["j" := ex_waits (Some 60)]} [] in
  ∃ r', w_rows ((rows ← queued_jobs; sweep_queued ex_clock Tuning_default ex_follower ex_digest ex_choose (λ p, p) (λ _ _, false) (λ _ _, ex_nothing) ∅ 2000 100 rows ∅ false) w).2
      !! "j" = Some r'
    ∧ swept Tuning_default 2000 100 (ex_waits (Some 60)) r'.
Proof.
  exact (deadlines_kept ex_clock Tuning_default ex_follower ex_digest ex_choose (λ p, p) (λ _ _, false) (λ _ _, ex_nothing) ∅ 2000 100
    (ex_world {["j" := ex_waits (Some 60)]} []) "j" (ex_waits (Some 60)) (ex_keyed (ex_waits (Some 60)) [] eq_refl) eq_refl eq_refl).
Defined.

(** Of two older jobs with the key, the one that runs stays. *)
Definition ex_keyed_job (id : string) (state : JobState) : ComputeJob :=
  mk_ComputeJob (mk_JobFixed id "c1" "w" None "agent:k2" ["true"] [] "sha" None false true false 100 "interactive" None "normal" None None (Some "nightly"))
    (mk_Sent "n" (Some (ex_plan id)) (ex_ctl 0) ("sha256:" +:+ id)) (mk_Status state None None) 1 1 (mk_Times None None None) ex_out
    (mk_NodeQ false None None None None None None) 0 None.
Definition ex_olds : World :=
  ex_world (<["j" := ex_keyed_job "j" JobState_Running]> (<["k" := ex_keyed_job "k" JobState_Queued]> {["m" := ex_keyed_job "m" JobState_Queued]})) [].
Definition ex_supersede : World := (supersede_older ex_clock ex_follower "w" "nightly" (ex_keyed_job "m" JobState_Queued) ex_olds).2.
Lemma older_replaced :
  (λ r, (cj_state r, cj_reason r)) <$> (w_rows ex_supersede !! "k") = Some (JobState_Cancelled, Some tiers_REPLACED)
  ∧ cj_state <$> (w_rows ex_supersede !! "m") = Some JobState_Queued.
Proof. vm_compute. split; reflexivity. Qed.
Lemma supersede_spares_witness : w_rows ex_supersede !! "j" = Some (ex_keyed_job "j" JobState_Running).
Proof.
  apply supersede_spares; [|reflexivity|right; right; reflexivity].
  intros id r. cbn. intros [[<- <-]|[_ [[<- <-]|[_ [<- <-]%lookup_singleton_Some]]%lookup_insert_Some]]%lookup_insert_Some; reflexivity.
Defined.

End RunExamples.
