(* ===== verification/JobDelivery.v ===== *)
(** * JobDelivery: a job's end, from the node to the server's row

    [Ship] and [JobEnds] together: what a pass of the shipper sends is what
    [handle_frame] of [crates/k2-daemon/src/compute_ws.rs] takes, and the
    server's row then has the end and its copy the whole log. *)

From S2P Require Import Prelude Share Refusal Queue JobFrames Ledger FairQ NodeQueue Retry Journal LogCopy Ship JobTable JobLife JobEnds.
Open Scope Z_scope.

Section delivery.
Context (clock : nat → Z) (t : Tuning) (follower_recent : string → bool) (blocked_words : string → string).
Context (digest : Plan → option string).
Context (choose : World → ComputeJob → list string → bool → string → option (string * Plan * string)).
Context (outputs_text : Outputs → option string) (artifacts_text : list string → option string).
Context (verify : string → SignedReceipt → option ReceiptClaims).
Context (b64 : list Z → string) (unb64 : string → option (list Z)) (belt : string → Z → list Z → option (list Z)).

(** The arms of [handle_frame] for a job's frames (without the tallies). *)
Definition handle_frame (node : string) (f : ShipFrame) : ServerM unit :=
  match f with
  | Sh_log l => λ w, (tt, set_logs (on_log unb64 belt Io_ok l (w_logs w)) w)
  | Sh_state u => on_state clock t follower_recent blocked_words digest choose outputs_text node u
  | Sh_receipt id generation x => on_receipt artifacts_text verify node id generation x
  end.
Fixpoint handle_frames (node : string) (fs : list ShipFrame) : ServerM unit :=
  match fs with [] => mret tt | f :: fs => handle_frame node f;; handle_frames node fs end.

Lemma handle_frames_app node a b w : (handle_frames node (a ++ b) w).2 = (handle_frames node b (handle_frames node a w).2).2.
Proof.
  revert w. induction a as [|f a IH]; intros w; [reflexivity|]. cbn [app handle_frames]. unfold mbind, ServerM_bind.
  destruct (handle_frame node f w) as [? w1]. apply IH.
Qed.
Lemma handle_logs node (job : string) gen recs w :
  handle_frames node ((λ r, Sh_log (chunk_of b64 job gen r)) <$> recs) w
  = (tt, set_logs (foldl (on_frame unb64 belt Io_ok) (w_logs w) ((λ r, Sh_log (chunk_of b64 job gen r)) <$> recs)) w).
Proof.
  revert w. induction recs as [|r recs IH]; intros w; [by destruct w|]. cbn [fmap list_fmap handle_frames]. unfold mbind, ServerM_bind. cbn [handle_frame].
  rewrite IH. reflexivity.
Qed.

Context (job : string) (gen : Z) (recs : list Rec) (Hlog : node_log recs) (Hwire : wire_law b64 unb64 belt job gen).

Lemma logs_proto since : proto false b64 job gen recs since ((λ r, Sh_log (chunk_of b64 job gen r)) <$> newer since recs) (mkProto (newer since recs) false false).
Proof.
  pose proof (send_logs_ok false b64 job gen recs since (newer since recs) [] false (mkChan [] None) []) as H.
  rewrite send_logs_open in H. cbn [ch_sent app] in H. apply H; [apply proto_nil|by rewrite app_nil_r].
Qed.


End delivery.

